(* ===== verification/_CoqProject ===== *)
-Q . S2P
Prelude.v
Bytes.v
Proto.v
Effects.v
Dag.v
DagFacts.v
Cache.v
CacheFacts.v
Policy.v
PolicyFacts.v
Taint.v
TaintFacts.v
Program.v
Bucket.v
RunStore.v
RunStoreFacts.v
Wait.v
WaitFacts.v
Lease.v
LeaseFacts.v
Fleet.v
FleetFacts.v
Registry.v
RegistryFacts.v
Fairness.v
FairnessFacts.v
Dynamic.v
Sched.v
DynamicFacts.v
SchedFacts.v
Plane.v
Control.v
ControlFacts.v
AdmissionFacts.v
Outbox.v
OutboxFacts.v
Trigger.v
TriggerFacts.v
Loop.v
LoopFacts.v
Operations.v
OperationsFacts.v
Definitions.v
DefinitionFacts.v
Blobs.v
BlobFacts.v
Tenancy.v
TenancyFacts.v
Collect.v
CollectFacts.v
Engine.v
EngineFacts.v
SecrecyFacts.v
PumpFacts.v
Secrets.v
SecretsFacts.v
Approval.v
ApprovalFacts.v
Server.v
ServerFacts.v
Partition.v
PartitionFacts.v
Budget.v
BudgetFacts.v
Pool.v
PoolFacts.v
Agent.v
AgentFacts.v
Builtins.v
BuiltinFacts.v
