(* ===== verification/Prelude.v ===== *)
(** * Dhole: a verified model of the workflow engine's core

    Dhole runs pipelines: a definition is a directed graph of typed steps, a run
    is an append-only log of events, and a run moves because a control plane
    reads its log, decides which steps may start, and commits each decision to
    the log before anything acts on it. Several control planes share one
    database and one bus, several engines take work from that bus, and any of
    them may stop at any moment. This library models that core and proves the
    properties it is built around.

    ** How the parts meet

    A definition ([Proto], [Dag]) is edited ([Operations]), stored as revisions
    with a head ([Definitions]), checked and ordered; a generator or a loop may
    splice more graph into it while it runs ([Dynamic], [Loop]). The run store
    ([RunStore]) keeps the log, from which [Sched] folds a run's state and plans
    what is ready. [Control] is the scheduler's own code over that plan: it asks
    policy ([Policy], [Taint]), the cache ([Cache]), the fleet ([Fleet], kept by
    [Registry]), the quotas ([Tenancy]), the fair queue ([Fairness]), the
    leases ([Lease]) and the secret broker ([Secrets]), and commits a dispatch
    with its message. [Outbox] is how that message reaches the bus, [Engine]
    what takes it off, runs it and reports. Reports come back through
    [OnStatus], dead leases through [SweepOrphans], timers through [Wait], and
    runs start from [Trigger]. What a step produced is in the stores of [Blobs],
    and is collected when nothing references it ([Collect]).

    Components that act on the world are programs of [Program]: a [cmd] is a
    call and what is done with its answer, [runs] is every trace of a program,
    one that stops in the middle included, and [safe] is the logic that proves
    of all of them that each call is made only under its guard. [Plane],
    [Engine], [Registry], [Secrets] and [Server] say what the calls are. Where the calls
    of a component are implemented by calls of another, [interp] replaces them;
    where several planes work on one store, [among] and [interleaved] run a
    program with the others' steps between its own.

    ** Files, and the code they model

    A component has a file of definitions and, where it has theorems of its
    own, a file of facts beside it with the same stem.

    - [Prelude], [Bytes]: results and loops with an early return, Go's machine
      integers, lists; strings, decimal and hexadecimal text, base64, framing,
      white space.
    - [Proto]: the messages of [proto/dhole/v1] the other files read.
    - [Effects]: [internal/effects], retry policy by effect class, backoff and
      idempotency keys.
    - [Dag]: [internal/dag], building, topological levels, type checking, file
      inputs.
    - [Cache]: [internal/cache], eligibility, the key, the table.
    - [Policy]: [internal/policy], evaluation with its program cache, the
      floor, the audit record, the guard on saving. cel-go is the class [Cel].
    - [Taint]: [internal/taint], marks on values and on references, the
      sanitisation gate, the check at dispatch.
    - [Program], [Bucket]: programs over calls and their logic; a JetStream
      key-value bucket, which [Registry], [Secrets], [Partition] and [Budget]
      share.
    - [RunStore]: [internal/runstore], both dialects: allocation of sequence
      numbers, the unique indexes, replay, the index of open runs.
    - [Wait]: [internal/wait], durable timers over the run store.
    - [Lease]: [internal/lease], every operation over a bucket with the
      documented laws of a JetStream key-value store, any number of calls in
      progress at once.
    - [Fleet]: [internal/scheduler/match.go], [internal/registry/registry.go],
      [internal/wire]: placement, its explanation, protocol negotiation.
    - [Registry]: [internal/registry/kv.go]: each engine instance one key,
      every write a compare-and-set of a function of what was read.
    - [Fairness]: [internal/scheduler/fairness.go], the weighted queue.
    - [Dynamic]: [internal/dynamic], splicing a fragment and realising it once.
    - [Sched]: what [internal/scheduler] computes from the log: the state of a
      run, the plan, inputs, commands, fences, subjects.
    - [Plane], [Control]: the calls of [internal/scheduler], and its methods as
      programs over them: [Advance], [OnStatus], [Accept], [SweepOrphans] and
      all they call. [ControlFacts] holds the theorems on what they commit,
      [AdmissionFacts] those on slots, stale reports and termination.
    - [Outbox]: [internal/outbox], the table, one drain, the backlog, and any
      number of planes draining one database.
    - [Trigger]: [internal/trigger], bindings, the cron trigger with planes
      polling its row, the completion trigger and its registry.
    - [Loop]: [internal/steps/loop] and the loop step of
      [internal/server/builtins.go].
    - [Operations]: [internal/api/operations.go], each edit with its inverse,
      the checks of [files.go], the merging of [presence.go].
    - [Definitions]: [internal/defstore] and the handlers of
      [internal/api/server.go] that save, edit, approve and read.
    - [Blobs]: [internal/blobstore] and the stores of [internal/cas].
    - [Tenancy]: [internal/tenant] and [internal/tenancy]: the register,
      quotas, the usage ledger, metering.
    - [Collect]: [gc.go] and [definitionfiles.go] of [internal/cas].
    - [Engine]: [internal/engine]: the queues it binds, what it holds, what it
      does with a dispatch and a cancel. [SecrecyFacts] is on where a secret's
      value may go, [PumpFacts] on what it takes on.
    - [Secrets]: [internal/secrets], the broker, both stores of handles, the
      step issuer, redemption over the bus.
    - [Approval]: [internal/steps/approval] and its handler in [internal/api]:
      a gate's question and its one answer, on either database.
    - [Server]: the loops of [internal/server]: what a plane does with engine
      messages, acceptance requests, reports, its ticks and a submitted run.
    - [Partition]: [internal/server/partition.go], the ring of partitions the
      planes of a deployment share, one pass of a plane and its own view.
    - [Budget]: [internal/scheduler/budget.go], the slots a pipeline may hold,
      over the bucket the planes share.
    - [Pool]: [internal/executor/pool], sandboxes kept warm between steps, any
      number of callers at once.
    - [Agent]: [internal/steps/agent], a model given a bounded loop and a closed
      set of actions; the SDK's loop is any sequence of callbacks.
    - [Builtins]: [internal/server/builtins.go] and [agent.go], the steps a plane
      runs itself: taking one, claiming and dispatching it, running its body,
      [Agent] among them, and writing what came of it.

    ** What the theorems show

    The scheduler: a dispatch is committed only for a fresh attempt of a step
    that the log just replayed makes ready, with its message, its lease and an
    engine listed that can run it, and only if policy allowed it; a verdict is
    recorded only on a report whose fence was just proved current or for a
    cache hit served under a lease, and a lost attempt only while the log has
    it in flight; a run is closed only for a reason its log gives; a superseded
    report changes nothing; no concurrency slot leaks on any path; an advance
    ends after one pass more than the cache hits it commits, no step twice. These quantify over every answer every call may
    give, so they hold whatever other planes do in between.

    The engine: a dispatch is acknowledged only once its verdict is published,
    an at-most-once step starts only once its lease was confirmed current, a
    report says what happened, nothing of a step is left behind, and a secret's
    value reaches the environment of its command and nothing else. What the
    scheduler placed on an engine of its own tier arrives on a queue that
    engine binds. Of the plane: a report is acknowledged only once it is accounted for, a heartbeat
    stops on the engine exactly the attempts that were superseded, and a run
    starts only once admitted and pinned. A step a plane runs itself runs only
    under an attempt it claimed and recorded; an agent acts only as it was
    granted and, at most once, only as a person approved.

    The stores it rests on: verdicts are unique in the log, a lease is granted
    once per attempt and a stale fence is refused, a committed message is never
    lost and is repeated only after a failure, the registry refines an abstract
    fleet whose instances keep their lifecycle, a secret handle is redeemed at
    most once and a revoked one is gone, a gate is answered once, a claim on a
    partition is taken only past its deadline, no more of a pipeline's
    dispatches hold a slot than its limit, a warm sandbox has one user at a
    time and one tenant ever, no edit of a definition is lost
    and a reference is to bytes that are there. These are about any number of planes
    working on one store.

    Decisions and graphs: [Build] accepts exactly the acyclic well-formed
    definitions and [TopoLevels] orders them; a cache hit is work alike in all
    that the key covers, which leaves a step's configuration out; an edit keeps
    a definition sound and its inverse takes it back, a removed element put
    back last; the queue is
    fair and loses nothing; a loop resumes where it was; a cron occurrence
    fires once; pipelines never start one another in a ring.

    Some theorems state a defect: the code as written has the behaviour they
    describe, and their comments say what it departs from.

    ** Fuel and bounds

    Go recursion that Rocq cannot see to end takes fuel, and each such function
    has a lemma that the fuel its callers pass is enough: the searches of [Dag]
    and [Trigger] take one more than the number of nodes, walks over values
    their size, [Fairness.Next] a bound on its turns. [Lease.take_loop] and
    [Registry.modify] keep the code's own bound on races.
    [Control.advance_loop] is bounded by the cache hits it commits
    ([AdmissionFacts.advance_terminates]), and [Outbox.drainBacklog] by the
    batches owed. [Agent.sdk_loop] and [Builtins.renewing] are unrolled any number
    of times: what they do is what some number of turns does. 64- and 32-bit integers are [Z] with their wrap-around
    written where the code computes with them.

    ** Not modelled

    Third-party code is a parameter with its documented behaviour as a named
    hypothesis where a theorem needs it: cel-go, SHA-256, protobuf and JSON
    encoding, JetStream, robfig/cron, JSON schema. Transport and process
    plumbing are left out: the HTTP and gRPC servers, the command line, the
    web interface, metrics, tracing and logs. So are the sandboxes behind the
    executor interface (containerd, Kubernetes, virtual machines), the model
    step, identity, the plugin catalogue and its signatures,
    mirroring, the importers of other systems' files, and what is generated
    from the schema. Times are instants counted in nanoseconds, read back from
    their text as they were written, except where the text's order is what the
    code uses. *)

From stdpp Require Export base tactics numbers list gmap sets strings sorting pretty relations.
From Stdlib Require Export ZArith Lia.

Declare Scope dhole_scope.
Delimit Scope dhole_scope with dhole.
#[global] Open Scope dhole_scope.
#[global] Open Scope Z_scope.
#[global] Open Scope list_scope.

(** ** Results: a Go function returning [(T, error)] *)

Inductive result (E A : Type) : Type :=
| Ok (a : A)
| Err (e : E).
Arguments Ok {E A} a.
Arguments Err {E A} e.

#[export] Instance result_ret {E} : MRet (result E) := @Ok E.
#[export] Instance result_bind {E} : MBind (result E) := λ A B f m,
  match m with Ok a => f a | Err e => Err e end.
#[export] Instance result_fmap {E} : FMap (result E) := λ A B f m,
  match m with Ok a => Ok (f a) | Err e => Err e end.

#[export] Instance result_eq_dec {E A} `{EqDecision E, EqDecision A} : EqDecision (result E A).
Proof. solve_decision. Defined.

Definition is_ok {E A} (r : result E A) : bool :=
  match r with Ok _ => true | Err _ => false end.

(** A fold that stops at the first error, as a Go loop with an early
    [return err] does. *)
Fixpoint fold_result {E A B} (f : B → A → result E B) (b : B) (l : list A) : result E B :=
  match l with
  | [] => Ok b
  | x :: l' => b' ← f b x; fold_result f b' l'
  end.

Lemma fold_result_app {E A B} (f : B → A → result E B) b l1 l2 :
  fold_result f b (l1 ++ l2) = b' ← fold_result f b l1; fold_result f b' l2.
Proof.
  revert b. induction l1 as [|x l1 IH]; intros b; simpl; [done|].
  destruct (f b x); simpl; [apply IH|done].
Qed.

(** The invariant rule for a loop that ran to its end, over the elements
    already consumed. *)
Lemma fold_result_inv {E A B} (P : list A → B → Prop) (f : B → A → result E B) b l b' :
  P [] b →
  (∀ pre x c c', P pre c → f c x = Ok c' → P (pre ++ [x]) c') →
  fold_result f b l = Ok b' → P l b'.
Proof.
  intros H0 Hstep. revert b'. induction l as [|x l IH] using rev_ind; intros b'.
  - simpl. by intros [= <-].
  - rewrite fold_result_app. destruct (fold_result f b l) as [c|] eqn:E1; simpl; [|done].
    destruct (f c x) eqn:E2; simpl; intros; simplify_eq. eapply Hstep; eauto.
Qed.

(** A loop whose every iteration succeeds under the invariant runs to its end. *)
Lemma fold_result_ok {E A B} (P : list A → B → Prop) (f : B → A → result E B) b l :
  P [] b →
  (∀ pre x post c, l = pre ++ x :: post → P pre c → ∃ c', f c x = Ok c' ∧ P (pre ++ [x]) c') →
  ∃ b', fold_result f b l = Ok b' ∧ P l b'.
Proof.
  intros H0 Hstep. induction l as [|x l IH] using rev_ind; [by exists b|].
  destruct IH as (c & Hc & HP).
  { intros pre y post c -> HP. apply (Hstep pre y (post ++ [x])); [|done]. by rewrite <-app_assoc. }
  destruct (Hstep l x [] c eq_refl HP) as (c' & Hf & HP').
  exists c'. rewrite fold_result_app, Hc. simpl. by rewrite Hf.
Qed.

(** A loop that fails does so at some element. *)
Lemma fold_result_err {E A B} (f : B → A → result E B) b l e :
  fold_result f b l = Err e → ∃ c x, f c x = Err e.
Proof.
  revert b. induction l as [|x l IH]; intros b; simpl; [done|].
  destruct (f b x) as [c|] eqn:E1; simpl; [apply IH|]. intros; simplify_eq. eauto.
Qed.

(** ** Stateful programs: a call that mutates shared state and may fail.
    The state reached before an error is kept, as it is in Go. *)

Definition prog (S E A : Type) : Type := S → S * result E A.

#[export] Instance prog_ret {S E} : MRet (prog S E) := λ A a s, (s, Ok a).
#[export] Instance prog_bind {S E} : MBind (prog S E) := λ A B f m s,
  match m s with
  | (s', Ok a) => f a s'
  | (s', Err e) => (s', Err e)
  end.

Definition pfail {S E A} (e : E) : prog S E A := λ s, (s, Err e).
Definition pget {S E} : prog S E S := λ s, (s, Ok s).
Definition pmodify {S E} (f : S → S) : prog S E unit := λ s, (f s, Ok tt).
Definition plift {S E A} (r : result E A) : prog S E A := λ s, (s, r).

(** ** Machine integers *)

Definition two32 : Z := 4294967296.
Definition two63 : Z := 9223372036854775808.
Definition two64 : Z := 18446744073709551616.

Definition u32 (z : Z) : Z := z mod two32.
Definition u64 (z : Z) : Z := z mod two64.
Definition i64 (z : Z) : Z := (z + two63) mod two64 - two63.

Lemma u32_range z : 0 ≤ u32 z < two32.
Proof. apply Z.mod_pos_bound. reflexivity. Qed.

Lemma u32_id z : 0 ≤ z < two32 → u32 z = z.
Proof. apply Z.mod_small. Qed.

Lemma u64_range z : 0 ≤ u64 z < two64.
Proof. apply Z.mod_pos_bound. reflexivity. Qed.

Lemma u64_id z : 0 ≤ z < two64 → u64 z = z.
Proof. apply Z.mod_small. Qed.

Lemma i64_id z : - two63 ≤ z < two63 → i64 z = z.
Proof. unfold i64, two63, two64. intros. rewrite Z.mod_small; lia. Qed.

Lemma i64_range z : - two63 ≤ i64 z < two63.
Proof.
  unfold i64. pose proof (Z.mod_pos_bound (z + two63) two64 ltac:(reflexivity)).
  unfold two63, two64 in *. lia.
Qed.

Create HintDb dhole discriminated.
Create Rewrite HintDb dhole.
#[global] Hint Resolve u32_range u64_range i64_range : dhole.
#[export] Hint Rewrite u32_id u64_id i64_id using lia : dhole.

(** ** Tactics *)

(** Splits every hypothesis saying a bind returned [Ok]. *)
Ltac res_inv :=
  repeat match goal with
  | H : Ok _ = Ok _ |- _ => injection H as H
  | H : Ok _ = Err _ |- _ => discriminate H
  | H : Err _ = Ok _ |- _ => discriminate H
  | H : (_ ≫= _) = Ok _ |- _ =>
      let x := fresh "r" in let E := fresh "E" in
      unfold mbind, result_bind in H;
      match type of H with
      | match ?m with _ => _ end = Ok _ => destruct m as [x|] eqn:E; [|discriminate H]
      end
  | H : match ?m with Ok _ => _ | Err _ => _ end = Ok _ |- _ =>
      let x := fresh "r" in let E := fresh "E" in
      destruct m as [x|] eqn:E; [|discriminate H]
  end.

(** Case analysis on every [if]/[match] a hypothesis is stuck on. *)
Ltac case_hyp H :=
  match type of H with
  | context [match ?x with _ => _ end] => destruct x eqn:?; simplify_eq/=
  end.

(** ** Counting in duplicate-free lists *)

Lemma filter_ext_in {A} (P Q : A → Prop) `{∀ x, Decision (P x), ∀ x, Decision (Q x)} (l : list A) :
  (∀ x, x ∈ l → P x ↔ Q x) → filter P l = filter Q l.
Proof.
  induction l as [|x l IH]; intros Hiff; [done|]. rewrite !filter_cons.
  rewrite IH by (intros; apply Hiff; by right).
  destruct (decide (P x)) as [HP|HP], (decide (Q x)) as [HQ|HQ]; try done;
    exfalso; apply Hiff in HP || apply HP, Hiff; (done || by left).
Qed.

Lemma filter_length_flip {A} `{EqDecision A} (P Q : A → Prop)
    `{∀ x, Decision (P x), ∀ x, Decision (Q x)} (l : list A) (a : A) :
  NoDup l → a ∈ l → ¬ P a → Q a → (∀ x, x ≠ a → P x ↔ Q x) →
  length (filter Q l) = S (length (filter P l)).
Proof.
  intros Hnd Ha HPa HQa Hiff. induction l as [|x l IH]; [by apply elem_of_nil in Ha|].
  apply NoDup_cons in Hnd as [Hx Hnd]. rewrite !filter_cons.
  destruct (decide (x = a)) as [->|Hne].
  - rewrite decide_True, decide_False by done. simpl. f_equal. f_equal.
    apply filter_ext_in. intros y Hy. symmetry. apply Hiff. by intros ->.
  - apply elem_of_cons in Ha as [->|Ha]; [done|].
    destruct (decide (P x)) as [HP|HP].
    + rewrite decide_True by (by apply Hiff). simpl. by rewrite IH.
    + rewrite decide_False by (by rewrite <-Hiff). by apply IH.
Qed.

Lemma filter_all_in {A} (P : A → Prop) `{∀ x, Decision (P x)} (l : list A) :
  (∀ x, x ∈ l → P x) → filter P l = l.
Proof.
  induction l as [|x l IH]; intros Hall; [done|]. rewrite filter_cons, decide_True by (apply Hall; by left).
  f_equal. apply IH. intros y Hy. apply Hall. by right.
Qed.

Lemma filter_none_in {A} (P : A → Prop) `{∀ x, Decision (P x)} (l : list A) :
  (∀ x, x ∈ l → ¬ P x) → filter P l = [].
Proof.
  induction l as [|x l IH]; intros Hall; [done|]. rewrite filter_cons, decide_False by (apply Hall; by left).
  apply IH. intros y Hy. apply Hall. by right.
Qed.

Lemma filter_length_le {A} (P Q : A → Prop)
    `{∀ x, Decision (P x), ∀ x, Decision (Q x)} (l : list A) :
  (∀ x, x ∈ l → P x → Q x) → (length (filter P l) ≤ length (filter Q l))%nat.
Proof.
  induction l as [|y l IH]; intros Himp; [done|]. rewrite !filter_cons.
  specialize (IH ltac:(intros; apply Himp; [by right|done])).
  destruct (decide (P y)), (decide (Q y)); simpl; try lia.
  destruct n. apply Himp; [by left|done].
Qed.

Lemma filter_length_lt {A} (P Q : A → Prop)
    `{∀ x, Decision (P x), ∀ x, Decision (Q x)} (l : list A) (a : A) :
  a ∈ l → ¬ P a → Q a → (∀ x, x ∈ l → P x → Q x) →
  (length (filter P l) < length (filter Q l))%nat.
Proof.
  intros Ha HPa HQa. induction l as [|x l IH]; intros Himp; [by apply elem_of_nil in Ha|].
  pose proof (filter_length_le P Q l ltac:(intros; apply Himp; [by right|done])) as Hle.
  rewrite !filter_cons. apply elem_of_cons in Ha as [->|Ha].
  - rewrite decide_False, decide_True by done. simpl. lia.
  - specialize (IH Ha ltac:(intros; apply Himp; [by right|done])).
    destruct (decide (P x)), (decide (Q x)); simpl; try lia.
    destruct n. apply Himp; [by left|done].
Qed.

(** The rule of invariants along a run of a step relation. *)
Lemma rtc_invariant {A} (R : relation A) (P : A → Prop) x y :
  (∀ a b, P a → R a b → P b) → rtc R x y → P x → P y.
Proof. intros Hstep. induction 1; eauto. Qed.

Lemma StronglySorted_filter {A} (R : relation A) (P : A → Prop) `{∀ x, Decision (P x)} l :
  StronglySorted R l → StronglySorted R (filter P l).
Proof.
  induction 1 as [|x l Hs IH Hall]; [by constructor|]. rewrite filter_cons.
  case_decide; [|done]. constructor; [done|]. rewrite Forall_forall in *.
  intros y [_ Hy]%list_elem_of_filter. by apply Hall.
Qed.

Lemma Sorted_mono {A} (R S : relation A) l :
  (∀ x y, R x y → S x y) → Sorted R l → Sorted S l.
Proof.
  intros HRS. induction 1 as [|x l Hs IH Hh]; constructor; [done|].
  destruct Hh; constructor. auto.
Qed.

Lemma elem_of_flat_map {A B} (f : A → list B) l x :
  x ∈ flat_map f l ↔ ∃ y, y ∈ l ∧ x ∈ f y.
Proof.
  rewrite list_elem_of_In, in_flat_map. split; intros (y & Hy & Hx); exists y.
  - split; by apply list_elem_of_In.
  - split; by apply list_elem_of_In.
Qed.

(** Selecting from a map's entries keeps their keys apart. *)
Lemma NoDup_omap_key {K V A} (g : K * V → option A) (f : A → K) (l : list (K * V)) :
  (∀ p a, p ∈ l → g p = Some a → f a = p.1) → NoDup l.*1 → NoDup (f <$> omap g l).
Proof.
  induction l as [|[k v] l IH]; intros Hg Hnd; [by apply NoDup_nil|].
  rewrite fmap_cons in Hnd. apply NoDup_cons in Hnd as [Hni Hnd].
  assert (IH' : NoDup (f <$> omap g l)).
  { apply IH; [|done]. intros p a Hp. apply Hg. by right. }
  simpl. destruct (g (k, v)) as [a|] eqn:E; [|done]. rewrite fmap_cons. apply NoDup_cons. split; [|done].
  rewrite (Hg (k, v) a) by (done || by left). intros (b & Eb & Hb)%list_elem_of_fmap.
  apply list_elem_of_omap in Hb as ([k' v'] & Hin & Hs). apply Hni, list_elem_of_fmap.
  exists (k', v'). split; [|done]. rewrite Eb. apply (Hg (k', v')); [by right|done].
Qed.
