(* ===== verification/Bytes.v ===== *)
(** * Bytes and strings: the Go standard library the model relies on

    Go strings and byte slices are both [string] here. The file models what
    the source uses of [strconv], [encoding/binary], [encoding/base64] and
    [sort], with the injectivity and round-trip lemmas the codecs need. *)

From Stdlib Require Import Ascii DecimalString DecimalN DecimalFacts.
From S2P Require Import Prelude.

#[global] Arguments String.append : simpl nomatch.

(** ** Concatenation *)

Lemma string_app_assoc (a b c : string) : (a +:+ b) +:+ c = a +:+ (b +:+ c).
Proof. induction a; simpl; congruence. Qed.

Lemma string_app_nil_r (a : string) : a +:+ "" = a.
Proof. induction a; simpl; congruence. Qed.

Lemma string_app_length (a b : string) :
  String.length (a +:+ b) = (String.length a + String.length b)%nat.
Proof. induction a; simpl; congruence. Qed.

Lemma string_app_inj (a b x y : string) :
  String.length a = String.length b → a +:+ x = b +:+ y → a = b ∧ x = y.
Proof.
  revert b. induction a as [|c a IH]; intros [|d b] Hl He; simplify_eq/=; [done|].
  destruct (IH b) as [-> ->]; auto.
Qed.

Lemma string_app_inj_l (a x y : string) : a +:+ x = a +:+ y → x = y.
Proof. intros H. by apply string_app_inj in H as [_ ?]. Qed.

Fixpoint string_all (P : ascii → bool) (s : string) : bool :=
  match s with
  | EmptyString => true
  | String c s' => P c && string_all P s'
  end.

Lemma string_all_app P a b :
  string_all P (a +:+ b) = string_all P a && string_all P b.
Proof. induction a as [|c a IH]; simpl; [done|]. by rewrite IH, andb_assoc. Qed.

(** A separator that occurs in neither prefix splits the string one way. *)
Lemma string_sep_inj (c : ascii) (a b x y : string) :
  string_all (λ d, negb (Ascii.eqb d c)) a = true →
  string_all (λ d, negb (Ascii.eqb d c)) b = true →
  a +:+ String c x = b +:+ String c y → a = b ∧ x = y.
Proof.
  revert b. induction a as [|d a IH]; intros [|e b] Ha Hb He; simplify_eq/=; auto.
  - by rewrite Ascii.eqb_refl in Hb.
  - by rewrite Ascii.eqb_refl in Ha.
  - apply andb_true_iff in Ha as [_ Ha], Hb as [_ Hb].
    destruct (IH b Ha Hb) as [-> ->]; auto.
Qed.

(** [strings.Split(s, sep)] for a one-byte separator. *)
Fixpoint split_on (c : ascii) (s : string) : list string :=
  match s with
  | EmptyString => [""]
  | String d s' =>
      if Ascii.eqb d c then "" :: split_on c s'
      else match split_on c s' with
           | [] => [String d ""]
           | x :: xs => String d x :: xs
           end
  end.

Lemma split_on_none c s :
  string_all (λ d, negb (Ascii.eqb d c)) s = true → split_on c s = [s].
Proof.
  induction s as [|d s IH]; simpl; [done|]. intros [Hd Hs]%andb_true_iff.
  apply negb_true_iff in Hd. by rewrite Hd, (IH Hs).
Qed.

Lemma split_on_app c s t :
  string_all (λ d, negb (Ascii.eqb d c)) s = true →
  split_on c (s +:+ String c t) = s :: split_on c t.
Proof.
  induction s as [|d s IH]; simpl.
  - by rewrite Ascii.eqb_refl.
  - intros [Hd Hs]%andb_true_iff. apply negb_true_iff in Hd. by rewrite Hd, (IH Hs).
Qed.

(** [strings.Join]. *)
Fixpoint join (sep : string) (l : list string) : string :=
  match l with
  | [] => ""
  | [x] => x
  | x :: l' => x +:+ sep +:+ join sep l'
  end.

(** [strings.HasPrefix] and [strings.TrimPrefix]. *)
Fixpoint has_prefix (p s : string) : bool :=
  match p, s with
  | EmptyString, _ => true
  | String c p', String d s' => Ascii.eqb c d && has_prefix p' s'
  | _, _ => false
  end.

Fixpoint drop_string (n : nat) (s : string) : string :=
  match n, s with
  | S n', String _ s' => drop_string n' s'
  | _, _ => s
  end.

Definition trim_prefix (p s : string) : string :=
  if has_prefix p s then drop_string (String.length p) s else s.

Lemma has_prefix_app p s : has_prefix p (p +:+ s) = true.
Proof. induction p; simpl; [done|]. by rewrite Ascii.eqb_refl. Qed.

Lemma has_prefix_spec p s : has_prefix p s = true → ∃ r, s = p +:+ r.
Proof.
  revert s. induction p as [|c p IH]; intros s; simpl; [by exists s|].
  destruct s as [|d s]; [done|]. intros [->%Ascii.eqb_eq Hs]%andb_true_iff.
  destruct (IH s Hs) as [r ->]. by exists r.
Qed.

Lemma trim_prefix_app p s : trim_prefix p (p +:+ s) = s.
Proof.
  unfold trim_prefix. rewrite has_prefix_app. induction p; simpl; auto.
Qed.

(** ** Decimal integers: [%d], [strconv.FormatUint] and [strconv.ParseUint] *)

Definition dec_N (n : N) : string := NilZero.string_of_uint (N.to_uint n).

Definition dec_Z (z : Z) : string :=
  if bool_decide (z < 0) then "-" +:+ dec_N (Z.to_N (- z)) else dec_N (Z.to_N z).

Lemma dec_Z_nonneg z : 0 ≤ z → dec_Z z = dec_N (Z.to_N z).
Proof. intros Hz. unfold dec_Z. by rewrite bool_decide_false by lia. Qed.

(** [strconv.ParseUint(s, 10, 64)]. *)
Definition parse_uint64 (s : string) : option Z :=
  match NilZero.uint_of_string s with
  | Some d =>
      let n := Z.of_N (N.of_uint d) in
      if bool_decide (n < two64) then Some n else None
  | None => None
  end.

Definition is_digit (c : ascii) : bool :=
  bool_decide (48 ≤ Z.of_N (N_of_ascii c) ≤ 57).

Lemma dec_N_nonnil n : N.to_uint n ≠ Decimal.Nil.
Proof.
  intros Hn. destruct n as [|p]; [done|]. simpl in Hn.
  pose proof (DecimalPos.Unsigned.to_uint_nonzero p) as H0.
  pose proof (DecimalPos.Unsigned.to_uint_nonnil p). congruence.
Qed.

Lemma parse_dec_N n : Z.of_N n < two64 → parse_uint64 (dec_N n) = Some (Z.of_N n).
Proof.
  intros Hn. unfold parse_uint64, dec_N. rewrite NilZero.usu by apply dec_N_nonnil.
  rewrite DecimalN.Unsigned.of_to, bool_decide_true by done. done.
Qed.

#[export] Instance dec_N_inj : Inj (=) (=) dec_N.
Proof.
  intros m n H. apply (f_equal NilZero.uint_of_string) in H. unfold dec_N in H.
  rewrite !NilZero.usu in H by apply dec_N_nonnil. injection H as H.
  by apply DecimalN.Unsigned.to_uint_inj in H.
Qed.

Lemma nilempty_digits d : string_all is_digit (NilEmpty.string_of_uint d) = true.
Proof. induction d; simpl; auto. Qed.

Lemma dec_N_digits n : string_all is_digit (dec_N n) = true.
Proof.
  unfold dec_N. destruct (N.to_uint n) eqn:E; try apply nilempty_digits; done.
Qed.

Lemma digits_no_sep c s :
  is_digit c = false → string_all is_digit s = true →
  string_all (λ d, negb (Ascii.eqb d c)) s = true.
Proof.
  intros Hc. induction s as [|d s IH]; simpl; [done|].
  intros [Hd Hs]%andb_true_iff. rewrite IH, andb_true_r by done.
  apply negb_true_iff, Ascii.eqb_neq. intros ->. congruence.
Qed.

(** ** [encoding/binary.BigEndian] *)

Definition byte_of (z : Z) : ascii := ascii_of_N (Z.to_N (z mod 256)).
Definition byte_val (c : ascii) : Z := Z.of_N (N_of_ascii c).

Fixpoint be_bytes (k : nat) (z : Z) : string :=
  match k with
  | O => ""
  | S k' => String (byte_of (z / 256 ^ Z.of_nat k')) (be_bytes k' z)
  end.

Fixpoint be_value (acc : Z) (s : string) : Z :=
  match s with
  | EmptyString => acc
  | String c s' => be_value (acc * 256 + byte_val c) s'
  end.

(** [binary.BigEndian.PutUint64] / [AppendUint64] and [Uint64]. *)
Definition be64 (z : Z) : string := be_bytes 8 z.
Definition uint64_of (s : string) : Z := be_value 0 s.

Lemma byte_val_range c : 0 ≤ byte_val c < 256.
Proof. unfold byte_val. pose proof (N_ascii_bounded c). lia. Qed.

Lemma byte_val_of z : byte_val (byte_of z) = z mod 256.
Proof.
  unfold byte_val, byte_of. pose proof (Z.mod_pos_bound z 256 ltac:(lia)).
  rewrite N_ascii_embedding by lia. lia.
Qed.

Lemma byte_of_val c : byte_of (byte_val c) = c.
Proof.
  unfold byte_of. rewrite Z.mod_small by apply byte_val_range.
  unfold byte_val. rewrite N2Z.id. apply ascii_N_embedding.
Qed.

Lemma byte_of_eq z c : z mod 256 = byte_val c → byte_of z = c.
Proof. intros H. rewrite <-(byte_of_val c), <-H. unfold byte_of. by rewrite Zmod_mod. Qed.

(** Strings are processed three bytes at a time. *)
Lemma be_bytes_length k z : String.length (be_bytes k z) = k.
Proof. induction k; simpl; congruence. Qed.

Lemma be64_length z : String.length (be64 z) = 8%nat.
Proof. apply be_bytes_length. Qed.

Lemma be_value_bytes k z acc :
  be_value acc (be_bytes k z) = acc * 256 ^ Z.of_nat k + z mod 256 ^ Z.of_nat k.
Proof.
  revert acc. induction k as [|k IH]; intros acc.
  - simpl. change (256 ^ Z.of_nat 0) with 1. rewrite Z.mod_1_r. lia.
  - cbn [be_bytes be_value]. rewrite IH, byte_val_of.
    rewrite Nat2Z.inj_succ, Z.pow_succ_r by lia. set (p := 256 ^ Z.of_nat k).
    assert (0 < p) by (apply Z.pow_pos_nonneg; lia).
    rewrite (Z.mul_comm 256 p), Z.rem_mul_r by lia. ring.
Qed.

Lemma be_value_nonneg_acc acc s : 0 ≤ acc → 0 ≤ be_value acc s.
Proof.
  revert acc. induction s as [|c s IH]; intros acc Ha; simpl; [done|].
  apply IH. pose proof (byte_val_range c). lia.
Qed.

Lemma be_value_nonneg s : 0 ≤ uint64_of s.
Proof. by apply be_value_nonneg_acc. Qed.

Lemma uint64_of_be64 z : 0 ≤ z < two64 → uint64_of (be64 z) = z.
Proof.
  intros. unfold uint64_of, be64. rewrite be_value_bytes.
  change (256 ^ Z.of_nat 8) with two64. rewrite Z.mod_small by done. lia.
Qed.

Lemma be64_inj x y : 0 ≤ x < two64 → 0 ≤ y < two64 → be64 x = be64 y → x = y.
Proof. intros Hx Hy E. by rewrite <-(uint64_of_be64 x), E, uint64_of_be64. Qed.

Lemma be_value_split acc s :
  be_value acc s = acc * 256 ^ Z.of_nat (String.length s) + be_value 0 s
  ∧ 0 ≤ be_value 0 s < 256 ^ Z.of_nat (String.length s).
Proof.
  revert acc. induction s as [|c s IH]; intros acc; [simpl; lia|].
  cbn [be_value String.length]. rewrite Nat2Z.inj_succ, Z.pow_succ_r by lia.
  destruct (IH (acc * 256 + byte_val c)) as [E1 Hb], (IH (0 * 256 + byte_val c)) as [E2 _].
  rewrite E1, E2. pose proof (byte_val_range c). nia.
Qed.

Lemma be_bytes_value s acc : be_bytes (String.length s) (be_value acc s) = s.
Proof.
  revert acc. induction s as [|c s IH]; intros acc; [done|].
  cbn [be_value String.length be_bytes]. f_equal; [|apply IH].
  destruct (be_value_split (acc * 256 + byte_val c) s) as [E Hb]. rewrite E.
  rewrite Z.div_add_l, (Z.div_small (be_value 0 s)), Z.add_0_r by lia.
  apply byte_of_eq. rewrite Z.add_comm, Z.mod_add by lia. apply Z.mod_small, byte_val_range.
Qed.

Lemma be64_uint64_of s : String.length s = 8%nat → be64 (uint64_of s) = s.
Proof. intros E. unfold be64, uint64_of. rewrite <-E. apply be_bytes_value. Qed.

(** ** Length-prefixed fields *)

Fixpoint take_string (n : nat) (s : string) : option (string * string) :=
  match n, s with
  | O, _ => Some ("", s)
  | S n', String c s' => p ← take_string n' s'; Some (String c p.1, p.2)
  | S _, EmptyString => None
  end.

Lemma take_string_app a s : take_string (String.length a) (a +:+ s) = Some (a, s).
Proof. induction a as [|c a IH]; simpl; [by destruct s|]. by rewrite IH. Qed.

Lemma take_string_Some n s a r :
  take_string n s = Some (a, r) → s = a +:+ r ∧ String.length a = n.
Proof.
  revert s a. induction n as [|n IH]; intros s a; simpl.
  - destruct s; intros; by simplify_eq.
  - destruct s as [|c s]; [done|].
    destruct (take_string n s) as [[b t]|] eqn:E; simpl; intros; simplify_eq.
    apply IH in E as [-> <-]. done.
Qed.

Lemma take_string_None n s : take_string n s = None ↔ (String.length s < n)%nat.
Proof.
  revert s. induction n as [|n IH]; intros s; simpl; [destruct s; split; intros; (done || lia)|].
  destruct s as [|c s]; simpl; [split; [lia|done]|].
  specialize (IH s). destruct (take_string n s) as [p|]; simpl.
  - split; [done|]. intros. assert (Some p = None); [|done]. apply IH. lia.
  - split; [|done]. intros _. assert (String.length s < n)%nat by by apply IH. lia.
Qed.

(** A length that a Go [int] can hold. *)
Definition len64 (s : string) : Prop := Z.of_nat (String.length s) < two63.

#[export] Instance len64_dec s : Decision (len64 s).
Proof. unfold len64. apply _. Defined.

Definition frame (s : string) : string := be64 (Z.of_nat (String.length s)) +:+ s.

#[global] Arguments be64 _ : simpl never.
#[global] Arguments frame _ : simpl never.

Lemma be64_app_inj m n x y :
  0 ≤ m < two64 → 0 ≤ n < two64 → be64 m +:+ x = be64 n +:+ y → m = n ∧ x = y.
Proof.
  intros Hm Hn [E ->]%string_app_inj; [|by rewrite !be64_length].
  split; [|done]. by apply be64_inj.
Qed.

Lemma frame_inj a b x y :
  len64 a → len64 b → frame a +:+ x = frame b +:+ y → a = b ∧ x = y.
Proof.
  unfold len64, frame, two63. intros Ha Hb.
  rewrite !string_app_assoc. intros [E1 E2]%be64_app_inj; [|unfold two64; lia..].
  apply string_app_inj in E2; [done|]. apply Nat2Z.inj. done.
Qed.

(** ** [base64.RawURLEncoding] *)

Definition b64_char (z : Z) : ascii :=
  ascii_of_N (Z.to_N
    (if bool_decide (z < 26) then 65 + z
     else if bool_decide (z < 52) then 97 + (z - 26)
     else if bool_decide (z < 62) then 48 + (z - 52)
     else if bool_decide (z = 62) then 45 else 95)).

Definition b64_val (c : ascii) : option Z :=
  let z := byte_val c in
  if bool_decide (65 ≤ z ≤ 90) then Some (z - 65)
  else if bool_decide (97 ≤ z ≤ 122) then Some (z - 97 + 26)
  else if bool_decide (48 ≤ z ≤ 57) then Some (z - 48 + 52)
  else if bool_decide (z = 45) then Some 62
  else if bool_decide (z = 95) then Some 63
  else None.

Fixpoint b64_encode (s : string) : string :=
  match s with
  | EmptyString => ""
  | String a EmptyString =>
      let a := byte_val a in
      String (b64_char (a / 4)) (String (b64_char (a mod 4 * 16)) "")
  | String a (String b EmptyString) =>
      let a := byte_val a in let b := byte_val b in
      String (b64_char (a / 4)) (String (b64_char (a mod 4 * 16 + b / 16))
        (String (b64_char (b mod 16 * 4)) ""))
  | String a (String b (String c r)) =>
      let a := byte_val a in let b := byte_val b in let c := byte_val c in
      String (b64_char (a / 4)) (String (b64_char (a mod 4 * 16 + b / 16))
        (String (b64_char (b mod 16 * 4 + c / 64)) (String (b64_char (c mod 64))
          (b64_encode r))))
  end.

(** Whole quanta of four characters, then a tail of two or three; one left
    over character, or any character outside the alphabet, is corrupt. *)
Fixpoint b64_quanta (s : string) : option string :=
  match s with
  | EmptyString => Some ""
  | String a (String b EmptyString) =>
      a ← b64_val a; b ← b64_val b; Some (String (byte_of (a * 4 + b / 16)) "")
  | String a (String b (String c EmptyString)) =>
      a ← b64_val a; b ← b64_val b; c ← b64_val c;
      Some (String (byte_of (a * 4 + b / 16)) (String (byte_of (b * 16 + c / 4)) ""))
  | String a (String b (String c (String d r))) =>
      a ← b64_val a; b ← b64_val b; c ← b64_val c; d ← b64_val d;
      t ← b64_quanta r;
      Some (String (byte_of (a * 4 + b / 16)) (String (byte_of (b * 16 + c / 4))
             (String (byte_of (c * 64 + d)) t)))
  | String _ EmptyString => None
  end.

(** [DecodeString] skips line breaks before reading quanta. *)
Fixpoint strip_newlines (s : string) : string :=
  match s with
  | EmptyString => ""
  | String c r =>
      if bool_decide (byte_val c = 10 ∨ byte_val c = 13) then strip_newlines r
      else String c (strip_newlines r)
  end.

Definition b64_decode (s : string) : option string := b64_quanta (strip_newlines s).

Definition b64_alphabet (c : ascii) : bool := bool_decide (is_Some (b64_val c)).

Lemma b64_val_char z : 0 ≤ z < 64 → b64_val (b64_char z) = Some z.
Proof.
  intros Hz. assert (Hall : forallb (λ n, bool_decide
    (b64_val (b64_char (Z.of_nat n)) = Some (Z.of_nat n))) (seq 0 64) = true)
    by (vm_compute; reflexivity).
  rewrite forallb_forall in Hall. specialize (Hall (Z.to_nat z)).
  rewrite Z2Nat.id in Hall by lia. eapply bool_decide_eq_true_1, Hall, in_seq. lia.
Qed.

Lemma string_ind3 (P : string → Prop) :
  P "" → (∀ a, P (String a "")) → (∀ a b, P (String a (String b ""))) →
  (∀ a b c r, P r → P (String a (String b (String c r)))) → ∀ s, P s.
Proof.
  intros H0 H1 H2 H3. fix IH 1.
  intros [|a [|b [|c r]]]; [apply H0|apply H1|apply H2|apply H3, IH].
Qed.

Ltac byte_bounds :=
  repeat match goal with
  | c : ascii |- _ =>
      lazymatch goal with
      | _ : 0 ≤ byte_val c < 256 |- _ => fail
      | _ => pose proof (byte_val_range c)
      end
  end.

Ltac div_bounds := Z.div_mod_to_equations; lia.

Lemma b64_quanta_encode s : b64_quanta (b64_encode s) = Some s.
Proof.
  induction s as [| a | a b | a b c r IH] using string_ind3; byte_bounds;
    cbn [b64_encode b64_quanta]; [done|..];
    rewrite !b64_val_char by div_bounds; cbn [mbind option_bind]; rewrite ?IH; simpl;
    repeat f_equal; apply byte_of_eq; div_bounds.
Qed.

Lemma b64_char_not_newline z : 0 ≤ z < 64 → bool_decide
  (byte_val (b64_char z) = 10 ∨ byte_val (b64_char z) = 13) = false.
Proof.
  intros Hz. apply bool_decide_eq_false_2. intros Hn.
  pose proof (b64_val_char z Hz) as Hv. unfold b64_val in Hv.
  destruct Hn as [E|E]; rewrite E in Hv; vm_compute in Hv; done.
Qed.

Lemma strip_newlines_encode s : strip_newlines (b64_encode s) = b64_encode s.
Proof.
  induction s as [| a | a b | a b c r IH] using string_ind3; byte_bounds;
    cbn [b64_encode strip_newlines]; [done|..];
    rewrite !b64_char_not_newline by div_bounds; by rewrite ?IH.
Qed.

Lemma b64_decode_encode s : b64_decode (b64_encode s) = Some s.
Proof. unfold b64_decode. by rewrite strip_newlines_encode, b64_quanta_encode. Qed.

#[export] Instance b64_encode_inj : Inj (=) (=) b64_encode.
Proof. intros x y H. apply (f_equal b64_decode) in H. rewrite !b64_decode_encode in H. congruence. Qed.

Lemma b64_encode_alphabet s : string_all b64_alphabet (b64_encode s) = true.
Proof.
  induction s as [| a | a b | a b c r IH] using string_ind3; byte_bounds;
    cbn [b64_encode string_all]; [done|..];
    unfold b64_alphabet in *; rewrite !b64_val_char by div_bounds; by rewrite ?IH.
Qed.

(** No encoded segment holds a byte outside the alphabet, '.' in particular. *)
Lemma b64_encode_no_sep c s :
  b64_val c = None → string_all (λ d, negb (Ascii.eqb d c)) (b64_encode s) = true.
Proof.
  intros Hc. pose proof (b64_encode_alphabet s) as Ha. revert Ha.
  induction (b64_encode s) as [|d t IH]; simpl; [done|].
  intros [Hd Ht]%andb_true_iff. rewrite IH, andb_true_r by done.
  apply negb_true_iff, Ascii.eqb_neq. intros ->.
  apply bool_decide_eq_true_1 in Hd as [? ?]. congruence.
Qed.

(** ** [sort.Strings] *)

Definition sort_strings (l : list string) : list string := merge_sort String.le l.

Lemma sort_strings_perm l : sort_strings l ≡ₚ l.
Proof. apply merge_sort_Permutation. Qed.

Lemma sort_strings_sorted l : StronglySorted String.le (sort_strings l).
Proof. apply StronglySorted_merge_sort; apply _. Qed.

(** [slices.Compact]: runs of equal neighbours become one. *)
Fixpoint compact (l : list string) : list string :=
  match l with
  | [] => []
  | x :: l' => match l' with
               | y :: _ => if decide (x = y) then compact l' else x :: compact l'
               | [] => [x]
               end
  end.

Lemma elem_of_compact x l : x ∈ compact l ↔ x ∈ l.
Proof.
  induction l as [|a l IH]; [done|]. cbn [compact]. destruct l as [|b l]; [done|].
  case_decide as Hab; rewrite ?elem_of_cons, ?IH; set_solver.
Qed.

Lemma elem_of_sort_strings x l : x ∈ sort_strings l ↔ x ∈ l.
Proof. by rewrite sort_strings_perm. Qed.

Lemma NoDup_sort_strings l : NoDup (sort_strings l) ↔ NoDup l.
Proof. by rewrite sort_strings_perm. Qed.

(** The sorted order is a function of the multiset. *)
Lemma sort_strings_unique l1 l2 : l1 ≡ₚ l2 → sort_strings l1 = sort_strings l2.
Proof.
  intros Hp. apply (StronglySorted_unique String.le).
  - apply sort_strings_sorted.
  - apply sort_strings_sorted.
  - by rewrite !sort_strings_perm.
Qed.

#[export] Instance sort_strings_proper : Proper ((≡ₚ) ==> (=)) sort_strings.
Proof. intros l1 l2. apply sort_strings_unique. Qed.

#[export] Hint Rewrite elem_of_sort_strings : dhole.

(** ** [encoding/hex] and hash functions *)

Definition hex_char (z : Z) : ascii :=
  ascii_of_N (Z.to_N (if bool_decide (z < 10) then 48 + z else 87 + z)).

Fixpoint hex_encode (s : string) : string :=
  match s with
  | EmptyString => ""
  | String c r =>
      String (hex_char (byte_val c / 16)) (String (hex_char (byte_val c mod 16)) (hex_encode r))
  end.

Lemma hex_char_inj x y : 0 ≤ x < 16 → 0 ≤ y < 16 → hex_char x = hex_char y → x = y.
Proof.
  intros Hx Hy H. apply (f_equal byte_val) in H. unfold hex_char, byte_val in H.
  repeat case_bool_decide; rewrite !N_ascii_embedding in H by lia; lia.
Qed.

#[export] Instance hex_encode_inj : Inj (=) (=) hex_encode.
Proof.
  intros x. induction x as [|c x IH]; intros [|d y]; simpl; [done..|].
  injection 1 as H1 H2 H3. byte_bounds.
  apply hex_char_inj in H1; [|div_bounds..]. apply hex_char_inj in H2; [|div_bounds..].
  apply IH in H3 as ->. f_equal. rewrite <-(byte_of_val c), <-(byte_of_val d).
  f_equal. rewrite (Z.div_mod (byte_val c) 16), (Z.div_mod (byte_val d) 16) by lia. lia.
Qed.

(** Two inputs a hash function fails to tell apart. *)
Definition collision (h : string → string) (x y : string) : Prop := x ≠ y ∧ h x = h y.

Lemma hash_eq (h : string → string) x y : h x = h y ↔ x = y ∨ collision h x y.
Proof.
  unfold collision. split; [|intros [->|[_ ?]]; done].
  intros H. destruct (decide (x = y)); auto.
Qed.

(** [%q]: the string between double quotes, with quotes, backslashes and
    control bytes escaped. Printable text above ASCII is kept as it is. *)
Definition quote_char : ascii := ascii_of_N 34.
Definition backslash : ascii := ascii_of_N 92.

Fixpoint quote_body (s : string) : string :=
  match s with
  | EmptyString => ""
  | String c r =>
      let z := byte_val c in
      (if bool_decide (z = 34 ∨ z = 92) then String backslash (String c "")
       else if bool_decide (z = 10) then String backslash "n"
       else if bool_decide (z = 9) then String backslash "t"
       else if bool_decide (z = 13) then String backslash "r"
       else if bool_decide (z < 32 ∨ z = 127)
       then String backslash (String "x" (hex_encode (String c "")))
       else String c "") +:+ quote_body r
  end.

Definition quote (s : string) : string :=
  String quote_char (quote_body s +:+ String quote_char "").

(** ** [strings.TrimSpace]: the white space of Unicode, as UTF-8 *)

Definition of_bytes (l : list Z) : string := foldr (λ z s, String (byte_of z) s) "" l.

Definition space_encodings : list string :=
  map of_bytes
    ([[9]; [10]; [11]; [12]; [13]; [32]; [194; 133]; [194; 160]; [225; 154; 128]]
     ++ map (λ k, [226; 128; 128 + Z.of_nat k]) (seq 0 11)
     ++ [[226; 128; 168]; [226; 128; 169]; [226; 128; 175]; [226; 129; 159]; [227; 128; 128]]).

Definition cut_prefix (s p : string) : option string :=
  if has_prefix p s then Some (String.substring (String.length p) (String.length s - String.length p) s) else None.
Definition cut_suffix (s p : string) : option string :=
  if bool_decide (String.length p ≤ String.length s)%nat
     && bool_decide (String.substring (String.length s - String.length p) (String.length p) s = p)
  then Some (String.substring 0 (String.length s - String.length p) s) else None.

Fixpoint trim_with (cut : string → string → option string) (fuel : nat) (s : string) : string :=
  match fuel with
  | O => s
  | S fuel =>
      match omap (cut s) space_encodings with
      | s' :: _ => trim_with cut fuel s'
      | [] => s
      end
  end.

Definition TrimSpace (s : string) : string :=
  let s := trim_with cut_prefix (String.length s) s in
  trim_with cut_suffix (String.length s) s.

(** ** A code for countable data, in the characters 0 and 1

    What worked examples use where the program's own encoding is a parameter. *)

Fixpoint pos_bits (p : positive) : string :=
  match p with xH => "" | xO p => "0" +:+ pos_bits p | xI p => "1" +:+ pos_bits p end.
Fixpoint bits_pos (s : string) : positive :=
  match s with
  | EmptyString => xH
  | String c s => if decide (String c "" = "0") then xO (bits_pos s) else xI (bits_pos s)
  end.

Lemma bits_pos_bits p : bits_pos (pos_bits p) = p.
Proof. induction p; simpl; congruence. Qed.

Definition to_bits `{Countable A} (x : A) : string := pos_bits (countable.encode x).
Definition of_bits `{Countable A} (s : string) : option A := countable.decode (bits_pos s).

Lemma of_to_bits `{Countable A} (x : A) : of_bits (to_bits x) = Some x.
Proof. unfold of_bits, to_bits. by rewrite bits_pos_bits, countable.decode_encode. Qed.
