(* ===== verification/Proto.v ===== *)
(** * The wire schema: [proto/dhole/v1] as the Go code reads it

    Enumerations are open, as proto3 makes them: a value this schema does not
    name is kept. A message pointer that may be nil is an [option]; a digest
    is not, because every reader goes through getters that read nil as the
    empty digest. *)

From S2P Require Import Prelude Bytes.

Inductive EffectClass : Type :=
| EFFECT_CLASS_UNSPECIFIED
| EFFECT_CLASS_PURE
| EFFECT_CLASS_IDEMPOTENT
| EFFECT_CLASS_AT_MOST_ONCE
| EFFECT_CLASS_OTHER (n : Z).

Inductive Capability : Type :=
| CAPABILITY_UNSPECIFIED
| CAPABILITY_NETWORK
| CAPABILITY_SECRETS
| CAPABILITY_PRIVILEGED
| CAPABILITY_HOST_MOUNT
| CAPABILITY_NESTED_VIRT
| CAPABILITY_OTHER (n : Z).

Inductive LeaseScopeP : Type :=
| LEASE_SCOPE_UNSPECIFIED
| LEASE_SCOPE_STEP
| LEASE_SCOPE_JOB
| LEASE_SCOPE_PIPELINE
| LEASE_SCOPE_POOL
| LEASE_SCOPE_SERVICE
| LEASE_SCOPE_OTHER (n : Z).

Inductive Phase : Type :=
| PHASE_UNSPECIFIED
| PHASE_ACCEPTED
| PHASE_RUNNING
| PHASE_SUCCEEDED
| PHASE_FAILED
| PHASE_CANCELLED
| PHASE_OTHER (n : Z).

#[export] Instance EffectClass_eq_dec : EqDecision EffectClass.
Proof. solve_decision. Defined.
#[export] Instance Capability_eq_dec : EqDecision Capability.
Proof. solve_decision. Defined.
#[export] Instance LeaseScopeP_eq_dec : EqDecision LeaseScopeP.
Proof. solve_decision. Defined.
#[export] Instance Phase_eq_dec : EqDecision Phase.
Proof. solve_decision. Defined.

(** [EnumValue.String()]: the declared name, or the number. *)
Definition EffectClass_String (c : EffectClass) : string :=
  match c with
  | EFFECT_CLASS_UNSPECIFIED => "EFFECT_CLASS_UNSPECIFIED"
  | EFFECT_CLASS_PURE => "EFFECT_CLASS_PURE"
  | EFFECT_CLASS_IDEMPOTENT => "EFFECT_CLASS_IDEMPOTENT"
  | EFFECT_CLASS_AT_MOST_ONCE => "EFFECT_CLASS_AT_MOST_ONCE"
  | EFFECT_CLASS_OTHER n => dec_Z n
  end.

Definition Capability_String (c : Capability) : string :=
  match c with
  | CAPABILITY_UNSPECIFIED => "CAPABILITY_UNSPECIFIED"
  | CAPABILITY_NETWORK => "CAPABILITY_NETWORK"
  | CAPABILITY_SECRETS => "CAPABILITY_SECRETS"
  | CAPABILITY_PRIVILEGED => "CAPABILITY_PRIVILEGED"
  | CAPABILITY_HOST_MOUNT => "CAPABILITY_HOST_MOUNT"
  | CAPABILITY_NESTED_VIRT => "CAPABILITY_NESTED_VIRT"
  | CAPABILITY_OTHER n => dec_Z n
  end.

(** The enum number, which is what [slices.Sort] orders capabilities by. *)
Definition Capability_number (c : Capability) : Z :=
  match c with
  | CAPABILITY_UNSPECIFIED => 0
  | CAPABILITY_NETWORK => 1
  | CAPABILITY_SECRETS => 2
  | CAPABILITY_PRIVILEGED => 3
  | CAPABILITY_HOST_MOUNT => 4
  | CAPABILITY_NESTED_VIRT => 5
  | CAPABILITY_OTHER n => n
  end.

Record Digest : Type := mkDigest { d_algo : string; d_hex : string }.

#[export] Instance Digest_eq_dec : EqDecision Digest.
Proof. solve_decision. Defined.

(** The arm of [PortType.kind]; [None] is a port whose arm was never set. *)
Inductive PortKind : Type :=
| PortBlob (media_type : string)
| PortStructured (schema_id schema : string).

Record Port : Type := mkPort { port_name : string; port_type : option PortKind }.

Record File : Type := mkFile
  { file_path : string; file_digest : Digest; file_size : Z; file_media : string }.

Record FileInput : Type := mkFileInput { fi_port : string; fi_path : string }.

Record StepSecret : Type := mkStepSecret { sec_name : string; sec_env : string }.

Record Step : Type := mkStep
  { step_id : string;
    step_name : string;
    step_plugin_ref : string;
    step_effect_class : EffectClass;
    step_inputs : list Port;
    step_outputs : list Port;
    step_capabilities : list Capability;
    step_lease_scope : LeaseScopeP;
    step_config : gmap string string;
    step_image : string;
    step_engine_type : string;
    step_timeout_seconds : Z;
    step_file_inputs : list FileInput;
    step_secrets : list StepSecret }.

Record Edge : Type := mkEdge
  { from_step : string; from_port : string; to_step : string; to_port : string }.

Record Pipeline : Type := mkPipeline
  { pl_id : string; pl_steps : list Step; pl_edges : list Edge; pl_files : list File }.

Record InputRef : Type := mkInputRef
  { in_port : string; in_digest : Digest; in_key : string }.

#[export] Instance PortKind_eq_dec : EqDecision PortKind.
Proof. solve_decision. Defined.
#[export] Instance Port_eq_dec : EqDecision Port.
Proof. solve_decision. Defined.
#[export] Instance Edge_eq_dec : EqDecision Edge.
Proof. solve_decision. Defined.
#[export] Instance InputRef_eq_dec : EqDecision InputRef.
Proof. solve_decision. Defined.

(** An output as an engine reports it. [out_unknown] is the message's unknown
    fields, verbatim: the taint marks ride there. *)
Record OutputRef : Type := mkOutputRef
  { out_port : string; out_digest : Digest; out_key : string; out_size : Z;
    out_unknown : string }.

#[export] Instance OutputRef_eq_dec : EqDecision OutputRef.
Proof. solve_decision. Defined.

(** The portable shell variable names of [secrets.IsEnvName] ([internal/secrets/step.go]), as bytes: every
    byte of a longer rune is refused by its first. *)
Definition env_start (c : Ascii.ascii) : bool :=
  let z := byte_val c in
  bool_decide (z = 95) || bool_decide (65 ≤ z ≤ 90) || bool_decide (97 ≤ z ≤ 122).

Definition IsEnvName (s : string) : bool :=
  match s with
  | EmptyString => false
  | String c r => env_start c && string_all (λ c, env_start c || is_digit c) r
  end.

(** A step with the given id, class and edges-relevant fields, everything
    else at its zero value: what the worked examples are built from. *)
Definition bare_step (id : string) (c : EffectClass) : Step :=
  {| step_id := id; step_name := ""; step_plugin_ref := ""; step_effect_class := c;
     step_inputs := []; step_outputs := []; step_capabilities := [];
     step_lease_scope := LEASE_SCOPE_UNSPECIFIED; step_config := ∅; step_image := "";
     step_engine_type := ""; step_timeout_seconds := 0;
     step_file_inputs := []; step_secrets := [] |}.

Definition step_ids (p : Pipeline) : list string := map step_id (pl_steps p).
