(* ===== verification/Effects.v ===== *)
(** * Retry behaviour from the effect class: [internal/effects]

    [RetryPolicy], [Backoff] and [AllowsRetry] decide whether a step may be
    dispatched again and how long the wait is; [IdempotencyKey] is what a
    retried step presents so that the far end recognises it. Durations are
    [int64] nanoseconds with Go's wrap-around. *)

From S2P Require Import Prelude Bytes Proto.

Record Policy : Type := mkPolicy
  { MaxAttempts : Z;
    pol_Backoff : Z;
    RequiresIdempotencyKey : bool;
    RequiresExclusiveLease : bool }.

Definition Second : Z := 1000000000.
Definition Minute : Z := 60 * Second.

Definition pureBackoff : Z := 5 * Second.
Definition idempotentBackoff : Z := 15 * Second.
Definition MaxBackoff : Z := 5 * Minute.

Definition atMostOnce : Policy :=
  {| MaxAttempts := 1; pol_Backoff := 0;
     RequiresIdempotencyKey := true; RequiresExclusiveLease := true |}.

(** [step.GetEffectClass()] of a nil step is the unspecified class. *)
Definition effect_class_of (step : option Step) : EffectClass :=
  match step with Some s => step_effect_class s | None => EFFECT_CLASS_UNSPECIFIED end.

Definition RetryPolicy (step : option Step) : Policy :=
  match effect_class_of step with
  | EFFECT_CLASS_PURE =>
      {| MaxAttempts := 3; pol_Backoff := pureBackoff;
         RequiresIdempotencyKey := false; RequiresExclusiveLease := false |}
  | EFFECT_CLASS_IDEMPOTENT =>
      {| MaxAttempts := 3; pol_Backoff := idempotentBackoff;
         RequiresIdempotencyKey := true; RequiresExclusiveLease := false |}
  | EFFECT_CLASS_AT_MOST_ONCE | EFFECT_CLASS_UNSPECIFIED => atMostOnce
  | EFFECT_CLASS_OTHER _ => atMostOnce
  end.

(** [for range attempt - 1 { wait *= 2; ... }]. *)
Fixpoint backoff_loop (n : nat) (wait : Z) : Z :=
  match n with
  | O => if bool_decide (wait > MaxBackoff) then MaxBackoff else wait
  | S n' =>
      let wait' := i64 (wait * 2) in
      if bool_decide (MaxBackoff ≤ wait') then MaxBackoff else backoff_loop n' wait'
  end.

Definition Backoff (p : Policy) (attempt : Z) : Z :=
  if bool_decide (pol_Backoff p ≤ 0) then 0
  else backoff_loop (Z.to_nat (u32 (attempt - 1))) (pol_Backoff p).

Definition AllowsRetry (p : Policy) (attempts : Z) : bool :=
  bool_decide (MaxAttempts p > 1) && bool_decide (attempts < u32 (MaxAttempts p)).

(** The string [IdempotencyKey] hashes. *)
Definition idempotency_material (runID stepID : string) : string :=
  "dhole.idempotency.v1|" +:+ dec_N (N.of_nat (String.length runID)) +:+ ":" +:+ runID +:+
  "|" +:+ dec_N (N.of_nat (String.length stepID)) +:+ ":" +:+ stepID.

Definition IdempotencyKey (sha256 : string → string)
    (runID stepID : string) (attempt : Z) : string :=
  "dhole-" +:+ hex_encode (sha256 (idempotency_material runID stepID)).

(** ** Lemmas *)

Lemma backoff_loop_eq n wait :
  0 < wait → wait * 2 < two63 →
  backoff_loop n wait = Z.min MaxBackoff (wait * 2 ^ Z.of_nat n).
Proof.
  revert wait. induction n as [|n IH]; intros wait Hw Hb.
  - simpl. rewrite Z.mul_1_r. case_bool_decide; lia.
  - cbn [backoff_loop]. rewrite i64_id by (unfold two63 in *; lia).
    rewrite Nat2Z.inj_succ, Z.pow_succ_r by lia.
    assert (1 ≤ 2 ^ Z.of_nat n) by (apply Z.pow_le_mono_r with (b := 0); lia).
    case_bool_decide as Hge.
    + rewrite Z.min_l; [done|]. nia.
    + rewrite IH; [f_equal; ring|lia|]. unfold MaxBackoff, Minute, Second, two63 in *. lia.
Qed.

Lemma dec_material_inj a b x y :
  dec_N (N.of_nat (String.length a)) +:+ ":" +:+ a +:+ x =
  dec_N (N.of_nat (String.length b)) +:+ ":" +:+ b +:+ y → a = b ∧ x = y.
Proof.
  intros H. apply string_sep_inj in H as [Hn H];
    [|apply digits_no_sep; [done|apply dec_N_digits]..].
  apply (inj dec_N) in Hn. apply string_app_inj in H; [done|lia].
Qed.

Lemma idempotency_material_inj r s r' s' :
  idempotency_material r s = idempotency_material r' s' ↔ r = r' ∧ s = s'.
Proof.
  split; [|by intros [-> ->]]. unfold idempotency_material. intros H.
  apply string_app_inj_l, dec_material_inj in H as [-> H]. split; [done|].
  apply string_app_inj_l, (f_equal (λ t, t +:+ "")) in H. rewrite !string_app_assoc in H.
  by apply dec_material_inj in H as [-> _].
Qed.

#[export] Hint Resolve idempotency_material_inj : dhole.

(** ** Properties *)

(** A step is repeated automatically exactly when its class is PURE or
    IDEMPOTENT and fewer than three attempts were made: an at-most-once, an
    undeclared or an unknown class is never repeated, and so is a nil step. *)
Theorem retry_allowed_iff (step : option Step) (attempts : Z) :
  AllowsRetry (RetryPolicy step) attempts = true ↔
  (effect_class_of step = EFFECT_CLASS_PURE ∨ effect_class_of step = EFFECT_CLASS_IDEMPOTENT)
  ∧ attempts < 3.
Proof.
  unfold AllowsRetry, RetryPolicy. rewrite andb_true_iff, !bool_decide_eq_true.
  destruct (effect_class_of step); simpl; change (u32 3) with 3; change (u32 1) with 1;
    split; intros; destruct_and?; try lia; intuition (try lia; try congruence).
Qed.

(** The n-th wait is the policy's first delay doubled n-1 times, capped at
    [MaxBackoff], for every attempt count a [uint32] holds: no doubling ever
    overflows the [int64] duration, so the wait never goes negative and never
    exceeds the cap. *)
Theorem backoff_schedule (p : Policy) (attempt : Z) :
  1 ≤ attempt < two32 → 0 < pol_Backoff p < two63 / 2 →
  Backoff p attempt = Z.min MaxBackoff (pol_Backoff p * 2 ^ (attempt - 1))
  ∧ 0 < Backoff p attempt ≤ MaxBackoff.
Proof.
  intros Ha Hp. unfold Backoff. rewrite bool_decide_false by lia.
  rewrite u32_id by lia.
  assert (pol_Backoff p * 2 < two63) by (change (two63 / 2) with 4611686018427387904 in Hp;
    unfold two63; lia).
  rewrite backoff_loop_eq, Z2Nat.id by lia. split; [done|].
  assert (0 < pol_Backoff p * 2 ^ (attempt - 1))
    by (apply Z.mul_pos_pos; [lia|]; apply Z.pow_pos_nonneg; lia).
  split; [|lia]. apply Z.min_glb_lt; [done|lia].
Qed.

Lemma backoff_schedule_witness :
  Backoff (RetryPolicy (Some (bare_step "s" EFFECT_CLASS_IDEMPOTENT))) 2 = 30 * Second.
Proof.
  destruct (backoff_schedule (RetryPolicy (Some (bare_step "s" EFFECT_CLASS_IDEMPOTENT))) 2)
    as [H _]; [by split|by split|]. rewrite H. vm_compute. reflexivity.
Defined.

(** Two steps present the same idempotency key exactly when they are the
    same step of the same run, whatever the attempts, or the hash has collided
    on the two (distinct) strings it was fed. *)
Theorem idempotency_key_identifies_step (sha256 : string → string)
    (r s r' s' : string) (a a' : Z) :
  IdempotencyKey sha256 r s a = IdempotencyKey sha256 r' s' a' ↔
  (r = r' ∧ s = s') ∨
  collision sha256 (idempotency_material r s) (idempotency_material r' s').
Proof.
  unfold IdempotencyKey. rewrite <-idempotency_material_inj, <-hash_eq. split.
  - intros H%string_app_inj_l. by apply (inj hex_encode) in H.
  - by intros ->.
Qed.
