(* ===== verification/Dag.v ===== *)
(** * The dependency graph of a pipeline: [internal/dag]

    [Build] derives the graph and refuses a pipeline with no execution order;
    [findCycle] is its depth-first search, [TopoLevels] Kahn's algorithm,
    [FileInputs] and [TypeCheck] the two readings of a definition's ports.
    The recursive closure [visit] runs on fuel: the path it extends never
    repeats a step, so one unit per step and one more is always enough
    ([visit_fuel]). *)

From S2P Require Import Prelude Bytes Proto.

Record Graph : Type := mkGraph
  { stepIDs : list string;
    dependents : gmap string (list string);
    indegree : gmap string Z }.

Inductive BuildError : Type :=
| ErrNilPipeline
| ErrEmptyStepID (pipeline : string)
| ErrDuplicateStep (pipeline id : string)
| ErrUnknownStep (e : Edge) (id : string)
| ErrCycle (pipeline : string) (path : list string).

(** [m[k]] of a Go map holding slices or ints: the zero value when absent. *)
Definition get_list {A} (m : gmap string (list A)) (k : string) : list A := default [] (m !! k).
Definition get_int (m : gmap string Z) (k : string) : Z := default 0 (m !! k).

Definition empty_graph : Graph := mkGraph [] ∅ ∅.

(** ** [Build] *)

Definition add_step (pid : string) (acc : gset string * Graph) (s : Step)
  : result BuildError (gset string * Graph) :=
  let '(known, g) := acc in
  let id := step_id s in
  if decide (id = "") then Err (ErrEmptyStepID pid)
  else if decide (id ∈ known) then Err (ErrDuplicateStep pid id)
  else Ok ({[id]} ∪ known,
           mkGraph (stepIDs g ++ [id]) (dependents g) (<[id := 0]> (indegree g))).

Definition add_edge (known : gset string) (acc : gset (string * string) * Graph) (e : Edge)
  : result BuildError (gset (string * string) * Graph) :=
  let '(seen, g) := acc in
  let from := from_step e in let to := to_step e in
  if decide (from ∉ known) then Err (ErrUnknownStep e from)
  else if decide (to ∉ known) then Err (ErrUnknownStep e to)
  else if decide ((from, to) ∈ seen) then Ok (seen, g)
  else Ok ({[(from, to)]} ∪ seen,
           mkGraph (stepIDs g)
             (<[from := get_list (dependents g) from ++ [to]]> (dependents g))
             (<[to := get_int (indegree g) to + 1]> (indegree g))).

Definition sort_dependents (g : Graph) : Graph :=
  mkGraph (stepIDs g) (sort_strings <$> dependents g) (indegree g).

Definition sort_ids (g : Graph) : Graph :=
  mkGraph (sort_strings (stepIDs g)) (dependents g) (indegree g).

(** ** [findCycle] *)

Inductive Colour : Type := white | grey | black.

#[export] Instance Colour_eq_dec : EqDecision Colour.
Proof. solve_decision. Defined.

Record dfs : Type := mkDfs { colour : gmap string Colour; dpath : list string }.

Definition colour_of (st : dfs) (id : string) : Colour := default white (colour st !! id).

Inductive visited : Type :=
| Found (cycle : list string)
| Finished
| OutOfFuel.

(** The tail of the current path from [d] on, closed by [d]. *)
Fixpoint close_cycle (d : string) (path : list string) : option (list string) :=
  match path with
  | [] => None
  | x :: rest => if decide (x = d) then Some ((x :: rest) ++ [d]) else close_cycle d rest
  end.

(** [for _, d := range g.dependents[id]], with the recursive call as [rec]. *)
Fixpoint visit_dependents (rec : string → dfs → dfs * visited) (ds : list string) (st : dfs)
  : dfs * visited :=
  match ds with
  | [] => (st, Finished)
  | d :: ds' =>
      match colour_of st d with
      | grey => match close_cycle d (dpath st) with
                | Some c => (st, Found c)
                | None => visit_dependents rec ds' st
                end
      | white => match rec d st with
                 | (st', Finished) => visit_dependents rec ds' st'
                 | r => r
                 end
      | black => visit_dependents rec ds' st
      end
  end.

Fixpoint visit (g : Graph) (fuel : nat) (id : string) (st : dfs) : dfs * visited :=
  match fuel with
  | O => (st, OutOfFuel)
  | S fuel' =>
      let st1 := mkDfs (<[id := grey]> (colour st)) (dpath st ++ [id]) in
      match visit_dependents (visit g fuel') (get_list (dependents g) id) st1 with
      | (st2, Finished) => (mkDfs (<[id := black]> (colour st2)) (removelast (dpath st2)), Finished)
      | r => r
      end
  end.

Definition visit_fuel_for (g : Graph) : nat := S (length (stepIDs g)).

Fixpoint find_from (g : Graph) (ids : list string) (st : dfs) : visited :=
  match ids with
  | [] => Finished
  | id :: ids' =>
      match colour_of st id with
      | white => match visit g (visit_fuel_for g) id st with
                 | (st', Finished) => find_from g ids' st'
                 | (_, r) => r
                 end
      | _ => find_from g ids' st
      end
  end.

Definition findCycle (g : Graph) : visited := find_from g (stepIDs g) (mkDfs ∅ []).

Definition Build (p : option Pipeline) : result BuildError Graph :=
  match p with
  | None => Err ErrNilPipeline
  | Some p =>
      '(known, g) ← fold_result (add_step (pl_id p)) (∅, empty_graph) (pl_steps p);
      '(_, g) ← fold_result (add_edge known) (∅, sort_ids g) (pl_edges p);
      let g := sort_dependents g in
      match findCycle g with
      | Finished => Ok g
      | Found path => Err (ErrCycle (pl_id p) path)
      | OutOfFuel => Err (ErrCycle (pl_id p) [])
      end
  end.

Definition Dependents (g : Graph) (id : string) : list string := get_list (dependents g) id.

(** ** [TopoLevels] *)

Definition release (acc : gmap string Z * list string) (d : string) : gmap string Z * list string :=
  let '(remaining, next) := acc in
  let n := get_int remaining d - 1 in
  (<[d := n]> remaining, if decide (n = 0) then next ++ [d] else next).

Definition take_step (g : Graph) (acc : gmap string Z * list string) (id : string)
  : gmap string Z * list string :=
  let '(remaining, next) := acc in
  foldl release (delete id remaining, next) (get_list (dependents g) id).

Fixpoint topo_loop (g : Graph) (fuel : nat) (remaining : gmap string Z) (level : list string)
  : list (list string) :=
  match fuel, level with
  | _, [] => []
  | O, _ => []
  | S fuel', _ =>
      let '(remaining', next) := foldl (take_step g) (remaining, []) level in
      level :: topo_loop g fuel' remaining' (sort_strings next)
  end.

Definition TopoLevels (g : Graph) : list (list string) :=
  topo_loop g (S (length (stepIDs g))) (indegree g)
    (filter (λ id, get_int (indegree g) id = 0) (stepIDs g)).

(** ** [FileInputs] *)

Inductive FileError : Type :=
| ErrNoSuchFile (step path port : string)
| ErrNoDigest (path : string).

Definition files_by_path (p : Pipeline) : gmap string File :=
  foldl (λ m f, <[file_path f := f]> m) ∅ (pl_files p).

Definition file_input (step : Step) (byPath : gmap string File) (b : FileInput)
  : result FileError InputRef :=
  match byPath !! fi_path b with
  | None => Err (ErrNoSuchFile (step_id step) (fi_path b) (fi_port b))
  | Some f =>
      if decide (d_hex (file_digest f) = "") then Err (ErrNoDigest (fi_path b))
      else Ok (mkInputRef (fi_port b) (file_digest f) "")
  end.

Definition FileInputs (p : Pipeline) (step : option Step) : result FileError (list InputRef) :=
  match step with
  | None => Ok []
  | Some s =>
      fold_result (λ out b, r ← file_input s (files_by_path p) b; Ok (out ++ [r]))
        [] (step_file_inputs s)
  end.

(** ** [TypeCheck] *)

Inductive DiagMessage : Type :=
| EdgeSourceUndefined | EdgeTargetUndefined
| NoOutputPort | NoInputPort
| KindMismatch (from to : string)
| SchemaMismatch (from to : string)
| BothUntyped
| CarriesNoFile (path : string)
| BindsUndeclaredPort (path : string).

Record Diagnostic : Type := mkDiag
  { diag_step : string; diag_port : string; diag_message : DiagMessage }.

Definition untyped : string := "an untyped port".

Definition findPort (ports : list Port) (name : string) : option Port :=
  snd <$> list_find (λ p, port_name p = name) ports.

Definition describe (t : option PortKind) : string :=
  match t with
  | Some (PortBlob _) => "blob"
  | Some (PortStructured _ _) => "structured"
  | None => untyped
  end.

Definition incompatible (from to : option PortKind) : option DiagMessage :=
  if decide (describe from ≠ describe to) then Some (KindMismatch (describe from) (describe to))
  else match from, to with
       | Some (PortStructured fs _), Some (PortStructured ts _) =>
           if decide (fs ≠ ts) then Some (SchemaMismatch fs ts) else None
       | _, _ => if decide (describe from = untyped) then Some BothUntyped else None
       end.

Definition steps_by_id (p : Pipeline) : gmap string Step :=
  foldl (λ m s, <[step_id s := s]> m) ∅ (pl_steps p).

Definition check_edge (steps : gmap string Step) (e : Edge) : list Diagnostic :=
  match steps !! from_step e with
  | None => [mkDiag (from_step e) (from_port e) EdgeSourceUndefined]
  | Some from =>
  match steps !! to_step e with
  | None => [mkDiag (to_step e) (to_port e) EdgeTargetUndefined]
  | Some to =>
  match findPort (step_outputs from) (from_port e) with
  | None => [mkDiag (step_id from) (from_port e) NoOutputPort]
  | Some out =>
  match findPort (step_inputs to) (to_port e) with
  | None => [mkDiag (step_id to) (to_port e) NoInputPort]
  | Some inp =>
  match incompatible (port_type out) (port_type inp) with
  | Some why => [mkDiag (step_id to) (port_name inp) why]
  | None => []
  end end end end end.

Definition check_binding (carried : gset string) (step : Step) (b : FileInput) : list Diagnostic :=
  if decide (fi_path b ∉ carried)
  then [mkDiag (step_id step) (fi_port b) (CarriesNoFile (fi_path b))]
  else match findPort (step_inputs step) (fi_port b) with
       | None => [mkDiag (step_id step) (fi_port b) (BindsUndeclaredPort (fi_path b))]
       | Some _ => []
       end.

Definition checkFileBindings (p : Pipeline) : list Diagnostic :=
  let carried : gset string := list_to_set (file_path <$> pl_files p) in
  mjoin ((λ s, mjoin (check_binding carried s <$> step_file_inputs s)) <$> pl_steps p).

Definition TypeCheck (p : option Pipeline) : list Diagnostic :=
  match p with
  | None => []
  | Some p => mjoin (check_edge (steps_by_id p) <$> pl_edges p) ++ checkFileBindings p
  end.
