(* ===== verification/DagFacts.v ===== *)
(** * Correctness of the dependency graph

    [Build] accepts exactly the pipelines that have an execution order, a
    reported cycle is a cycle, and [TopoLevels] is a partition of the steps
    into waves that respects every edge. *)

From S2P Require Import Prelude Bytes Proto Effects Dag.

(** ** What the edges say *)

Definition edge_rel (p : Pipeline) (x y : string) : Prop :=
  ∃ e, e ∈ pl_edges p ∧ from_step e = x ∧ to_step e = y.

(** No step reaches itself. *)
Definition acyclic (R : relation string) : Prop := ∀ x, ¬ tc R x x.

(** The number of steps among [S] that [y] directly depends on. *)
Definition npred (deps : gmap string (list string)) (S : list string) (y : string) : Z :=
  Z.of_nat (length (filter (λ x, y ∈ get_list deps x) S)).

Record graph_of (p : Pipeline) (g : Graph) : Prop := mkGraphOf
  { go_ids : stepIDs g = sort_strings (step_ids p);
    go_nodup_ids : NoDup (step_ids p);
    go_edge : ∀ x y, y ∈ Dependents g x ↔ edge_rel p x y;
    go_nodup : ∀ x, NoDup (Dependents g x);
    go_known : ∀ x y, edge_rel p x y → x ∈ step_ids p ∧ y ∈ step_ids p;
    go_indegree : ∀ y, get_int (indegree g) y = npred (dependents g) (stepIDs g) y }.

Lemma get_list_insert {A} (m : gmap string (list A)) k v x :
  get_list (<[k := v]> m) x = if decide (k = x) then v else get_list m x.
Proof. unfold get_list. rewrite lookup_insert. by case_decide. Qed.

Lemma get_int_insert (m : gmap string Z) k v x :
  get_int (<[k := v]> m) x = if decide (k = x) then v else get_int m x.
Proof. unfold get_int. rewrite lookup_insert. by case_decide. Qed.

Lemma get_int_delete (m : gmap string Z) k x :
  k ≠ x → get_int (delete k m) x = get_int m x.
Proof. intros. unfold get_int. by rewrite lookup_delete_ne. Qed.

(** ** The steps loop *)

Definition steps_done (pre : list Step) (acc : gset string * Graph) : Prop :=
  let '(known, g) := acc in
  known = list_to_set (map step_id pre) ∧ stepIDs g = map step_id pre ∧
  NoDup (map step_id pre) ∧ ("" ∉ map step_id pre) ∧
  dependents g = ∅ ∧ (∀ y, get_int (indegree g) y = 0).

Lemma add_step_done pid pre s acc acc' :
  steps_done pre acc → add_step pid acc s = Ok acc' → steps_done (pre ++ [s]) acc'.
Proof.
  destruct acc as [known g]. intros (-> & Hids & Hnd & Hne & Hd & Hi). unfold add_step.
  case_decide as He; [done|]. case_decide as Hk; [done|]. intros [= <-].
  rewrite elem_of_list_to_set in Hk. unfold steps_done.
  rewrite map_app. simpl. rewrite Hids, Hd. split_and!; try done.
  - rewrite list_to_set_app_L. simpl. set_solver.
  - apply NoDup_app. split_and!; [done| |apply NoDup_singleton]. set_solver.
  - set_solver.
  - intros y. rewrite get_int_insert. by case_decide.
Qed.

Lemma add_step_ok pid pre s post acc :
  NoDup (map step_id (pre ++ s :: post)) → "" ∉ map step_id (pre ++ s :: post) →
  steps_done pre acc → ∃ acc', add_step pid acc s = Ok acc'.
Proof.
  destruct acc as [known g]. rewrite map_app. simpl.
  intros (_ & Hx & _)%NoDup_app Hne (-> & _). unfold add_step.
  rewrite decide_False by set_solver. rewrite decide_False; [by eexists|].
  rewrite elem_of_list_to_set. set_solver.
Qed.

Lemma add_step_err pid acc s e :
  add_step pid acc s = Err e →
  e = ErrEmptyStepID pid ∨ e = ErrDuplicateStep pid (step_id s).
Proof. destruct acc. unfold add_step. repeat case_decide; intros; simplify_eq; auto. Qed.

(** ** The edges loop *)

Definition edges_done (ids : list string) (pre : list Edge)
    (acc : gset (string * string) * Graph) : Prop :=
  let '(seen, g) := acc in
  (∀ x y, (x, y) ∈ seen ↔ ∃ e, e ∈ pre ∧ from_step e = x ∧ to_step e = y) ∧
  stepIDs g = ids ∧
  (∀ x y, y ∈ get_list (dependents g) x ↔ (x, y) ∈ seen) ∧
  (∀ x, NoDup (get_list (dependents g) x)) ∧
  (∀ x y, (x, y) ∈ seen → x ∈ ids ∧ y ∈ ids) ∧
  (∀ y, get_int (indegree g) y = npred (dependents g) ids y).

Lemma npred_insert deps ids from to y :
  NoDup ids → from ∈ ids → to ∉ get_list deps from →
  npred (<[from := get_list deps from ++ [to]]> deps) ids y =
  npred deps ids y + (if decide (y = to) then 1 else 0).
Proof.
  intros Hnd Hf Ht. unfold npred. case_decide as Hy.
  - subst y. erewrite (filter_length_flip (λ x, to ∈ get_list deps x)) with (a := from); [lia|done..| |].
    + rewrite get_list_insert, decide_True by done. set_solver.
    + intros x Hx. by rewrite get_list_insert, decide_False.
  - rewrite Z.add_0_r. f_equal. f_equal. apply filter_ext_in. intros x _.
    rewrite get_list_insert. case_decide; subst; set_solver.
Qed.

Lemma add_edge_done ids pre e acc acc' :
  NoDup ids → edges_done ids pre acc →
  add_edge (list_to_set ids) acc e = Ok acc' → edges_done ids (pre ++ [e]) acc'.
Proof.
  destruct acc as [seen g]. intros Hnd (Hseen & Hids & Hdep & Hdnd & Hk & Hin). unfold add_edge.
  case_decide as Hf; [done|]. case_decide as Ht; [done|].
  rewrite elem_of_list_to_set in Hf, Ht.
  assert (Hsnoc : ∀ x y, (∃ e', e' ∈ pre ++ [e] ∧ from_step e' = x ∧ to_step e' = y) ↔
    (x, y) ∈ seen ∨ (x, y) = (from_step e, to_step e)).
  { intros x y. rewrite Hseen. set_solver. }
  case_decide as Hs; intros [= <-]; unfold edges_done.
  - split_and!; try done. intros x y. rewrite Hsnoc. naive_solver.
  - simpl. split_and!; [..|].
    + intros x y. rewrite Hsnoc. set_solver.
    + done.
    + intros x y. rewrite get_list_insert. case_decide; subst; rewrite ?elem_of_app, ?Hdep; set_solver.
    + intros x. rewrite get_list_insert. case_decide; [|done].
      apply NoDup_app. split_and!; [done| |apply NoDup_singleton].
      intros z Hz%Hdep. set_solver.
    + intros x y. set_solver.
    + intros y. rewrite get_int_insert, npred_insert by (rewrite ?Hdep; done).
      rewrite <-!Hin. repeat case_decide; subst; (done || lia || congruence).
Qed.

Lemma add_edge_ok ids pre e acc :
  from_step e ∈ ids → to_step e ∈ ids → edges_done ids pre acc →
  ∃ acc', add_edge (list_to_set ids) acc e = Ok acc'.
Proof.
  destruct acc as [seen g]. intros Hf Ht _. unfold add_edge.
  rewrite !decide_False by (rewrite elem_of_list_to_set; tauto).
  case_decide; by eexists.
Qed.

Lemma add_edge_err known acc e err :
  add_edge known acc e = Err err → ∃ id, err = ErrUnknownStep e id ∧ id ∉ known.
Proof. destruct acc. unfold add_edge. repeat case_decide; intros; simplify_eq; eauto. Qed.

(** ** The graph both loops produce *)

Definition assemble (p : Pipeline) : result BuildError Graph :=
  '(known, g) ← fold_result (add_step (pl_id p)) (∅, empty_graph) (pl_steps p);
  '(_, g) ← fold_result (add_edge known) (∅, sort_ids g) (pl_edges p);
  Ok (sort_dependents g).

Lemma get_list_sorted (m : gmap string (list string)) x :
  get_list (sort_strings <$> m) x = sort_strings (get_list m x).
Proof. unfold get_list. rewrite lookup_fmap. by destruct (m !! x). Qed.

Lemma npred_sorted m S y : npred (sort_strings <$> m) S y = npred m S y.
Proof.
  unfold npred. f_equal. f_equal. apply filter_ext_in. intros x _.
  by rewrite get_list_sorted, elem_of_sort_strings.
Qed.

Lemma edges_init ids : edges_done ids [] (∅, mkGraph ids ∅ ∅).
Proof.
  unfold edges_done, get_list, get_int, npred. simpl. setoid_rewrite lookup_empty. simpl.
  split_and!; try set_solver; try done.
  - intros; apply NoDup_nil_2.
  - intros y. rewrite (filter_ext_in _ (λ _, False)) by set_solver.
    by induction ids.
Qed.

Lemma edges_init_of ids g :
  stepIDs g = ids → dependents g = ∅ → (∀ y, get_int (indegree g) y = 0) →
  edges_done ids [] (∅, g).
Proof.
  intros Hi Hd Hz. pose proof (edges_init ids) as H. unfold edges_done in *. simpl in *.
  rewrite Hd. destruct H as (?&?&?&?&?&Hn). split_and!; try done.
  intros y. by rewrite Hz, <-Hn.
Qed.

Lemma npred_perm deps S S' y : S ≡ₚ S' → npred deps S y = npred deps S' y.
Proof. intros HP. unfold npred. by rewrite HP. Qed.

Lemma assemble_graph p g : assemble p = Ok g → graph_of p g ∧ "" ∉ step_ids p.
Proof.
  unfold assemble. intros H. res_inv.
  destruct r as [known g1]. apply (fold_result_inv steps_done) in E;
    [|by split_and!; set_solver || apply NoDup_nil_2|by eauto using add_step_done].
  destruct E as (-> & Hids & Hnd & Hne & Hdep & Hz). cbn beta iota in H. res_inv. destruct r as [seen g2].
  assert (Hset : list_to_set (map step_id (pl_steps p)) =@{gset string}
                 list_to_set (sort_strings (step_ids p))).
  { apply set_eq. intros x. rewrite !elem_of_list_to_set, elem_of_sort_strings. done. }
  rewrite Hset in E. apply (fold_result_inv (edges_done (sort_strings (step_ids p)))) in E.
  - destruct E as (Hseen & Hi & Hd & Hdnd & Hk & Hin). cbn beta iota in H. res_inv. subst g. split; [|done].
    split; unfold Dependents, sort_dependents; simpl; try done.
    + intros x y. rewrite get_list_sorted, elem_of_sort_strings, Hd, Hseen. done.
    + intros x. rewrite get_list_sorted, NoDup_sort_strings. done.
    + intros x y Hxy%Hseen%Hk. by rewrite !elem_of_sort_strings in Hxy.
    + intros y. by rewrite npred_sorted, Hin, Hi.
  - apply edges_init_of; simpl; rewrite ?Hids; done.
  - intros pre x c c'. apply add_edge_done. by apply NoDup_sort_strings.
Qed.

Lemma assemble_ok p :
  "" ∉ step_ids p → NoDup (step_ids p) →
  (∀ x y, edge_rel p x y → x ∈ step_ids p ∧ y ∈ step_ids p) →
  ∃ g, assemble p = Ok g.
Proof.
  intros Hne Hnd Hk. unfold assemble.
  destruct (fold_result_ok steps_done (add_step (pl_id p)) (∅, empty_graph) (pl_steps p))
    as ([known g1] & -> & (-> & Hids & _ & _ & Hdep & Hz)).
  { by split_and!; set_solver || apply NoDup_nil_2. }
  { intros pre x post c Heq HP. destruct (add_step_ok (pl_id p) pre x post c) as [c' Hc'];
      [by rewrite <-Heq..|done|]. exists c'. eauto using add_step_done. }
  simpl. set (ids := step_ids p) in *.
  destruct (fold_result_ok (edges_done (sort_strings ids)) (add_edge (list_to_set ids))
    (∅, sort_ids g1) (pl_edges p)) as ([seen g2] & E & _).
  - apply edges_init_of; simpl; rewrite ?Hids; done.
  - intros pre e post c Heq HP.
    assert (Hset : list_to_set ids =@{gset string} list_to_set (sort_strings ids)).
    { apply set_eq. intros x. by rewrite !elem_of_list_to_set, elem_of_sort_strings. }
    rewrite Hset. destruct (Hk (from_step e) (to_step e)) as [Hf Ht].
    { exists e. rewrite Heq. set_solver. }
    destruct (add_edge_ok (sort_strings ids) pre e c) as [c' Hc'];
      rewrite ?elem_of_sort_strings; try done.
    exists c'. split; [done|]. eapply add_edge_done; [by apply NoDup_sort_strings|done..].
  - unfold ids in E. unfold step_ids in E. rewrite E. simpl. eauto.
Qed.

Lemma Build_assemble p :
  Build (Some p) =
  g ← assemble p;
  match findCycle g with
  | Finished => Ok g
  | Found path => Err (ErrCycle (pl_id p) path)
  | OutOfFuel => Err (ErrCycle (pl_id p) [])
  end.
Proof.
  unfold Build, assemble.
  destruct (fold_result (add_step _) _ _) as [[known g]|]; simpl; [|done].
  by destruct (fold_result (add_edge _) _ _) as [[seen g']|].
Qed.

(** ** Depth-first search *)

Section Search.
Context (g : Graph).
Context (Hclosed : ∀ x y, y ∈ Dependents g x → y ∈ stepIDs g).

Definition succ (x y : string) : Prop := y ∈ Dependents g x.

(** A path of edges that comes back to where it started. *)
Definition is_cycle (c : list string) : Prop :=
  Sorted succ c ∧ ∃ x l, c = (x :: l) ++ [x].

(** Grey is the current path, and nothing black can reach a cycle. *)
Record dfs_inv (st : dfs) : Prop := mkDfsInv
  { di_nodup : NoDup (dpath st);
    di_known : dpath st ⊆ stepIDs g;
    di_grey : ∀ x, colour_of st x = grey ↔ x ∈ dpath st;
    di_chain : Sorted succ (dpath st);
    di_black : ∀ x, colour_of st x = black → Acc (flip succ) x }.

Definition blacker (st st' : dfs) : Prop :=
  ∀ x, colour_of st x = black → colour_of st' x = black.

(** What one call or one loop leaves behind. *)
Definition search_post (st : dfs) (goal : list string) (r : dfs * visited) : Prop :=
  match r with
  | (st', Finished) =>
      dfs_inv st' ∧ dpath st' = dpath st ∧ blacker st st' ∧
      ∀ x, x ∈ goal → colour_of st' x = black
  | (_, Found c) => is_cycle c
  | (_, OutOfFuel) => False
  end.

Lemma colour_of_insert st x y c p :
  colour_of (mkDfs (<[x := c]> (colour st)) p) y =
  if decide (x = y) then c else colour_of st y.
Proof. unfold colour_of. simpl. rewrite lookup_insert. by case_decide. Qed.

Lemma Sorted_app_r {A} (R : relation A) l1 l2 : Sorted R (l1 ++ l2) → Sorted R l2.
Proof. induction l1 as [|x l1 IH]; simpl; [done|]. inversion 1; auto. Qed.

Lemma close_cycle_spec d path id :
  d ∈ path → Sorted succ path → succ id d → last path = Some id →
  ∃ c, close_cycle d path = Some c ∧ is_cycle c.
Proof.
  intros Hd Hs Hsucc Hlast. induction path as [|x path IH]; [by apply elem_of_nil in Hd|].
  simpl. case_decide as Hx.
  - subst x. eexists; split; [done|]. split; [|by exists d, path].
    change (Sorted succ ((d :: path) ++ [d])). apply Sorted_snoc; [done|].
    apply last_Some in Hlast as [l' ->]. by constructor.
  - apply elem_of_cons in Hd as [->|Hd]; [done|].
    destruct path as [|y path]; [by apply elem_of_nil in Hd|].
    apply IH; [done|by inversion Hs|done].
Qed.

Lemma blacker_trans st1 st2 st3 : blacker st1 st2 → blacker st2 st3 → blacker st1 st3.
Proof. unfold blacker. auto. Qed.

Lemma visit_dependents_spec rec id ds n st :
  (∀ d st, dfs_inv st → d ∈ stepIDs g → colour_of st d = white → TlRel succ d (dpath st) →
    length (dpath st) = n → search_post st [d] (rec d st)) →
  dfs_inv st → last (dpath st) = Some id → length (dpath st) = n →
  (∀ d, d ∈ ds → succ id d) →
  search_post st ds (visit_dependents rec ds st).
Proof.
  intros Hrec. revert st. induction ds as [|d ds IH]; intros st Hinv Hlast Hn Hds; simpl.
  { split_and!; [done|done|by intros x|]. intros x Hx. by apply elem_of_nil in Hx. }
  assert (Hd : succ id d) by (apply Hds; by left).
  assert (Hds' : ∀ d, d ∈ ds → succ id d) by (intros; apply Hds; by right).
  destruct (colour_of st d) eqn:Hc.
  - assert (HT : TlRel succ d (dpath st)).
    { apply last_Some in Hlast as [l' ->]. by constructor. }
    specialize (Hrec d st Hinv (Hclosed _ _ Hd) Hc HT Hn).
    destruct (rec d st) as [st' [c| |]]; [done| |done].
    destruct Hrec as (Hinv' & Hp & Hb & Hg).
    assert (HI : search_post st' ds (visit_dependents rec ds st'))
      by (apply IH; rewrite ?Hp; done).
    destruct (visit_dependents rec ds st') as [st'' [c| |]]; [done| |done].
    destruct HI as (Hinv'' & Hp' & Hb' & Hg'). split_and!; [done|congruence| |].
    + by eapply blacker_trans.
    + intros x [->|Hx]%elem_of_cons; [|auto]. apply Hb', Hg. set_solver.
  - apply di_grey in Hc; [|done].
    destruct (close_cycle_spec d (dpath st) id) as (c & -> & Hcyc); [done|by apply di_chain|done..].
  - specialize (IH st Hinv Hlast Hn Hds').
    destruct (visit_dependents rec ds st) as [st'' [c| |]]; [done| |done].
    destruct IH as (? & ? & Hb & Hg). split_and!; [done|done|done|].
    intros x [->|Hx]%elem_of_cons; auto.
Qed.

Lemma dfs_inv_push id st :
  dfs_inv st → id ∈ stepIDs g → colour_of st id = white → TlRel succ id (dpath st) →
  dfs_inv (mkDfs (<[id := grey]> (colour st)) (dpath st ++ [id])).
Proof.
  intros [Hnd Hk Hg Hch Hb] Hid Hw HT.
  assert (Hfresh : id ∉ dpath st) by (rewrite <-Hg; congruence).
  split; simpl.
  - apply NoDup_app. split_and!; [done|set_solver|apply NoDup_singleton].
  - set_solver.
  - intros x. rewrite colour_of_insert. case_decide; set_solver.
  - by apply Sorted_snoc.
  - intros x. rewrite colour_of_insert. case_decide; [done|apply Hb].
Qed.

Lemma dfs_inv_pop id st st2 :
  dfs_inv st → dfs_inv st2 → dpath st2 = dpath st ++ [id] →
  (∀ y, succ id y → colour_of st2 y = black) →
  dfs_inv (mkDfs (<[id := black]> (colour st2)) (dpath st)).
Proof.
  intros [Hnd Hk _ Hch _] [Hnd2 _ Hg2 _ Hb2] Hp Hall. rewrite Hp in Hg2, Hnd2.
  apply NoDup_app in Hnd2 as (_ & Hnin & _).
  split; simpl; [exact Hnd|exact Hk| |exact Hch|].
  - intros x. rewrite colour_of_insert. case_decide as Hx; [subst; set_solver|].
    rewrite Hg2. set_solver.
  - intros x. rewrite colour_of_insert. case_decide as Hx; [|apply Hb2].
    intros _. subst x. constructor. intros y Hy. apply Hb2, Hall, Hy.
Qed.

Lemma path_length st : dfs_inv st → (length (dpath st) ≤ length (stepIDs g))%nat.
Proof.
  intros Hinv. apply submseteq_length, NoDup_submseteq; [by apply di_nodup|].
  intros x Hx. by apply di_known in Hx.
Qed.

(** One unit of fuel per step on the path, and one more. *)
Lemma visit_spec fuel id st :
  dfs_inv st → id ∈ stepIDs g → colour_of st id = white → TlRel succ id (dpath st) →
  (length (stepIDs g) < fuel + length (dpath st))%nat →
  search_post st [id] (visit g fuel id st).
Proof.
  revert id st. induction fuel as [|fuel IH]; intros id st Hinv Hid Hw HT Hf.
  { pose proof (path_length st Hinv). lia. }
  cbn [visit]. pose proof (dfs_inv_push id st Hinv Hid Hw HT) as Hinv1.
  set (st1 := mkDfs _ _) in *.
  assert (Hl1 : length (dpath st1) = S (length (dpath st))) by (simpl; rewrite length_app; simpl; lia).
  pose proof (visit_dependents_spec (visit g fuel) id (get_list (dependents g) id)
    (S (length (dpath st))) st1) as HV.
  destruct (visit_dependents _ _ st1) as [st2 [c| |]].
  - apply HV; [|done|by simpl; rewrite last_snoc|done|done]. intros. apply IH; auto. lia.
  - destruct HV as (Hinv2 & Hp2 & Hb2 & Hg2); [|done|by simpl; rewrite last_snoc|done|done|].
    { intros. apply IH; auto. lia. }
    simpl in Hp2. rewrite Hp2, removelast_last. split_and!; [|done| |].
    + by eapply dfs_inv_pop.
    + intros x Hx. rewrite colour_of_insert. case_decide as He; [done|].
      apply Hb2. unfold st1. rewrite colour_of_insert, decide_False; done.
    + intros x ->%list_elem_of_singleton. by rewrite colour_of_insert, decide_True.
  - apply HV; [|done|by simpl; rewrite last_snoc|done|done]. intros. apply IH; auto. lia.
Qed.
End Search.

(** ** Cycles *)

Lemma Acc_not_tc (R : relation string) x : Acc (flip R) x → ¬ tc R x x.
Proof.
  induction 1 as [x _ IH]. intros Hx. inversion Hx as [? ? H1|? y ? H1 H2]; subst.
  - by apply (IH x H1).
  - apply (IH y H1). eapply tc_r; eauto.
Qed.

Lemma chain_tc (R : relation string) x l y : Sorted R (x :: l ++ [y]) → tc R x y.
Proof.
  revert x. induction l as [|z l IH]; intros x; simpl; inversion 1 as [|? ? Hs Hh]; subst;
    inversion Hh; subst.
  - by constructor.
  - eapply tc_l; eauto.
Qed.

Lemma is_cycle_tc g c : is_cycle g c → ∃ x, tc (succ g) x x.
Proof. intros [Hs (x & l & ->)]. exists x. by apply (chain_tc _ x l). Qed.

Lemma dup_split (l : list string) :
  ¬ NoDup l → ∃ x l1 l2 l3, l = l1 ++ x :: l2 ++ x :: l3.
Proof.
  induction l as [|x l IH]; intros Hd; [by destruct Hd; constructor|].
  destruct (decide (x ∈ l)) as [(l2 & l3 & ->)%list_elem_of_split|Hx].
  - by exists x, [], l2, l3.
  - destruct IH as (y & l1 & l2 & l3 & ->); [by intros ?; apply Hd; constructor|].
    by exists y, (x :: l1), l2, l3.
Qed.

Lemma Sorted_app_l {A} (R : relation A) l1 l2 : Sorted R (l1 ++ l2) → Sorted R l1.
Proof.
  induction l1 as [|x l1 IH]; simpl; [constructor|].
  inversion 1 as [|? ? Hs' Hh]; subst. constructor; [auto|].
  destruct l1; [constructor|]. inversion Hh; subst. by constructor.
Qed.

(** In a finite set where everything has a predecessor inside, something
    reaches itself. *)
Lemma no_source_cycle (R : relation string) (U : gset string) :
  (∃ x, x ∈ U) → (∀ y, y ∈ U → ∃ x, x ∈ U ∧ R x y) → ∃ x, tc R x x.
Proof.
  intros [u Hu] Hpred.
  assert (Hchain : ∀ k, ∃ x l, length l = k ∧ Sorted R (x :: l) ∧ ∀ z, z ∈ x :: l → z ∈ U).
  { intros k. induction k as [|k (x & l & Hl & Hs & HU)].
    - exists u, []. split_and!; [done|by constructor; constructor|set_solver].
    - destruct (Hpred x) as (y & Hy & HR); [set_solver|].
      exists y, (x :: l). split_and!; [simpl; lia|by constructor; [|constructor]|set_solver]. }
  destruct (Hchain (size U)) as (x & l & Hl & Hs & HU).
  destruct (dup_split (x :: l)) as (z & l1 & l2 & l3 & E).
  { intros Hnd. assert (HX : size (list_to_set (x :: l) : gset string) = S (length l))
      by (rewrite size_list_to_set by done; done).
    pose proof (subseteq_size (list_to_set (x :: l) : gset string) U) as Hle.
    rewrite HX in Hle. assert (S (length l) ≤ size U)%nat; [apply Hle; set_solver|lia]. }
  exists z. apply (chain_tc R z l2). rewrite E in Hs. apply Sorted_app_r in Hs.
  replace (z :: l2 ++ z :: l3) with ((z :: l2 ++ [z]) ++ l3) in Hs by (simpl; by rewrite <-app_assoc).
  by apply Sorted_app_l in Hs.
Qed.

(** ** [findCycle] decides acyclicity *)

Section Decide.
Context (p : Pipeline) (g : Graph) (Hg : graph_of p g).

Lemma go_closed x y : y ∈ Dependents g x → y ∈ stepIDs g.
Proof.
  intros Hxy. apply (go_edge p g Hg) in Hxy. rewrite (go_ids p g Hg), elem_of_sort_strings.
  by apply (go_known p g Hg) in Hxy as [_ ?].
Qed.

Lemma dfs_inv_init : dfs_inv g (mkDfs ∅ []).
Proof.
  split; simpl; [constructor|set_solver| |constructor|];
    unfold colour_of; simpl; intros x; rewrite lookup_empty; simpl; [|done].
  split; [done|by intros ?%elem_of_nil].
Qed.

Lemma find_from_spec ids st :
  dfs_inv g st → dpath st = [] → ids ⊆ stepIDs g →
  match find_from g ids st with
  | Finished => ∀ x, x ∈ ids → Acc (flip (succ g)) x
  | Found c => is_cycle g c
  | OutOfFuel => False
  end.
Proof.
  revert st. induction ids as [|id ids IH]; intros st Hinv Hp Hids; cbn [find_from].
  { intros x Hx. by apply elem_of_nil in Hx. }
  assert (Hids' : ids ⊆ stepIDs g) by set_solver.
  destruct (colour_of st id) eqn:Hc.
  - pose proof (visit_spec g go_closed (visit_fuel_for g) id st Hinv) as HV.
    rewrite Hp in HV. specialize (HV (Hids id ltac:(by left)) Hc (TlRel_nil _ _)).
    specialize (HV ltac:(unfold visit_fuel_for; simpl; lia)).
    destruct (visit g _ id st) as [st' [c| |]]; [done| |done].
    destruct HV as (Hinv' & Hp' & Hb & Hgoal).
    specialize (IH st' Hinv' ltac:(congruence) Hids').
    destruct (find_from g ids st'); [done| |done].
    intros x [->|Hx]%elem_of_cons; [|auto]. apply (di_black g st' Hinv'), Hgoal. by left.
  - apply (di_grey g st Hinv) in Hc. rewrite Hp in Hc. by apply elem_of_nil in Hc.
  - specialize (IH st Hinv Hp Hids'). destruct (find_from g ids st); [done| |done].
    intros x [->|Hx]%elem_of_cons; [|auto]. by apply (di_black g st Hinv).
Qed.

Lemma succ_edge x y : succ g x y ↔ edge_rel p x y.
Proof. apply (go_edge p g Hg). Qed.

Lemma findCycle_spec :
  match findCycle g with
  | Finished => acyclic (edge_rel p)
  | Found c => is_cycle g c
  | OutOfFuel => False
  end.
Proof.
  pose proof (find_from_spec (stepIDs g) (mkDfs ∅ []) dfs_inv_init eq_refl) as H.
  unfold findCycle. destruct (find_from _ _ _); [by apply H| |by apply H].
  intros x Htc.
  assert (Htc' : tc (succ g) x x).
  { eapply tc_congruence with (f := λ x, x); [|done]. intros. by apply succ_edge. }
  revert Htc'. apply Acc_not_tc, H; [done|].
  assert (∃ y, edge_rel p x y) as [y Hy] by (inversion Htc; eauto).
  apply (go_known p g Hg) in Hy as [Hx _].
  by rewrite (go_ids p g Hg), elem_of_sort_strings.
Qed.

Lemma cycle_not_acyclic c : is_cycle g c → ¬ acyclic (edge_rel p).
Proof.
  intros [x Hx]%is_cycle_tc Hac. apply (Hac x).
  eapply tc_congruence with (f := λ x, x); [|done]. intros. by apply succ_edge.
Qed.
End Decide.

Lemma Build_Ok p g :
  Build (Some p) = Ok g →
  graph_of p g ∧ "" ∉ step_ids p ∧ acyclic (edge_rel p).
Proof.
  rewrite Build_assemble. intros H. res_inv. apply assemble_graph in E as [Hg Hne].
  pose proof (findCycle_spec p r Hg) as Hf.
  destruct (findCycle r); simplify_eq. done.
Qed.

(** ** Kahn's algorithm *)

Lemma release_fold (ds : list string) remaining next :
  NoDup ds →
  let '(r', n') := foldl release (remaining, next) ds in
  (∀ y, get_int r' y = get_int remaining y - (if decide (y ∈ ds) then 1 else 0)) ∧
  n' = next ++ filter (λ d, get_int remaining d = 1) ds.
Proof.
  revert remaining next. induction ds as [|d ds IH]; intros remaining next Hnd; cbn [foldl].
  { split; [intros y; rewrite decide_False by set_solver; lia|by rewrite filter_nil, app_nil_r]. }
  apply NoDup_cons in Hnd as [Hd Hnd]. unfold release at 2.
  specialize (IH (<[d := get_int remaining d - 1]> remaining)
    (if decide (get_int remaining d - 1 = 0) then next ++ [d] else next) Hnd).
  destruct (foldl release _ ds) as [r' n']. destruct IH as [Hr ->]. split.
  - intros y. rewrite Hr, get_int_insert.
    destruct (decide (d = y)) as [->|Hne].
    + rewrite (decide_False (P := y ∈ ds)), decide_True by (done || by left). lia.
    + destruct (decide (y ∈ ds)), (decide (y ∈ d :: ds)); set_solver || lia.
  - rewrite filter_cons.
    rewrite (filter_ext_in (λ d0, get_int (<[d:=_]> remaining) d0 = 1) (λ d0, get_int remaining d0 = 1)).
    + destruct (decide (get_int remaining d - 1 = 0)), (decide (get_int remaining d = 1)); try lia;
        by rewrite <-?app_assoc.
    + intros y Hy. rewrite get_int_insert, decide_False; [done|by intros ->].
Qed.

Section Kahn.
Context (g : Graph).
Context (HndS : NoDup (stepIDs g)).
Context (Hcl : ∀ x y, succ g x y → x ∈ stepIDs g ∧ y ∈ stepIDs g).
Context (Hndd : ∀ x, NoDup (Dependents g x)).
Context (Hacyc : ∀ x, ¬ tc (succ g) x x).

(** How many predecessors of [y] are still to be placed. *)
Definition waits (done : gset string) (y : string) : Z :=
  npred (dependents g) (filter (λ x, x ∉ done) (stepIDs g)) y.

Lemma waits_zero done y :
  waits done y = 0 ↔ ∀ x, succ g x y → x ∈ done.
Proof.
  unfold waits, npred. split.
  - intros H0 x Hx. destruct (decide (x ∈ done)) as [|Hn]; [done|exfalso].
    assert (Hin : x ∈ filter (λ x, y ∈ get_list (dependents g) x)
                        (filter (λ x, x ∉ done) (stepIDs g))).
    { rewrite !list_elem_of_filter. split_and!; [done|done|by apply Hcl in Hx as [? _]]. }
    destruct (filter _ (filter _ _)); [by apply elem_of_nil in Hin|simpl in H0; lia].
  - intros Hall. destruct (filter _ (filter _ _)) as [|x l] eqn:E; [done|exfalso].
    assert (Hin : x ∈ x :: l) by (by left). rewrite <-E, !list_elem_of_filter in Hin.
    destruct Hin as (Hx & Hn & _). by apply Hn, Hall.
Qed.

Lemma waits_step done id y :
  id ∈ stepIDs g → id ∉ done →
  waits ({[id]} ∪ done) y = waits done y - (if decide (y ∈ Dependents g id) then 1 else 0).
Proof.
  intros Hid Hn. unfold waits, npred. rewrite !list_filter_filter.
  case_decide as Hy.
  - rewrite (filter_length_flip (λ x, y ∈ get_list (dependents g) x ∧ x ∉ {[id]} ∪ done)
      (λ x, y ∈ get_list (dependents g) x ∧ x ∉ done) (stepIDs g) id); [lia|done|done|set_solver|done|].
    intros x Hx. set_solver.
  - rewrite Z.sub_0_r. f_equal. f_equal. apply filter_ext_in. intros x _.
    split; [set_solver|]. intros [Hx Hxd]. split; [done|].
    rewrite elem_of_union, elem_of_singleton. intros [->|?]; done.
Qed.

(** Midway through a level: [done] holds what was taken so far. *)
Record mid (level : list string) (done : gset string) (acc : gmap string Z * list string) : Prop :=
  mkMid
  { mid_count : ∀ y, y ∈ stepIDs g → y ∉ done → get_int acc.1 y = waits done y;
    mid_next : ∀ y, y ∈ acc.2 ↔ y ∈ stepIDs g ∧ y ∉ done ∧ y ∉ level ∧ waits done y = 0;
    mid_nodup : NoDup acc.2;
    mid_pred : ∀ x y, succ g x y → y ∈ done → x ∈ done;
    mid_level : ∀ x y, y ∈ level → succ g x y → x ∈ done }.

Lemma take_step_mid level done acc id :
  mid level done acc → id ∈ level → id ∈ stepIDs g → id ∉ done →
  mid level ({[id]} ∪ done) (take_step g acc id).
Proof.
  destruct acc as [rem next]. intros [Hc Hn Hnd Hp Hl] Hidl Hid Hnew.
  pose proof (release_fold (get_list (dependents g) id) (delete id rem) next (Hndd id)) as HR.
  unfold take_step. destruct (foldl release _ _) as [r' n']. destruct HR as [Hr' ->]. simpl in *.
  assert (Hself : ¬ succ g id id) by (intros Hs; apply (Hacyc id); by constructor).
  assert (Hds : ∀ y, succ g id y → y ∉ done ∧ y ∉ level).
  { intros y Hy. split; [by intros ?%(Hp id y Hy)|by intros Hyl; apply Hnew, (Hl id y)]. }
  split; simpl.
  - intros y Hy Hyd. rewrite Hr', get_int_delete, Hc, waits_step by set_solver. done.
  - intros y. rewrite elem_of_app, Hn, list_elem_of_filter.
    destruct (decide (y ∈ Dependents g id)) as [Hyd|Hyd].
    + destruct (Hds y Hyd) as [? ?]. assert (y ≠ id) by (by intros ->).
      rewrite get_int_delete, Hc, waits_step, decide_True by (done || by apply Hcl in Hyd as [_ ?]).
      assert (waits done y ≠ 0) by (intros Hz; rewrite waits_zero in Hz; by apply Hnew, Hz).
      apply Hcl in Hyd as Hin. destruct Hin as [_ Hin].
      split; [intros [(?&?&?&?)|[? ?]]; [done|split_and!; try done; [set_solver|lia]]|].
      intros (?&?&?&?). right. split; [lia|done].
    + rewrite waits_step, decide_False by done.
      split; [intros [(?&?&?&?)|[_ ?]]; [split_and!; try done; [set_solver|lia]|done]|].
      intros (?&?&?&?). left. split_and!; [done|set_solver|done|lia].
  - apply NoDup_app. split_and!; [done| |apply NoDup_filter, Hndd].
    intros y (?&?&?&H0)%Hn [_ Hyd]%list_elem_of_filter.
    rewrite waits_zero in H0. apply Hnew, H0. exact Hyd.
  - intros x y Hxy [->%elem_of_singleton|Hy]%elem_of_union.
    + apply elem_of_union_r. by apply (Hl x id).
    + apply elem_of_union_r. eauto.
  - intros x y Hy Hxy. apply elem_of_union_r. eauto.
Qed.

Lemma take_level_mid todo level done acc :
  mid level done acc → NoDup todo →
  (∀ y, y ∈ todo → y ∈ level ∧ y ∈ stepIDs g ∧ y ∉ done) →
  mid level (list_to_set todo ∪ done) (foldl (take_step g) acc todo).
Proof.
  revert done acc. induction todo as [|id todo IH]; intros done acc Hm Hnd Htodo; cbn [foldl].
  { by rewrite list_to_set_nil, (left_id_L ∅ (∪)). }
  apply NoDup_cons in Hnd as [Hid Hnd].
  destruct (Htodo id) as (? & ? & ?); [by left|].
  rewrite list_to_set_cons, (comm_L (∪) {[id]}), <-(assoc_L (∪)).
  apply IH; [by apply take_step_mid|done|].
  intros y Hy. destruct (Htodo y) as (?&?&?); [by right|]. split_and!; [done|done|set_solver].
Qed.

Record at_level (done : gset string) (remaining : gmap string Z) (level : list string) : Prop :=
  mkAtLevel
  { al_count : ∀ y, y ∈ stepIDs g → y ∉ done → get_int remaining y = waits done y;
    al_level : ∀ y, y ∈ level ↔ y ∈ stepIDs g ∧ y ∉ done ∧ waits done y = 0;
    al_nodup : NoDup level;
    al_sorted : StronglySorted String.le level;
    al_pred : ∀ x y, succ g x y → y ∈ done → x ∈ done }.

Lemma next_level done remaining level :
  at_level done remaining level →
  let '(remaining', next) := foldl (take_step g) (remaining, []) level in
  at_level (list_to_set level ∪ done) remaining' (sort_strings next).
Proof.
  intros [Hc Hl Hnd Hs Hp].
  assert (Hm : mid level done (remaining, [])).
  { split; simpl; [done| |constructor|done|].
    - intros y. rewrite elem_of_nil, Hl. naive_solver.
    - intros x y (?&?&H0)%Hl Hxy. rewrite waits_zero in H0. by apply H0. }
  apply (take_level_mid level) in Hm; [|done|intros y Hy; split; [done|by apply Hl in Hy as (?&?&?)]].
  destruct (foldl _ _ _) as [r' next]. destruct Hm as [Hc' Hn' Hnd' Hp' _]. simpl in *.
  split; [done| |by apply NoDup_sort_strings|apply sort_strings_sorted|done].
  intros y. rewrite elem_of_sort_strings, Hn'. set_solver.
Qed.

(** A level is empty only once every step has been placed. *)
Lemma empty_level done remaining :
  at_level done remaining [] → ∀ y, y ∈ stepIDs g → y ∈ done.
Proof.
  intros [Hc Hl _ _ _] y Hy. destruct (decide (y ∈ done)) as [|Hyd]; [done|exfalso].
  set (U := list_to_set (filter (λ x, x ∉ done) (stepIDs g)) : gset string).
  assert (HU : ∀ x, x ∈ U ↔ x ∈ stepIDs g ∧ x ∉ done).
  { intros x. unfold U. rewrite elem_of_list_to_set, list_elem_of_filter. tauto. }
  destruct (no_source_cycle (succ g) U) as [x Hx]; [exists y; by apply HU| |by apply (Hacyc x)].
  intros z [Hz Hzd]%HU.
  assert (Hw : waits done z ≠ 0) by (intros H0; assert (z ∈ []); [by apply Hl|set_solver]).
  destruct (decide (Forall (λ x, z ∈ Dependents g x → x ∈ done) (stepIDs g))) as [Hall|Hex].
  - destruct Hw. apply waits_zero. intros x Hx. rewrite Forall_forall in Hall.
    apply (Hall x); [by apply Hcl in Hx as [? _]|done].
  - apply not_Forall_Exists in Hex; [|apply _]. apply Exists_exists in Hex as (x & Hx & Hnx).
    simpl in Hnx. exists x. destruct (decide (z ∈ Dependents g x)), (decide (x ∈ done)); try tauto.
    split; [by apply HU|done].
Qed.

Definition placed (done : gset string) (ls : list (list string)) : Prop :=
  (∀ y, y ∈ mjoin ls ↔ y ∈ stepIDs g ∧ y ∉ done) ∧ NoDup (mjoin ls) ∧
  Forall (StronglySorted String.le) ls ∧
  ∀ x y, succ g x y → y ∉ done →
    ∃ j ly, ls !! j = Some ly ∧ y ∈ ly ∧
      (x ∈ done ∨ ∃ i lx, (i < j)%nat ∧ ls !! i = Some lx ∧ x ∈ lx).

Lemma placed_cons done level ls :
  NoDup level → StronglySorted String.le level →
  (∀ y, y ∈ level → y ∈ stepIDs g ∧ y ∉ done ∧ waits done y = 0) →
  placed (list_to_set level ∪ done) ls → placed done (level :: ls).
Proof.
  intros Hnd Hs Hl (Hin & Hnd' & Hs' & Hord). split_and!.
  - intros y. cbn. rewrite elem_of_app, Hin.
    destruct (decide (y ∈ level)); [|set_solver]. naive_solver.
  - cbn. apply NoDup_app. split_and!; [done|set_solver|done].
  - by constructor.
  - intros x y Hxy Hy. destruct (decide (y ∈ level)) as [Hyl|Hyl].
    + exists 0%nat, level. split_and!; [done|done|]. left.
      apply Hl in Hyl as (_ & _ & H0). rewrite waits_zero in H0. by apply H0.
    + destruct (Hord x y Hxy) as (j & ly & Hj & Hyj & Hx); [set_solver|].
      exists (S j), ly. split_and!; [done|done|].
      destruct Hx as [[Hx|?]%elem_of_union|(i & lx & ? & ? & ?)]; [|by left|].
      * right. exists 0%nat, level. split_and!; [lia|done|set_solver].
      * right. exists (S i), lx. split_and!; [lia|done|done].
Qed.

Lemma topo_loop_placed fuel done remaining level :
  at_level done remaining level →
  (length (filter (λ x, x ∉ done) (stepIDs g)) < fuel)%nat →
  placed done (topo_loop g fuel remaining level).
Proof.
  revert done remaining level. induction fuel as [|fuel IH]; intros done remaining level Hal Hf; [lia|].
  destruct level as [|id level].
  - cbn [topo_loop]. split_and!; [|constructor|constructor|].
    + intros y. cbn. rewrite elem_of_nil. split; [done|].
      intros [Hy Hn]. by apply Hn, (empty_level done remaining).
    + intros x y Hxy Hy. destruct Hy. eapply empty_level; [done|]. by apply Hcl in Hxy as [_ ?].
  - cbn [topo_loop]. pose proof (next_level done remaining (id :: level) Hal) as Hnext.
    destruct (foldl _ _ _) as [r' next]. destruct Hal as [Hc Hl Hnd Hs Hp].
    apply placed_cons; [done|done|apply Hl|]. apply IH; [done|].
    assert (Hid : id ∈ stepIDs g ∧ id ∉ done) by (destruct (Hl id) as [HL _];
      destruct HL as (?&?&?); [by left|done]).
    eapply Nat.lt_le_trans; [|apply (proj1 (Nat.lt_succ_r _ _) Hf)].
    apply (filter_length_lt _ _ _ id); [set_solver..|intros x _; set_solver].
Qed.
End Kahn.

Lemma topo_levels_placed p g :
  graph_of p g → acyclic (edge_rel p) → placed g ∅ (TopoLevels g).
Proof.
  intros Hg Hac.
  assert (HndS : NoDup (stepIDs g)).
  { rewrite (go_ids p g Hg). apply NoDup_sort_strings, (go_nodup_ids p g Hg). }
  assert (Hcl : ∀ x y, succ g x y → x ∈ stepIDs g ∧ y ∈ stepIDs g).
  { intros x y Hxy. rewrite (go_ids p g Hg), !elem_of_sort_strings.
    by apply (go_known p g Hg), (go_edge p g Hg). }
  assert (Hacyc : ∀ x, ¬ tc (succ g) x x).
  { intros x Hx. apply (Hac x). eapply tc_congruence with (f := λ x, x); [|done].
    intros. by apply (go_edge p g Hg). }
  assert (Hw : ∀ y, get_int (indegree g) y = waits g ∅ y).
  { intros y. rewrite (go_indegree p g Hg). unfold waits, npred.
    rewrite list_filter_filter. f_equal. f_equal. apply filter_ext_in. set_solver. }
  unfold TopoLevels. apply topo_loop_placed; try done; [apply (go_nodup p g Hg)| |].
  - split; [done| | | |set_solver].
    + intros y. rewrite list_elem_of_filter, Hw. set_solver.
    + by apply NoDup_filter.
    + rewrite (go_ids p g Hg). apply StronglySorted_filter, sort_strings_sorted.
  - apply Nat.lt_succ_r, length_filter.
Qed.

(** ** Ports *)

(** The port types an edge may join: two blobs of any media type, or two
    structured values naming one schema. *)
Inductive port_compatible : option PortKind → option PortKind → Prop :=
| compatible_blob m1 m2 : port_compatible (Some (PortBlob m1)) (Some (PortBlob m2))
| compatible_struct id s1 s2 :
    port_compatible (Some (PortStructured id s1)) (Some (PortStructured id s2)).

Definition edge_connects (p : Pipeline) (e : Edge) : Prop :=
  ∃ from to out inp,
    steps_by_id p !! from_step e = Some from ∧ steps_by_id p !! to_step e = Some to ∧
    findPort (step_outputs from) (from_port e) = Some out ∧
    findPort (step_inputs to) (to_port e) = Some inp ∧
    port_compatible (port_type out) (port_type inp).

Definition binding_ok (p : Pipeline) (s : Step) (b : FileInput) : Prop :=
  (∃ f, f ∈ pl_files p ∧ file_path f = fi_path b) ∧ is_Some (findPort (step_inputs s) (fi_port b)).

Lemma incompatible_None o i : incompatible o i = None ↔ port_compatible o i.
Proof.
  split.
  - unfold incompatible. destruct o as [[]|], i as [[]|]; simpl; try done.
    + intros _. constructor.
    + case_decide as Hd; [done|]. subst. intros _. constructor.
  - destruct 1; unfold incompatible; simpl; [done|]. by rewrite decide_False by tauto.
Qed.

Lemma check_edge_nil p e : check_edge (steps_by_id p) e = [] ↔ edge_connects p e.
Proof.
  unfold check_edge, edge_connects. split.
  - repeat case_match; intros ?; try done. repeat eexists; eauto. by apply incompatible_None.
  - intros (from & to & out & inp & -> & -> & -> & -> & ->%incompatible_None). done.
Qed.

Lemma check_binding_nil p s b :
  check_binding (list_to_set (file_path <$> pl_files p)) s b = [] ↔ binding_ok p s b.
Proof.
  unfold check_binding, binding_ok.
  assert (Hc : fi_path b ∈ (list_to_set (file_path <$> pl_files p) : gset string) ↔
               ∃ f, f ∈ pl_files p ∧ file_path f = fi_path b).
  { rewrite elem_of_list_to_set, list_elem_of_fmap. naive_solver. }
  case_decide as Hd; rewrite Hc in Hd; [split; [done|tauto]|].
  destruct (findPort _ _) as [x|]; split; [by intros _; split; [|eexists]|done|done|].
  by intros [_ [? ?]].
Qed.

Lemma mjoin_nil {A} (l : list (list A)) : mjoin l = [] ↔ ∀ x, x ∈ l → x = [].
Proof.
  induction l as [|x l IH]; cbn; [set_solver|]. rewrite app_nil, IH. set_solver.
Qed.

Lemma foldl_insert_lookup {A} (key : A → string) (l : list A) (m : gmap string A) k x :
  foldl (λ m y, <[key y := y]> m) m l !! k = Some x →
  (x ∈ l ∧ key x = k) ∨ (m !! k = Some x ∧ ∀ y, y ∈ l → key y ≠ k).
Proof.
  revert m. induction l as [|y l IH]; intros m; cbn [foldl].
  - intros. right. split; [done|]. intros ? H'. by apply elem_of_nil in H'.
  - intros [[Hx <-]|[Hm Hn]]%IH; [left; split; [by right|done]|].
    rewrite lookup_insert in Hm. case_decide as Hk; simplify_eq.
    + left. split; [by left|done].
    + right. split; [done|]. intros z [->|Hz]%elem_of_cons; auto.
Qed.

Lemma foldl_insert_is_Some {A} (key : A → string) (l : list A) (m : gmap string A) k :
  (∃ y, y ∈ l ∧ key y = k) ∨ is_Some (m !! k) →
  is_Some (foldl (λ m y, <[key y := y]> m) m l !! k).
Proof.
  revert m. induction l as [|y l IH]; intros m; cbn [foldl].
  - intros [(y & Hy & _)|H]; [by apply elem_of_nil in Hy|done].
  - intros H. apply IH. destruct H as [(z & [->|Hz]%elem_of_cons & <-)|H].
    + right. by rewrite lookup_insert_eq.
    + left. eauto.
    + right. rewrite lookup_insert. case_decide; [by eexists|done].
Qed.

Lemma files_by_path_Some p path f :
  files_by_path p !! path = Some f → f ∈ pl_files p ∧ file_path f = path.
Proof.
  intros [?|[H _]]%(foldl_insert_lookup file_path); [done|]. by rewrite lookup_empty in H.
Qed.

Lemma typecheck_clean (p : Pipeline) :
  TypeCheck (Some p) = [] ↔
  (∀ e, e ∈ pl_edges p → edge_connects p e) ∧
  (∀ s b, s ∈ pl_steps p → b ∈ step_file_inputs s → binding_ok p s b).
Proof.
  unfold TypeCheck, checkFileBindings. rewrite app_nil, !mjoin_nil. split.
  - intros [He Hb]. split.
    + intros e Hin. apply check_edge_nil, He, list_elem_of_fmap_2, Hin.
    + intros s b Hs Hin. apply check_binding_nil.
      specialize (Hb _ (list_elem_of_fmap_2 _ _ _ Hs)). simpl in Hb.
      rewrite mjoin_nil in Hb. apply Hb, list_elem_of_fmap_2, Hin.
  - intros [He Hb]. split.
    + intros x (e & -> & Hin)%list_elem_of_fmap. by apply check_edge_nil, He.
    + intros x (s & -> & Hs)%list_elem_of_fmap. apply mjoin_nil.
      intros y (b & -> & Hin)%list_elem_of_fmap. by apply check_binding_nil, (Hb s b).
Qed.

Lemma build_ok_elim p :
  is_ok (Build (Some p)) = true →
  "" ∉ step_ids p ∧ NoDup (step_ids p) ∧ (∀ x y, edge_rel p x y → x ∈ step_ids p ∧ y ∈ step_ids p) ∧ acyclic (edge_rel p).
Proof.
  destruct (Build (Some p)) as [g|] eqn:E; [|done]. intros _. apply Build_Ok in E as (Hg & Hne & Hac).
  split_and!; [done|by apply (go_nodup_ids p g)|by apply (go_known p g)|done].
Qed.

Lemma build_ok_intro p :
  "" ∉ step_ids p ∧ NoDup (step_ids p) ∧ (∀ x y, edge_rel p x y → x ∈ step_ids p ∧ y ∈ step_ids p) ∧ acyclic (edge_rel p) →
  is_ok (Build (Some p)) = true.
Proof.
  intros (Hne & Hnd & Hk & Hac). rewrite Build_assemble. destruct (assemble_ok p Hne Hnd Hk) as [g Hg]. rewrite Hg. cbn.
  apply assemble_graph in Hg as [Hg _]. pose proof (findCycle_spec p g Hg) as Hf.
  destruct (findCycle g); [|done|done]. by apply (cycle_not_acyclic p g Hg) in Hf.
Qed.

(** ** Properties *)

(** C38: [Build] accepts a pipeline exactly when every step has a non-empty id
    of its own, every edge joins steps the pipeline defines, and no step
    reaches itself along the edges. Its depth-first search therefore always
    terminates within its bound and neither misses nor invents a cycle. *)
Theorem build_accepts_iff (p : Pipeline) :
  is_ok (Build (Some p)) = true ↔
  "" ∉ step_ids p ∧ NoDup (step_ids p) ∧
  (∀ x y, edge_rel p x y → x ∈ step_ids p ∧ y ∈ step_ids p) ∧
  acyclic (edge_rel p).
Proof. split; [apply build_ok_elim|apply build_ok_intro]. Qed.

(** The path a cycle error names is a cycle of the pipeline: consecutive
    steps are joined by edges and the first step is repeated at the end. *)
Theorem build_cycle_is_real (p : Pipeline) (pid : string) (path : list string) :
  Build (Some p) = Err (ErrCycle pid path) →
  pid = pl_id p ∧ Sorted (edge_rel p) path ∧ ∃ x l, path = (x :: l) ++ [x].
Proof.
  rewrite Build_assemble. destruct (assemble p) as [g|e] eqn:E; cbn.
  - apply assemble_graph in E as [Hg _]. pose proof (findCycle_spec p g Hg) as Hf.
    destruct (findCycle g) as [c| |]; intros; simplify_eq; [|done].
    destruct Hf as [Hs Hc]. split_and!; [done| |done].
    eapply Sorted_mono; [|done]. intros x y. apply (go_edge p g Hg).
  - intros [= ->]. exfalso. unfold assemble in E.
    assert (Hno : ∀ err, (∃ known acc s, add_step (pl_id p) (known, acc) s = Err err) ∨
      (∃ known acc e, add_edge known acc e = Err err) → err ≠ ErrCycle pid path).
    { intros err [(?&?&?&[-> | ->]%add_step_err)|(?&?&?&(?&->&_)%add_edge_err)]; done. }
    destruct (fold_result (add_step _) _ _) as [[known g]|e1] eqn:E1; cbn in E.
    + destruct (fold_result (add_edge _) _ _) as [[seen g']|e2] eqn:E2; [done|].
      simplify_eq/=. apply fold_result_err in E2 as (acc & e & He). eapply Hno; [|done]. eauto.
    + simplify_eq/=. apply fold_result_err in E1 as ([k a] & s & He). eapply Hno; [|done]. eauto 6.
Qed.

(** On a graph [Build] accepted, [TopoLevels] stops with every step placed
    exactly once, each level sorted, and every edge running from an earlier
    level to a strictly later one. *)
Theorem topo_levels_correct (p : Pipeline) (g : Graph) :
  Build (Some p) = Ok g →
  mjoin (TopoLevels g) ≡ₚ step_ids p ∧
  Forall (StronglySorted String.le) (TopoLevels g) ∧
  ∀ e, e ∈ pl_edges p →
    ∃ i j li lj, (i < j)%nat ∧ TopoLevels g !! i = Some li ∧ TopoLevels g !! j = Some lj ∧
      from_step e ∈ li ∧ to_step e ∈ lj.
Proof.
  intros (Hg & _ & Hac)%Build_Ok.
  destruct (topo_levels_placed p g Hg Hac) as (Hin & Hnd & Hs & Hord). split_and!; [|done|].
  - apply NoDup_Permutation; [done|by apply (go_nodup_ids p g)|].
    intros x. rewrite Hin, (go_ids p g Hg), elem_of_sort_strings. set_solver.
  - intros e He. destruct (Hord (from_step e) (to_step e)) as (j & lj & Hj & Hy & [Hx|Hx]).
    + apply (go_edge p g Hg). by exists e.
    + set_solver.
    + set_solver.
    + destruct Hx as (i & li & ? & ? & ?). by exists i, j, li, lj.
Qed.

(** A definition type-checks clean exactly when every edge joins declared
    ports of compatible types and every file binding names a carried file and
    a declared input port. *)
Theorem typecheck_clean_iff (p : Pipeline) :
  TypeCheck (Some p) = [] ↔
  (∀ e, e ∈ pl_edges p → edge_connects p e) ∧
  (∀ s b, s ∈ pl_steps p → b ∈ step_file_inputs s → binding_ok p s b).
Proof. apply typecheck_clean. Qed.

Lemma file_input_ok p s b :
  binding_ok p s b → (∀ f, f ∈ pl_files p → d_hex (file_digest f) ≠ "") →
  ∃ f, f ∈ pl_files p ∧ file_path f = fi_path b ∧
    file_input s (files_by_path p) b = Ok (mkInputRef (fi_port b) (file_digest f) "").
Proof.
  intros [Hc _] Hdig. unfold file_input.
  destruct (foldl_insert_is_Some file_path (pl_files p) ∅ (fi_path b)) as [f Hf]; [by left|].
  fold (files_by_path p) in Hf. apply files_by_path_Some in Hf as Hin. destruct Hin as [Hin Hpath].
  exists f. rewrite Hf, decide_False by (by apply Hdig). done.
Qed.

(** Once a definition type-checks and its files are pinned by digest,
    resolving a step's file inputs cannot fail: it yields one input per
    binding, in order, on the bound port and with the carried file's digest. *)
Theorem file_inputs_resolve (p : Pipeline) (s : Step) :
  TypeCheck (Some p) = [] → s ∈ pl_steps p →
  (∀ f, f ∈ pl_files p → d_hex (file_digest f) ≠ "") →
  ∃ refs, FileInputs p (Some s) = Ok refs ∧
    Forall2 (λ b r, in_port r = fi_port b ∧
      ∃ f, f ∈ pl_files p ∧ file_path f = fi_path b ∧ in_digest r = file_digest f)
      (step_file_inputs s) refs.
Proof.
  intros [_ Hb]%typecheck_clean Hs Hdig. unfold FileInputs.
  set (Q := λ b r, in_port r = fi_port b ∧
      ∃ f, f ∈ pl_files p ∧ file_path f = fi_path b ∧ in_digest r = file_digest f).
  destruct (fold_result_ok (λ pre refs, Forall2 Q pre refs)
    (λ out b, r ← file_input s (files_by_path p) b; Ok (out ++ [r])) [] (step_file_inputs s))
    as (refs & Hr & HQ); [constructor| |by exists refs].
  intros pre b post refs Heq HQ. destruct (file_input_ok p s b) as (f & Hf & Hpath & E);
    [apply Hb; [done|]; rewrite Heq; set_solver|done|].
  rewrite E. cbn. eexists. split; [done|]. apply Forall2_app; [done|].
  constructor; [|constructor]. split; [done|]. by exists f.
Qed.

(** ** Worked examples *)

Definition ex_step (id : string) (ins outs : list Port) (files : list FileInput) : Step :=
  {| step_id := id; step_name := ""; step_plugin_ref := ""; step_effect_class := EFFECT_CLASS_PURE;
     step_inputs := ins; step_outputs := outs; step_capabilities := [];
     step_lease_scope := LEASE_SCOPE_STEP; step_config := ∅; step_image := ""; step_engine_type := "";
     step_timeout_seconds := 0; step_file_inputs := files; step_secrets := [] |}.

Definition ex_blob (name : string) : Port := mkPort name (Some (PortBlob "text/plain")).

(** build -> test -> deploy, and build -> deploy. *)
Definition ex_pipeline : Pipeline :=
  mkPipeline "ci"
    [ ex_step "test" [ex_blob "bin"] [ex_blob "report"] [];
      ex_step "build" [ex_blob "src"] [ex_blob "bin"] [mkFileInput "src" "main.go"];
      ex_step "deploy" [ex_blob "bin"; ex_blob "report"] [] [] ]
    [ mkEdge "build" "bin" "test" "bin"; mkEdge "test" "report" "deploy" "report";
      mkEdge "build" "bin" "deploy" "bin" ]
    [ mkFile "main.go" (mkDigest "sha256" "ab12") 10 "text/plain" ].

Definition ex_cyclic : Pipeline :=
  mkPipeline "loop" [bare_step "a" EFFECT_CLASS_PURE; bare_step "b" EFFECT_CLASS_PURE]
    [mkEdge "a" "o" "b" "i"; mkEdge "b" "o" "a" "i"] [].

Lemma build_cycle_is_real_witness :
  Sorted (edge_rel ex_cyclic) ["a"; "b"; "a"].
Proof. apply (build_cycle_is_real ex_cyclic "loop"). vm_compute. reflexivity. Defined.

Lemma topo_levels_correct_witness :
  ∃ g, Build (Some ex_pipeline) = Ok g ∧ TopoLevels g = [["build"]; ["test"]; ["deploy"]] ∧
    mjoin (TopoLevels g) ≡ₚ step_ids ex_pipeline.
Proof.
  eexists. split; [vm_compute; reflexivity|]. split; [vm_compute; reflexivity|].
  apply (topo_levels_correct ex_pipeline). vm_compute. reflexivity.
Defined.

Lemma file_inputs_resolve_witness :
  ∃ refs, FileInputs ex_pipeline (Some (ex_step "build" [ex_blob "src"] [ex_blob "bin"]
      [mkFileInput "src" "main.go"])) = Ok refs.
Proof.
  edestruct (file_inputs_resolve ex_pipeline) as (refs & H & _);
    [vm_compute; reflexivity|right; left| |by exists refs].
  intros f [->|[]%elem_of_nil]%elem_of_cons. discriminate.
Defined.
