(* ===== verification/Cache.v ===== *)
(** * The step cache: [internal/cache]

    [Key] is the content address of a step's work, [Eligible] and
    [StepEnvironment] decide whether it may be cached and against which
    environment, [encodeOutputs]/[decodeOutputs] are the stored form of a
    result, and [Lookup]/[Record] the store. SHA-256 and protobuf's
    marshaller are parameters. *)

From S2P Require Import Prelude Bytes Proto.

(** ** [eligibility.go] *)

(** [executor.LeaseScope] is a string; these are its named values. *)
Definition LeaseStep : string := "step".
Definition LeaseJob : string := "job".
Definition LeasePipeline : string := "pipeline".
Definition LeasePool : string := "pool".
Definition LeaseService : string := "service".

Definition shortEffect (c : EffectClass) : string :=
  trim_prefix "EFFECT_CLASS_" (EffectClass_String c).

Definition effectReason (c : EffectClass) : string :=
  match c with
  | EFFECT_CLASS_PURE => ""
  | EFFECT_CLASS_IDEMPOTENT | EFFECT_CLASS_AT_MOST_ONCE =>
      "effect class " +:+ shortEffect c +:+ " has an external effect that no cache key can capture"
  | EFFECT_CLASS_UNSPECIFIED => "effect class is undeclared, so the step has not promised it is pure"
  | EFFECT_CLASS_OTHER _ =>
      "unknown effect class " +:+ EffectClass_String c +:+ " cannot be shown to be pure"
  end.

Definition leaseReason (scope : string) : string :=
  if decide (scope = LeaseStep) then ""
  else if decide (scope = LeasePool) then "pool lease reuses state that cannot be hashed"
  else if decide (scope = LeaseJob)
  then "job lease carries state between the steps of a job that cannot be hashed"
  else if decide (scope = LeasePipeline)
  then "pipeline lease carries state between the steps of a run that cannot be hashed"
  else if decide (scope = LeaseService)
  then "service lease carries state across runs that cannot be hashed"
  else "lease scope " +:+ quote scope +:+ " is not known to be free of carried state".

Definition Eligible (step : option Step) (lease envIdentity : string) : bool * string :=
  match step with
  | None => (false, "no step to cache")
  | Some s =>
      if decide (effectReason (step_effect_class s) ≠ "")
      then (false, effectReason (step_effect_class s))
      else if decide (leaseReason lease ≠ "") then (false, leaseReason lease)
      else if decide (envIdentity = "")
      then (false, "no stable environment identity to hash the step against")
      else (true, "")
  end.

(** [strings.LastIndex(s, "@")], as the text before and after it. *)
Fixpoint cut_last (c : Ascii.ascii) (s : string) : option (string * string) :=
  match s with
  | EmptyString => None
  | String d r =>
      match cut_last c r with
      | Some (a, b) => Some (String d a, b)
      | None => if Ascii.eqb d c then Some ("", r) else None
      end
  end.

(** [strings.Cut(s, ":")]. *)
Fixpoint cut_first (c : Ascii.ascii) (s : string) : option (string * string) :=
  match s with
  | EmptyString => None
  | String d r =>
      if Ascii.eqb d c then Some ("", r)
      else match cut_first c r with
           | Some (a, b) => Some (String d a, b)
           | None => None
           end
  end.

Definition at_sign : Ascii.ascii := Ascii.ascii_of_N 64.
Definition colon : Ascii.ascii := Ascii.ascii_of_N 58.

Definition pinned (image : string) : bool :=
  match cut_last at_sign image with
  | None => false
  | Some (name, suffix) =>
      if decide (name = "") then false
      else match cut_first colon suffix with
           | None => false
           | Some (algo, hex) => bool_decide (algo ≠ "") && bool_decide (hex ≠ "")
           end
  end.

Definition StepEnvironment (step : Step) (tierIdentity : string) : string :=
  if decide (step_image step = "") then tierIdentity
  else if pinned (step_image step) then step_image step
  else "".

(** ** [key.go] *)

Inductive KeyErr : Type :=
| KeyNoStep
| KeyNotPure (id : string) (class : EffectClass)
| KeyNoEnvironment (id : string).

Definition keySchema : string := "dhole.cache.key/v1".
Definition keyAlgo : string := "sha256".

Definition cmpString (a b : string) : Z :=
  if String.ltb a b then -1 else if String.ltb b a then 1 else 0.

Definition compareDigest (a b : Digest) : Z :=
  let c := cmpString (d_algo a) (d_algo b) in
  if decide (c ≠ 0) then c else cmpString (d_hex a) (d_hex b).

Definition digest_le (a b : Digest) : Prop := compareDigest a b ≤ 0.

#[export] Instance digest_le_dec : RelDecision digest_le.
Proof. intros a b. unfold digest_le. apply _. Defined.

(** [sort.Slice(ordered, compareDigest < 0)]. *)
Definition sort_digests (l : list Digest) : list Digest := merge_sort digest_le l.

(** [writeField] and [writeCount] are [frame] and [be64]: what they write. *)
Definition write_digests (l : list Digest) : string :=
  foldr (λ d acc, frame (d_algo d) +:+ frame (d_hex d) +:+ acc) "" l.

Definition lock_names (lockfile : gmap string string) : list string :=
  sort_strings (elements (dom lockfile)).

Definition write_lock (lockfile : gmap string string) (names : list string) : string :=
  foldr (λ n acc, frame n +:+ frame (default "" (lockfile !! n)) +:+ acc) "" names.

(** The bytes [Key] hashes. *)
Definition key_material (plugin_ref env : string) (inputs : list Digest)
    (lockfile : gmap string string) : string :=
  frame keySchema +:+ frame plugin_ref +:+ frame env
  +:+ be64 (Z.of_nat (length inputs)) +:+ write_digests (sort_digests inputs)
  +:+ be64 (Z.of_nat (length (lock_names lockfile))) +:+ write_lock lockfile (lock_names lockfile).

Definition Key (sha256 : string → string) (step : option Step) (envIdentity : string)
    (inputs : list Digest) (lockfile : gmap string string) : result KeyErr Digest :=
  match step with
  | None => Err KeyNoStep
  | Some s =>
      if decide (step_effect_class s ≠ EFFECT_CLASS_PURE)
      then Err (KeyNotPure (step_id s) (step_effect_class s))
      else if decide (envIdentity = "") then Err (KeyNoEnvironment (step_id s))
      else Ok (mkDigest keyAlgo
                 (hex_encode (sha256 (key_material (step_plugin_ref s) envIdentity inputs lockfile))))
  end.

(** ** [cache.go] *)

Inductive CacheErr : Type :=
| TenantRequired
| MalformedKey (algo hex : string)
| EncodeOutput (port : string)
| Truncated
| DecodeOutput
| TrailingBytes
| OutOfFuel.

Definition keyText (k : Digest) : result CacheErr string :=
  if decide (d_algo k = "" ∨ d_hex k = "") then Err (MalformedKey (d_algo k) (d_hex k))
  else Ok (d_algo k +:+ ":" +:+ d_hex k).

(** A row of [cache_entries]. The table's primary key is (tenant, key). *)
Record Entry : Type := mkEntry { en_outputs : string; en_created_at : string }.

Abbreviation Table := (gmap (string * string) Entry).

(** [proto.Marshal] and [proto.Unmarshal] of an output. *)
Section Codec.
Context (marshal : OutputRef → option string) (unmarshal : string → option OutputRef).

Definition encode_output (encoded : string) (out : OutputRef) : result CacheErr string :=
  match marshal out with
  | None => Err (EncodeOutput (out_port out))
  | Some message => Ok (encoded +:+ frame message)
  end.

Definition encodeOutputs (outs : list OutputRef) : result CacheErr string :=
  fold_result encode_output (be64 (Z.of_nat (length outs))) outs.

(** The [for range count] loop. Every turn consumes eight bytes at least, so
    the length of what is left bounds the turns. *)
Fixpoint decode_loop (fuel : nat) (count : Z) (rest : string)
    : result CacheErr (list OutputRef * string) :=
  if decide (count ≤ 0) then Ok ([], rest) else
  match fuel with
  | O => Err OutOfFuel
  | S fuel =>
      match take_string 8 rest with
      | None => Err Truncated
      | Some (head, rest) =>
          if decide (Z.of_nat (String.length rest) < uint64_of head) then Err Truncated
          else match take_string (Z.to_nat (uint64_of head)) rest with
               | None => Err Truncated
               | Some (message, rest) =>
                   match unmarshal message with
                   | None => Err DecodeOutput
                   | Some out =>
                       '(outs, rest) ← decode_loop fuel (count - 1) rest;
                       Ok (out :: outs, rest)
                   end
               end
      end
  end.

Definition decodeOutputs (encoded : string) : result CacheErr (list OutputRef) :=
  match take_string 8 encoded with
  | None => Err Truncated
  | Some (head, rest) =>
      '(outs, rest) ← decode_loop (S (String.length rest)) (uint64_of head) rest;
      if decide (rest ≠ "") then Err TrailingBytes else Ok outs
  end.

Definition Lookup (tenant : string) (k : Digest) (db : Table)
    : result CacheErr (option (list OutputRef)) :=
  if decide (tenant = "") then Err TenantRequired else
  key ← keyText k;
  match db !! (tenant, key) with
  | None => Ok None
  | Some e => outs ← decodeOutputs (en_outputs e); Ok (Some outs)
  end.

Definition Record_ (now : string) (tenant : string) (k : Digest) (outs : list OutputRef)
    : prog Table CacheErr unit := λ db,
  if decide (tenant = "") then (db, Err TenantRequired) else
  match keyText k with
  | Err e => (db, Err e)
  | Ok key =>
      match encodeOutputs outs with
      | Err e => (db, Err e)
      | Ok encoded => (<[(tenant, key) := mkEntry encoded now]> db, Ok tt)
      end
  end.

End Codec.
