(* ===== verification/CacheFacts.v ===== *)
(** * Correctness of the step cache

    The key encoding is injective up to the order of the inputs, eligibility
    is one-directional, and the stored outputs come back whole or not at all. *)

From S2P Require Import Prelude Bytes Proto Cache.

(** ** The digest order is total, so sorting is canonical *)

Lemma cmpString_compare a b :
  cmpString a b = match String.compare a b with Lt => -1 | Eq => 0 | Gt => 1 end.
Proof.
  unfold cmpString, String.ltb. rewrite (String.compare_antisym a b).
  by destruct (String.compare b a).
Qed.

Lemma cmpString_antisym a b : cmpString b a = - cmpString a b.
Proof.
  rewrite !cmpString_compare, (String.compare_antisym b a). by destruct (String.compare a b).
Qed.

Lemma cmpString_eq a b : cmpString a b = 0 ↔ a = b.
Proof.
  split.
  - rewrite cmpString_compare. pose proof (String.compare_eq_iff a b) as H.
    destruct (String.compare a b); auto; lia.
  - intros ->. pose proof (cmpString_antisym b b). lia.
Qed.

Lemma cmpString_le a b : cmpString a b ≤ 0 ↔ String.le a b.
Proof.
  rewrite cmpString_compare. unfold String.le, String.leb.
  destruct (String.compare a b); simpl; split; intros; (done || lia).
Qed.

Lemma digest_le_alt a b :
  digest_le a b ↔
  (d_algo a = d_algo b ∧ String.le (d_hex a) (d_hex b))
  ∨ (d_algo a ≠ d_algo b ∧ String.le (d_algo a) (d_algo b)).
Proof.
  unfold digest_le, compareDigest. rewrite <-!cmpString_le, <-!cmpString_eq.
  case_decide; intuition lia.
Qed.

#[export] Instance digest_le_total : Total digest_le.
Proof.
  intros a b. rewrite !digest_le_alt. destruct (decide (d_algo a = d_algo b)) as [E|E].
  - rewrite E. destruct (total String.le (d_hex a) (d_hex b)); auto.
  - destruct (total String.le (d_algo a) (d_algo b)); [left|right]; right; auto.
Qed.

#[export] Instance digest_le_trans : Transitive digest_le.
Proof.
  intros a b c. rewrite !digest_le_alt.
  intros [[E1 H1]|[E1 H1]] [[E2 H2]|[E2 H2]].
  - left. split; [congruence|by etrans].
  - right. by rewrite E1.
  - right. by rewrite <-E2.
  - right. split; [|by etrans]. intros E. apply E1. rewrite <-E in H2.
    by apply (anti_symm String.le).
Qed.

#[export] Instance digest_le_antisym : AntiSymm (=) digest_le.
Proof.
  intros [a1 a2] [b1 b2]. rewrite !digest_le_alt. simpl.
  intros [[E1 H1]|[E1 H1]] [[E2 H2]|[E2 H2]]; try congruence.
  - subst. f_equal. by apply (anti_symm String.le).
  - destruct E1. by apply (anti_symm String.le).
Qed.

Lemma sort_digests_perm l : sort_digests l ≡ₚ l.
Proof. apply merge_sort_Permutation. Qed.

Lemma sort_digests_unique l1 l2 : sort_digests l1 = sort_digests l2 ↔ l1 ≡ₚ l2.
Proof.
  split.
  - intros E. by rewrite <-(sort_digests_perm l1), E, sort_digests_perm.
  - intros Hp. apply (StronglySorted_unique digest_le).
    + apply StronglySorted_merge_sort; apply _.
    + apply StronglySorted_merge_sort; apply _.
    + by rewrite !sort_digests_perm.
Qed.

#[export] Instance sort_digests_proper : Proper ((≡ₚ) ==> (=)) sort_digests.
Proof. intros l1 l2. apply sort_digests_unique. Qed.

(** ** The key material can be read apart one way only *)

(** Everything a key is computed from has a length Go can represent. *)
Definition digest_fits (d : Digest) : Prop := len64 (d_algo d) ∧ len64 (d_hex d).

Record key_fits (plugin env : string) (inputs : list Digest) (lock : gmap string string) : Prop :=
  { fits_plugin : len64 plugin;
    fits_env : len64 env;
    fits_inputs : Forall digest_fits inputs;
    fits_count : Z.of_nat (length inputs) < two63;
    fits_lock : map_Forall (λ n v, len64 n ∧ len64 v) lock;
    fits_locks : Z.of_nat (size lock) < two63 }.

Lemma write_digests_inj l1 l2 x y :
  length l1 = length l2 → Forall digest_fits l1 → Forall digest_fits l2 →
  write_digests l1 +:+ x = write_digests l2 +:+ y → l1 = l2 ∧ x = y.
Proof.
  revert l2. induction l1 as [|[a1 h1] l1 IH]; intros [|[a2 h2] l2] Hlen H1 H2; try done.
  apply Forall_cons in H1 as [[? ?] F1]. apply Forall_cons in H2 as [[? ?] F2]. cbn [write_digests foldr d_algo d_hex]. rewrite !string_app_assoc.
  injection Hlen as Hlen. simpl in *.
  intros [-> [-> [-> ->]%IH]%frame_inj]%frame_inj; auto.
Qed.

Lemma lock_names_spec lock n : n ∈ lock_names lock ↔ is_Some (lock !! n).
Proof. unfold lock_names. by rewrite elem_of_sort_strings, elem_of_elements, elem_of_dom. Qed.

Lemma lock_names_length lock : length (lock_names lock) = size lock.
Proof.
  unfold lock_names. rewrite sort_strings_perm.
  change (length (elements (dom lock))) with (size (dom lock)). apply size_dom.
Qed.

Lemma write_lock_inj m1 m2 l1 l2 :
  length l1 = length l2 →
  Forall (λ n, len64 n ∧ len64 (default "" (m1 !! n))) l1 →
  Forall (λ n, len64 n ∧ len64 (default "" (m2 !! n))) l2 →
  write_lock m1 l1 = write_lock m2 l2 →
  l1 = l2 ∧ ∀ n, n ∈ l1 → default "" (m1 !! n) = default "" (m2 !! n).
Proof.
  revert l2. induction l1 as [|n l1 IH]; intros [|n2 l2] Hlen H1 H2; try done.
  { intros _. split; [done|]. by intros n ?%elem_of_nil. }
  apply Forall_cons in H1 as [[? ?] F1]. apply Forall_cons in H2 as [[? ?] F2].
  cbn [write_lock foldr].
  intros [-> [Ev [-> Hrest]%IH]%frame_inj]%frame_inj; auto. split; [done|].
  intros n [->|Hn]%elem_of_cons; auto.
Qed.

Lemma lock_fits_names m :
  map_Forall (λ n v, len64 n ∧ len64 v) m →
  Forall (λ n, len64 n ∧ len64 (default "" (m !! n))) (lock_names m).
Proof.
  intros Hm. apply Forall_forall. intros n [v Hv]%lock_names_spec.
  rewrite Hv. by apply Hm.
Qed.

Lemma lock_names_values_eq m1 m2 :
  lock_names m1 = lock_names m2 →
  (∀ n, n ∈ lock_names m1 → default "" (m1 !! n) = default "" (m2 !! n)) → m1 = m2.
Proof.
  intros En Ev. apply map_eq. intros n.
  destruct (m1 !! n) as [v|] eqn:E1.
  - assert (Hn : n ∈ lock_names m1) by (apply lock_names_spec; by rewrite E1).
    specialize (Ev n Hn). rewrite En in Hn. apply lock_names_spec in Hn as [w E2].
    rewrite E1, E2 in Ev. simpl in Ev. congruence.
  - destruct (m2 !! n) as [w|] eqn:E2; [|done]. exfalso.
    assert (Hn : n ∈ lock_names m2) by (apply lock_names_spec; by rewrite E2).
    rewrite <-En in Hn. apply lock_names_spec in Hn as [? ?]. congruence.
Qed.

Lemma key_material_perm p e i1 i2 m : i1 ≡ₚ i2 → key_material p e i1 m = key_material p e i2 m.
Proof. unfold key_material. intros E. by rewrite (sort_digests_proper _ _ E), E. Qed.

Lemma sorted_inputs_fit inputs : Forall digest_fits inputs → Forall digest_fits (sort_digests inputs).
Proof. by rewrite sort_digests_perm. Qed.

Lemma key_material_inj p1 e1 i1 m1 p2 e2 i2 m2 :
  key_fits p1 e1 i1 m1 → key_fits p2 e2 i2 m2 →
  key_material p1 e1 i1 m1 = key_material p2 e2 i2 m2 ↔
  p1 = p2 ∧ e1 = e2 ∧ i1 ≡ₚ i2 ∧ m1 = m2.
Proof.
  intros [Fp1 Fe1 Fi1 Fc1 Fl1 Fn1] [Fp2 Fe2 Fi2 Fc2 Fl2 Fn2]. split; cycle 1.
  { intros (-> & -> & Hp & ->). by apply key_material_perm. }
  unfold key_material. intros H%string_app_inj_l.
  apply frame_inj in H as [-> H]; [|done..]. apply frame_inj in H as [-> H]; [|done..].
  apply be64_app_inj in H as [Hlen H]; [|unfold two63, two64 in *; lia..].
  apply write_digests_inj in H as [Hs H]; [|by rewrite !sort_digests_perm; lia
    |by apply sorted_inputs_fit..].
  rewrite !lock_names_length in H.
  apply be64_app_inj in H as [Hn H]; [|unfold two63, two64 in *; lia..].
  apply write_lock_inj in H as [En Ev];
    [|rewrite !lock_names_length; lia|by apply lock_fits_names..].
  split_and!; [done..|by apply sort_digests_unique|by apply lock_names_values_eq].
Qed.

(** ** The stored form *)

Lemma effectReason_empty c : effectReason c = "" ↔ c = EFFECT_CLASS_PURE.
Proof. by destruct c. Qed.

Lemma leaseReason_empty l : leaseReason l = "" ↔ l = LeaseStep.
Proof. unfold leaseReason. repeat case_decide; subst; by split. Qed.

Lemma string_app_empty a b : a +:+ b = "" → a = "" ∧ b = "".
Proof. by destruct a. Qed.

Lemma take_8_be64 n s : take_string 8 (be64 n +:+ s) = Some (be64 n, s).
Proof. rewrite <-(be64_length n) at 1. apply take_string_app. Qed.

Lemma take_8_frame m s :
  take_string 8 (frame m +:+ s) = Some (be64 (Z.of_nat (String.length m)), m +:+ s).
Proof. unfold frame. by rewrite string_app_assoc, take_8_be64. Qed.

(** A stored entry: a count, then that many framed messages. *)
Definition entry_of (messages : list string) : string :=
  be64 (Z.of_nat (length messages)) +:+ foldr (λ m acc, frame m +:+ acc) "" messages.

Definition frames (messages : list string) : string :=
  foldr (λ m acc, frame m +:+ acc) "" messages.

Lemma frames_snoc ms m : frames (ms ++ [m]) = frames ms +:+ frame m.
Proof.
  unfold frames. induction ms as [|x ms IH]; cbn [foldr app]; [apply string_app_nil_r|].
  by rewrite IH, string_app_assoc.
Qed.

Section CodecFacts.
Context (marshal : OutputRef → option string) (unmarshal : string → option OutputRef).

Lemma encodeOutputs_Ok outs bytes :
  encodeOutputs marshal outs = Ok bytes ↔
  ∃ ms, mapM marshal outs = Some ms ∧ bytes = entry_of ms.
Proof.
  assert (Hloop : ∀ acc, fold_result (encode_output marshal) acc outs = Ok bytes ↔
    ∃ ms, mapM marshal outs = Some ms ∧ bytes = acc +:+ frames ms).
  { induction outs as [|o outs IH]; intros acc; cbn [fold_result].
    - split.
      + intros [= ->]. exists []. split; [done|]. by rewrite string_app_nil_r.
      + intros (ms & [= <-] & ->). by rewrite string_app_nil_r.
    - unfold mbind, result_bind. change (encode_output marshal acc o)
        with (match marshal o with
              | None => Err (EncodeOutput (out_port o))
              | Some message => Ok (acc +:+ frame message)
              end).
      simpl. destruct (marshal o) as [m|]; simpl.
      + rewrite IH. split; intros (ms & E & ->).
        * exists (m :: ms). rewrite E. split; [done|].
          unfold frames. cbn [foldr]. by rewrite string_app_assoc.
        * destruct (mapM marshal outs) as [ms'|]; [|done]. cbv in E; injection E as <-.
          exists ms'. split; [done|]. unfold frames. cbn [foldr]. symmetry. apply string_app_assoc.
      + split; [done|]. by intros (ms & [=] & _). }
  unfold encodeOutputs, entry_of. rewrite Hloop.
  split; intros (ms & E & ->); exists ms; (split; [done|]); unfold frames;
    by rewrite (length_mapM _ _ _ E).
Qed.

(** Enough fuel reads exactly the frames there are. *)
Lemma decode_loop_frames ms outs fuel rest :
  mapM unmarshal ms = Some outs → Forall len64 ms →
  (length ms < fuel)%nat →
  decode_loop unmarshal fuel (Z.of_nat (length ms)) (frames ms +:+ rest) = Ok (outs, rest).
Proof.
  revert outs fuel. induction ms as [|m ms IH]; intros outs fuel Hm Hf Hfuel.
  { injection Hm as <-. destruct fuel; cbn [decode_loop]; rewrite decide_True by done; done. }
  apply Forall_cons in Hf as [Hlen Hf]. cbn [mapM length] in *.
  destruct (unmarshal m) as [o|] eqn:Eo; [|done]. cbn in Hm.
  destruct (mapM unmarshal ms) as [os|] eqn:Eos; [|done]. injection Hm as <-.
  destruct fuel as [|fuel]; [lia|]. cbn [decode_loop length].
  rewrite decide_False by lia.
  change (frames (m :: ms)) with (frame m +:+ frames ms).
  rewrite string_app_assoc, take_8_frame.
  unfold len64 in Hlen. rewrite uint64_of_be64 by (unfold two63, two64 in *; lia).
  rewrite decide_False by (rewrite string_app_length; lia).
  rewrite Nat2Z.id, take_string_app, Eo.
  replace (Z.of_nat (S _) - 1) with (Z.of_nat (length ms)) by lia.
  rewrite (IH os) by (done || lia). done.
Qed.

Lemma decode_loop_total fuel count rest :
  (String.length rest < fuel)%nat → decode_loop unmarshal fuel count rest ≠ Err OutOfFuel.
Proof.
  revert count rest. induction fuel as [|fuel IH]; intros count rest Hlen; [lia|].
  cbn [decode_loop]. case_decide; [done|].
  destruct (take_string 8 rest) as [[h r]|] eqn:E1; [|done].
  apply take_string_Some in E1 as [-> E1]. rewrite string_app_length in Hlen.
  case_decide; [done|].
  destruct (take_string _ r) as [[m r']|] eqn:E2; [|done].
  apply take_string_Some in E2 as [-> E2]. rewrite string_app_length in Hlen.
  destruct (unmarshal m); [|done]. specialize (IH (count - 1) r' ltac:(lia)).
  destruct (decode_loop unmarshal fuel (count - 1) r') as [[]|[]]; try done.
Qed.

(** What the loop accepted is made of frames, every one of them readable. *)
Lemma decode_loop_Ok fuel count rest outs rest' :
  0 ≤ count → decode_loop unmarshal fuel count rest = Ok (outs, rest') →
  ∃ ms, Z.of_nat (length ms) = count ∧ mapM unmarshal ms = Some outs ∧
        rest = frames ms +:+ rest'.
Proof.
  revert count rest outs. induction fuel as [|fuel IH]; intros count rest outs Hc; cbn [decode_loop].
  { case_decide; [|done]. intros; simplify_eq. exists []. split_and!; [simpl; lia|done..]. }
  case_decide; [intros; simplify_eq; exists []; split_and!; [simpl; lia|done..]|].
  destruct (take_string 8 rest) as [[h r]|] eqn:E1; [|done].
  apply take_string_Some in E1 as [-> E1]. case_decide as Hle; [done|].
  destruct (take_string _ r) as [[m r']|] eqn:E2; [|done].
  apply take_string_Some in E2 as [-> E2].
  destruct (unmarshal m) as [o|] eqn:Eo; [|done]. intros Hr. res_inv.
  destruct r as [os r2]. injection Hr as <- <-.
  apply IH in E as (ms & En & Em & ->); [|lia].
  pose proof (be_value_nonneg h).
  exists (m :: ms). cbn [mapM length]. rewrite Eo, Em. split_and!; [lia|done|].
  change (frames (m :: ms)) with (frame m +:+ frames ms). unfold frame.
  rewrite E2, Z2Nat.id, be64_uint64_of by done. by rewrite !string_app_assoc.
Qed.

Lemma frames_fit ms :
  len64 (frames ms) → Forall len64 ms ∧ Z.of_nat (length ms) ≤ Z.of_nat (String.length (frames ms)).
Proof.
  unfold len64. induction ms as [|m ms IH]; [split; [done|simpl; lia]|].
  change (frames (m :: ms)) with (frame m +:+ frames ms). unfold frame.
  rewrite !string_app_length, be64_length. intros Hl.
  destruct IH as [IH1 IH2]; [lia|]. split; [constructor; [lia|done]|]. cbn [length]. lia.
Qed.

Lemma decodeOutputs_Ok bytes outs :
  len64 bytes →
  decodeOutputs unmarshal bytes = Ok outs ↔
  ∃ ms, bytes = entry_of ms ∧ mapM unmarshal ms = Some outs.
Proof.
  intros Hl. unfold decodeOutputs. split.
  - destruct (take_string 8 bytes) as [[h r]|] eqn:E1; [|done].
    apply take_string_Some in E1 as [-> E1]. intros Hr. res_inv.
    destruct r0 as [os r2]. case_decide as Hr2; [done|]. injection Hr as ->.
    apply decode_loop_Ok in E as (ms & En & Em & ->); [|apply be_value_nonneg].
    exists ms. split; [|done]. unfold entry_of. rewrite En, be64_uint64_of by done.
    f_equal. destruct (decide (r2 = "")) as [->|]; [apply string_app_nil_r|done].
  - intros (ms & -> & Em). unfold entry_of in *. fold (frames ms) in *.
    unfold len64 in Hl. rewrite string_app_length, be64_length in Hl.
    destruct (frames_fit ms) as [Hf Hn]; [unfold len64; lia|].
    rewrite take_8_be64, uint64_of_be64 by (unfold two63, two64 in *; lia).
    pose proof (decode_loop_frames ms outs (S (String.length (frames ms))) "") as Hd.
    rewrite string_app_nil_r in Hd. rewrite Hd by (done || lia). done.
Qed.

Lemma decodeOutputs_total bytes : decodeOutputs unmarshal bytes ≠ Err OutOfFuel.
Proof.
  unfold decodeOutputs. destruct (take_string 8 bytes) as [[h r]|]; [|done].
  pose proof (decode_loop_total (S (String.length r)) (uint64_of h) r ltac:(lia)) as Ht.
  destruct (decode_loop _ _ _ _) as [[os r2]|]; simpl; [by case_decide|congruence].
Qed.

End CodecFacts.

(** ** Image references *)

Lemma cut_first_Some c s a b :
  cut_first c s = Some (a, b) ↔
  s = a +:+ String c b ∧ string_all (λ d, negb (Ascii.eqb d c)) a = true.
Proof.
  revert a. induction s as [|d s IH]; intros a; simpl.
  { split; [done|]. intros [H _]. by destruct a. }
  destruct (Ascii.eqb_spec d c) as [->|Hne].
  - split.
    + intros [= <- <-]. done.
    + intros [H Ha]. destruct a as [|e a]; simpl in *; simplify_eq; [done|].
      by rewrite Ascii.eqb_refl in Ha.
  - split.
    + destruct (cut_first c s) as [[a' b']|] eqn:E; [|done]. intros [= <- <-].
      destruct (proj1 (IH a') eq_refl) as [-> Ha]. simpl. split; [done|]. rewrite Ha, andb_true_r.
      by apply negb_true_iff, Ascii.eqb_neq.
    + intros [H Ha]. destruct a as [|e a]; simpl in *; simplify_eq.
      apply andb_true_iff in Ha as [_ Ha].
      assert (cut_first c (a +:+ String c b) = Some (a, b)) as -> by (by apply IH). done.
Qed.

Lemma cut_last_none c s :
  cut_last c s = None ↔ string_all (λ d, negb (Ascii.eqb d c)) s = true.
Proof.
  induction s as [|d s IH]; simpl; [done|]. rewrite andb_true_iff, negb_true_iff, <-IH.
  destruct (cut_last c s) as [[]|]; [split; [done|by intros []]|].
  destruct (Ascii.eqb d c); split; naive_solver.
Qed.

Lemma cut_last_Some c s a b :
  cut_last c s = Some (a, b) ↔
  s = a +:+ String c b ∧ string_all (λ d, negb (Ascii.eqb d c)) b = true.
Proof.
  revert a b. induction s as [|d s IH]; intros a b; simpl.
  { split; [done|]. intros [H _]. by destruct a. }
  destruct (cut_last c s) as [[a' b']|] eqn:E.
  - destruct (proj1 (IH a' b') eq_refl) as [-> Hb]. split.
    + intros [= <- <-]. done.
    + intros [H Hb']. destruct a as [|e a]; simpl in *; simplify_eq.
      * rewrite string_all_app in Hb'. simpl in Hb'. rewrite Ascii.eqb_refl in Hb'.
        by rewrite andb_false_r in Hb'.
      * specialize (proj2 (IH a b) (conj H0 Hb')). intros. by simplify_eq.
  - apply cut_last_none in E. split.
    + destruct (Ascii.eqb_spec d c) as [->|]; [|done]. by intros [= <- <-].
    + intros [H Hb]. destruct a as [|e a]; simpl in *; simplify_eq.
      * by rewrite Ascii.eqb_refl.
      * rewrite string_all_app in E. simpl in E. by rewrite Ascii.eqb_refl, andb_false_r in E.
Qed.

(** [name@algo:hex], split at the last [@] and the first [:] after it. *)
Definition image_pinned_to (image name algo hex : string) : Prop :=
  image = name +:+ String at_sign (algo +:+ String colon hex)
  ∧ name ≠ "" ∧ algo ≠ "" ∧ hex ≠ "".

Lemma string_all_colon_at algo hex :
  string_all (λ d, negb (Ascii.eqb d at_sign)) (algo +:+ String colon hex) = true ↔
  string_all (λ d, negb (Ascii.eqb d at_sign)) algo = true ∧
  string_all (λ d, negb (Ascii.eqb d at_sign)) hex = true.
Proof. rewrite string_all_app, andb_true_iff. done. Qed.

Lemma pinned_spec image :
  pinned image = true ↔
  ∃ name algo hex, image_pinned_to image name algo hex
    ∧ string_all (λ d, negb (Ascii.eqb d at_sign)) (algo +:+ hex) = true
    ∧ string_all (λ d, negb (Ascii.eqb d colon)) algo = true.
Proof.
  unfold pinned, image_pinned_to. split.
  - destruct (cut_last at_sign image) as [[name suffix]|] eqn:E1; [|done].
    apply cut_last_Some in E1 as [-> Hat]. case_decide; [done|].
    destruct (cut_first colon suffix) as [[algo hex]|] eqn:E2; [|done].
    apply cut_first_Some in E2 as [-> Hc]. rewrite andb_true_iff, !bool_decide_eq_true.
    intros [Ha Hh]. exists name, algo, hex. apply string_all_colon_at in Hat as [Ha1 Ha2].
    rewrite string_all_app, Ha1, Ha2. done.
  - intros (name & algo & hex & (-> & Hn & Ha & Hh) & Hat & Hc).
    rewrite string_all_app, andb_true_iff in Hat.
    assert (cut_last at_sign (name +:+ String at_sign (algo +:+ String colon hex))
            = Some (name, algo +:+ String colon hex)) as ->
      by (apply cut_last_Some; by rewrite string_all_colon_at).
    rewrite decide_False by done.
    assert (cut_first colon (algo +:+ String colon hex) = Some (algo, hex)) as ->
      by (by apply cut_first_Some).
    by rewrite !bool_decide_true.
Qed.

(** ** The store as the history that filled it *)

(** One computation as the cache sees it, and one call to [Record]. *)
Record Work : Type := mkWork
  { w_step : Step; w_env : string; w_inputs : list Digest; w_lock : gmap string string }.

Record Recording : Type := mkRecording
  { r_tenant : string; r_work : Work; r_outs : list OutputRef; r_now : string }.

(** The same work as far as a key can tell: the plugin, the environment, the
    inputs in any order and the lockfile. A step's [config] is not among
    them. *)
Definition keyed_alike (a b : Work) : Prop :=
  step_plugin_ref (w_step a) = step_plugin_ref (w_step b) ∧ w_env a = w_env b
  ∧ w_inputs a ≡ₚ w_inputs b ∧ w_lock a = w_lock b.

#[export] Instance keyed_alike_equiv : Equivalence keyed_alike.
Proof.
  unfold keyed_alike. split; red; intros; destruct_and?; split_and!; try done;
    try congruence; by etrans.
Qed.

Definition material_of (w : Work) : string :=
  key_material (step_plugin_ref (w_step w)) (w_env w) (w_inputs w) (w_lock w).

Definition work_fits (w : Work) : Prop :=
  key_fits (step_plugin_ref (w_step w)) (w_env w) (w_inputs w) (w_lock w).

Section History.
Context (sha256 : string → string)
  (marshal : OutputRef → option string) (unmarshal : string → option OutputRef).

Definition key_of (w : Work) : result KeyErr Digest :=
  Key sha256 (Some (w_step w)) (w_env w) (w_inputs w) (w_lock w).

(** A caller computes the key and records under it; a refused key records
    nothing. *)
Definition replay_one (db : Table) (r : Recording) : Table :=
  match key_of (r_work r) with
  | Ok k => (Record_ marshal (r_now r) (r_tenant r) k (r_outs r) db).1
  | Err _ => db
  end.

Definition replay (h : list Recording) : Table := fold_left replay_one h ∅.

Lemma Key_Ok w k :
  key_of w = Ok k ↔
  step_effect_class (w_step w) = EFFECT_CLASS_PURE ∧ w_env w ≠ "" ∧
  k = mkDigest keyAlgo (hex_encode (sha256 (material_of w))).
Proof.
  unfold key_of, Key, material_of. repeat case_decide; simpl; naive_solver congruence.
Qed.

Lemma keyText_key w k key :
  key_of w = Ok k → keyText k = Ok key →
  key = keyAlgo +:+ ":" +:+ hex_encode (sha256 (material_of w)).
Proof. rewrite Key_Ok. intros (_ & _ & ->). unfold keyText. case_decide; simpl; congruence. Qed.

(** Every row was written by some recording of the history. *)
Lemma replay_row h tenant key e :
  replay h !! (tenant, key) = Some e →
  ∃ r k, r ∈ h ∧ r_tenant r = tenant ∧ tenant ≠ "" ∧ key_of (r_work r) = Ok k ∧ keyText k = Ok key
    ∧ encodeOutputs marshal (r_outs r) = Ok (en_outputs e).
Proof.
  unfold replay. induction h as [|r h IH] using rev_ind; [done|].
  rewrite fold_left_app. cbn [fold_left]. unfold replay_one at 1.
  assert (Hold : fold_left replay_one h ∅ !! (tenant, key) = Some e →
    ∃ r0 k, r0 ∈ h ++ [r] ∧ r_tenant r0 = tenant ∧ tenant ≠ "" ∧ key_of (r_work r0) = Ok k
      ∧ keyText k = Ok key ∧ encodeOutputs marshal (r_outs r0) = Ok (en_outputs e)).
  { intros (r0 & k & Hr & H)%IH. exists r0, k. split; [|done]. apply elem_of_app. by left. }
  destruct (key_of (r_work r)) as [k|] eqn:Ek; [|done].
  unfold Record_. case_decide; [done|]. destruct (keyText k) as [key'|] eqn:Et; [|done].
  destruct (encodeOutputs marshal (r_outs r)) as [bytes|] eqn:Eb; [|done]. cbn [fst].
  rewrite lookup_insert_Some. intros [[[= <- ->] <-]|[_ He]]; [|by apply Hold].
  exists r, k. split_and!; auto. apply elem_of_app. right. by left.
Qed.

End History.

Lemma Record_Ok marshal now tenant k key outs bytes db :
  tenant ≠ "" → keyText k = Ok key → encodeOutputs marshal outs = Ok bytes →
  Record_ marshal now tenant k outs db = (<[(tenant, key) := mkEntry bytes now]> db, Ok tt).
Proof. intros Ht Ek Eb. unfold Record_. by rewrite decide_False, Ek, Eb by done. Qed.


Lemma Lookup_after_Record marshal unmarshal now tenant k outs db db' :
  (∀ o m, marshal o = Some m → unmarshal m = Some o) →
  (∀ bytes, encodeOutputs marshal outs = Ok bytes → len64 bytes) →
  Record_ marshal now tenant k outs db = (db', Ok tt) →
  Lookup unmarshal tenant k db' = Ok (Some outs).
Proof.
  intros Hcodec Hlen. unfold Record_, Lookup. case_decide as Ht; [done|].
  destruct (keyText k) as [key|] eqn:Ek; [|done].
  destruct (encodeOutputs marshal outs) as [bytes|] eqn:Eb; [|done]. intros [= <-].
  cbn. rewrite lookup_insert_eq. cbn.
  assert (decodeOutputs unmarshal bytes = Ok outs) as ->; [|done].
  apply decodeOutputs_Ok; [auto|]. apply encodeOutputs_Ok in Eb as (ms & Em & ->).
  exists ms. split; [done|]. apply mapM_Some. apply mapM_Some, Forall2_flip in Em.
  eapply Forall2_impl; [exact Em|]. simpl. auto.
Qed.

(** ** Properties *)

(** A step may be cached exactly when it is declared PURE, runs in a
    sandbox of its own, and its environment has a name nobody can repoint:
    the tier's own identity for a step naming no image, otherwise an image
    pinned as [name@algo:hex]. Every refusal says why, and a step that is not
    refused always has a key. *)
Theorem cacheable_step_iff (sha256 : string → string) (s : Step) (lease tier : string)
    (inputs : list Digest) (lock : gmap string string) :
  let env := StepEnvironment s tier in
  let '(ok, reason) := Eligible (Some s) lease env in
  (ok = true ↔
     step_effect_class s = EFFECT_CLASS_PURE ∧ lease = LeaseStep ∧
     ((step_image s = "" ∧ tier ≠ "")
      ∨ ∃ name algo hex, image_pinned_to (step_image s) name algo hex
          ∧ string_all (λ d, negb (Ascii.eqb d at_sign)) (algo +:+ hex) = true
          ∧ string_all (λ d, negb (Ascii.eqb d colon)) algo = true))
  ∧ (ok = false ↔ reason ≠ "")
  ∧ (ok = true → is_ok (Key sha256 (Some s) env inputs lock) = true).
Proof.
  cbn zeta. pose proof (pinned_spec (step_image s)) as Hpin.
  destruct (Eligible _ _ _) as [ok reason] eqn:E. rewrite <-Hpin. clear Hpin. revert E.
  assert (Henv : StepEnvironment s tier ≠ "" ↔
    (step_image s = "" ∧ tier ≠ "") ∨ pinned (step_image s) = true).
  { unfold StepEnvironment. case_decide as Hi; [rewrite Hi; naive_solver|].
    destruct (pinned (step_image s)); naive_solver. }
  unfold Eligible. revert Henv. generalize (StepEnvironment s tier) as env. intros env Henv.
  rewrite <-Henv, <-effectReason_empty, <-leaseReason_empty. unfold Key.
  repeat case_decide; intros; simplify_eq; (split_and!; [naive_solver..|]); try done.
  all: intros _; exfalso; rewrite <-effectReason_empty in *; auto.
Qed.

(** Two PURE steps get the same key exactly when plugin, environment,
    lockfile and the multiset of input digests agree, or SHA-256 has collided
    on their two distinct encodings: the order the inputs are handed over in
    does not matter and no two different field splits meet. *)
Theorem cache_key_identifies_work (sha256 : string → string) (a b : Work) (ka kb : Digest) :
  work_fits a → work_fits b → key_of sha256 a = Ok ka → key_of sha256 b = Ok kb →
  ka = kb ↔ keyed_alike a b ∨ collision sha256 (material_of a) (material_of b).
Proof.
  intros Ha Hb (_ & _ & ->)%Key_Ok (_ & _ & ->)%Key_Ok.
  unfold keyed_alike. rewrite <-(key_material_inj _ _ _ _ _ _ _ _ Ha Hb), <-hash_eq.
  unfold material_of. split.
  - intros [= H%(inj hex_encode)]. done.
  - by intros ->.
Qed.

Definition example_work (env : string) (inputs : list Digest) : Work :=
  mkWork (bare_step "build" EFFECT_CLASS_PURE) env inputs {["go" := "1.22"]}.

Lemma example_work_fits env a b :
  len64 env → digest_fits a → digest_fits b → work_fits (example_work env [a; b]).
Proof.
  intros He Ha Hb. split; cbn; [done|done|by apply Forall_cons; split; [|apply Forall_singleton]|done| |by vm_compute].
  apply map_Forall_singleton. done.
Qed.

Lemma cache_key_identifies_work_witness :
  Key (λ s, s) (Some (bare_step "build" EFFECT_CLASS_PURE)) "img@sha256:00"
      [mkDigest "sha256" "aa"; mkDigest "sha256" "bb"] {["go" := "1.22"]} =
  Key (λ s, s) (Some (bare_step "build" EFFECT_CLASS_PURE)) "img@sha256:00"
      [mkDigest "sha256" "bb"; mkDigest "sha256" "aa"] {["go" := "1.22"]}.
Proof.
  set (a := example_work "img@sha256:00" [mkDigest "sha256" "aa"; mkDigest "sha256" "bb"]).
  set (b := example_work "img@sha256:00" [mkDigest "sha256" "bb"; mkDigest "sha256" "aa"]).
  change (key_of (λ s, s) a = key_of (λ s, s) b).
  destruct (key_of (λ s, s) a) as [ka|] eqn:Ea; [|by vm_compute in Ea].
  destruct (key_of (λ s, s) b) as [kb|] eqn:Eb; [|by vm_compute in Eb].
  f_equal. apply (cache_key_identifies_work (λ s, s) a b); [by apply example_work_fits..|done|done|].
  left. split_and!; [done|done| |done]. apply Permutation_swap.
Defined.

(** A hit, traced back to the recording it comes from. *)
Lemma hit_was_recorded (sha256 : string → string)
    (marshal : OutputRef → option string) (unmarshal : string → option OutputRef)
    (h : list Recording) (tenant : string) (w : Work) (k : Digest) (outs : list OutputRef) :
  (∀ o m, marshal o = Some m → unmarshal m = Some o) →
  Forall (λ r, work_fits (r_work r) ∧
               ∀ bytes, encodeOutputs marshal (r_outs r) = Ok bytes → len64 bytes) h →
  work_fits w → key_of sha256 w = Ok k →
  Lookup unmarshal tenant k (replay sha256 marshal h) = Ok (Some outs) →
  ∃ r, r ∈ h ∧ r_tenant r = tenant ∧ step_effect_class (w_step (r_work r)) = EFFECT_CLASS_PURE ∧
    ((keyed_alike (r_work r) w ∧ r_outs r = outs)
     ∨ collision sha256 (material_of (r_work r)) (material_of w)).
Proof.
  intros Hcodec Hh Hw Hk HL. unfold Lookup in HL. case_decide as Ht; [done|].
  destruct (keyText k) as [key|] eqn:Et; [|done]. cbn in HL.
  destruct (replay sha256 marshal h !! (tenant, key)) as [e|] eqn:Ee; [|done].
  apply replay_row in Ee as (r & k' & Hr & <- & _ & Hk' & Et' & Eb).
  rewrite Forall_forall in Hh. destruct (Hh r Hr) as [Hwr Hlen].
  exists r. split; [done|]. split; [done|]. split; [by apply Key_Ok in Hk' as [? _]|].
  apply (keyText_key sha256 w) in Et; [|done]. apply (keyText_key sha256 (r_work r)) in Et'; [|done].
  rewrite Et in Et'. apply string_app_inj_l, string_app_inj_l, (inj hex_encode) in Et'.
  symmetry in Et'. apply hash_eq in Et' as [E|Hc]; [|by right].
  left. split; [by apply (key_material_inj _ _ _ _ _ _ _ _ Hwr Hw)|].
  assert (Hdec : decodeOutputs unmarshal (en_outputs e) = Ok (r_outs r)).
  { apply decodeOutputs_Ok; [by apply Hlen|].
    apply encodeOutputs_Ok in Eb as (ms & Em & ->). exists ms. split; [done|].
    apply mapM_Some. apply mapM_Some, Forall2_flip in Em.
    eapply Forall2_impl; [exact Em|]. simpl. auto. }
  rewrite Hdec in HL. cbn in HL. congruence.
Qed.

Definition with_config (s : Step) (c : gmap string string) : Step :=
  {| step_id := step_id s; step_name := step_name s; step_plugin_ref := step_plugin_ref s;
     step_effect_class := step_effect_class s; step_inputs := step_inputs s;
     step_outputs := step_outputs s; step_capabilities := step_capabilities s;
     step_lease_scope := step_lease_scope s; step_config := c; step_image := step_image s;
     step_engine_type := step_engine_type s; step_timeout_seconds := step_timeout_seconds s;
     step_file_inputs := step_file_inputs s; step_secrets := step_secrets s |}.

Definition set_config (w : Work) (c : gmap string string) : Work :=
  mkWork (with_config (w_step w) c) (w_env w) (w_inputs w) (w_lock w).

(** C37: What a hit returns was recorded, under the same tenant, for work the
    key cannot tell from the work asked about: after any history of
    recordings, a lookup that hits hands back exactly the outputs some
    recording of the history stored for a step declared PURE, with the same
    plugin, environment, inputs up to their order and lockfile, short of a
    SHA-256 collision with work in the history. That is as far as it goes: a
    step's configuration is no part of the key, so the same lookup answers for
    the step configured in any other way. *)
Theorem cache_hit_is_keyed_work (sha256 : string → string)
    (marshal : OutputRef → option string) (unmarshal : string → option OutputRef)
    (h : list Recording) (tenant : string) (w : Work) (k : Digest) (outs : list OutputRef) :
  (∀ o m, marshal o = Some m → unmarshal m = Some o) →
  Forall (λ r, work_fits (r_work r) ∧
               ∀ bytes, encodeOutputs marshal (r_outs r) = Ok bytes → len64 bytes) h →
  work_fits w → key_of sha256 w = Ok k →
  Lookup unmarshal tenant k (replay sha256 marshal h) = Ok (Some outs) →
  (∃ r, r ∈ h ∧ r_tenant r = tenant ∧ step_effect_class (w_step (r_work r)) = EFFECT_CLASS_PURE ∧
     ((keyed_alike (r_work r) w ∧ r_outs r = outs)
      ∨ collision sha256 (material_of (r_work r)) (material_of w)))
  ∧ ∀ c, key_of sha256 (set_config w c) = Ok k.
Proof.
  intros Hcodec Hh Hw Hk HL. split; [|done]. by eapply hit_was_recorded.
Qed.

Definition example_out : OutputRef := mkOutputRef "bin" (mkDigest "sha256" "cc") "k" 3 "".
Definition example_marshal (o : OutputRef) : option string :=
  if decide (o = example_out) then Some "m" else None.
Definition example_unmarshal (s : string) : option OutputRef :=
  if decide (s = "m") then Some example_out else None.

Lemma example_codec o m : example_marshal o = Some m → example_unmarshal m = Some o.
Proof. unfold example_marshal. case_decide; intros [= <-]. subst. by vm_compute. Qed.

Definition example_recording : Recording :=
  mkRecording "acme"
    (example_work "img@sha256:00" [mkDigest "sha256" "aa"; mkDigest "sha256" "bb"])
    [example_out] "2024-01-01T00:00:00Z".

Lemma cache_hit_is_keyed_work_witness :
  let w := example_work "img@sha256:00" [mkDigest "sha256" "bb"; mkDigest "sha256" "aa"] in
  let db := replay (λ s, s) example_marshal [example_recording] in
  ∃ k r, key_of (λ s, s) w = Ok k ∧ Lookup example_unmarshal "acme" k db = Ok (Some [example_out])
    ∧ r ∈ [example_recording] ∧ r_tenant r = "acme" ∧
    ((keyed_alike (r_work r) w ∧ r_outs r = [example_out])
     ∨ collision (λ s, s) (material_of (r_work r)) (material_of w)).
Proof.
  cbv zeta. set (w := example_work _ _).
  destruct (key_of (λ s, s) w) as [k|] eqn:Ek; [|by vm_compute in Ek].
  assert (Lookup example_unmarshal "acme" k (replay (λ s, s) example_marshal [example_recording])
          = Ok (Some [example_out])) as HL
    by (vm_compute in Ek; injection Ek as <-; by vm_compute).
  destruct (cache_hit_is_keyed_work (λ s, s) example_marshal example_unmarshal
              [example_recording] "acme" w k [example_out]) as [(r & Hr & Ht & _ & Hw) _].
  - apply example_codec.
  - apply Forall_singleton. split; [by apply example_work_fits|].
    intros bytes Hb. vm_compute in Hb. injection Hb as <-. by vm_compute.
  - by apply example_work_fits.
  - exact Ek.
  - exact HL.
  - exists k, r. done.
Defined.

(** A stored entry is read back whole or refused: the reader accepts
    exactly the byte strings that are a count followed by that many framed,
    decodable messages and nothing else, and its loop always ends within the
    turns its input's length allows. *)
Theorem entry_read_whole (unmarshal : string → option OutputRef) (bytes : string)
    (outs : list OutputRef) :
  len64 bytes →
  (decodeOutputs unmarshal bytes = Ok outs ↔
   ∃ messages, bytes = entry_of messages ∧ mapM unmarshal messages = Some outs)
  ∧ decodeOutputs unmarshal bytes ≠ Err OutOfFuel.
Proof. intros Hl. split; [by apply decodeOutputs_Ok|apply decodeOutputs_total]. Qed.

Lemma entry_read_whole_witness :
  decodeOutputs example_unmarshal (entry_of ["m"; "m"]) = Ok [example_out; example_out]
  ∧ decodeOutputs example_unmarshal (be64 2 +:+ frame "m") = Err Truncated.
Proof.
  split; [|by vm_compute].
  apply (entry_read_whole example_unmarshal (entry_of ["m"; "m"])); [by vm_compute|].
  exists ["m"; "m"]. by vm_compute.
Defined.

(** Recording then looking up returns what was recorded: after a
    successful [Record] the same tenant's lookup of the same key hits with
    exactly those outputs, and no row of another tenant or another key has
    changed. *)
Theorem record_then_lookup (marshal : OutputRef → option string)
    (unmarshal : string → option OutputRef) (now tenant : string) (k : Digest)
    (outs : list OutputRef) (db db' : Table) :
  (∀ o m, marshal o = Some m → unmarshal m = Some o) →
  (∀ bytes, encodeOutputs marshal outs = Ok bytes → len64 bytes) →
  Record_ marshal now tenant k outs db = (db', Ok tt) →
  Lookup unmarshal tenant k db' = Ok (Some outs)
  ∧ ∀ t k', (t, keyText k') ≠ (tenant, keyText k) → Lookup unmarshal t k' db' = Lookup unmarshal t k' db.
Proof.
  intros Hcodec Hlen. intros Hr. split; [by eapply Lookup_after_Record|].
  revert Hr. unfold Record_, Lookup. case_decide as Ht; [done|].
  destruct (keyText k) as [key|] eqn:Ek; [|done].
  destruct (encodeOutputs marshal outs) as [bytes|] eqn:Eb; [|done]. intros [= <-].
  intros t k' Hne. case_decide; [done|]. destruct (keyText k') as [key'|] eqn:Ek'; [|done].
  cbn. rewrite lookup_insert_ne; [done|]. congruence.
Qed.

Lemma record_then_lookup_witness :
  ∃ db, Record_ example_marshal "now" "acme" (mkDigest "sha256" "00") [example_out] ∅ = (db, Ok tt)
    ∧ Lookup example_unmarshal "acme" (mkDigest "sha256" "00") db = Ok (Some [example_out]).
Proof.
  eexists. assert (Hr := Record_Ok example_marshal "now" "acme" (mkDigest "sha256" "00")
    "sha256:00" [example_out] (entry_of ["m"]) ∅ ltac:(done) eq_refl eq_refl).
  split; [exact Hr|].
  eapply (record_then_lookup example_marshal example_unmarshal "now" "acme"
           (mkDigest "sha256" "00") [example_out] ∅); [apply example_codec| |exact Hr].
  intros bytes Hb. vm_compute in Hb. injection Hb as <-. by vm_compute.
Defined.

(** The key does not see a step's [config]: once outputs are recorded for
    a step, a lookup for the same step configured differently hits and returns
    them. The schema's comment on [Step.config] says the configuration is part
    of the cache key and two configurations are two pieces of work. *)
Theorem config_blind_hit (sha256 : string → string)
    (marshal : OutputRef → option string) (unmarshal : string → option OutputRef)
    (w : Work) (c : gmap string string) (now tenant : string) (k : Digest)
    (outs : list OutputRef) (db db' : Table) :
  (∀ o m, marshal o = Some m → unmarshal m = Some o) →
  (∀ bytes, encodeOutputs marshal outs = Ok bytes → len64 bytes) →
  key_of sha256 w = Ok k →
  Record_ marshal now tenant k outs db = (db', Ok tt) →
  ∃ k', key_of sha256 (set_config w c) = Ok k' ∧ Lookup unmarshal tenant k' db' = Ok (Some outs).
Proof.
  intros Hcodec Hlen Hk Hr. exists k. split; [done|]. by eapply Lookup_after_Record.
Qed.

Lemma config_blind_hit_witness :
  let w := example_work "img@sha256:00" [] in
  ∃ k db, step_config (w_step w) ≠ {["target" := "release"]}
    ∧ key_of (λ s, s) (set_config w {["target" := "release"]}) = Ok k
    ∧ Lookup example_unmarshal "acme" k db = Ok (Some [example_out]).
Proof.
  cbv zeta. set (w := example_work _ _).
  destruct (key_of (λ s, s) w) as [k|] eqn:Ek; [|by vm_compute in Ek].
  assert (∃ t, keyText k = Ok t) as [t Et] by (vm_compute in Ek; injection Ek as <-; by eexists).
  assert (Hr := Record_Ok example_marshal "now" "acme" k t [example_out] (entry_of ["m"]) ∅
    ltac:(done) Et eq_refl).
  destruct (config_blind_hit (λ s, s) example_marshal example_unmarshal w {["target" := "release"]}
    "now" "acme" k [example_out] ∅ (<[("acme", t) := mkEntry (entry_of ["m"]) "now"]> ∅) example_codec) as (k' & Hk' & HL);
    [|exact Ek|exact Hr|exists k'; eexists; split; [done|]; split; [exact Hk'|exact HL]].
  intros bytes Hb. vm_compute in Hb. injection Hb as <-. by vm_compute.
Defined.
