(* ===== verification/Policy.v ===== *)
(** * Trust-tier policy: [internal/policy]

    [Evaluate] is the one place a trust decision is made. CEL (cel-go) is a
    parameter, the class [Cel]; what the code relies on of it is [CelComputes]:
    the expressions of the built-in rules mean what CEL says they mean. The
    policy source and the auditor are the code's own interfaces and are
    passed as functions. *)

From S2P Require Import Prelude Bytes Proto.

(** ** [policy.go]: the data *)

Record Input : Type := mkInput
  { i_Tier : string; i_TenantID : string; i_Subject : string;
    i_Capabilities : list Capability; i_EffectClass : EffectClass; i_PluginRef : string;
    i_Signed : bool; i_Upstream : string;
    i_Tainted : bool; i_TaintSources : list string; i_EngineCapabilities : list Capability;
    i_PrincipalKind : string; i_PrincipalUntrusted : bool; i_SecretName : string }.

Record Decision : Type := mkDecision { dec_Allow : bool; dec_Rule : string; dec_Reason : string }.

Record Rule : Type := mkRule { rule_ID : string; rule_Expression : string; rule_Reason : string }.

Record TierPolicy : Type := mkTierPolicy { tp_Revision : string; tp_Rules : list Rule }.

#[export] Instance Decision_eq_dec : EqDecision Decision.
Proof. solve_decision. Defined.
#[export] Instance Rule_eq_dec : EqDecision Rule.
Proof. solve_decision. Defined.
#[export] Instance TierPolicy_eq_dec : EqDecision TierPolicy.
Proof. solve_decision. Defined.

Record AuditRecord : Type := mkAudit
  { a_TenantID : string; a_Tier : string; a_Subject : string; a_Rule : string;
    a_Reason : string; a_PluginRef : string; a_Allow : bool }.

(** [Source.Policy]: the policy, and whether one exists at all. *)
Abbreviation Source := (string → string → result string (TierPolicy * bool)).

(** [Auditor.Record]: the trail after the write, or why it failed. *)
Abbreviation Auditor := (AuditRecord → list AuditRecord → result string (list AuditRecord)).

Definition DiscardAudit : Auditor := λ _ trail, Ok trail.

(** [SQLAudit.Record] over a database whose insert may fail. *)
Definition SQLAudit (insert : AuditRecord → option string) : Auditor := λ r trail,
  if decide (a_TenantID r = "") then Err "tenant scope required"
  else match insert r with
       | Some e => Err ("policy: append audit row: " +:+ e)
       | None => Ok (trail ++ [r])
       end.

(** [StaticSource.Policy] over its installed tiers. *)
Definition static_Policy (tiers : gmap string TierPolicy) : Source := λ tenant tier,
  if decide (tenant = "") then Err "tenant scope required"
  else Ok (default (mkTierPolicy "" []) (tiers !! tier), bool_decide (is_Some (tiers !! tier))).

(** ** CEL *)

Inductive CelVal : Type :=
| CelBool (b : bool)
| CelString (s : string)
| CelList (l : list string).

Inductive CelType : Type :=
| BoolType
| DynType
| OtherType (name : string).

Abbreviation Activation := (gmap string CelVal).

Class Cel : Type :=
  { Ast : Type;
    Program : Type;
    env_Compile : string → result string (CelType * Ast);
    env_Program : Ast → result string Program;
    ContextEval : Program → Activation → result string CelVal }.

(** The fragment of CEL the built-in rules are written in, as it prints. *)
Inductive Expr : Type :=
| EVar (key : string)
| ENotVar (key : string)
| EEq (key lit : string)
| ENe (key lit : string)
| ENotIn (lit key : string)
| EOr (a b : Expr).

Definition dquote (s : string) : string := String quote_char (s +:+ String quote_char "").

Fixpoint print (e : Expr) : string :=
  match e with
  | EVar k => "input." +:+ k
  | ENotVar k => "!input." +:+ k
  | EEq k l => "input." +:+ k +:+ " == " +:+ dquote l
  | ENe k l => "input." +:+ k +:+ " != " +:+ dquote l
  | ENotIn l k => "!(" +:+ dquote l +:+ " in input." +:+ k +:+ ")"
  | EOr a b => print a +:+ " || " +:+ print b
  end.

(** Its value, where every key read is present at its type. *)
Fixpoint denote (e : Expr) (a : Activation) : option bool :=
  match e with
  | EVar k => match a !! k with Some (CelBool b) => Some b | _ => None end
  | ENotVar k => match a !! k with Some (CelBool b) => Some (negb b) | _ => None end
  | EEq k l => match a !! k with Some (CelString s) => Some (bool_decide (s = l)) | _ => None end
  | ENe k l => match a !! k with Some (CelString s) => Some (bool_decide (s ≠ l)) | _ => None end
  | ENotIn l k => match a !! k with Some (CelList s) => Some (bool_decide (l ∉ s)) | _ => None end
  | EOr x y => match denote x a, denote y a with Some b, Some c => Some (b || c) | _, _ => None end
  end.

(** What a set of expressions needs of CEL: each compiles to a Boolean or
    dynamic program that computes its value. *)
Class CelComputes `{Cel} (exprs : list Expr) : Prop :=
  cel_computes e : e ∈ exprs → ∃ ty ast p,
      env_Compile (print e) = Ok (ty, ast) ∧ (ty = BoolType ∨ ty = DynType)
      ∧ env_Program ast = Ok p
      ∧ ∀ a b, denote e a = Some b → ContextEval p a = Ok (CelBool b).

(** ** [cel.go] *)

Definition shortCapability (c : Capability) : string :=
  trim_prefix "CAPABILITY_" (Capability_String c).
Definition shortClass (c : EffectClass) : string :=
  trim_prefix "EFFECT_CLASS_" (EffectClass_String c).

Definition inputMap (i : Input) : Activation :=
  list_to_map
    [("tier", CelString (i_Tier i)); ("tenant_id", CelString (i_TenantID i));
     ("subject", CelString (i_Subject i));
     ("capabilities", CelList (map shortCapability (i_Capabilities i)));
     ("effect_class", CelString (shortClass (i_EffectClass i)));
     ("plugin_ref", CelString (i_PluginRef i)); ("signed", CelBool (i_Signed i));
     ("upstream", CelString (i_Upstream i)); ("tainted", CelBool (i_Tainted i));
     ("taint_sources", CelList (i_TaintSources i));
     ("engine_capabilities", CelList (map shortCapability (i_EngineCapabilities i)));
     ("principal_kind", CelString (i_PrincipalKind i));
     ("principal_untrusted", CelBool (i_PrincipalUntrusted i));
     ("secret_name", CelString (i_SecretName i))].

Section Engine.
Context `{Cel}.

Record compiledRule : Type := mkCompiled { c_id : string; c_reason : string; c_program : Program }.

Definition compile_rule (r : Rule) : result string compiledRule :=
  if decide (rule_ID r = "")
  then Err ("policy: rule with expression " +:+ quote (rule_Expression r) +:+ " has no id")
  else match env_Compile (rule_Expression r) with
       | Err e => Err ("policy: rule " +:+ quote (rule_ID r) +:+ " does not compile: " +:+ e)
       | Ok (OtherType out, _) =>
           Err ("policy: rule " +:+ quote (rule_ID r) +:+ " must return bool, not " +:+ out)
       | Ok (_, ast) =>
           match env_Program ast with
           | Err e => Err ("policy: rule " +:+ quote (rule_ID r) +:+ " cannot be planned: " +:+ e)
           | Ok p => Ok (mkCompiled (rule_ID r) (rule_Reason r) p)
           end
       end.

Definition compile (p : TierPolicy) : result string (list compiledRule) :=
  fold_result (λ out r, c ← compile_rule r; Ok (out ++ [c])) [] (tp_Rules p).

Definition Validate (p : TierPolicy) : option string :=
  match compile p with Ok _ => None | Err e => Some e end.

(** [CELEngine.cache], keyed by tier and revision. *)
Abbreviation Programs := (gmap (string * string) (list compiledRule)).

Record EngineState : Type := mkEngine { e_cache : Programs; e_trail : list AuditRecord }.

(** [programs]: the tier's compiled rules and its revision. *)
Definition programs (src : Source) (i : Input) (cache : Programs)
    : Programs * result string (list compiledRule * string) :=
  match src (i_TenantID i) (i_Tier i) with
  | Err e => (cache, Err e)
  | Ok (p, ok) =>
      if decide (ok = false ∨ tp_Rules p = []) then (cache, Ok ([], ""))
      else match cache !! (i_Tier i, tp_Revision p) with
           | Some cached => (cache, Ok (cached, tp_Revision p))
           | None =>
               match compile p with
               | Err e => (cache, Err e)
               | Ok compiled =>
                   (<[(i_Tier i, tp_Revision p) := compiled]> cache, Ok (compiled, tp_Revision p))
               end
           end
  end.

(** The loop over the rules: the denial it returns with, if any. *)
Fixpoint first_denial (rules : list compiledRule) (a : Activation) : option Decision :=
  match rules with
  | [] => None
  | r :: rules =>
      match ContextEval (c_program r) a with
      | Err e => Some (mkDecision false (c_id r) ("policy error: rule " +:+ quote (c_id r) +:+ ": " +:+ e))
      | Ok (CelBool permitted) =>
          if permitted then first_denial rules a
          else Some (mkDecision false (c_id r)
                 (if decide (c_reason r = "") then "rule " +:+ quote (c_id r) +:+ " denied" else c_reason r))
      | Ok _ =>
          Some (mkDecision false (c_id r)
                  ("policy error: rule " +:+ quote (c_id r) +:+ " did not return a bool"))
      end
  end.

Definition decide_rules (tier : string) (rules : list compiledRule) (revision : string)
    (a : Activation) : Decision :=
  if decide (length rules = 0%nat)
  then mkDecision false "" ("no policy configured for tier " +:+ quote tier +:+ ": denied")
  else match first_denial rules a with
       | Some d => d
       | None => mkDecision true "" ("every rule of tier " +:+ quote tier +:+ " (revision "
                                       +:+ revision +:+ ") permitted this")
       end.

(** [CELEngine.decide]. *)
Definition decide_input (src : Source) (i : Input) (cache : Programs) : Programs * Decision :=
  match programs src i cache with
  | (cache, Err e) => (cache, mkDecision false "" ("policy error: " +:+ e))
  | (cache, Ok (rules, revision)) => (cache, decide_rules (i_Tier i) rules revision (inputMap i))
  end.

Inductive EvalErr : Type := TenantRequired | AuditFailed (e : string).

Definition audit_of (i : Input) (d : Decision) : AuditRecord :=
  {| a_TenantID := i_TenantID i; a_Tier := i_Tier i; a_Subject := i_Subject i;
     a_Rule := dec_Rule d; a_Reason := dec_Reason d; a_PluginRef := i_PluginRef i;
     a_Allow := dec_Allow d |}.

(** [CELEngine.Evaluate]: a decision, and an error beside it. *)
Definition Evaluate (src : Source) (aud : Auditor) (i : Input) (st : EngineState)
    : EngineState * (Decision * option EvalErr) :=
  if decide (i_TenantID i = "") then (st, (mkDecision false "" "", Some TenantRequired))
  else
    let '(cache, d) := decide_input src i (e_cache st) in
    match aud (audit_of i d) (e_trail st) with
    | Err e =>
        (mkEngine cache (e_trail st),
         (mkDecision false (dec_Rule d) "policy error: the decision could not be audited",
          Some (AuditFailed e)))
    | Ok trail => (mkEngine cache trail, (d, None))
    end.

End Engine.

(** ** [floor.go] *)

Definition UntrustedTier : string := "untrusted".

Definition rule_signed : Expr := EOr (ENe "tier" UntrustedTier) (EVar "signed").
Definition rule_unprivileged : Expr :=
  EOr (ENe "tier" UntrustedTier) (ENotIn "PRIVILEGED" "engine_capabilities").
Definition rule_no_at_most_once : Expr :=
  EOr (ENe "tier" UntrustedTier) (ENe "effect_class" "AT_MOST_ONCE").

Definition untrusted_exprs : list Expr := [rule_signed; rule_unprivileged; rule_no_at_most_once].

Definition UntrustedTierRules : list Rule :=
  [mkRule "tier.untrusted-signed-plugins" (print rule_signed)
     "work in the untrusted tier may run only plugins with a verified signature";
   mkRule "tier.untrusted-unprivileged-engines" (print rule_unprivileged)
     "work in the untrusted tier may not reach an engine advertising PRIVILEGED";
   mkRule "tier.untrusted-no-at-most-once" (print rule_no_at_most_once)
     ("work in the untrusted tier may not run an at-most-once step; " +:+
      "only an agent's approval gate can admit one")].

Definition WithFloor (inner : Source) (floor : TierPolicy) : Source := λ tenant tier,
  match inner tenant tier with
  | Err e => Err e
  | Ok (p, ok) =>
      if decide (ok = false ∨ tp_Rules p = []) then Ok (p, ok)
      else Ok (mkTierPolicy (tp_Revision floor +:+ "+" +:+ tp_Revision p)
                 (tp_Rules floor ++ tp_Rules p), true)
  end.

(** ** [document.go] *)

Definition document_TierPolicy `{Cel} (revision : string) (rules : list Rule)
    : result string TierPolicy :=
  if decide (rules = [])
  then Err ("policy: the document has no rules, and a tier with no rules refuses everything; "
            +:+ "to permit everything, write a rule that says so")
  else let p := mkTierPolicy revision rules in
       match Validate p with Some e => Err e | None => Ok p end.

(** ** [SaveGuard.Save] *)

Inductive SaveErr (E : Type) : Type :=
| SaveTenantRequired
| NilPipeline
| SaveEval (e : EvalErr)
| Denied (d : Decision)
| SaveStore (e : E).
Arguments SaveTenantRequired {E}.
Arguments NilPipeline {E}.
Arguments SaveEval {E} e.
Arguments Denied {E} d.
Arguments SaveStore {E} e.

Section SaveGuard.
Context `{Cel} {Store Revision StoreErr : Type} (src : Source) (aud : Auditor).
(** [defstore.Store.Save] and the [TierResolver]. *)
Context (store_save : string → Pipeline → string → prog Store StoreErr Revision)
  (tier : string → string).

Definition save_input (tenant : string) (step : Step) : Input :=
  {| i_Tier := tier tenant; i_TenantID := tenant; i_Subject := "step:" +:+ step_id step;
     i_Capabilities := step_capabilities step; i_EffectClass := step_effect_class step;
     i_PluginRef := step_plugin_ref step; i_Signed := false; i_Upstream := "";
     i_Tainted := false; i_TaintSources := []; i_EngineCapabilities := [];
     i_PrincipalKind := ""; i_PrincipalUntrusted := false; i_SecretName := "" |}.

Fixpoint guard_steps (tenant : string) (steps : list Step) (st : EngineState)
    : EngineState * option (SaveErr StoreErr) :=
  match steps with
  | [] => (st, None)
  | s :: steps =>
      let '(st, (d, err)) := Evaluate src aud (save_input tenant s) st in
      match err with
      | Some e => (st, Some (SaveEval e))
      | None => if dec_Allow d then guard_steps tenant steps st else (st, Some (Denied d))
      end
  end.

Definition Save (tenant : string) (p : option Pipeline) (author : string)
    (st : EngineState) (store : Store)
    : EngineState * (Store * result (SaveErr StoreErr) Revision) :=
  if decide (tenant = "") then (st, (store, Err SaveTenantRequired))
  else match p with
       | None => (st, (store, Err NilPipeline))
       | Some p =>
           match guard_steps tenant (pl_steps p) st with
           | (st, Some e) => (st, (store, Err e))
           | (st, None) =>
               match store_save tenant p author store with
               | (store, Ok r) => (st, (store, Ok r))
               | (store, Err e) => (st, (store, Err (SaveStore e)))
               end
           end
       end.

End SaveGuard.
