(* ===== verification/PolicyFacts.v ===== *)
(** * Policy decisions fail closed

    What an [Allow] proves, on every path; that a decision is on the trail;
    that a floor only narrows; and how a program cache keyed by tier and
    revision can answer one tenant with another's rules. *)

From Stdlib Require Import Ascii DecimalString.
From S2P Require Import Prelude Bytes Proto Policy.

(** ** The CEL names of enum values *)

Lemma dec_N_head n : ∃ c r, dec_N n = String c r ∧ is_digit c = true.
Proof.
  pose proof (dec_N_digits n) as Hd. unfold dec_N in *.
  destruct (NilZero.string_of_uint (N.to_uint n)) as [|c r] eqn:E.
  - exfalso. unfold NilZero.string_of_uint in E. by destruct (N.to_uint n).
  - exists c, r. split; [done|]. simpl in Hd. by apply andb_true_iff in Hd as [? _].
Qed.

Lemma dec_Z_head z : ∃ c r, dec_Z z = String c r ∧ (is_digit c = true ∨ c = "-"%char).
Proof.
  unfold dec_Z. case_bool_decide.
  - eexists _, _. split; [done|]. by right.
  - destruct (dec_N_head (Z.to_N z)) as (c & r & -> & Hc). eauto 6.
Qed.

Lemma trim_prefix_head c r d p :
  Ascii.eqb c d = false → trim_prefix (String d p) (String c r) = String c r.
Proof. intros E. unfold trim_prefix. simpl. rewrite Ascii.eqb_sym, E. done. Qed.

Lemma shortCapability_PRIVILEGED c : shortCapability c = "PRIVILEGED" ↔ c = CAPABILITY_PRIVILEGED.
Proof.
  destruct c; try by split. split; [|done]. unfold shortCapability, Capability_String.
  destruct (dec_Z_head n) as (c & r & -> & Hc). intros E.
  rewrite trim_prefix_head in E; [injection E as -> _; by destruct Hc|].
  destruct (Ascii.eqb_spec c "C"); [|done]. subst. by destruct Hc.
Qed.

Lemma shortClass_OTHER z ch rest :
  is_digit ch = false → ch ≠ "-"%char → shortClass (EFFECT_CLASS_OTHER z) ≠ String ch rest.
Proof.
  intros Hch Hm. unfold shortClass, EffectClass_String.
  destruct (dec_Z_head z) as (c & r & -> & Hc).
  rewrite trim_prefix_head; [intros E; injection E as -> _; destruct Hc; congruence|].
  destruct (Ascii.eqb_spec c "E"); [|done]. subst. by destruct Hc.
Qed.

Lemma shortClass_PURE c : shortClass c = "PURE" ↔ c = EFFECT_CLASS_PURE.
Proof. destruct c; try by split. split; [|done]. intros E. by apply shortClass_OTHER in E. Qed.

Lemma shortClass_AT_MOST_ONCE c : shortClass c = "AT_MOST_ONCE" ↔ c = EFFECT_CLASS_AT_MOST_ONCE.
Proof. destruct c; try by split. split; [|done]. intros E. by apply shortClass_OTHER in E. Qed.

Section Facts.
Context `{Cel}.

(** ** What a rule, and a rule set, permits *)

Definition rule_permits (i : Input) (r : Rule) : Prop :=
  rule_ID r ≠ "" ∧ ∃ ty ast p, env_Compile (rule_Expression r) = Ok (ty, ast)
    ∧ (ty = BoolType ∨ ty = DynType) ∧ env_Program ast = Ok p
    ∧ ContextEval p (inputMap i) = Ok (CelBool true).

Definition program_permits (i : Input) (c : compiledRule) : Prop :=
  ContextEval (c_program c) (inputMap i) = Ok (CelBool true).

Lemma compile_rule_Ok r c :
  compile_rule r = Ok c ↔
  rule_ID r ≠ "" ∧ ∃ ty ast p, env_Compile (rule_Expression r) = Ok (ty, ast)
    ∧ (ty = BoolType ∨ ty = DynType) ∧ env_Program ast = Ok p
    ∧ c = mkCompiled (rule_ID r) (rule_Reason r) p.
Proof.
  unfold compile_rule. case_decide as Hid; [naive_solver|]. split.
  - destruct (env_Compile (rule_Expression r)) as [[ty ast]|] eqn:E; [|done].
    intros Hc. split; [done|]. exists ty, ast.
    destruct ty; [| |done]; (destruct (env_Program ast) as [p|]; [|done]);
      injection Hc as <-; exists p; auto.
  - intros (_ & ty & ast & p & -> & Hty & -> & ->). destruct Hty as [-> | ->]; done.
Qed.

Lemma rule_permits_alt i r : rule_permits i r ↔ ∃ c, compile_rule r = Ok c ∧ program_permits i c.
Proof.
  unfold rule_permits, program_permits. split.
  - intros (Hid & ty & ast & p & Hc & Hty & Hp & He).
    exists (mkCompiled (rule_ID r) (rule_Reason r) p). split; [|done].
    apply compile_rule_Ok. eauto 10.
  - intros (c & (Hid & ty & ast & p & Hc & Hty & Hp & ->)%compile_rule_Ok & He). eauto 10.
Qed.

Lemma compile_loop l acc cs :
  fold_result (λ out r, c ← compile_rule r; Ok (out ++ [c])) acc l = Ok cs ↔
  ∃ ds, Forall2 (λ r c, compile_rule r = Ok c) l ds ∧ cs = acc ++ ds.
Proof.
  revert acc. induction l as [|r l IH]; intros acc; cbn [fold_result].
  - split; [intros [= <-]; exists []; by rewrite app_nil_r|].
    intros (ds & Hf & ->). inversion Hf. by rewrite app_nil_r.
  - destruct (compile_rule r) as [c|e] eqn:Ec; simpl.
    + rewrite IH. split.
      * intros (ds & Hf & ->). exists (c :: ds). split; [by constructor|]. by rewrite <-app_assoc.
      * intros (ds & Hf & ->). apply Forall2_cons_inv_l in Hf as (c2 & cs2 & Hc2 & Hf & ->). assert (c = c2) as -> by congruence. exists cs2. split; [done|].
        by rewrite <-app_assoc.
    + split; [done|]. intros (ds & Hf & _). apply Forall2_cons_inv_l in Hf as (c2 & ? & ? & _). congruence.
Qed.

Lemma compile_Ok p cs : compile p = Ok cs ↔ Forall2 (λ r c, compile_rule r = Ok c) (tp_Rules p) cs.
Proof. unfold compile. rewrite compile_loop. naive_solver. Qed.

Lemma compile_rules_only p q : tp_Rules p = tp_Rules q → compile p = compile q.
Proof. unfold compile. by intros ->. Qed.

Lemma first_denial_None cs i : first_denial cs (inputMap i) = None ↔ Forall (program_permits i) cs.
Proof.
  induction cs as [|c cs IH]; simpl; [done|]. rewrite Forall_cons, <-IH.
  unfold program_permits.
  destruct (ContextEval (c_program c) (inputMap i)) as [[[]| |]|]; naive_solver.
Qed.

Lemma first_denial_denies cs a d : first_denial cs a = Some d → dec_Allow d = false.
Proof.
  induction cs as [|c cs IH]; simpl; [done|].
  destruct (ContextEval (c_program c) a) as [[[]| |]|]; naive_solver.
Qed.

Lemma decide_rules_Allow tier cs rev i :
  dec_Allow (decide_rules tier cs rev (inputMap i)) = true ↔ cs ≠ [] ∧ Forall (program_permits i) cs.
Proof.
  unfold decide_rules. case_decide as Hn.
  - apply length_zero_iff_nil in Hn. simpl. naive_solver.
  - rewrite <-first_denial_None.
    destruct (first_denial cs (inputMap i)) as [d|] eqn:E.
    + apply first_denial_denies in E. rewrite E. naive_solver.
    + simpl. naive_solver.
Qed.

(** A compiled rule set permits what its rules permit. *)
Lemma compiled_permits p cs i :
  compile p = Ok cs → (cs ≠ [] ∧ Forall (program_permits i) cs) ↔
  (tp_Rules p ≠ [] ∧ Forall (rule_permits i) (tp_Rules p)).
Proof.
  rewrite compile_Ok. intros Hf. apply Morphisms_Prop.and_iff_morphism.
  - split; intros Hne E; apply Hne; [by rewrite E in Hf; inversion Hf|].
    rewrite E in Hf. by inversion Hf.
  - induction Hf as [|r c rs cs Hr Hf IH]; [done|]. rewrite !Forall_cons, IH, rule_permits_alt, Hr.
    naive_solver.
Qed.

(** ** The program cache *)

(** A source whose revision names one rule set per tier, whoever asks. *)
Definition revision_names_rules (src : Source) : Prop :=
  ∀ t1 t2 tier p1 p2, src t1 tier = Ok (p1, true) → src t2 tier = Ok (p2, true) →
    tp_Rules p1 ≠ [] → tp_Rules p2 ≠ [] → tp_Revision p1 = tp_Revision p2 → tp_Rules p1 = tp_Rules p2.

Definition cache_ok (src : Source) (cache : gmap (string * string) (list compiledRule)) : Prop :=
  ∀ tier rev cs, cache !! (tier, rev) = Some cs →
  ∀ tenant p, src tenant tier = Ok (p, true) → tp_Rules p ≠ [] → tp_Revision p = rev →
  compile p = Ok cs.

Lemma cache_ok_empty src : cache_ok src ∅.
Proof. done. Qed.

Lemma programs_spec src i cache :
  revision_names_rules src → cache_ok src cache →
  cache_ok src (programs src i cache).1 ∧
  (programs src i cache).2 =
    match src (i_TenantID i) (i_Tier i) with
    | Err e => Err e
    | Ok (p, ok) => if decide (ok = false ∨ tp_Rules p = []) then Ok ([], "")
                    else cs ← compile p; Ok (cs, tp_Revision p)
    end.
Proof.
  intros Hrev Hok. unfold programs.
  destruct (src (i_TenantID i) (i_Tier i)) as [[p ok]|] eqn:Es; [|done].
  case_decide as Hp; [done|].
  assert (ok = true ∧ tp_Rules p ≠ []) as [-> Hne] by (destruct ok; naive_solver).
  destruct (cache !! (i_Tier i, tp_Revision p)) as [cs|] eqn:Ec.
  { split; [done|]. simpl. by rewrite (Hok _ _ _ Ec _ _ Es Hne eq_refl). }
  destruct (compile p) as [cs|] eqn:Ep; [|done]. split; [|done]. simpl.
  intros tier rev ds Hl tenant q Hq Hqne Hqr. apply lookup_insert_Some in Hl as [[E <-]|[_ Hl]].
  - simplify_eq. rewrite <-Ep. apply compile_rules_only. by eapply Hrev.
  - by eapply Hok.
Qed.

(** The judgement [Evaluate] implements. *)
Definition policy_permits (src : Source) (i : Input) : Prop :=
  ∃ p, src (i_TenantID i) (i_Tier i) = Ok (p, true) ∧ tp_Rules p ≠ [] ∧
       Forall (rule_permits i) (tp_Rules p).

Lemma decide_input_spec src i cache :
  revision_names_rules src → cache_ok src cache →
  cache_ok src (decide_input src i cache).1 ∧
  (dec_Allow (decide_input src i cache).2 = true ↔ policy_permits src i).
Proof.
  intros Hrev Hok. destruct (programs_spec src i cache Hrev Hok) as [Hc Hp].
  unfold decide_input, policy_permits. destruct (programs src i cache) as [cache' r]; simpl in *.
  subst r. destruct (src (i_TenantID i) (i_Tier i)) as [[p ok]|]; [|split; [done|naive_solver]].
  case_decide as Hd.
  { simpl. split; [done|]. split; [done|]. intros (q & ? & ? & ?). naive_solver. }
  assert (ok = true) as -> by (destruct ok; naive_solver).
  destruct (compile p) as [cs|] eqn:Ep; simpl.
  - split; [done|]. rewrite decide_rules_Allow, (compiled_permits p cs i Ep). naive_solver.
  - split; [done|]. split; [done|]. intros (q & [= <-] & _ & Hall). exfalso.
    assert (∃ cs, Forall2 (λ r c, compile_rule r = Ok c) (tp_Rules p) cs) as [cs Hcs].
    { clear -Hall. induction Hall as [|r rs Hr Hrs [cs IH]]; [by exists []|].
      apply rule_permits_alt in Hr as (c & Hc & _). exists (c :: cs). by constructor. }
    apply compile_Ok in Hcs. congruence.
Qed.

Lemma Evaluate_spec src aud i st :
  revision_names_rules src → cache_ok src (e_cache st) →
  let '(st', (d, err)) := Evaluate src aud i st in
  cache_ok src (e_cache st') ∧
  (dec_Allow d = true → err = None) ∧
  (err = None ↔ i_TenantID i ≠ "" ∧
     is_ok (aud (audit_of i (decide_input src i (e_cache st)).2) (e_trail st)) = true) ∧
  (err = None → d = (decide_input src i (e_cache st)).2 ∧
                (dec_Allow d = true ↔ policy_permits src i)).
Proof.
  intros Hrev Hok. destruct (decide_input_spec src i (e_cache st) Hrev Hok) as [Hc Hd].
  unfold Evaluate. case_decide as Ht; [naive_solver|].
  destruct (decide_input src i (e_cache st)) as [cache d]; simpl in *.
  destruct (aud (audit_of i d) (e_trail st)) as [trail|] eqn:Ea; naive_solver.
Qed.

(** ** Auditing, whatever is cached *)

Lemma Evaluate_allow_audited src aud i st :
  let '(st', (d, err)) := Evaluate src aud i st in
  (err = None → i_TenantID i ≠ "" ∧ aud (audit_of i d) (e_trail st) = Ok (e_trail st')) ∧
  (err ≠ None → dec_Allow d = false ∧ e_trail st' = e_trail st).
Proof.
  unfold Evaluate. case_decide as Ht; [simpl; naive_solver|].
  destruct (decide_input src i (e_cache st)) as [cache d].
  destruct (aud (audit_of i d) (e_trail st)) as [trail|] eqn:Ea; simpl; naive_solver.
Qed.

(** ** The floor *)

Lemma WithFloor_Ok inner floor tenant tier p :
  WithFloor inner floor tenant tier = Ok (p, true) → tp_Rules p ≠ [] →
  ∃ q, inner tenant tier = Ok (q, true) ∧ tp_Rules q ≠ [] ∧
       p = mkTierPolicy (tp_Revision floor +:+ "+" +:+ tp_Revision q) (tp_Rules floor ++ tp_Rules q).
Proof.
  unfold WithFloor. destruct (inner tenant tier) as [[q ok]|]; [|done].
  case_decide as Hd; intros E Hne; [naive_solver|]. injection E as <-.
  exists q. split; [|naive_solver]. destruct ok; naive_solver.
Qed.

(** A floor over a source whose revisions name rules is such a source. *)
Lemma WithFloor_revisions inner floor :
  revision_names_rules inner → revision_names_rules (WithFloor inner floor).
Proof.
  intros Hrev t1 t2 tier p1 p2 H1 H2 Hn1 Hn2 Er.
  destruct (WithFloor_Ok _ _ _ _ _ H1 Hn1) as (q1 & E1 & N1 & ->).
  destruct (WithFloor_Ok _ _ _ _ _ H2 Hn2) as (q2 & E2 & N2 & ->). simpl in *.
  f_equal. apply string_app_inj_l in Er. injection Er as Er. by eapply Hrev.
Qed.

Lemma WithFloor_permits inner floor i :
  policy_permits (WithFloor inner floor) i ↔
  policy_permits inner i ∧ Forall (rule_permits i) (tp_Rules floor).
Proof.
  unfold policy_permits. split.
  - intros (p & Hp & Hne & Hall).
    destruct (WithFloor_Ok _ _ _ _ _ Hp Hne) as (q & Hq & Hqne & ->). simpl in Hall.
    apply Forall_app in Hall as [Hf Hq']. eauto 10.
  - intros [(q & Hq & Hne & Hall) Hf]. eexists. unfold WithFloor. rewrite Hq.
    rewrite decide_False by (intros [|]; done). split; [done|]. simpl. split.
    + intros [_ E]%app_eq_nil. done.
    + by apply Forall_app.
Qed.

(** ** What the built-in expressions say *)

Lemma rule_permits_expr (exprs : list Expr) `{!CelComputes exprs} i id e reason b :
  e ∈ exprs → denote e (inputMap i) = Some b → id ≠ "" →
  rule_permits i (mkRule id (print e) reason) ↔ b = true.
Proof.
  intros He Hb Hid. destruct (cel_computes e He) as (ty & ast & p & Hc & Hty & Hp & Hev).
  apply Hev in Hb. unfold rule_permits. simpl. split.
  - intros (_ & ty' & ast' & p' & Hc' & _ & Hp' & Hv). congruence.
  - intros ->. eauto 10.
Qed.

Lemma privileged_listed caps :
  "PRIVILEGED" ∈ map shortCapability caps ↔ CAPABILITY_PRIVILEGED ∈ caps.
Proof.
  rewrite list_elem_of_fmap. split.
  - intros (c & Hc & Hin). symmetry in Hc. apply shortCapability_PRIVILEGED in Hc. by subst.
  - intros Hin. by exists CAPABILITY_PRIVILEGED.
Qed.

Lemma untrusted_denotes i :
  denote rule_signed (inputMap i) = Some (bool_decide (i_Tier i ≠ UntrustedTier) || i_Signed i)
  ∧ denote rule_unprivileged (inputMap i)
    = Some (bool_decide (i_Tier i ≠ UntrustedTier)
            || bool_decide ("PRIVILEGED" ∉ map shortCapability (i_EngineCapabilities i)))
  ∧ denote rule_no_at_most_once (inputMap i)
    = Some (bool_decide (i_Tier i ≠ UntrustedTier)
            || bool_decide (shortClass (i_EffectClass i) ≠ "AT_MOST_ONCE")).
Proof. done. Qed.

Lemma untrusted_in :
  rule_signed ∈ untrusted_exprs ∧ rule_unprivileged ∈ untrusted_exprs
  ∧ rule_no_at_most_once ∈ untrusted_exprs.
Proof. split_and!; repeat (apply list_elem_of_here || apply list_elem_of_further). Qed.

Lemma untrusted_rules_permit `{!CelComputes untrusted_exprs} i :
  Forall (rule_permits i) UntrustedTierRules ↔
  (i_Tier i = UntrustedTier →
   i_Signed i = true ∧ CAPABILITY_PRIVILEGED ∉ i_EngineCapabilities i
   ∧ i_EffectClass i ≠ EFFECT_CLASS_AT_MOST_ONCE).
Proof.
  unfold UntrustedTierRules. rewrite !Forall_cons, Forall_nil.
  destruct (untrusted_denotes i) as (E1 & E2 & E3), untrusted_in as (I1 & I2 & I3).
  rewrite (rule_permits_expr untrusted_exprs i _ rule_signed _ _ I1 E1) by done.
  rewrite (rule_permits_expr untrusted_exprs i _ rule_unprivileged _ _ I2 E2) by done.
  rewrite (rule_permits_expr untrusted_exprs i _ rule_no_at_most_once _ _ I3 E3) by done.
  rewrite <-privileged_listed, <-shortClass_AT_MOST_ONCE.
  rewrite !orb_true_iff, !bool_decide_eq_true.
  split.
  - intros (H1 & H2 & H3 & _) Ht. destruct H1; [done|]. destruct H2; [done|].
    destruct H3; [done|]. auto.
  - intros Hf. destruct (decide (i_Tier i = UntrustedTier)) as [Ht|Ht]; [|auto 10].
    destruct (Hf Ht) as (? & ? & ?). auto 10.
Qed.

(** ** The save guard *)

Definition auditor_total (aud : Auditor) : Prop := ∀ r trail, is_ok (aud r trail) = true.

Lemma guard_steps_spec {E} src aud tier tenant steps st :
  revision_names_rules src → cache_ok src (e_cache st) → auditor_total aud → tenant ≠ "" →
  let '(st', e) := guard_steps (StoreErr := E) src aud tier tenant steps st in
  cache_ok src (e_cache st') ∧
  (e = None ↔ Forall (λ s, policy_permits src (save_input tier tenant s)) steps).
Proof.
  intros Hrev Hok Haud Ht. revert st Hok. induction steps as [|s steps IH]; intros st Hok; simpl.
  { done. }
  pose proof (Evaluate_spec src aud (save_input tier tenant s) st Hrev Hok) as Hs.
  destruct (Evaluate src aud (save_input tier tenant s) st) as [st1 [d err]].
  destruct Hs as (Hok1 & _ & Herr & Hd).
  assert (err = None) as -> by (by apply Herr).
  destruct (Hd eq_refl) as [_ Hallow]. destruct (dec_Allow d).
  - specialize (IH st1 Hok1). destruct (guard_steps src aud tier tenant steps st1) as [st2 e].
    destruct IH as [Hok2 ->]. rewrite Forall_cons. naive_solver.
  - split; [done|]. rewrite Forall_cons. naive_solver.
Qed.

End Facts.

(** ** A CEL that knows a given list of expressions, for worked examples *)

Definition toy_cel (exprs : list Expr) : Cel :=
  {| Ast := Expr; Program := Expr;
     env_Compile s := match list_find (λ e, print e = s) exprs with
                      | Some (_, e) => Ok (BoolType, e)
                      | None => Err "undeclared reference"
                      end;
     env_Program e := Ok e;
     ContextEval e a := match denote e a with
                        | Some b => Ok (CelBool b)
                        | None => Err "no such key"
                        end |}.

Lemma toy_cel_computes exprs : NoDup (print <$> exprs) → CelComputes (H := toy_cel exprs) exprs.
Proof.
  intros Hnd e He. exists BoolType, e, e.
  assert (Hf : ∃ n, list_find (λ x, print x = print e) exprs = Some (n, e)).
  { apply list_elem_of_lookup in He as [n Hn]. exists n. apply list_find_Some.
    split_and!; [done..|]. intros j y Hj Hjn Hy.
    eapply (NoDup_lookup _ j n (print e)) in Hnd; [lia|..];
      rewrite list_lookup_fmap, ?Hj, ?Hn; simpl; congruence. }
  destruct Hf as [n Hf]. simpl. rewrite Hf. split_and!; auto.
  intros a b ->. done.
Qed.

(** ** Properties *)

(** A decision allows exactly when the tenant is named, the tier has a
    policy with at least one rule, every rule compiles to a Boolean and
    answers true on this input, and the decision was recorded; the program
    cache stays consistent with the source. A missing policy, a rule that
    does not compile, one that errors or answers a non-Boolean, and a failed
    audit write all deny. *)
Theorem evaluate_allows_iff `{Cel} (src : Source) (aud : Auditor) (i : Input) (st : EngineState) :
  revision_names_rules src → cache_ok src (e_cache st) →
  let '(st', (d, err)) := Evaluate src aud i st in
  cache_ok src (e_cache st') ∧
  (dec_Allow d = true ↔
     i_TenantID i ≠ "" ∧ policy_permits src i ∧
     is_ok (aud (audit_of i (decide_input src i (e_cache st)).2) (e_trail st)) = true).
Proof.
  intros Hrev Hok. pose proof (Evaluate_spec src aud i st Hrev Hok) as Hs.
  destruct (Evaluate src aud i st) as [st' [d err]]. destruct Hs as (Hc & Ha & He & Hd).
  split; [done|]. split.
  - intros Hal. pose proof (Ha Hal) as E. destruct (Hd E) as [_ Hiff].
    apply He in E as [Ht Hau]. split_and!; [done|by apply Hiff|done].
  - intros (Ht & Hp & Hau). assert (err = None) as E by (by apply He). by apply (Hd E).
Qed.

Definition tier_signed : Expr := EVar "signed".
Definition release_policy : TierPolicy :=
  mkTierPolicy "r1" [mkRule "signed-only" (print tier_signed) ""].
Definition release_source : Source := λ _ _, Ok (release_policy, true).

Definition example_input (tenant tier : string) (signed : bool) : Input :=
  {| i_Tier := tier; i_TenantID := tenant; i_Subject := "step:build"; i_Capabilities := [];
     i_EffectClass := EFFECT_CLASS_PURE; i_PluginRef := ""; i_Signed := signed; i_Upstream := "";
     i_Tainted := false; i_TaintSources := []; i_EngineCapabilities := [];
     i_PrincipalKind := "user"; i_PrincipalUntrusted := false; i_SecretName := "" |}.

Lemma discard_total : auditor_total DiscardAudit.
Proof. by intros r trail. Qed.

Lemma release_source_consistent : revision_names_rules release_source.
Proof. intros t1 t2 tier p1 p2. unfold release_source. congruence. Qed.

Lemma evaluate_allows_iff_witness :
  let cel := toy_cel [tier_signed] in
  let st := mkEngine ∅ [] in
  dec_Allow (Evaluate release_source DiscardAudit (example_input "acme" "release" true) st).2.1 = true
  ∧ dec_Allow (Evaluate release_source DiscardAudit (example_input "acme" "release" false) st).2.1 = false.
Proof.
  intros cel st. split; [|done].
  pose proof (evaluate_allows_iff release_source DiscardAudit (example_input "acme" "release" true) st
                release_source_consistent (cache_ok_empty _)) as Hs.
  destruct (Evaluate release_source DiscardAudit (example_input "acme" "release" true) st)
    as [st' [d err]]. apply Hs. split; [done|]. split; [|done].
  exists release_policy. split_and!; [done..|]. apply Forall_singleton. split; [done|].
  exists BoolType, tier_signed, tier_signed. split_and!; auto.
Defined.

(** Every decision is on the trail: with the SQL auditor, a decision that
    is returned without an error has appended exactly one row, naming the
    tenant, tier, subject, rule, reason and verdict it returned; any error
    comes with a decision that denies and leaves the trail as it was. *)
Theorem decisions_on_the_trail `{Cel} (src : Source) (insert : AuditRecord → option string)
    (i : Input) (st : EngineState) :
  let '(st', (d, err)) := Evaluate src (SQLAudit insert) i st in
  match err with
  | None => e_trail st' = e_trail st ++ [audit_of i d] ∧ i_TenantID i ≠ ""
  | Some _ => dec_Allow d = false ∧ e_trail st' = e_trail st
  end.
Proof.
  pose proof (Evaluate_allow_audited src (SQLAudit insert) i st) as Hs.
  destruct (Evaluate src (SQLAudit insert) i st) as [st' [d [e|]]]; destruct Hs as [H1 H2].
  - by apply H2.
  - destruct (H1 eq_refl) as [Ht Ha]. unfold SQLAudit in Ha. cbn [audit_of a_TenantID] in Ha.
    rewrite decide_False in Ha by done. destruct (insert _); [done|]. by injection Ha as <-.
Qed.

(** A floor only narrows: whatever the floor and the tier's own policy,
    [Evaluate] over the composed source allows an input exactly when the
    tier's own policy permits it, every rule of the floor holds, and the
    decision was recorded. A tier without rules of its own stays denied. *)
Theorem floor_only_narrows `{Cel} (inner : Source) (floor : TierPolicy) (aud : Auditor)
    (i : Input) (st : EngineState) :
  revision_names_rules inner → auditor_total aud → i_TenantID i ≠ "" →
  cache_ok (WithFloor inner floor) (e_cache st) →
  dec_Allow (Evaluate (WithFloor inner floor) aud i st).2.1 = true ↔
  policy_permits inner i ∧ Forall (rule_permits i) (tp_Rules floor).
Proof.
  intros Hrev Haud Ht Hok.
  pose proof (Evaluate_spec _ aud i st (WithFloor_revisions inner floor Hrev) Hok) as Hs.
  destruct (Evaluate (WithFloor inner floor) aud i st) as [st' [d err]]. simpl.
  destruct Hs as (_ & _ & He & Hd). assert (err = None) as E by (by apply He).
  destruct (Hd E) as [_ ->]. apply WithFloor_permits.
Qed.

Lemma floor_only_narrows_witness :
  let cel := toy_cel (tier_signed :: untrusted_exprs) in
  let floor := mkTierPolicy "floor/1" UntrustedTierRules in
  ∃ d, (Evaluate (WithFloor release_source floor) DiscardAudit (example_input "acme" "untrusted" true)
         (mkEngine ∅ [])).2.1 = d ∧
  (dec_Allow d = true ↔
   policy_permits release_source (example_input "acme" "untrusted" true)
   ∧ Forall (rule_permits (example_input "acme" "untrusted" true)) UntrustedTierRules).
Proof.
  intros cel floor. eexists. split; [reflexivity|].
  apply (floor_only_narrows release_source floor DiscardAudit);
    [exact release_source_consistent|exact discard_total|done|apply cache_ok_empty].
Defined.

(** In the untrusted tier the floor's rules hold exactly for signed
    plugins, on engines without PRIVILEGED, in classes other than
    AT_MOST_ONCE; in every other tier they say nothing. *)
Theorem untrusted_tier_floor `{Cel, !CelComputes untrusted_exprs} (i : Input) :
  Forall (rule_permits i) UntrustedTierRules ↔
  (i_Tier i = UntrustedTier →
   i_Signed i = true ∧ CAPABILITY_PRIVILEGED ∉ i_EngineCapabilities i
   ∧ i_EffectClass i ≠ EFFECT_CLASS_AT_MOST_ONCE).
Proof. apply untrusted_rules_permit. Qed.

Lemma untrusted_nodup : NoDup (print <$> untrusted_exprs).
Proof. apply (bool_decide_unpack _). by vm_compute. Qed.

Lemma untrusted_tier_floor_witness :
  let cel := toy_cel untrusted_exprs in
  ¬ Forall (rule_permits (example_input "acme" "untrusted" false)) UntrustedTierRules.
Proof.
  intros cel. rewrite (@untrusted_tier_floor cel (toy_cel_computes _ untrusted_nodup)).
  intros Hf. by destruct (Hf eq_refl).
Defined.

(** A definition is saved only when policy permits every one of its
    steps: over an auditor that records, [Save] hands a pipeline to the
    store exactly when the tenant is named and each step is permitted under
    the tenant's tier, and otherwise the store is left as it was. *)
Theorem save_is_guarded `{Cel} {Store Revision E : Type} (src : Source) (aud : Auditor)
    (store_save : string → Pipeline → string → prog Store E Revision) (tier : string → string)
    (tenant : string) (p : Pipeline) (author : string) (st : EngineState) (store : Store) :
  revision_names_rules src → cache_ok src (e_cache st) → auditor_total aud →
  let permitted := tenant ≠ "" ∧
    Forall (λ s, policy_permits src (save_input tier tenant s)) (pl_steps p) in
  let r := (Save src aud store_save tier tenant (Some p) author st store).2 in
  (permitted → r.1 = (store_save tenant p author store).1
               ∧ (∀ rev, r.2 = Ok rev ↔ (store_save tenant p author store).2 = Ok rev))
  ∧ (¬ permitted → r.1 = store ∧ is_ok r.2 = false).
Proof.
  intros Hrev Hok Haud. cbn zeta. unfold Save. case_decide as Ht.
  { split; [by intros []|done]. }
  pose proof (guard_steps_spec (E := E) src aud tier tenant (pl_steps p) st Hrev Hok Haud Ht) as Hg.
  destruct (guard_steps src aud tier tenant (pl_steps p) st) as [st' [e|]]; destruct Hg as [_ Hiff].
  - split; [|done]. intros [_ Hall]. by apply Hiff in Hall.
  - split; [|intros Hn; destruct Hn; split; [done|]; by apply Hiff]. intros _.
    destruct (store_save tenant p author store) as [store' [rev|e]]; simpl;
      (split; [done|]); intros rev'; split; congruence.
Qed.

Definition example_pipeline : Pipeline :=
  mkPipeline "p" [bare_step "build" EFFECT_CLASS_PURE] [] [].

Lemma save_is_guarded_witness :
  let cel := toy_cel [tier_signed] in
  let save : string → Pipeline → string → prog (list Pipeline) unit nat :=
    λ _ p _ db, (db ++ [p], Ok (length db)) in
  (Save release_source DiscardAudit save (λ _, "release") "acme" (Some example_pipeline) "me"
     (mkEngine ∅ []) []).2.1 = [].
Proof.
  intros cel save.
  apply (save_is_guarded release_source DiscardAudit save (λ _, "release") "acme" example_pipeline
           "me" (mkEngine ∅ []) [] release_source_consistent (cache_ok_empty _)
           discard_total).
  intros [_ Hall]. apply Forall_singleton in Hall as (q & Hq & _ & Hall).
  injection Hq as <-. apply Forall_singleton in Hall as (_ & ty & ast & pr & Hc & _ & Hp & Hv).
  vm_compute in Hc. injection Hc as <- <-. injection Hp as <-. by vm_compute in Hv.
Defined.

(** The program cache is keyed by tier and revision and not by tenant:
    once one tenant's policy has been evaluated, another tenant whose policy
    for the tier carries the same revision is judged by the first tenant's
    rules, whatever its own say. *)
Theorem programs_shared_across_tenants `{Cel} (src : Source) (aud : Auditor) (a b : Input)
    (pa pb : TierPolicy) (cs : list compiledRule) (st : EngineState) :
  auditor_total aud → i_TenantID a ≠ "" → i_TenantID b ≠ "" → i_Tier a = i_Tier b →
  src (i_TenantID a) (i_Tier a) = Ok (pa, true) → src (i_TenantID b) (i_Tier b) = Ok (pb, true) →
  tp_Revision pa = tp_Revision pb → tp_Rules pa ≠ [] → tp_Rules pb ≠ [] →
  compile pa = Ok cs → e_cache st !! (i_Tier a, tp_Revision pa) = None →
  let st' := (Evaluate src aud a st).1 in
  dec_Allow (Evaluate src aud b st').2.1 = true ↔ Forall (rule_permits b) (tp_Rules pa).
Proof.
  intros Haud Hta Htb Etier Ha Hb Erev Hna Hnb Hcs Hnone. cbn zeta.
  assert (Hcache : e_cache (Evaluate src aud a st).1 !! (i_Tier b, tp_Revision pb) = Some cs).
  { unfold Evaluate. rewrite decide_False by done. unfold decide_input, programs.
    rewrite Ha, decide_False by (intros [|]; done). rewrite Hnone, Hcs.
    destruct (aud _ _); simpl; rewrite <-Etier, <-Erev; apply lookup_insert_eq. }
  generalize dependent (Evaluate src aud a st).1. intros st' Hcache.
  unfold Evaluate. rewrite decide_False by done. unfold decide_input, programs.
  rewrite Hb, decide_False by (intros [|]; done). rewrite Hcache.
  destruct (aud _ _) as [tr|e] eqn:Eau.
  - simpl. rewrite decide_rules_Allow, (compiled_permits pa cs b Hcs). naive_solver.
  - exfalso. specialize (Haud (audit_of b (decide_rules (i_Tier b) cs (tp_Revision pb) (inputMap b)))
      (e_trail st')). by rewrite Eau in Haud.
Qed.

Definition two_tenants : Source := λ tenant _,
  if decide (tenant = "lax") then Ok (mkTierPolicy "1" [mkRule "any" (print (ENe "tier" "")) ""], true)
  else Ok (mkTierPolicy "1" [mkRule "signed-only" (print tier_signed) ""], true).

Lemma programs_shared_across_tenants_witness :
  let cel := toy_cel [ENe "tier" ""; tier_signed] in
  let strict := example_input "strict" "prod" false in
  let after := (Evaluate two_tenants DiscardAudit (example_input "lax" "prod" false) (mkEngine ∅ [])).1 in
  dec_Allow (Evaluate two_tenants DiscardAudit strict (mkEngine ∅ [])).2.1 = false
  ∧ dec_Allow (Evaluate two_tenants DiscardAudit strict after).2.1 = true.
Proof.
  intros cel strict after. split; [done|].
  apply (programs_shared_across_tenants two_tenants DiscardAudit (example_input "lax" "prod" false) strict
    (mkTierPolicy "1" [mkRule "any" (print (ENe "tier" "")) ""])
    (mkTierPolicy "1" [mkRule "signed-only" (print tier_signed) ""])
    [mkCompiled "any" "" (ENe "tier" "" : @Program cel)]); try done.
  apply Forall_singleton. split; [done|].
  exists BoolType, (ENe "tier" ""), (ENe "tier" ""). split_and!; auto.
Defined.
