(* ===== verification/Taint.v ===== *)
(** * Taint tracking: [internal/taint]

    Marks on structured values ([Mark], [Sources], [untainted]), on output
    references ([MarkRef], [Propagate]), the sanitisation gate, and the check
    that hands both to the policy engine. Protobuf's low-level wire reader is
    the class [Protowire]; JSON encoding of the gate's record is a
    parameter. *)

From S2P Require Import Prelude Bytes Proto Policy.

(** ** [structpb.Value] *)

(** A struct's fields are a Go map: the list of its entries, whose order Go
    does not fix. [VUnset] is a value whose kind was never set. *)
Inductive Value : Type :=
| VUnset
| VNull
| VNumber (bits : Z)
| VString (s : string)
| VBool (b : bool)
| VStruct (fields : list (string * Value))
| VList (values : list Value).

(** One entry per name, at every depth: what makes a list of entries a map. *)
Fixpoint wf_value (v : Value) : bool :=
  match v with
  | VStruct fs => bool_decide (NoDup fs.*1) && forallb (λ p, wf_value p.2) fs
  | VList vs => forallb wf_value vs
  | _ => true
  end.

Fixpoint vsize (v : Value) : nat :=
  match v with
  | VStruct fs => S (list_sum (map (λ p, vsize p.2) fs))
  | VList vs => S (list_sum (map vsize vs))
  | _ => 1
  end.

Definition get_field (fs : list (string * Value)) (name : string) : option Value :=
  (λ p, p.2) <$> (list_find (λ p, p.1 = name) fs ≫= λ q, Some q.2).

(** [fields[name]] of a Go map: the nil value where it is absent, which the
    getters read as unset. *)
Definition field_or (fs : list (string * Value)) (name : string) : Value :=
  default VUnset (get_field fs name).

Definition GetStringValue (v : Value) : string :=
  match v with VString s => s | _ => "" end.

(** ** [taint.go] *)

Definition Field : string := "$dhole.taint".
Definition sourceField : string := "source".
Definition valueField : string := "value".

(** [mark]: the inner struct of a mark at the value's top level. *)
Definition mark (v : Value) : option (list (string * Value)) :=
  match v with
  | VStruct fields =>
      if decide (length fields ≠ 1%nat) then None
      else match get_field fields Field with
           | Some (VStruct m) =>
               match get_field m valueField, get_field m sourceField with
               | Some _, Some _ => Some m
               | _, _ => None
               end
           | _ => None
           end
  | _ => None
  end.

Definition wrapper (source : string) (v : Value) : Value :=
  VStruct [(Field, VStruct [(sourceField, VString source); (valueField, v)])].

(** [Mark]; [None] is a nil pointer. *)
Definition Mark (v : option Value) (source : string) : Value :=
  let v := default VNull v in
  match mark v with
  | Some _ => v
  | None => wrapper source v
  end.

(** [walk], collecting what it visits: the source of every mark. The fuel is
    the value's size, which every call decreases. *)
Fixpoint walk (fuel : nat) (v : Value) : list string :=
  match fuel with
  | O => []
  | S fuel =>
      match mark v with
      | Some m => GetStringValue (field_or m sourceField) :: walk fuel (field_or m valueField)
      | None =>
          match v with
          | VStruct fs => flat_map (λ p, walk fuel p.2) fs
          | VList vs => flat_map (walk fuel) vs
          | _ => []
          end
      end
  end.

Definition marks (v : Value) : list string := walk (vsize v) v.

Definition IsTainted (v : Value) : bool :=
  match marks v with [] => false | _ :: _ => true end.

(** [sorted] of a set. *)
Definition sorted (l : list string) : list string := sort_strings (elements (list_to_set (C := gset string) l)).

Definition Sources (v : Value) : list string := sorted (marks v).

Definition SourceOf (v : Value) : string :=
  match mark v with None => "" | Some m => GetStringValue (field_or m sourceField) end.

Definition ValueOf (v : Value) : Value :=
  match mark v with None => v | Some m => field_or m valueField end.

Fixpoint untaint (fuel : nat) (v : Value) : Value :=
  match fuel with
  | O => v
  | S fuel =>
      match mark v with
      | Some m => untaint fuel (field_or m valueField)
      | None =>
          match v with
          | VStruct fs => VStruct (map (λ p, (p.1, untaint fuel p.2)) fs)
          | VList vs => VList (map (untaint fuel) vs)
          | _ => v
          end
      end
  end.

Definition untainted (v : Value) : Value := untaint (vsize v) v.

(** *** The gate *)

Record Gate : Type := mkGate { g_StepID : string; g_Fields : list string }.

Record Sanitisation : Type := mkSanitisation
  { s_TenantID : string; s_RunID : string; s_Principal : string; s_Fields : list string;
    s_Inputs : gmap string Value }.

Record SanRecord : Type := mkSanRecord
  { sr_Gate : string; sr_Principal : string; sr_Fields : list string; sr_Sources : list string }.

Inductive GateErr : Type :=
| ErrNoRecord
| GateTenantRequired
| NoRun
| NoPrincipal
| NothingNamed (gate : string)
| NotDeclared (gate name : string)
| NotSupplied (gate name : string)
| NotTainted (gate name : string)
| EncodeRecord
| AppendFailed (e : string).

(** The event a gate appends, less the time it reads from the clock. *)
Record SanEvent : Type := mkSanEvent
  { se_Tenant : string; se_RunID : string; se_StepID : string; se_Type : string; se_Payload : string }.

Definition EventSanitised : string := "TAINT_SANITISED".

Section Sanitise.
(** [Appender.Append] over the log's own state, and [json.Marshal]. *)
Context {Log : Type} (append : SanEvent → prog Log string unit)
  (json_Marshal : SanRecord → option string).

Definition clear_field (g : Gate) (s : Sanitisation) (acc : gmap string Value * list string)
    (name : string) : result GateErr (gmap string Value * list string) :=
  if decide (name ∉ g_Fields g) then Err (NotDeclared (g_StepID g) name)
  else match s_Inputs s !! name with
       | None => Err (NotSupplied (g_StepID g) name)
       | Some v =>
           if IsTainted v
           then Ok (<[name := untainted v]> acc.1, acc.2 ++ Sources v)
           else Err (NotTainted (g_StepID g) name)
       end.

Definition Sanitise (g : Gate) (logged : bool) (s : Sanitisation)
    : prog Log GateErr (gmap string Value * SanRecord) := λ log,
  if negb logged then (log, Err ErrNoRecord)
  else if decide (s_TenantID s = "") then (log, Err GateTenantRequired)
  else if decide (s_RunID s = "") then (log, Err NoRun)
  else if decide (s_Principal s = "") then (log, Err NoPrincipal)
  else if decide (length (s_Fields s) = 0%nat) then (log, Err (NothingNamed (g_StepID g)))
  else
    let fields := sort_strings (s_Fields s) in
    match fold_result (clear_field g s) (s_Inputs s, []) fields with
    | Err e => (log, Err e)
    | Ok (cleared, sources) =>
        let record := mkSanRecord (g_StepID g) (s_Principal s) fields (sorted sources) in
        match json_Marshal record with
        | None => (log, Err EncodeRecord)
        | Some payload =>
            match append (mkSanEvent (s_TenantID s) (s_RunID s) (g_StepID g) EventSanitised payload) log with
            | (log, Err e) => (log, Err (AppendFailed e))
            | (log, Ok _) => (log, Ok (cleared, record))
            end
        end
    end.

End Sanitise.

(** ** [propagate.go] *)

Definition refTaintField : Z := 15015.
Definition BytesType : Z := 2.

(** [protowire]: what the code calls of it. *)
Class Protowire : Type :=
  { AppendTag : Z → Z → string;
    AppendString : string → string;
    ConsumeTag : string → option (Z * Z * string);
    ConsumeString : string → option (string * string);
    ConsumeFieldValue : Z → Z → string → option string }.

(** What it documents: the readers invert the writers, read a prefix, and a
    tag takes at least a byte. *)
Class ProtowireLaws `{Protowire} : Prop :=
  { tag_written x :
      ConsumeTag (AppendTag refTaintField BytesType +:+ x) = Some (refTaintField, BytesType, x);
    string_written s x : ConsumeString (AppendString s +:+ x) = Some (s, x);
    tag_prefix b n t r : ConsumeTag b = Some (n, t, r) →
      (String.length r < String.length b)%nat ∧ ∀ x, ConsumeTag (b +:+ x) = Some (n, t, r +:+ x);
    string_prefix b s r : ConsumeString b = Some (s, r) →
      (String.length r ≤ String.length b)%nat ∧ ∀ x, ConsumeString (b +:+ x) = Some (s, r +:+ x);
    value_prefix n t b r : ConsumeFieldValue n t b = Some r →
      (String.length r ≤ String.length b)%nat ∧
      ∀ x, ConsumeFieldValue n t (b +:+ x) = Some (r +:+ x) }.

Section Refs.
Context `{Protowire}.

(** The loop of [RefSources] over the unknown fields: what it appended, and
    whether it read to the end. A turn consumes a tag, so the length of what
    is left bounds the turns. *)
Fixpoint ref_loop (fuel : nat) (rest : string) : list string * bool :=
  if decide (rest = "") then ([], true) else
  match fuel with
  | O => ([], false)
  | S fuel =>
      match ConsumeTag rest with
      | None => ([], false)
      | Some (number, typ, rest) =>
          if decide (number = refTaintField ∧ typ = BytesType)
          then match ConsumeString rest with
               | None => ([], false)
               | Some (s, rest) => let '(l, b) := ref_loop fuel rest in (s :: l, b)
               end
          else match ConsumeFieldValue number typ rest with
               | None => ([], false)
               | Some rest => ref_loop fuel rest
               end
      end
  end.

Definition RefSources (o : OutputRef) : list string :=
  (ref_loop (String.length (out_unknown o)) (out_unknown o)).1.

Definition RefTainted (o : OutputRef) : bool := bool_decide (0 < length (RefSources o))%nat.

Definition set_unknown (o : OutputRef) (u : string) : OutputRef :=
  mkOutputRef (out_port o) (out_digest o) (out_key o) (out_size o) u.

Definition MarkRef (o : OutputRef) (source : string) : OutputRef :=
  if decide (source ∈ RefSources o) then o
  else set_unknown o (out_unknown o +:+ AppendTag refTaintField BytesType +:+ AppendString source).

(** The distinct sources of the inputs, in the order first seen. *)
Definition add_source (seen : list string) (s : string) : list string :=
  if decide (s ∈ seen) then seen else seen ++ [s].

Definition input_sources (ins : list OutputRef) : list string :=
  fold_left add_source (flat_map RefSources ins) [].

Definition Propagate (ins outs : list OutputRef) : list OutputRef :=
  let sources := input_sources ins in
  if decide (length sources = 0%nat) then outs
  else map (λ o, fold_left MarkRef sources o) outs.

End Refs.

(** ** [policy.go]: the rules and the check *)

Definition Tier : string := "untrusted".

Definition rule_privileged_engine : Expr :=
  EOr (ENotVar "tainted") (ENotIn "PRIVILEGED" "engine_capabilities").
Definition rule_effectful_step : Expr := EOr (ENotVar "tainted") (EEq "effect_class" "PURE").
Definition taint_exprs : list Expr := [rule_privileged_engine; rule_effectful_step].

Definition BuiltinPolicy : TierPolicy :=
  {| tp_Revision := "builtin/1";
     tp_Rules :=
       [mkRule "taint.privileged-engine" (print rule_privileged_engine)
          ("untrusted data may not be dispatched to an engine advertising " +:+
           "PRIVILEGED; clear it through a sanitisation gate first");
        mkRule "taint.effectful-step" (print rule_effectful_step)
          ("an effectful step may not act on untrusted data until a " +:+
           "sanitisation gate clears it")] |}.

Definition defaultingSource (inner : option Source) : Source := λ tenant tier,
  match inner with
  | None => Ok (BuiltinPolicy, true)
  | Some src =>
      match src tenant tier with
      | Err e => Err e
      | Ok (p, ok) =>
          if decide (ok = false ∨ tp_Rules p = []) then Ok (BuiltinPolicy, true) else Ok (p, true)
      end
  end.

Definition DispatchFloor : TierPolicy :=
  {| tp_Revision := "floor/1(" +:+ tp_Revision BuiltinPolicy +:+ ")";
     tp_Rules := tp_Rules BuiltinPolicy ++ UntrustedTierRules |}.

Record Dispatch : Type := mkDispatch
  { di_TenantID : string; di_Tier : string; di_Subject : string; di_EffectClass : EffectClass;
    di_EngineCapabilities : list Capability; di_Inputs : gmap string Value;
    di_InputRefs : list OutputRef; di_PrincipalKind : string; di_PrincipalUntrusted : bool }.

Definition describe (d : Decision) (subject : string) (sources : list string) : Decision :=
  mkDecision (dec_Allow d) (dec_Rule d)
    (if decide (length sources = 0%nat)
     then "step " +:+ quote subject +:+ " carries no tainted input: " +:+ dec_Reason d
     else "step " +:+ quote subject +:+ " carries data tainted by " +:+ join ", " sources
          +:+ ": " +:+ dec_Reason d).

Section Check.
Context `{Protowire, Cel}.

Definition dispatch_sources (d : Dispatch) : list string :=
  sorted (flat_map (λ p, Sources p.2) (map_to_list (di_Inputs d)) ++ flat_map RefSources (di_InputRefs d)).

Definition check_input (d : Dispatch) : Input :=
  let named := dispatch_sources d in
  {| i_Tier := if decide (di_Tier d = "") then Tier else di_Tier d;
     i_TenantID := di_TenantID d; i_Subject := di_Subject d; i_Capabilities := [];
     i_EffectClass := di_EffectClass d; i_PluginRef := ""; i_Signed := false; i_Upstream := "";
     i_Tainted := bool_decide (0 < length named)%nat; i_TaintSources := named;
     i_EngineCapabilities := di_EngineCapabilities d;
     i_PrincipalKind := di_PrincipalKind d; i_PrincipalUntrusted := di_PrincipalUntrusted d;
     i_SecretName := "" |}.

Definition Check_ (src : option Source) (aud : Auditor) (d : Dispatch) (st : EngineState)
    : EngineState * (Decision * option EvalErr) :=
  match Evaluate (defaultingSource src) aud (check_input d) st with
  | (st, (dec, Some e)) => (st, (mkDecision false (dec_Rule dec) (dec_Reason dec), Some e))
  | (st, (dec, None)) => (st, (describe dec (di_Subject d) (dispatch_sources d), None))
  end.

End Check.
