(* ===== verification/TaintFacts.v ===== *)
(** * What taint tracking guarantees

    A mark is found at any depth and survives everything but the gate; the
    gate clears exactly what it names; marks on references only accumulate;
    and tainted data reaches only pure steps on unprivileged engines. *)

From Stdlib Require Import Ascii.
From S2P Require Import Prelude Bytes Proto Policy PolicyFacts Taint.

(** ** Values *)

Inductive subvalue (u : Value) : Value → Prop :=
| sub_refl : subvalue u u
| sub_field fs n w : (n, w) ∈ fs → subvalue u w → subvalue u (VStruct fs)
| sub_item vs w : w ∈ vs → subvalue u w → subvalue u (VList vs).

Lemma subvalue_trans u v w : subvalue u v → subvalue v w → subvalue u w.
Proof. intros Huv. induction 1; [done|by eapply sub_field|by eapply sub_item]. Qed.

Lemma vsize_pos v : (0 < vsize v)%nat.
Proof. destruct v; simpl; lia. Qed.

Lemma list_sum_elem (l : list nat) n : n ∈ l → (n ≤ list_sum l)%nat.
Proof. induction 1; simpl; lia. Qed.

Lemma vsize_field fs n w : (n, w) ∈ fs → (vsize w < vsize (VStruct fs))%nat.
Proof.
  intros Hin. simpl. apply Nat.lt_succ_r, list_sum_elem, list_elem_of_fmap. by exists (n, w).
Qed.

Lemma vsize_item vs w : w ∈ vs → (vsize w < vsize (VList vs))%nat.
Proof. intros Hin. simpl. apply Nat.lt_succ_r, list_sum_elem, list_elem_of_fmap. by exists w. Qed.

(** Induction on the size: what both recursions are justified by. *)
Lemma value_size_ind (P : Value → Prop) :
  (∀ v, (∀ w, (vsize w < vsize v)%nat → P w) → P v) → ∀ v, P v.
Proof.
  intros IH v. remember (vsize v) as n eqn:En. revert v En.
  induction n as [n IHn] using lt_wf_ind. intros v ->. apply IH. eauto.
Qed.

Lemma get_field_elem fs n w : get_field fs n = Some w → (n, w) ∈ fs.
Proof.
  unfold get_field. destruct (list_find _ fs) as [[k [m u]]|] eqn:E; simpl; [|done].
  intros [= ->]. apply list_find_Some in E as (E & Hm & _). simpl in Hm. subst.
  by apply list_elem_of_lookup_2 in E.
Qed.

Lemma get_field_keys fs gs n : fs.*1 = gs.*1 → is_Some (get_field fs n) ↔ is_Some (get_field gs n).
Proof.
  revert gs. induction fs as [|[a v] fs IH]; intros [|[b w] gs] E; try done.
  injection E as -> E. unfold get_field in *. cbn [list_find]. simpl.
  destruct (decide (b = n)) as [->|]; simpl; [by split|].
  specialize (IH gs E). destruct (list_find _ fs) as [[]|], (list_find _ gs) as [[]|];
    simpl in *; done.
Qed.

Lemma field_or_elem fs n v : get_field fs n = Some v → (n, field_or fs n) ∈ fs.
Proof. intros E. unfold field_or. rewrite E. by apply get_field_elem. Qed.

Lemma mark_Some v m :
  mark v = Some m ↔
  v = VStruct [(Field, VStruct m)]
  ∧ is_Some (get_field m valueField) ∧ is_Some (get_field m sourceField).
Proof.
  split.
  - destruct v; simpl; try done. case_decide as Hl; [done|].
    destruct fields as [|[n w] []]; simpl in Hl; try done; try lia.
    unfold get_field at 1. cbn [list_find]. simpl. destruct (decide (n = Field)) as [->|]; [|done].
    simpl. destruct w; try done.
    destruct (get_field fields valueField) eqn:E1; [|done].
    destruct (get_field fields sourceField) eqn:E2; [|done].
    intros [= <-]. rewrite E1, E2. eauto.
  - intros (-> & [x Hx] & [y Hy]). unfold mark. rewrite decide_False by (simpl; lia).
    change (get_field [(Field, VStruct m)] Field) with (Some (VStruct m)). cbn iota beta.
    by rewrite Hx, Hy.
Qed.

Lemma mark_value_sub v m : mark v = Some m → subvalue (field_or m valueField) v.
Proof.
  intros (-> & [x Hx] & _)%mark_Some. eapply sub_field; [by left|].
  eapply sub_field; [by eapply field_or_elem|]. apply sub_refl.
Qed.

Lemma mark_value_size v m : mark v = Some m → (vsize (field_or m valueField) < vsize v)%nat.
Proof.
  intros (-> & [x Hx] & _)%mark_Some. apply field_or_elem in Hx.
  pose proof (vsize_field _ _ _ Hx).
  pose proof (vsize_field [(Field, VStruct m)] Field (VStruct m) ltac:(by left)). lia.
Qed.

(** ** Enough fuel: the recursions compute the equations of the code *)

Lemma walk_fuel v : ∀ n k, (vsize v ≤ n)%nat → (vsize v ≤ k)%nat → walk n v = walk k v.
Proof.
  induction v as [v IH] using value_size_ind. intros n k Hn Hk.
  pose proof (vsize_pos v). destruct n as [|n], k as [|k]; [lia..|]. cbn [walk].
  destruct (mark v) as [m|] eqn:Em.
  { apply mark_value_size in Em. f_equal. apply IH; lia. }
  destruct v as [| | | | |fs|vs]; try done; rewrite !flat_map_concat_map; f_equal;
    apply map_ext_in; intros x Hx%list_elem_of_In.
  - destruct x as [a w]. pose proof (vsize_field _ _ _ Hx). apply IH; cbn [snd]; lia.
  - pose proof (vsize_item _ _ Hx). apply IH; lia.
Qed.

Lemma marks_eq v :
  marks v = match mark v with
            | Some m => GetStringValue (field_or m sourceField) :: marks (field_or m valueField)
            | None => match v with
                      | VStruct fs => flat_map (λ p, marks p.2) fs
                      | VList vs => flat_map marks vs
                      | _ => []
                      end
            end.
Proof.
  unfold marks at 1. pose proof (vsize_pos v). destruct (vsize v) as [|n] eqn:En; [lia|].
  cbn [walk]. destruct (mark v) as [m|] eqn:Em.
  { apply mark_value_size in Em. f_equal. apply walk_fuel; lia. }
  destruct v as [| | | | |fs|vs]; try done; rewrite !flat_map_concat_map; f_equal;
    apply map_ext_in; intros x Hx%list_elem_of_In; apply walk_fuel; try lia.
  - destruct x as [a w]. pose proof (vsize_field _ _ _ Hx). cbn [snd] in *. lia.
  - pose proof (vsize_item _ _ Hx). lia.
Qed.

Lemma untaint_fuel v : ∀ n k, (vsize v ≤ n)%nat → (vsize v ≤ k)%nat → untaint n v = untaint k v.
Proof.
  induction v as [v IH] using value_size_ind. intros n k Hn Hk.
  pose proof (vsize_pos v). destruct n as [|n], k as [|k]; [lia..|]. cbn [untaint].
  destruct (mark v) as [m|] eqn:Em.
  { apply mark_value_size in Em. apply IH; lia. }
  destruct v as [| | | | |fs|vs]; try done; f_equal; apply map_ext_in; intros x Hx%list_elem_of_In.
  - destruct x as [a w]. pose proof (vsize_field _ _ _ Hx). f_equal. apply IH; cbn [snd]; lia.
  - pose proof (vsize_item _ _ Hx). apply IH; lia.
Qed.

Lemma untainted_eq v :
  untainted v = match mark v with
                | Some m => untainted (field_or m valueField)
                | None => match v with
                          | VStruct fs => VStruct (map (λ p, (p.1, untainted p.2)) fs)
                          | VList vs => VList (map untainted vs)
                          | _ => v
                          end
                end.
Proof.
  unfold untainted at 1. pose proof (vsize_pos v). destruct (vsize v) as [|n] eqn:En; [lia|].
  cbn [untaint]. destruct (mark v) as [m|] eqn:Em.
  { apply mark_value_size in Em. apply untaint_fuel; lia. }
  destruct v as [| | | | |fs|vs]; try done; f_equal; apply map_ext_in; intros x Hx%list_elem_of_In.
  - destruct x as [a w]. f_equal. apply untaint_fuel; [|done].
    pose proof (vsize_field _ _ _ Hx). cbn [snd] in *. lia.
  - apply untaint_fuel; [|done]. pose proof (vsize_item _ _ Hx). lia.
Qed.

Lemma untainted_wrapper source v : untainted (wrapper source v) = untainted v.
Proof. rewrite (untainted_eq (wrapper source v)). reflexivity. Qed.

Lemma untainted_fields fs :
  mark (VStruct fs) = None → untainted (VStruct fs) = VStruct (map (λ p, (p.1, untainted p.2)) fs).
Proof. intros E. by rewrite untainted_eq, E. Qed.

(** ** Marks at any depth *)

Lemma IsTainted_marks v : IsTainted v = true ↔ marks v ≠ [].
Proof. unfold IsTainted. by destruct (marks v). Qed.

Lemma IsTainted_false v : IsTainted v = false ↔ marks v = [].
Proof. unfold IsTainted. by destruct (marks v). Qed.

Lemma flat_map_nil {A B} (f : A → list B) l : flat_map f l = [] ↔ ∀ x, x ∈ l → f x = [].
Proof.
  induction l as [|x l IH]; simpl.
  { split; [|done]. by intros _ x Hx%elem_of_nil. }
  split.
  - intros [Hx Hl]%app_eq_nil y [->|Hy]%elem_of_cons; [done|]. by apply IH.
  - intros Hall. rewrite Hall by (by left). apply IH. intros. apply Hall. by right.
Qed.

Lemma mark_tainted v m : mark v = Some m → IsTainted v = true.
Proof. intros E. apply IsTainted_marks. by rewrite marks_eq, E. Qed.

Lemma subvalue_tainted u v : subvalue u v → IsTainted u = true → IsTainted v = true.
Proof.
  rewrite !IsTainted_marks. induction 1 as [|fs n w Hin Hs IH|vs w Hin Hs IH]; [done|..];
    intros Hu; specialize (IH Hu); rewrite marks_eq.
  - destruct (mark _); [done|]. rewrite flat_map_nil. intros Hall. by apply IH, (Hall (n, w)).
  - simpl. rewrite flat_map_nil. intros Hall. by apply IH, Hall.
Qed.

Lemma tainted_has_mark v : IsTainted v = true → ∃ u, subvalue u v ∧ is_Some (mark u).
Proof.
  induction v as [v IH] using value_size_ind. rewrite IsTainted_marks, marks_eq.
  destruct (mark v) as [m|] eqn:Em.
  { intros _. exists v. split; [apply sub_refl|by rewrite Em]. }
  destruct v as [| | | | |fs|vs]; try done.
  - intros Hne. destruct (decide (Exists (λ p, IsTainted p.2 = true) fs)) as [He|Hn].
    + apply Exists_exists in He as ([n w] & Hin & Ht).
      destruct (IH w (vsize_field _ _ _ Hin) Ht) as (u & Hu & Hm).
      exists u. split; [by eapply sub_field|done].
    + destruct Hne. apply flat_map_nil. intros [n w] Hin. apply IsTainted_false.
      apply not_true_is_false. intros Ht. apply Hn, Exists_exists. eauto.
  - intros Hne. destruct (decide (Exists (λ w, IsTainted w = true) vs)) as [He|Hn].
    + apply Exists_exists in He as (w & Hin & Ht).
      destruct (IH w (vsize_item _ _ Hin) Ht) as (u & Hu & Hm).
      exists u. split; [by eapply sub_item|done].
    + destruct Hne. apply flat_map_nil. intros w Hin. apply IsTainted_false.
      apply not_true_is_false. intros Ht. apply Hn, Exists_exists. eauto.
Qed.

Lemma mark_wrapper s v : mark (wrapper s v) = Some [(sourceField, VString s); (valueField, v)].
Proof. done. Qed.

(** ** Clearing *)

(** A struct whose only field is [Field] over a value that is itself a mark. *)
Definition stutter (u : Value) : Prop :=
  ∃ w m, u = VStruct [(Field, w)] ∧ mark w = Some m.

Lemma untainted_struct v fs :
  mark v = None → untainted v = VStruct fs →
  ∃ gs, v = VStruct gs ∧ fs = map (λ p, (p.1, untainted p.2)) gs.
Proof.
  intros Hm. rewrite untainted_eq, Hm. destruct v; intros E; try done. injection E as <-. eauto.
Qed.

Lemma map_snd_keys (f : Value → Value) (gs : list (string * Value)) :
  (map (λ p, (p.1, f p.2)) gs).*1 = gs.*1.
Proof. induction gs as [|g gs IH]; [done|]. cbn. f_equal. exact IH. Qed.

(** Without a stutter, clearing a value that is not a mark makes no mark. *)
Lemma untainted_no_mark v :
  ¬ stutter v → mark v = None → mark (untainted v) = None.
Proof.
  intros Hns Hm. destruct (mark (untainted v)) as [m|] eqn:E; [|done]. exfalso.
  apply mark_Some in E as (E & Hval & Hsrc).
  apply untainted_struct in E as (gs & -> & E); [|done].
  destruct gs as [|[n w] []]; try done. simpl in E. injection E as <- Ew.
  destruct (mark w) as [mw|] eqn:Emw; [apply Hns; by exists w, mw|].
  symmetry in Ew. apply untainted_struct in Ew as (hs & -> & ->); [|done].
  erewrite get_field_keys in Hval, Hsrc by apply map_snd_keys.
  assert (mark (VStruct [(Field, VStruct hs)]) = Some hs) by (by apply mark_Some).
  congruence.
Qed.

Lemma untainted_clears v :
  (∀ u, subvalue u v → ¬ stutter u) → IsTainted (untainted v) = false.
Proof.
  induction v as [v IH] using value_size_ind. intros Hns.
  destruct (mark v) as [m|] eqn:Em.
  { rewrite untainted_eq, Em. apply IH; [by apply mark_value_size|].
    intros u Hu. apply Hns. eapply subvalue_trans; [done|]. by apply mark_value_sub. }
  apply IsTainted_false. rewrite marks_eq.
  rewrite untainted_no_mark by (try done; apply Hns, sub_refl).
  rewrite untainted_eq, Em. destruct v as [| | | | |fs|vs]; try done.
  - apply flat_map_nil. intros p Hp. apply list_elem_of_fmap in Hp as ([n w] & -> & Hin).
    apply IsTainted_false, IH; [by eapply vsize_field|].
    intros u Hu. apply Hns. by eapply sub_field.
  - apply flat_map_nil. intros p Hp. apply list_elem_of_fmap in Hp as (w & -> & Hin).
    apply IsTainted_false, IH; [by apply vsize_item|].
    intros u Hu. apply Hns. by eapply sub_item.
Qed.

(** The same, as a check a program can run. *)
Definition stutters (u : Value) : bool :=
  match u with
  | VStruct [(n, w)] => bool_decide (n = Field) && bool_decide (is_Some (mark w))
  | _ => false
  end.

Fixpoint stutter_free (v : Value) : bool :=
  negb (stutters v) &&
  match v with
  | VStruct fs => forallb (λ p, stutter_free p.2) fs
  | VList vs => forallb stutter_free vs
  | _ => true
  end.

Lemma stutters_spec u : stutter u → stutters u = true.
Proof.
  intros (w & m & -> & Hm). unfold stutters.
  rewrite andb_true_iff, !bool_decide_eq_true, Hm. eauto.
Qed.

Lemma forallb_elem {A} (f : A → bool) l x : forallb f l = true → x ∈ l → f x = true.
Proof. rewrite forallb_forall. intros Hall Hx. by apply Hall, list_elem_of_In. Qed.

Lemma stutter_free_sub u v : subvalue u v → stutter_free v = true → ¬ stutter u.
Proof.
  induction 1 as [|fs n w Hin Hs IH|vs w Hin Hs IH]; intros Hf Hst.
  - apply stutters_spec in Hst. destruct u; cbn [stutter_free] in Hf; by rewrite Hst in Hf.
  - cbn [stutter_free] in Hf. apply andb_true_iff in Hf as [_ Hf].
    apply IH; [|done]. by apply (forallb_elem _ _ _ Hf) in Hin.
  - cbn [stutter_free] in Hf. apply andb_true_iff in Hf as [_ Hf].
    apply IH; [|done]. by apply (forallb_elem _ _ _ Hf) in Hin.
Qed.

(** Clearing changes nothing of a clean value. *)
Lemma untainted_clean v : IsTainted v = false → untainted v = v.
Proof.
  induction v as [v IH] using value_size_ind. rewrite IsTainted_false, marks_eq, untainted_eq.
  destruct (mark v) as [m|]; [done|]. destruct v as [| | | | |fs|vs]; try done;
    rewrite flat_map_nil; intros Hall; f_equal.
  - rewrite <-(map_id fs) at 2. apply map_ext_in; intros x Hx%list_elem_of_In.
    destruct x as [n w]. f_equal. apply IH; [by eapply vsize_field|].
    apply IsTainted_false, (Hall (n, w) Hx).
  - rewrite <-(map_id vs) at 2. apply map_ext_in; intros x Hx%list_elem_of_In.
    apply IH; [by apply vsize_item|]. by apply IsTainted_false, Hall.
Qed.

(** ** The gate *)

Definition clearable (g : Gate) (s : Sanitisation) (name : string) : Prop :=
  name ∈ g_Fields g ∧ ∃ v, s_Inputs s !! name = Some v ∧ IsTainted v = true.

Definition cleared_input (s : Sanitisation) (names : list string) (n : string) : option Value :=
  if decide (n ∈ names) then untainted <$> s_Inputs s !! n else s_Inputs s !! n.

Definition named_sources (s : Sanitisation) (names : list string) : list string :=
  flat_map (λ n, from_option Sources [] (s_Inputs s !! n)) names.

Lemma clear_loop g s names cleared sources :
  fold_result (clear_field g s) (s_Inputs s, []) names = Ok (cleared, sources) →
  (∀ n, n ∈ names → clearable g s n) ∧ (∀ n, cleared !! n = cleared_input s names n)
  ∧ sources = named_sources s names.
Proof.
  intros Hf. eapply (fold_result_inv (λ pre c, (∀ n, n ∈ pre → clearable g s n) ∧
    (∀ n, c.1 !! n = cleared_input s pre n) ∧ c.2 = named_sources s pre)) in Hf; [done| |].
  - simpl. split_and!; [by intros n ?%elem_of_nil|done|done].
  - clear Hf. intros pre x [c l] c' (H1 & H2 & H3). simpl in *. unfold clear_field.
    case_decide as Hd; [done|]. destruct (s_Inputs s !! x) as [v|] eqn:Ex; [|done].
    destruct (IsTainted v) eqn:Et; [|done]. intros [= <-]. simpl. split_and!.
    + intros n [Hn|Hn]%elem_of_app; [by apply H1|]. apply list_elem_of_singleton in Hn as ->.
      split; [done|]. eauto.
    + intros n. unfold cleared_input in *. destruct (decide (n = x)) as [->|Hne].
      * rewrite lookup_insert_eq, decide_True, Ex by (apply elem_of_app; right; by left). done.
      * rewrite lookup_insert_ne, H2 by done. destruct (decide (n ∈ pre)) as [Hp|Hp].
        -- rewrite decide_True by (apply elem_of_app; by left). done.
        -- rewrite decide_False; [done|]. intros [?|E]%elem_of_app; [done|].
           apply list_elem_of_singleton in E. done.
    + rewrite H3. unfold named_sources. rewrite flat_map_app. simpl. by rewrite Ex, app_nil_r.
Qed.

Lemma cleared_input_perm s l1 l2 n : l1 ≡ₚ l2 → cleared_input s l1 n = cleared_input s l2 n.
Proof.
  intros E. unfold cleared_input. destruct (decide (n ∈ l1)) as [H|H]; rewrite E in H;
    [by rewrite decide_True|by rewrite decide_False].
Qed.

(** ** Marks on references *)

Section RefFacts.
Context `{ProtowireLaws}.

Lemma ref_loop_fuel n k rest :
  (String.length rest ≤ n)%nat → (String.length rest ≤ k)%nat → ref_loop n rest = ref_loop k rest.
Proof.
  revert k rest. induction n as [|n IH]; intros k rest Hn Hk.
  - destruct rest; [|simpl in Hn; lia]. by destruct k.
  - destruct k as [|k]; [destruct rest; [done|simpl in Hk; lia]|]. cbn [ref_loop].
    case_decide; [done|]. destruct (ConsumeTag rest) as [[[num t] r]|] eqn:Et; [|done].
    apply tag_prefix in Et as [Hlt _]. case_decide.
    + destruct (ConsumeString r) as [[s r']|] eqn:Es; [|done].
      apply string_prefix in Es as [Hle _]. rewrite (IH k r') by lia. done.
    + destruct (ConsumeFieldValue num t r) as [r'|] eqn:Ev; [|done].
      apply value_prefix in Ev as [Hle _]. apply IH; lia.
Qed.

Definition parse (u : string) : list string * bool := ref_loop (String.length u) u.

(** Unknown fields a protobuf reader would have accepted. *)
Definition wf_unknown (o : OutputRef) : Prop := (parse (out_unknown o)).2 = true.

Lemma ref_loop_app n k u x l :
  (String.length u ≤ n)%nat → (String.length (u +:+ x) ≤ k)%nat →
  ref_loop n u = (l, true) → ref_loop k (u +:+ x) = (l ++ (parse x).1, (parse x).2).
Proof.
  revert k u l. induction n as [|n IH]; intros k u l Hn Hk.
  - destruct u; [|simpl in Hn; lia]. destruct l; [|done]. intros _. change ("" +:+ x) with x in *.
    unfold parse. rewrite (ref_loop_fuel k (String.length x)) by done. by destruct (ref_loop _ x).
  - cbn [ref_loop]. case_decide as Hu.
    { intros [= <-]. subst u. change ("" +:+ x) with x in *.
      unfold parse. rewrite (ref_loop_fuel k (String.length x)) by done. by destruct (ref_loop _ x). }
    destruct (ConsumeTag u) as [[[num t] r]|] eqn:Et; [|done].
    apply tag_prefix in Et as [Hlt Htx]. rewrite string_app_length in Hk.
    destruct k as [|k]; [destruct u; [done|simpl in Hk; lia]|]. cbn [ref_loop].
    rewrite (decide_False (P := u +:+ x = "")) by (intros Eu; destruct u; [by apply Hu|discriminate Eu]). rewrite Htx. case_decide.
    + destruct (ConsumeString r) as [[s r']|] eqn:Es; [|done].
      apply string_prefix in Es as [Hle Hsx]. rewrite Hsx.
      destruct (ref_loop n r') as [l' b] eqn:El. intros [= <- ->].
      rewrite (IH k r' l'); [done|lia|rewrite string_app_length; lia|done].
    + destruct (ConsumeFieldValue num t r) as [r'|] eqn:Ev; [|done].
      apply value_prefix in Ev as [Hle Hvx]. rewrite Hvx. intros Hr.
      apply IH; [lia|rewrite string_app_length; lia|done].
Qed.

Lemma parse_mark s : parse (AppendTag refTaintField BytesType +:+ AppendString s) = ([s], true).
Proof.
  unfold parse. set (raw := AppendTag _ _ +:+ AppendString s).
  pose proof (tag_written (AppendString s)) as Ht. fold raw in Ht.
  destruct (tag_prefix _ _ _ _ Ht) as [Hlt _].
  destruct (String.length raw) as [|n] eqn:En; [lia|]. cbn [ref_loop].
  rewrite decide_False by (intros E; by rewrite E in En). rewrite Ht, decide_True by done.
  pose proof (string_written s "") as Hs. rewrite string_app_nil_r in Hs. rewrite Hs.
  by destruct n.
Qed.

Lemma MarkRef_spec o s :
  wf_unknown o →
  RefSources (MarkRef o s) = add_source (RefSources o) s ∧ wf_unknown (MarkRef o s).
Proof.
  unfold wf_unknown, MarkRef, add_source. intros Hwf. case_decide; [done|].
  unfold RefSources at 1. fold (parse (out_unknown (set_unknown o
    (out_unknown o +:+ AppendTag refTaintField BytesType +:+ AppendString s)))).
  cbn [out_unknown set_unknown]. destruct (parse (out_unknown o)) as [l b] eqn:El.
  simpl in Hwf. subst b. unfold parse in El |- *.
  rewrite (ref_loop_app _ _ _ _ _ (le_n _) (le_n _) El), parse_mark. simpl.
  split; [|done]. unfold RefSources. by rewrite El.
Qed.

Lemma MarkRef_all_spec sources o :
  wf_unknown o →
  RefSources (fold_left MarkRef sources o) = fold_left add_source sources (RefSources o)
  ∧ wf_unknown (fold_left MarkRef sources o).
Proof.
  revert o. induction sources as [|s sources IH]; intros o Hwf; [done|]. simpl.
  destruct (MarkRef_spec o s Hwf) as [Es Hw]. destruct (IH _ Hw) as [-> Hw'].
  by rewrite Es.
Qed.

End RefFacts.

Lemma add_source_elem seen s x : x ∈ add_source seen s ↔ x ∈ seen ∨ x = s.
Proof.
  unfold add_source. case_decide as Hd.
  - split; [by left|]. by intros [? | ->].
  - by rewrite elem_of_app, list_elem_of_singleton.
Qed.

Lemma add_sources_elem l seen x : x ∈ fold_left add_source l seen ↔ x ∈ seen ∨ x ∈ l.
Proof.
  revert seen. induction l as [|s l IH]; intros seen; simpl.
  - split; [by left|]. by intros [|?%elem_of_nil].
  - rewrite IH, add_source_elem, elem_of_cons. tauto.
Qed.

Lemma add_sources_prefix l seen : seen `prefix_of` fold_left add_source l seen.
Proof.
  revert seen. induction l as [|s l IH]; intros seen; simpl; [done|].
  etrans; [|apply IH]. unfold add_source. case_decide; [done|]. by apply prefix_app_r.
Qed.

Lemma input_sources_elem `{Protowire} ins x :
  x ∈ input_sources ins ↔ ∃ i, i ∈ ins ∧ x ∈ RefSources i.
Proof.
  unfold input_sources. rewrite add_sources_elem, elem_of_flat_map.
  split; [intros [?%elem_of_nil|?]; done|by right].
Qed.

(** ** The taint rules *)

Lemma sorted_elem l x : x ∈ sorted l ↔ x ∈ l.
Proof.
  unfold sorted. rewrite elem_of_sort_strings, elem_of_elements, elem_of_list_to_set. done.
Qed.

Lemma taint_in : rule_privileged_engine ∈ taint_exprs ∧ rule_effectful_step ∈ taint_exprs.
Proof. split; repeat (apply list_elem_of_here || apply list_elem_of_further). Qed.

Lemma taint_denotes i :
  denote rule_privileged_engine (inputMap i)
    = Some (negb (i_Tainted i)
            || bool_decide ("PRIVILEGED" ∉ map shortCapability (i_EngineCapabilities i)))
  ∧ denote rule_effectful_step (inputMap i)
    = Some (negb (i_Tainted i) || bool_decide (shortClass (i_EffectClass i) = "PURE")).
Proof. done. Qed.

(** What untrusted data may be given to. *)
Definition may_read_tainted (i : Input) : Prop :=
  i_EffectClass i = EFFECT_CLASS_PURE ∧ CAPABILITY_PRIVILEGED ∉ i_EngineCapabilities i.

Lemma builtin_rules_permit `{Cel, !CelComputes taint_exprs} i :
  Forall (rule_permits i) (tp_Rules BuiltinPolicy) ↔ (i_Tainted i = true → may_read_tainted i).
Proof.
  unfold BuiltinPolicy, may_read_tainted. cbn [tp_Rules]. rewrite !Forall_cons, Forall_nil.
  destruct (taint_denotes i) as (E1 & E2), taint_in as (I1 & I2).
  rewrite (rule_permits_expr taint_exprs i _ rule_privileged_engine _ _ I1 E1) by done.
  rewrite (rule_permits_expr taint_exprs i _ rule_effectful_step _ _ I2 E2) by done.
  rewrite <-privileged_listed, <-shortClass_PURE, !orb_true_iff, !bool_decide_eq_true.
  destruct (i_Tainted i); simpl; intuition done.
Qed.

Lemma defaulting_None_permits `{Cel, !CelComputes taint_exprs} i :
  policy_permits (defaultingSource None) i ↔ (i_Tainted i = true → may_read_tainted i).
Proof.
  rewrite <-builtin_rules_permit. unfold policy_permits, defaultingSource. split.
  - intros (p & [= <-] & _ & Hp). done.
  - intros Hp. by exists BuiltinPolicy.
Qed.

Lemma defaulting_None_consistent : revision_names_rules (defaultingSource None).
Proof. intros t1 t2 tier p1 p2. unfold defaultingSource. congruence. Qed.

(** A dispatch is tainted when any input or any upstream output is. *)
Definition dispatch_tainted `{Protowire} (d : Dispatch) : Prop :=
  (∃ n v, di_Inputs d !! n = Some v ∧ IsTainted v = true)
  ∨ (∃ ref, ref ∈ di_InputRefs d ∧ RefTainted ref = true).

Lemma Sources_nonempty v : (∃ s, s ∈ Sources v) ↔ IsTainted v = true.
Proof.
  rewrite IsTainted_marks. unfold Sources. setoid_rewrite sorted_elem.
  destruct (marks v) as [|s l]; split; try done.
  - intros [s Hs%elem_of_nil]. done.
  - intros _. exists s. by left.
Qed.

Lemma RefTainted_elem `{Protowire} ref : RefTainted ref = true ↔ ∃ s, s ∈ RefSources ref.
Proof.
  unfold RefTainted. rewrite bool_decide_eq_true.
  destruct (RefSources ref) as [|s l]; simpl; split; try lia.
  - intros [s Hs%elem_of_nil]. done.
  - intros _. exists s. by left.
Qed.

Lemma check_input_tainted `{Protowire} d : i_Tainted (check_input d) = true ↔ dispatch_tainted d.
Proof.
  cbn [check_input i_Tainted]. rewrite bool_decide_eq_true.
  assert (Hlen : (0 < length (dispatch_sources d))%nat ↔ ∃ s, s ∈ dispatch_sources d).
  { destruct (dispatch_sources d) as [|s l]; simpl; split; try lia.
    - intros [s Hs%elem_of_nil]. done.
    - intros _. exists s. by left. }
  rewrite Hlen. unfold dispatch_sources, dispatch_tainted. setoid_rewrite sorted_elem.
  setoid_rewrite elem_of_app. setoid_rewrite elem_of_flat_map. setoid_rewrite RefTainted_elem.
  setoid_rewrite <-Sources_nonempty. split.
  - intros (s & [([n v] & Hin%elem_of_map_to_list & Hs)|(r & Hin & Hs)]); [left|right]; eauto 6.
  - intros [(n & v & Hin & s & Hs)|(r & Hin & s & Hs)]; exists s; [left|right]; [|by eauto].
    exists (n, v). split; [by apply elem_of_map_to_list|done].
Qed.

(** A wire format with one field, for the worked examples: a tag is [T], a
    string is its bytes each after a [1], ended by a [0]. *)
Fixpoint toy_string (s : string) : string :=
  match s with
  | EmptyString => "0"
  | String c r => String "1"%char (String c (toy_string r))
  end.

Fixpoint toy_read (b : string) : option (string * string) :=
  match b with
  | String k r =>
      if Ascii.eqb k "0"%char then Some ("", r)
      else if Ascii.eqb k "1"%char then
        match r with
        | String c r => match toy_read r with Some (s, t) => Some (String c s, t) | None => None end
        | EmptyString => None
        end
      else None
  | EmptyString => None
  end.

Definition toy_wire : Protowire :=
  {| AppendTag _ _ := "T"; AppendString := toy_string;
     ConsumeTag b := match b with
                     | String k r => if Ascii.eqb k "T"%char then Some (refTaintField, BytesType, r) else None
                     | EmptyString => None
                     end;
     ConsumeString := toy_read; ConsumeFieldValue _ _ _ := None |}.

Lemma toy_read_written s x : toy_read (toy_string s +:+ x) = Some (s, x).
Proof. induction s as [|c s IH]; simpl; [done|]. by rewrite IH. Qed.

Lemma toy_read_prefix b : ∀ s r, toy_read b = Some (s, r) →
  (String.length r ≤ String.length b)%nat ∧ ∀ x, toy_read (b +:+ x) = Some (s, r +:+ x).
Proof.
  assert (Hn : ∀ n b, (String.length b ≤ n)%nat → ∀ s r, toy_read b = Some (s, r) →
    (String.length r ≤ String.length b)%nat ∧ ∀ x, toy_read (b +:+ x) = Some (s, r +:+ x)).
  { induction n as [|n IH]; intros [|k t] Hlen s r; simpl in *; try done; [lia|].
    destruct (Ascii.eqb k "0"%char); [intros [= <- <-]; split; [lia|done]|].
    destruct (Ascii.eqb k "1"%char); [|done]. destruct t as [|c t]; [done|]. simpl in *.
    destruct (toy_read t) as [[s' t']|] eqn:E; [|done]. intros [= <- <-].
    destruct (IH t ltac:(lia) s' t' E) as [Hl Hx]. split; [lia|]. intros x. by rewrite Hx. }
  by apply (Hn (String.length b)).
Qed.

Lemma toy_wire_laws : ProtowireLaws (H := toy_wire).
Proof.
  split; simpl.
  - done.
  - apply toy_read_written.
  - intros [|k b] n t r; [done|]. destruct (Ascii.eqb k "T"%char) eqn:E; [|done].
    intros [= <- <- <-]. split; [simpl; lia|]. intros x. simpl. by rewrite E.
  - intros b s r. apply toy_read_prefix.
  - done.
Qed.

(** ** Properties *)

(** Untrusted data is marked and cannot lose its mark by being wrapped:
    a value [Mark] returns is tainted, marking it again changes nothing, and a
    value is reported tainted exactly when some value inside it, at any depth
    of structs and lists, carries a mark. *)
Theorem taint_found_at_any_depth (v : Value) (o : option Value) (source source' : string) :
  IsTainted (Mark o source) = true
  ∧ Mark (Some (Mark o source)) source' = Mark o source
  ∧ (IsTainted v = true ↔ ∃ u, subvalue u v ∧ is_Some (mark u)).
Proof.
  assert (Hm : is_Some (mark (Mark o source))).
  { unfold Mark. destruct (mark (default VNull o)) as [m|] eqn:E; [by rewrite E|].
    rewrite mark_wrapper. by eexists. }
  destruct Hm as [m Hm]. split_and!.
  - by eapply mark_tainted.
  - change (Mark (Some (Mark o source)) source') with
      (match mark (Mark o source) with
       | Some _ => Mark o source
       | None => wrapper source' (Mark o source)
       end). by rewrite Hm.
  - split; [apply tainted_has_mark|]. intros (u & Hu & m' & Hm').
    eapply subvalue_tainted; [done|]. by eapply mark_tainted.
Qed.

(** Clearing a value removes every mark inside it, provided no struct
    inside has [$dhole.taint] for its only field over a value that is itself a
    mark; and clearing a clean value changes nothing. *)
Theorem clearing_removes_marks (v : Value) :
  stutter_free v = true →
  IsTainted (untainted v) = false ∧ (IsTainted v = false → untainted v = v).
Proof.
  intros Hns. split; [|apply untainted_clean].
  apply untainted_clears. intros u Hu. by eapply stutter_free_sub.
Qed.

Definition example_payload : Value :=
  VStruct [("ref", VString "main");
           ("commits", VList [wrapper "git:github:pushes" (VString "msg")])].

Lemma clearing_removes_marks_witness :
  IsTainted example_payload = true ∧ IsTainted (untainted example_payload) = false.
Proof.
  split; [by vm_compute|]. apply (clearing_removes_marks example_payload). by vm_compute.
Defined.

(** The proviso is needed: there is a payload an untrusted sender can
    write whose clearance is itself a mark, so the gate hands back a value
    that is still tainted, by a source of the sender's choosing. *)
Theorem clearing_leaves_forged_mark (real forged : string) (x : Value) :
  let body := VStruct [(Field, wrapper "any" (VStruct [(sourceField, VString forged); (valueField, x)]))] in
  IsTainted (Mark (Some body) real) = true
  ∧ SourceOf (untainted (Mark (Some body) real)) = forged
  ∧ IsTainted (untainted (Mark (Some body) real)) = true.
Proof.
  cbn zeta. set (inner := VStruct [(sourceField, VString forged); (valueField, x)]).
  set (body := VStruct [(Field, wrapper "any" inner)]).
  assert (Em : Mark (Some body) real = wrapper real body) by done.
  assert (Eu : untainted (wrapper real body) = VStruct [(Field, untainted inner)]).
  { unfold body. rewrite untainted_wrapper, untainted_fields by done. cbn [map fst snd].
    by rewrite untainted_wrapper. }
  assert (Ei : untainted inner = VStruct [(sourceField, VString forged); (valueField, untainted x)]).
  { unfold inner. by rewrite untainted_fields. }
  rewrite Em, Eu, Ei. split_and!; [by eapply mark_tainted|done|by eapply mark_tainted].
Qed.

(** The gate clears exactly what it names: a successful call was made by
    a named principal over at least one field, each of them declared, supplied
    and tainted; it returns the inputs with exactly those fields cleared, and
    has appended to the run log the record of who cleared which fields and
    every source that was in them. Any other outcome but a failed append
    leaves the log as it was. *)
Theorem sanitise_exact {Log : Type} (append : SanEvent → prog Log string unit)
    (json_Marshal : SanRecord → option string) (g : Gate) (logged : bool) (s : Sanitisation)
    (log : Log) :
  match Sanitise append json_Marshal g logged s log with
  | (log', Ok (cleared, record)) =>
      s_TenantID s ≠ "" ∧ s_RunID s ≠ "" ∧ s_Principal s ≠ "" ∧ s_Fields s ≠ []
      ∧ (∀ n, n ∈ s_Fields s → clearable g s n)
      ∧ (∀ n, cleared !! n = cleared_input s (s_Fields s) n)
      ∧ record = mkSanRecord (g_StepID g) (s_Principal s) (sort_strings (s_Fields s))
                   (sorted (named_sources s (sort_strings (s_Fields s))))
      ∧ ∃ payload, json_Marshal record = Some payload ∧
          append (mkSanEvent (s_TenantID s) (s_RunID s) (g_StepID g) EventSanitised payload) log
            = (log', Ok tt)
  | (log', Err e) => log' = log ∨ ∃ e', e = AppendFailed e'
  end.
Proof.
  unfold Sanitise. destruct logged; simpl; [|by left].
  repeat (case_decide; [by left|]).
  destruct (fold_result _ _ _) as [[cleared sources]|e] eqn:Ef; [|by left].
  apply clear_loop in Ef as (H1' & H2' & ->).
  destruct (json_Marshal _) as [payload|] eqn:Ej; [|by left].
  destruct (append _ log) as [log' [[]|e]] eqn:Ea; [|right; eauto].
  split_and!; try done.
  - by intros E; rewrite E in *.
  - intros n Hn. apply H1'. by apply elem_of_sort_strings.
  - intros n. rewrite H2'. apply cleared_input_perm, sort_strings_perm.
  - eauto.
Qed.

(** Marks on references only accumulate: [Propagate] leaves every output
    otherwise as it was, keeps the sources it already carried, and adds every
    source any input carries, so one tainted input taints every output. *)
Theorem propagate_conservative `{ProtowireLaws} (ins outs : list OutputRef) :
  Forall wf_unknown outs →
  Forall2 (λ o o',
    (out_port o', out_digest o', out_key o', out_size o') = (out_port o, out_digest o, out_key o, out_size o)
    ∧ RefSources o `prefix_of` RefSources o'
    ∧ ∀ s, s ∈ RefSources o' ↔ s ∈ RefSources o ∨ ∃ i, i ∈ ins ∧ s ∈ RefSources i)
    outs (Propagate ins outs).
Proof.
  intros Hwf. unfold Propagate. case_decide as Hl.
  - apply Forall_Forall2_diag, Forall_true. intros o. split_and!; [done..|].
    intros s. rewrite <-input_sources_elem. destruct (input_sources ins); [|done].
    rewrite elem_of_nil. tauto.
  - apply Forall2_fmap_r, Forall_Forall2_diag. eapply Forall_impl; [exact Hwf|].
    intros o Ho. destruct (MarkRef_all_spec (input_sources ins) o Ho) as [E _]. split_and!.
    + clear. revert o. induction (input_sources ins) as [|s l IH]; intros o; [done|]. simpl.
      rewrite IH. unfold MarkRef. by case_decide.
    + rewrite E. apply add_sources_prefix.
    + intros s. by rewrite E, add_sources_elem, input_sources_elem.
Qed.

Definition example_ref (port unknown : string) : OutputRef :=
  mkOutputRef port (mkDigest "sha256" "aa") "k" 1 unknown.

Lemma propagate_conservative_witness :
  let wire := toy_wire in
  let ins := [example_ref "config" ""; MarkRef (example_ref "body" "") "git:hook"] in
  Forall2 (λ o o', (out_port o', out_digest o', out_key o', out_size o')
                     = (out_port o, out_digest o, out_key o, out_size o)
    ∧ RefSources o `prefix_of` RefSources o'
    ∧ ∀ s, s ∈ RefSources o' ↔ s ∈ RefSources o ∨ ∃ i, i ∈ ins ∧ s ∈ RefSources i)
    [example_ref "bin" ""] (Propagate ins [example_ref "bin" ""])
  ∧ map RefSources (Propagate ins [example_ref "bin" ""]) = [["git:hook"]].
Proof.
  intros wire ins. split; [|by vm_compute].
  apply (@propagate_conservative toy_wire toy_wire_laws ins [example_ref "bin" ""]).
  apply Forall_singleton. by vm_compute.
Defined.

(** With no taint policy configured, the check allows a dispatch exactly
    when it is clean, or the step is PURE and the engine does not advertise
    PRIVILEGED: data that is tainted anywhere in a structured input or on an
    upstream output never reaches an effectful step or a privileged engine. *)
Theorem tainted_dispatch_refused `{Protowire, Cel, !CelComputes taint_exprs}
    (aud : Auditor) (d : Dispatch) (st : EngineState) :
  auditor_total aud → di_TenantID d ≠ "" → cache_ok (defaultingSource None) (e_cache st) →
  dec_Allow (Check_ None aud d st).2.1 = true ↔
  (dispatch_tainted d →
   di_EffectClass d = EFFECT_CLASS_PURE ∧ CAPABILITY_PRIVILEGED ∉ di_EngineCapabilities d).
Proof.
  intros Haud Ht Hok. unfold Check_.
  pose proof (Evaluate_spec _ aud (check_input d) st defaulting_None_consistent Hok) as Hs.
  destruct (Evaluate (defaultingSource None) aud (check_input d) st) as [st' [dec err]].
  destruct Hs as (_ & _ & He & Hd). assert (err = None) as -> by (by apply He).
  destruct (Hd eq_refl) as [_ Hiff]. cbn. rewrite Hiff, defaulting_None_permits.
  by rewrite check_input_tainted.
Qed.

Lemma taint_nodup : NoDup (print <$> taint_exprs).
Proof. apply (bool_decide_unpack _). by vm_compute. Qed.

Definition example_dispatch (v : Value) : Dispatch :=
  mkDispatch "acme" "" "deploy" EFFECT_CLASS_IDEMPOTENT [] {["payload" := v]} [] "user" false.

Lemma tainted_dispatch_refused_witness :
  let wire := toy_wire in let cel := toy_cel taint_exprs in
  dec_Allow (Check_ None DiscardAudit (example_dispatch example_payload) (mkEngine ∅ [])).2.1 ≠ true.
Proof.
  intros wire cel Hal.
  destruct (proj1 (@tainted_dispatch_refused wire cel (toy_cel_computes _ taint_nodup) DiscardAudit
    (example_dispatch example_payload) (mkEngine ∅ []) discard_total ltac:(done) (cache_ok_empty _)) Hal)
    as [E _]; [|discriminate E].
  left. exists "payload", example_payload. split; by vm_compute.
Defined.

(** The dispatch floor cannot be configured away: whatever the tier's own
    policy says, a decision evaluated over it allows only if tainted data goes
    to a PURE step on an unprivileged engine, and untrusted-tier work is
    signed, unprivileged and not at-most-once. *)
Theorem dispatch_floor_holds `{Cel, !CelComputes taint_exprs, !CelComputes untrusted_exprs}
    (inner : Source) (aud : Auditor) (i : Input) (st : EngineState) :
  revision_names_rules inner → cache_ok (WithFloor inner DispatchFloor) (e_cache st) →
  dec_Allow (Evaluate (WithFloor inner DispatchFloor) aud i st).2.1 = true →
  policy_permits inner i ∧ (i_Tainted i = true → may_read_tainted i)
  ∧ (i_Tier i = UntrustedTier →
     i_Signed i = true ∧ CAPABILITY_PRIVILEGED ∉ i_EngineCapabilities i
     ∧ i_EffectClass i ≠ EFFECT_CLASS_AT_MOST_ONCE).
Proof.
  intros Hrev Hok.
  pose proof (Evaluate_spec _ aud i st (WithFloor_revisions inner DispatchFloor Hrev) Hok) as Hs.
  destruct (Evaluate (WithFloor inner DispatchFloor) aud i st) as [st' [d err]]. simpl.
  destruct Hs as (_ & Ha & _ & Hd). intros Hal. destruct (Hd (Ha Hal)) as [_ Hiff].
  apply Hiff, WithFloor_permits in Hal as [Hin Hf]. unfold DispatchFloor in Hf. cbn [tp_Rules] in Hf.
  apply Forall_app in Hf as [Hf1 Hf2]. split_and!; [done|by apply builtin_rules_permit|].
  by apply untrusted_rules_permit.
Qed.

Definition floor_exprs : list Expr := tier_signed :: taint_exprs ++ untrusted_exprs.

Lemma CelComputes_subset `{Cel} (l k : list Expr) : l ⊆ k → CelComputes k → CelComputes l.
Proof. intros Hlk Hk e He. by apply Hk, Hlk. Qed.

Lemma floor_exprs_nodup : NoDup (print <$> floor_exprs).
Proof. apply (bool_decide_unpack _). by vm_compute. Qed.

Lemma dispatch_floor_holds_witness :
  let cel := toy_cel floor_exprs in
  dec_Allow (Evaluate (WithFloor release_source DispatchFloor) DiscardAudit
    (example_input "acme" "release" true) (mkEngine ∅ [])).2.1 = true
  ∧ (i_Tainted (example_input "acme" "release" true) = true →
     may_read_tainted (example_input "acme" "release" true)).
Proof.
  intros cel. pose proof (toy_cel_computes _ floor_exprs_nodup) as Hc.
  assert (Hal : dec_Allow (Evaluate (WithFloor release_source DispatchFloor) DiscardAudit
    (example_input "acme" "release" true) (mkEngine ∅ [])).2.1 = true) by (by vm_compute).
  split; [exact Hal|].
  apply (@dispatch_floor_holds cel (CelComputes_subset taint_exprs floor_exprs ltac:(set_solver) Hc)
    (CelComputes_subset untrusted_exprs floor_exprs ltac:(set_solver) Hc) release_source DiscardAudit
    (example_input "acme" "release" true) (mkEngine ∅ []) release_source_consistent
    (cache_ok_empty _) Hal).
Defined.
