(* ===== verification/Program.v ===== *)
(** * Programs that act on the world

    Much of this code is what it does between calls: to a store, a bus, a
    sandbox, the leases. A [cmd] is such a program over the calls [op] of a
    component: a call, and what is done with its answer. Others run while it
    does, so an answer may be anything the call can return; [runs] is every
    way a program can go, and [safe] is the program logic that proves of all
    of them that each call is made only when its guard holds of the calls
    before it. A [go] is a program that may return an error, with Go's early
    return. [Plane] and [Engine] say what the calls are. *)

From S2P Require Import Prelude.

(** ** Errors

    [ErrWrap s e] is [fmt.Errorf] of [s: %w], [ErrNote e s] of [%w] and text
    after it. *)

Inductive GoErr : Type :=
| ErrFenced | ErrAlreadyOffered | ErrNotFound | ErrOfferAbandoned | ErrTenantRequired | ErrOutOfFuel
| ErrMsg (s : string)
| ErrWrap (s : string) (e : GoErr)
| ErrNote (e : GoErr) (s : string)
| ErrJoin (a b : GoErr).

Fixpoint GoErr_eqb (a b : GoErr) : bool :=
  match a, b with
  | ErrFenced, ErrFenced | ErrAlreadyOffered, ErrAlreadyOffered | ErrNotFound, ErrNotFound
  | ErrOfferAbandoned, ErrOfferAbandoned | ErrTenantRequired, ErrTenantRequired
  | ErrOutOfFuel, ErrOutOfFuel => true
  | ErrMsg s, ErrMsg t => bool_decide (s = t)
  | ErrWrap s a, ErrWrap t b | ErrNote a s, ErrNote b t => bool_decide (s = t) && GoErr_eqb a b
  | ErrJoin a1 a2, ErrJoin b1 b2 => GoErr_eqb a1 b1 && GoErr_eqb a2 b2
  | _, _ => false
  end.

(** [errors.Is]. *)
Fixpoint Is (e target : GoErr) : bool :=
  GoErr_eqb e target ||
  match e with
  | ErrWrap _ e | ErrNote e _ => Is e target
  | ErrJoin a b => Is a target || Is b target
  | _ => false
  end.

(** [err.Error()]. *)
Fixpoint err_text (e : GoErr) : string :=
  match e with
  | ErrFenced => "lease: fenced" | ErrAlreadyOffered => "lease: already offered" | ErrNotFound => "cas: not found"
  | ErrOfferAbandoned => "scheduler: the offer is too old to commit a dispatch under"
  | ErrTenantRequired => "tenant scope required" | ErrOutOfFuel => ""
  | ErrMsg s => s
  | ErrWrap s e => s +:+ ": " +:+ err_text e
  | ErrNote e s => err_text e +:+ s
  | ErrJoin a b => err_text a +:+ String (Ascii.ascii_of_N 10) (err_text b)
  end.

(** ** Programs *)

Section program.
Context {op : Type → Type}.

Inductive cmd (A : Type) : Type :=
| Done (a : A)
| Call {X : Type} (o : op X) (k : X → cmd A).
Arguments Done {A} a.
Arguments Call {A X} o k.

Fixpoint cbind {A B} (c : cmd A) (f : A → cmd B) : cmd B :=
  match c with
  | Done a => f a
  | Call o k => Call o (λ x, cbind (k x) f)
  end.

Definition act {X} (o : op X) : cmd X := Call o Done.

Definition go (A : Type) : Type := cmd (result GoErr A).

Definition gret {A} (a : A) : go A := Done (Ok a).
Definition gfail {A} (e : GoErr) : go A := Done (Err e).
Definition gbind {A B} (c : go A) (f : A → go B) : go B :=
  cbind c (λ r, match r with Ok a => f a | Err e => Done (Err e) end).

(** [if err != nil { return fmt.Errorf("...: %w", err) }]. *)
Definition wrap {A} (msg : string) (c : go A) : go A :=
  cbind c (λ r, Done (match r with Ok a => Ok a | Err e => Err (ErrWrap msg e) end)).

(** A pure step that may fail. *)
Definition lift {E A} (msg : string) (r : result E A) : go A :=
  match r with Ok a => gret a | Err _ => gfail (ErrMsg msg) end.

Definition quiet {A} (c : cmd A) : go A := cbind c gret.

(** A loop over a slice, threading a state. *)
Fixpoint gfold {A S} (f : S → A → go S) (s : S) (l : list A) : go S :=
  match l with
  | [] => gret s
  | x :: l => gbind (f s x) (λ s', gfold f s' l)
  end.

Definition geach {A} (f : A → go unit) (l : list A) : go unit := gfold (λ _, f) tt l.

(** ** What can happen *)

Inductive did : Type :=
| Did {X : Type} (o : op X) (x : X).

(** The calls made so far, in order, and the result if the program got that
    far: a plane may stop anywhere. *)
Inductive runs {A} : cmd A → list did → option A → Prop :=
| runs_stop c : runs c [] None
| runs_done a : runs (Done a) [] (Some a)
| runs_call {X} (o : op X) k x tr r : runs (k x) tr r → runs (Call o k) (Did o x :: tr) r.

(** ** Proving it of every trace *)

Definition guard : Type := ∀ X, op X → list did → Prop.

Fixpoint safe {A} (G : guard) (c : cmd A) (Q : A → list did → Prop) (h : list did) : Prop :=
  match c with
  | Done a => Q a h
  | Call o k => G _ o h ∧ ∀ x, safe G (k x) Q (h ++ [Did o x])
  end.

Lemma safe_runs {A} (G : guard) (c : cmd A) Q h tr r :
  safe G c Q h → runs c tr r →
  (∀ pre X (o : op X) x post, tr = pre ++ Did o x :: post → G X o (h ++ pre)) ∧
  (∀ a, r = Some a → Q a (h ++ tr)).
Proof.
  intros Hs Hr. revert h Hs. induction Hr as [c|a|X o k x tr r Hr IH]; intros h Hs.
  - split; [|done]. intros pre X o x post Heq. by destruct pre.
  - split; [|intros b [= <-]; by rewrite app_nil_r]. intros pre X o x post Heq. by destruct pre.
  - destruct Hs as [HG Hk]. destruct (IH _ (Hk x)) as [IH1 IH2]. split.
    + intros [|d pre] Y o' y post Heq; simpl in Heq.
      * rewrite app_nil_r.
        exact (eq_ind (Did o x :: tr) (λ l, match l with Did o _ :: _ => G _ o h | [] => True end) HG _ Heq).
      * injection Heq as <- Heq. specialize (IH1 _ _ _ _ _ Heq). by rewrite <-app_assoc in IH1.
    + intros a Ha. specialize (IH2 _ Ha). by rewrite <-app_assoc in IH2.
Qed.

Lemma safe_bind {A B} G (c : cmd A) (f : A → cmd B) Q h :
  safe G (cbind c f) Q h ↔ safe G c (λ a, safe G (f a) Q) h.
Proof.
  revert h. induction c as [a|X o k IH]; intros h; simpl; [done|]. split; intros [HG Hk]; (split; [done|]).
  - intros x. by apply IH.
  - intros x. by apply IH.
Qed.

Lemma safe_mono {A} G (c : cmd A) (Q Q' : A → list did → Prop) h :
  (∀ a h', Q a h' → Q' a h') → safe G c Q h → safe G c Q' h.
Proof.
  intros HQ. revert h. induction c as [a|X o k IH]; intros h; simpl; [by apply HQ|].
  intros [HG Hk]. split; [done|]. intros x. by apply IH.
Qed.

Lemma safe_and {A} G (c : cmd A) (Q Q' : A → list did → Prop) h :
  safe G c Q h → safe G c Q' h → safe G c (λ a h', Q a h' ∧ Q' a h') h.
Proof.
  revert h. induction c as [a|X o k IH]; intros h; simpl; [by split|].
  intros [HG Hk] [_ Hk']. split; [done|]. intros x. by apply IH.
Qed.

(** The history only grows. *)
Lemma safe_extends {A} G (c : cmd A) Q h :
  safe G c Q h → safe G c (λ a h', Q a h' ∧ ∃ tr, h' = h ++ tr) h.
Proof.
  intros Hs. apply safe_and; [done|]. revert Hs.
  assert (Hgen : ∀ h0, (∃ tr, h0 = h ++ tr) → safe G c Q h0 → safe G c (λ _ h', ∃ tr, h' = h ++ tr) h0).
  { induction c as [a|X o k IH]; intros h0 [tr ->]; simpl; [by eauto|].
    intros [HG Hk]. split; [done|]. intros x. apply IH; [|done]. exists (tr ++ [Did o x]). by rewrite app_assoc. }
  apply Hgen. exists []. by rewrite app_nil_r.
Qed.

Lemma safe_gbind {A B} G (c : go A) (f : A → go B) Q h :
  safe G c (λ r h', match r with Ok a => safe G (f a) Q h' | Err e => Q (Err e) h' end) h →
  safe G (gbind c f) Q h.
Proof. intros Hs. apply safe_bind. eapply safe_mono; [|exact Hs]. by intros [a|e] h'. Qed.

Lemma safe_gfold {A S} G (f : S → A → go S) (I : S → list did → Prop) (E : GoErr → list did → Prop) s l h :
  I s h →
  (∀ s x h', x ∈ l → I s h' → safe G (f s x) (λ r h'', match r with Ok s' => I s' h'' | Err e => E e h'' end) h') →
  safe G (gfold f s l) (λ r h', match r with Ok s' => I s' h' | Err e => E e h' end) h.
Proof.
  revert s h. induction l as [|x l IH]; intros s h HI Hf; cbn [gfold]; [exact HI|].
  apply safe_gbind. eapply safe_mono; [|apply Hf; [by left|done]]. intros [s'|e] h' H'; [|done].
  apply IH; [done|]. intros s1 y h1 Hy. apply Hf. by right.
Qed.

(** The same, with the elements already seen. *)
Lemma safe_gfold_seen {A S} G (f : S → A → go S) (I : list A → S → list did → Prop) (E : GoErr → list did → Prop)
    s l h :
  I [] s h →
  (∀ seen s x h', x ∈ l → I seen s h' →
     safe G (f s x) (λ r h'', match r with Ok s' => I (seen ++ [x]) s' h'' | Err e => E e h'' end) h') →
  safe G (gfold f s l) (λ r h', match r with Ok s' => I l s' h' | Err e => E e h' end) h.
Proof.
  intros HI Hf. change l with ([] ++ l) at 2. revert HI Hf.
  assert (Hgen : ∀ todo seen s h, (∀ x, x ∈ todo → x ∈ l) → I seen s h →
    (∀ seen s x h', x ∈ l → I seen s h' →
       safe G (f s x) (λ r h'', match r with Ok s' => I (seen ++ [x]) s' h'' | Err e => E e h'' end) h') →
    safe G (gfold f s todo) (λ r h', match r with Ok s' => I (seen ++ todo) s' h' | Err e => E e h' end) h).
  { induction todo as [|x todo IH]; intros seen s' h' Hin HI Hf; cbn [gfold]; [by rewrite app_nil_r|].
    apply safe_gbind. eapply safe_mono; [|apply Hf; [apply Hin; by left|exact HI]]. intros [s''|e] h'' H'; [|done].
    replace (seen ++ x :: todo) with ((seen ++ [x]) ++ todo) by (by rewrite <-app_assoc).
    apply IH; [intros y Hy; apply Hin; by right|done..]. }
  intros HI Hf. by apply Hgen.
Qed.

Lemma safe_wrap {A} G msg (c : go A) Q h :
  safe G c (λ r h', Q (match r with Ok a => Ok a | Err e => Err (ErrWrap msg e) end) h') h →
  safe G (wrap msg c) Q h.
Proof. intros Hs. by apply safe_bind. Qed.

(** ** Histories grow *)

Definition extends (h h' : list did) : Prop := ∃ tr, h' = h ++ tr.

#[export] Instance extends_preorder : PreOrder extends.
Proof.
  split; [intros h; exists []; by rewrite app_nil_r|].
  intros h1 h2 h3 [t1 ->] [t2 ->]. exists (t1 ++ t2). by rewrite app_assoc.
Qed.

Lemma extends_snoc h d : extends h (h ++ [d]).
Proof. by exists [d]. Qed.

Lemma extends_elem h h' d : extends h h' → d ∈ h → d ∈ h'.
Proof. intros [tr ->] Hd. apply elem_of_app. by left. Qed.

Lemma snoc_elem {A} (l : list A) x : x ∈ l ++ [x].
Proof. apply elem_of_app. right. by left. Qed.

(** A program under a guard keeps what the history said. *)
Lemma safe_keeps {A} G (c : cmd A) (Q : A → list did → Prop) h :
  safe G c (λ _ _, True) h → (∀ a h', extends h h' → Q a h') → safe G c Q h.
Proof.
  intros Hs HQ. apply safe_extends in Hs. eapply safe_mono; [|exact Hs]. intros a h' [_ [tr ->]]. apply HQ.
  by exists tr.
Qed.

Lemma safe_act {X} G (o : op X) (Q : X → list did → Prop) h :
  G X o h → (∀ x, Q x (h ++ [Did o x])) → safe G (act o) Q h.
Proof. by split. Qed.

Lemma safe_act_bind {X A} G (o : op X) (f : X → cmd A) Q h :
  G X o h → (∀ x, safe G (f x) Q (h ++ [Did o x])) → safe G (cbind (act o) f) Q h.
Proof. by split. Qed.

Lemma safe_wrap_act {A} (G : guard) msg (o : op (result GoErr A)) (Q : result GoErr A → list did → Prop) h :
  G _ o h → (∀ a, Q (Ok a) (h ++ [Did o (Ok a)])) →
  (∀ e, Q (Err (ErrWrap msg e)) (h ++ [Did o (Err e)])) → safe G (wrap msg (act o)) Q h.
Proof. intros HG Ho He. apply safe_wrap, safe_act; [done|]. intros [a|e]; auto. Qed.

(** ** Running a program against a world *)

Fixpoint drive {W A} (answer : ∀ X, op X → W → W * X) (c : cmd A) (w : W) : W * list did * A :=
  match c with
  | Done a => (w, [], a)
  | Call o k =>
      let '(w, x) := answer _ o w in
      let '(w, tr, a) := drive answer (k x) w in
      (w, Did o x :: tr, a)
  end.

Lemma drive_runs {W A} (answer : ∀ X, op X → W → W * X) (c : cmd A) w w' tr a :
  drive answer c w = (w', tr, a) → runs c tr (Some a).
Proof.
  revert w w' tr a. induction c as [a0|X o k IH]; intros w w' tr a; cbn [drive].
  - intros [= <- <- <-]. constructor.
  - destruct (answer X o w) as [w1 x]. destruct (drive answer (k x) w1) as [[w2 tr2] a2] eqn:E.
    intros [= <- <- <-]. constructor. by eapply IH.
Qed.

(** The trace a world gives. *)
Definition trace_of {W A} (answer : ∀ X, op X → W → W * X) (c : cmd A) (w : W) : list did :=
  snd (fst (drive answer c w)).

Lemma trace_of_runs {W A} (answer : ∀ X, op X → W → W * X) (c : cmd A) w :
  runs c (trace_of answer c w) (Some (snd (drive answer c w))).
Proof. unfold trace_of. destruct (drive answer c w) as [[w' tr] a] eqn:E. by eapply drive_runs. Qed.

(** The calls of a program, whatever the answers. *)
Fixpoint within (P : ∀ X, op X → Prop) {A} (c : cmd A) : Prop :=
  match c with
  | Done _ => True
  | Call o k => P _ o ∧ ∀ x, within P (k x)
  end.

Lemma within_bind P {A B} (c : cmd A) (f : A → cmd B) :
  within P c → (∀ a, within P (f a)) → within P (cbind c f).
Proof. intros Hc Hf. induction c as [a|X o k IH]; simpl in *; [done|]. destruct Hc as [HP Hk]. split; auto. Qed.

Lemma within_gfold P {A S} (f : S → A → go S) s l : (∀ s x, within P (f s x)) → within P (gfold f s l).
Proof.
  intros Hf. revert s. induction l as [|x l IH]; intros s; cbn [gfold]; [done|]. unfold gbind.
  apply within_bind; [apply Hf|]. intros [s'|e]; [apply IH|done].
Qed.

Definition no_guard : guard := λ _ _ _, True.

(** What every call of a kind keeps, a program of such calls keeps. *)
Lemma safe_within (P : ∀ X, op X → Prop) (R : list did → list did → Prop) `{!PreOrder R} {A} (c : cmd A) h :
  (∀ X (o : op X) x h, P X o → R h (h ++ [Did o x])) → within P c → safe no_guard c (λ _ h', R h h') h.
Proof.
  intros HR. revert h. induction c as [a|X o k IH]; intros h; simpl; [reflexivity|].
  intros [HP Hk]. split; [done|]. intros x. eapply safe_mono; [|by apply IH]. intros a h' Hh. cbv beta in Hh.
  etrans; [by apply HR|exact Hh].
Qed.

Lemma within_any {A} (c : cmd A) : within (λ _ _, True) c.
Proof. induction c as [a|X o k IH]; simpl; [done|]. split; [done|]. intros x. apply IH. Qed.

Lemma safe_any {A} (c : cmd A) (Q : A → list did → Prop) h :
  (∀ a h', extends h h' → Q a h') → safe no_guard c Q h.
Proof.
  intros HQ. eapply safe_mono; [|apply (safe_within (λ _ _, True) extends); [|apply within_any]].
  - intros a h' He. by apply HQ.
  - intros X o x h0 _. apply extends_snoc.
Qed.

(** A weaker guard. *)
Lemma safe_guard_mono {A} (G G' : guard) (c : cmd A) Q h :
  (∀ X o h', G X o h' → G' X o h') → safe G c Q h → safe G' c Q h.
Proof.
  intros HG. revert h. induction c as [a|X o k IH]; intros h; simpl; [done|]. intros [Ho Hk].
  split; [by apply HG|]. intros x. by apply IH.
Qed.

(** The same beside whatever else a guarded program ensures. *)
Lemma safe_within_and (P : ∀ X, op X → Prop) (R : list did → list did → Prop) `{!PreOrder R} {A} G (c : cmd A) Q h :
  (∀ X (o : op X) x h, P X o → R h (h ++ [Did o x])) → within P c → safe G c Q h →
  safe G c (λ a h', Q a h' ∧ R h h') h.
Proof.
  intros HR Hw Hs. apply safe_and; [done|]. revert h Hs. induction c as [a|X o k IH]; intros h; simpl; [done|].
  destruct Hw as [HP Hk]. intros [HG Hs]. split; [done|]. intros x.
  eapply safe_mono; [|by apply IH]. intros a h' Hh. cbv beta in Hh. etrans; [by apply HR|exact Hh].
Qed.

(** The calls of a history that [f] picks, as it sees them. *)
Definition pick {B} (f : ∀ X, op X → X → option B) (h : list did) : list B := omap (λ '(Did o x), f _ o x) h.

Lemma pick_snoc {B} (f : ∀ X, op X → X → option B) h {X} (o : op X) x :
  pick f (h ++ [Did o x]) = pick f h ++ match f X o x with Some b => [b] | None => [] end.
Proof. unfold pick. rewrite omap_app. simpl. by destruct (f X o x). Qed.

Lemma pick_elem {B} (f : ∀ X, op X → X → option B) h b :
  b ∈ pick f h ↔ ∃ X (o : op X) x, Did o x ∈ h ∧ f X o x = Some b.
Proof.
  unfold pick. rewrite list_elem_of_omap. split.
  - intros ([X o x] & Hin & Hf). by exists X, o, x.
  - intros (X & o & x & Hin & Hf). by exists (Did o x).
Qed.

Lemma pick_nil {B} (f : ∀ X, op X → X → option B) h :
  Forall (λ '(Did o x), f _ o x = None) h → pick f h = [].
Proof. unfold pick. induction 1 as [|[X o x] h Ho _ IH]; [done|]. simpl. by rewrite Ho. Qed.

(** How a trace of a call begins. *)
Lemma runs_Call {A X} (o : op X) (k : X → cmd A) tr r :
  runs (Call o k) tr r → (tr = [] ∧ r = None) ∨ ∃ x tr', tr = Did o x :: tr' ∧ runs (k x) tr' r.
Proof.
  assert (Hgen : ∀ (c : cmd A) tr r, runs c tr r →
    match c with
    | Done _ => True
    | Call o k => (tr = [] ∧ r = None) ∨ ∃ x tr', tr = Did o x :: tr' ∧ runs (k x) tr' r
    end).
  { intros c tr0 r0 Hr. destruct Hr as [c|a|Y o' k' x tr' r' Hr]; [destruct c; [done|by left]|done|].
    right. by exists x, tr'. }
  apply Hgen.
Qed.

Lemma runs_Done {A} (a : A) tr r : runs (Done a) tr r → tr = [] ∧ (r = None ∨ r = Some a).
Proof. intros Hr. remember (Done a) as c eqn:Ec. destruct Hr; simplify_eq; auto. Qed.

(** Two traces of a sequence. *)
Lemma runs_bind {A B} (c : cmd A) (f : A → cmd B) tr b :
  runs (cbind c f) tr (Some b) ↔ ∃ t1 t2 a, tr = t1 ++ t2 ∧ runs c t1 (Some a) ∧ runs (f a) t2 (Some b).
Proof.
  split.
  - revert tr. induction c as [a|X o k IH]; intros tr; simpl.
    + intros Hr. exists [], tr, a. split; [done|]. split; [constructor|done].
    + intros Hr. remember (Call o (λ x, cbind (k x) f)) as c' eqn:Ec. remember (Some b) as r eqn:Er.
      destruct Hr as [|a|Y o' k' x tr r Hr]; [done|done|]. revert Ec Hr.
      assert (Hgen : ∀ (c1 : cmd B), (match c1 with Call o' k' => Call o' k' | Done a => Done a end) = Call o (λ x, cbind (k x) f) →
        match c1 with
        | Done _ => True
        | Call o' k' => ∀ x tr, runs (k' x) tr r →
            ∃ t1 t2 a, Did o' x :: tr = t1 ++ t2 ∧ runs (Call o k) t1 (Some a) ∧ runs (f a) t2 r
        end).
      { intros c1 Heq. assert (c1 = Call o (λ x, cbind (k x) f)) as -> by (by destruct c1).
        intros x0 tr0 Hr0. destruct (IH x0 tr0 Hr0) as (t1 & t2 & a & -> & H1 & H2).
        exists (Did o x0 :: t1), t2, a. split; [done|]. split; [by constructor|done]. }
      intros Ec Hr. exact (Hgen (Call o' k') Ec x tr Hr).
  - intros (t1 & t2 & a & -> & H1 & H2). remember (Some a) as r eqn:Er. revert H2.
    induction H1 as [c|a'|X o k x tr r Hr IH]; [done|by simplify_eq|]. intros H2. simpl. constructor. by apply IH.
Qed.

End program.

#[export] Hint Resolve extends_snoc snoc_elem : dhole.
#[export] Hint Extern 1 (extends ?h ?h) => reflexivity : dhole.

Arguments cmd op A : clear implicits.
Arguments Done {op A} a.
Arguments Call {op A X} o k.
Arguments did op : clear implicits.
Arguments go op A : clear implicits.
Arguments guard op : clear implicits.

Notation "x <- c ;; k" := (cbind c (λ x, k))
  (at level 20, c at level 99, k at level 200, only parsing) : dhole_scope.

Notation "x <~ c ;; k" := (gbind c (λ x, k))
  (at level 20, c at level 99, k at level 200, only parsing) : dhole_scope.

(** ** A program among others

    [step] is what the world does with a call, [env] what the others may do to
    it at any time. *)

Section among.
Context {op : Type → Type} {W : Type} (step : ∀ X, op X → W → W → X → Prop) (env : W → W → Prop).

(** [c] may take the world from [w] to [w'] and return [a]: before each call,
    and after the last, the others may have done anything [env] allows. *)
Fixpoint among {A} (c : cmd op A) (w w' : W) (a : A) : Prop :=
  match c with
  | Done b => a = b ∧ rtc env w w'
  | Call o k => ∃ w1 w2 x, rtc env w w1 ∧ step _ o w1 w2 x ∧ among (k x) w2 w' a
  end.

Lemma among_env {A} (c : cmd op A) w w1 w' a : rtc env w w1 → among c w1 w' a → among c w w' a.
Proof.
  intros He. destruct c as [b|X o k]; cbn [among].
  - intros [-> Hr]. split; [done|]. by etrans.
  - intros (w2 & w3 & x & Hr & Hs & Hk). exists w2, w3, x. split; [by etrans|done].
Qed.

Lemma among_bind {A B} (c : cmd op A) (f : A → cmd op B) w w' b :
  among (cbind c f) w w' b ↔ ∃ w1 a, among c w w1 a ∧ among (f a) w1 w' b.
Proof.
  revert w. induction c as [a|X o k IH]; intros w; cbn [among cbind].
  - split; [intros Hf; exists w, a; by split|]. intros (w1 & a' & [-> Hr] & Hf). by eapply among_env.
  - split.
    + intros (w1 & w2 & x & Hr & Hs & (w3 & a & Hc & Hf)%IH). exists w3, a. split; [|done]. by exists w1, w2, x.
    + intros (w3 & a & (w1 & w2 & x & Hr & Hs & Hc) & Hf). exists w1, w2, x. do 2 (split; [done|]).
      apply IH. by exists w3, a.
Qed.

(** A world that answers as [step] allows. *)
Lemma drive_among {A} (answer : ∀ X, op X → W → W * X) (c : cmd op A) w :
  (∀ X (o : op X) w, step X o w (fst (answer X o w)) (snd (answer X o w))) →
  among c w (fst (fst (drive answer c w))) (snd (drive answer c w)).
Proof.
  intros Ha. revert w. induction c as [a|X o k IH]; intros w; cbn [drive among]; [by split|].
  specialize (Ha X o w). destruct (answer X o w) as [w1 x]. specialize (IH x w1).
  destruct (drive answer (k x) w1) as [[w2 tr] a]. exists w, w1, x. by split_and!.
Qed.

(** What every call of a kind and every other keeps, a program of such calls keeps. *)
Lemma among_within {A} (P : ∀ X, op X → Prop) (R : W → W → Prop) (c : cmd op A) w w' a :
  (∀ w1 w2, env w1 w2 → R w1 w2) → (∀ X (o : op X) w1 w2 x, P X o → step X o w1 w2 x → rtc R w1 w2) →
  within P c → among c w w' a → rtc R w w'.
Proof.
  intros He Hs. assert (Hr : ∀ w1 w2, rtc env w1 w2 → rtc R w1 w2) by (induction 1; eauto using rtc).
  revert w. induction c as [b|X o k IH]; intros w; cbn [among within].
  - intros _ [_ ?]. by apply Hr.
  - intros [HP Hk] (w1 & w2 & x & H1 & H2 & H3). etrans; [by apply Hr|]. etrans; [by eapply Hs|]. by eapply IH.
Qed.

End among.

(** ** Two kinds of call in one program *)

Inductive plus (F G : Type → Type) (X : Type) : Type := inl_ (o : F X) | inr_ (o : G X).
Arguments inl_ {F G X} o.
Arguments inr_ {F G X} o.

Section plus.
Context {F G : Type → Type}.

(** The calls of the first kind, and a program of them alone. *)
Definition lefts (h : list (did (plus F G))) : list (did F) :=
  omap (λ '(Did o x), match o with inl_ o => λ x, Some (Did o x) | inr_ _ => λ _, None end x) h.

Fixpoint lift_l {A} (c : cmd F A) : cmd (plus F G) A :=
  match c with
  | Done a => Done a
  | Call o k => Call (inl_ o) (λ x, lift_l (k x))
  end.

Lemma lefts_app h1 h2 : lefts (h1 ++ h2) = lefts h1 ++ lefts h2.
Proof. unfold lefts. apply omap_app. Qed.

Lemma lefts_inl h {X} (o : F X) x : lefts (h ++ [Did (inl_ o) x]) = lefts h ++ [Did o x].
Proof. by rewrite lefts_app. Qed.

Lemma lefts_inr h {X} (o : G X) x : lefts (h ++ [Did (inr_ o) x]) = lefts h.
Proof. rewrite lefts_app. apply app_nil_r. Qed.

(** What a program ensures of its own calls it ensures among the others. *)
Lemma safe_lift (P : guard F) (R : guard (plus F G)) {A} (c : cmd F A) Q h :
  (∀ X (o : F X) h', P X o (lefts h') → R X (inl_ o) h') →
  safe P c Q (lefts h) →
  safe R (lift_l c) (λ a h', Q a (lefts h') ∧ ∃ tr, h' = h ++ tr ∧ Forall (λ '(Did o _), ∃ o', o = inl_ o') tr) h.
Proof.
  intros HR. revert h. induction c as [a|X o k IH]; intros h; cbn [lift_l safe].
  - intros HQ. split; [done|]. exists []. by rewrite app_nil_r.
  - intros [HP Hk]. split; [by apply HR|]. intros x. specialize (Hk x). rewrite <-lefts_inl in Hk.
    eapply safe_mono; [|by apply IH]. intros a h' [HQ (tr & -> & Hall)]. split; [done|].
    exists (Did (inl_ o) x :: tr). rewrite <-app_assoc. split; [done|]. constructor; [by exists o|done].
Qed.

Lemma safe_lift_any (R : guard (plus F G)) {A} (c : cmd F A) Q h :
  (∀ X (o : F X) h', extends h h' → R X (inl_ o) h') → (∀ a h', extends h h' → Q a h') → safe R (lift_l c) Q h.
Proof.
  revert h. induction c as [a|X o k IH]; intros h HR HQ; cbn [lift_l safe]; [by apply HQ|].
  split; [by apply HR|]. intros x. apply IH; intros; [apply HR|apply HQ]; (etrans; [apply extends_snoc|done]).
Qed.

End plus.

(** ** Calls implemented by programs

    [interp impl c] is [c] with every call replaced by the program that
    implements it: how a client of an interface runs over an implementation. *)

Section interp.
Context {F G : Type → Type} (impl : ∀ X, F X → cmd G X).

Fixpoint interp {A} (c : cmd F A) : cmd G A :=
  match c with
  | Done a => Done a
  | Call o k => cbind (impl _ o) (λ x, interp (k x))
  end.

Lemma safe_interp_bind (P : guard G) {A B} (c : cmd F A) (f : A → cmd F B) Q h :
  safe P (interp c) (λ a, safe P (interp (f a)) Q) h → safe P (interp (cbind c f)) Q h.
Proof.
  revert h. induction c as [a|X o k IH]; intros h; cbn [interp cbind]; [done|]. rewrite !safe_bind.
  apply safe_mono. intros x h'. apply IH.
Qed.

Lemma safe_interp_act (P : guard G) {X B} (o : F X) (f : X → cmd F B) Q h :
  safe P (impl _ o) (λ a, safe P (interp (f a)) Q) h → safe P (interp (cbind (act o) f)) Q h.
Proof. intros Hs. cbn [interp cbind act]. by apply safe_bind. Qed.

Lemma within_interp (P : ∀ X, G X → Prop) {A} (c : cmd F A) :
  (∀ X (o : F X), within P (impl _ o)) → within P (interp c).
Proof. intros Hw. induction c as [a|X o k IH]; cbn [interp]; [done|]. by apply within_bind. Qed.

Lemma within_interp_of (Q : ∀ X, F X → Prop) (P : ∀ X, G X → Prop) {A} (c : cmd F A) :
  (∀ X (o : F X), Q X o → within P (impl _ o)) → within Q c → within P (interp c).
Proof.
  intros Hw. induction c as [a|X o k IH]; cbn [interp within]; [done|]. intros [HQ Hk].
  apply within_bind; [by apply Hw|]. intros x. by apply IH.
Qed.

Context {W V : Type} (low : ∀ X, G X → W → W → X → Prop) (low_env : W → W → Prop)
  (high : ∀ X, F X → V → V → X → Prop) (high_env : V → V → Prop) (abs : W → V) (inv : W → Prop).

(** If each implementation, among others, does to what the concrete world
    stands for what its call may do among others, then so does every program
    of such calls: a client's theorems over the interface hold of it over the
    implementation. *)
Lemma among_interp {A} (c : cmd F A) w w' a :
  (∀ w1 w2, inv w1 → rtc low_env w1 w2 → inv w2 ∧ rtc high_env (abs w1) (abs w2)) →
  (∀ X (o : F X) w1 w2 x, inv w1 → among low low_env (impl X o) w1 w2 x →
     inv w2 ∧ ∃ v1 v2, rtc high_env (abs w1) v1 ∧ high X o v1 v2 x ∧ rtc high_env v2 (abs w2)) →
  inv w → among low low_env (interp c) w w' a → inv w' ∧ among high high_env c (abs w) (abs w') a.
Proof.
  intros He Ho. revert w. induction c as [b|X o k IH]; intros w Hw; cbn [interp among].
  - intros [-> Hr]. destruct (He _ _ Hw Hr). done.
  - intros (w1 & x & Himpl & Hk)%among_bind. destruct (Ho _ _ _ _ _ Hw Himpl) as (Hw1 & v1 & v2 & H1 & H2 & H3).
    destruct (IH x w1 Hw1 Hk) as [Hw' Hk']. split; [done|]. exists v1, v2, x. do 2 (split; [done|]).
    by eapply among_env.
Qed.

End interp.

(** ** Several programs at once

    [interleaved ps w tr ps' w']: programs [ps], each a process of its own,
    take the world from [w] to [w'] by the calls of [tr], each with the number
    of its process, and have [ps'] left to do. *)

Section interleaved.
Context {op : Type → Type} {W : Type} (step : ∀ X, op X → W → W → X → Prop) (env : W → W → Prop) {A : Type}.

Inductive interleaved : list (cmd op A) → W → list (nat * did op) → list (cmd op A) → W → Prop :=
| il_stop ps w : interleaved ps w [] ps w
| il_env ps w w1 tr ps' w' : env w w1 → interleaved ps w1 tr ps' w' → interleaved ps w tr ps' w'
| il_call i {X} (o : op X) k x ps w w1 tr ps' w' :
    ps !! i = Some (Call o k) → step X o w w1 x → interleaved (<[i := k x]> ps) w1 tr ps' w' →
    interleaved ps w ((i, Did o x) :: tr) ps' w'.

(** The calls of one process. *)
Definition own (i : nat) (tr : list (nat * did op)) : list (did op) :=
  omap (λ '(j, d), if decide (i = j) then Some d else None) tr.

(** A schedule: which process makes the next call. *)
Fixpoint play (answer : ∀ X, op X → W → W * X) (schedule : list nat) (ps : list (cmd op A)) (w : W)
    : list (nat * did op) * list (cmd op A) * W :=
  match schedule with
  | [] => ([], ps, w)
  | i :: schedule =>
      match ps !! i with
      | Some (Call o k) =>
          let '(w1, x) := answer _ o w in
          let '(tr, ps', w') := play answer schedule (<[i := k x]> ps) w1 in
          ((i, Did o x) :: tr, ps', w')
      | _ => play answer schedule ps w
      end
  end.

Lemma play_interleaved (answer : ∀ X, op X → W → W * X) schedule ps w :
  (∀ X (o : op X) w, step X o w (fst (answer X o w)) (snd (answer X o w))) →
  interleaved ps w (fst (fst (play answer schedule ps w))) (snd (fst (play answer schedule ps w)))
    (snd (play answer schedule ps w)).
Proof.
  intros Ha. revert ps w. induction schedule as [|i schedule IH]; intros ps w; cbn [play]; [constructor|].
  destruct (ps !! i) as [[a|X o k]|] eqn:Ei; [apply IH| |apply IH].
  specialize (Ha X o w). destruct (answer X o w) as [w1 x]. specialize (IH (<[i := k x]> ps) w1).
  destruct (play answer schedule (<[i := k x]> ps) w1) as [[tr ps'] w']. by eapply il_call.
Qed.

(** What a program has left after a trace of calls. *)
Inductive after : cmd op A → list (did op) → cmd op A → Prop :=
| after_nil c : after c [] c
| after_call {X} (o : op X) k x tr c : after (k x) tr c → after (Call o k) (Did o x :: tr) c.

Lemma after_runs c tr c' : after c tr c' → runs c tr (match c' with Done a => Some a | Call _ _ => None end).
Proof. induction 1 as [c|X o k x tr c _ IH]; [destruct c; constructor|by constructor]. Qed.

Lemma interleaved_own ps w tr ps' w' i c :
  interleaved ps w tr ps' w' → ps !! i = Some c → ∃ c', ps' !! i = Some c' ∧ after c (own i tr) c'.
Proof.
  intros Hr. revert c. induction Hr as [ps w|ps w w1 tr ps' w' _ _ IH|j X o k x ps w w1 tr ps' w' Hj _ _ IH]; intros c Hi.
  - exists c. split; [done|constructor].
  - by apply IH.
  - unfold own. cbn [omap list_omap]. destruct (decide (i = j)) as [->|Hne].
    + simplify_eq. destruct (IH (k x)) as (c' & Hc & Ha); [by rewrite list_lookup_insert_eq by (by eapply lookup_lt_Some)|].
      exists c'. split; [done|]. by constructor.
    + apply IH. by rewrite list_lookup_insert_ne.
Qed.

Lemma interleaved_answers ps w tr ps' w' i X (o : op X) x :
  interleaved ps w tr ps' w' → Did o x ∈ own i tr → ∃ w1 w2, step X o w1 w2 x.
Proof.
  assert (Hgen : interleaved ps w tr ps' w' →
    Forall (λ '(j, Did o x), ∃ w1 w2, step _ o w1 w2 x) tr).
  { induction 1 as [ps w|ps w w1 tr ps' w' _ _ IH|j Y o' k y ps w w1 tr ps' w' _ Hs _ IH]; [constructor|done|].
    constructor; [|done]. by exists w, w1. }
  intros Hr%Hgen Hin. unfold own in Hin. apply list_elem_of_omap in Hin as ([j d] & Hin & Hd).
  case_decide; [|done]. injection Hd as ->. rewrite Forall_forall in Hr. exact (Hr _ Hin).
Qed.

Lemma interleaved_length ps w tr ps' w' : interleaved ps w tr ps' w' → length ps' = length ps.
Proof. induction 1 as [| |i X o k x ps w w1 tr ps' w' _ _ _ IH]; [done..|]. by rewrite length_insert in IH. Qed.

(** What the world and everybody's history keep between them, when each process
    makes its calls under its own guard. *)
Lemma interleaved_keeps (G : nat → guard op) (J : W → (nat → list (did op)) → Prop) ps w tr ps' w' hs :
  (∀ w1 w2 h, J w1 h → env w1 w2 → J w2 h) →
  (∀ i X (o : op X) x w1 w2 h, J w1 h → G i X o (h i) → step X o w1 w2 x →
     J w2 (λ j, if decide (j = i) then h i ++ [Did o x] else h j)) →
  interleaved ps w tr ps' w' → (∀ i c, ps !! i = Some c → safe (G i) c (λ _ _, True) (hs i)) → J w hs →
  ∃ hs', (∀ i, hs' i = hs i ++ own i tr) ∧ J w' hs'.
Proof.
  intros He Hs Hr. revert hs. induction Hr as [ps w|ps w w1 tr ps' w' Hw _ IH|j X o k x ps w w1 tr ps' w' Hj Hst _ IH];
    intros hs Hsafe HJ.
  - exists hs. split; [|done]. intros i. by rewrite app_nil_r.
  - apply IH; [done|]. by eapply He.
  - destruct (Hsafe _ _ Hj) as [HG Hk]. destruct (IH (λ i, if decide (i = j) then hs j ++ [Did o x] else hs i)) as (hs' & Hown & HJ').
    + intros i c Hi. case_decide as Hij.
      * subst i. rewrite list_lookup_insert_eq in Hi by (by eapply lookup_lt_Some). injection Hi as <-. apply Hk.
      * rewrite list_lookup_insert_ne in Hi by done. by apply Hsafe.
    + by eapply Hs.
    + exists hs'. split; [|done]. intros i. rewrite Hown. unfold own. cbn [omap list_omap].
      destruct (decide (i = j)) as [->|Hne]; [by rewrite <-app_assoc|done].
Qed.

(** Counting the calls of a kind: all of them are somebody's. *)
Definition tally (P : did op → bool) (h : list (did op)) : nat := length (List.filter P h).

Fixpoint sum_to (n : nat) (f : nat → nat) : nat := match n with O => O | S n => sum_to n f + f n end.

(** What every call's guard ensures of two counts, every history has. *)
Lemma tally_guarded (P Q : did op → bool) (G : guard op) tr :
  (∀ X (o : op X) x h, G X o h → P (Did o x) = true → (tally P h < tally Q h)%nat) →
  (∀ X (o : op X) x pre post, tr = pre ++ Did o x :: post → G X o pre) → (tally P tr ≤ tally Q tr)%nat.
Proof.
  intros HG. induction tr as [|[X o x] tr IH] using rev_ind; intros Htr; [done|].
  unfold tally in *. rewrite !List.filter_app, !length_app. simpl.
  assert (H1 : (length (List.filter P tr) ≤ length (List.filter Q tr))%nat).
  { apply IH. intros Y o' y pre post ->. apply (Htr Y o' y pre (post ++ [Did o x])). by rewrite <-app_assoc. }
  specialize (HG X o x tr (Htr X o x tr [] eq_refl)).
  destruct (P (Did o x)), (Q (Did o x)); simpl; lia.
Qed.

Lemma sum_to_ext n f g : (∀ i, (i < n)%nat → f i = g i) → sum_to n f = sum_to n g.
Proof. induction n as [|n IH]; intros Hf; simpl; [done|]. rewrite IH, Hf; [done|lia|]. intros i Hi. apply Hf. lia. Qed.
Lemma sum_to_le n f g : (∀ i, (i < n)%nat → f i ≤ g i)%nat → (sum_to n f ≤ sum_to n g)%nat.
Proof.
  induction n as [|n IH]; intros Hf; simpl; [done|]. specialize (Hf n) as Hn. assert (sum_to n f ≤ sum_to n g)%nat; [|lia].
  apply IH. intros i Hi. apply Hf. lia.
Qed.
Lemma sum_to_plus n f g : sum_to n (λ i, f i + g i)%nat = (sum_to n f + sum_to n g)%nat.
Proof. induction n as [|n IH]; simpl; lia. Qed.
Lemma sum_to_single n j : (j < n)%nat → sum_to n (λ i, if decide (i = j) then 1 else 0)%nat = 1%nat.
Proof.
  intros Hj. induction n as [|n IH]; [lia|]. simpl. destruct (decide (n = j)) as [->|Hne].
  - replace (sum_to j _) with O; [done|]. assert (Hz : ∀ m, (m ≤ j)%nat → O = sum_to m (λ i, if decide (i = j) then 1 else 0)%nat).
    { induction m as [|m IHm]; intros Hm; simpl; [done|]. rewrite decide_False by lia. rewrite <-IHm; lia. }
    by apply Hz.
  - rewrite IH; lia.
Qed.
Lemma sum_to_zero n : sum_to n (λ _, O) = O.
Proof. induction n as [|n IH]; simpl; lia. Qed.

Lemma tally_own P ps w tr ps' w' :
  interleaved ps w tr ps' w' → tally P (map snd tr) = sum_to (length ps) (λ i, tally P (own i tr)).
Proof.
  intros Hr. induction Hr as [ps w|ps w w1 tr ps' w' _ _ IH|j X o k x ps w w1 tr ps' w' Hj _ _ IH].
  - by rewrite sum_to_zero.
  - done.
  - rewrite length_insert in IH. cbn [map snd].
    assert (Hown : ∀ i, tally P (own i ((j, Did o x) :: tr))
                        = ((if decide (i = j) then if P (Did o x) then 1 else 0 else 0) + tally P (own i tr))%nat).
    { intros i. unfold own, tally. cbn [omap list_omap]. case_decide; [|done]. simpl. by destruct (P (Did o x)). }
    erewrite sum_to_ext; [|intros i _; apply Hown]. rewrite sum_to_plus, <-IH. unfold tally. simpl.
    apply lookup_lt_Some in Hj. destruct (P (Did o x)); simpl.
    + f_equal. by rewrite sum_to_single.
    + replace (sum_to _ _) with O; [done|]. erewrite sum_to_ext; [symmetry; apply sum_to_zero|]. intros i _. simpl. by case_decide.
Qed.

End interleaved.
