(* ===== verification/Bucket.v ===== *)
(** * A JetStream key-value bucket

    Its values, each at the revision it was written at, as the documentation of
    JetStream describes it: every write takes a fresh revision, and a key that
    is not rewritten ages out. What each call may do to it is stated with the
    component that makes the call. *)

From S2P Require Import Prelude Bytes.

(** The errors the callers tell apart. *)
Inductive KVErr : Type := ErrKeyRevisionMismatch | ErrKeyExists | KVOther (e : string).

#[export] Instance KVErr_eq_dec : EqDecision KVErr.
Proof. solve_decision. Defined.

Record bucket : Type := mkBucket { b_keys : gmap string (string * Z); b_last : Z }.

Definition put (key data : string) (b : bucket) : bucket :=
  mkBucket (<[key := (data, b_last b + 1)]> (b_keys b)) (b_last b + 1).

Definition age_out (key : string) (b : bucket) : bucket := mkBucket (delete key (b_keys b)) (b_last b).

(** A deletion leaves a marker, which takes a revision. *)
Definition remove_key (key : string) (b : bucket) : bucket := mkBucket (delete key (b_keys b)) (b_last b + 1).

(** [ListKeysFiltered]: a pattern's tokens against a key's. *)
Fixpoint tokens_match (pattern key : list string) : bool :=
  match pattern, key with
  | [], [] => true
  | p :: pattern, k :: key =>
      if decide (p = ">" ∧ pattern = []) then true
      else (bool_decide (p = "*") || bool_decide (p = k)) && tokens_match pattern key
  | _, _ => false
  end.

(** ** Calls, and what each may do

    [journal] is a bucket with everything that was ever replaced or removed in
    it: nothing reads that log but the theorems. A call that fails may have
    been carried out, with its answer lost. *)

Inductive bkop : Type → Type :=
| BkListKeys (pattern : string) : bkop (result KVErr (list string))
| BkGet (key : string) : bkop (result KVErr (option (string * Z)))
| BkPut (key data : string) : bkop (result KVErr Z)
| BkCreate (key data : string) : bkop (result KVErr Z)
| BkUpdate (key data : string) (rev : Z) : bkop (result KVErr Z)
| BkDelete (key : string) (rev : Z) : bkop (result KVErr unit).

Record change : Type := mkChange { ch_key : string; ch_old : option (string * Z); ch_new : option string }.
Record journal : Type := mkJournal { j_bucket : bucket; j_log : list change }.

Definition entry_of (j : journal) (key : string) : option (string * Z) := b_keys (j_bucket j) !! key.
Definition last_rev (j : journal) : Z := b_last (j_bucket j).

Definition j_put (key data : string) (j : journal) : journal :=
  mkJournal (put key data (j_bucket j)) (j_log j ++ [mkChange key (entry_of j key) (Some data)]).
Definition j_remove (key : string) (j : journal) : journal :=
  mkJournal (remove_key key (j_bucket j)) (j_log j ++ [mkChange key (entry_of j key) None]).
(** A key the server drops for its age is nobody's change. *)
Definition j_age (key : string) (j : journal) : journal := mkJournal (age_out key (j_bucket j)) (j_log j).

Definition written_at (j : journal) (x : result KVErr Z) : Prop :=
  x = Ok (last_rev j + 1) ∨ ∃ e, x = Err (KVOther e).

Definition bk_step (X : Type) (o : bkop X) (j j' : journal) : X → Prop :=
  match o with
  | BkListKeys pattern => λ x,
      j' = j ∧ ((∃ l, x = Ok l ∧ NoDup l ∧ ∀ k, k ∈ l ↔ is_Some (entry_of j k)
                   ∧ tokens_match (split_on (Ascii.ascii_of_N 46) pattern) (split_on (Ascii.ascii_of_N 46) k) = true)
                ∨ ∃ e, x = Err e)
  | BkGet key => λ x, j' = j ∧ (x = Ok (entry_of j key) ∨ ∃ e, x = Err (KVOther e))
  | BkPut key data => λ x, (j' = j ∧ ∃ e, x = Err (KVOther e)) ∨ (j' = j_put key data j ∧ written_at j x)
  | BkCreate key data => λ x,
      (j' = j ∧ entry_of j key ≠ None ∧ x = Err ErrKeyExists) ∨ (j' = j ∧ ∃ e, x = Err (KVOther e))
      ∨ (entry_of j key = None ∧ j' = j_put key data j ∧ written_at j x)
  | BkUpdate key data rev => λ x,
      (j' = j ∧ snd <$> entry_of j key ≠ Some rev ∧ x = Err ErrKeyRevisionMismatch) ∨ (j' = j ∧ ∃ e, x = Err (KVOther e))
      ∨ (snd <$> entry_of j key = Some rev ∧ j' = j_put key data j ∧ written_at j x)
  | BkDelete key rev => λ x,
      (j' = j ∧ snd <$> entry_of j key ≠ Some rev ∧ x = Err ErrKeyRevisionMismatch) ∨ (j' = j ∧ ∃ e, x = Err (KVOther e))
      ∨ (snd <$> entry_of j key = Some rev ∧ j' = j_remove key j ∧ (x = Ok tt ∨ ∃ e, x = Err (KVOther e)))
  end.

(** A bucket that answers every call, and answers it truthfully. *)
Definition bk_answer (X : Type) (o : bkop X) (j : journal) : journal * X :=
  match o in bkop X return journal * X with
  | BkListKeys pattern =>
      (j, Ok (List.filter (λ k, tokens_match (split_on (Ascii.ascii_of_N 46) pattern) (split_on (Ascii.ascii_of_N 46) k))
                (elements (dom (b_keys (j_bucket j))))))
  | BkGet key => (j, Ok (entry_of j key))
  | BkPut key data => (j_put key data j, Ok (last_rev j + 1))
  | BkCreate key data =>
      match entry_of j key with
      | Some _ => (j, Err ErrKeyExists)
      | None => (j_put key data j, Ok (last_rev j + 1))
      end
  | BkUpdate key data rev =>
      if decide (snd <$> entry_of j key = Some rev) then (j_put key data j, Ok (last_rev j + 1))
      else (j, Err ErrKeyRevisionMismatch)
  | BkDelete key rev =>
      if decide (snd <$> entry_of j key = Some rev) then (j_remove key j, Ok tt) else (j, Err ErrKeyRevisionMismatch)
  end.

Lemma bk_answer_step X (o : bkop X) j : bk_step X o j (fst (bk_answer X o j)) (snd (bk_answer X o j)).
Proof.
  destruct o as [p|k|k d|k d|k d r|k r]; cbn [bk_answer bk_step].
  - split; [done|]. left. eexists. split; [done|]. split.
    + apply NoDup_ListNoDup, List.NoDup_filter, NoDup_ListNoDup, NoDup_elements.
    + intros k. rewrite list_elem_of_In, filter_In, <-list_elem_of_In, elem_of_elements, elem_of_dom. done.
  - split; [done|by left].
  - right. split; [done|by left].
  - destruct (entry_of j k) eqn:He; [left|right; right]; cbn [fst snd]; [done|].
    split; [done|]. split; [done|by left].
  - case_decide; cbn [fst snd]; [right; right|by left]. split; [done|]. split; [done|by left].
  - case_decide; cbn [fst snd]; [right; right|by left]. split; [done|]. split; [done|by left].
Qed.

(** ** What a journal keeps *)

Definition bucket_ok (j : journal) : Prop :=
  (∀ k v r, entry_of j k = Some (v, r) → r ≤ last_rev j)
  ∧ ∀ k1 k2 v1 v2 r, entry_of j k1 = Some (v1, r) → entry_of j k2 = Some (v2, r) → k1 = k2.

(** A revision stands for one value of one key, once and for all. *)
Definition keeps_entries (j j' : journal) : Prop :=
  last_rev j ≤ last_rev j' ∧ ∀ k v r, r ≤ last_rev j → entry_of j' k = Some (v, r) → entry_of j k = Some (v, r).

#[export] Instance keeps_entries_preorder : PreOrder keeps_entries.
Proof.
  split; [by intros j|]. intros j1 j2 j3 [H1 K1] [H2 K2]. split; [lia|]. intros k v r Hr He. apply K1; [done|].
  apply K2; [lia|done].
Qed.

Lemma entry_of_put j key data k :
  entry_of (j_put key data j) k = if decide (k = key) then Some (data, last_rev j + 1) else entry_of j k.
Proof. unfold entry_of. cbn. rewrite lookup_insert. destruct (decide (key = k)), (decide (k = key)); (done || congruence). Qed.
Lemma entry_of_remove j key k : entry_of (j_remove key j) k = if decide (k = key) then None else entry_of j k.
Proof. unfold entry_of. cbn. rewrite lookup_delete. destruct (decide (key = k)), (decide (k = key)); (done || congruence). Qed.
Lemma entry_of_age j key k : entry_of (j_age key j) k = if decide (k = key) then None else entry_of j k.
Proof. unfold entry_of. cbn. rewrite lookup_delete. destruct (decide (key = k)), (decide (k = key)); (done || congruence). Qed.

Lemma j_put_ok j key data : bucket_ok j → bucket_ok (j_put key data j) ∧ keeps_entries j (j_put key data j).
Proof.
  intros [Hr Hu]. change (last_rev (j_put key data j)) with (last_rev j + 1). split; [split|split]; cbn [last_rev j_put j_bucket b_last put] in *.
  - intros k v r. rewrite entry_of_put. unfold last_rev. cbn. case_decide; [intros [= _ <-]; unfold last_rev; lia|].
    intros He%Hr. unfold last_rev in He. lia.
  - intros k1 k2 v1 v2 r. rewrite !entry_of_put. repeat case_decide; subst; try congruence.
    + intros [= _ <-] He%Hr. unfold last_rev in *. lia.
    + intros He%Hr [= _ <-]. unfold last_rev in *. lia.
    + apply Hu.
  - unfold last_rev. cbn. lia.
  - intros k v r Hle. rewrite entry_of_put. case_decide; [|done]. intros [= _ <-]. lia.
Qed.

Lemma j_gone_ok (f : string → journal → journal) j key :
  (f = j_remove ∨ f = j_age) → bucket_ok j → bucket_ok (f key j) ∧ keeps_entries j (f key j).
Proof.
  intros Hf [Hr Hu].
  assert (He : ∀ k v r, entry_of (f key j) k = Some (v, r) → entry_of j k = Some (v, r)).
  { intros k v r. destruct Hf as [-> | ->]; rewrite ?entry_of_remove, ?entry_of_age; by case_decide. }
  assert (Hl : last_rev j ≤ last_rev (f key j)) by (destruct Hf as [-> | ->]; unfold last_rev; cbn; lia).
  split; [split|split; [done|]].
  - intros k v r Hk%He%Hr. lia.
  - intros k1 k2 v1 v2 r H1%He H2%He. by eapply Hu.
  - intros k v r _. apply He.
Qed.

Lemma bk_step_ok X (o : bkop X) j j' x : bk_step X o j j' x → bucket_ok j → bucket_ok j' ∧ keeps_entries j j'.
Proof.
  intros Hs Hok. assert (Hsame : bucket_ok j ∧ keeps_entries j j) by (split; [done|reflexivity]).
  destruct o; cbn [bk_step] in Hs; destruct_or?; destruct_and?; subst; try done;
    try (by apply j_put_ok); by apply j_gone_ok; auto.
Qed.
