(* ===== verification/RunStore.v ===== *)
(** * The run event log: [internal/runstore]

    The two stores speak SQL against one schema; here a statement is the
    function on the tables it performs, the unique indexes of the migrations
    included. [WithTx] is a function on the whole database that keeps nothing
    of a callback that fails. Database failures beyond the ones the code
    provokes are not modelled. *)

From S2P Require Import Prelude Bytes.

(** ** Time as the stores write it: [time.RFC3339Nano] in UTC *)

Definition Nanosecond : Z := 1.
Definition NanosPerSecond : Z := 1000000000.

(** A decimal of at least [w] digits. *)
Definition pad (w : nat) (z : Z) : string :=
  let s := dec_N (Z.to_N z) in
  String.concat "" (repeat "0" (w - String.length s)%nat) +:+ s.

(** The proleptic Gregorian date of a day number counted from 1970-01-01. *)
Definition civil (days : Z) : Z * Z * Z :=
  let z := days + 719468 in
  let era := z / 146097 in
  let doe := z - era * 146097 in
  let yoe := (doe - doe / 1460 + doe / 36524 - doe / 146096) / 365 in
  let doy := doe - (365 * yoe + yoe / 4 - yoe / 100) in
  let mp := (5 * doy + 2) / 153 in
  let d := doy - (153 * mp + 2) / 5 + 1 in
  let m := if bool_decide (mp < 10) then mp + 3 else mp - 9 in
  let y := yoe + era * 400 + (if bool_decide (m ≤ 2) then 1 else 0) in
  (y, m, d).

(** The fraction: trailing zeros are dropped, and the point with them. *)
Fixpoint drop_zeros (s : string) : string :=
  match s with
  | EmptyString => ""
  | String c r =>
      match drop_zeros r with
      | EmptyString => if Ascii.eqb c (Ascii.ascii_of_N 48) then "" else String c ""
      | r' => String c r'
      end
  end.

Definition fraction (nanos : Z) : string :=
  if decide (nanos = 0) then "" else "." +:+ drop_zeros (pad 9 nanos).

(** [t.UTC().Format(time.RFC3339Nano)] of an instant counted in nanoseconds
    from the epoch. *)
Definition FormatTime (t : Z) : string :=
  let secs := t / NanosPerSecond in
  let '(y, m, d) := civil (secs / 86400) in
  let s := secs mod 86400 in
  pad 4 y +:+ "-" +:+ pad 2 m +:+ "-" +:+ pad 2 d +:+ "T"
  +:+ pad 2 (s / 3600) +:+ ":" +:+ pad 2 (s / 60 mod 60) +:+ ":" +:+ pad 2 (s mod 60)
  +:+ fraction (t mod NanosPerSecond) +:+ "Z".

#[global] Arguments FormatTime _ : simpl never.

(** ** [store.go] *)

Definition RunCreated : string := "RUN_CREATED".
Definition StepReady : string := "STEP_READY".
Definition StepDispatched : string := "STEP_DISPATCHED".
Definition StepSucceeded : string := "STEP_SUCCEEDED".
Definition StepFailed : string := "STEP_FAILED".
Definition RunCompleted : string := "RUN_COMPLETED".
Definition RunFailed : string := "RUN_FAILED".
Definition RunCancelled : string := "RUN_CANCELLED".

Definition closesRun (t : string) : bool :=
  bool_decide (t = RunCompleted) || bool_decide (t = RunFailed) || bool_decide (t = RunCancelled).

Record Event : Type := mkEvent
  { ev_RunID : string; ev_StepID : string; ev_Attempt : Z; ev_Sequence : Z; ev_Type : string;
    ev_Payload : string; ev_At : Z }.

#[export] Instance Event_eq_dec : EqDecision Event.
Proof. solve_decision. Defined.

Inductive Dialect : Type := DialectSQLite | DialectPostgres.

#[export] Instance Dialect_eq_dec : EqDecision Dialect.
Proof. solve_decision. Defined.

Inductive StoreErr : Type :=
| ErrTenantRequired
| SequenceTooLarge (n : Z).

(** ** The schema *)

(** A row of [run_events]: the tenant and the event. *)
Abbreviation Row := (string * Event)%type.

Record DB : Type := mkDB
  { run_events : list Row;
    run_sequences : gmap string Z;
    open_runs : gmap (string * string) string }.

Definition empty_db : DB := mkDB [] ∅ ∅.

(** The types a step may carry once in a run: the partial unique indexes of
    migrations 0021, 0023 and 0026. *)
Definition once_types : list string :=
  ["STEP_AWAITING_REPLAY"; "STEP_POLICY_DENIED"; "STEP_AWAITING_TIMER"; "STEP_SECRET_UNAVAILABLE"].

Definition same_run (a b : Row) : bool :=
  bool_decide (a.1 = b.1) && bool_decide (ev_RunID a.2 = ev_RunID b.2).
Definition same_step (a b : Row) : bool :=
  same_run a b && bool_decide (ev_StepID a.2 = ev_StepID b.2).

(** Two rows a unique index or the primary key refuses to hold together. *)
Definition same_key (a b : Row) : bool :=
  same_step a b && bool_decide (ev_Attempt a.2 = ev_Attempt b.2)
  && bool_decide (ev_Sequence a.2 = ev_Sequence b.2).
Definition both_terminal (a b : Row) : bool :=
  same_run a b && closesRun (ev_Type a.2) && closesRun (ev_Type b.2).
Definition both_once (a b : Row) : bool :=
  same_step a b && bool_decide (ev_Type a.2 = ev_Type b.2) && bool_decide (ev_Type a.2 ∈ once_types).

Definition conflicts (a b : Row) : bool := same_key a b || both_terminal a b || both_once a b.

(** ** [sqlite.go], [postgres.go] *)

Definition tenant_events (rows : list Row) (tenant : string) : list Event :=
  map snd (filter (λ r, r.1 = tenant) rows).

(** [COALESCE(MAX(sequence), 0)]. *)
Definition max_sequence (rows : list Row) (tenant : string) : Z :=
  foldr (λ e m, Z.max (ev_Sequence e) m) 0 (tenant_events rows tenant).

(** [sqliteNextSequence], [postgresNextSequence]. *)
Definition next_sequence (db : DB) (tenant : string) : Z :=
  match run_sequences db !! tenant with
  | None => max_sequence (run_events db) tenant + 1
  | Some next => Z.max (next + 1) (max_sequence (run_events db) tenant + 1)
  end.

Definition with_sequence (e : Event) (n : Z) : Event :=
  mkEvent (ev_RunID e) (ev_StepID e) (ev_Attempt e) n (ev_Type e) (ev_Payload e) (ev_At e).

(** The position an event is written at, and the counters after. *)
Definition allocate (db : DB) (tenant : string) (e : Event) : DB * Event :=
  if decide (ev_Sequence e = 0)
  then let n := next_sequence db tenant in
       (mkDB (run_events db) (<[tenant := n]> (run_sequences db)) (open_runs db), with_sequence e n)
  else (db, e).

(** [INSERT ... ON CONFLICT DO NOTHING] and whether it wrote. *)
Definition insert_event (db : DB) (tenant : string) (e : Event) : DB * bool :=
  if existsb (conflicts (tenant, e)) (run_events db) then (db, false)
  else (mkDB (run_events db ++ [(tenant, e)]) (run_sequences db) (open_runs db), true).

(** The open-run index. *)
Definition index_event (db : DB) (tenant : string) (e : Event) : DB :=
  if decide (ev_Type e = RunCreated)
  then match open_runs db !! (tenant, ev_RunID e) with
       | Some _ => db
       | None => mkDB (run_events db) (run_sequences db)
                   (<[(tenant, ev_RunID e) := FormatTime (ev_At e)]> (open_runs db))
       end
  else if closesRun (ev_Type e)
  then mkDB (run_events db) (run_sequences db) (delete (tenant, ev_RunID e) (open_runs db))
  else db.

(** [Tx.Append]; Postgres refuses a sequence a BIGINT cannot hold. *)
Definition Append (d : Dialect) (tenant : string) (e : Event) : prog DB StoreErr unit := λ db,
  if decide (tenant = "") then (db, Err ErrTenantRequired)
  else if decide (d = DialectPostgres ∧ two63 ≤ ev_Sequence e)
  then (db, Err (SequenceTooLarge (ev_Sequence e)))
  else
    let '(db, e) := allocate db tenant e in
    match insert_event db tenant e with
    | (db, false) => (db, Ok tt)
    | (db, true) => (index_event db tenant e, Ok tt)
    end.

(** [WithTx]: what a failing callback did is rolled back. *)
Definition WithTx {S E A} (fn : prog S E A) : prog S E A := λ db,
  match fn db with
  | (db', Ok a) => (db', Ok a)
  | (_, Err e) => (db, Err e)
  end.

(** [Store.Append]. *)
Definition StoreAppend (d : Dialect) (tenant : string) (e : Event) : prog DB StoreErr unit :=
  WithTx (Append d tenant e).

Definition seq_le (a b : Event) : Prop := ev_Sequence a ≤ ev_Sequence b.
#[export] Instance seq_le_dec : RelDecision seq_le.
Proof. intros a b. unfold seq_le. apply _. Defined.

(** [ORDER BY sequence]; equal sequences keep their insertion order here. *)
Definition Replay (tenant run : string) (db : DB) : result StoreErr (list Event) :=
  if decide (tenant = "") then Err ErrTenantRequired
  else Ok (merge_sort seq_le (filter (λ e, ev_RunID e = run) (tenant_events (run_events db) tenant))).

Definition LastSequence (tenant : string) (db : DB) : result StoreErr Z :=
  if decide (tenant = "") then Err ErrTenantRequired
  else Ok (max_sequence (run_events db) tenant).

(** [ORDER BY created_at ASC, run_id ASC], both as text. *)
Definition open_le (a b : string * string) : Prop :=
  if decide (a.1 = b.1) then String.le a.2 b.2 else String.le a.1 b.1.
#[export] Instance open_le_dec : RelDecision open_le.
Proof. intros a b. unfold open_le. case_decide; apply _. Defined.

Definition OpenRuns (tenant : string) (db : DB) : result StoreErr (list string) :=
  if decide (tenant = "") then Err ErrTenantRequired
  else Ok (map snd (merge_sort open_le
         (omap (λ p : string * string * string,
            if decide (p.1.1 = tenant) then Some (p.2, p.1.2) else None)
            (map_to_list (open_runs db))))).
