(* ===== verification/RunStoreFacts.v ===== *)
(** * What the run log guarantees

    The log only grows, positions are allocated above everything already
    written, no run ends twice, the open-run index is the set of runs created
    and not ended — and the text timestamps it is ordered by do not sort in
    time order. *)

From S2P Require Import Prelude Bytes RunStore.

(** ** Sequences *)

Lemma max_sequence_ge rows tenant e :
  e ∈ tenant_events rows tenant → ev_Sequence e ≤ max_sequence rows tenant.
Proof.
  unfold max_sequence. induction (tenant_events rows tenant) as [|x l IH]; simpl.
  - by intros ?%elem_of_nil.
  - intros [->|Hin]%elem_of_cons; [lia|]. specialize (IH Hin). lia.
Qed.

Lemma max_sequence_nonneg rows tenant : 0 ≤ max_sequence rows tenant.
Proof. unfold max_sequence. induction (tenant_events rows tenant); simpl; lia. Qed.

Lemma next_sequence_gt db tenant :
  max_sequence (run_events db) tenant < next_sequence db tenant
  ∧ ∀ n, run_sequences db !! tenant = Some n → n < next_sequence db tenant.
Proof. unfold next_sequence. destruct (run_sequences db !! tenant) as [n|]; split; intros; simplify_eq; lia. Qed.

Lemma tenant_events_app rows r tenant :
  tenant_events (rows ++ [r]) tenant
  = tenant_events rows tenant ++ (if decide (r.1 = tenant) then [r.2] else []).
Proof.
  unfold tenant_events. rewrite filter_app, map_app. f_equal. rewrite filter_cons, filter_nil.
  by case_decide.
Qed.

Lemma tenant_events_elem rows tenant e : e ∈ tenant_events rows tenant ↔ (tenant, e) ∈ rows.
Proof.
  unfold tenant_events. rewrite list_elem_of_fmap. setoid_rewrite list_elem_of_filter. split.
  - intros ([t x] & -> & <- & Hin). done.
  - intros Hin. by exists (tenant, e).
Qed.

Lemma ev_Sequence_with e n : ev_Sequence (with_sequence e n) = n.
Proof. done. Qed.

(** ** Conflicts *)

Lemma conflicts_sym a b : conflicts a b = conflicts b a.
Proof.
  unfold conflicts, same_key, both_terminal, both_once, same_step, same_run.
  apply eq_true_iff_eq. rewrite !orb_true_iff, !andb_true_iff, !bool_decide_eq_true.
  intuition congruence.
Qed.

(** No two rows of the log hold a key in common. *)
Definition log_ok (rows : list Row) : Prop :=
  ∀ i j a b, rows !! i = Some a → rows !! j = Some b → i ≠ j → conflicts a b = false.

Lemma log_ok_snoc rows r :
  log_ok rows → existsb (conflicts r) rows = false → log_ok (rows ++ [r]).
Proof.
  intros Hok Hn i j a b Hi Hj Hij.
  assert (Hnew : ∀ k c, rows !! k = Some c → conflicts r c = false).
  { intros k c Hk. apply not_true_is_false. intros Hc.
    assert (existsb (conflicts r) rows = true); [|congruence].
    apply existsb_exists. exists c. split; [|done]. apply list_elem_of_In.
    by eapply list_elem_of_lookup_2. }
  apply lookup_app_Some in Hi as [Hi|[Hil Hi]], Hj as [Hj|[Hjl Hj]].
  - by eapply Hok.
  - apply list_lookup_singleton_Some in Hj as [_ <-]. rewrite conflicts_sym. by eapply Hnew.
  - apply list_lookup_singleton_Some in Hi as [_ <-]. by eapply Hnew.
  - apply list_lookup_singleton_Some in Hi as [Hi _], Hj as [Hj _]. lia.
Qed.

(** ** One append, every branch *)

(** The event at the position it is written at. *)
Definition positioned (db : DB) (tenant : string) (e : Event) : Event :=
  if decide (ev_Sequence e = 0) then with_sequence e (next_sequence db tenant) else e.

Lemma allocate_spec db tenant e :
  allocate db tenant e
  = (mkDB (run_events db)
       (if decide (ev_Sequence e = 0)
        then <[tenant := next_sequence db tenant]> (run_sequences db) else run_sequences db)
       (open_runs db), positioned db tenant e).
Proof. unfold allocate, positioned. case_decide; [done|]. by destruct db. Qed.

(** What a successful append did to the log. *)
Definition written (db : DB) (tenant : string) (e : Event) : bool :=
  negb (existsb (conflicts (tenant, positioned db tenant e)) (run_events db)).

Lemma Append_Ok d tenant e db db' :
  StoreAppend d tenant e db = (db', Ok tt) →
  tenant ≠ "" ∧
  run_events db' = run_events db ++ (if written db tenant e then [(tenant, positioned db tenant e)] else [])
  ∧ open_runs db' = (if written db tenant e
                     then open_runs (index_event db tenant (positioned db tenant e)) else open_runs db).
Proof.
  unfold StoreAppend, WithTx, Append. case_decide as Ht; [done|]. case_decide; [done|].
  rewrite allocate_spec. unfold insert_event, written. cbn [run_events].
  destruct (existsb _ _); simpl; intros [= <-]; simpl.
  - split_and!; [done|by rewrite app_nil_r|done].
  - unfold index_event. simpl. case_decide; [by destruct (open_runs db !! _)|].
    by destruct (closesRun _).
Qed.

Lemma Append_Err d tenant e db db' err :
  StoreAppend d tenant e db = (db', Err err) →
  db' = db ∧ (tenant = "" ∨ (d = DialectPostgres ∧ two63 ≤ ev_Sequence e)).
Proof.
  unfold StoreAppend, WithTx, Append. case_decide as Ht; [naive_solver|].
  case_decide; [naive_solver|]. rewrite allocate_spec.
  destruct (insert_event _ _ _) as [db1 []]; simpl; done.
Qed.

Lemma Append_total d tenant e db :
  tenant ≠ "" → ev_Sequence e = 0 → ∃ db', StoreAppend d tenant e db = (db', Ok tt).
Proof.
  intros Ht Hs. destruct (StoreAppend d tenant e db) as [db' [[]|err]] eqn:E; [by exists db'|].
  apply Append_Err in E as [_ [?|[_ ?]]]; [done|]. unfold two63 in *. lia.
Qed.

(** A row that no index can refuse: an unsequenced event that neither closes
    the run nor is recorded once. *)
Lemma append_fresh tenant e db :
  ev_Sequence e = 0 → closesRun (ev_Type e) = false → ev_Type e ∉ once_types → written db tenant e = true.
Proof.
  intros Hz Hc Ho. unfold written. apply negb_true_iff, not_true_is_false. intros Hex.
  apply existsb_exists in Hex as ([t x] & Hin%list_elem_of_In & Hk).
  assert (Ht : ev_Type (positioned db tenant e) = ev_Type e) by (unfold positioned; by case_decide).
  assert (Hs : ev_Sequence (positioned db tenant e) = next_sequence db tenant).
  { unfold positioned. by rewrite decide_True. }
  unfold conflicts, same_key, both_terminal, both_once, same_step, same_run in Hk. simpl in Hk.
  rewrite Ht, Hc, !orb_true_iff, !andb_true_iff, !bool_decide_eq_true in Hk.
  destruct Hk as [[Hk|Hk]|Hk]; [|by destruct_and!|by destruct_and!].
  destruct_and!. subst t.
  apply tenant_events_elem, max_sequence_ge in Hin. pose proof (next_sequence_gt db tenant). lia.
Qed.

(** What one append does to what a run replays. *)
Lemma Replay_append d t tenant run e db db' evs :
  StoreAppend d t e db = (db', Ok tt) → Replay tenant run db = Ok evs →
  ∃ evs', Replay tenant run db' = Ok evs' ∧
    evs' ≡ₚ evs ++ (if decide (t = tenant ∧ ev_RunID e = run ∧ written db t e = true)
                    then [positioned db t e] else []).
Proof.
  intros Ha. apply Append_Ok in Ha as (_ & Er & _). unfold Replay. case_decide as Hn; [done|]. intros Hevs. injection Hevs as <-.
  eexists. split; [done|]. rewrite !merge_sort_Permutation, Er.
  destruct (written db t e); [|rewrite decide_False by naive_solver; by rewrite !app_nil_r].
  rewrite tenant_events_app, filter_app. simpl. apply Permutation_app; [done|].
  assert (Hr : ev_RunID (positioned db t e) = ev_RunID e) by (unfold positioned; by case_decide).
  destruct (decide (t = tenant)) as [->|]; [|by rewrite decide_False by naive_solver].
  rewrite filter_cons, filter_nil, Hr.
  destruct (decide (ev_RunID e = run)); [by rewrite decide_True by naive_solver|by rewrite decide_False by naive_solver].
Qed.

(** ** Reachable databases *)

(** The databases appends reach when every appended event satisfies [P]. An
    append that fails leaves the database as it was, so only the others are
    steps. *)
Inductive reachable (P : string → Event → DB → Prop) : DB → Prop :=
| reach_empty : reachable P empty_db
| reach_append d tenant e db db' :
    reachable P db → P tenant e db → StoreAppend d tenant e db = (db', Ok tt) → reachable P db'.

Definition any_event (tenant : string) (e : Event) (db : DB) : Prop := True.

Lemma reachable_weaken (P Q : string → Event → DB → Prop) db :
  (∀ t e s, P t e s → Q t e s) → reachable P db → reachable Q db.
Proof. intros HPQ. induction 1; econstructor; eauto. Qed.

Lemma written_log_ok db tenant e :
  log_ok (run_events db) →
  log_ok (run_events db ++ (if written db tenant e then [(tenant, positioned db tenant e)] else [])).
Proof.
  intros Hok. destruct (written db tenant e) eqn:Ew; [|by rewrite app_nil_r].
  apply log_ok_snoc; [done|]. unfold written in Ew. by apply negb_true_iff in Ew.
Qed.

Lemma reachable_log_ok P db : reachable P db → log_ok (run_events db).
Proof.
  induction 1 as [|d tenant e db db' Hr IH HP Hs]; [by intros i j a b Hi|].
  apply Append_Ok in Hs as (_ & -> & _). by apply written_log_ok.
Qed.

(** ** Allocated positions *)

Definition allocated (tenant : string) (e : Event) (db : DB) : Prop := ev_Sequence e = 0.

Definition ordered (l : list Event) : Prop :=
  StronglySorted (λ a b, ev_Sequence a < ev_Sequence b) l.

Lemma StronglySorted_snoc {A} (R : relation A) l x :
  StronglySorted R l → (∀ y, y ∈ l → R y x) → StronglySorted R (l ++ [x]).
Proof.
  induction 1 as [|y l Hs IH Hall]; intros Hx; simpl; [by repeat constructor|].
  constructor; [apply IH; intros; apply Hx; by right|].
  apply Forall_app. split; [done|]. apply Forall_singleton, Hx. by left.
Qed.

Lemma allocated_ordered db tenant : reachable allocated db → ordered (tenant_events (run_events db) tenant).
Proof.
  induction 1 as [|d t e db db' Hr IH Hz Hs]; [by constructor|].
  apply Append_Ok in Hs as (_ & -> & _). destruct (written db t e); [|by rewrite app_nil_r].
  rewrite tenant_events_app. simpl. case_decide as Et; [|by rewrite app_nil_r].
  subst t. apply StronglySorted_snoc; [done|]. intros y Hy. unfold positioned.
  rewrite decide_True by done. rewrite ev_Sequence_with.
  apply max_sequence_ge in Hy. pose proof (next_sequence_gt db tenant). lia.
Qed.

Lemma seq_sort_ordered l : ordered l → merge_sort seq_le l = l.
Proof.
  intros Ho. assert (Hgen : ∀ k, k ≡ₚ l → StronglySorted seq_le k → ordered l → k = l).
  { clear. intros k. revert l. induction k as [|x k IH]; intros l Hp Hk Hl.
    - by apply Permutation_nil_l in Hp.
    - destruct l as [|y l]; [by apply Permutation_nil_r in Hp|].
      apply StronglySorted_inv in Hk as [Hk Hkx]. apply StronglySorted_inv in Hl as [Hl Hly].
      rewrite Forall_forall in Hkx, Hly.
      assert (x = y) as ->; [|f_equal; apply IH; [by apply Permutation_cons_inv in Hp|done..]].
      assert (Hxin : x ∈ y :: l) by (rewrite <-Hp; by left).
      assert (Hyin : y ∈ x :: k) by (rewrite Hp; by left).
      apply elem_of_cons in Hxin as [->|Hxl]; [done|].
      apply elem_of_cons in Hyin as [->|Hyk]; [done|].
      specialize (Hkx y Hyk). specialize (Hly x Hxl). unfold seq_le in Hkx. lia. }
  apply Hgen; [apply merge_sort_Permutation| |done].
  apply StronglySorted_merge_sort.
  - intros a b c. unfold seq_le. lia.
  - intros a b. unfold seq_le. lia.
Qed.

Lemma filter_ordered l (P : Event → Prop) `{∀ x, Decision (P x)} : ordered l → ordered (filter P l).
Proof. apply StronglySorted_filter. Qed.

(** ** The open-run index *)

Definition created (rows : list Row) (tenant run : string) : Prop :=
  ∃ e, (tenant, e) ∈ rows ∧ ev_RunID e = run ∧ ev_Type e = RunCreated.
Definition ended (rows : list Row) (tenant run : string) : Prop :=
  ∃ e, (tenant, e) ∈ rows ∧ ev_RunID e = run ∧ closesRun (ev_Type e) = true.

(** No writer creates a run that has ended. *)
Definition no_recreation (tenant : string) (e : Event) (db : DB) : Prop :=
  ev_Type e = RunCreated → ¬ ended (run_events db) tenant (ev_RunID e).

Definition index_ok (db : DB) : Prop :=
  ∀ tenant run, is_Some (open_runs db !! (tenant, run)) ↔
    created (run_events db) tenant run ∧ ¬ ended (run_events db) tenant run.

Lemma positioned_fields db tenant e :
  ev_RunID (positioned db tenant e) = ev_RunID e ∧ ev_Type (positioned db tenant e) = ev_Type e
  ∧ ev_At (positioned db tenant e) = ev_At e.
Proof. unfold positioned. by case_decide. Qed.

Lemma exists_snoc (rows : list Row) t e (Q : Event → Prop) tenant :
  (∃ x, (tenant, x) ∈ rows ++ [(t, e)] ∧ Q x) ↔ (∃ x, (tenant, x) ∈ rows ∧ Q x) ∨ (t = tenant ∧ Q e).
Proof.
  setoid_rewrite elem_of_app. setoid_rewrite list_elem_of_singleton. split.
  - intros (x & [Hin|[= -> ->]] & HQ); eauto.
  - intros [(x & Hin & HQ)|[-> HQ]]; eauto.
Qed.

Lemma created_not_closing : closesRun RunCreated = false.
Proof. done. Qed.

Lemma index_ok_written db t e :
  index_ok db → no_recreation t e db → written db t e = true →
  index_ok (mkDB (run_events db ++ [(t, positioned db t e)]) (run_sequences db)
              (open_runs (index_event db t (positioned db t e)))).
Proof.
  intros Hok Hre Hw tenant run. unfold created, ended. cbn [run_events open_runs].
  rewrite !exists_snoc. destruct (positioned_fields db t e) as (Er & Ety & _).
  rewrite Er, Ety. specialize (Hok tenant run). unfold created, ended in Hok.
  unfold index_event. rewrite Er, Ety. case_decide as Hc.
  - rewrite Hc. rewrite created_not_closing.
    assert (Hins : is_Some (open_runs match open_runs db !! (t, ev_RunID e) with
        | Some _ => db
        | None => mkDB (run_events db) (run_sequences db)
                    (<[(t, ev_RunID e) := FormatTime (ev_At (positioned db t e))]> (open_runs db))
        end !! (tenant, run)) ↔ is_Some (open_runs db !! (tenant, run)) ∨ (t = tenant ∧ ev_RunID e = run)).
    { destruct (open_runs db !! (t, ev_RunID e)) eqn:El; cbn [open_runs].
      - split; [by left|]. intros [?|[-> <-]]; [done|]. by rewrite El.
      - rewrite lookup_insert_is_Some. split.
        + intros [[= -> ->]|[_ ?]]; auto.
        + intros [?|[-> ->]]; [|by left].
          destruct (decide ((t, ev_RunID e) = (tenant, run))); auto. }
    rewrite Hins, Hok. split.
    + intros [[H1 H2]|[-> <-]]; [naive_solver|]. split; [by right|].
      intros [He|[_ [_ [=]]]]. apply (Hre Hc). done.
    + intros [[H1|(-> & <- & _)] H2]; [left|by right]. split; [done|]. naive_solver.
  - destruct (closesRun (ev_Type e)) eqn:Ecl; cbn [open_runs].
    + rewrite lookup_delete_is_Some, Hok. split.
      * intros [Hne [H1 H2]]. split; [by left|]. intros [He|(-> & <- & _)]; [done|]. by apply Hne.
      * intros [[H1|(_ & _ & Hx)] H2]; [|done]. split_and!; [|done|].
        -- intros [= -> <-]. apply H2. right. done.
        -- intros He. apply H2. by left.
    + rewrite Hok. split.
      * intros [H1 H2]. split; [by left|]. intros [He|(_ & _ & Hx)]; [done|congruence].
      * intros [[H1|(_ & _ & Hx)] H2]; [|done]. split; [done|]. intros He. apply H2. by left.
Qed.

Lemma reachable_index_ok db : reachable no_recreation db → index_ok db.
Proof.
  induction 1 as [|d t e db db' Hr IH Hre Hs].
  { intros tenant run. unfold created. simpl. rewrite lookup_empty. split; [by intros []|].
    intros [(e & He%elem_of_nil & _) _]. done. }
  apply Append_Ok in Hs as (_ & Er & Eo).
  destruct (written db t e) eqn:Ew.
  - pose proof (index_ok_written db t e IH Hre Ew) as Hnew. intros tenant run.
    specialize (Hnew tenant run). cbn [run_events open_runs] in Hnew. by rewrite Er, Eo.
  - intros tenant run. rewrite Er, Eo, app_nil_r. apply IH.
Qed.

Lemma open_list_elem (m : gmap (string * string) string) tenant run :
  run ∈ map snd (merge_sort open_le
         (omap (λ p : string * string * string,
            if decide (p.1.1 = tenant) then Some (p.2, p.1.2) else None) (map_to_list m)))
  ↔ is_Some (m !! (tenant, run)).
Proof.
  rewrite list_elem_of_fmap. setoid_rewrite (merge_sort_Permutation open_le _).
  setoid_rewrite list_elem_of_omap. split.
  - intros ([at_ r] & -> & ([[t r'] at'] & Hin & Hsome)). simpl in *. case_decide; [|done].
    simplify_eq. apply elem_of_map_to_list in Hin. eauto.
  - intros [at_ Hm]. exists (at_, run). split; [done|].
    exists ((tenant, run), at_). split; [by apply elem_of_map_to_list|]. simpl. by rewrite decide_True.
Qed.

Lemma open_list_nodup (m : gmap (string * string) string) tenant :
  NoDup (map snd (merge_sort open_le
         (omap (λ p : string * string * string,
            if decide (p.1.1 = tenant) then Some (p.2, p.1.2) else None) (map_to_list m)))).
Proof.
  change (NoDup (snd <$> merge_sort open_le
         (omap (λ p : string * string * string,
            if decide (p.1.1 = tenant) then Some (p.2, p.1.2) else None) (map_to_list m)))).
  rewrite merge_sort_Permutation.
  assert (Hnd : NoDup ((λ p : string * string, (tenant, p.2)) <$>
    omap (λ p : string * string * string,
            if decide (p.1.1 = tenant) then Some (p.2, p.1.2) else None) (map_to_list m))).
  { apply NoDup_omap_key; [|apply NoDup_fst_map_to_list].
    intros [[t r] a] d _. simpl. case_decide; [|done]. intros [= <-]. simpl. by subst. }
  change (λ p : string * string, (tenant, p.2)) with (pair tenant ∘ @snd string string) in Hnd.
  rewrite list_fmap_compose in Hnd. by apply NoDup_fmap_1 in Hnd.
Qed.

Lemma reach_step P d tenant e db :
  reachable P db → P tenant e db → tenant ≠ "" → ev_Sequence e = 0 →
  reachable P (StoreAppend d tenant e db).1.
Proof.
  intros Hr HP Ht Hz. destruct (Append_total d tenant e db Ht Hz) as [db' E]. rewrite E.
  by eapply reach_append.
Qed.

(** ** Properties *)

(** The log is append-only and every branch of an append is one of three:
    refused, leaving the database as it was; a repeat of something a key
    already holds, leaving the log as it was; or one new row at the end,
    positioned above every row of its tenant when the writer left the
    position to the store. *)
Theorem append_only_log (d : Dialect) (tenant : string) (e : Event) (db : DB) :
  match StoreAppend d tenant e db with
  | (db', Err _) => db' = db ∧ (tenant = "" ∨ (d = DialectPostgres ∧ two63 ≤ ev_Sequence e))
  | (db', Ok _) =>
      tenant ≠ "" ∧
      ((run_events db' = run_events db ∧ open_runs db' = open_runs db
        ∧ ∃ r, r ∈ run_events db ∧ conflicts (tenant, positioned db tenant e) r = true)
       ∨ (run_events db' = run_events db ++ [(tenant, positioned db tenant e)]
          ∧ (ev_Sequence e = 0 → ∀ e', (tenant, e') ∈ run_events db →
               ev_Sequence e' < ev_Sequence (positioned db tenant e))))
  end.
Proof.
  destruct (StoreAppend d tenant e db) as [db' [[]|err]] eqn:E.
  - apply Append_Ok in E as (Ht & Er & Eo). split; [done|].
    destruct (written db tenant e) eqn:Ew.
    + right. split; [done|]. intros Hz e' Hin. unfold positioned.
      rewrite decide_True, ev_Sequence_with by done.
      apply tenant_events_elem, max_sequence_ge in Hin. pose proof (next_sequence_gt db tenant). lia.
    + left. rewrite app_nil_r in Er. split_and!; [done..|].
      unfold written in Ew. apply negb_false_iff, existsb_exists in Ew as (r & Hin & Hc).
      exists r. split; [by apply list_elem_of_In|done].
  - by apply Append_Err in E.
Qed.

(** When every writer leaves the position to the store, a run replays in
    the order its events were appended: positions are strictly increasing
    along a tenant's log, so sorting by them changes nothing. *)
Theorem replay_in_append_order (db : DB) (tenant run : string) :
  reachable allocated db → tenant ≠ "" →
  Replay tenant run db = Ok (filter (λ e, ev_RunID e = run) (tenant_events (run_events db) tenant))
  ∧ ordered (tenant_events (run_events db) tenant).
Proof.
  intros Hr Ht. pose proof (allocated_ordered db tenant Hr) as Ho. split; [|done].
  unfold Replay. rewrite decide_False by done. f_equal. by apply seq_sort_ordered, filter_ordered.
Qed.

Definition example_event (run step typ : string) (t : Z) : Event := mkEvent run step 0 0 typ "" t.

Definition example_db : DB :=
  (StoreAppend DialectSQLite "acme" (example_event "r1" "build" StepSucceeded 2000000000)
    (StoreAppend DialectSQLite "acme" (example_event "r2" "" RunCreated 1500000000)
      (StoreAppend DialectSQLite "acme" (example_event "r1" "" RunCreated 1000000000) empty_db).1).1).1.

Lemma example_db_reachable : reachable allocated example_db.
Proof. do 3 (apply reach_step; [|done|done|done]). apply reach_empty. Qed.

Lemma replay_in_append_order_witness :
  map ev_Type (match Replay "acme" "r1" example_db with Ok l => l | Err _ => [] end)
  = [RunCreated; StepSucceeded].
Proof.
  destruct (replay_in_append_order example_db "acme" "r1" example_db_reachable ltac:(done)) as [E _].
  rewrite E. by vm_compute.
Defined.

(** C22: A run ends at most once and a step gets each once-only verdict at most
    once: whatever events are appended, by however many writers and in
    whatever order, two rows of the log are never two terminal events of one
    run, nor the same once-only event of one step, nor one key twice. *)
Theorem verdicts_are_unique (db : DB) (i j : nat) (tenant : string) (a b : Event) :
  reachable any_event db →
  run_events db !! i = Some (tenant, a) → run_events db !! j = Some (tenant, b) →
  ev_RunID a = ev_RunID b →
  (closesRun (ev_Type a) = true ∧ closesRun (ev_Type b) = true)
  ∨ (ev_StepID a = ev_StepID b ∧
     ((ev_Type a = ev_Type b ∧ ev_Type a ∈ once_types)
      ∨ (ev_Attempt a = ev_Attempt b ∧ ev_Sequence a = ev_Sequence b))) →
  i = j.
Proof.
  intros Hr Hi Hj Erun Hor. destruct (decide (i = j)) as [|Hne]; [done|]. exfalso.
  pose proof (reachable_log_ok any_event db Hr i j _ _ Hi Hj Hne) as Hc.
  apply orb_false_iff in Hc as [Hc H3]. apply orb_false_iff in Hc as [H1 H2].
  unfold same_key, both_terminal, both_once, same_step, same_run in *. simpl in *.
  rewrite (bool_decide_true (tenant = tenant)), (bool_decide_true (ev_RunID a = ev_RunID b)) in * by done.
  destruct Hor as [[Ha Hb]|[Es [[Et Ho]|[Eat Eseq]]]].
  - by rewrite Ha, Hb in H2.
  - rewrite !bool_decide_true in H3 by done. done.
  - rewrite !bool_decide_true in H1 by done. done.
Qed.

Definition ended_db : DB :=
  (StoreAppend DialectPostgres "acme" (example_event "r1" "" RunCancelled 2000000000)
    (StoreAppend DialectPostgres "acme" (example_event "r1" "" RunCompleted 1000000000) empty_db).1).1.

Lemma verdicts_are_unique_witness :
  map (ev_Type ∘ snd) (run_events ended_db) = [RunCompleted]
  ∧ ∀ i j e, run_events ended_db !! i = Some ("acme", e) →
             run_events ended_db !! j = Some ("acme", e) → ev_Type e = RunCompleted → i = j.
Proof.
  split; [by vm_compute|]. intros i j e Hi Hj Et.
  apply (verdicts_are_unique ended_db i j "acme" e e); [|done|done|done|left; by rewrite Et].
  do 2 (apply reach_step; [|done|done|done]). apply reach_empty.
Defined.

(** [OpenRuns] is the unfinished runs: as long as no writer creates a run
    that has ended, it lists, once each, exactly the runs the log has a
    creation and no terminal event for — so a restarted plane advances every
    run it must and none it must not. *)
Theorem open_runs_are_unfinished (db : DB) (tenant : string) :
  reachable no_recreation db → tenant ≠ "" →
  ∃ runs, OpenRuns tenant db = Ok runs ∧ NoDup runs ∧
    ∀ run, run ∈ runs ↔ created (run_events db) tenant run ∧ ¬ ended (run_events db) tenant run.
Proof.
  intros Hr Ht. unfold OpenRuns. rewrite decide_False by done. eexists. split; [done|]. split.
  - apply open_list_nodup.
  - intros run. rewrite open_list_elem. by apply reachable_index_ok.
Qed.

Lemma open_runs_are_unfinished_witness :
  ∃ runs, OpenRuns "acme" example_db = Ok runs ∧ "r1" ∈ runs.
Proof.
  destruct (open_runs_are_unfinished example_db "acme") as (runs & E & _ & Hiff); [|done|].
  - apply reach_step; [apply reach_step; [apply reach_step; [apply reach_empty| |done|done]
      | |done|done]| |done|done].
    + intros _ (x & Hx%elem_of_nil & _). done.
    + intros _ (x & Hx & Er & Ec). apply list_elem_of_singleton in Hx. by injection Hx as ->.
    + intros Hc. discriminate Hc.
  - exists runs. split; [done|]. apply Hiff. split.
    + exists (with_sequence (example_event "r1" "" RunCreated 1000000000) 1).
      split_and!; [|done|done]. by left.
    + intros (x & Hx & Er & Ec).
      assert (Hall : Forall (λ r : Row, closesRun (ev_Type r.2) = false) (run_events example_db))
        by (by repeat constructor).
      rewrite Forall_forall in Hall. specialize (Hall _ Hx). simpl in Hall. congruence.
Defined.

(** A redelivered event changes nothing: appending the very row an earlier
    append wrote, position included, leaves the whole database as it was, the
    open-run index included — a replayed creation does not reopen a run. *)
Theorem append_idempotent (d : Dialect) (tenant : string) (e : Event) (db db' : DB) :
  ev_Sequence e ≠ 0 → StoreAppend d tenant e db = (db', Ok tt) →
  StoreAppend d tenant e db' = (db', Ok tt).
Proof.
  intros Hz Hs. pose proof Hs as Hok. apply Append_Ok in Hs as (Ht & Er & Eo).
  assert (Ep : ∀ x, positioned x tenant e = e) by (intros; unfold positioned; by rewrite decide_False).
  rewrite Ep in Er. unfold StoreAppend, WithTx, Append in *. rewrite decide_False in * by done.
  case_decide; [done|]. rewrite allocate_spec, Ep, decide_False by done. unfold insert_event.
  cbn [run_events]. assert (existsb (conflicts (tenant, e)) (run_events db') = true) as ->.
  { rewrite Er. unfold written. rewrite Ep.
    destruct (existsb (conflicts (tenant, e)) (run_events db)) eqn:Ex; simpl.
    - by rewrite app_nil_r.
    - rewrite existsb_app. simpl. unfold conflicts at 2. unfold same_key, same_step, same_run.
      rewrite !bool_decide_true by done. by rewrite orb_true_r. }
  by destruct db'.
Qed.

Lemma append_idempotent_witness :
  let e := mkEvent "r1" "" 0 7 RunCreated "" 0 in
  let db := (StoreAppend DialectSQLite "acme" e empty_db).1 in
  StoreAppend DialectSQLite "acme" e db = (db, Ok tt).
Proof. intros e db. by apply (append_idempotent DialectSQLite "acme" e empty_db). Defined.

(** The stored timestamps do not sort in time order: the text form drops
    the trailing zeros of the fraction, and the [Z] that ends it sorts above
    the digits and the point. A run created half a second after another is
    listed before it. *)
Theorem time_text_not_chronological :
  (∃ t1 t2, t1 < t2 ∧ ¬ String.le (FormatTime t1) (FormatTime t2))
  ∧ ev_At <$> (tenant_events (run_events example_db) "acme") = [1000000000; 1500000000; 2000000000]
  ∧ OpenRuns "acme" example_db = Ok ["r2"; "r1"].
Proof.
  split; [|by vm_compute]. exists 1000000000, 1500000000. split; [lia|]. by vm_compute.
Qed.
