(* ===== verification/Wait.v ===== *)
(** * Durable waits: [internal/wait]

    A wait is a row of [run_timers] beside the run log: arming writes the row
    and the gating event in one transaction, and the poll claims what is due,
    marks it fired, and either retires it or appends the events that end the
    wait. The rows keep the instant; comparing them is comparing the text the
    database stores. *)

From S2P Require Import Prelude Bytes RunStore.

Definition StepTimerFired : string := "STEP_TIMER_FIRED".
Definition StepAwaitingTimer : string := "STEP_AWAITING_TIMER".

(** The instant a zero [time.Time] is. *)
Definition zero_time : Z := -62135596800 * NanosPerSecond.

Record Due : Type := mkDue { du_Tenant : string; du_Run : string; du_Step : string; du_At : Z }.

#[export] Instance Due_eq_dec : EqDecision Due.
Proof. solve_decision. Defined.

Record Timer : Type := mkTimer { t_due_at : Z; t_fired_at : option Z }.

Abbreviation TimerKey := (string * string * string)%type.

Record WaitDB : Type := mkWaitDB { wd_log : DB; wd_timers : gmap (string * string * string) Timer }.

Definition empty_wait_db : WaitDB := mkWaitDB empty_db ∅.

Inductive WaitErr : Type :=
| WaitTenantRequired
| ErrRunRequired
| DueRequired
| WaitStore (e : StoreErr).

Section Wait.
(** [json.Marshal] of the two payloads and [proto.Marshal] of the status. *)
Context (dialect : Dialect) (scheduled_payload : Z → string) (fired_payload : Z → Z → string)
  (status_payload : string → string → string).

(** [tx.Append] on the log the transaction holds. *)
Definition tx_append (tenant : string) (e : Event) : prog WaitDB WaitErr unit := λ w,
  match Append dialect tenant e (wd_log w) with
  | (db, Ok _) => (mkWaitDB db (wd_timers w), Ok tt)
  | (db, Err e) => (mkWaitDB db (wd_timers w), Err (WaitStore e))
  end.

Definition arm (tenant run step : string) (due now : Z) : prog WaitDB WaitErr unit := λ w,
  match wd_timers w !! (tenant, run, step) with
  | Some _ => (w, Ok tt)
  | None =>
      (_ ← tx_append tenant (mkEvent run step 0 0 StepAwaitingTimer (scheduled_payload due) now);
       pmodify (λ w, mkWaitDB (wd_log w) (<[(tenant, run, step) := mkTimer due None]> (wd_timers w)))) w
  end.

Definition ArmInTx (tenant run step : string) (at_ now : Z) : prog WaitDB WaitErr unit :=
  if decide (tenant = "") then pfail WaitTenantRequired
  else if decide (run = "" ∨ step = "") then pfail ErrRunRequired
  else if decide (at_ = zero_time) then pfail DueRequired
  else arm tenant run step at_ now.

Definition Schedule (tenant run step : string) (at_ now : Z) : prog WaitDB WaitErr unit :=
  WithTx (ArmInTx tenant run step at_ now).

Definition Pending (tenant run step : string) (w : WaitDB) : result WaitErr (option Z) :=
  if decide (tenant = "") then Err WaitTenantRequired
  else if decide (run = "" ∨ step = "") then Err ErrRunRequired
  else match wd_timers w !! (tenant, run, step) with
       | Some (mkTimer due None) => Ok (Some due)
       | _ => Ok None
       end.

(** *** The poll *)

Definition due_le (a b : Due) : Prop := String.le (FormatTime (du_At a)) (FormatTime (du_At b)).
#[local] Instance due_le_dec : RelDecision due_le.
Proof. intros a b. unfold due_le. apply _. Defined.

(** [WHERE fired_at IS NULL AND due_at <= ?], on the text. *)
Definition outstanding_due (now : Z) (p : TimerKey * Timer) : option Due :=
  let '((tenant, run, step), t) := p in
  match t_fired_at t with
  | Some _ => None
  | None => if decide (String.le (FormatTime (t_due_at t)) (FormatTime now))
            then Some (mkDue tenant run step (t_due_at t)) else None
  end.

Definition claim (now : Z) (batch : nat) (w : WaitDB) : list Due :=
  take batch (merge_sort due_le (omap (outstanding_due now) (map_to_list (wd_timers w)))).

Definition markFired (d : Due) (at_ : Z) (w : WaitDB) : WaitDB :=
  mkWaitDB (wd_log w)
    (alter (λ t, match t_fired_at t with
                 | None => mkTimer (t_due_at t) (Some at_)
                 | Some _ => t
                 end) (du_Tenant d, du_Run d, du_Step d) (wd_timers w)).

Definition retired (d : Due) (w : WaitDB) : bool :=
  existsb (λ e, bool_decide (ev_RunID e = du_Run d) &&
             (bool_decide (ev_Type e ∈ [RunCompleted; RunFailed])
              || (bool_decide (ev_StepID e = du_Step d)
                  && bool_decide (ev_Type e ∈ [StepSucceeded; StepFailed]))))
    (tenant_events (run_events (wd_log w)) (du_Tenant d)).

Definition resume (d : Due) (at_ : Z) : prog WaitDB WaitErr unit :=
  _ ← tx_append (du_Tenant d)
        (mkEvent (du_Run d) (du_Step d) 0 0 StepTimerFired (fired_payload (du_At d) at_) at_);
  tx_append (du_Tenant d)
    (mkEvent (du_Run d) (du_Step d) 0 0 StepSucceeded (status_payload (du_Run d) (du_Step d)) at_).

Fixpoint fire_all (at_ : Z) (claimed : list Due) : prog WaitDB WaitErr (list Due) :=
  match claimed with
  | [] => mret []
  | d :: claimed => λ w,
      let w := markFired d at_ w in
      if retired d w then fire_all at_ claimed w
      else (_ ← resume d at_; fired ← fire_all at_ claimed; mret (d :: fired)) w
  end.

(** [Timers.Due]. *)
Definition PollDue (now : Z) (batch : nat) : prog WaitDB WaitErr (list Due) :=
  WithTx (λ w, fire_all now (claim now batch w) w).

End Wait.

(** [Runner.Tick] over whatever advances runs: an advance that fails does not
    put the timer back. *)
Fixpoint advance_all {S E} (advance : string → string → prog S E unit) (due : list Due)
    (fired : Z) : prog S E Z :=
  match due with
  | [] => mret fired
  | d :: due => _ ← advance (du_Tenant d) (du_Run d); advance_all advance due (fired + 1)
  end.
