(* ===== verification/WaitFacts.v ===== *)
(** * What a durable wait guarantees

    A timer fires once however often it is polled; arming is idempotent — and
    two places where the code does not do what it says: a timer may fire up
    to a second early, and a cancelled run's timer still fires. *)

From S2P Require Import Prelude Bytes RunStore RunStoreFacts Wait.

Section Facts.
Context (dialect : Dialect) (scheduled_payload : Z → string) (fired_payload : Z → Z → string)
  (status_payload : string → string → string).

Abbreviation tx_append := (tx_append dialect).
Abbreviation ArmInTx := (ArmInTx dialect scheduled_payload).
Abbreviation Schedule := (Schedule dialect scheduled_payload).
Abbreviation PollDue := (PollDue dialect fired_payload status_payload).
Abbreviation fire_all := (fire_all dialect fired_payload status_payload).
Abbreviation resume := (resume dialect fired_payload status_payload).

Definition key_of_due (d : Due) : TimerKey := (du_Tenant d, du_Run d, du_Step d).

Definition has_fired (w : WaitDB) (k : TimerKey) : Prop :=
  ∃ t a, wd_timers w !! k = Some t ∧ t_fired_at t = Some a.

Lemma tx_append_timers tenant e w : wd_timers (tx_append tenant e w).1 = wd_timers w.
Proof. unfold Wait.tx_append. by destruct (Append dialect tenant e (wd_log w)) as [db []]. Qed.

Lemma resume_timers d at_ w : wd_timers (resume d at_ w).1 = wd_timers w.
Proof.
  unfold Wait.resume, mbind, prog_bind. pose proof (tx_append_timers (du_Tenant d)
    (mkEvent (du_Run d) (du_Step d) 0 0 StepTimerFired (fired_payload (du_At d) at_) at_) w) as H1.
  destruct (tx_append _ _ w) as [w1 []]; simpl in *; [|done]. by rewrite tx_append_timers.
Qed.

Lemma markFired_keeps d at_ w k : has_fired w k → has_fired (markFired d at_ w) k.
Proof.
  intros (t & a & Hk & Ht). unfold has_fired, markFired. simpl.
  destruct (decide (key_of_due d = k)) as [<-|Hne].
  - exists t, a. split; [|done]. unfold key_of_due in *. by rewrite lookup_alter_eq, Hk; simpl; rewrite Ht.
  - exists t, a. by rewrite lookup_alter_ne.
Qed.

Lemma markFired_fires d at_ w :
  is_Some (wd_timers w !! key_of_due d) → has_fired (markFired d at_ w) (key_of_due d).
Proof.
  intros [t Ht]. unfold has_fired, markFired, key_of_due in *. simpl.
  rewrite lookup_alter_eq, Ht. simpl. destruct (t_fired_at t) as [a|] eqn:E; eauto.
Qed.

Lemma fire_all_keeps at_ claimed w k :
  has_fired w k → has_fired (fire_all at_ claimed w).1 k.
Proof.
  revert w. induction claimed as [|d l IH]; intros w Hk; [done|]. cbn [Wait.fire_all].
  apply (markFired_keeps d at_) in Hk. destruct (retired d (markFired d at_ w)); [by apply IH|].
  unfold mbind at 1, prog_bind at 1. pose proof (resume_timers d at_ (markFired d at_ w)) as Ht.
  destruct (resume d at_ (markFired d at_ w)) as [w1 [[]|e]]; simpl in Ht.
  - unfold mbind, prog_bind. specialize (IH w1).
    assert (has_fired w1 k) as H1 by (unfold has_fired in *; by rewrite Ht).
    specialize (IH H1). by destruct (fire_all at_ l w1) as [w2 []].
  - simpl. unfold has_fired in *. by rewrite Ht.
Qed.

(** What a poll returned is claimed, and every claimed row is marked. *)
Lemma fire_all_marks at_ claimed w w' fired :
  fire_all at_ claimed w = (w', Ok fired) →
  (∀ d, d ∈ claimed → is_Some (wd_timers w !! key_of_due d)) →
  (∀ d, d ∈ claimed → has_fired w' (key_of_due d)) ∧ sublist fired claimed.
Proof.
  revert w fired. induction claimed as [|d l IH]; intros w fired Hf Hin.
  { cbn in Hf. injection Hf as <- <-. split; [by intros d ?%elem_of_nil|done]. }
  assert (Hd : has_fired (markFired d at_ w) (key_of_due d)).
  { apply markFired_fires, Hin. by left. }
  assert (Hl : ∀ d0 w1, wd_timers w1 = wd_timers (markFired d at_ w) → d0 ∈ l →
    is_Some (wd_timers w1 !! key_of_due d0)).
  { intros d0 w1 -> Hd0. unfold markFired. simpl.
    destruct (decide (key_of_due d = key_of_due d0)) as [E|Hne].
    - unfold key_of_due in *. rewrite E, lookup_alter_eq.
      apply fmap_is_Some. apply (Hin d0). by right.
    - unfold key_of_due in *. rewrite lookup_alter_ne by done. apply (Hin d0). by right. }
  cbn [Wait.fire_all] in Hf. destruct (retired d (markFired d at_ w)).
  - pose proof (fire_all_keeps at_ l _ _ Hd) as Hk. rewrite Hf in Hk.
    destruct (IH _ _ Hf (λ d0 Hd0, Hl d0 _ eq_refl Hd0)) as [H1 H2].
    split; [|by apply sublist_cons]. intros d0 [->|Hd0]%elem_of_cons; auto.
  - unfold mbind at 1, prog_bind at 1 in Hf.
    pose proof (resume_timers d at_ (markFired d at_ w)) as Ht.
    destruct (resume d at_ (markFired d at_ w)) as [w1 [[]|e]]; [|done]. simpl in Ht.
    assert (Hd1 : has_fired w1 (key_of_due d)) by (unfold has_fired in *; by rewrite Ht).
    pose proof (fire_all_keeps at_ l _ _ Hd1) as Hk.
    unfold mbind, prog_bind in Hf. destruct (fire_all at_ l w1) as [w2 [fs|e]] eqn:Ef; [|done].
    cbn in Hf. injection Hf as <- <-.
    destruct (IH _ _ Ef (λ d0 Hd0, Hl d0 _ Ht Hd0)) as [H1 H2].
    split; [|by apply sublist_skip]. intros d0 [->|Hd0]%elem_of_cons; auto.
Qed.

Lemma fmap_sublist {A B} (f : A → B) l k : l `sublist_of` k → f <$> l `sublist_of` f <$> k.
Proof. induction 1; simpl; by constructor. Qed.

Lemma sort_due_Permutation l : merge_sort due_le l ≡ₚ l.
Proof. apply merge_sort_Permutation. Qed.

Lemma claim_elem now batch w d :
  d ∈ claim now batch w →
  ∃ t, wd_timers w !! key_of_due d = Some t ∧ t_fired_at t = None ∧ du_At d = t_due_at t
    ∧ String.le (FormatTime (t_due_at t)) (FormatTime now).
Proof.
  unfold claim. intros Hd. apply elem_of_take in Hd as (i & Hi & _).
  apply list_elem_of_lookup_2 in Hi. rewrite sort_due_Permutation in Hi.
  apply list_elem_of_omap in Hi as ([[[tn r] s] t] & Hin & Hs). apply elem_of_map_to_list in Hin.
  unfold outstanding_due in Hs. destruct (t_fired_at t) eqn:Ef; [discriminate Hs|].
  case_decide as Hle; [|discriminate Hs]. injection Hs as <-. exists t.
  split; [exact Hin|]. split; [exact Ef|]. split; [reflexivity|exact Hle].
Qed.

Lemma claim_nodup now batch w : NoDup (key_of_due <$> claim now batch w).
Proof.
  unfold claim. eapply sublist_NoDup; [|apply fmap_sublist, sublist_take].
  rewrite sort_due_Permutation. apply NoDup_omap_key; [|apply NoDup_fst_map_to_list].
  intros [[[tn r] st] t] d _ Hs. unfold outstanding_due in Hs.
  destruct (t_fired_at t); [discriminate Hs|]. case_decide; [|discriminate Hs].
  by injection Hs as <-.
Qed.

(** ** Histories of a timer table *)

Inductive WaitOp : Type :=
| OpSchedule (tenant run step : string) (at_ now : Z)
| OpPoll (now : Z) (batch : nat)
| OpAppend (tenant : string) (e : Event).

(** One operation: the database after it and what a poll fired. *)
Definition wait_step (w : WaitDB) (o : WaitOp) : WaitDB * list Due :=
  match o with
  | OpSchedule tenant run step at_ now => ((Schedule tenant run step at_ now w).1, [])
  | OpPoll now batch =>
      match PollDue now batch w with
      | (w', Ok fired) => (w', fired)
      | (w', Err _) => (w', [])
      end
  | OpAppend tenant e => ((WithTx (tx_append tenant e) w).1, [])
  end.

Fixpoint wait_run (w : WaitDB) (ops : list WaitOp) : WaitDB * list Due :=
  match ops with
  | [] => (w, [])
  | o :: ops =>
      let '(w, fired) := wait_step w o in
      let '(w, later) := wait_run w ops in (w, fired ++ later)
  end.

Lemma Schedule_keeps tenant run step at_ now w k :
  has_fired w k → has_fired (Schedule tenant run step at_ now w).1 k.
Proof.
  intros Hk. unfold Wait.Schedule, WithTx, Wait.ArmInTx. repeat (case_decide; [done|]).
  unfold arm. destruct (wd_timers w !! (tenant, run, step)) eqn:El; [done|].
  unfold mbind, prog_bind. set (e := mkEvent _ _ _ _ _ _ _).
  pose proof (tx_append_timers tenant e w) as Ht.
  destruct (tx_append tenant e w) as [w1 [u|err]]; [|done]. simpl in *.
  destruct Hk as (t & a & Hk & Ha). exists t, a. split; [|done]. simpl. rewrite Ht.
  rewrite lookup_insert_ne; [done|]. intros <-. congruence.
Qed.

Lemma wait_step_keeps w o k : has_fired w k → has_fired (wait_step w o).1 k.
Proof.
  intros Hk. destruct o as [tenant run step at_ now|now batch|tenant e]; simpl.
  - by apply Schedule_keeps.
  - unfold Wait.PollDue, WithTx. pose proof (fire_all_keeps now (claim now batch w) w k Hk) as H.
    by destruct (fire_all now (claim now batch w) w) as [w' []].
  - unfold WithTx. pose proof (tx_append_timers tenant e w) as Ht.
    destruct (tx_append tenant e w) as [w' []]; [|done]. simpl in *.
    unfold has_fired in *. by rewrite Ht.
Qed.

(** What a step fires was outstanding before it and has fired after it. *)
Lemma wait_step_fires w o :
  NoDup (key_of_due <$> (wait_step w o).2) ∧
  ∀ d, d ∈ (wait_step w o).2 → ¬ has_fired w (key_of_due d) ∧ has_fired (wait_step w o).1 (key_of_due d).
Proof.
  destruct o as [tenant run step at_ now|now batch|tenant e]; simpl;
    [split; [by apply NoDup_nil|by intros d ?%elem_of_nil]| |
     split; [by apply NoDup_nil|by intros d ?%elem_of_nil]].
  unfold Wait.PollDue, WithTx.
  destruct (fire_all now (claim now batch w) w) as [w' [fired|err]] eqn:Ef; simpl;
    [|split; [by apply NoDup_nil|by intros d ?%elem_of_nil]].
  destruct (fire_all_marks now (claim now batch w) w w' fired Ef) as [Hm Hs].
  { intros d Hd. apply claim_elem in Hd as (t & Ht & _). eauto. }
  split.
  - eapply sublist_NoDup; [apply claim_nodup|]. by apply fmap_sublist.
  - intros d Hd. assert (Hc : d ∈ claim now batch w) by (by eapply elem_of_sublist).
    split; [|by apply Hm]. apply claim_elem in Hc as (t & Ht & Hn & _).
    intros (t' & a & Ht' & Ha). congruence.
Qed.

Lemma wait_run_fires_once ops w :
  NoDup (key_of_due <$> (wait_run w ops).2) ∧
  ∀ d, d ∈ (wait_run w ops).2 → ¬ has_fired w (key_of_due d).
Proof.
  revert w. induction ops as [|o ops IH]; intros w; simpl.
  { split; [by apply NoDup_nil|by intros d ?%elem_of_nil]. }
  pose proof (wait_step_fires w o) as [Hnd Hf].
  assert (Hkeep : ∀ k, has_fired w k → has_fired (wait_step w o).1 k) by (intros; by apply wait_step_keeps).
  destruct (wait_step w o) as [w1 fired]. simpl in *. specialize (IH w1).
  destruct (wait_run w1 ops) as [w2 later]. simpl in *. destruct IH as [Hnd2 Hf2]. split.
  - rewrite fmap_app. apply NoDup_app. split_and!; [done| |done].
    intros k Hk Hk2. apply list_elem_of_fmap in Hk as (d & -> & Hd).
    apply list_elem_of_fmap in Hk2 as (d2 & E & Hd2).
    apply (Hf2 d2 Hd2). rewrite <-E. by apply Hf.
  - intros d [Hd|Hd]%elem_of_app; [by apply Hf|]. intros Hw. by apply (Hf2 d Hd), Hkeep.
Qed.

Lemma arm_existing tenant run step at_ now w t :
  wd_timers w !! (tenant, run, step) = Some t → (Schedule tenant run step at_ now w).1 = w.
Proof.
  intros El. unfold Wait.Schedule, WithTx, Wait.ArmInTx. repeat (case_decide; [done|]).
  unfold arm. by rewrite El.
Qed.

End Facts.

(** ** Properties *)

(** A timer fires once: over any history of schedules, polls at any times
    with any batch, and appends by other writers, starting from an empty
    table, no (tenant, run, step) is ever handed out by two polls or twice by
    one — coming back days late fires it once, and nothing puts it back. *)
Theorem timer_fires_once (dialect : Dialect) (scheduled : Z → string) (fired : Z → Z → string)
    (status : string → string → string) (ops : list WaitOp) :
  NoDup (key_of_due <$> (wait_run dialect scheduled fired status empty_wait_db ops).2).
Proof. apply wait_run_fires_once. Qed.

(** A poll can fire a timer before it is due: due times are compared as
    text, and [...00.5Z] sorts below [...00Z], so a wait that ends half a
    second into a second ends at the start of it. *)
Theorem timer_fires_early (dialect : Dialect) (scheduled : Z → string) (fired : Z → Z → string)
    (status : string → string → string) :
  ∃ due now, now < due ∧
    (wait_run dialect scheduled fired status empty_wait_db
       [OpSchedule "acme" "r1" "gate" due 0; OpPoll now 100]).2
    = [mkDue "acme" "r1" "gate" due].
Proof. exists 1700000000500000000, 1700000000000000000. split; [lia|]. by destruct dialect; vm_compute. Qed.

(** A cancelled run's timer is not retired: the poll looks for a completed
    or a failed run and not for a cancelled one, so the timer fires, the step
    is recorded as succeeded after the run's end, and the run is handed on to
    be advanced. *)
Theorem cancelled_run_timer_fires (dialect : Dialect) (scheduled : Z → string) (fired : Z → Z → string)
    (status : string → string → string) :
  ∃ ops w due, wait_run dialect scheduled fired status empty_wait_db ops = (w, [due])
    ∧ map (λ r, ev_Type r.2) (run_events (wd_log w))
      = [RunCreated; StepAwaitingTimer; RunCancelled; StepTimerFired; StepSucceeded].
Proof.
  exists [OpAppend "acme" (mkEvent "r1" "" 0 0 RunCreated "" 0);
          OpSchedule "acme" "r1" "gate" 5000000000 0;
          OpAppend "acme" (mkEvent "r1" "" 0 0 RunCancelled "" 1000000000);
          OpPoll 9000000000 100].
  eexists _, _. by destruct dialect; vm_compute.
Qed.
