(* ===== verification/Lease.v ===== *)
(** * Step leases: [internal/lease]

    The lease code as programs over the NATS key-value bucket. A program is a
    tree of bucket operations ([Cmd]); what the bucket does with one is the
    class [KVStore], whose laws are the documented behaviour of a JetStream
    key-value store with one copy of the truth: every effective write takes a
    fresh revision, the sequence number of the bucket's stream, [Create] needs the key absent, [Update] and a
    conditional [Delete] need the latest revision, and a call may fail whether
    or not it took effect. Several planes run at once: [run] interleaves a
    program with everyone else's steps. JSON is a parameter. *)

From S2P Require Import Prelude Bytes.

(** ** The bucket *)

Inductive KVErr : Type := LostRace | OtherErr (e : string).

Inductive KVOp : Type :=
| OGet (key : string)
| OKeys
| OCreate (key value : string)
| OUpdate (key value : string) (revision : Z)
| OPut (key value : string)
| ODelete (key : string) (last : option Z).

Inductive KVRes : Type :=
| RVal (v : option (string * Z))
| RKeys (l : list string)
| RRev (r : Z)
| RDone
| RErr (e : KVErr).

Class KVStore : Type :=
  { kv : Type;
    kv_get : kv → string → option (string * Z);
    (** The latest revision written for a key, a delete marker's included,
        and the latest of the bucket. *)
    kv_latest : kv → string → option Z;
    kv_last : kv → Z;
    kv_do : kv → KVOp → kv → KVRes → Prop }.

(** An effective write at a key: a value, or a delete marker. *)
Definition wrote `{KVStore} (s : kv) (key : string) (v : option string) (r : Z) (s' : kv) : Prop :=
  kv_last s < r ∧ kv_last s' = r
  ∧ kv_get s' key = (λ x, (x, r)) <$> v ∧ kv_latest s' key = Some r
  ∧ ∀ key', key' ≠ key → kv_get s' key' = kv_get s key' ∧ kv_latest s' key' = kv_latest s key'.

(** What an operation does when it takes effect, at revision [r]. *)
Definition effect `{KVStore} (s : kv) (o : KVOp) (r : Z) (s' : kv) : Prop :=
  match o with
  | OGet _ | OKeys => False
  | OCreate key v => kv_get s key = None ∧ wrote s key (Some v) r s'
  | OUpdate key v rev => kv_latest s key = Some rev ∧ wrote s key (Some v) r s'
  | OPut key v => wrote s key (Some v) r s'
  | ODelete key last => (∀ rev, last = Some rev → kv_latest s key = Some rev) ∧ wrote s key None r s'
  end.

Class KVLaws `{KVStore} : Prop :=
  { get_latest s key v r : kv_get s key = Some (v, r) → kv_latest s key = Some r;
    latest_last s key r : kv_latest s key = Some r → 0 < r ≤ kv_last s;
    latest_inj s k1 k2 r : kv_latest s k1 = Some r → kv_latest s k2 = Some r → k1 = k2;
    do_get s key s' res : kv_do s (OGet key) s' res →
      s' = s ∧ (res = RVal (kv_get s key) ∨ ∃ e, res = RErr (OtherErr e));
    do_keys s s' res : kv_do s OKeys s' res →
      s' = s ∧ ((∃ l, res = RKeys l ∧ ∀ k, k ∈ l → is_Some (kv_get s k)) ∨ ∃ e, res = RErr (OtherErr e));
    do_write s o s' res : o ≠ OKeys → (∀ k, o ≠ OGet k) → kv_do s o s' res →
      (s' = s ∧ ∃ e, res = RErr e)
      ∨ (∃ r, effect s o r s' ∧
           ((∃ e, res = RErr (OtherErr e))
            ∨ match o with ODelete _ _ => res = RDone | _ => res = RRev r end)) }.

(** ** Programs *)

Inductive Cmd (R : Type) : Type :=
| Ret (r : R)
| Op (o : KVOp) (k : KVRes → Cmd R)
| Now (k : Z → Cmd R).
Arguments Ret {R} r.
Arguments Op {R} o k.
Arguments Now {R} k.

Fixpoint cmd_bind {A B} (c : Cmd A) (f : A → Cmd B) : Cmd B :=
  match c with
  | Ret a => f a
  | Op o k => Op o (λ res, cmd_bind (k res) f)
  | Now k => Now (λ t, cmd_bind (k t) f)
  end.

(** ** [lease.go] *)

Inductive LeaseErr : Type :=
| ErrFenced
| ErrAlreadyOffered (current : Z)
| ErrTenantRequired
| ErrRunRequired
| BadTTL
| Reading (e : KVErr)
| Writing (e : KVErr)
| Decoding (key : string)
| KeptChanging
| Unexpected.

Record Token : Type := mkToken { tk_Value : string; tk_Fence : Z }.

Record Orphan : Type := mkOrphan
  { or_Tenant : string; or_Run : string; or_Step : string; or_Attempt : Z; or_Fence : Z }.

Record Waiting : Type := mkWaiting
  { wt_Tenant : string; wt_Run : string; wt_Step : string; wt_Attempt : Z; wt_Fence : Z;
    wt_OfferedAt : Z }.

(** ** [kv.go] *)

Definition claimPrefix : string := "lease.".
Definition renewPrefix : string := "renew.".

Definition encode (segment : string) : string := b64_encode segment.

Definition claimKey (tenant run step : string) : result LeaseErr string :=
  if decide (tenant = "") then Err ErrTenantRequired
  else if decide (run = "" ∨ step = "") then Err ErrRunRequired
  else Ok (claimPrefix +:+ encode tenant +:+ "." +:+ encode run +:+ "." +:+ encode step).

Definition renewKeyFor (claim : string) : string := renewPrefix +:+ trim_prefix claimPrefix claim.

Record claimRecord : Type := mkClaim
  { cl_Tenant : string; cl_Run : string; cl_Step : string; cl_Attempt : Z; cl_TTLNanos : Z;
    cl_ExpiresAt : Z; cl_Offered : bool }.

Record renewRecord : Type := mkRenew { rn_Fence : Z; rn_ExpiresAt : Z }.

(** [encoding/json] for the two records. *)
Class LeaseJSON : Type :=
  { enc_claim : claimRecord → string;
    dec_claim : string → option claimRecord;
    enc_renew : renewRecord → string;
    dec_renew : string → option renewRecord }.

Class LeaseJSONLaws `{LeaseJSON} : Prop :=
  { dec_enc_claim r : dec_claim (enc_claim r) = Some r;
    dec_enc_renew r : dec_renew (enc_renew r) = Some r }.

Section Code.
Context `{LeaseJSON}.

Definition maxOfferRaces : nat := 8.

(** The compare-and-set loop of [take]. *)
Fixpoint take_loop (races : nat) (key data : string) (attempt : Z) : Cmd (result LeaseErr Token) :=
  match races with
  | O => Ret (Err KeptChanging)
  | S races =>
      let after := λ res,
        match res with
        | RRev fence => Ret (Ok (mkToken key fence))
        | RErr LostRace => take_loop races key data attempt
        | RErr e => Ret (Err (Writing e))
        | _ => Ret (Err Unexpected)
        end in
      Op (OGet key) (λ res,
        match res with
        | RVal None => Op (OCreate key data) after
        | RVal (Some (v, revision)) =>
            match dec_claim v with
            | None => Ret (Err (Decoding key))
            | Some current =>
                if decide (attempt ≤ cl_Attempt current)
                then Ret (Err (ErrAlreadyOffered (cl_Attempt current)))
                else Op (OUpdate key data revision) after
            end
        | RErr e => Ret (Err (Reading e))
        | _ => Ret (Err Unexpected)
        end)
  end.

Definition take (tenant run step : string) (attempt ttl : Z) (offered : bool)
    : Cmd (result LeaseErr Token) :=
  match claimKey tenant run step with
  | Err e => Ret (Err e)
  | Ok key =>
      if decide (ttl ≤ 0) then Ret (Err BadTTL)
      else Now (λ now,
        take_loop maxOfferRaces key
          (enc_claim (mkClaim tenant run step attempt ttl (now + ttl) offered)) attempt)
  end.

Definition Claim (tenant run step : string) (attempt ttl : Z) : Cmd (result LeaseErr Token) :=
  take tenant run step attempt ttl false.
Definition Offer (tenant run step : string) (attempt ttl : Z) : Cmd (result LeaseErr Token) :=
  take tenant run step attempt ttl true.

(** [current]: the claim a token names, or [ErrFenced]. *)
Definition current (t : Token) : Cmd (result LeaseErr claimRecord) :=
  if decide (tk_Value t = "" ∨ tk_Fence t = 0) then Ret (Err ErrFenced)
  else Op (OGet (tk_Value t)) (λ res,
    match res with
    | RVal None => Ret (Err ErrFenced)
    | RVal (Some (v, revision)) =>
        if decide (revision ≠ tk_Fence t) then Ret (Err ErrFenced)
        else match dec_claim v with
             | None => Ret (Err (Decoding (tk_Value t)))
             | Some r => Ret (Ok r)
             end
    | RErr e => Ret (Err (Reading e))
    | _ => Ret (Err Unexpected)
    end).

Definition Validate (t : Token) : Cmd (result LeaseErr unit) :=
  cmd_bind (current t) (λ r, Ret (match r with Ok _ => Ok tt | Err e => Err e end)).

Definition Renew (t : Token) : Cmd (result LeaseErr unit) :=
  cmd_bind (current t) (λ r,
    match r with
    | Err e => Ret (Err e)
    | Ok record => Now (λ now,
        Op (OPut (renewKeyFor (tk_Value t))
              (enc_renew (mkRenew (tk_Fence t) (now + cl_TTLNanos record)))) (λ res,
          match res with
          | RErr e => Ret (Err (Writing e))
          | _ => Ret (Ok tt)
          end))
    end).

(** [deadline]: when the lease expires, and whether it has a holder. *)
Definition deadline_of (fence : Z) (record : claimRecord) (renewal : option renewRecord) : Z * bool :=
  match renewal with
  | None => (cl_ExpiresAt record, negb (cl_Offered record))
  | Some renewal =>
      if decide (rn_Fence renewal ≠ fence) then (cl_ExpiresAt record, negb (cl_Offered record))
      else if decide (cl_Offered record = true ∨ cl_ExpiresAt record ≤ rn_ExpiresAt renewal)
      then (rn_ExpiresAt renewal, true)
      else (cl_ExpiresAt record, true)
  end.

Definition deadline (key : string) (fence : Z) (record : claimRecord)
    : Cmd (result LeaseErr (Z * bool)) :=
  Op (OGet (renewKeyFor key)) (λ res,
    match res with
    | RVal None => Ret (Ok (deadline_of fence record None))
    | RVal (Some (v, _)) =>
        match dec_renew v with
        | None => Ret (Err (Decoding key))
        | Some renewal => Ret (Ok (deadline_of fence record (Some renewal)))
        end
    | RErr e => Ret (Err (Reading e))
    | _ => Ret (Err Unexpected)
    end).

Definition expireOne (key : string) : Cmd (result LeaseErr (option Orphan)) :=
  Op (OGet key) (λ res,
    match res with
    | RVal None => Ret (Ok None)
    | RVal (Some (v, revision)) =>
        match dec_claim v with
        | None => Ret (Err (Decoding key))
        | Some record =>
            cmd_bind (deadline key revision record) (λ d,
              match d with
              | Err e => Ret (Err e)
              | Ok (_, false) => Ret (Ok None)
              | Ok (at_, true) => Now (λ now,
                  if decide (now ≤ at_) then Ret (Ok None)
                  else Op (ODelete key (Some revision)) (λ res,
                    match res with
                    | RErr _ => Ret (Ok None)
                    | _ => Op (ODelete (renewKeyFor key) None) (λ _,
                        Ret (Ok (Some (mkOrphan (cl_Tenant record) (cl_Run record) (cl_Step record)
                                         (cl_Attempt record) revision))))
                    end))
              end)
        end
    | RErr e => Ret (Err (Reading e))
    | _ => Ret (Err Unexpected)
    end).

Fixpoint expire_keys (keys : list string) (orphans : list Orphan) : Cmd (result LeaseErr (list Orphan)) :=
  match keys with
  | [] => Ret (Ok orphans)
  | key :: keys =>
      if negb (has_prefix claimPrefix key) then expire_keys keys orphans
      else cmd_bind (expireOne key) (λ r,
        match r with
        | Err e => Ret (Err e)
        | Ok None => expire_keys keys orphans
        | Ok (Some o) => expire_keys keys (orphans ++ [o])
        end)
  end.

Definition Expire : Cmd (result LeaseErr (list Orphan)) :=
  Op OKeys (λ res,
    match res with
    | RKeys keys => expire_keys keys []
    | RErr e => Ret (Err (Reading e))
    | _ => Ret (Err Unexpected)
    end).

Definition Withdraw (t : Token) : Cmd (result LeaseErr unit) :=
  cmd_bind (current t) (λ r,
    match r with
    | Err e => Ret (Err e)
    | Ok record =>
        cmd_bind (deadline (tk_Value t) (tk_Fence t) record) (λ d,
          match d with
          | Err e => Ret (Err e)
          | Ok (_, true) => Ret (Err ErrFenced)
          | Ok (_, false) =>
              Op (ODelete (tk_Value t) (Some (tk_Fence t))) (λ res,
                match res with
                | RErr LostRace => Ret (Err ErrFenced)
                | RErr e => Ret (Err (Writing e))
                | _ => Ret (Ok tt)
                end)
          end)
    end).

Fixpoint unaccepted_keys (keys : list string) (waiting : list Waiting) : Cmd (result LeaseErr (list Waiting)) :=
  match keys with
  | [] => Ret (Ok waiting)
  | key :: keys =>
      if negb (has_prefix claimPrefix key) then unaccepted_keys keys waiting
      else Op (OGet key) (λ res,
        match res with
        | RVal None => unaccepted_keys keys waiting
        | RVal (Some (v, revision)) =>
            match dec_claim v with
            | None => Ret (Err (Decoding key))
            | Some record =>
                if negb (cl_Offered record) then unaccepted_keys keys waiting
                else cmd_bind (deadline key revision record) (λ d,
                  match d with
                  | Err e => Ret (Err e)
                  | Ok (_, true) => unaccepted_keys keys waiting
                  | Ok (_, false) =>
                      unaccepted_keys keys
                        (waiting ++ [mkWaiting (cl_Tenant record) (cl_Run record) (cl_Step record)
                           (cl_Attempt record) revision (cl_ExpiresAt record - cl_TTLNanos record)])
                  end)
            end
        | RErr e => Ret (Err (Reading e))
        | _ => Ret (Err Unexpected)
        end)
  end.

Definition Unaccepted : Cmd (result LeaseErr (list Waiting)) :=
  Op OKeys (λ res,
    match res with
    | RKeys keys => unaccepted_keys keys []
    | RErr e => Ret (Err (Reading e))
    | _ => Ret (Err Unexpected)
    end).

(** ** Planes running at once *)

(** An effective write, by whom and at which revision. *)
Record Ev : Type := mkEv { e_plane : nat; e_op : KVOp; e_rev : Z }.

Definition op_key (o : KVOp) : option string :=
  match o with
  | OGet _ | OKeys => None
  | OCreate k _ | OUpdate k _ _ | OPut k _ | ODelete k _ => Some k
  end.

Definition claim_key (key : string) : Prop := has_prefix claimPrefix key = true.

(** The discipline every writer of a claim key keeps: it is created with a
    claim in it, replaced only by a claim of a later attempt over the very
    record that was read, deleted only at the revision that was read, and
    never put or deleted blindly. *)
Definition allowed `{KVStore} (s : kv) (o : KVOp) : Prop :=
  match o with
  | OGet _ | OKeys => True
  | OCreate key v => claim_key key → is_Some (dec_claim v)
  | OUpdate key v rev => claim_key key →
      ∃ v0 old new, kv_get s key = Some (v0, rev) ∧ dec_claim v0 = Some old
        ∧ dec_claim v = Some new ∧ cl_Attempt old < cl_Attempt new
  | OPut key _ => ¬ claim_key key
  | ODelete key None => ¬ claim_key key
  | ODelete key (Some rev) => claim_key key → ∃ v0, kv_get s key = Some (v0, rev)
  end.

Inductive trace `{KVStore} : list Ev → kv → kv → Prop :=
| trace_nil s : trace [] s s
| trace_cons e es s s1 s' :
    effect s (e_op e) (e_rev e) s1 → allowed s (e_op e) → trace es s1 s' → trace (e :: es) s s'.

(** A program of plane [p], run among the others: before any step of its own,
    and after its end, any plane but [p] may take disciplined steps. Its own
    effective writes are recorded, disciplined or not. *)
Inductive run `{KVStore} {R} (p : nat) : Cmd R → list Ev → kv → kv → R → Prop :=
| run_ret x s : run p (Ret x) [] s s x
| run_env c e es s s1 s' x :
    e_plane e ≠ p → effect s (e_op e) (e_rev e) s1 → allowed s (e_op e) →
    run p c es s1 s' x → run p c (e :: es) s s' x
| run_now k t es s s' x : run p (k t) es s s' x → run p (Now k) es s s' x
| run_quiet o k res es s s' x :
    kv_do s o s res → run p (k res) es s s' x → run p (Op o k) es s s' x
| run_write o k res r es s s1 s' x :
    kv_do s o s1 res → effect s o r s1 → run p (k res) es s1 s' x →
    run p (Op o k) (mkEv p o r :: es) s s' x.

End Code.
