(* ===== verification/LeaseFacts.v ===== *)
(** * What a lease guarantees

    Every call of the lease package, however many are in progress at once,
    keeps the discipline claim keys are written under ([keeps], [sys]); from
    it, an attempt is leased to at most one caller between two removals of its
    claim, fences strictly increase, a superseded fence never validates, and a
    dead holder is reported to one sweeper. *)

From S2P Require Import Prelude Bytes Lease.

(** ** The package's calls, and any number of them in progress *)

(** A call of the lease service, with its arguments. *)
Inductive LeaseCall : Type :=
| LTake (tenant run step : string) (attempt ttl : Z) (offered : bool)
| LValidate (t : Token)
| LRenew (t : Token)
| LWithdraw (t : Token)
| LExpire
| LUnaccepted.

Inductive LeaseAns : Type :=
| AToken (r : result LeaseErr Token)
| ADone (r : result LeaseErr unit)
| AOrphans (r : result LeaseErr (list Orphan))
| AWaiting (r : result LeaseErr (list Waiting)).

Definition begin `{LeaseJSON} (j : LeaseCall) : Cmd LeaseAns :=
  match j with
  | LTake tenant run step attempt ttl offered =>
      cmd_bind (take tenant run step attempt ttl offered) (λ r, Ret (AToken r))
  | LValidate t => cmd_bind (Validate t) (λ r, Ret (ADone r))
  | LRenew t => cmd_bind (Renew t) (λ r, Ret (ADone r))
  | LWithdraw t => cmd_bind (Withdraw t) (λ r, Ret (ADone r))
  | LExpire => cmd_bind Expire (λ r, Ret (AOrphans r))
  | LUnaccepted => cmd_bind Unaccepted (λ r, Ret (AWaiting r))
  end.

Definition moved (pos : nat → Cmd LeaseAns) (n : nat) (c : Cmd LeaseAns) : nat → Cmd LeaseAns :=
  λ m, if decide (m = n) then c else pos m.

(** All the calls [calls], on any planes, run over one bucket that held
    [s0]: a step is one call's next operation, answered by the bucket as it is
    then. What the calls have written so far, by whom, is recorded. *)
Inductive sys `{LeaseJSON, KVStore} (calls : nat → LeaseCall) (s0 : kv) : (nat → Cmd LeaseAns) → list Ev → kv → Prop :=
| sys_start : sys calls s0 (λ n, begin (calls n)) [] s0
| sys_now pos h s n k t :
    sys calls s0 pos h s → pos n = Now k → sys calls s0 (moved pos n (k t)) h s
| sys_quiet pos h s n o k res :
    sys calls s0 pos h s → pos n = Op o k → kv_do s o s res →
    sys calls s0 (moved pos n (k res)) h s
| sys_write pos h s n o k r s' res :
    sys calls s0 pos h s → pos n = Op o k → kv_do s o s' res → effect s o r s' →
    sys calls s0 (moved pos n (k res)) (h ++ [mkEv n o r]) s'.

Section Facts.
Context `{LeaseJSONLaws, KVLaws}.

(** ** Effects *)

Lemma effect_wrote s o r s' :
  effect s o r s' → ∃ key v, op_key o = Some key ∧ wrote s key v r s'.
Proof. destruct o; simpl; try done; intros; destruct_and?; eauto. Qed.

Lemma effect_last s o r s' : effect s o r s' → kv_last s < r ∧ kv_last s' = r.
Proof. intros (key & v & _ & Hw)%effect_wrote. unfold wrote in Hw. tauto. Qed.

Lemma effect_frame s o r s' key :
  effect s o r s' → op_key o ≠ Some key →
  kv_get s' key = kv_get s key ∧ kv_latest s' key = kv_latest s key.
Proof.
  intros (k & v & Ek & Hw)%effect_wrote Hne. unfold wrote in Hw. destruct_and!.
  match goal with Hf : ∀ key', _ → _ |- _ => apply Hf end. congruence.
Qed.

Lemma effect_latest s o r s' key :
  effect s o r s' → op_key o = Some key → kv_latest s' key = Some r.
Proof.
  intros (k & v & Ek & Hw)%effect_wrote Hk. unfold wrote in Hw. destruct_and!. congruence.
Qed.

Lemma latest_grows s o r s' key n :
  effect s o r s' → kv_latest s key = Some n → ∃ m, kv_latest s' key = Some m ∧ n ≤ m.
Proof.
  intros He Hl. destruct (decide (op_key o = Some key)) as [Hk|Hk].
  - exists r. split; [by eapply effect_latest|]. apply effect_last in He.
    apply latest_last in Hl. lia.
  - exists n. split; [|done]. by rewrite (proj2 (effect_frame _ _ _ _ _ He Hk)).
Qed.

(** What a reader knows after reading a key: as long as the revision it read
    is the latest, so is the value. *)
Definition read_at (key v : string) (rev : Z) (s : kv) : Prop :=
  rev ≤ kv_last s ∧ (kv_latest s key = Some rev → kv_get s key = Some (v, rev)).

Lemma read_at_read s key v rev : kv_get s key = Some (v, rev) → read_at key v rev s.
Proof. intros Hg. split; [|done]. apply get_latest, latest_last in Hg. lia. Qed.

Lemma read_at_stable s o r s' key v rev :
  effect s o r s' → read_at key v rev s → read_at key v rev s'.
Proof.
  intros He [Hle Hr]. pose proof (effect_last _ _ _ _ He) as [Hlt Hlast]. split; [lia|].
  destruct (decide (op_key o = Some key)) as [Hk|Hk].
  - rewrite (effect_latest _ _ _ _ _ He Hk). intros [= ->]. lia.
  - destruct (effect_frame _ _ _ _ _ He Hk) as [-> ->]. done.
Qed.

(** ** Traces *)

Lemma trace_app es1 es2 s s1 s' : trace es1 s s1 → trace es2 s1 s' → trace (es1 ++ es2) s s'.
Proof. induction 1; simpl; [done|]. intros. econstructor; eauto. Qed.

Lemma trace_split es1 es2 s s' : trace (es1 ++ es2) s s' → ∃ s1, trace es1 s s1 ∧ trace es2 s1 s'.
Proof.
  revert s. induction es1 as [|e es1 IH]; intros s; simpl; [exists s; split; [constructor|done]|].
  intros Ht. inversion Ht; subst. destruct (IH _ ltac:(eassumption)) as (s2 & H1' & H2').
  exists s2. split; [econstructor; eauto|done].
Qed.

Lemma trace_read_at es s s' key v rev : trace es s s' → read_at key v rev s → read_at key v rev s'.
Proof. induction 1; [done|]. intros. eauto using read_at_stable. Qed.

Lemma trace_latest es s s' key n :
  trace es s s' → kv_latest s key = Some n → ∃ m, kv_latest s' key = Some m ∧ n ≤ m.
Proof.
  intros Ht. revert n. induction Ht as [|e es s s1 s' He Ha Ht IH]; intros n Hl.
  { exists n. split; [done|lia]. }
  destruct (latest_grows _ _ _ _ _ _ He Hl) as (m & Hm & Hle).
  destruct (IH m Hm) as (m' & Hm' & Hle'). exists m'. split; [done|lia].
Qed.

Lemma trace_last es s s' : trace es s s' → kv_last s ≤ kv_last s' ∧ ∀ e, e ∈ es → kv_last s < e_rev e.
Proof.
  induction 1 as [|e es s s1 s' He Ha Ht [IH1 IH2]]; [split; [lia|by intros e ?%elem_of_nil]|].
  apply effect_last in He as [Hlt Hl]. split; [lia|].
  intros e' [->|Hin]%elem_of_cons; [done|]. specialize (IH2 e' Hin). lia.
Qed.

(** Revisions strictly increase along a trace, so a revision names one event. *)
Lemma trace_rev_inj es s s' e1 e2 :
  trace es s s' → e1 ∈ es → e2 ∈ es → e_rev e1 = e_rev e2 → e1 = e2.
Proof.
  induction 1 as [|e es s s1 s' He Ha Ht IH]; [by intros ?%elem_of_nil|].
  pose proof (trace_last _ _ _ Ht) as [_ Hl]. apply effect_last in He as [_ Hs1].
  intros [->|H1']%elem_of_cons [->|H2']%elem_of_cons Heq; auto.
  - specialize (Hl e2 H2'). lia.
  - specialize (Hl e1 H1'). lia.
Qed.

(** ** Runs *)

Definition others (p : nat) (es : list Ev) : Prop := ∀ e, e ∈ es → e_plane e ≠ p.

Lemma others_nil p : others p [].
Proof. by intros e ?%elem_of_nil. Qed.

Lemma others_cons p e es : e_plane e ≠ p → others p es → others p (e :: es).
Proof. intros He Hes x [->|Hx]%elem_of_cons; auto. Qed.

Lemma run_Ret_inv {R} p (x y : R) es s s' :
  run p (Ret x) es s s' y → y = x ∧ trace es s s' ∧ others p es.
Proof.
  intros Hr. remember (Ret x) as c eqn:Ec. revert Ec.
  induction Hr as [x' s|c e es s s1 s' x' Hp He Ha Hr IH| | |]; intros Ec; try done.
  - injection Ec as ->. split_and!; [done|constructor|apply others_nil].
  - destruct (IH Ec) as (-> & Ht & Ho). split_and!; [done|by econstructor|by apply others_cons].
Qed.

Lemma run_Now_inv {R} p (k : Z → Cmd R) es s s' x :
  run p (Now k) es s s' x →
  ∃ t es1 es2 s1, es = es1 ++ es2 ∧ trace es1 s s1 ∧ others p es1 ∧ run p (k t) es2 s1 s' x.
Proof.
  intros Hr. remember (Now k) as c eqn:Ec. revert Ec.
  induction Hr as [|c e es s s1 s' x' Hp He Ha Hr IH|k' t es s s' x' Hr IH| |]; intros Ec; try done.
  - destruct (IH Ec) as (t & es1 & es2 & s2 & -> & Ht & Ho & Hk).
    exists t, (e :: es1), es2, s2. split_and!; [done|by econstructor|by apply others_cons|done].
  - injection Ec as ->. exists t, [], es, s. split_and!; [done|constructor|apply others_nil|done].
Qed.

(** A step of the program's own: what the others did before it, then the
    operation, with or without effect. *)
Lemma run_Op_inv {R} p o (k : KVRes → Cmd R) es s s' x :
  run p (Op o k) es s s' x →
  ∃ es1 es2 s1 s2 res ev, es = es1 ++ ev ++ es2 ∧ trace es1 s s1 ∧ others p es1
    ∧ kv_do s1 o s2 res ∧ run p (k res) es2 s2 s' x
    ∧ ((ev = [] ∧ s2 = s1) ∨ ∃ r, ev = [mkEv p o r] ∧ effect s1 o r s2).
Proof.
  intros Hr. remember (Op o k) as c eqn:Ec. revert Ec.
  induction Hr as [|c e es s s1 s' x' Hp He Ha Hr IH| |o' k' res es s s' x' Hd Hr IH
    |o' k' res r es s s1 s' x' Hd He Hr IH]; intros Ec; try done.
  - destruct (IH Ec) as (es1 & es2 & s2 & s3 & res & ev & -> & Ht & Ho & Hk).
    exists (e :: es1), es2, s2, s3, res, ev.
    split_and!; [done|by econstructor|by apply others_cons|apply Hk..].
  - injection Ec as -> ->. exists [], es, s, s, res, [].
    split_and!; [done|constructor|apply others_nil|done|done|by left].
  - injection Ec as -> ->. exists [], es, s, s1, res, [mkEv p o r].
    split_and!; [done|constructor|apply others_nil|done|done|right; eauto].
Qed.

Lemma run_Get_inv {R} p key (k : KVRes → Cmd R) es s s' x :
  run p (Op (OGet key) k) es s s' x →
  ∃ es1 es2 s1 res, es = es1 ++ es2 ∧ trace es1 s s1 ∧ run p (k res) es2 s1 s' x
    ∧ (res = RVal (kv_get s1 key) ∨ ∃ e, res = RErr (OtherErr e)).
Proof.
  intros (es1 & es2 & s1 & s2 & res & ev & -> & Ht & Ho & Hd & Hk & Hev)%run_Op_inv.
  apply do_get in Hd as [-> Hres]. exists es1, es2, s1, res.
  destruct Hev as [[-> _]|(r & _ & [])]. done.
Qed.

Lemma run_Keys_inv {R} p (k : KVRes → Cmd R) es s s' x :
  run p (Op OKeys k) es s s' x →
  ∃ es1 es2 s1 res, es = es1 ++ es2 ∧ trace es1 s s1 ∧ run p (k res) es2 s1 s' x.
Proof.
  intros (es1 & es2 & s1 & s2 & res & ev & -> & Ht & Ho & Hd & Hk & Hev)%run_Op_inv.
  apply do_keys in Hd as [-> Hres]. exists es1, es2, s1, res.
  destruct Hev as [[-> _]|(r & _ & [])]. done.
Qed.

(** A write of the program's own, when it was allowed: the trace continues,
    and a reply that is not an error means it took effect. *)
Lemma run_Write_inv {R} p o (k : KVRes → Cmd R) es s s' x :
  o ≠ OKeys → (∀ key, o ≠ OGet key) →
  run p (Op o k) es s s' x →
  ∃ es1 es2 s1 s2 res ev, es = es1 ++ ev ++ es2 ∧ trace es1 s s1 ∧ run p (k res) es2 s2 s' x
    ∧ ((∀ r, effect s1 o r s2 → allowed s1 o) → trace ev s1 s2)
    ∧ ((∃ e, res = RErr e) ∨ ∃ r, ev = [mkEv p o r] ∧ effect s1 o r s2 ∧
         match o with ODelete _ _ => res = RDone | _ => res = RRev r end).
Proof.
  intros Hk Hg (es1 & es2 & s1 & s2 & res & ev & -> & Ht & Ho & Hd & Hr & Hev)%run_Op_inv.
  exists es1, es2, s1, s2, res, ev. split_and!; [done..| |].
  - intros Ha. destruct Hev as [[-> ->]|(r & -> & He)]; [constructor|].
    econstructor; [exact He|exact (Ha r He)|constructor].
  - apply do_write in Hd as [[-> [e ->]]|(r & He & Hres)]; [by left; eauto| |done..].
    destruct Hev as [[-> ->]|(r' & -> & He')].
    + apply effect_last in He as [Hlt Heq]. lia.
    + assert (r' = r) as -> by (apply effect_last in He as [_ <-]; by apply effect_last in He' as [_ <-]).
      destruct Hres as [[e ->]|Hres]; [by left; eauto|right]. eauto.
Qed.

Lemma run_env_prefix {R} p (c : Cmd R) es1 es2 s s1 s' x :
  trace es1 s s1 → others p es1 → run p c es2 s1 s' x → run p c (es1 ++ es2) s s' x.
Proof.
  induction 1 as [|e es s s1 s2 He Ha Ht IH]; intros Ho Hr; [done|]. simpl.
  eapply run_env; [apply Ho; by left|done|done|]. apply IH; [|done]. intros e' He'. apply Ho. by right.
Qed.

Lemma run_bind_inv {A B} p (c : Cmd A) (f : A → Cmd B) es s s' x :
  run p (cmd_bind c f) es s s' x →
  ∃ a es1 es2 s1, es = es1 ++ es2 ∧ run p c es1 s s1 a ∧ run p (f a) es2 s1 s' x.
Proof.
  revert es s. induction c as [a|o k IH|k IH]; intros es s; simpl.
  - intros Hr. exists a, [], es, s. split_and!; [done|constructor|done].
  - intros (es1 & es2 & s1 & s2 & res & ev & -> & Ht & Ho & Hd & Hk & Hev)%run_Op_inv.
    destruct (IH res _ _ Hk) as (a & es3 & es4 & s3 & -> & H3 & H4).
    exists a, (es1 ++ ev ++ es3), es4, s3. split_and!; [by rewrite !app_assoc| |done].
    apply (run_env_prefix p _ es1 _ s s1); [done|done|].
    destruct Hev as [[-> ->]|(r & -> & He)]; [by eapply run_quiet|by eapply run_write].
  - intros (t & es1 & es2 & s1 & -> & Ht & Ho & Hk)%run_Now_inv.
    destruct (IH t _ _ Hk) as (a & es3 & es4 & s3 & -> & H3 & H4).
    exists a, (es1 ++ es3), es4, s3. split_and!; [by rewrite app_assoc| |done].
    apply (run_env_prefix p _ es1 _ s s1); [done|done|]. by eapply run_now.
Qed.

(** ** The discipline, program by program *)

Lemma renew_not_claim key : ¬ claim_key (renewKeyFor key).
Proof. unfold claim_key, renewKeyFor. done. Qed.

Lemma claimKey_claim tenant r st key : claimKey tenant r st = Ok key → claim_key key.
Proof.
  unfold claimKey. repeat (case_decide; [done|]). by intros [= <-].
Qed.

Definition writes (p : nat) (key : string) (attempt : Z) (e : Ev) : Prop :=
  e_plane e = p ∧ ∃ v rec, (e_op e = OCreate key v ∨ ∃ rev, e_op e = OUpdate key v rev)
    ∧ dec_claim v = Some rec ∧ cl_Attempt rec = attempt.

Lemma current_spec p t es s s' res :
  run p (current t) es s s' res →
  trace es s s' ∧ (∀ rec, res = Ok rec →
    ∃ v es1 es2 s1, es = es1 ++ es2 ∧ trace es1 s s1 ∧ trace es2 s1 s'
      ∧ kv_get s1 (tk_Value t) = Some (v, tk_Fence t) ∧ dec_claim v = Some rec).
Proof.
  unfold current. case_decide; [intros (-> & Ht & _)%run_Ret_inv; done|].
  intros (es1 & es2 & s1 & rs & -> & Ht & Hr & [->|[e ->]])%run_Get_inv;
    [|apply run_Ret_inv in Hr as (-> & Ht2 & _); split; [by eapply trace_app|done]].
  destruct (kv_get s1 (tk_Value t)) as [[v rev]|] eqn:Eg;
    [|apply run_Ret_inv in Hr as (-> & Ht2 & _); split; [by eapply trace_app|done]].
  case_decide as Hrev; [apply run_Ret_inv in Hr as (-> & Ht2 & _); split; [by eapply trace_app|done]|].
  destruct (dec_claim v) as [rec|] eqn:Ev; apply run_Ret_inv in Hr as (-> & Ht2 & _);
    (split; [by eapply trace_app|]); [|done].
  intros rec' [= <-]. exists v, es1, es2, s1. split_and!; [done..| |done].
  assert (rev = tk_Fence t) as <- by (destruct (decide (rev = tk_Fence t)); [done|by destruct Hrev]).
  done.
Qed.

Lemma deadline_spec p key fence rec es s s' res :
  run p (deadline key fence rec) es s s' res → trace es s s'.
Proof.
  unfold deadline. intros (es1 & es2 & s1 & rs & -> & Ht & Hr & [->|[e ->]])%run_Get_inv;
    [|apply run_Ret_inv in Hr as (-> & Ht2 & _); by eapply trace_app].
  destruct (kv_get s1 (renewKeyFor key)) as [[v rev]|];
    [destruct (dec_renew v)|]; apply run_Ret_inv in Hr as (-> & Ht2 & _); by eapply trace_app.
Qed.

(** The delete an orphan was claimed by. *)
Definition deleted (p : nat) (rev : Z) (e : Ev) : Prop :=
  e_plane e = p ∧ ∃ key, claim_key key ∧ e_op e = ODelete key (Some rev).

Lemma expireOne_spec p key es s s' res :
  claim_key key → run p (expireOne key) es s s' res →
  trace es s s' ∧ ∀ o, res = Ok (Some o) → ∃ e, e ∈ es ∧ deleted p (or_Fence o) e.
Proof.
  intros Hck. unfold expireOne.
  intros (es1 & es2 & s1 & rs & -> & Ht & Hr & [->|[e ->]])%run_Get_inv;
    [|apply run_Ret_inv in Hr as (-> & Ht2 & _); split; [by eapply trace_app|done]].
  destruct (kv_get s1 key) as [[v rev]|] eqn:Eg;
    [|apply run_Ret_inv in Hr as (-> & Ht2 & _); split; [by eapply trace_app|done]].
  destruct (dec_claim v) as [rec|];
    [|apply run_Ret_inv in Hr as (-> & Ht2 & _); split; [by eapply trace_app|done]].
  apply run_bind_inv in Hr as (d & es3 & es4 & s2 & -> & Hd & Hr). apply deadline_spec in Hd as Ht2.
  assert (Hquit : ∀ r, run p (Ret r) es4 s2 s' res → (∀ o, r ≠ Ok (Some o)) →
    trace (es1 ++ es3 ++ es4) s s' ∧ ∀ o, res = Ok (Some o) → ∃ e, e ∈ es1 ++ es3 ++ es4 ∧ deleted p (or_Fence o) e).
  { intros r (-> & Ht3 & _)%run_Ret_inv Hne. split; [by eapply trace_app; [|eapply trace_app]|].
    intros o ->. by destruct (Hne o). }
  destruct d as [[at_ []]|e]; [|by eapply Hquit..].
  apply run_Now_inv in Hr as (now & es5 & es6 & s3 & -> & Ht3 & _ & Hr).
  assert (Hpre : trace (es1 ++ es3 ++ es5) s s3).
  { eapply trace_app; [done|]. by eapply trace_app. }
  assert (Eassoc : ∀ l, es1 ++ es3 ++ es5 ++ l = (es1 ++ es3 ++ es5) ++ l) by (intros; by rewrite !app_assoc).
  rewrite Eassoc. case_decide.
  { apply run_Ret_inv in Hr as (-> & Ht4 & _). split; [by eapply trace_app|done]. }
  apply run_Write_inv in Hr; [|done..].
  destruct Hr as (es7 & es8 & s4 & s5 & rs & ev & -> & Ht4 & Hr & Hev & Hrs).
  assert (Htev : trace ev s4 s5).
  { apply Hev. intros r [Hl _] _. exists v.
    assert (Htr : trace ((es3 ++ es5) ++ es7) s1 s4).
    { eapply trace_app; [by eapply trace_app|done]. }
    destruct (trace_read_at _ _ _ _ _ _ Htr (read_at_read _ _ _ _ Eg)) as [_ Hra].
    apply Hra. by apply Hl. }
  destruct Hrs as [[e ->]|(r & -> & He & ->)].
  { apply run_Ret_inv in Hr as (-> & Ht5 & _).
    split; [|done]. eapply trace_app; [done|]. eapply trace_app; [done|]. by eapply trace_app. }
  apply run_Write_inv in Hr; [|done..].
  destruct Hr as (es9 & es10 & s6 & s7 & rs & ev2 & -> & Ht5 & Hr & Hev2 & _).
  apply run_Ret_inv in Hr as (-> & Ht6 & _). split.
  - eapply trace_app; [done|]. eapply trace_app; [done|]. eapply trace_app; [done|].
    eapply trace_app; [done|]. eapply trace_app; [|done]. apply Hev2.
    intros _ _. apply renew_not_claim.
  - intros o [= <-]. exists (mkEv p (ODelete key (Some rev)) r). split; [|split; [done|by exists key]].
    rewrite !elem_of_app. right. right. left. by left.
Qed.

Lemma expire_keys_spec p keys acc es s s' res :
  run p (expire_keys keys acc) es s s' res →
  trace es s s' ∧ ∀ os, res = Ok os → ∀ o, o ∈ os → o ∈ acc ∨ ∃ e, e ∈ es ∧ deleted p (or_Fence o) e.
Proof.
  revert acc es s. induction keys as [|key keys IH]; intros acc es s; cbn [expire_keys].
  { intros (-> & Ht & _)%run_Ret_inv. split; [done|]. intros os [= ->]. auto. }
  destruct (has_prefix claimPrefix key) eqn:Ek; cbn [negb]; [|by apply IH].
  intros (a & es1 & es2 & s1 & -> & Hc & Hr)%run_bind_inv.
  apply (expireOne_spec p key) in Hc as [Ht Ho]; [|done].
  destruct a as [[o|]|e].
  - apply IH in Hr as [Ht2 Hos]. split; [by eapply trace_app|]. intros os Eos o' Ho'.
    destruct (Hos os Eos o' Ho') as [[Hacc| ->%list_elem_of_singleton]%elem_of_app|(e & Hin & He)];
      [by left| |].
    + right. destruct (Ho o eq_refl) as (e & Hin & He). exists e. split; [|done].
      apply elem_of_app. by left.
    + right. exists e. split; [|done]. apply elem_of_app. by right.
  - apply IH in Hr as [Ht2 Hos]. split; [by eapply trace_app|]. intros os Eos o' Ho'.
    destruct (Hos os Eos o' Ho') as [Hacc|(e & Hin & He)]; [by left|].
    right. exists e. split; [|done]. apply elem_of_app. by right.
  - apply run_Ret_inv in Hr as (-> & Ht2 & _). split; [by eapply trace_app|done].
Qed.

Lemma Expire_spec p es s s' res :
  run p Expire es s s' res →
  trace es s s' ∧ ∀ os, res = Ok os → ∀ o, o ∈ os → ∃ e, e ∈ es ∧ deleted p (or_Fence o) e.
Proof.
  unfold Expire. intros (es1 & es2 & s1 & rs & -> & Ht & Hr)%run_Keys_inv.
  destruct rs as [v|keys|r| |e].
  2: { apply expire_keys_spec in Hr as [Ht2 Hos]. split; [by eapply trace_app|].
       intros os Eos o Ho. destruct (Hos os Eos o Ho) as [?%elem_of_nil|(e & Hin & He)]; [done|].
       exists e. split; [|done]. apply elem_of_app. by right. }
  all: apply run_Ret_inv in Hr as (-> & Ht2 & _); split; [by eapply trace_app|done].
Qed.

(** ** From the discipline alone *)

Definition no_delete (key : string) (es : list Ev) : Prop :=
  ∀ e rev, e ∈ es → e_op e ≠ ODelete key (Some rev).

Definition del_of (key : string) (o : KVOp) : bool :=
  match o with ODelete k (Some _) => bool_decide (k = key) | _ => false end.

(** Without a delete, the attempt a claim key carries never goes back. *)
Lemma trace_attempt key es s s' v r rec :
  claim_key key → trace es s s' → no_delete key es →
  kv_get s key = Some (v, r) → dec_claim v = Some rec →
  ∃ v' r' rec', kv_get s' key = Some (v', r') ∧ dec_claim v' = Some rec'
    ∧ cl_Attempt rec ≤ cl_Attempt rec' ∧ r ≤ r'.
Proof.
  intros Hck Ht. revert v r rec. induction Ht as [s|e es s s1 s' He Ha Ht IH]; intros v r rec Hnd Hg Hd.
  { exists v, r, rec. split_and!; [done..|lia|lia]. }
  assert (Hnd' : no_delete key es) by (intros e' rev Hin; apply Hnd; by right).
  destruct (decide (op_key (e_op e) = Some key)) as [Hk|Hk].
  - assert (Hne : ∀ rev, e_op e ≠ ODelete key (Some rev)) by (intros rev; apply Hnd; by left).
    destruct e as [pl o n]. cbn [e_op e_rev] in *.
    destruct o as [k| |k w|k w rev|k w|k [rev|]]; simpl in Hk; try done; injection Hk as ->; simpl in Ha, He.
    + destruct He as [Hnone _]. congruence.
    + destruct (Ha Hck) as (v0 & old & new & Hg0 & Hd0 & Hdn & Hlt).
      destruct He as [Hl (Hn & Hs1 & Hg1 & _)]. simpl in Hg1.
      destruct (IH w n new Hnd' Hg1 Hdn) as (v' & r' & rec' & Hg' & Hd' & Hle & Hrle).
      exists v', r', rec'. split_and!; [done..| |].
      * assert (old = rec) as -> by congruence. lia.
      * apply get_latest, latest_last in Hg. lia.
    + by destruct (Ha Hck).
    + by destruct (Hne rev).
    + by destruct (Ha Hck).
  - destruct (effect_frame _ _ _ _ _ He Hk) as [Eg _]. rewrite <-Eg in Hg. by eapply IH.
Qed.

(** The two writes of a key for one attempt have a delete between them. *)
Lemma writes_apart p q key a b es1 es2 es3 e1 e2 s s' :
  claim_key key → trace (es1 ++ e1 :: es2 ++ e2 :: es3) s s' →
  writes p key a e1 → writes q key b e2 → no_delete key es2 → a < b ∧ e_rev e1 < e_rev e2.
Proof.
  intros Hck Ht (_ & v1 & rec1 & Ho1 & Hd1 & <-) (_ & v2 & rec2 & Ho2 & Hd2 & <-) Hnd.
  apply trace_split in Ht as (s1 & _ & Ht). inversion Ht as [|? ? ? s2 ? He1 Ha1 Ht1]; subst.
  apply trace_split in Ht1 as (s3 & Ht2 & Ht3). inversion Ht3 as [|? ? ? s4 ? He2 Ha2 Ht4]; subst.
  assert (Hg : kv_get s2 key = Some (v1, e_rev e1)).
  { destruct Ho1 as [E|[rev E]]; rewrite E in He1; simpl in He1; unfold wrote in He1;
      destruct_and!; done. }
  destruct (trace_attempt key es2 s2 s3 _ _ _ Hck Ht2 Hnd Hg Hd1) as (v & r & rec & Hg3 & Hd3 & Hle & Hr).
  split.
  - destruct Ho2 as [E|[rev E]]; rewrite E in He2, Ha2; simpl in He2, Ha2.
    + destruct He2 as [Hnone _]. congruence.
    + destruct (Ha2 Hck) as (v0 & old & new & Hg0 & Hd0 & Hdn & Hlt).
      assert (old = rec) as -> by congruence. assert (new = rec2) as -> by congruence. lia.
  - apply effect_last in He1 as [_ Hl1]. apply trace_last in Ht2 as [Hl2 _].
    apply effect_last in He2 as [Hl3 _]. lia.
Qed.

(** Two events of a trace, in its order, with what is between them. *)
Lemma trace_order es s s' e1 e2 :
  trace es s s' → e1 ∈ es → e2 ∈ es → e_rev e1 < e_rev e2 →
  ∃ es1 es2 es3, es = es1 ++ e1 :: es2 ++ e2 :: es3
    ∧ ∀ e, e ∈ es2 → e_rev e1 < e_rev e < e_rev e2.
Proof.
  intros Ht Hin1 Hin2 Hlt. apply list_elem_of_split in Hin1 as (l1 & l2 & ->).
  apply trace_split in Ht as (s1 & Ht1 & Ht2). inversion Ht2 as [|? ? ? s2 ? He1 Ha1 Ht3]; subst.
  pose proof (effect_last _ _ _ _ He1) as [Hl1 Hl1'].
  assert (Hin : e2 ∈ l2).
  { apply elem_of_app in Hin2 as [Hin|[->|Hin]%elem_of_cons]; [|lia|done].
    apply list_elem_of_split in Hin as (m1 & m2 & ->).
    apply trace_split in Ht1 as (s3 & _ & Ht4). inversion Ht4 as [|? ? ? s4 ? He2 Ha2 Ht5]; subst.
    apply effect_last in He2 as [_ Hl2]. apply trace_last in Ht5 as [Hl3 _]. lia. }
  apply list_elem_of_split in Hin as (m1 & m2 & ->). exists l1, m1, m2. split; [done|].
  apply trace_split in Ht3 as (s3 & Ht3 & Ht4). inversion Ht4 as [|? ? ? s4 ? He2 Ha2 Ht5]; subst.
  intros e He.
  pose proof (trace_last _ _ _ Ht3) as [_ Hgt]. specialize (Hgt e He).
  apply list_elem_of_split in He as (n1 & n2 & ->).
  apply trace_split in Ht3 as (s5 & _ & Ht6). inversion Ht6 as [|? ? ? s6 ? He Ha Ht7]; subst.
  apply effect_last in He as [_ Hl5]. apply effect_last in He2 as [Hl2' _]. apply trace_last in Ht7 as [Hl6 _]. split; [lia|]. lia.
Qed.

(** A revision already reached is nobody's to write again. *)
Lemma latest_back es s s' key n :
  trace es s s' → kv_latest s' key = Some n → n ≤ kv_last s → kv_latest s key = Some n.
Proof.
  induction 1 as [|e es s s1 s' He Ha Ht IH]; [done|]. intros Hl Hle.
  pose proof (effect_last _ _ _ _ He) as [Hlt Heq]. specialize (IH Hl ltac:(lia)).
  destruct (decide (op_key (e_op e) = Some key)) as [Hk|Hk].
  - rewrite (effect_latest _ _ _ _ _ He Hk) in IH. injection IH as IH. lia.
  - by rewrite <-(proj2 (effect_frame _ _ _ _ _ He Hk)).
Qed.

(** A revision is deleted at most once. *)
Lemma deleted_once es s s' p q f e1 e2 :
  trace es s s' → e1 ∈ es → e2 ∈ es → deleted p f e1 → deleted q f e2 → e1 = e2.
Proof.
  assert (Hord : ∀ p q e1 e2, trace es s s' → e1 ∈ es → e2 ∈ es → deleted p f e1 → deleted q f e2 →
    ¬ e_rev e1 < e_rev e2).
  { clear p q e1 e2. intros p q e1 e2 Ht Hin1 Hin2 (_ & k1 & _ & Ho1) (_ & k2 & _ & Ho2) Hlt.
    destruct (trace_order _ _ _ _ _ Ht Hin1 Hin2 Hlt) as (es1 & es2 & es3 & -> & _).
    apply trace_split in Ht as (s1 & _ & Ht). inversion Ht as [|? ? ? s2 ? He1 _ Ht1]; subst.
    apply trace_split in Ht1 as (s3 & Ht2 & Ht3). inversion Ht3 as [|? ? ? s4 ? He2 _ _]; subst.
    pose proof (effect_last _ _ _ _ He1) as [Hl1 Hl2].
    assert (Hk1 : kv_latest s2 k1 = Some (e_rev e1)).
    { eapply effect_latest; [exact He1|by rewrite Ho1]. }
    assert (Hfr : ∀ k, Some k1 ≠ Some k → kv_latest s2 k = kv_latest s1 k).
    { intros k Hk. eapply effect_frame; [exact He1|by rewrite Ho1]. }
    rewrite Ho1 in He1. rewrite Ho2 in He2. destruct He1 as [Hc1 _]. destruct He2 as [Hc2 _].
    specialize (Hc1 f eq_refl). specialize (Hc2 f eq_refl).
    assert (Hlf := latest_last _ _ _ Hc1).
    pose proof (latest_back _ _ _ _ _ Ht2 Hc2 ltac:(lia)) as Hc3.
    destruct (decide (k1 = k2)) as [->|Hne].
    - rewrite Hk1 in Hc3. injection Hc3. lia.
    - assert (Hk : Some k1 ≠ Some k2) by congruence. rewrite (Hfr k2 Hk) in Hc3. destruct Hne. exact (latest_inj s1 k1 k2 f Hc1 Hc3). }
  intros Ht Hin1 Hin2 Hd1 Hd2. eapply trace_rev_inj; [done..|].
  pose proof (Hord p q e1 e2 Ht Hin1 Hin2 Hd1 Hd2). pose proof (Hord q p e2 e1 Ht Hin2 Hin1 Hd2 Hd1).
  lia.
Qed.

(** Two grants of one attempt have a delete of the claim between them. *)
Lemma between p q key a es s s' e1 e2 :
  claim_key key → trace es s s' → e1 ∈ es → e2 ∈ es → writes p key a e1 → writes q key a e2 →
  e_rev e1 < e_rev e2 →
  ∃ e rev, e ∈ es ∧ e_op e = ODelete key (Some rev) ∧ e_rev e1 < e_rev e < e_rev e2.
Proof.
  intros Hck Ht Hin1 Hin2 Hw1 Hw2 Hlt.
  destruct (trace_order _ _ _ _ _ Ht Hin1 Hin2 Hlt) as (es1 & es2 & es3 & -> & Hmid).
  destruct (decide (Exists (λ e, del_of key (e_op e) = true) es2)) as [Hex|Hno].
  - apply Exists_exists in Hex as (e & Hin & Hd). specialize (Hmid e Hin).
    destruct (e_op e) as [| | | | |k [rev|]] eqn:Eo; try done. simpl in Hd. apply bool_decide_eq_true in Hd as ->.
    exists e, rev. split_and!; [|done|lia|lia].
    rewrite elem_of_app, elem_of_cons, elem_of_app. auto.
  - destruct (writes_apart p q key a a es1 es2 es3 e1 e2 s s' Hck Ht Hw1 Hw2) as [Hbad _]; [|lia].
    intros e rev Hin Eo. apply Hno, Exists_exists. exists e. split; [done|]. rewrite Eo. simpl.
    by apply bool_decide_eq_true.
Qed.

(** Reading the claim of a fenced-out token fails, and writes nothing. *)
Lemma current_stale p t es s s' res n :
  kv_latest s (tk_Value t) = Some n → tk_Fence t < n → run p (current t) es s s' res →
  others p es ∧ (∃ e, res = Err e) ∧ trace es s s'.
Proof.
  intros Hl Hlt Hr. pose proof (current_spec _ _ _ _ _ _ Hr) as [Ht Hok]. split_and!; [| |done].
  - unfold current in Hr. case_decide; [by apply run_Ret_inv in Hr as (_ & _ & Ho)|].
    apply run_Op_inv in Hr as (es1 & es2 & s1 & s2 & rs & ev & -> & _ & Ho & _ & Hr & Hev).
    destruct Hev as [[-> _]|(r & _ & [])].
    assert (Ho2 : others p es2).
    { destruct rs as [[[v rev]|]| | | |]; [case_decide; [|destruct (dec_claim v)]|..];
        by apply run_Ret_inv in Hr as (_ & _ & Hr). }
    simpl. intros e [He|He]%elem_of_app; auto.
  - destruct res as [rec|e]; [|eauto]. destruct (Hok rec eq_refl) as (v & es1 & es2 & s1 & _ & Ht1 & _ & Hg & _).
    apply get_latest in Hg. destruct (trace_latest _ _ _ _ _ Ht1 Hl) as (m & Hm & Hle).
    rewrite Hg in Hm. injection Hm as Hm. lia.
Qed.

Lemma stale_bind {B} p t (f : result LeaseErr claimRecord → Cmd (result LeaseErr B)) es s s' res n :
  kv_latest s (tk_Value t) = Some n → tk_Fence t < n → (∀ e, f (Err e) = Ret (Err e)) →
  run p (cmd_bind (current t) f) es s s' res → others p es ∧ ∃ e, res = Err e.
Proof.
  intros Hl Hlt Hf (a & es1 & es2 & s1 & -> & Hc & Hr)%run_bind_inv.
  destruct (current_stale _ _ _ _ _ _ _ Hl Hlt Hc) as (Ho1 & [e ->] & _).
  rewrite Hf in Hr. apply run_Ret_inv in Hr as (-> & _ & Ho2). split; [|by eexists].
  intros x [Hx|Hx]%elem_of_app; auto.
Qed.

(** ** Calls in progress *)

(** Between two steps of its own, a call meets whatever the others wrote,
    all of it disciplined. [keeps W n c Q s h]: from there on, everything [c]
    writes is disciplined and of the kind [W], and what it returns satisfies
    [Q], of the writes recorded so far and the bucket then. *)
Fixpoint keeps {R} (W : KVOp → Prop) (n : nat) (c : Cmd R) (Q : R → list Ev → kv → Prop)
    (s : kv) (h : list Ev) {struct c} : Prop :=
  ∀ es s1, trace es s s1 → others n es →
  match c with
  | Ret a => Q a (h ++ es) s1
  | Now k => ∀ t, keeps W n (k t) Q s1 (h ++ es)
  | Op o k => ∀ s2 res, kv_do s1 o s2 res →
      (s2 = s1 → keeps W n (k res) Q s1 (h ++ es))
      ∧ ∀ r, effect s1 o r s2 →
          W o ∧ allowed s1 o ∧ keeps W n (k res) Q s2 ((h ++ es) ++ [mkEv n o r])
  end.

Lemma others_app n es1 es2 : others n es1 → others n es2 → others n (es1 ++ es2).
Proof. intros H1' H2' e [He|He]%elem_of_app; auto. Qed.

Lemma keeps_env {R} W n (c : Cmd R) Q s h es s1 :
  trace es s s1 → others n es → keeps W n c Q s h → keeps W n c Q s1 (h ++ es).
Proof.
  intros Ht Ho Hk. destruct c as [a|o k|k]; intros es' s2 Ht' Ho'; rewrite <-app_assoc;
    (apply Hk; [by eapply trace_app|by apply others_app]).
Qed.

Lemma keeps_bind {A B} W n (c : Cmd A) (f : A → Cmd B) Q1 Q s h :
  keeps W n c Q1 s h → (∀ a h s, Q1 a h s → keeps W n (f a) Q s h) →
  keeps W n (cmd_bind c f) Q s h.
Proof.
  revert s h. induction c as [a|o k IH|k IH]; intros s h Hk Hf.
  - apply Hf. specialize (Hk [] s (trace_nil _) (others_nil _)). by rewrite app_nil_r in Hk.
  - intros es s1 Ht Ho s2 res Hd. destruct (Hk es s1 Ht Ho s2 res Hd) as [Hq He]. split.
    + intros ->. apply IH; [by apply Hq|done].
    + intros r Hr. destruct (He r Hr) as (? & ? & ?). split_and!; [done..|]. by apply IH.
  - intros es s1 Ht Ho t. apply IH; [|done]. by apply Hk.
Qed.

Lemma keeps_ret {R} W n (x : R) (Q : R → list Ev → kv → Prop) s h :
  (∀ h s, Q x h s) → keeps W n (Ret x) Q s h.
Proof. intros HQ es s1 _ _. apply HQ. Qed.

Lemma keeps_weaken {R} (Q1 : R → list Ev → kv → Prop) W n (c : Cmd R) (Q : R → list Ev → kv → Prop) s h :
  (∀ a h s, Q1 a h s → Q a h s) → keeps W n c Q1 s h → keeps W n c Q s h.
Proof.
  intros HQ. revert s h. induction c as [a|o k IH|k IH]; intros s h Hk es s1 Ht Ho.
  - by apply HQ, Hk.
  - intros s2 res Hd. destruct (Hk es s1 Ht Ho s2 res Hd) as [Hq He]. split; [intros E; by apply IH, Hq|].
    intros r Hr. destruct (He r Hr) as (? & ? & ?). split_and!; [done..|by apply IH].
  - intros t. by apply IH, Hk.
Qed.

Lemma keeps_get {R} W n key (k : KVRes → Cmd R) Q s h :
  (∀ es s1 res, trace es s s1 → (res = RVal (kv_get s1 key) ∨ ∃ e, res = RErr (OtherErr e)) →
     keeps W n (k res) Q s1 (h ++ es)) →
  keeps W n (Op (OGet key) k) Q s h.
Proof.
  intros Hk es s1 Ht Ho s2 res Hd. apply do_get in Hd as [-> Hres]. split; [by eauto|by intros r []].
Qed.

Lemma keeps_keys {R} W n (k : KVRes → Cmd R) Q s h :
  (∀ res h s, keeps W n (k res) Q s h) → keeps W n (Op OKeys k) Q s h.
Proof.
  intros Hk es s1 Ht Ho s2 res Hd. apply do_keys in Hd as [-> Hres]. split; [by eauto|by intros r []].
Qed.

(** A write: it is disciplined when it takes effect, and a reply that is not
    an error means it did. *)
Lemma keeps_write {R} W n o (k : KVRes → Cmd R) (Q : R → list Ev → kv → Prop) s h :
  o ≠ OKeys → (∀ key, o ≠ OGet key) → W o →
  (∀ es s1 r s2, trace es s s1 → effect s1 o r s2 → allowed s1 o) →
  (∀ h s e, keeps W n (k (RErr e)) Q s h) →
  (∀ h s r, mkEv n o r ∈ h → keeps W n (k (match o with ODelete _ _ => RDone | _ => RRev r end)) Q s h) →
  keeps W n (Op o k) Q s h.
Proof.
  intros Hk Hg HW Ha Herr Hok es s1 Ht Ho s2 res Hd.
  apply do_write in Hd as [[-> [e ->]]|(r & He & Hres)]; [| |done..].
  - split; [intros _; apply Herr|]. intros r He. apply effect_last in He. lia.
  - assert (Hr : ∀ r', effect s1 o r' s2 → r' = r).
    { intros r' He'. apply effect_last in He as [_ <-]. by apply effect_last in He' as [_ <-]. }
    split; [intros ->; apply effect_last in He; lia|].
    intros r' He'. rewrite (Hr r' He'). split_and!; [done|by eapply Ha|].
    destruct Hres as [[e ->]|Hres]; [apply Herr|].
    assert (res = match o with ODelete _ _ => RDone | _ => RRev r end) as -> by (by destruct o).
    apply Hok. apply elem_of_app. right. by left.
Qed.

Lemma keeps_now {R} W n (k : Z → Cmd R) Q s h :
  (∀ t es s1, trace es s s1 → keeps W n (k t) Q s1 (h ++ es)) → keeps W n (Now k) Q s h.
Proof. intros Hk es s1 Ht _ t. by apply Hk. Qed.

(** *** The calls, one by one *)

Definition any {R} : R → list Ev → kv → Prop := λ _ _ _, True.

(** What a call may write at all: [take] its own key, [Renew] and [Expire]'s
    second delete no claim key, and only a sweep or a withdrawal deletes. *)
Definition may_write (j : LeaseCall) (o : KVOp) : Prop :=
  match j with
  | LTake tenant rn st _ _ _ => ∃ key v, claimKey tenant rn st = Ok key
      ∧ (o = OCreate key v ∨ ∃ rev, o = OUpdate key v rev)
  | LValidate _ | LUnaccepted => False
  | LRenew t => ∃ v, o = OPut (renewKeyFor (tk_Value t)) v
  | LWithdraw t => o = ODelete (tk_Value t) (Some (tk_Fence t))
  | LExpire => ∃ key last, o = ODelete key last
  end.

Definition granted (n : nat) (key : string) (attempt : Z)
    : result LeaseErr Token → list Ev → kv → Prop :=
  λ r h _, ∀ t, r = Ok t → tk_Value t = key ∧ ∃ e, e ∈ h ∧ e_rev e = tk_Fence t ∧ writes n key attempt e.


Lemma keeps_take_loop W races n key data rec s h :
  dec_claim data = Some rec →
  (∀ o, o = OCreate key data ∨ (∃ rev, o = OUpdate key data rev) → W o) →
  keeps W n (take_loop races key data (cl_Attempt rec)) (granted n key (cl_Attempt rec)) s h.
Proof.
  intros Hdec HW. revert s h. induction races as [|races IH]; intros s h; cbn [take_loop];
    [by apply keeps_ret|].
  assert (Herr : ∀ e s h, keeps W n (Ret (Err e)) (granted n key (cl_Attempt rec)) s h)
    by (intros; by apply keeps_ret).
  assert (Hafter : ∀ o s h, o = OCreate key data ∨ (∃ rev, o = OUpdate key data rev) →
    (∀ es s1 r s2, trace es s s1 → effect s1 o r s2 → allowed s1 o) →
    keeps W n (Op o (λ res,
        match res with
        | RRev fence => Ret (Ok (mkToken key fence))
        | RErr LostRace => take_loop races key data (cl_Attempt rec)
        | RErr e => Ret (Err (Writing e))
        | _ => Ret (Err Unexpected)
        end)) (granted n key (cl_Attempt rec)) s h).
  { intros o s' h' Ho Ha. apply keeps_write;
      [by destruct Ho as [->|[? ->]]|by destruct Ho as [->|[? ->]]|by apply HW|done| |].
    - intros h1 s1 [|e]; [apply IH|apply Herr].
    - intros h1 s1 r Hin.
      assert (Hres : match o with ODelete _ _ => RDone | _ => RRev r end = RRev r)
        by (by destruct Ho as [->|[? ->]]).
      rewrite Hres. intros es s2 _ _ t [= <-]. split; [done|]. exists (mkEv n o r).
      split; [by apply elem_of_app; left|]. split; [done|]. split; [done|]. exists data, rec.
      split; [destruct Ho as [->|[rev ->]]; eauto|done]. }
  apply keeps_get. intros es s1 res Ht [->|[e ->]]; [|apply Herr].
  destruct (kv_get s1 key) as [[v rev]|] eqn:Eg.
  - destruct (dec_claim v) as [cur|] eqn:Ev; [|apply Herr]. case_decide as Hcmp; [apply Herr|].
    apply Hafter; [eauto|]. intros es' s1' r s2 Ht' [Hl _] _.
    destruct (trace_read_at _ _ _ _ _ _ Ht' (read_at_read _ _ _ _ Eg)) as [_ Hra].
    exists v, cur, rec. split_and!; [by apply Hra|done..|lia].
  - apply Hafter; [by left|]. intros es' s1' r s2 Ht' _ _. by exists rec.
Qed.

Lemma keeps_take n tenant rn st attempt ttl off s h :
  keeps (may_write (LTake tenant rn st attempt ttl off)) n (take tenant rn st attempt ttl off)
    (λ r h _, ∀ t, r = Ok t → claimKey tenant rn st = Ok (tk_Value t)
       ∧ ∃ e, e ∈ h ∧ e_rev e = tk_Fence t ∧ writes n (tk_Value t) attempt e) s h.
Proof.
  unfold take. destruct (claimKey tenant rn st) as [key|e] eqn:Ek; [|by apply keeps_ret].
  case_decide; [by apply keeps_ret|]. apply keeps_now. intros now es s1 _.
  set (rec := mkClaim tenant rn st attempt ttl (now + ttl) off).
  apply (keeps_weaken (granted n key attempt)).
  - intros r h' s' Hg t ->. destruct (Hg t eq_refl) as [-> He]. done.
  - apply (keeps_take_loop _ _ _ _ _ rec); [apply dec_enc_claim|].
    intros o [->|[rev ->]]; simpl; eauto 10.
Qed.

Lemma keeps_current W n t s h :
  keeps W n (current t)
    (λ r _ s, ∀ rec, r = Ok rec → ∃ v, read_at (tk_Value t) v (tk_Fence t) s) s h.
Proof.
  unfold current. case_decide; [by apply keeps_ret|].
  apply keeps_get. intros es s1 res Ht [->|[e ->]]; [|by apply keeps_ret].
  destruct (kv_get s1 (tk_Value t)) as [[v rev]|] eqn:Eg; [|by apply keeps_ret].
  case_decide as Hf; [by apply keeps_ret|]. rewrite Hf in Eg.
  destruct (dec_claim v) as [rec|]; [|by apply keeps_ret].
  intros es' s' Ht' _ rec' _. exists v. eapply trace_read_at; [done|]. by apply read_at_read.
Qed.

Lemma keeps_deadline W n key fence rec k v f s h :
  read_at k v f s → keeps W n (deadline key fence rec) (λ _ _ s, read_at k v f s) s h.
Proof.
  intros Hr. unfold deadline. apply keeps_get. intros es s1 res Ht Hres.
  pose proof (trace_read_at _ _ _ _ _ _ Ht Hr) as Hr1.
  assert (Hret : ∀ x : result LeaseErr (Z * bool), keeps W n (Ret x) (λ _ _ s, read_at k v f s) s1 (h ++ es)).
  { intros x es' s' Ht' _. eapply trace_read_at; [exact Ht'|exact Hr1]. }
  destruct res as [[[w rev]|]| | | |]; try apply Hret. destruct (dec_renew w); apply Hret.
Qed.

(** A delete at the revision that was read. *)
Lemma delete_allowed key v rev es s s1 r s2 :
  read_at key v rev s → trace es s s1 → effect s1 (ODelete key (Some rev)) r s2 →
  allowed s1 (ODelete key (Some rev)).
Proof.
  intros Hr Ht [Hl _] _. exists v. destruct (trace_read_at _ _ _ _ _ _ Ht Hr) as [_ Hra].
  apply Hra. by apply Hl.
Qed.

Lemma keeps_Validate W n t s h : keeps W n (Validate t) any s h.
Proof. eapply keeps_bind; [apply keeps_current|]. intros a h' s' _. by apply keeps_ret. Qed.

Lemma keeps_Renew n t s h : keeps (may_write (LRenew t)) n (Renew t) any s h.
Proof.
  eapply keeps_bind; [apply keeps_current|]. intros [rec|e] h' s' _; [|by apply keeps_ret].
  apply keeps_now. intros now es s1 _. apply keeps_write; [done|done|by eexists| | |].
  - intros es' s2 r s3 _ _. apply renew_not_claim.
  - intros. by apply keeps_ret.
  - intros. by apply keeps_ret.
Qed.

Lemma keeps_expireOne n key s h : keeps (may_write LExpire) n (expireOne key) any s h.
Proof.
  unfold expireOne. apply keeps_get. intros es s1 res Ht [->|[e ->]]; [|by apply keeps_ret].
  destruct (kv_get s1 key) as [[v rev]|] eqn:Eg; [|by apply keeps_ret].
  destruct (dec_claim v) as [rec|]; [|by apply keeps_ret].
  eapply keeps_bind; [by apply keeps_deadline, read_at_read|].
  intros [[at_ []]|e] h' s' Hr; try by apply keeps_ret.
  apply keeps_now. intros now es' s2 Ht'. case_decide; [by apply keeps_ret|].
  apply (trace_read_at _ _ _ _ _ _ Ht') in Hr.
  apply keeps_write; [done|done|simpl; eauto| | |].
  - intros es3 s3 r s4 Ht3. by eapply delete_allowed.
  - intros. by apply keeps_ret.
  - intros h3 s3 r _. apply keeps_write; [done|done|simpl; eauto| | |].
    + intros ? ? ? ? _ _. apply renew_not_claim.
    + intros. by apply keeps_ret.
    + intros. by apply keeps_ret.
Qed.

Lemma keeps_expire_keys n keys os s h : keeps (may_write LExpire) n (expire_keys keys os) any s h.
Proof.
  revert os s h. induction keys as [|key keys IH]; intros os s h; cbn [expire_keys unaccepted_keys]; [by apply keeps_ret|].
  case_match; [apply IH|]. eapply keeps_bind; [apply keeps_expireOne|].
  intros [[o|]|e] h' s' _; [apply IH|apply IH|by apply keeps_ret].
Qed.

Lemma keeps_Withdraw n t s h : keeps (may_write (LWithdraw t)) n (Withdraw t) any s h.
Proof.
  eapply keeps_bind; [apply keeps_current|]. intros [rec|e] h' s' Hc; [|by apply keeps_ret].
  destruct (Hc rec eq_refl) as [v Hr]. eapply keeps_bind; [by apply keeps_deadline|].
  intros [[at_ []]|e] h1 s1 Hr1; try by apply keeps_ret.
  apply keeps_write; [done|done|done| | |].
  - intros es2 s2 r s3 Ht. by eapply delete_allowed.
  - intros h2 s2 []; by apply keeps_ret.
  - intros. by apply keeps_ret.
Qed.

Lemma keeps_unaccepted W n keys ws s h : keeps W n (unaccepted_keys keys ws) any s h.
Proof.
  revert ws s h. induction keys as [|key keys IH]; intros ws s h; cbn [expire_keys unaccepted_keys]; [by apply keeps_ret|].
  case_match; [apply IH|]. apply keeps_get. intros es s1 res Ht [->|[e ->]]; [|by apply keeps_ret].
  destruct (kv_get s1 key) as [[v rev]|] eqn:Eg; [|apply IH].
  destruct (dec_claim v) as [rec|]; [|by apply keeps_ret]. case_match; [apply IH|].
  eapply keeps_bind; [by apply keeps_deadline, read_at_read|].
  intros [[at_ []]|e] h' s' _; [apply IH|apply IH|by apply keeps_ret].
Qed.

(** What a call that has ended answers for: a grant was written by it. *)
Definition answered (n : nat) (j : LeaseCall) (a : LeaseAns) (h : list Ev) : Prop :=
  match j, a with
  | LTake tenant rn st attempt _ _, AToken (Ok t) =>
      claimKey tenant rn st = Ok (tk_Value t)
      ∧ ∃ e, e ∈ h ∧ e_rev e = tk_Fence t ∧ writes n (tk_Value t) attempt e
  | _, _ => True
  end.

Lemma keeps_begin n j s h :
  keeps (may_write j) n (begin j) (λ a h _, answered n j a h) s h.
Proof.
  destruct j as [tenant rn st attempt ttl off|t|t|t| |]; unfold begin.
  - eapply keeps_bind; [apply keeps_take|]. intros a h' s' Ha es s1 Ht Ho.
    destruct a as [t|e]; [|done]. destruct (Ha t eq_refl) as (Hk & e & Hin & He). split; [done|].
    exists e. split; [apply elem_of_app; by left|done].
  - eapply keeps_bind; [apply keeps_Validate|]. intros. by apply keeps_ret.
  - eapply keeps_bind; [apply keeps_Renew|]. intros. by apply keeps_ret.
  - eapply keeps_bind; [apply keeps_Withdraw|]. intros. by apply keeps_ret.
  - eapply (keeps_bind _ _ _ _ any); [|intros; by apply keeps_ret]. apply keeps_keys.
    intros [| | | |] h' s'; [..|]; try by apply keeps_ret. apply keeps_expire_keys.
  - eapply (keeps_bind _ _ _ _ any); [|intros; by apply keeps_ret]. apply keeps_keys.
    intros [| | | |] h' s'; [..|]; try by apply keeps_ret. apply keeps_unaccepted.
Qed.

(** Every call in progress, at every moment: what has been written is
    disciplined and of its writer's kind, and each call still keeps it so. *)
Definition orderly (calls : nat → LeaseCall) (s0 : kv) (pos : nat → Cmd LeaseAns) (h : list Ev) (s : kv) : Prop :=
  trace h s0 s ∧ (∀ e, e ∈ h → may_write (calls (e_plane e)) (e_op e))
  ∧ ∀ n, keeps (may_write (calls n)) n (pos n) (λ a h _, answered n (calls n) a h) s h.

Lemma sys_orderly calls s0 pos h s : sys calls s0 pos h s → orderly calls s0 pos h s.
Proof.
  induction 1 as [|pos h s n k t Hs (Ht & Hw & Hk) En|pos h s n o k res Hs (Ht & Hw & Hk) En Hd
    |pos h s n o k r s' res Hs (Ht & Hw & Hk) En Hd He].
  - split_and!; [constructor|by intros e ?%elem_of_nil|]. intros n. apply keeps_begin.
  - split_and!; [done..|]. intros m. unfold moved. case_decide as Em; [|apply Hk]. subst m.
    specialize (Hk n). rewrite En in Hk. rewrite <-(app_nil_r h). exact (Hk [] s (trace_nil s) (others_nil n) t).
  - split_and!; [done..|]. intros m. unfold moved. case_decide as Em; [|apply Hk]. subst m.
    specialize (Hk n). rewrite En in Hk. rewrite <-(app_nil_r h).
    by apply (Hk [] s (trace_nil s) (others_nil n) s res Hd).
  - pose proof (Hk n) as Hn. rewrite En in Hn.
    destruct (Hn [] s (trace_nil s) (others_nil n) s' res Hd) as [_ Hn'].
    destruct (Hn' r He) as (HW & Ha & Hk'). rewrite app_nil_r in Hk'.
    assert (Hstep : trace [mkEv n o r] s s') by (econstructor; [exact He|exact Ha|constructor]).
    split_and!; [by eapply trace_app| |].
    + intros e [Hin| ->%list_elem_of_singleton]%elem_of_app; [by apply Hw|done].
    + intros m. unfold moved. case_decide as Em; [by subst m|].
      apply (keeps_env _ _ _ _ s); [done| |apply Hk]. intros e ->%list_elem_of_singleton. simpl. congruence.
Qed.

(** A granted call's token is a write of its own. *)
Lemma granted_written calls s0 pos h s p tenant rn st attempt ttl off t :
  orderly calls s0 pos h s → calls p = LTake tenant rn st attempt ttl off → pos p = Ret (AToken (Ok t)) →
  claimKey tenant rn st = Ok (tk_Value t)
  ∧ ∃ e, e ∈ h ∧ e_rev e = tk_Fence t ∧ writes p (tk_Value t) attempt e.
Proof.
  intros (_ & _ & Hk) Cp Ep. specialize (Hk p). rewrite Cp, Ep in Hk.
  specialize (Hk [] s (trace_nil s) (others_nil p)). by rewrite app_nil_r in Hk.
Qed.

(** A delete of a key after a grant of it removes that grant or a later one. *)
Lemma delete_after p key a es s s' e1 e rev :
  trace es s s' → e1 ∈ es → e ∈ es → writes p key a e1 → e_op e = ODelete key (Some rev) →
  e_rev e1 < e_rev e → e_rev e1 ≤ rev.
Proof.
  intros Ht Hin1 Hin (_ & v & rec & Ho1 & _) Ho Hlt.
  destruct (trace_order _ _ _ _ _ Ht Hin1 Hin Hlt) as (es1 & es2 & es3 & -> & _).
  apply trace_split in Ht as (s1 & _ & Ht). inversion Ht as [|? ? ? s2 ? He1 _ Ht1]; subst.
  apply trace_split in Ht1 as (s3 & Ht2 & Ht3). inversion Ht3 as [|? ? ? s4 ? He _ _]; subst.
  assert (Hl : kv_latest s2 key = Some (e_rev e1)).
  { eapply effect_latest; [exact He1|]. by destruct Ho1 as [->|[? ->]]. }
  destruct (trace_latest _ _ _ _ _ Ht2 Hl) as (m & Hm & Hle).
  rewrite Ho in He. destruct He as [Hc _]. specialize (Hc rev eq_refl). congruence.
Qed.

(** Who deletes a claim: a sweep, or the withdrawal of that very lease. *)
Definition removes (j : LeaseCall) (key : string) (rev : Z) : Prop :=
  j = LExpire ∨ j = LWithdraw (mkToken key rev).

Lemma removes_may j key rev : may_write j (ODelete key (Some rev)) → removes j key rev.
Proof.
  destruct j as [tenant rn st a ttl off|t|t|[v f]| |]; simpl; try done.
  - by intros (k & v & _ & [|[? ?]]).
  - by intros [? ?].
  - intros [= -> ->]. by right.
  - by left.
Qed.

(** Of two grants of an attempt, the earlier was removed before the later. *)
Lemma removed_between calls s0 pos h s p q key a e1 e2 :
  orderly calls s0 pos h s → claim_key key → e1 ∈ h → e2 ∈ h → writes p key a e1 → writes q key a e2 →
  e_rev e1 < e_rev e2 →
  ∃ e rev, e ∈ h ∧ e_op e = ODelete key (Some rev) ∧ removes (calls (e_plane e)) key rev
    ∧ e_rev e1 ≤ rev ∧ e_rev e1 < e_rev e < e_rev e2.
Proof.
  intros (Ht & Hmay & _) Hck Hin1 Hin2 Hw1 Hw2 Hlt.
  destruct (between p q key a h s0 s e1 e2) as (e & rev & Hin & Ho & Hr); [done..|].
  exists e, rev. split_and!; [done|done| | |lia|lia].
  - apply removes_may. rewrite <-Ho. by apply Hmay.
  - eapply (delete_after p key a h s0 s e1 e); [done..|lia].
Qed.

(** ** What the scheduler is promised *)

(** C20: At most one caller holds an attempt: any number of calls of the lease
    service (claims, offers, validations, renewals, withdrawals, sweeps and
    listings) run at once, on any planes, over one bucket. When two of them
    ask for the same attempt of the same step and both are granted, the
    bucket deleted the claim between the two grants, at the revision of the
    earlier grant or of a later attempt that had replaced it, and the call
    that deleted it is a sweep or the withdrawal of exactly that lease; the
    two fences differ. *)
Theorem one_lease_per_attempt calls s0 pos h s p q tenant rn st attempt ttl1 ttl2 off1 off2 t1 t2 :
  p ≠ q → sys calls s0 pos h s →
  calls p = LTake tenant rn st attempt ttl1 off1 → pos p = Ret (AToken (Ok t1)) →
  calls q = LTake tenant rn st attempt ttl2 off2 → pos q = Ret (AToken (Ok t2)) →
  tk_Value t1 = tk_Value t2 ∧ tk_Fence t1 ≠ tk_Fence t2
  ∧ ∃ e rev, e ∈ h ∧ e_op e = ODelete (tk_Value t1) (Some rev)
      ∧ removes (calls (e_plane e)) (tk_Value t1) rev
      ∧ Z.min (tk_Fence t1) (tk_Fence t2) ≤ rev
      ∧ Z.min (tk_Fence t1) (tk_Fence t2) < e_rev e < Z.max (tk_Fence t1) (tk_Fence t2).
Proof.
  intros Hpq Hs%sys_orderly Cp Ep Cq Eq. pose proof Hs as (Ht & _ & Hk).
  destruct (granted_written _ _ _ _ _ _ _ _ _ _ _ _ _ Hs Cp Ep) as (Hk1 & e1 & Hin1 & Hf1 & Hw1).
  destruct (granted_written _ _ _ _ _ _ _ _ _ _ _ _ _ Hs Cq Eq) as (Hk2 & e2 & Hin2 & Hf2 & Hw2).
  assert (Hkey : tk_Value t1 = tk_Value t2) by congruence. rewrite <-Hkey in Hw2.
  rewrite <-Hf1, <-Hf2. split; [done|].
  assert (Hne : e_rev e1 ≠ e_rev e2).
  { intros Heq. assert (e1 = e2) as -> by (by eapply trace_rev_inj).
    destruct Hw1 as [Hp1 _]. destruct Hw2 as [Hp2 _]. congruence. }
  split; [done|]. pose proof (claimKey_claim _ _ _ _ Hk1) as Hck.
  destruct (Z.lt_total (e_rev e1) (e_rev e2)) as [Hlt|[Heq|Hlt]]; [|done|].
  - destruct (removed_between _ _ _ _ _ p q _ _ _ _ Hs Hck Hin1 Hin2 Hw1 Hw2 Hlt) as (e & rev & ? & ? & ? & ? & ?).
    exists e, rev. split_and!; [done..|lia|lia|lia].
  - destruct (removed_between _ _ _ _ _ q p _ _ _ _ Hs Hck Hin2 Hin1 Hw2 Hw1 Hlt) as (e & rev & ? & ? & ? & ? & ?).
    exists e, rev. split_and!; [done..|lia|lia|lia].
Qed.

(** C21: A fenced-out caller changes nothing: once a claim key has moved past a
    token's fence (a later attempt took it, or a sweep deleted it), that token
    never again validates, renews or withdraws, whatever the other planes do
    and whichever replies are lost; each call fails and writes nothing. *)
Theorem stale_fence_refused p t n es s s' r :
  kv_latest s (tk_Value t) = Some n → tk_Fence t < n →
  run p (Validate t) es s s' r ∨ run p (Renew t) es s s' r ∨ run p (Withdraw t) es s s' r →
  (∃ e, r = Err e) ∧ others p es.
Proof.
  intros Hl Hlt [Hr|[Hr|Hr]]; (eapply stale_bind in Hr as [Ho He]; [split; [exact He|exact Ho]|exact Hl|exact Hlt|done]).
Qed.

(** A dead holder is handed to exactly one sweeper: the orphans two
    concurrent sweeps return never share a fence, whatever the other planes do
    meanwhile. *)
Theorem orphan_delivered_once p q es s s' os1 os2 o1 o2 :
  p ≠ q → run p Expire es s s' (Ok os1) → run q Expire es s s' (Ok os2) →
  o1 ∈ os1 → o2 ∈ os2 → or_Fence o1 ≠ or_Fence o2.
Proof.
  intros Hpq Hr1 Hr2 Ho1 Ho2 Heq.
  apply Expire_spec in Hr1 as [Ht H1']. apply Expire_spec in Hr2 as [_ H2'].
  destruct (H1' os1 eq_refl o1 Ho1) as (e1 & Hin1 & Hd1).
  destruct (H2' os2 eq_refl o2 Ho2) as (e2 & Hin2 & Hd2). rewrite Heq in Hd1.
  pose proof (deleted_once _ _ _ _ _ _ _ _ Ht Hin1 Hin2 Hd1 Hd2) as ->.
  destruct Hd1 as [Hp1 _]. destruct Hd2 as [Hp2 _]. congruence.
Qed.

End Facts.

(** ** A bucket that keeps its history, and a codec, for the examples *)

Definition hist : Type := list (string * option string).

Fixpoint h_find (h : hist) (key : string) : option (option string * Z) :=
  match h with
  | [] => None
  | (k, v) :: h => if decide (k = key) then Some (v, 1 + Z.of_nat (length h)) else h_find h key
  end.

Definition h_get (h : hist) (key : string) : option (string * Z) :=
  match h_find h key with Some (Some v, r) => Some (v, r) | _ => None end.
Definition h_latest (h : hist) (key : string) : option Z := snd <$> h_find h key.

(** What an operation does when the bucket answers it. *)
Definition h_step (h : hist) (o : KVOp) : hist * KVRes :=
  let w := λ k v, ((k, v) :: h, 1 + Z.of_nat (length h)) in
  match o with
  | OGet k => (h, RVal (h_get h k))
  | OKeys => (h, RKeys (filter (λ k, is_Some (h_get h k)) (remove_dups (fst <$> h))))
  | OCreate k v => match h_get h k with
                   | None => let '(h', r) := w k (Some v) in (h', RRev r)
                   | Some _ => (h, RErr LostRace)
                   end
  | OUpdate k v rev => if decide (h_latest h k = Some rev)
                       then let '(h', r) := w k (Some v) in (h', RRev r)
                       else (h, RErr LostRace)
  | OPut k v => let '(h', r) := w k (Some v) in (h', RRev r)
  | ODelete k last => if decide (last = None ∨ h_latest h k = last)
                      then (fst (w k None), RDone) else (h, RErr LostRace)
  end.

(** Any operation may be lost on the way there, or its reply on the way back. *)
#[local] Instance HistStore : KVStore :=
  {| kv := hist; kv_get := h_get; kv_latest := h_latest; kv_last := λ h, Z.of_nat (length h);
     kv_do := λ h o h' res, (h', res) = h_step h o
       ∨ (h' = h ∧ ∃ e, res = RErr (OtherErr e))
       ∨ (h' = fst (h_step h o) ∧ ∃ e, res = RErr (OtherErr e)) |}.

Lemma h_find_bound h key v r : h_find h key = Some (v, r) → 0 < r ≤ Z.of_nat (length h).
Proof.
  induction h as [|[k w] h IH]; simpl; [done|].
  case_decide; [intros [= _ <-]; lia|intros Hf; specialize (IH Hf); lia].
Qed.

Lemma h_find_inj h k1 k2 v1 v2 r : h_find h k1 = Some (v1, r) → h_find h k2 = Some (v2, r) → k1 = k2.
Proof.
  induction h as [|[k w] h IH]; simpl; [done|].
  repeat case_decide; subst; try done; eauto.
  - intros [= _ <-] Hf%h_find_bound. lia.
  - intros Hf%h_find_bound [= _ <-]. lia.
Qed.

Lemma h_wrote (h : hist) k v : wrote (h : kv)  k v (1 + Z.of_nat (length h)) (((k, v) :: h) : kv).
Proof.
  unfold wrote. simpl. unfold h_get, h_latest. simpl. rewrite decide_True by done.
  split_and!; [lia|lia|by destruct v|done|]. intros key' Hne. by rewrite decide_False by done.
Qed.

Lemma h_effect (h : hist) o h' res :
  o ≠ OKeys → (∀ k, o ≠ OGet k) → h_step h o = (h', res) →
  (h' = h ∧ res = RErr LostRace)
  ∨ ∃ r, effect (h : kv) o r (h' : kv) ∧ match o with ODelete _ _ => res = RDone | _ => res = RRev r end.
Proof.
  intros Hk Hg. destruct o as [k| |k v|k v rev|k v|k last]; try done; simpl.
  - by destruct (Hg k).
  - destruct (h_get h k) eqn:Eg; intros [= <- <-]; [by left|right].
    eexists. split; [split; [done|apply h_wrote]|done].
  - case_decide as Hl; intros [= <- <-]; [right|by left].
    eexists. split; [split; [done|apply h_wrote]|done].
  - intros [= <- <-]. right. eexists. split; [apply h_wrote|done].
  - case_decide as Hl; intros [= <- <-]; [right|by left].
    eexists. split; [split; [|apply h_wrote]|done]. intros rev ->. by destruct Hl.
Qed.

#[local] Instance HistLaws : KVLaws.
Proof.
  split; simpl.
  - unfold h_get, h_latest. intros s key v r. destruct (h_find s key) as [[[w|] r']|]; simpl; congruence.
  - unfold h_latest. intros s key r. destruct (h_find s key) as [[w r']|] eqn:E; simpl; [|done].
    intros [= <-]. by eapply h_find_bound.
  - unfold h_latest. intros s k1 k2 r.
    destruct (h_find s k1) as [[w1 r1]|] eqn:E1; simpl; [|done].
    destruct (h_find s k2) as [[w2 r2]|] eqn:E2; simpl; [|done].
    intros [= ->] [= ->]. by eapply h_find_inj.
  - intros s key s' res [[= -> ->]|[[-> [e ->]]|[-> [e ->]]]]; eauto.
  - intros s s' res [[= -> ->]|[[-> [e ->]]|[-> [e ->]]]]; eauto.
    split; [done|]. left. eexists. split; [done|]. by intros k [? _]%list_elem_of_filter.
  - intros s o s' res Hk Hg [Hs|[[-> [e ->]]|[-> [e ->]]]]; [|by left; eauto|].
    + symmetry in Hs. apply h_effect in Hs as [[-> ->]|(r & He & Hr)]; eauto 10.
    + destruct (h_step s o) as [h res] eqn:Hs.
      apply h_effect in Hs as [[-> ->]|(r & He & Hr)]; [by left; eauto|right; eauto 10|done..].
Qed.

(** A codec: the record's code as a string of digits. *)
#[local] Instance BitsJSON : LeaseJSON :=
  {| enc_claim := λ r, pos_bits (countable.encode (cl_Tenant r, cl_Run r, cl_Step r, cl_Attempt r, cl_TTLNanos r,
                                  cl_ExpiresAt r, cl_Offered r));
     dec_claim := λ s, (λ '(t, rn, st, a, ttl, x, off), mkClaim t rn st a ttl x off)
                    <$> (countable.decode (bits_pos s) : option (string * string * string * Z * Z * Z * bool));
     enc_renew := λ r, pos_bits (countable.encode (rn_Fence r, rn_ExpiresAt r));
     dec_renew := λ s, (λ '(f, x), mkRenew f x) <$> (countable.decode (bits_pos s) : option (Z * Z)) |}.

#[local] Instance BitsJSONLaws : LeaseJSONLaws.
Proof. split; intros []; simpl; by rewrite bits_pos_bits, countable.decode_encode. Qed.

(** An operation of the program's own, answered. *)
Lemma run_do_quiet {R} p o (k : KVRes → Cmd R) es (s : hist) s' x :
  fst (h_step s o) = s → run p (k (snd (h_step s o))) es s s' x → run p (Op o k) es s s' x.
Proof. intros Hs Hr. eapply run_quiet; [left|exact Hr]. rewrite <-Hs at 1. by destruct (h_step s o). Qed.

Lemma run_do_write {R} p o (k : KVRes → Cmd R) r es (s : hist) s' x :
  effect (s : kv) o r (fst (h_step s o) : kv) →
  run p (k (snd (h_step s o))) es (fst (h_step s o) : kv) s' x →
  run p (Op o k) (mkEv p o r :: es) s s' x.
Proof. intros He Hr. eapply run_write; [left|exact He|exact Hr]. by destruct (h_step s o). Qed.

#[local] Abbreviation hkv := (@kv HistStore).

Definition ex_key : string := claimPrefix +:+ encode "t" +:+ "." +:+ encode "r" +:+ "." +:+ encode "s".
Definition ex_claim (x : Z) : string := enc_claim (mkClaim "t" "r" "s" 1 10 x false).
Definition ex_h1 : hist := [(ex_key, Some (ex_claim 10))].
Definition ex_h2 : hist := (ex_key, None) :: ex_h1.
Definition ex_h3 : hist := (ex_key, Some (ex_claim 30)) :: ex_h2.
(** What one call does next, answered by the bucket at time [t]. *)
Definition play_step (pos : nat → Cmd LeaseAns) (h : list Ev) (s : hist) (n : nat) (t : Z)
    : (nat → Cmd LeaseAns) * list Ev * hist :=
  match pos n with
  | Ret _ => (pos, h, s)
  | Now k => (moved pos n (k t), h, s)
  | Op o k =>
      let '(s', res) := h_step s o in
      (moved pos n (k res),
       if decide (length s' = length s) then h else h ++ [mkEv n o (1 + Z.of_nat (length s))], s')
  end.

(** The calls step in a given order, each at a given time. *)
Fixpoint play (moves : list (nat * Z)) (pos : nat → Cmd LeaseAns) (h : list Ev) (s : hist)
    : (nat → Cmd LeaseAns) * list Ev * hist :=
  match moves with
  | [] => (pos, h, s)
  | (n, t) :: moves => let '(pos', h', s') := play_step pos h s n t in play moves pos' h' s'
  end.

Lemma h_step_same h o h' res : h_step h o = (h', res) →
  (length h' = length h ∧ h' = h)
  ∨ (length h' ≠ length h ∧ effect (h : hkv) o (1 + Z.of_nat (length h)) (h' : hkv)).
Proof.
  intros Hs.
  assert (Hlen : length h' = length h ∨ length h' = S (length h)).
  { destruct o; simpl in Hs; repeat case_match; simplify_eq/=; auto. }
  assert (Hq : (h' = h) ∨ ∃ r, effect (h : hkv) o r (h' : hkv)).
  { destruct o as [k| |k v|k v rev|k v|k last] eqn:Eo; [by injection Hs as <- _; left..| | | |];
      (destruct (h_effect h o h' res) as [[-> _]|(r & He & _)]; subst o; [done|done|done|by left|by eauto]). }
  destruct Hq as [->|[r He]]; [by left|right].
  pose proof (effect_last _ _ _ _ He) as [Hlt Hl]. simpl in Hlt, Hl. split; [lia|].
  replace (1 + Z.of_nat (length h)) with r; [done|].
  lia.
Qed.

Lemma play_step_sys calls s0 pos h s n t pos' h' s' :
  sys calls s0 pos h (s : hkv) → play_step pos h s n t = (pos', h', s') → sys calls s0 pos' h' (s' : hkv).
Proof.
  intros Hs. unfold play_step. destruct (pos n) as [a|o k|k] eqn:En.
  - by intros [= <- <- <-].
  - destruct (h_step s o) as [s1 res] eqn:Eo. intros [= <- <- <-].
    assert (Hd : kv_do (s : hkv) o (s1 : hkv) res) by (left; by rewrite Eo).
    destruct (h_step_same _ _ _ _ Eo) as [[Hl ->]|[Hl He]].
    + rewrite decide_True by done. by eapply sys_quiet.
    + rewrite decide_False by done. by eapply sys_write.
  - intros [= <- <- <-]. by eapply sys_now.
Qed.

Lemma play_sys calls s0 moves : ∀ pos h s pos' h' s',
  sys calls s0 pos h (s : hkv) → play moves pos h s = (pos', h', s') → sys calls s0 pos' h' (s' : hkv).
Proof.
  induction moves as [|[n t] moves IH]; simpl; intros pos h s pos' h' s' Hs.
  - by intros [= <- <- <-].
  - destruct (play_step pos h s n t) as [[pos1 h1] s1] eqn:E1. intros Hp.
    exact (IH pos1 h1 s1 pos' h' s' (play_step_sys _ _ _ _ _ _ _ _ _ _ Hs E1) Hp).
Qed.

(** Two planes claim an attempt at once: one is granted it, the other is told
    so; its lease runs out and is swept, and a third is granted it. *)
Definition ex_calls (n : nat) : LeaseCall :=
  match n with
  | 1 | 2 | 3 => LTake "t" "r" "s" 1 10 false
  | 4 => LExpire
  | _ => LUnaccepted
  end%nat.
Definition ex_moves : list (nat * Z) :=
  [(1%nat, 0); (2%nat, 0); (1%nat, 0); (2%nat, 0); (2%nat, 0); (1%nat, 0); (1%nat, 0);
   (4%nat, 11); (4%nat, 11); (4%nat, 11); (4%nat, 11); (4%nat, 11); (4%nat, 11);
   (3%nat, 20); (3%nat, 20); (3%nat, 20)].
Definition ex_play := play ex_moves (λ n, begin (ex_calls n)) [] [].
Definition ex_pos : nat → Cmd LeaseAns := fst (fst ex_play).
Definition ex_history : list Ev := snd (fst ex_play).
Definition ex_end : hist := snd ex_play.

Lemma ex_sys : sys ex_calls ([] : hkv) ex_pos ex_history (ex_end : hkv).
Proof.
  apply (play_sys ex_calls ([] : hkv) ex_moves (λ n, begin (ex_calls n)) [] []); [constructor|].
  unfold ex_pos, ex_history, ex_end. fold ex_play. by destruct ex_play as [[pos h] s].
Qed.

Lemma ex_pos2 : ex_pos 2 = Ret (AToken (Ok (mkToken ex_key 1))).
Proof. vm_compute. reflexivity. Qed.
Lemma ex_pos3 : ex_pos 3 = Ret (AToken (Ok (mkToken ex_key 4))).
Proof. vm_compute. reflexivity. Qed.
Lemma ex_pos1 : ex_pos 1 = Ret (AToken (Err (ErrAlreadyOffered 1))).
Proof. vm_compute. reflexivity. Qed.

Lemma one_lease_per_attempt_witness :
  tk_Value (mkToken ex_key 1) = tk_Value (mkToken ex_key 4) ∧ (1 : Z) ≠ 4
  ∧ ∃ e rev, e ∈ ex_history ∧ e_op e = ODelete ex_key (Some rev)
      ∧ removes (ex_calls (e_plane e)) ex_key rev
      ∧ Z.min 1 4 ≤ rev ∧ Z.min 1 4 < e_rev e < Z.max 1 4.
Proof.
  exact (one_lease_per_attempt ex_calls ([] : hkv) ex_pos ex_history (ex_end : hkv) 2 3 "t" "r" "s" 1 10 10
    false false (mkToken ex_key 1) (mkToken ex_key 4) (Nat.neq_succ_diag_r 2) ex_sys
    eq_refl ex_pos2 eq_refl ex_pos3).
Defined.

(** The first holder, after the second grant. *)
Lemma ex_stale_run : run 1 (Validate (mkToken ex_key 1)) [] (ex_h3 : hkv) (ex_h3 : hkv) (Err ErrFenced).
Proof. unfold Validate, current. simpl. apply run_do_quiet; [reflexivity|]. vm_compute. constructor. Qed.

Lemma stale_fence_refused_witness :
  (∃ e, Err ErrFenced = (Err e : result LeaseErr unit)) ∧ others 1 [].
Proof.
  refine (stale_fence_refused 1 (mkToken ex_key 1) 3 [] (ex_h3 : hkv) (ex_h3 : hkv) (Err ErrFenced) _ _ _).
  - reflexivity.
  - reflexivity.
  - left. exact ex_stale_run.
Defined.

(** A sweep of one dead lease nobody interferes with, at time [now]. *)
Lemma run_expireOne {R} p key rec v rev (now : Z) (h : hist) (k : result LeaseErr (option Orphan) → Cmd R) es s' x :
  h_get h key = Some (v, rev) → dec_claim v = Some rec → cl_Offered rec = false →
  h_get h (renewKeyFor key) = None → cl_ExpiresAt rec < now →
  let h1 : hist := (key, None) :: h in
  let h2 : hist := (renewKeyFor key, None) :: h1 in
  let r := 1 + Z.of_nat (length h) in
  run p (k (Ok (Some (mkOrphan (cl_Tenant rec) (cl_Run rec) (cl_Step rec) (cl_Attempt rec) rev)))) es
    (h2 : hkv) s' x →
  run p (cmd_bind (expireOne key) k)
    (mkEv p (ODelete key (Some rev)) r :: mkEv p (ODelete (renewKeyFor key) None) (1 + r) :: es) (h : hkv) s' x.
Proof.
  intros Hg Hd Hoff Hrn Hnow h1 h2 r Hr.
  pose proof (get_latest (h : hkv) key v rev Hg) as Hl.
  unfold expireOne. cbn [cmd_bind]. apply run_do_quiet; [done|]. cbn [h_step snd]. rewrite Hg, Hd.
  unfold deadline. cbn [cmd_bind]. apply run_do_quiet; [done|]. cbn [h_step snd]. rewrite Hrn.
  cbn [cmd_bind]. unfold deadline_of. rewrite Hoff. cbn [negb cmd_bind].
  apply (run_now _ _ now). rewrite decide_False by lia. cbn [cmd_bind].
  assert (Hs : h_step h (ODelete key (Some rev)) = (h1, RDone)).
  { cbn [h_step]. by rewrite decide_True by (right; exact Hl). }
  apply run_do_write; rewrite Hs.
  { split; [intros rev' [= <-]; exact Hl|apply h_wrote]. }
  cbn [fst snd cmd_bind].
  assert (Hs2 : h_step h1 (ODelete (renewKeyFor key) None) = (h2, RDone)).
  { cbn [h_step]. by rewrite decide_True by (by left). }
  replace (1 + r) with (1 + Z.of_nat (length h1)) by (unfold r, h1; simpl; lia).
  apply run_do_write; rewrite Hs2; [split; [done|apply h_wrote]|]. exact Hr.
Qed.

Definition ex_sw1 : hist := (renewKeyFor ex_key, None) :: (ex_key, None) :: ex_h1.
Definition ex_sw2 : hist := (ex_key, Some (ex_claim 30)) :: ex_sw1.
Definition ex_sw3 : hist := (renewKeyFor ex_key, None) :: (ex_key, None) :: ex_sw2.
Definition ex_orphan (fence : Z) : Orphan := mkOrphan "t" "r" "s" 1 fence.
Definition ex_sweep (p : nat) (fence r : Z) : list Ev :=
  [mkEv p (ODelete ex_key (Some fence)) r; mkEv p (ODelete (renewKeyFor ex_key) None) (1 + r)].
Definition ex_regrant : Ev := mkEv 3 (OCreate ex_key (ex_claim 30)) 4.

Lemma ex_sweep_trace p fence x (h : hist) es s' :
  h_get h ex_key = Some (ex_claim x, fence) →
  trace es (((renewKeyFor ex_key, None) :: (ex_key, None) :: h : hist) : hkv) s' →
  trace (ex_sweep p fence (1 + Z.of_nat (length h)) ++ es) (h : hkv) s'.
Proof.
  intros Hg Ht. pose proof (get_latest (h : hkv) _ _ _ Hg) as Hl. econstructor.
  { split; [intros rev [= <-]; exact Hl|apply h_wrote]. }
  { intros _. by exists (ex_claim x). }
  econstructor; [|apply renew_not_claim|exact Ht].
  split; [done|]. cbn [e_rev].
  replace (1 + (1 + Z.of_nat (length h))) with (1 + Z.of_nat (length ((ex_key, None) :: h))) by (simpl; lia).
  apply h_wrote.
Qed.

Lemma run_Expire_one p x now (h : hist) fence es s' :
  snd (h_step h OKeys) = RKeys [ex_key] → h_get h ex_key = Some (ex_claim x, fence) →
  h_get h (renewKeyFor ex_key) = None → x < now →
  trace es (((renewKeyFor ex_key, None) :: (ex_key, None) :: h : hist) : hkv) s' → others p es →
  run p Expire (ex_sweep p fence (1 + Z.of_nat (length h)) ++ es) (h : hkv) s' (Ok [ex_orphan fence]).
Proof.
  intros Hk Hg Hrn Hx Ht Ho. unfold Expire. apply run_do_quiet; [done|]. rewrite Hk. cbn [expire_keys].
  change (negb (has_prefix claimPrefix ex_key)) with false. cbv iota.
  eapply run_expireOne; [exact Hg|apply dec_enc_claim|done|exact Hrn|exact Hx|].
  cbn [expire_keys]. replace es with (es ++ []) by apply app_nil_r.
  eapply run_env_prefix; [exact Ht|exact Ho|constructor].
Qed.

Definition ex_sweeps : list Ev := ex_sweep 1 1 2 ++ ex_regrant :: ex_sweep 2 4 5.

Lemma ex_regrant_trace es s' : trace es (ex_sw2 : hkv) s' → trace (ex_regrant :: es) (ex_sw1 : hkv) s'.
Proof.
  intros Ht. econstructor; [split; [reflexivity|apply h_wrote]| |exact Ht].
  intros _. eexists. apply dec_enc_claim.
Qed.

Lemma ex_sweep1_run : run 1 Expire ex_sweeps (ex_h1 : hkv) (ex_sw3 : hkv) (Ok [ex_orphan 1]).
Proof.
  apply (run_Expire_one 1 10 11 ex_h1 1); [reflexivity|reflexivity|reflexivity|lia| |].
  - apply ex_regrant_trace. change (ex_sweep 2 4 5) with (ex_sweep 2 4 5 ++ []).
    apply (ex_sweep_trace 2 4 30 ex_sw2); [reflexivity|constructor].
  - intros e He. repeat (apply elem_of_cons in He as [->|He]; [done|]). by apply elem_of_nil in He.
Qed.

Lemma ex_sweep2_run : run 2 Expire ex_sweeps (ex_h1 : hkv) (ex_sw3 : hkv) (Ok [ex_orphan 4]).
Proof.
  apply (run_env_prefix 2 _ (ex_sweep 1 1 2 ++ [ex_regrant]) (ex_sweep 2 4 5) _ (ex_sw2 : hkv)).
  - apply (ex_sweep_trace 1 1 10 ex_h1); [reflexivity|]. apply ex_regrant_trace. constructor.
  - intros e He. repeat (apply elem_of_cons in He as [->|He]; [done|]). by apply elem_of_nil in He.
  - change (ex_sweep 2 4 5) with (ex_sweep 2 4 (1 + Z.of_nat (length ex_sw2)) ++ []).
    apply (run_Expire_one 2 30 31); [reflexivity|reflexivity|reflexivity|lia|constructor|apply others_nil].
Qed.

Lemma orphan_delivered_once_witness : or_Fence (ex_orphan 1) ≠ or_Fence (ex_orphan 4).
Proof.
  apply (orphan_delivered_once 1 2 ex_sweeps (ex_h1 : hkv) (ex_sw3 : hkv) [ex_orphan 1] [ex_orphan 4]).
  - discriminate.
  - exact ex_sweep1_run.
  - exact ex_sweep2_run.
  - by left.
  - by left.
Defined.

(** A sweep whose second read fails. *)
Definition ex_key2 : string := claimPrefix +:+ encode "t" +:+ "." +:+ encode "r" +:+ "." +:+ encode "s2".
Definition ex_two : hist :=
  [(ex_key, Some (ex_claim 10)); (ex_key2, Some (enc_claim (mkClaim "t" "r" "s2" 1 10 10 false)))].
Definition ex_lost : hist := (renewKeyFor ex_key, None) :: (ex_key, None) :: ex_two.

Lemma ex_failed_sweep :
  run 1 Expire (ex_sweep 1 2 3) (ex_two : hkv) (ex_lost : hkv) (Err (Reading (OtherErr "timeout"))).
Proof.
  unfold Expire. apply run_do_quiet; [done|].
  change (snd (h_step ex_two OKeys)) with (RKeys [ex_key; ex_key2]). cbn [expire_keys].
  change (negb (has_prefix claimPrefix ex_key)) with false. cbv iota.
  change (ex_sweep 1 2 3) with (ex_sweep 1 2 (1 + Z.of_nat (length ex_two)) ++ []).
  refine (run_expireOne 1 ex_key _ (ex_claim 10) 2 11 ex_two _ [] _ _ _ _ _ _ _ _);
    [reflexivity|apply dec_enc_claim|reflexivity|reflexivity|reflexivity|].
  change (negb (has_prefix claimPrefix ex_key2)) with false. cbn [expire_keys cmd_bind expireOne].
  eapply (run_quiet _ _ _ (RErr (OtherErr "timeout"))); [right; left; eauto|]. constructor.
Qed.

(** A sweep that fails part way loses the orphans it had already claimed:
    it deletes a dead holder's lease, then a later key cannot be read, and it
    returns the error without the orphan; and no sweep of any plane, ever
    after, reports that lease. *)
Theorem expire_error_drops_orphans :
  ∃ es (s s' : hkv) e key v rev,
    run 1 Expire es s s' (Err e) ∧ claim_key key ∧ kv_get s key = Some (v, rev) ∧ kv_get s' key = None
    ∧ ∀ q es' s'' os o, run q Expire es' s' s'' (Ok os) → o ∈ os → or_Fence o ≠ rev.
Proof.
  exists (ex_sweep 1 2 3), (ex_two : hkv), (ex_lost : hkv), (Reading (OtherErr "timeout")), ex_key, (ex_claim 10), 2.
  split_and!; [exact ex_failed_sweep|reflexivity|reflexivity|reflexivity|].
  intros q es' s'' os o Hr Ho Hf. apply Expire_spec in Hr as [Ht Hdel].
  destruct (Hdel os eq_refl o Ho) as (e2 & Hin & Hd). rewrite Hf in Hd.
  assert (Htr : trace (ex_sweep 1 2 3 ++ es') (ex_two : hkv) s'').
  { exact (ex_sweep_trace 1 2 10 ex_two es' s'' eq_refl Ht). }
  assert (He2 : mkEv 1 (ODelete ex_key (Some 2)) 3 = e2).
  { eapply (deleted_once _ _ _ 1 q 2); [exact Htr|by left|apply elem_of_app; by right| |exact Hd].
    split; [done|]. by exists ex_key. }
  subst e2. apply trace_last in Ht as [_ Hlast]. specialize (Hlast _ Hin). by compute in Hlast.
Qed.
