(* ===== verification/Fleet.v ===== *)
(** * Placement: [internal/scheduler/match.go], [internal/registry], [internal/wire]

    Which engines a step may be placed on ([Match]) and what is said when
    there is none ([Explain]); which wire version a dispatch is written in
    ([dispatchVersion] over [Negotiate]); which environment identity a cache
    key is hashed against ([TierEnvironmentIdentity]); and how many slots a
    fleet advertises ([capacity]). *)

From S2P Require Import Prelude Bytes Proto.

(** ** [registry.go]: the data *)

Definition StateRegistering : string := "registering".
Definition StateReady : string := "ready".
Definition StateDraining : string := "draining".
Definition StateGone : string := "gone".

Record Job : Type := mkJob
  { job_RunID : string; job_StepID : string; job_Attempt : Z; job_FenceToken : string }.

Record Instance_ : Type := mkInstance
  { e_ID : string; e_State : string; e_Capabilities : list Capability;
    e_OS : string; e_Arch : string; e_EngineTypes : list string; e_Slots : Z;
    e_ProtocolVersions : list Z; e_Tier : string; e_EnvironmentIdentity : string;
    e_InFlight : list Job }.

(** [executor.Requirements]. *)
Record Requirements : Type := mkRequirements
  { req_OS : string; req_Arch : string; req_Capabilities : list Capability; req_EngineType : string }.

(** ** [match.go] *)

Definition platformMatches (required offered : string) : bool :=
  bool_decide (required = "") || bool_decide (required = offered).

Definition offersEngineType (required : string) (e : Instance_) : bool :=
  bool_decide (required = "") || bool_decide (required ∈ e_EngineTypes e).

Definition advertises (e : Instance_) (c : Capability) : bool := bool_decide (c ∈ e_Capabilities e).

(** The capabilities a requirement really names. *)
Definition named (c : Capability) : bool := bool_decide (c ≠ CAPABILITY_UNSPECIFIED).

Definition eligible (req : Requirements) (e : Instance_) : bool :=
  if decide (e_State e ≠ StateReady) then false
  else if decide (e_Slots e ≤ 0) then false
  else if negb (platformMatches (req_OS req) (e_OS e) && platformMatches (req_Arch req) (e_Arch e))
  then false
  else if negb (offersEngineType (req_EngineType req) e) then false
  else forallb (λ c, negb (named c) || advertises e c) (req_Capabilities req).

Definition Match (req : Requirements) (engines : list Instance_) : list Instance_ :=
  List.filter (eligible req) engines.

Definition platformName (os arch : string) : string :=
  if decide (os = "" ∧ arch = "") then "any platform"
  else if decide (os = "") then "arch " +:+ arch
  else if decide (arch = "") then "os " +:+ os
  else os +:+ "/" +:+ arch.

Definition engineTypeClause (engineType : string) : string :=
  if decide (engineType = "") then "" else " on engine type " +:+ engineType.

Definition shortCapability (c : Capability) : string :=
  trim_prefix "CAPABILITY_" (Capability_String c).

Definition capabilityList (caps : list Capability) : string :=
  match List.filter named caps with
  | [] => "no capabilities"
  | names => "capabilities " +:+ join ", " (map shortCapability names)
  end.

(** The first named capability nobody in [onPlatform] advertises. *)
Definition missing_capability (caps : list Capability) (onPlatform : list Instance_) : option Capability :=
  List.find (λ c, named c && negb (existsb (λ e, advertises e c) onPlatform)) caps.

Definition Explain (req : Requirements) (engines : list Instance_) : string :=
  match engines with
  | [] => "no engine is registered"
  | _ =>
      let ready := List.filter (λ e, bool_decide (e_State e = StateReady)) engines in
      match ready with
      | [] => if existsb (λ e, bool_decide (e_State e = StateDraining)) engines
              then "every registered engine is draining"
              else "no registered engine is ready"
      | _ =>
          let onPlatform := List.filter (λ e, platformMatches (req_OS req) (e_OS e)
                                              && platformMatches (req_Arch req) (e_Arch e)) ready in
          match onPlatform with
          | [] => "no ready engine runs on " +:+ platformName (req_OS req) (req_Arch req)
          | _ =>
              let onType := List.filter (offersEngineType (req_EngineType req)) onPlatform in
              match onType with
              | [] => "no ready engine offers engine type " +:+ req_EngineType req
              | _ =>
                  match missing_capability (req_Capabilities req) onType with
                  | Some c => "no engine advertises capability " +:+ shortCapability c
                  | None =>
                      "no single engine satisfies " +:+ platformName (req_OS req) (req_Arch req)
                      +:+ engineTypeClause (req_EngineType req) +:+ " together with "
                      +:+ capabilityList (req_Capabilities req)
                  end
              end
          end
      end
  end.

(** ** [negotiate.go] *)

Definition ProtocolVersion : Z := 3.
Definition SupportedWindow : Z := 1.

Definition oldestAccepted (ours : Z) : Z :=
  if decide (ours ≤ SupportedWindow) then 1 else ours - SupportedWindow.

Definition better (oldest ours : Z) (best : option Z) (v : Z) : option Z :=
  if decide (v < oldest ∨ ours < v) then best
  else match best with
       | None => Some v
       | Some b => if decide (b < v) then Some v else best
       end.

Inductive NegotiateErr : Type := Unsupported (spoken : list Z) (oldest ours : Z).

Definition NegotiateAgainst (ours : Z) (engineVersions : list Z) : result NegotiateErr Z :=
  let oldest := oldestAccepted ours in
  match foldl (better oldest ours) None engineVersions with
  | None => Err (Unsupported engineVersions oldest ours)
  | Some best => Ok best
  end.

Definition Negotiate (engineVersions : list Z) : result NegotiateErr Z :=
  NegotiateAgainst ProtocolVersion engineVersions.

(** [scheduler.dispatchVersion]. *)
Definition dispatchVersion (engines : list Instance_) : Z :=
  foldl (λ version e,
    match Negotiate (e_ProtocolVersions e) with
    | Err _ => version
    | Ok agreed => if decide (agreed < version) then agreed else version
    end) ProtocolVersion engines.

(** ** [registry.TierEnvironmentIdentity] *)

Definition reachable (tier engineKind : string) (e : Instance_) : bool :=
  bool_decide (e_Tier e = tier)
  && (bool_decide (engineKind = "") || bool_decide (engineKind ∈ e_EngineTypes e)).

Definition seen_identities (instances : list Instance_) (tier engineKind : string) : list string :=
  foldl (λ seen e, if decide (e_EnvironmentIdentity e ∈ seen) then seen
                   else seen ++ [e_EnvironmentIdentity e])
    [] (List.filter (reachable tier engineKind) instances).

Definition TierEnvironmentIdentity (instances : list Instance_) (tier engineKind : string)
    : string * list string :=
  match seen_identities instances tier engineKind with
  | [] => ("", [])
  | [x] => (x, [])
  | seen => ("", sort_strings seen)
  end.

(** [Scheduler.capacity], from the instances the fleet listed. *)
Definition capacity (instances : list Instance_) : Z :=
  foldl (λ total e,
    if decide (e_State e ≠ StateReady ∨ e_Slots e ≤ 0) then total else total + e_Slots e) 0 instances.

(** [slices.Sort] of capabilities, by number. *)
Definition cap_le (a b : Capability) : Prop := Capability_number a ≤ Capability_number b.
#[export] Instance cap_le_dec : RelDecision cap_le.
Proof. intros a b. unfold cap_le. apply _. Defined.

(** What [reachableCapabilities] collects from the engines that matched. *)
Definition advertised (engines : list Instance_) : list Capability :=
  merge_sort cap_le
    (foldl (λ out c, if decide (c ∈ out) then out else out ++ [c]) [] (mjoin (e_Capabilities <$> engines))).

(** [recordWaiting]'s count: the slots of the engines, and how many are busy. *)
Definition slots_busy (matched : list Instance_) : Z * Z :=
  foldl (λ '(slots, busy) e,
    let n := Z.max (e_Slots e) 1 in
    (slots + n, busy + Z.min (Z.of_nat (length (e_InFlight e))) n)) (0, 0) matched.
