(* ===== verification/FleetFacts.v ===== *)
(** * What placement guarantees

    [Match] and [Explain] read one rule: a step that matches nothing is told a
    true cause. The dispatch version is the least of the versions negotiated;
    a tier has an environment identity exactly when the engines a step can
    reach agree on one. *)

From S2P Require Import Prelude Bytes Proto Fleet.

(** ** Matching *)

Lemma platformMatches_iff r o : platformMatches r o = true ↔ r = "" ∨ r = o.
Proof. unfold platformMatches. by rewrite orb_true_iff, !bool_decide_eq_true. Qed.

Lemma offersEngineType_iff r e : offersEngineType r e = true ↔ r = "" ∨ r ∈ e_EngineTypes e.
Proof. unfold offersEngineType. by rewrite orb_true_iff, !bool_decide_eq_true. Qed.

(** The rule for one engine, in one line. *)
Definition fits (req : Requirements) (e : Instance_) : Prop :=
  e_State e = StateReady ∧ 0 < e_Slots e
  ∧ (req_OS req = "" ∨ req_OS req = e_OS e) ∧ (req_Arch req = "" ∨ req_Arch req = e_Arch e)
  ∧ (req_EngineType req = "" ∨ req_EngineType req ∈ e_EngineTypes e)
  ∧ ∀ c, c ∈ req_Capabilities req → c ≠ CAPABILITY_UNSPECIFIED → c ∈ e_Capabilities e.

Lemma eligible_fits req e : eligible req e = true ↔ fits req e.
Proof.
  unfold eligible, fits. repeat case_decide; try (split; [done|intros; destruct_and?; done || lia]).
  destruct (platformMatches (req_OS req) (e_OS e) && platformMatches (req_Arch req) (e_Arch e)) eqn:Hp;
    simpl; [apply andb_true_iff in Hp as [H1%platformMatches_iff H2%platformMatches_iff]|].
  2: { split; [done|]. intros (_ & _ & H1 & H2 & _). apply platformMatches_iff in H1, H2.
       by rewrite H1, H2 in Hp. }
  destruct (offersEngineType (req_EngineType req) e) eqn:Ht; simpl.
  2: { split; [done|]. intros (_ & _ & _ & _ & H3 & _). apply offersEngineType_iff in H3. congruence. }
  apply offersEngineType_iff in Ht. rewrite forallb_forall. split.
  - intros Hc. split_and!; [by destruct (decide (e_State e = StateReady))|lia|done..|]. intros c Hin Hne.
    apply list_elem_of_In in Hin. specialize (Hc c Hin). unfold named in Hc.
    rewrite bool_decide_true in Hc by done. simpl in Hc. by apply bool_decide_eq_true in Hc.
  - intros (_ & _ & _ & _ & _ & Hc) c Hin. apply list_elem_of_In in Hin. unfold named, advertises.
    destruct (decide (c = CAPABILITY_UNSPECIFIED)) as [->|Hne]; [done|].
    rewrite (bool_decide_true (c ≠ _)) by done. simpl. apply bool_decide_eq_true. auto.
Qed.

Lemma elem_of_filter_b {A} (f : A → bool) l x : x ∈ List.filter f l ↔ x ∈ l ∧ f x = true.
Proof. rewrite !list_elem_of_In. apply filter_In. Qed.

Lemma filter_b_nil {A} (f : A → bool) l : List.filter f l = [] ↔ ∀ x, x ∈ l → f x = false.
Proof.
  split.
  - intros Hn x Hx. destruct (f x) eqn:E; [|done].
    assert (Hin : x ∈ List.filter f l) by (by apply elem_of_filter_b). rewrite Hn in Hin.
    by apply elem_of_nil in Hin.
  - intros Hall. destruct (List.filter f l) as [|x r] eqn:E; [done|].
    assert (Hin : x ∈ List.filter f l) by (rewrite E; by left).
    apply elem_of_filter_b in Hin as [Hx Hf]. rewrite Hall in Hf; done.
Qed.

Lemma filter_b_cons {A} (f : A → bool) l x r : List.filter f l = x :: r → ∃ y, y ∈ l ∧ f y = true.
Proof. intros E. exists x. apply elem_of_filter_b. rewrite E. by left. Qed.

Lemma Match_spec req es e : e ∈ Match req es ↔ e ∈ es ∧ fits req e.
Proof. unfold Match. by rewrite elem_of_filter_b, eligible_fits. Qed.

Lemma missing_capability_Some caps es c :
  missing_capability caps es = Some c →
  c ∈ caps ∧ c ≠ CAPABILITY_UNSPECIFIED ∧ ∀ e, e ∈ es → c ∉ e_Capabilities e.
Proof.
  intros Hf. apply find_some in Hf as [Hin Hb]. apply andb_true_iff in Hb as [Hn Hx].
  split_and!; [by apply list_elem_of_In|by apply bool_decide_eq_true in Hn|].
  intros e He Hc. apply negb_true_iff in Hx. rewrite <-not_true_iff_false in Hx. apply Hx.
  apply existsb_exists. exists e. split; [by apply list_elem_of_In|]. by apply bool_decide_eq_true.
Qed.

Lemma missing_capability_None caps es c :
  missing_capability caps es = None → c ∈ caps → c ≠ CAPABILITY_UNSPECIFIED →
  ∃ e, e ∈ es ∧ c ∈ e_Capabilities e.
Proof.
  intros Hf Hin Hne. apply list_elem_of_In in Hin.
  pose proof (find_none _ _ Hf c Hin) as Hb. simpl in Hb. unfold named in Hb.
  rewrite bool_decide_true in Hb by done. simpl in Hb. apply negb_false_iff in Hb.
  apply existsb_exists in Hb as (e & He & Ha). exists e. split; [by apply list_elem_of_In|].
  by apply bool_decide_eq_true in Ha.
Qed.

(** ** The causes [Explain] names, coarsest first *)

Definition on_platform (req : Requirements) (e : Instance_) : Prop :=
  e_State e = StateReady ∧ (req_OS req = "" ∨ req_OS req = e_OS e)
  ∧ (req_Arch req = "" ∨ req_Arch req = e_Arch e).

Definition on_type (req : Requirements) (e : Instance_) : Prop :=
  on_platform req e ∧ (req_EngineType req = "" ∨ req_EngineType req ∈ e_EngineTypes e).

Inductive explained (req : Requirements) (es : list Instance_) : string → Prop :=
| ex_none : es = [] → explained req es "no engine is registered"
| ex_draining e :
    (∀ x, x ∈ es → e_State x ≠ StateReady) → e ∈ es → e_State e = StateDraining →
    explained req es "every registered engine is draining"
| ex_not_ready :
    es ≠ [] → (∀ x, x ∈ es → e_State x ≠ StateReady ∧ e_State x ≠ StateDraining) →
    explained req es "no registered engine is ready"
| ex_platform e :
    e ∈ es → e_State e = StateReady → (∀ x, x ∈ es → ¬ on_platform req x) →
    explained req es ("no ready engine runs on " +:+ platformName (req_OS req) (req_Arch req))
| ex_type e :
    e ∈ es → on_platform req e → (∀ x, x ∈ es → ¬ on_type req x) →
    explained req es ("no ready engine offers engine type " +:+ req_EngineType req)
| ex_capability e c :
    e ∈ es → on_type req e → c ∈ req_Capabilities req → c ≠ CAPABILITY_UNSPECIFIED →
    (∀ x, x ∈ es → on_type req x → c ∉ e_Capabilities x) →
    explained req es ("no engine advertises capability " +:+ shortCapability c)
| ex_together e :
    e ∈ es → on_type req e →
    (∀ c, c ∈ req_Capabilities req → c ≠ CAPABILITY_UNSPECIFIED →
       ∃ x, x ∈ es ∧ on_type req x ∧ c ∈ e_Capabilities x) →
    (∀ x, x ∈ es → on_type req x →
       e_Slots x ≤ 0 ∨ ∃ c, c ∈ req_Capabilities req ∧ c ≠ CAPABILITY_UNSPECIFIED ∧ c ∉ e_Capabilities x) →
    explained req es
      ("no single engine satisfies " +:+ platformName (req_OS req) (req_Arch req)
       +:+ engineTypeClause (req_EngineType req) +:+ " together with "
       +:+ capabilityList (req_Capabilities req)).

Lemma ready_iff es e :
  e ∈ List.filter (λ e, bool_decide (e_State e = StateReady)) es ↔ e ∈ es ∧ e_State e = StateReady.
Proof. by rewrite elem_of_filter_b, bool_decide_eq_true. Qed.

Lemma on_platform_iff req es e :
  e ∈ List.filter (λ e, platformMatches (req_OS req) (e_OS e) && platformMatches (req_Arch req) (e_Arch e))
        (List.filter (λ e, bool_decide (e_State e = StateReady)) es) ↔ e ∈ es ∧ on_platform req e.
Proof.
  rewrite elem_of_filter_b, ready_iff, andb_true_iff, !platformMatches_iff. unfold on_platform. tauto.
Qed.

Lemma on_type_iff req es e :
  e ∈ List.filter (offersEngineType (req_EngineType req))
        (List.filter (λ e, platformMatches (req_OS req) (e_OS e) && platformMatches (req_Arch req) (e_Arch e))
          (List.filter (λ e, bool_decide (e_State e = StateReady)) es)) ↔ e ∈ es ∧ on_type req e.
Proof. rewrite elem_of_filter_b, on_platform_iff, offersEngineType_iff. unfold on_type. tauto. Qed.

Lemma nil_no {A} (l : list A) (P : A → Prop) (m : list A) :
  (∀ x, x ∈ l ↔ x ∈ m ∧ P x) → l = [] → ∀ x, x ∈ m → ¬ P x.
Proof. intros Hiff -> x Hx HP. by apply (elem_of_nil x), Hiff. Qed.

Lemma cons_yes {A} (l : list A) (P : A → Prop) (m : list A) y r :
  (∀ x, x ∈ l ↔ x ∈ m ∧ P x) → l = y :: r → y ∈ m ∧ P y.
Proof. intros Hiff ->. apply Hiff. by left. Qed.

Lemma Explain_explained req es : Match req es = [] → explained req es (Explain req es).
Proof.
  intros Hm. assert (Hno : ∀ x, x ∈ es → ¬ fits req x).
  { intros x Hx Hf. apply (elem_of_nil x). rewrite <-Hm. by apply Match_spec. }
  unfold Explain. destruct es as [|e0 es0]; [by constructor|]. set (es := e0 :: es0) in *.
  pose proof (ready_iff es) as Hr. pose proof (on_platform_iff req es) as Hp. pose proof (on_type_iff req es) as Ht.
  cbv zeta.
  set (l := List.filter (λ e, bool_decide (e_State e = StateReady)) es) in *.
  destruct l as [|r1 l1] eqn:El.
  { pose proof (nil_no _ (λ x, e_State x = StateReady) _ Hr eq_refl) as Hnr.
    destruct (existsb _ es) eqn:Hd.
    - apply existsb_exists in Hd as (e & He%list_elem_of_In & Hs%bool_decide_eq_true). by econstructor.
    - apply ex_not_ready; [done|]. intros x Hx. split; [by apply Hnr|]. intros Hs.
      rewrite <-not_true_iff_false in Hd. apply Hd, existsb_exists. exists x.
      split; [by apply list_elem_of_In|]. by apply bool_decide_eq_true. }
  destruct (cons_yes _ (λ x, e_State x = StateReady) _ r1 l1 Hr eq_refl) as [Hr1 Hs1].
  set (p := List.filter _ (r1 :: l1)) in *. destruct p as [|r2 l2] eqn:Ep.
  { eapply ex_platform; [exact Hr1|exact Hs1|]. exact (nil_no _ (on_platform req) _ Hp eq_refl). }
  destruct (cons_yes _ (on_platform req) _ r2 l2 Hp eq_refl) as [Hr2 Hp2].
  set (t := List.filter _ (r2 :: l2)) in *. destruct t as [|r3 l3] eqn:Et.
  { eapply ex_type; [exact Hr2|exact Hp2|]. exact (nil_no _ (on_type req) _ Ht eq_refl). }
  destruct (cons_yes _ (on_type req) _ r3 l3 Ht eq_refl) as [Hr3 Ht3].
  destruct (missing_capability _ _) as [c|] eqn:Ec.
  - apply missing_capability_Some in Ec as (Hin & Hne & Hall).
    eapply ex_capability; [exact Hr3|exact Ht3|exact Hin|exact Hne|].
    intros x Hx Hxt. apply Hall, Ht. done.
  - eapply ex_together; [exact Hr3|exact Ht3| |].
    + intros c Hin Hne. destruct (missing_capability_None _ _ _ Ec Hin Hne) as (x & Hx & Hc).
      apply Ht in Hx as [Hx Hxt]. eauto.
    + intros x Hx Hxt. destruct (decide (e_Slots x ≤ 0)) as [|Hsl]; [by left|right].
      destruct (decide (Exists (λ c, c ≠ CAPABILITY_UNSPECIFIED ∧ c ∉ e_Capabilities x) (req_Capabilities req)))
        as [Hex|Hex].
      * apply Exists_exists in Hex as (c & ? & ? & ?). eauto.
      * destruct (Hno x Hx). destruct Hxt as [(? & ? & ?) ?]. split_and!; [done|lia|done..|].
        intros c Hc Hne. destruct (decide (c ∈ e_Capabilities x)) as [|Hn]; [done|].
        destruct Hex. apply Exists_exists. eauto.
Qed.

(** A step no engine matches is told a true cause, the coarsest one there
    is: [Match] keeps exactly the engines that are ready, have a slot, run the
    platform and the kind asked for and advertise every named capability; and
    when it keeps none, [Explain]'s sentence is one of the seven, its cause
    holds of the fleet, and every coarser cause does not. *)
Theorem match_or_explain (req : Requirements) (es : list Instance_) :
  (∀ e, e ∈ Match req es ↔ e ∈ es ∧ fits req e)
  ∧ (Match req es = [] → explained req es (Explain req es)).
Proof. split; [intros; apply Match_spec|apply Explain_explained]. Qed.

(** ** The dispatch version *)

Lemma better_fold oldest ours vs (b : option Z) :
  (∀ x, b = Some x → oldest ≤ x ≤ ours) →
  match foldl (better oldest ours) b vs with
  | None => b = None ∧ ∀ v, v ∈ vs → ¬ (oldest ≤ v ≤ ours)
  | Some m => oldest ≤ m ≤ ours ∧ (b = Some m ∨ m ∈ vs)
              ∧ (∀ v, v ∈ vs → oldest ≤ v ≤ ours → v ≤ m) ∧ ∀ x, b = Some x → x ≤ m
  end.
Proof.
  revert b. induction vs as [|v vs IH]; intros b Hb; simpl.
  { destruct b as [x|]; [|by split; [|intros v ?%elem_of_nil]].
    split_and!; [by apply Hb|by apply Hb|by left|by intros v ?%elem_of_nil|intros y [= ->]; lia]. }
  unfold better at 2. case_decide as Hv.
  - specialize (IH b Hb). destruct (foldl _ b vs) as [m|].
    + destruct IH as (H1 & H2 & H3 & H4). split_and!; [lia|lia| |..|done].
      * destruct H2; [by left|right; by right].
      * intros w [->|Hw]%elem_of_cons Hr; [lia|auto].
    + destruct IH as [-> H1]. split; [done|]. intros w [->|Hw]%elem_of_cons; [lia|auto].
  - assert (Hnext : ∃ y, (match b with None => Some v | Some b0 => if decide (b0 < v) then Some v else b end) = Some y
        ∧ (b = Some y ∨ y = v) ∧ v ≤ y ∧ oldest ≤ y ≤ ours ∧ ∀ x, b = Some x → x ≤ y).
    { destruct b as [b0|]; [|exists v; split_and!; auto; lia || done].
      specialize (Hb b0 eq_refl). case_decide; [exists v|exists b0]; split_and!; auto; try lia; intros x [= ->]; lia. }
    destruct Hnext as (y & -> & Hy & Hvy & Hr & Hby).
    specialize (IH (Some y)). destruct (foldl _ (Some y) vs) as [m|];
      [|destruct IH as [? _]; [by intros x [= <-]|done]].
    destruct IH as (H1 & H2 & H3 & H4); [by intros x [= <-]|]. specialize (H4 y eq_refl).
    split_and!; [lia|lia| | |].
    + destruct H2 as [[= <-]|H2]; [destruct Hy as [->| ->]; [by left|right; by left]|right; by right].
    + intros w [->|Hw]%elem_of_cons Hwr; [lia|auto].
    + intros x Hx. specialize (Hby x Hx). lia.
Qed.

(** [Negotiate]: the highest version both sides speak. *)
Lemma NegotiateAgainst_spec ours vs :
  match NegotiateAgainst ours vs with
  | Ok v => v ∈ vs ∧ oldestAccepted ours ≤ v ≤ ours
            ∧ ∀ w, w ∈ vs → oldestAccepted ours ≤ w ≤ ours → w ≤ v
  | Err _ => ∀ w, w ∈ vs → ¬ (oldestAccepted ours ≤ w ≤ ours)
  end.
Proof.
  unfold NegotiateAgainst. pose proof (better_fold (oldestAccepted ours) ours vs None) as Hf.
  destruct (foldl _ None vs) as [m|].
  - destruct Hf as (H1 & H2 & H3 & _); [done|]. destruct H2 as [|H2]; [done|]. done.
  - by destruct Hf as [_ Hf].
Qed.

Lemma dispatchVersion_fold es v0 :
  let v := foldl (λ version e,
    match Negotiate (e_ProtocolVersions e) with
    | Err _ => version
    | Ok agreed => if decide (agreed < version) then agreed else version
    end) v0 es in
  v ≤ v0 ∧ (∀ e a, e ∈ es → Negotiate (e_ProtocolVersions e) = Ok a → v ≤ a)
  ∧ (v = v0 ∨ ∃ e, e ∈ es ∧ Negotiate (e_ProtocolVersions e) = Ok v).
Proof.
  revert v0. induction es as [|e es IH]; intros v0; simpl.
  { split_and!; [lia|by intros e a ?%elem_of_nil|by left]. }
  destruct (Negotiate (e_ProtocolVersions e)) as [a|err] eqn:En.
  - case_decide as Hlt.
    + destruct (IH a) as (H1 & H2 & H3). split_and!; [lia| |].
      * intros e' a' [->|Hin]%elem_of_cons Ha; [congruence|eauto].
      * right. destruct H3 as [H3|(e' & Hin & He')]; [exists e; rewrite H3; split; [by left|done]|].
        exists e'. split; [by right|done].
    + destruct (IH v0) as (H1 & H2 & H3). split_and!; [lia| |].
      * intros e' a' [->|Hin]%elem_of_cons Ha; [|eauto].
        rewrite En in Ha. injection Ha as <-. lia.
      * destruct H3 as [H3|(e' & Hin & He')]; [by left|right]. exists e'. split; [by right|done].
  - destruct (IH v0) as (H1 & H2 & H3). split_and!; [lia| |].
    + intros e' a' [->|Hin]%elem_of_cons Ha; [congruence|eauto].
    + destruct H3 as [H3|(e' & Hin & He')]; [by left|right]. exists e'. split; [by right|done].
Qed.

(** A dispatch is never written in a version newer than any engine that
    could take it agreed to, is always inside the supported window, and is the
    highest such version: this plane's own, or one some engine negotiated.
    Where every engine that speaks the current version also speaks the one
    before, it is a version every negotiable engine speaks. *)
Theorem dispatch_version_bound (es : list Instance_) :
  let v := dispatchVersion es in
  oldestAccepted ProtocolVersion ≤ v ≤ ProtocolVersion
  ∧ (∀ e a, e ∈ es → Negotiate (e_ProtocolVersions e) = Ok a → v ≤ a)
  ∧ (v = ProtocolVersion ∨ ∃ e, e ∈ es ∧ Negotiate (e_ProtocolVersions e) = Ok v)
  ∧ ((∀ e, e ∈ es → ProtocolVersion ∈ e_ProtocolVersions e → ProtocolVersion - 1 ∈ e_ProtocolVersions e) →
     ∀ e a, e ∈ es → Negotiate (e_ProtocolVersions e) = Ok a → v ∈ e_ProtocolVersions e).
Proof.
  intros v. destruct (dispatchVersion_fold es ProtocolVersion) as (H1 & H2 & H3). fold (dispatchVersion es) in *.
  assert (Hrange : oldestAccepted ProtocolVersion ≤ v ≤ ProtocolVersion).
  { destruct H3 as [H3|(e & _ & He)]; [unfold v; rewrite H3; by vm_compute|].
    pose proof (NegotiateAgainst_spec ProtocolVersion (e_ProtocolVersions e)) as Hs.
    unfold Negotiate in He. rewrite He in Hs. unfold v. lia. }
  split_and!; [lia|lia|done|done|]. intros Hwin e a Hin Ha.
  pose proof (NegotiateAgainst_spec ProtocolVersion (e_ProtocolVersions e)) as Hs.
  unfold Negotiate in Ha. rewrite Ha in Hs. destruct Hs as (Hspk & Har & Hmax).
  specialize (H2 e a Hin Ha). fold v in H2.
  change (oldestAccepted ProtocolVersion) with 2 in *. unfold ProtocolVersion in *.
  assert (v = a ∨ v = 2 ∧ a = 3) as [->|[-> ->]] by lia; [done|]. by apply Hwin.
Qed.

Definition speaks (vs : list Z) : Instance_ :=
  {| e_ID := ""; e_State := StateReady; e_Capabilities := []; e_OS := ""; e_Arch := "";
     e_EngineTypes := []; e_Slots := 1; e_ProtocolVersions := vs; e_Tier := ""; e_EnvironmentIdentity := "";
     e_InFlight := [] |}.

(** The dispatch version is documented to be one every engine speaks; two
    engines that each registered successfully and speak one version each make
    it a version the newer one does not speak, which that engine refuses. *)
Theorem dispatch_version_not_spoken :
  let es := [speaks [3]; speaks [2]] in
  (∀ e, e ∈ es → is_ok (Negotiate (e_ProtocolVersions e)) = true)
  ∧ ∃ e, e ∈ es ∧ dispatchVersion es ∉ e_ProtocolVersions e.
Proof.
  split.
  - intros e [->|[->|?%elem_of_nil]%elem_of_cons]%elem_of_cons; done.
  - exists (speaks [3]). split; [by left|]. vm_compute. by intros [?|?%elem_of_nil]%elem_of_cons.
Qed.

(** ** The environment identity of a tier *)

Lemma reachable_iff tier kind e :
  reachable tier kind e = true ↔ e_Tier e = tier ∧ (kind = "" ∨ kind ∈ e_EngineTypes e).
Proof. unfold reachable. by rewrite andb_true_iff, orb_true_iff, !bool_decide_eq_true. Qed.

Lemma seen_fold (es : list Instance_) acc :
  NoDup acc →
  let seen := foldl (λ seen e, if decide (e_EnvironmentIdentity e ∈ seen) then seen
                               else seen ++ [e_EnvironmentIdentity e]) acc es in
  NoDup seen ∧ ∀ x, x ∈ seen ↔ x ∈ acc ∨ ∃ e, e ∈ es ∧ e_EnvironmentIdentity e = x.
Proof.
  revert acc. induction es as [|e es IH]; intros acc Hnd; simpl.
  { split; [done|]. intros x. split; [by left|]. intros [Hx|(e & ?%elem_of_nil & _)]; done. }
  case_decide as Hin.
  - destruct (IH acc Hnd) as [H1 H2]. split; [done|]. intros x. rewrite H2. split.
    + intros [Hx|(e' & ? & ?)]; [by left|right]. exists e'. split; [by right|done].
    + intros [Hx|(e' & [->|He']%elem_of_cons & <-)]; [by left|by left|right; eauto].
  - destruct (IH (acc ++ [e_EnvironmentIdentity e])) as [H1 H2].
    { apply NoDup_app. split_and!; [done| |by apply NoDup_singleton].
      intros x Hx ->%list_elem_of_singleton. done. }
    split; [done|]. intros x. rewrite H2, elem_of_app, list_elem_of_singleton. split.
    + intros [[Hx| ->]|(e' & ? & ?)]; [by left|right; exists e; split; [by left|done]|].
      right. exists e'. split; [by right|done].
    + intros [|(e' & [->|He']%elem_of_cons & <-)]; [by left; left|by left; right|right; eauto].
Qed.

Lemma seen_identities_spec es tier kind :
  NoDup (seen_identities es tier kind)
  ∧ ∀ x, x ∈ seen_identities es tier kind ↔
      ∃ e, e ∈ es ∧ reachable tier kind e = true ∧ e_EnvironmentIdentity e = x.
Proof.
  destruct (seen_fold (List.filter (reachable tier kind) es) [] ltac:(constructor)) as [H1 H2].
  split; [done|]. intros x. unfold seen_identities. rewrite H2. split.
  - intros [?%elem_of_nil|(e & [? ?]%elem_of_filter_b & ?)]; [done|eauto].
  - intros (e & ? & ? & ?). right. exists e. split; [by apply elem_of_filter_b|done].
Qed.

(** A cache key is hashed against an environment only when it is the one
    every engine the step can reach runs in: a non-empty identity is returned
    exactly when some engine of the tier (and of the kind the step names)
    exists and all of them report it; engines that disagree are listed, each
    once; and no engine a dispatch naming that kind can match is left out. *)
Theorem tier_identity_sound (es : list Instance_) (tier kind : string) :
  let r := TierEnvironmentIdentity es tier kind in
  (∀ id, id ≠ "" → r.1 = id ↔
     (∃ e, e ∈ es ∧ reachable tier kind e = true)
     ∧ ∀ e, e ∈ es → reachable tier kind e = true → e_EnvironmentIdentity e = id)
  ∧ (∀ a b, a ∈ es → b ∈ es → reachable tier kind a = true → reachable tier kind b = true →
     e_EnvironmentIdentity a ≠ e_EnvironmentIdentity b →
     r.1 = "" ∧ e_EnvironmentIdentity a ∈ r.2 ∧ NoDup r.2)
  ∧ (∀ req e, req_EngineType req = kind → e ∈ Match req es → e_Tier e = tier → reachable tier kind e = true).
Proof.
  intros r. destruct (seen_identities_spec es tier kind) as [Hnd Hseen]. unfold r, TierEnvironmentIdentity.
  split_and!.
  - intros id Hid. destruct (seen_identities es tier kind) as [|x [|y l]] eqn:Es; simpl.
    + split; [by intros <-|]. intros [(e & He & Hr) _]. exfalso. apply (elem_of_nil (e_EnvironmentIdentity e)).
      apply Hseen. eauto.
    + split.
      * intros ->. split.
        -- destruct (proj1 (Hseen id) ltac:(by left)) as (e & ? & ? & ?). eauto.
        -- intros e He Hr. assert (Hin : e_EnvironmentIdentity e ∈ [id]) by (apply Hseen; eauto).
           by apply list_elem_of_singleton in Hin.
      * intros [_ Hall]. destruct (proj1 (Hseen x) ltac:(by left)) as (e & He & Hr & <-). auto.
    + split; [by intros <-|]. intros [_ Hall].
      destruct (proj1 (Hseen x) ltac:(by left)) as (e & He & Hr & Hx).
      destruct (proj1 (Hseen y) ltac:(by right; left)) as (e' & He' & Hr' & Hy).
      rewrite Hall in Hx by done. rewrite Hall in Hy by done. subst.
      apply NoDup_cons in Hnd as [Hn _]. destruct Hn. by left.
  - intros a b Ha Hb Hra Hrb Hne.
    assert (Hia : e_EnvironmentIdentity a ∈ seen_identities es tier kind) by (apply Hseen; eauto).
    assert (Hib : e_EnvironmentIdentity b ∈ seen_identities es tier kind) by (apply Hseen; eauto).
    destruct (seen_identities es tier kind) as [|x [|y l]] eqn:Es; cbn [fst snd].
    + by apply elem_of_nil in Hia.
    + apply list_elem_of_singleton in Hia, Hib. congruence.
    + split_and!; [done| |]; unfold sort_strings; rewrite merge_sort_Permutation; done.
  - intros req e Hk [He Hf]%Match_spec Ht. apply reachable_iff. split; [done|].
    unfold fits in Hf. destruct_and!. by rewrite <-Hk.
Qed.
