(* ===== verification/Registry.v ===== *)
(** * The runtime engine registry: [internal/registry/kv.go]

    Every instance is one key of a NATS key-value bucket whose keys age out,
    and every write to one is a compare-and-set of a function of what was read
    ([modify]). [Register], [Heartbeat] and [Drain] are such functions
    ([register_fn], [heartbeat_fn], [drain_fn]); [Instances] lists a tenant's
    fleet. JSON is a parameter. *)

From S2P Require Import Prelude Bytes Program Bucket Proto Fleet.

(** ** The messages *)

Record EngineRegistration : Type := mkRegistration
  { rg_EngineId : string; rg_ProtocolVersions : list Z; rg_Capabilities : list Capability;
    rg_Os : string; rg_Arch : string; rg_Slots : Z; rg_EngineTypes : list string; rg_Tier : string;
    rg_EnvironmentIdentity : string }.

Record EngineHeartbeat : Type := mkHeartbeat { hb_EngineId : string; hb_InFlight : list Job }.

(** ** [kv.go]: the record at rest *)

(** Capabilities are kept as the numbers the wire carries. *)
Record record : Type := mkRecord
  { rc_TenantID : string; rc_EngineID : string; rc_State : string; rc_Capabilities : list Z;
    rc_OS : string; rc_Arch : string; rc_Slots : Z; rc_ProtocolVersions : list Z; rc_Negotiated : Z;
    rc_EngineTypes : list string; rc_Tier : string; rc_EnvironmentIdentity : string;
    rc_InFlight : Z; rc_Jobs : list Job }.

(** [record{}]. *)
Definition zero_record : record := mkRecord "" "" "" [] "" "" 0 [] 0 [] "" "" 0 [].

Definition set_state (st : string) (r : record) : record :=
  mkRecord (rc_TenantID r) (rc_EngineID r) st (rc_Capabilities r) (rc_OS r) (rc_Arch r) (rc_Slots r)
    (rc_ProtocolVersions r) (rc_Negotiated r) (rc_EngineTypes r) (rc_Tier r) (rc_EnvironmentIdentity r)
    (rc_InFlight r) (rc_Jobs r).

Definition set_jobs (n : Z) (jobs : list Job) (r : record) : record :=
  mkRecord (rc_TenantID r) (rc_EngineID r) (rc_State r) (rc_Capabilities r) (rc_OS r) (rc_Arch r) (rc_Slots r)
    (rc_ProtocolVersions r) (rc_Negotiated r) (rc_EngineTypes r) (rc_Tier r) (rc_EnvironmentIdentity r)
    n jobs.

Inductive RegErr : Type :=
| ErrTenantRequired
| ErrEngineRequired
| ErrNotRegistered
| errNoChange
| RegUnsupported (e : NegotiateErr)
| RegSlots (n : Z)
| RegListing (e : KVErr)
| RegReading (e : KVErr)
| RegWriting (e : KVErr)
| RegDecoding (key : string)
| RegWrongTenant (key tenant : string)
| RegGaveUp.

(** [encoding/json] for the record. *)
Class RegistryJSON : Type := { enc_record : record → string; dec_record : string → option record }.
Class RegistryJSONLaws `{RegistryJSON} : Prop := dec_enc_record r : dec_record (enc_record r) = Some r.

(** ** Keys *)

Definition instancePrefix : string := "engine.".
Definition encode (segment : string) : string := b64_encode segment.
Definition tenantPrefix (tenantID : string) : string := instancePrefix +:+ encode tenantID +:+ ".".
Definition instanceKey (tenantID engineID : string) : string := tenantPrefix tenantID +:+ encode engineID.

(** ** What each operation makes of a record

    [prev] is [None] where the key is not there. *)

Definition stateAfterReannouncement (prev : string) : string :=
  if decide (prev = StateReady ∨ prev = StateDraining) then prev else StateRegistering.

Definition capabilityNumbers (caps : list Capability) : list Z := map Capability_number caps.

(** [dholev1.Capability(c)]. *)
Definition Capability_of (n : Z) : Capability :=
  if decide (n = 0) then CAPABILITY_UNSPECIFIED
  else if decide (n = 1) then CAPABILITY_NETWORK
  else if decide (n = 2) then CAPABILITY_SECRETS
  else if decide (n = 3) then CAPABILITY_PRIVILEGED
  else if decide (n = 4) then CAPABILITY_HOST_MOUNT
  else if decide (n = 5) then CAPABILITY_NESTED_VIRT
  else CAPABILITY_OTHER n.

Definition register_fn (tenantID : string) (r : EngineRegistration) (negotiated : Z)
    (prev : option record) : result RegErr record :=
  let rec := mkRecord tenantID (rg_EngineId r) StateRegistering (capabilityNumbers (rg_Capabilities r))
               (rg_Os r) (rg_Arch r) (rg_Slots r) (rg_ProtocolVersions r) negotiated (rg_EngineTypes r)
               (rg_Tier r) (rg_EnvironmentIdentity r) 0 [] in
  match prev with
  | None => Ok rec
  | Some prev => Ok (set_jobs (rc_InFlight prev) (rc_Jobs prev)
                       (set_state (stateAfterReannouncement (rc_State prev)) rec))
  end.

Definition heartbeat_fn (h : EngineHeartbeat) (prev : option record) : result RegErr record :=
  match prev with
  | None => Err ErrNotRegistered
  | Some rec =>
      if decide (rc_State rec = StateGone) then Err ErrNotRegistered
      else
        let n := Z.of_nat (length (hb_InFlight h)) in
        let rec := set_jobs n (hb_InFlight h) rec in
        Ok (if decide (rc_State rec = StateDraining) then
              if decide (n = 0) then set_state StateGone rec else rec
            else if decide (rc_State rec = StateRegistering) then set_state StateReady rec
            else rec)
  end.

Definition drain_fn (prev : option record) : result RegErr record :=
  match prev with
  | None => Err ErrNotRegistered
  | Some rec =>
      if decide (rc_State rec = StateDraining ∨ rc_State rec = StateGone) then Err errNoChange
      else Ok (set_state StateDraining rec)
  end.

(** ** Calls on the bucket *)

Inductive rop : Type → Type :=
| RGet (key : string) : rop (result KVErr (option (string * Z)))
| RCreate (key data : string) : rop (result KVErr unit)
| RUpdate (key data : string) (rev : Z) : rop (result KVErr unit)
| RListKeys : rop (result KVErr (list string)).

Abbreviation rcmd := (Program.cmd rop).

Definition MaxInt32 : Z := 2 ^ 31 - 1.

Section Code.
Context `{RegistryJSON} (tenantID : string).

Definition get (tenant engineID : string) : rcmd (result RegErr (record * Z)) :=
  r <- act (RGet (instanceKey tenant engineID));;
  Done (match r with
        | Err e => Err (RegReading e)
        | Ok None => Err ErrNotRegistered
        | Ok (Some (v, rev)) =>
            match dec_record v with
            | None => Err (RegDecoding engineID)
            | Some rec => Ok (rec, rev)
            end
        end).

Definition modifyAttempts : nat := 5.

(** The write of one turn of [modify]; [None] when it lost a race. *)
Definition write_record (prev : option Z) (next : record) : rcmd (option (result RegErr unit)) :=
  let key := instanceKey (rc_TenantID next) (rc_EngineID next) in
  match prev with
  | Some rev =>
      r <- act (RUpdate key (enc_record next) rev);;
      Done (match r with
            | Err ErrKeyRevisionMismatch => None
            | Err e => Some (Err (RegWriting e))
            | Ok _ => Some (Ok tt)
            end)
  | None =>
      r <- act (RCreate key (enc_record next));;
      Done (match r with
            | Err ErrKeyExists => None
            | Err e => Some (Err (RegWriting e))
            | Ok _ => Some (Ok tt)
            end)
  end.

Fixpoint modify (attempts : nat) (engineID : string) (fn : option record → result RegErr record)
    : rcmd (result RegErr unit) :=
  match attempts with
  | O => Done (Err RegGaveUp)
  | S attempts =>
      got <- get tenantID engineID;;
      let turn (prev : option (record * Z)) :=
        match fn (fst <$> prev) with
        | Err errNoChange => Done (Ok tt)
        | Err e => Done (Err e)
        | Ok next =>
            w <- write_record (snd <$> prev) next;;
            match w with
            | None => modify attempts engineID fn
            | Some r => Done r
            end
        end in
      match got with
      | Ok prev => turn (Some prev)
      | Err ErrNotRegistered => turn None
      | Err e => Done (Err e)
      end
  end.

Definition Register (r : EngineRegistration) : rcmd (result RegErr unit) :=
  if decide (rg_EngineId r = "") then Done (Err ErrEngineRequired)
  else match Negotiate (rg_ProtocolVersions r) with
       | Err e => Done (Err (RegUnsupported e))
       | Ok negotiated =>
           if decide (MaxInt32 < rg_Slots r) then Done (Err (RegSlots (rg_Slots r)))
           else modify modifyAttempts (rg_EngineId r) (register_fn tenantID r negotiated)
       end.

Definition Heartbeat (h : EngineHeartbeat) : rcmd (result RegErr unit) :=
  if decide (hb_EngineId h = "") then Done (Err ErrEngineRequired)
  else modify modifyAttempts (hb_EngineId h) (heartbeat_fn h).

Definition Drain (engineID : string) : rcmd (result RegErr unit) :=
  if decide (engineID = "") then Done (Ok tt)
  else r <- modify modifyAttempts engineID drain_fn;;
       Done (match r with Err ErrNotRegistered => Ok tt | r => r end).

(** ** The fleet *)

Definition instance (r : record) : Instance_ :=
  {| e_ID := rc_EngineID r; e_State := rc_State r; e_Capabilities := map Capability_of (rc_Capabilities r);
     e_OS := rc_OS r; e_Arch := rc_Arch r; e_EngineTypes := rc_EngineTypes r; e_Slots := rc_Slots r;
     e_ProtocolVersions := rc_ProtocolVersions r; e_Tier := rc_Tier r;
     e_EnvironmentIdentity := rc_EnvironmentIdentity r; e_InFlight := rc_Jobs r |}.

Fixpoint list_keys (tenant : string) (keys : list string) (out : list Instance_)
    : rcmd (result RegErr (list Instance_)) :=
  match keys with
  | [] => Done (Ok out)
  | key :: keys =>
      if negb (has_prefix (tenantPrefix tenant) key) then list_keys tenant keys out
      else
        r <- act (RGet key);;
        match r with
        | Err e => Done (Err (RegReading e))
        | Ok None => list_keys tenant keys out
        | Ok (Some (v, _)) =>
            match dec_record v with
            | None => Done (Err (RegDecoding key))
            | Some rec =>
                if decide (rc_TenantID rec ≠ tenant) then Done (Err (RegWrongTenant key (rc_TenantID rec)))
                else if decide (rc_State rec = StateGone) then list_keys tenant keys out
                else list_keys tenant keys (out ++ [instance rec])
            end
        end
  end.

(** [slices.SortFunc] by id, which may reorder equal ids: a bucket never holds two. *)
Definition by_id (a b : Instance_) : Prop := String.le (e_ID a) (e_ID b).
#[export] Instance by_id_dec : RelDecision by_id.
Proof. intros a b. unfold by_id. apply _. Defined.

Definition Instances (tenant : string) : rcmd (result RegErr (list Instance_)) :=
  if decide (tenant = "") then Done (Err ErrTenantRequired)
  else
    ks <- act RListKeys;;
    match ks with
    | Err e => Done (Err (RegListing e))
    | Ok keys =>
        r <- list_keys tenant keys [];;
        Done (match r with Err e => Err e | Ok out => Ok (merge_sort by_id out) end)
    end.

End Code.

(** ** What NATS does

    [Create] needs the key absent, [Update] the revision that was read; a call
    may fail whether or not it took effect. *)

Definition bucket_step (X : Type) (o : rop X) (b b' : bucket) : X → Prop :=
  match o with
  | RGet key => λ x, b' = b ∧ (x = Ok (b_keys b !! key) ∨ ∃ e, x = Err (KVOther e))
  | RCreate key data => λ x,
      (b' = b ∧ b_keys b !! key ≠ None ∧ x = Err ErrKeyExists)
      ∨ (b' = b ∧ ∃ e, x = Err (KVOther e))
      ∨ (b_keys b !! key = None ∧ b' = put key data b ∧ (x = Ok tt ∨ ∃ e, x = Err (KVOther e)))
  | RUpdate key data rev => λ x,
      (b' = b ∧ snd <$> b_keys b !! key ≠ Some rev ∧ x = Err ErrKeyRevisionMismatch)
      ∨ (b' = b ∧ ∃ e, x = Err (KVOther e))
      ∨ (snd <$> b_keys b !! key = Some rev ∧ b' = put key data b ∧ (x = Ok tt ∨ ∃ e, x = Err (KVOther e)))
  | RListKeys => λ x,
      b' = b ∧ ((∃ l, x = Ok l ∧ ∀ k, k ∈ l ↔ k ∈ dom (b_keys b)) ∨ ∃ e, x = Err (KVOther e))
  end.
