(* ===== verification/RegistryFacts.v ===== *)
(** * What the registry promises of the fleet

    Every write to an instance is one function of the record it replaces,
    whatever raced it ([modify_is_atomic]): each program of [Registry] refines
    one step of an abstract fleet ([fleet_step]), told in terms of its members'
    standing and jobs, without the code's functions. From those steps alone: an
    instance moves only along its lifecycle ([lifecycle]), a draining engine is
    given nothing until it has let go of everything ([draining_is_kept]), a
    listing shows one tenant's instances. *)

From S2P Require Import Prelude Bytes Program Bucket Proto Fleet FleetFacts Registry.

(** ** Keys *)

Lemma encode_inj a b : encode a = encode b → a = b.
Proof. unfold encode. intros E. apply (f_equal b64_decode) in E. rewrite !b64_decode_encode in E. by simplify_eq. Qed.

Definition dot : Ascii.ascii := Ascii.ascii_of_N 46.

Lemma dot_free s : string_all (λ d, negb (Ascii.eqb d dot)) (encode s) = true.
Proof. by apply b64_encode_no_sep. Qed.

Lemma instanceKey_inj t e t' e' : instanceKey t e = instanceKey t' e' → t = t' ∧ e = e'.
Proof.
  unfold instanceKey, tenantPrefix. rewrite !string_app_assoc. intros E%string_app_inj_l.
  change ("." +:+ encode e) with (String dot (encode e)) in E.
  change ("." +:+ encode e') with (String dot (encode e')) in E.
  apply string_sep_inj in E as [?%encode_inj ?%encode_inj]; [done|apply dot_free..].
Qed.

(** A key under a tenant's prefix is that tenant's. *)
Lemma tenantPrefix_key t t' e : has_prefix (tenantPrefix t) (instanceKey t' e) = true → t = t'.
Proof.
  intros [s Hs]%has_prefix_spec. unfold instanceKey, tenantPrefix in Hs. rewrite !string_app_assoc in Hs.
  apply string_app_inj_l in Hs.
  change ("." +:+ encode e) with (String dot (encode e)) in Hs.
  change ("." +:+ s) with (String dot s) in Hs.
  apply string_sep_inj in Hs as [?%encode_inj _]; [done|apply dot_free..].
Qed.

#[export] Instance NegotiateErr_eq_dec : EqDecision NegotiateErr.
Proof. solve_decision. Defined.
#[export] Instance RegErr_eq_dec : EqDecision RegErr.
Proof. solve_decision. Defined.

(** ** The abstract fleet

    What the registry promises, told without its code: an engine is a member
    of the fleet with a standing, the description it last announced and the
    jobs it last said it holds; three messages and the passing of time are all
    that changes it. *)

Inductive standing : Type := Proving | Serving | Leaving | Left.

(** What an engine says of itself. *)
Record description : Type := mkDescription
  { ds_Capabilities : list Z; ds_OS : string; ds_Arch : string; ds_Slots : Z; ds_Versions : list Z;
    ds_Types : list string; ds_Tier : string; ds_Environment : string }.

Record member : Type := mkMember
  { mb_standing : standing; mb_version : Z; mb_description : description; mb_jobs : list Job; mb_count : Z }.

Definition described (r : EngineRegistration) : description :=
  mkDescription (map Capability_number (rg_Capabilities r)) (rg_Os r) (rg_Arch r) (rg_Slots r)
    (rg_ProtocolVersions r) (rg_EngineTypes r) (rg_Tier r) (rg_EnvironmentIdentity r).

(** The version agreed: the highest the engine speaks of those accepted. *)
Definition agreed (vs : list Z) (n : Z) : Prop :=
  n ∈ vs ∧ oldestAccepted ProtocolVersion ≤ n ≤ ProtocolVersion
  ∧ ∀ w, w ∈ vs → oldestAccepted ProtocolVersion ≤ w ≤ ProtocolVersion → w ≤ n.

(** An announcement replaces the description and proves nothing: who is not
    there, or has left, has yet to prove itself, and everyone else stands as
    they stood, with the jobs they held. *)
Inductive announces (r : EngineRegistration) (n : Z) : option member → member → Prop :=
| announces_new : announces r n None (mkMember Proving n (described r) [] 0)
| announces_back m : mb_standing m = Left →
    announces r n (Some m) (mkMember Proving n (described r) (mb_jobs m) (mb_count m))
| announces_again m : mb_standing m ≠ Left →
    announces r n (Some m) (mkMember (mb_standing m) n (described r) (mb_jobs m) (mb_count m)).

(** A heartbeat proves, says what is held, and ends a leave once nothing is. *)
Inductive beats (jobs : list Job) : option member → member → Prop :=
| beats_in m st :
    (mb_standing m = Proving ∧ st = Serving ∨ mb_standing m = Serving ∧ st = Serving
     ∨ mb_standing m = Leaving ∧ jobs ≠ [] ∧ st = Leaving ∨ mb_standing m = Leaving ∧ jobs = [] ∧ st = Left) →
    beats jobs (Some m) (mkMember st (mb_version m) (mb_description m) jobs (Z.of_nat (length jobs))).

Inductive drains : option member → member → Prop :=
| drains_out m : mb_standing m = Proving ∨ mb_standing m = Serving →
    drains (Some m) (mkMember Leaving (mb_version m) (mb_description m) (mb_jobs m) (mb_count m)).

Inductive operation : Type :=
| OpRegister (r : EngineRegistration) | OpHeartbeat (h : EngineHeartbeat) | OpDrain (engineID : string).

Definition engine_of (o : operation) : string :=
  match o with OpRegister r => rg_EngineId r | OpHeartbeat h => hb_EngineId h | OpDrain e => e end.

Definition does (o : operation) (prev : option member) (next : member) : Prop :=
  match o with
  | OpRegister r => ∃ n, agreed (rg_ProtocolVersions r) n ∧ rg_Slots r ≤ MaxInt32 ∧ announces r n prev next
  | OpHeartbeat h => beats (hb_InFlight h) prev next
  | OpDrain _ => drains prev next
  end.

(** When there is nothing to do, and when there is nobody to hear. *)
Definition idle_for (o : operation) (prev : option member) : Prop :=
  match o, prev with
  | OpDrain _, Some m => mb_standing m = Leaving ∨ mb_standing m = Left
  | OpDrain _, None => True
  | _, _ => False
  end.
Definition unheard (o : operation) (prev : option member) : Prop :=
  match o, prev with
  | OpHeartbeat _, None => True
  | OpHeartbeat _, Some m => mb_standing m = Left
  | _, _ => False
  end.

(** ** The fleet in the bucket *)

Definition standing_of (st : string) : standing :=
  if decide (st = StateReady) then Serving
  else if decide (st = StateDraining) then Leaving
  else if decide (st = StateGone) then Left
  else Proving.

Definition member_of (r : record) : member :=
  mkMember (standing_of (rc_State r)) (rc_Negotiated r)
    (mkDescription (rc_Capabilities r) (rc_OS r) (rc_Arch r) (rc_Slots r) (rc_ProtocolVersions r) (rc_EngineTypes r)
       (rc_Tier r) (rc_EnvironmentIdentity r)) (rc_Jobs r) (rc_InFlight r).

Section Facts.
Context `{RegistryJSONLaws}.

(** What the bucket holds of an engine. *)
Definition held (b : bucket) (t e : string) : option record :=
  '(v, _) ← b_keys b !! instanceKey t e; dec_record v.

(** The four states of [registry.go]. *)
Definition known (st : string) : Prop := st ∈ [StateRegistering; StateReady; StateDraining; StateGone].

(** The record of one engine of one tenant. *)
Definition record_for (t e : string) (rec : record) : Prop :=
  rc_TenantID rec = t ∧ rc_EngineID rec = e ∧ known (rc_State rec).

(** What may become of the bucket: a key ages out, or one engine's member is
    replaced by what a message makes of it. *)
Inductive fleet_step : bucket → bucket → Prop :=
| fleet_age key b : fleet_step b (age_out key b)
| fleet_write t o rec b :
    engine_of o ≠ "" → record_for t (engine_of o) rec →
    does o (member_of <$> held b t (engine_of o)) (member_of rec) →
    fleet_step b (put (instanceKey t (engine_of o)) (enc_record rec) b).

(** ** What the code's three functions make of a record *)

Definition is_op (t e : string) (fn : option record → result RegErr record) : Prop :=
  (∃ r n, rg_EngineId r = e ∧ e ≠ "" ∧ Negotiate (rg_ProtocolVersions r) = Ok n ∧ rg_Slots r ≤ MaxInt32
          ∧ fn = register_fn t r n)
  ∨ (∃ h, hb_EngineId h = e ∧ e ≠ "" ∧ fn = heartbeat_fn h)
  ∨ (e ≠ "" ∧ fn = drain_fn).

(** What the bucket is: every key an instance's own, at a revision written. *)
Definition bucket_wf (b : bucket) : Prop :=
  ∀ key v rev, b_keys b !! key = Some (v, rev) →
    rev ≤ b_last b ∧ ∃ rec, dec_record v = Some rec ∧ known (rc_State rec)
      ∧ key = instanceKey (rc_TenantID rec) (rc_EngineID rec).

Lemma held_wf b t e rec : bucket_wf b → held b t e = Some rec →
  rc_TenantID rec = t ∧ rc_EngineID rec = e ∧ known (rc_State rec).
Proof.
  unfold held. intros Hb Hh. destruct (b_keys b !! instanceKey t e) as [[v rev]|] eqn:E; [|done].
  simpl in Hh. apply Hb in E as (_ & rec' & Hd & Hst & Hk). rewrite Hd in Hh. injection Hh as ->.
  apply instanceKey_inj in Hk as [-> ->]. done.
Qed.

(** What the three functions make of a state. *)
Lemma register_state t r n prev rec :
  register_fn t r n prev = Ok rec →
  rc_State rec = match prev with Some p => stateAfterReannouncement (rc_State p) | None => StateRegistering end.
Proof. destruct prev; by intros [= <-]. Qed.

Lemma heartbeat_state h prev rec :
  heartbeat_fn h prev = Ok rec → ∃ p, prev = Some p ∧ rc_State p ≠ StateGone ∧
    rc_State rec = (if decide (rc_State p = StateDraining) then
                      if decide (hb_InFlight h = []) then StateGone else StateDraining
                    else if decide (rc_State p = StateRegistering) then StateReady else rc_State p).
Proof.
  destruct prev as [p|]; [|done]. unfold heartbeat_fn. destruct (decide (rc_State p = StateGone)) as [|Hg]; [done|].
  cbn [set_jobs rc_State]. intros Hr. exists p. do 2 (split; [done|]).
  destruct (decide (rc_State p = StateDraining)) as [Hd|Hd].
  - assert (Hn : Z.of_nat (length (hb_InFlight h)) = 0 ↔ hb_InFlight h = []).
    { destruct (hb_InFlight h); simpl; [done|split; [lia|done]]. }
    destruct (decide (hb_InFlight h = [])), (decide (Z.of_nat (length (hb_InFlight h)) = 0));
      [by simplify_eq/=|tauto|tauto|by simplify_eq/=].
  - destruct (decide (rc_State p = StateRegistering)); by simplify_eq/=.
Qed.

Lemma drain_state prev rec :
  drain_fn prev = Ok rec → ∃ p, prev = Some p ∧ rc_State p ≠ StateDraining ∧ rc_State p ≠ StateGone
    ∧ rc_State rec = StateDraining.
Proof.
  destruct prev as [p|]; [|done]. simpl. destruct (decide _) as [|Hn]; [done|]. intros [= <-].
  exists p. split_and!; [done|tauto..|done].
Qed.

(** An operation writes the instance it read. *)
Lemma is_op_names t e fn prev rec :
  is_op t e fn → (∀ p, prev = Some p → rc_TenantID p = t ∧ rc_EngineID p = e ∧ known (rc_State p)) →
  fn prev = Ok rec → rc_TenantID rec = t ∧ rc_EngineID rec = e ∧ known (rc_State rec).
Proof.
  assert (Hk : ∀ st, st = StateRegistering ∨ st = StateReady ∨ st = StateDraining ∨ st = StateGone → known st)
    by (intros st; unfold known; rewrite !elem_of_cons; tauto).
  intros [(r & n & He & _ & _ & _ & ->)|[(h & _ & _ & ->)|[_ ->]]] Hp Hf.
  - pose proof (register_state _ _ _ _ _ Hf) as Hs. split_and!; [by destruct prev; simplify_eq/=..|].
    rewrite Hs. apply Hk. destruct prev; [|by left]. unfold stateAfterReannouncement. case_decide; tauto.
  - pose proof (heartbeat_state _ _ _ Hf) as (p & -> & _ & Hs). destruct (Hp p eq_refl) as (Ht & He & Hkn).
    split_and!; [by simpl in Hf; repeat case_decide; simplify_eq/=..|].
    rewrite Hs. repeat case_decide; [..|done]; apply Hk; tauto.
  - pose proof (drain_state _ _ Hf) as (p & -> & _ & _ & Hs). destruct (Hp p eq_refl) as (Ht & He & _).
    split_and!; [by simpl in Hf; case_decide; simplify_eq/=..|]. rewrite Hs. apply Hk. tauto.
Qed.

Lemma known_cases st : known st → st = StateRegistering ∨ st = StateReady ∨ st = StateDraining ∨ st = StateGone.
Proof. unfold known. rewrite !elem_of_cons, elem_of_nil. tauto. Qed.

Lemma Negotiate_agreed vs n : Negotiate vs = Ok n → agreed vs n.
Proof. intros Hn. pose proof (NegotiateAgainst_spec ProtocolVersion vs) as Hs. unfold Negotiate in Hn. by rewrite Hn in Hs. Qed.

(** An operation of the code does what its message does to a member. *)
Lemma register_does t r n prev rec :
  Negotiate (rg_ProtocolVersions r) = Ok n → rg_Slots r ≤ MaxInt32 → (∀ p, prev = Some p → known (rc_State p)) →
  register_fn t r n prev = Ok rec → does (OpRegister r) (member_of <$> prev) (member_of rec).
Proof.
  intros Hn Hs Hk Hf. exists n. split; [by apply Negotiate_agreed|]. split; [done|].
  destruct prev as [p|]; simpl in Hf; injection Hf as <-; [|apply announces_new].
  destruct (known_cases _ (Hk p eq_refl)) as [E|[E|[E|E]]]; unfold member_of at 2; cbn; rewrite E; cbn.
  1-3: replace (mkMember _ _ _ _ _) with (mkMember (mb_standing (member_of p)) n (described r) (mb_jobs (member_of p))
         (mb_count (member_of p))) by (unfold member_of; cbn; by rewrite E);
       apply announces_again; unfold member_of; cbn; by rewrite E.
  apply (announces_back r n (member_of p)). unfold member_of. cbn. by rewrite E.
Qed.

Lemma heartbeat_does h prev rec :
  (∀ p, prev = Some p → known (rc_State p)) → heartbeat_fn h prev = Ok rec →
  does (OpHeartbeat h) (member_of <$> prev) (member_of rec).
Proof.
  intros Hk Hf. pose proof (heartbeat_state _ _ _ Hf) as (p & -> & Hg & Hs). simpl.
  assert (Hrec : member_of rec = mkMember (standing_of (rc_State rec)) (mb_version (member_of p)) (mb_description (member_of p))
    (hb_InFlight h) (Z.of_nat (length (hb_InFlight h)))).
  { simpl in Hf. repeat case_decide; simplify_eq/=; done. }
  rewrite Hrec. constructor. rewrite Hs. unfold member_of. cbn.
  destruct (known_cases _ (Hk p eq_refl)) as [E|[E|[E|E]]]; rewrite E in Hg |- *; try done;
    unfold standing_of; repeat case_decide; try done; tauto.
Qed.

Lemma drain_does e prev rec :
  (∀ p, prev = Some p → known (rc_State p)) → drain_fn prev = Ok rec →
  does (OpDrain e) (member_of <$> prev) (member_of rec).
Proof.
  intros Hk Hf. pose proof (drain_state _ _ Hf) as (p & -> & Hd & Hg & Hs). simpl.
  assert (Hrec : member_of rec = mkMember Leaving (mb_version (member_of p)) (mb_description (member_of p))
    (mb_jobs (member_of p)) (mb_count (member_of p))).
  { simpl in Hf. case_decide; simplify_eq/=; done. }
  rewrite Hrec. constructor. unfold member_of. cbn.
  destruct (known_cases _ (Hk p eq_refl)) as [E|[E|[E|E]]]; rewrite E in Hd, Hg |- *; try done;
    unfold standing_of; repeat case_decide; try done; tauto.
Qed.

Lemma is_op_does t e fn prev rec :
  is_op t e fn → (∀ p, prev = Some p → known (rc_State p)) → fn prev = Ok rec →
  ∃ o, engine_of o = e ∧ e ≠ "" ∧ does o (member_of <$> prev) (member_of rec).
Proof.
  intros [(r & n & He & Hne & Hn & Hs & ->)|[(h & He & Hne & ->)|[Hne ->]]] Hk Hf.
  - exists (OpRegister r). split_and!; [done..|by eapply register_does].
  - exists (OpHeartbeat h). split_and!; [done..|by apply heartbeat_does].
  - exists (OpDrain e). split_and!; [done..|by apply drain_does].
Qed.

Lemma held_put b t e v : held (put (instanceKey t e) v b) t e = dec_record v.
Proof. unfold held, put. simpl. by rewrite lookup_insert_eq. Qed.

Lemma held_put_ne b t e t' e' v :
  (t', e') ≠ (t, e) → held (put (instanceKey t e) v b) t' e' = held b t' e'.
Proof.
  intros Hne. unfold held, put. simpl. rewrite lookup_insert_ne; [done|].
  intros [-> ->]%instanceKey_inj. done.
Qed.

Lemma held_age b key t e : key ≠ instanceKey t e → held (age_out key b) t e = held b t e.
Proof. intros Hne. unfold held, age_out. simpl. by rewrite lookup_delete_ne. Qed.

Lemma held_aged b t e : held (age_out (instanceKey t e) b) t e = None.
Proof. unfold held, age_out. simpl. by rewrite lookup_delete_eq. Qed.

Lemma put_wf b rec t e :
  bucket_wf b → rc_TenantID rec = t ∧ rc_EngineID rec = e ∧ known (rc_State rec) →
  bucket_wf (put (instanceKey t e) (enc_record rec) b).
Proof.
  intros Hb (<- & <- & Hst) key v rev. unfold put. cbn [b_keys b_last].
  destruct (decide (key = instanceKey (rc_TenantID rec) (rc_EngineID rec))) as [->|Hne].
  - rewrite lookup_insert_eq. intros [= <- <-]. split; [lia|]. exists rec. by rewrite dec_enc_record.
  - rewrite lookup_insert_ne by done. intros [? ?]%Hb. split; [lia|done].
Qed.

Lemma age_wf b key : bucket_wf b → bucket_wf (age_out key b).
Proof. intros Hb key' v rev. unfold age_out. cbn [b_keys b_last]. intros [_ Hl]%lookup_delete_Some. by apply Hb. Qed.

Lemma fleet_step_wf b b' : bucket_wf b → fleet_step b b' → bucket_wf b'.
Proof.
  intros Hb Hs. destruct Hs as [key b|t o rec b _ Hr _]; [by apply age_wf|]. by apply put_wf.
Qed.

(** A write of the code's is such a step. *)
Lemma fn_writes t e fn rec b :
  bucket_wf b → is_op t e fn → fn (held b t e) = Ok rec → fleet_step b (put (instanceKey t e) (enc_record rec) b).
Proof.
  intros Hb Hop Hf.
  destruct (is_op_does _ _ _ _ _ Hop (λ p Hp, proj2 (proj2 (held_wf _ _ _ _ Hb Hp))) Hf) as (o & <- & Hne & Hd).
  apply (fleet_write _ o); [done| |done]. exact (is_op_names _ _ _ _ _ Hop (λ p Hp, held_wf _ _ _ _ Hb Hp) Hf).
Qed.

Lemma fleet_steps_wf b b' : bucket_wf b → rtc fleet_step b b' → bucket_wf b'.
Proof. intros Hb. induction 1; eauto using fleet_step_wf. Qed.

(** A revision names one value for ever. *)
Definition read_at (key v : string) (rev : Z) (b : bucket) : Prop :=
  rev ≤ b_last b ∧ ∀ v', b_keys b !! key = Some (v', rev) → v' = v.

Lemma lookup_read b key v rev : bucket_wf b → b_keys b !! key = Some (v, rev) → read_at key v rev b.
Proof. intros Hb Hk. split; [by eapply Hb|]. intros v' Hk'. congruence. Qed.

Lemma read_at_steps b b' key v rev : read_at key v rev b → rtc fleet_step b b' → read_at key v rev b'.
Proof.
  intros Hr Hs. induction Hs as [|b b1 b' Hst _ IH]; [done|]. apply IH. clear IH. destruct Hr as [Hle Hv].
  destruct Hst as [key' b|t o rec b _ _ _]; split; simpl.
  - done.
  - intros v' [_ Hk]%lookup_delete_Some. by apply Hv.
  - lia.
  - intros v'. destruct (decide (key = instanceKey t (engine_of o))) as [->|Hne].
    + rewrite lookup_insert_eq. intros [= <- Hrev]. lia.
    + rewrite lookup_insert_ne by done. apply Hv.
Qed.

(** ** Every program is one step of it, at one moment *)

Abbreviation among_others := (among bucket_step fleet_step).

(** How [modify] ends, over the abstract fleet. *)
Inductive modified (t e : string) (fn : option record → result RegErr record) (b b' : bucket)
    : result RegErr unit → Prop :=
| modified_same b1 :
    rtc fleet_step b b1 → fn (held b1 t e) = Err errNoChange → rtc fleet_step b1 b' → modified t e fn b b' (Ok tt)
| modified_refused b1 err :
    rtc fleet_step b b1 → fn (held b1 t e) = Err err → rtc fleet_step b1 b' → modified t e fn b b' (Err err)
| modified_written b1 rec :
    rtc fleet_step b b1 → fn (held b1 t e) = Ok rec →
    rtc fleet_step (put (instanceKey t e) (enc_record rec) b1) b' → modified t e fn b b' (Ok tt)
| modified_unanswered err : (** the bucket failed, whether or not the write took effect *)
    err ≠ ErrNotRegistered → rtc fleet_step b b' → modified t e fn b b' (Err err).

Lemma modified_before t e fn b0 b b' r :
  rtc fleet_step b0 b → modified t e fn b b' r → modified t e fn b0 b' r.
Proof.
  intros Hb [b1 H1 Hf H2|b1 err H1 Hf H2|b1 rec H1 Hf H2|err Hne H1].
  - eapply modified_same; [by etrans|done..].
  - eapply modified_refused; [by etrans|done..].
  - eapply modified_written; [by etrans|done..].
  - apply modified_unanswered; [done|]. by etrans.
Qed.

(** Reading a record: what it was, or why not. *)
Lemma get_among t e b b' r :
  among_others (get t e) b b' r →
  ∃ b1, rtc fleet_step b b1 ∧ rtc fleet_step b1 b' ∧
    match r with
    | Ok (rec, rev) => ∃ v, b_keys b1 !! instanceKey t e = Some (v, rev) ∧ dec_record v = Some rec
    | Err ErrNotRegistered => b_keys b1 !! instanceKey t e = None
    | Err err => err ≠ errNoChange
    end.
Proof.
  cbn [among get cbind act]. intros (b1 & b2 & x & Hr & [-> Hx] & -> & Hr'). exists b1. do 2 (split; [done|]).
  destruct Hx as [->|[err ->]]; [|done].
  destruct (b_keys b1 !! instanceKey t e) as [[v rev]|]; [|done]. destruct (dec_record v) as [rec|] eqn:E; [|done].
  by exists v.
Qed.

(** One compare-and-set. *)
Lemma write_among t e (prev : option (string * Z)) next b b' w :
  rc_TenantID next = t → rc_EngineID next = e →
  among_others (write_record (snd <$> prev) next) b b' w →
  ∃ b1, rtc fleet_step b b1 ∧
    ((w = None ∧ rtc fleet_step b1 b')
     ∨ (∃ err, w = Some (Err (RegWriting err)) ∧ rtc fleet_step b1 b')
     ∨ (snd <$> b_keys b1 !! instanceKey t e = snd <$> prev
        ∧ rtc fleet_step (put (instanceKey t e) (enc_record next) b1) b'
        ∧ (w = Some (Ok tt) ∨ ∃ err, w = Some (Err (RegWriting err))))).
Proof.
  intros <- <-. destruct prev as [[v rev]|]; cbn [write_record snd fmap option_fmap option_map among cbind act];
    intros (b1 & b2 & x & Hr & Hs & -> & Hr'); cbv beta iota in Hs; exists b1; (split; [done|]).
  all: destruct Hs as [(-> & _ & ->)|[(-> & err & ->)|(Hk & -> & [->|[err ->]])]];
    [by left|right; left; by eexists| |].
  all: right; right; rewrite ?Hk; split_and!; eauto.
Qed.

Lemma modified_steps t e fn b b' r :
  bucket_wf b → is_op t e fn → modified t e fn b b' r → rtc fleet_step b b'.
Proof.
  intros Hb Hop [b1 H1 Hf H2|b1 err H1 Hf H2|b1 rec H1 Hf H2|err Hne H1]; [by etrans..| |done].
  etrans; [done|]. eapply rtc_l; [|done]. eapply fn_writes; [by eapply fleet_steps_wf|done..].
Qed.

(** What was read is still there when the revision is. *)
Lemma unchanged t e b b1 v rev :
  bucket_wf b → b_keys b !! instanceKey t e = Some (v, rev) → rtc fleet_step b b1 →
  snd <$> b_keys b1 !! instanceKey t e = Some rev → held b1 t e = dec_record v.
Proof.
  intros Hb Hk Hs Hrev. destruct (read_at_steps _ _ _ _ _ (lookup_read _ _ _ _ Hb Hk) Hs) as [_ Hv].
  unfold held. destruct (b_keys b1 !! instanceKey t e) as [[v' rev']|]; [|done]. simpl in *. simplify_eq.
  by rewrite (Hv v' eq_refl).
Qed.

(** Every turn of [modify] is [fn] of the record at one moment, or nothing. *)
Lemma modify_is_atomic n t e fn b b' r :
  bucket_wf b → is_op t e fn → among_others (modify t n e fn) b b' r → modified t e fn b b' r.
Proof.
  intros Hb Hop. revert b Hb. induction n as [|n IH]; intros b Hb; cbn [modify].
  { intros [-> Hr]. by apply modified_unanswered. }
  intros (b2 & got & (b1 & H1 & H2 & Hgot)%get_among & Hk)%among_bind.
  pose proof (fleet_steps_wf _ _ Hb H1) as Hb1. pose proof (fleet_steps_wf _ _ Hb1 H2) as Hb2.
  assert (Hturn : ∀ prev : option (string * Z),
    (∀ b3, rtc fleet_step b1 b3 → snd <$> b_keys b3 !! instanceKey t e = snd <$> prev →
           held b3 t e = held b1 t e) →
    ∀ next, fn (held b1 t e) = Ok next →
    among_others (w <- write_record (snd <$> prev) next;;
                  match w with None => modify t n e fn | Some r => Done r end) b2 b' r →
    modified t e fn b1 b' r).
  { intros prev Hsame next Hf (b4 & w & Hw & Hk')%among_bind.
    destruct (is_op_names t e fn _ _ Hop (λ p Hp, held_wf _ _ _ _ Hb1 Hp) Hf) as (Ht & He & _).
    destruct (write_among t e prev next b2 b4 w Ht He Hw) as (b3 & H3 & Hcase).
    destruct Hcase as [[-> H4]|[(err & -> & H4)|(Hrev & H4 & Hw')]].
    - eapply modified_before; [|apply IH; [|exact Hk']]; [by do 2 (etrans; [done|])|].
      eapply fleet_steps_wf; [exact Hb2|by etrans].
    - destruct Hk' as [-> H5]. apply modified_unanswered; [done|]. by do 3 (etrans; [done|]).
    - assert (Hf3 : fn (held b3 t e) = Ok next) by (rewrite Hsame; [done|by etrans|done]).
      assert (Hst : fleet_step b3 (put (instanceKey t e) (enc_record next) b3))
        by (eapply fn_writes; [eapply fleet_steps_wf; [exact Hb2|exact H3]|done..]).
      destruct Hw' as [->|[err ->]]; destruct Hk' as [-> H5].
      + eapply modified_written; [by etrans|exact Hf3|by etrans].
      + apply modified_unanswered; [done|]. do 2 (etrans; [done|]). eapply rtc_l; [exact Hst|by etrans]. }
  assert (Hturn' : ∀ prev : option (string * Z),
    (∀ b3, rtc fleet_step b1 b3 → snd <$> b_keys b3 !! instanceKey t e = snd <$> prev →
           held b3 t e = held b1 t e) →
    among_others (match fn (held b1 t e) with
                  | Err errNoChange => Done (Ok tt)
                  | Err err => Done (Err err)
                  | Ok next => w <- write_record (snd <$> prev) next;;
                               match w with None => modify t n e fn | Some r => Done r end
                  end) b2 b' r → modified t e fn b1 b' r).
  { intros prev Hsame. destruct (fn (held b1 t e)) as [next|err] eqn:Hf; [by eapply Hturn|].
    intros Hd. destruct (decide (err = errNoChange)) as [->|Hne].
    - destruct Hd as [-> H3]. apply (modified_same _ _ _ _ _ b1); [apply rtc_refl|exact Hf|by etrans].
    - assert (r = Err err ∧ rtc fleet_step b2 b') as [-> H3] by (by destruct err).
      apply (modified_refused _ _ _ _ _ b1); [apply rtc_refl|exact Hf|by etrans]. }
  eapply modified_before; [exact H1|].
  destruct got as [[rec rev]|err].
  - destruct Hgot as (v & Hv & Hd). eapply (Hturn' (Some (v, rev))).
    + intros b3 H3 Hrev. rewrite (unchanged _ _ _ _ _ _ Hb1 Hv H3 Hrev). unfold held. by rewrite Hv.
    + unfold held. rewrite Hv. simpl. rewrite Hd. exact Hk.
  - destruct (decide (err = ErrNotRegistered)) as [->|Hne].
    + assert (Hn : held b1 t e = None) by (unfold held; by rewrite Hgot).
      eapply (Hturn' None); [|rewrite Hn; exact Hk].
      intros b3 _. rewrite Hn. unfold held. by destruct (b_keys b3 !! instanceKey t e).
    + assert (r = Err err ∧ rtc fleet_step b2 b') as [-> H3] by (by destruct err).
      apply modified_unanswered; [done|]. by etrans.
Qed.

(** ** The operations *)

Definition perform (t : string) (o : operation) : rcmd (result RegErr unit) :=
  match o with
  | OpRegister r => Register t r
  | OpHeartbeat h => Heartbeat t h
  | OpDrain e => Drain t e
  end.

(** What an operation makes of its engine's record. *)
Definition meaning (t : string) (o : operation) : option record → result RegErr record :=
  match o with
  | OpRegister r =>
      match Negotiate (rg_ProtocolVersions r) with
      | Ok n => register_fn t r n
      | Err e => λ _, Err (RegUnsupported e)
      end
  | OpHeartbeat h => heartbeat_fn h
  | OpDrain _ => drain_fn
  end.

Definition refusal (e : RegErr) : Prop := e = ErrNotRegistered ∨ e = errNoChange.

(** What every announcement written down has passed. *)
Definition plausible (o : operation) : Prop :=
  match o with OpRegister r => rg_Slots r ≤ MaxInt32 | _ => True end.

(** Each is refused before the bucket is touched, or [modify] of its meaning. *)
Lemma perform_modified t o b b' res :
  bucket_wf b → among_others (perform t o) b b' res →
  (rtc fleet_step b b' ∧ (res = Ok tt → engine_of o = "") ∧ res ≠ Err ErrNotRegistered)
  ∨ (is_op t (engine_of o) (meaning t o) ∧ plausible o
     ∧ ∃ res', modified t (engine_of o) (meaning t o) b b' res'
         ∧ (res' = res ∧ (∀ e, o = OpDrain e → res ≠ Err ErrNotRegistered)
            ∨ (res = Ok tt ∧ res' = Err ErrNotRegistered ∧ ∃ e, o = OpDrain e))).
Proof.
  intros Hb. destruct o as [r|h|e]; cbn [perform engine_of meaning]; unfold Register, Heartbeat, Drain.
  - destruct (decide (rg_EngineId r = "")) as [|He]; [intros [-> ?]; by left|].
    destruct (Negotiate (rg_ProtocolVersions r)) as [n|err] eqn:En; [|intros [-> ?]; by left].
    destruct (decide (MaxInt32 < rg_Slots r)) as [|Hs]; [intros [-> ?]; by left|].
    intros Hm. assert (Hop : is_op t (rg_EngineId r) (register_fn t r n)).
    { left. exists r, n. split_and!; [done..|lia|done]. }
    right. split; [exact Hop|]. split; [first [done|simpl; lia]|]. exists res. split; [|left; split; [done|]; by intros ? [=]]. by eapply modify_is_atomic.
  - destruct (decide (hb_EngineId h = "")) as [|He]; [intros [-> ?]; by left|].
    intros Hm. assert (Hop : is_op t (hb_EngineId h) (heartbeat_fn h)) by (right; left; by exists h).
    right. split; [exact Hop|]. split; [first [done|simpl; lia]|]. exists res. split; [|left; split; [done|]; by intros ? [=]]. by eapply modify_is_atomic.
  - destruct (decide (e = "")) as [|He]; [intros [-> ?]; by left|].
    intros (b1 & r & Hm & [-> Hr])%among_bind. assert (Hop : is_op t e drain_fn) by (by right; right).
    right. split; [exact Hop|]. split; [first [done|simpl; lia]|]. exists r. split.
    + eapply modify_is_atomic in Hm; [|done..]. destruct Hm as [b2 H1 Hf H2|b2 err H1 Hf H2|b2 rec H1 Hf H2|err Hne H1].
      * eapply modified_same; [done|done|by etrans].
      * eapply modified_refused; [done|done|by etrans].
      * eapply modified_written; [done|done|by etrans].
      * apply modified_unanswered; [done|]. by etrans.
    + destruct r as [[]|[]]; try (left; by split); right; eauto.
Qed.

(** What a message's function makes of a record is what the message does to a
    member. *)
Lemma meaning_does t o prev rec :
  plausible o → (∀ p, prev = Some p → known (rc_State p)) → meaning t o prev = Ok rec →
  does o (member_of <$> prev) (member_of rec).
Proof.
  intros Hp Hk. destruct o as [r|h|e]; cbn [meaning]; [|by apply heartbeat_does|by apply drain_does].
  destruct (Negotiate _) as [n|] eqn:En; [|done]. by apply register_does.
Qed.

Lemma meaning_idle t o prev :
  (∀ p, prev = Some p → known (rc_State p)) → meaning t o prev = Err errNoChange → idle_for o (member_of <$> prev).
Proof.
  intros Hk. destruct o as [r|h|e]; cbn [meaning].
  - destruct (Negotiate _) as [n|]; [|done]. by destruct prev.
  - unfold heartbeat_fn. destruct prev; [|done]. by case_decide.
  - destruct prev as [p|]; [|done]. simpl. case_decide as Hd; [|done]. intros _. unfold member_of, standing_of. cbn.
    destruct Hd as [-> | ->]; cbn; [by left|by right].
Qed.

Lemma meaning_unheard t o prev :
  meaning t o prev = Err ErrNotRegistered → unheard o (member_of <$> prev) ∨ (∃ e, o = OpDrain e) ∧ prev = None.
Proof.
  destruct o as [r|h|e]; cbn [meaning].
  - destruct (Negotiate _) as [n|]; [|done]. by destruct prev.
  - left. destruct prev as [p|]; [|done]. unfold heartbeat_fn in *. case_decide as Hg; [|done]. simpl. by rewrite Hg.
  - destruct prev as [p|]; [simpl; by case_decide|]. right. split; [by eexists|done].
Qed.

(** C23: Registering, heartbeating and draining refine an abstract fleet, told
    without the code: members with a standing, a description and the jobs they
    hold, which announcements, heartbeats, drains and time alone change
    ([does], [fleet_step]). Whatever other planes and the bucket's own expiry
    do meanwhile, all a call may do to the bucket is a sequence of such
    steps. When it succeeds there was one moment at which its message did to
    the member held just then what the specification says, or at which there
    was nothing for it to do (a drain of an engine that is leaving, has left
    or is not there); and when it answers that the engine is not registered
    there was one at which nobody was there to hear a heartbeat, or the engine
    had left. *)
Theorem registry_refines_fleet t o b b' res :
  bucket_wf b → among bucket_step fleet_step (perform t o) b b' res →
  rtc fleet_step b b' ∧ bucket_wf b' ∧
  (res = Ok tt → engine_of o ≠ "" →
   ∃ b1, rtc fleet_step b b1 ∧
     ((∃ rec, record_for t (engine_of o) rec ∧ does o (member_of <$> held b1 t (engine_of o)) (member_of rec)
         ∧ rtc fleet_step (put (instanceKey t (engine_of o)) (enc_record rec) b1) b')
      ∨ idle_for o (member_of <$> held b1 t (engine_of o)) ∧ rtc fleet_step b1 b')) ∧
  (res = Err ErrNotRegistered →
   ∃ b1, rtc fleet_step b b1 ∧ unheard o (member_of <$> held b1 t (engine_of o)) ∧ rtc fleet_step b1 b').
Proof.
  intros Hb Hr. destruct (perform_modified _ _ _ _ _ Hb Hr) as [(Hs & Hne & Hnr)|(Hop & Hpl & res' & Hm & Hres)].
  { split_and!; [done|by eapply fleet_steps_wf| |by intros ?]. intros ->. intros Hn. by destruct (Hn (Hne eq_refl)). }
  pose proof (modified_steps _ _ _ _ _ _ Hb Hop Hm) as Hs.
  assert (Hkn : ∀ b1, rtc fleet_step b b1 → ∀ p, held b1 t (engine_of o) = Some p → record_for t (engine_of o) p).
  { intros b1 H1 p Hp. apply (held_wf _ _ _ _ (fleet_steps_wf _ _ Hb H1) Hp). }
  assert (Hkn' : ∀ b1, rtc fleet_step b b1 → ∀ p, held b1 t (engine_of o) = Some p → known (rc_State p)).
  { intros b1 H1 p Hp. apply (Hkn b1 H1 p Hp). }
  split; [done|]. split; [by eapply fleet_steps_wf|].
  destruct Hm as [b1 H1 Hf H2|b1 err H1 Hf H2|b1 rec H1 Hf H2|err Hne H1].
  - destruct Hres as [[<- _]|(_ & ? & _)]; [|done]. split; [|done]. intros _ _. exists b1. split; [done|]. right.
    split; [|done]. by eapply meaning_idle; [apply Hkn'|].
  - split.
    + intros -> _. destruct Hres as [[? _]|(_ & [= ->] & Hd)]; [done|]. exists b1. split; [done|]. right. split; [|done].
      destruct (meaning_unheard _ _ _ Hf) as [Hu|[_ Hn]]; destruct Hd as [e' ->]; [done|].
      by rewrite Hn.
    + intros ->. destruct Hres as [[[= ->] Hd]|(? & _)]; [|done]. exists b1. split; [done|]. split; [|done].
      destruct (meaning_unheard _ _ _ Hf) as [Hu|[[e' ->] _]]; [done|]. by destruct (Hd e' eq_refl).
  - destruct Hres as [[<- _]|(_ & ? & _)]; [|done]. split; [|done]. intros _ _. exists b1. split; [done|]. left. exists rec.
    split; [exact (is_op_names _ _ _ _ _ Hop (Hkn b1 H1) Hf)|]. split; [|done].
    by eapply meaning_does; [|apply Hkn'|].
  - destruct Hres as [[<- _]|(-> & [= ->] & Hd)]; [|done]. split; [done|]. intros [= ->]. done.
Qed.

(** ** The lifecycle *)

Definition state_of (b : bucket) (t e : string) : option string := rc_State <$> held b t e.

(** [registering -> ready -> draining -> gone], and what else may happen to an
    instance: it ages out, and one that is not there, or is gone, may register. *)
Inductive lifecycle : option string → option string → Prop :=
| lc_age s : lifecycle s None
| lc_register s : s = None ∨ s = Some StateGone → lifecycle s (Some StateRegistering)
| lc_stay s : lifecycle s s
| lc_prove : lifecycle (Some StateRegistering) (Some StateReady)
| lc_drain s : s = Some StateRegistering ∨ s = Some StateReady → lifecycle s (Some StateDraining)
| lc_done : lifecycle (Some StateDraining) (Some StateGone).

(** A known state is told by the standing it stands for. *)
Definition state_name (s : standing) : string :=
  match s with Proving => StateRegistering | Serving => StateReady | Leaving => StateDraining | Left => StateGone end.

Lemma standing_name st : known st → st = state_name (standing_of st).
Proof. by intros [->|[->|[->| ->]]]%known_cases. Qed.

Lemma does_lifecycle o prev rec :
  known (rc_State rec) → (∀ p, prev = Some p → known (rc_State p)) →
  does o (member_of <$> prev) (member_of rec) → lifecycle (rc_State <$> prev) (Some (rc_State rec)).
Proof.
  intros Hr%standing_name Hp Hd. rewrite Hr. clear Hr. change (standing_of (rc_State rec)) with (mb_standing (member_of rec)).
  revert Hd. generalize (member_of rec). intros next Hd. destruct prev as [p|].
  2: { simpl in *. destruct o as [r|h|e]; [destruct Hd as (n & _ & _ & Ha)|..]; [inversion Ha; subst|inversion Hd..].
       apply lc_register. by left. }
  specialize (Hp p eq_refl). apply standing_name in Hp. simpl. rewrite Hp. clear Hp.
  change (standing_of (rc_State p)) with (mb_standing (member_of p)). simpl in Hd. revert Hd. generalize (member_of p).
  intros m. destruct o as [r|h|e]; simpl.
  - intros (n & _ & _ & Ha). inversion Ha as [|m' Hl|m' Hl]; subst; simpl; [|apply lc_stay].
    rewrite Hl. apply lc_register. by right.
  - intros Hb. inversion Hb as [m' st Hst]; subst. simpl. destruct Hst as [[-> ->]|[[-> ->]|[(-> & _ & ->)|(-> & _ & ->)]]];
      [apply lc_prove|apply lc_stay..|apply lc_done].
  - intros Hb. inversion Hb as [m' Hst]; subst. simpl. apply lc_drain. destruct Hst as [-> | ->]; auto.
Qed.

Lemma step_lifecycle b b' t e : bucket_wf b → fleet_step b b' → lifecycle (state_of b t e) (state_of b' t e).
Proof.
  intros Hb Hs. unfold state_of. destruct Hs as [key b|t' o rec b _ Hrec Hd].
  - destruct (decide (key = instanceKey t e)) as [->|Hne]; [rewrite held_aged; apply lc_age|].
    rewrite held_age by done. apply lc_stay.
  - destruct (decide ((t, e) = (t', engine_of o))) as [[= -> ->]|Hne].
    + rewrite held_put, dec_enc_record. simpl. eapply (does_lifecycle o); [apply Hrec| |exact Hd].
      intros p Hp. by apply (held_wf _ _ _ _ Hb) in Hp as (_ & _ & ?).
    + rewrite held_put_ne by done. apply lc_stay.
Qed.

(** whatever messages arrive, in whatever order, from however many planes,
    an instance moves only along its lifecycle: registering, then ready on its
    own heartbeat, then draining, then gone. A re-announcement never demotes
    a ready engine nor promotes a draining one, and a heartbeat never brings
    back an engine that aged out or is gone: only a registration does, and
    only as far as registering. *)
Theorem instances_keep_their_lifecycle b b' t e :
  bucket_wf b → rtc fleet_step b b' → rtc lifecycle (state_of b t e) (state_of b' t e).
Proof.
  intros Hb Hs. induction Hs as [b|b b1 b' Hst Hs IH]; [done|].
  eapply rtc_l; [by apply step_lifecycle|]. apply IH. by eapply fleet_step_wf.
Qed.

(** ** Draining *)

(** The steps that do not end a drain: everything but the expiry of the
    engine's own key and its own heartbeat holding nothing. *)
Inductive busy_step (t e : string) : bucket → bucket → Prop :=
| busy_age key b : key ≠ instanceKey t e → busy_step t e b (age_out key b)
| busy_write t' e' fn rec b :
    is_op t' e' fn → fn (held b t' e') = Ok rec →
    ((t', e') = (t, e) → ∀ h, fn = heartbeat_fn h → hb_InFlight h ≠ []) →
    busy_step t e b (put (instanceKey t' e') (enc_record rec) b).

Lemma busy_fleet t e b b' : bucket_wf b → busy_step t e b b' → fleet_step b b'.
Proof. intros Hb Hs. destruct Hs; [constructor|by eapply fn_writes]. Qed.

Lemma busy_keeps_draining t e b b' :
  bucket_wf b → busy_step t e b b' → state_of b t e = Some StateDraining → state_of b' t e = Some StateDraining.
Proof.
  intros Hb Hs. unfold state_of. destruct Hs as [key b Hne|t' e' fn rec b Hop Hf Hbusy].
  - by rewrite held_age.
  - destruct (decide ((t', e') = (t, e))) as [[= -> ->]|Hne]; [|by rewrite held_put_ne].
    rewrite held_put, dec_enc_record. destruct (held b t e) as [p|] eqn:Hh; [|done]. simpl. intros [= Hd].
    destruct Hop as [(r & n & _ & _ & _ & _ & ->)|[(h & _ & _ & ->)|[_ ->]]].
    + by rewrite (register_state _ _ _ _ _ Hf), Hd.
    + destruct (heartbeat_state _ _ _ Hf) as (p' & [= <-] & _ & ->). rewrite Hd.
      rewrite decide_True by done. rewrite decide_False; [done|]. by eapply Hbusy.
    + by destruct (drain_state _ _ Hf) as (p' & [= <-] & ? & _).
Qed.

Lemma only_ready_is_eligible req i : e_State i ≠ StateReady → eligible req i = false.
Proof. intros Hs. unfold eligible. by rewrite decide_True. Qed.

(** An engine that is draining is given nothing until it has let go of
    everything: through any messages of any engine, its own re-announcements
    and its own heartbeats that still list work included, it stays in the
    fleet, draining, and no step's requirements match it. *)
Theorem draining_is_given_nothing t e b b' :
  bucket_wf b → state_of b t e = Some StateDraining → rtc (busy_step t e) b b' →
  ∃ rec, held b' t e = Some rec ∧ rc_State rec = StateDraining ∧ ∀ req, eligible req (instance rec) = false.
Proof.
  intros Hb Hd Hs. induction Hs as [b|b b1 b' Hst Hs IH].
  - unfold state_of in Hd. destruct (held b t e) as [rec|]; [|done]. simpl in Hd. injection Hd as Hd.
    exists rec. split_and!; [done..|]. intros req. apply only_ready_is_eligible. simpl. by rewrite Hd.
  - apply IH; [eapply fleet_step_wf; [exact Hb|by eapply (busy_fleet t e)]|by eapply busy_keeps_draining].
Qed.

(** A finding: nothing tells an engine its drain is over, and nothing remembers
    that it was drained. Three messages every engine sends on its own, a
    heartbeat holding nothing, its re-announcement and its next heartbeat, take
    an engine that was drained from draining to gone to registering to ready. *)
Lemma drained_engine_returns t r n rec (idle := mkHeartbeat (rg_EngineId r) []) :
  rc_State rec = StateReady →
  ∃ drained gone back ready,
    drain_fn (Some rec) = Ok drained ∧ heartbeat_fn idle (Some drained) = Ok gone
    ∧ register_fn t r n (Some gone) = Ok back ∧ heartbeat_fn idle (Some back) = Ok ready
    ∧ rc_State drained = StateDraining ∧ rc_State gone = StateGone ∧ rc_State ready = StateReady.
Proof.
  intros Hr. unfold drain_fn. rewrite decide_False by (rewrite Hr; by intros [?|?]).
  eexists _, _, _, _. split_and!; reflexivity.
Qed.

(** ** Listing *)

Definition reads (X : Type) (o : rop X) : Prop :=
  match o with RGet _ | RListKeys => True | RCreate _ _ | RUpdate _ _ _ => False end.

Lemma list_keys_reads t keys out : within reads (list_keys t keys out).
Proof.
  revert out. induction keys as [|key keys IH]; intros out; cbn [list_keys]; [done|].
  case_match; [apply IH|]. split; [done|]. intros [[[v rev]|]|]; cbn [cbind]; [|apply IH|done].
  repeat case_match; done || apply IH.
Qed.

Lemma reads_steps {A} (c : rcmd A) b b' r : within reads c → among_others c b b' r → rtc fleet_step b b'.
Proof.
  apply among_within; [done|]. intros X o b1 b2 x Ho Hs. by destruct o; destruct Ho; destruct Hs as [-> _].
Qed.

Lemma list_keys_among t keys out b b' res :
  bucket_wf b → among_others (list_keys t keys out) b b' (Ok res) →
  ∀ i, i ∈ res → i ∈ out ∨ ∃ b1 rec, rtc fleet_step b b1 ∧ rtc fleet_step b1 b'
    ∧ held b1 t (e_ID i) = Some rec ∧ rc_State rec ≠ StateGone ∧ i = instance rec.
Proof.
  revert out b. induction keys as [|key keys IH]; intros out b Hb; cbn [list_keys].
  { intros [[= ->] _] i Hi. by left. }
  destruct (negb (has_prefix (tenantPrefix t) key)); [by apply IH|].
  cbn [among cbind act]. intros (b1 & b2 & x & H1 & [-> Hx] & Hk) i Hi.
  pose proof (fleet_steps_wf _ _ Hb H1) as Hb1.
  assert (Hin : ∀ out', among_others (list_keys t keys out') b1 b' (Ok res) → i ∈ out' ∨
    ∃ b3 rec, rtc fleet_step b b3 ∧ rtc fleet_step b3 b' ∧ held b3 t (e_ID i) = Some rec
      ∧ rc_State rec ≠ StateGone ∧ i = instance rec).
  { intros out' Ha. destruct (IH _ _ Hb1 Ha i Hi) as [|(b3 & rec & H2 & H3 & H4)]; [by left|].
    right. exists b3, rec. split; [by etrans|done]. }
  destruct Hx as [->|[err ->]]; [|by destruct Hk].
  destruct (b_keys b1 !! key) as [[v rev]|] eqn:Ek; [|by apply Hin].
  destruct (Hb1 _ _ _ Ek) as (_ & rec & Hd & _ & Hkey). rewrite Hd in Hk.
  destruct (decide (rc_TenantID rec ≠ t)) as [|Ht%dec_stable]; [by destruct Hk|].
  destruct (decide (rc_State rec = StateGone)) as [|Hg]; [by apply Hin|].
  destruct (Hin _ Hk) as [[Ho|Hi']%elem_of_app|Ho]; [by left| |by right]. right.
  apply list_elem_of_singleton in Hi' as ->. exists b1, rec. split; [done|].
  split; [exact (reads_steps _ _ _ _ (list_keys_reads _ _ _) Hk)|].
  split_and!; [|done..]. unfold held. rewrite Hkey, Ht in Ek. simpl. rewrite Ek. exact Hd.
Qed.

#[export] Instance by_id_total : Total by_id.
Proof. intros a b. unfold by_id. apply (total String.le). Qed.
#[export] Instance by_id_trans : Transitive by_id.
Proof. intros a b c. unfold by_id. apply (transitivity (R:=String.le)). Qed.

(** A listing shows one tenant's fleet and nothing else: every instance in
    it was held under that tenant at some moment while it ran, is not gone,
    and is shown as it was recorded; the list is in the order of the engines'
    ids; and listing changes nothing. *)
Theorem listing_is_the_tenants t b b' out :
  bucket_wf b → among bucket_step fleet_step (Instances t) b b' (Ok out) →
  t ≠ "" ∧ rtc fleet_step b b' ∧ StronglySorted by_id out ∧
  ∀ i, i ∈ out → ∃ b1 rec, rtc fleet_step b b1 ∧ rtc fleet_step b1 b'
    ∧ held b1 t (e_ID i) = Some rec ∧ rc_State rec ≠ StateGone ∧ i = instance rec.
Proof.
  intros Hb. unfold Instances. destruct (decide (t = "")) as [|Ht]; [by intros [? _]|].
  cbn [among cbind act]. intros (b1 & b2 & x & H1 & [-> Hx] & Hk). split; [done|].
  destruct Hx as [(keys & -> & _)|[err ->]]; [|by destruct Hk].
  apply among_bind in Hk as (b2 & [l|err] & Hl & [[= ->] H2]).
  pose proof (reads_steps _ _ _ _ (list_keys_reads _ _ _) Hl) as Hr.
  split_and!; [by do 2 (etrans; [done|])|apply StronglySorted_merge_sort; apply _|].
  intros i Hi. rewrite merge_sort_Permutation in Hi.
  destruct (list_keys_among _ _ _ _ _ _ (fleet_steps_wf _ _ Hb H1) Hl i Hi)
    as [?%elem_of_nil|(b3 & rec & H3 & H4 & Hrec)]; [done|].
  exists b3, rec. split_and!; [by etrans|by etrans|apply Hrec..].
Qed.

(** ** What the fleet shows is what the engine announced *)

Definition canonical (c : Capability) : Prop := match c with CAPABILITY_OTHER n => n < 0 ∨ 5 < n | _ => True end.

Lemma Capability_of_number c : canonical c → Capability_of (Capability_number c) = c.
Proof.
  destruct c; try done. cbn [canonical Capability_number]. unfold Capability_of. intros Hn.
  by rewrite !decide_False by lia.
Qed.

Lemma registered_as_announced t r n prev rec :
  Forall canonical (rg_Capabilities r) → register_fn t r n prev = Ok rec →
  e_Capabilities (instance rec) = rg_Capabilities r ∧ e_OS (instance rec) = rg_Os r
  ∧ e_Arch (instance rec) = rg_Arch r ∧ e_EngineTypes (instance rec) = rg_EngineTypes r
  ∧ e_Slots (instance rec) = rg_Slots r ∧ e_Tier (instance rec) = rg_Tier r
  ∧ e_ProtocolVersions (instance rec) = rg_ProtocolVersions r.
Proof.
  intros Hc Hf. assert (Hcaps : map Capability_of (capabilityNumbers (rg_Capabilities r)) = rg_Capabilities r).
  { unfold capabilityNumbers. rewrite map_map. clear Hf.
    induction Hc as [|c l Hc _ IH]; [done|]. simpl. by rewrite Capability_of_number, IH. }
  destruct prev; simpl in Hf; simplify_eq/=; done.
Qed.

End Facts.

(** ** Worked examples *)

Definition job_tuple (j : Job) : string * string * Z * string :=
  (job_RunID j, job_StepID j, job_Attempt j, job_FenceToken j).
Definition job_of_tuple (x : string * string * Z * string) : Job :=
  let '(r, s, a, f) := x in mkJob r s a f.

Definition record_tuple (r : record) :=
  (rc_TenantID r, rc_EngineID r, rc_State r, rc_Capabilities r, rc_OS r, rc_Arch r, rc_Slots r,
   rc_ProtocolVersions r, rc_Negotiated r, rc_EngineTypes r, rc_Tier r, rc_EnvironmentIdentity r,
   (rc_InFlight r, map job_tuple (rc_Jobs r))).
Definition record_of_tuple x : record :=
  let '(t, e, st, caps, os, arch, slots, pv, n, ty, tier, env, (infl, jobs)) := x in
  mkRecord t e st caps os arch slots pv n ty tier env infl (map job_of_tuple jobs).

#[local] Instance bits_json : RegistryJSON :=
  {| enc_record := λ r, to_bits (record_tuple r); dec_record := λ s, record_of_tuple <$> of_bits s |}.

#[local] Instance bits_json_laws : RegistryJSONLaws.
Proof.
  intros r. cbn [dec_record enc_record bits_json]. rewrite of_to_bits. simpl. f_equal.
  destruct r as [t e st caps os arch slots pv n ty tier env infl jobs]. unfold record_tuple. cbn. f_equal.
  induction jobs as [|[] jobs IH]; [done|]. cbn. by rewrite IH.
Qed.

Definition ex_reg : EngineRegistration :=
  mkRegistration "e1" [3] [CAPABILITY_NETWORK] "linux" "amd64" 2 ["process"] "trusted" "".
Definition ex_empty : bucket := mkBucket ∅ 0.
Definition ex_rec : record :=
  mkRecord "acme" "e1" StateRegistering [1] "linux" "amd64" 2 [3] 3 ["process"] "trusted" "" 0 [].
Definition ex_drained : record := set_state StateDraining ex_rec.
Definition ex_registered : bucket := put (instanceKey "acme" "e1") (enc_record ex_rec) ex_empty.
Definition ex_draining : bucket := put (instanceKey "acme" "e1") (enc_record ex_drained) ex_registered.

Lemma ex_empty_wf : bucket_wf ex_empty.
Proof. intros key v rev. unfold ex_empty. cbn [b_keys]. by rewrite lookup_empty. Qed.

Lemma ex_register_op : is_op "acme" "e1" (register_fn "acme" ex_reg 3).
Proof. left. exists ex_reg, 3. split_and!; done. Qed.

Lemma ex_registering : fleet_step ex_empty ex_registered.
Proof. by apply (fn_writes "acme" "e1" (register_fn "acme" ex_reg 3)); [apply ex_empty_wf|apply ex_register_op|]. Qed.

Lemma ex_held_registered : held ex_registered "acme" "e1" = Some ex_rec.
Proof. unfold ex_registered. by rewrite held_put, dec_enc_record. Qed.

Lemma ex_drain : fleet_step ex_registered ex_draining.
Proof.
  apply (fn_writes "acme" "e1" drain_fn); [exact (fleet_step_wf _ _ ex_empty_wf ex_registering)|by right; right|].
  by rewrite ex_held_registered.
Qed.

Lemma ex_draining_wf : bucket_wf ex_draining.
Proof. exact (fleet_step_wf _ _ (fleet_step_wf _ _ ex_empty_wf ex_registering) ex_drain). Qed.

Lemma ex_run : among bucket_step fleet_step (perform "acme" (OpRegister ex_reg)) ex_empty ex_registered (Ok tt).
Proof.
  exists ex_empty, ex_empty, (Ok None). split; [done|]. split; [split; [done|by left]|].
  exists ex_empty, ex_registered, (Ok tt). split; [done|]. split; [|by split].
  right; right. split_and!; [done|done|by left].
Qed.

Lemma registry_refines_fleet_witness :
  rtc fleet_step ex_empty ex_registered ∧
  ∃ b1, rtc fleet_step ex_empty b1 ∧
    ((∃ rec, record_for "acme" "e1" rec ∧ does (OpRegister ex_reg) (member_of <$> held b1 "acme" "e1") (member_of rec)
        ∧ rtc fleet_step (put (instanceKey "acme" "e1") (enc_record rec) b1) ex_registered)
     ∨ idle_for (OpRegister ex_reg) (member_of <$> held b1 "acme" "e1") ∧ rtc fleet_step b1 ex_registered).
Proof.
  destruct (registry_refines_fleet "acme" (OpRegister ex_reg) ex_empty ex_registered (Ok tt) ex_empty_wf ex_run)
    as (Hs & _ & Hok & _).
  split; [exact Hs|]. exact (Hok eq_refl ltac:(discriminate)).
Defined.

Lemma instances_keep_their_lifecycle_witness :
  rtc lifecycle (state_of ex_empty "acme" "e1") (state_of ex_draining "acme" "e1").
Proof.
  apply (instances_keep_their_lifecycle ex_empty ex_draining "acme" "e1" ex_empty_wf).
  eapply rtc_l; [apply ex_registering|]. eapply rtc_l; [apply ex_drain|apply rtc_refl].
Defined.

Lemma ex_draining_state : state_of ex_draining "acme" "e1" = Some StateDraining.
Proof. unfold state_of, ex_draining. by rewrite held_put, dec_enc_record. Qed.

(** The draining engine announces itself again. *)
Definition ex_again : bucket := put (instanceKey "acme" "e1") (enc_record ex_drained) ex_draining.

Lemma ex_reannounce : busy_step "acme" "e1" ex_draining ex_again.
Proof.
  apply (busy_write _ _ "acme" "e1" (register_fn "acme" ex_reg 3)); [apply ex_register_op| |].
  - unfold ex_draining. by rewrite held_put, dec_enc_record.
  - intros _ h Hh. assert (Hn : register_fn "acme" ex_reg 3 None = heartbeat_fn h None) by (by rewrite Hh). done.
Qed.

Lemma draining_is_given_nothing_witness :
  ∃ rec, held ex_again "acme" "e1" = Some rec ∧ rc_State rec = StateDraining
    ∧ ∀ req, eligible req (instance rec) = false.
Proof.
  apply (draining_is_given_nothing "acme" "e1" ex_draining ex_again ex_draining_wf ex_draining_state).
  eapply rtc_l; [apply ex_reannounce|apply rtc_refl].
Defined.

Lemma ex_listing : among bucket_step fleet_step (Instances "acme") ex_registered ex_registered (Ok [instance ex_rec]).
Proof.
  exists ex_registered, ex_registered, (Ok [instanceKey "acme" "e1"]). split; [done|].
  split; [split; [done|]|].
  - left. eexists. split; [done|]. intros k. unfold ex_registered, put, ex_empty. cbn [b_keys].
    rewrite list_elem_of_singleton, dom_insert_L, dom_empty_L. set_solver.
  - exists ex_registered, ex_registered, (Ok (b_keys ex_registered !! instanceKey "acme" "e1")).
    split; [done|]. split; [split; [done|by left]|]. unfold ex_registered, put. cbn [b_keys].
    rewrite lookup_insert_eq. cbn [cbind]. rewrite dec_enc_record. by split.
Qed.

Lemma listing_is_the_tenants_witness :
  ∃ b1 rec, rtc fleet_step ex_registered b1 ∧ held b1 "acme" "e1" = Some rec ∧ instance ex_rec = instance rec.
Proof.
  destruct (listing_is_the_tenants "acme" ex_registered ex_registered [instance ex_rec]
              (fleet_step_wf _ _ ex_empty_wf ex_registering) ex_listing) as (_ & _ & _ & Hall).
  destruct (Hall (instance ex_rec) ltac:(by left)) as (b1 & rec & H1 & _ & H2 & _ & H3). by exists b1, rec.
Defined.
