(* ===== verification/Fairness.v ===== *)
(** * The fair queue: [internal/scheduler/fairness.go]

    Deficit round-robin over per-tenant queues. The Go map of pointers to
    [tenantQueue] is a [gmap] of records: every pointer is read and written
    under the queue's lock and never leaves it. The loops of [Next] run on
    fuel: a turn hands out an item or ends with its tenant's departure or an
    advance of the cursor, and [next_fuel] is enough of them. *)

From S2P Require Import Prelude Bytes.

Definition DefaultWeight : Z := 1.

Record QueueItem : Type := mkItem
  { qi_TenantID : string; qi_RunID : string; qi_StepID : string; qi_PipelineID : string;
    qi_Attempt : Z; qi_EnqueuedAt : Z }.

#[export] Instance QueueItem_eq_dec : EqDecision QueueItem.
Proof. solve_decision. Defined.

Record tenantQueue : Type := mkTQ { tq_items : list QueueItem; tq_deficit : Z; tq_weight : Z }.

Record Queue : Type := mkQueue
  { q_tenants : gmap string tenantQueue; q_active : list string; q_cursor : Z;
    q_turnOpen : bool; q_pending : Z; q_weights : gmap string Z; q_defaultWeight : Z }.

Inductive QueueErr : Type :=
| CtxDone
| QTenantRequired
| WeightNotPositive (tenant : string) (weight : Z)
| DefaultWeightNotPositive (weight : Z)
| RunStepRequired
| SlotsNotPositive (slots : Z).

(** [NewQueue] over the configuration's weights, in the order Go visits them. *)
Definition add_weight (weights : gmap string Z) (w : string * Z) : result QueueErr (gmap string Z) :=
  if decide (w.1 = "") then Err QTenantRequired
  else if decide (w.2 ≤ 0) then Err (WeightNotPositive w.1 w.2)
  else Ok (<[w.1 := w.2]> weights).

Definition NewQueue (weights : list (string * Z)) (defaultWeight : Z) : result QueueErr Queue :=
  ws ← fold_result add_weight ∅ weights;
  let d := if decide (defaultWeight = 0) then DefaultWeight else defaultWeight in
  if decide (d < 0) then Err (DefaultWeightNotPositive d)
  else Ok (mkQueue ∅ [] 0 false 0 ws d).

Definition weightFor (q : Queue) (tenant : string) : Z :=
  default (q_defaultWeight q) (q_weights q !! tenant).

Definition with_tenant (q : Queue) (tenant : string) (tq : tenantQueue) : Queue :=
  mkQueue (<[tenant := tq]> (q_tenants q)) (q_active q) (q_cursor q) (q_turnOpen q) (q_pending q)
    (q_weights q) (q_defaultWeight q).
Definition with_active (q : Queue) (active : list string) : Queue :=
  mkQueue (q_tenants q) active (q_cursor q) (q_turnOpen q) (q_pending q) (q_weights q) (q_defaultWeight q).
Definition with_turn (q : Queue) (open : bool) (cursor : Z) : Queue :=
  mkQueue (q_tenants q) (q_active q) cursor open (q_pending q) (q_weights q) (q_defaultWeight q).
Definition with_pending (q : Queue) (n : Z) : Queue :=
  mkQueue (q_tenants q) (q_active q) (q_cursor q) (q_turnOpen q) n (q_weights q) (q_defaultWeight q).

(** The tenant's queue, or a fresh one at its weight. *)
Definition tenant_queue (q : Queue) (tenant : string) : tenantQueue :=
  default (mkTQ [] 0 (weightFor q tenant)) (q_tenants q !! tenant).

(** [Enqueue], with the context's error and the clock as arguments. *)
Definition Enqueue (ctx_err : bool) (now : Z) (item : QueueItem) : prog Queue QueueErr unit := λ q,
  if ctx_err then (q, Err CtxDone)
  else if decide (qi_TenantID item = "") then (q, Err QTenantRequired)
  else if decide (qi_RunID item = "" ∨ qi_StepID item = "") then (q, Err RunStepRequired)
  else
    let item := if decide (qi_EnqueuedAt item = 0)
                then mkItem (qi_TenantID item) (qi_RunID item) (qi_StepID item) (qi_PipelineID item)
                       (qi_Attempt item) now
                else item in
    let tenant := qi_TenantID item in
    let tq := tenant_queue q tenant in
    let q := match tq_items tq with [] => with_active q (q_active q ++ [tenant]) | _ => q end in
    let q := with_tenant q tenant (mkTQ (tq_items tq ++ [item]) (tq_deficit tq) (tq_weight tq)) in
    (with_pending q (q_pending q + 1), Ok tt).

(** The inner loop: items while there is credit, work and room. *)
Fixpoint take_items (fuel : nat) (tq : tenantQueue) (pending slots : Z) (out : list QueueItem)
    : tenantQueue * Z * list QueueItem :=
  match fuel, tq_items tq with
  | S fuel, x :: rest =>
      if bool_decide (0 < tq_deficit tq) && bool_decide (Z.of_nat (length out) < slots)
      then take_items fuel (mkTQ rest (tq_deficit tq - 1) (tq_weight tq)) (pending - 1) slots (out ++ [x])
      else (tq, pending, out)
  | _, _ => (tq, pending, out)
  end.

(** [append(q.active[:i], q.active[i+1:]...)]. *)
Definition remove_at (l : list string) (i : Z) : list string :=
  take (Z.to_nat i) l ++ drop (S (Z.to_nat i)) l.

(** One turn of the outer loop: the queue after it, the output after it, and
    whether the loop goes on. *)
Definition turn (slots : Z) (q : Queue) (out : list QueueItem) : Queue * list QueueItem * bool :=
  let q := if decide (Z.of_nat (length (q_active q)) ≤ q_cursor q)
           then with_turn q (q_turnOpen q) 0 else q in
  match q_active q !! Z.to_nat (q_cursor q) with
  | None => (q, out, false)
  | Some tenant =>
      let tq := tenant_queue q tenant in
      let tq := if q_turnOpen q then tq else mkTQ (tq_items tq) (tq_deficit tq + tq_weight tq) (tq_weight tq) in
      let '(tq, pending, out) := take_items (length (tq_items tq)) tq (q_pending q) slots out in
      let q := with_pending q pending in
      match tq_items tq with
      | [] =>
          let q := with_tenant q tenant (mkTQ [] 0 (tq_weight tq)) in
          (with_turn (with_active q (remove_at (q_active q) (q_cursor q))) false (q_cursor q), out, true)
      | _ =>
          let q := with_tenant q tenant tq in
          if decide (tq_deficit tq = 0) then (with_turn q false (q_cursor q + 1), out, true)
          else (with_turn q true (q_cursor q), out, false)
      end
  end.

Fixpoint next_loop (fuel : nat) (slots : Z) (q : Queue) (out : list QueueItem) : Queue * list QueueItem :=
  match fuel with
  | O => (q, out)
  | S fuel =>
      if bool_decide (Z.of_nat (length out) < slots) && bool_decide (0 < q_pending q)
         && negb (bool_decide (q_active q = []))
      then match turn slots q out with
           | (q, out, true) => next_loop fuel slots q out
           | (q, out, false) => (q, out)
           end
      else (q, out)
  end.

(** Every turn of a well-formed queue hands out an item. *)
Definition next_fuel (q : Queue) : nat := S (Z.to_nat (q_pending q)).

Definition Next (ctx_err : bool) (slots : Z) : prog Queue QueueErr (list QueueItem) := λ q,
  if ctx_err then (q, Err CtxDone)
  else if decide (slots ≤ 0) then (q, Err (SlotsNotPositive slots))
  else let '(q, out) := next_loop (next_fuel q) slots q [] in (q, Ok out).

Definition Pending (q : Queue) : Z := q_pending q.
