(* ===== verification/FairnessFacts.v ===== *)
(** * What the fair queue guarantees

    A well-formed queue hands out exactly as many items as it was asked for
    and has, each tenant's in the order they came in, losing and repeating
    none; and over any history two tenants that stay busy are served in
    proportion to their weights, within one turn. *)

From S2P Require Import Prelude Bytes Fairness.

Definition items_of (q : Queue) (t : string) : list QueueItem := tq_items (tenant_queue q t).
Definition deficit_of (q : Queue) (t : string) : Z := tq_deficit (tenant_queue q t).
Definition weight_of (q : Queue) (t : string) : Z := tq_weight (tenant_queue q t).

(** The tenant whose turn it is. *)
Definition current (q : Queue) : option string := q_active q !! Z.to_nat (q_cursor q).

Definition total (q : Queue) : Z :=
  foldr (λ t n, Z.of_nat (length (items_of q t)) + n) 0 (q_active q).

Record wf (q : Queue) : Prop := mkWf
  { wf_nodup : NoDup (q_active q);
    wf_active t : t ∈ q_active q ↔ items_of q t ≠ [];
    wf_cursor : 0 ≤ q_cursor q ≤ Z.of_nat (length (q_active q));
    wf_weight t : 0 < weight_of q t;
    wf_pending : q_pending q = total q;
    wf_deficit t : 0 ≤ deficit_of q t ≤ weight_of q t;
    wf_closed t : deficit_of q t ≠ 0 → q_turnOpen q = true ∧ current q = Some t;
    wf_open : q_turnOpen q = true → ∃ t, current q = Some t ∧ 0 < deficit_of q t;
    wf_default : 0 < q_defaultWeight q;
    wf_weights t w : q_weights q !! t = Some w → 0 < w;
    wf_tenant t x : x ∈ items_of q t → qi_TenantID x = t }.

(** ** A tenant's queue after an update *)

Lemma tenant_queue_with q t tq x :
  tenant_queue (with_tenant q t tq) x = if decide (x = t) then tq else tenant_queue q x.
Proof.
  unfold tenant_queue, with_tenant, weightFor. simpl. case_decide as Hx.
  - subst. by rewrite lookup_insert_eq.
  - by rewrite lookup_insert_ne.
Qed.

Lemma foldr_sum_ext {A} (f g : A → Z) l :
  (∀ x, x ∈ l → f x = g x) → foldr (λ x n, f x + n) 0 l = foldr (λ x n, g x + n) 0 l.
Proof.
  induction l as [|x l IH]; intros H; simpl; [done|]. rewrite H by (by left).
  f_equal. apply IH. intros y Hy. apply H. by right.
Qed.

Lemma foldr_sum_app {A} (f : A → Z) l1 l2 :
  foldr (λ x n, f x + n) 0 (l1 ++ l2) = foldr (λ x n, f x + n) 0 l1 + foldr (λ x n, f x + n) 0 l2.
Proof. induction l1; simpl; [done|]. lia. Qed.

Lemma foldr_sum_nonneg {A} (f : A → Z) l : (∀ x, 0 ≤ f x) → 0 ≤ foldr (λ x n, f x + n) 0 l.
Proof. intros H. induction l as [|x l IH]; simpl; [lia|]. specialize (H x). lia. Qed.

(** ** The inner loop *)

Lemma take_items_spec fuel tq pending slots out :
  0 ≤ tq_deficit tq → Z.of_nat (length out) ≤ slots → fuel = length (tq_items tq) →
  ∃ new tq', take_items fuel tq pending slots out = (tq', pending - Z.of_nat (length new), out ++ new)
    ∧ tq_items tq = new ++ tq_items tq' ∧ tq_deficit tq' = tq_deficit tq - Z.of_nat (length new)
    ∧ tq_weight tq' = tq_weight tq ∧ 0 ≤ tq_deficit tq'
    ∧ Z.of_nat (length (out ++ new)) ≤ slots
    ∧ (tq_items tq' = [] ∨ tq_deficit tq' = 0 ∨ Z.of_nat (length (out ++ new)) = slots)
    ∧ (0 < tq_deficit tq → tq_items tq ≠ [] → Z.of_nat (length out) < slots → new ≠ []).
Proof.
  revert tq pending out. induction fuel as [|fuel IH]; intros [items d w] pending out Hd Hs Hf;
    simpl in *; destruct items as [|x rest]; simpl in *; try done.
  - exists [], (mkTQ [] d w). rewrite !app_nil_r, Z.sub_0_r. simpl. split_and!; auto; lia.
  - case_bool_decide as Hd'; case_bool_decide as Hs'; simpl.
    2-4: exists [], (mkTQ (x :: rest) d w); rewrite !app_nil_r, Z.sub_0_r; simpl; split_and!; try done; try lia.
    destruct (IH (mkTQ rest (d - 1) w) (pending - 1) (out ++ [x])) as (new & tq' & E & H1 & H2 & H3 & H4 & H5 & H6 & _);
      simpl; [lia|rewrite length_app; simpl; lia|lia|].
    exists (x :: new), tq'. simpl in *. rewrite E, <-app_assoc. simpl. rewrite <-app_assoc in H5, H6. simpl in H5, H6.
    split_and!; try done; try lia.
    + do 2 f_equal. lia.
    + by rewrite H1.
Qed.

(** ** Accounting *)

Definition of_tenant (t : string) (l : list QueueItem) : list QueueItem :=
  filter (λ x, qi_TenantID x = t) l.

Definition served (t : string) (l : list QueueItem) : Z := Z.of_nat (length (of_tenant t l)).

Lemma of_tenant_app t l1 l2 : of_tenant t (l1 ++ l2) = of_tenant t l1 ++ of_tenant t l2.
Proof. apply filter_app. Qed.

Lemma served_app t l1 l2 : served t (l1 ++ l2) = served t l1 + served t l2.
Proof. unfold served. rewrite of_tenant_app, length_app. lia. Qed.

Lemma of_tenant_all t l : (∀ x, x ∈ l → qi_TenantID x = t) → of_tenant t l = l.
Proof.
  unfold of_tenant. induction l as [|x l IH]; intros H; [done|].
  rewrite filter_cons, decide_True by (apply H; by left). f_equal. apply IH. intros y Hy. apply H. by right.
Qed.

Lemma of_tenant_none t t' l : (∀ x, x ∈ l → qi_TenantID x = t') → t ≠ t' → of_tenant t l = [].
Proof.
  unfold of_tenant. induction l as [|x l IH]; intros H Hne; [done|].
  rewrite filter_cons, decide_False.
  - apply IH; [|done]. intros y Hy. apply H. by right.
  - rewrite (H x) by (by left). done.
Qed.

(** Whether a tenant has had its turn this round. *)
Definition begun (q : Queue) (t : string) : bool :=
  bool_decide (t ∈ take (Z.to_nat (q_cursor q)) (q_active q))
  || (q_turnOpen q && bool_decide (current q = Some t)).

(** What the round has given a tenant: its weight once its turn has begun,
    less what the turn still owes it. *)
Definition credit (q : Queue) (t : string) : Z :=
  (if begun q t then weight_of q t else 0) - deficit_of q t.

Lemma wf_current_open q t : wf q → q_turnOpen q = true → current q = Some t → 0 < deficit_of q t.
Proof. intros Hw Ho Hc. destruct (wf_open q Hw Ho) as (t' & Hc' & Hd). congruence. Qed.

Lemma wf_deficit_closed q t : wf q → current q ≠ Some t ∨ q_turnOpen q = false → deficit_of q t = 0.
Proof.
  intros Hw Hc. destruct (decide (deficit_of q t = 0)) as [|Hd]; [done|].
  destruct (wf_closed q Hw t Hd) as [Ho Hcur]. destruct Hc; congruence.
Qed.

Lemma total_pos_active q : wf q → 0 < q_pending q → q_active q ≠ [].
Proof. intros Hw Hp Ha. rewrite (wf_pending q Hw) in Hp. unfold total in Hp. rewrite Ha in Hp. simpl in Hp. lia. Qed.

(** The cursor past the last tenant starts a new round. *)
Definition wrap (q : Queue) : Queue :=
  if decide (Z.of_nat (length (q_active q)) ≤ q_cursor q) then with_turn q (q_turnOpen q) 0 else q.

Lemma wrap_spec q :
  wf q → q_active q ≠ [] →
  wf (wrap q) ∧ (∃ t, current (wrap q) = Some t)
  ∧ (∀ t, items_of (wrap q) t = items_of q t) ∧ (∀ t, weight_of (wrap q) t = weight_of q t)
  ∧ q_active (wrap q) = q_active q ∧ q_pending (wrap q) = q_pending q
  ∧ q_weights (wrap q) = q_weights q ∧ q_defaultWeight (wrap q) = q_defaultWeight q
  ∧ ∃ R, ∀ t, t ∈ q_active q → 0 = R * weight_of q t + credit (wrap q) t - credit q t.
Proof.
  intros Hw Hne. pose proof (wf_cursor q Hw) as Hc. unfold wrap. case_decide as Hlen.
  - assert (Hcur : current q = None).
    { unfold current. apply lookup_ge_None. lia. }
    assert (Hclosed : q_turnOpen q = false).
    { destruct (q_turnOpen q) eqn:Ho; [|done]. destruct (wf_open q Hw Ho) as (t & Ht & _). congruence. }
    assert (Hd : ∀ t, deficit_of q t = 0) by (intros t; apply wf_deficit_closed; auto).
    split_and!; try done.
    + destruct Hw. split; try done; simpl.
      * lia.
      * intros t Ht. by specialize (Hd t).
      * rewrite Hclosed. done.
    + unfold current. simpl. destruct (q_active q) as [|t l]; [done|]. by exists t.
    + exists 1. intros t Ht. unfold credit. change (deficit_of (with_turn q (q_turnOpen q) 0) t) with (deficit_of q t).
      change (weight_of (with_turn q (q_turnOpen q) 0) t) with (weight_of q t).
      rewrite Hd. unfold begun. simpl. rewrite Hclosed. simpl. rewrite take_ge by lia.
      rewrite bool_decide_true by done. simpl. lia.
  - split_and!; try done.
    + unfold current. destruct (lookup_lt_is_Some_2 (q_active q) (Z.to_nat (q_cursor q))) as [t Ht]; [lia|eauto].
    + exists 0. intros t Ht. lia.
Qed.

(** What a turn leaves the tenant whose turn it is, and everybody else. *)
Record took (q q' : Queue) (t0 : string) (new : list QueueItem) : Prop := mkTook
  { tk_items : items_of q t0 = new ++ items_of q' t0;
    tk_others t : t ≠ t0 → tenant_queue q' t = tenant_queue q t;
    tk_weight : weight_of q' t0 = weight_of q t0;
    tk_pending : q_pending q' = q_pending q - Z.of_nat (length new);
    tk_config : q_weights q' = q_weights q ∧ q_defaultWeight q' = q_defaultWeight q }.

Lemma took_weight q q' t0 new t : took q q' t0 new → weight_of q' t = weight_of q t.
Proof.
  intros H. destruct (decide (t = t0)) as [->|Hne]; [by apply H|].
  unfold weight_of. by rewrite (tk_others _ _ _ _ H).
Qed.

Lemma took_sum q q' t0 new l :
  took q q' t0 new → t0 ∉ l →
  foldr (λ t n, Z.of_nat (length (items_of q' t)) + n) 0 l
  = foldr (λ t n, Z.of_nat (length (items_of q t)) + n) 0 l.
Proof.
  intros H Hn. apply foldr_sum_ext. intros t Ht. unfold items_of.
  rewrite (tk_others _ _ _ _ H); [done|]. by intros ->.
Qed.

Section Turn.
Context (q q' : Queue) (t0 : string) (new : list QueueItem).
Context (Hw : wf q) (Hcur : current q = Some t0) (Htk : took q q' t0 new).

Definition before : list string := take (Z.to_nat (q_cursor q)) (q_active q).
Definition after_ : list string := drop (S (Z.to_nat (q_cursor q))) (q_active q).

Lemma turn_split : q_active q = before ++ t0 :: after_.
Proof. symmetry. apply take_drop_middle, Hcur. Qed.

Lemma turn_cursor : Z.of_nat (length before) = q_cursor q ∧ q_cursor q < Z.of_nat (length (q_active q)).
Proof.
  pose proof (lookup_lt_Some _ _ _ Hcur) as Hlt. pose proof (wf_cursor q Hw) as Hc.
  unfold before. rewrite length_take. lia.
Qed.

Lemma turn_nodup : NoDup (before ++ after_) ∧ t0 ∉ before ∧ t0 ∉ after_.
Proof.
  pose proof (wf_nodup q Hw) as Hnd. rewrite turn_split in Hnd.
  apply NoDup_app in Hnd as (Hn1 & Hn12 & [Hn2 Hn2']%NoDup_cons).
  split_and!; [|intros H; apply (Hn12 _ H); by left|done].
  apply NoDup_app. split_and!; [done| |done]. intros x H1 H2. apply (Hn12 x H1). by right.
Qed.

Lemma turn_other_deficit t : t ≠ t0 → deficit_of q t = 0 ∧ deficit_of q' t = 0.
Proof.
  intros Ht. assert (Hd : deficit_of q t = 0) by (apply (wf_deficit_closed q t Hw); left; congruence).
  split; [done|]. unfold deficit_of. by rewrite (tk_others _ _ _ _ Htk).
Qed.

Lemma turn_tenant t x : x ∈ items_of q' t → qi_TenantID x = t.
Proof.
  destruct (decide (t = t0)) as [->|Ht].
  - intros Hx. apply (wf_tenant q Hw). rewrite (tk_items _ _ _ _ Htk), elem_of_app. by right.
  - unfold items_of. rewrite (tk_others _ _ _ _ Htk) by done. apply Hw.
Qed.

Lemma turn_total :
  q_pending q' = foldr (λ t n, Z.of_nat (length (items_of q' t)) + n) 0 before
                 + Z.of_nat (length (items_of q' t0))
                 + foldr (λ t n, Z.of_nat (length (items_of q' t)) + n) 0 after_.
Proof.
  destruct turn_nodup as (_ & Hn1 & Hn2).
  rewrite (tk_pending _ _ _ _ Htk), (wf_pending q Hw). unfold total. rewrite turn_split, foldr_sum_app.
  cbn [foldr]. rewrite (took_sum _ _ _ _ before Htk Hn1), (took_sum _ _ _ _ after_ Htk Hn2).
  rewrite (tk_items _ _ _ _ Htk), length_app. lia.
Qed.

(** Items come only from the turn's tenant. *)
Lemma turn_new t : of_tenant t new = if decide (t = t0) then new else [].
Proof.
  assert (Hx : ∀ x, x ∈ new → qi_TenantID x = t0).
  { intros x Hx. apply (wf_tenant q Hw). rewrite (tk_items _ _ _ _ Htk), elem_of_app. by left. }
  case_decide as Ht; [subst; by apply of_tenant_all|by eapply of_tenant_none].
Qed.

Lemma turn_items t : items_of q t = of_tenant t new ++ items_of q' t.
Proof.
  rewrite turn_new. case_decide as Ht; [subst; apply Htk|].
  unfold items_of. by rewrite (tk_others _ _ _ _ Htk).
Qed.

(** The turn's tenant stays in the rotation: its turn ends, or waits for slots. *)
Definition stays : Prop :=
  q_active q' = q_active q ∧ items_of q' t0 ≠ []
  ∧ (q_turnOpen q' = false ∧ q_cursor q' = q_cursor q + 1 ∧ deficit_of q' t0 = 0
     ∨ q_turnOpen q' = true ∧ q_cursor q' = q_cursor q ∧ 0 < deficit_of q' t0 ≤ weight_of q t0)
  ∧ deficit_of q' t0 = (if q_turnOpen q then deficit_of q t0 else weight_of q t0) - Z.of_nat (length new).

Lemma stays_take : take (Z.to_nat (q_cursor q + 1)) (q_active q) = before ++ [t0].
Proof.
  pose proof (wf_cursor q Hw) as Hc.
  replace (Z.to_nat (q_cursor q + 1)) with (S (Z.to_nat (q_cursor q))) by lia. by apply take_S_r.
Qed.

Lemma stays_wf : stays → wf q'.
Proof.
  intros (Hact & Hne & Hend & Hdef). destruct turn_cursor as [Hlb Hlt]. destruct turn_nodup as (Hnd & Hn1 & Hn2).
  pose proof (wf_weight q Hw t0) as Hw0. pose proof (wf_cursor q Hw) as Hc. split.
  - rewrite Hact. apply Hw.
  - intros t. rewrite Hact. destruct (decide (t = t0)) as [->|Ht].
    + split; [done|]. intros _. rewrite turn_split, elem_of_app, elem_of_cons. auto.
    + unfold items_of. rewrite (tk_others _ _ _ _ Htk) by done. apply Hw.
  - rewrite Hact. destruct Hend as [(_ & -> & _)|(_ & -> & _)]; lia.
  - intros t. rewrite (took_weight _ _ _ _ _ Htk). apply Hw.
  - rewrite turn_total. unfold total. rewrite Hact, turn_split, foldr_sum_app. cbn [foldr]. lia.
  - intros t. rewrite (took_weight _ _ _ _ _ Htk). destruct (decide (t = t0)) as [->|Ht].
    + destruct Hend as [(_ & _ & ->)|(_ & _ & ?)]; lia.
    + rewrite (proj2 (turn_other_deficit t Ht)). pose proof (wf_weight q Hw t). lia.
  - intros t Ht. destruct (decide (t = t0)) as [->|Hne']; [|by rewrite (proj2 (turn_other_deficit t Hne')) in Ht].
    destruct Hend as [(_ & _ & ?)|(? & E & _)]; [done|]. split; [done|]. unfold current. by rewrite Hact, E.
  - intros Ho. destruct Hend as [(? & _)|(_ & E & ?)]; [congruence|]. exists t0. unfold current. rewrite Hact, E.
    split; [done|lia].
  - rewrite (proj2 (tk_config _ _ _ _ Htk)). apply Hw.
  - rewrite (proj1 (tk_config _ _ _ _ Htk)). apply Hw.
  - apply turn_tenant.
Qed.

Lemma stays_credit t : stays → served t new = credit q' t - credit q t.
Proof.
  intros (Hact & Hne & Hend & Hdef). destruct turn_nodup as (_ & Hn1 & _).
  unfold credit, served. rewrite turn_new, (took_weight _ _ _ _ _ Htk). case_decide as Ht; [subst t|].
  - assert (Hb' : begun q' t0 = true).
    { unfold begun. rewrite Hact. destruct Hend as [(_ & -> & _)|(-> & E & _)].
      - rewrite stays_take, bool_decide_true; [done|]. rewrite elem_of_app, list_elem_of_singleton. by right.
      - rewrite (bool_decide_true (current q' = _)); [by rewrite orb_true_r|]. unfold current. by rewrite Hact, E. }
    rewrite Hb', Hdef. unfold begun. fold before. rewrite (bool_decide_false (t0 ∈ _)) by done.
    rewrite (bool_decide_true (current q = _)) by done. rewrite andb_true_r. simpl.
    destruct (q_turnOpen q) eqn:Ho; [lia|]. rewrite (wf_deficit_closed q t0) by auto. lia.
  - destruct (turn_other_deficit t Ht) as [-> ->].
    assert (Hb : begun q' t = begun q t); [|rewrite Hb; simpl; lia].
    unfold begun. rewrite Hact. rewrite (bool_decide_false (current q = Some t)) by congruence.
    rewrite andb_false_r, orb_false_r. destruct Hend as [(-> & -> & _)|(-> & E & _)].
    + rewrite stays_take, andb_false_l, orb_false_r. apply bool_decide_ext.
      rewrite elem_of_app, list_elem_of_singleton. unfold before. tauto.
    + rewrite E. rewrite (bool_decide_false (current q' = Some t)); [by rewrite andb_false_r, orb_false_r|].
      unfold current. rewrite Hact, E. change (current q ≠ Some t). congruence.
Qed.

(** The turn's tenant has nothing left and leaves the rotation. *)
Definition leaves : Prop :=
  q_active q' = before ++ after_ ∧ items_of q' t0 = [] ∧ q_turnOpen q' = false
  ∧ q_cursor q' = q_cursor q ∧ deficit_of q' t0 = 0.

Lemma leaves_wf : leaves → wf q'.
Proof.
  intros (Hact & Hnil & Hcl & Ecur & Hd). destruct turn_cursor as [Hlb Hlt]. destruct turn_nodup as (Hnd & Hn1 & Hn2).
  pose proof (wf_cursor q Hw) as Hc. pose proof (wf_weight q Hw t0) as Hw0.
  assert (Hd' : ∀ t, deficit_of q' t = 0).
  { intros t. destruct (decide (t = t0)) as [->|Ht]; [done|]. apply (turn_other_deficit t Ht). }
  split.
  - by rewrite Hact.
  - intros t. rewrite Hact, elem_of_app. destruct (decide (t = t0)) as [->|Ht].
    + rewrite Hnil. split; [by intros [?|?]|done].
    + unfold items_of. rewrite (tk_others _ _ _ _ Htk) by done. rewrite <-(wf_active q Hw t), turn_split.
      rewrite elem_of_app, elem_of_cons. tauto.
  - rewrite Hact, Ecur, length_app, Nat2Z.inj_add, Hlb. lia.
  - intros t. rewrite (took_weight _ _ _ _ _ Htk). apply Hw.
  - rewrite turn_total. unfold total. rewrite Hact, foldr_sum_app, Hnil. simpl. lia.
  - intros t. rewrite Hd', (took_weight _ _ _ _ _ Htk). pose proof (wf_weight q Hw t). lia.
  - intros t Ht. by rewrite Hd' in Ht.
  - congruence.
  - rewrite (proj2 (tk_config _ _ _ _ Htk)). apply Hw.
  - rewrite (proj1 (tk_config _ _ _ _ Htk)). apply Hw.
  - apply turn_tenant.
Qed.

Lemma leaves_credit t : leaves → t ∈ q_active q' → served t new = credit q' t - credit q t.
Proof.
  intros (Hact & Hnil & Hcl & Ecur & Hd) Hin. destruct turn_nodup as (_ & Hn1 & Hn2).
  destruct turn_cursor as [Hlb _].
  assert (Ht : t ≠ t0) by (intros ->; rewrite Hact, elem_of_app in Hin; tauto).
  unfold credit, served. rewrite turn_new, decide_False, (took_weight _ _ _ _ _ Htk) by done.
  destruct (turn_other_deficit t Ht) as [-> ->].
  assert (Hb : begun q' t = begun q t); [|rewrite Hb; simpl; lia].
  unfold begun. rewrite Hcl. rewrite (bool_decide_false (current q = Some t)) by congruence.
  rewrite andb_false_r, !orb_false_r. apply bool_decide_ext. rewrite Hact, Ecur. fold before.
  assert (E : take (Z.to_nat (q_cursor q)) (before ++ after_) = before); [|by rewrite E].
  replace (Z.to_nat (q_cursor q)) with (length before) by lia. apply take_app_length.
Qed.

End Turn.

(** ** From one turn to a call of [Next] *)

(** A well-formed step of the queue that hands out [new]. *)
Record handed (q q' : Queue) (new : list QueueItem) : Prop := mkHanded
  { hd_wf : wf q';
    hd_items t : items_of q t = of_tenant t new ++ items_of q' t;
    hd_pending : q_pending q' = q_pending q - Z.of_nat (length new);
    hd_weight t : weight_of q' t = weight_of q t;
    hd_order : q_active q' `sublist_of` q_active q;
    hd_share : ∃ R, ∀ t, t ∈ q_active q' → served t new = R * weight_of q t + credit q' t - credit q t }.

Lemma handed_refl q : wf q → handed q q [].
Proof.
  intros Hw. split; try done; simpl; [lia|]. exists 0. intros t _. unfold served. simpl. lia.
Qed.

Lemma handed_trans q q1 q2 n1 n2 : handed q q1 n1 → handed q1 q2 n2 → handed q q2 (n1 ++ n2).
Proof.
  intros [Hw1 Hi1 Hp1 Hwt1 Ha1 [R1 Hs1]] [Hw2 Hi2 Hp2 Hwt2 Ha2 [R2 Hs2]].
  assert (Hin : ∀ t, t ∈ q_active q2 → t ∈ q_active q1) by (intros t Ht; by eapply elem_of_sublist). split.
  - done.
  - intros t. by rewrite Hi1, Hi2, of_tenant_app, app_assoc.
  - rewrite length_app. lia.
  - intros t. by rewrite Hwt2, Hwt1.
  - by transitivity (q_active q1).
  - exists (R1 + R2). intros t Ht. rewrite served_app, (Hs1 t (Hin t Ht)), (Hs2 t Ht), Hwt1. lia.
Qed.

Lemma handed_wrap q : wf q → q_active q ≠ [] → handed q (wrap q) [].
Proof.
  intros Hw Hne. destruct (wrap_spec q Hw Hne) as (Hw' & _ & Hi & Hwt & Ha & Hp & _ & _ & R & HR).
  split; try done.
  - intros t. by rewrite Hi.
  - simpl. lia.
  - by rewrite Ha.
  - exists R. rewrite Ha. intros t Ht. change (served t []) with 0. by apply HR.
Qed.

Lemma handed_turn q q' t0 new :
  wf q → current q = Some t0 → took q q' t0 new → stays q q' t0 new ∨ leaves q q' t0 → handed q q' new.
Proof.
  intros Hw Hcur Htk Hend. split.
  - destruct Hend; [by eapply stays_wf|by eapply leaves_wf].
  - intros t. by eapply turn_items.
  - apply Htk.
  - intros t. by eapply took_weight.
  - destruct Hend as [(-> & _)|(-> & _)]; [done|]. rewrite (turn_split q t0 Hcur).
    apply sublist_app; [done|by apply sublist_cons].
  - exists 0. intros t Ht. rewrite Z.mul_0_l, Z.add_0_l. destruct Hend; [by eapply stays_credit|by eapply leaves_credit].
Qed.

(** The body of the turn, at the cursor. *)
Definition turn_at (slots : Z) (q : Queue) (tenant : string) (out : list QueueItem)
    : Queue * list QueueItem * bool :=
  let tq := tenant_queue q tenant in
  let tq := if q_turnOpen q then tq else mkTQ (tq_items tq) (tq_deficit tq + tq_weight tq) (tq_weight tq) in
  let '(tq, pending, out) := take_items (length (tq_items tq)) tq (q_pending q) slots out in
  let q := with_pending q pending in
  match tq_items tq with
  | [] =>
      let q := with_tenant q tenant (mkTQ [] 0 (tq_weight tq)) in
      (with_turn (with_active q (remove_at (q_active q) (q_cursor q))) false (q_cursor q), out, true)
  | _ =>
      let q := with_tenant q tenant tq in
      if decide (tq_deficit tq = 0) then (with_turn q false (q_cursor q + 1), out, true)
      else (with_turn q true (q_cursor q), out, false)
  end.

Lemma turn_wrap slots q out t :
  current (wrap q) = Some t → turn slots q out = turn_at slots (wrap q) t out.
Proof. intros Hc. unfold turn. fold (wrap q). unfold current in Hc. by rewrite Hc. Qed.

(** The queue after the turn's tenant was replaced. *)
Lemma took_intro q q' t0 tq new :
  q_tenants q' = <[t0 := tq]> (q_tenants q) → q_weights q' = q_weights q → q_defaultWeight q' = q_defaultWeight q →
  q_pending q' = q_pending q - Z.of_nat (length new) →
  items_of q t0 = new ++ tq_items tq → tq_weight tq = weight_of q t0 →
  took q q' t0 new ∧ tenant_queue q' t0 = tq.
Proof.
  intros Et Ew Ed Ep Ei Ewt.
  assert (E : ∀ t, tenant_queue q' t = if decide (t = t0) then tq else tenant_queue q t).
  { intros t. rewrite <-(tenant_queue_with q t0 tq t). unfold tenant_queue, weightFor. by rewrite Et, Ew, Ed. }
  pose proof (E t0) as E0. rewrite decide_True in E0 by done. split; [|done]. split; try done.
  - unfold items_of at 2. by rewrite E0.
  - intros t Ht. by rewrite E, decide_False.
  - unfold weight_of at 1. by rewrite E0.
Qed.

Lemma handed_intro q q' t0 tq new :
  wf q → current q = Some t0 →
  q_tenants q' = <[t0 := tq]> (q_tenants q) → q_weights q' = q_weights q → q_defaultWeight q' = q_defaultWeight q →
  q_pending q' = q_pending q - Z.of_nat (length new) →
  items_of q t0 = new ++ tq_items tq → tq_weight tq = weight_of q t0 →
  (tenant_queue q' t0 = tq → stays q q' t0 new ∨ leaves q q' t0) → handed q q' new.
Proof.
  intros Hw Hcur Et Ew Ed Ep Ei Ewt Hend. destruct (took_intro q q' t0 tq new Et Ew Ed Ep Ei Ewt) as [Htk Eq].
  apply (handed_turn q q' t0 new); auto.
Qed.

(** The tenant's queue as its turn opens. *)
Definition opened (q : Queue) (t : string) : tenantQueue :=
  let tq := tenant_queue q t in
  if q_turnOpen q then tq else mkTQ (tq_items tq) (tq_deficit tq + tq_weight tq) (tq_weight tq).

Lemma opened_spec q t :
  wf q → current q = Some t →
  tq_items (opened q t) = items_of q t ∧ items_of q t ≠ [] ∧ tq_weight (opened q t) = weight_of q t
  ∧ tq_deficit (opened q t) = (if q_turnOpen q then deficit_of q t else weight_of q t)
  ∧ 0 < tq_deficit (opened q t) ≤ weight_of q t.
Proof.
  intros Hw Hcur. pose proof (wf_weight q Hw t) as Hw0.
  assert (Hne : items_of q t ≠ []) by (apply (wf_active q Hw), (list_elem_of_lookup_2 _ _ _ Hcur)).
  unfold opened. destruct (q_turnOpen q) eqn:Ho.
  - pose proof (wf_current_open q t Hw Ho Hcur). split_and!; try done. apply Hw.
  - pose proof (wf_deficit_closed q t Hw (or_intror Ho)) as Hz. unfold deficit_of in Hz. simpl.
    rewrite Hz. unfold weight_of in *. split_and!; try done; lia.
Qed.

Lemma turn_at_spec slots q t0 out :
  wf q → current q = Some t0 → Z.of_nat (length out) < slots →
  ∃ q' new cont, turn_at slots q t0 out = (q', out ++ new, cont) ∧ handed q q' new ∧ new ≠ []
    ∧ Z.of_nat (length (out ++ new)) ≤ slots ∧ (cont = false → Z.of_nat (length (out ++ new)) = slots).
Proof.
  intros Hw Hcur Hs. unfold turn_at. fold (opened q t0). cbv zeta.
  destruct (opened_spec q t0 Hw Hcur) as (Hti & Hne & Htw & Htd & Htr).
  destruct (take_items_spec (length (tq_items (opened q t0))) (opened q t0) (q_pending q) slots out) as
    (new & tq' & -> & E1 & E2 & E3 & E4 & E5 & E6 & E7); [lia|lia|done|].
  assert (Hnew : new ≠ []) by (apply E7; [lia|by rewrite Hti|lia]).
  assert (Hlen : 0 < Z.of_nat (length new)) by (destruct new; [done|simpl; lia]).
  destruct (tq_items tq') as [|x rest] eqn:Ei; [|case_decide as Hz].
  - eexists _, new, true. split_and!; [reflexivity| |done|lia|done].
    eapply (handed_intro q _ t0 (mkTQ [] 0 (tq_weight tq'))); simpl; try done; try congruence.
    intros Eq. right. unfold leaves, items_of, deficit_of. rewrite Eq. done.
  - eexists _, new, true. split_and!; [reflexivity| |done|lia|done].
    eapply (handed_intro q _ t0 tq'); simpl; try done; try congruence.
    intros Eq. left. unfold stays. rewrite <-Htd. unfold items_of, deficit_of. rewrite Eq, Ei.
    split_and!; try done. left. split_and!; done.
  - eexists _, new, false. split_and!; [reflexivity| |done|lia|].
    2: { intros _. destruct E6 as [?|[?|?]]; done. }
    eapply (handed_intro q _ t0 tq'); simpl; try done; try congruence.
    intros Eq. left. unfold stays. rewrite <-Htd. unfold items_of, deficit_of. rewrite Eq, Ei.
    split_and!; try done. right. split_and!; [done..|lia|lia].
Qed.

Lemma turn_spec slots q out :
  wf q → 0 < q_pending q → Z.of_nat (length out) < slots →
  ∃ q' new cont, turn slots q out = (q', out ++ new, cont) ∧ handed q q' new ∧ new ≠ []
    ∧ Z.of_nat (length (out ++ new)) ≤ slots ∧ (cont = false → Z.of_nat (length (out ++ new)) = slots).
Proof.
  intros Hw Hp Hs. pose proof (total_pos_active q Hw Hp) as Hne.
  destruct (wrap_spec q Hw Hne) as (Hw' & [t Hc] & _).
  rewrite (turn_wrap _ _ _ t Hc). destruct (turn_at_spec slots (wrap q) t out Hw' Hc Hs)
    as (q' & new & cont & -> & Hh & Hrest).
  exists q', new, cont. split; [done|]. split; [|done].
  exact (handed_trans _ _ _ _ _ (handed_wrap q Hw Hne) Hh).
Qed.

Lemma wf_pending_nonneg q : wf q → 0 ≤ q_pending q.
Proof. intros Hw. rewrite (wf_pending q Hw). apply foldr_sum_nonneg. intros. lia. Qed.

Lemma wf_pending_zero q : wf q → q_pending q = 0 → q_active q = [].
Proof.
  intros Hw Hz. destruct (q_active q) as [|t l] eqn:E; [done|].
  assert (Ht : items_of q t ≠ []) by (apply (wf_active q Hw); rewrite E; by left).
  rewrite (wf_pending q Hw) in Hz. unfold total in Hz. rewrite E in Hz. cbn [foldr] in Hz.
  pose proof (foldr_sum_nonneg (λ t, Z.of_nat (length (items_of q t))) l (λ x, Nat2Z.is_nonneg _)) as Hn.
  cbn beta in Hn. destruct (items_of q t); [done|]. cbn [length] in Hz. lia.
Qed.

Lemma next_loop_spec fuel slots q out :
  wf q → Z.of_nat (length out) ≤ slots → q_pending q < Z.of_nat fuel →
  ∃ q' new, next_loop fuel slots q out = (q', out ++ new) ∧ handed q q' new
    ∧ Z.of_nat (length (out ++ new)) = Z.min slots (Z.of_nat (length out) + q_pending q).
Proof.
  revert q out. induction fuel as [|fuel IH]; intros q out Hw Hs Hf; pose proof (wf_pending_nonneg q Hw) as Hp.
  { lia. }
  cbn [next_loop]. destruct (_ && _ && _) eqn:Hgo.
  - apply andb_true_iff in Hgo as [[Hg1%bool_decide_eq_true Hg2%bool_decide_eq_true]%andb_true_iff _].
    destruct (turn_spec slots q out Hw Hg2 Hg1) as (q1 & n1 & cont & -> & Hh & Hn1 & Hl1 & Hc).
    assert (Hlen : 0 < Z.of_nat (length n1)) by (destruct n1; [done|simpl; lia]).
    pose proof (hd_pending _ _ _ Hh) as Hp1. pose proof (wf_pending_nonneg q1 (hd_wf _ _ _ Hh)) as Hp1'.
    destruct cont.
    + destruct (IH q1 (out ++ n1) (hd_wf _ _ _ Hh) Hl1) as (q2 & n2 & -> & Hh2 & Hl2); [lia|].
      exists q2, (n1 ++ n2). rewrite app_assoc. split_and!; [done|by eapply handed_trans|].
      rewrite Hl2, length_app. lia.
    + exists q1, n1. split_and!; [done|done|]. specialize (Hc eq_refl).
      rewrite length_app in Hc. rewrite length_app. lia.
  - exists q, []. rewrite app_nil_r. split_and!; [done|by apply handed_refl|].
    destruct (decide (q_pending q = 0)) as [Hz|Hz]; [lia|].
    pose proof (total_pos_active q Hw ltac:(lia)) as Hne.
    rewrite (bool_decide_false (q_active q = [])), (bool_decide_true (0 < q_pending q)) in Hgo by (done || lia).
    simpl in Hgo. rewrite !andb_true_r in Hgo. apply bool_decide_eq_false in Hgo. lia.
Qed.

Lemma Next_spec ctx slots q q' r :
  wf q → Next ctx slots q = (q', r) →
  match r with
  | Ok out => handed q q' out ∧ Z.of_nat (length out) = Z.min slots (q_pending q)
  | Err e => q' = q ∧ (ctx = true ∧ e = CtxDone ∨ slots ≤ 0 ∧ e = SlotsNotPositive slots)
  end.
Proof.
  intros Hw. unfold Next. destruct ctx; [by intros [= <- <-]; auto|]. case_decide; [by intros [= <- <-]; auto|].
  destruct (next_loop_spec (next_fuel q) slots q []) as (q1 & new & -> & Hh & Hl);
    [done|simpl; lia|unfold next_fuel; pose proof (wf_pending_nonneg q Hw); lia|].
  intros [= <- <-]. split; [done|]. simpl in Hl. lia.
Qed.

(** ** [Enqueue] *)

Definition stamped (now : Z) (item : QueueItem) : QueueItem :=
  if decide (qi_EnqueuedAt item = 0)
  then mkItem (qi_TenantID item) (qi_RunID item) (qi_StepID item) (qi_PipelineID item) (qi_Attempt item) now
  else item.

Lemma stamped_tenant now item : qi_TenantID (stamped now item) = qi_TenantID item.
Proof. unfold stamped. by case_decide. Qed.

(** A step of the queue that admits one item of tenant [t0]. *)
Record admitted (q q' : Queue) (item : QueueItem) : Prop := mkAdmitted
  { ad_wf : wf q';
    ad_items t : items_of q' t = items_of q t ++ of_tenant t [item];
    ad_pending : q_pending q' = q_pending q + 1;
    ad_weight t : weight_of q' t = weight_of q t;
    ad_order : q_active q `sublist_of` q_active q';
    ad_credit t : t ∈ q_active q → credit q' t = credit q t }.

Lemma of_tenant_one t x : of_tenant t [x] = if decide (qi_TenantID x = t) then [x] else [].
Proof. unfold of_tenant. rewrite filter_cons. by case_decide. Qed.

Definition joined (q : Queue) (t : string) : list string :=
  match items_of q t with [] => q_active q ++ [t] | _ => q_active q end.

Lemma joined_prefix q t : ∃ l, joined q t = q_active q ++ l.
Proof. unfold joined. destruct (items_of q t); [by exists [t]|exists []; by rewrite app_nil_r]. Qed.

Lemma joined_take q t0 t :
  wf q → t ∈ q_active q →
  (joined q t0 !! Z.to_nat (q_cursor q) = Some t ↔ current q = Some t) ∧
  (t ∈ take (Z.to_nat (q_cursor q)) (joined q t0) ↔ t ∈ take (Z.to_nat (q_cursor q)) (q_active q)).
Proof.
  intros Hw Ht. pose proof (wf_cursor q Hw) as Hc. unfold current, joined.
  destruct (items_of q t0) eqn:Ei; [|done].
  rewrite take_app_le by lia. split; [|done].
  destruct (decide (Z.to_nat (q_cursor q) < length (q_active q))%nat) as [Hlt|Hge].
  - by rewrite lookup_app_l by lia.
  - rewrite lookup_app_r by lia. rewrite (proj2 (lookup_ge_None (q_active q) _)) by lia.
    replace (Z.to_nat (q_cursor q) - length (q_active q))%nat with 0%nat by lia. simpl.
    split; [|done]. intros [= ->]. by apply (wf_active q Hw) in Ht.
Qed.

Section Admit.
Context (q q' : Queue) (x : QueueItem) (Hw : wf q).
Context (Htenants : q_tenants q' =
  <[qi_TenantID x := mkTQ (items_of q (qi_TenantID x) ++ [x]) (deficit_of q (qi_TenantID x))
                       (weight_of q (qi_TenantID x))]> (q_tenants q)).
Context (Hactive : q_active q' = joined q (qi_TenantID x)) (Hpending : q_pending q' = q_pending q + 1).
Context (Hcursor : q_cursor q' = q_cursor q) (Hopen : q_turnOpen q' = q_turnOpen q).
Context (Hconfig : q_weights q' = q_weights q) (Hdefault : q_defaultWeight q' = q_defaultWeight q).

Lemma admit_queue t :
  tenant_queue q' t = if decide (t = qi_TenantID x)
    then mkTQ (items_of q t ++ [x]) (deficit_of q t) (weight_of q t) else tenant_queue q t.
Proof.
  unfold tenant_queue, weightFor. rewrite Htenants, Hconfig, Hdefault.
  case_decide as Ht; [subst; by rewrite lookup_insert_eq|by rewrite lookup_insert_ne].
Qed.

Lemma admit_items t : items_of q' t = items_of q t ++ of_tenant t [x].
Proof.
  unfold items_of. rewrite admit_queue, of_tenant_one. case_decide as Ht.
  - rewrite decide_True by done. done.
  - rewrite decide_False by done. by rewrite app_nil_r.
Qed.

Lemma admit_rest t : deficit_of q' t = deficit_of q t ∧ weight_of q' t = weight_of q t.
Proof. unfold deficit_of, weight_of. rewrite admit_queue. by case_decide. Qed.

Lemma admit_nodup : NoDup (q_active q').
Proof.
  rewrite Hactive. unfold joined. destruct (items_of q (qi_TenantID x)) eqn:Ei; [|apply Hw].
  apply NoDup_app. split_and!; [apply Hw| |apply NoDup_singleton].
  intros t Ht ->%list_elem_of_singleton. by apply (wf_active q Hw) in Ht.
Qed.

Lemma admit_active t : t ∈ q_active q' ↔ t ∈ q_active q ∨ t = qi_TenantID x.
Proof.
  rewrite Hactive. unfold joined. destruct (items_of q (qi_TenantID x)) eqn:Ei.
  - by rewrite elem_of_app, list_elem_of_singleton.
  - split; [by left|]. intros [?| ->]; [done|]. apply (wf_active q Hw). by rewrite Ei.
Qed.

Lemma sum_admit l :
  NoDup l → foldr (λ t n, Z.of_nat (length (items_of q' t)) + n) 0 l
  = foldr (λ t n, Z.of_nat (length (items_of q t)) + n) 0 l
    + if decide (qi_TenantID x ∈ l) then 1 else 0.
Proof.
  induction l as [|t l IH]; intros Hnd; [done|]. apply NoDup_cons in Hnd as [Hn Hnd]. cbn [foldr].
  rewrite (IH Hnd), admit_items, length_app, of_tenant_one.
  destruct (decide (qi_TenantID x = t)) as [<-|Hne].
  - rewrite (decide_False (P := _ ∈ l)), (decide_True (P := _ ∈ _ :: l)) by (done || by left).
    simpl length. lia.
  - simpl length. destruct (decide (qi_TenantID x ∈ l)) as [Hin|Hnin].
    + rewrite decide_True by (by right). lia.
    + rewrite decide_False by (by intros [?|?]%elem_of_cons). lia.
Qed.

Lemma admit_total : total q' = total q + 1.
Proof.
  unfold total. rewrite (sum_admit _ admit_nodup), decide_True by (apply admit_active; auto).
  rewrite Hactive. unfold joined. destruct (items_of q (qi_TenantID x)) eqn:Ei; [|done].
  rewrite foldr_sum_app. cbn [foldr]. rewrite Ei. simpl. lia.
Qed.

Lemma admit_current t : t ∈ q_active q → current q' = Some t ↔ current q = Some t.
Proof.
  intros Ht. unfold current at 1. rewrite Hactive, Hcursor. apply (joined_take q _ t Hw Ht).
Qed.

Lemma current_active t : current q = Some t → t ∈ q_active q.
Proof. apply list_elem_of_lookup_2. Qed.

Lemma admit_admitted : admitted q q' x.
Proof.
  assert (Hwf : wf q').
  { split.
    - apply admit_nodup.
    - intros t. rewrite admit_active, admit_items, (wf_active q Hw t), of_tenant_one.
      split; [|destruct (decide (qi_TenantID x = t)) as [<-|]; [by right|rewrite app_nil_r; by left]].
      intros [H| ->]; [by intros [? ?]%app_eq_nil|rewrite decide_True by done; by intros [? ?]%app_eq_nil].
    - rewrite Hcursor, Hactive. pose proof (wf_cursor q Hw). destruct (joined_prefix q (qi_TenantID x)) as [l ->].
      rewrite length_app. lia.
    - intros t. rewrite (proj2 (admit_rest t)). apply Hw.
    - rewrite Hpending, admit_total, (wf_pending q Hw). done.
    - intros t. destruct (admit_rest t) as [-> ->]. apply Hw.
    - intros t. rewrite (proj1 (admit_rest t)), Hopen. intros Ht. destruct (wf_closed q Hw t Ht) as [Ho Hc].
      split; [done|]. apply admit_current; [by apply current_active|done].
    - rewrite Hopen. intros Ho. destruct (wf_open q Hw Ho) as (t & Hc & Hd). exists t.
      split; [apply admit_current; [by apply current_active|done]|by rewrite (proj1 (admit_rest t))].
    - rewrite Hdefault. apply Hw.
    - rewrite Hconfig. apply Hw.
    - intros t y. rewrite admit_items, elem_of_app, of_tenant_one. intros [Hy|Hy]; [by apply Hw|].
      case_decide; [by apply list_elem_of_singleton in Hy as ->|by apply elem_of_nil in Hy]. }
  split; try done; [apply admit_items|apply admit_rest| |].
  { rewrite Hactive. destruct (joined_prefix q (qi_TenantID x)) as [l ->]. by apply sublist_inserts_r. }
  intros t Ht. unfold credit, begun. destruct (admit_rest t) as [-> ->]. rewrite Hopen, Hcursor, Hactive.
  pose proof (joined_take q (qi_TenantID x) t Hw Ht) as [_ H2].
  rewrite (bool_decide_ext _ _ H2), (bool_decide_ext _ _ (admit_current t Ht)). done.
Qed.

End Admit.

Lemma Enqueue_spec ctx now item q q' r :
  wf q → Enqueue ctx now item q = (q', r) →
  match r with
  | Ok _ => admitted q q' (stamped now item)
  | Err e => q' = q
  end.
Proof.
  intros Hw. unfold Enqueue. destruct ctx; [by intros [= <- <-]|]. case_decide; [by intros [= <- <-]|].
  case_decide; [by intros [= <- <-]|]. fold (stamped now item).
  intros [= <- <-]. pose proof (stamped_tenant now item) as Et.
  apply admit_admitted; try done; unfold joined, items_of; simpl;
    destruct (tq_items (tenant_queue q (qi_TenantID (stamped now item)))) eqn:Ei; simpl;
    try done; unfold items_of, deficit_of, weight_of; by rewrite ?Ei.
Qed.

(** ** Histories *)

Lemma add_weight_pos l m m' :
  (∀ t w, m !! t = Some w → 0 < w) → fold_result add_weight m l = Ok m' →
  ∀ t w, m' !! t = Some w → 0 < w.
Proof.
  revert m. induction l as [|[t0 w0] l IH]; intros m Hm; simpl; [by intros [= <-]|].
  destruct (add_weight m (t0, w0)) as [m1|e] eqn:E; simpl; [|done]. apply IH.
  unfold add_weight in E. simpl in E. destruct (decide (t0 = "")); [done|].
  destruct (decide (w0 ≤ 0)); [done|]. injection E as <-.
  intros t w [[<- <-]|[_ ?]]%lookup_insert_Some; [lia|eauto].
Qed.

Lemma NewQueue_wf ws d q : NewQueue ws d = Ok q → wf q ∧ q_pending q = 0.
Proof.
  unfold NewQueue. destruct (fold_result add_weight ∅ ws) as [m|] eqn:Em; simpl; [|done].
  set (dw := if decide (d = 0) then _ else _). case_decide as Hd; [done|]. intros [= <-].
  assert (Hdw : 0 < dw). { unfold dw in *. case_decide; unfold DefaultWeight in *; lia. }
  assert (Hpos : ∀ t w, m !! t = Some w → 0 < w).
  { eapply add_weight_pos; [|exact Em]. by intros t w ?%lookup_empty_Some. }
  assert (Htq : ∀ t, tenant_queue (mkQueue ∅ [] 0 false 0 m dw) t = mkTQ [] 0 (default dw (m !! t))).
  { intros t. unfold tenant_queue, weightFor. cbn [q_tenants q_weights q_defaultWeight]. by rewrite lookup_empty. }
  assert (Hw : ∀ t, 0 < default dw (m !! t)).
  { intros t. destruct (m !! t) eqn:E; simpl; eauto. }
  split; [|done].
  split; unfold items_of, deficit_of, weight_of; try constructor; try done;
    intros; rewrite ?Htq in *; simpl in *; try done; try (specialize (Hw t); lia).
  all: first [by apply elem_of_nil in H|by apply Hpos with t|by destruct H].
Qed.

(** What a queue can become: items are admitted and taken in any order. *)
Inductive reachable : Queue → Prop :=
| rq_new ws d q : NewQueue ws d = Ok q → reachable q
| rq_enqueue ctx now item q q' r : reachable q → Enqueue ctx now item q = (q', r) → reachable q'
| rq_next ctx slots q q' r : reachable q → Next ctx slots q = (q', r) → reachable q'.

Lemma reachable_wf q : reachable q → wf q.
Proof.
  induction 1 as [ws d q Hn|ctx now item q q' r _ IH He|ctx slots q q' r _ IH Hn].
  - by apply NewQueue_wf in Hn as [].
  - pose proof (Enqueue_spec _ _ _ _ _ _ IH He) as Hs. destruct r; [apply Hs|by subst].
  - pose proof (Next_spec _ _ _ _ _ IH Hn) as Hs. destruct r; [apply Hs|by destruct Hs as [-> _]].
Qed.

(** ** Shares *)

Lemma credit_range q t : wf q → 0 ≤ credit q t ≤ weight_of q t.
Proof.
  intros Hw. pose proof (wf_deficit q Hw t) as Hd. pose proof (wf_weight q Hw t). unfold credit.
  destruct (begun q t) eqn:Hb; [lia|]. rewrite (wf_deficit_closed q t Hw); [lia|].
  unfold begun in Hb. apply orb_false_iff in Hb as [_ Hb].
  destruct (q_turnOpen q); [left|by right]. by apply bool_decide_eq_false in Hb.
Qed.

(** In the rotation, whoever comes first has had its turn first. *)
Lemma credit_order q a b :
  wf q → a ≠ b → [a; b] `sublist_of` q_active q → credit q b * weight_of q a ≤ credit q a * weight_of q b.
Proof.
  intros Hw Hne Hsub. pose proof (wf_weight q Hw a). pose proof (wf_weight q Hw b).
  pose proof (credit_range q a Hw). pose proof (credit_range q b Hw).
  destruct (begun q b) eqn:Hb.
  2: { assert (credit q b ≤ 0); [|nia]. unfold credit. rewrite Hb. pose proof (wf_deficit q Hw b). lia. }
  assert (Ha : credit q a = weight_of q a); [|nia].
  apply sublist_cons_l in Hsub as (k1 & k2 & Ek & (i & Hi)%singleton_sublist_l%list_elem_of_lookup).
  pose proof (wf_nodup q Hw) as Hnd.
  assert (Hia : q_active q !! length k1 = Some a) by (rewrite Ek; by apply list_lookup_middle).
  assert (Hib : q_active q !! (length k1 + S i)%nat = Some b).
  { rewrite Ek, lookup_app_r by lia. by replace (length k1 + S i - length k1)%nat with (S i) by lia. }
  assert (Hlt : (length k1 < Z.to_nat (q_cursor q))%nat).
  { unfold begun in Hb. apply orb_true_iff in Hb as [Hb%bool_decide_eq_true|[_ Hb%bool_decide_eq_true]%andb_true_iff].
    - apply elem_of_take in Hb as (j & Hj & Hlt).
      pose proof (NoDup_lookup _ _ _ _ Hnd Hj Hib). lia.
    - unfold current in Hb. pose proof (NoDup_lookup _ _ _ _ Hnd Hb Hib). lia. }
  unfold credit. rewrite (wf_deficit_closed q a Hw).
  2: { left. unfold current. intros Hc. pose proof (NoDup_lookup _ _ _ _ Hnd Hc Hia). lia. }
  unfold begun. rewrite bool_decide_true; [simpl; lia|]. apply elem_of_take. eauto.
Qed.

Lemma two_order {A} (a b : A) l : a ∈ l → b ∈ l → a ≠ b → [a; b] `sublist_of` l ∨ [b; a] `sublist_of` l.
Proof.
  intros Ha Hb Hne. apply list_elem_of_split in Ha as (l1 & l2 & ->).
  apply elem_of_app in Hb as [Hb|[->|Hb]%elem_of_cons]; [right| done|left].
  - apply (sublist_app [b] l1 [a]); [by apply singleton_sublist_l|apply singleton_sublist_l; by left].
  - apply sublist_inserts_l, sublist_skip. by apply singleton_sublist_l.
Qed.

Lemma one_order {A} (a b : A) l : NoDup l → [a; b] `sublist_of` l → [b; a] `sublist_of` l → False.
Proof.
  intros Hnd (k1 & k2 & -> & (i & Hi)%singleton_sublist_l%list_elem_of_lookup)%sublist_cons_l
    (k3 & k4 & E & (j & Hj)%singleton_sublist_l%list_elem_of_lookup)%sublist_cons_l.
  assert (H1 : (k1 ++ a :: k2) !! length k1 = Some a) by (by apply list_lookup_middle).
  assert (H2 : (k1 ++ a :: k2) !! (length k1 + S i)%nat = Some b).
  { rewrite lookup_app_r by lia. by replace (length k1 + S i - length k1)%nat with (S i) by lia. }
  assert (H3 : (k1 ++ a :: k2) !! length k3 = Some b) by (rewrite E; by apply list_lookup_middle).
  assert (H4 : (k1 ++ a :: k2) !! (length k3 + S j)%nat = Some a).
  { rewrite E, lookup_app_r by lia. by replace (length k3 + S j - length k3)%nat with (S j) by lia. }
  pose proof (NoDup_lookup _ _ _ _ Hnd H1 H4). pose proof (NoDup_lookup _ _ _ _ Hnd H2 H3). lia.
Qed.

(** A history in which two tenants keep work queued: what it handed out. *)
Inductive busy (a b : string) : Queue → Queue → list QueueItem → Prop :=
| busy_here q : items_of q a ≠ [] → items_of q b ≠ [] → busy a b q q []
| busy_enqueue ctx now item q q1 r q' out :
    items_of q a ≠ [] → items_of q b ≠ [] → Enqueue ctx now item q = (q1, r) →
    busy a b q1 q' out → busy a b q q' out
| busy_next ctx slots q q1 r q' out :
    items_of q a ≠ [] → items_of q b ≠ [] → Next ctx slots q = (q1, r) →
    busy a b q1 q' out →
    busy a b q q' (match r with Ok l => l | Err _ => [] end ++ out).

Lemma busy_first a b q q' out : busy a b q q' out → items_of q a ≠ [] ∧ items_of q b ≠ [].
Proof. by destruct 1. Qed.

(** What one step of such a history preserves and hands out. *)
Definition shared (a b : string) (q q' : Queue) (out : list QueueItem) : Prop :=
  wf q' ∧ (∀ t, weight_of q' t = weight_of q t)
  ∧ ([a; b] `sublist_of` q_active q → [a; b] `sublist_of` q_active q')
  ∧ ∃ R, ∀ t, t = a ∨ t = b → served t out = R * weight_of q t + credit q' t - credit q t.

Lemma handed_shared a b q q' out :
  wf q → a ≠ b → handed q q' out → items_of q' a ≠ [] → items_of q' b ≠ [] → shared a b q q' out.
Proof.
  intros Hw Hne Hh Ha Hb. pose proof (hd_wf _ _ _ Hh) as Hw'.
  apply (wf_active q' Hw') in Ha, Hb. split_and!; [done|apply Hh| |].
  - intros Hab. destruct (two_order a b _ Ha Hb Hne) as [|Hba]; [done|]. exfalso.
    eapply (one_order a b); [apply (wf_nodup q Hw)|done|]. etransitivity; [exact Hba|apply Hh].
  - destruct (hd_share _ _ _ Hh) as [R HR]. exists R. intros t [->| ->]; auto.
Qed.

Lemma admitted_shared a b q q' x :
  wf q → admitted q q' x → items_of q a ≠ [] → items_of q b ≠ [] → shared a b q q' [].
Proof.
  intros Hw Had Ha Hb. apply (wf_active q Hw) in Ha, Hb. split_and!; [apply Had|apply Had| |].
  - intros Hab. etransitivity; [exact Hab|apply Had].
  - exists 0. intros t Ht. rewrite (ad_credit _ _ _ Had); [change (served t []) with 0; lia|].
    by destruct Ht as [->| ->].
Qed.

Lemma shared_trans a b q q1 q' o1 o2 : shared a b q q1 o1 → shared a b q1 q' o2 → shared a b q q' (o1 ++ o2).
Proof.
  intros (Hw1 & Hwt1 & Ho1 & R1 & H1) (Hw2 & Hwt2 & Ho2 & R2 & H2). split_and!; [done| |auto|].
  - intros t. by rewrite Hwt2, Hwt1.
  - exists (R1 + R2). intros t Ht. rewrite served_app, (H1 t Ht), (H2 t Ht), Hwt1. lia.
Qed.

Lemma shared_refl a b q : wf q → shared a b q q [].
Proof. intros Hw. split_and!; try done. exists 0. intros t _. change (served t []) with 0. lia. Qed.

Lemma busy_shared a b q q' out : a ≠ b → wf q → busy a b q q' out → shared a b q q' out.
Proof.
  intros Hne Hw Hb. revert Hw. induction Hb as [q Ha Hb|ctx now item q q1 r q' out Ha Hb He Hrest IH
    |ctx slots q q1 r q' out Ha Hb Hn Hrest IH]; intros Hw.
  - by apply shared_refl.
  - apply (shared_trans a b q q1 q' [] out); [|apply IH].
    + pose proof (Enqueue_spec _ _ _ _ _ _ Hw He) as Hs.
      destruct r; [by eapply admitted_shared|subst; by apply shared_refl].
    + pose proof (Enqueue_spec _ _ _ _ _ _ Hw He) as Hs. destruct r; [apply Hs|by subst].
  - pose proof (Next_spec _ _ _ _ _ Hw Hn) as Hs. destruct (busy_first _ _ _ _ _ Hrest) as [Ha1 Hb1].
    destruct r as [l|e].
    + destruct Hs as [Hh _]. apply (shared_trans a b q q1 q' l out); [by apply handed_shared|]. apply IH, Hh.
    + destruct Hs as [-> _]. by apply IH.
Qed.

(** ** Properties *)

(** A drain gets what there is: on any queue reached from a new one by
    admitting and taking in any order, [Next] terminates with exactly
    [min(slots, Pending)] items, [Pending] drops by as many, and each tenant's
    items come out in the order they went in, none lost, repeated or taken
    from another tenant. *)
Theorem next_delivers (q : Queue) (slots : Z) :
  reachable q → 0 < slots →
  ∃ q' out, Next false slots q = (q', Ok out)
    ∧ Z.of_nat (length out) = Z.min slots (Pending q) ∧ Pending q' = Pending q - Z.of_nat (length out)
    ∧ ∀ t, items_of q t = of_tenant t out ++ items_of q' t.
Proof.
  intros Hr Hs. pose proof (reachable_wf q Hr) as Hw. destruct (Next false slots q) as [q' r] eqn:En.
  pose proof (Next_spec _ _ _ _ _ Hw En) as Hspec. destruct r as [out|e].
  - destruct Hspec as [Hh Hl]. exists q', out. split_and!; [done|done|apply Hh|apply Hh].
  - destruct Hspec as [_ [[? _]|[? _]]]; [done|lia].
Qed.

(** C40: Service follows weight: over any history in which two tenants always
    have work queued, with admissions and drains of any size interleaved and
    other tenants coming and going, the items each is handed, measured in its
    own weight, differ by at most one turn; so no burst of one tenant, and no
    credit saved while idle, starves the other. *)
Theorem fair_share (q q' : Queue) (a b : string) (out : list QueueItem) :
  reachable q → busy a b q q' out →
  Z.abs (served a out * weight_of q b - served b out * weight_of q a) ≤ weight_of q a * weight_of q b.
Proof.
  intros Hr Hbusy. pose proof (reachable_wf q Hr) as Hw. pose proof (wf_weight q Hw a). pose proof (wf_weight q Hw b).
  destruct (decide (a = b)) as [->|Hne]; [rewrite Z.sub_diag; nia|].
  destruct (busy_shared a b q q' out Hne Hw Hbusy) as (Hw' & Hwt & Hord & R & HR).
  destruct (busy_shared b a q q' out (not_eq_sym Hne) Hw) as (_ & _ & Hord' & _).
  { clear -Hbusy. induction Hbusy; [by constructor|by econstructor|by econstructor]. }
  rewrite (HR a), (HR b) by auto. destruct (busy_first _ _ _ _ _ Hbusy) as [Ha Hb].
  apply (wf_active q Hw) in Ha, Hb.
  pose proof (credit_range q a Hw). pose proof (credit_range q b Hw).
  pose proof (credit_range q' a Hw') as Ha'. pose proof (credit_range q' b Hw') as Hb'. rewrite Hwt in Ha', Hb'.
  destruct (two_order a b _ Ha Hb Hne) as [Hab|Hba].
  - pose proof (credit_order q a b Hw Hne Hab) as Hc1.
    pose proof (credit_order q' a b Hw' Hne (Hord Hab)) as Hc2. rewrite !Hwt in Hc2. nia.
  - pose proof (credit_order q b a Hw (not_eq_sym Hne) Hba) as Hc1.
    pose proof (credit_order q' b a Hw' (not_eq_sym Hne) (Hord' Hba)) as Hc2. rewrite !Hwt in Hc2. nia.
Qed.

(** ** Worked examples *)

Definition ex_item (t s : string) : QueueItem := mkItem t "run" s "p" 1 7.
Definition ex_new : Queue := mkQueue ∅ [] 0 false 0 {["b" := 3]} 1.
Definition ex_load (q : Queue) (l : list QueueItem) : Queue := foldl (λ q x, (Enqueue false 0 x q).1) q l.
Definition ex_queue : Queue :=
  ex_load ex_new [ex_item "a" "1"; ex_item "a" "2"; ex_item "a" "3"; ex_item "b" "1"; ex_item "b" "2";
                  ex_item "b" "3"; ex_item "b" "4"].

Lemma ex_load_reachable q l : reachable q → reachable (ex_load q l).
Proof.
  revert q. induction l as [|x l IH]; intros q Hq; [done|]. apply IH.
  destruct (Enqueue false 0 x q) as [q1 r] eqn:E. by eapply rq_enqueue.
Qed.

Lemma ex_queue_reachable : reachable ex_queue.
Proof. apply ex_load_reachable, (rq_new [("b", 3)] 0). reflexivity. Qed.

Lemma next_delivers_witness :
  ∃ q' out, Next false 5 ex_queue = (q', Ok out)
    ∧ Z.of_nat (length out) = Z.min 5 (Pending ex_queue) ∧ Pending q' = Pending ex_queue - Z.of_nat (length out)
    ∧ ∀ t, items_of ex_queue t = of_tenant t out ++ items_of q' t.
Proof. exact (next_delivers ex_queue 5 ex_queue_reachable eq_refl). Defined.

Definition ex_next (slots : Z) (q : Queue) : Queue * list QueueItem :=
  match Next false slots q with (q, Ok l) => (q, l) | (q, Err _) => (q, []) end.

Lemma busy_one a b slots q :
  items_of q a ≠ [] → items_of q b ≠ [] →
  items_of (ex_next slots q).1 a ≠ [] → items_of (ex_next slots q).1 b ≠ [] →
  busy a b q (ex_next slots q).1 ((ex_next slots q).2 ++ []).
Proof.
  intros Ha Hb. unfold ex_next. destruct (Next false slots q) as [q1 r] eqn:E.
  destruct r as [l|e]; intros Ha1 Hb1;
    [apply (busy_next a b false slots q q1 (Ok l))|apply (busy_next a b false slots q q1 (Err e))];
    try done; by constructor.
Qed.

Lemma ex_busy : busy "a" "b" ex_queue (ex_next 3 ex_queue).1 ((ex_next 3 ex_queue).2 ++ []).
Proof. apply busy_one; vm_compute; discriminate. Qed.

Lemma fair_share_witness :
  Z.abs (served "a" ((ex_next 3 ex_queue).2 ++ []) * 3 - served "b" ((ex_next 3 ex_queue).2 ++ []) * 1) ≤ 1 * 3.
Proof. exact (fair_share ex_queue (ex_next 3 ex_queue).1 "a" "b" _ ex_queue_reachable ex_busy). Defined.
