(* ===== verification/Dynamic.v ===== *)
(** * Generators: [internal/dynamic]

    [Splice] grafts a realised fragment below its generator and re-validates
    the graph with the checks an authored one gets; [Realise] reads the run's
    log first, and only asks the generator when the log has no fragment for
    it, within one ceiling for the whole run. The store is the one of
    [RunStore]; the generator itself ([Emit]), JSON and protobuf are
    parameters. *)

From S2P Require Import Prelude Bytes Proto Dag RunStore.

Definition EventFragmentRealised : string := "GENERATOR_FRAGMENT_REALISED".
Definition EventCeilingReached : string := "GENERATOR_CEILING_REACHED".
Definition EventFailed : string := "GENERATOR_FAILED".
Definition ceilingReason : string := "expansion ceiling reached".

(** A port the fragment consumes and the generator does not produce, or a
    diagnostic of the spliced graph. *)
Inductive SpliceDiag : Type :=
| NotProduced (step port at_ : string)
| Checked (d : Diagnostic).

Inductive DynErr : Type :=
| NilParent
| ErrNoSuchStep (pipeline at_ : string)
| ErrEmptyFragment (at_ : string)
| ErrDuplicateStepID (at_ id : string)
| ErrNotADAG (at_ : string) (e : BuildError)
| Rejection (at_ : string) (ds : list SpliceDiag)
| RunStepRequired
| ErrExpansionCeiling (reason : string)
| EmitFailed (e : string)
| EncodeFragment (at_ : string)
| DecodePayload
| DecodeFragment (generator : string)
| StoreFailed (e : StoreErr)
| Joined (cause : DynErr) (e : StoreErr).

(** ** [Splice] *)

Definition findStep (p : Pipeline) (id : string) : option Step :=
  if decide (id = "") then None else List.find (λ s, bool_decide (step_id s = id)) (pl_steps p).

Definition hasIncoming (fragment : Pipeline) (id : string) : bool :=
  existsb (λ e, bool_decide (to_step e = id)) (pl_edges fragment).

(** The first id of the fragment that is empty or already taken. *)
Definition claim_id (at_ : string) (known : gset string) (s : Step) : result DynErr (gset string) :=
  if decide (step_id s = "") then Err (ErrDuplicateStepID at_ "")
  else if decide (step_id s ∈ known) then Err (ErrDuplicateStepID at_ (step_id s))
  else Ok ({[step_id s]} ∪ known).

(** The edges and diagnostics of one entry step's inputs. *)
Definition graft_input (anchor : Step) (at_ : string) (s : Step) (acc : list Edge * list SpliceDiag) (inp : Port)
    : list Edge * list SpliceDiag :=
  match findPort (step_outputs anchor) (port_name inp) with
  | None => (acc.1, acc.2 ++ [NotProduced (step_id s) (port_name inp) at_])
  | Some _ => (acc.1 ++ [mkEdge at_ (port_name inp) (step_id s) (port_name inp)], acc.2)
  end.

Definition graft (anchor : Step) (at_ : string) (fragment : Pipeline) : list Edge * list SpliceDiag :=
  foldl (λ acc s, if hasIncoming fragment (step_id s) then acc
                  else foldl (graft_input anchor at_ s) acc (step_inputs s))
    ([], []) (pl_steps fragment).

Definition Splice (parent : option Pipeline) (at_ : string) (fragment : option Pipeline) : result DynErr Pipeline :=
  match parent with
  | None => Err NilParent
  | Some parent =>
  match findStep parent at_ with
  | None => Err (ErrNoSuchStep (pl_id parent) at_)
  | Some anchor =>
  match fragment with
  | None => Err (ErrEmptyFragment at_)
  | Some fragment =>
      if decide (pl_steps fragment = []) then Err (ErrEmptyFragment at_) else
      _ ← fold_result (claim_id at_) (list_to_set (step_ids parent)) (pl_steps fragment);
      let '(edges, diags) := graft anchor at_ fragment in
      let spliced := mkPipeline (pl_id parent) (pl_steps parent ++ pl_steps fragment)
                       (pl_edges parent ++ pl_edges fragment ++ edges) (pl_files parent) in
      match Build (Some spliced) with
      | Err e => Err (ErrNotADAG at_ e)
      | Ok _ =>
          let diags := diags ++ map Checked (TypeCheck (Some spliced)) in
          if decide (diags = []) then Ok spliced else Err (Rejection at_ diags)
      end
  end end end.

(** ** The step type *)

Record GenRecord : Type := mkGenRecord
  { gr_Generator : string; gr_Steps : list string; gr_Reason : string; gr_Encoded : string }.

(** [encoding/json] of the record and [proto] of a pipeline. *)
Class GenCodec : Type :=
  { enc_record : GenRecord → string;
    dec_record : string → option GenRecord;
    enc_pipeline : Pipeline → option string;
    dec_pipeline : string → option Pipeline }.

(** What the replay relies on: the encoded fragment is a byte string, which
    JSON carries in base64 whatever it holds, and a message that has a field
    set is not encoded as the empty string. *)
Class GenCodecLaws `{GenCodec} : Prop :=
  { dec_enc_record r : gr_Encoded <$> dec_record (enc_record r) = Some (gr_Encoded r);
    dec_enc_pipeline p b : enc_pipeline p = Some b → dec_pipeline b = Some p;
    enc_pipeline_steps p b : enc_pipeline p = Some b → pl_steps p ≠ [] → b ≠ "" }.

Record EmitInput : Type := mkEmitInput
  { em_TenantID : string; em_RunID : string; em_StepID : string; em_Parent : Pipeline }.

Section Generator.
Context `{GenCodec}.

(** [Record.Fragment] and [UnmarshalRecord]. *)
Definition Fragment (r : GenRecord) : result DynErr Pipeline :=
  if decide (gr_Encoded r = "") then Err (ErrEmptyFragment (gr_Generator r))
  else match dec_pipeline (gr_Encoded r) with
       | None => Err (DecodeFragment (gr_Generator r))
       | Some p => Ok p
       end.

Definition UnmarshalRecord (b : string) : result DynErr GenRecord :=
  match dec_record b with None => Err DecodePayload | Some r => Ok r end.

Context (dialect : Dialect) (tenantID : string) (maxExpansions : Z) (now : Z).
(** The generator, and how an error prints. *)
Context (emit : EmitInput → result string (option Pipeline)) (Error : DynErr → string).

Definition record (runID stepID kind : string) (rec : GenRecord) : prog DB DynErr unit := λ db,
  match StoreAppend dialect tenantID (mkEvent runID stepID 0 0 kind (enc_record rec) now) db with
  | (db, Ok _) => (db, Ok tt)
  | (db, Err e) => (db, Err (StoreFailed e))
  end.

Definition gen_fail (runID stepID reason : string) (cause : DynErr) : prog DB DynErr Pipeline := λ db,
  match record runID stepID EventFailed (mkGenRecord stepID [] reason "") db with
  | (db, Ok _) => (db, Err cause)
  | (db, Err (StoreFailed e)) => (db, Err (Joined cause e))
  | (db, Err e) => (db, Err e)
  end.

(** What the log has realised: how many fragments, and this step's last one. *)
Definition expansions (events : list Event) : Z :=
  Z.of_nat (length (List.filter (λ e, bool_decide (ev_Type e = EventFragmentRealised)) events)).
Definition recorded (stepID : string) (events : list Event) : option Event :=
  last (List.filter (λ e, bool_decide (ev_Type e = EventFragmentRealised) && bool_decide (ev_StepID e = stepID)) events).

Definition ceiling_reason (runID stepID : string) (n : Z) : string :=
  ceilingReason +:+ ": run " +:+ quote runID +:+ " has realised " +:+ dec_Z n +:+ " of its "
  +:+ dec_Z maxExpansions +:+ " permitted fragments, so generator " +:+ quote stepID +:+ " was not expanded".

Definition splice_recorded (parent : Pipeline) (stepID : string) (e : Event) : result DynErr Pipeline :=
  rec ← UnmarshalRecord (ev_Payload e);
  fragment ← Fragment rec;
  Splice (Some parent) stepID (Some fragment).

(** The generator has not been expanded yet: ask it, record, splice. *)
Definition expand (runID stepID : string) (parent : Pipeline) : prog DB DynErr Pipeline := λ db,
  match emit (mkEmitInput tenantID runID stepID parent) with
  | Err e => gen_fail runID stepID ("generator " +:+ quote stepID +:+ " failed: " +:+ e) (EmitFailed e) db
  | Ok fragment =>
      match Splice (Some parent) stepID fragment with
      | Err e => gen_fail runID stepID
                   ("generator " +:+ quote stepID +:+ " emitted a fragment that cannot be spliced: " +:+ Error e) e db
      | Ok spliced =>
          match fragment ≫= enc_pipeline with
          | None => (db, Err (EncodeFragment stepID))
          | Some encoded =>
              match record runID stepID EventFragmentRealised
                      (mkGenRecord stepID (default [] (step_ids <$> fragment)) "" encoded) db with
              | (db, Ok _) => (db, Ok spliced)
              | (db, Err e) => (db, Err e)
              end
          end
      end
  end.

Definition Realise (runID stepID : string) (parent : option Pipeline) : prog DB DynErr Pipeline := λ db,
  if decide (runID = "" ∨ stepID = "") then (db, Err RunStepRequired)
  else match parent with
  | None => (db, Err NilParent)
  | Some parent =>
      match Replay tenantID runID db with
      | Err e => (db, Err (StoreFailed e))
      | Ok events =>
          match recorded stepID events with
          | Some e => (db, splice_recorded parent stepID e)
          | None =>
              if decide (maxExpansions ≤ expansions events)
              then let reason := ceiling_reason runID stepID (expansions events) in
                   match record runID stepID EventCeilingReached (mkGenRecord stepID [] reason "") db with
                   | (db, Ok _) => (db, Err (ErrExpansionCeiling reason))
                   | (db, Err e) => (db, Err e)
                   end
              else expand runID stepID parent db
          end
      end
  end.

End Generator.
