(* ===== verification/Sched.v ===== *)
(** * The scheduler's decisions: [internal/scheduler], the pure part

    A run is its event log. [fold_event] and [load_events] are [load]: the
    state every decision is made on, rebuilt from the log each time. [plan] is
    the readiness rule, [classify] what happens to a step that failed. The
    rest is what a dispatch is made of: its inputs, its cache key's digests,
    its taint, its requirements and its fence token. Event payloads are JSON
    and protobuf: the class [Payloads]. *)

From S2P Require Import Prelude Bytes Proto Dag Effects Cache Taint RunStore Dynamic.
From S2P Require Import Fleet.

(** ** Event types of [scheduler.go] *)

Definition StepUnschedulable : string := "STEP_UNSCHEDULABLE".
Definition StepWaiting : string := "STEP_WAITING".
Definition WaitingForCapacity : string := "capacity".
Definition WaitingUnconsumed : string := "unconsumed".
Definition StepPolicyDenied : string := "STEP_POLICY_DENIED".
Definition StepAwaitingReplay : string := "STEP_AWAITING_REPLAY".
Definition StepAwaitingTimer : string := "STEP_AWAITING_TIMER".
Definition StepAwaitingApproval : string := "STEP_AWAITING_APPROVAL".
Definition StepResumed : string := "STEP_RESUMED".
Definition StepAttemptLost : string := "STEP_ATTEMPT_LOST".
Definition StepSecretUnavailable : string := "STEP_SECRET_UNAVAILABLE".

(** ** Payloads *)

Record RunCreatedP : Type := mkRunCreated
  { rc_PipelineID : string; rc_RevisionID : string; rc_Inputs : gmap string Value; rc_StartedBy : string }.
Record DispatchedP : Type := mkDispatched
  { dp_Attempt : Z; dp_Fence : Z; dp_Cacheable : bool; dp_CacheIneligibleReason : string;
    dp_CacheHit : bool; dp_IdempotencyKey : string }.
Record UnschedulableP : Type := mkUnschedulable { us_Reason : string }.
Record WaitingReasonP : Type := mkWaitingReason { wr_Cause : string; wr_Reason : string }.
Record PolicyDeniedP : Type := mkPolicyDenied
  { pd_Tier : string; pd_Rule : string; pd_Reason : string; pd_PluginRef : string; pd_Signed : bool;
    pd_Upstream : string; pd_Secret : string }.
Record AwaitingReplayP : Type := mkAwaitingReplay { ar_EffectClass : string; ar_Reason : string }.
Record AttemptLostP : Type := mkAttemptLost { al_Attempt : Z; al_Fence : Z; al_Reason : string }.
Record RunFailureP : Type := mkRunFailure { rf_Steps : list string }.
Record SecretUnavailableP : Type := mkSecretUnavailable { su_Reason : string }.

(** [JobStatus] on the wire. *)
Record JobStatus : Type := mkJobStatus
  { js_RunId : string; js_StepId : string; js_Attempt : Z; js_FenceToken : string; js_Phase : Phase;
    js_ExitCode : Z; js_Outputs : list OutputRef; js_Error : string; js_LogKey : string }.

Class Payloads : Type :=
  { MarshalDispatched : DispatchedP → string;
    MarshalUnschedulable : UnschedulableP → string;
    MarshalWaitingReason : WaitingReasonP → string;
    MarshalPolicyDenied : PolicyDeniedP → string;
    MarshalAwaitingReplay : AwaitingReplayP → string;
    MarshalAttemptLost : AttemptLostP → string;
    MarshalRunFailure : RunFailureP → string;
    MarshalSecretUnavailable : SecretUnavailableP → string;
    MarshalStatus : JobStatus → option string;
    UnmarshalRunCreated : string → option RunCreatedP;
    UnmarshalDispatched : string → option DispatchedP;
    UnmarshalUnschedulable : string → option UnschedulableP;
    UnmarshalWaitingReason : string → option WaitingReasonP;
    UnmarshalStatus : string → option JobStatus;
    UnmarshalSanitised : string → option (list string) }.

(** ** [runState] *)

Record realised : Type := mkRealised { rl_generator : string; rl_fragment : Pipeline }.

Record runState : Type := mkState
  { st_created : bool;
    st_pipelineID : string;
    st_revisionID : string;
    st_completed : bool;
    st_attempts : gmap string Z;
    st_fences : gmap string Z;
    st_terminal : gmap string string;
    st_outputs : gmap string (list OutputRef);
    st_unschedulable : gmap string string;
    st_waiting : gmap string string;
    st_failedAt : gmap string Z;
    st_awaiting : gset string;
    st_cacheHit : gmap string bool;
    st_gated : gset string;
    st_resumed : gset string;
    st_fragments : list realised;
    st_inputs : gmap string Value;
    st_sanitised : gmap string (list string) }.

(** The state with one field replaced. *)
Definition set_created (v : bool) (s : runState) : runState :=
  mkState v (st_pipelineID s) (st_revisionID s) (st_completed s) (st_attempts s) (st_fences s)
    (st_terminal s) (st_outputs s) (st_unschedulable s) (st_waiting s) (st_failedAt s) (st_awaiting s)
    (st_cacheHit s) (st_gated s) (st_resumed s) (st_fragments s) (st_inputs s) (st_sanitised s).
Definition set_pipelineID (v : string) (s : runState) : runState :=
  mkState (st_created s) v (st_revisionID s) (st_completed s) (st_attempts s) (st_fences s) (st_terminal s)
    (st_outputs s) (st_unschedulable s) (st_waiting s) (st_failedAt s) (st_awaiting s) (st_cacheHit s)
    (st_gated s) (st_resumed s) (st_fragments s) (st_inputs s) (st_sanitised s).
Definition set_revisionID (v : string) (s : runState) : runState :=
  mkState (st_created s) (st_pipelineID s) v (st_completed s) (st_attempts s) (st_fences s) (st_terminal s)
    (st_outputs s) (st_unschedulable s) (st_waiting s) (st_failedAt s) (st_awaiting s) (st_cacheHit s)
    (st_gated s) (st_resumed s) (st_fragments s) (st_inputs s) (st_sanitised s).
Definition set_completed (v : bool) (s : runState) : runState :=
  mkState (st_created s) (st_pipelineID s) (st_revisionID s) v (st_attempts s) (st_fences s) (st_terminal s)
    (st_outputs s) (st_unschedulable s) (st_waiting s) (st_failedAt s) (st_awaiting s) (st_cacheHit s)
    (st_gated s) (st_resumed s) (st_fragments s) (st_inputs s) (st_sanitised s).
Definition set_attempts (v : gmap string Z) (s : runState) : runState :=
  mkState (st_created s) (st_pipelineID s) (st_revisionID s) (st_completed s) v (st_fences s)
    (st_terminal s) (st_outputs s) (st_unschedulable s) (st_waiting s) (st_failedAt s) (st_awaiting s)
    (st_cacheHit s) (st_gated s) (st_resumed s) (st_fragments s) (st_inputs s) (st_sanitised s).
Definition set_fences (v : gmap string Z) (s : runState) : runState :=
  mkState (st_created s) (st_pipelineID s) (st_revisionID s) (st_completed s) (st_attempts s) v
    (st_terminal s) (st_outputs s) (st_unschedulable s) (st_waiting s) (st_failedAt s) (st_awaiting s)
    (st_cacheHit s) (st_gated s) (st_resumed s) (st_fragments s) (st_inputs s) (st_sanitised s).
Definition set_terminal (v : gmap string string) (s : runState) : runState :=
  mkState (st_created s) (st_pipelineID s) (st_revisionID s) (st_completed s) (st_attempts s) (st_fences s)
    v (st_outputs s) (st_unschedulable s) (st_waiting s) (st_failedAt s) (st_awaiting s) (st_cacheHit s)
    (st_gated s) (st_resumed s) (st_fragments s) (st_inputs s) (st_sanitised s).
Definition set_outputs (v : gmap string (list OutputRef)) (s : runState) : runState :=
  mkState (st_created s) (st_pipelineID s) (st_revisionID s) (st_completed s) (st_attempts s) (st_fences s)
    (st_terminal s) v (st_unschedulable s) (st_waiting s) (st_failedAt s) (st_awaiting s) (st_cacheHit s)
    (st_gated s) (st_resumed s) (st_fragments s) (st_inputs s) (st_sanitised s).
Definition set_unschedulable (v : gmap string string) (s : runState) : runState :=
  mkState (st_created s) (st_pipelineID s) (st_revisionID s) (st_completed s) (st_attempts s) (st_fences s)
    (st_terminal s) (st_outputs s) v (st_waiting s) (st_failedAt s) (st_awaiting s) (st_cacheHit s)
    (st_gated s) (st_resumed s) (st_fragments s) (st_inputs s) (st_sanitised s).
Definition set_waiting (v : gmap string string) (s : runState) : runState :=
  mkState (st_created s) (st_pipelineID s) (st_revisionID s) (st_completed s) (st_attempts s) (st_fences s)
    (st_terminal s) (st_outputs s) (st_unschedulable s) v (st_failedAt s) (st_awaiting s) (st_cacheHit s)
    (st_gated s) (st_resumed s) (st_fragments s) (st_inputs s) (st_sanitised s).
Definition set_failedAt (v : gmap string Z) (s : runState) : runState :=
  mkState (st_created s) (st_pipelineID s) (st_revisionID s) (st_completed s) (st_attempts s) (st_fences s)
    (st_terminal s) (st_outputs s) (st_unschedulable s) (st_waiting s) v (st_awaiting s) (st_cacheHit s)
    (st_gated s) (st_resumed s) (st_fragments s) (st_inputs s) (st_sanitised s).
Definition set_awaiting (v : gset string) (s : runState) : runState :=
  mkState (st_created s) (st_pipelineID s) (st_revisionID s) (st_completed s) (st_attempts s) (st_fences s)
    (st_terminal s) (st_outputs s) (st_unschedulable s) (st_waiting s) (st_failedAt s) v (st_cacheHit s)
    (st_gated s) (st_resumed s) (st_fragments s) (st_inputs s) (st_sanitised s).
Definition set_cacheHit (v : gmap string bool) (s : runState) : runState :=
  mkState (st_created s) (st_pipelineID s) (st_revisionID s) (st_completed s) (st_attempts s) (st_fences s)
    (st_terminal s) (st_outputs s) (st_unschedulable s) (st_waiting s) (st_failedAt s) (st_awaiting s) v
    (st_gated s) (st_resumed s) (st_fragments s) (st_inputs s) (st_sanitised s).
Definition set_gated (v : gset string) (s : runState) : runState :=
  mkState (st_created s) (st_pipelineID s) (st_revisionID s) (st_completed s) (st_attempts s) (st_fences s)
    (st_terminal s) (st_outputs s) (st_unschedulable s) (st_waiting s) (st_failedAt s) (st_awaiting s)
    (st_cacheHit s) v (st_resumed s) (st_fragments s) (st_inputs s) (st_sanitised s).
Definition set_resumed (v : gset string) (s : runState) : runState :=
  mkState (st_created s) (st_pipelineID s) (st_revisionID s) (st_completed s) (st_attempts s) (st_fences s)
    (st_terminal s) (st_outputs s) (st_unschedulable s) (st_waiting s) (st_failedAt s) (st_awaiting s)
    (st_cacheHit s) (st_gated s) v (st_fragments s) (st_inputs s) (st_sanitised s).
Definition set_fragments (v : list realised) (s : runState) : runState :=
  mkState (st_created s) (st_pipelineID s) (st_revisionID s) (st_completed s) (st_attempts s) (st_fences s)
    (st_terminal s) (st_outputs s) (st_unschedulable s) (st_waiting s) (st_failedAt s) (st_awaiting s)
    (st_cacheHit s) (st_gated s) (st_resumed s) v (st_inputs s) (st_sanitised s).
Definition set_inputs (v : gmap string Value) (s : runState) : runState :=
  mkState (st_created s) (st_pipelineID s) (st_revisionID s) (st_completed s) (st_attempts s) (st_fences s)
    (st_terminal s) (st_outputs s) (st_unschedulable s) (st_waiting s) (st_failedAt s) (st_awaiting s)
    (st_cacheHit s) (st_gated s) (st_resumed s) (st_fragments s) v (st_sanitised s).
Definition set_sanitised (v : gmap string (list string)) (s : runState) : runState :=
  mkState (st_created s) (st_pipelineID s) (st_revisionID s) (st_completed s) (st_attempts s) (st_fences s)
    (st_terminal s) (st_outputs s) (st_unschedulable s) (st_waiting s) (st_failedAt s) (st_awaiting s)
    (st_cacheHit s) (st_gated s) (st_resumed s) (st_fragments s) (st_inputs s) v.

Definition empty_state : runState :=
  mkState false "" "" false ∅ ∅ ∅ ∅ ∅ ∅ ∅ ∅ ∅ ∅ ∅ [] ∅ ∅.

(** Go's zero values of the maps' elements. *)
Definition attempts_of (s : runState) (id : string) : Z := default 0 (st_attempts s !! id).
Definition fence_of (s : runState) (id : string) : Z := default 0 (st_fences s !! id).
Definition terminal_of (s : runState) (id : string) : string := default "" (st_terminal s !! id).
Definition outputs_of (s : runState) (id : string) : list OutputRef := default [] (st_outputs s !! id).
Definition unschedulable_of (s : runState) (id : string) : string := default "" (st_unschedulable s !! id).
Definition waiting_of (s : runState) (id : string) : string := default "" (st_waiting s !! id).
Definition cacheHit_of (s : runState) (id : string) : bool := default false (st_cacheHit s !! id).
Definition sanitised_of (s : runState) (id : string) : list string := default [] (st_sanitised s !! id).
(** [time.Time{}], in nanoseconds from the epoch. *)
Definition zeroTime : Z := -62135596800 * NanosPerSecond.
Definition failedAt_of (s : runState) (id : string) : Z := default zeroTime (st_failedAt s !! id).

Inductive LoadErr : Type :=
| DecodingPayload (event_type step : string)
| FragmentErr (step : string) (e : DynErr)
| NoRunCreated.

Section Log.
Context `{Payloads, GenCodec}.

(** ** [load] *)

Definition decoded {A} (e : Event) (r : option A) : result LoadErr A :=
  match r with Some a => Ok a | None => Err (DecodingPayload (ev_Type e) (ev_StepID e)) end.

Definition foldRealised (e : Event) : result LoadErr realised :=
  match UnmarshalRecord (ev_Payload e) with
  | Err err => Err (FragmentErr (ev_StepID e) err)
  | Ok rec => match Fragment rec with
              | Err err => Err (FragmentErr (ev_StepID e) err)
              | Ok fragment => Ok (mkRealised (ev_StepID e) fragment)
              end
  end.

(** [case runstore.StepDispatched]. *)
Definition fold_dispatched (s : runState) (e : Event) : result LoadErr runState :=
  let id := ev_StepID e in
  let s := if decide (attempts_of s id < ev_Attempt e)
           then set_attempts (<[id := ev_Attempt e]> (st_attempts s)) s else s in
  d ← decoded e (UnmarshalDispatched (ev_Payload e));
  let s := if decide (ev_Attempt e = attempts_of s id)
           then set_fences (<[id := dp_Fence d]> (st_fences s)) s else s in
  let s := set_cacheHit (<[id := dp_CacheHit d]> (st_cacheHit s)) s in
  let s := set_terminal (delete id (st_terminal s)) s in
  let s := set_resumed (st_resumed s ∖ {[id]}) s in
  let s := set_unschedulable (delete id (st_unschedulable s)) s in
  Ok (set_waiting (delete id (st_waiting s)) s).

Definition fold_event (s : runState) (e : Event) : result LoadErr runState :=
  let id := ev_StepID e in
  let t := ev_Type e in
  if decide (t = RunCreated) then
    c ← decoded e (UnmarshalRunCreated (ev_Payload e));
    Ok (set_inputs (rc_Inputs c) (set_revisionID (rc_RevisionID c)
          (set_pipelineID (rc_PipelineID c) (set_created true s))))
  else if decide (t = StepDispatched) then fold_dispatched s e
  else if decide (t = StepSucceeded) then
    status ← decoded e (UnmarshalStatus (ev_Payload e));
    Ok (set_outputs (<[id := js_Outputs status]> (st_outputs s))
          (set_terminal (<[id := t]> (st_terminal s)) s))
  else if decide (t = StepFailed) then
    Ok (set_failedAt (<[id := ev_At e]> (st_failedAt s)) (set_terminal (<[id := t]> (st_terminal s)) s))
  else if decide (t = StepAttemptLost) then
    Ok (if decide (attempts_of s id ≤ ev_Attempt e)
        then set_terminal (<[id := StepFailed]> (st_terminal s)) s else s)
  else if decide (t = StepAwaitingReplay) then Ok (set_awaiting ({[id]} ∪ st_awaiting s) s)
  else if decide (t = StepAwaitingTimer ∨ t = StepAwaitingApproval) then Ok (set_gated ({[id]} ∪ st_gated s) s)
  else if decide (t = StepResumed) then
    Ok (set_resumed ({[id]} ∪ st_resumed s) (set_gated (st_gated s ∖ {[id]}) s))
  else if decide (t = RunFailed ∨ t = RunCompleted ∨ t = RunCancelled) then Ok (set_completed true s)
  else if decide (t = EventFragmentRealised) then
    r ← foldRealised e; Ok (set_fragments (st_fragments s ++ [r]) s)
  else if decide (t = StepUnschedulable) then
    u ← decoded e (UnmarshalUnschedulable (ev_Payload e));
    Ok (set_unschedulable (<[id := us_Reason u]> (st_unschedulable s)) s)
  else if decide (t = EventSanitised) then
    sources ← decoded e (UnmarshalSanitised (ev_Payload e));
    Ok (set_sanitised (<[id := sanitised_of s id ++ sources]> (st_sanitised s)) s)
  else if decide (t = StepWaiting) then
    w ← decoded e (UnmarshalWaitingReason (ev_Payload e));
    Ok (set_waiting (<[id := wr_Cause w]> (st_waiting s)) s)
  else Ok s.

Definition load_events (events : list Event) : result LoadErr runState :=
  s ← fold_result fold_event empty_state events;
  if st_created s then Ok s else Err NoRunCreated.

End Log.

(** [spliceRealised]. *)
Definition spliceRealised (pipeline : Pipeline) (fragments : list realised) : result DynErr Pipeline :=
  fold_result (λ p r, Splice (Some p) (rl_generator r) (Some (rl_fragment r))) pipeline fragments.

(** ** [plan] *)

Record planned : Type := mkPlanned
  { p_ready : list Step; p_inFlight : Z; p_waiting : Z; p_blocked : list Step; p_exhausted : list string }.

Definition empty_plan : planned := mkPlanned [] 0 0 [] [].

Definition ready_more (s : Step) (pl : planned) : planned :=
  mkPlanned (p_ready pl ++ [s]) (p_inFlight pl) (p_waiting pl) (p_blocked pl) (p_exhausted pl).
Definition inFlight_more (pl : planned) : planned :=
  mkPlanned (p_ready pl) (p_inFlight pl + 1) (p_waiting pl) (p_blocked pl) (p_exhausted pl).
Definition waiting_more (pl : planned) : planned :=
  mkPlanned (p_ready pl) (p_inFlight pl) (p_waiting pl + 1) (p_blocked pl) (p_exhausted pl).
Definition blocked_more (s : Step) (pl : planned) : planned :=
  mkPlanned (p_ready pl) (p_inFlight pl) (p_waiting pl) (p_blocked pl ++ [s]) (p_exhausted pl).
Definition exhausted_more (id : string) (pl : planned) : planned :=
  mkPlanned (p_ready pl) (p_inFlight pl) (p_waiting pl) (p_blocked pl) (p_exhausted pl ++ [id]).

Definition classify (step : Step) (state : runState) (now : Z) (pl : planned) : planned :=
  let id := step_id step in
  let retry := RetryPolicy (Some step) in
  let attempts := attempts_of state id in
  if negb (AllowsRetry retry attempts)
  then if decide (MaxAttempts retry ≤ 1) then blocked_more step pl else exhausted_more id pl
  else if decide (now < failedAt_of state id + Backoff retry attempts)
  then waiting_more pl
  else ready_more step pl.

Definition add_pred (from : string) (m : gmap string (list string)) (dependent : string) : gmap string (list string) :=
  <[dependent := get_list m dependent ++ [from]]> m.

Definition predecessorsOf (p : Pipeline) (g : Graph) : gmap string (list string) :=
  foldl (λ m s, foldl (add_pred (step_id s)) m (Dependents g (step_id s))) ∅ (pl_steps p).

Definition plan_step (preds : gmap string (list string)) (state : runState) (now : Z) (pl : planned) (step : Step)
    : planned :=
  let id := step_id step in
  if decide (terminal_of state id = StepSucceeded) then pl
  else if decide (terminal_of state id = StepFailed) then classify step state now pl
  else if decide (id ∈ st_gated state) then waiting_more pl
  else if decide (id ∈ st_resumed state) then ready_more step pl
  else if decide (0 < attempts_of state id) then inFlight_more pl
  else if forallb (λ p, bool_decide (terminal_of state p = StepSucceeded)) (get_list preds id)
  then ready_more step pl
  else pl.

Definition step_le (a b : Step) : Prop := String.le (step_id a) (step_id b).
#[export] Instance step_le_dec : RelDecision step_le.
Proof. intros a b. unfold step_le. apply _. Defined.

(** [sort.Slice(out.ready, by id)]. *)
Definition sort_ready (pl : planned) : planned :=
  mkPlanned (merge_sort step_le (p_ready pl)) (p_inFlight pl) (p_waiting pl) (p_blocked pl) (p_exhausted pl).

Definition plan (p : Pipeline) (g : Graph) (state : runState) (now : Z) : planned :=
  sort_ready (foldl (plan_step (predecessorsOf p g) state now) empty_plan (pl_steps p)).

(** ** Statuses *)

Definition acceptsLease (p : Phase) : bool :=
  match p with PHASE_ACCEPTED | PHASE_RUNNING => true | _ => false end.

Definition terminalEvent (p : Phase) : option string :=
  match p with
  | PHASE_SUCCEEDED => Some StepSucceeded
  | PHASE_FAILED | PHASE_CANCELLED => Some StepFailed
  | _ => None
  end.

(** ** What a dispatch is made of *)

Definition stepByID (p : Pipeline) (stepID : string) : option Step :=
  List.find (λ s, bool_decide (step_id s = stepID)) (pl_steps p).

Definition executorLeaseScope (s : LeaseScopeP) : string :=
  match s with
  | LEASE_SCOPE_JOB => LeaseJob
  | LEASE_SCOPE_PIPELINE => LeasePipeline
  | LEASE_SCOPE_POOL => LeasePool
  | LEASE_SCOPE_SERVICE => LeaseService
  | LEASE_SCOPE_UNSPECIFIED | LEASE_SCOPE_STEP => LeaseStep
  | LEASE_SCOPE_OTHER _ => LeaseStep
  end.

(** [inputsFor]. *)
Definition edge_inputs (state : runState) (stepID : string) (e : Edge) : list InputRef :=
  if decide (to_step e ≠ stepID) then []
  else map (λ out, mkInputRef (to_port e) (out_digest out) (out_key out))
         (List.filter (λ out, bool_decide (out_port out = from_port e)) (outputs_of state (from_step e))).

Definition inputsFor (p : Pipeline) (step : Step) (state : runState) : result FileError (list InputRef) :=
  files ← FileInputs p (Some step);
  Ok (files ++ flat_map (edge_inputs state (step_id step)) (pl_edges p)).

(** [inputDigests]; [None] when an edge's source produced nothing. *)
Definition edge_digest (state : runState) (e : Edge) : option Digest :=
  out_digest <$> List.find (λ out, bool_decide (out_port out = from_port e)) (outputs_of state (from_step e)).

Fixpoint edge_digests (state : runState) (stepID : string) (es : list Edge) : option (list Digest) :=
  match es with
  | [] => Some []
  | e :: es =>
      if decide (to_step e ≠ stepID) then edge_digests state stepID es
      else d ← edge_digest state e; ds ← edge_digests state stepID es; Some (d :: ds)
  end.

Definition inputDigests (p : Pipeline) (stepID : string) (state : runState) : option (list Digest) :=
  match FileInputs p (stepByID p stepID) with
  | Err _ => None
  | Ok files => ds ← edge_digests state stepID (pl_edges p); Some (map in_digest files ++ ds)
  end.

(** ** Fence tokens *)

Definition fencePrefix : string := "dhole1".

Inductive FenceErr : Type := MalformedFence (s : string) | MalformedTenant (s : string)
| MalformedLease (s : string) | MalformedNumber (s : string).

Definition EncodeFence (tenantID value : string) (fence : Z) : string :=
  join "." [fencePrefix; b64_encode tenantID; b64_encode value; dec_Z fence].

Definition DecodeFence (s : string) : result FenceErr (string * (string * Z)) :=
  match split_on (Ascii.ascii_of_N 46) s with
  | [prefix; tenant; value; fence] =>
      if decide (prefix ≠ fencePrefix) then Err (MalformedFence s)
      else match b64_decode tenant with
           | None => Err (MalformedTenant s)
           | Some tenant =>
               match b64_decode value with
               | None => Err (MalformedLease s)
               | Some value =>
                   match parse_uint64 fence with
                   | None => Err (MalformedNumber s)
                   | Some fence => Ok (tenant, (value, fence))
                   end
               end
           end
  | _ => Err (MalformedFence s)
  end.

(** ** Taint at dispatch: [taint.go] *)

Definition feeds (p : Pipeline) (id : string) : list string :=
  map from_step (List.filter (λ e, bool_decide (to_step e = id)) (pl_edges p)).

Definition fed (p : Pipeline) (id port : string) : bool :=
  existsb (λ e, bool_decide (to_step e = id ∧ to_port e = port)) (pl_edges p).

(** What the run's own inputs bring to a step's free ports. *)
Definition own_sources (p : Pipeline) (state : runState) (s : Step) : gset string :=
  list_to_set (flat_map (λ port,
    if fed p (step_id s) (port_name port) then []
    else Sources (default VUnset (st_inputs state !! port_name port))) (step_inputs s)).

Abbreviation Memo := (gmap string (gset string)).

Definition memo_of (memo : Memo) (id : string) : gset string := default ∅ (memo !! id).

(** The sources [from] passes on: its own less what its gate cleared. *)
Definition passes_on (state : runState) (memo : Memo) (from : string) : gset string :=
  filter (λ src, src ∉ sanitised_of state from) (memo_of memo from).

(** [reaching]. Each call that is not answered by the memo adds a step to it. *)
Fixpoint reaching (fuel : nat) (p : Pipeline) (state : runState) (s : Step) (memo : Memo) : Memo :=
  match fuel with
  | O => memo
  | S fuel =>
      match memo !! step_id s with
      | Some _ => memo
      | None =>
          foldl (λ memo from,
            match stepByID p from with
            | None => memo
            | Some upstream =>
                let memo := reaching fuel p state upstream memo in
                <[step_id s := memo_of memo (step_id s) ∪ passes_on state memo from]> memo
            end)
            (<[step_id s := own_sources p state s]> memo) (feeds p (step_id s))
      end
  end.

Definition taintSources (p : Pipeline) (step : Step) (state : runState) : list string :=
  sort_strings (elements (memo_of (reaching (S (length (pl_steps p))) p state step ∅) (step_id step))).

(** ** [command.go] *)

Definition CommandScheme : string := "command:".
Definition builtinScheme : string := "builtin:".

Record commandSpec : Type := mkCommandSpec { cs_Args : list string; cs_Env : gmap string string }.

Inductive CommandErr : Type := CommandDecoding (step : string) | CommandNoArgs (step : string).

(** [json.Unmarshal] of the specification is a parameter. *)
Definition commandFor (decode : string → option commandSpec) (step : Step)
    : result CommandErr (list string * gmap string string) :=
  let ref := step_plugin_ref step in
  if negb (has_prefix CommandScheme ref) then Ok ([], ∅)
  else match decode (trim_prefix CommandScheme ref) with
       | None => Err (CommandDecoding (step_id step))
       | Some spec => if decide (cs_Args spec = []) then Err (CommandNoArgs (step_id step))
                      else Ok (cs_Args spec, cs_Env spec)
       end.

(** [requirements], for a deployment on one platform. *)
Definition requirements (os arch : string) (step : Step) : Requirements :=
  mkRequirements os arch (step_capabilities step) (step_engine_type step).

(** [engine.CapsHash] and the dispatch subject. *)
Fixpoint Compact (l : list Capability) : list Capability :=
  match l with
  | x :: ((y :: _) as l') => if decide (x = y) then Compact l' else x :: Compact l'
  | _ => l
  end.

Definition normaliseCaps (caps : list Capability) : list Capability :=
  Compact (merge_sort cap_le (List.filter named caps)).

Definition CapsHash (sha256 : string → string) (caps : list Capability) : string :=
  String.substring 0 16 (hex_encode (sha256
    (String.concat "" (map (λ c, dec_Z (Capability_number c) +:+ String (Ascii.ascii_of_N 10) "") (normaliseCaps caps))))).

Definition SubjectDispatch (tier capsHash : string) : string := "job.dispatch." +:+ tier +:+ "." +:+ capsHash.
Definition SubjectDispatchKind (tier capsHash kind : string) : string :=
  SubjectDispatch tier capsHash +:+ "." +:+ kind.

Definition dispatchSubject (sha256 : string → string) (tier : string) (step : Step) : string :=
  let h := CapsHash sha256 (step_capabilities step) in
  if decide (step_engine_type step ≠ "") then SubjectDispatchKind tier h (step_engine_type step)
  else SubjectDispatch tier h.

(** [offerGrace]. *)
Definition DefaultLeaseTTL : Z := 30 * Second.
Definition minOfferGrace : Z := 10 * Second.
Definition offerGrace (ttl : Z) : Z := Z.max ttl minOfferGrace.

(** [stepKey]. *)
Definition stepKey (tenantID runID stepID : string) : string :=
  tenantID +:+ String Ascii.zero (runID +:+ String Ascii.zero stepID).
