(* ===== verification/DynamicFacts.v ===== *)
(** * What splicing and realising a fragment guarantee *)

From S2P Require Import Prelude Bytes Proto Dag DagFacts RunStore RunStoreFacts Dynamic.

(** ** The graft, declaratively *)

(** The edges from the generator's ports to the entry steps' inputs of the
    same name, in the fragment's order. *)
Definition entry_inputs (fragment : Pipeline) : list (Step * Port) :=
  flat_map (λ s, if hasIncoming fragment (step_id s) then [] else map (pair s) (step_inputs s)) (pl_steps fragment).

Definition grafted_edges (at_ : string) (fragment : Pipeline) : list Edge :=
  map (λ sp, mkEdge at_ (port_name sp.2) (step_id sp.1) (port_name sp.2)) (entry_inputs fragment).

Definition spliced_pipeline (parent : Pipeline) (at_ : string) (fragment : Pipeline) : Pipeline :=
  mkPipeline (pl_id parent) (pl_steps parent ++ pl_steps fragment)
    (pl_edges parent ++ pl_edges fragment ++ grafted_edges at_ fragment) (pl_files parent).

Definition produces (anchor : Step) (name : string) : Prop := is_Some (findPort (step_outputs anchor) name).

Lemma graft_input_fold anchor at_ s ports acc :
  let r := foldl (graft_input anchor at_ s) acc ports in
  (r.2 = [] ↔ acc.2 = [] ∧ ∀ p, p ∈ ports → produces anchor (port_name p)) ∧
  (r.2 = [] → r.1 = acc.1 ++ map (λ p, mkEdge at_ (port_name p) (step_id s) (port_name p)) ports).
Proof.
  revert acc. induction ports as [|p ports IH]; intros acc; cbn [foldl map].
  - split; [|by rewrite app_nil_r]. split; [|tauto]. intros Ha. split; [done|]. by intros ? ?%elem_of_nil.
  - destruct (IH (graft_input anchor at_ s acc p)) as [IH1 IH2]. unfold graft_input in *.
    destruct (findPort _ (port_name p)) eqn:Ef; simpl in *; split.
    + rewrite IH1. split; intros [Ha Hall]; (split; [done|]).
      * intros q [->|Hq]%elem_of_cons; [by exists p0|by apply Hall].
      * intros q Hq. apply Hall. by right.
    + intros Hn. rewrite IH2 by done. by rewrite <-app_assoc.
    + rewrite IH1, app_nil. split; [by intros [[_ ?] _]|]. intros [_ Hall].
      destruct (Hall p ltac:(by left)) as [q Hq]. congruence.
    + intros Hn. apply IH1 in Hn as [Hn _]. by apply app_nil in Hn as [_ ?].
Qed.

Lemma graft_spec anchor at_ fragment :
  let r := graft anchor at_ fragment in
  (r.2 = [] ↔ ∀ sp, sp ∈ entry_inputs fragment → produces anchor (port_name sp.2)) ∧
  (r.2 = [] → r.1 = grafted_edges at_ fragment).
Proof.
  unfold graft, grafted_edges, entry_inputs.
  assert (Hgen : ∀ steps acc,
    let r := foldl (λ acc s, if hasIncoming fragment (step_id s) then acc
                  else foldl (graft_input anchor at_ s) acc (step_inputs s)) acc steps in
    let ins := flat_map (λ s, if hasIncoming fragment (step_id s) then [] else map (pair s) (step_inputs s)) steps in
    (r.2 = [] ↔ acc.2 = [] ∧ ∀ sp, sp ∈ ins → produces anchor (port_name sp.2)) ∧
    (r.2 = [] → r.1 = acc.1 ++ map (λ sp, mkEdge at_ (port_name sp.2) (step_id sp.1) (port_name sp.2)) ins)).
  { induction steps as [|s steps IH]; intros acc; cbn [foldl flat_map].
    - split; [|by rewrite app_nil_r]. split; [|tauto]. intros Ha. split; [done|]. by intros ? ?%elem_of_nil.
    - destruct (hasIncoming fragment (step_id s)); [by apply IH|].
      destruct (IH (foldl (graft_input anchor at_ s) acc (step_inputs s))) as [IH1 IH2].
      destruct (graft_input_fold anchor at_ s (step_inputs s) acc) as [G1 G2]. split.
      + rewrite IH1, G1. setoid_rewrite elem_of_app. setoid_rewrite list_elem_of_fmap. split.
        * intros [[Ha Hp] Hs]. split; [done|]. intros sp [(p & -> & Hin)|Hin]; auto.
        * intros [Ha Hall]. split_and!; [done| |by auto]. intros p Hp. apply (Hall (s, p)). left. eauto.
      + intros Hn. rewrite IH2 by done. apply IH1 in Hn as [Hn _]. rewrite G2 by done.
        rewrite map_app, app_assoc. f_equal. f_equal. rewrite map_map. done. }
  destruct (Hgen (pl_steps fragment) ([], [])) as [G1 G2]. simpl in *. split; [|done].
  rewrite G1. split; [by intros [_ ?]|by split].
Qed.

Lemma claim_ids_spec at_ steps known :
  is_ok (fold_result (claim_id at_) known steps) = true ↔
  "" ∉ map step_id steps ∧ NoDup (map step_id steps) ∧ ∀ id, id ∈ map step_id steps → id ∉ known.
Proof.
  revert known. induction steps as [|s steps IH]; intros known; cbn [fold_result map].
  - split; [|done]. intros _. split_and!; [by intros ?%elem_of_nil|constructor|by intros ? ?%elem_of_nil].
  - assert (Hc : claim_id at_ known s = if decide (step_id s = "") then Err (ErrDuplicateStepID at_ "")
      else if decide (step_id s ∈ known) then Err (ErrDuplicateStepID at_ (step_id s))
      else Ok ({[step_id s]} ∪ known)) by done.
    rewrite Hc, NoDup_cons, not_elem_of_cons. clear Hc. destruct (decide (step_id s = "")) as [->|Hne]; simpl.
    { split; [done|]. by intros ([Hx _] & _). }
    destruct (decide (step_id s ∈ known)); simpl.
    { split; [done|]. intros (_ & _ & Hf). by destruct (Hf (step_id s)); [left|]. }
    rewrite IH. setoid_rewrite elem_of_cons. split.
    + intros (H1 & H2 & H3). split_and!; [done..| |done|].
      * intros Hin. apply (H3 _ Hin). set_solver.
      * intros id [->|Hin]; [done|]. specialize (H3 _ Hin). set_solver.
    + intros ([_ H1] & [H2 H3] & H4). split_and!; [done..|]. intros id Hin.
      assert (id ≠ step_id s) by congruence. specialize (H4 id (or_intror Hin)). set_solver.
Qed.

(** What [Splice] demands of a fragment. *)
Record fits (parent : Pipeline) (at_ : string) (anchor : Step) (fragment : Pipeline) : Prop := mkFits
  { fit_at : findStep parent at_ = Some anchor;
    fit_steps : pl_steps fragment ≠ [];
    fit_named : "" ∉ step_ids fragment;
    fit_nodup : NoDup (step_ids fragment);
    fit_fresh id : id ∈ step_ids fragment → id ∉ step_ids parent;
    fit_produced sp : sp ∈ entry_inputs fragment → produces anchor (port_name sp.2);
    fit_build : is_ok (Build (Some (spliced_pipeline parent at_ fragment))) = true;
    fit_typed : TypeCheck (Some (spliced_pipeline parent at_ fragment)) = [] }.

Lemma splice_spec parent at_ fragment q :
  Splice (Some parent) at_ (Some fragment) = Ok q ↔
  (∃ anchor, fits parent at_ anchor fragment) ∧ q = spliced_pipeline parent at_ fragment.
Proof.
  unfold Splice. destruct (findStep parent at_) as [anchor|] eqn:Ea; [|split; [done|by intros [[a [Ha]] _]; congruence]].
  destruct (decide (pl_steps fragment = [])) as [He|He]; [split; [done|by intros [[a []] _]]|].
  pose proof (claim_ids_spec at_ (pl_steps fragment) (list_to_set (step_ids parent))) as Hc.
  setoid_rewrite elem_of_list_to_set in Hc.
  destruct (fold_result _ _ _) as [k|e]; cbn [is_ok mbind result_bind] in Hc |- *.
  2:{ split; [done|]. intros [[a [Ha Hs Hn Hd Hf _ _ _]] _]. destruct Hc as [_ Hc]. discriminate Hc. by split_and!. }
  destruct (proj1 Hc eq_refl) as (Hn & Hd & Hf). clear Hc.
  destruct (graft anchor at_ fragment) as [edges diags] eqn:Eg.
  destruct (graft_spec anchor at_ fragment) as [G1 G2]. rewrite Eg in G1, G2. simpl in G1, G2.
  cbv zeta. split.
  - destruct (Build (Some _)) as [g|] eqn:Eb; [|done]. case_decide as Hdg; [|done]. intros [= <-].
    apply app_nil in Hdg as [Hdg Ht]. apply fmap_nil_inv in Ht. rewrite G2 in Ht, Eb |- * by done.
    split; [|done]. exists anchor. split; try done.
    + by apply G1.
    + unfold spliced_pipeline. by rewrite Eb.
  - intros [[a [Ha _ _ _ _ Hp Hb Ht]] ->]. assert (a = anchor) as -> by congruence.
    assert (diags = []) as -> by by apply G1. rewrite G2 by done.
    fold (spliced_pipeline parent at_ fragment). destruct (Build (Some _)); [|done]. by rewrite Ht.
Qed.

(** A fragment is spliced exactly when it is not empty, the generator is a
    step of the graph, its step ids are non-empty, distinct and unused, every
    port an entry step consumes is one the generator produces, and the
    spliced graph passes both checks an authored one gets: it is a DAG and it
    type-checks. What is spliced is then the authored graph unchanged, with the
    fragment's steps and edges after it and one edge per entry input from the
    generator's port of that name. *)
Theorem splice_exactly_when (parent : Pipeline) (at_ : string) (fragment q : Pipeline) :
  Splice (Some parent) at_ (Some fragment) = Ok q ↔
  (∃ anchor, findStep parent at_ = Some anchor
     ∧ ∀ sp, sp ∈ entry_inputs fragment → produces anchor (port_name sp.2))
  ∧ pl_steps fragment ≠ [] ∧ "" ∉ step_ids fragment ∧ NoDup (step_ids fragment)
  ∧ (∀ id, id ∈ step_ids fragment → id ∉ step_ids parent)
  ∧ is_ok (Build (Some q)) = true ∧ TypeCheck (Some q) = []
  ∧ q = spliced_pipeline parent at_ fragment.
Proof.
  rewrite splice_spec. split.
  - intros [[a [Ha Hs Hn Hd Hf Hp Hb Ht]] ->]. split_and!; try done. by exists a.
  - intros ((a & Ha & Hp) & Hs & Hn & Hd & Hf & Hb & Ht & ->). split; [|done]. by exists a.
Qed.

(** ** Realising *)

Section Realise.
Context `{GenCodecLaws} (dialect : Dialect) (tenantID : string).

(** The events other writers may append between two calls: anything but a
    fragment of this step of this run. *)
Definition foreign (runID stepID t : string) (e : Event) : Prop :=
  ¬ (t = tenantID ∧ ev_RunID e = runID ∧ ev_StepID e = stepID ∧ ev_Type e = EventFragmentRealised).

Inductive later (runID stepID : string) (db : DB) : DB → Prop :=
| later_here : later runID stepID db db
| later_append d t e db1 db2 :
    later runID stepID db db1 → foreign runID stepID t e → StoreAppend d t e db1 = (db2, Ok tt) →
    later runID stepID db db2.

Lemma recorded_permutation stepID evs evs' e :
  recorded stepID evs = Some e →
  (∃ rest, evs' ≡ₚ evs ++ rest ∧ Forall (λ x, ¬ (ev_Type x = EventFragmentRealised ∧ ev_StepID x = stepID)) rest) →
  (∀ x, x ∈ evs → ev_Type x = EventFragmentRealised → ev_StepID x = stepID → x = e) →
  recorded stepID evs' = Some e.
Proof.
  intros Hr (rest & Hp & Hrest) Hu. unfold recorded in *.
  set (f := λ x, bool_decide (ev_Type x = EventFragmentRealised) && bool_decide (ev_StepID x = stepID)) in *.
  assert (Hf : ∀ x, f x = true ↔ ev_Type x = EventFragmentRealised ∧ ev_StepID x = stepID).
  { intros x. unfold f. by rewrite andb_true_iff, !bool_decide_eq_true. }
  assert (Hall : ∀ x, x ∈ List.filter f evs' → x = e).
  { intros x Hx%list_elem_of_In%filter_In. destruct Hx as [Hin [Ht Hs]%Hf]. apply list_elem_of_In in Hin.
    rewrite Hp in Hin. apply elem_of_app in Hin as [Hin|Hin]; [by apply Hu|].
    rewrite Forall_forall in Hrest. by destruct (Hrest x Hin). }
  assert (He : e ∈ List.filter f evs').
  { apply last_Some in Hr as [l Hl]. assert (Hin : In e (List.filter f evs)) by (rewrite Hl; apply in_app_iff; right; by left).
    apply filter_In in Hin as [Hin Hfe]. apply list_elem_of_In, filter_In. split; [|done].
    apply list_elem_of_In. rewrite Hp. apply elem_of_app. left. by apply list_elem_of_In. }
  destruct (last (List.filter f evs')) as [x|] eqn:El.
  - f_equal. apply Hall. apply last_Some in El as [l ->]. set_solver.
  - apply last_None in El. rewrite El in He. by apply elem_of_nil in He.
Qed.

(** One fragment of this step is in the log, and it says [q]. *)
Definition settled (runID stepID : string) (e : Event) (db : DB) : Prop :=
  ∃ evs, Replay tenantID runID db = Ok evs ∧ recorded stepID evs = Some e ∧
    ∀ x, x ∈ evs → ev_Type x = EventFragmentRealised → ev_StepID x = stepID → x = e.

Lemma later_settled runID stepID e db db' :
  later runID stepID db db' → settled runID stepID e db → settled runID stepID e db'.
Proof.
  induction 1 as [|d t x db1 db2 Hl IH Hf Hs]; [done|]. intros Hset.
  destruct (IH Hset) as (evs & Hev & Hr & Hu). clear IH.
  destruct (Replay_append _ _ _ _ _ _ _ _ Hs Hev) as (evs' & Hev' & Hp).
  assert (Hx : ∀ y, y ∈ (if decide (t = tenantID ∧ ev_RunID x = runID ∧ written db1 t x = true)
                         then [positioned db1 t x] else []) →
    ¬ (ev_Type y = EventFragmentRealised ∧ ev_StepID y = stepID)).
  { intros y. case_decide as Hd; [|by intros ?%elem_of_nil]. intros ->%list_elem_of_singleton [Ht Hst].
    assert (Hpos : ev_Type (positioned db1 t x) = ev_Type x ∧ ev_StepID (positioned db1 t x) = ev_StepID x)
      by (unfold positioned; by case_decide).
    destruct Hpos as [Ept Eps]. apply Hf. rewrite <-Ept, <-Eps. by destruct_and!. }
  exists evs'. split_and!; [done| |].
  - eapply recorded_permutation; [done| |done]. eexists. split; [exact Hp|]. by apply Forall_forall.
  - intros y Hy Ht Hst. rewrite Hp in Hy. apply elem_of_app in Hy as [Hy|Hy]; [by apply Hu|].
    by destruct (Hx y Hy).
Qed.

(** ** What [Realise] writes *)

Lemma expansions_permutation l k : l ≡ₚ k → expansions l = expansions k.
Proof. unfold expansions. intros Hp. f_equal. induction Hp; simpl; repeat case_match; simpl; lia. Qed.

Lemma expansions_snoc l e :
  expansions (l ++ [e]) = expansions l + (if decide (ev_Type e = EventFragmentRealised) then 1 else 0).
Proof.
  unfold expansions. rewrite List.filter_app, length_app. simpl.
  destruct (decide (ev_Type e = EventFragmentRealised)) as [Hd|Hd];
    [rewrite bool_decide_true by done|rewrite bool_decide_false by done]; simpl; lia.
Qed.

(** One of the generator's own records, appended: always written, and the run
    replays it. *)
Lemma record_spec now runID stepID kind rec db db' r evs :
  kind ∈ [EventFragmentRealised; EventCeilingReached; EventFailed] →
  record dialect tenantID now runID stepID kind rec db = (db', r) → Replay tenantID runID db = Ok evs →
  ∃ evs', Replay tenantID runID db' = Ok evs' ∧
    match r with
    | Ok _ => ∃ e, evs' ≡ₚ evs ++ [e] ∧ ev_StepID e = stepID ∧ ev_Type e = kind ∧ ev_Payload e = enc_record rec
    | Err _ => evs' = evs
    end.
Proof.
  intros Hk. unfold record. set (e := mkEvent _ _ _ _ _ _ _).
  destruct (StoreAppend _ _ e db) as [db1 [[]|err]] eqn:Es; intros [= <- <-] Hev.
  2:{ apply Append_Err in Es as [-> _]. by exists evs. }
  destruct (Replay_append _ _ _ _ _ _ _ _ Es Hev) as (evs' & Hev' & Hp). exists evs'. split; [done|].
  rewrite decide_True in Hp.
  - exists (positioned db tenantID e). split; [done|]. unfold positioned. by case_decide.
  - split_and!; [done..|]. apply append_fresh; [done| |].
    + by repeat (apply elem_of_cons in Hk as [->|Hk]; [reflexivity|]); apply elem_of_nil in Hk.
    + repeat (apply elem_of_cons in Hk as [->|Hk]; [by vm_compute; set_solver|]). by apply elem_of_nil in Hk.
Qed.

Lemma expansions_same evs evs' e :
  evs' ≡ₚ evs ++ [e] → ev_Type e ≠ EventFragmentRealised → expansions evs' = expansions evs.
Proof. intros Hp Ht. rewrite (expansions_permutation _ _ Hp), expansions_snoc, decide_False by done. lia. Qed.

(** The one new row of a first expansion. *)
Definition realised_row (stepID : string) (parent q : Pipeline) (evs evs' : list Event) (e : Event) : Prop :=
  evs' ≡ₚ evs ++ [e] ∧ ev_StepID e = stepID ∧ ev_Type e = EventFragmentRealised
  ∧ splice_recorded parent stepID e = Ok q.

Lemma gen_fail_spec now runID stepID reason cause db db' r evs :
  gen_fail dialect tenantID now runID stepID reason cause db = (db', r) → Replay tenantID runID db = Ok evs →
  ∃ evs', Replay tenantID runID db' = Ok evs' ∧ expansions evs' = expansions evs ∧ ∃ err, r = Err err.
Proof.
  unfold gen_fail. destruct (record _ _ _ _ _ _ _ _) as [db1 r1] eqn:Er. intros Hf Hev.
  destruct (record_spec _ _ _ _ _ _ _ _ _ ltac:(by right; right; left) Er Hev) as (evs' & Hev' & Hr).
  exists evs'. destruct r1 as [u|[]]; simplify_eq; split_and!; eauto.
  destruct Hr as (e & Hp & _ & Ht & _). apply (expansions_same _ _ e Hp). by rewrite Ht.
Qed.

Lemma expand_spec now emit Error runID stepID parent db db' r evs :
  expand dialect tenantID now emit Error runID stepID parent db = (db', r) → Replay tenantID runID db = Ok evs →
  ∃ evs', Replay tenantID runID db' = Ok evs' ∧
    (expansions evs' = expansions evs ∧ (∃ err, r = Err err)
     ∨ ∃ q e, r = Ok q ∧ realised_row stepID parent q evs evs' e).
Proof.
  unfold expand. intros Hx Hev. destruct (emit _) as [fragment|err].
  2:{ destruct (gen_fail_spec _ _ _ _ _ _ _ _ _ Hx Hev) as (evs' & ? & ? & ?). eauto. }
  destruct (Splice (Some parent) stepID fragment) as [q|err] eqn:Es.
  2:{ destruct (gen_fail_spec _ _ _ _ _ _ _ _ _ Hx Hev) as (evs' & ? & ? & ?). eauto. }
  destruct (fragment ≫= enc_pipeline) as [encoded|] eqn:Ec.
  2:{ simplify_eq. exists evs. eauto. }
  destruct fragment as [fragment|]; [|done]. simpl in Ec.
  destruct (record _ _ _ _ _ _ _ _) as [db1 r1] eqn:Er.
  destruct (record_spec _ _ _ _ _ _ _ _ _ ltac:(by left) Er Hev) as (evs' & Hev' & Hr).
  exists evs'. destruct r1 as [u|err]; simplify_eq; (split; [done|]); [right|left; subst; eauto].
  destruct Hr as (e & Hp & Hs & Ht & Hpay). exists q, e. split; [done|]. split_and!; [done..|].
  unfold splice_recorded, UnmarshalRecord. rewrite Hpay.
  pose proof (dec_enc_record (mkGenRecord stepID (default [] (step_ids <$> Some fragment)) "" encoded)) as Hrec.
  destruct (dec_record _) as [rec|]; [|done]. injection Hrec as Hrec. cbn [mbind result_bind].
  apply splice_spec in Es as Hfit. destruct Hfit as [[a [_ Hst _ _ _ _ _ _]] _].
  unfold Fragment. rewrite Hrec. cbn [gr_Encoded].
  rewrite decide_False by (by apply (enc_pipeline_steps _ _ Ec)). by rewrite (dec_enc_pipeline _ _ Ec).
Qed.

Lemma realise_log maxExpansions now emit Error runID stepID parent db db' r evs :
  Realise dialect tenantID maxExpansions now emit Error runID stepID (Some parent) db = (db', r) →
  Replay tenantID runID db = Ok evs →
  ∃ evs', Replay tenantID runID db' = Ok evs' ∧
    (expansions evs' = expansions evs ∧ (recorded stepID evs = None → ∃ err, r = Err err)
     ∨ recorded stepID evs = None ∧ expansions evs < maxExpansions
       ∧ ∃ q e, r = Ok q ∧ realised_row stepID parent q evs evs' e).
Proof.
  unfold Realise. case_decide; [intros [= <- <-] Hev; eauto 8|]. intros Hx Hev. rewrite Hev in Hx.
  destruct (recorded stepID evs) as [e|] eqn:Er; [simplify_eq; exists evs; split; [done|]; left; by split|].
  destruct (decide (maxExpansions ≤ expansions evs)) as [Hm|Hm].
  - destruct (record _ _ _ _ _ _ _ _) as [db1 r1] eqn:Erec. 
    destruct (record_spec _ _ _ _ _ _ _ _ _ ltac:(by right; left) Erec Hev) as (evs' & Hev' & Hr).
    exists evs'. destruct r1 as [u|err]; simplify_eq; (split; [done|]); left; [|subst; eauto].
    destruct Hr as (e & Hp & _ & Ht & _). split; [|eauto]. apply (expansions_same _ _ e Hp). by rewrite Ht.
  - destruct (expand_spec _ _ _ _ _ _ _ _ _ _ Hx Hev) as (evs' & Hev' & [[He Hr]|Hr]);
      exists evs'; (split; [done|]); [by left|right]. split_and!; [done|lia|done].
Qed.

(** A replay is the run that happened. The first time a generator is
    realised its fragment is written to the run's log; from then on, whatever
    else is appended by anyone, and whatever the generator would now answer
    and whatever the ceiling now is, realising the step over the same graph
    gives that same graph and writes nothing. *)
Theorem realise_replays (maxExpansions now : Z) emit Error (runID stepID : string) (parent q : Pipeline)
    (db db' db'' : DB) (evs : list Event) :
  Replay tenantID runID db = Ok evs → recorded stepID evs = None →
  Realise dialect tenantID maxExpansions now emit Error runID stepID (Some parent) db = (db', Ok q) →
  later runID stepID db' db'' →
  ∀ max' now' emit' Error',
    Realise dialect tenantID max' now' emit' Error' runID stepID (Some parent) db'' = (db'', Ok q).
Proof.
  intros Hev Hn Hx Hl max' now' emit' Error'.
  assert (Hid : ¬ (runID = "" ∨ stepID = "")) by (intros Hid; unfold Realise in Hx; by rewrite decide_True in Hx).
  destruct (realise_log _ _ _ _ _ _ _ _ _ _ _ Hx Hev) as (evs1 & Hev1 & [[_ Hr]|(_ & _ & q' & e & [= <-] & He)]).
  { destruct (Hr Hn) as [err ?]. done. }
  destruct He as (Hp & Hs & Ht & Hsp). unfold Realise. rewrite decide_False by done.
  assert (Hold : ∀ x, x ∈ evs → ¬ (ev_Type x = EventFragmentRealised ∧ ev_StepID x = stepID)).
  { intros x Hin [Hxt Hxs]. unfold recorded in Hn. apply last_None in Hn.
    apply (elem_of_nil x). rewrite <-Hn. apply list_elem_of_In, filter_In. split; [by apply list_elem_of_In|].
    by rewrite andb_true_iff, !bool_decide_eq_true. }
  assert (Hset : settled runID stepID e db').
  { exists evs1. split_and!; [done| |].
    - apply (recorded_permutation stepID [e]); [|exists evs; split; [by rewrite Hp, (Permutation_app_comm evs [e])|by apply Forall_forall]|set_solver].
      unfold recorded. simpl. by rewrite !bool_decide_true.
    - intros x Hin Hxt Hxs. rewrite Hp in Hin. apply elem_of_app in Hin as [Hin|Hin%list_elem_of_singleton]; [|done].
      by destruct (Hold x Hin). }
  destruct (later_settled _ _ _ _ _ Hl Hset) as (evs2 & Hev2 & Hr2 & _). by rewrite Hev2, Hr2, Hsp.
Qed.

(** One ceiling for the whole run: a call records a fragment only if it
    returns the spliced graph, this generator had none, and the run had
    realised fewer fragments than the ceiling; it then records exactly one.
    So no sequence of calls, nested generators included, takes a run past the
    larger of the ceiling and what it already had, and a generator that fails
    or is refused records no fragment. *)
Theorem realise_is_bounded (maxExpansions now : Z) emit Error (runID stepID : string) (parent : Pipeline)
    (db db' : DB) (r : result DynErr Pipeline) (evs : list Event) :
  Replay tenantID runID db = Ok evs →
  Realise dialect tenantID maxExpansions now emit Error runID stepID (Some parent) db = (db', r) →
  ∃ evs', Replay tenantID runID db' = Ok evs' ∧
    expansions evs ≤ expansions evs' ≤ Z.max (expansions evs) maxExpansions ∧
    (expansions evs' ≠ expansions evs →
       is_ok r = true ∧ recorded stepID evs = None ∧ expansions evs < maxExpansions
       ∧ expansions evs' = expansions evs + 1).
Proof.
  intros Hev Hx.
  destruct (realise_log _ _ _ _ _ _ _ _ _ _ _ Hx Hev) as (evs' & Hev' & [[He _]|(Hn & Hm & q & e & -> & Hrow)]);
    exists evs'; (split; [done|]); [rewrite He; split; [lia|done]|].
  destruct Hrow as (Hp & _ & Ht & _).
  rewrite (expansions_permutation _ _ Hp), expansions_snoc, decide_True by done. split; [lia|done].
Qed.

End Realise.

(** ** Worked examples *)

#[export] Instance FileInput_eq_dec : EqDecision FileInput.
Proof. solve_decision. Defined.
#[export] Instance StepSecret_eq_dec : EqDecision StepSecret.
Proof. solve_decision. Defined.
#[export] Instance File_eq_dec : EqDecision File.
Proof. solve_decision. Defined.
#[export] Instance Step_eq_dec : EqDecision Step.
Proof. solve_decision. Defined.
#[export] Instance Pipeline_eq_dec : EqDecision Pipeline.
Proof. solve_decision. Defined.

Definition ex_parent : Pipeline :=
  mkPipeline "ci" [ex_step "gen" [] [ex_blob "row"] []; ex_step "report" [ex_blob "row"] [] []]
    [mkEdge "gen" "row" "report" "row"] [].
Definition ex_fragment : Pipeline :=
  mkPipeline "" [ex_step "row1" [ex_blob "row"] [ex_blob "out"] []; ex_step "sum1" [ex_blob "in"] [] []]
    [mkEdge "row1" "out" "sum1" "in"] [].

(** A codec for the one fragment of the example. *)
#[local] Instance ex_codec : GenCodec :=
  {| enc_record r := gr_Encoded r; dec_record s := Some (mkGenRecord "" [] "" s);
     enc_pipeline p := if decide (p = ex_fragment) then Some "rows" else None;
     dec_pipeline s := if decide (s = "rows") then Some ex_fragment else None |}.
#[local] Instance ex_codec_laws : GenCodecLaws.
Proof.
  split.
  - intros r. reflexivity.
  - intros p b. cbn. case_decide as Hp; [|discriminate]. intros [= <-]. cbn. by rewrite Hp.
  - intros p b. cbn. case_decide; [|discriminate]. by intros [= <-].
Defined.

Definition ex_realise (emit : EmitInput → result string (option Pipeline)) : prog DB DynErr Pipeline :=
  Realise DialectSQLite "t" 1 0 emit (λ _, "") "r1" "gen" (Some ex_parent).
Definition ex_db : DB := (ex_realise (λ _, Ok (Some ex_fragment)) empty_db).1.

Lemma realise_replays_witness :
  Replay "t" "r1" empty_db = Ok [] ∧
  ex_realise (λ _, Err "the API is down") ex_db = (ex_db, Ok (spliced_pipeline ex_parent "gen" ex_fragment)).
Proof.
  split; [reflexivity|].
  apply (realise_replays DialectSQLite "t" 1 0 (λ _, Ok (Some ex_fragment)) (λ _, "") "r1" "gen" ex_parent
           (spliced_pipeline ex_parent "gen" ex_fragment) empty_db ex_db ex_db []).
  - reflexivity.
  - reflexivity.
  - vm_compute. reflexivity.
  - apply later_here.
Defined.

Lemma realise_is_bounded_witness :
  ∃ evs', Replay "t" "r1" ex_db = Ok evs' ∧ 0 ≤ expansions evs' ≤ 1.
Proof.
  destruct (realise_is_bounded DialectSQLite "t" 1 0 (λ _, Ok (Some ex_fragment)) (λ _, "") "r1" "gen" ex_parent
    empty_db ex_db (Ok (spliced_pipeline ex_parent "gen" ex_fragment)) []) as (evs' & Hev & Hb & _).
  - reflexivity.
  - vm_compute. reflexivity.
  - exists evs'. split; [exact Hev|exact Hb].
Defined.
