(* ===== verification/SchedFacts.v ===== *)
(** * What the scheduler's decisions guarantee *)

From S2P Require Import Prelude Bytes Proto Dag DagFacts Effects Cache Taint RunStore.
From S2P Require Import Dynamic Fleet Sched.

(** ** Fence tokens *)

Lemma fence_prefix_no_dot : string_all (λ d, negb (Ascii.eqb d (Ascii.ascii_of_N 46))) fencePrefix = true.
Proof. reflexivity. Qed.

Lemma EncodeFence_split tenantID value fence :
  0 ≤ fence →
  split_on (Ascii.ascii_of_N 46) (EncodeFence tenantID value fence)
  = [fencePrefix; b64_encode tenantID; b64_encode value; dec_Z fence].
Proof.
  intros Hf. unfold EncodeFence. cbn [join].
  assert (Edot : ∀ s, "." +:+ s = String (Ascii.ascii_of_N 46) s) by reflexivity. rewrite !Edot.
  rewrite split_on_app by reflexivity. f_equal.
  rewrite split_on_app by (by apply b64_encode_no_sep). f_equal.
  rewrite split_on_app by (by apply b64_encode_no_sep). f_equal.
  apply split_on_none. rewrite dec_Z_nonneg by done. apply digits_no_sep; [done|apply dec_N_digits].
Qed.

Lemma DecodeFence_EncodeFence tenantID value fence :
  0 ≤ fence < two64 → DecodeFence (EncodeFence tenantID value fence) = Ok (tenantID, (value, fence)).
Proof.
  intros Hf. unfold DecodeFence. rewrite EncodeFence_split by lia.
  rewrite decide_False by auto. rewrite !b64_decode_encode, dec_Z_nonneg by lia.
  rewrite parse_dec_N by (rewrite Z2N.id; lia). by rewrite Z2N.id by lia.
Qed.

(** ** The predecessors [plan] reads *)

Lemma add_preds_spec from ds m y x :
  x ∈ get_list (foldl (add_pred from) m ds) y ↔ x ∈ get_list m y ∨ x = from ∧ y ∈ ds.
Proof.
  revert m. induction ds as [|d ds IH]; intros m; simpl.
  { split; [by left|]. intros [|[_ ?%elem_of_nil]]; done. }
  rewrite IH. unfold add_pred. rewrite get_list_insert. case_decide as Hd.
  - subst. rewrite elem_of_app, list_elem_of_singleton, elem_of_cons. tauto.
  - rewrite elem_of_cons. split; [tauto|]. intros [|[? [->|?]]]; tauto.
Qed.

Lemma predecessorsOf_spec p g x y :
  graph_of p g → x ∈ get_list (predecessorsOf p g) y ↔ edge_rel p x y.
Proof.
  intros Hg. unfold predecessorsOf.
  assert (Hfold : ∀ steps m, x ∈ get_list (foldl (λ m s, foldl (add_pred (step_id s)) m (Dependents g (step_id s))) m steps) y
    ↔ x ∈ get_list m y ∨ ∃ s, s ∈ steps ∧ step_id s = x ∧ y ∈ Dependents g x).
  { induction steps as [|s steps IH]; intros m; simpl.
    - split; [by left|]. intros [|(s & ?%elem_of_nil & _)]; done.
    - rewrite IH, add_preds_spec. split.
      + intros [[H|[-> Hd]]|(s' & H & E & Hd)]; [by left|right|right].
        * exists s. split_and!; [by left|done|done].
        * exists s'. split_and!; [by right|done|done].
      + intros [H|(s' & [->|H]%elem_of_cons & E & Hd)]; [by left; left|left; right|right; eauto].
        by subst. }
  rewrite Hfold. unfold get_list at 1. rewrite lookup_empty. simpl. split.
  - intros [?%elem_of_nil|(s & _ & _ & Hd)]; [done|]. by apply (go_edge p g Hg).
  - intros He. right. destruct (go_known p g Hg x y He) as [Hx _].
    apply list_elem_of_fmap in Hx as (s & E & Hs). exists s. split_and!; [done..|]. by apply (go_edge p g Hg).
Qed.

(** ** [plan], step by step *)

(** What the plan says of one step. *)
Inductive verdict : Type := VReady | VInFlight | VWaiting | VBlocked | VExhausted | VSucceeded | VHeld.

#[export] Instance verdict_eq_dec : EqDecision verdict.
Proof. solve_decision. Defined.

Definition classify_verdict (step : Step) (state : runState) (now : Z) : verdict :=
  let retry := RetryPolicy (Some step) in
  let n := attempts_of state (step_id step) in
  if negb (AllowsRetry retry n) then if decide (MaxAttempts retry ≤ 1) then VBlocked else VExhausted
  else if decide (now < failedAt_of state (step_id step) + Backoff retry n) then VWaiting else VReady.

Definition step_verdict (preds : gmap string (list string)) (state : runState) (now : Z) (step : Step) : verdict :=
  let id := step_id step in
  if decide (terminal_of state id = StepSucceeded) then VSucceeded
  else if decide (terminal_of state id = StepFailed) then classify_verdict step state now
  else if decide (id ∈ st_gated state) then VWaiting
  else if decide (id ∈ st_resumed state) then VReady
  else if decide (0 < attempts_of state id) then VInFlight
  else if forallb (λ p, bool_decide (terminal_of state p = StepSucceeded)) (get_list preds id) then VReady
  else VHeld.

Definition note (s : Step) (v : verdict) (pl : planned) : planned :=
  match v with
  | VReady => ready_more s pl
  | VInFlight => inFlight_more pl
  | VWaiting => waiting_more pl
  | VBlocked => blocked_more s pl
  | VExhausted => exhausted_more (step_id s) pl
  | VSucceeded | VHeld => pl
  end.

Lemma plan_step_note preds state now pl s :
  plan_step preds state now pl s = note s (step_verdict preds state now s) pl.
Proof.
  unfold plan_step, step_verdict, classify, classify_verdict. cbv zeta.
  repeat (case_decide || case_match); done.
Qed.

(** The plan is the verdicts, counted. *)
Record plan_of (vs : list (Step * verdict)) (pl : planned) : Prop := mkPlanOf
  { po_ready s : s ∈ p_ready pl ↔ (s, VReady) ∈ vs;
    po_blocked s : s ∈ p_blocked pl ↔ (s, VBlocked) ∈ vs;
    po_exhausted id : id ∈ p_exhausted pl ↔ ∃ s, step_id s = id ∧ (s, VExhausted) ∈ vs;
    po_inFlight : p_inFlight pl = Z.of_nat (length (filter (λ x, x.2 = VInFlight) vs));
    po_waiting : p_waiting pl = Z.of_nat (length (filter (λ x, x.2 = VWaiting) vs)) }.

Lemma note_plan_of vs pl s v : plan_of vs pl → plan_of (vs ++ [(s, v)]) (note s v pl).
Proof.
  intros [H1 H2 H3 H4 H5].
  assert (Hlast : ∀ s' w, (s', w) ∈ vs ++ [(s, v)] ↔ (s', w) ∈ vs ∨ s' = s ∧ w = v).
  { intros s' w. rewrite elem_of_app, list_elem_of_singleton. split; intros [|]; simplify_eq; auto.
    destruct_and!; subst; auto. }
  assert (Hcount : ∀ w, length (filter (λ x : Step * verdict, x.2 = w) (vs ++ [(s, v)]))
    = (length (filter (λ x : Step * verdict, x.2 = w) vs) + if decide (v = w) then 1 else 0)%nat).
  { intros w. rewrite filter_app, length_app, filter_cons. f_equal. simpl. by case_decide. }
  split.
  - intros s'. rewrite Hlast. destruct v; simpl; rewrite ?elem_of_app, ?list_elem_of_singleton, H1; naive_solver.
  - intros s'. rewrite Hlast. destruct v; simpl; rewrite ?elem_of_app, ?list_elem_of_singleton, H2; naive_solver.
  - intros id. destruct v; simpl; rewrite ?elem_of_app, ?list_elem_of_singleton, H3; setoid_rewrite Hlast; naive_solver.
  - rewrite Hcount. destruct v; simpl; rewrite H4; lia.
  - rewrite Hcount. destruct v; simpl; rewrite H5; lia.
Qed.

Lemma plan_fold preds state now steps pl vs :
  plan_of vs pl →
  plan_of (vs ++ map (λ s, (s, step_verdict preds state now s)) steps)
    (foldl (plan_step preds state now) pl steps).
Proof.
  revert pl vs. induction steps as [|s steps IH]; intros pl vs Hpl; simpl; [by rewrite app_nil_r|].
  rewrite plan_step_note. specialize (IH _ _ (note_plan_of vs pl s (step_verdict preds state now s) Hpl)).
  by rewrite <-app_assoc in IH.
Qed.

Lemma plan_spec p g state now :
  plan_of (map (λ s, (s, step_verdict (predecessorsOf p g) state now s)) (pl_steps p)) (plan p g state now).
Proof.
  assert (He : plan_of [] empty_plan).
  { split; intros; simpl; try done; split; try by intros ?%elem_of_nil. intros (? & ? & ?%elem_of_nil). done. }
  pose proof (plan_fold (predecessorsOf p g) state now (pl_steps p) empty_plan [] He) as Hf. simpl in Hf.
  unfold plan. destruct Hf as [H1 H2 H3 H4 H5]. split; simpl; try done.
  intros s. rewrite <-H1. by rewrite merge_sort_Permutation.
Qed.

(** A step's verdict, read off the plan. *)
Lemma plan_verdict p g state now s v :
  s ∈ pl_steps p → step_verdict (predecessorsOf p g) state now s = v →
  (s, v) ∈ map (λ s, (s, step_verdict (predecessorsOf p g) state now s)) (pl_steps p).
Proof. intros Hs <-. apply list_elem_of_fmap. eauto. Qed.

Lemma plan_ready_verdict p g state now s :
  s ∈ p_ready (plan p g state now) ↔
  s ∈ pl_steps p ∧ step_verdict (predecessorsOf p g) state now s = VReady.
Proof.
  rewrite (po_ready _ _ (plan_spec p g state now)), list_elem_of_fmap. split.
  - intros (s' & [= <- Ev] & Hs). auto.
  - intros [Hs Ev]. exists s. by rewrite Ev.
Qed.

Lemma filter_none {A} (P : A → Prop) `{∀ x, Decision (P x)} l x : length (filter P l) = 0%nat → x ∈ l → ¬ P x.
Proof.
  intros Hl Hx HP. apply length_zero_iff_nil in Hl.
  apply (elem_of_nil x). rewrite <-Hl. by apply list_elem_of_filter.
Qed.

(** If the plan finds nothing ready, in flight, waiting, blocked or exhausted,
    then every step of the graph has succeeded: a step that failed, or sits
    behind one that did, always shows up somewhere in the plan. *)
Lemma completion_means_success (p : Pipeline) (g : Graph) (state : runState) (now : Z) :
  Build (Some p) = Ok g →
  let pl := plan p g state now in
  p_ready pl = [] → p_inFlight pl = 0 → p_waiting pl = 0 → p_blocked pl = [] → p_exhausted pl = [] →
  ∀ s, s ∈ pl_steps p → terminal_of state (step_id s) = StepSucceeded.
Proof.
  intros Hb pl Hr Hi Hw Hbl Hex. apply Build_Ok in Hb as (Hg & _ & Hac).
  pose proof (plan_spec p g state now) as Hpl. fold pl in Hpl.
  assert (Hv : ∀ s, s ∈ pl_steps p → step_verdict (predecessorsOf p g) state now s = VSucceeded
                              ∨ step_verdict (predecessorsOf p g) state now s = VHeld).
  { intros s Hs. destruct (step_verdict (predecessorsOf p g) state now s) eqn:Ev; auto;
      pose proof (plan_verdict _ _ _ _ _ _ Hs Ev) as Hin; exfalso.
    - apply (po_ready _ _ Hpl) in Hin. rewrite Hr in Hin. by apply elem_of_nil in Hin.
    - rewrite (po_inFlight _ _ Hpl) in Hi. eapply (filter_none (λ x, x.2 = VInFlight)); [|exact Hin|done]. lia.
    - rewrite (po_waiting _ _ Hpl) in Hw. eapply (filter_none (λ x, x.2 = VWaiting)); [|exact Hin|done]. lia.
    - apply (po_blocked _ _ Hpl) in Hin. rewrite Hbl in Hin. by apply elem_of_nil in Hin.
    - assert (Hid : step_id s ∈ p_exhausted pl) by (apply (po_exhausted _ _ Hpl); eauto).
      rewrite Hex in Hid. by apply elem_of_nil in Hid. }
  intros s Hs. destruct (decide (terminal_of state (step_id s) = StepSucceeded)) as [|Hns]; [done|]. exfalso.
  set (U := (list_to_set (filter (λ id, terminal_of state id ≠ StepSucceeded) (step_ids p)) : gset string)).
  assert (HU : ∀ id, id ∈ U ↔ terminal_of state id ≠ StepSucceeded ∧ id ∈ step_ids p).
  { intros id. unfold U. by rewrite elem_of_list_to_set, list_elem_of_filter. }
  destruct (no_source_cycle (edge_rel p) U) as [x Hx]; [| |by apply (Hac x)].
  - exists (step_id s). apply HU. split; [done|]. apply list_elem_of_fmap. eauto.
  - intros y [Hny Hy]%HU. apply list_elem_of_fmap in Hy as (sy & -> & Hsy).
    destruct (Hv sy Hsy) as [Ev|Ev]; unfold step_verdict in Ev; rewrite decide_False in Ev by done.
    + exfalso. revert Ev. unfold classify_verdict. repeat (case_decide || case_match); done.
    + assert (Hf : forallb (λ x, bool_decide (terminal_of state x = StepSucceeded))
                     (get_list (predecessorsOf p g) (step_id sy)) = false).
      { revert Ev. unfold classify_verdict. repeat (case_decide || case_match); done. }
      apply not_true_iff_false in Hf. rewrite forallb_forall in Hf.
      assert (Hex' : Exists (λ x, terminal_of state x ≠ StepSucceeded) (get_list (predecessorsOf p g) (step_id sy))).
      { apply not_Forall_Exists; [apply _|]. rewrite Forall_forall. intros Hall. apply Hf. intros x Hx.
        apply bool_decide_eq_true, Hall. by apply list_elem_of_In. }
      apply Exists_exists in Hex' as (x & Hx & Hnx). apply (predecessorsOf_spec p g x _ Hg) in Hx.
      exists x. split; [|done]. apply HU. split; [done|]. by apply (go_known p g Hg) in Hx as [].
Qed.

(** What entitles a step to be dispatched, told without the planner: its first
    attempt with every step that feeds it succeeded and no gate over it, its
    release from a gate, or a retry its class allows. *)
Definition entitled (p : Pipeline) (state : runState) (now : Z) (s : Step) : Prop :=
  let id := step_id s in
  s ∈ pl_steps p ∧ terminal_of state id ≠ StepSucceeded ∧
  ( terminal_of state id ≠ StepFailed ∧ id ∉ st_gated state ∧ attempts_of state id ≤ 0
      ∧ (∀ x, edge_rel p x id → terminal_of state x = StepSucceeded)
    ∨ terminal_of state id ≠ StepFailed ∧ id ∉ st_gated state ∧ id ∈ st_resumed state
    ∨ terminal_of state id = StepFailed
      ∧ (step_effect_class s = EFFECT_CLASS_PURE ∨ step_effect_class s = EFFECT_CLASS_IDEMPOTENT)
      ∧ attempts_of state id < 3
      ∧ failedAt_of state id + Backoff (RetryPolicy (Some s)) (attempts_of state id) ≤ now ).

Lemma planned_is_entitled p g state now s :
  Build (Some p) = Ok g → s ∈ p_ready (plan p g state now) → entitled p state now s.
Proof.
  unfold entitled. set (id := step_id s). intros Hb [Hs Hv]%plan_ready_verdict. apply Build_Ok in Hb as (Hg & _ & _). split; [done|].
  unfold step_verdict in Hv. fold id in Hv. destruct (decide (terminal_of state id = StepSucceeded)) as [|Hns]; [done|].
  split; [done|]. destruct (decide (terminal_of state id = StepFailed)) as [Hf|Hnf].
  - right; right. split; [done|]. unfold classify_verdict in Hv. fold id in Hv. cbv zeta in Hv.
    destruct (AllowsRetry _ _) eqn:Ha; simpl in Hv; [|by case_decide].
    case_decide as Hback; [done|]. split_and!; [..|lia].
    + revert Ha. unfold RetryPolicy. simpl. destruct (step_effect_class s); auto; done.
    + revert Ha. unfold AllowsRetry. rewrite andb_true_iff, !bool_decide_eq_true. unfold RetryPolicy. simpl.
      destruct (step_effect_class s); simpl; change (u32 3) with 3; change (u32 1) with 1; lia.
  - destruct (decide (id ∈ st_gated state)) as [|Hng]; [done|].
    destruct (decide (id ∈ st_resumed state)) as [Hre|_]; [by right; left|].
    destruct (decide (0 < attempts_of state id)) as [|Hat]; [done|].
    destruct (forallb _ _) eqn:Hp; [|done]. left. split_and!; [done..|lia|].
    intros x Hx. rewrite forallb_forall in Hp. apply (predecessorsOf_spec p g x id Hg), list_elem_of_In, Hp in Hx.
    by apply bool_decide_eq_true in Hx.
Qed.

(** C28: The only ways a step comes to be dispatched: for the first time, with
    every step that feeds it succeeded and no gate over it; released from a
    gate by a person; or retried, because its last attempt failed, its class
    is PURE or IDEMPOTENT, fewer than three attempts were made and the backoff
    has passed. In particular an at-most-once or undeclared step that was
    attempted is never dispatched again unless it was released, and a step
    that succeeded is never dispatched again. *)
Theorem ready_only_when (p : Pipeline) (g : Graph) (state : runState) (now : Z) (s : Step) :
  Build (Some p) = Ok g → s ∈ p_ready (plan p g state now) →
  let id := step_id s in
  s ∈ pl_steps p ∧ terminal_of state id ≠ StepSucceeded ∧
  ( terminal_of state id ≠ StepFailed ∧ id ∉ st_gated state ∧ attempts_of state id ≤ 0
      ∧ (∀ x, edge_rel p x id → terminal_of state x = StepSucceeded)
    ∨ terminal_of state id ≠ StepFailed ∧ id ∉ st_gated state ∧ id ∈ st_resumed state
    ∨ terminal_of state id = StepFailed
      ∧ (step_effect_class s = EFFECT_CLASS_PURE ∨ step_effect_class s = EFFECT_CLASS_IDEMPOTENT)
      ∧ attempts_of state id < 3
      ∧ failedAt_of state id + Backoff (RetryPolicy (Some s)) (attempts_of state id) ≤ now ).
Proof. apply planned_is_entitled. Qed.

(** ** What the fold keeps *)

Section LogFacts.
Context `{Payloads, GenCodec}.

Lemma fold_event_dispatched s e : ev_Type e = StepDispatched → fold_event s e = fold_dispatched s e.
Proof. intros Ht. unfold fold_event. rewrite Ht. reflexivity. Qed.

Lemma fold_event_succeeded s e :
  ev_Type e = StepSucceeded →
  fold_event s e = (status ← decoded e (UnmarshalStatus (ev_Payload e));
    Ok (set_outputs (<[ev_StepID e := js_Outputs status]> (st_outputs s))
          (set_terminal (<[ev_StepID e := StepSucceeded]> (st_terminal s)) s))).
Proof. intros Ht. unfold fold_event. rewrite Ht. reflexivity. Qed.

Lemma fold_event_lost s e :
  ev_Type e = StepAttemptLost →
  fold_event s e = Ok (if decide (attempts_of s (ev_StepID e) ≤ ev_Attempt e)
    then set_terminal (<[ev_StepID e := StepFailed]> (st_terminal s)) s else s).
Proof. intros Ht. unfold fold_event. rewrite Ht. reflexivity. Qed.

Definition dispatches (e : Event) (id : string) : bool :=
  bool_decide (ev_Type e = StepDispatched) && bool_decide (ev_StepID e = id).

Lemma fold_dispatched_spec s e s' :
  fold_dispatched s e = Ok s' →
  (∀ id, attempts_of s' id = if decide (ev_StepID e = id) then Z.max (attempts_of s id) (ev_Attempt e) else attempts_of s id)
  ∧ (∀ id, terminal_of s' id = if decide (ev_StepID e = id) then "" else terminal_of s id)
  ∧ (∀ id, id ∈ st_resumed s' ↔ id ∈ st_resumed s ∧ id ≠ ev_StepID e)
  ∧ st_completed s' = st_completed s ∧ st_created s' = st_created s ∧ st_gated s' = st_gated s
  ∧ st_outputs s' = st_outputs s.
Proof.
  unfold fold_dispatched. set (s1 := if decide _ then _ else s).
  assert (Hatt : ∀ id, attempts_of s1 id
    = if decide (ev_StepID e = id) then Z.max (attempts_of s id) (ev_Attempt e) else attempts_of s id).
  { intros id. unfold s1. destruct (decide (attempts_of s (ev_StepID e) < ev_Attempt e)) as [Hlt|Hge].
    - unfold attempts_of at 1. simpl. rewrite lookup_insert. case_decide; [subst; simpl; lia|done].
    - case_decide; [subst; lia|done]. }
  assert (Hs1 : st_terminal s1 = st_terminal s ∧ st_resumed s1 = st_resumed s ∧ st_completed s1 = st_completed s
    ∧ st_created s1 = st_created s ∧ st_gated s1 = st_gated s ∧ st_outputs s1 = st_outputs s).
  { unfold s1. by case_decide. }
  clearbody s1. destruct Hs1 as (Et & Er & Ec & Ecr & Eg & Eo).
  intros Hf. res_inv. subst s'. set (s2 := if decide _ then _ else s1).
  assert (Hs2 : st_attempts s2 = st_attempts s1 ∧ st_terminal s2 = st_terminal s1 ∧ st_resumed s2 = st_resumed s1
    ∧ st_completed s2 = st_completed s1 ∧ st_created s2 = st_created s1 ∧ st_gated s2 = st_gated s1
    ∧ st_outputs s2 = st_outputs s1).
  { unfold s2. by case_decide. }
  clearbody s2. destruct Hs2 as (Ea2 & Et2 & Er2 & Ec2 & Ecr2 & Eg2 & Eo2). split_and!; simpl; try congruence.
  - intros id. rewrite <-Hatt. unfold attempts_of. simpl. by rewrite Ea2.
  - intros id. unfold terminal_of. simpl. rewrite Et2, Et, lookup_delete. by case_decide.
  - intros id. rewrite Er2, Er. set_solver.
Qed.

(** The events that take a step out of flight. *)
Definition releases (e : Event) (id : string) : bool :=
  bool_decide (ev_StepID e = id)
  && (bool_decide (ev_Type e = StepSucceeded) || bool_decide (ev_Type e = StepFailed)
      || bool_decide (ev_Type e = StepAttemptLost) || bool_decide (ev_Type e = StepResumed)).

(** The events that give a step its standing or take it away. *)
Definition deciding (id : string) (e : Event) : bool :=
  bool_decide (ev_StepID e = id)
  && bool_decide (ev_Type e ∈ [StepDispatched; StepSucceeded; StepFailed; StepAttemptLost]).

(** The log's last word on the step is its success. *)
Definition settled (id : string) (evs : list Event) : bool :=
  match last (List.filter (deciding id) evs) with
  | Some e => bool_decide (ev_Type e = StepSucceeded)
  | None => false
  end.

Lemma fold_event_others s e s' :
  fold_event s e = Ok s' → ev_Type e ∉ [StepDispatched; StepSucceeded; StepFailed; StepAttemptLost] →
  st_terminal s' = st_terminal s.
Proof.
  rewrite !not_elem_of_cons. unfold fold_event. intros Hf (H1 & H2 & H3 & H4 & _).
  repeat (case_decide; [try done|]); res_inv; by simplify_eq/=.
Qed.

Lemma fold_event_elsewhere s e s' id :
  fold_event s e = Ok s' → ev_StepID e ≠ id → terminal_of s' id = terminal_of s id.
Proof.
  intros Hf Hne. destruct (decide (ev_Type e ∈ [StepDispatched; StepSucceeded; StepFailed; StepAttemptLost])) as [Hin|Hnin].
  2: { unfold terminal_of. by rewrite (fold_event_others s e s'). }
  rewrite !elem_of_cons in Hin. destruct Hin as [Ht|[Ht|[Ht|[Ht|[]%elem_of_nil]]]].
  - rewrite fold_event_dispatched in Hf by done. apply fold_dispatched_spec in Hf as (_ & -> & _). by rewrite decide_False.
  - rewrite fold_event_succeeded in Hf by done. res_inv. subst s'. unfold terminal_of. simpl. by rewrite lookup_insert_ne.
  - unfold fold_event in Hf. rewrite Ht in Hf. simpl in Hf. injection Hf as <-. unfold terminal_of. simpl.
    by rewrite lookup_insert_ne.
  - rewrite fold_event_lost in Hf by done. injection Hf as <-. case_decide; [|done]. unfold terminal_of. simpl.
    by rewrite lookup_insert_ne.
Qed.

Lemma fold_event_standing s e s' id :
  fold_event s e = Ok s' → deciding id e = false → terminal_of s' id = terminal_of s id.
Proof.
  intros Hf [Hd|Hd]%andb_false_iff; rewrite bool_decide_eq_false in Hd; [by eapply fold_event_elsewhere|].
  unfold terminal_of. by rewrite (fold_event_others s e s').
Qed.

(** Such a log makes the step succeeded. *)
Lemma load_settled id evs state :
  load_events evs = Ok state → settled id evs = true → terminal_of state id = StepSucceeded.
Proof.
  unfold load_events. intros Hl Hs. destruct (fold_result fold_event empty_state evs) as [s|] eqn:Ef; [|done].
  simpl in Hl. assert (s = state) as -> by (by destruct (st_created s); simplify_eq). clear Hl.
  revert state Ef Hs. induction evs as [|e evs IH] using rev_ind; intros state Ef Hs; [done|].
  rewrite fold_result_app in Ef. simpl in Ef. destruct (fold_result fold_event empty_state evs) as [s|] eqn:E1; [|done].
  simpl in Ef. res_inv. subst. unfold settled in Hs. rewrite List.filter_app in Hs. simpl in Hs.
  destruct (deciding id e) eqn:Ed.
  - rewrite last_snoc in Hs. apply bool_decide_eq_true in Hs. unfold deciding in Ed. apply andb_true_iff in Ed as [He _].
    apply bool_decide_eq_true in He. rewrite fold_event_succeeded in E by done. res_inv. subst.
    unfold terminal_of. simpl. by rewrite lookup_insert_eq.
  - rewrite app_nil_r in Hs. erewrite fold_event_standing by done. by apply IH.
Qed.

End LogFacts.

(** ** Worked examples *)

Definition ex_succeeded (ids : list string) : runState :=
  set_terminal (list_to_map (map (λ id, (id, StepSucceeded)) ids)) empty_state.

Definition ex_graph : Graph := match Build (Some ex_pipeline) with Ok g => g | Err _ => mkGraph [] ∅ ∅ end.

Lemma ex_graph_built : Build (Some ex_pipeline) = Ok ex_graph.
Proof. vm_compute. reflexivity. Qed.

Lemma ready_only_when_witness :
  ∃ s, s ∈ p_ready (plan ex_pipeline ex_graph (ex_succeeded ["build"]) 0) ∧ step_id s = "test"
    ∧ terminal_of (ex_succeeded ["build"]) (step_id s) ≠ StepSucceeded.
Proof.
  set (s := ex_step "test" [ex_blob "bin"] [ex_blob "report"] []).
  assert (Hs : s ∈ p_ready (plan ex_pipeline ex_graph (ex_succeeded ["build"]) 0)) by (vm_compute; left).
  exists s. split; [exact Hs|]. split; [reflexivity|].
  apply (ready_only_when ex_pipeline ex_graph (ex_succeeded ["build"]) 0 s ex_graph_built Hs).
Defined.
