(* ===== verification/Plane.v ===== *)
(** * What the scheduler acts on

    The calls [internal/scheduler] makes: to the run store, the leases, the
    fleet, policy, the cache, the queue, and to its own maps; the messages
    they carry, and a transaction around some of them. *)

From S2P Require Import Prelude Bytes Program Proto Policy Fleet Fairness Lease RunStore.

(** ** Messages *)

Record SecretRef : Type := mkSecretRef { sr_name : string; sr_handle : string; sr_expires_at : Z }.

Record JobDispatch : Type := mkJobDispatch
  { jd_RunId : string; jd_StepId : string; jd_Attempt : Z; jd_FenceToken : string; jd_Step : Step;
    jd_Inputs : list InputRef; jd_Secrets : list SecretRef; jd_OutputPrefix : string;
    jd_ProtocolVersion : Z; jd_Tenant : string; jd_Command : list string; jd_Env : gmap string string;
    jd_ConfirmAcceptance : bool }.

(** The slot a release function gives back; [NoSlot] is [func() {}]. *)
Inductive Release : Type := NoSlot | Slot (id : Z).

(** [tenancy.Decision], as far as dispatch reads it. *)
Record Admission : Type := mkAdmission { ad_Allowed : bool; ad_Reason : string }.

(** ** Calls *)

Inductive op : Type → Type :=
| ONow : op Z
(** the run store *)
| OReplay (tenant run : string) : op (result GoErr (list Event))
| OAppend (tenant : string) (e : Event) : op (result GoErr unit)
| OTxBegin : op (result GoErr unit)
| OTxAppend (tenant : string) (e : Event) : op (result GoErr unit)
| OTxEnqueue (tenant subject : string) (m : JobDispatch) : op (result GoErr unit)
| OTxCommit : op (result GoErr unit)
| OTxRollback : op unit
| OGateArm (tenant run : string) (s : Step) : op (result GoErr bool)
(** the leases *)
| OOffer (tenant run step : string) (attempt ttl : Z) : op (result GoErr Token)
| OClaim (tenant run step : string) (attempt ttl : Z) : op (result GoErr Token)
| OValidate (t : Token) : op (result GoErr unit)
| ORenew (t : Token) : op (result GoErr unit)
| OWithdraw (t : Token) : op (result GoErr unit)
| OExpire : op (result GoErr (list Orphan))
| OUnaccepted : op (result GoErr (list Waiting))
(** the fleet, the definitions, the cache *)
| OInstances (tenant : string) : op (result GoErr (list Instance_))
| ODefinition (tenant pipeline revision : string) : op (result GoErr Pipeline)
| OLockfile (tenant revision : string) : op (result GoErr (gmap string string))
| OCacheLookup (tenant : string) (key : Digest) : op (result GoErr (option (list OutputRef)))
| OCacheRecord (tenant : string) (key : Digest) (outs : list OutputRef) : op (result GoErr unit)
| OReference (tenant : string) (d : Digest) (run : string) : op (result GoErr unit)
(** policy, secrets, the plane's own steps *)
| OEvaluate (i : Input) : op (Decision * option GoErr)
| OProvenance (tenant ref digest : string) : op (bool * string * option GoErr)
| OTake (tenant run : string) (s : Step) (attempt : Z) : op (result GoErr bool)
| OSecretsCheck (tenant : string) (s : Step) : op (option GoErr)
| OSecretsIssue (tenant run : string) (s : Step) (attempt ttl : Z) : op (result GoErr (list SecretRef))
| OSecretsRevoke (tenant run step : string) (attempt : Z) : op unit
| OSecretsRevokeRun (tenant run : string) : op unit
| OSecretsDiscard (refs : list SecretRef) : op unit
(** admission *)
| OQueueAdd (item : QueueItem) : op (result GoErr unit)
| OQueueNext (slots : Z) : op (result GoErr (list QueueItem))
| OInFlight (tenant : string) : op (result GoErr Z)
| OAcquire (tenant pipeline : string) : op (option Release)
| OAdmitStep (tenant : string) (inFlight : Z) : op (result GoErr Admission)
| ORelease (id : Z) : op unit
(** this plane's maps, under their mutexes *)
| OPendingMark (key : string) : op bool
| OPendingClear (key : string) : op unit
| OHeldSwap (key : string) (r : Release) : op (option Release)
| OHeldTake (key : string) : op (option Release)
| OReported (key state : string) : op bool
| OWarn (msg : string) : op unit.

(** Programs of the scheduler. *)
Abbreviation cmd := (Program.cmd op).
Abbreviation go := (Program.go op).
Abbreviation did := (Program.did op).
Abbreviation guard := (Program.guard op).

(** [store.WithTx]: what the callback did is kept only if it and the commit
    succeed. *)
Definition WithTx {A} (fn : go A) : go A :=
  _ <~ act OTxBegin;;
  r <- fn;;
  match r with
  | Ok a => _ <~ act OTxCommit;; gret a
  | Err e => _ <- act OTxRollback;; gfail e
  end.
