(* ===== verification/Control.v ===== *)
(** * The scheduler: [internal/scheduler], the part that acts

    Each definition is the Go method of the same name, call for call, as a
    program over [Plane]'s calls. A [nil] dependency is a [false] in
    [Config]. Tracing spans, metrics and log attributes are left out; a
    warning that is logged is a call. JSON encoding of the payloads does not
    fail; a time difference is not cut off at [Duration]'s ends. *)

From S2P Require Import Prelude Bytes Proto Dag Effects Cache Policy Taint RunStore.
From S2P Require Import Lease Fairness Dynamic Fleet Sched Program Plane.

(** ** [Config] and [New] *)

Record Config : Type := mkConfig
  { cf_Store : bool; cf_Outbox : bool; cf_Leases : bool; cf_Fleet : bool; cf_Definitions : bool;
    cf_Tier : string; cf_OS : string; cf_Arch : string;
    cf_Cache : bool; cf_Revisions : bool; cf_BlobRefs : bool; cf_Policy : bool; cf_Provenance : bool;
    cf_Queue : bool; cf_Budgets : bool; cf_Quotas : bool; cf_Builtins : bool; cf_Gate : bool;
    cf_Secrets : bool; cf_ConfirmAcceptance : bool; cf_LeaseTTL : Z }.

Definition with_ttl (c : Config) (ttl : Z) : Config :=
  mkConfig (cf_Store c) (cf_Outbox c) (cf_Leases c) (cf_Fleet c) (cf_Definitions c) (cf_Tier c) (cf_OS c)
    (cf_Arch c) (cf_Cache c) (cf_Revisions c) (cf_BlobRefs c) (cf_Policy c) (cf_Provenance c) (cf_Queue c)
    (cf_Budgets c) (cf_Quotas c) (cf_Builtins c) (cf_Gate c) (cf_Secrets c) (cf_ConfirmAcceptance c) ttl.

Definition New (c : Config) : result string Config :=
  if negb (cf_Store c) then Err "scheduler: a run store is required"
  else if negb (cf_Outbox c) then Err "scheduler: an outbox is required; a dispatch may not be published directly"
  else if negb (cf_Leases c) then Err "scheduler: a lease manager is required"
  else if negb (cf_Fleet c) then Err "scheduler: an engine registry is required"
  else if negb (cf_Definitions c) then Err "scheduler: a definition store is required"
  else if decide (cf_Tier c = "") then Err "scheduler: a dispatch tier is required"
  else if cf_Cache c && negb (cf_Revisions c) then Err "scheduler: a cache needs a revision store"
  else if cf_Cache c && negb (cf_BlobRefs c) then Err "scheduler: a cache needs a blob reference recorder"
  else if cf_Policy c && negb (cf_Provenance c) then Err "scheduler: a policy engine needs a provenance source"
  else if cf_Policy c && negb (cf_Revisions c) then Err "scheduler: a policy engine needs a revision store"
  else if negb (cf_Policy c) && cf_Provenance c then Err "scheduler: a provenance source is only read by policy"
  else if negb (cf_Cache c) && cf_BlobRefs c
  then Err "scheduler: a blob reference recorder is only used by the cache"
  else if cf_Quotas c && negb (cf_Budgets c) then Err "scheduler: a quota enforcer needs the concurrency budgets"
  else if negb (cf_Cache c) && negb (cf_Policy c) && cf_Revisions c
  then Err "scheduler: a revision store is only used by the cache and by policy"
  else Ok (with_ttl c (if decide (cf_LeaseTTL c ≤ 0) then DefaultLeaseTTL else cf_LeaseTTL c)).

(** [time.Duration.String]. *)
Definition frac (w : nat) (z : Z) : string :=
  if decide (z = 0) then "" else "." +:+ drop_zeros (pad w z).
Definition DurationString (d : Z) : string :=
  let u := Z.abs d in
  let sign := if decide (d < 0) then "-" else "" in
  let secs := u / Second in
  let s := dec_Z (secs mod 60) +:+ frac 9 (u mod Second) +:+ "s" in
  let m := dec_Z (secs / 60 mod 60) +:+ "m" in
  if decide (u = 0) then "0s"
  else if decide (u < 1000) then sign +:+ dec_Z u +:+ "ns"
  else if decide (u < 1000000) then sign +:+ dec_Z (u / 1000) +:+ frac 3 (u mod 1000) +:+ "µs"
  else if decide (u < Second) then sign +:+ dec_Z (u / 1000000) +:+ frac 6 (u mod 1000000) +:+ "ms"
  else if decide (secs < 60) then sign +:+ s
  else if decide (secs < 3600) then sign +:+ m +:+ s
  else sign +:+ dec_Z (secs / 3600) +:+ "h" +:+ m +:+ s.

Definition IdempotencyKeyEnv : string := "DHOLE_IDEMPOTENCY_KEY".
Definition DefaultSecretTTL : Z := 10 * Minute.
Definition state0Attempt : Z := 0.

Section Scheduler.
Context `{Payloads, GenCodec}.
Context (sha256 : string → string) (decode_command : string → option commandSpec).
Context (cfg : Config).

(** ** The log *)

(** [append]. *)
Definition append_event (tenantID runID stepID : string) (attempt : Z) (kind payload : string) : go unit :=
  at_ <- act ONow;;
  wrap ("scheduler: appending " +:+ kind +:+ " for " +:+ runID +:+ "/" +:+ stepID)
    (act (OAppend tenantID (mkEvent runID stepID attempt 0 kind payload at_))).

Definition load (tenantID runID : string) : go runState :=
  events <~ wrap ("scheduler: replaying run " +:+ quote runID) (act (OReplay tenantID runID));;
  lift ("scheduler: run " +:+ quote runID) (load_events events).

Definition graphOf (tenantID runID : string) (state : runState) : go Pipeline :=
  pipeline <~ wrap ("scheduler: run " +:+ quote runID +:+ " pins revision " +:+ quote (st_revisionID state))
                (act (ODefinition tenantID (st_pipelineID state) (st_revisionID state)));;
  lift ("scheduler: run " +:+ quote runID +:+ " realised a fragment that no longer splices")
    (spliceRealised pipeline (st_fragments state)).

Definition Graph_ (tenantID runID : string) : go Pipeline :=
  if decide (tenantID = "") then gfail (ErrWrap "scheduler: graph" ErrTenantRequired)
  else if decide (runID = "") then gfail (ErrMsg "scheduler: graph: run id is required")
  else state <~ load tenantID runID;; graphOf tenantID runID state.

(** ** Secrets: [secrets.go] *)

Definition revokeSecrets (tenantID runID stepID : string) (attempt : Z) : cmd unit :=
  if cf_Secrets cfg then act (OSecretsRevoke tenantID runID stepID attempt) else Done tt.

Definition discardSecrets (refs : list SecretRef) : cmd unit :=
  if negb (cf_Secrets cfg) || bool_decide (refs = []) then Done tt else act (OSecretsDiscard refs).

Definition revokeRunSecrets (tenantID runID : string) : cmd unit :=
  if cf_Secrets cfg then act (OSecretsRevokeRun tenantID runID) else Done tt.

(** [fail] and [complete]. *)
Definition fail_run (tenantID runID : string) (steps : list string) : go unit :=
  _ <~ append_event tenantID runID "" 0 RunFailed (MarshalRunFailure (mkRunFailure steps));;
  quiet (revokeRunSecrets tenantID runID).

Definition complete (tenantID runID : string) : go unit :=
  _ <~ append_event tenantID runID "" 0 RunCompleted "";;
  quiet (revokeRunSecrets tenantID runID).

Definition recordSecretRefusal (tenantID runID : string) (step : Step) (reason : string) : go unit :=
  _ <~ append_event tenantID runID (step_id step) state0Attempt StepSecretUnavailable
         (MarshalSecretUnavailable (mkSecretUnavailable reason));;
  fail_run tenantID runID [step_id step].

(** [true]: the step was refused. *)
Definition refuseSecrets (tenantID runID : string) (step : Step) : go bool :=
  if decide (step_secrets step = []) then gret false
  else
    reason <- (if negb (cf_Secrets cfg)
               then Done (Some ("this control plane issues no step secrets, so step " +:+ quote (step_id step)
                      +:+ " cannot be given " +:+ join ", " (map (λ d, quote (sec_name d)) (step_secrets step))))
               else e <- act (X:=option GoErr) (OSecretsCheck tenantID step);; Done (err_text <$> e));;
    match reason with
    | None => gret false
    | Some reason => _ <~ recordSecretRefusal tenantID runID step reason;; gret true
    end.

Definition refuseBuiltinSecrets (tenantID runID : string) (step : Step) : go bool :=
  if negb (negb (bool_decide (step_secrets step = [])) && has_prefix builtinScheme (step_plugin_ref step))
  then gret false
  else
    _ <~ recordSecretRefusal tenantID runID step
           ("step " +:+ quote (step_id step) +:+ " is " +:+ step_plugin_ref step
            +:+ ", which the control plane runs itself and never dispatches, so it cannot be "
            +:+ "given step secrets; a builtin: step names a credential in its own configuration instead");;
    gret true.

Definition secretRefs (tenantID runID : string) (step : Step) (attempt : Z) : go (list SecretRef) :=
  if decide (step_secrets step = []) then gret []
  else if negb (cf_Secrets cfg)
  then gfail (ErrMsg "scheduler: a step declaring secrets reached dispatch on a plane that issues none")
  else act (OSecretsIssue tenantID runID step attempt DefaultSecretTTL).

(** ** Records of a step going nowhere *)

Definition recordUnschedulable (tenantID runID stepID reason : string) (state : runState) : go unit :=
  if decide (unschedulable_of state stepID = reason) then gret tt
  else append_event tenantID runID stepID (attempts_of state stepID) StepUnschedulable
         (MarshalUnschedulable (mkUnschedulable reason)).

(** The state with the step marked, as the code marks the one it was given. *)
Definition recordAwaitingReplay (tenantID runID : string) (state : runState) (step : Step) : go runState :=
  if decide (step_id step ∈ st_awaiting state) then gret state
  else
    _ <~ append_event tenantID runID (step_id step) (attempts_of state (step_id step)) StepAwaitingReplay
           (MarshalAwaitingReplay (mkAwaitingReplay (EffectClass_String (step_effect_class step))
              ("effect class " +:+ trim_prefix "EFFECT_CLASS_" (EffectClass_String (step_effect_class step))
               +:+ " may not be retried automatically; a replay has to be authorised")));;
    gret (set_awaiting ({[step_id step]} ∪ st_awaiting state) state).

(** [hold] and [releaseHold]. *)
Definition give_back (r : Release) : cmd unit :=
  match r with NoSlot => Done tt | Slot id => act (ORelease id) end.

Definition hold (tenantID runID stepID : string) (release : Release) : cmd unit :=
  previous <- act (OHeldSwap (stepKey tenantID runID stepID) release);;
  match previous with None => Done tt | Some r => give_back r end.

Definition releaseHold (tenantID runID stepID : string) : cmd unit :=
  held <- act (OHeldTake (stepKey tenantID runID stepID));;
  match held with None => Done tt | Some r => give_back r end.

Definition orphan_payload (orphan : Orphan) : string :=
  MarshalAttemptLost (mkAttemptLost (or_Attempt orphan) (or_Fence orphan)
    "the lease expired without being renewed; its holder is gone").

(** Whether anything was written. *)
Definition recordOrphan (orphan : Orphan) : go bool :=
  state <~ load (or_Tenant orphan) (or_Run orphan);;
  if st_completed state then gret false
  else if decide (is_Some (st_terminal state !! or_Step orphan)) then gret false
  else if decide (attempts_of state (or_Step orphan) ≠ or_Attempt orphan) then gret false
  else if decide (or_Step orphan ∈ st_gated state ∨ or_Step orphan ∈ st_resumed state) then gret false
  else
    _ <~ append_event (or_Tenant orphan) (or_Run orphan) (or_Step orphan) (or_Attempt orphan) StepAttemptLost
           (orphan_payload orphan);;
    _ <~ quiet (releaseHold (or_Tenant orphan) (or_Run orphan) (or_Step orphan));;
    _ <~ quiet (revokeSecrets (or_Tenant orphan) (or_Run orphan) (or_Step orphan) (or_Attempt orphan));;
    gret true.

Definition recordFencedOut (tenantID runID stepID : string) (current : Z) (state : runState) : go unit :=
  let dispatched := fence_of state stepID in
  if decide (dispatched = 0 ∨ current ≤ dispatched) then gret tt
  else _ <~ recordOrphan (mkOrphan tenantID runID stepID (attempts_of state stepID) dispatched);; gret tt.

Definition recordWaiting (tenantID runID : string) (step : Step) (matched : list Instance_) (state : runState)
    : go unit :=
  let '(slots, busy) := slots_busy matched in
  let n := dec_Z (Z.of_nat (length matched)) in
  let cause := if decide (busy < slots) then WaitingUnconsumed else WaitingForCapacity in
  let reason :=
    if decide (busy < slots)
    then n +:+ " engine(s) can run this step with " +:+ dec_Z (slots - busy)
         +:+ " free slot(s), and none has taken the dispatch in " +:+ DurationString (offerGrace (cf_LeaseTTL cfg))
         +:+ ": nothing is consuming " +:+ dispatchSubject sha256 (cf_Tier cfg) step
         +:+ ", or the engines that fetch it cannot reach a control plane to confirm it"
    else n +:+ " engine(s) can run this step and " +:+ dec_Z busy +:+ " of " +:+ dec_Z slots
         +:+ " slot(s) are busy; the dispatch waits in the queue for one to free" in
  if decide (waiting_of state (step_id step) = cause) then gret tt
  else append_event tenantID runID (step_id step) (attempts_of state (step_id step)) StepWaiting
         (MarshalWaitingReason (mkWaitingReason cause reason)).

(** ** Policy at dispatch *)

Definition denyFor (tenantID runID : string) (step : Step) (decision : Decision) (signed : bool)
    (upstream secret : string) : go unit :=
  _ <~ append_event tenantID runID (step_id step) state0Attempt StepPolicyDenied
         (MarshalPolicyDenied (mkPolicyDenied (cf_Tier cfg) (dec_Rule decision) (dec_Reason decision)
            (step_plugin_ref step) signed upstream secret));;
  fail_run tenantID runID [step_id step].

Definition deny (tenantID runID : string) (step : Step) (decision : Decision) (signed : bool) (upstream : string)
    : go unit :=
  denyFor tenantID runID step decision signed upstream "".

(** [decide]: [true] on an allow, and only then. *)
Definition decide_policy (tenantID runID : string) (step : Step) (i : Input) (secret : string) : go bool :=
  answer <- act (OEvaluate i);;
  let '(decision, err) := answer in
  let decision := match err with
                  | None => decision
                  | Some e => mkDecision false (dec_Rule decision) ("policy error: " +:+ err_text e)
                  end in
  if dec_Allow decision then gret true
  else _ <~ denyFor tenantID runID step decision (i_Signed i) (i_Upstream i) secret;; gret false.

Definition provenance (tenantID : string) (step : Step) (state : runState) : cmd (bool * string * option GoErr) :=
  lockfile <- act (OLockfile tenantID (st_revisionID state));;
  match lockfile with
  | Err e => Done (false, "", Some (ErrWrap ("reading the lockfile of revision " +:+ quote (st_revisionID state)) e))
  | Ok lockfile =>
      act (OProvenance tenantID (step_plugin_ref step) (default "" (lockfile !! step_plugin_ref step)))
  end.

Definition list_engines (tenantID : string) : go (list Instance_) :=
  wrap ("scheduler: listing engines for " +:+ tenantID) (act (OInstances tenantID)).

Definition reachableCapabilities (tenantID : string) (step : Step) : go (list Capability) :=
  if has_prefix builtinScheme (step_plugin_ref step) then gret []
  else instances <~ list_engines tenantID;;
       gret (advertised (Match (requirements (cf_OS cfg) (cf_Arch cfg) step) instances)).

Definition with_secret (i : Input) (name : string) : Input :=
  {| i_Tier := i_Tier i; i_TenantID := i_TenantID i; i_Subject := "secret:" +:+ name;
     i_Capabilities := i_Capabilities i; i_EffectClass := i_EffectClass i; i_PluginRef := i_PluginRef i;
     i_Signed := i_Signed i; i_Upstream := i_Upstream i; i_Tainted := i_Tainted i;
     i_TaintSources := i_TaintSources i; i_EngineCapabilities := i_EngineCapabilities i;
     i_PrincipalKind := i_PrincipalKind i; i_PrincipalUntrusted := i_PrincipalUntrusted i;
     i_SecretName := name |}.

Fixpoint decide_secrets (tenantID runID : string) (step : Step) (i : Input) (secrets : list StepSecret) : go bool :=
  match secrets with
  | [] => gret true
  | d :: secrets =>
      allowed <~ decide_policy tenantID runID step (with_secret i (sec_name d)) (sec_name d);;
      if allowed : bool then decide_secrets tenantID runID step i secrets else gret false
  end.

Definition permit_input (tenantID : string) (pipeline : Pipeline) (step : Step) (state : runState)
    (signed : bool) (upstream : string) (engineCaps : list Capability) : Input :=
  let sources := taintSources pipeline step state in
  {| i_Tier := cf_Tier cfg; i_TenantID := tenantID; i_Subject := "step:" +:+ step_id step;
     i_Capabilities := step_capabilities step; i_EffectClass := step_effect_class step;
     i_PluginRef := step_plugin_ref step; i_Signed := signed; i_Upstream := upstream;
     i_Tainted := bool_decide (0 < Z.of_nat (length sources)); i_TaintSources := sources;
     i_EngineCapabilities := engineCaps; i_PrincipalKind := ""; i_PrincipalUntrusted := false;
     i_SecretName := "" |}.

Definition permit (tenantID runID : string) (pipeline : Pipeline) (step : Step) (state : runState) : go bool :=
  if negb (cf_Policy cfg) then gret true
  else
    prov <- provenance tenantID step state;;
    let '(signed, upstream, provErr) := prov in
    match provErr with
    | Some e =>
        _ <~ deny tenantID runID step
               (mkDecision false "" ("the provenance of " +:+ quote (step_plugin_ref step)
                  +:+ " could not be established: " +:+ err_text e)) signed upstream;;
        gret false
    | None =>
        engineCaps <~ reachableCapabilities tenantID step;;
        let i := permit_input tenantID pipeline step state signed upstream engineCaps in
        allowed <~ decide_policy tenantID runID step i "";;
        if allowed : bool then decide_secrets tenantID runID step i (step_secrets step) else gret false
    end.

(** ** The cache *)

Definition engineScope (kind : string) : string :=
  if decide (kind = "") then "the engines of this tier" else "the " +:+ kind +:+ " engines of this tier".
Definition silentScope (kind : string) : string :=
  if decide (kind = "") then "no engine in this tier" else "no " +:+ kind +:+ " engine in this tier".
Definition cacheScope (kind : string) : string :=
  if decide (kind = "") then "steps that name no engine kind" else "steps naming engine kind " +:+ kind.

Definition reportTier (kind state msg : string) : cmd unit :=
  unchanged <- act (OReported (cf_Tier cfg +:+ String Ascii.zero kind) state);;
  if (unchanged : bool) || bool_decide (msg = "") then Done tt else act (OWarn msg).

Definition tierIdentity (tenantID : string) (kind : string) : cmd string :=
  instances <- act (OInstances tenantID);;
  match instances with
  | Err e =>
      _ <- reportTier kind ("unreadable: " +:+ err_text e)
             ("cannot read the fleet, so nothing is cached for " +:+ engineScope kind);;
      Done ""
  | Ok instances =>
      let '(env, conflict) := TierEnvironmentIdentity instances (cf_Tier cfg) kind in
      if decide (conflict ≠ []) then
        _ <- reportTier kind ("conflict: " +:+ join "," conflict)
               (engineScope kind +:+ " disagree about their environment, so nothing is cached for "
                +:+ cacheScope kind);;
        Done ""
      else if decide (env = "") then
        _ <- reportTier kind "identity: none"
               (silentScope kind +:+ " names its environment, so nothing is cached for " +:+ cacheScope kind);;
        Done ""
      else
        _ <- reportTier kind ("identity: " +:+ env) "";;
        Done env
  end.

Definition engine_type_of (step : option Step) : string := default "" (step_engine_type <$> step).
Definition lease_scope_of (step : option Step) : LeaseScopeP :=
  default LEASE_SCOPE_UNSPECIFIED (step_lease_scope <$> step).
(** [cache.StepEnvironment] of a step that may be nil: its image is empty. *)
Definition environment_of (step : option Step) (tier : string) : string :=
  match step with Some s => StepEnvironment s tier | None => tier end.

(** [None]: there is no key. *)
Definition cacheKey (tenantID : string) (pipeline : Pipeline) (step : option Step) (state : runState)
    : go (option Digest) :=
  tier <- tierIdentity tenantID (engine_type_of step);;
  let env := environment_of step tier in
  if negb (Eligible step (executorLeaseScope (lease_scope_of step)) env).1 then gret None
  else match inputDigests pipeline (default "" (step_id <$> step)) state with
  | None => gret None
  | Some inputs =>
      lockfile <~ wrap ("scheduler: reading the lockfile of revision " +:+ quote (st_revisionID state))
                    (act (OLockfile tenantID (st_revisionID state)));;
      match Key sha256 step env inputs lockfile with
      | Err _ => gret None
      | Ok key => gret (Some key)
      end
  end.

Inductive cacheOutcome : Type := cacheMiss | cacheServed | cachePlacedElsewhere.

(** The status a cache hit records. *)
Definition hit_status (tenantID runID stepID : string) (attempt : Z) (token : Token) (outputs : list OutputRef)
    : JobStatus :=
  mkJobStatus runID stepID attempt (EncodeFence tenantID (tk_Value token) (tk_Fence token)) PHASE_SUCCEEDED 0
    outputs "" "".

Definition hit_tx (tenantID runID stepID : string) (attempt : Z) (token : Token)
    (dispatchPayload statusPayload : string) (at_ : Z) : go unit :=
  _ <~ act (OTxAppend tenantID (mkEvent runID stepID attempt 0 StepDispatched dispatchPayload at_));;
  _ <~ act (OTxAppend tenantID (mkEvent runID stepID attempt 0 StepSucceeded statusPayload at_));;
  act (OValidate token).

Definition recordCacheHit (tenantID runID : string) (step : Step) (outputs : list OutputRef) (state : runState)
    : go cacheOutcome :=
  let id := step_id step in
  _ <- act ONow;;
  let attempt := u32 (attempts_of state id + 1) in
  claimed <- act (OClaim tenantID runID id attempt (cf_LeaseTTL cfg));;
  match claimed with
  | Err e => if Is e ErrAlreadyOffered then gret cachePlacedElsewhere
             else gfail (ErrWrap ("scheduler: claiming " +:+ runID +:+ "/" +:+ id) e)
  | Ok token =>
      fresh <~ load tenantID runID;;
      if decide (attempt ≤ attempts_of fresh id) then
        _ <~ recordFencedOut tenantID runID id (tk_Fence token) fresh;; gret cachePlacedElsewhere
      else match MarshalStatus (hit_status tenantID runID id attempt token outputs) with
      | None => gfail (ErrMsg ("scheduler: encoding the cached result for " +:+ runID +:+ "/" +:+ id))
      | Some statusPayload =>
          at_ <- act ONow;;
          r <- WithTx (hit_tx tenantID runID id attempt token
                 (MarshalDispatched (mkDispatched attempt (tk_Fence token) true "" true "")) statusPayload at_);;
          match r with
          | Err e => if Is e ErrFenced then gret cachePlacedElsewhere
                     else gfail (ErrWrap ("scheduler: recording the cached result for " +:+ runID +:+ "/" +:+ id) e)
          | Ok _ => _ <- act ONow;; gret cacheServed
          end
      end
  end.

(** Pins every output: [false] when the bytes of one are gone. *)
Fixpoint reference_all (tenantID runID stepID : string) (outputs : list OutputRef) : go bool :=
  match outputs with
  | [] => gret true
  | out :: outputs =>
      r <- act (OReference tenantID (out_digest out) runID);;
      match r with
      | Ok _ => reference_all tenantID runID stepID outputs
      | Err e => if Is e ErrNotFound then gret false
                 else gfail (ErrWrap ("scheduler: pinning cached blobs for " +:+ runID +:+ "/" +:+ stepID) e)
      end
  end.

Definition serveFromCache (tenantID runID : string) (pipeline : Pipeline) (step : Step) (state : runState)
    : go cacheOutcome :=
  if negb (cf_Cache cfg) then gret cacheMiss
  else
    key <~ cacheKey tenantID pipeline (Some step) state;;
    match key with
    | None => gret cacheMiss
    | Some key =>
        found <~ wrap ("scheduler: cache lookup for " +:+ runID +:+ "/" +:+ step_id step)
                   (act (OCacheLookup tenantID key));;
        match found with
        | None => gret cacheMiss
        | Some outputs =>
            pinned <~ reference_all tenantID runID (step_id step) outputs;;
            if pinned : bool then recordCacheHit tenantID runID step outputs state else gret cacheMiss
        end
    end.

Definition recordCacheEntry (tenantID : string) (st : JobStatus) (state : runState) : go unit :=
  if negb (cf_Cache cfg) || cacheHit_of state (js_StepId st) then gret tt
  else
    pipeline <~ wrap ("scheduler: run " +:+ quote (js_RunId st) +:+ " pins revision " +:+ quote (st_revisionID state))
                  (act (ODefinition tenantID (st_pipelineID state) (st_revisionID state)));;
    key <~ cacheKey tenantID pipeline (stepByID pipeline (js_StepId st)) state;;
    match key with
    | None => gret tt
    | Some key =>
        wrap ("scheduler: recording the cache entry for " +:+ js_RunId st +:+ "/" +:+ js_StepId st)
          (act (OCacheRecord tenantID key (js_Outputs st)))
    end.

(** ** Admission: [admission.go] *)

(** [None]: refused, and why is on the run's log. *)
Definition admit_step (tenantID runID pipelineID : string) (step : Step) (state : runState) : go (option Release) :=
  allowed <~ (if negb (cf_Quotas cfg) then gret true
              else
                inFlight <~ wrap ("scheduler: counting in-flight steps for " +:+ tenantID) (act (OInFlight tenantID));;
                decision <~ wrap ("scheduler: admitting " +:+ runID +:+ "/" +:+ step_id step)
                              (act (OAdmitStep tenantID inFlight));;
                if ad_Allowed decision then gret true
                else _ <~ recordUnschedulable tenantID runID (step_id step) (ad_Reason decision) state;; gret false);;
  if negb allowed then gret None
  else if negb (cf_Budgets cfg) then gret (Some NoSlot)
  else
    slot <- act (OAcquire tenantID pipelineID);;
    match slot with
    | Some r => gret (Some r)
    | None =>
        _ <~ recordUnschedulable tenantID runID (step_id step)
               ("pipeline " +:+ quote pipelineID +:+ " is at its concurrency budget; "
                +:+ "the step runs when one of its siblings finishes") state;;
        gret None
    end.

Definition enqueueReady (item : QueueItem) : go unit :=
  let key := stepKey (qi_TenantID item) (qi_RunID item) (qi_StepID item) in
  pending <- act (OPendingMark key);;
  if pending : bool then gret tt
  else
    r <- act (OQueueAdd item);;
    match r with
    | Ok _ => gret tt
    | Err e => _ <- act (OPendingClear key);;
               gfail (ErrWrap ("scheduler: queueing " +:+ qi_RunID item +:+ "/" +:+ qi_StepID item) e)
    end.

Definition takeBuiltin (tenantID runID : string) (step : Step) (attempt : Z) : go bool :=
  if negb (cf_Builtins cfg) then gret false
  else wrap ("scheduler: run " +:+ quote runID +:+ " step " +:+ quote (step_id step))
         (act (OTake tenantID runID step attempt)).

Definition armGate (tenantID runID : string) (step : Step) : go bool :=
  if negb (cf_Gate cfg) then gret false
  else wrap ("scheduler: arming the gate on " +:+ runID +:+ "/" +:+ step_id step)
         (WithTx (act (OGateArm tenantID runID step))).

(** ** Dispatch *)

Definition buildDispatch (tenantID runID : string) (pipeline : Pipeline) (step : Step) (attempt : Z)
    (token : Token) (state : runState) (version : Z) : go JobDispatch :=
  let id := step_id step in
  ce <~ lift ("scheduler: step " +:+ quote id +:+ ": command reference") (commandFor decode_command step);;
  inputs <~ lift ("scheduler: dispatching " +:+ id) (inputsFor pipeline step state);;
  secrets <~ wrap ("scheduler: issuing the secrets of " +:+ runID +:+ "/" +:+ id)
               (secretRefs tenantID runID step attempt);;
  gret {| jd_RunId := runID; jd_StepId := id; jd_Attempt := attempt;
          jd_FenceToken := EncodeFence tenantID (tk_Value token) (tk_Fence token); jd_Step := step;
          jd_Inputs := inputs; jd_Secrets := secrets;
          jd_OutputPrefix := "runs/" +:+ tenantID +:+ "/" +:+ runID +:+ "/" +:+ id +:+ "/" +:+ dec_Z attempt;
          jd_ProtocolVersion := version; jd_Tenant := tenantID; jd_Command := ce.1; jd_Env := ce.2;
          jd_ConfirmAcceptance := cf_ConfirmAcceptance cfg |}.

Definition with_env (m : JobDispatch) (k v : string) : JobDispatch :=
  {| jd_RunId := jd_RunId m; jd_StepId := jd_StepId m; jd_Attempt := jd_Attempt m;
     jd_FenceToken := jd_FenceToken m; jd_Step := jd_Step m; jd_Inputs := jd_Inputs m;
     jd_Secrets := jd_Secrets m; jd_OutputPrefix := jd_OutputPrefix m;
     jd_ProtocolVersion := jd_ProtocolVersion m; jd_Tenant := jd_Tenant m; jd_Command := jd_Command m;
     jd_Env := <[k := v]> (jd_Env m); jd_ConfirmAcceptance := jd_ConfirmAcceptance m |}.

(** What a dispatch is about to commit. *)
Record placement : Type := mkPlacement
  { pm_token : Token; pm_offeredAt : Z; pm_message : JobDispatch; pm_payload : string }.

(** From the offer to the commit; [None]: this attempt is somebody else's. *)
Definition prepare (tenantID runID : string) (pipeline : Pipeline) (step : Step) (attempt : Z)
    (matched : list Instance_) : go (option placement) :=
  let id := step_id step in
  offeredAt <- act ONow;;
  offered <- act (OOffer tenantID runID id attempt (cf_LeaseTTL cfg));;
  match offered with
  | Err e => if Is e ErrAlreadyOffered then gret None
             else gfail (ErrWrap ("scheduler: claiming " +:+ runID +:+ "/" +:+ id) e)
  | Ok token =>
      fresh <~ load tenantID runID;;
      if decide (attempt ≤ attempts_of fresh id) then
        _ <~ recordFencedOut tenantID runID id (tk_Fence token) fresh;; gret None
      else
        let retry := RetryPolicy (Some step) in
        proved <- (if RequiresExclusiveLease retry then act (OValidate token) else gret tt);;
        match proved with
        | Err e => if Is e ErrFenced then gret None
                   else gfail (ErrWrap ("scheduler: proving the exclusive lease on " +:+ runID +:+ "/" +:+ id) e)
        | Ok _ =>
            msg <~ buildDispatch tenantID runID pipeline step attempt token fresh (dispatchVersion matched);;
            let idempotencyKey := if RequiresIdempotencyKey retry then IdempotencyKey sha256 runID id attempt else "" in
            let msg := if RequiresIdempotencyKey retry then with_env msg IdempotencyKeyEnv idempotencyKey else msg in
            tier <~ quiet (tierIdentity tenantID (step_engine_type step));;
            let '(cacheable, reason) := Eligible (Some step) (executorLeaseScope (step_lease_scope step))
                                          (StepEnvironment step tier) in
            gret (Some (mkPlacement token offeredAt msg
              (MarshalDispatched (mkDispatched attempt (tk_Fence token) cacheable reason false idempotencyKey))))
        end
  end.

(** The transaction: the event, the outbox row and the proof of the lease. *)
Definition dispatch_tx (tenantID runID : string) (step : Step) (attempt : Z) (p : placement) : go unit :=
  t <- act ONow;;
  if decide (offerGrace (cf_LeaseTTL cfg) / 2 < t - pm_offeredAt p) then gfail ErrOfferAbandoned
  else
    at_ <- act ONow;;
    _ <~ act (OTxAppend tenantID (mkEvent runID (step_id step) attempt 0 StepDispatched (pm_payload p) at_));;
    _ <~ act (OTxEnqueue tenantID (dispatchSubject sha256 (cf_Tier cfg) step) (pm_message p));;
    act (OValidate (pm_token p)).

(** How a transaction that did not commit is reported. *)
Definition dispatch_failed (runID : string) (step : Step) (e : GoErr) : go unit :=
  if Is e ErrFenced then gret tt
  else if Is e ErrOfferAbandoned then
    _ <- act ONow;;
    _ <- act (OWarn "abandoned a dispatch that took too long to commit");;
    gret tt
  else gfail (ErrWrap ("scheduler: dispatching " +:+ runID +:+ "/" +:+ step_id step) e).

(** The deferred function of [dispatch], on a dispatch that did not commit. *)
Definition undo (release : Release) (issued : list SecretRef) : cmd unit :=
  _ <- give_back release;;
  discardSecrets issued.

Definition dispatch_admitted (tenantID runID : string) (pipeline : Pipeline) (step : Step) (attempt : Z)
    (matched : list Instance_) (release : Release) : go unit :=
  prepared <- prepare tenantID runID pipeline step attempt matched;;
  match prepared with
  | Err e => _ <- undo release [];; gfail e
  | Ok None => _ <- undo release [];; gret tt
  | Ok (Some p) =>
      r <- WithTx (dispatch_tx tenantID runID step attempt p);;
      match r with
      | Ok _ => quiet (hold tenantID runID (step_id step) release)
      | Err e =>
          out <- dispatch_failed runID step e;;
          _ <- undo release (jd_Secrets (pm_message p));;
          Done out
      end
  end.

Definition dispatch (tenantID runID : string) (pipeline : Pipeline) (step : Step) (state : runState) : go unit :=
  armed <~ armGate tenantID runID step;;
  if armed : bool then gret tt else
  refused <~ refuseSecrets tenantID runID step;;
  if refused : bool then gret tt else
  let req := requirements (cf_OS cfg) (cf_Arch cfg) step in
  instances <~ list_engines tenantID;;
  let matched := Match req instances in
  if decide (length matched = 0%nat)
  then recordUnschedulable tenantID runID (step_id step) (Explain req instances) state
  else
    let attempt := u32 (attempts_of state (step_id step) + 1) in
    slot <~ admit_step tenantID runID (st_pipelineID state) step state;;
    match slot with
    | None => gret tt
    | Some release => dispatch_admitted tenantID runID pipeline step attempt matched release
    end.

Definition dispatchQueued (item : QueueItem) : go unit :=
  let id := qi_StepID item in
  state <~ load (qi_TenantID item) (qi_RunID item);;
  if st_completed state then gret tt
  else if decide (qi_Attempt item ≤ attempts_of state id) then gret tt
  else if decide (terminal_of state id = "" ∧ id ∈ st_gated state) then gret tt
  else
    pipeline <~ graphOf (qi_TenantID item) (qi_RunID item) state;;
    match stepByID pipeline id with
    | None => gret tt
    | Some step => dispatch (qi_TenantID item) (qi_RunID item) pipeline step state
    end.

Definition drain_item (item : QueueItem) : go unit :=
  _ <- act (OPendingClear (stepKey (qi_TenantID item) (qi_RunID item) (qi_StepID item)));;
  dispatchQueued item.

Definition drain (tenantID : string) : go unit :=
  instances <~ list_engines tenantID;;
  let slots := if decide (capacity instances ≤ 0) then 1 else capacity instances in
  items <~ wrap "scheduler: draining the queue" (act (OQueueNext slots));;
  geach drain_item items.

(** ** [Advance] *)

(** What one pass over the ready steps came to. *)
Inductive pass : Type :=
| RunOver
| Passed (served : bool).

Definition ready_item (tenantID runID : string) (state : runState) (step : Step) : QueueItem :=
  mkItem tenantID runID (step_id step) (st_pipelineID state) (u32 (attempts_of state (step_id step) + 1)) 0.

(** One ready step: [None] if the run is over, else whether it was served. *)
Definition ready_step (tenantID runID : string) (pipeline : Pipeline) (state : runState) (step : Step)
    : go (option bool) :=
  permitted <~ permit tenantID runID pipeline step state;;
  if negb permitted then gret None else
  refused <~ refuseBuiltinSecrets tenantID runID step;;
  if refused : bool then gret None else
  outcome <~ serveFromCache tenantID runID pipeline step state;;
  match outcome with
  | cacheServed => gret (Some true)
  | cachePlacedElsewhere => gret (Some false)
  | cacheMiss =>
      taken <~ takeBuiltin tenantID runID step (u32 (attempts_of state (step_id step) + 1));;
      if taken : bool then gret (Some false)
      else if negb (cf_Queue cfg)
      then _ <~ dispatch tenantID runID pipeline step state;; gret (Some false)
      else _ <~ enqueueReady (ready_item tenantID runID state step);; gret (Some false)
  end.

Fixpoint ready_loop (tenantID runID : string) (pipeline : Pipeline) (state : runState) (served : bool)
    (steps : list Step) : go pass :=
  match steps with
  | [] => gret (Passed served)
  | step :: steps =>
      r <~ ready_step tenantID runID pipeline state step;;
      match r with
      | None => gret RunOver
      | Some hit => ready_loop tenantID runID pipeline state (served || hit) steps
      end
  end.

(** The plan finds nothing to do, nothing out and nothing waiting. *)
Definition idle (pl : planned) : bool :=
  bool_decide (p_ready pl = []) && bool_decide (p_inFlight pl = 0) && bool_decide (p_waiting pl = 0).

(** What an idle run comes to. *)
Definition finish (tenantID runID : string) (pl : planned) : go unit :=
  match p_exhausted pl, p_blocked pl with
  | _ :: _, _ => fail_run tenantID runID (p_exhausted pl)
  | [], _ :: _ => gret tt
  | [], [] => complete tenantID runID
  end.

(** One pass: [true] if the run is to be advanced again. *)
Definition advance_pass (tenantID runID : string) : go bool :=
  state <~ load tenantID runID;;
  if st_completed state then gret false else
  pipeline <~ graphOf tenantID runID state;;
  graph <~ lift ("scheduler: run " +:+ quote runID) (Build (Some pipeline));;
  now_ <- act ONow;;
  let pl := plan pipeline graph state now_ in
  state <~ gfold (recordAwaitingReplay tenantID runID) state (p_blocked pl);;
  if idle pl then _ <~ finish tenantID runID pl;; gret false
  else
    r <~ ready_loop tenantID runID pipeline state false (p_ready pl);;
    match r with
    | RunOver => gret false
    | Passed served =>
        _ <~ (if cf_Queue cfg then drain tenantID else gret tt);;
        gret served
    end.

(** [Advance] calls itself while it serves steps from the cache. *)
Fixpoint advance_loop (fuel : nat) (tenantID runID : string) : go unit :=
  match fuel with
  | O => gfail ErrOutOfFuel
  | S fuel =>
      again <~ advance_pass tenantID runID;;
      if again : bool then advance_loop fuel tenantID runID else gret tt
  end.

Definition Advance (fuel : nat) (tenantID runID : string) : go unit :=
  if decide (tenantID = "") then gfail (ErrWrap "scheduler: advance" ErrTenantRequired)
  else if decide (runID = "") then gfail (ErrMsg "scheduler: advance: run id is required")
  else advance_loop fuel tenantID runID.

(** ** Engines report: [Accept] and [OnStatus] *)

Inductive Acceptance : Type := ACCEPTANCE_CURRENT | ACCEPTANCE_FENCED.

Definition status_of (st : JobStatus) : string := js_RunId st +:+ "/" +:+ js_StepId st.

Definition fence_token (what : string) (st : JobStatus) : go (string * Token) :=
  match DecodeFence (js_FenceToken st) with
  | Err _ => gfail (ErrMsg ("scheduler: " +:+ what +:+ " for " +:+ status_of st))
  | Ok (tenant, (value, fence)) =>
      if decide (tenant = "")
      then gfail (ErrWrap ("scheduler: " +:+ what +:+ " for " +:+ status_of st) ErrTenantRequired)
      else gret (tenant, mkToken value fence)
  end.

Definition Accept (st : option JobStatus) : go Acceptance :=
  match st with
  | None => gfail (ErrMsg "scheduler: acceptance request is nil")
  | Some st =>
      tt_ <~ fence_token "acceptance" st;;
      r <- act (ORenew tt_.2);;
      match r with
      | Ok _ => gret ACCEPTANCE_CURRENT
      | Err e => if Is e ErrFenced then gret ACCEPTANCE_FENCED
                 else gfail (ErrWrap ("scheduler: accepting the lease on " +:+ status_of st) e)
      end
  end.

(** A status that is not terminal: only the lease changes. *)
Definition accept_phase (st : JobStatus) (token : Token) : go unit :=
  if negb (acceptsLease (js_Phase st)) then gret tt
  else
    r <- act (ORenew token);;
    match r with
    | Ok _ => gret tt
    | Err e => if Is e ErrFenced then gret tt
               else gfail (ErrWrap ("scheduler: accepting the lease on " +:+ status_of st) e)
    end.

(** The step is out of flight: its slot and its handles are given up. *)
Definition left_flight (fuel : nat) (tenantID : string) (st : JobStatus) : go unit :=
  _ <~ quiet (releaseHold tenantID (js_RunId st) (js_StepId st));;
  _ <~ quiet (revokeSecrets tenantID (js_RunId st) (js_StepId st) (js_Attempt st));;
  Advance fuel tenantID (js_RunId st).

Definition apply_terminal (fuel : nat) (tenantID : string) (st : JobStatus) (eventType : string) : go unit :=
  state <~ load tenantID (js_RunId st);;
  if decide (is_Some (st_terminal state !! js_StepId st)) then left_flight fuel tenantID st
  else match MarshalStatus st with
  | None => gfail (ErrMsg ("scheduler: encoding status for " +:+ status_of st))
  | Some payload =>
      _ <~ append_event tenantID (js_RunId st) (js_StepId st) (js_Attempt st) eventType payload;;
      _ <~ (if decide (eventType = StepSucceeded) then recordCacheEntry tenantID st state else gret tt);;
      left_flight fuel tenantID st
  end.

Definition OnStatus (fuel : nat) (st : option JobStatus) : go unit :=
  match st with
  | None => gfail (ErrMsg "scheduler: status is nil")
  | Some st =>
      tt_ <~ fence_token "status" st;;
      valid <- act (OValidate tt_.2);;
      match valid with
      | Err e => if Is e ErrFenced then gret tt
                 else gfail (ErrWrap ("scheduler: validating fence for " +:+ status_of st) e)
      | Ok _ =>
          match terminalEvent (js_Phase st) with
          | None => accept_phase st tt_.2
          | Some eventType => apply_terminal fuel tt_.1 st eventType
          end
      end
  end.

(** ** Leases that died and dispatches that wait: [SweepOrphans] *)

(** [Waiting.Token]. *)
Definition waiting_token (w : Waiting) : Token :=
  mkToken (match claimKey (wt_Tenant w) (wt_Run w) (wt_Step w) with Ok k => k | Err _ => "" end) (wt_Fence w).

Definition withdrawAbandoned (fuel : nat) (w : Waiting) : go unit :=
  r <- act (OWithdraw (waiting_token w));;
  match r with
  | Err e => if Is e ErrFenced then gret tt
             else gfail (ErrWrap ("scheduler: withdrawing the abandoned offer of " +:+ wt_Run w +:+ "/" +:+ wt_Step w) e)
  | Ok _ =>
      _ <- act (OWarn "withdrew an offer whose dispatch never committed");;
      Advance fuel (wt_Tenant w) (wt_Run w)
  end.

Definition surfaceOne (fuel : nat) (w : Waiting) (instances : list Instance_) : go unit :=
  let run := wt_Run w in
  let id := wt_Step w in
  now_ <- act ONow;;
  let aged := bool_decide (offerGrace (cf_LeaseTTL cfg) < now_ - wt_OfferedAt w) in
  state <~ load (wt_Tenant w) run;;
  if decide (attempts_of state id < wt_Attempt w)
  then if negb aged then gret tt else withdrawAbandoned fuel w
  else if st_completed state || negb (bool_decide (attempts_of state id = wt_Attempt w)) then gret tt
  else if decide (is_Some (st_terminal state !! id)) then gret tt
  else if decide (id ∈ st_gated state ∨ id ∈ st_resumed state) then gret tt
  else if decide (fence_of state id ≠ 0 ∧ fence_of state id < wt_Fence w)
  then _ <~ recordFencedOut (wt_Tenant w) run id (wt_Fence w) state;; Advance fuel (wt_Tenant w) run
  else
    pipeline <~ graphOf (wt_Tenant w) run state;;
    match stepByID pipeline id with
    | None => gret tt
    | Some step =>
        let req := requirements (cf_OS cfg) (cf_Arch cfg) step in
        let matched := Match req instances in
        if decide (length matched = 0%nat)
        then recordUnschedulable (wt_Tenant w) run id (Explain req instances) state
        else if negb aged then gret tt
        else recordWaiting (wt_Tenant w) run step matched state
    end.

(** The engines of a tenant, listed once a sweep. *)
Definition fleet_of (fleets : gmap string (list Instance_)) (tenantID : string)
    : go (gmap string (list Instance_) * list Instance_) :=
  match fleets !! tenantID with
  | Some instances => gret (fleets, instances)
  | None => instances <~ list_engines tenantID;; gret (<[tenantID := instances]> fleets, instances)
  end.

(** [errors.Join] of what was collected. *)
Definition join_errors (errs : list GoErr) : go unit :=
  match errs with
  | [] => gret tt
  | e :: errs => gfail (foldl ErrJoin e errs)
  end.

Definition surface_next (fuel : nat) (acc : gmap string (list Instance_) * list GoErr) (w : Waiting)
    : go (gmap string (list Instance_) * list GoErr) :=
  fi <~ fleet_of acc.1 (wt_Tenant w);;
  r <- surfaceOne fuel w fi.2;;
  gret (fi.1, match r with Ok _ => acc.2 | Err e => acc.2 ++ [e] end).

Definition surfaceStranded (fuel : nat) : go unit :=
  waiting <~ wrap "scheduler: listing dispatches waiting for an engine" (act OUnaccepted);;
  acc <~ gfold (surface_next fuel) (∅, []) waiting;;
  join_errors acc.2.

Definition sweep_one (fuel : nat) (recorded : Z) (orphan : Orphan) : go Z :=
  ok <~ recordOrphan orphan;;
  if negb ok then gret recorded
  else _ <~ Advance fuel (or_Tenant orphan) (or_Run orphan);; gret (recorded + 1).

Definition SweepOrphans (fuel : nat) : go Z :=
  orphans <~ wrap "scheduler: sweeping orphaned leases" (act OExpire);;
  recorded <~ gfold (sweep_one fuel) 0 orphans;;
  _ <~ surfaceStranded fuel;;
  gret recorded.

End Scheduler.
