(* ===== verification/ControlFacts.v ===== *)
(** * What the scheduler may do, whatever happens around it

    Every theorem is about every trace of a program of [Control]: the answers
    to its calls are arbitrary, so any other plane may have done anything
    between two of them. *)

From S2P Require Import Prelude Bytes Proto Dag DagFacts Effects Cache Policy Taint.
From S2P Require Import RunStore Lease Fairness Dynamic Fleet FleetFacts Sched SchedFacts Program Plane.
From S2P Require Import Control.

Lemma safe_gbind_keeps {A B} G (c : go A) (f : A → go B) h :
  safe G c (λ _ _, True) h → (∀ a h', extends h h' → safe G (f a) (λ _ _, True) h') →
  safe G (gbind c f) (λ _ _, True) h.
Proof. intros Hs Hf. apply safe_gbind, (safe_keeps _ _ _ _ Hs). intros [a|e] h' He; [by apply Hf|done]. Qed.

Lemma safe_cbind_keeps {A B} G (c : cmd A) (f : A → cmd B) h :
  safe G c (λ _ _, True) h → (∀ a h', extends h h' → safe G (f a) (λ _ _, True) h') →
  safe G (cbind c f) (λ _ _, True) h.
Proof. intros Hs Hf. apply safe_bind, (safe_keeps _ _ _ _ Hs). exact Hf. Qed.

Lemma safe_wrap_any {A} G msg (c : go A) h : safe G c (λ _ _, True) h → safe G (wrap msg c) (λ _ _, True) h.
Proof. intros Hs. apply safe_wrap. eapply safe_mono; [|exact Hs]. done. Qed.

(** The calls of the transaction that is open. *)
Definition is_begin (d : did) : bool := match d with Did OTxBegin _ => true | _ => false end.
Definition current_tx (h : list did) : list did := foldl (λ tx d, if is_begin d then [] else tx ++ [d]) [] h.

Lemma current_tx_snoc h d : current_tx (h ++ [d]) = if is_begin d then [] else current_tx h ++ [d].
Proof. unfold current_tx. by rewrite foldl_app. Qed.

Section Facts.
Context `{Payloads, GenCodec}.
Context (sha256 : string → string) (decode_command : string → option commandSpec) (cfg : Config).

(** ** What a history says *)

(** The run's log was read, and this is what it said. *)
Definition loaded (tenant run : string) (state : runState) (h : list did) : Prop :=
  ∃ evs, Did (OReplay tenant run) (Ok evs) ∈ h ∧ load_events evs = Ok state.

(** ... with the steps this very pass has recorded as awaiting a replay. *)
Definition loaded_marked (tenant run : string) (state : runState) (h : list did) : Prop :=
  ∃ read marks, loaded tenant run read h ∧ state = set_awaiting marks read.

(** The run's graph: the pinned definition with the realised fragments. *)
Definition graph_read (tenant : string) (state : runState) (pipeline : Pipeline) (h : list did) : Prop :=
  ∃ authored, Did (ODefinition tenant (st_pipelineID state) (st_revisionID state)) (Ok authored) ∈ h
    ∧ spliceRealised authored (st_fragments state) = Ok pipeline.

(** Policy allowed the step and each of its secrets, on the facts it was given. *)
Definition approved (tenant run stepID : string) (h : list did) : Prop :=
  ∃ pipeline step state signed upstream caps,
    step_id step = stepID ∧ loaded_marked tenant run state h ∧ graph_read tenant state pipeline h
    ∧ step ∈ pl_steps pipeline ∧
    let i := permit_input cfg tenant pipeline step state signed upstream caps in
    (∃ ref digest, Did (OProvenance tenant ref digest) (signed, upstream, None) ∈ h)
    ∧ (∃ d, Did (OEvaluate i) (d, None) ∈ h ∧ dec_Allow d = true)
    ∧ ∀ s, s ∈ step_secrets step →
        ∃ d, Did (OEvaluate (with_secret i (sec_name s))) (d, None) ∈ h ∧ dec_Allow d = true.

(** The fair queue handed the step back: an earlier pass put it there. *)
Definition queued (tenant run stepID : string) (h : list did) : Prop :=
  ∃ n items item, Did (OQueueNext n) (Ok items) ∈ h ∧ item ∈ items
    ∧ qi_TenantID item = tenant ∧ qi_RunID item = run ∧ qi_StepID item = stepID.

(** The log that was read, in an open run, entitles the step to be dispatched
    in the graph it pins. *)
Definition ready_in_log (tenant run : string) (s : Step) (h : list did) : Prop :=
  ∃ state pipeline now, loaded tenant run state h ∧ graph_read tenant state pipeline h ∧ st_completed state = false
    ∧ entitled pipeline state now s.

(** A queued step, looked at again: its run is open, no dispatch of the attempt
    it was queued for is in the log, it is not held at a gate, and the run's
    graph still has it. *)
Definition due_in_log (tenant run : string) (s : Step) (h : list did) : Prop :=
  ∃ n items item state pipeline, Did (OQueueNext n) (Ok items) ∈ h ∧ item ∈ items
    ∧ qi_TenantID item = tenant ∧ qi_RunID item = run ∧ qi_StepID item = step_id s
    ∧ loaded tenant run state h ∧ graph_read tenant state pipeline h ∧ st_completed state = false
    ∧ attempts_of state (step_id s) < qi_Attempt item
    ∧ ¬ (terminal_of state (step_id s) = "" ∧ step_id s ∈ st_gated state)
    ∧ stepByID pipeline (step_id s) = Some s.

(** What the rest of a pass may do with a step. *)
Record cleared (tenant run : string) (s : Step) (h : list did) : Prop := mkCleared
  { cl_allowed : cf_Policy cfg = true → approved tenant run (step_id s) h ∨ queued tenant run (step_id s) h;
    cl_due : ready_in_log tenant run s h ∨ due_in_log tenant run s h }.

(** An engine of the fleet, as it was just listed, can run the step: ready,
    with a slot, on the platform, of the engine type and with every capability
    the step names. *)
Definition runnable (tenant : string) (s : Step) (h : list did) : Prop :=
  ∃ instances i, Did (OInstances tenant) (Ok instances) ∈ h ∧ i ∈ instances
    ∧ fits (requirements (cf_OS cfg) (cf_Arch cfg) s) i.

Definition leased (tenant run stepID : string) (attempt : Z) (t : Token) (h : list did) : Prop :=
  ∃ ttl, Did (OOffer tenant run stepID attempt ttl) (Ok t) ∈ h
       ∨ Did (OClaim tenant run stepID attempt ttl) (Ok t) ∈ h.

(** The attempt was leased, and the log read since has no dispatch of it. *)
Definition fresh_attempt (tenant run stepID : string) (attempt : Z) (t : Token) (h : list did) : Prop :=
  ∃ h1 h2 state, h = h1 ++ h2 ∧ leased tenant run stepID attempt t h1 ∧ loaded tenant run state h2
    ∧ attempts_of state stepID < attempt.

(** What goes out with the event: the message, or the result served. *)
Definition accompanied (tenant : string) (e : Event) (t : Token) (s : Step) (h : list did) : Prop :=
  ∃ d, ev_Payload e = MarshalDispatched d ∧ dp_Attempt d = ev_Attempt e ∧ dp_Fence d = tk_Fence t ∧
    if dp_CacheHit d
    then ∃ e', Did (OTxAppend tenant e') (Ok tt) ∈ current_tx h ∧ ev_Type e' = StepSucceeded
           ∧ ev_RunID e' = ev_RunID e ∧ ev_StepID e' = ev_StepID e ∧ ev_Attempt e' = ev_Attempt e
    else runnable tenant s h ∧ ∃ m,
           Did (OTxEnqueue tenant (dispatchSubject sha256 (cf_Tier cfg) s) m) (Ok tt) ∈ current_tx h
           ∧ jd_Step m = s ∧ jd_RunId m = ev_RunID e ∧ jd_StepId m = ev_StepID e ∧ jd_Attempt m = ev_Attempt e
           ∧ jd_Tenant m = tenant ∧ jd_FenceToken m = EncodeFence tenant (tk_Value t) (tk_Fence t).

(** A dispatch that may be committed. *)
Definition placed (tenant : string) (e : Event) (h : list did) : Prop :=
  ∃ t s, (∃ pre, h = pre ++ [Did (OValidate t) (Ok tt)]) ∧ step_id s = ev_StepID e
    ∧ fresh_attempt tenant (ev_RunID e) (ev_StepID e) (ev_Attempt e) t h
    ∧ accompanied tenant e t s h
    ∧ cleared tenant (ev_RunID e) s h.

(** The result cache gave these outputs, and the bytes of each are pinned for
    the run. *)
Definition cached (tenant run : string) (outputs : list OutputRef) (h : list did) : Prop :=
  (∃ key, Did (OCacheLookup tenant key) (Ok (Some outputs)) ∈ h)
  ∧ ∀ out, out ∈ outputs → Did (OReference tenant (out_digest out) run) (Ok tt) ∈ h.

(** A success served from the cache: under a lease proved last, for an attempt
    not yet dispatched, with its dispatch beside it, and what it reports is
    what the cache gave. *)
Definition served (tenant : string) (e : Event) (h : list did) : Prop :=
  ev_Type e = StepSucceeded ∧
  ∃ t outputs d e', (∃ pre, h = pre ++ [Did (OValidate t) (Ok tt)])
    ∧ fresh_attempt tenant (ev_RunID e) (ev_StepID e) (ev_Attempt e) t h
    ∧ cached tenant (ev_RunID e) outputs h
    ∧ MarshalStatus (hit_status tenant (ev_RunID e) (ev_StepID e) (ev_Attempt e) t outputs) = Some (ev_Payload e)
    ∧ Did (OTxAppend tenant e') (Ok tt) ∈ current_tx h ∧ ev_Type e' = StepDispatched
    ∧ ev_RunID e' = ev_RunID e ∧ ev_StepID e' = ev_StepID e ∧ ev_Attempt e' = ev_Attempt e
    ∧ ev_Payload e' = MarshalDispatched d ∧ dp_CacheHit d = true.

(** What a transaction may hold: a dispatch, and the success of a step served
    from the cache beside its dispatch. *)
Definition committable (h : list did) : Prop :=
  ∀ tenant e, Did (OTxAppend tenant e) (Ok tt) ∈ current_tx h →
    (ev_Type e = StepDispatched → placed tenant e h) ∧ (ev_Type e ≠ StepDispatched → served tenant e h).

(** The run was read, found open, and its plan idle. *)
Definition found_idle (tenant run : string) (pipeline : Pipeline) (state : runState) (pl : planned) (h : list did)
    : Prop :=
  ∃ g now, loaded tenant run state h ∧ graph_read tenant state pipeline h ∧ Build (Some pipeline) = Ok g
    ∧ st_completed state = false ∧ pl = plan pipeline g state now ∧ idle pl = true.

Definition appended (tenant run kind : string) (h : list did) : Prop :=
  ∃ e, Did (OAppend tenant e) (Ok tt) ∈ h ∧ ev_RunID e = run ∧ ev_Type e = kind.

(** Policy said no, or could not be asked. *)
Definition refused_by_policy (tenant : string) (h : list did) : Prop :=
  (∃ i d err, Did (OEvaluate i) (d, err) ∈ h ∧ i_TenantID i = tenant ∧ (dec_Allow d = false ∨ err ≠ None))
  ∨ (∃ ref digest s u e, Did (OProvenance tenant ref digest) (s, u, Some e) ∈ h)
  ∨ (∃ rev e, Did (OLockfile tenant rev) (Err e) ∈ h).

(** The attempt is still the step's, and nothing has ended or parked it. *)
Definition still_out (tenant : string) (e : Event) (h : list did) : Prop :=
  ∃ state, loaded tenant (ev_RunID e) state h ∧ st_completed state = false
    ∧ st_terminal state !! ev_StepID e = None ∧ attempts_of state (ev_StepID e) = ev_Attempt e
    ∧ ev_StepID e ∉ st_gated state ∧ ev_StepID e ∉ st_resumed state.

(** An engine's report under a lease that was current when it was checked,
    for a step the log has no verdict on. *)
Definition reported (tenant : string) (e : Event) (h : list did) : Prop :=
  ∃ st t state, Did (OValidate t) (Ok tt) ∈ h
    ∧ DecodeFence (js_FenceToken st) = Ok (tenant, (tk_Value t, tk_Fence t))
    ∧ terminalEvent (js_Phase st) = Some (ev_Type e) ∧ MarshalStatus st = Some (ev_Payload e)
    ∧ js_RunId st = ev_RunID e ∧ js_StepId st = ev_StepID e ∧ js_Attempt st = ev_Attempt e
    ∧ loaded tenant (ev_RunID e) state h ∧ st_terminal state !! ev_StepID e = None.

Record appendable (tenant : string) (e : Event) (h : list did) : Prop := mkAppendable
  { app_completed : ev_Type e = RunCompleted → ∃ pipeline state pl,
      found_idle tenant (ev_RunID e) pipeline state pl h ∧ p_exhausted pl = [] ∧ p_blocked pl = [];
    app_failed : ev_Type e = RunFailed →
      (∃ pipeline state pl, found_idle tenant (ev_RunID e) pipeline state pl h ∧ p_exhausted pl ≠ [])
      ∨ appended tenant (ev_RunID e) StepPolicyDenied h ∨ appended tenant (ev_RunID e) StepSecretUnavailable h;
    app_lost : ev_Type e = StepAttemptLost → still_out tenant e h;
    app_verdict : ev_Type e = StepSucceeded ∨ ev_Type e = StepFailed → reported tenant e h;
    app_denied : ev_Type e = StepPolicyDenied → refused_by_policy tenant h;
    app_dispatch : ev_Type e ≠ StepDispatched }.

(** ** The guard of every call *)

Definition plane_guard : guard := λ X o h,
  match o with
  | OTxCommit => committable h
  | OAppend tenant e => appendable tenant e h
  | OQueueAdd item =>
      (cf_Policy cfg = true → approved (qi_TenantID item) (qi_RunID item) (qi_StepID item) h)
      ∧ ∃ s, step_id s = qi_StepID item ∧ ready_in_log (qi_TenantID item) (qi_RunID item) s h
  | OTake tenant run s _ => (cf_Policy cfg = true → approved tenant run (step_id s) h) ∧ ready_in_log tenant run s h
  | _ => True
  end.

Abbreviation ok c h := (safe plane_guard c (λ _ _, True) h).

(** ** The facts are kept as the history grows *)

Lemma loaded_keeps tenant run state h h' : extends h h' → loaded tenant run state h → loaded tenant run state h'.
Proof. intros He (evs & Hin & Hl). exists evs. split; [by eapply extends_elem|done]. Qed.

Lemma loaded_marked_keeps tenant run state h h' :
  extends h h' → loaded_marked tenant run state h → loaded_marked tenant run state h'.
Proof. intros He (read & marks & Hl & ->). exists read, marks. split; [by eapply loaded_keeps|done]. Qed.

Lemma graph_read_keeps tenant state pipeline h h' :
  extends h h' → graph_read tenant state pipeline h → graph_read tenant state pipeline h'.
Proof. intros He (a & Hin & Hs). exists a. split; [by eapply extends_elem|done]. Qed.

Lemma approved_keeps tenant run id h h' : extends h h' → approved tenant run id h → approved tenant run id h'.
Proof.
  intros He (pipeline & step & state & signed & up & caps & Hid & Hl & Hg & Hin & (r & dg & Hp) & (d & Hd & Ha) & Hs).
  exists pipeline, step, state, signed, up, caps.
  split; [done|]. split; [by eapply loaded_marked_keeps|]. split; [by eapply graph_read_keeps|]. split; [done|].
  cbv zeta. split; [|split].
  - exists r, dg. by eapply extends_elem.
  - exists d. split; [by eapply extends_elem|done].
  - intros s Hsin. destruct (Hs s Hsin) as (d' & Hd' & Ha'). exists d'. split; [by eapply extends_elem|done].
Qed.

Lemma ready_keeps tenant run s h h' : extends h h' → ready_in_log tenant run s h → ready_in_log tenant run s h'.
Proof.
  intros He (state & pipeline & now & Hl & Hg & Hrest). exists state, pipeline, now.
  split; [by eapply loaded_keeps|]. split; [by eapply graph_read_keeps|done].
Qed.

Lemma due_keeps tenant run s h h' : extends h h' → due_in_log tenant run s h → due_in_log tenant run s h'.
Proof.
  intros He (n & items & item & state & pipeline & Hq & Hi & H1 & H2 & H3 & Hl & Hg & Hrest).
  exists n, items, item, state, pipeline. split_and!; try done;
    [by eapply extends_elem|by eapply loaded_keeps|by eapply graph_read_keeps|apply Hrest..].
Qed.

Lemma cleared_keeps tenant run s h h' : extends h h' → cleared tenant run s h → cleared tenant run s h'.
Proof.
  intros He [Hc Hd]. split.
  - intros Hp. destruct (Hc Hp) as [Ha|(n & items & item & Hin & Hrest)]; [left; by eapply approved_keeps|right].
    exists n, items, item. split; [by eapply extends_elem|done].
  - destruct Hd; [left; by eapply ready_keeps|right; by eapply due_keeps].
Qed.

Lemma runnable_keeps tenant s h h' : extends h h' → runnable tenant s h → runnable tenant s h'.
Proof. intros He (l & i & Hl & Hi). exists l, i. split; [by eapply extends_elem|done]. Qed.

Lemma cached_keeps tenant run outs h h' : extends h h' → cached tenant run outs h → cached tenant run outs h'.
Proof.
  intros He [[key Hk] Ho]. split; [exists key; by eapply extends_elem|]. intros out Hout. eapply extends_elem; [done|by apply Ho].
Qed.

Lemma still_out_keeps tenant e h h' : extends h h' → still_out tenant e h → still_out tenant e h'.
Proof. intros He (state & Hl & Hrest). exists state. split; [by eapply loaded_keeps|done]. Qed.

Lemma appended_keeps tenant run kind h h' : extends h h' → appended tenant run kind h → appended tenant run kind h'.
Proof. intros He (e & Hin & Hrest). exists e. split; [by eapply extends_elem|done]. Qed.

Lemma refused_keeps tenant h h' : extends h h' → refused_by_policy tenant h → refused_by_policy tenant h'.
Proof.
  intros He [(i & d & err & Hin & Hr)|[(r & dg & s & u & e & Hin)|(rev & e & Hin)]].
  - left. exists i, d, err. split; [by eapply extends_elem|done].
  - right; left. exists r, dg, s, u, e. by eapply extends_elem.
  - right; right. exists rev, e. by eapply extends_elem.
Qed.

Lemma found_idle_keeps tenant run pipeline state pl h h' :
  extends h h' → found_idle tenant run pipeline state pl h → found_idle tenant run pipeline state pl h'.
Proof.
  intros He (g & now & Hl & Hg & Hrest). exists g, now.
  split; [by eapply loaded_keeps|]. split; [by eapply graph_read_keeps|done].
Qed.

(** The kinds of event the guard asks nothing of. *)
Lemma free_kind tenant e h :
  ev_Type e ∉ [RunCompleted; RunFailed; StepAttemptLost; StepSucceeded; StepFailed; StepPolicyDenied; StepDispatched] →
  appendable tenant e h.
Proof. rewrite !not_elem_of_cons. intros Hn. destruct_and!. split; tauto. Qed.

(** ** Programs that only read *)

Lemma ok_act {X} (o : op X) h : plane_guard X o h → ok (act o) h.
Proof. intros HG. split; [done|done]. Qed.

Lemma ok_done {A} (a : A) h : ok (Done a) h.
Proof. done. Qed.

(** [load]: what it returns is what the log said, in the calls it made. *)
Lemma safe_load tenant run (Q : result GoErr runState → list did → Prop) h :
  (∀ tr state, loaded tenant run state tr → Q (Ok state) (h ++ tr)) → (∀ e h', extends h h' → Q (Err e) h') →
  safe plane_guard (load tenant run) Q h.
Proof.
  intros Hok Herr. apply safe_gbind, safe_wrap_act; [done| |intros e; apply Herr; auto with dhole].
  intros evs. unfold lift. destruct (load_events evs) as [state|] eqn:El; [|apply Herr; auto with dhole].
  apply Hok. exists evs. split; [by left|done].
Qed.

Lemma safe_graphOf tenant run state (Q : result GoErr Pipeline → list did → Prop) h :
  (∀ p tr, graph_read tenant state p tr → Q (Ok p) (h ++ tr)) → (∀ e h', extends h h' → Q (Err e) h') →
  safe plane_guard (graphOf tenant run state) Q h.
Proof.
  intros Hok Herr. apply safe_gbind, safe_wrap_act; [done| |intros e; apply Herr; auto with dhole].
  intros authored. unfold lift. destruct (spliceRealised _ _) as [p|] eqn:Es; [|apply Herr; auto with dhole].
  apply Hok. exists authored. split; [by left|done].
Qed.

Lemma safe_append tenant run step attempt kind payload (Q : result GoErr unit → list did → Prop) h :
  (∀ t, appendable tenant (mkEvent run step attempt 0 kind payload t) (h ++ [Did ONow t])) →
  (∀ h', extends h h' → appended tenant run kind h' → Q (Ok tt) h') → (∀ e h', extends h h' → Q (Err e) h') →
  safe plane_guard (append_event tenant run step attempt kind payload) Q h.
Proof.
  intros Ha Hok Herr. apply safe_act_bind; [done|]. intros t. apply safe_wrap_act; [apply Ha| |].
  - intros []. apply Hok; [etrans; apply extends_snoc|]. eexists. split; [apply snoc_elem|done].
  - intros e. apply Herr. etrans; apply extends_snoc.
Qed.

Lemma safe_quiet {A} (c : cmd A) (Q : result GoErr A → list did → Prop) h :
  safe plane_guard c (λ a, Q (Ok a)) h → safe plane_guard (quiet c) Q h.
Proof. intros Hs. by apply safe_bind. Qed.

Lemma ok_append tenant run step attempt kind payload h :
  kind ∉ [RunCompleted; RunFailed; StepAttemptLost; StepSucceeded; StepFailed; StepPolicyDenied; StepDispatched] →
  ok (append_event tenant run step attempt kind payload) h.
Proof. intros Hk. apply safe_append; [|done..]. intros t. by apply free_kind. Qed.

Lemma ok_load tenant run h : ok (load tenant run) h.
Proof. by apply safe_load. Qed.
Lemma ok_graphOf tenant run state h : ok (graphOf tenant run state) h.
Proof. by apply safe_graphOf. Qed.

(** Walks a program whose calls carry no guard. *)
Ltac ok_step :=
  lazymatch goal with
  | |- safe _ (Done _) _ _ => exact I
  | |- safe _ (gret _) _ _ => exact I
  | |- safe _ (gfail _) _ _ => exact I
  | |- safe _ (act _) _ _ => apply ok_act; exact I
  | |- safe _ (wrap _ _) _ _ => apply safe_wrap_any
  | |- safe _ (quiet _) _ _ => apply safe_cbind_keeps; [|intros; exact I]
  | |- safe _ (lift _ _) _ _ => unfold lift
  | |- safe _ (gbind _ _) _ _ => apply safe_gbind_keeps; [|intros ? ? ?]
  | |- safe _ (cbind _ _) _ _ => apply safe_cbind_keeps; [|intros ? ? ?]
  | |- safe _ (load _ _) _ _ => apply ok_load
  | |- safe _ (graphOf _ _ _) _ _ => apply ok_graphOf
  | |- safe _ (append_event _ _ _ _ _ _) _ _ => apply ok_append; by vm_compute; set_solver
  | |- safe _ (if ?b then _ else _) _ _ => destruct b
  | |- safe _ (match ?x with _ => _ end) _ _ => destruct x
  end.

Lemma ok_revokeSecrets tenant run id n h : ok (revokeSecrets cfg tenant run id n) h.
Proof. unfold revokeSecrets. repeat ok_step. Qed.
Lemma ok_discardSecrets refs h : ok (discardSecrets cfg refs) h.
Proof. unfold discardSecrets. repeat ok_step. Qed.
Lemma ok_revokeRun tenant run h : ok (revokeRunSecrets cfg tenant run) h.
Proof. unfold revokeRunSecrets. repeat ok_step. Qed.
Lemma ok_secretRefs tenant run s n h : ok (secretRefs cfg tenant run s n) h.
Proof. unfold secretRefs. repeat ok_step. Qed.
Lemma ok_unschedulable tenant run id reason state h : ok (recordUnschedulable tenant run id reason state) h.
Proof. unfold recordUnschedulable. repeat ok_step. Qed.
Lemma ok_awaiting tenant run state s h : ok (recordAwaitingReplay tenant run state s) h.
Proof. unfold recordAwaitingReplay. repeat ok_step. Qed.
Lemma ok_give_back r h : ok (give_back r) h.
Proof. unfold give_back. repeat ok_step. Qed.
Lemma ok_hold tenant run id r h : ok (hold tenant run id r) h.
Proof. unfold hold. repeat (ok_step || apply ok_give_back). Qed.
Lemma ok_releaseHold tenant run id h : ok (releaseHold tenant run id) h.
Proof. unfold releaseHold. repeat (ok_step || apply ok_give_back). Qed.
Lemma ok_recordWaiting tenant run s matched state h : ok (recordWaiting sha256 cfg tenant run s matched state) h.
Proof. unfold recordWaiting. destruct (slots_busy matched). case_decide; repeat ok_step. Qed.
Lemma ok_list_engines tenant h : ok (list_engines tenant) h.
Proof. unfold list_engines. repeat ok_step. Qed.
Lemma ok_provenance tenant s state h : ok (provenance tenant s state) h.
Proof. unfold provenance. repeat ok_step. Qed.
Lemma ok_reachable tenant s h : ok (reachableCapabilities cfg tenant s) h.
Proof. unfold reachableCapabilities. repeat (ok_step || apply ok_list_engines). Qed.
Lemma ok_reportTier kind state msg h : ok (reportTier cfg kind state msg) h.
Proof. unfold reportTier. repeat ok_step. Qed.
Lemma ok_tierIdentity tenant kind h : ok (tierIdentity cfg tenant kind) h.
Proof. unfold tierIdentity. repeat (ok_step || apply ok_reportTier). Qed.
Lemma ok_cacheKey tenant p s state h : ok (cacheKey sha256 cfg tenant p s state) h.
Proof. unfold cacheKey. repeat (ok_step || apply ok_tierIdentity). Qed.

(** [true] only when the bytes of every output were pinned. *)
Lemma safe_references tenant run id outs (Q : result GoErr bool → list did → Prop) h :
  (∀ h', extends h h' → (∀ out, out ∈ outs → Did (OReference tenant (out_digest out) run) (Ok tt) ∈ h') → Q (Ok true) h') →
  (∀ h', Q (Ok false) h') → (∀ e h', Q (Err e) h') →
  safe plane_guard (reference_all tenant run id outs) Q h.
Proof.
  intros Hok Hno Herr. revert h Hok. induction outs as [|out outs IH]; intros h Hok; cbn [reference_all].
  { apply Hok; [done|]. by intros ? ?%elem_of_nil. }
  apply safe_act_bind; [done|]. intros [[]|e]; [|destruct (Is _ _); [apply Hno|apply Herr]]. apply IH.
  intros h' He Hall. apply Hok; [by etrans; [apply extends_snoc|]|]. intros x [->|Hx]%elem_of_cons; [|by apply Hall].
  eapply extends_elem; [exact He|apply snoc_elem].
Qed.

Lemma ok_cacheEntry tenant st state h : ok (recordCacheEntry sha256 cfg tenant st state) h.
Proof. unfold recordCacheEntry. repeat (ok_step || apply ok_cacheKey). Qed.
Lemma ok_admit tenant run pl s state h : ok (admit_step cfg tenant run pl s state) h.
Proof. unfold admit_step. repeat (ok_step || apply ok_unschedulable). Qed.

(** ** Closing and refusing *)

(** The demands on a known kind of event: all but its own are void. *)
Ltac appendable_as :=
  split; cbn [ev_Type ev_RunID ev_StepID ev_Attempt];
  try (intros Hkind; exfalso; revert Hkind; vm_compute; intuition discriminate); intros _.

Lemma ok_fail_run tenant run steps h :
  (appended tenant run StepPolicyDenied h ∨ appended tenant run StepSecretUnavailable h
   ∨ ∃ pipeline state pl, found_idle tenant run pipeline state pl h ∧ p_exhausted pl ≠ []) →
  ok (fail_run cfg tenant run steps) h.
Proof.
  intros Hwhy. apply safe_gbind, safe_append; [|intros; apply safe_cbind_keeps; [apply ok_revokeRun|done]|done].
  intros t. appendable_as.
  destruct Hwhy as [Ha|[Ha|(p & st & pl & Hf & Hx)]].
  - right; left. eapply appended_keeps; [|exact Ha]. auto with dhole.
  - right; right. eapply appended_keeps; [|exact Ha]. auto with dhole.
  - left. exists p, st, pl. split; [|done]. eapply found_idle_keeps; [|exact Hf]. auto with dhole.
Qed.

Lemma ok_complete tenant run h :
  (∃ pipeline state pl, found_idle tenant run pipeline state pl h ∧ p_exhausted pl = [] ∧ p_blocked pl = []) →
  ok (complete cfg tenant run) h.
Proof.
  intros (p & st & pl & Hf & Hx). apply safe_gbind, safe_append;
    [|intros; apply safe_cbind_keeps; [apply ok_revokeRun|done]|done].
  intros t. appendable_as. exists p, st, pl. split; [|done].
  eapply found_idle_keeps; [|exact Hf]. auto with dhole.
Qed.

Lemma ok_secretRefusal tenant run s reason h : ok (recordSecretRefusal cfg tenant run s reason) h.
Proof.
  apply safe_gbind, safe_append; [|intros h' _ Ha; apply ok_fail_run; by right; left|done].
  intros t. apply free_kind. vm_compute. set_solver.
Qed.

Lemma ok_refuseSecrets tenant run s h : ok (refuseSecrets cfg tenant run s) h.
Proof. unfold refuseSecrets. repeat (ok_step || apply ok_secretRefusal). Qed.

Lemma ok_refuseBuiltin tenant run s h : ok (refuseBuiltinSecrets cfg tenant run s) h.
Proof. unfold refuseBuiltinSecrets. repeat (ok_step || apply ok_secretRefusal). Qed.

Lemma ok_denyFor tenant run s d signed up secret h :
  refused_by_policy tenant h → ok (denyFor cfg tenant run s d signed up secret) h.
Proof.
  intros Hr. apply safe_gbind, safe_append; [|intros h' _ Ha; apply ok_fail_run; by left|done].
  intros t. appendable_as. eapply refused_keeps; [|exact Hr]. auto with dhole.
Qed.

(** ** Policy *)

Lemma safe_deny tenant run s d signed up secret (Q : result GoErr bool → list did → Prop) h :
  refused_by_policy tenant h → (∀ r h', extends h h' → r ≠ Ok true → Q r h') →
  safe plane_guard (_ <~ denyFor cfg tenant run s d signed up secret;; gret false) Q h.
Proof.
  intros Hr Hno. apply safe_gbind, (safe_keeps _ _ _ _ (ok_denyFor _ _ _ _ _ _ _ _ Hr)).
  intros [u|e] h' He; by apply Hno.
Qed.

(** [true] only on an allow that was asked for and answered. *)
Lemma safe_decide tenant run s i secret (Q : result GoErr bool → list did → Prop) h :
  i_TenantID i = tenant →
  (∀ d, dec_Allow d = true → Q (Ok true) (h ++ [Did (OEvaluate i) (d, None)])) →
  (∀ r h', extends h h' → r ≠ Ok true → Q r h') →
  safe plane_guard (decide_policy cfg tenant run s i secret) Q h.
Proof.
  intros Hi Hok Hno. apply safe_act_bind; [done|]. intros [d err].
  assert (Hdeny : ∀ d', refused_by_policy tenant (h ++ [Did (OEvaluate i) (d, err)]) →
    safe plane_guard (_ <~ denyFor cfg tenant run s d' (i_Signed i) (i_Upstream i) secret;; gret false) Q
      (h ++ [Did (OEvaluate i) (d, err)])).
  { intros d' Hr. apply safe_deny; [done|]. intros r h' He. apply Hno. by etrans; [apply extends_snoc|]. }
  destruct err as [e|]; cbv beta iota zeta; cbn [dec_Allow].
  - apply Hdeny. left. exists i, d, (Some e). split; [apply snoc_elem|]. split; [done|by right].
  - destruct (dec_Allow d) eqn:Ea; [by apply Hok|]. apply Hdeny. left. exists i, d, None.
    split; [apply snoc_elem|]. split; [done|by left].
Qed.

(** The answers [decide_secrets] needs before it says yes. *)
Definition secrets_allowed (i : Input) (secrets : list StepSecret) (h : list did) : Prop :=
  ∀ s, s ∈ secrets → ∃ d, Did (OEvaluate (with_secret i (sec_name s))) (d, None) ∈ h ∧ dec_Allow d = true.

Lemma safe_decide_secrets tenant run s i secrets (Q : result GoErr bool → list did → Prop) h :
  i_TenantID i = tenant →
  (∀ h', extends h h' → secrets_allowed i secrets h' → Q (Ok true) h') →
  (∀ r h', extends h h' → r ≠ Ok true → Q r h') →
  safe plane_guard (decide_secrets cfg tenant run s i secrets) Q h.
Proof.
  intros Hi. revert h. induction secrets as [|d secrets IH]; intros h Hok Hno; cbn [decide_secrets].
  { apply Hok; [done|]. by intros ? ?%elem_of_nil. }
  apply safe_gbind, safe_decide; [done| |].
  - intros dec Ha. apply IH.
    + intros h' He Hs. apply Hok; [by etrans; [apply extends_snoc|]|]. intros x [->|Hx]%elem_of_cons; [|by apply Hs].
      exists dec. split; [|done]. eapply extends_elem; [exact He|apply snoc_elem].
    + intros r h' He. apply Hno. by etrans; [apply extends_snoc|].
  - intros [[]|e] h' He Hr; [done| |]; by apply Hno.
Qed.

Lemma safe_permit tenant run pipeline s state (Q : result GoErr bool → list did → Prop) h :
  loaded_marked tenant run state h → graph_read tenant state pipeline h → s ∈ pl_steps pipeline →
  (∀ h', extends h h' → (cf_Policy cfg = true → approved tenant run (step_id s) h') → Q (Ok true) h') →
  (∀ r h', extends h h' → r ≠ Ok true → Q r h') →
  safe plane_guard (permit cfg tenant run pipeline s state) Q h.
Proof.
  intros Hl Hg Hs Hok Hno. unfold permit. destruct (cf_Policy cfg) eqn:Ep; [|by apply Hok].
  apply safe_bind. unfold provenance. apply safe_act_bind; [done|]. intros [lock|e].
  2:{ apply safe_deny; [right; right; eexists _, _; apply snoc_elem|].
      intros r h' He. apply Hno. by etrans; [apply extends_snoc|]. }
  set (h1 := h ++ [Did (OLockfile _ _) (Ok lock)]). apply safe_act; [done|]. intros [[signed up] [e|]].
  { apply safe_deny; [right; left; eexists _, _, _, _, _; apply snoc_elem|].
    intros r h' He. apply Hno. etrans; [|exact He]. etrans; apply extends_snoc. }
  set (h2 := h1 ++ [Did (OProvenance _ _ _) (signed, up, None)]).
  assert (He2 : extends h h2) by (etrans; apply extends_snoc).
  apply safe_gbind, (safe_keeps _ _ _ _ (ok_reachable _ _ _)). intros [caps|e] h3 He3; [|apply Hno; [by etrans|done]].
  apply safe_gbind, safe_decide; [done| |].
  - intros d Ha. apply safe_decide_secrets; [done| |].
    + intros h' He' Hsec. assert (He : extends h h') by (etrans; [exact He2|]; etrans; [exact He3|]; by etrans; [apply extends_snoc|]).
      apply Hok; [done|]. intros _. exists pipeline, s, state, signed, up, caps.
      split; [done|]. split; [by eapply loaded_marked_keeps|]. split; [by eapply graph_read_keeps|]. split; [done|]. cbv zeta.
      split; [|split; [|exact Hsec]].
      * eexists _, _. eapply extends_elem; [|apply snoc_elem]. etrans; [exact He3|]. by etrans; [apply extends_snoc|].
      * exists d. split; [|done]. eapply extends_elem; [exact He'|apply snoc_elem].
    + intros r h' He' Hr. apply Hno; [|done]. etrans; [exact He2|]. etrans; [exact He3|]. by etrans; [apply extends_snoc|].
  - intros [[]|e] h' He' Hr; [done| |]; (apply Hno; [|done]); etrans; [exact He2|by etrans|exact He2|by etrans].
Qed.

(** ** Attempts that are lost *)

Lemma loaded_app_r tenant run state h tr : loaded tenant run state tr → loaded tenant run state (h ++ tr).
Proof. intros (evs & Hin & Hl). exists evs. split; [|done]. apply elem_of_app. by right. Qed.

Lemma loaded_app_l tenant run state h tr : loaded tenant run state h → loaded tenant run state (h ++ tr).
Proof. intros Hl. eapply loaded_keeps; [|exact Hl]. by exists tr. Qed.

Lemma ok_recordOrphan o h : ok (recordOrphan cfg o) h.
Proof.
  unfold recordOrphan. apply safe_gbind, safe_load; [|done]. intros tr state Hl.
  destruct (st_completed state) eqn:Ec; [done|]. case_decide as Ht; [done|]. case_decide as Ha; [done|].
  case_decide as Hg; [done|]. apply safe_gbind, safe_append; [| |done].
  - intros t. appendable_as. exists state. split_and!.
    + by apply loaded_app_l, loaded_app_r.
    + done.
    + by apply eq_None_not_Some.
    + cbn [ev_Attempt ev_StepID]; lia.
    + intros Hin. apply Hg. by left.
    + intros Hin. apply Hg. by right.
  - intros h' _ _. repeat (ok_step || apply ok_releaseHold || apply ok_revokeSecrets).
Qed.

Lemma ok_recordFencedOut tenant run id current state h : ok (recordFencedOut cfg tenant run id current state) h.
Proof. unfold recordFencedOut. repeat (ok_step || apply ok_recordOrphan). Qed.

(** ** Transactions *)

Definition appended_in_tx (d : did) : option (string * Event) :=
  match d with Did (OTxAppend tenant e) _ => Some (tenant, e) | _ => None end.

Lemma not_appended tenant e x d : appended_in_tx d = None → Did (OTxAppend tenant e) x ≠ d.
Proof. by intros Hd <-. Qed.

Lemma ok_WithTx {A} (fn : go A) h :
  (∀ h1, extends h h1 → current_tx h1 = [] →
     safe plane_guard fn (λ r h', ∀ a, r = Ok a → committable h') h1) →
  ok (WithTx fn) h.
Proof.
  intros Hfn. apply safe_act_bind; [done|]. intros [[]|e]; [|exact I].
  apply safe_bind. eapply safe_mono; [|apply Hfn; [auto with dhole|by rewrite current_tx_snoc]].
  intros [a|e] h' Hc; cbv beta iota.
  - apply safe_act_bind; [by apply (Hc a)|]. by intros [[]|e].
  - apply safe_act_bind; [done|]. by intros [].
Qed.

Lemma fresh_after tenant run id attempt t state h tr :
  leased tenant run id attempt t h → loaded tenant run state tr → attempts_of state id < attempt →
  fresh_attempt tenant run id attempt t (h ++ tr).
Proof. intros Hle Hlo Ha. by exists h, tr, state. Qed.

Lemma fresh_keeps tenant run id attempt t h h' :
  extends h h' → fresh_attempt tenant run id attempt t h → fresh_attempt tenant run id attempt t h'.
Proof.
  intros [x ->] (h1 & h2 & state & -> & Hle & Hlo & Ha). exists h1, (h2 ++ x), state.
  split; [by rewrite app_assoc|]. split; [done|]. split; [by apply loaded_app_l|done].
Qed.

Lemma ok_armGate tenant run s h : ok (armGate cfg tenant run s) h.
Proof.
  unfold armGate. ok_step; [done|]. apply safe_wrap_any, ok_WithTx. intros h1 _ Hc.
  apply safe_act; [done|]. intros r b _ t e Hin. rewrite current_tx_snoc in Hin. simpl in Hin. rewrite Hc in Hin.
  exfalso. apply list_elem_of_singleton in Hin. by apply not_appended in Hin.
Qed.

(** The transaction of a cache hit commits a dispatch and its success, under
    a lease proved last. *)
Lemma safe_hit_tx tenant run s attempt t outs payload status at_ h :
  current_tx h = [] → fresh_attempt tenant run (step_id s) attempt t h → cleared tenant run s h →
  cached tenant run outs h → MarshalStatus (hit_status tenant run (step_id s) attempt t outs) = Some status →
  payload = MarshalDispatched (mkDispatched attempt (tk_Fence t) true "" true "") →
  safe plane_guard (hit_tx tenant run (step_id s) attempt t payload status at_) (λ r h', ∀ a, r = Ok a → committable h') h.
Proof.
  intros Htx Hf Hc Hca Hm ->. unfold hit_tx. apply safe_gbind, safe_act; [done|]. intros [[]|e]; [|done].
  apply safe_gbind, safe_act; [done|]. intros [[]|e]; [|done]. apply safe_act; [done|]. intros [[]|e] a; [|done].
  intros _ t' e'. set (h' := _ ++ [Did (OValidate t) (Ok tt)]).
  assert (He : extends h h') by (etrans; [apply extends_snoc|]; etrans; apply extends_snoc).
  assert (Htx' : current_tx h' = [Did (OTxAppend tenant (mkEvent run (step_id s) attempt 0 StepDispatched
        (MarshalDispatched (mkDispatched attempt (tk_Fence t) true "" true "")) at_)) (Ok tt);
      Did (OTxAppend tenant (mkEvent run (step_id s) attempt 0 StepSucceeded status at_)) (Ok tt); Did (OValidate t) (Ok tt)]).
  { unfold h'. rewrite !current_tx_snoc. simpl. by rewrite Htx. }
  rewrite Htx'. intros Hin. apply elem_of_cons in Hin as [[= -> ->]|Hin]; [|apply elem_of_cons in Hin as [[= -> ->]|Hin]].
  - split; [|done]. intros _. exists t, s. split; [by eexists|]. split; [done|]. split; [by eapply fresh_keeps|].
    split; [|by eapply cleared_keeps]. eexists. split; [done|]. split; [done|]. split; [done|]. cbn [dp_CacheHit].
    exists (mkEvent run (step_id s) attempt 0 StepSucceeded status at_). split; [|done]. rewrite Htx'. right. left.
  - split; [done|]. intros _. split; [done|]. eexists t, outs, _, _. split; [by eexists|].
    split; [by eapply fresh_keeps|]. split; [by eapply cached_keeps|]. split; [exact Hm|].
    rewrite Htx'. split; [left|]. done.
  - exfalso. apply list_elem_of_singleton in Hin. by apply not_appended in Hin.
Qed.

Lemma ok_recordCacheHit tenant run s outs state h :
  cleared tenant run s h → cached tenant run outs h → ok (recordCacheHit cfg tenant run s outs state) h.
Proof.
  intros Hc Hca. unfold recordCacheHit. apply safe_act_bind; [done|]. intros started. set (n := u32 _).
  apply safe_act_bind; [done|]. intros [t|e]; [|by repeat ok_step].
  set (h1 := (_ ++ [Did (OClaim _ _ _ _ _) (Ok t)])).
  assert (Hle : leased tenant run (step_id s) n t h1) by (eexists; right; apply snoc_elem).
  assert (He1 : extends h h1) by (etrans; apply extends_snoc).
  apply safe_gbind, safe_load; [|done]. intros tr fresh Hl. case_decide as Hn.
  { repeat (ok_step || apply ok_recordFencedOut). }
  destruct (MarshalStatus _) as [payload|] eqn:Em; [|done]. apply safe_act_bind; [done|]. intros at_. apply safe_cbind_keeps.
  - apply ok_WithTx. intros h2 He2 Htx.
    assert (He : extends h h2) by (etrans; [exact He1|]; etrans; [by exists tr|]; by etrans; [apply extends_snoc|]).
    apply (safe_hit_tx _ _ _ _ _ outs); [done| |by eapply cleared_keeps|by eapply cached_keeps|done|done].
    eapply fresh_keeps; [|eapply fresh_after; [exact Hle|exact Hl|lia]]. by etrans; [apply extends_snoc|].
  - intros [u|e] h2 _; repeat ok_step.
Qed.

Lemma ok_serveFromCache tenant run p s state h :
  cleared tenant run s h → ok (serveFromCache sha256 cfg tenant run p s state) h.
Proof.
  intros Hc. unfold serveFromCache. ok_step; [done|]. apply safe_gbind_keeps; [apply ok_cacheKey|].
  intros [key|] h1 He1; [|done]. apply safe_gbind, safe_wrap_act; [done| |done]. intros [outs|]; [|done].
  set (h2 := h1 ++ _). apply safe_gbind, safe_references; [|done..]. intros h3 He3 Hall. apply ok_recordCacheHit.
  - eapply cleared_keeps; [|exact Hc]. etrans; [exact He1|]. by etrans; [apply extends_snoc|].
  - split; [|done]. exists key. eapply extends_elem; [exact He3|apply snoc_elem].
Qed.

(** ** Dispatch *)

(** The message is for this attempt, under this token. *)
Definition addressed (tenant run : string) (s : Step) (attempt : Z) (t : Token) (m : JobDispatch) : Prop :=
  jd_Step m = s ∧ jd_RunId m = run ∧ jd_StepId m = step_id s ∧ jd_Attempt m = attempt ∧ jd_Tenant m = tenant
  ∧ jd_FenceToken m = EncodeFence tenant (tk_Value t) (tk_Fence t).

Definition prepared (tenant run : string) (s : Step) (attempt : Z) (p : placement) (h : list did) : Prop :=
  fresh_attempt tenant run (step_id s) attempt (pm_token p) h ∧ addressed tenant run s attempt (pm_token p) (pm_message p)
  ∧ ∃ c r k, pm_payload p = MarshalDispatched (mkDispatched attempt (tk_Fence (pm_token p)) c r false k).

Lemma safe_buildDispatch tenant run p s attempt t state v (Q : result GoErr JobDispatch → list did → Prop) h :
  (∀ m h', extends h h' → addressed tenant run s attempt t m → Q (Ok m) h') →
  (∀ e h', extends h h' → Q (Err e) h') →
  safe plane_guard (buildDispatch decode_command cfg tenant run p s attempt t state v) Q h.
Proof.
  intros Hok Herr. unfold buildDispatch, lift. apply safe_gbind. destruct (commandFor _ _) as [ce|e]; [|by apply Herr].
  apply safe_gbind. destruct (inputsFor _ _ _) as [inputs|e]; [|by apply Herr].
  apply safe_gbind, safe_wrap, (safe_keeps _ _ _ _ (ok_secretRefs _ _ _ _ _)).
  intros [refs|e] h' He; [apply Hok; [done|by unfold addressed; split_and!]|by apply Herr].
Qed.

Lemma safe_prepare tenant run p s attempt matched (Q : result GoErr (option placement) → list did → Prop) h :
  (∀ pm h', extends h h' → prepared tenant run s attempt pm h' → Q (Ok (Some pm)) h') →
  (∀ r h', extends h h' → (∀ pm, r ≠ Ok (Some pm)) → Q r h') →
  safe plane_guard (prepare sha256 decode_command cfg tenant run p s attempt matched) Q h.
Proof.
  intros Hok Hno. unfold prepare. apply safe_act_bind; [done|]. intros t0. apply safe_act_bind; [done|].
  intros [t|e]; [|destruct (Is _ _); apply Hno; (done || etrans; apply extends_snoc)].
  set (h1 := (_ ++ [Did (OOffer _ _ _ _ _) (Ok t)])). assert (He1 : extends h h1) by (etrans; apply extends_snoc).
  assert (Hle : leased tenant run (step_id s) attempt t h1) by (eexists; left; apply snoc_elem).
  assert (Hno' : ∀ r h', extends h1 h' → (∀ pm, r ≠ Ok (Some pm)) → Q r h') by (intros; apply Hno; [by etrans|done]).
  clearbody h1. apply safe_gbind, safe_load; [|intros e h' He; by apply Hno']. intros tr fresh Hl.
  assert (He2 : extends h1 (h1 ++ tr)) by (by exists tr). case_decide as Hn.
  { apply safe_gbind, (safe_keeps _ _ _ _ (ok_recordFencedOut _ _ _ _ _ _)). intros [u|e] h' He; apply Hno'; (done || by etrans). }
  assert (Hf : fresh_attempt tenant run (step_id s) attempt t (h1 ++ tr)) by (apply (fresh_after _ _ _ _ _ fresh); [done..|lia]).
  cbv zeta. apply safe_bind, safe_keeps; [by repeat ok_step|]. intros [u|e] h3 He3.
  2:{ destruct (Is _ _); (apply Hno'; [by etrans|done]). }
  apply safe_gbind, safe_buildDispatch.
  2:{ intros e h' He. apply Hno'; [|done]. by do 2 (etrans; [eassumption|]). }
  intros m h4 He4 Hm. apply safe_gbind, safe_quiet, (safe_keeps _ _ _ _ (ok_tierIdentity _ _ _)).
  intros tier h5 He5. destruct (Eligible _ _ _) as [c r]. apply Hok.
  - by do 4 (etrans; [eassumption|]).
  - split; [|split]; [|cbn [pm_token pm_message]|by eexists _, _, _].
    + eapply fresh_keeps; [|exact Hf]. by do 2 (etrans; [eassumption|]).
    + destruct Hm as (E0 & E1 & E2 & E3 & E4 & E5). by destruct (RequiresIdempotencyKey _).
Qed.

(** The transaction of a dispatch: event, outbox row, proof. *)
Lemma safe_dispatch_tx tenant run s attempt p h :
  current_tx h = [] → prepared tenant run s attempt p h → cleared tenant run s h → runnable tenant s h →
  safe plane_guard (dispatch_tx sha256 cfg tenant run s attempt p) (λ r h', ∀ a, r = Ok a → committable h') h.
Proof.
  intros Htx (Hf & Hm & c & r & k & Hp) Hc Hre. unfold dispatch_tx. apply safe_act_bind; [done|]. intros t0.
  case_decide; [done|]. apply safe_act_bind; [done|]. intros at_.
  apply safe_gbind, safe_act; [done|]. intros [[]|e]; [|done].
  apply safe_gbind, safe_act; [done|]. intros [[]|e]; [|done]. apply safe_act; [done|]. intros [[]|e] a; [|done].
  intros _ t' e'. set (h' := _ ++ [Did (OValidate _) (Ok tt)]).
  assert (He : extends h h') by (do 4 (etrans; [apply extends_snoc|]); apply extends_snoc).
  assert (Htx' : current_tx h' = [Did ONow t0; Did ONow at_;
      Did (OTxAppend tenant (mkEvent run (step_id s) attempt 0 StepDispatched (pm_payload p) at_)) (Ok tt);
      Did (OTxEnqueue tenant (dispatchSubject sha256 (cf_Tier cfg) s) (pm_message p)) (Ok tt);
      Did (OValidate (pm_token p)) (Ok tt)]).
  { unfold h'. rewrite !current_tx_snoc. simpl. by rewrite Htx. }
  rewrite Htx'. intros Hin.
  assert (Hin' : t' = tenant ∧ e' = mkEvent run (step_id s) attempt 0 StepDispatched (pm_payload p) at_).
  { repeat (apply elem_of_cons in Hin as [Hin|Hin]; [first [by apply not_appended in Hin|by injection Hin as -> ->]|]).
    by apply elem_of_nil in Hin. }
  destruct Hin' as [-> ->]. split; [|done]. intros _. exists (pm_token p), s. split; [by eexists|]. split; [done|].
  split; [by eapply fresh_keeps|]. split; [|by eapply cleared_keeps]. eexists. split; [exact Hp|]. split; [done|]. split; [done|]. cbn [dp_CacheHit].
  split; [by eapply runnable_keeps|]. exists (pm_message p). rewrite Htx'. split; [do 3 right; left|exact Hm].
Qed.

Lemma ok_undo r refs h : ok (undo cfg r refs) h.
Proof. unfold undo. repeat (ok_step || apply ok_give_back || apply ok_discardSecrets). Qed.

Lemma ok_dispatch_admitted tenant run p s attempt matched r h :
  cleared tenant run s h → runnable tenant s h →
  ok (dispatch_admitted sha256 decode_command cfg tenant run p s attempt matched r) h.
Proof.
  intros Hc Hre. apply safe_bind, safe_prepare.
  2:{ intros [[pm|]|e] h' He Hr; [by destruct (Hr pm)|..]; repeat (ok_step || apply ok_undo). }
  intros pm h1 He1 Hp. apply safe_cbind_keeps.
  - apply ok_WithTx. intros h2 He2 Htx. apply safe_dispatch_tx; [done| | |].
    + destruct Hp as (Hf & Hrest). split; [by eapply fresh_keeps|done].
    + eapply cleared_keeps; [|exact Hc]. by etrans.
    + eapply runnable_keeps; [|exact Hre]. by etrans.
  - intros [u|e] h2 He2.
    + apply safe_cbind_keeps; [apply ok_hold|done].
    + apply safe_cbind_keeps; [|intros; repeat (ok_step || apply ok_undo)].
      unfold dispatch_failed. repeat ok_step.
Qed.

(** What is listed is what was asked. *)
Lemma safe_list_engines tenant (Q : result GoErr (list Instance_) → list did → Prop) h :
  (∀ instances, Q (Ok instances) (h ++ [Did (OInstances tenant) (Ok instances)])) →
  (∀ e h', extends h h' → Q (Err e) h') → safe plane_guard (list_engines tenant) Q h.
Proof. intros Hok Herr. apply safe_wrap_act; [done|done|]. intros e. apply Herr. auto with dhole. Qed.

Lemma ok_dispatch tenant run p s state h :
  cleared tenant run s h → ok (dispatch sha256 decode_command cfg tenant run p s state) h.
Proof.
  intros Hc. unfold dispatch. apply safe_gbind_keeps; [apply ok_armGate|]. intros [] h1 He1; [done|].
  apply safe_gbind_keeps; [apply ok_refuseSecrets|]. intros [] h2 He2; [done|]. cbv zeta.
  apply safe_gbind, safe_list_engines; [|done]. intros instances. set (h3 := h2 ++ _).
  assert (He3 : extends h2 h3) by apply extends_snoc.
  case_decide as Hm; [apply ok_unschedulable|].
  assert (Hre : runnable tenant s h3).
  { destruct (Match _ instances) as [|i l] eqn:Em; [done|]. exists instances, i. split; [apply snoc_elem|].
    apply Match_spec. rewrite Em. by left. }
  apply safe_gbind_keeps; [apply ok_admit|]. intros [r|] h4 He4; [|done]. apply ok_dispatch_admitted.
  - eapply cleared_keeps; [|exact Hc]. by do 3 (etrans; [eassumption|]).
  - by eapply runnable_keeps.
Qed.

Lemma ok_dispatchQueued n items item h :
  Did (OQueueNext n) (Ok items) ∈ h → item ∈ items → ok (dispatchQueued sha256 decode_command cfg item) h.
Proof.
  intros Hq Hi. unfold dispatchQueued. apply safe_gbind, safe_load; [|done]. intros tr state Hl.
  destruct (st_completed state) eqn:Ec; [done|]. case_decide as Ha; [done|]. case_decide as Hgt; [done|].
  apply safe_gbind, safe_graphOf; [|done]. intros p tr2 Hg.
  destruct (stepByID p (qi_StepID item)) as [s|] eqn:Es; [|done].
  assert (Hid : step_id s = qi_StepID item).
  { unfold stepByID in Es. apply find_some in Es as [_ Es]. by apply bool_decide_eq_true in Es. }
  assert (Hq' : Did (OQueueNext n) (Ok items) ∈ (h ++ tr) ++ tr2) by (apply elem_of_app; left; apply elem_of_app; by left).
  apply ok_dispatch. split.
  - intros _. right. by exists n, items, item.
  - right. exists n, items, item, state, p. rewrite Hid. split_and!; try done.
    + by apply loaded_app_l, loaded_app_r.
    + destruct Hg as (a & Ha' & Hs). exists a. split; [|done]. apply elem_of_app. by right.
    + lia.
Qed.

Lemma ok_drain tenant h : ok (drain sha256 decode_command cfg tenant) h.
Proof.
  unfold drain. apply safe_gbind_keeps; [apply ok_list_engines|]. intros instances h1 _. cbv zeta. set (n := if decide _ then _ else _).
  apply safe_gbind, safe_wrap_act; [done| |done]. intros items.
  assert (Hq : Did (OQueueNext n) (Ok items) ∈ h1 ++ [Did (OQueueNext n) (Ok items)]) by apply snoc_elem.
  revert Hq. generalize (h1 ++ [Did (OQueueNext n) (Ok items)]). intros h2 Hq. unfold geach.
  assert (Hg : safe plane_guard (gfold (λ _ : unit, drain_item sha256 decode_command cfg) tt items)
    (λ r h', match r with Ok _ => Did (OQueueNext n) (Ok items) ∈ h' | Err _ => True end) h2).
  { apply (safe_gfold _ _ (λ _ h', Did (OQueueNext n) (Ok items) ∈ h') (λ _ _, True)); [done|].
    intros _ item h3 Hi Hq3. unfold drain_item. apply safe_act_bind; [done|]. intros [].
    assert (Hq4 := extends_elem _ _ _ (extends_snoc h3 (Did (OPendingClear (stepKey (qi_TenantID item) (qi_RunID item) (qi_StepID item))) tt)) Hq3).
    apply (safe_keeps _ _ _ _ (ok_dispatchQueued n items item _ Hq4 Hi)). intros [u|e] h5 He5; [|done].
    by eapply extends_elem. }
  eapply safe_mono; [|exact Hg]. done.
Qed.

(** ** One ready step *)

Lemma ok_enqueueReady item h :
  (cf_Policy cfg = true → approved (qi_TenantID item) (qi_RunID item) (qi_StepID item) h) →
  (∃ s, step_id s = qi_StepID item ∧ ready_in_log (qi_TenantID item) (qi_RunID item) s h) →
  ok (enqueueReady item) h.
Proof.
  intros Ha (s & Hs & Hr). unfold enqueueReady. apply safe_act_bind; [done|]. intros [|]; [done|]. apply safe_act_bind.
  - split; [intros Hp; eapply approved_keeps; [|by apply Ha]; auto with dhole|]. exists s. split; [done|].
    eapply ready_keeps; [|exact Hr]. auto with dhole.
  - intros [u|e]; repeat ok_step.
Qed.

Lemma ok_takeBuiltin tenant run s n h :
  (cf_Policy cfg = true → approved tenant run (step_id s) h) → ready_in_log tenant run s h →
  ok (takeBuiltin cfg tenant run s n) h.
Proof. intros Ha Hr. unfold takeBuiltin. ok_step; [done|]. by apply safe_wrap_any, ok_act. Qed.

Lemma ok_ready_step tenant run p state s h :
  loaded_marked tenant run state h → graph_read tenant state p h → s ∈ pl_steps p → ready_in_log tenant run s h →
  ok (ready_step sha256 decode_command cfg tenant run p state s) h.
Proof.
  intros Hl Hg Hs Hr. unfold ready_step. apply safe_gbind, safe_permit; [done..| |].
  2:{ intros [[]|e] h1 _ Hn; [done|exact I|exact I]. }
  intros h1 He1 Ha. apply safe_gbind_keeps; [apply ok_refuseBuiltin|]. intros [] h2 He2; [done|].
  assert (Hc : ∀ h', extends h2 h' → (cf_Policy cfg = true → approved tenant run (step_id s) h') ∧ ready_in_log tenant run s h').
  { intros h' He. split; [intros Hp; eapply approved_keeps; [|by apply Ha]; by etrans|].
    eapply ready_keeps; [|exact Hr]. etrans; [exact He1|]. by etrans. }
  assert (Hcl : ∀ h', extends h2 h' → cleared tenant run s h').
  { intros h' He. destruct (Hc h' He) as [Ha' Hr']. split; [intros Hp; left; by apply Ha'|by left]. }
  apply safe_gbind_keeps; [by apply ok_serveFromCache, Hcl|]. intros [] h3 He3; [|done..].
  apply safe_gbind_keeps; [by apply ok_takeBuiltin; apply Hc|]. intros [] h4 He4; [done|].
  assert (He : extends h2 h4) by by etrans. destruct (Hc h4 He) as [Ha4 Hr4].
  ok_step; (apply safe_gbind_keeps; [|done]); [by apply ok_dispatch, Hcl|]. apply ok_enqueueReady; [done|]. by exists s.
Qed.

Lemma ok_ready_loop tenant run p state served steps h :
  loaded_marked tenant run state h → graph_read tenant state p h →
  (∀ s, s ∈ steps → s ∈ pl_steps p ∧ ready_in_log tenant run s h) →
  ok (ready_loop sha256 decode_command cfg tenant run p state served steps) h.
Proof.
  revert served h. induction steps as [|s steps IH]; intros served h Hl Hg Hs; cbn [ready_loop]; [done|].
  destruct (Hs s) as [Hin Hr]; [by left|].
  apply safe_gbind_keeps; [by apply ok_ready_step|]. intros [hit|] h1 He1; [|done].
  apply IH; [by eapply loaded_marked_keeps|by eapply graph_read_keeps|]. intros x Hx. destruct (Hs x) as [? ?]; [by right|].
  split; [done|by eapply ready_keeps].
Qed.

(** ** [Advance] *)

Lemma set_awaiting_same s : s = set_awaiting (st_awaiting s) s.
Proof. by destruct s. Qed.

Lemma safe_awaiting_fold tenant run state steps h :
  safe plane_guard (gfold (recordAwaitingReplay tenant run) state steps)
    (λ r h', match r with Ok s => extends h h' ∧ ∃ marks, s = set_awaiting marks state | Err _ => True end) h.
Proof.
  apply (safe_gfold _ _ (λ s h', extends h h' ∧ ∃ marks, s = set_awaiting marks state) (λ _ _, True)).
  { split; [done|]. exists (st_awaiting state). apply set_awaiting_same. }
  intros s x h1 _ [He [marks ->]]. unfold recordAwaitingReplay. case_decide; [by split; [|exists marks]|].
  apply safe_gbind, safe_append; [intros t; apply free_kind; vm_compute; set_solver| |done].
  intros h' He' _. split; [by etrans|]. by eexists.
Qed.

Lemma ok_finish tenant run p state pl h : found_idle tenant run p state pl h → ok (finish cfg tenant run pl) h.
Proof.
  intros Hf. unfold finish. destruct (p_exhausted pl) as [|x xs] eqn:Ex.
  - destruct (p_blocked pl) eqn:Eb; [|done]. apply ok_complete. by exists p, state, pl.
  - apply ok_fail_run. right; right. exists p, state, pl. split; [done|]. by rewrite Ex.
Qed.

Lemma ok_advance_pass tenant run h : ok (advance_pass sha256 decode_command cfg tenant run) h.
Proof.
  unfold advance_pass. apply safe_gbind, safe_load; [|done]. intros tr1 state Hl.
  destruct (st_completed state) eqn:Ec; [done|]. apply safe_gbind, safe_graphOf; [|done]. intros p tr2 Hg.
  apply safe_gbind. unfold lift. destruct (Build (Some p)) as [g|] eqn:Eb; [|done].
  apply safe_act_bind; [done|]. intros t. cbv zeta. set (pl := plan p g state t).
  set (h1 := (_ ++ [Did ONow t])).
  assert (Hl1 : loaded tenant run state h1) by (do 2 apply loaded_app_l; by apply loaded_app_r).
  assert (Hg1 : graph_read tenant state p h1).
  { eapply graph_read_keeps; [apply extends_snoc|]. destruct Hg as (a & Ha & Hs). exists a. split; [|done].
    apply elem_of_app. by right. }
  clearbody h1. apply safe_gbind. eapply safe_mono; [|apply safe_awaiting_fold].
  intros [state'|e] h2; [|done]. intros [He2 [marks ->]].
  assert (Hl2 : loaded tenant run state h2) by by eapply loaded_keeps.
  assert (Hg2 : graph_read tenant state p h2) by by eapply graph_read_keeps.
  destruct (idle pl) eqn:Ei.
  - apply safe_gbind_keeps; [|done]. apply (ok_finish _ _ p state). by exists g, t.
  - apply safe_gbind_keeps.
    + apply ok_ready_loop; [by exists state, marks|done|]. intros s Hs.
      split; [by apply plan_ready_verdict in Hs as [? _]|]. exists state, p, t.
      split_and!; [done..|by apply (planned_is_entitled _ g)].
    + intros [|served] h3 He3; [done|]. apply safe_gbind_keeps; [|done]. ok_step; [apply ok_drain|done].
Qed.

Lemma ok_Advance fuel tenant run h : ok (Advance sha256 decode_command cfg fuel tenant run) h.
Proof.
  unfold Advance. do 2 (case_decide; [done|]). revert h. induction fuel as [|fuel IH]; intros h; cbn [advance_loop]; [done|].
  apply safe_gbind_keeps; [apply ok_advance_pass|]. intros [] h1 _; [apply IH|done].
Qed.

(** ** Reports and sweeps *)

Lemma ok_left_flight fuel tenant st h : ok (left_flight sha256 decode_command cfg fuel tenant st) h.
Proof.
  unfold left_flight. apply safe_gbind_keeps; [apply safe_cbind_keeps; [apply ok_releaseHold|done]|]. intros _ h1 _.
  apply safe_gbind_keeps; [apply safe_cbind_keeps; [apply ok_revokeSecrets|done]|]. intros _ h2 _. apply ok_Advance.
Qed.

Lemma ok_apply_terminal fuel tenant st kind t h :
  Did (OValidate t) (Ok tt) ∈ h → DecodeFence (js_FenceToken st) = Ok (tenant, (tk_Value t, tk_Fence t)) →
  terminalEvent (js_Phase st) = Some kind → ok (apply_terminal sha256 decode_command cfg fuel tenant st kind) h.
Proof.
  intros Hv Hd Hk. unfold apply_terminal. apply safe_gbind, safe_load; [|done]. intros tr state Hl.
  case_decide as Ht; [apply ok_left_flight|]. destruct (MarshalStatus st) as [payload|] eqn:Em; [|done].
  apply safe_gbind, safe_append; [| |done].
  - intros t0. assert (Hrep : reported tenant (mkEvent (js_RunId st) (js_StepId st) (js_Attempt st) 0 kind payload t0)
      ((h ++ tr) ++ [Did ONow t0])).
    { exists st, t, state. split_and!; try done.
      - apply elem_of_app. left. apply elem_of_app. by left.
      - by apply loaded_app_l, loaded_app_r.
      - by apply eq_None_not_Some. }
    assert (Hk2 : kind = StepSucceeded ∨ kind = StepFailed).
    { destruct (js_Phase st); simpl in Hk; simplify_eq; auto. }
    split; cbn [ev_Type]; try (intros ->; exfalso; revert Hk2; vm_compute; intuition discriminate).
    intros _. exact Hrep.
  - intros h' _ _. apply safe_gbind_keeps; [case_decide; [apply ok_cacheEntry|done]|]. intros _ h2 _. apply ok_left_flight.
Qed.

Lemma ok_OnStatus fuel st h : ok (OnStatus sha256 decode_command cfg fuel st) h.
Proof.
  unfold OnStatus. destruct st as [st|]; [|done]. apply safe_gbind. unfold fence_token.
  destruct (DecodeFence _) as [[tenant [value fence]]|] eqn:Ed; [|done]. case_decide; [done|]. cbv beta iota.
  apply safe_act_bind; [done|]. intros [[]|e]; [|by repeat ok_step].
  destruct (terminalEvent (js_Phase st)) as [kind|] eqn:Ek; [|unfold accept_phase; by repeat ok_step].
  by apply (ok_apply_terminal _ _ _ _ (mkToken value fence)); [apply snoc_elem| |].
Qed.

Lemma ok_Accept st h : ok (Accept st) h.
Proof. unfold Accept, fence_token. by repeat ok_step. Qed.

Lemma ok_surfaceOne fuel w instances h : ok (surfaceOne sha256 decode_command cfg fuel w instances) h.
Proof.
  unfold surfaceOne, withdrawAbandoned. cbv zeta. apply safe_act_bind; [done|]. intros t.
  repeat (ok_step || apply ok_Advance || apply ok_recordFencedOut || apply ok_unschedulable || apply ok_recordWaiting).
Qed.

Lemma ok_gfold {A S} (f : S → A → go S) s l h :
  (∀ s x h, ok (f s x) h) → ok (gfold f s l) h.
Proof.
  intros Hf. revert s h. induction l as [|x l IH]; intros s h; cbn [gfold]; [done|].
  apply safe_gbind_keeps; [apply Hf|]. intros s' h' _. apply IH.
Qed.

Lemma ok_SweepOrphans fuel h : ok (SweepOrphans sha256 decode_command cfg fuel) h.
Proof.
  unfold SweepOrphans, surfaceStranded. ok_step; [by repeat ok_step|]. ok_step.
  { apply ok_gfold. intros n o h2. unfold sweep_one. repeat (ok_step || apply ok_recordOrphan || apply ok_Advance). }
  ok_step; [|done]. ok_step; [by repeat ok_step|]. ok_step.
  - apply ok_gfold. intros acc w h3. unfold surface_next, fleet_of.
    repeat (ok_step || apply ok_list_engines || apply ok_surfaceOne).
  - unfold join_errors. by repeat ok_step.
Qed.

(** ** The plane's entry points *)

Inductive entry : Type :=
| EAdvance (fuel : nat) (tenant run : string)
| EStatus (fuel : nat) (st : option JobStatus)
| EAccept (st : option JobStatus)
| ESweep (fuel : nat).

Definition program (e : entry) : cmd unit :=
  match e with
  | EAdvance fuel tenant run => _ <- Advance sha256 decode_command cfg fuel tenant run;; Done tt
  | EStatus fuel st => _ <- OnStatus sha256 decode_command cfg fuel st;; Done tt
  | EAccept st => _ <- Accept st;; Done tt
  | ESweep fuel => _ <- SweepOrphans sha256 decode_command cfg fuel;; Done tt
  end.

Lemma program_safe e : ok (program e) [].
Proof.
  destruct e; (apply safe_cbind_keeps; [|done]);
    [apply ok_Advance|apply ok_OnStatus|apply ok_Accept|apply ok_SweepOrphans].
Qed.

(** Every call of every trace is made under its guard. *)
Lemma program_guarded e tr r pre X (o : op X) x post :
  runs (program e) tr r → tr = pre ++ Did o x :: post → plane_guard X o pre.
Proof. intros Hr Ht. destruct (safe_runs _ _ _ _ _ _ (program_safe e) Hr) as [Hg _]. by apply (Hg _ _ _ _ _ Ht). Qed.

(** C1: Whatever other planes do, and wherever this one dies, a STEP_DISPATCHED
    reaches the log only in a transaction, and only if (1) the transaction
    ends by proving the lease it is made under; (2) this plane leased the
    attempt and read the log after leasing it, and found no dispatch of it
    there; (3) the log this plane read entitles the step to be dispatched: its
    run is open and everything that feeds it succeeded, or it was released
    from a gate, or its class allows the retry - or the fair queue handed it
    back, with its run still open, the attempt it was queued for not
    dispatched and no gate over it; and (4) with it goes either the success of
    a step served from the cache, or the outbox message, on the step's own
    subject and under that lease's fence, for a step some engine of the fleet
    just listed can run: ready, with a slot, on the platform and with every
    capability the step names. It is never appended on its own, and a step is
    put on the fair queue, or handed to the plane's own workers, only when the
    log entitles it. *)
Theorem dispatch_is_justified (e : entry) (tr : list did) (r : option unit) :
  runs (program e) tr r →
  (∀ pre x post tenant ev,
     tr = pre ++ Did OTxCommit x :: post →
     Did (OTxAppend tenant ev) (Ok tt) ∈ current_tx pre → ev_Type ev = StepDispatched →
     ∃ t s, (∃ pre', pre = pre' ++ [Did (OValidate t) (Ok tt)]) ∧ step_id s = ev_StepID ev
       ∧ fresh_attempt tenant (ev_RunID ev) (ev_StepID ev) (ev_Attempt ev) t pre
       ∧ (ready_in_log tenant (ev_RunID ev) s pre ∨ due_in_log tenant (ev_RunID ev) s pre)
       ∧ accompanied tenant ev t s pre)
  ∧ (∀ pre x post item, tr = pre ++ Did (OQueueAdd item) x :: post →
       ∃ s, step_id s = qi_StepID item ∧ ready_in_log (qi_TenantID item) (qi_RunID item) s pre)
  ∧ (∀ pre x post tenant run s n, tr = pre ++ Did (OTake tenant run s n) x :: post → ready_in_log tenant run s pre)
  ∧ ∀ pre x post tenant ev, tr = pre ++ Did (OAppend tenant ev) x :: post → ev_Type ev ≠ StepDispatched.
Proof.
  intros Hr. split; [|split; [|split]].
  - intros pre x post tenant ev Ht Hin Hty. destruct (proj1 (program_guarded _ _ _ _ _ _ _ _ Hr Ht tenant ev Hin) Hty)
      as (t & s & Hl & Hid & Hf & Ha & Hc). exists t, s. split_and!; try done. by destruct Hc.
  - intros pre x post item Ht. by apply (program_guarded _ _ _ _ _ _ _ _ Hr Ht).
  - intros pre x post tenant run s n Ht. by apply (program_guarded _ _ _ _ _ _ _ _ Hr Ht).
  - intros pre x post tenant ev Ht. apply (app_dispatch _ _ _ (program_guarded _ _ _ _ _ _ _ _ Hr Ht)).
Qed.

(** C2: With a policy wired, nothing runs that policy did not allow: before a
    dispatch is committed, a step is queued, or a step is handed to the
    plane's own workers, the same pass asked policy about that step, on the
    step's own capabilities, class, pinned provenance, taint and runnable
    engines as read from the run's log, and about each secret it declares, and
    every answer was an allow. A step taken off the fair queue was put there
    by a pass that had. *)
Theorem nothing_runs_unapproved (e : entry) (tr : list did) (r : option unit) :
  cf_Policy cfg = true → runs (program e) tr r →
  (∀ pre x post tenant ev,
     tr = pre ++ Did OTxCommit x :: post →
     Did (OTxAppend tenant ev) (Ok tt) ∈ current_tx pre → ev_Type ev = StepDispatched →
     approved tenant (ev_RunID ev) (ev_StepID ev) pre ∨ queued tenant (ev_RunID ev) (ev_StepID ev) pre)
  ∧ (∀ pre x post item, tr = pre ++ Did (OQueueAdd item) x :: post →
       approved (qi_TenantID item) (qi_RunID item) (qi_StepID item) pre)
  ∧ (∀ pre x post tenant run s n, tr = pre ++ Did (OTake tenant run s n) x :: post →
       approved tenant run (step_id s) pre).
Proof.
  intros Hp Hr. split; [|split].
  - intros pre x post tenant ev Ht Hin Hty.
    destruct (proj1 (program_guarded _ _ _ _ _ _ _ _ Hr Ht tenant ev Hin) Hty) as (t & s & _ & <- & _ & _ & Hc).
    by apply (cl_allowed _ _ _ _ Hc).
  - intros pre x post item Ht. by apply (program_guarded _ _ _ _ _ _ _ _ Hr Ht).
  - intros pre x post tenant run s n Ht. by apply (program_guarded _ _ _ _ _ _ _ _ Hr Ht).
Qed.

(** C4: A run ends for the reason the log says. RUN_COMPLETED is appended only
    for a run read as open whose graph, generators' fragments included, has
    every step succeeded; RUN_FAILED only when a step had used up its
    attempts, or after its refusal by policy or for want of a secret was
    recorded; and a policy refusal is recorded only when policy said no, or
    the provenance it is asked on could not be had. *)
Theorem runs_end_for_a_reason (e : entry) (tr : list did) (r : option unit) pre x post tenant ev :
  runs (program e) tr r → tr = pre ++ Did (OAppend tenant ev) x :: post →
  (ev_Type ev = RunCompleted → ∃ state pipeline,
     loaded tenant (ev_RunID ev) state pre ∧ graph_read tenant state pipeline pre ∧ st_completed state = false
     ∧ ∀ s, s ∈ pl_steps pipeline → terminal_of state (step_id s) = StepSucceeded)
  ∧ (ev_Type ev = RunFailed →
       (∃ state pipeline g now id, loaded tenant (ev_RunID ev) state pre ∧ graph_read tenant state pipeline pre
          ∧ Build (Some pipeline) = Ok g ∧ id ∈ p_exhausted (plan pipeline g state now))
       ∨ appended tenant (ev_RunID ev) StepPolicyDenied pre ∨ appended tenant (ev_RunID ev) StepSecretUnavailable pre)
  ∧ (ev_Type ev = StepPolicyDenied → refused_by_policy tenant pre).
Proof.
  intros Hr Ht. destruct (program_guarded _ _ _ _ _ _ _ _ Hr Ht) as [H1 H2 H3 H4 H5 H6]. split; [|split]; [| |done].
  - intros Hk. destruct (H1 Hk) as (p & state & pl & (g & now & Hl & Hg & Hb & Hc & -> & Hi) & Hx & Hbl).
    exists state, p. split; [done|]. split; [done|]. split; [done|].
    unfold idle in Hi. rewrite !andb_true_iff, !bool_decide_eq_true in Hi. destruct Hi as [[Hi1 Hi2] Hi3].
    by apply (completion_means_success p g state now).
  - intros Hk. destruct (H2 Hk) as [(p & state & pl & (g & now & Hl & Hg & Hb & Hc & -> & Hi) & Hx)|Hd]; [|by right].
    left. destruct (p_exhausted (plan p g state now)) as [|id ids] eqn:Ex; [done|].
    exists state, p, g, now, id. rewrite Ex. split_and!; try done. by left.
Qed.


End Facts.

(** ** A plane at work *)

(** One plane alone with its stores: the run log is [RunStore]'s, a lease is
    granted under the next fence, the fleet is one engine, policy allows. *)
Record world : Type := mkWorld { w_db : DB; w_saved : DB; w_fence : Z; w_outbox : list JobDispatch }.

Definition ex_engine : Instance_ :=
  mkInstance "e1" StateReady [] "linux" "amd64" ["process"] 4 [3] "trusted" "env@1" [].

Definition ex_authored : Pipeline :=
  mkPipeline "ci" [ex_step "build" [] [ex_blob "bin"] []; ex_step "test" [ex_blob "bin"] [] []]
    [mkEdge "build" "bin" "test" "bin"] [].

Definition ex_append (tenant : string) (e : Event) (w : world) : world * result GoErr unit :=
  match StoreAppend DialectSQLite tenant e (w_db w) with
  | (db, Ok _) => (mkWorld db (w_saved w) (w_fence w) (w_outbox w), Ok tt)
  | (db, Err _) => (w, Err (ErrMsg "store"))
  end.

Definition ex_grant (tenant run step : string) (w : world) : world * result GoErr Token :=
  (mkWorld (w_db w) (w_saved w) (w_fence w + 1) (w_outbox w),
   match claimKey tenant run step with
   | Ok key => Ok (mkToken key (w_fence w + 1))
   | Err _ => Err ErrTenantRequired
   end).

Definition ex_answer (X : Type) (o : op X) (w : world) : world * X :=
  match o in op X return world * X with
  | ONow => (w, 0)
  | OReplay tenant run =>
      (w, match Replay tenant run (w_db w) with Ok evs => Ok evs | Err _ => Err ErrTenantRequired end)
  | OAppend tenant e => ex_append tenant e w
  | OTxBegin => (mkWorld (w_db w) (w_db w) (w_fence w) (w_outbox w), Ok tt)
  | OTxAppend tenant e => ex_append tenant e w
  | OTxEnqueue _ _ m => (mkWorld (w_db w) (w_saved w) (w_fence w) (w_outbox w ++ [m]), Ok tt)
  | OTxCommit => (w, Ok tt)
  | OTxRollback => (mkWorld (w_saved w) (w_saved w) (w_fence w) (w_outbox w), tt)
  | OGateArm _ _ _ => (w, Ok false)
  | OOffer tenant run step _ _ => ex_grant tenant run step w
  | OClaim tenant run step _ _ => ex_grant tenant run step w
  | OValidate _ => (w, Ok tt)
  | ORenew _ => (w, Ok tt)
  | OWithdraw _ => (w, Ok tt)
  | OExpire => (w, Ok [mkOrphan "t" "r1" "build" 1 1])
  | OUnaccepted => (w, Ok [])
  | OInstances _ => (w, Ok [ex_engine])
  | ODefinition _ _ _ => (w, Ok ex_authored)
  | OLockfile _ _ => (w, Ok ∅)
  | OCacheLookup _ _ => (w, Ok None)
  | OCacheRecord _ _ _ => (w, Ok tt)
  | OReference _ _ _ => (w, Ok tt)
  | OEvaluate _ => (w, (mkDecision true "" "allowed", None))
  | OProvenance _ _ _ => (w, (true, "", None))
  | OTake _ _ _ _ => (w, Ok false)
  | OSecretsCheck _ _ => (w, None)
  | OSecretsIssue _ _ _ _ _ => (w, Ok [])
  | OSecretsRevoke _ _ _ _ => (w, tt)
  | OSecretsRevokeRun _ _ => (w, tt)
  | OSecretsDiscard _ => (w, tt)
  | OQueueAdd _ => (w, Ok tt)
  | OQueueNext _ => (w, Ok [])
  | OInFlight _ => (w, Ok 0)
  | OAcquire _ _ => (w, Some (Slot 7))
  | OAdmitStep _ _ => (w, Ok (mkAdmission true ""))
  | ORelease _ => (w, tt)
  | OPendingMark _ => (w, false)
  | OPendingClear _ => (w, tt)
  | OHeldSwap _ _ => (w, None)
  | OHeldTake _ => (w, None)
  | OReported _ _ => (w, false)
  | OWarn _ => (w, tt)
  end.

(** JSON that says as much as the examples read back. *)
#[export] Instance ex_payloads : Payloads :=
  {| MarshalDispatched _ := "dispatched"; MarshalUnschedulable _ := ""; MarshalWaitingReason _ := "";
     MarshalPolicyDenied _ := ""; MarshalAwaitingReplay _ := ""; MarshalAttemptLost _ := "";
     MarshalRunFailure _ := ""; MarshalSecretUnavailable _ := ""; MarshalStatus _ := Some "status";
     UnmarshalRunCreated _ := Some (mkRunCreated "ci" "rev1" ∅ "");
     UnmarshalDispatched _ := Some (mkDispatched 1 1 false "" false "");
     UnmarshalUnschedulable _ := None; UnmarshalWaitingReason _ := None;
     UnmarshalStatus _ := Some (mkJobStatus "r1" "" 1 "" PHASE_SUCCEEDED 0 [] "" "");
     UnmarshalSanitised _ := None |}.
#[export] Instance no_fragments : GenCodec :=
  {| enc_record _ := ""; dec_record _ := None; enc_pipeline _ := None; dec_pipeline _ := None |}.

Definition ex_config : Config :=
  mkConfig true true true true true "trusted" "linux" "amd64" false true false true true false true true
    false false false true DefaultLeaseTTL.

Definition ex_row (id : string) (seq : Z) (kind : string) : Row := ("t", mkEvent "r1" id 1 seq kind "" 0).

(** The log with the given events, after the run's creation. *)
Definition ex_world (rows : list (string * string)) : world :=
  mkWorld (mkDB (("t", mkEvent "r1" "" 0 1 RunCreated "" 0)
                 :: imap (λ i p, ex_row p.1 (Z.of_nat i + 2) p.2) rows) ∅ ∅) empty_db 0 [].

Definition ex_run (rows : list (string * string)) (e : entry) : list did :=
  (drive ex_answer (program (λ s, s) (λ _, None) ex_config e) (ex_world rows)).1.2.

Lemma ex_run_runs rows e : runs (program (λ s, s) (λ _, None) ex_config e) (ex_run rows e) (Some tt).
Proof.
  unfold ex_run. destruct (drive _ _ _) as [[w tr] []] eqn:E. simpl. by eapply drive_runs.
Qed.

Definition first_pass : list did := ex_run [] (EAdvance 1 "t" "r1").
Definition first_event : Event := mkEvent "r1" "build" 1 0 StepDispatched "dispatched" 0.

Lemma first_pass_commits : first_pass = firstn 22%nat first_pass ++ Did OTxCommit (Ok tt) :: skipn 23%nat first_pass.
Proof. symmetry. apply take_drop_middle. vm_compute. reflexivity. Qed.

Lemma first_pass_dispatches : Did (OTxAppend "t" first_event) (Ok tt) ∈ current_tx (firstn 22%nat first_pass).
Proof. vm_compute. right. right. left. Qed.

Lemma dispatch_is_justified_witness :
  ∃ t s, fresh_attempt "t" "r1" "build" 1 t (firstn 22%nat first_pass)
     ∧ (ready_in_log "t" "r1" s (firstn 22%nat first_pass) ∨ due_in_log "t" "r1" s (firstn 22%nat first_pass))
     ∧ accompanied (λ s, s) ex_config "t" first_event t s (firstn 22%nat first_pass).
Proof.
  destruct (dispatch_is_justified (λ s, s) (λ _, None) ex_config (EAdvance 1 "t" "r1") first_pass (Some tt)
              (ex_run_runs [] _)) as [Hd _].
  destruct (Hd _ _ _ _ _ first_pass_commits first_pass_dispatches eq_refl) as (t & s & _ & _ & Hf & Hc & Ha).
  exists t, s. split; [exact Hf|]. split; [exact Hc|exact Ha].
Defined.

Lemma nothing_runs_unapproved_witness :
  approved ex_config "t" "r1" "build" (firstn 22%nat first_pass) ∨ queued "t" "r1" "build" (firstn 22%nat first_pass).
Proof.
  destruct (nothing_runs_unapproved (λ s, s) (λ _, None) ex_config (EAdvance 1 "t" "r1") first_pass (Some tt)
              eq_refl (ex_run_runs [] _)) as [Hd _].
  exact (Hd _ _ _ _ _ first_pass_commits first_pass_dispatches eq_refl).
Defined.

Definition last_pass : list did :=
  ex_run [("build", StepSucceeded); ("test", StepSucceeded)] (EAdvance 1 "t" "r1").

Lemma last_pass_completes :
  last_pass = firstn 4%nat last_pass
    ++ Did (OAppend "t" (mkEvent "r1" "" 0 0 RunCompleted "" 0)) (Ok tt) :: skipn 5%nat last_pass.
Proof. symmetry. apply take_drop_middle. vm_compute. reflexivity. Qed.

Lemma runs_end_for_a_reason_witness :
  ∃ state pipeline, loaded "t" "r1" state (firstn 4%nat last_pass)
    ∧ ∀ s, s ∈ pl_steps pipeline → terminal_of state (step_id s) = StepSucceeded.
Proof.
  destruct (runs_end_for_a_reason (λ s, s) (λ _, None) ex_config (EAdvance 1 "t" "r1") last_pass (Some tt) _ _ _ _ _
              (ex_run_runs _ _) last_pass_completes) as [Hc _].
  destruct (Hc eq_refl) as (state & pipeline & Hl & _ & _ & Hs). exists state, pipeline. split; [exact Hl|exact Hs].
Defined.




(** A report under step build's lease, about step test. *)
Definition foreign_status : JobStatus :=
  mkJobStatus "r1" "test" 1
    (EncodeFence "t" (match claimKey "t" "r1" "build" with Ok k => k | Err _ => "" end) 1)
    PHASE_SUCCEEDED 0 [] "" "".

(** The fence of a report is checked, and not whose fence it is: the token
    a report carries names one step's lease, and a report about another step
    of the tenant under that token is applied. Here an engine holding only
    build's lease reports that test succeeded, and test's success is
    recorded. *)
Theorem report_outside_its_lease :
  ∃ tr token,
    runs (program (λ s, s) (λ _, None) ex_config (EStatus 1 (Some foreign_status))) tr (Some tt)
    ∧ DecodeFence (js_FenceToken foreign_status) = Ok ("t", (tk_Value token, tk_Fence token))
    ∧ claimKey "t" "r1" "build" = Ok (tk_Value token) ∧ claimKey "t" "r1" "test" ≠ Ok (tk_Value token)
    ∧ ∃ payload, Did (OAppend "t" (mkEvent "r1" "test" 1 0 StepSucceeded payload 0)) (Ok tt) ∈ tr.
Proof.
  exists (ex_run [("build", StepDispatched)] (EStatus 1 (Some foreign_status))),
    (mkToken (match claimKey "t" "r1" "build" with Ok k => k | Err _ => "" end) 1).
  split; [apply ex_run_runs|]. split; [vm_compute; reflexivity|]. split; [reflexivity|].
  split; [vm_compute; discriminate|]. exists "status". vm_compute. do 3 right. left.
Qed.
