(* ===== verification/AdmissionFacts.v ===== *)
(** * Slots, stale reports and termination of the scheduler *)

From S2P Require Import Prelude Bytes Proto Dag Effects Cache Policy Taint RunStore.
From S2P Require Import Lease Fairness Dynamic Fleet Sched SchedFacts Program Plane Control ControlFacts.

(** ** The slots a plane owes *)

(** A slot is owed from the call that hands it over until it is released or
    put in the plane's map of held slots. *)
Definition pay (id : Z) (l : list Z) : list Z :=
  match list_find (λ x, x = id) l with Some (i, _) => delete i l | None => l end.
Definition pay_release (r : Release) (l : list Z) : list Z := match r with NoSlot => l | Slot id => pay id l end.
Definition owe (r : option Release) (l : list Z) : list Z := match r with Some (Slot id) => id :: l | _ => l end.

Definition owed_by (l : list Z) (d : did) : list Z :=
  match d with
  | Did o x =>
      match o in op X return X → list Z with
      | OAcquire _ _ => λ r, owe r l
      | ORelease id => λ _, pay id l
      | OHeldSwap _ r => λ previous, owe previous (pay_release r l)
      | OHeldTake _ => λ r, owe r l
      | _ => λ _, l
      end x
  end.

Definition owed (h : list did) : list Z := foldl owed_by [] h.

Lemma owed_snoc h d : owed (h ++ [d]) = owed_by (owed h) d.
Proof. unfold owed. by rewrite foldl_app. Qed.

Lemma pay_head id l : pay id (id :: l) = l.
Proof. unfold pay. cbn [list_find]. by rewrite decide_True. Qed.

Definition same_owed (h h' : list did) : Prop := owed h' = owed h.
#[export] Instance same_owed_preorder : PreOrder same_owed.
Proof. split; [by intros h|]. unfold same_owed. intros h1 h2 h3 E1 E2. congruence. Qed.

(** A program that owes after it what it owed before. *)
Abbreviation even c := (∀ h, safe no_guard c (λ _ h', same_owed h h') h).

Definition no_slot (X : Type) (o : op X) : Prop :=
  match o with OAcquire _ _ | ORelease _ | OHeldSwap _ _ | OHeldTake _ => False | _ => True end.

Lemma no_slot_same X (o : op X) x h : no_slot X o → same_owed h (h ++ [Did o x]).
Proof. unfold same_owed. rewrite owed_snoc. revert x. destruct o; simpl; intros; done. Qed.

Lemma even_within {A} (c : cmd A) : within no_slot c → even c.
Proof. intros Hw h. eapply safe_within; [apply _|apply no_slot_same|done]. Qed.

Lemma even_bind {A B} (c : cmd A) (f : A → cmd B) : even c → (∀ a, even (f a)) → even (cbind c f).
Proof.
  intros Hc Hf h. apply safe_bind. eapply safe_mono; [|apply Hc]. intros a h1 H1. cbv beta.
  eapply safe_mono; [|apply Hf]. intros b h2 H2. etrans; [exact H1|exact H2].
Qed.

Lemma even_gbind {A B} (c : go A) (f : A → go B) : even c → (∀ a, even (f a)) → even (gbind c f).
Proof. intros Hc Hf. apply even_bind; [done|]. by intros [a|e]. Qed.

Lemma even_wrap {A} msg (c : go A) : even c → even (wrap msg c).
Proof. intros Hc. by apply even_bind. Qed.

Lemma even_gfold {A S} (f : S → A → go S) s l : (∀ s x, even (f s x)) → even (gfold f s l).
Proof.
  intros Hf. revert s. induction l as [|x l IH]; intros s; cbn [gfold]; [done|].
  apply even_gbind; [apply Hf|]. intros s'. apply IH.
Qed.

(** Giving back the slot owed first. *)
Lemma safe_give_back r h (Q : unit → list did → Prop) :
  (∀ h', owed h' = pay_release r (owed h) → Q tt h') → safe no_guard (give_back r) Q h.
Proof.
  intros HQ. destruct r as [|id]; simpl; [by apply HQ|]. split; [done|]. intros []. apply HQ. by rewrite owed_snoc.
Qed.

Section Slots.
Context `{Payloads, GenCodec}.
Context (sha256 : string → string) (decode_command : string → option commandSpec) (cfg : Config).

Ltac even_step :=
  lazymatch goal with
  | |- ∀ h, safe _ (Done _) _ h => done
  | |- ∀ h, safe _ (gret _) _ h => done
  | |- ∀ h, safe _ (gfail _) _ h => done
  | |- ∀ h, safe _ (act _) _ h => apply even_within; by split
  | |- ∀ h, safe _ (wrap _ _) _ h => apply even_wrap
  | |- ∀ h, safe _ (quiet _) _ h => apply even_bind; [|done]
  | |- ∀ h, safe _ (lift _ _) _ h => unfold lift
  | |- ∀ h, safe _ (gbind _ _) _ h => apply even_gbind; [|intros ?]
  | |- ∀ h, safe _ (cbind _ _) _ h => apply even_bind; [|intros ?]
  | |- ∀ h, safe _ (gfold _ _ _) _ h => apply even_gfold; intros ? ?
  | |- ∀ h, safe _ (if ?b then _ else _) _ h => destruct b
  | |- ∀ h, safe _ (match ?x with _ => _ end) _ h => destruct x
  end.

Lemma even_append tenant run id n kind payload : even (append_event tenant run id n kind payload).
Proof. unfold append_event. repeat even_step. Qed.
Lemma even_load tenant run : even (load tenant run).
Proof. unfold load. repeat even_step. Qed.
Lemma even_graphOf tenant run state : even (graphOf tenant run state).
Proof. unfold graphOf. repeat even_step. Qed.

(** Calls of every program the walk below meets. *)
Ltac even_walk :=
  repeat (even_step || apply even_append || apply even_load || apply even_graphOf).

Lemma even_hold_back tenant run id : even (releaseHold tenant run id).
Proof.
  intros h. unfold releaseHold. split; [done|]. intros [r|]; [|hnf; by rewrite owed_snoc].
  apply safe_give_back. intros h' E. unfold same_owed. rewrite E, owed_snoc. simpl. destruct r; simpl; [done|apply pay_head].
Qed.

Lemma safe_hold tenant run id r h (Q : unit → list did → Prop) :
  (∀ h', owed h' = pay_release r (owed h) → Q tt h') → safe no_guard (hold tenant run id r) Q h.
Proof.
  intros HQ. unfold hold. split; [done|]. intros [prev|].
  - apply safe_give_back. intros h' E. apply HQ. rewrite E, owed_snoc. simpl. destruct prev; simpl; [done|apply pay_head].
  - apply HQ. by rewrite owed_snoc.
Qed.

Lemma even_revokeSecrets tenant run id n : even (revokeSecrets cfg tenant run id n).
Proof. unfold revokeSecrets. even_walk. Qed.
Lemma even_fail tenant run steps : even (fail_run cfg tenant run steps).
Proof. unfold fail_run, revokeRunSecrets. even_walk. Qed.
Lemma even_finish tenant run pl : even (finish cfg tenant run pl).
Proof. unfold finish, complete, revokeRunSecrets. repeat (even_walk || apply even_fail). Qed.
Lemma even_denyFor tenant run s d signed up secret : even (denyFor cfg tenant run s d signed up secret).
Proof. unfold denyFor. repeat (even_walk || apply even_fail). Qed.
Lemma even_refuseSecrets tenant run s : even (refuseSecrets cfg tenant run s).
Proof. unfold refuseSecrets, recordSecretRefusal. repeat (even_walk || apply even_fail). Qed.
Lemma even_refuseBuiltin tenant run s : even (refuseBuiltinSecrets cfg tenant run s).
Proof. unfold refuseBuiltinSecrets, recordSecretRefusal. repeat (even_walk || apply even_fail). Qed.
Lemma even_decide tenant run s i secret : even (decide_policy cfg tenant run s i secret).
Proof. unfold decide_policy. repeat (even_walk || apply even_denyFor). Qed.
Lemma even_decide_secrets tenant run s i secrets : even (decide_secrets cfg tenant run s i secrets).
Proof. induction secrets; cbn [decide_secrets]; repeat (even_walk || apply even_decide || done). Qed.
Lemma even_permit tenant run p s state : even (permit cfg tenant run p s state).
Proof.
  unfold permit, deny, provenance, reachableCapabilities, list_engines. cbv zeta.
  repeat (even_walk || apply even_denyFor || apply even_decide || apply even_decide_secrets).
Qed.
Lemma even_unschedulable tenant run id reason state : even (recordUnschedulable tenant run id reason state).
Proof. unfold recordUnschedulable. even_walk. Qed.
Lemma even_recordOrphan o : even (recordOrphan cfg o).
Proof. unfold recordOrphan. repeat (even_walk || apply even_hold_back || apply even_revokeSecrets). Qed.
Lemma even_fencedOut tenant run id n state : even (recordFencedOut cfg tenant run id n state).
Proof. unfold recordFencedOut. repeat (even_walk || apply even_recordOrphan). Qed.
Lemma even_tierIdentity tenant kind : even (tierIdentity cfg tenant kind).
Proof. unfold tierIdentity, reportTier. even_walk. Qed.
Lemma even_cacheKey tenant p s state : even (cacheKey sha256 cfg tenant p s state).
Proof. unfold cacheKey. repeat (even_walk || apply even_tierIdentity). Qed.
Lemma even_references tenant run id outs : even (reference_all tenant run id outs).
Proof. induction outs; cbn [reference_all]; repeat (even_walk || done). Qed.
Lemma even_WithTx {A} (fn : go A) : even fn → even (WithTx fn).
Proof. intros Hf. unfold WithTx. repeat (even_walk || done). Qed.
Lemma even_serve tenant run p s state : even (serveFromCache sha256 cfg tenant run p s state).
Proof.
  unfold serveFromCache, recordCacheHit, hit_tx. cbv zeta.
  repeat (even_walk || apply even_cacheKey || apply even_references || apply even_fencedOut || apply even_WithTx).
Qed.
Lemma even_cacheEntry tenant st state : even (recordCacheEntry sha256 cfg tenant st state).
Proof. unfold recordCacheEntry. repeat (even_walk || apply even_cacheKey). Qed.
Lemma even_prepare tenant run p s n matched : even (prepare sha256 decode_command cfg tenant run p s n matched).
Proof.
  unfold prepare, buildDispatch, secretRefs. cbv zeta.
  repeat (even_walk || apply even_fencedOut || apply even_tierIdentity).
Qed.

(** ** The one place a slot is taken *)

Lemma safe_admit tenant run pl s state h :
  safe no_guard (admit_step cfg tenant run pl s state)
    (λ r h', owed h' = match r with Ok (Some rel) => owe (Some rel) (owed h) | _ => owed h end) h.
Proof.
  unfold admit_step. apply safe_gbind. eapply safe_mono.
  2:{ assert (He : even (if negb (cf_Quotas cfg) then gret true else
        inFlight <~ wrap ("scheduler: counting in-flight steps for " +:+ tenant) (act (OInFlight tenant));;
        decision <~ wrap ("scheduler: admitting " +:+ run +:+ "/" +:+ step_id s) (act (OAdmitStep tenant inFlight));;
        if ad_Allowed decision then gret true
        else _ <~ recordUnschedulable tenant run (step_id s) (ad_Reason decision) state;; gret false)).
      { repeat (even_walk || apply even_unschedulable). }
      apply He. }
  intros [[]|e] h1 E1; cbv beta iota delta [negb]; [| |exact E1]; [|exact E1].
  destruct (cf_Budgets cfg); cbv beta iota delta [negb]; [|exact E1]. split; [done|]. intros [rel|].
  - unfold same_owed in E1. simpl. rewrite owed_snoc, E1. done.
  - apply safe_gbind. eapply safe_mono; [|apply even_unschedulable]. intros r h2 E2.
    unfold same_owed in E1, E2. rewrite owed_snoc in E2. simpl in E2. destruct r; simpl; congruence.
Qed.

Lemma safe_undo r refs h l (Q : unit → list did → Prop) :
  owed h = owe (Some r) l → (∀ h', owed h' = l → Q tt h') → safe no_guard (undo cfg r refs) Q h.
Proof.
  intros Ho HQ. unfold undo. apply safe_bind, safe_give_back. intros h1 E1.
  assert (E2 : owed h1 = l) by (rewrite E1, Ho; destruct r; simpl; [done|apply pay_head]).
  assert (Hd : even (discardSecrets cfg refs)) by (unfold discardSecrets; even_walk).
  eapply safe_mono; [|apply Hd]. intros [] h2 E3. apply HQ. unfold same_owed in E3. congruence.
Qed.

Lemma owe_pay r l : pay_release r (owe (Some r) l) = l.
Proof. destruct r; simpl; [done|apply pay_head]. Qed.

Lemma safe_even_at {A} (c : cmd A) h (Q : A → list did → Prop) :
  even c → (∀ a h', owed h' = owed h → Q a h') → safe no_guard c Q h.
Proof. intros Hc HQ. eapply safe_mono; [|apply Hc]. intros a h' E. by apply HQ. Qed.

Lemma safe_dispatch_admitted tenant run p s n matched r h l :
  owed h = owe (Some r) l →
  safe no_guard (dispatch_admitted sha256 decode_command cfg tenant run p s n matched r) (λ _ h', owed h' = l) h.
Proof.
  intros Ho. unfold dispatch_admitted. apply safe_bind, safe_even_at; [apply even_prepare|].
  intros [[pm|]|e] h1 E1; rewrite Ho in E1; [|by apply safe_bind, (safe_undo _ _ _ l)..].
  apply safe_bind, safe_even_at.
  { apply even_WithTx. unfold dispatch_tx. even_walk. }
  intros [u|e] h2 E2; rewrite E1 in E2.
  - apply safe_bind, safe_hold. intros h3 E3. simpl. rewrite E3, E2. apply owe_pay.
  - apply safe_bind, safe_even_at; [unfold dispatch_failed; even_walk|]. intros out h3 E3. rewrite E2 in E3.
    by apply safe_bind, (safe_undo _ _ _ l).
Qed.

Lemma even_dispatch tenant run p s state : even (dispatch sha256 decode_command cfg tenant run p s state).
Proof.
  assert (Hadm : ∀ n matched, even (slot <~ admit_step cfg tenant run (st_pipelineID state) s state;;
      match slot with
      | None => gret tt
      | Some release => dispatch_admitted sha256 decode_command cfg tenant run p s n matched release
      end)).
  { intros n matched h. apply safe_gbind. eapply safe_mono; [|apply safe_admit].
    intros [[r|]|e] h1 E1; [|exact E1..]. by apply safe_dispatch_admitted. }
  unfold dispatch, armGate, list_engines. cbv zeta.
  repeat (apply Hadm || even_step || apply even_WithTx || apply even_refuseSecrets || apply even_unschedulable).
Qed.

Lemma even_drain tenant : even (drain sha256 decode_command cfg tenant).
Proof.
  unfold drain, list_engines, geach, drain_item, dispatchQueued. cbv zeta.
  repeat (even_walk || apply even_dispatch).
Qed.

Lemma even_ready_loop tenant run p state served steps :
  even (ready_loop sha256 decode_command cfg tenant run p state served steps).
Proof.
  revert served. induction steps as [|s steps IH]; intros served; cbn [ready_loop]; [done|].
  unfold ready_step, takeBuiltin, enqueueReady.
  repeat (even_walk || apply IH || apply even_permit || apply even_refuseBuiltin || apply even_serve || apply even_dispatch).
Qed.

Lemma even_pass tenant run : even (advance_pass sha256 decode_command cfg tenant run).
Proof.
  unfold advance_pass, recordAwaitingReplay. cbv zeta.
  repeat (even_walk || apply even_finish || apply even_ready_loop || apply even_drain).
Qed.

Lemma even_Advance fuel tenant run : even (Advance sha256 decode_command cfg fuel tenant run).
Proof.
  unfold Advance. do 2 (even_step; [done|]). induction fuel; cbn [advance_loop];
    repeat (even_step || apply even_pass || done).
Qed.

Lemma even_OnStatus fuel st : even (OnStatus sha256 decode_command cfg fuel st).
Proof.
  unfold OnStatus, fence_token, accept_phase, apply_terminal, left_flight.
  repeat (even_walk || apply even_Advance || apply even_hold_back || apply even_revokeSecrets || apply even_cacheEntry).
Qed.

Lemma even_Sweep fuel : even (SweepOrphans sha256 decode_command cfg fuel).
Proof.
  unfold SweepOrphans, sweep_one, surfaceStranded, surface_next, fleet_of, surfaceOne, withdrawAbandoned,
    recordWaiting, list_engines, join_errors. cbv zeta.
  repeat (even_walk || apply even_Advance || apply even_recordOrphan || apply even_fencedOut || apply even_unschedulable).
Qed.

(** C29: No concurrency slot is leaked, on any path: whatever the calls answer,
    when an entry point of the plane returns - having dispatched, having been
    fenced out, on an error in the middle - every budget slot it acquired has
    been released or is in the plane's map of slots held by steps in flight,
    and so has every slot it took out of that map. *)
Theorem slots_never_leak (e : entry) (tr : list did) :
  runs (program sha256 decode_command cfg e) tr (Some tt) → owed tr = [].
Proof.
  assert (Hs : safe no_guard (program sha256 decode_command cfg e) (λ _ h', same_owed [] h') []).
  { destruct e; (apply safe_bind, safe_even_at; [|by intros a h' E; apply E]);
      [apply even_Advance|apply even_OnStatus| |apply even_Sweep].
    unfold Accept, fence_token. even_walk. }
  intros Hr. destruct (safe_runs _ _ _ _ _ _ Hs Hr) as [_ Hq]. by apply (Hq tt).
Qed.

(** ** Stale reports *)

(** The calls a report that is no verdict may lead to: one renewal of the lease
    it carries, when it says the engine has the step. *)
Definition at_most_a_renewal (st : JobStatus) (t : Token) (rest : list did) : Prop :=
  rest = [] ∨ acceptsLease (js_Phase st) = true ∧ ∃ x, rest = [Did (ORenew t) x].

(** What a plane may make of a report, as a trace and an answer. *)
Definition answered_by_fence (st : JobStatus) (tr : list did) (r : option (result GoErr unit)) : Prop :=
  match DecodeFence (js_FenceToken st) with
  | Err _ => tr = [] ∧ ∀ a, r = Some a → ∃ e, a = Err e
  | Ok (tenant, (value, fence)) =>
      tr = [] ∧ (∀ a, r = Some a → tenant = "" ∧ ∃ e, a = Err e)
      ∨ tenant ≠ "" ∧ ∃ x rest, tr = Did (OValidate (mkToken value fence)) x :: rest ∧
        match x with
        | Ok _ => terminalEvent (js_Phase st) = None → at_most_a_renewal st (mkToken value fence) rest
        | Err e => rest = [] ∧ ∀ a, r = Some a → if Is e ErrFenced then a = Ok tt else ∃ e', a = Err e'
        end
  end.

Lemma accept_phase_runs st t tr r :
  runs (accept_phase st t) tr r → at_most_a_renewal st t tr.
Proof.
  unfold accept_phase. destruct (acceptsLease (js_Phase st)) eqn:Ea; cbn [negb].
  - intros [[-> _]|(x & tr' & -> & Hr)]%runs_Call; [by left|]. right. split; [done|]. exists x. f_equal.
    destruct x as [[]|e]; [by apply runs_Done in Hr as [-> _]|]. destruct (Is e ErrFenced); by apply runs_Done in Hr as [-> _].
  - intros [-> _]%runs_Done. by left.
Qed.

(** C15: A report is believed only under a lease that is current. Whatever a
    plane does with a report begins with one check, of the lease named by the
    token the report carries; before the answer there is no call at all, and
    without a readable token that names a tenant there is none ever. When the
    answer is that the lease was superseded, or that it could not be checked,
    that check is the only call made - no event, no slot, no lease, no other
    run is touched - and the report is dropped without error in the first case
    and given back with one in the second. A report that is no verdict leads,
    past the check, to at most one renewal of that same lease. *)
Theorem stale_report_changes_nothing (fuel : nat) (st : JobStatus) (tr : list did) (r : option (result GoErr unit)) :
  runs (OnStatus sha256 decode_command cfg fuel (Some st)) tr r → answered_by_fence st tr r.
Proof.
  unfold OnStatus, fence_token, answered_by_fence. destruct (DecodeFence _) as [[tenant [value fence]]|e0].
  2: { intros [-> Hr]%runs_Done. split; [done|]. intros a ->. destruct Hr as [|[= ->]]; [done|by eexists]. }
  case_decide as Ht.
  { intros [-> Hr]%runs_Done. left. split; [done|]. intros a ->. destruct Hr as [|[= ->]]; [done|]. split; [done|by eexists]. }
  intros [[-> ->]|(x & rest & -> & Hr)]%runs_Call; [by left|]. right. split; [done|]. exists x, rest. split; [done|].
  cbn [gbind cbind fst snd] in Hr. destruct x as [[]|e].
  - intros Hk. rewrite Hk in Hr. by apply accept_phase_runs in Hr.
  - destruct (Is e ErrFenced); apply runs_Done in Hr as [-> Hr]; (split; [done|]); intros a ->;
      destruct Hr as [|[= ->]]; try done. by eexists.
Qed.

End Slots.

(** ** [Advance] ends *)

Section Termination.
Context `{Payloads, GenCodec}.
Context (sha256 : string → string) (decode_command : string → option commandSpec) (cfg : Config).
Context (tenant run : string).

(** The steps of the run whose success this plane has committed: those of the
    transaction that is open, and those of the ones that were committed. *)
Definition track (s : list string * list string) (d : did) : list string * list string :=
  match d with
  | Did o x =>
      match o in op X return X → list string * list string with
      | OTxBegin | OTxRollback => λ _, ([], s.2)
      | OTxAppend t e => λ r,
          (if is_ok r && bool_decide (t = tenant ∧ ev_RunID e = run ∧ ev_Type e = StepSucceeded)
           then ev_StepID e :: s.1 else s.1, s.2)
      | OTxCommit => λ r, ([], if is_ok r then s.1 ++ s.2 else s.2)
      | _ => λ _, s
      end x
  end.

Definition served_steps (h : list did) : list string := (foldl track ([], []) h).2.

(** What a plane relies on of its stores: a run read after the success of a
    step was committed shows that step's success, with nothing about its
    standing since; and the graphs the run is read with have their steps
    in [ids]. *)
Record steady (ids : list string) (tr : list did) : Prop := mkSteady
  { sd_log : ∀ pre evs post id, tr = pre ++ Did (OReplay tenant run) (Ok evs) :: post →
      id ∈ served_steps pre → settled id evs = true;
    sd_graph : ∀ state p s, loaded tenant run state tr → graph_read tenant state p tr → s ∈ pl_steps p → step_id s ∈ ids }.

Lemma track_mono s d id : id ∈ s.2 → id ∈ (track s d).2.
Proof. destruct d as [X o x]. revert x. destruct o; intros x Hid; simpl; try done. destruct x; simpl; [set_solver|done]. Qed.

Lemma served_mono h h' id : extends h h' → id ∈ served_steps h → id ∈ served_steps h'.
Proof.
  intros [tr ->]. unfold served_steps. rewrite foldl_app. generalize (foldl track ([], []) h). intros s. revert s.
  induction tr as [|d tr IH]; intros s Hid; simpl; [done|]. by apply IH, track_mono.
Qed.

(** The steps of the graph that are not served yet. *)
Definition unserved (ids : list string) (h : list did) : list string := filter (λ id, id ∉ served_steps h) ids.

Lemma filter_le (P Q : string → Prop) `{∀ x, base.Decision (P x), ∀ x, base.Decision (Q x)} l :
  (∀ x, Q x → P x) → (length (filter Q l) ≤ length (filter P l))%nat.
Proof.
  intros Hle. induction l as [|y l IH]; simpl; [lia|]. rewrite !filter_cons.
  destruct (decide (Q y)) as [Hy|]; [rewrite (decide_True _ _ (Hle _ Hy)); simpl; lia|case_decide; simpl; lia].
Qed.

Lemma filter_lt (P Q : string → Prop) `{∀ x, base.Decision (P x), ∀ x, base.Decision (Q x)} l x :
  (∀ x, Q x → P x) → x ∈ l → P x → ¬ Q x → (length (filter Q l) < length (filter P l))%nat.
Proof.
  intros Hle Hx HP HQ. induction l as [|y l IH]; [by apply elem_of_nil in Hx|]. rewrite !filter_cons.
  pose proof (filter_le P Q l Hle). apply elem_of_cons in Hx as [->|Hx].
  - rewrite (decide_True _ _ HP), (decide_False _ _ HQ). simpl. lia.
  - specialize (IH Hx). destruct (decide (Q y)) as [Hy|]; [rewrite (decide_True _ _ (Hle _ Hy)); simpl; lia|].
    case_decide; simpl; lia.
Qed.

Lemma unserved_fewer ids h h' id :
  extends h h' → id ∈ ids → id ∉ served_steps h → id ∈ served_steps h' →
  (length (unserved ids h') < length (unserved ids h))%nat.
Proof.
  intros He Hid Hn Hs. apply (filter_lt _ _ _ id); [|done..|by intros []]. intros x Hx Hin. by apply Hx, (served_mono h).
Qed.

(** A hit that says it was served was committed. *)
Lemma hit_commits id n t payload status at_ h :
  safe no_guard (WithTx (hit_tx tenant run id n t payload status at_)) (λ r h', r = Ok tt → id ∈ served_steps h') h.
Proof.
  unfold WithTx, hit_tx. split; [done|]. intros [[]|e]; [|done]. split; [done|]. intros [[]|e]; [|by split].
  split; [done|]. intros [[]|e]; [|by split]. split; [done|]. intros [[]|e]; [|by split].
  split; [done|]. intros [[]|e]; [|done]. intros _. unfold served_steps. rewrite !foldl_app. simpl.
  rewrite bool_decide_true by done. by left.
Qed.

Lemma served_commits s outs state h :
  safe no_guard (recordCacheHit cfg tenant run s outs state) (λ r h', r = Ok cacheServed → step_id s ∈ served_steps h') h.
Proof.
  unfold recordCacheHit. split; [done|]. intros t0. split; [done|]. cbn [cbind]. intros [t|e]; [|by case_match].
  apply safe_gbind, safe_any. intros [fresh|e] h1 He1; [|done]. case_decide.
  { apply safe_gbind, safe_any. by intros [u|e] h2 _. }
  destruct (MarshalStatus _) as [payload|]; [|done]. split; [done|]. intros at_. cbn [cbind]. apply safe_bind.
  eapply safe_mono; [|apply hit_commits]. intros [[]|e] h2 Hh; cbv beta iota in Hh |- *; [|by case_match].
  split; [done|]. intros t1 _. eapply served_mono; [apply extends_snoc|by apply Hh].
Qed.

Lemma serve_commits p s state h :
  safe no_guard (serveFromCache sha256 cfg tenant run p s state) (λ r h', r = Ok cacheServed → step_id s ∈ served_steps h') h.
Proof.
  unfold serveFromCache. destruct (negb (cf_Cache cfg)); [done|]. apply safe_gbind, safe_any.
  intros [[key|]|e] h1 He1; [|done..]. apply safe_gbind, safe_any. intros [[outs|]|e] h2 He2; [|done..].
  apply safe_gbind, safe_any. intros [[]|e] h3 He3; [|done..]. apply served_commits.
Qed.

Lemma ready_step_commits p state s h :
  safe no_guard (ready_step sha256 decode_command cfg tenant run p state s)
    (λ r h', r = Ok (Some true) → step_id s ∈ served_steps h') h.
Proof.
  unfold ready_step. apply safe_gbind, safe_any. intros [[]|e] h1 He1; [|done..].
  apply safe_gbind, safe_any. intros [[]|e] h2 He2; [done| |done].
  apply safe_gbind. eapply safe_mono; [|apply serve_commits]. intros [[]|e] h3 Hh; [| |done|done].
  - apply safe_gbind, safe_any. intros [[]|e] h4 _; [done| |done].
    destruct (negb (cf_Queue cfg)); apply safe_gbind, safe_any; by intros [u|e] h5 _.
  - intros _. by apply Hh.
Qed.

Lemma ready_loop_commits p state served steps h :
  safe no_guard (ready_loop sha256 decode_command cfg tenant run p state served steps)
    (λ r h', r = Ok (Passed true) → served = true ∨ ∃ s, s ∈ steps ∧ step_id s ∈ served_steps h') h.
Proof.
  revert served h. induction steps as [|s steps IH]; intros served h; cbn [ready_loop].
  { intros Hr. left. by injection Hr. }
  apply safe_gbind. eapply safe_mono; [|apply ready_step_commits]. intros [[hit|]|e] h1 Hh; [|done..].
  eapply safe_mono; [|apply safe_extends, IH]. intros r h2 [Hr2 [tr ->]] Hr.
  destruct (Hr2 Hr) as [[Hs|Hhit]%orb_true_iff|(x & Hx & Hin)]; [by left| |right; exists x; split; [by right|done]].
  right. subst hit. exists s. split; [by left|]. eapply served_mono; [by exists tr|by apply Hh].
Qed.

(** A pass that asks for another read the log, and has served a step the log
    did not show succeeded. *)
Definition progressed (h h' : list did) : Prop :=
  ∃ evs state p s post, h' = h ++ Did (OReplay tenant run) (Ok evs) :: post ∧ load_events evs = Ok state
    ∧ graph_read tenant state p h' ∧ s ∈ pl_steps p ∧ terminal_of state (step_id s) ≠ StepSucceeded
    ∧ step_id s ∈ served_steps h'.

Lemma pass_progresses h :
  safe no_guard (advance_pass sha256 decode_command cfg tenant run) (λ r h', r = Ok true → progressed h h') h.
Proof.
  unfold advance_pass, load. apply safe_gbind, safe_gbind, safe_wrap_act; [done| |done]. intros evs. unfold lift at 1.
  destruct (load_events evs) as [state|] eqn:El; [|done]. cbv beta iota. cbn [gret cbind safe].
  set (h1 := h ++ [_]). destruct (st_completed state); [done|].
  unfold graphOf. apply safe_gbind, safe_gbind, safe_wrap_act; [done| |done]. intros authored. unfold lift at 1.
  set (h2 := h1 ++ [_]). destruct (spliceRealised authored (st_fragments state)) as [p|] eqn:Es; [|done]. cbn [gret cbind safe].
  assert (Hg : graph_read tenant state p h2) by (exists authored; split; [apply snoc_elem|done]).
  apply safe_gbind. unfold lift. destruct (Build (Some p)) as [g|] eqn:Eb; [|done]. cbn [gret cbind safe].
  split; [done|]. intros t. cbn [cbind]. apply safe_gbind, safe_any. intros [state'|e] h5 He5; [|done].
  destruct (idle _); [apply safe_gbind, safe_any; by intros [u|e] h6 _|].
  apply safe_gbind. eapply safe_mono; [|apply safe_extends, ready_loop_commits]. intros [[|served]|e] h6 [Hh [t6 ->]]; [done| |done].
  apply safe_gbind, safe_any. intros [u|e] h7 He7; [|done]. intros Hr. injection Hr as ->.
  destruct (Hh eq_refl) as [|(s & Hs & Hin)]; [done|].
  apply (planned_is_entitled p g) in Hs as (Hs & Hns & _); [|done].
  assert (He : extends h2 h7) by (do 2 (etrans; [|eassumption || by eexists]); etrans; [apply extends_snoc|eassumption]).
  assert (He1 : extends h1 h7) by (etrans; [apply extends_snoc|exact He]). destruct He1 as [post Hpost].
  exists evs, state, p, s, post. split_and!; [by rewrite Hpost; unfold h1; rewrite <-app_assoc|done|..]; try done;
    [by apply (graph_read_keeps _ _ _ _ _ He)|by apply (served_mono _ _ _ He7)].
Qed.

Lemma progressed_fewer ids h h' tr :
  progressed h h' → extends h' tr → steady ids tr → (length (unserved ids h') < length (unserved ids h))%nat.
Proof.
  intros (evs & state & p & s & post & Hh & Hl & Hg & Hs & Hns & Hin) He [Hlog Hgr].
  apply (unserved_fewer _ _ _ (step_id s)); [by eexists| | |done].
  { apply (Hgr state p); [|by eapply graph_read_keeps|done]. eapply loaded_keeps; [exact He|]. exists evs. split; [|done].
    rewrite Hh. apply elem_of_app. right. left. }
  intros Hold. apply Hns, (load_settled _ evs); [done|]. destruct He as [rest ->].
  apply (Hlog h evs (post ++ rest)); [by rewrite Hh, <-app_assoc|done].
Qed.

Lemma loop_fuel ids fuel : ∀ h tr r,
  runs (advance_loop sha256 decode_command cfg fuel tenant run) tr (Some r) → steady ids (h ++ tr) →
  (length (unserved ids h) < fuel)%nat → ∀ fuel', (length (unserved ids h) < fuel')%nat →
  runs (advance_loop sha256 decode_command cfg fuel' tenant run) tr (Some r).
Proof.
  induction fuel as [|fuel IH]; intros h tr r Hr Hst Hlt fuel' Hlt'; [lia|].
  destruct fuel' as [|fuel']; [lia|]. cbn [advance_loop] in Hr |- *.
  apply runs_bind in Hr as (t1 & t2 & a & -> & Hp & Hk). apply runs_bind. exists t1, t2, a.
  split; [done|]. split; [done|]. destruct a as [[]|e]; [|done..].
  destruct (safe_runs _ _ _ _ _ _ (pass_progresses h) Hp) as [_ Hq]. specialize (Hq _ eq_refl eq_refl).
  rewrite app_assoc in Hst. pose proof (progressed_fewer ids _ _ _ Hq ltac:(by eexists) Hst).
  apply (IH (h ++ t1)); [done|done|lia..].
Qed.

(** C32: An advance ends. Go's function calls itself as long as a pass served a
    step from the cache; here it is given fuel. As long as the stores keep
    what was committed - a replay after a cache hit shows the step succeeded -
    and the run's graphs have their steps among [ids], one pass more than
    there are steps is all an advance can use: with that much fuel it does
    exactly what it does with any more, call for call, so the fuel is never
    what ends it and no advance goes round for ever. *)
Theorem advance_terminates ids (fuel fuel' : nat) (tr : list did) (r : result GoErr unit) :
  steady ids tr → (length ids < fuel)%nat → (length ids < fuel')%nat →
  runs (Advance sha256 decode_command cfg fuel tenant run) tr (Some r) ↔
  runs (Advance sha256 decode_command cfg fuel' tenant run) tr (Some r).
Proof.
  intros Hst Hlt Hlt'. unfold Advance. case_decide; [done|]. case_decide; [done|].
  assert (Hn : (length (unserved ids []) ≤ length ids)%nat) by apply length_filter.
  split; intros Hr; eapply (loop_fuel ids _ []); (eassumption || lia).
Qed.

End Termination.

(** ** The theorems at a run *)

Lemma slots_never_leak_witness : owed first_pass = [].
Proof. apply (slots_never_leak (λ s, s) (λ _, None) ex_config (EAdvance 1 "t" "r1")), ex_run_runs. Defined.

Definition stale_answer (X : Type) (o : op X) (w : world) : world * X :=
  match o in op X return world * X with
  | OValidate _ => (w, Err ErrFenced)
  | o => ex_answer _ o w
  end.

Definition stale_report : list did * result GoErr unit :=
  let '(_, tr, r) := drive stale_answer (OnStatus (λ s, s) (λ _, None) ex_config 1 (Some foreign_status)) (ex_world []) in (tr, r).

Lemma stale_report_runs :
  runs (OnStatus (λ s, s) (λ _, None) ex_config 1 (Some foreign_status)) stale_report.1 (Some stale_report.2).
Proof. apply (drive_runs stale_answer _ (ex_world []) (ex_world [])). vm_compute. reflexivity. Qed.

Lemma stale_report_changes_nothing_witness :
  answered_by_fence foreign_status stale_report.1 (Some stale_report.2) ∧ length stale_report.1 = 1%nat ∧ stale_report.2 = Ok tt.
Proof.
  split; [|split; vm_compute; reflexivity].
  exact (stale_report_changes_nothing (λ s, s) (λ _, None) ex_config 1 foreign_status _ _ stale_report_runs).
Defined.

(** Two pure steps, one after the other, both with a result in the cache. *)
Definition ex_binary : OutputRef := mkOutputRef "bin" (mkDigest "sha256" "cafe") "" 1 "".
Definition caching_answer (X : Type) (o : op X) (w : world) : world * X :=
  match o in op X return world * X with
  | OCacheLookup _ _ => (w, Ok (Some [ex_binary]))
  | o => ex_answer _ o w
  end.
Definition caching_payloads : Payloads :=
  {| MarshalDispatched _ := "dispatched"; MarshalUnschedulable _ := ""; MarshalWaitingReason _ := "";
     MarshalPolicyDenied _ := ""; MarshalAwaitingReplay _ := ""; MarshalAttemptLost _ := "";
     MarshalRunFailure _ := ""; MarshalSecretUnavailable _ := ""; MarshalStatus _ := Some "status";
     UnmarshalRunCreated _ := Some (mkRunCreated "ci" "rev1" ∅ "");
     UnmarshalDispatched _ := Some (mkDispatched 1 1 true "" true "");
     UnmarshalUnschedulable _ := None; UnmarshalWaitingReason _ := None;
     UnmarshalStatus _ := Some (mkJobStatus "r1" "" 1 "" PHASE_SUCCEEDED 0 [ex_binary] "" "");
     UnmarshalSanitised _ := None |}.
Definition caching_config : Config :=
  mkConfig true true true true true "trusted" "linux" "amd64" true true true false false false true true
    false false false true DefaultLeaseTTL.

Definition served_advance : go unit := @Advance caching_payloads _ (λ s, s) (λ _, None) caching_config 3 "t" "r1".
Definition serving : list did := trace_of caching_answer served_advance (ex_world []).
Definition serving_answer : result GoErr unit := snd (drive caching_answer served_advance (ex_world [])).
Lemma serving_runs : runs served_advance serving (Some serving_answer).
Proof. exact (trace_of_runs caching_answer served_advance (ex_world [])). Qed.

(** [steady], checked call by call. *)
Definition shows_served (served : list string) (d : did) : bool :=
  match d with
  | Did o x =>
      match o in op X return X → bool with
      | OReplay _ _ => λ r, match r with
          | Ok evs => forallb (λ id, settled id evs) served
              && match @load_events caching_payloads _ evs with Ok s => bool_decide (length (st_fragments s) = 0%nat) | Err _ => true end
          | Err _ => true end
      | ODefinition _ _ _ => λ r, match r with
          | Ok p => forallb (λ s, bool_decide (step_id s ∈ ["build"; "test"])) (pl_steps p)
          | Err _ => true end
      | _ => λ _, true
      end x
  end.

Fixpoint steady_from (s : list string * list string) (h : list did) : bool :=
  match h with
  | [] => true
  | d :: h => shows_served s.2 d && steady_from (track "t" "r1" s d) h
  end.

Lemma steady_from_split s pre d post :
  steady_from s (pre ++ d :: post) = true → shows_served (foldl (track "t" "r1") s pre).2 d = true.
Proof.
  revert s. induction pre as [|c pre IH]; intros s; simpl; intros [Hd Hr]%andb_true_iff; [done|by apply IH].
Qed.

Lemma serving_steady : @steady caching_payloads _ "t" "r1" ["build"; "test"] serving.
Proof.
  assert (Hall : steady_from ([], []) serving = true) by (vm_compute; reflexivity).
  split.
  - intros pre evs post id Ht Hid. rewrite Ht in Hall. apply steady_from_split in Hall. simpl in Hall.
    apply andb_true_iff in Hall as [Hall _]. rewrite forallb_forall in Hall. by apply Hall, list_elem_of_In.
  - intros state p s (evs & Hr & Hl) (authored & Hd & Hs) Hin.
    apply list_elem_of_split in Hr as (l1 & l2 & Hr). apply list_elem_of_split in Hd as (k1 & k2 & Hd).
    pose proof Hall as Hall2. rewrite Hr in Hall. rewrite Hd in Hall2. apply steady_from_split in Hall, Hall2. simpl in Hall, Hall2.
    rewrite Hl in Hall. apply andb_true_iff in Hall as [_ Hf]. apply bool_decide_eq_true, nil_length_inv in Hf.
    rewrite Hf in Hs. injection Hs as ->. rewrite forallb_forall in Hall2.
    apply list_elem_of_In, Hall2 in Hin. by apply bool_decide_eq_true in Hin.
Qed.

Lemma advance_terminates_witness :
  serving_answer = Ok tt ∧ served_steps "t" "r1" serving = ["test"; "build"]
  ∧ runs (@Advance caching_payloads _ (λ s, s) (λ _, None) caching_config 9 "t" "r1") serving (Some serving_answer).
Proof.
  split; [vm_compute; reflexivity|]. split; [vm_compute; reflexivity|].
  exact (proj1 (@advance_terminates caching_payloads _ (λ s, s) (λ _, None) caching_config "t" "r1" ["build"; "test"] 3 9
    serving serving_answer serving_steady ltac:(simpl; lia) ltac:(simpl; lia)) serving_runs).
Defined.
