(* ===== verification/Outbox.v ===== *)
(** * [internal/outbox]: what the log decided, told to the bus

    A message is a row of the same database the run event went into, written
    in the same transaction. A drainer claims owed rows, publishes them, and
    stamps the ones the bus took. [Enqueue], [claim], [markSent], [Drain] and
    [drainBacklog] are the package's functions over the table; [ob_step] is
    any number of control planes draining one database at once, each able to
    stop anywhere. *)

From S2P Require Import Prelude Bytes RunStore.

(** ** The table *)

Record OutRow : Type := mkOutRow
  { ob_id : Z; ob_tenant : string; ob_deployment : string; ob_subject : string; ob_payload : string;
    ob_sent_at : option Z }.

(** The rows, and the next identity value. *)
Record OutTable : Type := mkOutTable { ob_rows : list OutRow; ob_next : Z }.

Inductive OutboxErr : Type :=
| OutTenantRequired
| OutSubjectRequired
| OutDeploymentRequired
| OutMarshal (subject : string)
| OutPublish (subject : string)
| OutTx.

Definition drainBatch : nat := 100.

(** [payload] is what [proto.Marshal] made of the message; the insert is part of
    the caller's transaction. *)
Definition Enqueue (deployment tenantID subject : string) (payload : option string) (tb : OutTable)
    : OutTable * result OutboxErr unit :=
  if decide (tenantID = "") then (tb, Err OutTenantRequired)
  else if decide (subject = "") then (tb, Err OutSubjectRequired)
  else if decide (deployment = "") then (tb, Err OutDeploymentRequired)
  else match payload with
       | None => (tb, Err (OutMarshal subject))
       | Some payload =>
           (mkOutTable (ob_rows tb ++ [mkOutRow (ob_next tb) tenantID deployment subject payload None])
              (ob_next tb + 1), Ok tt)
       end.

(** ** Claiming and marking *)

Definition owed_row (deployment : string) (locked : list Z) (r : OutRow) : bool :=
  bool_decide (ob_sent_at r = None) && bool_decide (ob_deployment r = deployment)
  && negb (bool_decide (ob_id r ∈ locked)).

Definition id_le (a b : OutRow) : Prop := ob_id a ≤ ob_id b.
#[export] Instance id_le_dec : RelDecision id_le.
Proof. intros a b. unfold id_le. apply _. Defined.

(** [WHERE sent_at IS NULL AND deployment_id = ? ORDER BY id LIMIT ?]; [locked]
    are the rows [SKIP LOCKED] walks past on Postgres. On SQLite the
    transaction holds the only write lock and there are none. *)
Definition claim (deployment : string) (locked : list Z) (tb : OutTable) : list OutRow :=
  firstn drainBatch (merge_sort id_le (filter (owed_row deployment locked) (ob_rows tb))).

Definition mark_row (now id : Z) (r : OutRow) : OutRow :=
  if decide (ob_id r = id)
  then mkOutRow (ob_id r) (ob_tenant r) (ob_deployment r) (ob_subject r) (ob_payload r) (Some now)
  else r.

Definition mark_id (now : Z) (tb : OutTable) (id : Z) : OutTable :=
  mkOutTable (map (mark_row now id) (ob_rows tb)) (ob_next tb).

Definition markSent (now : Z) (ids : list Z) (tb : OutTable) : OutTable := foldl (mark_id now) tb ids.

(** ** One drain *)

Section Drain.
(** The bus and the database as the drainer meets them: whether the bus took a
    row, whether the claim's transaction committed, whether the context is
    done. [proto.Marshal] of the raw message gives back the stored bytes. *)
Context {W : Type} (publish : OutRow → W → W * bool) (commit : W → W * bool) (ctx_done : W → bool).

(** The rows the bus took, and the error that stopped the loop. *)
Fixpoint publish_rows (rows : list OutRow) (sent : list Z) (w : W) : W * list Z * option OutboxErr :=
  match rows with
  | [] => (w, sent, None)
  | row :: rows =>
      match publish row w with
      | (w, true) => publish_rows rows (sent ++ [ob_id row]) w
      | (w, false) => (w, sent, Some (OutPublish (ob_subject row)))
      end
  end.

Definition Drain (deployment : string) (locked : list Z) (now : Z) (tb : OutTable) (w : W)
    : W * OutTable * (Z * option OutboxErr) :=
  if decide (deployment = "") then (w, tb, (0, Some OutDeploymentRequired))
  else
    let '(w, sent, publishErr) := publish_rows (claim deployment locked tb) [] w in
    match commit w with
    | (w, true) => (w, markSent now sent tb, (Z.of_nat (length sent), publishErr))
    | (w, false) => (w, tb, (0, Some OutTx))
    end.

(** Drains until a batch comes back short or anything fails. *)
Fixpoint drainBacklog (fuel : nat) (deployment : string) (locked : list Z) (now : Z) (tb : OutTable) (w : W)
    : option (W * OutTable) :=
  match fuel with
  | O => None
  | S fuel =>
      let '(w, tb, (n, err)) := Drain deployment locked now tb w in
      match err with
      | Some _ => Some (w, tb)
      | None =>
          if decide (n < Z.of_nat drainBatch) then Some (w, tb)
          else if ctx_done w then Some (w, tb)
          else drainBacklog fuel deployment locked now tb w
      end
  end.
End Drain.

(** ** Planes sharing a database *)

(** A drain in progress: the rows it has locked, those still to publish, those
    published. *)
Record Draining : Type := mkDraining
  { dr_deployment : string; dr_claimed : list OutRow; dr_todo : list OutRow; dr_sent : list OutRow }.

(** The table as committed, each drain in progress, and what each deployment's
    bus took. *)
Record Planes : Type := mkPlanes
  { pl_table : OutTable; pl_drains : gmap nat Draining; pl_bus : list (string * OutRow) }.

Definition locked_ids (p : Planes) : list Z :=
  flat_map (λ x : nat * Draining, map ob_id (dr_claimed x.2)) (map_to_list (pl_drains p)).

Inductive ob_label : Type :=
| LEnqueue (deployment tenant subject payload : string)
| LClaim (plane : nat) (deployment : string)
| LPublish (plane : nat) (row : OutRow)
(** the bus took it and the answer was lost *)
| LUncertain (plane : nat) (row : OutRow)
| LRefused (plane : nat)
| LCommit (plane : nat) (now : Z)
(** a failed transaction, or a plane that died: its rows are unlocked, and
    those it had published are not stamped *)
| LRollback (plane : nat) (unstamped : list OutRow).

Definition with_drain (p : Planes) (n : nat) (d : Draining) (taken : list (string * OutRow)) : Planes :=
  mkPlanes (pl_table p) (<[n := d]> (pl_drains p)) (pl_bus p ++ taken).

Inductive ob_step : Planes → ob_label → Planes → Prop :=
| st_enqueue p dep tenant subject payload tb :
    Enqueue dep tenant subject (Some payload) (pl_table p) = (tb, Ok tt) →
    ob_step p (LEnqueue dep tenant subject payload) (mkPlanes tb (pl_drains p) (pl_bus p))
| st_claim p n dep rows :
    pl_drains p !! n = None → dep ≠ "" → rows = claim dep (locked_ids p) (pl_table p) →
    ob_step p (LClaim n dep) (with_drain p n (mkDraining dep rows rows []) [])
| st_publish p n dep claimed row todo sent :
    pl_drains p !! n = Some (mkDraining dep claimed (row :: todo) sent) →
    ob_step p (LPublish n row) (with_drain p n (mkDraining dep claimed todo (sent ++ [row])) [(dep, row)])
| st_uncertain p n dep claimed row todo sent :
    pl_drains p !! n = Some (mkDraining dep claimed (row :: todo) sent) →
    ob_step p (LUncertain n row) (with_drain p n (mkDraining dep claimed [] sent) [(dep, row)])
| st_refused p n dep claimed todo sent :
    pl_drains p !! n = Some (mkDraining dep claimed todo sent) →
    ob_step p (LRefused n) (with_drain p n (mkDraining dep claimed [] sent) [])
| st_commit p n now dep claimed sent :
    pl_drains p !! n = Some (mkDraining dep claimed [] sent) →
    ob_step p (LCommit n now)
      (mkPlanes (markSent now (map ob_id sent) (pl_table p)) (delete n (pl_drains p)) (pl_bus p))
| st_rollback p n d :
    pl_drains p !! n = Some d →
    ob_step p (LRollback n (dr_sent d)) (mkPlanes (pl_table p) (delete n (pl_drains p)) (pl_bus p)).

Inductive ob_steps : Planes → list ob_label → Planes → Prop :=
| ob_nil p : ob_steps p [] p
| ob_cons p l p' ls p'' : ob_step p l p' → ob_steps p' ls p'' → ob_steps p (l :: ls) p''.

Definition no_planes : Planes := mkPlanes (mkOutTable [] 1) ∅ [].
