(* ===== verification/OutboxFacts.v ===== *)
(** * The outbox loses nothing, duplicates only after a failure, and empties *)

From S2P Require Import Prelude Bytes RunStore Outbox.

(** ** Rows and marks *)

(** A row without its stamp: what was enqueued. *)
Definition message (r : OutRow) : Z * string * string * string * string :=
  (ob_id r, ob_tenant r, ob_deployment r, ob_subject r, ob_payload r).

Lemma mark_row_message now id r : message (mark_row now id r) = message r.
Proof. unfold mark_row. by case_decide. Qed.

Lemma markSent_rows now ids tb :
  ob_rows (markSent now ids tb)
  = map (λ r, if decide (ob_id r ∈ ids) then mkOutRow (ob_id r) (ob_tenant r) (ob_deployment r) (ob_subject r)
                                              (ob_payload r) (Some now) else r) (ob_rows tb).
Proof.
  unfold markSent. revert tb. induction ids as [|id ids IH]; intros tb; simpl.
  - symmetry. etrans; [|apply map_id]. apply map_ext. done.
  - rewrite IH. simpl. rewrite map_map. apply map_ext. intros r. unfold mark_row.
    destruct (decide (ob_id r = id)); repeat case_decide; simpl in *; try done; set_solver.
Qed.

Lemma markSent_next now ids tb : ob_next (markSent now ids tb) = ob_next tb.
Proof. unfold markSent. revert tb. induction ids as [|id ids IH]; intros tb; simpl; [done|by rewrite IH]. Qed.

Lemma elem_of_markSent now ids tb r :
  r ∈ ob_rows (markSent now ids tb) ↔
  ∃ r0, r0 ∈ ob_rows tb ∧
    r = if decide (ob_id r0 ∈ ids) then mkOutRow (ob_id r0) (ob_tenant r0) (ob_deployment r0) (ob_subject r0)
                                          (ob_payload r0) (Some now) else r0.
Proof.
  rewrite markSent_rows, list_elem_of_In, in_map_iff.
  split; intros (r0 & H1 & H2); exists r0.
  - split; [by apply list_elem_of_In|done].
  - split; [done|by apply list_elem_of_In].
Qed.

Lemma markSent_ids now ids tb : map ob_id (ob_rows (markSent now ids tb)) = map ob_id (ob_rows tb).
Proof. rewrite markSent_rows, map_map. apply map_ext. intros r. by case_decide. Qed.

(** ** What a claim takes *)

Lemma owed_row_spec dep locked r :
  owed_row dep locked r = true ↔ ob_sent_at r = None ∧ ob_deployment r = dep ∧ ob_id r ∉ locked.
Proof. unfold owed_row. rewrite !andb_true_iff, negb_true_iff, !bool_decide_eq_true, bool_decide_eq_false. tauto. Qed.

Definition owed_rows (dep : string) (locked : list Z) (tb : OutTable) : list OutRow :=
  merge_sort id_le (filter (owed_row dep locked) (ob_rows tb)).

Lemma owed_rows_perm dep locked tb : owed_rows dep locked tb ≡ₚ filter (owed_row dep locked) (ob_rows tb).
Proof. apply merge_sort_Permutation. Qed.

Lemma elem_of_owed dep locked tb r :
  r ∈ owed_rows dep locked tb ↔ r ∈ ob_rows tb ∧ ob_sent_at r = None ∧ ob_deployment r = dep ∧ ob_id r ∉ locked.
Proof.
  rewrite owed_rows_perm, list_elem_of_filter, <-owed_row_spec. split; intros [H1 H2]; split; try done; by apply Is_true_true.
Qed.

Lemma claim_sublist dep locked tb : claim dep locked tb `sublist_of` owed_rows dep locked tb.
Proof. apply sublist_take. Qed.

Lemma elem_of_claim dep locked tb r :
  r ∈ claim dep locked tb → r ∈ ob_rows tb ∧ ob_sent_at r = None ∧ ob_deployment r = dep ∧ ob_id r ∉ locked.
Proof. intros Hr. apply elem_of_owed. eapply elem_of_sublist; [exact Hr|apply claim_sublist]. Qed.

Lemma owed_rows_NoDup dep locked tb : NoDup (map ob_id (ob_rows tb)) → NoDup (map ob_id (owed_rows dep locked tb)).
Proof.
  intros Hn. change (NoDup (ob_id <$> owed_rows dep locked tb)). rewrite owed_rows_perm.
  eapply sublist_NoDup; [exact Hn|]. apply (fmap_sublist ob_id), sublist_filter.
Qed.

Lemma claim_NoDup dep locked tb : NoDup (map ob_id (ob_rows tb)) → NoDup (map ob_id (claim dep locked tb)).
Proof.
  intros Hn. eapply sublist_NoDup; [by apply owed_rows_NoDup|]. apply (fmap_sublist ob_id), claim_sublist.
Qed.

Lemma elem_of_locked p id :
  id ∈ locked_ids p ↔ ∃ n d r, pl_drains p !! n = Some d ∧ r ∈ dr_claimed d ∧ ob_id r = id.
Proof.
  unfold locked_ids. rewrite elem_of_flat_map. split.
  - intros ([n d] & Hd & Hid). apply elem_of_map_to_list in Hd. simpl in Hid.
    apply list_elem_of_In, in_map_iff in Hid as (r & <- & Hr). apply list_elem_of_In in Hr. by exists n, d, r.
  - intros (n & d & r & Hd & Hr & <-). exists (n, d). split; [by apply elem_of_map_to_list|]. simpl.
    apply (list_elem_of_fmap_2 ob_id). done.
Qed.

(** ** The invariant of the planes *)

Record ob_inv (ls : list ob_label) (p : Planes) : Prop := mkObInv
  { oi_ids : NoDup (map ob_id (ob_rows (pl_table p)));
    oi_next : ∀ r, r ∈ ob_rows (pl_table p) → ob_id r < ob_next (pl_table p);
    (** every row was enqueued *)
    oi_rows : ∀ r, r ∈ ob_rows (pl_table p) → LEnqueue (ob_deployment r) (ob_tenant r) (ob_subject r) (ob_payload r) ∈ ls;
    (** a claimed row is in the table, unstamped, of the drain's deployment *)
    oi_claimed : ∀ n d r, pl_drains p !! n = Some d → r ∈ dr_claimed d →
      r ∈ ob_rows (pl_table p) ∧ ob_sent_at r = None ∧ ob_deployment r = dr_deployment d;
    oi_distinct : ∀ n d, pl_drains p !! n = Some d → NoDup (map ob_id (dr_claimed d));
    oi_parts : ∀ n d, pl_drains p !! n = Some d → dr_sent d ++ dr_todo d `sublist_of` dr_claimed d;
    (** no two drains hold one row *)
    oi_disjoint : ∀ n m d d' r r', pl_drains p !! n = Some d → pl_drains p !! m = Some d' →
      r ∈ dr_claimed d → r' ∈ dr_claimed d' → ob_id r = ob_id r' → n = m;
    (** what was published is on the bus, and what is on the bus is in the table *)
    oi_sent : ∀ n d r, pl_drains p !! n = Some d → r ∈ dr_sent d → (dr_deployment d, r) ∈ pl_bus p;
    oi_bus : ∀ dep r, (dep, r) ∈ pl_bus p →
      ob_deployment r = dep ∧ ∃ r', r' ∈ ob_rows (pl_table p) ∧ message r' = message r;
    oi_stamped : ∀ r, r ∈ ob_rows (pl_table p) → ob_sent_at r ≠ None →
      ∃ r', (ob_deployment r, r') ∈ pl_bus p ∧ message r' = message r }.

(** The invariant reads the labels only as what was enqueued. *)
Lemma ob_inv_more ls ls' p : (∀ l, l ∈ ls → l ∈ ls') → ob_inv ls p → ob_inv ls' p.
Proof. intros Hsub []. split; try done. intros r Hr. by apply Hsub, oi_rows0. Qed.

Lemma ob_inv_init ls : ob_inv ls no_planes.
Proof. split; simpl; try (by intros; set_solver); try (by intros * H; rewrite lookup_empty in H); constructor. Qed.

(** Replacing one drain by one over the same claim. *)
Lemma ob_inv_drain ls p n d d' taken :
  ob_inv ls p → pl_drains p !! n = Some d →
  dr_deployment d' = dr_deployment d → dr_claimed d' = dr_claimed d →
  dr_sent d' ++ dr_todo d' `sublist_of` dr_claimed d →
  (∀ r, r ∈ dr_sent d' → r ∈ dr_sent d ∨ (dr_deployment d, r) ∈ taken) →
  (∀ x, x ∈ taken → x.1 = dr_deployment d ∧ x.2 ∈ dr_claimed d) →
  ob_inv ls (with_drain p n d' taken).
Proof.
  intros [] Hd Hdep Hcl Hsub Hsent Htaken. split; simpl; try done.
  - intros m e r. rewrite lookup_insert_Some. intros [[<- <-]|[_ He]] Hr; [|by eapply oi_claimed0].
    rewrite Hdep. rewrite Hcl in Hr. by eapply oi_claimed0.
  - intros m e. rewrite lookup_insert_Some. intros [[<- <-]|[_ He]]; [rewrite Hcl|]; by eapply oi_distinct0.
  - intros m e. rewrite lookup_insert_Some. intros [[<- <-]|[_ He]]; [by rewrite Hcl|by eapply oi_parts0].
  - intros m k e e' r r' He He' Hr Hr' Hid.
    assert (Hm : ∃ e0, pl_drains p !! m = Some e0 ∧ dr_claimed e0 = dr_claimed e).
    { apply lookup_insert_Some in He as [[<- <-]|[_ He]]; by eexists. }
    assert (Hk : ∃ e0, pl_drains p !! k = Some e0 ∧ dr_claimed e0 = dr_claimed e').
    { apply lookup_insert_Some in He' as [[<- <-]|[_ He']]; by eexists. }
    destruct Hm as (e0 & Hm & Hce). destruct Hk as (e0' & Hk & Hce'). rewrite <-Hce in Hr. rewrite <-Hce' in Hr'.
    by eapply oi_disjoint0.
  - intros m e r. rewrite lookup_insert_Some, elem_of_app. intros [[<- <-]|[_ He]] Hr; [|by left; eapply oi_sent0].
    rewrite Hdep. destruct (Hsent _ Hr) as [Hr'|Ht]; [left; by eapply oi_sent0|by right].
  - intros dep r. rewrite elem_of_app. intros [Hb|Ht]; [by apply oi_bus0|].
    destruct (Htaken _ Ht) as [Hdp Hc]. simpl in Hdp, Hc. subst dep. destruct (oi_claimed0 _ _ _ Hd Hc) as (Hin & _ & Hrd). simpl in *. split; [done|by exists r].
  - intros r Hr Hs. destruct (oi_stamped0 r Hr Hs) as (r' & Hb & Hm). exists r'. rewrite elem_of_app. by split; [left|].
Qed.

Lemma same_id_same_row tb r r' :
  NoDup (map ob_id (ob_rows tb)) → r ∈ ob_rows tb → r' ∈ ob_rows tb → ob_id r = ob_id r' → r = r'.
Proof.
  intros Hn Hr Hr' Hid. apply list_elem_of_lookup in Hr as [i Hi]. apply list_elem_of_lookup in Hr' as [j Hj].
  assert (i = j) as ->; [|by rewrite Hi in Hj; injection Hj].
  apply (NoDup_lookup _ _ _ (ob_id r) Hn); change (map ob_id) with (fmap (M:=list) ob_id); rewrite list_lookup_fmap.
  - by rewrite Hi.
  - rewrite Hj. simpl. by rewrite Hid.
Qed.

Lemma ob_inv_enqueue ls p dep tenant subject payload tb :
  ob_inv ls p → LEnqueue dep tenant subject payload ∈ ls →
  Enqueue dep tenant subject (Some payload) (pl_table p) = (tb, Ok tt) → ob_inv ls (mkPlanes tb (pl_drains p) (pl_bus p)).
Proof.
  intros [] Hl. unfold Enqueue. repeat (case_decide; [done|]). intros [= <-]. split; simpl; try done.
  - rewrite map_app. apply NoDup_app. split; [done|]. split; [|apply NoDup_singleton].
    intros id Hid Hn. apply list_elem_of_singleton in Hn as ->. apply list_elem_of_In, in_map_iff in Hid as (r & Hr & Hin).
    apply list_elem_of_In, oi_next0 in Hin. simpl in Hr. lia.
  - intros r. rewrite elem_of_app, list_elem_of_singleton. intros [Hr| ->]; [apply oi_next0 in Hr; lia|simpl; lia].
  - intros r. rewrite elem_of_app, list_elem_of_singleton. intros [Hr| ->]; [by apply oi_rows0|done].
  - intros n d r Hd Hr. rewrite elem_of_app. destruct (oi_claimed0 _ _ _ Hd Hr) as (? & ? & ?). split; [by left|done].
  - intros dep' r Hb. destruct (oi_bus0 _ _ Hb) as (? & r' & ? & ?). split; [done|]. exists r'. rewrite elem_of_app. by split; [left|].
  - intros r. rewrite elem_of_app, list_elem_of_singleton. intros [Hr| ->]; [by apply oi_stamped0|done].
Qed.

Lemma ob_inv_claim ls p n dep :
  ob_inv ls p → pl_drains p !! n = None →
  ob_inv ls (with_drain p n (mkDraining dep (claim dep (locked_ids p) (pl_table p))
                              (claim dep (locked_ids p) (pl_table p)) []) []).
Proof.
  intros [] Hn. set (rows := claim dep (locked_ids p) (pl_table p)). split; simpl; try done.
  - intros m e r. rewrite lookup_insert_Some. intros [[<- <-]|[_ He]] Hr; [|by eapply oi_claimed0].
    by destruct (elem_of_claim _ _ _ _ Hr) as (? & ? & ? & _).
  - intros m e. rewrite lookup_insert_Some. intros [[<- <-]|[_ He]]; [by apply claim_NoDup|by eapply oi_distinct0].
  - intros m e. rewrite lookup_insert_Some. intros [[<- <-]|[_ He]]; [done|by eapply oi_parts0].
  - assert (Hnew : ∀ m e r r', pl_drains p !! m = Some e → r ∈ rows → r' ∈ dr_claimed e → ob_id r = ob_id r' → False).
    { intros m e r r' He Hr Hr' Hid. destruct (elem_of_claim _ _ _ _ Hr) as (_ & _ & _ & Hl). apply Hl.
      apply elem_of_locked. by exists m, e, r'. }
    intros m k e e' r r' He He' Hr Hr' Hid.
    apply lookup_insert_Some in He as [[<- <-]|[Hm He]]; apply lookup_insert_Some in He' as [[<- <-]|[Hk He']]; [done|..].
    + destruct (Hnew _ _ _ _ He' Hr Hr' Hid).
    + destruct (Hnew _ _ _ _ He Hr' Hr); done.
    + by eapply oi_disjoint0.
  - intros m e r. rewrite lookup_insert_Some, app_nil_r. intros [[<- <-]|[_ He]] Hr; [by apply not_elem_of_nil in Hr|by eapply oi_sent0].
  - intros dep' r. rewrite app_nil_r. apply oi_bus0.
  - setoid_rewrite app_nil_r. done.
Qed.

Lemma ob_inv_commit ls p n now dep claimed sent :
  ob_inv ls p → pl_drains p !! n = Some (mkDraining dep claimed [] sent) →
  ob_inv ls (mkPlanes (markSent now (map ob_id sent) (pl_table p)) (delete n (pl_drains p)) (pl_bus p)).
Proof.
  intros [] Hd. pose proof (oi_parts0 _ _ Hd) as Hp. simpl in Hp. rewrite app_nil_r in Hp. split; simpl; try done.
  - by rewrite markSent_ids.
  - intros r (r0 & Hr0 & ->)%elem_of_markSent. rewrite markSent_next. specialize (oi_next0 _ Hr0). by case_decide.
  - intros r (r0 & Hr0 & ->)%elem_of_markSent. specialize (oi_rows0 _ Hr0). by case_decide.
  - intros m e r. rewrite lookup_delete_Some. intros [Hm He] Hr. destruct (oi_claimed0 _ _ _ He Hr) as (Hin & ? & ?).
    split; [|done]. apply elem_of_markSent. exists r. split; [done|]. rewrite decide_False; [done|].
    intros Hid. apply list_elem_of_In, in_map_iff in Hid as (r' & Hid & Hr'). apply list_elem_of_In in Hr'. apply Hm.
    apply (oi_disjoint0 _ _ _ _ r' r Hd He); [|done|done]. by eapply elem_of_sublist.
  - intros m e. rewrite lookup_delete_Some. intros [_ He]. by eapply oi_distinct0.
  - intros m e. rewrite lookup_delete_Some. intros [_ He]. by eapply oi_parts0.
  - intros m k e e' r r'. rewrite !lookup_delete_Some. intros [_ He] [_ He']. by eapply oi_disjoint0.
  - intros m e r. rewrite lookup_delete_Some. intros [_ He]. by eapply oi_sent0.
  - intros dep' r Hb. destruct (oi_bus0 _ _ Hb) as (? & r' & Hr' & Hm). split; [done|].
    eexists. split; [apply elem_of_markSent; by exists r'|]. rewrite <-Hm. unfold message. by case_decide.
  - intros r (r0 & Hr0 & ->)%elem_of_markSent Hs. case_decide as Hid.
    + apply list_elem_of_In, in_map_iff in Hid as (r' & Hid & Hr'). apply list_elem_of_In in Hr'.
      assert (Hc : r' ∈ claimed) by (by eapply elem_of_sublist).
      destruct (oi_claimed0 _ _ _ Hd Hc) as (Hin & _ & Hdep). simpl in Hdep.
      assert (r' = r0) as -> by (by eapply same_id_same_row). exists r0. simpl. split; [|done].
      rewrite Hdep. by apply (oi_sent0 _ _ _ Hd).
    + by apply oi_stamped0.
Qed.

Lemma ob_inv_drop ls p n d :
  ob_inv ls p → pl_drains p !! n = Some d → ob_inv ls (mkPlanes (pl_table p) (delete n (pl_drains p)) (pl_bus p)).
Proof.
  intros [] Hd. split; simpl; try done.
  - intros m e r. rewrite lookup_delete_Some. intros [_ He]. by eapply oi_claimed0.
  - intros m e. rewrite lookup_delete_Some. intros [_ He]. by eapply oi_distinct0.
  - intros m e. rewrite lookup_delete_Some. intros [_ He]. by eapply oi_parts0.
  - intros m k e e' r r'. rewrite !lookup_delete_Some. intros [_ He] [_ He']. by eapply oi_disjoint0.
  - intros m e r. rewrite lookup_delete_Some. intros [_ He]. by eapply oi_sent0.
Qed.

Lemma ob_inv_step ls p l p' : ob_inv ls p → ob_step p l p' → ob_inv (ls ++ [l]) p'.
Proof.
  intros Hinv Hstep. apply (ob_inv_more _ (ls ++ [l])) in Hinv; [|intros x Hx; apply elem_of_app; by left].
  destruct Hstep as [p dep tenant subject payload tb HE|p n dep rows Hn Hdep ->|p n dep claimed row todo sent Hd
    |p n dep claimed row todo sent Hd|p n dep claimed todo sent Hd|p n now dep claimed sent Hd|p n d Hd].
  - eapply ob_inv_enqueue; [done| |done]. apply elem_of_app. right. by apply list_elem_of_singleton.
  - by apply ob_inv_claim.
  - eapply ob_inv_drain; [done..|simpl| |].
    + rewrite <-app_assoc. by apply (oi_parts _ _ Hinv _ _ Hd).
    + intros r. simpl. rewrite elem_of_app, !list_elem_of_singleton. intros [Hr| ->]; [by left|by right].
    + intros x ->%list_elem_of_singleton. split; [done|].
      eapply elem_of_sublist; [|apply (oi_parts _ _ Hinv _ _ Hd)]. simpl. set_solver.
  - eapply ob_inv_drain; [done..|simpl| |].
    + rewrite app_nil_r. etrans; [|apply (oi_parts _ _ Hinv _ _ Hd)]. by apply sublist_inserts_r.
    + intros r Hr. by left.
    + intros x ->%list_elem_of_singleton. split; [done|].
      eapply elem_of_sublist; [|apply (oi_parts _ _ Hinv _ _ Hd)]. simpl. set_solver.
  - eapply ob_inv_drain; [done..|simpl| |].
    + rewrite app_nil_r. etrans; [|apply (oi_parts _ _ Hinv _ _ Hd)]. by apply sublist_inserts_r.
    + intros r Hr. by left.
    + intros x Hx. by apply not_elem_of_nil in Hx.
  - by eapply ob_inv_commit.
  - by eapply ob_inv_drop.
Qed.

Lemma ob_inv_steps ls0 ls p p' : ob_inv ls0 p → ob_steps p ls p' → ob_inv (ls0 ++ ls) p'.
Proof.
  intros Hinv Hs. revert ls0 Hinv. induction Hs as [p|p l p' ls p'' Hl Hs IH]; intros ls0 Hinv.
  - by rewrite app_nil_r.
  - rewrite (cons_middle l), app_assoc. by apply IH, ob_inv_step with p.
Qed.

(** An enqueued row never leaves the table. *)
Lemma row_stays p l p' r : ob_step p l p' → r ∈ ob_rows (pl_table p) →
  ∃ r', r' ∈ ob_rows (pl_table p') ∧ message r' = message r.
Proof.
  intros Hs Hr. destruct Hs as [p dep tenant subject payload tb HE| | | | |p n now dep claimed sent Hd|];
    try (by exists r).
  - revert HE. unfold Enqueue. repeat (case_decide; [done|]). intros [= <-]. exists r. simpl. rewrite elem_of_app. by split; [left|].
  - simpl. eexists. split; [apply elem_of_markSent; by exists r|]. unfold message. by case_decide.
Qed.

Lemma row_stays_steps p ls p' r : ob_steps p ls p' → r ∈ ob_rows (pl_table p) →
  ∃ r', r' ∈ ob_rows (pl_table p') ∧ message r' = message r.
Proof.
  intros Hs. revert r. induction Hs as [p|p l p' ls p'' Hl Hs IH]; intros r Hr; [by exists r|].
  destruct (row_stays _ _ _ _ Hl Hr) as (r1 & Hr1 & Hm1). destruct (IH _ Hr1) as (r2 & Hr2 & Hm2).
  exists r2. split; [done|congruence].
Qed.

Lemma enqueued_row p ls p' dep tenant subject payload :
  ob_steps p ls p' → LEnqueue dep tenant subject payload ∈ ls →
  ∃ r, r ∈ ob_rows (pl_table p') ∧ ob_deployment r = dep ∧ ob_tenant r = tenant ∧ ob_subject r = subject ∧ ob_payload r = payload.
Proof.
  intros Hs Hl. induction Hs as [p|p l p' ls p'' Hstep Hs IH]; [by apply not_elem_of_nil in Hl|].
  apply elem_of_cons in Hl as [<-|Hl]; [|by apply IH]. inversion Hstep as [? ? ? ? ? tb HE| | | | | |]; subst.
  revert HE. unfold Enqueue. repeat (case_decide; [done|]). intros [= <-].
  destruct (row_stays_steps _ _ _ (mkOutRow (ob_next (pl_table p)) tenant dep subject payload None) Hs) as (r & Hr & Hm).
  { simpl. apply elem_of_app. right. by apply list_elem_of_singleton. }
  exists r. split; [done|]. by injection Hm as ? ? ? ? ?.
Qed.

(** C27: However many control planes drain one database, and wherever they stop,
    a message that was committed is still owed or is on the bus of the
    deployment that enqueued it, with the subject and payload it was enqueued
    with; and nothing is on a deployment's bus that was not enqueued for that
    deployment. *)
Theorem outbox_loses_nothing (ls : list ob_label) (p : Planes) :
  ob_steps no_planes ls p →
  (∀ dep tenant subject payload, LEnqueue dep tenant subject payload ∈ ls →
     ∃ r, ob_deployment r = dep ∧ ob_tenant r = tenant ∧ ob_subject r = subject ∧ ob_payload r = payload ∧
       (r ∈ ob_rows (pl_table p) ∧ ob_sent_at r = None ∨ (dep, r) ∈ pl_bus p))
  ∧ (∀ dep r, (dep, r) ∈ pl_bus p → LEnqueue dep (ob_tenant r) (ob_subject r) (ob_payload r) ∈ ls).
Proof.
  intros Hs. pose proof (ob_inv_steps [] ls _ _ (ob_inv_init []) Hs) as Hinv. split.
  - intros dep tenant subject payload Hl. destruct (enqueued_row _ _ _ _ _ _ _ Hs Hl) as (r & Hr & <- & <- & <- & <-).
    destruct (decide (ob_sent_at r = None)) as [He|He]; [by exists r; auto 8|].
    destruct (oi_stamped _ _ Hinv r Hr He) as (r' & Hb & Hm). exists r'. injection Hm as ? ? ? ? ?. auto 8.
  - intros dep r Hb. destruct (oi_bus _ _ Hinv _ _ Hb) as (<- & r' & Hr' & Hm).
    injection Hm as ? <- <- <- <-. by apply (oi_rows _ _ Hinv).
Qed.

(** ** How often a message is published *)

Definition publications (id : Z) (bus : list (string * OutRow)) : nat :=
  length (filter (λ x, ob_id x.2 = id) bus).

(** The publications that went unrecorded: the answer was lost, or the drain's
    transaction did not commit. *)
Definition unrecorded (id : Z) (l : ob_label) : bool :=
  match l with
  | LUncertain _ r => bool_decide (ob_id r = id)
  | LRollback _ rows => bool_decide (id ∈ map ob_id rows)
  | _ => false
  end.
Definition faults (id : Z) (ls : list ob_label) : nat := length (filter (unrecorded id) ls).

(** Stamped, or published by a drain still in progress. *)
Definition settled (id : Z) (p : Planes) : Prop :=
  (∃ r, r ∈ ob_rows (pl_table p) ∧ ob_id r = id ∧ ob_sent_at r ≠ None)
  ∨ (∃ n d r, pl_drains p !! n = Some d ∧ r ∈ dr_sent d ∧ ob_id r = id).

Definition counted (id : Z) (ls : list ob_label) (p : Planes) : Prop :=
  (publications id (pl_bus p) ≤ S (faults id ls))%nat
  ∧ (¬ settled id p → (publications id (pl_bus p) ≤ faults id ls)%nat).

Lemma faults_snoc id ls l : faults id (ls ++ [l]) = (faults id ls + if unrecorded id l then 1 else 0)%nat.
Proof. unfold faults. rewrite filter_app, length_app. destruct (unrecorded id l) eqn:E; by rewrite filter_cons, E. Qed.

Lemma publications_snoc id bus x :
  publications id (bus ++ [x]) = (publications id bus + if decide (ob_id x.2 = id) then 1 else 0)%nat.
Proof. unfold publications. rewrite filter_app, length_app, filter_cons, filter_nil. by case_decide. Qed.

(** A row still to publish is not settled. *)
Lemma todo_unsettled ls p n d row todo :
  ob_inv ls p → pl_drains p !! n = Some d → dr_todo d = row :: todo → ¬ settled (ob_id row) p.
Proof.
  intros Hinv Hd Htodo. pose proof (oi_parts _ _ Hinv _ _ Hd) as Hp. rewrite Htodo in Hp.
  assert (Hrow : row ∈ dr_claimed d) by (eapply elem_of_sublist; [|exact Hp]; set_solver).
  destruct (oi_claimed _ _ Hinv _ _ _ Hd Hrow) as (Hin & Hnone & _).
  intros [(r & Hr & Hid & Hs)|(m & e & r & He & Hr & Hid)].
  - by rewrite (same_id_same_row _ _ _ (oi_ids _ _ Hinv) Hr Hin Hid) in Hs.
  - assert (Hr' : r ∈ dr_claimed e).
    { eapply elem_of_sublist; [|apply (oi_parts _ _ Hinv _ _ He)]. set_solver. }
    assert (m = n) as -> by (by eapply (oi_disjoint _ _ Hinv)). rewrite Hd in He. injection He as <-.
    pose proof (sublist_NoDup _ _ (oi_distinct _ _ Hinv _ _ Hd) (fmap_sublist ob_id _ _ Hp)) as Hn.
    rewrite fmap_app in Hn. apply NoDup_app in Hn as (_ & Hn & _).
    apply (Hn (ob_id r)); [by apply list_elem_of_fmap_2|]. rewrite Hid. simpl. by left.
Qed.

Lemma counted_same id ls p l p' :
  counted id ls p → unrecorded id l = false → pl_bus p' = pl_bus p → (settled id p → settled id p') →
  counted id (ls ++ [l]) p'.
Proof.
  intros [H1 H2] Hl Hb Hs. unfold counted. rewrite faults_snoc, Hl, Hb, Nat.add_0_r. split; [done|].
  intros Hn. apply H2. tauto.
Qed.

Lemma counted_fault id ls p l p' :
  counted id ls p → unrecorded id l = true → (publications id (pl_bus p') ≤ S (faults id ls))%nat →
  counted id (ls ++ [l]) p'.
Proof. intros [H1 H2] Hl Hb. unfold counted. rewrite faults_snoc, Hl. lia. Qed.

Lemma settled_frame id p tb drains bus :
  settled id p →
  (∀ r, r ∈ ob_rows (pl_table p) → ob_sent_at r ≠ None → ∃ r', r' ∈ ob_rows tb ∧ ob_id r' = ob_id r ∧ ob_sent_at r' ≠ None) →
  (∀ n d r, pl_drains p !! n = Some d → r ∈ dr_sent d → ob_id r = id →
     (∃ d', drains !! n = Some d' ∧ r ∈ dr_sent d') ∨ ∃ r', r' ∈ ob_rows tb ∧ ob_id r' = id ∧ ob_sent_at r' ≠ None) →
  settled id (mkPlanes tb drains bus).
Proof.
  intros [(r & Hr & <- & Hs)|(n & d & r & Hd & Hr & Hid)] Ht Hdr.
  - left. destruct (Ht r Hr Hs) as (r' & ? & ? & ?). by exists r'.
  - destruct (Hdr _ _ _ Hd Hr Hid) as [(d' & Hd' & Hr')|(r' & Hr' & Hid' & Hs)]; [right; by exists n, d', r|left; by exists r'].
Qed.

(** The drain at [n] replaced by one that has published no less. *)
Lemma settled_drain id p n d d' taken :
  pl_drains p !! n = Some d → dr_sent d ⊆ dr_sent d' → settled id p → settled id (with_drain p n d' taken).
Proof.
  intros Hd Hsub Hs. eapply settled_frame; [exact Hs|intros r Hr Hn; by exists r|].
  intros m e r He Hr _. left. destruct (decide (n = m)) as [<-|Hm].
  - rewrite Hd in He. injection He as <-. exists d'. rewrite lookup_insert. split; [by rewrite decide_True|by apply Hsub].
  - exists e. rewrite lookup_insert_ne by done. done.
Qed.

Lemma counted_step id ls p l p' : ob_inv ls p → counted id ls p → ob_step p l p' → counted id (ls ++ [l]) p'.
Proof.
  intros Hinv Hc Hstep. destruct Hstep as [p dep tenant subject payload tb HE|p n dep rows Hn Hdep ->|p n dep claimed row todo sent Hd
    |p n dep claimed row todo sent Hd|p n dep claimed todo sent Hd|p n now dep claimed sent Hd|p n d Hd].
  - eapply counted_same; [done..|]. intros Hs. eapply settled_frame; [exact Hs| |intros; left; by eexists].
    revert HE. unfold Enqueue. repeat (case_decide; [done|]). intros [= <-] r Hr Hn. exists r. simpl. rewrite elem_of_app. auto.
  - eapply counted_same; [done|done|simpl; by rewrite app_nil_r|]. intros Hs.
    eapply settled_frame; [exact Hs|intros r Hr Hs'; by exists r|]. intros m e r He Hr _. left. exists e.
    rewrite lookup_insert_ne; [done|congruence].
  - destruct Hc as [H1 H2]. unfold counted. rewrite faults_snoc. simpl. rewrite publications_snoc. simpl.
    case_decide as Hid.
    + assert (Hu : ¬ settled id p) by (rewrite <-Hid; by eapply (todo_unsettled ls p n _ row todo)).
      specialize (H2 Hu). split; [lia|]. intros []. right. exists n. eexists _, row.
      split; [apply lookup_insert_eq|]. split; [simpl; set_solver|done].
    + split; [lia|]. intros Hn. rewrite !Nat.add_0_r. apply H2. intros Hs. apply Hn.
      eapply settled_drain; [exact Hd|set_solver|done].
  - destruct (decide (ob_id row = id)) as [Hid|Hid].
    + eapply counted_fault; [done|by apply bool_decide_eq_true|]. simpl. rewrite publications_snoc. simpl.
      rewrite decide_True by done. destruct Hc as [_ H2].
      assert (Hu : ¬ settled id p) by (rewrite <-Hid; by eapply (todo_unsettled ls p n _ row todo)).
      specialize (H2 Hu). lia.
    + destruct Hc as [H1 H2]. unfold counted. rewrite faults_snoc. simpl. rewrite bool_decide_eq_false_2 by done.
      rewrite publications_snoc. simpl. rewrite decide_False by done. rewrite !Nat.add_0_r. split; [done|].
      intros Hn. apply H2. intros Hs. apply Hn. by eapply settled_drain.
  - eapply counted_same; [done|done|simpl; by rewrite app_nil_r|]. by eapply settled_drain.
  - eapply counted_same; [done..|]. intros Hs. eapply settled_frame; [exact Hs| |].
    + intros r Hr Hn. eexists. split; [apply elem_of_markSent; by exists r|]. by case_decide.
    + intros m e r He Hr Hid. destruct (decide (n = m)) as [<-|Hm]; [|left; exists e; by rewrite lookup_delete_ne].
      right. rewrite Hd in He. injection He as <-. simpl in Hr.
      assert (Hcl : r ∈ claimed).
      { eapply elem_of_sublist; [|apply (oi_parts _ _ Hinv _ _ Hd)]. set_solver. }
      destruct (oi_claimed _ _ Hinv _ _ _ Hd Hcl) as (Hin & _ & _).
      eexists. split; [apply elem_of_markSent; by exists r|]. rewrite decide_True; [done|]. by apply (list_elem_of_fmap_2 ob_id).
  - destruct (decide (id ∈ map ob_id (dr_sent d))) as [Hid|Hid].
    + destruct Hc as [H1 H2]. eapply counted_fault; [by split|by apply bool_decide_eq_true|done].
    + eapply counted_same; [done|by apply bool_decide_eq_false|done|]. intros Hs.
      eapply settled_frame; [exact Hs|intros r Hr Hn; by exists r|]. intros m e r He Hr Hid'. left. exists e.
      split; [|done]. rewrite lookup_delete_ne; [done|]. intros <-. rewrite Hd in He. injection He as <-. apply Hid.
      rewrite <-Hid'. by apply (list_elem_of_fmap_2 ob_id).
Qed.

(** A message reaches the bus once, and once more only for each time a
    publication of it went unrecorded: an answer that was lost, or a drain
    whose transaction did not commit. Planes that drain at the same time do
    not duplicate one another's messages. *)
Theorem published_again_only_after_a_failure (ls : list ob_label) (p : Planes) (id : Z) :
  ob_steps no_planes ls p → (publications id (pl_bus p) ≤ 1 + faults id ls)%nat.
Proof.
  intros Hs. cut (counted id ls p); [by intros [H _]|].
  assert (Hgen : ∀ ls0 p0 ls p, ob_steps p0 ls p → ob_inv ls0 p0 → counted id ls0 p0 → counted id (ls0 ++ ls) p).
  { clear. intros ls0 p0 ls p Hs. revert ls0. induction Hs as [p|p l p' ls p'' Hl Hs IH]; intros ls0 Hinv Hc; [by rewrite app_nil_r|].
    rewrite (cons_middle l), app_assoc. apply IH; [by eapply ob_inv_step|by eapply counted_step]. }
  apply (Hgen [] _ _ _ Hs); [apply ob_inv_init|]. split; simpl; [unfold publications; simpl; lia|done].
Qed.

(** ** Draining a backlog *)

#[export] Instance id_le_trans : Transitive id_le.
Proof. intros a b c. unfold id_le. lia. Qed.
#[export] Instance id_le_total : Total id_le.
Proof. intros a b. unfold id_le. lia. Qed.

Lemma filter_drop_ids (l : list OutRow) n :
  NoDup (map ob_id l) → filter (λ r, ob_id r ∉ map ob_id (take n l)) l = drop n l.
Proof.
  intros Hn. rewrite <-(take_drop n l) in Hn. rewrite map_app in Hn. apply NoDup_app in Hn as (_ & Hn & _).
  set (P := λ r, ob_id r ∉ map ob_id (take n l)). rewrite <-(take_drop n l), filter_app at 1.
  rewrite (filter_none_in P), (filter_all_in P); [done|..].
  - intros r Hr Hid. by apply (Hn _ Hid), (list_elem_of_fmap_2 ob_id).
  - intros r Hr Hno. by apply Hno, (list_elem_of_fmap_2 ob_id).
Qed.

(** What is owed after a batch is what the batch left. *)
Lemma owed_after_batch dep locked now n tb :
  NoDup (map ob_id (ob_rows tb)) →
  owed_rows dep locked (markSent now (map ob_id (take n (owed_rows dep locked tb))) tb) = drop n (owed_rows dep locked tb).
Proof.
  intros Hn. set (ids := map ob_id (take n (owed_rows dep locked tb))).
  assert (Hf : filter (owed_row dep locked) (ob_rows (markSent now ids tb))
               = filter (λ r, ob_id r ∉ ids) (filter (owed_row dep locked) (ob_rows tb))).
  { rewrite markSent_rows. clear Hn. generalize ids. clear ids. intros ids. generalize (ob_rows tb).
    intros l. induction l as [|r l IH]; [done|]. cbn [map]. rewrite !filter_cons, IH.
    destruct (decide (ob_id r ∈ ids)) as [Hid|Hid].
    - rewrite decide_False by (intros Ht; apply Is_true_true, owed_row_spec in Ht as [? _]; done).
      destruct (decide (owed_row dep locked r)); [|done]. by rewrite filter_cons, decide_False by tauto.
    - destruct (decide (owed_row dep locked r)); [|done]. by rewrite filter_cons, decide_True. }
  assert (Hsub : ∀ r, r ∈ owed_rows dep locked tb → r ∈ ob_rows tb) by (intros r Hr; by apply elem_of_owed in Hr as [? _]).
  assert (Hperm : owed_rows dep locked (markSent now ids tb) ≡ₚ drop n (owed_rows dep locked tb)).
  { rewrite owed_rows_perm, Hf. rewrite <-(filter_drop_ids (owed_rows dep locked tb) n) by by apply owed_rows_NoDup.
    by rewrite owed_rows_perm. }
  apply (Sorted_unique_strong id_le).
  - intros r1 r2 H1 H2 Ha Hb. rewrite Hperm in H1. apply (same_id_same_row _ _ _ Hn); [..|unfold id_le in *; lia];
      by eapply Hsub, elem_of_sublist, sublist_drop.
  - apply Sorted_merge_sort, _.
  - rewrite <-(filter_drop_ids (owed_rows dep locked tb) n) by by apply owed_rows_NoDup.
    apply StronglySorted_Sorted, StronglySorted_filter, Sorted_StronglySorted; [apply _|apply Sorted_merge_sort, _].
  - exact Hperm.
Qed.

(** A bus that takes everything, in the order it takes it. *)
Definition bus_up (r : OutRow) (bus : list OutRow) : list OutRow * bool := (bus ++ [r], true).
Definition commits (bus : list OutRow) : list OutRow * bool := (bus, true).
Definition not_done (bus : list OutRow) : bool := false.

Lemma publish_rows_up rows sent bus :
  publish_rows bus_up rows sent bus = (bus ++ rows, sent ++ map ob_id rows, None).
Proof.
  revert sent bus. induction rows as [|r rows IH]; intros sent bus; simpl; [by rewrite !app_nil_r|].
  by rewrite IH, <-!app_assoc.
Qed.

Lemma markSent_app now ids ids' tb : markSent now (ids ++ ids') tb = markSent now ids' (markSent now ids tb).
Proof. apply foldl_app. Qed.

Lemma backlog_drained dep locked now fuel : dep ≠ "" → ∀ tb bus,
  NoDup (map ob_id (ob_rows tb)) → (length (owed_rows dep locked tb) < drainBatch * fuel)%nat →
  drainBacklog bus_up commits not_done fuel dep locked now tb bus
  = Some (bus ++ owed_rows dep locked tb, markSent now (map ob_id (owed_rows dep locked tb)) tb).
Proof.
  intros Hdep. induction fuel as [|fuel IH]; intros tb bus Hn Hlt; [lia|]. cbn [drainBacklog].
  unfold Drain. rewrite decide_False by done. rewrite publish_rows_up. unfold commits at 1. cbv beta iota.
  change (claim dep locked tb) with (take drainBatch (owed_rows dep locked tb)).
  cbn [app]. change (map ob_id) with (fmap (M:=list) ob_id). rewrite length_fmap, length_take. case_decide as Hshort.
  - rewrite take_ge; [done|]. unfold drainBatch in *. lia.
  - unfold not_done at 1. rewrite IH.
    + rewrite owed_after_batch by done. by rewrite <-app_assoc, take_drop, <-markSent_app, <-map_app, take_drop.
    + by rewrite markSent_ids.
    + rewrite owed_after_batch, length_drop by done. unfold drainBatch in *. lia.
Qed.

(** C36: While the bus is up the outbox empties: a pass over the backlog publishes
    every message owed by the deployment and not held by another plane, oldest
    first, stamps exactly those, and ends, for any number of batches: one more
    drain than there are full ones. *)
Theorem backlog_is_emptied dep locked now (fuel : nat) (tb : OutTable) (bus : list OutRow) :
  dep ≠ "" → NoDup (map ob_id (ob_rows tb)) → (length (owed_rows dep locked tb) < drainBatch * fuel)%nat →
  ∃ tb', drainBacklog bus_up commits not_done fuel dep locked now tb bus = Some (bus ++ owed_rows dep locked tb, tb')
    ∧ owed_rows dep locked tb' = []
    ∧ Sorted id_le (owed_rows dep locked tb)
    ∧ ∀ r, r ∈ ob_rows tb → r ∉ owed_rows dep locked tb → r ∈ ob_rows tb'.
Proof.
  intros Hdep Hn Hlt. eexists. split; [by apply backlog_drained|]. split; [|split; [apply Sorted_merge_sort, _|]].
  - pose proof (owed_after_batch dep locked now (length (owed_rows dep locked tb)) tb Hn) as Ho.
    by rewrite firstn_all, drop_all in Ho.
  - intros r Hr Hno. apply elem_of_markSent. exists r. split; [done|]. rewrite decide_False; [done|]. intros Hid.
    apply list_elem_of_In, in_map_iff in Hid as (r' & Hid & Hr'). apply list_elem_of_In in Hr'. apply Hno.
    assert (r' = r) as <-; [|done]. apply (same_id_same_row _ _ _ Hn); [|done|done]. by apply elem_of_owed in Hr' as [? _].
Qed.

(** ** [Drain] as steps of the planes *)

Lemma publish_steps {W} (publish : OutRow → W → W * bool) p n dep claimed todo sent w w' ids err :
  pl_drains p !! n = Some (mkDraining dep claimed todo sent) →
  publish_rows publish todo (map ob_id sent) w = (w', ids, err) →
  ∃ ls p' sent', ob_steps p ls p' ∧ pl_drains p' = <[n := mkDraining dep claimed [] sent']> (pl_drains p)
    ∧ ids = map ob_id sent' ∧ pl_table p' = pl_table p.
Proof.
  revert p sent w. induction todo as [|r todo IH]; intros p sent w Hd; simpl.
  - intros [= <- <- <-]. exists [], p, sent. split; [constructor|]. by rewrite insert_id.
  - destruct (publish r w) as [w1 [|]]; [|intros [= <- <- <-]].
    + intros Hp. destruct (IH (with_drain p n (mkDraining dep claimed todo (sent ++ [r])) [(dep, r)]) (sent ++ [r]) w1)
        as (ls & p' & sent' & Hs & Hds & Hids & Ht).
      { apply lookup_insert_eq. }
      { by rewrite map_app. }
      exists (LPublish n r :: ls), p', sent'. split; [econstructor; [by econstructor|done]|].
      simpl in Hds. by rewrite insert_insert_eq in Hds.
    + exists [LRefused n], (with_drain p n (mkDraining dep claimed [] sent) []), sent.
      split; [econstructor; [by econstructor|constructor]|done].
Qed.

(** A drain is steps of the planes: whatever the bus and the database answer,
    [Drain] over the rows no other plane holds leaves the table some sequence
    of claim, publish, refuse, commit and roll back leaves it, with every other
    plane's drain untouched, and it reports what it stamped. *)
Theorem drain_is_steps {W} (publish : OutRow → W → W * bool) (commit : W → W * bool) p n dep now w w' tb' k err :
  pl_drains p !! n = None →
  Drain publish commit dep (locked_ids p) now (pl_table p) w = (w', tb', (k, err)) →
  ∃ ls p', ob_steps p ls p' ∧ pl_table p' = tb' ∧ pl_drains p' = pl_drains p
    ∧ (tb' = pl_table p ∧ k = 0 ∨ ∃ ids, tb' = markSent now ids (pl_table p) ∧ k = Z.of_nat (length ids)).
Proof.
  intros Hn. unfold Drain. case_decide as Hdep.
  { intros [= <- <- <- <-]. exists [], p. split; [constructor|auto]. }
  set (rows := claim dep (locked_ids p) (pl_table p)).
  set (p1 := with_drain p n (mkDraining dep rows rows []) []).
  destruct (publish_rows publish rows [] w) as [[w1 ids] perr] eqn:Ep.
  destruct (publish_steps publish p1 n dep rows rows [] w w1 ids perr) as (ls & p2 & sent & Hs & Hds & -> & Ht);
    [apply lookup_insert_eq|done|].
  assert (Hc : ob_step p (LClaim n dep) p1) by (by constructor).
  assert (Hd2 : pl_drains p2 !! n = Some (mkDraining dep rows [] sent)) by (rewrite Hds; apply lookup_insert_eq).
  assert (Hdel : delete n (pl_drains p2) = pl_drains p).
  { rewrite Hds, delete_insert_eq. simpl. by rewrite delete_insert_id. }
  assert (Hend : ∀ l p3, ob_step p2 l p3 → ob_steps p (LClaim n dep :: ls ++ [l]) p3).
  { intros l p3 Hl. econstructor; [exact Hc|]. clear -Hs Hl. induction Hs; [by econstructor; [|constructor]|].
    simpl. econstructor; [done|by apply IHHs]. }
  destruct (commit w1) as [w2 [|]]; intros [= <- <- <- <-].
  - eexists _, _. split; [apply Hend, (st_commit p2 n now dep rows sent Hd2)|]. simpl. rewrite Hdel, Ht.
    split; [done|]. split; [done|]. right. by exists (map ob_id sent).
  - eexists _, _. split; [apply Hend, (st_rollback p2 n _ Hd2)|]. simpl. rewrite Hdel, Ht. auto.
Qed.

(** ** The theorems at a run *)

Definition ex_row1 : OutRow := mkOutRow 1 "t" "d1" "jobs" "payload" None.
Definition ex_table : OutTable := mkOutTable [ex_row1; mkOutRow 2 "t" "d2" "jobs" "other" None] 3.
Definition ex_labels : list ob_label :=
  [LEnqueue "d1" "t" "jobs" "payload"; LEnqueue "d2" "t" "jobs" "other"; LClaim 0 "d1"; LPublish 0 ex_row1;
   LRollback 0 [ex_row1]; LClaim 1 "d1"; LPublish 1 ex_row1; LCommit 1 5].
Definition ex_planes : Planes := mkPlanes (markSent 5 [1] ex_table) ∅ [("d1", ex_row1); ("d1", ex_row1)].

(** A plane publishes and dies before it stamps; another publishes again. *)
Lemma ex_steps : ob_steps no_planes ex_labels ex_planes.
Proof.
  eapply ob_cons; [by apply st_enqueue|]. eapply ob_cons; [by apply st_enqueue|].
  eapply ob_cons; [by apply (st_claim _ 0 "d1" [ex_row1])|].
  eapply ob_cons; [by apply (st_publish _ 0 "d1" [ex_row1] ex_row1 [] [])|].
  eapply ob_cons; [by apply (st_rollback _ 0 (mkDraining "d1" [ex_row1] [] [ex_row1]))|].
  eapply ob_cons; [by apply (st_claim _ 1 "d1" [ex_row1])|].
  eapply ob_cons; [by apply (st_publish _ 1 "d1" [ex_row1] ex_row1 [] [])|].
  eapply ob_cons; [by apply (st_commit _ 1 5 "d1" [ex_row1] [ex_row1])|]. apply ob_nil.
Qed.

Lemma outbox_loses_nothing_witness :
  ∃ r, ob_deployment r = "d2" ∧ ob_tenant r = "t" ∧ ob_subject r = "jobs" ∧ ob_payload r = "other" ∧
    (r ∈ ob_rows (pl_table ex_planes) ∧ ob_sent_at r = None ∨ ("d2", r) ∈ pl_bus ex_planes).
Proof. apply (proj1 (outbox_loses_nothing _ _ ex_steps)). right. left. Defined.

Lemma published_again_only_after_a_failure_witness :
  publications 1 (pl_bus ex_planes) = 2%nat ∧ (publications 1 (pl_bus ex_planes) ≤ 1 + faults 1 ex_labels)%nat.
Proof. split; [reflexivity|]. apply (published_again_only_after_a_failure _ _ 1 ex_steps). Defined.

Lemma backlog_is_emptied_witness :
  ∃ tb', drainBacklog bus_up commits not_done 1 "d1" [] 5 ex_table [] = Some ([ex_row1], tb')
    ∧ owed_rows "d1" [] tb' = [].
Proof.
  destruct (backlog_is_emptied "d1" [] 5 1 ex_table []) as (tb' & H1 & H2 & _);
    [done|apply NoDup_ListNoDup; repeat constructor; set_solver|vm_compute; lia|].
  exists tb'. split; [exact H1|exact H2].
Defined.

Lemma drain_is_steps_witness :
  ∃ ls p', ob_steps (mkPlanes ex_table ∅ []) ls p' ∧ pl_table p' = markSent 5 [1] ex_table.
Proof.
  destruct (drain_is_steps bus_up commits (mkPlanes ex_table ∅ []) 0 "d1" 5 [] [ex_row1] (markSent 5 [1] ex_table) 1 None)
    as (ls & p' & Hs & Ht & _); [reflexivity|vm_compute; reflexivity|].
  exists ls, p'. split; [exact Hs|exact Ht].
Defined.
