(* ===== verification/Trigger.v ===== *)
(** * [internal/trigger]: what starts a run

    Bindings of event fields to a pipeline's declared inputs ([trigger.go]),
    the cron trigger over its row ([schedule/schedule.go]) and the trigger
    that chains pipelines ([completion/completion.go]). A cron expression is
    what robfig/cron makes of it: the parameter [Next]. A JSON schema is the
    parameter [schema_check]. *)

From S2P Require Import Prelude Bytes Proto Dag Policy Taint RunStore.

(** ** [trigger.go]: bindings *)

Record Binding : Type := mkBinding { bn_PipelineID : string; bn_InputMapping : gmap string string }.

Inductive BindErr : Type :=
| BindNoPipeline
| BindUnnamed
| BindOtherPipeline (bound given : string)
| BindUndeclared (input : string)
| BindNotStructured (input : string)
| BindNoValue (input : string)
| BindSchema (input why : string).

(** A port fed by an edge is not an input of the pipeline. *)
Definition port_key (step port : string) : string := step +:+ String Ascii.zero port.
Definition fed (p : Pipeline) : list string := map (λ e, port_key (to_step e) (to_port e)) (pl_edges p).

Definition declare_port (p : Pipeline) (s : Step) (m : gmap string (option PortKind)) (port : Port)
    : gmap string (option PortKind) :=
  if decide (port_key (step_id s) (port_name port) ∈ fed p) then m
  else <[port_name port := port_type port]> m.
Definition declare_step (p : Pipeline) (m : gmap string (option PortKind)) (s : Step)
    : gmap string (option PortKind) := foldl (declare_port p s) m (step_inputs s).

Definition DeclaredInputs (p : option Pipeline) : gmap string (option PortKind) :=
  match p with None => ∅ | Some p => foldl (declare_step p) ∅ (pl_steps p) end.

Definition check_bound (declared : gmap string (option PortKind)) (u : unit) (name : string) : result BindErr unit :=
  match declared !! name with
  | None => Err (BindUndeclared name)
  | Some (Some (PortStructured _ _)) => Ok tt
  | Some _ => Err (BindNotStructured name)
  end.

(** The range over the mapping is in the map's order, which Go leaves open. *)
Definition ValidateBinding (p : option Pipeline) (b : Binding) : result BindErr unit :=
  match p with
  | None => Err BindNoPipeline
  | Some pl =>
      if decide (bn_PipelineID b = "") then Err BindUnnamed
      else if decide (pl_id pl ≠ bn_PipelineID b) then Err (BindOtherPipeline (bn_PipelineID b) (pl_id pl))
      else fold_result (check_bound (DeclaredInputs p)) tt (map fst (map_to_list (bn_InputMapping b)))
  end.

Section Inputs.
(** What compiling [schema] and validating the value against it says. *)
Context (schema_check : string → Value → result string unit).

Definition validateAgainstSchema (schema : string) (v : Value) : result string unit :=
  if decide (TrimSpace schema = "") then Ok tt else schema_check schema v.

Definition check_input_value (declared : gmap string (option PortKind)) (inputs : gmap string (option Value))
    (u : unit) (name : string) : result BindErr unit :=
  match declared !! name with
  | None => Err (BindUndeclared name)
  | Some (Some (PortStructured _ schema)) =>
      match default None (inputs !! name) with
      | None => Err (BindNoValue name)
      | Some v => match validateAgainstSchema schema (ValueOf v) with
                  | Ok _ => Ok tt
                  | Err why => Err (BindSchema name why)
                  end
      end
  | Some _ => Err (BindNotStructured name)
  end.

Definition ValidateInputs (p : option Pipeline) (inputs : gmap string (option Value)) : result BindErr unit :=
  match p with
  | None => Err BindNoPipeline
  | Some _ =>
      fold_result (check_input_value (DeclaredInputs p) inputs) tt
        (sort_strings (map fst (map_to_list inputs)))
  end.
End Inputs.

(** ** [schedule/schedule.go]: a cron expression, as a row *)

Module Schedule.

(** [time.Time{}], the first of January of year 1. *)
Definition zeroTime : Z := -62135596800 * NanosPerSecond.

Record SchedRow : Type := mkSchedRow
  { sr_due : Z; sr_active : option Z; sr_skipped : option (Z * string) }.

Definition FieldScheduledFor : string := "scheduled_for".
Definition FieldFiredAt : string := "fired_at".
Definition FieldExpression : string := "expression".
Definition FieldTriggerID : string := "trigger_id".
Definition FieldKind : string := "kind".
Definition Kind : string := "schedule".
Definition DefaultPollInterval : Z := NanosPerSecond.
Definition DefaultActiveLease : Z := 3600 * NanosPerSecond.

Definition eventFields (id expression : string) (occurrence now : Z) : gmap string string :=
  list_to_map [(FieldScheduledFor, FormatTime occurrence); (FieldFiredAt, FormatTime now);
               (FieldExpression, expression); (FieldTriggerID, id); (FieldKind, Kind)].

Inductive SchedErr : Type :=
| SchedTenantRequired
| SchedNoID
| SchedNoStore
| SchedBinding (e : BindErr)
| SchedSource (input field : string)
| SchedExpression (expression : string)
| SchedUnknownField (input field : string)
| SchedFire (occurrence : Z).

Record Schedule : Type := mkSchedule
  { sc_id : string; sc_tenant : string; sc_expression : string; sc_binding : Binding; sc_poll : Z; sc_lease : Z }.

Definition check_source (u : unit) (b : string * string) : result SchedErr unit :=
  if decide (is_Some (eventFields "" "" zeroTime zeroTime !! b.2)) then Ok tt else Err (SchedSource b.1 b.2).
Definition validateSources (b : Binding) : result SchedErr unit :=
  fold_result check_source tt (map_to_list (bn_InputMapping b)).

(** [parses] is whether the cron parser takes the expression. *)
Definition New (parses : bool) (id tenant expression : string) (b : Binding) (p : option Pipeline) (store : bool)
    (poll lease : Z) : result SchedErr Schedule :=
  if decide (tenant = "") then Err SchedTenantRequired
  else if decide (id = "") then Err SchedNoID
  else if negb store then Err SchedNoStore
  else match ValidateBinding p b with
       | Err e => Err (SchedBinding e)
       | Ok _ =>
           match validateSources b with
           | Err e => Err e
           | Ok _ =>
               if negb parses then Err (SchedExpression expression)
               else Ok (mkSchedule id tenant expression b
                          (if decide (poll ≤ 0) then DefaultPollInterval else poll)
                          (if decide (lease ≤ 0) then DefaultActiveLease else lease))
           end
       end.

(** What one look at the row found. *)
Inductive Claimed : Type :=
| Nothing
| Skipped (occurrence : Z) (reason : string)
| Claim (occurrence : Z).

Section Schedule.
(** robfig/cron's [Schedule.Next]: the first activation after the given time,
    the zero time when there is none. *)
Context (Next : Z → Z) (s : Schedule).

Definition seed (row : option SchedRow) (due : Z) : option SchedRow :=
  match row with Some r => Some r | None => Some (mkSchedRow due None None) end.

Definition skip_reason (active : Z) : string :=
  "the run started at " +:+ FormatTime active +:+ " is still in flight and the concurrency budget is 1".

(** The transaction of [claim]. [locked]: another plane holds the row and
    Postgres skips it, so it reads as absent. *)
Definition claim (locked : bool) (now : Z) (row : option SchedRow) : option SchedRow * Claimed :=
  match (if locked then None else row) with
  | None => (seed row (Next now), Nothing)
  | Some r =>
      if decide (now < sr_due r) then (row, Nothing)
      else
        let next := Next now in
        match sr_active r with
        | Some active =>
            if decide (active ≠ zeroTime ∧ now - active < sc_lease s)
            then (Some (mkSchedRow next (Some active) (Some (now, skip_reason active))), Skipped (sr_due r) (skip_reason active))
            else (Some (mkSchedRow next (Some now) (sr_skipped r)), Claim (sr_due r))
        | None => (Some (mkSchedRow next (Some now) (sr_skipped r)), Claim (sr_due r))
        end
  end.

(** [UPDATE ... SET active_at = NULL] by key, whoever set it. *)
Definition release (row : option SchedRow) : option SchedRow :=
  match row with Some r => Some (mkSchedRow (sr_due r) None (sr_skipped r)) | None => None end.

Definition bind_input (occurrence now : Z) (out : gmap string Value) (b : string * string)
    : result SchedErr (gmap string Value) :=
  match eventFields (sc_id s) (sc_expression s) occurrence now !! b.2 with
  | None => Err (SchedUnknownField b.1 b.2)
  | Some v => Ok (<[b.1 := VString v]> out)
  end.
Definition inputs (occurrence now : Z) : result SchedErr (gmap string Value) :=
  fold_result (bind_input occurrence now) ∅ (map_to_list (bn_InputMapping (sc_binding s))).

Record Outcome : Type := mkOutcome { oc_Fired : bool; oc_Skipped : bool; oc_ScheduledFor : Z; oc_Reason : string }.
Definition no_outcome : Outcome := mkOutcome false false zeroTime "".

(** One poll by one plane with nobody else at the row. [fire] is whether the
    sink took the inputs; [freed] whether the release committed. *)
Definition Tick (fire : gmap string Value → bool) (freed : bool) (now : Z) (row : option SchedRow)
    : option SchedRow * (Outcome * option SchedErr) :=
  match claim false now row with
  | (row, Nothing) => (row, (no_outcome, None))
  | (row, Skipped at_ reason) => (row, (mkOutcome false true at_ reason, None))
  | (row, Claim at_) =>
      let after := if freed then release row else row in
      match inputs at_ now with
      | Err e => (after, (mkOutcome false false at_ "", Some e))
      | Ok values =>
          if fire values then (after, (mkOutcome true false at_ "", None))
          else (after, (mkOutcome false false at_ "", Some (SchedFire at_)))
      end
  end.

(** *** Planes polling one row *)

(** The row, the fires in flight (occurrence and start, by plane), and the
    occurrences handed to the sink so far. *)
Record Polling : Type := mkPolling
  { po_row : option SchedRow; po_flights : gmap nat (Z * Z); po_fired : list Z }.

Inductive poll_label : Type :=
| PPoll (plane : nat) (locked : bool)
| PDone (plane : nat)
(** the plane died, or its release failed: the mark stays *)
| PDied (plane : nat).

Inductive poll_step : Z → Polling → poll_label → Polling → Prop :=
| po_nothing now p n locked row :
    po_flights p !! n = None → claim locked now (po_row p) = (row, Nothing) →
    poll_step now p (PPoll n locked) (mkPolling row (po_flights p) (po_fired p))
| po_skip now p n locked row at_ reason :
    po_flights p !! n = None → claim locked now (po_row p) = (row, Skipped at_ reason) →
    poll_step now p (PPoll n locked) (mkPolling row (po_flights p) (po_fired p))
| po_claim now p n locked row at_ :
    po_flights p !! n = None → claim locked now (po_row p) = (row, Claim at_) →
    poll_step now p (PPoll n locked) (mkPolling row (<[n := (at_, now)]> (po_flights p)) (po_fired p ++ [at_]))
| po_done now p n f :
    po_flights p !! n = Some f →
    poll_step now p (PDone n) (mkPolling (release (po_row p)) (delete n (po_flights p)) (po_fired p))
| po_died now p n f :
    po_flights p !! n = Some f →
    poll_step now p (PDied n) (mkPolling (po_row p) (delete n (po_flights p)) (po_fired p)).

(** A history: each step with the clock of the plane that took it. *)
Inductive polls : Polling → list (Z * poll_label) → Polling → Prop :=
| polls_nil p : polls p [] p
| polls_snoc p ls p' now l p'' : polls p ls p' → poll_step now p' l p'' → polls p (ls ++ [(now, l)]) p''.

(** Every step was taken while every fire in flight was younger than the
    lease. *)
Inductive prompt : Polling → list (Z * poll_label) → Polling → Prop :=
| prompt_nil p : prompt p [] p
| prompt_snoc p ls p' now l p'' :
    prompt p ls p' → poll_step now p' l p'' →
    (∀ n f, po_flights p' !! n = Some f → now - f.2 < sc_lease s) →
    prompt p (ls ++ [(now, l)]) p''.

Definition nothing_yet : Polling := mkPolling None ∅ [].

(** The step a label is, run; and a history of them. *)
Definition poll_do (x : Z * poll_label) (p : Polling) : option Polling :=
  match x.2 with
  | PPoll n locked =>
      match po_flights p !! n with
      | Some _ => None
      | None =>
          match claim locked x.1 (po_row p) with
          | (row, Claim at_) => Some (mkPolling row (<[n := (at_, x.1)]> (po_flights p)) (po_fired p ++ [at_]))
          | (row, _) => Some (mkPolling row (po_flights p) (po_fired p))
          end
      end
  | PDone n =>
      match po_flights p !! n with
      | Some _ => Some (mkPolling (release (po_row p)) (delete n (po_flights p)) (po_fired p))
      | None => None
      end
  | PDied n =>
      match po_flights p !! n with
      | Some _ => Some (mkPolling (po_row p) (delete n (po_flights p)) (po_fired p))
      | None => None
      end
  end.

Definition young (now : Z) (p : Polling) : bool :=
  forallb (λ x, bool_decide (now - x.2.2 < sc_lease s)) (map_to_list (po_flights p)).

Definition poll_all (ls : list (Z * poll_label)) (p : Polling) : option Polling :=
  foldl (λ acc x, p ← acc; poll_do x p) (Some p) ls.
Definition poll_young (ls : list (Z * poll_label)) (p : Polling) : option Polling :=
  foldl (λ acc x, p ← acc; if young x.1 p then poll_do x p else None) (Some p) ls.
End Schedule.
End Schedule.

(** ** [completion/completion.go]: one pipeline starting another *)

Module Completion.

(** One tenant's edges: finishing a pipeline starts these. *)
Abbreviation Edges := (gmap string (list string)).
Abbreviation Registry := (gmap string Edges).

Definition targets (edges : Edges) (at_ : string) : list string := default [] (edges !! at_).

(** The closure [walk]: the pipelines seen so far are shared by all its calls.
    A path is the pipelines after [at_], down to [to]. *)
Fixpoint walk (fuel : nat) (edges : Edges) (to : string) (seen : gset string) (at_ : string)
    : option (gset string * option (list string)) :=
  match fuel with
  | O => None
  | S fuel =>
      if decide (at_ ∈ seen) then Some (seen, None)
      else
        (fix each (seen : gset string) (nexts : list string) : option (gset string * option (list string)) :=
           match nexts with
           | [] => Some (seen, None)
           | next :: nexts =>
               if decide (next = to) then Some (seen, Some [next])
               else match walk fuel edges to seen next with
                    | None => None
                    | Some (seen, Some path) => Some (seen, Some (next :: path))
                    | Some (seen, None) => each seen nexts
                    end
           end) ({[at_]} ∪ seen) (targets edges at_)
  end.

(** Every pipeline the edges name. *)
Definition nodes (edges : Edges) : gset string :=
  dom edges ∪ list_to_set (flat_map snd (map_to_list edges)).

Definition reach (edges : Edges) (from to : string) : option (option (list string)) :=
  if decide (from = to) then Some (Some [])
  else snd <$> walk (S (S (size (nodes edges)))) edges to ∅ from.

Inductive CompErr : Type :=
| CompTenantRequired
| CompNoID
| CompNoUpstream
| CompBinding (e : BindErr)
| CompSource (input field : string)
| CompSelf (pipeline : string)
| CompCycle (path : list string)
| CompOutOfFuel.

(** [Registry.add], under its mutex. *)
Definition add (tenantID upstream downstream : string) (r : Registry) : Registry * result CompErr unit :=
  let tenant := default ∅ (r !! tenantID) in
  let r := <[tenantID := tenant]> r in
  match reach tenant downstream upstream with
  | None => (r, Err CompOutOfFuel)
  | Some (Some path) => (r, Err (CompCycle (upstream :: downstream :: path)))
  | Some None => (<[tenantID := <[upstream := targets tenant upstream ++ [downstream]]> tenant]> r, Ok tt)
  end.

Record Event : Type := mkEvent
  { ce_TenantID : string; ce_PipelineID : string; ce_RunID : string; ce_Type : string; ce_At : Z }.

Definition FieldUpstreamRunID : string := "upstream_run_id".
Definition FieldUpstreamPipelineID : string := "upstream_pipeline_id".
Definition FieldOutcome : string := "outcome".
Definition FieldCompletedAt : string := "completed_at".
Definition FieldTriggerID : string := "trigger_id".
Definition FieldKind : string := "kind".
Definition Kind : string := "completion".

Definition eventFields (id : string) (ev : Event) : gmap string string :=
  list_to_map [(FieldUpstreamRunID, ce_RunID ev); (FieldUpstreamPipelineID, ce_PipelineID ev);
               (FieldOutcome, ce_Type ev); (FieldCompletedAt, FormatTime (ce_At ev));
               (FieldTriggerID, id); (FieldKind, Kind)].

Definition no_event : Event := mkEvent "" "" "" "" Schedule.zeroTime.
Definition check_source (u : unit) (b : string * string) : result CompErr unit :=
  if decide (is_Some (eventFields "" no_event !! b.2)) then Ok tt else Err (CompSource b.1 b.2).
Definition validateSources (b : Binding) : result CompErr unit :=
  fold_result check_source tt (map_to_list (bn_InputMapping b)).

Record Trigger : Type := mkTrigger
  { tr_id : string; tr_tenant : string; tr_upstream : string; tr_binding : Binding; tr_pipeline : option Pipeline }.

(** [New]; the registry is the control plane's, when it has one. *)
Definition New (id tenant upstream : string) (b : Binding) (p : option Pipeline) (r : option Registry)
    : option Registry * result CompErr Trigger :=
  if decide (tenant = "") then (r, Err CompTenantRequired)
  else if decide (id = "") then (r, Err CompNoID)
  else if decide (upstream = "") then (r, Err CompNoUpstream)
  else match ValidateBinding p b with
       | Err e => (r, Err (CompBinding e))
       | Ok _ =>
           match validateSources b with
           | Err e => (r, Err e)
           | Ok _ =>
               if decide (upstream = bn_PipelineID b) then (r, Err (CompSelf upstream))
               else
                 let t := mkTrigger id tenant upstream b p in
                 match r with
                 | None => (None, Ok t)
                 | Some r =>
                     match add tenant upstream (bn_PipelineID b) r with
                     | (r, Err e) => (Some r, Err e)
                     | (r, Ok _) => (Some r, Ok t)
                     end
                 end
           end
       end.

Inductive Observed : Type :=
| Fired
| OtherTenant
| OtherPipeline
| Itself
| NotCompleted
| UnknownField (input field : string)
| Refused (e : BindErr)
| FireFailed.

Section Observe.
Context (schema_check : string → Value → result string unit) (t : Trigger).

Definition bind_input (ev : Event) (out : gmap string (option Value)) (input : string)
    : result Observed (gmap string (option Value)) :=
  let field := default "" (bn_InputMapping (tr_binding t) !! input) in
  match eventFields (tr_id t) ev !! field with
  | None => Err (UnknownField input field)
  | Some v => Ok (<[input := Some (VString v)]> out)
  end.
Definition inputs (ev : Event) : result Observed (gmap string (option Value)) :=
  fold_result (bind_input ev) ∅ (sort_strings (map fst (map_to_list (bn_InputMapping (tr_binding t))))).

(** [fire] is whether the sink took the tenant, the pipeline and the inputs. *)
Definition Observe (fire : string → string → gmap string (option Value) → bool) (ev : Event) : Observed :=
  if decide (ce_TenantID ev ≠ tr_tenant t) then OtherTenant
  else if decide (ce_PipelineID ev ≠ tr_upstream t) then OtherPipeline
  else if decide (ce_PipelineID ev = bn_PipelineID (tr_binding t)) then Itself
  else if decide (ce_Type ev ≠ RunCompleted) then NotCompleted
  else match inputs ev with
       | Err e => e
       | Ok values =>
           match ValidateInputs schema_check (tr_pipeline t) values with
           | Err e => Refused e
           | Ok _ => if fire (tr_tenant t) (bn_PipelineID (tr_binding t)) values then Fired else FireFailed
           end
       end.
End Observe.
End Completion.
