(* ===== verification/TriggerFacts.v ===== *)
(** * What starts a run: once per occurrence, one at a time, and never in a ring *)

From S2P Require Import Prelude Bytes Proto Dag Policy Taint RunStore Trigger.

Module ScheduleFacts.
Import Schedule.

Section Schedule.
Context (Next : Z → Z) (s : Schedule).

(** The look at the row, by what it found. *)
Lemma claim_cases locked now row row' c :
  claim Next s locked now row = (row', c) →
  match c with
  | Nothing => row' = row ∨ (row = None ∧ row' = Some (mkSchedRow (Next now) None None))
  | Skipped at_ _ => ∃ r active, row = Some r ∧ at_ = sr_due r ∧ sr_due r ≤ now ∧ sr_active r = Some active
      ∧ now - active < sc_lease s ∧ ∃ k, row' = Some (mkSchedRow (Next now) (Some active) k)
  | Claim at_ => ∃ r, row = Some r ∧ at_ = sr_due r ∧ sr_due r ≤ now
      ∧ (∀ active, sr_active r = Some active → active = zeroTime ∨ sc_lease s ≤ now - active)
      ∧ row' = Some (mkSchedRow (Next now) (Some now) (sr_skipped r))
  end.
Proof.
  unfold claim. destruct (if locked then None else row) as [r|] eqn:Er.
  - assert (row = Some r) as -> by (by destruct locked). case_decide; [intros [= <- <-]; by left|].
    destruct (sr_active r) as [a|] eqn:Ea.
    + case_decide as Ha; intros [= <- <-].
      * exists r, a. split; [done|]. split; [done|]. split; [lia|]. split; [done|]. split; [tauto|by eexists].
      * exists r. split; [done|]. split; [done|]. split; [lia|]. split; [|done]. intros b Hb. rewrite Ea in Hb.
        injection Hb as <-. destruct (decide (a = zeroTime)); [by left|right; lia].
    + intros [= <- <-]. exists r. split; [done|]. split; [done|]. split; [lia|]. split; [|done].
      intros b Hb. by rewrite Ea in Hb.
  - intros [= <- <-]. unfold seed. destruct row as [r|]; [by left|right]. by destruct locked.
Qed.

Definition due_after (x : Z) (p : Polling) : Prop := ∃ r, po_row p = Some r ∧ x < sr_due r.

Lemma polls_fired ls p :
  (∀ t, t < Next t) → polls Next s nothing_yet ls p →
  StronglySorted Z.lt (po_fired p) ∧ ∀ x, x ∈ po_fired p → due_after x p.
Proof.
  intros Hnext Hp. remember nothing_yet as p0 eqn:E0. induction Hp as [p|p ls p' now l p'' Hp IH Hstep]; subst.
  { split; [constructor|]. by intros x Hx%elem_of_nil. }
  destruct (IH eq_refl) as [Hs Hx]. clear IH. destruct Hstep as [now p' n locked row _ Hc|now p' n locked row at_ reason _ Hc
    |now p' n locked row at_ _ Hc|now p' n f _|now p' n f _]; simpl; try apply claim_cases in Hc.
  - split; [done|]. intros x Hin. destruct (Hx x Hin) as (r & Hr & Hlt).
    destruct Hc as [->|[Hrow _]]; [by exists r|congruence].
  - split; [done|]. intros x Hin. destruct (Hx x Hin) as (r & Hr & Hlt).
    destruct Hc as (r' & a & Hr' & -> & Hdue & _ & _ & k & ->). eexists. split; [done|]. simpl.
    specialize (Hnext now). rewrite Hr in Hr'. injection Hr' as ->. lia.
  - destruct Hc as (r & Hr & -> & Hdue & _ & ->). specialize (Hnext now). split.
    + apply StronglySorted_app_2; [|done|repeat constructor]. intros x y Hin ->%list_elem_of_singleton.
      destruct (Hx x Hin) as (r' & Hr' & Hlt). rewrite Hr in Hr'. by injection Hr' as ->.
    + intros x. rewrite elem_of_app, list_elem_of_singleton. intros Hin. eexists. split; [done|]. simpl.
      destruct Hin as [Hin| ->]; [|lia]. destruct (Hx x Hin) as (r' & Hr' & Hlt). rewrite Hr in Hr'. injection Hr' as ->. lia.
  - split; [done|]. intros x Hin. destruct (Hx x Hin) as (r & Hr & Hlt). unfold due_after. simpl. rewrite Hr. simpl. by eexists.
  - split; [done|]. intros x Hin. apply (Hx x Hin).
Qed.

(** An occurrence of a schedule is handed to the sink once, however many
    planes poll its row, whatever their clocks read and wherever they die:
    each occurrence fired is strictly later than every one before it, so a
    window missed by everyone is one fire and not a queue of them. *)
Theorem occurrence_fires_once (ls : list (Z * poll_label)) (p : Polling) :
  (∀ t, t < Next t) → polls Next s nothing_yet ls p → StronglySorted Z.lt (po_fired p).
Proof. intros Hnext Hp. by apply (polls_fired ls p Hnext). Qed.

Lemma prompt_marked ls p :
  (∀ x, x ∈ ls → x.1 ≠ zeroTime) → prompt Next s nothing_yet ls p →
  ∀ n f, po_flights p !! n = Some f →
    po_flights p = {[n := f]} ∧ f.2 ≠ zeroTime ∧ ∃ r, po_row p = Some r ∧ sr_active r = Some f.2.
Proof.
  intros Hz Hp. remember nothing_yet as p0 eqn:E0. induction Hp as [p|p ls p' now l p'' Hp IH Hstep Hyoung]; subst.
  { intros n f. simpl. by rewrite lookup_empty. }
  specialize (IH ltac:(intros x Hx; apply Hz, elem_of_app; by left) eq_refl).
  assert (Hnow : now ≠ zeroTime) by (apply (Hz (now, l)), elem_of_app; right; by apply list_elem_of_singleton).
  destruct Hstep as [now p' n locked row Hn Hc|now p' n locked row at_ reason Hn Hc
    |now p' n locked row at_ Hn Hc|now p' n f Hn|now p' n f Hn]; simpl; try apply claim_cases in Hc; intros m g Hm.
  - destruct (IH m g Hm) as (He & Hg & r & Hr & Ha). split; [done|]. split; [done|].
    destruct Hc as [->|[Hrow _]]; [by exists r|congruence].
  - destruct (IH m g Hm) as (He & Hg & r & Hr & Ha). split; [done|]. split; [done|].
    destruct Hc as (r' & a & Hr' & _ & _ & Ha' & _ & k & ->). eexists. split; [done|]. simpl. congruence.
  - destruct Hc as (r & Hr & _ & _ & Hold & ->).
    assert (Hempty : po_flights p' = ∅).
    { apply map_empty. intros k. destruct (po_flights p' !! k) as [f|] eqn:Ek; [|done]. exfalso.
      destruct (IH k f Ek) as (_ & Hf & r' & Hr' & Ha'). rewrite Hr in Hr'. injection Hr' as <-.
      specialize (Hyoung k f Ek). destruct (Hold _ Ha') as [|Hge]; [done|lia]. }
    rewrite Hempty, lookup_insert_Some, lookup_empty in Hm. destruct Hm as [[<- <-]|[_ ?]]; [|done].
    rewrite Hempty, insert_empty. split; [done|]. split; [done|]. by eexists.
  - exfalso. apply lookup_delete_Some in Hm as [Hne Hm]. destruct (IH n f Hn) as (He & _).
    rewrite He, lookup_singleton_ne in Hm; done.
  - exfalso. apply lookup_delete_Some in Hm as [Hne Hm]. destruct (IH n f Hn) as (He & _).
    rewrite He, lookup_singleton_ne in Hm; done.
Qed.

(** As long as no fire outlives the lease, a schedule has at most one fire
    in flight, over all the planes that poll it: an occurrence that comes due
    meanwhile is skipped and the row moves on. *)
Theorem one_fire_in_flight (ls : list (Z * poll_label)) (p : Polling) (n m : nat) (f g : Z * Z) :
  (∀ x, x ∈ ls → x.1 ≠ zeroTime) → prompt Next s nothing_yet ls p →
  po_flights p !! n = Some f → po_flights p !! m = Some g → n = m ∧ f = g.
Proof.
  intros Hz Hp Hn Hm. destruct (prompt_marked ls p Hz Hp n f Hn) as (He & _). rewrite He in Hm.
  by apply lookup_singleton_Some in Hm.
Qed.

Lemma poll_do_step x p p' : poll_do Next s x p = Some p' → poll_step Next s x.1 p x.2 p'.
Proof.
  destruct x as [now []]; unfold poll_do; cbn [fst snd]; destruct (po_flights p !! plane) eqn:Ef; try done.
  - destruct (claim Next s locked now (po_row p)) as [row []] eqn:Ec; intros [= <-].
    + by apply po_nothing.
    + by eapply po_skip.
    + by apply po_claim.
  - intros [= <-]. by eapply po_done.
  - intros [= <-]. by eapply po_died.
Qed.

Lemma poll_all_polls ls p p' : poll_all Next s ls p = Some p' → polls Next s p ls p'.
Proof.
  revert p'. induction ls as [|[now l] ls IH] using rev_ind; intros p'; unfold poll_all.
  - intros [= <-]. constructor.
  - rewrite foldl_app. cbn [foldl]. fold (poll_all Next s ls p). destruct (poll_all Next s ls p) as [p1|]; [|done].
    intros Hd. eapply polls_snoc; [by apply IH|]. by apply (poll_do_step (now, l)).
Qed.

Lemma poll_young_prompt ls p p' : poll_young Next s ls p = Some p' → prompt Next s p ls p'.
Proof.
  revert p'. induction ls as [|[now l] ls IH] using rev_ind; intros p'; unfold poll_young.
  - intros [= <-]. constructor.
  - rewrite foldl_app. cbn [foldl]. fold (poll_young Next s ls p). destruct (poll_young Next s ls p) as [p1|]; [|done].
    cbn [mbind option_bind fst]. destruct (young s now p1) eqn:Ey; [|done].
    intros Hd. eapply prompt_snoc; [by apply IH|by apply (poll_do_step (now, l))|]. intros n f Hf.
    unfold young in Ey. rewrite forallb_forall in Ey. specialize (Ey (n, f)). rewrite bool_decide_eq_true in Ey.
    apply Ey. by apply list_elem_of_In, elem_of_map_to_list.
Qed.

(** Successive polls by one plane. *)
Fixpoint ticks (fire : gmap string Value → bool) (nows : list Z) (row : option SchedRow) : list Outcome :=
  match nows with
  | [] => []
  | now :: nows =>
      let '(row, (out, _)) := Tick Next s fire true now row in out :: ticks fire nows row
  end.

Lemma ticks_zero fire at_ values :
  (∀ t, Next t = zeroTime) → (∀ now, inputs s at_ now = Ok values) → at_ = zeroTime → fire values = true →
  ∀ nows k, Forall (λ now, zeroTime ≤ now) nows →
  ticks fire nows (Some (mkSchedRow zeroTime None k)) = map (λ _, mkOutcome true false zeroTime "") nows.
Proof.
  intros Hnext Hin -> Hf nows. induction nows as [|now nows IH]; intros k Hall; [done|].
  apply Forall_cons in Hall as [Hnow Hall]. cbn [ticks map]. unfold Tick, claim. cbn [sr_due sr_active sr_skipped].
  rewrite decide_False by lia. rewrite Hnext, Hin, Hf. cbn [release sr_due sr_skipped]. f_equal. by apply IH.
Qed.
End Schedule.

(** A schedule of no inputs, and the clock at the start of a day. *)
Definition ex_schedule : Schedule := mkSchedule "nightly" "t" "0 0 30 2 *" (mkBinding "ci" ∅) NanosPerSecond DefaultActiveLease.
Definition day1 : Z := 1700000000 * NanosPerSecond.
Definition minutes (n : Z) : Z := day1 + n * 60 * NanosPerSecond.
Definition next_minute (t : Z) : Z := t + 60 * NanosPerSecond.

(** A cron expression that no day satisfies, the thirtieth of February, is
    accepted, and its schedule fires at every poll: the parser's Next answers
    with the zero time, which is stored as the due time and is always past. *)
Theorem impossible_schedule_always_fires (Next : Z → Z) (fire : gmap string Value → bool) (first : Z) (nows : list Z) :
  (∀ t, Next t = zeroTime) → fire ∅ = true → Forall (λ now, zeroTime ≤ now) nows →
  ticks Next ex_schedule fire (first :: nows) None = no_outcome :: map (λ _, mkOutcome true false zeroTime "") nows.
Proof.
  intros Hnext Hf Hall. cbn [ticks]. unfold Tick at 1, claim. cbn [seed]. rewrite Hnext. f_equal.
  by apply (ticks_zero Next ex_schedule fire zeroTime ∅).
Qed.

Lemma impossible_schedule_always_fires_witness :
  ticks (λ _, zeroTime) ex_schedule (λ _, true) [day1; minutes 1; minutes 2] None
  = [no_outcome; mkOutcome true false zeroTime ""; mkOutcome true false zeroTime ""].
Proof.
  apply (impossible_schedule_always_fires (λ _, zeroTime) (λ _, true) day1 [minutes 1; minutes 2]); [done..|].
  repeat constructor; vm_compute; discriminate.
Defined.

Definition two_polls : list (Z * poll_label) :=
  [(day1, PPoll 0 false); (minutes 1, PPoll 0 false); (minutes 1, PPoll 1 false)].
Definition one_flight : Polling := default nothing_yet (poll_young next_minute ex_schedule two_polls nothing_yet).

Lemma occurrence_fires_once_witness : StronglySorted Z.lt (po_fired one_flight) ∧ po_fired one_flight = [minutes 1].
Proof.
  split; [|vm_compute; reflexivity].
  apply (occurrence_fires_once next_minute ex_schedule two_polls one_flight).
  - intros t. unfold next_minute, NanosPerSecond. lia.
  - apply poll_all_polls. vm_compute. reflexivity.
Defined.

Lemma one_fire_in_flight_witness : 0%nat = 0%nat ∧ (minutes 1, minutes 1) = (minutes 1, minutes 1).
Proof.
  apply (one_fire_in_flight next_minute ex_schedule two_polls one_flight);
    [|apply poll_young_prompt; vm_compute; reflexivity|vm_compute; reflexivity|vm_compute; reflexivity].
  intros x Hx. unfold two_polls in Hx. set_unfold in Hx. destruct Hx as [->|[->|[->|[]]]]; vm_compute; discriminate.
Defined.

(** The release clears the in-flight mark whoever set it. Once one fire has
    outlived the lease, its end frees the schedule while the fire that replaced
    it is still running: here two fires, both well within the lease, are in
    flight at once. *)
Theorem release_frees_another_fire :
  ∃ ls now l p n m f g, polls next_minute ex_schedule nothing_yet (ls ++ [(now, l)]) p
    ∧ po_flights p !! n = Some f ∧ po_flights p !! m = Some g ∧ n ≠ m
    ∧ now - f.2 < sc_lease ex_schedule ∧ now - g.2 < sc_lease ex_schedule.
Proof.
  set (ls := [(day1, PPoll 0 false); (minutes 1, PPoll 0 false); (minutes 61, PPoll 1 false); (minutes 62, PDone 0)]).
  exists ls, (minutes 63), (PPoll 2 false), (default nothing_yet (poll_all next_minute ex_schedule
    (ls ++ [(minutes 63, PPoll 2 false)]) nothing_yet)), 1%nat, 2%nat, (minutes 2, minutes 61), (minutes 62, minutes 63).
  split; [apply poll_all_polls; vm_compute; reflexivity|]. split; [vm_compute; reflexivity|].
  split; [vm_compute; reflexivity|]. split; [done|]. split; vm_compute; reflexivity.
Qed.
End ScheduleFacts.

Module CompletionFacts.
Import Completion.

(** Finishing [x] starts [y]. *)
Definition starts (edges : Edges) (x y : string) : Prop := y ∈ targets edges x.

(** Pipelines starting one another down to [to], after [at_]. *)
Fixpoint chain (edges : Edges) (at_ to : string) (path : list string) : Prop :=
  match path with
  | [] => False
  | [x] => x = to ∧ starts edges at_ x
  | x :: path => starts edges at_ x ∧ chain edges x to path
  end.

Lemma chain_cons edges at_ to x path : starts edges at_ x → chain edges x to path → chain edges at_ to (x :: path).
Proof. intros Hx Hc. destruct path as [|y path]; [done|]. by split. Qed.

Lemma starts_tc edges at_ to path : chain edges at_ to path → tc (starts edges) at_ to.
Proof.
  revert at_. induction path as [|x [|y path] IH]; intros at_; [done|intros [-> Hx]; by apply tc_once|].
  intros [Hx Hc]. eapply tc_l; [exact Hx|by apply IH].
Qed.

(** The loop over one pipeline's targets. *)
Definition each (fuel : nat) (edges : Edges) (to : string) :=
  fix each (seen : gset string) (nexts : list string) : option (gset string * option (list string)) :=
    match nexts with
    | [] => Some (seen, None)
    | next :: nexts =>
        if decide (next = to) then Some (seen, Some [next])
        else match walk fuel edges to seen next with
             | None => None
             | Some (seen, Some path) => Some (seen, Some (next :: path))
             | Some (seen, None) => each seen nexts
             end
    end.

Lemma walk_unfold fuel edges to seen at_ :
  walk (S fuel) edges to seen at_
  = if decide (at_ ∈ seen) then Some (seen, None) else each fuel edges to ({[at_]} ∪ seen) (targets edges at_).
Proof. done. Qed.

(** What a walk that found nothing has established. *)
Definition closed_beyond (edges : Edges) (to : string) (seen seen' : gset string) : Prop :=
  seen ⊆ seen' ∧ ∀ x, x ∈ seen' → x ∉ seen → ∀ y, starts edges x y → y ≠ to ∧ y ∈ seen'.

Lemma closed_beyond_trans edges to s1 s2 s3 :
  closed_beyond edges to s1 s2 → closed_beyond edges to s2 s3 → closed_beyond edges to s1 s3.
Proof.
  intros [H1 H2] [H3 H4]. split; [set_solver|]. intros x Hx Hn y Hy. destruct (decide (x ∈ s2)) as [Hin|Hin].
  - destruct (H2 x Hin Hn y Hy). split; [done|set_solver].
  - by apply (H4 x).
Qed.

Lemma walk_spec edges to fuel : ∀ seen at_ seen' res,
  walk fuel edges to seen at_ = Some (seen', res) →
  match res with
  | Some path => chain edges at_ to path
  | None => closed_beyond edges to seen seen' ∧ at_ ∈ seen'
  end.
Proof.
  induction fuel as [|fuel IH]; intros seen at_ seen' res; [done|]. rewrite walk_unfold. case_decide as Hin.
  { intros [= <- <-]. split; [|done]. split; [done|]. set_solver. }
  assert (Hloop : ∀ nexts seen1 seen2 res, (∀ y, y ∈ nexts → starts edges at_ y) →
    each fuel edges to seen1 nexts = Some (seen2, res) →
    match res with
    | Some path => chain edges at_ to path
    | None => closed_beyond edges to seen1 seen2 ∧ ∀ y, y ∈ nexts → y ≠ to ∧ y ∈ seen2
    end).
  { clear seen' res. induction nexts as [|next nexts IHn]; intros seen1 seen2 res Hall; cbn [each].
    { intros [= <- <-]. split; [split; [done|set_solver]|set_solver]. }
    assert (Hnext : starts edges at_ next) by (apply Hall; by left).
    case_decide as Hto; [intros [= <- <-]; by split|].
    destruct (walk fuel edges to seen1 next) as [[seen3 [path|]]|] eqn:Ew; [| |done].
    - intros [= <- <-]. apply IH in Ew. by apply chain_cons.
    - intros He. apply IH in Ew as [Hc Hn]. apply IHn in He; [|intros y Hy; apply Hall; by right].
      destruct res as [path|]; [done|]. destruct He as [Hc' Hrest]. split; [by eapply closed_beyond_trans|].
      intros y [->|Hy]%elem_of_cons; [split; [done|]; by apply Hc'|by apply Hrest]. }
  intros He. apply Hloop in He; [|done]. destruct res as [path|]; [done|]. destruct He as [[Hsub Hcl] Hall].
  split; [|set_solver]. split; [set_solver|]. intros x Hx Hn y Hy.
  destruct (decide (x = at_)) as [->|Hne]; [by apply Hall|]. apply (Hcl x); [done|set_solver|done].
Qed.

(** With more fuel than there are pipelines unseen, a walk ends. *)
Lemma search_fuel edges to N fuel : (∀ x y, x ∈ N → starts edges x y → y ∈ N) →
  ∀ seen at_, at_ ∈ N → (size (N ∖ seen) < fuel)%nat → is_Some (walk fuel edges to seen at_).
Proof.
  intros HN. induction fuel as [|fuel IH]; intros seen at_ Hat Hlt; [lia|]. rewrite walk_unfold.
  case_decide as Hin; [by eexists|].
  assert (Hsize : (size (N ∖ ({[at_]} ∪ seen)) < fuel)%nat).
  { assert (N ∖ ({[at_]} ∪ seen) ⊂ N ∖ seen) as Hss%subset_size by set_solver. lia. }
  assert (Hall : ∀ y, y ∈ targets edges at_ → y ∈ N) by (intros y; by apply HN).
  revert Hsize. generalize ({[at_]} ∪ seen). clear Hin Hlt seen.
  induction (targets edges at_) as [|next nexts IHn]; intros seen Hsize; cbn [each]; [by eexists|].
  case_decide; [by eexists|]. destruct (IH seen next) as [[seen' res] Ew]; [apply Hall; by left|done|]. rewrite Ew.
  destruct res as [path|]; [by eexists|]. apply walk_spec in Ew as [[Hsub _] _].
  apply IHn; [intros y Hy; apply Hall; by right|].
  assert (size (N ∖ seen') ≤ size (N ∖ seen))%nat by (apply subseteq_size; set_solver). lia.
Qed.

Lemma nodes_closed edges x y : starts edges x y → y ∈ nodes edges.
Proof.
  unfold starts, targets, nodes. destruct (edges !! x) as [l|] eqn:El; simpl; [|by intros Hy%elem_of_nil].
  intros Hy. apply elem_of_union_r, elem_of_list_to_set, elem_of_flat_map.
  exists (x, l). split; [by apply elem_of_map_to_list|done].
Qed.

(** Depth-first search finds a path exactly when there is one. *)
Lemma reach_spec edges from to :
  ∃ res, reach edges from to = Some res ∧
    match res with
    | Some path => rtc (starts edges) from to ∧ (path = [] ∧ from = to ∨ chain edges from to path)
    | None => ¬ rtc (starts edges) from to
    end.
Proof.
  unfold reach. case_decide as Heq; [exists (Some []); split; [done|]; subst; split; [done|by left]|].
  destruct (search_fuel edges to ({[from]} ∪ nodes edges) (S (S (size (nodes edges))))) with (seen := ∅ : gset string) (at_ := from)
    as [[seen res] Ew].
  { intros x y _ Hy. apply elem_of_union_r. by eapply nodes_closed. }
  { set_solver. }
  { rewrite difference_empty_L, size_union_alt, size_singleton.
    assert (size (nodes edges ∖ {[from]}) ≤ size (nodes edges))%nat by (apply subseteq_size; set_solver). lia. }
  rewrite Ew. simpl. exists res. split; [done|]. apply walk_spec in Ew. destruct res as [path|].
  - split; [apply tc_rtc, (starts_tc _ _ _ _ Ew)|by right].
  - destruct Ew as [[_ Hcl] Hfrom]. intros Hr.
    assert (Hall : ∀ x, rtc (starts edges) from x → x ∈ seen ∧ (x = from ∨ x ≠ to)).
    { apply (rtc_ind_r (λ x, x ∈ seen ∧ (x = from ∨ x ≠ to))); [auto|]. intros x y _ Hy [Hx _].
      destruct (Hcl x Hx (not_elem_of_empty x) y Hy). auto. }
    destruct (Hall to Hr) as [_ [->|]]; done.
Qed.

Definition acyclic (edges : Edges) : Prop := ∀ x, ¬ tc (starts edges) x x.

Lemma starts_insert edges u d x y :
  starts (<[u := targets edges u ++ [d]]> edges) x y ↔ starts edges x y ∨ (x = u ∧ y = d).
Proof.
  unfold starts at 1, targets at 1. destruct (decide (x = u)) as [->|Hne].
  - rewrite lookup_insert_eq. simpl. rewrite elem_of_app, list_elem_of_singleton. unfold starts. naive_solver.
  - rewrite lookup_insert_ne by done. unfold starts, targets. naive_solver.
Qed.

(** An edge to a pipeline that cannot reach back keeps the graph acyclic. *)
Lemma acyclic_insert edges u d :
  acyclic edges → ¬ rtc (starts edges) d u → acyclic (<[u := targets edges u ++ [d]]> edges).
Proof.
  intros Hac Hno x Hx.
  assert (Hsplit : ∀ a b, tc (starts (<[u := targets edges u ++ [d]]> edges)) a b →
    tc (starts edges) a b ∨ (rtc (starts edges) a u ∧ rtc (starts edges) d b)).
  { intros a b Hab. induction Hab as [a b H|a b c H Hbc IH].
    - apply starts_insert in H as [H|[-> ->]]; [left; by apply tc_once|by right].
    - apply starts_insert in H as [H|[-> ->]].
      + destruct IH as [Hbc'|[H1 H2]]; [left; by eapply tc_l|right; split; [by eapply rtc_l|done]].
      + right. split; [done|]. destruct IH as [Hbc'|[_ H2]]; [by apply tc_rtc|done]. }
  destruct (Hsplit x x Hx) as [Hc|[H1 H2]]; [by apply (Hac x)|]. apply Hno. by etrans.
Qed.

Definition tenant_edges (r : Registry) (tenantID : string) : Edges := default ∅ (r !! tenantID).

(** C39: The registry refuses a completion trigger exactly when it would close a
    cycle. The search always ends; an edge is added when the downstream
    pipeline cannot reach the upstream one, and then the tenant's graph stays
    acyclic; otherwise nothing is wired and the cycle reported is a real one,
    pipeline starting pipeline back to where it began. No other tenant's graph
    changes. *)
Theorem registry_refuses_exactly_cycles (tenantID upstream downstream : string) (r r' : Registry) (res : result CompErr unit) :
  add tenantID upstream downstream r = (r', res) →
  let edges := tenant_edges r tenantID in
  (res = Ok tt ↔ ¬ rtc (starts edges) downstream upstream)
  ∧ (res = Ok tt → (∀ x y, starts (tenant_edges r' tenantID) x y ↔ starts edges x y ∨ x = upstream ∧ y = downstream)
       ∧ (acyclic edges → acyclic (tenant_edges r' tenantID)))
  ∧ (res ≠ Ok tt → tenant_edges r' tenantID = edges
       ∧ ∃ path, res = Err (CompCycle (upstream :: downstream :: path))
           ∧ (path = [] ∧ downstream = upstream ∨ chain edges downstream upstream path))
  ∧ ∀ other, other ≠ tenantID → tenant_edges r' other = tenant_edges r other.
Proof.
  intros Hadd edges. unfold add in Hadd. fold (tenant_edges r tenantID) in Hadd. fold edges in Hadd.
  destruct (reach_spec edges downstream upstream) as (found & Hf & Hspec). rewrite Hf in Hadd.
  destruct found as [path|]; injection Hadd as <- <-.
  - destruct Hspec as [Hr Hp]. split; [split; [done|by intros []]|]. split; [done|]. split.
    + intros _. unfold tenant_edges. rewrite lookup_insert_eq. split; [done|]. by exists path.
    + intros other Hne. unfold tenant_edges. by rewrite lookup_insert_ne.
  - split; [done|]. split; [|split; [done|]].
    + intros _. unfold tenant_edges. rewrite lookup_insert_eq. simpl. split; [intros x y; apply starts_insert|].
      intros Hac. by apply acyclic_insert.
    + intros other Hne. unfold tenant_edges. by rewrite !lookup_insert_ne.
Qed.

Definition ex_registry : Registry := {["t" := {["a" := ["b"]; "b" := ["c"]]}]}.

Lemma registry_refuses_exactly_cycles_witness :
  (add "t" "c" "a" ex_registry).2 = Err (CompCycle ["c"; "a"; "b"; "c"])
  ∧ tenant_edges (add "t" "c" "a" ex_registry).1 "t" = tenant_edges ex_registry "t".
Proof.
  split; [vm_compute; reflexivity|].
  destruct (registry_refuses_exactly_cycles "t" "c" "a" ex_registry _ _ (surjective_pairing _)) as (_ & _ & Herr & _).
  apply Herr. vm_compute. discriminate.
Defined.
End CompletionFacts.
