(* ===== verification/Loop.v ===== *)
(** * [internal/steps/loop] and the plane's [builtin:loop]: bounded iteration

    A loop is a ceiling, an exit condition and a body. The plane's form
    ([splice.go], [iterate] of [internal/server/builtins.go]) realises one
    iteration of the body into the run per controller step; the library form
    ([loop.go], [Run]) runs the body itself under a budget shared by a nest.
    CEL, the JSON of a pipeline and of a record, and the content store are
    parameters. *)

From S2P Require Import Prelude Bytes Proto Dag RunStore Dynamic Sched.
From Stdlib Require Import Ascii DecimalString DecimalN.

Definition PluginRef : string := "builtin:loop".
Definition EventIterationStarted : string := "LOOP_ITERATION_STARTED".
Definition EventIterationFinished : string := "LOOP_ITERATION_FINISHED".
Definition EventExited : string := "LOOP_EXITED".
Definition EventLoopCeiling : string := "LOOP_CEILING_REACHED".
Definition EventLoopFailed : string := "LOOP_FAILED".
Definition CeilingReason : string := "iteration ceiling reached".

Definition ConfigBody : string := "body".
Definition ConfigMaxIterations : string := "max_iterations".
Definition ConfigExitCondition : string := "exit_condition".
Definition ConfigLoop : string := "loop".
Definition ConfigIteration : string := "iteration".

Inductive LoopErr : Type :=
| LoopIterationNumber (raw loop : string)
| LoopUnbounded
| LoopCondition (why : string)
| LoopSubgraph (why : string)
| LoopNoOutput (step : string)
| LoopCeiling (reason : string)
| LoopEncode (loop : string)
| LoopNoGraph
| LoopGraph (why : string)
| LoopProduced (step port : string)
| LoopRead (why : string)
| LoopStore (e : StoreErr)
| LoopSplice (e : DynErr)
| LoopJoined (cause e : LoopErr)
(** an index out of range: the goroutine panics *)
| GoPanic.

(** [strconv.Atoi]. *)
Definition Atoi (s : string) : option Z :=
  let digits := λ s, d ← NilZero.uint_of_string s; Some (Z.of_N (N.of_uint d)) in
  let keep := λ z : Z, if decide (- two63 ≤ z < two63) then Some z else None in
  match s with
  | String c r =>
      if Ascii.eqb c (ascii_of_N 45) then n ← digits r; keep (- n)
      else if Ascii.eqb c (ascii_of_N 43) then digits r ≫= keep
      else digits s ≫= keep
  | EmptyString => None
  end.

(** ** [splice.go] *)

Record Spec : Type := mkSpec
  { sp_Loop : string; sp_Iteration : Z; sp_Max : Z; sp_ExitCondition : string; sp_Body : Pipeline;
    sp_EffectClass : EffectClass }.

Definition ControllerID (loopID : string) (n : Z) : string :=
  if decide (n ≤ 1) then loopID else loopID +:+ "." +:+ dec_Z n.

Definition BodyStepID (s : Spec) (local : string) : string :=
  sp_Loop s +:+ "." +:+ dec_Z (sp_Iteration s) +:+ "." +:+ local.

Definition At (s : Spec) (n : Z) : Spec :=
  mkSpec (sp_Loop s) n (sp_Max s) (sp_ExitCondition s) (sp_Body s) (sp_EffectClass s).

Definition ExitSteps (s : Spec) : list Step :=
  filter (λ st, step_id st ∉ map from_step (pl_edges (sp_Body s))) (pl_steps (sp_Body s)).

(** [proto.Clone] with another id. *)
Definition with_id (st : Step) (id : string) : Step :=
  {| step_id := id; step_name := step_name st; step_plugin_ref := step_plugin_ref st;
     step_effect_class := step_effect_class st; step_inputs := step_inputs st; step_outputs := step_outputs st;
     step_capabilities := step_capabilities st; step_lease_scope := step_lease_scope st;
     step_config := step_config st; step_image := step_image st; step_engine_type := step_engine_type st;
     step_timeout_seconds := step_timeout_seconds st; step_file_inputs := step_file_inputs st;
     step_secrets := step_secrets st |}.

Section Splice.
(** What compiling an expression as the loop's condition says; the JSON of a
    pipeline, both ways. *)
Context (cel_compile : string → result string unit).
Context (pipeline_json : Pipeline → option string) (json_pipeline : string → result string Pipeline).

(** [NewCondition]; a condition is known by its expression. *)
Definition NewCondition (expr : string) : result LoopErr string :=
  if decide (expr = "") then Err (LoopCondition "a loop with no exit condition can only ever end at its ceiling")
  else match cel_compile expr with Ok _ => Ok expr | Err why => Err (LoopCondition why) end.

Definition ParseBody (raw : string) : result LoopErr Pipeline :=
  if decide (TrimSpace raw = "") then Err (LoopSubgraph "a loop with no `body` has nothing to repeat")
  else match json_pipeline raw with
       | Err why => Err (LoopSubgraph why)
       | Ok body =>
           if decide (pl_steps body = []) then Err (LoopSubgraph "the body has no steps")
           else match Build (Some body) with
                | Err _ => Err (LoopSubgraph "the body is not a graph")
                | Ok _ =>
                    match TypeCheck (Some body) with
                    | [] => Ok body
                    | d :: _ => Err (LoopSubgraph (diag_step d +:+ "." +:+ diag_port d))
                    end
                end
       end.

Definition config_or (st : Step) (key : string) : string := default "" (step_config st !! key).

Definition ParseSpec (st : Step) : result LoopErr Spec :=
  let named := TrimSpace (config_or st ConfigLoop) in
  let loop := if decide (named = "") then step_id st else named in
  let raw := TrimSpace (config_or st ConfigIteration) in
  iteration ← (if decide (raw = "") then Ok 1
               else match Atoi raw with
                    | Some n => if decide (n < 1) then Err (LoopIterationNumber raw loop) else Ok n
                    | None => Err (LoopIterationNumber raw loop)
                    end);
  match Atoi (TrimSpace (config_or st ConfigMaxIterations)) with
  | None => Err LoopUnbounded
  | Some ceiling =>
      if decide (ceiling ≤ 0) then Err LoopUnbounded
      else
        condition ← NewCondition (config_or st ConfigExitCondition);
        body ← ParseBody (config_or st ConfigBody);
        Ok (mkSpec loop iteration ceiling condition body (step_effect_class st))
  end.

(** One input of the controller per exit, typed as the output it is fed from. *)
Definition exit_input (inputs : list Port) (exit : Step) : result LoopErr (list Port) :=
  match step_outputs exit with
  | [] => Err (LoopNoOutput (step_id exit))
  | port :: _ => Ok (inputs ++ [mkPort (step_id exit) (port_type port)])
  end.

Definition controller (s : Spec) : result LoopErr Step :=
  match pipeline_json (sp_Body s) with
  | None => Err (LoopEncode (sp_Loop s))
  | Some encoded =>
      inputs ← fold_result exit_input [] (ExitSteps s);
      Ok {| step_id := ControllerID (sp_Loop s) (sp_Iteration s + 1);
            step_name := sp_Loop s +:+ " iteration " +:+ dec_Z (sp_Iteration s + 1);
            step_plugin_ref := PluginRef; step_effect_class := sp_EffectClass s;
            step_inputs := inputs; step_outputs := []; step_capabilities := [];
            step_lease_scope := LEASE_SCOPE_UNSPECIFIED;
            step_config := list_to_map
              [(ConfigBody, encoded); (ConfigMaxIterations, dec_Z (sp_Max s));
               (ConfigExitCondition, sp_ExitCondition s); (ConfigLoop, sp_Loop s);
               (ConfigIteration, dec_Z (sp_Iteration s + 1))];
            step_image := ""; step_engine_type := ""; step_timeout_seconds := 0;
            step_file_inputs := []; step_secrets := [] |}
  end.

Definition body_edge (s : Spec) (e : Edge) : Edge :=
  mkEdge (BodyStepID s (from_step e)) (from_port e) (BodyStepID s (to_step e)) (to_port e).

(** [exit.GetOutputs()[0]]. *)
Definition exit_edge (s : Spec) (next : Step) (edges : list Edge) (exit : Step) : result LoopErr (list Edge) :=
  match step_outputs exit with
  | [] => Err GoPanic
  | port :: _ => Ok (edges ++ [mkEdge (BodyStepID s (step_id exit)) (port_name port) (step_id next) (step_id exit)])
  end.

Definition Fragment (s : Spec) : result LoopErr Pipeline :=
  if decide (sp_Max s < sp_Iteration s) then Err (LoopCeiling "no iteration to realise")
  else
    next ← controller s;
    edges ← fold_result (exit_edge s next) [] (ExitSteps s);
    Ok (mkPipeline (sp_Loop s +:+ "." +:+ dec_Z (sp_Iteration s))
          (map (λ st, with_id st (BodyStepID s (step_id st))) (pl_steps (sp_Body s)) ++ [next])
          (map (body_edge s) (pl_edges (sp_Body s)) ++ edges) []).

(** ** [iterate]: [internal/server/builtins.go] *)

Section Iterate.
Context `{Payloads, GenCodec}.
(** A value a condition can read, and how one output is read as one. *)
Context {V : Type} (readState : OutputRef → result string V).
(** What evaluating the condition at an iteration, a ceiling and a state says. *)
Context (cel_holds : string → Z → Z → gmap string V → result string bool).
Context (dialect : Dialect) (tenantID : string) (now : Z) (Error : DynErr → string).
(** The scheduler's [Graph], when the plane has one. *)
Context (graphs : option (DB → result string Pipeline)).

Record LoopRecord : Type := mkLoopRecord
  { lr_Loop : string; lr_Iteration : Z; lr_Of : Z; lr_StepID : string; lr_Reason : string;
    lr_State : option (gmap string V) }.
Context (enc_loop : LoopRecord → option string) (err_text : LoopErr → string).

Definition maxRunFragments : Z := 256.

Definition join_cause (cause : option LoopErr) (e : LoopErr) : LoopErr :=
  match cause with Some c => LoopJoined c e | None => e end.
Definition caused (cause : option LoopErr) : result LoopErr unit :=
  match cause with Some c => Err c | None => Ok tt end.

(** [recordLoop]: under the authored loop's id; the cause comes back. *)
Definition recordLoop (runID : string) (s : Spec) (kind step reason : string) (state : option (gmap string V))
    (cause : option LoopErr) : prog DB LoopErr unit := λ db,
  match enc_loop (mkLoopRecord (sp_Loop s) (sp_Iteration s) (sp_Max s) step reason state) with
  | None => (db, Err (join_cause cause (LoopEncode (sp_Loop s))))
  | Some payload =>
      match StoreAppend dialect tenantID (mkEvent runID (sp_Loop s) 0 0 kind payload now) db with
      | (db, Err e) => (db, Err (join_cause cause (LoopStore e)))
      | (db, Ok _) => (db, caused cause)
      end
  end.

Definition findOutput (refs : list OutputRef) (port : string) : option OutputRef :=
  List.find (λ r, bool_decide (out_port r = port)) refs.

(** The last recorded outputs of every step that succeeded. *)
Definition note_outputs (m : gmap string (list OutputRef)) (e : Event) : result LoopErr (gmap string (list OutputRef)) :=
  if decide (ev_Type e ≠ StepSucceeded) then Ok m
  else match UnmarshalStatus (ev_Payload e) with
       | None => Err (LoopRead (ev_StepID e))
       | Some status => Ok (<[ev_StepID e := js_Outputs status]> m)
       end.

Definition exit_state (previous : Spec) (outputs : gmap string (list OutputRef)) (state : gmap string V) (exit : Step)
    : result LoopErr (gmap string V) :=
  let id := BodyStepID previous (step_id exit) in
  match step_outputs exit with
  | [] => Err GoPanic
  | port :: _ =>
      match findOutput (default [] (outputs !! id)) (port_name port) with
      | None => Err (LoopProduced id (port_name port))
      | Some ref => match readState ref with
                    | Ok v => Ok (<[step_id exit := v]> state)
                    | Err why => Err (LoopRead why)
                    end
      end
  end.

Definition iterationState (runID : string) (s : Spec) (db : DB) : result LoopErr (gmap string V) :=
  let previous := At s (sp_Iteration s - 1) in
  match Replay tenantID runID db with
  | Err e => Err (LoopStore e)
  | Ok events =>
      outputs ← fold_result note_outputs ∅ events;
      fold_result (exit_state previous outputs) ∅ (ExitSteps previous)
  end.

Definition realise (runID stepID : string) (s : Spec) : prog DB LoopErr unit := λ db,
  match graphs with
  | None => (db, Err LoopNoGraph)
  | Some graph =>
      match Fragment s with
      | Err e => (db, Err e)
      | Ok fragment =>
          match graph db with
          | Err why => (db, Err (LoopGraph why))
          | Ok parent =>
              match Realise dialect tenantID maxRunFragments now (λ _, Ok (Some fragment)) Error runID stepID (Some parent) db with
              | (db, Ok _) => (db, Ok tt)
              | (db, Err e) => (db, Err (LoopSplice e))
              end
          end
      end
  end.

(** The pass the controller opens, or the ceiling. *)
Definition next_pass (runID : string) (st : Step) (s : Spec) : prog DB LoopErr unit :=
  if decide (sp_Max s < sp_Iteration s)
  then
    let reason := CeilingReason +:+ ": loop " +:+ quote (sp_Loop s) +:+ " ran its maximum of " +:+ dec_Z (sp_Max s)
                  +:+ " iterations without its exit condition holding" in
    _ ← recordLoop runID s EventLoopCeiling "" reason None None;
    pfail (LoopCeiling reason)
  else λ db,
    match realise runID (step_id st) s db with
    | (db, Err GoPanic) => (db, Err GoPanic)
    | (db, Err e) => recordLoop runID s EventLoopFailed "" (err_text e) None (Some e) db
    | (db, Ok _) => recordLoop runID s EventIterationStarted (ControllerID (sp_Loop s) (sp_Iteration s)) "" None None db
    end.

Definition iterate (runID : string) (st : Step) : prog DB LoopErr unit := λ db,
  match ParseSpec st with
  | Err e => (db, Err e)
  | Ok s =>
      if decide (sp_Iteration s ≤ 1) then next_pass runID st s db
      else
        match iterationState runID s db with
        | Err GoPanic => (db, Err GoPanic)
        | Err e => recordLoop runID s EventLoopFailed "" (err_text e) None (Some e) db
        | Ok state =>
            match recordLoop runID s EventIterationFinished (ControllerID (sp_Loop s) (sp_Iteration s - 1)) "" (Some state) None db with
            | (db, Err e) => (db, Err e)
            | (db, Ok _) =>
                match cel_holds (sp_ExitCondition s) (sp_Iteration s - 1) (sp_Max s) state with
                | Err why => recordLoop runID s EventLoopFailed "" why None (Some (LoopCondition why)) db
                | Ok true =>
                    recordLoop runID s EventExited ""
                      ("loop " +:+ quote (sp_Loop s) +:+ " exited after " +:+ dec_Z (sp_Iteration s - 1) +:+ " of "
                       +:+ dec_Z (sp_Max s) +:+ " iterations") (Some state) None db
                | Ok false => next_pass runID st s db
                end
            end
        end
  end.
End Iterate.
End Splice.

(** ** [loop.go]: the loop that runs its body itself *)

Record Node : Type := mkNode { nd_Subgraph : option Pipeline; nd_MaxIterations : Z; nd_ExitCondition : string }.

Inductive RunErr : Type :=
| RunTenantRequired
| RunNoStore
| RunNoBody
| RunUnbounded
| RunNoSubgraph
| RunSubgraph (e : BuildError)
| RunCondition (why : string)
| RunNames
| RunCeiling (reason : string)
| RunBody (why : string)
| RunRecord (kind : string)
| RunJoined (a b : RunErr).

(** [NewBudget]: a seed and what is left of it. *)
Record Budget : Type := mkBudget { bg_seed : Z; bg_remaining : Z }.
Definition NewBudget (n : Z) : Budget := if decide (n ≤ 0) then mkBudget 1 1 else mkBudget n n.
Definition spend (b : Budget) : option Budget :=
  if decide (bg_remaining b ≤ 0) then None else Some (mkBudget (bg_seed b) (bg_remaining b - 1)).

Definition unrolled (stepID : string) (n : Z) : string := stepID +:+ "#" +:+ dec_Z n.

Section Run.
(** The state a body returns, and everything a body or the store may change. *)
Context {V W : Type}.
Abbreviation St := (gmap string V).
(** One iteration: its number, its step id, the state it starts from. It may
    run loops of its own, which spend from the same budget. *)
Context (body : Z → string → option St → Budget * W → (Budget * W) * result string (option St)).
(** The condition at an iteration, a ceiling and a state; the store's append. *)
Context (holds : Z → Z → St → result string bool).
Context (append : Event → W → W * bool) (now : Z).

(** A body that returned nothing is asked about as an empty state. *)
Definition celState (s : option St) : St := default ∅ s.

(** What a loop writes: [Record]. *)
Record Entry : Type := mkEntry
  { en_kind : string; en_step : string; en_Loop : string; en_Iteration : Z; en_Of : Z; en_StepID : string;
    en_Reason : string; en_State : option St }.
Context (enc_entry : Entry → option string).

Record Looping : Type := mkLooping { lo_budget : Budget; lo_world : W; lo_log : list Entry }.

Record Result : Type := mkResult { rs_Iterations : Z; rs_Exited : bool; rs_State : option St }.

(** [Loop.New]. *)
Definition NewLoop (cel_compile : string → result string unit) (node : Node) (tenant : string) (store has_body : bool)
    (budget : Z) : result RunErr Z :=
  if decide (tenant = "") then Err RunTenantRequired
  else if negb store then Err RunNoStore
  else if negb has_body then Err RunNoBody
  else if decide (nd_MaxIterations node ≤ 0) then Err RunUnbounded
  else match nd_Subgraph node with
       | None => Err RunNoSubgraph
       | Some g =>
           match Build (Some g) with
           | Err e => Err (RunSubgraph e)
           | Ok _ =>
               match NewCondition cel_compile (nd_ExitCondition node) with
               | Err _ => Err (RunCondition (nd_ExitCondition node))
               | Ok _ => Ok (if decide (budget ≤ 0) then nd_MaxIterations node else budget)
               end
           end
       end.

Context (max : Z) (runID stepID : string).

Definition write (e : Entry) (l : Looping) : Looping * option RunErr :=
  match enc_entry e with
  | None => (l, Some (RunRecord (en_kind e)))
  | Some payload =>
      match append (mkEvent runID (en_step e) 0 0 (en_kind e) payload now) (lo_world l) with
      | (w, true) => (mkLooping (lo_budget l) w (lo_log l ++ [e]), None)
      | (w, false) => (mkLooping (lo_budget l) w (lo_log l), Some (RunRecord (en_kind e)))
      end
  end.

Definition ceiling (n : Z) (reason : string) (l : Looping) : Looping * option RunErr :=
  match write (mkEntry EventLoopCeiling stepID stepID n max "" reason None) l with
  | (l, Some e) => (l, Some e)
  | (l, None) => (l, Some (RunCeiling reason))
  end.

Definition loop_fail (n : Z) (reason : string) (cause : RunErr) (l : Looping) : Looping * option RunErr :=
  match write (mkEntry EventLoopFailed stepID stepID n max "" reason None) l with
  | (l, Some e) => (l, Some (RunJoined cause e))
  | (l, None) => (l, Some cause)
  end.

Definition spent_reason (seed n : Z) : string :=
  CeilingReason +:+ ": the nest's total iteration budget of " +:+ dec_Z seed +:+ " is spent, so loop "
  +:+ quote stepID +:+ " stopped after " +:+ dec_Z n +:+ " of its " +:+ dec_Z max +:+ " iterations".
Definition ran_out_reason : string :=
  CeilingReason +:+ ": loop " +:+ quote stepID +:+ " ran its maximum of " +:+ dec_Z max
  +:+ " iterations without its exit condition holding".
Definition exit_reason (n : Z) : string :=
  "loop " +:+ quote stepID +:+ " exited after " +:+ dec_Z n +:+ " of " +:+ dec_Z max +:+ " iterations".

Definition started (n : Z) : Entry := mkEntry EventIterationStarted (unrolled stepID n) stepID n max (unrolled stepID n) "" None.
Definition finished (n : Z) (s : option St) : Entry :=
  mkEntry EventIterationFinished (unrolled stepID n) stepID n max (unrolled stepID n) "" s.
Definition exited (n : Z) (s : option St) : Entry := mkEntry EventExited stepID stepID n max "" (exit_reason n) s.

(** [for n := 1; n <= MaxIterations; n++], with [more] iterations to go. *)
Fixpoint run_loop (more : nat) (n : Z) (res : Result) (l : Looping) : Looping * Result * option RunErr :=
  match more with
  | O => let '(l, e) := ceiling (rs_Iterations res) ran_out_reason l in (l, res, e)
  | S more =>
      match spend (lo_budget l) with
      | None =>
          let '(l, e) := ceiling (rs_Iterations res) (spent_reason (bg_seed (lo_budget l)) (rs_Iterations res)) l in
          (l, res, e)
      | Some budget =>
          match write (started n) (mkLooping budget (lo_world l) (lo_log l)) with
          | (l, Some e) => (l, res, Some e)
          | (l, None) =>
              let '((budget, w), r) := body n (unrolled stepID n) (rs_State res) (lo_budget l, lo_world l) in
              let l := mkLooping budget w (lo_log l) in
              let res := mkResult n (rs_Exited res) (rs_State res) in
              match r with
              | Err why =>
                  let '(l, e) := loop_fail n ("loop " +:+ quote stepID +:+ ": iteration " +:+ dec_Z n +:+ " failed: " +:+ why)
                                   (RunBody why) l in (l, res, e)
              | Ok next =>
                  let res := mkResult n (rs_Exited res) next in
                  match write (finished n next) l with
                  | (l, Some e) => (l, res, Some e)
                  | (l, None) =>
                      match holds n max (celState next) with
                      | Err why => let '(l, e) := loop_fail n why (RunCondition why) l in (l, res, e)
                      | Ok true =>
                          let res := mkResult n true next in
                          let '(l, e) := write (exited n next) l in (l, res, e)
                      | Ok false => run_loop more (n + 1) res l
                      end
                  end
              end
          end
      end
  end.

(** [Run]; the budget is the nest's, or a fresh one of [own]. *)
Definition Run (carried : option Budget) (own : Z) (state : option St) (w : W) : Looping * Result * option RunErr :=
  let budget := default (NewBudget own) carried in
  let res := mkResult 0 false state in
  if decide (runID = "" ∨ stepID = "") then (mkLooping budget w [], mkResult 0 false None, Some RunNames)
  else run_loop (Z.to_nat max) 1 res (mkLooping budget w []).
End Run.
