(* ===== verification/LoopFacts.v ===== *)
(** * Loops are bounded, resume where they were, and add a graph to the graph *)

From S2P Require Import Prelude Bytes Proto Dag DagFacts RunStore Dynamic DynamicFacts Sched Loop.
From Stdlib Require Import Ascii DecimalString DecimalN.

(** ** Numbers in a step's configuration *)

Lemma string_all_substring P n m s : string_all P s = true → string_all P (String.substring n m s) = true.
Proof.
  revert n m. induction s as [|c s IH]; intros n m; [by destruct n, m|]. simpl. intros [Hc Hs]%andb_true_iff.
  destruct n; [destruct m; [done|]; simpl; by rewrite Hc, IH|by apply IH].
Qed.

(** No encoding of a space begins with a digit. *)
Lemma space_not_digit e : e ∈ space_encodings → ∃ c r, e = String c r ∧ is_digit c = false.
Proof.
  intros He. assert (Hall : forallb (λ e, match e with String c _ => negb (is_digit c) | EmptyString => false end)
                             space_encodings = true) by (vm_compute; reflexivity).
  rewrite forallb_forall in Hall. specialize (Hall e (proj1 (list_elem_of_In _ _) He)).
  destruct e as [|c r]; [done|]. exists c, r. split; [done|]. by apply negb_true_iff.
Qed.

Lemma trim_with_none cut fuel s : (∀ e, e ∈ space_encodings → cut s e = None) → trim_with cut fuel s = s.
Proof.
  intros Hcut. destruct fuel as [|fuel]; [done|]. cbn [trim_with].
  assert (omap (cut s) space_encodings = []) as ->; [|done].
  revert Hcut. generalize space_encodings. intros l Hcut. induction l as [|e l IH]; [done|].
  simpl. rewrite (Hcut e) by by left. apply IH. intros e' He'. apply Hcut. by right.
Qed.

Lemma has_prefix_head c p s : has_prefix (String c p) s = true → ∃ r, s = String c r.
Proof. destruct s as [|d s]; [done|]. simpl. intros [Heq%Ascii.eqb_eq _]%andb_true_iff. subst. by eexists. Qed.

Lemma TrimSpace_digits s : string_all is_digit s = true → TrimSpace s = s.
Proof.
  intros Hs. unfold TrimSpace. rewrite (trim_with_none cut_prefix).
  - apply trim_with_none. intros e He. destruct (space_not_digit e He) as (c & r & -> & Hc). unfold cut_suffix.
    destruct (bool_decide _ && bool_decide _) eqn:Hb; [|done]. exfalso.
    apply andb_true_iff in Hb as [_ Hb%bool_decide_eq_true].
    pose proof (string_all_substring is_digit (String.length s - String.length (String c r)) (String.length (String c r)) s Hs) as Hall.
    rewrite Hb in Hall. simpl in Hall. by rewrite Hc in Hall.
  - intros e He. destruct (space_not_digit e He) as (c & r & -> & Hc). unfold cut_prefix.
    destruct (has_prefix (String c r) s) eqn:Hp; [|done]. exfalso.
    apply has_prefix_head in Hp as [q ->]. simpl in Hs. by rewrite Hc in Hs.
Qed.

Lemma TrimSpace_dec z : 0 ≤ z → TrimSpace (dec_Z z) = dec_Z z.
Proof. intros Hz. rewrite dec_Z_nonneg by done. apply TrimSpace_digits, dec_N_digits. Qed.

Lemma dec_N_nonempty n : dec_N n ≠ "".
Proof.
  unfold dec_N. intros He. pose proof (NilZero.usu (N.to_uint n) (dec_N_nonnil n)) as Hu. by rewrite He in Hu.
Qed.

Lemma Atoi_dec z : 0 ≤ z < two63 → Atoi (dec_Z z) = Some z.
Proof.
  intros Hz. rewrite dec_Z_nonneg by lia. unfold Atoi.
  pose proof (dec_N_digits (Z.to_N z)) as Hd. pose proof (dec_N_nonempty (Z.to_N z)) as Hne.
  assert (Hu : NilZero.uint_of_string (dec_N (Z.to_N z)) = Some (N.to_uint (Z.to_N z))) by (apply NilZero.usu, dec_N_nonnil).
  destruct (dec_N (Z.to_N z)) as [|c r]; [done|]. simpl in Hd. apply andb_true_iff in Hd as [Hc _].
  assert (Hsep : ∀ d, is_digit d = false → Ascii.eqb c d = false).
  { intros d Hd. apply Ascii.eqb_neq. intros ->. congruence. }
  rewrite (Hsep (ascii_of_N 45) eq_refl), (Hsep (ascii_of_N 43) eq_refl), Hu. simpl.
  rewrite DecimalN.Unsigned.of_to, Z2N.id by lia. unfold two63 in *. by rewrite decide_True by lia.
Qed.

Lemma dec_Z_all_digits z : 0 ≤ z → string_all is_digit (dec_Z z) = true.
Proof. intros Hz. rewrite dec_Z_nonneg by done. apply dec_N_digits. Qed.

Section Splice.
Context (cel_compile : string → result string unit).
Context (pipeline_json : Pipeline → option string) (json_pipeline : string → result string Pipeline).
Abbreviation parse := (ParseSpec cel_compile json_pipeline).

(** What a parsed loop is. *)
Record parsed (s : Spec) : Prop := mkParsed
  { ps_iteration : 1 ≤ sp_Iteration s;
    ps_max : 0 < sp_Max s < two63;
    ps_condition : NewCondition cel_compile (sp_ExitCondition s) = Ok (sp_ExitCondition s);
    ps_steps : pl_steps (sp_Body s) ≠ [];
    ps_graph : is_ok (Build (Some (sp_Body s))) = true;
    ps_types : TypeCheck (Some (sp_Body s)) = [] }.

Lemma Atoi_range s n : Atoi s = Some n → - two63 ≤ n < two63.
Proof.
  unfold Atoi. destruct s as [|c r]; [done|].
  assert (Hkeep : ∀ z k, (if decide (- two63 ≤ z < two63) then Some z else None) = Some k → - two63 ≤ k < two63).
  { intros z k. case_decide; [by intros [= <-]|done]. }
  repeat case_match; try done; intros Hs; repeat (apply bind_Some in Hs as (? & ? & Hs)); by eapply Hkeep.
Qed.

Lemma ParseBody_ok raw body :
  ParseBody json_pipeline raw = Ok body →
  pl_steps body ≠ [] ∧ is_ok (Build (Some body)) = true ∧ TypeCheck (Some body) = [].
Proof.
  unfold ParseBody. case_decide; [done|]. destruct (json_pipeline raw) as [b|]; [|done]. case_decide; [done|].
  destruct (Build (Some b)) eqn:Eb; [|done]. destruct (TypeCheck (Some b)) eqn:Et; [|done].
  intros [= <-]. by rewrite Eb.
Qed.

Lemma ParseSpec_ok st s : parse st = Ok s → parsed s.
Proof.
  unfold ParseSpec. set (loop := if decide _ then step_id st else _).
  match goal with |- mbind _ ?m = _ → _ => assert (Hit : ∀ n, m = Ok n → 1 ≤ n) end.
  { intros n. case_decide; [by intros [= <-]|]. destruct (Atoi _); [|done]. case_decide; [done|]. intros [= <-]. lia. }
  match goal with |- mbind _ ?m = _ → _ => destruct m as [n|e] eqn:En end; cbn [mbind result_bind]; [|done].
  specialize (Hit n eq_refl). clearbody loop. destruct (Atoi (TrimSpace (config_or st ConfigMaxIterations))) as [ceil|] eqn:Ec; [|done]. apply Atoi_range in Ec.
  clear En. destruct (decide (ceil ≤ 0)); [done|]. destruct (NewCondition _ _) as [cond|] eqn:Ek; cbn [mbind result_bind]; [|done].
  destruct (ParseBody _ _) as [body|] eqn:Eb; [|done]. intros [= <-].
  apply ParseBody_ok in Eb as (H1 & H2 & H3). split; simpl; try done; [lia|].
  revert Ek. unfold NewCondition. case_decide; [done|]. destruct (cel_compile (config_or st ConfigExitCondition)) eqn:Ex; [|done].
  intros [= <-]. by rewrite decide_False, Ex by done.
Qed.

(** *** The next controller *)

Definition json_laws : Prop :=
  ∀ p b, pipeline_json p = Some b → json_pipeline b = Ok p ∧ TrimSpace b ≠ "".

(** The controller a pass ends in, read back, is the same loop one iteration
    on: same name, body, ceiling, condition and effect class, so a chain of
    controllers counts up to the authored ceiling and nothing in it can move
    the ceiling. *)
Theorem controller_resumes_the_loop (st next : Step) (s : Spec) :
  json_laws → parse st = Ok s →
  TrimSpace (sp_Loop s) = sp_Loop s → sp_Loop s ≠ "" → sp_Iteration s + 1 < two63 →
  controller pipeline_json s = Ok next → parse next = Ok (At s (sp_Iteration s + 1)).
Proof.
  intros Hjson Hp Htrim Hne Hlt. apply ParseSpec_ok in Hp as [Hit Hmax Hcond Hsteps Hgraph Htypes]. unfold controller.
  destruct (pipeline_json (sp_Body s)) as [b|] eqn:Eb; [|done]. destruct (Hjson _ _ Eb) as [Hb Hbne].
  destruct (fold_result exit_input [] (ExitSteps s)) as [inputs|]; [|done]. intros [= <-].
  set (cfg := <[ConfigBody := b]> _ : gmap string string).
  assert (Hget : cfg !! ConfigBody = Some b ∧ cfg !! ConfigMaxIterations = Some (dec_Z (sp_Max s))
    ∧ cfg !! ConfigExitCondition = Some (sp_ExitCondition s) ∧ cfg !! ConfigLoop = Some (sp_Loop s)
    ∧ cfg !! ConfigIteration = Some (dec_Z (sp_Iteration s + 1))) by done. clearbody cfg.
  destruct Hget as (G1 & G2 & G3 & G4 & G5). unfold ParseSpec, config_or. cbn [step_config step_id step_effect_class].
  rewrite G1, G2, G3, G4, G5. cbn [default from_option id]. rewrite Htrim, !TrimSpace_dec by lia.
  rewrite (decide_False (P := sp_Loop s = "")) by done.
  rewrite decide_False by (intros He; destruct (dec_N_nonempty (Z.to_N (sp_Iteration s + 1))); rewrite <-He; by rewrite dec_Z_nonneg by lia).
  rewrite !Atoi_dec by lia. rewrite decide_False by lia. cbn [mbind result_bind]. rewrite decide_False by lia.
  rewrite Hcond. cbn [mbind result_bind]. unfold ParseBody. rewrite decide_False, Hb, decide_False by done.
  destruct (Build (Some (sp_Body s))); [|done]. by rewrite Htypes.
Qed.

(** *** The fragment *)

Lemma string_app_eq_l (a x y : string) : a +:+ x = a +:+ y → x = y.
Proof. induction a as [|c a IH]; simpl; [done|]. intros [= H]. by apply IH. Qed.

#[local] Instance BodyStepID_inj s : Inj (=) (=) (BodyStepID s).
Proof. intros x y H. unfold BodyStepID in H. by do 4 apply string_app_eq_l in H. Qed.

Lemma BodyStepID_nonempty s x : BodyStepID s x ≠ "".
Proof. unfold BodyStepID. by destruct (sp_Loop s). Qed.

(** A body step is never called what the next controller is. *)
Lemma BodyStepID_controller s x : 1 ≤ sp_Iteration s → BodyStepID s x ≠ ControllerID (sp_Loop s) (sp_Iteration s + 1).
Proof.
  intros Hit H. unfold BodyStepID, ControllerID in H. rewrite decide_False in H by lia.
  do 2 apply string_app_eq_l in H. pose proof (dec_Z_all_digits (sp_Iteration s + 1) ltac:(lia)) as Hd.
  rewrite <-H in Hd. rewrite !string_all_app in Hd. apply andb_true_iff in Hd as [_ Hd]. by simpl in Hd.
Qed.

Lemma exit_edges_spec s next exits edges0 edges :
  fold_result (exit_edge s next) edges0 exits = Ok edges →
  ∀ e, e ∈ edges → e ∈ edges0 ∨ ∃ exit, exit ∈ exits ∧ from_step e = BodyStepID s (step_id exit) ∧ to_step e = step_id next.
Proof.
  intros Hf. refine (fold_result_inv (λ pre edges, ∀ e, e ∈ edges → e ∈ edges0 ∨
    ∃ exit, exit ∈ pre ∧ from_step e = BodyStepID s (step_id exit) ∧ to_step e = step_id next) _ _ _ _ _ _ Hf); [auto|].
  intros pre exit es es' IH. unfold exit_edge. destruct (step_outputs exit) as [|port ps]; [done|]. intros [= <-] e.
  rewrite elem_of_app, list_elem_of_singleton. intros [He| ->].
  - destruct (IH e He) as [|(x & Hx & ? & ?)]; [by left|right]. exists x. rewrite elem_of_app. auto.
  - right. exists exit. rewrite elem_of_app, list_elem_of_singleton. auto.
Qed.

(** What an iteration adds to a run is a graph whenever the loop parsed: its
    step ids are distinct and non-empty, its edges join its own steps, and it
    has no cycle - the body under this iteration's ids, closed by the next
    controller, which every exit of the body leads to and nothing follows. *)
Theorem fragment_is_a_graph (st : Step) (s : Spec) (f : Pipeline) :
  parse st = Ok s → Fragment pipeline_json s = Ok f → is_ok (Build (Some f)) = true.
Proof.
  intros Hp Hf. apply ParseSpec_ok in Hp as [Hit _ _ _ Hgraph _].
  apply build_ok_elim in Hgraph as (Hne & Hnd & Hknown & Hac).
  unfold Fragment in Hf. case_decide; [done|]. destruct (controller pipeline_json s) as [next|] eqn:En; [|done].
  cbn [mbind result_bind] in Hf.
  destruct (fold_result (exit_edge s next) [] (ExitSteps s)) as [edges|] eqn:Ee; [|done]. injection Hf as <-.
  assert (Hid : step_id next = ControllerID (sp_Loop s) (sp_Iteration s + 1)).
  { revert En. unfold controller. destruct (pipeline_json _); [|done]. destruct (fold_result exit_input [] _); [|done].
    by intros [= <-]. }
  pose proof (exit_edges_spec _ _ _ _ _ Ee) as Hedges. clear En Ee.
  set (f := mkPipeline _ _ _ _).
  assert (Hids : step_ids f = map (BodyStepID s) (step_ids (sp_Body s)) ++ [step_id next]).
  { unfold step_ids, f. cbn [pl_steps]. rewrite map_app, !map_map. done. }
  assert (Hno : ∀ x, BodyStepID s x ≠ step_id next) by (intros x; rewrite Hid; by apply BodyStepID_controller).
  assert (Hrel : ∀ x y, edge_rel f x y →
    (∃ a b, edge_rel (sp_Body s) a b ∧ x = BodyStepID s a ∧ y = BodyStepID s b)
    ∨ (∃ a, a ∈ step_ids (sp_Body s) ∧ x = BodyStepID s a ∧ y = step_id next)).
  { intros x y (e & He & <- & <-). unfold f in He. cbn [pl_edges] in He. apply elem_of_app in He as [He|He].
    - apply list_elem_of_In, in_map_iff in He as (e0 & <- & He0). left. exists (from_step e0), (to_step e0).
      split; [|done]. exists e0. split; [by apply list_elem_of_In|done].
    - right. destruct (Hedges e He) as [He0|(exit & Hx & -> & ->)]; [by apply not_elem_of_nil in He0|].
      exists (step_id exit). split; [|done]. apply list_elem_of_filter in Hx as [_ Hx]. by apply (list_elem_of_fmap_2 step_id). }
  apply build_ok_intro. rewrite Hids. split_and!.
  - rewrite elem_of_app, list_elem_of_singleton. intros [Hx|Hx].
    + apply list_elem_of_In, in_map_iff in Hx as (y & Hy & _). by apply BodyStepID_nonempty in Hy.
    + rewrite Hid in Hx. unfold ControllerID in Hx. rewrite decide_False in Hx by lia. by destruct (sp_Loop s).
  - apply NoDup_app. split; [by apply (NoDup_fmap_2 (BodyStepID s))|]. split; [|apply NoDup_singleton].
    intros x Hx Hn. apply list_elem_of_singleton in Hn as ->. apply list_elem_of_In, in_map_iff in Hx as (y & Hy & _). by apply (Hno y).
  - intros x y [(a & b & Hab & -> & ->)|(a & Ha & -> & ->)]%Hrel; rewrite !elem_of_app, !list_elem_of_singleton.
    + apply Hknown in Hab as [Ha Hb]. split; left; by apply (list_elem_of_fmap_2 (BodyStepID s)).
    + split; [left; by apply (list_elem_of_fmap_2 (BodyStepID s))|by right].
  - assert (Htc : ∀ x y, tc (edge_rel f) x y → x ≠ step_id next ∧
      (y = step_id next ∨ ∃ a b, x = BodyStepID s a ∧ y = BodyStepID s b ∧ tc (edge_rel (sp_Body s)) a b)).
    { intros x y Hxy. induction Hxy as [x y Hxy|x y z Hxy Hyz [Hy IH]].
      - apply Hrel in Hxy as [(a & b & Hab & -> & ->)|(a & _ & -> & ->)]; (split; [apply Hno|]); [right|by left].
        exists a, b. split; [done|]. split; [done|by apply tc_once].
      - apply Hrel in Hxy as [(a & b & Hab & -> & ->)|(a & _ & -> & ->)]; [|done]. split; [apply Hno|].
        destruct IH as [->|(a' & c & Ha & -> & Htc)]; [by left|right]. apply (inj (BodyStepID s)) in Ha as ->.
        exists a, c. split; [done|]. split; [done|by eapply tc_l]. }
    intros x Hx. destruct (Htc x x Hx) as [Hn [|(a & b & Ha & Hb & Hab)]]; [done|].
    rewrite Ha in Hb. apply (inj (BodyStepID s)) in Hb as ->. by apply (Hac b).
Qed.

(** ** One decision per controller *)

Section Iterate.
Context `{Payloads, GenCodec} {V : Type} (readState : OutputRef → result string V).
Context (cel_holds : string → Z → Z → gmap string V → result string bool).
Context (dialect : Dialect) (tenantID : string) (now : Z) (Error : DynErr → string).
Context (graphs : option (DB → result string Pipeline)).
Context (enc_loop : @LoopRecord V → option string) (err_text : LoopErr → string).

Abbreviation step_iterate := (iterate cel_compile pipeline_json json_pipeline readState cel_holds dialect tenantID now Error graphs
  enc_loop err_text).
Abbreviation pass := (next_pass pipeline_json dialect tenantID now Error graphs enc_loop err_text).
Abbreviation open_pass := (realise pipeline_json dialect tenantID now Error graphs).

Lemma next_pass_ok runID st s db db' :
  pass runID st s db = (db', Ok tt) → sp_Iteration s ≤ sp_Max s ∧ ∃ db1, open_pass runID (step_id st) s db = (db1, Ok tt).
Proof.
  unfold next_pass. case_decide as Hmax.
  - unfold mbind, prog_bind. case_match. case_match; [|done]. by unfold pfail.
  - destruct (open_pass runID (step_id st) s db) as [db1 [[]|e]].
    + intros _. split; [lia|by exists db1].
    + destruct e; try done; unfold recordLoop; destruct (enc_loop _); try done; destruct (StoreAppend _ _ _ _) as [db2 []]; done.
Qed.

(** A controller succeeds in one of two ways, and only those: its exit
    condition, asked about the pass that just finished, held; or it opened one
    more pass, numbered at most the ceiling, and that pass was spliced into the
    run. So a loop that has used its ceiling without the condition holding
    never succeeds, and an answer nobody could read, evaluate or record is a
    failure and not another pass. *)
Theorem controller_exits_or_opens_a_pass (runID : string) (st : Step) (s : Spec) (db db' : DB) :
  parse st = Ok s → step_iterate runID st db = (db', Ok tt) →
  (1 < sp_Iteration s ∧ ∃ state,
     iterationState readState tenantID runID s db = Ok state
     ∧ cel_holds (sp_ExitCondition s) (sp_Iteration s - 1) (sp_Max s) state = Ok true)
  ∨ (sp_Iteration s ≤ sp_Max s ∧ (∃ db1 db2, open_pass runID (step_id st) s db1 = (db2, Ok tt))
     ∧ (1 < sp_Iteration s → ∃ state, iterationState readState tenantID runID s db = Ok state
          ∧ cel_holds (sp_ExitCondition s) (sp_Iteration s - 1) (sp_Max s) state = Ok false)).
Proof.
  intros Hp. unfold iterate. rewrite Hp. case_decide as H1.
  { intros Hn. apply next_pass_ok in Hn as (Hmax & db1 & Ho). right. split; [done|]. split; [by eexists _, _|lia]. }
  assert (Hrec : ∀ kind step reason state c db, (recordLoop (V := V) dialect tenantID now enc_loop runID s kind step reason state (Some c) db).2 ≠ Ok tt).
  { intros. unfold recordLoop. destruct (enc_loop _); [|done]. by destruct (StoreAppend _ _ _ _) as [? []]. }
  destruct (iterationState _ _ _ _ _) as [state|e] eqn:Es.
  2:{ intros Hr. destruct e; try done; by edestruct Hrec; rewrite Hr. }
  destruct (recordLoop (V := V) _ _ _ _ _ _ _ _ _ _ _ _) as [db1 [[]|e]]; [|done].
  destruct (cel_holds _ _ _ _) as [[]|why] eqn:Eh.
  - intros _. left. split; [lia|by exists state].
  - intros Hn. apply next_pass_ok in Hn as (Hmax & db2 & Ho). right. split; [done|]. split; [by eexists _, _|].
    intros _. by exists state.
  - intros Hr. by edestruct Hrec; rewrite Hr.
Qed.
End Iterate.
End Splice.

(** ** The loop that runs its body *)

Section Run.
Context {V W : Type}.
Abbreviation St := (gmap string V).
Context (body : Z → string → option St → Budget * W → (Budget * W) * result string (option St)).
Context (holds : Z → Z → St → result string bool).
Context (append : Event → W → W * bool) (now : Z) (enc_entry : @Entry V → option string).
Context (max : Z) (runID stepID : string).

Abbreviation go_loop := (run_loop body holds append now enc_entry max runID stepID).
Abbreviation go_run := (Run body holds append now enc_entry max runID stepID).

Lemma write_budget e (l l' : @Looping V W) r : write append now enc_entry runID e l = (l', r) → lo_budget l' = lo_budget l.
Proof.
  unfold write. destruct (enc_entry e); [|by intros [= <- <-]]. by destruct (append _ _) as [w []]; intros [= <- <-].
Qed.

Lemma ceiling_budget n reason (l l' : @Looping V W) r :
  ceiling append now enc_entry max runID stepID n reason l = (l', r) → lo_budget l' = lo_budget l ∧ r ≠ None.
Proof.
  unfold ceiling. destruct (write _ _ _ _ _ _) as [l1 [e|]] eqn:Ew; intros [= <- <-]; split; try done; by eapply write_budget.
Qed.

Lemma fail_budget n reason cause (l l' : @Looping V W) r :
  loop_fail append now enc_entry max runID stepID n reason cause l = (l', r) → lo_budget l' = lo_budget l ∧ r ≠ None.
Proof.
  unfold loop_fail. destruct (write _ _ _ _ _ _) as [l1 [e|]] eqn:Ew; intros [= <- <-]; split; try done; by eapply write_budget.
Qed.

(** What a body may do to the nest's budget: spend from it. *)
Definition only_spends (c : Budget * W → (Budget * W) * result string (option St)) : Prop :=
  ∀ b w b' w' r, c (b, w) = ((b', w'), r) → 0 ≤ bg_remaining b →
    bg_seed b' = bg_seed b ∧ 0 ≤ bg_remaining b' ≤ bg_remaining b.

Lemma run_loop_bounded more : ∀ n res (l l' : @Looping V W) res' err,
  (∀ n id s, only_spends (body n id s)) → 0 ≤ bg_remaining (lo_budget l) → rs_Iterations res = n - 1 →
  go_loop more n res l = (l', res', err) →
  bg_seed (lo_budget l') = bg_seed (lo_budget l) ∧ 0 ≤ bg_remaining (lo_budget l')
  ∧ bg_remaining (lo_budget l') + (rs_Iterations res' - (n - 1)) ≤ bg_remaining (lo_budget l)
  ∧ n - 1 ≤ rs_Iterations res' ≤ n - 1 + Z.of_nat more.
Proof.
  induction more as [|more IH]; intros n res l l' res' err Hbody Hpos Hit; cbn [run_loop].
  { destruct (ceiling _ _ _ _ _ _ _ _ _) as [l1 e] eqn:Ec. apply ceiling_budget in Ec as [Hb _].
    intros [= <- <- <-]. rewrite Hb, Hit. lia. }
  unfold spend. case_decide.
  { destruct (ceiling _ _ _ _ _ _ _ _ _) as [l1 e] eqn:Ec. apply ceiling_budget in Ec as [Hb _].
    intros [= <- <- <-]. rewrite Hb, Hit. lia. }
  destruct (write _ _ _ _ (started _ _ _) _) as [l1 [e|]] eqn:E1; apply write_budget in E1; cbn [lo_budget] in E1.
  { intros [= <- <- <-]. rewrite E1, Hit. cbn [bg_seed bg_remaining]. lia. }
  destruct (body n _ _ _) as [[b w] r] eqn:Eb.
  destruct (Hbody _ _ _ _ _ _ _ _ Eb) as [Hseed Hrem]; [rewrite E1; cbn [bg_remaining]; lia|].
  rewrite E1 in Hseed, Hrem. cbn [bg_seed bg_remaining] in Hseed, Hrem. destruct r as [next|why].
  2:{ destruct (loop_fail _ _ _ _ _ _ _ _ _ _) as [l2 e] eqn:Ef. apply fail_budget in Ef as [Hb _]. cbn [lo_budget] in Hb.
      intros [= <- <- <-]. rewrite Hb. cbn [rs_Iterations]. lia. }
  destruct (write _ _ _ _ (finished _ _ _ _) _) as [l2 [e|]] eqn:E2; apply write_budget in E2; cbn [lo_budget] in E2.
  { intros [= <- <- <-]. rewrite E2. cbn [rs_Iterations]. lia. }
  destruct (holds _ _ _) as [[]|why].
  - destruct (write _ _ _ _ (exited _ _ _ _) _) as [l3 e] eqn:E3. apply write_budget in E3. intros [= <- <- <-].
    rewrite E3, E2. cbn [rs_Iterations]. lia.
  - intros Hr. apply IH in Hr as (Hs & H0 & Hb & Hi); [|done|rewrite E2; lia|cbn [rs_Iterations]; lia].
    rewrite E2 in Hs, Hb. split; [congruence|]. lia.
  - destruct (loop_fail _ _ _ _ _ _ _ _ _ _) as [l3 e] eqn:Ef. apply fail_budget in Ef as [Hb _]. intros [= <- <- <-].
    rewrite Hb, E2. cbn [rs_Iterations]. lia.
Qed.

(** A loop runs at most its ceiling, and the iterations of a whole nest
    together are bounded by the seed of the outermost loop. If every body only
    spends from the budget it is handed, so does the loop that runs it - which
    is what lets a body be another loop - and the loop's own iterations come
    out of that same budget. *)
Theorem nest_spends_one_budget (carried : option Budget) (own : Z) (state : option St) (w : W)
    (l' : @Looping V W) (res : @Result V) (err : option RunErr) :
  (∀ n id s, only_spends (body n id s)) → 0 < max →
  0 ≤ bg_remaining (default (NewBudget own) carried) →
  go_run carried own state w = (l', res, err) →
  let budget := default (NewBudget own) carried in
  bg_seed (lo_budget l') = bg_seed budget
  ∧ 0 ≤ bg_remaining (lo_budget l')
  ∧ bg_remaining (lo_budget l') + rs_Iterations res ≤ bg_remaining budget
  ∧ 0 ≤ rs_Iterations res ≤ max.
Proof.
  intros Hbody Hmax Hpos Hr budget. unfold Run in Hr. fold budget in Hr, Hpos. case_decide.
  { injection Hr as <- <- <-. cbn [lo_budget rs_Iterations]. lia. }
  apply run_loop_bounded in Hr as (H1 & H2 & H3 & H4); [|done|done|done]. cbn [lo_budget] in *. split; [done|]. lia.
Qed.

(** *** What a run leaves in the log *)

Fixpoint rounds (n : Z) (states : list (option St)) : list (@Entry V) :=
  match states with
  | [] => []
  | s :: states => started max stepID n :: finished max stepID n s :: rounds (n + 1) states
  end.

Definition marker (kind : string) (n : Z) (reason : string) : @Entry V := mkEntry kind stepID stepID n max "" reason None.

(** How a run that has passed [k - 1] iterations ends, from the state [s] it
    is in: the entries it adds, the result and the error. *)
Inductive ends (k : Z) (left : Z) (s : option St) : list (@Entry V) → @Result V → option RunErr → Prop :=
| ends_exit next :
    holds k max (celState next) = Ok true →
    ends k left s [started max stepID k; finished max stepID k next; exited max stepID k next] (mkResult k true next) None
| ends_unanswered next why :
    holds k max (celState next) = Err why →
    ends k left s [started max stepID k; finished max stepID k next; marker EventLoopFailed k why]
      (mkResult k false next) (Some (RunCondition why))
| ends_body why reason :
    ends k left s [started max stepID k; marker EventLoopFailed k reason] (mkResult k false s) (Some (RunBody why))
| ends_ceiling reason :
    k = max + 1 ∨ left ≤ 0 →
    ends k left s [marker EventLoopCeiling (k - 1) reason] (mkResult (k - 1) false s) (Some (RunCeiling reason)).

Definition all_recorded : Prop := (∀ e w, (append e w).2 = true) ∧ ∀ e, is_Some (enc_entry e).

Lemma write_ok e (l : @Looping V W) : all_recorded →
  ∃ w, write append now enc_entry runID e l = (mkLooping (lo_budget l) w (lo_log l ++ [e]), None).
Proof.
  intros [Ha He]. unfold write. destruct (He e) as [p ->]. specialize (Ha (mkEvent runID (en_step e) 0 0 (en_kind e) p now) (lo_world l)).
  destruct (append _ _) as [w b]. simpl in Ha. subst b. by exists w.
Qed.

Lemma run_loop_log more : all_recorded → ∀ n res (l l' : @Looping V W) res' err,
  rs_Iterations res = n - 1 → rs_Exited res = false → max = n - 1 + Z.of_nat more →
  go_loop more n res l = (l', res', err) →
  ∃ states rest, lo_log l' = lo_log l ++ rounds n states ++ rest
    ∧ (∀ i s, states !! i = Some s → holds (n + Z.of_nat i) max (celState s) = Ok false)
    ∧ ends (n + Z.of_nat (length states)) (bg_remaining (lo_budget l')) (default (rs_State res) (last states)) rest res' err.
Proof.
  intros Hall. induction more as [|more IH]; intros n [it ex s0] l l' res' err Hit Hex Hmax; simpl in Hit, Hex; subst it ex; cbn [run_loop].
  { unfold ceiling. edestruct write_ok as [w Hw]; [done|]. rewrite Hw. intros [= <- <- <-]. exists [], [marker EventLoopCeiling (n - 1) (ran_out_reason max stepID)].
    cbn [lo_log rounds app length last default rs_State]. split; [done|]. split; [by intros i s|]. rewrite Z.add_0_r. apply ends_ceiling. left. lia. }
  unfold spend. case_decide as Hspent.
  { unfold ceiling. edestruct write_ok as [w Hw]; [done|]. rewrite Hw. intros [= <- <- <-]. eexists [], _.
    cbn [lo_log rounds app length last default rs_State]. split; [done|]. split; [by intros i s|]. rewrite Z.add_0_r. apply ends_ceiling. by right. }
  destruct (write_ok (started max stepID n) (mkLooping (mkBudget (bg_seed (lo_budget l)) (bg_remaining (lo_budget l) - 1)) (lo_world l) (lo_log l)) Hall)
    as [w1 ->]. cbn [lo_budget lo_world lo_log rs_State].
  destruct (body n _ _ _) as [[b w] r]. cbn [rs_Exited]. destruct r as [next|why].
  2:{ unfold loop_fail. edestruct write_ok as [w2 Hw]; [done|]. rewrite Hw. intros [= <- <- <-]. eexists [], _.
      cbn [lo_log rounds app length last default rs_State]. rewrite <-app_assoc. split; [done|]. split; [by intros i s|].
      rewrite Z.add_0_r. apply ends_body. }
  edestruct write_ok as [w2 Hw]; [done|]. rewrite Hw. cbn [lo_budget lo_world lo_log].
  destruct (holds n max (celState next)) as [[]|why] eqn:Eh.
  - edestruct write_ok as [w3 Hw3]; [done|]. rewrite Hw3. intros [= <- <- <-]. eexists [], _.
    cbn [lo_log rounds app length last default rs_State]. rewrite <-!app_assoc. split; [done|]. split; [by intros i s|].
    rewrite Z.add_0_r. by apply ends_exit.
  - intros Hr. apply IH in Hr as (states & rest & Hlog & Hfalse & Hend); [|simpl; lia|done|lia].
    exists (next :: states), rest. cbn [lo_log] in Hlog. rewrite Hlog. cbn [rounds]. rewrite <-!app_assoc. split; [done|].
    split.
    + intros [|i] s Hi; [injection Hi as <-; by rewrite Z.add_0_r|]. replace (n + Z.of_nat (S i)) with (n + 1 + Z.of_nat i) by lia.
      by apply Hfalse.
    + cbn [length]. replace (n + Z.of_nat (S (length states))) with (n + 1 + Z.of_nat (length states)) by lia.
      cbn [rs_State] in Hend. destruct states as [|s1 states]; [exact Hend|]. rewrite last_cons_cons. 
      destruct (last (s1 :: states)) eqn:El; [exact Hend|by apply last_None in El].
  - unfold loop_fail. edestruct write_ok as [w3 Hw3]; [done|]. rewrite Hw3. intros [= <- <- <-]. eexists [], _.
    cbn [lo_log rounds app length last default rs_State]. rewrite <-!app_assoc. split; [done|]. split; [by intros i s|].
    rewrite Z.add_0_r. by apply ends_unanswered.
Qed.

(** A loop can be unrolled from its log: when every record is written, the
    log of a run is its iterations in order, started and finished with the
    state each produced, the condition false of every one but the last, and
    then how it ended - the condition held, it could not be answered, the body
    failed, or the ceiling or the nest's budget was reached - which is the
    result and the error that are returned. *)
Theorem loop_unrolls (carried : option Budget) (own : Z) (state : option St) (w : W)
    (l' : @Looping V W) (res : @Result V) (err : option RunErr) :
  all_recorded → runID ≠ "" → stepID ≠ "" → 0 < max →
  go_run carried own state w = (l', res, err) →
  ∃ states rest, lo_log l' = rounds 1 states ++ rest
    ∧ (∀ i s, states !! i = Some s → holds (1 + Z.of_nat i) max (celState s) = Ok false)
    ∧ ends (1 + Z.of_nat (length states)) (bg_remaining (lo_budget l')) (default state (last states)) rest res err.
Proof.
  intros Hall Hrun Hstep Hmax. unfold Run. rewrite decide_False by tauto. intros Hr.
  apply run_loop_log in Hr as (states & rest & Hlog & Hfalse & Hend); [|done|done|done|lia].
  exists states, rest. split; [exact Hlog|]. by split.
Qed.
End Run.

(** ** The theorems at a loop *)

Definition out_port : Port := mkPort "out" (Some (PortBlob "application/json")).
Definition with_ports (outs : list Port) (cfg : gmap string string) (st : Step) : Step :=
  {| step_id := step_id st; step_name := ""; step_plugin_ref := PluginRef; step_effect_class := step_effect_class st;
     step_inputs := []; step_outputs := outs; step_capabilities := []; step_lease_scope := LEASE_SCOPE_UNSPECIFIED;
     step_config := cfg; step_image := ""; step_engine_type := ""; step_timeout_seconds := 0;
     step_file_inputs := []; step_secrets := [] |}.
Definition loop_body (outs : list Port) : Pipeline :=
  mkPipeline "" [with_ports outs ∅ (bare_step "check" EFFECT_CLASS_IDEMPOTENT)] [] [].
Definition refine_config (extra : gmap string string) : gmap string string :=
  extra ∪ list_to_map [(ConfigMaxIterations, "3"); (ConfigExitCondition, "state.check.done"); (ConfigBody, "{}")].
Definition refine (extra : gmap string string) : Step :=
  with_ports [] (refine_config extra) (bare_step "refine" EFFECT_CLASS_AT_MOST_ONCE).

(** JSON that knows one body, CEL that takes every expression. *)
Definition json_of (body p : Pipeline) : option string := if decide (p = body) then Some "{}" else None.
Definition json_as (body : Pipeline) (b : string) : result string Pipeline :=
  if decide (b = "{}") then Ok body else Err "not JSON".
Definition any_expr (expr : string) : result string unit := Ok tt.

Lemma one_body_json body : json_laws (json_of body) (json_as body).
Proof. intros p b. unfold json_of. case_decide as Hp; [|done]. intros [= <-]. subst p. split; [done|vm_compute; discriminate]. Qed.

Definition body1 : Pipeline := loop_body [out_port].
Definition spec1 : Spec := mkSpec "refine" 1 3 "state.check.done" body1 EFFECT_CLASS_AT_MOST_ONCE.
Definition next1 : Step := match controller (json_of body1) spec1 with Ok st => st | Err _ => refine ∅ end.
Definition fragment1 : Pipeline := match Fragment (json_of body1) spec1 with Ok f => f | Err _ => body1 end.

Lemma refine_parses : ParseSpec any_expr (json_as body1) (refine ∅) = Ok spec1.
Proof. vm_compute. reflexivity. Qed.

Lemma controller_resumes_the_loop_witness :
  ParseSpec any_expr (json_as body1) next1 = Ok (mkSpec "refine" 2 3 "state.check.done" body1 EFFECT_CLASS_AT_MOST_ONCE).
Proof.
  apply (controller_resumes_the_loop any_expr (json_of body1) (json_as body1) (refine ∅) next1 spec1);
    [apply one_body_json|apply refine_parses|vm_compute; reflexivity|done|reflexivity|vm_compute; reflexivity].
Defined.

Lemma fragment_is_a_graph_witness :
  step_ids fragment1 = ["refine.1.check"; "refine.2"] ∧ is_ok (Build (Some fragment1)) = true.
Proof.
  split; [vm_compute; reflexivity|].
  apply (fragment_is_a_graph any_expr (json_of body1) (json_as body1) (refine ∅) spec1 fragment1);
    [apply refine_parses|vm_compute; reflexivity].
Defined.

Section Examples.
#[local] Instance plain_payloads : Payloads :=
  {| MarshalDispatched _ := ""; MarshalUnschedulable _ := ""; MarshalWaitingReason _ := "";
     MarshalPolicyDenied _ := ""; MarshalAwaitingReplay _ := ""; MarshalAttemptLost _ := "";
     MarshalRunFailure _ := ""; MarshalSecretUnavailable _ := ""; MarshalStatus _ := None;
     UnmarshalRunCreated _ := None; UnmarshalDispatched _ := None; UnmarshalUnschedulable _ := None;
     UnmarshalWaitingReason _ := None; UnmarshalStatus _ := None; UnmarshalSanitised _ := None |}.
#[local] Instance plain_codec : GenCodec :=
  {| enc_record _ := "record"; dec_record _ := None; enc_pipeline _ := Some "fragment"; dec_pipeline _ := None |}.

Definition authored : Pipeline := mkPipeline "p" [refine ∅] [] [].
Definition run_loop_step (body : Pipeline) (st : Step) (db : DB) : DB * result LoopErr unit :=
  iterate any_expr (json_of body) (json_as body) (V := string) (λ _, Ok "{}") (λ _ _ _ _, Ok true) DialectSQLite "t" 0
    (λ _, "rejected") (Some (λ _, Ok authored)) (λ _, Some "record") (λ _, "failed") "r1" st db.

Definition opened : DB := (run_loop_step body1 (refine ∅) empty_db).1.

Lemma opened_ok : run_loop_step body1 (refine ∅) empty_db = (opened, Ok tt).
Proof. vm_compute. reflexivity. Qed.

Lemma controller_exits_or_opens_a_pass_witness : sp_Iteration spec1 ≤ sp_Max spec1.
Proof.
  pose proof opened_ok as Hrun. generalize opened, Hrun. clear Hrun. unfold run_loop_step. intros db Hrun.
  pose proof (controller_exits_or_opens_a_pass any_expr (json_of body1) (json_as body1) (λ _, Ok "{}")
    (λ _ _ _ _, Ok true) DialectSQLite "t" 0 (λ _, "rejected") (Some (λ _, Ok authored)) (λ _, Some "record") (λ _, "failed")
    "r1" (refine ∅) spec1 empty_db db refine_parses Hrun) as [[H _]|[H _]]; [|exact H].
  vm_compute in H. discriminate H.
Defined.

(** A loop step whose configuration names a later iteration, and whose body
    ends in a step that declares no output, panics the worker that runs it:
    the outputs of the pass before are read at index 0 of an empty list. The
    check that refuses such a body comes later, when a fragment is built, and
    nothing recovers the goroutine. *)
Theorem authored_iteration_panics :
  ∃ st body, (∃ s, ParseSpec any_expr (json_as body) st = Ok s) ∧ run_loop_step body st empty_db = (empty_db, Err GoPanic).
Proof.
  exists (refine {[ConfigIteration := "2"]}), (loop_body []). split; [|vm_compute; reflexivity].
  eexists. vm_compute. reflexivity.
Qed.
End Examples.

(** A body that returns what it was given, and a condition that holds at the
    second pass. *)
Definition same_state (n : Z) (id : string) (s : option (gmap string string)) (x : Budget * unit)
    : (Budget * unit) * result string (option (gmap string string)) := (x, Ok s).
Definition at_two (n max : Z) (s : gmap string string) : result string bool := Ok (bool_decide (n = 2)).
Definition appends (e : Event) (w : unit) : unit * bool := (w, true).
Definition ex_loop : @Looping string unit * @Result string * option RunErr :=
  Run same_state at_two appends 0 (λ _, Some "entry") 5 "r1" "refine" None 5 None tt.

Lemma nest_spends_one_budget_witness : 0 ≤ rs_Iterations ex_loop.1.2 ≤ 5 ∧ rs_Iterations ex_loop.1.2 = 2.
Proof.
  split; [|vm_compute; reflexivity].
  refine (proj2 (proj2 (proj2 (nest_spends_one_budget same_state at_two appends 0 (λ _, Some "entry") 5 "r1" "refine" None 5 None tt
    ex_loop.1.1 ex_loop.1.2 ex_loop.2 _ _ _ _)))); [|lia|vm_compute; discriminate|vm_compute; reflexivity].
  intros n id s b w b' w' r [= <- <- <-]. lia.
Defined.

Lemma loop_unrolls_witness :
  ∃ states rest, lo_log ex_loop.1.1 = rounds 5 "refine" 1 states ++ rest ∧ ex_loop.2 = None.
Proof.
  destruct (loop_unrolls same_state at_two appends 0 (λ _, Some "entry") 5 "r1" "refine" None 5 None tt
    ex_loop.1.1 ex_loop.1.2 ex_loop.2) as (states & rest & Hl & _); [by split; [|eexists]|done..|vm_compute; reflexivity|].
  exists states, rest. split; [exact Hl|vm_compute; reflexivity].
Defined.
