(* ===== verification/Operations.v ===== *)
(** * Editing a definition: [internal/api/operations.go]

    An edit is one [Operation]; [Apply] gives the edited copy, what changed
    and the operation that undoes it. Then what a server checks and compares
    before it stores the result: [checkDefinitionFiles] of [files.go], and the
    merging of concurrent edits of [presence.go]. A change keeps what it names
    and drops the sentence; a refusal keeps the values its sentence prints. *)

From S2P Require Import Prelude Bytes.
From S2P Require Import Proto.

(** ** The messages of [api.proto] *)

Record SetStepConfig : Type := mkSetStepConfig
  { ssc_step : string; ssc_key : string; ssc_value : string; ssc_remove : bool }.

Record SetStepSecret : Type := mkSetStepSecret
  { sss_step : string; sss_env : string; sss_name : string; sss_remove : bool; sss_index : option Z }.

Record SetStepCapability : Type := mkSetStepCapability
  { scap_step : string; scap_capability : Capability; scap_remove : bool; scap_index : option Z }.

Record SetFile : Type := mkSetFile { sf_path : string; sf_file : option File }.

Inductive Operation : Type :=
| AddStep (step : Step)
| RemoveStep (id : string)
| Connect (edge : option Edge)
| RemoveEdge (edge : option Edge)
| SetProperty (id property value : string)
| SetStepConfig_ (op : SetStepConfig)
| SetStepSecret_ (op : SetStepSecret)
| SetStepCapability_ (op : SetStepCapability)
| SetFile_ (op : SetFile)
| Rename (id name : string).

Inductive ChangeKind : Type := CHANGE_KIND_ADDED | CHANGE_KIND_REMOVED | CHANGE_KIND_CHANGED.

Inductive ChangeTarget : Type :=
| ChangeStep (id : string)
| ChangeEdge (e : Edge)
| ChangeFile (path : string).

Record Change : Type := mkChange { ch_kind : ChangeKind; ch_target : ChangeTarget }.

Inductive OpErr : Type :=
| NoPipeline
| NoOperation
| StepIDRequired
| StepExists (id : string)
| NoStep (id : string)
| StillConnected (id : string) (e : Edge)
| EdgeRequired
| NoOutputPort (step port : string)
| NoInputPort (step port : string)
| EdgeExists (e : Edge)
| NoEdge (e : Edge)
| BadEffectClass (value : string)
| BadLeaseScope (value : string)
| BadTimeout (value : string)
| UnknownProperty (property step : string)
| ConfigKeyRequired
| NoConfig (step key : string)
| BadEnvName (env : string)
| SecretAmbiguous (step env : string)
| NoSecret (step env : string)
| RebindKeepsPlace (step env : string)
| SecretIndex (index : Z) (step : string) (n : nat)
| BadCapability (c : Capability)
| CapabilityAmbiguous (step : string) (c : Capability)
| NoCapability (step : string) (c : Capability)
| CapabilityDeclared (step : string) (c : Capability)
| CapabilityIndex (index : Z) (step : string) (n : nat)
| PathRequired
| NoFile (path : string)
| FileStillRead (path step port : string).

(** ** Enumerations by name *)

(** [EffectClass_name] and [EffectClass_value]; a number the schema does not
    name has the empty name. *)
Definition EffectClass_name (c : EffectClass) : string :=
  match c with EFFECT_CLASS_OTHER _ => "" | _ => EffectClass_String c end.
Definition EffectClass_value (s : string) : option EffectClass :=
  list_find (λ c, EffectClass_String c = s)
    [EFFECT_CLASS_UNSPECIFIED; EFFECT_CLASS_PURE; EFFECT_CLASS_IDEMPOTENT; EFFECT_CLASS_AT_MOST_ONCE] ≫= λ p, Some p.2.

Definition LeaseScope_name (l : LeaseScopeP) : string :=
  match l with
  | LEASE_SCOPE_UNSPECIFIED => "LEASE_SCOPE_UNSPECIFIED"
  | LEASE_SCOPE_STEP => "LEASE_SCOPE_STEP"
  | LEASE_SCOPE_JOB => "LEASE_SCOPE_JOB"
  | LEASE_SCOPE_PIPELINE => "LEASE_SCOPE_PIPELINE"
  | LEASE_SCOPE_POOL => "LEASE_SCOPE_POOL"
  | LEASE_SCOPE_SERVICE => "LEASE_SCOPE_SERVICE"
  | LEASE_SCOPE_OTHER _ => ""
  end.
Definition LeaseScope_value (s : string) : option LeaseScopeP :=
  list_find (λ l, LeaseScope_name l = s)
    [LEASE_SCOPE_UNSPECIFIED; LEASE_SCOPE_STEP; LEASE_SCOPE_JOB; LEASE_SCOPE_PIPELINE; LEASE_SCOPE_POOL;
     LEASE_SCOPE_SERVICE] ≫= λ p, Some p.2.

(** Whether [Capability_name] has it. *)
Definition Capability_declared (c : Capability) : bool :=
  match c with CAPABILITY_OTHER _ => false | _ => true end.

(** [strconv.ParseUint(s, 10, 32)]. *)
Definition parse_uint32 (s : string) : option Z :=
  match parse_uint64 s with Some n => if decide (n < two32) then Some n else None | None => None end.

(** ** Looking things up, and changing a step in place *)

Definition findStep (p : Pipeline) (id : string) : option Step :=
  snd <$> list_find (λ s, step_id s = id) (pl_steps p).

Definition findPort (ports : list Port) (name : string) : option Port :=
  snd <$> list_find (λ q, port_name q = name) ports.

(** [sameEdge] is equality: an edge has no other field. *)
Definition sameEdge (a b : Edge) : bool := bool_decide (a = b).

Definition findEdge (p : Pipeline) (want : Edge) : option Edge :=
  snd <$> list_find (λ e, sameEdge e want = true) (pl_edges p).

Definition with_steps (p : Pipeline) (l : list Step) : Pipeline := mkPipeline (pl_id p) l (pl_edges p) (pl_files p).
Definition with_edges (p : Pipeline) (l : list Edge) : Pipeline := mkPipeline (pl_id p) (pl_steps p) l (pl_files p).
Definition with_files (p : Pipeline) (l : list File) : Pipeline := mkPipeline (pl_id p) (pl_steps p) (pl_edges p) l.

(** What writing through the pointer [findStep] returned does. *)
Fixpoint write_step (id : string) (s : Step) (l : list Step) : list Step :=
  match l with
  | [] => []
  | x :: l => if decide (step_id x = id) then s :: l else x :: write_step id s l
  end.

Definition set_step (p : Pipeline) (id : string) (s : Step) : Pipeline :=
  with_steps p (write_step id s (pl_steps p)).

Definition checkEdgeEndpoints (p : Pipeline) (edge : option Edge) : result OpErr Edge :=
  match edge with
  | None => Err EdgeRequired
  | Some e =>
      match findStep p (from_step e) with
      | None => Err (NoStep (from_step e))
      | Some from =>
          match findPort (step_outputs from) (from_port e) with
          | None => Err (NoOutputPort (from_step e) (from_port e))
          | Some _ =>
              match findStep p (to_step e) with
              | None => Err (NoStep (to_step e))
              | Some to =>
                  match findPort (step_inputs to) (to_port e) with
                  | None => Err (NoInputPort (to_step e) (to_port e))
                  | Some _ => Ok e
                  end
              end
          end
      end
  end.

(** ** One operation each *)

Abbreviation Applied := (result OpErr (Pipeline * Change * Operation)).

Definition step_change (k : ChangeKind) (id : string) : Change := mkChange k (ChangeStep id).

Definition applyAddStep (p : Pipeline) (step : Step) : Applied :=
  if decide (step_id step = "") then Err StepIDRequired
  else match findStep p (step_id step) with
       | Some _ => Err (StepExists (step_id step))
       | None => Ok (with_steps p (pl_steps p ++ [step]), step_change CHANGE_KIND_ADDED (step_id step),
                     RemoveStep (step_id step))
       end.

Definition applyRemoveStep (p : Pipeline) (id : string) : Applied :=
  match findStep p id with
  | None => Err (NoStep id)
  | Some removed =>
      match list_find (λ e, from_step e = id ∨ to_step e = id) (pl_edges p) with
      | Some (_, e) => Err (StillConnected id e)
      | None => Ok (with_steps p (filter (λ s, step_id s ≠ id) (pl_steps p)),
                    step_change CHANGE_KIND_REMOVED id, AddStep removed)
      end
  end.

Definition applyConnect (p : Pipeline) (edge : option Edge) : Applied :=
  match checkEdgeEndpoints p edge with
  | Err e => Err e
  | Ok edge =>
      match findEdge p edge with
      | Some _ => Err (EdgeExists edge)
      | None => Ok (with_edges p (pl_edges p ++ [edge]), mkChange CHANGE_KIND_ADDED (ChangeEdge edge),
                    RemoveEdge (Some edge))
      end
  end.

Definition applyRemoveEdge (p : Pipeline) (edge : option Edge) : Applied :=
  match edge with
  | None => Err EdgeRequired
  | Some edge =>
      match findEdge p edge with
      | None => Err (NoEdge edge)
      | Some removed =>
          Ok (with_edges p (filter (λ e, sameEdge e edge ≠ true) (pl_edges p)),
              mkChange CHANGE_KIND_REMOVED (ChangeEdge removed), Connect (Some removed))
      end
  end.

Definition with_plugin_ref (v : string) (s : Step) : Step :=
  mkStep (step_id s) (step_name s) v (step_effect_class s) (step_inputs s) (step_outputs s) (step_capabilities s)
    (step_lease_scope s) (step_config s) (step_image s) (step_engine_type s) (step_timeout_seconds s)
    (step_file_inputs s) (step_secrets s).
Definition with_effect_class (v : EffectClass) (s : Step) : Step :=
  mkStep (step_id s) (step_name s) (step_plugin_ref s) v (step_inputs s) (step_outputs s) (step_capabilities s)
    (step_lease_scope s) (step_config s) (step_image s) (step_engine_type s) (step_timeout_seconds s)
    (step_file_inputs s) (step_secrets s).
Definition with_lease_scope (v : LeaseScopeP) (s : Step) : Step :=
  mkStep (step_id s) (step_name s) (step_plugin_ref s) (step_effect_class s) (step_inputs s) (step_outputs s)
    (step_capabilities s) v (step_config s) (step_image s) (step_engine_type s) (step_timeout_seconds s)
    (step_file_inputs s) (step_secrets s).
Definition with_image (v : string) (s : Step) : Step :=
  mkStep (step_id s) (step_name s) (step_plugin_ref s) (step_effect_class s) (step_inputs s) (step_outputs s)
    (step_capabilities s) (step_lease_scope s) (step_config s) v (step_engine_type s) (step_timeout_seconds s)
    (step_file_inputs s) (step_secrets s).
Definition with_engine_type (v : string) (s : Step) : Step :=
  mkStep (step_id s) (step_name s) (step_plugin_ref s) (step_effect_class s) (step_inputs s) (step_outputs s)
    (step_capabilities s) (step_lease_scope s) (step_config s) (step_image s) v (step_timeout_seconds s)
    (step_file_inputs s) (step_secrets s).
Definition with_timeout (v : Z) (s : Step) : Step :=
  mkStep (step_id s) (step_name s) (step_plugin_ref s) (step_effect_class s) (step_inputs s) (step_outputs s)
    (step_capabilities s) (step_lease_scope s) (step_config s) (step_image s) (step_engine_type s) v
    (step_file_inputs s) (step_secrets s).
Definition with_config (v : gmap string string) (s : Step) : Step :=
  mkStep (step_id s) (step_name s) (step_plugin_ref s) (step_effect_class s) (step_inputs s) (step_outputs s)
    (step_capabilities s) (step_lease_scope s) v (step_image s) (step_engine_type s) (step_timeout_seconds s)
    (step_file_inputs s) (step_secrets s).
Definition with_secrets (v : list StepSecret) (s : Step) : Step :=
  mkStep (step_id s) (step_name s) (step_plugin_ref s) (step_effect_class s) (step_inputs s) (step_outputs s)
    (step_capabilities s) (step_lease_scope s) (step_config s) (step_image s) (step_engine_type s)
    (step_timeout_seconds s) (step_file_inputs s) v.
Definition with_capabilities (v : list Capability) (s : Step) : Step :=
  mkStep (step_id s) (step_name s) (step_plugin_ref s) (step_effect_class s) (step_inputs s) (step_outputs s) v
    (step_lease_scope s) (step_config s) (step_image s) (step_engine_type s) (step_timeout_seconds s)
    (step_file_inputs s) (step_secrets s).
Definition with_name (v : string) (s : Step) : Step :=
  mkStep (step_id s) v (step_plugin_ref s) (step_effect_class s) (step_inputs s) (step_outputs s)
    (step_capabilities s) (step_lease_scope s) (step_config s) (step_image s) (step_engine_type s)
    (step_timeout_seconds s) (step_file_inputs s) (step_secrets s).

(** The switch of [applySetProperty]: the step as changed, and the text form
    of what the property held. *)
Definition set_property (step : Step) (id property value : string) : result OpErr (Step * string) :=
  if decide (property = "plugin_ref") then Ok (with_plugin_ref value step, step_plugin_ref step)
  else if decide (property = "effect_class") then
    match EffectClass_value value with
    | None => Err (BadEffectClass value)
    | Some v => Ok (with_effect_class v step, EffectClass_name (step_effect_class step))
    end
  else if decide (property = "lease_scope") then
    match LeaseScope_value value with
    | None => Err (BadLeaseScope value)
    | Some v => Ok (with_lease_scope v step, LeaseScope_name (step_lease_scope step))
    end
  else if decide (property = "image") then Ok (with_image value step, step_image step)
  else if decide (property = "engine_type") then Ok (with_engine_type value step, step_engine_type step)
  else if decide (property = "timeout_seconds") then
    match parse_uint32 value with
    | None => Err (BadTimeout value)
    | Some v => Ok (with_timeout v step, dec_Z (step_timeout_seconds step))
    end
  else Err (UnknownProperty property id).

Definition applySetProperty (p : Pipeline) (id property value : string) : Applied :=
  match findStep p id with
  | None => Err (NoStep id)
  | Some step =>
      '(step', old) ← set_property step id property value;
      Ok (set_step p id step', step_change CHANGE_KIND_CHANGED id, SetProperty id property old)
  end.

Definition applySetStepConfig (p : Pipeline) (op : SetStepConfig) : Applied :=
  match findStep p (ssc_step op) with
  | None => Err (NoStep (ssc_step op))
  | Some step =>
      if decide (ssc_key op = "") then Err ConfigKeyRequired
      else
        let old := step_config step !! ssc_key op in
        let inverse :=
          match old with
          | Some v => mkSetStepConfig (ssc_step op) (ssc_key op) v false
          | None => mkSetStepConfig (ssc_step op) (ssc_key op) "" true
          end in
        if ssc_remove op then
          match old with
          | None => Err (NoConfig (ssc_step op) (ssc_key op))
          | Some _ =>
              Ok (set_step p (ssc_step op) (with_config (delete (ssc_key op) (step_config step)) step),
                  step_change CHANGE_KIND_REMOVED (ssc_step op), SetStepConfig_ inverse)
          end
        else
          Ok (set_step p (ssc_step op) (with_config (<[ssc_key op := ssc_value op]> (step_config step)) step),
              step_change (match old with Some _ => CHANGE_KIND_CHANGED | None => CHANGE_KIND_ADDED end) (ssc_step op),
              SetStepConfig_ inverse)
  end.

(** The first match and how many there are: the scan the two list operations
    make. *)
Definition scan {A} (P : A → Prop) `{∀ x, Decision (P x)} (l : list A) : option (nat * A) * nat :=
  (list_find P l, length (filter P l)).

Definition insert_at {A} (n : nat) (x : A) (l : list A) : list A := take n l ++ x :: drop n l.

Definition applySetStepSecret (p : Pipeline) (op : SetStepSecret) : Applied :=
  match findStep p (sss_step op) with
  | None => Err (NoStep (sss_step op))
  | Some step =>
      if negb (IsEnvName (sss_env op)) then Err (BadEnvName (sss_env op))
      else
        let '(at_, count) := scan (λ d, sec_env d = sss_env op) (step_secrets step) in
        if decide (1 < count)%nat then Err (SecretAmbiguous (sss_step op) (sss_env op))
        else if sss_remove op then
          match at_ with
          | None => Err (NoSecret (sss_step op) (sss_env op))
          | Some (n, removed) =>
              Ok (set_step p (sss_step op) (with_secrets (delete n (step_secrets step)) step),
                  step_change CHANGE_KIND_REMOVED (sss_step op),
                  SetStepSecret_ (mkSetStepSecret (sss_step op) (sss_env op) (sec_name removed) false
                                    (Some (u32 (Z.of_nat n)))))
          end
        else
          match at_ with
          | Some (n, bound) =>
              match sss_index op with
              | Some _ => Err (RebindKeepsPlace (sss_step op) (sss_env op))
              | None =>
                  Ok (set_step p (sss_step op)
                        (with_secrets (<[n := mkStepSecret (sss_name op) (sss_env op)]> (step_secrets step)) step),
                      step_change CHANGE_KIND_CHANGED (sss_step op),
                      SetStepSecret_ (mkSetStepSecret (sss_step op) (sss_env op) (sec_name bound) false None))
              end
          | None =>
              let n := length (step_secrets step) in
              let position := default (Z.of_nat n) (sss_index op) in
              if decide (Z.of_nat n < position) then Err (SecretIndex position (sss_step op) n)
              else
                Ok (set_step p (sss_step op)
                      (with_secrets (insert_at (Z.to_nat position) (mkStepSecret (sss_name op) (sss_env op))
                                       (step_secrets step)) step),
                    step_change CHANGE_KIND_ADDED (sss_step op),
                    SetStepSecret_ (mkSetStepSecret (sss_step op) (sss_env op) "" true None))
          end
  end.

Definition applySetStepCapability (p : Pipeline) (op : SetStepCapability) : Applied :=
  match findStep p (scap_step op) with
  | None => Err (NoStep (scap_step op))
  | Some step =>
      let c := scap_capability op in
      if negb (Capability_declared c) || bool_decide (c = CAPABILITY_UNSPECIFIED) then Err (BadCapability c)
      else
        let '(at_, count) := scan (λ d, d = c) (step_capabilities step) in
        if decide (1 < count)%nat then Err (CapabilityAmbiguous (scap_step op) c)
        else if scap_remove op then
          match at_ with
          | None => Err (NoCapability (scap_step op) c)
          | Some (n, _) =>
              Ok (set_step p (scap_step op) (with_capabilities (delete n (step_capabilities step)) step),
                  step_change CHANGE_KIND_REMOVED (scap_step op),
                  SetStepCapability_ (mkSetStepCapability (scap_step op) c false (Some (u32 (Z.of_nat n)))))
          end
        else
          match at_ with
          | Some _ => Err (CapabilityDeclared (scap_step op) c)
          | None =>
              let n := length (step_capabilities step) in
              let position := default (Z.of_nat n) (scap_index op) in
              if decide (Z.of_nat n < position) then Err (CapabilityIndex position (scap_step op) n)
              else
                Ok (set_step p (scap_step op)
                      (with_capabilities (insert_at (Z.to_nat position) c (step_capabilities step)) step),
                    step_change CHANGE_KIND_ADDED (scap_step op),
                    SetStepCapability_ (mkSetStepCapability (scap_step op) c true None))
          end
  end.

(** The first step that binds a port to the file at [path]. *)
Fixpoint reader_of (path : string) (steps : list Step) : option (string * string) :=
  match steps with
  | [] => None
  | s :: steps =>
      match list_find (λ i, fi_path i = path) (step_file_inputs s) with
      | Some (_, i) => Some (step_id s, fi_port i)
      | None => reader_of path steps
      end
  end.

Definition applySetFile (p : Pipeline) (op : SetFile) : Applied :=
  let path := sf_path op in
  if decide (path = "") then Err PathRequired
  else
    let index := list_find (λ f, file_path f = path) (pl_files p) in
    let inverse := SetFile_ (mkSetFile path (snd <$> index)) in
    match sf_file op with
    | None =>
        match index with
        | None => Err (NoFile path)
        | Some (n, _) =>
            match reader_of path (pl_steps p) with
            | Some (step, port) => Err (FileStillRead path step port)
            | None => Ok (with_files p (delete n (pl_files p)),
                          mkChange CHANGE_KIND_REMOVED (ChangeFile path), inverse)
            end
        end
    | Some f =>
        let attached := mkFile path (file_digest f) (file_size f) (file_media f) in
        match index with
        | Some (n, _) => Ok (with_files p (<[n := attached]> (pl_files p)),
                             mkChange CHANGE_KIND_CHANGED (ChangeFile path), inverse)
        | None => Ok (with_files p (pl_files p ++ [attached]),
                      mkChange CHANGE_KIND_ADDED (ChangeFile path), inverse)
        end
    end.

Definition applyRename (p : Pipeline) (id name : string) : Applied :=
  match findStep p id with
  | None => Err (NoStep id)
  | Some step => Ok (set_step p id (with_name name step), step_change CHANGE_KIND_CHANGED id,
                     Rename id (step_name step))
  end.

Definition apply_op (p : Pipeline) (op : Operation) : Applied :=
  match op with
  | AddStep s => applyAddStep p s
  | RemoveStep id => applyRemoveStep p id
  | Connect e => applyConnect p e
  | RemoveEdge e => applyRemoveEdge p e
  | SetProperty id property value => applySetProperty p id property value
  | SetStepConfig_ op => applySetStepConfig p op
  | SetStepSecret_ op => applySetStepSecret p op
  | SetStepCapability_ op => applySetStepCapability p op
  | SetFile_ op => applySetFile p op
  | Rename id name => applyRename p id name
  end.

Definition Apply (p : option Pipeline) (op : option Operation) : Applied :=
  match p with
  | None => Err NoPipeline
  | Some p =>
      match op with
      | None => Err NoOperation
      | Some op => apply_op p op
      end
  end.

(** ** [files.go]: the files of a definition hold together *)

Inductive FilesErr : Type :=
| FileNeedsPath
| TwoFilesAt (path : string)
| FileNoDigest (path : string)
| FileCheck (path : string)
| FileNotStored (path : string)
| NoSuchFile (step path port : string)
| NoBoundPort (step path port : string).

Section Files.
(** [s.files.Has], when the server has a file store; [None] is its failure. *)
Context (has : option (Digest → option bool)).

Definition check_file (declared : gset string) (f : File) : result FilesErr (gset string) :=
  if decide (file_path f = "") then Err FileNeedsPath
  else if decide (file_path f ∈ declared) then Err (TwoFilesAt (file_path f))
  else if decide (d_hex (file_digest f) = "") then Err (FileNoDigest (file_path f))
  else
    match has with
    | None => Ok ({[file_path f]} ∪ declared)
    | Some has =>
        match has (file_digest f) with
        | None => Err (FileCheck (file_path f))
        | Some false => Err (FileNotStored (file_path f))
        | Some true => Ok ({[file_path f]} ∪ declared)
        end
    end.

Definition check_file_input (declared : gset string) (step : Step) (u : unit) (i : FileInput) : result FilesErr unit :=
  if decide (fi_path i ∉ declared) then Err (NoSuchFile (step_id step) (fi_path i) (fi_port i))
  else match findPort (step_inputs step) (fi_port i) with
       | None => Err (NoBoundPort (step_id step) (fi_path i) (fi_port i))
       | Some _ => Ok tt
       end.

Definition checkDefinitionFiles (p : Pipeline) : result FilesErr unit :=
  declared ← fold_result check_file ∅ (pl_files p);
  fold_result (λ u step, fold_result (check_file_input declared step) u (step_file_inputs step)) tt (pl_steps p).
End Files.

(** ** [presence.go]: merging an edit whose base has moved *)

Definition edgeKey (e : Edge) : string :=
  from_step e +:+ "|" +:+ from_port e +:+ "|" +:+ to_step e +:+ "|" +:+ to_port e.

(** A nil edge's getters all read the empty string. *)
Definition nil_edge : Edge := mkEdge "" "" "" "".

Definition touched_edge (edge : option Edge) : gset string :=
  let e := default nil_edge edge in
  {[ "edge:" +:+ edgeKey e; "life:" +:+ from_step e; "life:" +:+ to_step e ]}.

Definition touchedBy (op : Operation) : gset string :=
  match op with
  | AddStep s => {[ "life:" +:+ step_id s; "step:" +:+ step_id s ]}
  | RemoveStep id => {[ "life:" +:+ id; "step:" +:+ id ]}
  | Rename id _ => {[ "step:" +:+ id ]}
  | SetProperty id _ _ => {[ "step:" +:+ id ]}
  | SetStepConfig_ op => {[ "step:" +:+ ssc_step op ]}
  | SetStepSecret_ op => {[ "step:" +:+ sss_step op ]}
  | SetStepCapability_ op => {[ "step:" +:+ scap_step op ]}
  | Connect edge | RemoveEdge edge => touched_edge edge
  | SetFile_ _ => {[ "pipeline" ]}
  end.

#[export] Instance FileInput_eq_dec : EqDecision FileInput.
Proof. solve_decision. Defined.
#[export] Instance StepSecret_eq_dec : EqDecision StepSecret.
Proof. solve_decision. Defined.
#[export] Instance Step_eq_dec : EqDecision Step.
Proof. solve_decision. Defined.

(** The loop over the steps of [after]: what is left of those of [before], and
    the keys found changed. *)
Definition changed_step (acc : gmap string Step * gset string) (step : Step) : gmap string Step * gset string :=
  let '(steps, changed) := acc in
  let changed :=
    match steps !! step_id step with
    | None => {[ "life:" +:+ step_id step; "step:" +:+ step_id step ]} ∪ changed
    | Some old => if decide (old ≠ step) then {[ "step:" +:+ step_id step ]} ∪ changed else changed
    end in
  (delete (step_id step) steps, changed).

Definition changed_edge (acc : gset string * gset string) (e : Edge) : gset string * gset string :=
  let '(edges, changed) := acc in
  if decide (edgeKey e ∈ edges) then (edges ∖ {[ edgeKey e ]}, changed)
  else (edges, {[ "edge:" +:+ edgeKey e ]} ∪ changed).

(** [steps[step.GetId()] = step] in order: the last one of an id is kept. *)
Definition steps_by_id (l : list Step) : gmap string Step := foldl (λ m s, <[step_id s := s]> m) ∅ l.

Definition changedBetween (before after : Pipeline) : gset string :=
  let '(steps, changed) := foldl changed_step (steps_by_id (pl_steps before), {[ "pipeline" ]}) (pl_steps after) in
  let changed := changed ∪ set_map (λ id, "life:" +:+ id) (dom steps) ∪ set_map (λ id, "step:" +:+ id) (dom steps) in
  let '(edges, changed) := foldl changed_edge (list_to_set (map edgeKey (pl_edges before)), changed) (pl_edges after) in
  changed ∪ set_map (λ k, "edge:" +:+ k) edges.

(** The test of [rebaseOnto]: whether the edit merges. *)
Definition disjoint_edit (before after : Pipeline) (op : Operation) : bool :=
  bool_decide (touchedBy op ∩ changedBetween before after = ∅).
