(* ===== verification/OperationsFacts.v ===== *)
(** * Edits are undone, keep a definition sound, and merge *)

From S2P Require Import Prelude Bytes Proto.
From S2P Require Import Operations.

(** ** Lists by their first match *)

Lemma list_find_split {A} (P : A → Prop) `{∀ x, Decision (P x)} l n x :
  list_find P l = Some (n, x) →
  ∃ l1 l2, l = l1 ++ x :: l2 ∧ n = length l1 ∧ P x ∧ Forall (λ y, ¬ P y) l1.
Proof.
  intros (Hl & HP & Hmin)%list_find_Some.
  exists (take n l), (drop (S n) l). split_and!; [by rewrite take_drop_middle| |done|].
  - rewrite length_take_le; [done|]. apply lookup_lt_Some in Hl. lia.
  - apply Forall_lookup. intros j y Hj. apply lookup_take_Some in Hj as [Hj ?]. by apply (Hmin j).
Qed.

Lemma list_find_at {A} (P : A → Prop) `{∀ x, Decision (P x)} l1 x l2 :
  Forall (λ y, ¬ P y) l1 → P x → list_find P (l1 ++ x :: l2) = Some (length l1, x).
Proof.
  intros Hl HP. rewrite list_find_app_r by (by apply list_find_None). simpl.
  by rewrite decide_True by done.
Qed.

Lemma insert_middle {A} (l1 l2 : list A) x y : <[length l1 := y]> (l1 ++ x :: l2) = l1 ++ y :: l2.
Proof. induction l1; simpl; congruence. Qed.

Lemma insert_at_middle {A} (l1 l2 : list A) x : insert_at (length l1) x (l1 ++ l2) = l1 ++ x :: l2.
Proof. unfold insert_at. by rewrite take_app_length, drop_app_length. Qed.

Lemma insert_at_split {A} n (x : A) l :
  (n ≤ length l)%nat → ∃ l1 l2, l = l1 ++ l2 ∧ n = length l1 ∧ insert_at n x l = l1 ++ x :: l2.
Proof.
  intros Hn. exists (take n l), (drop n l). split_and!; [by rewrite take_drop|by rewrite length_take_le|done].
Qed.

Lemma filter_length_none {A} (P : A → Prop) `{∀ x, Decision (P x)} l :
  Forall (λ y, ¬ P y) l → length (filter P l) = 0%nat.
Proof. intros Hl. rewrite filter_none_in; [done|]. by apply Forall_forall. Qed.

(** At most one match. *)
Lemma scan_unique {A} (P : A → Prop) `{∀ x, Decision (P x)} l1 x l2 :
  P x → ¬ (1 < length (filter P (l1 ++ x :: l2)))%nat → Forall (λ y, ¬ P y) (l1 ++ l2).
Proof.
  intros HP Hn. rewrite filter_app, filter_cons, decide_True, length_app in Hn by done. simpl in Hn.
  apply Forall_app. split; apply Forall_forall; intros y Hy HPy.
  - assert (y ∈ filter P l1) as Hin by (by apply list_elem_of_filter).
    destruct (filter P l1); [by apply elem_of_nil in Hin|simpl in Hn; lia].
  - assert (y ∈ filter P l2) as Hin by (by apply list_elem_of_filter).
    destruct (filter P l2); [by apply elem_of_nil in Hin|simpl in Hn; lia].
Qed.

(** [scan] after an insertion where there was no match, and after a deletion. *)
Lemma scan_inserted {A} (P : A → Prop) `{∀ x, Decision (P x)} l1 x l2 :
  P x → Forall (λ y, ¬ P y) (l1 ++ l2) → scan P (l1 ++ x :: l2) = (Some (length l1, x), 1%nat).
Proof.
  intros HP [H1 H2]%Forall_app. unfold scan. rewrite list_find_at by done. f_equal.
  rewrite filter_app, filter_cons, decide_True, length_app by done. simpl.
  rewrite !filter_length_none by done. done.
Qed.

Lemma scan_none {A} (P : A → Prop) `{∀ x, Decision (P x)} l :
  Forall (λ y, ¬ P y) l → scan P l = (None, 0%nat).
Proof. intros Hl. unfold scan. rewrite filter_length_none by done. by rewrite (proj2 (list_find_None P l)). Qed.

(** ** Steps *)

Lemma findStep_split p id s :
  findStep p id = Some s →
  ∃ l1 l2, pl_steps p = l1 ++ s :: l2 ∧ step_id s = id ∧ Forall (λ y, ¬ step_id y = id) l1.
Proof.
  unfold findStep. rewrite fmap_Some. intros ([n x] & Hf & ->).
  apply list_find_split in Hf as (l1 & l2 & ? & _ & ? & ?). eauto.
Qed.

Lemma findStep_Some p id s : findStep p id = Some s → s ∈ pl_steps p ∧ step_id s = id.
Proof. intros (l1 & l2 & -> & ? & _)%findStep_split. split; [set_solver|done]. Qed.

Lemma findStep_None p id : findStep p id = None ↔ ∀ s, s ∈ pl_steps p → step_id s ≠ id.
Proof. unfold findStep. by rewrite fmap_None, list_find_None, Forall_forall. Qed.

Lemma findStep_id p id s : findStep p id = Some s → step_id s = id.
Proof. by intros [_ ?]%findStep_Some. Qed.

Lemma write_step_split id s l1 x l2 :
  step_id x = id → Forall (λ y, ¬ step_id y = id) l1 → write_step id s (l1 ++ x :: l2) = l1 ++ s :: l2.
Proof.
  intros Hx. induction 1 as [|y l1 Hy _ IH]; simpl; [by rewrite decide_True|].
  by rewrite decide_False, IH by done.
Qed.

Lemma findStep_at p id l1 s l2 :
  pl_steps p = l1 ++ s :: l2 → step_id s = id → Forall (λ y, ¬ step_id y = id) l1 → findStep p id = Some s.
Proof. intros Hp Hs Hl. unfold findStep. by rewrite Hp, list_find_at by done. Qed.

(** Writing a step back. *)
Lemma set_step_undo p id s s' :
  findStep p id = Some s → step_id s' = id →
  findStep (set_step p id s') id = Some s' ∧ set_step (set_step p id s') id s = p.
Proof.
  intros (l1 & l2 & Hp & Hs & Hl)%findStep_split Hs'. unfold set_step.
  rewrite Hp, write_step_split by done. split.
  - by apply (findStep_at _ _ l1 s' l2).
  - cbn [pl_steps with_steps]. rewrite write_step_split by done. destruct p; simpl in *. by subst.
Qed.

Lemma set_step_ids p id s' :
  step_id s' = id → map step_id (pl_steps (set_step p id s')) = map step_id (pl_steps p).
Proof.
  intros Hs. unfold set_step. cbn [pl_steps with_steps]. induction (pl_steps p) as [|x l IH]; simpl; [done|].
  case_decide; simpl; congruence.
Qed.

Lemma findStep_set_ne p id id' s' :
  step_id s' = id → id' ≠ id → findStep (set_step p id s') id' = findStep p id'.
Proof.
  intros Hs Hne. unfold findStep, set_step. cbn [pl_steps with_steps]. induction (pl_steps p) as [|x l IH]; simpl; [done|].
  destruct (decide (step_id x = id)) as [Hx|Hx]; simpl.
  - by rewrite !decide_False by congruence.
  - destruct (decide (step_id x = id')); [done|]. rewrite <-!option_fmap_compose. simpl in *.
    destruct (list_find _ (write_step id s' l)) as [[]|], (list_find _ l) as [[]|]; naive_solver.
Qed.

(** ** What a sound definition is *)

Definition edge_ok (p : Pipeline) (e : Edge) : Prop := checkEdgeEndpoints p (Some e) = Ok e.

Record sound (p : Pipeline) : Prop :=
  { snd_ids : NoDup (map step_id (pl_steps p));
    snd_named : Forall (λ s, step_id s ≠ "") (pl_steps p);
    snd_edges : NoDup (pl_edges p);
    snd_ends : Forall (edge_ok p) (pl_edges p);
    snd_paths : NoDup (map file_path (pl_files p));
    snd_pathed : Forall (λ f, file_path f ≠ "") (pl_files p);
    snd_bound : Forall (λ s, Forall (λ i, fi_path i ∈ map file_path (pl_files p)) (step_file_inputs s)) (pl_steps p) }.

(** A step whose fields are what the wire can carry and this schema names. *)
Record expressible (s : Step) : Prop :=
  { exp_effect : ∀ n, step_effect_class s ≠ EFFECT_CLASS_OTHER n;
    exp_lease : ∀ n, step_lease_scope s ≠ LEASE_SCOPE_OTHER n;
    exp_timeout : 0 ≤ step_timeout_seconds s < two32;
    exp_secrets : Z.of_nat (length (step_secrets s)) < two32;
    exp_caps : Z.of_nat (length (step_capabilities s)) < two32 }.

Lemma edge_ok_iff p e :
  edge_ok p e ↔ ∃ a b, findStep p (from_step e) = Some a ∧ is_Some (findPort (step_outputs a) (from_port e))
                     ∧ findStep p (to_step e) = Some b ∧ is_Some (findPort (step_inputs b) (to_port e)).
Proof.
  unfold edge_ok, checkEdgeEndpoints. split.
  - destruct (findStep p (from_step e)) as [a|]; [|done].
    destruct (findPort (step_outputs a) (from_port e)) eqn:?; [|done].
    destruct (findStep p (to_step e)) as [b|]; [|done].
    destruct (findPort (step_inputs b) (to_port e)) eqn:?; [|done]. intros _. exists a, b. eauto.
  - intros (a & b & -> & [? ->] & -> & [? ->]). done.
Qed.

Lemma edge_ok_check p e e' : checkEdgeEndpoints p (Some e) = Ok e' → e' = e ∧ edge_ok p e.
Proof.
  intros Hc. assert (e' = e) as ->; [|done]. revert Hc. unfold checkEdgeEndpoints.
  repeat case_match; congruence.
Qed.

(** The operations on one step never touch its ports. *)
Definition same_ports (s s' : Step) : Prop :=
  step_id s' = step_id s ∧ step_inputs s' = step_inputs s ∧ step_outputs s' = step_outputs s
  ∧ step_file_inputs s' = step_file_inputs s.

Lemma edge_ok_set_step p id s s' e :
  findStep p id = Some s → same_ports s s' → edge_ok p e → edge_ok (set_step p id s') e.
Proof.
  intros Hs (Hid & Hin & Hout & _) (a & b & Ha & Hpa & Hb & Hpb)%edge_ok_iff. apply edge_ok_iff.
  pose proof (findStep_id _ _ _ Hs) as Hs1.
  destruct (set_step_undo p id s s' Hs ltac:(congruence)) as [Hnew _].
  exists (if decide (from_step e = id) then s' else a), (if decide (to_step e = id) then s' else b).
  split_and!.
  - destruct (decide (from_step e = id)) as [->|]; [done|]. by rewrite findStep_set_ne by congruence.
  - destruct (decide (from_step e = id)) as [He|]; [|done]. rewrite He in Ha. rewrite Hout. by simplify_eq.
  - destruct (decide (to_step e = id)) as [->|]; [done|]. by rewrite findStep_set_ne by congruence.
  - destruct (decide (to_step e = id)) as [He|]; [|done]. rewrite He in Hb. rewrite Hin. by simplify_eq.
Qed.

(** ** Operations on one step: the step each names, and what it does there *)

Definition step_of (op : Operation) : option string :=
  match op with
  | SetProperty id _ _ | Rename id _ => Some id
  | SetStepConfig_ op => Some (ssc_step op)
  | SetStepSecret_ op => Some (sss_step op)
  | SetStepCapability_ op => Some (scap_step op)
  | _ => None
  end.

(** [op] turns step [s] into [s'] wherever it finds it, and answers [inv]. *)
Definition edits (op : Operation) (s s' : Step) (inv : Operation) : Prop :=
  ∀ p, findStep p (step_id s) = Some s → ∃ ch, apply_op p op = Ok (set_step p (step_id s) s', ch, inv).

Ltac on_step :=
  cbn [apply_op]; unfold applySetProperty, applySetStepConfig, applySetStepSecret, applySetStepCapability, applyRename;
  cbn [ssc_step ssc_key ssc_value ssc_remove sss_step sss_env sss_name sss_remove sss_index
       scap_step scap_capability scap_remove scap_index].

Lemma property_inverse s id property value s' old :
  expressible s → set_property s id property value = Ok (s', old) →
  same_ports s s' ∧ ∃ old', set_property s' id property old = Ok (s, old').
Proof.
  intros [Heff Hlease Ht _ _]. unfold set_property.
  repeat (case_decide; simplify_eq); intros Hset; simplify_eq; try (split; [done|]; destruct s; by eexists).
  - destruct (EffectClass_value value); simplify_eq. split; [done|]. exists (EffectClass_name e).
    destruct s; simpl in *. destruct step_effect_class; try done. exfalso. by eapply Heff.
  - destruct (LeaseScope_value value); simplify_eq. split; [done|]. exists (LeaseScope_name l).
    destruct s; simpl in *. destruct step_lease_scope; try done. exfalso. by eapply Hlease.
  - destruct (parse_uint32 value); simplify_eq. split; [done|]. exists (dec_Z z).
    unfold parse_uint32. rewrite dec_Z_nonneg, parse_dec_N by (unfold two32, two64 in *; lia).
    rewrite Z2N.id, decide_True by lia. by destruct s.
Qed.

Lemma edits_property s id property value s' old :
  step_id s = id → set_property s id property value = Ok (s', old) →
  edits (SetProperty id property value) s s' (SetProperty id property old).
Proof. intros <- Hset p Hp. on_step. rewrite Hp, Hset. simpl. eauto. Qed.

(** Every operation on one step is such an edit, and its answer undoes it. *)
Definition undone (op : Operation) (s s' : Step) (inv : Operation) : Prop :=
  same_ports s s' ∧ edits op s s' inv ∧ ∃ redo, edits inv s' s redo.

Lemma with_config_back s c : with_config (step_config s) (with_config c s) = s.
Proof. by destruct s. Qed.
Lemma with_secrets_back s c : with_secrets (step_secrets s) (with_secrets c s) = s.
Proof. by destruct s. Qed.
Lemma with_capabilities_back s c : with_capabilities (step_capabilities s) (with_capabilities c s) = s.
Proof. by destruct s. Qed.
Lemma with_name_back s c : with_name (step_name s) (with_name c s) = s.
Proof. by destruct s. Qed.

(** Runs one of the operations on the step it names. *)
Ltac run_on :=
  let p' := fresh "p'" in let Hp' := fresh "Hp'" in
  intros p' Hp'; on_step;
  match goal with
  | E : step_id ?s = ?id |- context [findStep p' ?id] =>
      match type of Hp' with findStep _ ?i = _ => change i with (step_id s) in Hp' end;
      rewrite <-E, Hp'; cbn -[scan lookup insert delete u32]
  | |- context [findStep p' (step_id ?s)] =>
      match type of Hp' with findStep _ ?i = _ => change i with (step_id s) in Hp' end;
      rewrite Hp'; cbn -[scan lookup insert delete u32]
  end.

Lemma config_undone p op s q ch inv :
  findStep p (ssc_step op) = Some s → applySetStepConfig p op = Ok (q, ch, inv) →
  ∃ s', q = set_step p (ssc_step op) s' ∧ undone (SetStepConfig_ op) s s' inv.
Proof.
  intros Hp. pose proof (findStep_id _ _ _ Hp) as Hid. unfold applySetStepConfig. rewrite Hp.
  case_decide as Hk; [done|]. intros Ha.
  assert (Hd : ∀ A (x y : A), (if decide (ssc_key op = "") then x else y) = y) by (intros; by rewrite decide_False).
  destruct (ssc_remove op) eqn:Hr, (step_config s !! ssc_key op) as [v|] eqn:Hv; simplify_eq;
    eexists; (split; [done|]); split_and!; try done;
    try (run_on; rewrite Hd, Hr, Hv; eauto; done);
    eexists; run_on; rewrite Hd.
  - rewrite lookup_delete_eq, insert_delete_id, with_config_back by done. eauto.
  - rewrite lookup_insert_eq, insert_insert_eq, insert_id, with_config_back by done. eauto.
  - rewrite lookup_insert_eq, delete_insert_id, with_config_back by done. eauto.
Qed.

Lemma rename_undone p id name s q ch inv :
  findStep p id = Some s → applyRename p id name = Ok (q, ch, inv) →
  ∃ s', q = set_step p id s' ∧ undone (Rename id name) s s' inv.
Proof.
  intros Hp. pose proof (findStep_id _ _ _ Hp) as Hid. unfold applyRename. rewrite Hp. intros ?; simplify_eq.
  eexists; split; [done|]. split_and!; try done.
  - run_on. eauto.
  - eexists. run_on. rewrite with_name_back. eauto.
Qed.

Lemma none_found {A} (x y : A) : (if decide (1 < 0)%nat then x else y) = y.
Proof. by rewrite decide_False by lia. Qed.
Lemma one_found {A} (x y : A) : (if decide (1 < 1)%nat then x else y) = y.
Proof. by rewrite decide_False by lia. Qed.

Lemma secret_undone p op s q ch inv :
  findStep p (sss_step op) = Some s → expressible s → applySetStepSecret p op = Ok (q, ch, inv) →
  ∃ s', q = set_step p (sss_step op) s' ∧ undone (SetStepSecret_ op) s s' inv.
Proof.
  intros Hp [_ _ _ Hlen _]. pose proof (findStep_id _ _ _ Hp) as Hid. unfold applySetStepSecret. rewrite Hp.
  destruct (IsEnvName (sss_env op)) eqn:Henv; [|done]. cbn [negb].
  match goal with |- context [scan ?P ?l] => destruct (scan P l) as [at_ count] eqn:Hscan end.
  unfold scan in Hscan. destruct (decide (1 < count)%nat) as [|Hc]; [done|]. intros Ha.
  destruct at_ as [[n d]|].
  - injection Hscan as (l1 & l2 & Hl & -> & Hd & Hl1)%list_find_split Hcount. rewrite <-Hcount, Hl in Hc.
    apply scan_unique in Hc; [|done].
    assert (Hd' : d = mkStepSecret (sec_name d) (sss_env op)) by (destruct d; simpl in *; by subst).
    destruct (sss_remove op) eqn:Hr; [|destruct (sss_index op) eqn:Hi; [done|]]; simplify_eq;
      eexists; (split; [done|]); split_and!; try done.
    + run_on. rewrite Henv, Hl, scan_inserted by done. cbn [negb]. rewrite one_found, Hr, delete_middle. eauto.
    + eexists. run_on. rewrite Henv, Hl, delete_middle, scan_none by done. cbn [negb]. rewrite none_found.
      rewrite Hl, length_app in Hlen. simpl in Hlen.
      rewrite u32_id, decide_False, Nat2Z.id, insert_at_middle, <-Hd', <-Hl, with_secrets_back
        by (rewrite ?length_app; lia). eauto.
    + run_on. rewrite Henv, Hl, scan_inserted by done. cbn [negb]. rewrite one_found, Hr, Hi, insert_middle. eauto.
    + eexists. run_on. rewrite Henv, Hl, insert_middle, scan_inserted by done. cbn [negb].
      rewrite one_found, insert_middle, <-Hd', <-Hl, with_secrets_back. eauto.
  - injection Hscan as Hf%list_find_None _. destruct (sss_remove op) eqn:Hr; [done|].
    match type of Ha with context [decide (?a < ?b)] => destruct (decide (a < b)) as [|Hpos]; [done|] end. simplify_eq. eexists; split; [done|].
    destruct (insert_at_split (Z.to_nat (default (Z.of_nat (length (step_secrets s))) (sss_index op)))
                (mkStepSecret (sss_name op) (sss_env op)) (step_secrets s)) as (l1 & l2 & Hl & _ & Hins); [lia|].
    rewrite Hl in Hf. split_and!; try done.
    + run_on. rewrite Henv. rewrite scan_none by (by rewrite Hl). cbn [negb]. rewrite none_found, Hr, decide_False by done. eauto.
    + eexists. run_on. rewrite Henv, Hins, scan_inserted by done. cbn [negb]. rewrite one_found, delete_middle, <-Hl, with_secrets_back. eauto.
Qed.

Lemma capability_undone p op s q ch inv :
  findStep p (scap_step op) = Some s → expressible s → applySetStepCapability p op = Ok (q, ch, inv) →
  ∃ s', q = set_step p (scap_step op) s' ∧ undone (SetStepCapability_ op) s s' inv.
Proof.
  intros Hp [_ _ _ _ Hlen]. pose proof (findStep_id _ _ _ Hp) as Hid. unfold applySetStepCapability. rewrite Hp.
  destruct (negb _ || _) eqn:Hcap; [done|].
  match goal with |- context [scan ?P ?l] => destruct (scan P l) as [at_ count] eqn:Hscan end.
  unfold scan in Hscan. destruct (decide (1 < count)%nat) as [|Hc]; [done|]. intros Ha.
  destruct at_ as [[n d]|].
  - injection Hscan as (l1 & l2 & Hl & -> & -> & Hl1)%list_find_split Hcount. rewrite <-Hcount, Hl in Hc.
    apply scan_unique in Hc; [|done].
    destruct (scap_remove op) eqn:Hr; simplify_eq; eexists; (split; [done|]); split_and!; try done.
    + run_on. rewrite Hcap, Hl, scan_inserted by done. rewrite one_found, Hr, delete_middle. eauto.
    + eexists. run_on. rewrite Hcap, Hl, delete_middle, scan_none by done. rewrite none_found.
      rewrite Hl, length_app in Hlen. simpl in Hlen.
      rewrite u32_id, decide_False, Nat2Z.id, insert_at_middle, <-Hl, with_capabilities_back
        by (rewrite ?length_app; lia). eauto.
  - injection Hscan as Hf%list_find_None _. destruct (scap_remove op) eqn:Hr; [done|].
    match type of Ha with context [decide (?a < ?b)] => destruct (decide (a < b)) as [|Hpos]; [done|] end. simplify_eq. eexists; split; [done|].
    destruct (insert_at_split (Z.to_nat (default (Z.of_nat (length (step_capabilities s))) (scap_index op)))
                (scap_capability op) (step_capabilities s)) as (l1 & l2 & Hl & _ & Hins); [lia|].
    rewrite Hl in Hf. split_and!; try done.
    + run_on. rewrite Hcap. rewrite scan_none by (by rewrite Hl). rewrite none_found, Hr, decide_False by done. eauto.
    + eexists. run_on. rewrite Hcap, Hins, scan_inserted by done. rewrite one_found, delete_middle, <-Hl, with_capabilities_back. eauto.
Qed.

Lemma property_undone p id property value s q ch inv :
  findStep p id = Some s → expressible s → applySetProperty p id property value = Ok (q, ch, inv) →
  ∃ s', q = set_step p id s' ∧ undone (SetProperty id property value) s s' inv.
Proof.
  intros Hp Hexp. pose proof (findStep_id _ _ _ Hp) as Hid. unfold applySetProperty. rewrite Hp.
  destruct (set_property s id property value) as [[s' old]|e] eqn:Hset; [|done]. intros Ha. injection Ha as <- <- <-.
  exists s'. split; [done|]. destruct (property_inverse _ _ _ _ _ _ Hexp Hset) as [Hports [old' Hback]].
  split_and!; [apply Hports..| |].
  - by apply edits_property.
  - exists (SetProperty id property old'). apply edits_property; [|done]. etrans; [apply Hports|done].
Qed.

Lemma step_op_undone p op id q ch inv :
  step_of op = Some id → Forall expressible (pl_steps p) → apply_op p op = Ok (q, ch, inv) →
  ∃ s s', findStep p id = Some s ∧ q = set_step p id s' ∧ undone op s s' inv.
Proof.
  intros Hop Hexp Ha. rewrite Forall_forall in Hexp.
  assert (Hs : ∃ s, findStep p id = Some s).
  { destruct op; simpl in Hop, Ha; simplify_eq;
      unfold applySetProperty, applySetStepConfig, applySetStepSecret, applySetStepCapability, applyRename in Ha;
      match type of Ha with match findStep ?p ?i with _ => _ end = _ => destruct (findStep p i) end; eauto; done. }
  destruct Hs as [s Hs]. exists s. pose proof (Hexp s (proj1 (findStep_Some _ _ _ Hs))) as Hse.
  destruct op; simpl in Hop, Ha; simplify_eq;
    [edestruct property_undone as (s' & ? & ?)|edestruct config_undone as (s' & ? & ?)
    |edestruct secret_undone as (s' & ? & ?)|edestruct capability_undone as (s' & ? & ?)
    |edestruct rename_undone as (s' & ? & ?)]; eauto 6.
Qed.

(** ** Undoing an edit *)

(** One element of the list, and only where it stands, has changed: it is the
    last now. *)
Definition moved_last {A} (l l' : list A) : Prop := ∃ l1 x l2, l = l1 ++ x :: l2 ∧ l' = l1 ++ l2 ++ [x].

(** What undoing an operation makes of the definition it was applied to: the
    very same one, or, for the operations that take an element out, the one in
    which that element stands last in its list. *)
Definition comes_back (op : Operation) (p r : Pipeline) : Prop :=
  match op with
  | RemoveStep _ => ∃ steps, moved_last (pl_steps p) steps ∧ r = with_steps p steps
  | RemoveEdge _ => ∃ edges, moved_last (pl_edges p) edges ∧ r = with_edges p edges
  | SetFile_ op' =>
      match sf_file op' with
      | None => ∃ files, moved_last (pl_files p) files ∧ r = with_files p files
      | Some _ => r = p
      end
  | _ => r = p
  end.

Definition restores (p q : Pipeline) (op inv : Operation) : Prop :=
  ∃ r ch redo, apply_op q inv = Ok (r, ch, redo) ∧ comes_back op p r.

(** The operations that put something in, or change something in place. *)
Definition takes_out (op : Operation) : bool :=
  match op with
  | RemoveStep _ | RemoveEdge _ => true
  | SetFile_ op => match sf_file op with None => true | Some _ => false end
  | _ => false
  end.

Lemma restores_exactly p q op inv ch redo :
  takes_out op = false → apply_op q inv = Ok (p, ch, redo) → restores p q op inv.
Proof. intros Ht Ha. exists p, ch, redo. split; [done|]. destruct op; try done. simpl in *. by case_match. Qed.

Lemma undo_add_step p s q ch inv :
  sound p → applyAddStep p s = Ok (q, ch, inv) → restores p q (AddStep s) inv.
Proof.
  intros Hs. unfold applyAddStep. case_decide; [done|]. destruct (findStep p (step_id s)) eqn:Hf; [done|].
  intros Ha. injection Ha as <- <- <-. eapply restores_exactly; [done|]. simpl. unfold applyRemoveStep.
  pose proof (proj1 (findStep_None _ _) Hf) as Hnone.
  rewrite (findStep_at _ (step_id s) (pl_steps p) s []); [|done..|apply Forall_forall; auto].
  rewrite (proj2 (list_find_None _ _)).
  - cbn [with_steps pl_steps]. rewrite filter_app, filter_cons, decide_False, filter_all_in by naive_solver.
    rewrite filter_nil, app_nil_r. by destruct p.
  - apply Forall_forall. intros e He. cbn [with_steps pl_edges] in He.
    pose proof (proj1 (Forall_forall _ _) (snd_ends p Hs) e He) as (a & b & Ha & _ & Hb & _)%edge_ok_iff.
    intros [E|E]; rewrite E in *; congruence.
Qed.

Lemma undo_remove_step p id q ch inv :
  sound p → applyRemoveStep p id = Ok (q, ch, inv) → restores p q (RemoveStep id) inv.
Proof.
  intros Hs. unfold applyRemoveStep. destruct (findStep p id) as [s|] eqn:Hf; [|done].
  destruct (list_find _ _) as [[]|]; [done|]. intros Ha. injection Ha as <- <- <-.
  pose proof (findStep_split _ _ _ Hf) as (l1 & l2 & Hl & Hid & _). subst id.
  assert (Hrest : filter (λ y, step_id y ≠ step_id s) (pl_steps p) = l1 ++ l2).
  { pose proof (snd_ids p Hs) as Hn. rewrite Hl, map_app in Hn. simpl in Hn.
    apply NoDup_app in Hn as (_ & Hn1 & Hn2). apply NoDup_cons in Hn2 as [Hn2 _].
    rewrite Hl, filter_app, filter_cons, decide_False by (intros Hx; by apply Hx).
    rewrite !filter_all_in; [done| |]; intros y Hy E; [apply Hn2|apply (Hn1 (step_id s))].
    - rewrite <-E. by apply (list_elem_of_fmap_2 step_id).
    - rewrite <-E. by apply (list_elem_of_fmap_2 step_id).
    - by left. }
  eexists _, _, _. split.
  - simpl. unfold applyAddStep.
    rewrite decide_False by (apply (proj1 (Forall_forall _ _) (snd_named p Hs)); rewrite Hl; set_solver).
    rewrite (proj2 (findStep_None _ _)); [done|]. cbn [with_steps pl_steps]. intros y [? ?]%list_elem_of_filter. done.
  - eexists. split; [exists l1, s, l2; split; [exact Hl|reflexivity]|]. cbn [with_steps pl_steps]. by rewrite Hrest, <-app_assoc.
Qed.

Lemma findEdge_Some p e e' : findEdge p e = Some e' → e' = e ∧ e ∈ pl_edges p.
Proof.
  unfold findEdge. rewrite fmap_Some. intros ([n x] & (Hl & Hx & _)%list_find_Some & ->).
  apply bool_decide_eq_true in Hx as ->. split; [done|]. by eapply list_elem_of_lookup_2.
Qed.

Lemma findEdge_None p e : findEdge p e = None ↔ e ∉ pl_edges p.
Proof.
  unfold findEdge, sameEdge. rewrite fmap_None, list_find_None, Forall_forall. split.
  - intros H He. by apply (H e He), bool_decide_eq_true.
  - intros He x Hx ->%bool_decide_eq_true. done.
Qed.

Lemma filter_edge_notin e (l : list Edge) : e ∉ l → filter (λ x, sameEdge x e ≠ true) l = l.
Proof. intros He. apply filter_all_in. intros x Hx Hxe. apply bool_decide_eq_true in Hxe as ->. done. Qed.

Lemma with_edges_back p l : with_edges (with_edges p l) (pl_edges p) = p.
Proof. by destruct p. Qed.
Lemma with_files_back p l : with_files (with_files p l) (pl_files p) = p.
Proof. by destruct p. Qed.

Lemma undo_connect p e q ch inv :
  sound p → applyConnect p e = Ok (q, ch, inv) → restores p q (Connect e) inv.
Proof.
  intros Hs. unfold applyConnect. destruct (checkEdgeEndpoints p e) as [e'|]; [|done].
  destruct (findEdge p e') eqn:Hf; [done|]. intros Ha. injection Ha as <- <- <-. apply findEdge_None in Hf.
  eapply restores_exactly; [done|]. simpl.
  destruct (findEdge _ e') as [e''|] eqn:Hf'.
  - apply findEdge_Some in Hf' as [-> _]. cbn [with_edges pl_edges]. rewrite filter_app, filter_edge_notin by done.
    rewrite filter_cons, decide_False, filter_nil, app_nil_r, with_edges_back; [done|].
    intros Hne. apply Hne. by apply bool_decide_eq_true.
  - apply findEdge_None in Hf'. destruct Hf'. cbn [with_edges pl_edges]. set_solver.
Qed.

Lemma undo_remove_edge p e q ch inv :
  sound p → applyRemoveEdge p e = Ok (q, ch, inv) → restores p q (RemoveEdge e) inv.
Proof.
  intros Hs. destruct e as [e|]; [|done]. simpl. destruct (findEdge p e) as [e'|] eqn:Hf; [|done].
  apply findEdge_Some in Hf as [-> He]. intros Ha. injection Ha as <- <- <-.
  assert (Hok : edge_ok p e) by (by apply (proj1 (Forall_forall _ _) (snd_ends p Hs))).
  eexists _, _, _. split.
  - simpl. unfold applyConnect.
    assert (checkEdgeEndpoints (with_edges p (filter (λ x, sameEdge x e ≠ true) (pl_edges p))) (Some e) = Ok e) as -> by done.
    rewrite (proj2 (findEdge_None _ _)); [done|]. cbn [with_edges pl_edges]. intros [Hne _]%list_elem_of_filter.
    apply Hne. by apply bool_decide_eq_true.
  - apply list_elem_of_split in He as (l1 & l2 & Hl). eexists. split; [exists l1, e, l2; split; [exact Hl|reflexivity]|].
    pose proof (snd_edges p Hs) as Hn. rewrite Hl in Hn. cbn [with_edges pl_edges]. rewrite Hl.
    apply NoDup_app in Hn as (_ & Hn1 & Hn2). apply NoDup_cons in Hn2 as [Hn2 _].
    rewrite filter_app, filter_cons, decide_False by (intros Hne; by apply Hne, bool_decide_eq_true).
    rewrite !filter_edge_notin by (try done; intros ?; by apply (Hn1 e); [|left]). by rewrite <-app_assoc.
Qed.

Lemma reader_of_Some path steps s port :
  reader_of path steps = Some (s, port) → ∃ x i, x ∈ steps ∧ i ∈ step_file_inputs x ∧ fi_path i = path.
Proof.
  induction steps as [|x steps IH]; simpl; [done|].
  destruct (list_find _ _) as [[n i]|] eqn:Hf.
  - intros _. apply list_find_Some in Hf as (Hi & Hp & _). exists x, i. split_and!; [by left| |done].
    by eapply list_elem_of_lookup_2.
  - intros (y & i & ? & ? & ?)%IH. exists y, i. split_and!; [by right|done..].
Qed.

Lemma undo_set_file p op q ch inv :
  sound p → applySetFile p op = Ok (q, ch, inv) → restores p q (SetFile_ op) inv.
Proof.
  intros Hs. unfold applySetFile. destruct (decide (sf_path op = "")) as [|Hpath]; [done|].
  destruct (list_find (λ f, file_path f = sf_path op) (pl_files p)) as [[n f]|] eqn:Hfind; simpl.
  - apply list_find_split in Hfind as (l1 & l2 & Hl & -> & Hf & Hl1). destruct (sf_file op) as [g|] eqn:Hg.
    + intros Ha. injection Ha as <- <- <-. eapply restores_exactly; [simpl; by rewrite Hg|]. simpl. unfold applySetFile. simpl.
      rewrite decide_False, Hl, insert_middle, list_find_at by done. simpl. rewrite insert_middle.
      assert (mkFile (sf_path op) (file_digest f) (file_size f) (file_media f) = f) as -> by (destruct f; simpl in *; by subst).
      by rewrite <-Hl, with_files_back.
    + destruct (reader_of _ _) as [[]|]; [done|]. intros Ha. injection Ha as <- <- <-.
      eexists _, _, _. split.
      * simpl. unfold applySetFile. simpl. rewrite decide_False by done. rewrite Hl, delete_middle.
        pose proof (snd_paths p Hs) as Hn. rewrite Hl, map_app in Hn. simpl in Hn.
        apply NoDup_app in Hn as (_ & Hn1 & Hn2). apply NoDup_cons in Hn2 as [Hn2 _].
        rewrite (proj2 (list_find_None _ _)); [done|]. apply Forall_forall. intros y Hy Hyp.
        assert (Hy' : file_path y = file_path f) by congruence. apply elem_of_app in Hy as [Hy|Hy].
        -- apply (Hn1 (file_path f)); [rewrite <-Hy'; by apply (list_elem_of_fmap_2 file_path)|by left].
        -- apply Hn2. rewrite <-Hy'. by apply (list_elem_of_fmap_2 file_path).
      * simpl. rewrite Hg. eexists. split; [exists l1, f, l2; split; [exact Hl|reflexivity]|]. cbn [with_files pl_files].
        rewrite <-Hf, <-app_assoc. by destruct f.
  - apply list_find_None in Hfind. destruct (sf_file op) as [g|] eqn:Hg; [|done].
    intros Ha. injection Ha as <- <- <-. eapply restores_exactly; [simpl; by rewrite Hg|]. simpl. unfold applySetFile. simpl.
    rewrite decide_False, list_find_at by done. simpl.
    destruct (reader_of _ _) as [[s port]|] eqn:Hr.
    + apply reader_of_Some in Hr as (x & i & Hx & Hi & Hpi).
      pose proof (proj1 (Forall_forall _ _) (proj1 (Forall_forall _ _) (snd_bound p Hs) x Hx) i Hi) as Hin.
      apply (list_elem_of_fmap file_path) in Hin as (y & Hy & Hyin). rewrite Forall_forall in Hfind. destruct (Hfind y Hyin). congruence.
    + by rewrite delete_middle, app_nil_r, with_files_back.
Qed.

Lemma undo_step_op p op id q ch inv :
  step_of op = Some id → Forall expressible (pl_steps p) → apply_op p op = Ok (q, ch, inv) → restores p q op inv.
Proof.
  intros Hop Hexp Ha. destruct (step_op_undone _ _ _ _ _ _ Hop Hexp Ha) as (s & s' & Hs & -> & Hports & _ & redo & Hback).
  pose proof (findStep_id _ _ _ Hs) as Hid.
  destruct (set_step_undo p id s s' Hs) as [Hnew Hold]; [rewrite (proj1 Hports); done|].
  assert (Hid' : step_id s' = id) by (rewrite (proj1 Hports); done). rewrite <-Hid' in Hnew.
  destruct (Hback _ Hnew) as [ch' Hundo]. rewrite Hid', Hold in Hundo. eapply restores_exactly; [by destruct op|done].
Qed.

(** ** What is checked before an edit is stored *)

Lemma check_file_spec has declared f d :
  check_file has declared f = Ok d → file_path f ≠ "" ∧ file_path f ∉ declared ∧ d = {[ file_path f ]} ∪ declared.
Proof.
  unfold check_file. repeat case_decide; try done. destruct has as [has|]; [|by intros [= <-]].
  destruct (has _) as [[]|]; [by intros [= <-]|done..].
Qed.

Lemma checked_files has p :
  checkDefinitionFiles has p = Ok tt →
  NoDup (map file_path (pl_files p)) ∧ Forall (λ f, file_path f ≠ "") (pl_files p)
  ∧ Forall (λ s, Forall (λ i, fi_path i ∈ map file_path (pl_files p)) (step_file_inputs s)) (pl_steps p).
Proof.
  unfold checkDefinitionFiles. destruct (fold_result _ ∅ _) as [declared|] eqn:Hf; simpl; [|done]. intros Hs.
  assert (Hdecl : declared = list_to_set (map file_path (pl_files p)) ∧ NoDup (map file_path (pl_files p))
                  ∧ Forall (λ f, file_path f ≠ "") (pl_files p)).
  { refine (fold_result_inv (λ l d, d = list_to_set (map file_path l) ∧ NoDup (map file_path l)
                                   ∧ Forall (λ f, file_path f ≠ "") l) _ _ _ _ _ _ Hf).
    - split_and!; [done|constructor|constructor].
    - intros pre f d d' (-> & Hn & Hne) (Hp & Hfresh & ->)%check_file_spec. rewrite map_app. simpl. split_and!.
      + rewrite list_to_set_app_L. simpl. set_solver.
      + rewrite not_elem_of_list_to_set in Hfresh. apply NoDup_app. split_and!; [done| |apply NoDup_singleton].
        intros x Hx ->%list_elem_of_singleton. done.
      + apply Forall_app. split; [done|]. by constructor. }
  destruct Hdecl as (-> & Hn & Hne). split_and!; [done..|].
  revert Hs. apply (fold_result_inv (λ l _, Forall _ l)); [constructor|].
  intros pre s [] [] Hpre Hstep. apply Forall_app. split; [done|]. constructor; [|constructor].
  revert Hstep. apply (fold_result_inv (λ l _, Forall _ l)); [constructor|].
  intros ipre i [] [] Hipre Hi. apply Forall_app. split; [done|]. constructor; [|constructor].
  unfold check_file_input in Hi. case_decide as Hd; [done|]. by apply elem_of_list_to_set in Hd.
Qed.

(** ** An edit keeps the graph sound *)

Lemma set_property_ports s id property value s' old :
  set_property s id property value = Ok (s', old) → same_ports s s'.
Proof. unfold set_property. repeat case_match; intros; by simplify_eq. Qed.

Lemma step_op_ports p op id q ch inv :
  step_of op = Some id → apply_op p op = Ok (q, ch, inv) →
  ∃ s s', findStep p id = Some s ∧ q = set_step p id s' ∧ same_ports s s'.
Proof.
  intros Hop Ha. destruct op; simpl in Hop, Ha; simplify_eq;
    unfold applySetProperty, applySetStepConfig, applySetStepSecret, applySetStepCapability, applyRename, scan in Ha.
  - destruct (findStep p id) as [s|]; [|done]. destruct (set_property s id property value) as [[s' old]|] eqn:Hset; [|done].
    injection Ha as <- _ _. apply set_property_ports in Hset. eauto.
  - destruct (findStep _ _) as [s|]; [|done]. exists s. repeat case_match; simplify_eq; by eexists.
  - destruct (findStep _ _) as [s|]; [|done]. exists s. repeat case_match; simplify_eq; by eexists.
  - destruct (findStep _ _) as [s|]; [|done]. exists s. repeat case_match; simplify_eq; by eexists.
  - destruct (findStep _ _) as [s|]; [|done]. simplify_eq. by eexists _, _.
Qed.

Record graph_sound (p : Pipeline) : Prop :=
  { gs_ids : NoDup (map step_id (pl_steps p));
    gs_named : Forall (λ s, step_id s ≠ "") (pl_steps p);
    gs_edges : NoDup (pl_edges p);
    gs_ends : Forall (edge_ok p) (pl_edges p) }.

Lemma sound_graph p : sound p → graph_sound p.
Proof. by intros []. Qed.

Lemma named_iff p : Forall (λ s, step_id s ≠ "") (pl_steps p) ↔ "" ∉ map step_id (pl_steps p).
Proof.
  rewrite Forall_forall. split.
  - intros H Hin. apply (list_elem_of_fmap step_id) in Hin as (s & Hs & Hin). by apply (H s).
  - intros H s Hin Hs. apply H. rewrite <-Hs. by apply (list_elem_of_fmap_2 step_id).
Qed.

Lemma Forall_filtered {A} (P Q : A → Prop) `{∀ x, Decision (Q x)} (l : list A) : Forall P l → Forall P (filter Q l).
Proof. rewrite !Forall_forall. intros HP x [_ Hx]%list_elem_of_filter. by apply HP. Qed.

(** A step kept by both pipelines keeps an edge valid. *)
Lemma edge_ok_mono p q e :
  (∀ id, id = from_step e ∨ id = to_step e → is_Some (findStep p id) → findStep q id = findStep p id) →
  edge_ok p e → edge_ok q e.
Proof.
  intros Hkeep (a & b & Ha & Hpa & Hb & Hpb)%edge_ok_iff. apply edge_ok_iff. exists a, b.
  rewrite !Hkeep by eauto. done.
Qed.

Lemma findStep_app p l id s :
  findStep p id = Some s → findStep (with_steps p (pl_steps p ++ l)) id = Some s.
Proof.
  unfold findStep. cbn [with_steps pl_steps]. rewrite !fmap_Some. intros ([n x] & Hf & ->).
  exists (n, x). by rewrite (list_find_app_l _ _ _ _ _ Hf).
Qed.

Lemma findStep_filter p id id' :
  id' ≠ id → findStep (with_steps p (filter (λ s, step_id s ≠ id) (pl_steps p))) id' = findStep p id'.
Proof.
  intros Hne. unfold findStep. cbn [with_steps pl_steps]. induction (pl_steps p) as [|s l IH]; [done|].
  rewrite filter_cons. destruct (decide (step_id s ≠ id)) as [Hs|Hs]; simpl.
  - destruct (decide (step_id s = id')); [done|].
    destruct (list_find _ (filter _ l)) as [[]|], (list_find _ l) as [[]|]; naive_solver.
  - apply dec_stable in Hs. rewrite decide_False by congruence.
    destruct (list_find _ (filter _ l)) as [[]|], (list_find _ l) as [[]|]; naive_solver.
Qed.

Lemma graph_step_op p op id q ch inv :
  graph_sound p → step_of op = Some id → apply_op p op = Ok (q, ch, inv) → graph_sound q.
Proof.
  intros [Hids Hnamed Hedges Hends] Hop Ha.
  destruct (step_op_ports _ _ _ _ _ _ Hop Ha) as (s & s' & Hs & -> & Hports).
  pose proof (findStep_id _ _ _ Hs) as Hid. assert (step_id s' = id) as Hid' by (rewrite (proj1 Hports); done).
  split.
  - by rewrite set_step_ids.
  - by rewrite named_iff, set_step_ids, <-named_iff.
  - done.
  - eapply Forall_impl; [exact Hends|]. intros e He. by apply (edge_ok_set_step p id s).
Qed.

Lemma graph_apply p op q ch inv : graph_sound p → apply_op p op = Ok (q, ch, inv) → graph_sound q.
Proof.
  intros Hg Ha. destruct (step_of op) as [id|] eqn:Hop; [by eapply graph_step_op|].
  destruct Hg as [Hids Hnamed Hedges Hends]. destruct op; try done; simpl in Ha.
  - unfold applyAddStep in Ha. case_decide as Hid; [done|]. destruct (findStep _ _) eqn:Hf; [done|]. simplify_eq.
    rewrite findStep_None in Hf. split; cbn [with_steps pl_steps pl_edges].
    + rewrite map_app. apply NoDup_app. split_and!; [done| |apply NoDup_singleton].
      intros x (y & -> & Hy)%(list_elem_of_fmap step_id) Hx%list_elem_of_singleton. by apply (Hf y).
    + apply Forall_app. split; [done|]. by constructor.
    + done.
    + eapply Forall_impl; [exact Hends|]. intros e. apply edge_ok_mono.
      intros id' _ [s' Hs']. rewrite Hs'. by apply findStep_app.
  - unfold applyRemoveStep in Ha. destruct (findStep _ _) as [s|] eqn:Hf; [|done].
    destruct (list_find _ _) as [[]|] eqn:He; [done|]. simplify_eq. apply list_find_None in He.
    split; cbn [with_steps pl_steps pl_edges].
    + eapply sublist_NoDup; [exact Hids|]. apply (fmap_sublist step_id), sublist_filter.
    + by apply Forall_filtered.
    + done.
    + rewrite Forall_forall in He, Hends |- *. intros e Hin. apply (edge_ok_mono p); [|by apply Hends].
      intros id' Hid' _. apply findStep_filter. intros ->. apply (He e Hin). destruct Hid'; eauto.
  - unfold applyConnect in Ha. destruct edge as [e|]; [|done].
    destruct (checkEdgeEndpoints p (Some e)) as [e'|] eqn:Hc; [|done]. apply edge_ok_check in Hc as [-> Hok].
    destruct (findEdge p e) eqn:Hf; [done|]. simplify_eq. apply findEdge_None in Hf.
    split; cbn [with_edges pl_steps pl_edges]; [done..| |].
    + apply NoDup_app. split_and!; [done| |apply NoDup_singleton]. intros x Hx ->%list_elem_of_singleton. done.
    + apply Forall_app. split; [done|]. by constructor.
  - unfold applyRemoveEdge in Ha. destruct edge as [e|]; [|done]. destruct (findEdge p e); [|done]. simplify_eq.
    split; cbn [with_edges pl_steps pl_edges]; [done..| |].
    + eapply sublist_NoDup; [exact Hedges|apply sublist_filter].
    + by apply Forall_filtered.
  - unfold applySetFile in Ha. repeat case_match; simplify_eq; by split.
Qed.

(** C34: Undo. From a sound definition whose steps the wire can carry, the
    inverse [Apply] answers is accepted, and gives back exactly the definition
    the operation was applied to - but for the three operations that take an
    element out (RemoveStep, RemoveEdge and a SetFile that detaches), whose
    inverse puts the element back as the last of its list and leaves
    everything else as it was. *)
Theorem undo_restores p op q ch inv :
  sound p → Forall expressible (pl_steps p) → Apply (Some p) (Some op) = Ok (q, ch, inv) →
  ∃ r ch' redo, Apply (Some q) (Some inv) = Ok (r, ch', redo) ∧ comes_back op p r.
Proof.
  intros Hs Hexp Ha. change (restores p q op inv). simpl in Ha.
  destruct (step_of op) as [id|] eqn:Hop; [by eapply undo_step_op|].
  destruct op; try done; simpl in Ha.
  - by eapply undo_add_step.
  - by eapply undo_remove_step.
  - by eapply undo_connect.
  - by eapply undo_remove_edge.
  - by eapply undo_set_file.
Qed.

(** C35: An edit that is stored is sound. From a sound definition, whatever
    [Apply] accepts and [checkDefinitionFiles] then passes has distinct named
    steps, distinct edges between ports that exist, and distinct named files
    covering every binding. *)
Theorem edits_stay_sound has p op q ch inv :
  sound p → Apply (Some p) (Some op) = Ok (q, ch, inv) → checkDefinitionFiles has q = Ok tt → sound q.
Proof.
  intros Hs Ha (Hpaths & Hnamed & Hbound)%checked_files.
  destruct (graph_apply _ _ _ _ _ (sound_graph _ Hs) Ha). by constructor.
Qed.

(** ** What changed between two revisions *)

Lemma steps_by_id_app l s : steps_by_id (l ++ [s]) = <[step_id s := s]> (steps_by_id l).
Proof. unfold steps_by_id. by rewrite foldl_app. Qed.

Lemma steps_by_id_find p id : NoDup (map step_id (pl_steps p)) → steps_by_id (pl_steps p) !! id = findStep p id.
Proof.
  unfold findStep. induction (pl_steps p) as [|s l IH] using rev_ind; [done|].
  rewrite map_app, steps_by_id_app. intros (Hn & Hs & _)%NoDup_app. specialize (IH Hn).
  destruct (decide (step_id s = id)) as [<-|Hne].
  - rewrite lookup_insert_eq, list_find_app_r.
    + simpl. by rewrite decide_True.
    + apply list_find_None, Forall_forall. intros y Hy Hyid. apply (Hs (step_id s)); [|by left].
      rewrite <-Hyid. by apply (list_elem_of_fmap_2 step_id).
  - rewrite lookup_insert_ne, IH by done. destruct (list_find _ l) as [[n x]|] eqn:Hf.
    + by rewrite (list_find_app_l _ _ _ _ _ Hf).
    + rewrite list_find_app_r by done. simpl. by rewrite decide_False.
Qed.

Lemma changed_step_mono steps changed s : changed ⊆ (changed_step (steps, changed) s).2.
Proof. unfold changed_step. simpl. repeat case_match; set_solver. Qed.

Lemma changed_step_fst steps changed s : (changed_step (steps, changed) s).1 = delete (step_id s) steps.
Proof. done. Qed.

Lemma changed_steps_mono l steps changed : changed ⊆ (foldl changed_step (steps, changed) l).2.
Proof.
  revert steps changed. induction l as [|s l IH]; intros steps changed; [done|]. cbn [foldl].
  destruct (changed_step (steps, changed) s) as [steps' changed'] eqn:E.
  etrans; [|apply IH]. pose proof (changed_step_mono steps changed s) as H. by rewrite E in H.
Qed.

(** What the loop over the steps leaves, and what it must have reported. *)
Lemma changed_steps_spec l steps changed :
  NoDup (map step_id l) →
  let '(left_, found) := foldl changed_step (steps, changed) l in
  (∀ id, id ∉ map step_id l → left_ !! id = steps !! id)
  ∧ ∀ s, s ∈ l → steps !! step_id s ≠ Some s → ("step:" +:+ step_id s) ∈ found.
Proof.
  revert steps changed. induction l as [|s l IH]; intros steps changed Hn; cbn [foldl].
  { split; [done|]. intros s Hs. by apply elem_of_nil in Hs. }
  cbn [map] in Hn. apply NoDup_cons in Hn as [Hs Hn].
  destruct (changed_step (steps, changed) s) as [steps' changed'] eqn:E.
  pose proof (changed_step_fst steps changed s) as Hfst. rewrite E in Hfst. simpl in Hfst.
  pose proof (changed_steps_mono l steps' changed') as Hmono.
  specialize (IH steps' changed' Hn). destruct (foldl changed_step (steps', changed') l) as [left_ found].
  destruct IH as [Hleft Hfound]. split.
  - intros id Hid. cbn [map] in Hid. apply not_elem_of_cons in Hid as [Hne Hid].
    rewrite Hleft, Hfst, lookup_delete_ne by done. done.
  - intros x [->|Hx]%elem_of_cons Hdiff.
    + apply Hmono. simpl. unfold changed_step in E. injection E as _ <-.
      destruct (steps !! step_id s) as [old|]; [|set_solver]. rewrite decide_True by congruence. set_solver.
    + apply Hfound; [done|]. rewrite Hfst, lookup_delete_ne; [done|]. intros Heq. apply Hs. rewrite Heq.
      by apply (list_elem_of_fmap_2 step_id).
Qed.

Lemma changed_edges_mono l edges changed : changed ⊆ (foldl changed_edge (edges, changed) l).2.
Proof.
  revert edges changed. induction l as [|e l IH]; intros edges changed; [done|]. cbn [foldl].
  destruct (changed_edge (edges, changed) e) as [edges' changed'] eqn:E. etrans; [|apply IH].
  unfold changed_edge in E. case_decide; simplify_eq; set_solver.
Qed.

Lemma unchanged_step before after id :
  NoDup (map step_id (pl_steps before)) → NoDup (map step_id (pl_steps after)) →
  ("step:" +:+ id) ∉ changedBetween before after → findStep before id = findStep after id.
Proof.
  intros Hb Ha. unfold changedBetween.
  pose proof (changed_steps_spec (pl_steps after) (steps_by_id (pl_steps before)) {[ "pipeline" ]} Ha) as Hspec.
  destruct (foldl changed_step _ _) as [left_ found] eqn:E. destruct Hspec as [Hleft Hfound].
  match goal with |- context [foldl changed_edge ?acc ?l] =>
    pose proof (changed_edges_mono l acc.1 acc.2) as Hmono; destruct (foldl changed_edge acc l) as [edges found'] eqn:E' end.
  cbn [fst snd] in Hmono. rewrite E' in Hmono. cbn [snd] in Hmono.
  intros Hnot. rewrite <-!steps_by_id_find by done.
  destruct (steps_by_id (pl_steps after) !! id) as [s|] eqn:Hs.
  - rewrite steps_by_id_find in Hs by done. apply findStep_Some in Hs as [Hin <-].
    destruct (decide (steps_by_id (pl_steps before) !! step_id s = Some s)) as [|Hne]; [done|].
    destruct Hnot. specialize (Hfound s Hin Hne). set_solver.
  - destruct (steps_by_id (pl_steps before) !! id) as [s|] eqn:Hsb; [|done]. exfalso. apply Hnot.
    rewrite steps_by_id_find in Hs by done. rewrite findStep_None in Hs.
    assert (Hl : left_ !! id = Some s).
    { rewrite Hleft; [done|]. intros (x & Hx & Hxin)%(list_elem_of_fmap step_id). by apply (Hs x). }
    apply elem_of_union_l. apply Hmono. apply elem_of_union_r, elem_of_map. exists id.
    split; [done|]. by apply elem_of_dom.
Qed.

(** ** Merging *)

Lemma step_key_inj a b : "step:" +:+ a = "step:" +:+ b ↔ a = b.
Proof. split; [apply string_app_inj_l|by intros ->]. Qed.

Lemma step_touched op id : step_of op = Some id → touchedBy op = {[ "step:" +:+ id ]}.
Proof. by destruct op; simpl; intros [= ->]. Qed.

Definition edge_of (op : Operation) : option Edge :=
  match op with Connect e | RemoveEdge e => e | _ => None end.

Lemma findStep_set_step p id s s' id' :
  findStep p id = Some s → step_id s' = id →
  findStep (set_step p id s') id' = if decide (id' = id) then Some s' else findStep p id'.
Proof.
  intros Hs Hid. destruct (decide (id' = id)) as [->|Hne].
  - by apply (set_step_undo p id s s').
  - by apply findStep_set_ne.
Qed.

(** An operation on one step reads nothing but that step. *)
Lemma step_op_same p q op id p' q' c1 i1 c2 i2 :
  step_of op = Some id → findStep p id = findStep q id →
  apply_op p op = Ok (p', c1, i1) → apply_op q op = Ok (q', c2, i2) →
  ∃ s s', findStep q id = Some s ∧ step_id s' = id ∧ p' = set_step p id s' ∧ q' = set_step q id s'.
Proof.
  intros Hop Hpq Hp Hq. destruct op; simpl in Hop, Hp, Hq; simplify_eq;
    unfold applySetProperty, applySetStepConfig, applySetStepSecret, applySetStepCapability, applyRename, scan in *;
    rewrite Hpq in Hp; destruct (findStep q _) as [s|] eqn:Hs; try done; exists s;
    pose proof (findStep_id _ _ _ Hs) as Hid.
  - destruct (set_property s id property value) as [[s' old]|] eqn:Hset; [|done].
    injection Hp as <- _ _. injection Hq as <- _ _. apply set_property_ports in Hset as [Hports _].
    exists s'. split_and!; try done. by etrans.
  - repeat case_match; simplify_eq; refine (ex_intro _ _ (conj _ (conj _ (conj eq_refl eq_refl)))); done.
  - repeat case_match; simplify_eq; refine (ex_intro _ _ (conj _ (conj _ (conj eq_refl eq_refl)))); done.
  - repeat case_match; simplify_eq; refine (ex_intro _ _ (conj _ (conj _ (conj eq_refl eq_refl)))); done.
  - simplify_eq. refine (ex_intro _ _ (conj _ (conj _ (conj eq_refl eq_refl)))); done.
Qed.

(** What an operation that names no step and no edge leaves alone, and what
    the others do, as lookups. *)
Lemma apply_lookup p op q ch inv :
  apply_op p op = Ok (q, ch, inv) →
  (∀ id, ("step:" +:+ id) ∉ touchedBy op → findStep q id = findStep p id)
  ∧ (∀ e, edge_of op ≠ Some e → e ∈ pl_edges q ↔ e ∈ pl_edges p)
  ∧ (∀ e, edge_of op = Some e → e ∈ pl_edges q ↔ ∃ e', op = Connect e')
  ∧ (sf_file <$> match op with SetFile_ op => Some op | _ => None end = None → pl_files q = pl_files p).
Proof.
  intros Ha. destruct (step_of op) as [id|] eqn:Hop.
  { destruct (step_op_ports _ _ _ _ _ _ Hop Ha) as (s & s' & Hs & -> & Hports & _).
    pose proof (findStep_id _ _ _ Hs) as Hid. split_and!.
    - intros id' Hnot. rewrite (step_touched _ _ Hop), elem_of_singleton, step_key_inj in Hnot.
      apply findStep_set_ne; [by etrans|done].
    - done.
    - intros e He. destruct op; done.
    - done. }
  destruct op as [s|i|e|e| | | | |o|]; try done; simpl in Ha.
  - unfold applyAddStep in Ha. case_decide; [done|]. destruct (findStep _ _) eqn:Hf; [done|]. simplify_eq.
    split_and!; try done. intros id Hnot. cbn [touchedBy] in Hnot.
    rewrite elem_of_union, !elem_of_singleton, step_key_inj in Hnot.
    unfold findStep in *. cbn [with_steps pl_steps]. destruct (list_find (λ y, step_id y = id) (pl_steps p)) as [[n x]|] eqn:Hx.
    + by rewrite (list_find_app_l _ _ _ _ _ Hx).
    + rewrite list_find_app_r by done. simpl. rewrite decide_False by naive_solver. done.
  - unfold applyRemoveStep in Ha. destruct (findStep _ _) eqn:Hf; [|done].
    destruct (list_find _ _) as [[]|]; [done|]. simplify_eq. split_and!; try done.
    intros id' Hnot. cbn [touchedBy] in Hnot. rewrite elem_of_union, !elem_of_singleton, step_key_inj in Hnot.
    apply findStep_filter. naive_solver.
  - unfold applyConnect in Ha. destruct e as [e|]; [|done].
    destruct (checkEdgeEndpoints p (Some e)) as [e'|] eqn:Hc; [|done]. apply edge_ok_check in Hc as [-> _].
    destruct (findEdge p e); [done|]. simplify_eq. split_and!; try done; simpl.
    + intros e' Hne. rewrite elem_of_app, list_elem_of_singleton. naive_solver.
    + intros e' [= <-]. split; [eauto|]. intros _. set_solver.
  - unfold applyRemoveEdge in Ha. destruct e as [e|]; [|done]. destruct (findEdge p e); [|done]. simplify_eq.
    split_and!; try done; simpl.
    + intros e' Hne. rewrite list_elem_of_filter. split; [tauto|]. intros He. split; [|done].
      intros He'%bool_decide_eq_true. by subst.
    + intros e' [= <-]. rewrite list_elem_of_filter. split; [|by intros [? ?]].
      intros [Hne _]. destruct Hne. by apply bool_decide_eq_true.
  - unfold applySetFile in Ha. repeat case_match; simplify_eq; split_and!; try done.
Qed.

(** The edit's own step, in a definition the edit was applied to. *)
Lemma apply_own p q op p' q' c1 i1 c2 i2 id :
  graph_sound p → graph_sound q → ("step:" +:+ id) ∈ touchedBy op → findStep p id = findStep q id →
  apply_op p op = Ok (p', c1, i1) → apply_op q op = Ok (q', c2, i2) → findStep p' id = findStep q' id.
Proof.
  intros Hp Hq Hin Hpq Ha Hb. destruct (step_of op) as [id'|] eqn:Hop.
  { rewrite (step_touched _ _ Hop), elem_of_singleton, step_key_inj in Hin. subst id'.
    destruct (step_op_same _ _ _ _ _ _ _ _ _ _ Hop Hpq Ha Hb) as (s & s' & Hs & Hid & -> & ->).
    rewrite !(findStep_set_step _ id s s') by (by rewrite ?Hpq). by rewrite !decide_True. }
  destruct op as [s|i|e|e| | | | |o|]; try done; cbn [touchedBy] in Hin; simpl in Ha, Hb.
  - rewrite elem_of_union, !elem_of_singleton, step_key_inj in Hin.
    destruct Hin as [Hin|Hin]; [done|]. subst id.
    unfold applyAddStep in *. case_decide; [done|].
    destruct (findStep p _) eqn:Hfp; [done|]. destruct (findStep q _) eqn:Hfq; [done|]. simplify_eq.
    rewrite !(findStep_at _ (step_id s) _ s []) by (done || apply Forall_forall; by apply findStep_None). done.
  - rewrite elem_of_union, !elem_of_singleton, step_key_inj in Hin. destruct Hin as [Hin|Hin]; [done|]. subst i.
    unfold applyRemoveStep in *. destruct (findStep p id); [|done]. destruct (findStep q id); [|done].
    destruct (list_find _ (pl_edges p)) as [[]|]; [done|]. destruct (list_find _ (pl_edges q)) as [[]|]; [done|].
    simplify_eq. trans (@None Step); [|symmetry];
      (apply findStep_None; intros y; cbn [with_steps pl_steps]; rewrite list_elem_of_filter; tauto).
  - exfalso. revert Hin. unfold touched_edge. set_unfold. naive_solver.
  - exfalso. revert Hin. unfold touched_edge. set_unfold. naive_solver.

Qed.

(** A merged edit keeps both changes. When the edit's base has moved and
    the two changes are disjoint, applying the edit to the moved definition
    gives, for every step and edge the edit touches, what its author saw, and
    for every other step, edge and file what the other editor left. *)
Theorem merge_keeps_both base head op p1 h1 c1 i1 c2 i2 :
  sound base → sound head → disjoint_edit base head op = true →
  Apply (Some base) (Some op) = Ok (p1, c1, i1) → Apply (Some head) (Some op) = Ok (h1, c2, i2) →
  (∀ id, findStep h1 id = if decide (("step:" +:+ id) ∈ touchedBy op) then findStep p1 id else findStep head id)
  ∧ (∀ e, e ∈ pl_edges h1 ↔ if decide (edge_of op = Some e) then e ∈ pl_edges p1 else e ∈ pl_edges head)
  ∧ pl_files h1 = pl_files head.
Proof.
  intros Hb Hh Hdis%bool_decide_eq_true Hp1 Hh1. simpl in Hp1, Hh1.
  destruct (apply_lookup _ _ _ _ _ Hp1) as (_ & _ & He1 & _).
  destruct (apply_lookup _ _ _ _ _ Hh1) as (Hs2 & He2 & He2' & Hf2). split_and!.
  - intros id. case_decide as Hin; [|by apply Hs2]. symmetry.
    apply (apply_own base head op p1 h1 c1 i1 c2 i2); [by apply sound_graph|by apply sound_graph|done| |done..].
    apply unchanged_step; [apply Hb|apply Hh|]. set_solver.
  - intros e. case_decide as He; [|by apply He2]. rewrite He1, He2' by done. done.
  - destruct op; try (by apply Hf2). exfalso. revert Hdis. simpl.
    assert (Hpipe : "pipeline" ∈ changedBetween base head); [|set_solver].
    unfold changedBetween. destruct (foldl changed_step _ _) as [l found] eqn:E.
    pose proof (changed_steps_mono (pl_steps head) (steps_by_id (pl_steps base)) {[ "pipeline" ]}) as H1. rewrite E in H1.
    match goal with |- context [foldl changed_edge ?acc ?l] =>
      pose proof (changed_edges_mono l acc.1 acc.2) as H2; destruct (foldl changed_edge acc l) as [edges found'] eqn:E' end.
    cbn [fst snd] in H2. rewrite E' in H2. cbn [snd] in H1, H2. set_solver.
Qed.

(** ** Worked examples *)

Definition ex_step (id : string) (ins outs : list string) : Step :=
  mkStep id id "reg/p:1" EFFECT_CLASS_PURE (map (λ n, mkPort n None) ins) (map (λ n, mkPort n None) outs) []
    LEASE_SCOPE_STEP ∅ "" "" 0 [] [].
Definition ex_edge : Edge := mkEdge "build" "out" "test" "in".
Definition ex_pipeline : Pipeline :=
  mkPipeline "p" [ex_step "lint" [] []; ex_step "build" [] ["out"]; ex_step "test" ["in"] []] [ex_edge] [].

Lemma ex_sound : sound ex_pipeline.
Proof. split; repeat first [constructor|done|by (apply not_elem_of_nil)|set_solver]. Defined.

Lemma ex_expressible : Forall expressible (pl_steps ex_pipeline).
Proof. repeat constructor; done. Defined.

Lemma undo_restores_witness :
  ∃ q ch inv, Apply (Some ex_pipeline) (Some (SetProperty "test" "timeout_seconds" "90")) = Ok (q, ch, inv)
    ∧ ∃ r ch' redo, Apply (Some q) (Some inv) = Ok (r, ch', redo)
        ∧ comes_back (SetProperty "test" "timeout_seconds" "90") ex_pipeline r.
Proof.
  eexists _, _, _. split; [vm_compute; reflexivity|].
  apply (undo_restores ex_pipeline _ _ (step_change CHANGE_KIND_CHANGED "test") (SetProperty "test" "timeout_seconds" "0"));
    [exact ex_sound|exact ex_expressible|vm_compute; reflexivity].
Defined.

Lemma edits_stay_sound_witness :
  ∃ q ch inv, Apply (Some ex_pipeline) (Some (AddStep (ex_step "deploy" ["in"] []))) = Ok (q, ch, inv) ∧ sound q.
Proof.
  eexists _, _, _. split; [vm_compute; reflexivity|].
  apply (edits_stay_sound None ex_pipeline (AddStep (ex_step "deploy" ["in"] [])) _
           (step_change CHANGE_KIND_ADDED "deploy") (RemoveStep "deploy"));
    [exact ex_sound|vm_compute; reflexivity|vm_compute; reflexivity].
Defined.

(** Another editor renamed [lint] while this one set a timeout on [test]. *)
Definition ex_head : Pipeline :=
  mkPipeline "p" [with_name "linter" (ex_step "lint" [] []); ex_step "build" [] ["out"]; ex_step "test" ["in"] []] [ex_edge] [].

Lemma ex_head_sound : sound ex_head.
Proof. split; repeat first [constructor|done|by (apply not_elem_of_nil)|set_solver]. Defined.

Lemma merge_keeps_both_witness :
  ∃ h1 c2 i2, Apply (Some ex_head) (Some (SetProperty "test" "timeout_seconds" "90")) = Ok (h1, c2, i2)
    ∧ step_name <$> findStep h1 "lint" = Some "linter" ∧ step_timeout_seconds <$> findStep h1 "test" = Some 90.
Proof.
  destruct (Apply (Some ex_pipeline) (Some (SetProperty "test" "timeout_seconds" "90"))) as [[[p1 c1] i1]|] eqn:Ep;
    [|vm_compute in Ep; discriminate].
  destruct (Apply (Some ex_head) (Some (SetProperty "test" "timeout_seconds" "90"))) as [[[h1 c2] i2]|] eqn:Eh;
    [|vm_compute in Eh; discriminate].
  destruct (merge_keeps_both ex_pipeline ex_head (SetProperty "test" "timeout_seconds" "90") p1 h1 c1 i1 c2 i2
              ex_sound ex_head_sound eq_refl Ep Eh) as [Hsteps _].
  exists h1, c2, i2. split; [done|]. rewrite !Hsteps. vm_compute in Ep. injection Ep as <- _ _. split; vm_compute; reflexivity.
Defined.

(** Undoing the removal of a step, an edge or a file is not exact: the
    element comes back at the end of its list. Here it is a step; the
    definition it gives back is another one, with another encoding. *)
Theorem undone_removal_is_another_definition :
  ∃ q ch inv r ch' redo,
    Apply (Some ex_pipeline) (Some (RemoveStep "lint")) = Ok (q, ch, inv)
    ∧ Apply (Some q) (Some inv) = Ok (r, ch', redo)
    ∧ map step_id (pl_steps ex_pipeline) = ["lint"; "build"; "test"] ∧ map step_id (pl_steps r) = ["build"; "test"; "lint"]
    ∧ ∀ encode : Pipeline → string, Inj (=) (=) encode → encode r ≠ encode ex_pipeline.
Proof.
  eexists _, _, _, _, _, _. split; [vm_compute; reflexivity|]. split; [vm_compute; reflexivity|].
  split; [reflexivity|]. split; [reflexivity|].
  intros encode Hinj Heq%Hinj. apply (f_equal (map step_id ∘ pl_steps)) in Heq. vm_compute in Heq. discriminate.
Qed.

(** [edgeKey] joins the fields with a bar and escapes nothing. *)
Lemma edgeKey_is_ambiguous :
  edgeKey (mkEdge "a|b" "c" "d" "e") = edgeKey (mkEdge "a" "b|c" "d" "e")
  ∧ mkEdge "a|b" "c" "d" "e" ≠ mkEdge "a" "b|c" "d" "e".
Proof. by split. Qed.
