(* ===== verification/Definitions.v ===== *)
(** * Definitions, revisions and heads: [internal/defstore], and the edits of [internal/api]

    A statement is the function on the tables it performs, as in [RunStore];
    a transaction is the composition of its statements, atomic on SQLite. The
    handlers that read, save and move the head in separate transactions are
    split where another plane can act: [CreatePipeline] and [ApplyOperation]
    of [server.go]. SHA-256, the protobuf encoding and the plugin resolver are
    parameters. *)

From S2P Require Import Prelude Bytes Proto.
From S2P Require Import RunStore.
From S2P Require Import Operations.

(** ** [revision.go] *)

(** [State] is a string; these are its named values, stored verbatim. *)
Definition StateDraft : string := "draft".
Definition StateReviewed : string := "reviewed".
Definition StateActive : string := "active".

Record Revision : Type := mkRevision
  { rv_ID : string; rv_PipelineID : string; rv_ContentHash : string; rv_State : string;
    rv_Lockfile : gmap string string; rv_Author : string; rv_Approver : string }.

Definition hashDomain : string := "dhole.v1.Pipeline" +:+ String (Ascii.ascii_of_N 0) "".

(** ** The tables *)

(** A row of [revisions]; its key is the tenant and the revision's id. The
    lockfile is kept as the map its JSON encodes. *)
Record RevRow : Type := mkRevRow { rr_rev : Revision; rr_definition : string; rr_created : Z }.

Record DefDB : Type := mkDefDB
  { db_pipelines : gmap (string * string) Z;
    db_revisions : gmap (string * string) RevRow;
    db_heads : gmap (string * string) string }.

Definition empty_defs : DefDB := mkDefDB ∅ ∅ ∅.

Definition with_revisions (db : DefDB) (m : gmap (string * string) RevRow) : DefDB :=
  mkDefDB (db_pipelines db) m (db_heads db).
Definition with_heads (db : DefDB) (m : gmap (string * string) string) : DefDB :=
  mkDefDB (db_pipelines db) (db_revisions db) m.

Inductive DefErr : Type :=
| DefTenantRequired
| DefNotFound
| DefNoActive
| DefSelfApproval (approver : string)
| DefNilPipeline
| DefUnpinned (n : nat)
| DefResolve (ref why : string)
| DefNoDigest (ref : string)
| DefDecode (revision : string)
| DefHeadMoved (pipeline from : string)
| DefRevisionRequired.

(** ** [lockfile.go] *)

Definition pluginRefs (p : Pipeline) : list string :=
  compact (sort_strings (filter (λ ref, ref ≠ "") (map (λ s, TrimSpace (step_plugin_ref s)) (pl_steps p)))).

(** A resolver, per tenant and reference; a nil digest reads as the empty one. *)
Abbreviation Resolver := (string → string → result string Digest).

Definition pin (r : Resolver) (tenant : string) (lockfile : gmap string string) (ref : string)
    : result DefErr (gmap string string) :=
  match r tenant ref with
  | Err why => Err (DefResolve ref why)
  | Ok digest =>
      if decide (d_hex digest = "") then Err (DefNoDigest ref)
      else Ok (<[ref := d_algo digest +:+ ":" +:+ d_hex digest]> lockfile)
  end.

Definition ResolveLockfile (tenant : string) (p : option Pipeline) (r : option Resolver)
    : result DefErr (gmap string string) :=
  if decide (tenant = "") then Err DefTenantRequired
  else match p with
       | None => Err DefNilPipeline
       | Some p =>
           let refs := pluginRefs p in
           if decide (refs = []) then Ok ∅
           else match r with
                | None => Err (DefUnpinned (length refs))
                | Some r => fold_result (pin r tenant) ∅ refs
                end
       end.

Record LockfileChange : Type := mkLockfileChange { lc_Ref : string; lc_Old : string; lc_New : string }.

(** A missing key reads as the empty string. *)
Definition LockfileDiff (before after : gmap string string) : list LockfileChange :=
  omap (λ ref, let old := default "" (before !! ref) in let updated := default "" (after !! ref) in
               if decide (old = updated) then None else Some (mkLockfileChange ref old updated))
    (sort_strings (elements (dom before ∪ dom after))).

Definition newline : string := String (Ascii.ascii_of_N 10) "".

Definition format_change (c : LockfileChange) : string :=
  if decide (lc_Old c = "") then "+ " +:+ lc_Ref c +:+ " " +:+ lc_New c +:+ newline
  else if decide (lc_New c = "") then "- " +:+ lc_Ref c +:+ " " +:+ lc_Old c +:+ newline
  else "~ " +:+ lc_Ref c +:+ " " +:+ lc_Old c +:+ " -> " +:+ lc_New c +:+ newline.

Definition FormatLockfileDiff (changes : list LockfileChange) : string :=
  String.concat "" (map format_change changes).

(** ** [defstore.go] *)

Section Store.
Context (sha256 : string → string) (marshal : Pipeline → string) (unmarshal : string → option Pipeline).

(** The deterministic encoding of a pipeline without unknown fields. *)
Definition canonicalBytes (p : Pipeline) : string := hashDomain +:+ marshal p.
Definition ContentHash (p : Pipeline) : string := hex_encode (sha256 (canonicalBytes p)).

(** The options a store is built with. *)
Record StoreCfg : Type := mkStoreCfg { sc_resolver : option Resolver; sc_pinningWaived : bool }.

(** [rowid] order stands for the order a query without ORDER BY returns. *)
Definition revision_rows (tenant : string) (db : DefDB) : list RevRow :=
  omap (λ kv : string * string * RevRow, if decide (kv.1.1 = tenant) then Some kv.2 else None)
    (map_to_list (db_revisions db)).

Definition revisionRow (tenant id : string) (db : DefDB) : result DefErr Revision :=
  match db_revisions db !! (tenant, id) with
  | None => Err DefNotFound
  | Some row => Ok (rr_rev row)
  end.

Definition insert_pipeline (tenant id : string) (now : Z) (db : DefDB) : DefDB :=
  match db_pipelines db !! (tenant, id) with
  | Some _ => db
  | None => mkDefDB (<[(tenant, id) := now]> (db_pipelines db)) (db_revisions db) (db_heads db)
  end.

Definition insert_revision (tenant : string) (row : RevRow) (db : DefDB) : DefDB :=
  match db_revisions db !! (tenant, rv_ID (rr_rev row)) with
  | Some _ => db
  | None => with_revisions db (<[(tenant, rv_ID (rr_rev row)) := row]> (db_revisions db))
  end.

(** The lockfile [Save] stores. *)
Definition save_lockfile (cfg : StoreCfg) (tenant : string) (p : Pipeline) : result DefErr (gmap string string) :=
  match sc_resolver cfg with
  | Some r => ResolveLockfile tenant (Some p) (Some r)
  | None =>
      if negb (sc_pinningWaived cfg) && bool_decide (pluginRefs p ≠ [])
      then Err (DefUnpinned (length (pluginRefs p)))
      else Ok ∅
  end.

Definition draft_of (p : Pipeline) (lockfile : gmap string string) (author : string) : Revision :=
  let hash := ContentHash p in
  mkRevision ("rev_" +:+ hash) (pl_id p) hash StateDraft lockfile author "".

Definition Save (cfg : StoreCfg) (now : Z) (tenant : string) (p : option Pipeline) (author : string)
    : prog DefDB DefErr Revision := λ db,
  if decide (tenant = "") then (db, Err DefTenantRequired)
  else match p with
       | None => (db, Err DefNilPipeline)
       | Some p =>
           match save_lockfile cfg tenant p with
           | Err e => (db, Err e)
           | Ok lockfile =>
               let rev := draft_of p lockfile author in
               WithTx (λ db,
                 let db := insert_pipeline tenant (rv_PipelineID rev) now db in
                 let db := insert_revision tenant (mkRevRow rev (canonicalBytes p) now) db in
                 (db, revisionRow tenant (rv_ID rev) db)) db
           end
       end.

Definition Get (tenant pipeline revision : string) (db : DefDB) : result DefErr Pipeline :=
  if decide (tenant = "") then Err DefTenantRequired
  else match db_revisions db !! (tenant, revision) with
       | None => Err DefNotFound
       | Some row =>
           if decide (rv_PipelineID (rr_rev row) ≠ pipeline) then Err DefNotFound
           else match unmarshal (drop_string (String.length hashDomain) (rr_definition row)) with
                | None => Err (DefDecode revision)
                | Some p => Ok p
                end
       end.

Definition is_active (pipeline : string) (row : RevRow) : Prop :=
  rv_PipelineID (rr_rev row) = pipeline ∧ rv_State (rr_rev row) = StateActive.
#[export] Instance is_active_dec pipeline row : Decision (is_active pipeline row).
Proof. unfold is_active. apply _. Defined.

Definition Active (tenant pipeline : string) (db : DefDB) : result DefErr Revision :=
  if decide (tenant = "") then Err DefTenantRequired
  else match filter (is_active pipeline) (revision_rows tenant db) with
       | [] => Err DefNoActive
       | row :: _ => Ok (rr_rev row)
       end.

Definition Revision_ (tenant id : string) (db : DefDB) : result DefErr Revision :=
  if decide (tenant = "") then Err DefTenantRequired else revisionRow tenant id db.

(** [ORDER BY created_at, id], both as text. *)
Definition row_le (a b : RevRow) : Prop :=
  if decide (rr_created a = rr_created b) then String.le (rv_ID (rr_rev a)) (rv_ID (rr_rev b))
  else String.le (FormatTime (rr_created a)) (FormatTime (rr_created b)).
#[export] Instance row_le_dec : RelDecision row_le.
Proof. intros a b. unfold row_le. case_decide; apply _. Defined.

Definition Revisions (tenant pipeline : string) (db : DefDB) : result DefErr (list Revision) :=
  if decide (tenant = "") then Err DefTenantRequired
  else Ok (map rr_rev (merge_sort row_le
         (filter (λ r, rv_PipelineID (rr_rev r) = pipeline) (revision_rows tenant db)))).

Definition set_state (r : Revision) (state approver : string) : Revision :=
  mkRevision (rv_ID r) (rv_PipelineID r) (rv_ContentHash r) state (rv_Lockfile r) (rv_Author r) approver.
Definition with_rev (row : RevRow) (r : Revision) : RevRow := mkRevRow r (rr_definition row) (rr_created row).

(** The two statements of [Approve]. *)
Definition demote_row (row : RevRow) : RevRow :=
  with_rev row (set_state (rr_rev row) StateReviewed (rv_Approver (rr_rev row))).

Definition demote (tenant pipeline : string) (db : DefDB) : DefDB :=
  with_revisions db (map_imap (λ k row,
    Some (if decide (k.1 = tenant ∧ is_active pipeline row) then demote_row row else row)) (db_revisions db)).

Definition promote (tenant id approver : string) (db : DefDB) : DefDB :=
  with_revisions db (alter (λ row, with_rev row (set_state (rr_rev row) StateActive approver)) (tenant, id) (db_revisions db)).

(** What [Approve] decides from the row it read: [None] when there is nothing
    to do. *)
Definition approval (tenant id approver : string) (db : DefDB) : result DefErr (option Revision) :=
  match revisionRow tenant id db with
  | Err e => Err e
  | Ok rev =>
      if decide (rv_State rev = StateActive) then Ok None
      else if decide (approver = rv_Author rev) then Err (DefSelfApproval approver)
      else Ok (Some rev)
  end.

Definition Approve (tenant id approver : string) : prog DefDB DefErr unit := λ db,
  if decide (tenant = "") then (db, Err DefTenantRequired)
  else WithTx (λ db,
    match approval tenant id approver db with
    | Err e => (db, Err e)
    | Ok None => (db, Ok tt)
    | Ok (Some rev) => (promote tenant id approver (demote tenant (rv_PipelineID rev) db), Ok tt)
    end) db.

(** ** [heads.go] *)

Definition Head (tenant pipeline : string) (db : DefDB) : result DefErr (option string) :=
  if decide (tenant = "") then Err DefTenantRequired else Ok (db_heads db !! (tenant, pipeline)).

(** One statement either way, and whether it wrote. *)
Definition CompareAndSetHead (tenant pipeline from to : string) : prog DefDB DefErr unit := λ db,
  if decide (tenant = "") then (db, Err DefTenantRequired)
  else if decide (to = "") then (db, Err DefRevisionRequired)
  else
    let moves := match db_heads db !! (tenant, pipeline) with
                 | None => bool_decide (from = "")
                 | Some h => bool_decide (from ≠ "" ∧ h = from)
                 end in
    if moves then (with_heads db (<[(tenant, pipeline) := to]> (db_heads db)), Ok tt)
    else (db, Err (DefHeadMoved pipeline from)).

(** ** The handlers of [server.go] *)

Inductive ApiErr : Type :=
| ApiInvalid (why : string)
| ApiStore (e : DefErr)
| ApiExists (pipeline : string)
| ApiBadOperation (e : OpErr)
| ApiFiles (e : FilesErr)
| ApiConflict (head : string)
| ApiNotRunnable (revision state : string).

Definition store_err {A} (r : result DefErr A) : result ApiErr A :=
  match r with Ok a => Ok a | Err e => Err (ApiStore e) end.

(** [rebaseOnto]: the revision the edit is applied to. An edit without a kind
    claims the whole pipeline, which is always among what changed. *)
Definition rebaseOnto (tenant pipeline base head : string) (op : option Operation) (db : DefDB)
    : result ApiErr string :=
  before ← store_err (Get tenant pipeline base db);
  after ← store_err (Get tenant pipeline head db);
  if match op with Some op => disjoint_edit before after op | None => false end
  then Ok head else Err (ApiConflict head).

(** Up to the save: the revision to apply the edit to and the edited
    definition, from the head as it was read. *)
Definition plan_edit (has : option (Digest → option bool)) (tenant pipeline base : string) (op : option Operation)
    (head : option string) (db : DefDB) : result ApiErr (string * Pipeline) :=
  applyTo ← match head with
            | Some h => if decide (h ≠ base)
                        then rebaseOnto tenant pipeline base h op db
                        else Ok base
            | None => Ok base
            end;
  current ← store_err (Get tenant pipeline applyTo db);
  match Apply (Some current) op with
  | Err e => if decide (applyTo ≠ base) then Err (ApiConflict applyTo) else Err (ApiBadOperation e)
  | Ok (next, _, _) =>
      match checkDefinitionFiles has next with
      | Err e => Err (ApiFiles e)
      | Ok _ => Ok (applyTo, next)
      end
  end.

(** The definition [CreatePipeline] saves: the id is the request's. *)
Definition create_definition (pipeline : string) (p : option Pipeline) : Pipeline :=
  let p := default (mkPipeline "" [] [] []) p in mkPipeline pipeline (pl_steps p) (pl_edges p) (pl_files p).

Definition headRevision (tenant pipeline : string) (db : DefDB) : result ApiErr string :=
  head ← store_err (Head tenant pipeline db);
  match head with
  | Some h => Ok h
  | None => rev ← store_err (Active tenant pipeline db); Ok (rv_ID rev)
  end.

Definition runnableRevision (tenant pipeline revision : string) (db : DefDB) : result ApiErr Revision :=
  if decide (revision = "") then store_err (Active tenant pipeline db)
  else
    rev ← store_err (Revision_ tenant revision db);
    if decide (rv_PipelineID rev ≠ pipeline) then Err (ApiInvalid revision)
    else if decide (rv_State rev ≠ StateActive) then Err (ApiNotRunnable revision (rv_State rev))
    else Ok rev.

(** ** Planes editing at once *)

(** Where a handler is between two of its transactions. *)
Inductive Editing : Type :=
(** [ApplyOperation] after reading the head *)
| EdRead (tenant pipeline base subject : string) (op : option Operation) (head : option string)
(** a revision saved, and the head it is to be moved from *)
| EdSaved (tenant pipeline from revision : string) (edit : option Operation).

(** A head moved: from where, to where, and by which edit; none for a create. *)
Record Move : Type := mkMove
  { mv_tenant : string; mv_pipeline : string; mv_from : string; mv_to : string; mv_edit : option Operation }.

Record World : Type := mkWorld { w_db : DefDB; w_editing : gmap nat Editing; w_moves : list Move }.

Definition new_world : World := mkWorld empty_defs ∅ [].

Section Steps.
Context (cfg : StoreCfg) (has : option (Digest → option bool)).

Inductive api_step : World → World → Prop :=
(** [ApplyOperation]: the guards on the request, and the read of the head *)
| as_read w n tenant pipeline base subject op head :
    w_editing w !! n = None → pipeline ≠ "" → base ≠ "" →
    Head tenant pipeline (w_db w) = Ok head →
    api_step w (mkWorld (w_db w) (<[n := EdRead tenant pipeline base subject op head]> (w_editing w)) (w_moves w))
(** the plan of the edit and its save *)
| as_save w n tenant pipeline base subject op head applyTo next now db rev :
    w_editing w !! n = Some (EdRead tenant pipeline base subject op head) →
    plan_edit has tenant pipeline base op head (w_db w) = Ok (applyTo, next) →
    Save cfg now tenant (Some next) subject (w_db w) = (db, Ok rev) →
    api_step w (mkWorld db (<[n := EdSaved tenant pipeline
                                     (match head with Some _ => applyTo | None => "" end) (rv_ID rev) op]> (w_editing w)) (w_moves w))
(** [CreatePipeline] up to its save *)
| as_create w n tenant pipeline p subject now db rev :
    w_editing w !! n = None → pipeline ≠ "" → Revisions tenant pipeline (w_db w) = Ok [] →
    checkDefinitionFiles has (create_definition pipeline p) = Ok tt →
    Save cfg now tenant (Some (create_definition pipeline p)) subject (w_db w) = (db, Ok rev) →
    api_step w (mkWorld db (<[n := EdSaved tenant pipeline "" (rv_ID rev) None]> (w_editing w)) (w_moves w))
(** the move of the head *)
| as_move w n tenant pipeline from to edit db :
    w_editing w !! n = Some (EdSaved tenant pipeline from to edit) →
    CompareAndSetHead tenant pipeline from to (w_db w) = (db, Ok tt) →
    api_step w (mkWorld db (delete n (w_editing w)) (w_moves w ++ [mkMove tenant pipeline from to edit]))
(** [ApproveRevision] *)
| as_approve w tenant revision approver db r :
    Approve tenant revision approver (w_db w) = (db, r) →
    api_step w (mkWorld db (w_editing w) (w_moves w))
(** a refusal, a failure, or a plane that died: what it had committed stays *)
| as_stop w n :
    api_step w (mkWorld (w_db w) (delete n (w_editing w)) (w_moves w)).

Definition api_reachable (w : World) : Prop := rtc api_step new_world w.
End Steps.

(** ** Approvals on Postgres *)

(** An approval between its statements, at READ COMMITTED: what it decided,
    and the rows its first statement wrote. They stay locked, and unseen, until
    the commit. *)
Record Approving : Type := mkApproving
  { ap_tenant : string; ap_id : string; ap_approver : string; ap_pipeline : string;
    ap_demoted : option (gset string) }.

Record PgWorld : Type := mkPgWorld { pg_db : DefDB; pg_approving : gmap nat Approving }.

Definition active_ids (tenant pipeline : string) (db : DefDB) : gset string :=
  list_to_set (map (λ r, rv_ID (rr_rev r)) (filter (is_active pipeline) (revision_rows tenant db))).

Definition locked_revisions (w : PgWorld) (tenant : string) : gset string :=
  ⋃ map (λ x : nat * Approving, if decide (ap_tenant x.2 = tenant) then default ∅ (ap_demoted x.2) else ∅)
      (map_to_list (pg_approving w)).

(** The writes of the two statements, as the commit publishes them. *)
Definition publish_approval (a : Approving) (demoted : gset string) (db : DefDB) : DefDB :=
  promote (ap_tenant a) (ap_id a) (ap_approver a)
    (with_revisions db (map_imap (λ k row,
       Some (if decide (k.1 = ap_tenant a ∧ k.2 ∈ demoted) then demote_row row else row)) (db_revisions db))).

Inductive pg_step : PgWorld → PgWorld → Prop :=
| pg_read w n tenant id approver rev :
    pg_approving w !! n = None → tenant ≠ "" →
    approval tenant id approver (pg_db w) = Ok (Some rev) →
    pg_step w (mkPgWorld (pg_db w) (<[n := mkApproving tenant id approver (rv_PipelineID rev) None]> (pg_approving w)))
| pg_demote w n tenant id approver pipeline :
    pg_approving w !! n = Some (mkApproving tenant id approver pipeline None) →
    locked_revisions w tenant ## active_ids tenant pipeline (pg_db w) →
    pg_step w (mkPgWorld (pg_db w)
                 (<[n := mkApproving tenant id approver pipeline (Some (active_ids tenant pipeline (pg_db w)))]> (pg_approving w)))
| pg_commit w n a demoted :
    pg_approving w !! n = Some a → ap_demoted a = Some demoted → ap_id a ∉ locked_revisions (mkPgWorld (pg_db w) (delete n (pg_approving w))) (ap_tenant a) →
    pg_step w (mkPgWorld (publish_approval a demoted (pg_db w)) (delete n (pg_approving w)))
| pg_rollback w n :
    pg_step w (mkPgWorld (pg_db w) (delete n (pg_approving w))).

End Store.
