(* ===== verification/DefinitionFacts.v ===== *)
(** * Revisions are immutable, one is active, and no edit is lost *)

From S2P Require Import Prelude Bytes Proto.
From S2P Require Import RunStore.
From S2P Require Import Operations OperationsFacts.
From S2P Require Import Definitions.

(** ** The lockfile *)

Lemma elem_of_pluginRefs ref p :
  ref ∈ pluginRefs p ↔ ref ≠ "" ∧ ∃ s, s ∈ pl_steps p ∧ ref = TrimSpace (step_plugin_ref s).
Proof.
  unfold pluginRefs. rewrite elem_of_compact, elem_of_sort_strings, list_elem_of_filter.
  rewrite (list_elem_of_fmap (λ s, TrimSpace (step_plugin_ref s))). naive_solver.
Qed.

(** What a lockfile says of one reference. *)
Definition pinned_as (r : Resolver) (tenant : string) (lockfile : gmap string string) (ref : string) : Prop :=
  ∃ d, r tenant ref = Ok d ∧ d_hex d ≠ "" ∧ lockfile !! ref = Some (d_algo d +:+ ":" +:+ d_hex d).

Lemma pin_spec r tenant lockfile ref lockfile' :
  pin r tenant lockfile ref = Ok lockfile' →
  ∃ d, r tenant ref = Ok d ∧ d_hex d ≠ "" ∧ lockfile' = <[ref := d_algo d +:+ ":" +:+ d_hex d]> lockfile.
Proof. unfold pin. destruct (r tenant ref) as [d|]; [|done]. case_decide; [done|]. intros [= <-]. eauto. Qed.

Lemma pin_all r tenant refs lockfile :
  fold_result (pin r tenant) ∅ refs = Ok lockfile →
  (∀ ref, ref ∈ refs → pinned_as r tenant lockfile ref) ∧ (∀ ref, ref ∉ refs → lockfile !! ref = None).
Proof.
  apply (fold_result_inv (λ l m, (∀ ref, ref ∈ l → pinned_as r tenant m ref) ∧ (∀ ref, ref ∉ l → m !! ref = None))).
  - split; [|done]. intros ref H. by apply elem_of_nil in H.
  - intros pre ref m m' [Hin Hout] (d & Hr & Hd & ->)%pin_spec. split.
    + intros x Hx. destruct (decide (x = ref)) as [->|Hne].
      * exists d. by rewrite lookup_insert_eq.
      * destruct (Hin x) as (d' & ? & ? & Hl); [set_solver|]. exists d'. by rewrite lookup_insert_ne by done.
    + intros x Hx. rewrite lookup_insert_ne by set_solver. apply Hout. set_solver.
Qed.

(** A lockfile that was resolved covers the definition's references exactly,
    each by the digest the resolver gave; and one reference that does not
    resolve is an error. *)
Lemma lockfile_is_complete tenant p r lockfile :
  ResolveLockfile tenant (Some p) (Some r) = Ok lockfile →
  ∀ ref, if decide (ref ∈ pluginRefs p) then pinned_as r tenant lockfile ref else lockfile !! ref = None.
Proof.
  unfold ResolveLockfile. case_decide; [done|]. cbv zeta.
  destruct (decide (pluginRefs p = [])) as [He|He].
  - intros [= <-] ref. rewrite He. by rewrite decide_False by apply not_elem_of_nil.
  - intros [Hin Hout]%pin_all ref. case_decide; auto.
Qed.

(** ** Rows *)

Section Facts.
Context (sha256 : string → string) (marshal : Pipeline → string) (unmarshal : string → option Pipeline).

Abbreviation row_id row := (rv_ID (rr_rev row)).
Abbreviation row_pipeline row := (rv_PipelineID (rr_rev row)).
Abbreviation row_state row := (rv_State (rr_rev row)).
Abbreviation row_author row := (rv_Author (rr_rev row)).
Abbreviation row_approver row := (rv_Approver (rr_rev row)).

Definition id_of (definition : string) : string := "rev_" +:+ hex_encode (sha256 definition).

(** What every row of the table satisfies, alone and with the others. *)
Record row_ok (k : string * string) (row : RevRow) : Prop :=
  { ro_key : k.2 = row_id row;
    ro_id : row_id row = id_of (rr_definition row);
    ro_definition : ∃ p, rr_definition row = canonicalBytes marshal p;
    ro_reviewed : row_state row = StateActive → row_approver row ≠ row_author row }.

Record defs_ok (db : DefDB) : Prop :=
  { do_rows : ∀ k row, db_revisions db !! k = Some row → row_ok k row;
    do_active : ∀ k1 k2 a b, db_revisions db !! k1 = Some a → db_revisions db !! k2 = Some b →
      k1.1 = k2.1 → row_pipeline a = row_pipeline b → row_state a = StateActive → row_state b = StateActive → k1 = k2 }.

Lemma empty_ok : defs_ok empty_defs.
Proof. split; intros *; simpl; rewrite ?lookup_empty; done. Qed.

(** The row as it may be later: what a run pins does not move. *)
Definition same_content (a b : RevRow) : Prop :=
  rr_definition a = rr_definition b ∧ row_id a = row_id b ∧ row_pipeline a = row_pipeline b
  ∧ rv_ContentHash (rr_rev a) = rv_ContentHash (rr_rev b) ∧ rv_Lockfile (rr_rev a) = rv_Lockfile (rr_rev b)
  ∧ row_author a = row_author b ∧ rr_created a = rr_created b.

Definition keeps (db db' : DefDB) : Prop :=
  ∀ k row, db_revisions db !! k = Some row → ∃ row', db_revisions db' !! k = Some row' ∧ same_content row row'.

#[local] Instance same_content_refl : Reflexive same_content.
Proof. done. Qed.
#[local] Instance same_content_trans : Transitive same_content.
Proof. unfold same_content. intros a b c. intuition congruence. Qed.
#[local] Instance keeps_refl : Reflexive keeps.
Proof. intros db k row H. by exists row. Qed.
#[local] Instance keeps_trans : Transitive keeps.
Proof. intros a b c Hab Hbc k row (r1 & H1 & S1)%Hab. destruct (Hbc _ _ H1) as (r2 & H2 & S2). exists r2. split; [done|by etrans]. Qed.

(** ** Statements *)

Lemma insert_pipeline_revisions tenant id now db : db_revisions (insert_pipeline tenant id now db) = db_revisions db.
Proof. unfold insert_pipeline. by destruct (_ !! _). Qed.

Lemma defs_ok_revisions db db' : db_revisions db' = db_revisions db → defs_ok db → defs_ok db'.
Proof. intros E [H1 H2]. split; rewrite E; done. Qed.

Lemma insert_revision_ok tenant p lockfile author now db :
  defs_ok db → defs_ok (insert_revision tenant (mkRevRow (draft_of sha256 marshal p lockfile author) (canonicalBytes marshal p) now) db).
Proof.
  intros Hok. unfold insert_revision. destruct (_ !! _) eqn:Hfree; [done|]. destruct Hok as [Hrows Hact]. split; cbn [with_revisions db_revisions].
  - intros k row [[<- <-]|[_ ?]]%lookup_insert_Some; [|by apply Hrows]. split; simpl; try done. by exists p.
  - intros k1 k2 a b [[<- <-]|[? Ha]]%lookup_insert_Some [[<- <-]|[? Hb]]%lookup_insert_Some; try done. by apply Hact.
Qed.

Lemma insert_revision_keeps tenant row db : keeps db (insert_revision tenant row db).
Proof.
  unfold insert_revision. destruct (_ !! _) eqn:Hfree; [done|]. intros k r Hr. exists r. split; [|done].
  cbn [with_revisions db_revisions]. rewrite lookup_insert_ne; [done|]. congruence.
Qed.

Lemma insert_revision_here tenant row db :
  ∃ row', db_revisions (insert_revision tenant row db) !! (tenant, row_id row) = Some row'
    ∧ (row' = row ∨ db_revisions db !! (tenant, row_id row) = Some row').
Proof.
  unfold insert_revision. destruct (db_revisions db !! (tenant, row_id row)) as [r|] eqn:Hr; [by exists r; auto|].
  exists row. split; [|by left]. cbn [with_revisions db_revisions]. by rewrite lookup_insert_eq.
Qed.

Lemma lookup_demote tenant pipeline db k :
  db_revisions (demote tenant pipeline db) !! k
  = (λ row, if decide (k.1 = tenant ∧ is_active pipeline row) then demote_row row else row) <$> db_revisions db !! k.
Proof. unfold demote. cbn [with_revisions db_revisions]. rewrite map_lookup_imap. by destruct (_ !! k). Qed.

Lemma lookup_promote tenant id approver db k :
  db_revisions (promote tenant id approver db) !! k
  = (λ row, if decide (k = (tenant, id)) then with_rev row (set_state (rr_rev row) StateActive approver) else row) <$> db_revisions db !! k.
Proof.
  unfold promote. cbn [with_revisions db_revisions]. destruct (decide (k = (tenant, id))) as [->|Hne].
  - by rewrite lookup_alter_eq.
  - rewrite lookup_alter_ne by done. by destruct (_ !! k).
Qed.

Lemma demote_keeps tenant pipeline db : keeps db (demote tenant pipeline db).
Proof. intros k row Hrow. rewrite lookup_demote, Hrow. simpl. eexists. split; [done|]. by case_decide. Qed.

Lemma promote_keeps tenant id approver db : keeps db (promote tenant id approver db).
Proof. intros k row Hrow. rewrite lookup_promote, Hrow. simpl. eexists. split; [done|]. by case_decide. Qed.

Lemma row_ok_same k a b :
  row_ok k a → same_content a b → (row_state b = StateActive → row_approver b ≠ row_author b) → row_ok k b.
Proof.
  intros [Hk Hid Hdef _] (Ed & Ei & _) Hrev. split; rewrite <-?Ei, <-?Ed; done.
Qed.

(** The one row an approval promotes, after the others are demoted. *)
Lemma approve_ok tenant id approver db rev :
  defs_ok db → approval tenant id approver db = Ok (Some rev) →
  defs_ok (promote tenant id approver (demote tenant (rv_PipelineID rev) db)).
Proof.
  intros [Hrows Hact]. unfold approval, revisionRow. destruct (db_revisions db !! (tenant, id)) as [row|] eqn:Hrow; [|done].
  destruct (decide (row_state row = StateActive)) as [|Hna]; [done|].
  destruct (decide (approver = row_author row)) as [|Hself]; [done|]. intros [= <-].
  assert (Hafter : ∀ k r, db_revisions (promote tenant id approver (demote tenant (row_pipeline row) db)) !! k = Some r →
    ∃ r0, db_revisions db !! k = Some r0 ∧ same_content r0 r
      ∧ (row_state r = StateActive → (k = (tenant, id) ∧ row_approver r = approver)
                                     ∨ (row_state r0 = StateActive ∧ row_approver r = row_approver r0
                                        ∧ ¬ (k.1 = tenant ∧ row_pipeline r0 = row_pipeline row)))).
  { intros k r. rewrite lookup_promote, lookup_demote. destruct (db_revisions db !! k) as [r0|]; [|done]. simpl.
    intros [= <-]. exists r0. split; [done|]. unfold is_active. repeat case_decide; simplify_eq/=; (split; [done|]); intros Hst; try done.
    - by left.
    - by left.
    - right. split_and!; [done..|]. naive_solver. }
  split.
  - intros k r Hr. destruct (Hafter k r Hr) as (r0 & H0 & Hsame & Hst). apply (row_ok_same k r0); [by apply Hrows|done|].
    intros Ha. destruct (Hst Ha) as [[-> ->]|(Ha0 & -> & _)].
    + rewrite Hrow in H0. injection H0 as <-. destruct Hsame as (_ & _ & _ & _ & _ & <- & _). done.
    + destruct Hsame as (_ & _ & _ & _ & _ & <- & _). by apply (Hrows k r0 H0).
  - intros k1 k2 a b Ha Hb Ht Hp Hsa Hsb.
    destruct (Hafter _ _ Ha) as (a0 & Ha0 & Hsama & Hsta), (Hafter _ _ Hb) as (b0 & Hb0 & Hsamb & Hstb).
    assert (Epa : row_pipeline a0 = row_pipeline a) by apply Hsama. assert (Epb : row_pipeline b0 = row_pipeline b) by apply Hsamb.
    destruct (Hsta Hsa) as [[-> _]|(Hs1 & _ & Hn1)], (Hstb Hsb) as [[-> _]|(Hs2 & _ & Hn2)].
    + done.
    + destruct Hn2. simpl in *. rewrite Hrow in Ha0. simplify_eq. split; [done|congruence].
    + destruct Hn1. simpl in *. rewrite Hrow in Hb0. simplify_eq. split; [done|congruence].
    + apply (Hact k1 k2 a0 b0); try done. congruence.
Qed.

(** ** Operations *)

Abbreviation Save := (Save sha256 marshal).
Abbreviation Get := (Get unmarshal).

(** What a successful save leaves: the row it answers is there, and holds the
    definition it was given, unless the hash confuses that definition with
    another. *)
Lemma Save_spec cfg now tenant p author db db' rev :
  Save cfg now tenant (Some p) author db = (db', Ok rev) → defs_ok db →
  defs_ok db' ∧ keeps db db' ∧ db_heads db' = db_heads db
  ∧ ∃ row, db_revisions db' !! (tenant, rv_ID rev) = Some row ∧ rr_rev row = rev
      ∧ (rr_definition row = canonicalBytes marshal p ∨ collision sha256 (canonicalBytes marshal p) (rr_definition row)).
Proof.
  unfold Definitions.Save. case_decide; [done|].
  destruct (save_lockfile cfg tenant p) as [lockfile|]; [|done]. unfold WithTx. cbn zeta.
  set (db1 := insert_pipeline _ _ _ db). set (row0 := mkRevRow _ _ _).
  destruct (insert_revision_here tenant row0 db1) as (row & Hrow & Hor).
  assert (Er : rv_ID (draft_of sha256 marshal p lockfile author) = row_id row0) by done. rewrite Er.
  unfold revisionRow. rewrite Hrow. intros [= <- <-] Hok.
  assert (Hok1 : defs_ok db1) by (eapply defs_ok_revisions; [apply insert_pipeline_revisions|done]).
  assert (Hok' : defs_ok (insert_revision tenant row0 db1)) by (by apply insert_revision_ok).
  pose proof (do_rows _ Hok' _ _ Hrow) as [Hkey Hid _ _]. cbn [snd] in Hkey.
  split; [done|]. split; [|split].
  - intros k r Hr. apply insert_revision_keeps. unfold db1. by rewrite insert_pipeline_revisions.
  - unfold insert_revision, insert_pipeline, db1, insert_pipeline. by repeat case_match.
  - exists row. split; [by rewrite <-Hkey|]. split; [done|].
    destruct Hor as [->|_]; [by left|].
    assert (Hh : sha256 (canonicalBytes marshal p) = sha256 (rr_definition row)).
    { apply (inj hex_encode), (string_app_inj_l "rev_"). unfold id_of in Hid. rewrite <-Hid, <-Hkey. done. }
    apply hash_eq in Hh as [<-|Hc]; auto.
Qed.

Lemma Approve_spec tenant id approver db db' r :
  Approve tenant id approver db = (db', r) → defs_ok db → defs_ok db' ∧ keeps db db' ∧ db_heads db' = db_heads db.
Proof.
  unfold Approve. case_decide; [by intros [= <- _]|]. unfold WithTx.
  destruct (approval tenant id approver db) as [[rev|]|] eqn:Ha; intros [= <- _] Hok; [|done..].
  split; [by apply approve_ok|]. split; [|done]. etrans; [apply demote_keeps|apply promote_keeps].
Qed.

Lemma Get_ok tenant pipeline revision db p :
  Get tenant pipeline revision db = Ok p →
  ∃ row, db_revisions db !! (tenant, revision) = Some row ∧ row_pipeline row = pipeline
    ∧ unmarshal (drop_string (String.length hashDomain) (rr_definition row)) = Some p.
Proof.
  unfold Definitions.Get. case_decide; [done|]. destruct (_ !! _) as [row|]; [|done].
  destruct (decide (row_pipeline row ≠ pipeline)) as [|Hp]; [done|]. apply dec_stable in Hp.
  destruct (unmarshal _) as [q|] eqn:Hu; [|done]. intros [= <-]. by exists row.
Qed.

Lemma Get_keeps tenant pipeline revision db db' p :
  keeps db db' → Get tenant pipeline revision db = Ok p → Get tenant pipeline revision db' = Ok p.
Proof.
  intros Hk Hg. assert (Ht : tenant ≠ "") by (revert Hg; unfold Definitions.Get; by case_decide).
  apply Get_ok in Hg as (row & Hrow & Hp & Hu). destruct (Hk _ _ Hrow) as (row' & Hrow' & (Ed & _ & Ep & _)).
  unfold Definitions.Get. rewrite decide_False, Hrow', decide_False by (done || rewrite <-Ep; naive_solver).
  by rewrite <-Ed, Hu.
Qed.

(** ** The head moves by edits *)

Definition move_of (w : World) (tenant pipeline : string) : list Move :=
  filter (λ m, mv_tenant m = tenant ∧ mv_pipeline m = pipeline) (w_moves w).

(** The definition at [to] is the one at [from] with the edit applied. *)
Definition is_edit (db : DefDB) (tenant pipeline from to : string) (op : option Operation) : Prop :=
  ∃ p q ch inv row, Get tenant pipeline from db = Ok p ∧ Apply (Some p) op = Ok (q, ch, inv)
    ∧ db_revisions db !! (tenant, to) = Some row
    ∧ (rr_definition row = canonicalBytes marshal q ∨ collision sha256 (canonicalBytes marshal q) (rr_definition row)).

Lemma is_edit_keeps db db' tenant pipeline from to op :
  keeps db db' → is_edit db tenant pipeline from to op → is_edit db' tenant pipeline from to op.
Proof.
  intros Hk (p & q & ch & inv & row & Hg & Ha & Hrow & Hdef). destruct (Hk _ _ Hrow) as (row' & Hrow' & (Ed & _)).
  exists p, q, ch, inv, row'. split; [by eapply Get_keeps|]. by rewrite <-Ed.
Qed.

Lemma plan_edit_ok has tenant pipeline base op head db applyTo next :
  plan_edit unmarshal has tenant pipeline base op head db = Ok (applyTo, next) →
  (∀ h, head = Some h → applyTo = h)
  ∧ ∃ p ch inv, Get tenant pipeline applyTo db = Ok p ∧ Apply (Some p) op = Ok (next, ch, inv).
Proof.
  unfold plan_edit, mbind, result_bind.
  destruct (match head with Some _ => _ | None => _ end) as [to|] eqn:Hto; [|done].
  destruct (Definitions.Get unmarshal tenant pipeline to db) as [p|] eqn:Hg; [|done]. cbn [store_err].
  destruct (Apply (Some p) op) as [[[q ch] inv]|] eqn:Ha; [|by destruct (decide (to ≠ base))].
  destruct (checkDefinitionFiles has q); [|done]. intros [= <- <-]. split; [|by eauto 6].
  intros h ->. revert Hto. case_decide as Hb; [|by intros [= <-]].
  unfold rebaseOnto. intros Hr. res_inv. case_match; [by injection Hr|done].
Qed.

(** What holds of a handler between its transactions. *)
Definition editing_ok (db : DefDB) (e : Editing) : Prop :=
  match e with
  | EdRead _ _ _ _ _ _ => True
  | EdSaved tenant pipeline from to edit => from ≠ "" → is_edit db tenant pipeline from to edit
  end.

(** The head as the moves of a pipeline leave it. *)
Definition last_to (l : list Move) : option string := mv_to <$> last l.

Record world_ok (w : World) : Prop :=
  { wo_defs : defs_ok (w_db w);
    wo_editing : ∀ n e, w_editing w !! n = Some e → editing_ok (w_db w) e;
    wo_moves : ∀ m, m ∈ w_moves w → mv_from m ≠ "" → is_edit (w_db w) (mv_tenant m) (mv_pipeline m) (mv_from m) (mv_to m) (mv_edit m);
    wo_heads : ∀ tenant pipeline, db_heads (w_db w) !! (tenant, pipeline) = last_to (move_of w tenant pipeline);
    wo_chain : ∀ tenant pipeline l1 m l2, move_of w tenant pipeline = l1 ++ m :: l2 → mv_from m = default "" (last_to l1) }.

(** A step that leaves the moves alone. *)
Lemma world_ok_quiet w db editing :
  world_ok w → defs_ok db → keeps (w_db w) db → db_heads db = db_heads (w_db w) →
  (∀ n e, editing !! n = Some e → editing_ok db e) → world_ok (mkWorld db editing (w_moves w)).
Proof.
  intros [_ _ Hm Hh Hc] Hok Hk Eh He. split; simpl; try done.
  - intros m Hin Hf. eapply is_edit_keeps; [done|by apply Hm].
  - intros t p. by rewrite Eh.
Qed.

Lemma editing_keeps db db' e : keeps db db' → editing_ok db e → editing_ok db' e.
Proof. intros Hk. destruct e; [done|]. simpl. intros H Hf. eapply is_edit_keeps; [done|by apply H]. Qed.

Lemma editing_insert w db n e :
  world_ok w → keeps (w_db w) db → editing_ok db e →
  ∀ n' e', <[n := e]> (w_editing w) !! n' = Some e' → editing_ok db e'.
Proof.
  intros Hw Hk He n' e' [[_ <-]|[_ Hl]]%lookup_insert_Some; [done|].
  eapply editing_keeps; [done|by apply (wo_editing w Hw n')].
Qed.

Lemma editing_delete w db n :
  world_ok w → keeps (w_db w) db → ∀ n' e', delete n (w_editing w) !! n' = Some e' → editing_ok db e'.
Proof. intros Hw Hk n' e' [_ Hl]%lookup_delete_Some. eapply editing_keeps; [done|by apply (wo_editing w Hw n')]. Qed.

Lemma move_of_app w db editing m tenant pipeline :
  move_of (mkWorld db editing (w_moves w ++ [m])) tenant pipeline
  = move_of w tenant pipeline ++ (if decide (mv_tenant m = tenant ∧ mv_pipeline m = pipeline) then [m] else []).
Proof. unfold move_of. simpl. by rewrite filter_app, filter_cons, filter_nil. Qed.

Lemma CompareAndSetHead_spec tenant pipeline from to db db' :
  CompareAndSetHead tenant pipeline from to db = (db', Ok tt) →
  db' = with_heads db (<[(tenant, pipeline) := to]> (db_heads db)) ∧ from = default "" (db_heads db !! (tenant, pipeline)) ∧ to ≠ "".
Proof.
  unfold CompareAndSetHead. do 2 (case_decide; [done|]).
  destruct (db_heads db !! (tenant, pipeline)) as [h|]; case_match eqn:Hb; try done; intros [= <-].
  - apply bool_decide_eq_true in Hb as [_ ->]. done.
  - by apply bool_decide_eq_true in Hb.
Qed.

Lemma world_ok_move w n tenant pipeline from to edit db :
  world_ok w → w_editing w !! n = Some (EdSaved tenant pipeline from to edit) →
  CompareAndSetHead tenant pipeline from to (w_db w) = (db, Ok tt) →
  world_ok (mkWorld db (delete n (w_editing w)) (w_moves w ++ [mkMove tenant pipeline from to edit])).
Proof.
  intros Hw He (-> & Hfrom & Hto)%CompareAndSetHead_spec. set (m := mkMove tenant pipeline from to edit).
  assert (Hk : keeps (w_db w) (with_heads (w_db w) (<[(tenant, pipeline) := to]> (db_heads (w_db w))))) by (intros k r; by exists r).
  split.
  - eapply defs_ok_revisions; [|apply Hw]. done.
  - by apply editing_delete.
  - simpl. intros x [Hx| ->%list_elem_of_singleton]%elem_of_app Hf.
    + eapply is_edit_keeps; [exact Hk|by apply (wo_moves w Hw)].
    + eapply is_edit_keeps; [exact Hk|]. by apply (wo_editing w Hw n _ He).
  - intros t p. rewrite move_of_app. simpl. case_decide as Htp.
    + destruct Htp as [<- <-]. rewrite lookup_insert_eq. unfold last_to. by rewrite last_snoc.
    + rewrite app_nil_r, lookup_insert_ne by naive_solver. apply (wo_heads w Hw).
  - intros t p l1 x l2. rewrite move_of_app. simpl. case_decide as Htp.
    + destruct Htp as [<- <-]. destruct l2 as [|y l2 _] using rev_ind.
      * intros [<- <-]%app_inj_tail. change (from = default "" (last_to (move_of w tenant pipeline))).
        by rewrite <-(wo_heads w Hw).
      * rewrite app_comm_cons, app_assoc. intros [El _]%app_inj_tail. by eapply (wo_chain w Hw).
    + rewrite app_nil_r. by apply (wo_chain w Hw).
Qed.

Lemma api_step_ok cfg has w w' : api_step sha256 marshal unmarshal cfg has w w' → world_ok w → world_ok w' ∧ keeps (w_db w) (w_db w').
Proof.
  intros Hs Hw. destruct Hs.
  - split; [|done]. apply world_ok_quiet; try done; [apply Hw|]. by apply editing_insert.
  - match goal with H : Definitions.Save _ _ _ _ _ _ _ _ = _, P : plan_edit _ _ _ _ _ _ _ _ = _ |- _ =>
      apply Save_spec in H as (Hok & Hk & Eh & row & Hrow & Erow & Hdef); [|apply Hw];
      destruct (plan_edit_ok _ _ _ _ _ _ _ _ _ P) as (Hto & p & ch & inv & Hg & Ha) end.
    split; [|done]. apply world_ok_quiet; try done. apply editing_insert; try done.
    intros Hf. destruct head as [h|]; [|done].
    exists p, next, ch, inv, row. split; [exact (Get_keeps _ _ _ _ _ _ Hk Hg)|]. done.
  - match goal with H : Definitions.Save _ _ _ _ _ _ _ _ = _ |- _ =>
      apply Save_spec in H as (Hok & Hk & Eh & _); [|apply Hw] end.
    split; [|done]. apply world_ok_quiet; try done. apply editing_insert; [done|done|by intros []].
  - split; [by eapply world_ok_move|].
    match goal with H : CompareAndSetHead _ _ _ _ _ = _ |- _ => apply CompareAndSetHead_spec in H as (-> & _) end.
    intros k r ?. by exists r.
  - match goal with H : Approve _ _ _ _ = _ |- _ => apply Approve_spec in H as (Hok & Hk & Eh); [|apply Hw] end.
    split; [|done]. apply world_ok_quiet; try done. intros n e He. eapply editing_keeps; [done|by apply (wo_editing w Hw n)].
  - split; [|done]. apply world_ok_quiet; try done; [apply Hw|]. by apply editing_delete.
Qed.

Lemma new_world_ok : world_ok new_world.
Proof.
  split.
  - exact empty_ok.
  - intros n e. simpl. by rewrite lookup_empty.
  - intros m Hm. by apply elem_of_nil in Hm.
  - intros t p. simpl. by rewrite lookup_empty.
  - intros t p l1 m l2 H. by destruct l1.
Qed.

Lemma api_steps_ok cfg has w w' :
  rtc (api_step sha256 marshal unmarshal cfg has) w w' → world_ok w → world_ok w' ∧ keeps (w_db w) (w_db w').
Proof.
  induction 1 as [w|w w1 w' Hs _ IH]; intros Hw; [done|].
  destruct (api_step_ok _ _ _ _ Hs Hw) as [Hw1 Hk]. destruct (IH Hw1) as [? Hk']. split; [done|by etrans].
Qed.

Lemma reachable_ok cfg has w : api_reachable sha256 marshal unmarshal cfg has w → world_ok w.
Proof. intros H. by apply (api_steps_ok _ _ _ _ H), new_world_ok. Qed.

(** C33: No edit is lost. Over any number of planes editing at once, the head of
    a pipeline moves only from where it last was, so the moves form one chain
    that ends at the stored head; and each move of an edit goes to the
    definition it moved from with exactly that edit applied (or the hash
    confuses two definitions). *)
Theorem no_edit_is_lost cfg has w :
  api_reachable sha256 marshal unmarshal cfg has w →
  (∀ tenant pipeline, db_heads (w_db w) !! (tenant, pipeline) = last_to (move_of w tenant pipeline))
  ∧ (∀ tenant pipeline l1 m l2, move_of w tenant pipeline = l1 ++ m :: l2 → mv_from m = default "" (last_to l1))
  ∧ ∀ m, m ∈ w_moves w → mv_from m ≠ "" →
      is_edit (w_db w) (mv_tenant m) (mv_pipeline m) (mv_from m) (mv_to m) (mv_edit m).
Proof. intros [_ _ Hm Hh Hc]%reachable_ok. split_and!; auto. Qed.

(** A revision is immutable. Whatever happens after, a revision's
    definition, lockfile, author and hash stay as they were saved, so that
    what a run pinned is what it reads back for as long as it lasts. *)
Theorem revisions_are_immutable cfg has w w' :
  api_reachable sha256 marshal unmarshal cfg has w → rtc (api_step sha256 marshal unmarshal cfg has) w w' →
  (∀ k row, db_revisions (w_db w) !! k = Some row → ∃ row', db_revisions (w_db w') !! k = Some row' ∧ same_content row row')
  ∧ ∀ tenant pipeline revision p, Get tenant pipeline revision (w_db w) = Ok p → Get tenant pipeline revision (w_db w') = Ok p.
Proof.
  intros Hw%reachable_ok Hs. destruct (api_steps_ok _ _ _ _ Hs Hw) as [_ Hk]. split; [exact Hk|].
  intros *. by apply Get_keeps.
Qed.

(** At most one revision of a pipeline is active, and it was approved by
    somebody other than its author. *)
Theorem one_reviewed_active_revision cfg has w tenant id1 id2 a b :
  api_reachable sha256 marshal unmarshal cfg has w →
  db_revisions (w_db w) !! (tenant, id1) = Some a → db_revisions (w_db w) !! (tenant, id2) = Some b →
  row_pipeline a = row_pipeline b → row_state a = StateActive → row_state b = StateActive →
  id1 = id2 ∧ row_approver a ≠ row_author a.
Proof.
  intros [[Hrows Hact] _ _ _ _]%reachable_ok Ha Hb Hp Hsa Hsb.
  assert ((tenant, id1) = (tenant, id2)) as E by (by apply (Hact _ _ a b)). injection E as <-.
  split; [done|]. by apply (Hrows (tenant, id1)).
Qed.
End Facts.

(** ** Playing a schedule *)

Inductive act : Type :=
| ARead (n : nat) (tenant pipeline base subject : string) (op : option Operation)
| ASave (n : nat) (now : Z)
| ACreate (n : nat) (tenant pipeline : string) (p : option Pipeline) (subject : string) (now : Z)
| AMove (n : nat)
| AApprove (tenant revision approver : string).

Section Play.
Context (sha256 : string → string) (marshal : Pipeline → string) (unmarshal : string → option Pipeline).
Context (cfg : StoreCfg) (has : option (Digest → option bool)).

Definition saved (r : DefDB * result DefErr Revision) : option (DefDB * Revision) :=
  match r with (db, Ok rev) => Some (db, rev) | _ => None end.

Definition play_one (w : World) (a : act) : option World :=
  match a with
  | ARead n tenant pipeline base subject op =>
      match w_editing w !! n, Head tenant pipeline (w_db w) with
      | None, Ok head =>
          if decide (pipeline ≠ "" ∧ base ≠ "")
          then Some (mkWorld (w_db w) (<[n := EdRead tenant pipeline base subject op head]> (w_editing w)) (w_moves w))
          else None
      | _, _ => None
      end
  | ASave n now =>
      match w_editing w !! n with
      | Some (EdRead tenant pipeline base subject op head) =>
          match plan_edit unmarshal has tenant pipeline base op head (w_db w) with
          | Ok (applyTo, next) =>
              '(db, rev) ← saved (Save sha256 marshal cfg now tenant (Some next) subject (w_db w));
              Some (mkWorld db (<[n := EdSaved tenant pipeline
                (match head with Some _ => applyTo | None => "" end) (rv_ID rev) op]> (w_editing w)) (w_moves w))
          | Err _ => None
          end
      | _ => None
      end
  | ACreate n tenant pipeline p subject now =>
      match w_editing w !! n, Revisions tenant pipeline (w_db w), checkDefinitionFiles has (create_definition pipeline p) with
      | None, Ok [], Ok tt =>
          if decide (pipeline ≠ "") then
            '(db, rev) ← saved (Save sha256 marshal cfg now tenant (Some (create_definition pipeline p)) subject (w_db w));
            Some (mkWorld db (<[n := EdSaved tenant pipeline "" (rv_ID rev) None]> (w_editing w)) (w_moves w))
          else None
      | _, _, _ => None
      end
  | AMove n =>
      match w_editing w !! n with
      | Some (EdSaved tenant pipeline from to edit) =>
          match CompareAndSetHead tenant pipeline from to (w_db w) with
          | (db, Ok tt) => Some (mkWorld db (delete n (w_editing w)) (w_moves w ++ [mkMove tenant pipeline from to edit]))
          | _ => None
          end
      | _ => None
      end
  | AApprove tenant revision approver =>
      Some (mkWorld (Approve tenant revision approver (w_db w)).1 (w_editing w) (w_moves w))
  end.

Lemma saved_Some r db rev : saved r = Some (db, rev) → r = (db, Ok rev).
Proof. unfold saved. destruct r as [d [x|]]; [by intros [= -> ->]|done]. Qed.

Lemma play_one_sound w a w' : play_one w a = Some w' → api_step sha256 marshal unmarshal cfg has w w'.
Proof.
  destruct a as [n t p base subject op|n now|n t p pl subject now|n|t r ap]; simpl.
  - destruct (w_editing w !! n) eqn:?; [done|]. destruct (Head t p (w_db w)) eqn:?; [|done].
    case_decide as Hg; [|done]. intros [= <-]. destruct Hg. by eapply as_read.
  - destruct (w_editing w !! n) as [[t p base subject op head|]|] eqn:?; try done.
    destruct (plan_edit _ _ _ _ _ _ _ _) as [[applyTo next]|] eqn:?; [|done].
    destruct (saved _) as [[db rev]|] eqn:Hs; [|done]. apply saved_Some in Hs. intros [= <-]. by eapply as_save.
  - destruct (w_editing w !! n) eqn:?; [done|]. destruct (Revisions t p (w_db w)) as [[|]|] eqn:?; try done.
    destruct (checkDefinitionFiles _ _) as [[]|] eqn:?; [|done]. case_decide; [|done].
    destruct (saved _) as [[db rev]|] eqn:Hs; [|done]. apply saved_Some in Hs. intros [= <-]. by eapply as_create.
  - destruct (w_editing w !! n) as [[|t p from to edit]|] eqn:?; try done.
    destruct (CompareAndSetHead _ _ _ _ _) as [db [[]|]] eqn:?; try done. intros [= <-]. by eapply as_move.
  - intros [= <-]. destruct (Approve t r ap (w_db w)) as [db res] eqn:E. by eapply as_approve.
Qed.

Fixpoint play (w : World) (l : list act) : option World :=
  match l with
  | [] => Some w
  | a :: l => w' ← play_one w a; play w' l
  end.

Lemma play_sound w l w' : play w l = Some w' → rtc (api_step sha256 marshal unmarshal cfg has) w w'.
Proof.
  revert w. induction l as [|a l IH]; intros w; simpl; [by intros [= ->]|].
  destruct (play_one w a) as [w1|] eqn:E; [|done]. simpl. intros H. eapply rtc_l; [by eapply play_one_sound|by apply IH].
Qed.

(** A schedule that can be played to its end reaches what it leaves. *)
Definition played (w : World) (l : list act) : bool := match play w l with Some _ => true | None => false end.

Lemma played_sound w l :
  played w l = true → rtc (api_step sha256 marshal unmarshal cfg has) w (default new_world (play w l)).
Proof. unfold played. destruct (play w l) eqn:E; [|done]. intros _. by apply (play_sound w l). Qed.
End Play.

(** A run of the handlers over a toy hash and encoding: one pipeline created,
    then two editors at once, the second merged. *)
Definition ex_hash (s : string) : string := s.
Definition ex_marshal (p : Pipeline) : string :=
  pl_id p +:+ "/" +:+ join "," (map (λ s, step_id s +:+ "=" +:+ step_name s +:+ "@" +:+ step_image s) (pl_steps p)).

Definition ex_base : Pipeline := mkPipeline "p" [ex_step "lint" [] []; ex_step "test" [] []] [] [].
Definition ex_renamed : Pipeline := mkPipeline "p" [with_name "linter" (ex_step "lint" [] []); ex_step "test" [] []] [] [].
Definition ex_unmarshal (s : string) : option Pipeline :=
  if decide (s = ex_marshal ex_base) then Some ex_base
  else if decide (s = ex_marshal ex_renamed) then Some ex_renamed else None.

Definition ex_cfg : StoreCfg := mkStoreCfg None true.
Definition ex_rev (p : Pipeline) : string := "rev_" +:+ ContentHash ex_hash ex_marshal p.

Definition ex_create : list act := [ACreate 1 "acme" "p" (Some ex_base) "ada" 10; AMove 1].
Definition ex_edits : list act :=
  [ARead 1 "acme" "p" (ex_rev ex_base) "ada" (Some (Rename "lint" "linter"));
   ARead 2 "acme" "p" (ex_rev ex_base) "bob" (Some (SetProperty "test" "image" "alpine"));
   ASave 1 20; AMove 1;
   ARead 3 "acme" "p" (ex_rev ex_base) "bob" (Some (SetProperty "test" "image" "alpine"));
   ASave 3 30; AMove 3; AApprove "acme" (ex_rev ex_base) "grace"].

Abbreviation ex_play := (play ex_hash ex_marshal ex_unmarshal ex_cfg None).
Definition ex_start : World := default new_world (ex_play new_world ex_create).
Definition ex_world : World := default new_world (ex_play ex_start ex_edits).

Lemma ex_start_reachable : api_reachable ex_hash ex_marshal ex_unmarshal ex_cfg None ex_start.
Proof. apply played_sound. vm_compute. reflexivity. Qed.

Lemma ex_world_steps : rtc (api_step ex_hash ex_marshal ex_unmarshal ex_cfg None) ex_start ex_world.
Proof. apply played_sound. vm_compute. reflexivity. Qed.

Lemma ex_world_reachable : api_reachable ex_hash ex_marshal ex_unmarshal ex_cfg None ex_world.
Proof. unfold api_reachable. etrans; [apply ex_start_reachable|apply ex_world_steps]. Qed.

Lemma no_edit_is_lost_witness :
  map mv_edit (w_moves ex_world) = [None; Some (Rename "lint" "linter"); Some (SetProperty "test" "image" "alpine")]
  ∧ (∀ m, m ∈ w_moves ex_world → mv_from m ≠ "" →
       is_edit ex_hash ex_marshal ex_unmarshal (w_db ex_world) (mv_tenant m) (mv_pipeline m) (mv_from m) (mv_to m) (mv_edit m)).
Proof.
  split; [vm_compute; reflexivity|].
  exact (proj2 (proj2 (no_edit_is_lost ex_hash ex_marshal ex_unmarshal ex_cfg None ex_world ex_world_reachable))).
Defined.

Lemma revisions_are_immutable_witness :
  Get ex_unmarshal "acme" "p" (ex_rev ex_base) (w_db ex_world) = Ok ex_base.
Proof.
  apply (proj2 (revisions_are_immutable ex_hash ex_marshal ex_unmarshal ex_cfg None ex_start ex_world
                  ex_start_reachable ex_world_steps)).
  vm_compute. reflexivity.
Defined.

(** The row of the revision that was approved. *)
Definition ex_approved : option RevRow := db_revisions (w_db ex_world) !! ("acme", ex_rev ex_base).

Lemma ex_approved_row : ∃ row, ex_approved = Some row ∧ rv_State (rr_rev row) = StateActive.
Proof.
  assert (H : match ex_approved with Some row => bool_decide (rv_State (rr_rev row) = StateActive) | None => false end = true)
    by (vm_compute; reflexivity).
  destruct ex_approved as [row|]; [|done]. exists row. split; [done|]. by apply bool_decide_eq_true in H.
Qed.

Lemma one_reviewed_active_revision_witness :
  ∃ row, ex_approved = Some row ∧ rv_Approver (rr_rev row) ≠ rv_Author (rr_rev row).
Proof.
  destruct ex_approved_row as (row & E & Hs). exists row. split; [exact E|].
  exact (proj2 (one_reviewed_active_revision ex_hash ex_marshal ex_unmarshal ex_cfg None ex_world "acme"
                  (ex_rev ex_base) (ex_rev ex_base) row row ex_world_reachable E E eq_refl Hs Hs)).
Defined.

(** ** Approvals racing on Postgres *)

Lemma publish_nothing_demoted a db k row :
  db_revisions db !! k = Some row →
  db_revisions (publish_approval a ∅ db) !! k
  = Some (if decide (k = (ap_tenant a, ap_id a)) then with_rev row (set_state (rr_rev row) StateActive (ap_approver a)) else row).
Proof.
  intros Hk. unfold publish_approval. rewrite lookup_promote. cbn [with_revisions db_revisions].
  rewrite map_lookup_imap, Hk. simpl. by rewrite (decide_False (P := _ ∧ _)) by set_solver.
Qed.

Lemma nothing_locked db (m : gmap nat Approving) tenant :
  (∀ n a, m !! n = Some a → default ∅ (ap_demoted a) = ∅) → locked_revisions (mkPgWorld db m) tenant = ∅.
Proof.
  intros Hm. unfold locked_revisions. apply set_eq. intros x. split; [|set_solver]. rewrite elem_of_union_list.
  intros (X & HX & Hx). apply (list_elem_of_fmap (λ y : nat * Approving, if decide (ap_tenant y.2 = tenant) then default ∅ (ap_demoted y.2) else ∅)) in HX as ([n a] & -> & Hin).
  apply elem_of_map_to_list in Hin. revert Hx. simpl. rewrite (Hm n a Hin). case_decide; set_solver.
Qed.

(** On Postgres two approvals that race both win: READ COMMITTED lets each
    look for the active revision before the other has committed one. Wherever
    two revisions of a pipeline wait and none is active, a schedule of two
    approvals leaves both active. *)
Theorem racing_approvals_leave_two_active db tenant id1 id2 approver1 approver2 a b :
  tenant ≠ "" → id1 ≠ id2 →
  approval tenant id1 approver1 db = Ok (Some a) → approval tenant id2 approver2 db = Ok (Some b) →
  rv_PipelineID a = rv_PipelineID b → active_ids tenant (rv_PipelineID a) db = ∅ →
  ∃ w r1 r2, rtc pg_step (mkPgWorld db ∅) w
    ∧ db_revisions (pg_db w) !! (tenant, id1) = Some r1 ∧ db_revisions (pg_db w) !! (tenant, id2) = Some r2
    ∧ is_active (rv_PipelineID a) r1 ∧ is_active (rv_PipelineID a) r2.
Proof.
  intros Ht Hne Ha Hb Hp Hnone.
  assert (∃ ra, db_revisions db !! (tenant, id1) = Some ra ∧ rr_rev ra = a) as (ra & Hra & Ea).
  { revert Ha. unfold approval, revisionRow. destruct (_ !! (tenant, id1)) as [r|]; [|done]. repeat case_decide; try done. intros [= <-]. eauto. }
  assert (∃ rb, db_revisions db !! (tenant, id2) = Some rb ∧ rr_rev rb = b) as (rb & Hrb & Eb).
  { revert Hb. unfold approval, revisionRow. destruct (_ !! (tenant, id2)) as [r|]; [|done]. repeat case_decide; try done. intros [= <-]. eauto. }
  set (p := rv_PipelineID a). set (A := λ d, mkApproving tenant id1 approver1 p d). set (B := λ d, mkApproving tenant id2 approver2 p d).
  set (db1 := publish_approval (A (Some ∅)) ∅ db).
  assert (H1 : db_revisions db1 !! (tenant, id1) = Some (with_rev ra (set_state (rr_rev ra) StateActive approver1))).
  { unfold db1. rewrite (publish_nothing_demoted _ _ _ _ Hra). simpl. by rewrite decide_True. }
  assert (H2 : db_revisions db1 !! (tenant, id2) = Some rb).
  { unfold db1. rewrite (publish_nothing_demoted _ _ _ _ Hrb). simpl. by rewrite decide_False by congruence. }
  exists (mkPgWorld (publish_approval (B (Some ∅)) ∅ db1) (delete 2%nat (delete 1%nat
            (<[2%nat := B (Some ∅)]> (<[1%nat := A (Some ∅)]> (<[2%nat := B None]> (<[1%nat := A None]> ∅))))))).
  eexists _, _. split; [|split; [|split; [|split]]].
  - eapply rtc_l; [by apply (pg_read (mkPgWorld db ∅) 1 tenant id1 approver1 a)|].
    eapply rtc_l; [by apply (pg_read (mkPgWorld db _) 2 tenant id2 approver2 b)|]. simpl. rewrite <-Hp.
    eapply rtc_l; [apply (pg_demote (mkPgWorld db _) 1 tenant id1 approver1 p)|]; [done|simpl; fold p in Hnone; rewrite Hnone; set_solver|].
    simpl. fold p in Hnone. rewrite Hnone.
    eapply rtc_l; [apply (pg_demote (mkPgWorld db _) 2 tenant id2 approver2 p)|]; [done|simpl; rewrite Hnone; set_solver|].
    simpl. rewrite Hnone.
    eapply rtc_l; [apply (pg_commit (mkPgWorld db _) 1 (A (Some ∅)) ∅)|]; [done|done| |].
    { simpl. rewrite nothing_locked; [set_solver|]. intros n x Hx.
      apply lookup_delete_Some in Hx as [_ Hx]. repeat (apply lookup_insert_Some in Hx as [[_ <-]|[_ Hx]]; [done|]). by rewrite lookup_empty in Hx. }
    simpl. apply rtc_once. apply (pg_commit (mkPgWorld db1 _) 2 (B (Some ∅)) ∅); [done|done|].
    simpl. rewrite nothing_locked; [set_solver|]. intros n x Hx.
    do 2 (apply lookup_delete_Some in Hx as [_ Hx]). repeat (apply lookup_insert_Some in Hx as [[_ <-]|[_ Hx]]; [done|]). by rewrite lookup_empty in Hx.
  - cbn [pg_db]. rewrite (publish_nothing_demoted _ _ _ _ H1). simpl. by rewrite decide_False by congruence.
  - cbn [pg_db]. rewrite (publish_nothing_demoted _ _ _ _ H2). simpl. by rewrite decide_True.
  - split; simpl; [by rewrite Ea|done].
  - split; simpl; [by rewrite Eb|done].
Qed.

Definition ex_draft (p : Pipeline) : RevRow :=
  mkRevRow (draft_of ex_hash ex_marshal p ∅ "ada") (canonicalBytes ex_marshal p) 0.
Definition ex_drafts : DefDB :=
  insert_revision "acme" (ex_draft ex_renamed) (insert_revision "acme" (ex_draft ex_base) empty_defs).

Lemma racing_approvals_leave_two_active_witness :
  ∃ w r1 r2, rtc pg_step (mkPgWorld ex_drafts ∅) w
    ∧ db_revisions (pg_db w) !! ("acme", ex_rev ex_base) = Some r1 ∧ db_revisions (pg_db w) !! ("acme", ex_rev ex_renamed) = Some r2
    ∧ is_active "p" r1 ∧ is_active "p" r2.
Proof.
  apply (racing_approvals_leave_two_active ex_drafts "acme" (ex_rev ex_base) (ex_rev ex_renamed) "grace" "linus"
           (draft_of ex_hash ex_marshal ex_base ∅ "ada") (draft_of ex_hash ex_marshal ex_renamed ∅ "ada"));
    [discriminate|vm_compute; discriminate|vm_compute; reflexivity..].
Defined.

(** A reference written with white space around it is pinned under its trimmed
    text, and looked up at dispatch ([Control.provenance]) under the text as
    written. *)
Lemma padded_reference_is_not_found :
  let step := with_plugin_ref " oci://reg/p:1" (ex_step "build" [] []) in
  let p := mkPipeline "p" [step] [] [] in
  ∃ lockfile, ResolveLockfile "acme" (Some p) (Some (λ _ _, Ok (mkDigest "sha256" "aa"))) = Ok lockfile
    ∧ lockfile !! "oci://reg/p:1" = Some "sha256:aa" ∧ lockfile !! step_plugin_ref step = None.
Proof. eexists. split_and!; vm_compute; reflexivity. Qed.
