(* ===== verification/Blobs.v ===== *)
(** * Stored bytes: [internal/blobstore] and the stores of [internal/cas]

    The object stores address bytes by a tenant and a key somebody chose; the
    content-addressed stores by the hash of the bytes, over a directory of
    their own or over an object store. [Blobs] and [CasStore] are the two Go
    interfaces. A directory and a bucket are maps from a path to bytes: what is
    staged in a temporary file is visible to nobody until its rename. Where a
    call can be refused by the disk or the network it takes a [Fault]. SHA-256
    is a parameter; the AWS client is read as the bucket it reaches. *)

From Stdlib Require Import Ascii.
From S2P Require Import Prelude Bytes Proto.

(** ** Readers and faults *)

(** What an [io.Reader] gives: its chunks, then the end or an error. *)
Record Reader : Type := mkReader { rd_chunks : list string; rd_fails : option string }.

Definition io_Copy (r : Reader) : string * option string := (String.concat "" (rd_chunks r), rd_fails r).

(** The medium works, fails before the reader is read, or after. *)
Inductive Fault : Type :=
| NoFault
| FaultBefore (why : string)
| FaultAfter (why : string).

(** ** [blobstore.go] *)

Definition slash : ascii := Ascii.ascii_of_N 47.
Definition nul : ascii := Ascii.ascii_of_N 0.

Fixpoint has_char (c : ascii) (s : string) : bool :=
  match s with
  | EmptyString => false
  | String x r => Ascii.eqb x c || has_char c r
  end.

Inductive BlobErr : Type :=
| BlobInvalidKey (what value : string)
| BlobNotFound (tenant key : string)
| BlobIO (why : string).

Definition validSegment (what value : string) : result BlobErr unit :=
  if decide (value = "") then Err (BlobInvalidKey what value)
  else if has_char nul value || has_char backslash value then Err (BlobInvalidKey what value)
  else Ok tt.

Definition single_segment (t : string) : bool :=
  negb (bool_decide (t = "..") || bool_decide (t = ".") || has_char slash t).

(** [validTenant] of [blobstore.go]. *)
Definition blob_validTenant (tenant : string) : result BlobErr unit :=
  _ ← validSegment "tenant" tenant;
  if single_segment tenant then Ok tt else Err (BlobInvalidKey "tenant" tenant).

(** [path.Clean] of a relative path, on its segments. *)
Definition clean_segment (stack : list string) (seg : string) : list string :=
  if decide (seg = "" ∨ seg = ".") then stack
  else if decide (seg = "..") then
    match stack with
    | top :: rest => if decide (top = "..") then ".." :: stack else rest
    | [] => [".."]
    end
  else seg :: stack.

Definition path_Clean (p : string) : string :=
  match rev (foldl clean_segment [] (split_on slash p)) with
  | [] => "."
  | segs => join "/" segs
  end.

Definition path_Join (tenant key : string) : string := path_Clean (tenant +:+ "/" +:+ key).

Definition check_part (key : string) (u : unit) (part : string) : result BlobErr unit :=
  if decide (part = "..") then Err (BlobInvalidKey "key" key)
  else if decide (part = "") then Err (BlobInvalidKey "key" key)
  else Ok u.

Definition objectPath (tenant key : string) : result BlobErr string :=
  _ ← validSegment "tenant" tenant;
  _ ← validSegment "key" key;
  if has_prefix "/" key then Err (BlobInvalidKey "key" key)
  else _ ← fold_result (check_part key) tt (split_on slash key);
       Ok (path_Join tenant key).

(** A directory, or a bucket: paths to bytes. *)
Abbreviation Files := (gmap string string).

(** The interface [Blobs] of [overblobs.go]; [blobstore.Store] less [URL]. *)
Class Blobs : Type :=
  { Write : Fault → string → string → Reader → Files → Files * result BlobErr unit;
    Read : string → string → Files → result BlobErr string;
    BlobDelete : Fault → string → string → Files → Files * result BlobErr unit }.

(** ** [filesystem.go] of blobstore *)

Definition filesystem_path (tenant key : string) : result BlobErr string :=
  rel ← objectPath tenant key;
  _ ← blob_validTenant tenant;
  Ok rel.

(** A file stands where a directory is needed, or a directory where the file
    would be. *)
Definition blocked (fs : Files) (path : string) : bool :=
  existsb (λ p : string, has_prefix (p +:+ "/") path || has_prefix (path +:+ "/") p) (map fst (map_to_list fs)).

Definition Filesystem_Write (f : Fault) (tenant key : string) (r : Reader) (fs : Files)
    : Files * result BlobErr unit :=
  match filesystem_path tenant key with
  | Err e => (fs, Err e)
  | Ok full =>
      if blocked fs full then (fs, Err (BlobIO "not a directory"))
      else match f, io_Copy r with
           | FaultBefore why, _ => (fs, Err (BlobIO why))
           | _, (_, Some why) => (fs, Err (BlobIO why))
           | FaultAfter why, _ => (fs, Err (BlobIO why))
           | NoFault, (bytes, None) => (<[full := bytes]> fs, Ok tt)
           end
  end.

Definition Filesystem_Read (tenant key : string) (fs : Files) : result BlobErr string :=
  full ← filesystem_path tenant key;
  match fs !! full with
  | Some bytes => Ok bytes
  | None => if blocked fs full then Err (BlobIO "not a file") else Err (BlobNotFound tenant key)
  end.

Definition Filesystem_Delete (f : Fault) (tenant key : string) (fs : Files) : Files * result BlobErr unit :=
  match filesystem_path tenant key with
  | Err e => (fs, Err e)
  | Ok full =>
      match f, fs !! full with
      | NoFault, Some _ => (delete full fs, Ok tt)
      | NoFault, None => (fs, Err (if blocked fs full then BlobIO "not a file" else BlobNotFound tenant key))
      | FaultBefore why, _ | FaultAfter why, _ => (fs, Err (BlobIO why))
      end
  end.

Definition Filesystem : Blobs :=
  {| Write := Filesystem_Write; Read := Filesystem_Read; BlobDelete := Filesystem_Delete |}.

(** ** [s3.go]: the object's key is [objectPath], the tenant's shape unchecked *)

(** A fault after the object was put leaves it there. *)
Definition S3_Write (f : Fault) (tenant key : string) (r : Reader) (bucket : Files)
    : Files * result BlobErr unit :=
  match objectPath tenant key with
  | Err e => (bucket, Err e)
  | Ok object =>
      match io_Copy r, f with
      | (_, Some why), _ => (bucket, Err (BlobIO why))
      | (_, None), FaultBefore why => (bucket, Err (BlobIO why))
      | (bytes, None), FaultAfter why => (<[object := bytes]> bucket, Err (BlobIO why))
      | (bytes, None), NoFault => (<[object := bytes]> bucket, Ok tt)
      end
  end.

Definition S3_Read (tenant key : string) (bucket : Files) : result BlobErr string :=
  object ← objectPath tenant key;
  match bucket !! object with
  | Some bytes => Ok bytes
  | None => Err (BlobNotFound tenant key)
  end.

Definition S3_Delete (f : Fault) (tenant key : string) (bucket : Files) : Files * result BlobErr unit :=
  match objectPath tenant key with
  | Err e => (bucket, Err e)
  | Ok object =>
      match f, bucket !! object with
      | FaultBefore why, _ => (bucket, Err (BlobIO why))
      | _, None => (bucket, Err (BlobNotFound tenant key))
      | FaultAfter why, Some _ => (delete object bucket, Err (BlobIO why))
      | NoFault, Some _ => (delete object bucket, Ok tt)
      end
  end.

Definition S3 : Blobs := {| Write := S3_Write; Read := S3_Read; BlobDelete := S3_Delete |}.

(** ** [cas.go] *)

Inductive CasErr : Type :=
| CasNotFound (d : Digest)
| CasInvalidTenant (tenant : string)
| CasUnsupported (algo : string)
| CasMalformed (algo hex : string)
| CasIO (why : string).

#[export] Instance CasErr_eq_dec : EqDecision CasErr.
Proof. solve_decision. Defined.

(** [Store] and [Deleter]. [Put] also says how many chunks it read. *)
Class CasStore (S : Type) : Type :=
  { cas_Put : Fault → string → Reader → S → S * result CasErr Digest * nat;
    cas_Get : string → Digest → S → result CasErr string;
    cas_Has : string → Digest → S → result CasErr bool;
    cas_Delete : Fault → string → Digest → S → S * result CasErr unit }.

Definition algoSHA256 : string := "sha256".

Definition isLowerHex (s : string) : bool :=
  string_all (λ c, let z := byte_val c in
    bool_decide (48 ≤ z ≤ 57) || bool_decide (97 ≤ z ≤ 102)) s.

(** The refusal [validTenant] and [tenantDir] share. *)
Definition bad_tenant (t : string) : bool :=
  bool_decide (t = "") || bool_decide (t = ".") || bool_decide (t = "..")
  || has_char slash t || has_char backslash t || has_char nul t.

Definition validTenant (tenant : string) : result CasErr unit :=
  if bad_tenant tenant then Err (CasInvalidTenant tenant) else Ok tt.

Definition check_digest (d : Digest) : result CasErr unit :=
  if decide (d_algo d ≠ algoSHA256) then Err (CasUnsupported (d_algo d))
  else if decide (String.length (d_hex d) ≠ 64%nat) then Err (CasMalformed (d_algo d) (d_hex d))
  else if isLowerHex (d_hex d) then Ok tt else Err (CasMalformed (d_algo d) (d_hex d)).

Definition shard (d : Digest) : string :=
  d_algo d +:+ "/" +:+ String.substring 0 2 (d_hex d) +:+ "/" +:+ d_hex d.

Definition blobKey (d : Digest) : result CasErr string :=
  _ ← check_digest d; Ok (shard d).

Section Stores.
Context (sha256 : string → string).

Definition digest_of (bytes : string) : Digest := mkDigest algoSHA256 (hex_encode (sha256 bytes)).

(** ** [filesystem.go] of cas *)

(** Paths are below the store's root. *)
Definition tenantDir (tenant : string) : result CasErr string :=
  if bad_tenant tenant then Err (CasInvalidTenant tenant) else Ok tenant.

Definition blobPath (tenant : string) (d : Digest) : result CasErr string :=
  dir ← tenantDir tenant;
  _ ← check_digest d;
  Ok (dir +:+ "/" +:+ shard d).

Definition fs_Put (f : Fault) (tenant : string) (r : Reader) (fs : Files)
    : Files * result CasErr Digest * nat :=
  match tenantDir tenant with
  | Err e => (fs, Err e, 0%nat)
  | Ok dir =>
      match f with
      | FaultBefore why => (fs, Err (CasIO why), 0%nat)
      | _ =>
          let n := length (rd_chunks r) in
          let '(bytes, failed) := io_Copy r in
          match failed, f with
          | Some why, _ | None, FaultAfter why => (fs, Err (CasIO why), n)
          | None, _ =>
              let digest := digest_of bytes in
              let path := dir +:+ "/" +:+ shard digest in
              match fs !! path with
              | Some _ => (fs, Ok digest, n)
              | None => (<[path := bytes]> fs, Ok digest, n)
              end
          end
      end
  end.

Definition fs_Get (tenant : string) (d : Digest) (fs : Files) : result CasErr string :=
  path ← blobPath tenant d;
  match fs !! path with Some bytes => Ok bytes | None => Err (CasNotFound d) end.

Definition fs_Has (tenant : string) (d : Digest) (fs : Files) : result CasErr bool :=
  path ← blobPath tenant d;
  Ok (bool_decide (is_Some (fs !! path))).

Definition fs_Delete (f : Fault) (tenant : string) (d : Digest) (fs : Files) : Files * result CasErr unit :=
  match blobPath tenant d with
  | Err e => (fs, Err e)
  | Ok path =>
      match f, fs !! path with
      | NoFault, Some _ => (delete path fs, Ok tt)
      | NoFault, None => (fs, Err (CasNotFound d))
      | FaultBefore why, _ | FaultAfter why, _ => (fs, Err (CasIO why))
      end
  end.

Definition NewFilesystem : CasStore Files :=
  {| cas_Put := fs_Put; cas_Get := fs_Get; cas_Has := fs_Has; cas_Delete := fs_Delete |}.

(** ** [overblobs.go] *)

Section OverBlobs.
Context (blobs : Blobs).

Definition over_Get (tenant : string) (d : Digest) (fs : Files) : result CasErr string :=
  _ ← validTenant tenant;
  key ← blobKey d;
  match Read tenant key fs with
  | Ok bytes => Ok bytes
  | Err (BlobNotFound _ _) => Err (CasNotFound d)
  | Err (BlobIO why) => Err (CasIO why)
  | Err (BlobInvalidKey what value) => Err (CasIO (what +:+ value))
  end.

Definition over_Has (tenant : string) (d : Digest) (fs : Files) : result CasErr bool :=
  match over_Get tenant d fs with
  | Ok _ => Ok true
  | Err (CasNotFound _) => Ok false
  | Err e => Err e
  end.

(** The error of a blob store call, as [Put] wraps it. *)
Definition store_error (e : BlobErr) : CasErr :=
  match e with
  | BlobIO why => CasIO why
  | BlobNotFound _ key => CasIO key
  | BlobInvalidKey what value => CasIO (what +:+ value)
  end.

(** [Put] once the bytes are staged and hashed. *)
Definition over_store (f : Fault) (tenant bytes : string) (fs : Files) : Files * result CasErr Digest :=
  let digest := digest_of bytes in
  match blobKey digest with
  | Err e => (fs, Err e)
  | Ok key =>
      match over_Has tenant digest fs with
      | Err e => (fs, Err e)
      | Ok true => (fs, Ok digest)
      | Ok false =>
          match Write f tenant key (mkReader [bytes] None) fs with
          | (fs, Ok _) => (fs, Ok digest)
          | (fs, Err e) => (fs, Err (store_error e))
          end
      end
  end.

Definition over_Put (f : Fault) (tenant : string) (r : Reader) (fs : Files)
    : Files * result CasErr Digest * nat :=
  match validTenant tenant with
  | Err e => (fs, Err e, 0%nat)
  | Ok _ =>
      match f with
      | FaultBefore why => (fs, Err (CasIO why), 0%nat)
      | _ =>
          let n := length (rd_chunks r) in
          let '(bytes, failed) := io_Copy r in
          match failed with
          | Some why => (fs, Err (CasIO why), n)
          | None => (over_store f tenant bytes fs, n)
          end
      end
  end.

Definition over_Delete (f : Fault) (tenant : string) (d : Digest) (fs : Files) : Files * result CasErr unit :=
  match (_ ← validTenant tenant; blobKey d) with
  | Err e => (fs, Err e)
  | Ok key =>
      match BlobDelete f tenant key fs with
      | (fs, Ok _) => (fs, Ok tt)
      | (fs, Err (BlobNotFound _ _)) => (fs, Err (CasNotFound d))
      | (fs, Err e) => (fs, Err (store_error e))
      end
  end.

Definition NewOverBlobs : CasStore Files :=
  {| cas_Put := over_Put; cas_Get := over_Get; cas_Has := over_Has; cas_Delete := over_Delete |}.
End OverBlobs.
End Stores.

(** ** What a content-addressed store promises

    The contract its clients are verified against; [BlobFacts] discharges it
    for the directory and for both object stores. [cc_bytes] is what is stored
    under a tenant and a digest's hex, [cc_ok] the store's own invariant. *)
Class CasContract {S : Type} (st : CasStore S) (sha256 : string → string) : Type :=
  { cc_ok : S → Prop;
    cc_bytes : S → string → string → option string;
    cc_get s tenant d : cc_ok s → bad_tenant tenant = false → check_digest d = Ok tt →
      cas_Get tenant d s = match cc_bytes s tenant (d_hex d) with Some b => Ok b | None => Err (CasNotFound d) end;
    cc_has s tenant d : cc_ok s → bad_tenant tenant = false → check_digest d = Ok tt →
      cas_Has tenant d s = Ok (bool_decide (is_Some (cc_bytes s tenant (d_hex d))));
    (** a refused tenant or digest is refused by every call *)
    cc_scope s tenant d : bad_tenant tenant = true ∨ check_digest d ≠ Ok tt →
      is_ok (cas_Get tenant d s) = false ∧ is_ok (cas_Has tenant d s) = false
      ∧ ∀ f, (cas_Delete f tenant d s).1 = s ∧ is_ok (cas_Delete f tenant d s).2 = false;
    cc_put f tenant r s s' res n : cc_ok s → cas_Put f tenant r s = (s', res, n) →
      let content := String.concat "" (rd_chunks r) in
      let hex := d_hex (digest_of sha256 content) in
      cc_ok s'
      (** nothing else moves, what is stored stays, what failed to be read is not stored *)
      ∧ (∀ t h, cc_bytes s' t h = cc_bytes s t h
                ∨ (t = tenant ∧ h = hex ∧ cc_bytes s t h = None ∧ cc_bytes s' t h = Some content ∧ rd_fails r = None))
      ∧ (∀ d, res = Ok d → d = digest_of sha256 content ∧ n = length (rd_chunks r) ∧ rd_fails r = None
                ∧ bad_tenant tenant = false ∧ is_Some (cc_bytes s' tenant hex))
      ∧ (n ≤ length (rd_chunks r))%nat;
    cc_put_ok tenant r s : cc_ok s → bad_tenant tenant = false → rd_fails r = None →
      is_ok (cas_Put NoFault tenant r s).1.2 = true;
    cc_delete f tenant d s s' res : cc_ok s → cas_Delete f tenant d s = (s', res) →
      cc_ok s'
      ∧ (∀ t h, cc_bytes s' t h = cc_bytes s t h ∨ (t = tenant ∧ h = d_hex d ∧ cc_bytes s' t h = None))
      ∧ (res = Ok tt → is_Some (cc_bytes s tenant (d_hex d)) ∧ cc_bytes s' tenant (d_hex d) = None)
      ∧ (∀ e, res = Err (CasNotFound e) → cc_bytes s tenant (d_hex d) = None);
    cc_delete_ok tenant d s : cc_ok s → bad_tenant tenant = false → check_digest d = Ok tt →
      is_Some (cc_bytes s tenant (d_hex d)) → (cas_Delete NoFault tenant d s).2 = Ok tt }.
