(* ===== verification/BlobFacts.v ===== *)
(** * The three stores keep one contract, and are indistinguishable *)

From Stdlib Require Import Ascii.
From S2P Require Import Prelude Bytes Proto.
From S2P Require Import Blobs.

(** ** Characters and segments *)

Lemma has_char_app c a b : has_char c (a +:+ b) = has_char c a || has_char c b.
Proof. induction a as [|x a IH]; simpl; [done|]. by rewrite IH, orb_assoc. Qed.

Lemma has_char_none c s : has_char c s = false ↔ string_all (λ d, negb (Ascii.eqb d c)) s = true.
Proof.
  induction s as [|x s IH]; simpl; [done|].
  rewrite orb_false_iff, andb_true_iff, negb_true_iff, IH. done.
Qed.

Lemma split_on_single c s : has_char c s = false → split_on c s = [s].
Proof. intros H. by apply split_on_none, has_char_none. Qed.

Lemma split_on_cons c s t : has_char c s = false → split_on c (s +:+ String c t) = s :: split_on c t.
Proof. intros H. by apply split_on_app, has_char_none. Qed.

(** The characters of a lower-case hexadecimal text. *)
Lemma lower_hex_char c s : isLowerHex s = true → byte_val c ∉ [48; 49; 50; 51; 52; 53; 54; 55; 56; 57; 97; 98; 99; 100; 101; 102] →
  has_char c s = false.
Proof.
  unfold isLowerHex. intros Hs Hc. apply has_char_none. revert Hs.
  induction s as [|x s IH]; cbn [string_all]; [done|]. rewrite !andb_true_iff. intros [Hx Hs].
  split; [|by apply IH]. apply negb_true_iff, Ascii.eqb_neq. intros ->. apply Hc.
  apply orb_true_iff in Hx. rewrite !bool_decide_eq_true in Hx. rewrite !elem_of_cons. lia.
Qed.

Lemma isLowerHex_substring s n : isLowerHex s = true → isLowerHex (String.substring 0 n s) = true.
Proof.
  unfold isLowerHex. revert n. induction s as [|c s IH]; intros [|n]; simpl; try done.
  intros [Hc Hs]%andb_true_iff. by rewrite Hc, IH.
Qed.

Lemma substring_length s n : (n ≤ String.length s)%nat → String.length (String.substring 0 n s) = n.
Proof. revert n. induction s as [|c s IH]; intros [|n]; simpl; try lia. intros. f_equal. apply IH. lia. Qed.

Lemma check_digest_spec d :
  check_digest d = Ok tt ↔ d_algo d = algoSHA256 ∧ String.length (d_hex d) = 64%nat ∧ isLowerHex (d_hex d) = true.
Proof.
  unfold check_digest. repeat case_decide; destruct (isLowerHex (d_hex d)); naive_solver.
Qed.

Lemma bad_tenant_spec t : bad_tenant t = false →
  t ≠ "" ∧ t ≠ "." ∧ t ≠ ".." ∧ has_char slash t = false ∧ has_char backslash t = false ∧ has_char nul t = false.
Proof. unfold bad_tenant. rewrite !orb_false_iff, !bool_decide_eq_false. tauto. Qed.

(** ** Paths *)

(** A file's path is its tenant, and its digest's three segments. *)
Definition place (tenant hex : string) : string :=
  tenant +:+ "/" +:+ shard (mkDigest algoSHA256 hex).

Lemma shard_hex d : d_algo d = algoSHA256 → shard d = shard (mkDigest algoSHA256 (d_hex d)).
Proof. unfold shard. by intros ->. Qed.

Lemma slash_app z : "/" +:+ z = String slash z.
Proof. done. Qed.

Lemma slash_cut a b x y : has_char slash a = false → has_char slash b = false →
  a +:+ "/" +:+ x = b +:+ "/" +:+ y → a = b ∧ x = y.
Proof.
  intros Ha%has_char_none Hb%has_char_none. rewrite !slash_app. by apply string_sep_inj.
Qed.

Lemma hex_segment h c : isLowerHex h = true → byte_val c = 47 ∨ byte_val c = 92 ∨ byte_val c = 0 → has_char c h = false.
Proof.
  intros Hh Hc. apply lower_hex_char; [done|]. rewrite !elem_of_cons, elem_of_nil.
  destruct Hc as [-> | [-> | ->]]; intuition discriminate.
Qed.

Lemma split_on_nonempty c s : (0 < length (split_on c s))%nat.
Proof. destruct s as [|x s]; simpl; [lia|]. destruct (Ascii.eqb x c); [simpl; lia|]. destruct (split_on c s); simpl; lia. Qed.

Lemma split_on_length c a b :
  length (split_on c (a +:+ String c b)) = (length (split_on c a) + length (split_on c b))%nat.
Proof.
  induction a as [|x a IH]; simpl.
  - by rewrite Ascii.eqb_refl.
  - pose proof (split_on_nonempty c a). destruct (Ascii.eqb x c); simpl; [by rewrite IH|].
    destruct (split_on c (a +:+ String c b)) eqn:E1; destruct (split_on c a) eqn:E2; simpl in *; lia.
Qed.

(** A tenant and a digest the store accepts. *)
Definition named (tenant : string) (d : Digest) : Prop := bad_tenant tenant = false ∧ check_digest d = Ok tt.

Lemma shard_segments d : check_digest d = Ok tt →
  split_on slash (shard d) = ["sha256"; String.substring 0 2 (d_hex d); d_hex d].
Proof.
  intros (Ha & Hl & Hh)%check_digest_spec. unfold shard. rewrite Ha.
  rewrite !slash_app. rewrite split_on_cons by reflexivity.
  rewrite split_on_cons, split_on_single; [done|..]; apply hex_segment; try apply isLowerHex_substring; auto.
Qed.

Lemma place_segments t d : named t d →
  split_on slash (place t (d_hex d)) = [t; "sha256"; String.substring 0 2 (d_hex d); d_hex d].
Proof.
  intros [Ht Hd]. pose proof (shard_segments d Hd) as Hs. apply check_digest_spec in Hd as (Ha & _).
  unfold place. rewrite <-shard_hex by done. rewrite !slash_app.
  rewrite split_on_cons by (by apply bad_tenant_spec in Ht as (_ & _ & _ & ? & _)). by rewrite Hs.
Qed.

Lemma place_inj t d t' d' : named t d → named t' d' → place t (d_hex d) = place t' (d_hex d') →
  t = t' ∧ d_hex d = d_hex d'.
Proof.
  intros Hn Hn' He. pose proof (place_segments t d Hn) as Hs. rewrite He, (place_segments t' d' Hn') in Hs.
  by simplify_eq.
Qed.

Lemma hex_not_special h : String.length h = 64%nat → h ≠ "" ∧ h ≠ "." ∧ h ≠ "..".
Proof. intros Hl. repeat split; by intros ->. Qed.

Lemma fan_not_special h : isLowerHex h = true → String.length h = 64%nat →
  String.substring 0 2 h ≠ "" ∧ String.substring 0 2 h ≠ "." ∧ String.substring 0 2 h ≠ "..".
Proof.
  intros Hh Hl. pose proof (substring_length h 2 ltac:(lia)) as H2.
  pose proof (isLowerHex_substring h 2 Hh) as Hx. repeat split; intros E; rewrite E in *; done.
Qed.

(** A segment [path.Clean] keeps. *)
Lemma clean_plain stack seg : seg ≠ "" → seg ≠ "." → seg ≠ ".." → clean_segment stack seg = seg :: stack.
Proof. intros. unfold clean_segment. rewrite decide_False by tauto. by rewrite decide_False. Qed.

Lemma path_Join_place t d : named t d → path_Join t (shard d) = place t (d_hex d).
Proof.
  intros Hn. pose proof (place_segments t d Hn) as Hs. destruct Hn as [Ht Hd].
  pose proof (check_digest_spec d) as [Hd' _]. destruct (Hd' Hd) as (Ha & Hl & Hh).
  unfold path_Join, path_Clean. rewrite (shard_hex d Ha). fold (place t (d_hex d)). rewrite Hs.
  apply bad_tenant_spec in Ht as (T1 & T2 & T3 & _).
  destruct (hex_not_special _ Hl) as (? & ? & ?), (fan_not_special _ Hh Hl) as (? & ? & ?).
  cbn [foldl]. rewrite (clean_plain [] t), (clean_plain _ "sha256"), (clean_plain _ (String.substring 0 2 _)), (clean_plain _ (d_hex d)) by done.
  simpl rev. unfold place, shard. cbn [join d_algo d_hex]. done.
Qed.

Lemma validSegment_plain what v : v ≠ "" → has_char nul v = false → has_char backslash v = false →
  validSegment what v = Ok tt.
Proof. intros H1 H2 H3. unfold validSegment. rewrite decide_False by done. by rewrite H2, H3. Qed.

Lemma shard_no_char d c : check_digest d = Ok tt → c = nul ∨ c = backslash → has_char c (shard d) = false.
Proof.
  intros (Ha & Hl & Hh)%check_digest_spec Hc. unfold shard. rewrite Ha, !has_char_app.
  rewrite (hex_segment (d_hex d) c Hh), (hex_segment (String.substring 0 2 (d_hex d)) c);
    try (by apply isLowerHex_substring); try (destruct Hc as [-> | ->]; vm_compute; tauto).
Qed.

Lemma objectPath_place t d : named t d → objectPath t (shard d) = Ok (place t (d_hex d)).
Proof.
  intros Hn. pose proof Hn as [Ht Hd]. apply bad_tenant_spec in Ht as (T1 & T2 & T3 & T4 & T5 & T6).
  unfold objectPath. rewrite (validSegment_plain "tenant" t) by done.
  assert (Hs : validSegment "key" (shard d) = Ok tt).
  { apply validSegment_plain; [|apply shard_no_char; auto..].
    apply check_digest_spec in Hd as (Ha & _). unfold shard. by rewrite Ha. }
  rewrite Hs. cbn [mbind result_bind]. assert (has_prefix "/" (shard d) = false) as ->.
  { apply check_digest_spec in Hd as (Ha & _). unfold shard. by rewrite Ha. }
  rewrite (shard_segments d Hd), path_Join_place by done.
  apply check_digest_spec in Hd as (Ha & Hl & Hh).
  destruct (hex_not_special _ Hl) as (? & ? & ?), (fan_not_special _ Hh Hl) as (? & ? & ?).
  cbn [fold_result]. unfold check_part. by repeat (rewrite decide_False by done; simpl).
Qed.

Lemma filesystem_path_place t d : named t d → filesystem_path t (shard d) = Ok (place t (d_hex d)).
Proof.
  intros Hn. unfold filesystem_path. rewrite objectPath_place by done. simpl.
  destruct Hn as [(T1 & T2 & T3 & T4 & T5 & T6)%bad_tenant_spec _].
  unfold blob_validTenant. rewrite validSegment_plain by done. simpl.
  unfold single_segment. by rewrite !bool_decide_eq_false_2, T4 by done.
Qed.

Lemma blobPath_place t d : named t d → blobPath t d = Ok (place t (d_hex d)).
Proof.
  intros [Ht Hd]. unfold blobPath, tenantDir. rewrite Ht. simpl. rewrite Hd. simpl.
  apply check_digest_spec in Hd as (Ha & _). unfold place. by rewrite <-shard_hex.
Qed.

Lemma hex_char_lower z : 0 ≤ z < 16 → isLowerHex (String (hex_char z) "") = true.
Proof.
  intros Hz. assert (z ∈ [0; 1; 2; 3; 4; 5; 6; 7; 8; 9; 10; 11; 12; 13; 14; 15]) as Hin.
  { rewrite !elem_of_cons. lia. }
  clear Hz. revert z Hin. apply Forall_forall. repeat constructor.
Qed.

Lemma hex_encode_lower s : isLowerHex (hex_encode s) = true.
Proof.
  induction s as [|c s IH]; [done|]. pose proof (byte_val_range c).
  assert (H1 : 0 ≤ byte_val c / 16 < 16) by (split; [apply Z.div_pos|apply Z.div_lt_upper_bound]; lia).
  assert (H2 : 0 ≤ byte_val c mod 16 < 16) by (apply Z.mod_pos_bound; lia).
  apply hex_char_lower in H1, H2. unfold isLowerHex in *. cbn [hex_encode string_all] in *.
  rewrite andb_true_r in H1, H2. by rewrite H1, H2.
Qed.

Lemma hex_encode_length s : String.length (hex_encode s) = (2 * String.length s)%nat.
Proof. induction s as [|c s IH]; simpl; [done|]. rewrite IH. lia. Qed.

#[export] Instance named_dec t d : Decision (named t d).
Proof. unfold named. apply _. Defined.

(** A digest no blob path spells. *)
Lemma named_hex t d : named t d → named t (mkDigest algoSHA256 (d_hex d)).
Proof.
  intros [Ht Hd]. split; [done|]. apply check_digest_spec in Hd as (Ha & ?). by apply check_digest_spec.
Qed.

Lemma unnamed_refused t d : bad_tenant t = true ∨ check_digest d ≠ Ok tt → is_ok (blobPath t d) = false.
Proof.
  unfold blobPath, tenantDir. intros [-> | Hd]; [done|].
  destruct (bad_tenant t); simpl; [done|]. destruct (check_digest d) as [[]|]; done.
Qed.

(** ** The layout both kinds of store keep *)

Section Contracts.
Context (sha256 : string → string) (sha256_size : ∀ s, String.length (sha256 s) = 32%nat).

Lemma digest_checked b : check_digest (digest_of sha256 b) = Ok tt.
Proof.
  apply check_digest_spec. split; [done|]. simpl. rewrite hex_encode_length, sha256_size.
  split; [done|apply hex_encode_lower].
Qed.

(** Every file is a blob, at the place of its bytes. *)
Definition laid_out (fs : Files) : Prop :=
  ∀ p b, fs !! p = Some b → ∃ t, bad_tenant t = false ∧ p = place t (d_hex (digest_of sha256 b)).

Definition stored (fs : Files) (t h : string) : option string :=
  if decide (named t (mkDigest algoSHA256 h)) then fs !! place t h else None.

Lemma laid_out_empty : laid_out ∅.
Proof. intros p b. by rewrite lookup_empty. Qed.

Lemma stored_named fs t d : named t d → stored fs t (d_hex d) = fs !! place t (d_hex d).
Proof. intros Hn%named_hex. unfold stored. by rewrite decide_True. Qed.

Lemma not_blocked fs t d : laid_out fs → named t d → blocked fs (place t (d_hex d)) = false.
Proof.
  intros Hl Hn. apply not_true_is_false. intros (p & Hp & Hb)%existsb_exists.
  apply in_map_iff in Hp as ([p' b] & <- & Hp%list_elem_of_In). apply elem_of_map_to_list in Hp.
  destruct (Hl p' b Hp) as (t' & Ht' & ->). cbn [fst] in Hb.
  assert (Hn' : named t' (digest_of sha256 b)) by (split; [done|apply digest_checked]).
  pose proof (f_equal length (place_segments t d Hn)) as H1.
  pose proof (f_equal length (place_segments t' _ Hn')) as H2. cbn [length] in H1, H2.
  assert (Hcut : ∀ x y r, x = (y +:+ "/") +:+ r → (length (split_on slash y) < length (split_on slash x))%nat).
  { intros x y r ->. rewrite string_app_assoc, slash_app, split_on_length.
    pose proof (split_on_nonempty slash r). lia. }
  apply orb_true_iff in Hb as [[r Hr]%has_prefix_spec|[r Hr]%has_prefix_spec]; apply Hcut in Hr; rewrite H1, H2 in Hr; lia.
Qed.

Lemma laid_out_insert fs t b : laid_out fs → bad_tenant t = false →
  laid_out (<[place t (d_hex (digest_of sha256 b)) := b]> fs).
Proof.
  intros Hl Ht p b' [[<- ->] | [_ ?]]%lookup_insert_Some; [|by apply Hl]. by exists t.
Qed.

Lemma laid_out_delete fs p : laid_out fs → laid_out (delete p fs).
Proof. intros Hl q b [_ ?]%lookup_delete_Some. by apply Hl. Qed.

(** What an insertion and a removal do to what is stored. *)
Lemma stored_insert fs t d b t' h : named t d →
  stored (<[place t (d_hex d) := b]> fs) t' h
  = if decide (t' = t ∧ h = d_hex d) then Some b else stored fs t' h.
Proof.
  intros Hn. unfold stored at 1. destruct (decide (named t' _)) as [Hn'|Hn'].
  - destruct (decide (t' = t ∧ h = d_hex d)) as [[-> ->]|Hne]; [by rewrite lookup_insert_eq|].
    rewrite lookup_insert_ne; [by unfold stored; rewrite decide_True|].
    intros He. apply (place_inj t d t' (mkDigest algoSHA256 h)) in He as [<- Hh]; [|done..]. by apply Hne.
  - rewrite decide_False; [by unfold stored; rewrite decide_False|].
    intros [-> ->]. by apply Hn', named_hex.
Qed.

Lemma stored_delete fs t d t' h : named t d →
  stored (delete (place t (d_hex d)) fs) t' h = if decide (t' = t ∧ h = d_hex d) then None else stored fs t' h.
Proof.
  intros Hn. unfold stored at 1. destruct (decide (named t' _)) as [Hn'|Hn'].
  - destruct (decide (t' = t ∧ h = d_hex d)) as [[-> ->]|Hne]; [by rewrite lookup_delete_eq|].
    rewrite lookup_delete_ne; [by unfold stored; rewrite decide_True|].
    intros He. apply (place_inj t d t' (mkDigest algoSHA256 h)) in He as [<- Hh]; [|done..]. by apply Hne.
  - rewrite decide_False; [by unfold stored; rewrite decide_False|].
    intros [-> ->]. by apply Hn', named_hex.
Qed.

(** ** What the object stores do at a blob's key *)

Class BlobsLaws (B : Blobs) : Prop :=
  { bl_read fs t d : laid_out fs → named t d →
      Read t (shard d) fs = match fs !! place t (d_hex d) with Some b => Ok b | None => Err (BlobNotFound t (shard d)) end;
    bl_write f fs t d b fs' res : laid_out fs → named t d → Write f t (shard d) (mkReader [b] None) fs = (fs', res) →
      (fs' = fs ∨ fs' = <[place t (d_hex d) := b]> fs)
      ∧ (res = Ok tt → fs' = <[place t (d_hex d) := b]> fs) ∧ (f = NoFault → res = Ok tt);
    bl_delete f fs t d fs' res : laid_out fs → named t d → BlobDelete f t (shard d) fs = (fs', res) →
      (fs' = fs ∨ fs' = delete (place t (d_hex d)) fs)
      ∧ (res = Ok tt → is_Some (fs !! place t (d_hex d)) ∧ fs' = delete (place t (d_hex d)) fs)
      ∧ (∀ t' k, res = Err (BlobNotFound t' k) → fs !! place t (d_hex d) = None)
      ∧ (f = NoFault → (fs', res) = match fs !! place t (d_hex d) with
                                     | Some _ => (delete (place t (d_hex d)) fs, Ok tt)
                                     | None => (fs, Err (BlobNotFound t (shard d))) end) }.

#[export] Instance Filesystem_laws : BlobsLaws Filesystem.
Proof.
  split.
  - intros fs t d Hl Hn. unfold Read, Filesystem, Filesystem_Read. rewrite filesystem_path_place by done. cbn [mbind result_bind].
    by rewrite not_blocked.
  - intros f fs t d b fs' res Hl Hn. unfold Write, Filesystem, Filesystem_Write.
    rewrite filesystem_path_place, not_blocked by done. destruct f; intros; simplify_eq/=; naive_solver.
  - intros f fs t d fs' res Hl Hn. unfold BlobDelete, Filesystem, Filesystem_Delete.
    rewrite filesystem_path_place by done. pose proof (not_blocked fs t d Hl Hn) as Hnb.
    destruct f; destruct (fs !! _) eqn:E; rewrite ?Hnb; intros; simplify_eq/=; naive_solver.
Qed.

#[export] Instance S3_laws : BlobsLaws S3.
Proof.
  split.
  - intros fs t d Hl Hn. unfold Read, S3, S3_Read. by rewrite objectPath_place.
  - intros f fs t d b fs' res Hl Hn. unfold Write, S3, S3_Write. rewrite objectPath_place by done.
    destruct f; intros; simplify_eq/=; naive_solver.
  - intros f fs t d fs' res Hl Hn. unfold BlobDelete, S3, S3_Delete. rewrite objectPath_place by done.
    destruct f; destruct (fs !! _) eqn:E; intros; simplify_eq/=; naive_solver.
Qed.

(** ** The directory's contract *)

Lemma valid_named t d : bad_tenant t = false → check_digest d = Ok tt → named t d.
Proof. done. Qed.

Lemma named_digest t b : bad_tenant t = false → named t (digest_of sha256 b).
Proof. intros Ht. split; [done|apply digest_checked]. Qed.

Lemma blobPath_unnamed t d : ¬ named t d → ∃ e, blobPath t d = Err e ∧ ∀ x, e ≠ CasNotFound x.
Proof.
  unfold named, blobPath, tenantDir. intros Hn. destruct (bad_tenant t); simpl; [by eexists|].
  unfold check_digest in *. repeat case_decide; simpl; [by eexists..|].
  destruct (isLowerHex (d_hex d)); simpl; [naive_solver|by eexists].
Qed.

Lemma fs_put_ok f t r fs fs' res n : laid_out fs → fs_Put sha256 f t r fs = (fs', res, n) →
  let content := String.concat "" (rd_chunks r) in
  let p := place t (d_hex (digest_of sha256 content)) in
  (fs' = fs ∨ (bad_tenant t = false ∧ rd_fails r = None ∧ fs !! p = None ∧ fs' = <[p := content]> fs))
  ∧ (∀ d, res = Ok d → d = digest_of sha256 content ∧ n = length (rd_chunks r) ∧ rd_fails r = None
            ∧ bad_tenant t = false ∧ is_Some (fs' !! p))
  ∧ (n ≤ length (rd_chunks r))%nat.
Proof.
  intros Hl. unfold fs_Put, tenantDir. destruct (bad_tenant t) eqn:Ht.
  { intros [= <- <- <-]. split; [by left|]. split; [done|lia]. }
  unfold io_Copy. set (c := String.concat "" (rd_chunks r)).
  change (t +:+ "/" +:+ shard (digest_of sha256 c)) with (place t (d_hex (digest_of sha256 c))).
  destruct f; try (intros [= <- <- <-]; split; [by left|]; split; [done|lia]).
  - destruct (rd_fails r) eqn:Hf; [intros [= <- <- <-]; split; [by left|]; split; [done|lia]|].
    destruct (fs !! _) eqn:Hp; intros [= <- <- <-]; (split; [|split; [|lia]]).
    + by left.
    + intros d [= <-]. by rewrite Hp.
    + by right.
    + intros d [= <-]. rewrite lookup_insert_eq. done.
  - destruct (rd_fails r); intros [= <- <- <-]; (split; [by left|]; split; [done|lia]).
Qed.

Lemma laid_out_grows t r fs fs' :
  let content := String.concat "" (rd_chunks r) in
  let p := place t (d_hex (digest_of sha256 content)) in
  laid_out fs →
  (fs' = fs ∨ (bad_tenant t = false ∧ rd_fails r = None ∧ fs !! p = None ∧ fs' = <[p := content]> fs)) →
  laid_out fs' ∧
  (∀ t' h, stored fs' t' h = stored fs t' h
           ∨ (t' = t ∧ h = d_hex (digest_of sha256 content) ∧ stored fs t' h = None ∧ stored fs' t' h = Some content ∧ rd_fails r = None)).
Proof.
  intros content p Hl [->|(Ht & Hr & Hp & ->)]; [split; [done|by left]|].
  pose proof (named_digest t content Ht) as Hn. split; [by apply laid_out_insert|].
  intros t' h. unfold p. rewrite stored_insert by done. destruct (decide _) as [[-> ->]|]; [|by left].
  right. by rewrite stored_named.
Qed.

Lemma laid_out_shrinks t d fs fs' : named t d → laid_out fs →
  (fs' = fs ∨ fs' = delete (place t (d_hex d)) fs) →
  laid_out fs' ∧
  (∀ t' h, stored fs' t' h = stored fs t' h ∨ (t' = t ∧ h = d_hex d ∧ stored fs' t' h = None)).
Proof.
  intros Hn Hl [->| ->]; [split; [done|by left]|]. split; [by apply laid_out_delete|].
  intros t' h. rewrite stored_delete by done. destruct (decide _) as [[-> ->]|]; [by right|by left].
Qed.

Lemma fs_delete_ok f t d fs fs' res : fs_Delete f t d fs = (fs', res) →
  (fs' = fs ∨ (named t d ∧ fs' = delete (place t (d_hex d)) fs))
  ∧ (res = Ok tt → named t d ∧ is_Some (fs !! place t (d_hex d)) ∧ fs' = delete (place t (d_hex d)) fs)
  ∧ (∀ e, res = Err (CasNotFound e) → named t d ∧ fs !! place t (d_hex d) = None).
Proof.
  unfold fs_Delete. destruct (decide (named t d)) as [Hn|Hn].
  - rewrite blobPath_place by done. destruct f; destruct (fs !! _) eqn:E; intros; simplify_eq; naive_solver.
  - apply blobPath_unnamed in Hn as (e & -> & He).
    intros [= <- <-]. split; [by left|]. split; [done|]. intros x Hx. simplify_eq.
    by destruct (He x).
Qed.

(** What the two stores are compared on. *)
Definition put_ok (put : Fault → string → Reader → Files → Files * result CasErr Digest * nat) : Prop :=
  ∀ f t r fs fs' res n, laid_out fs → put f t r fs = (fs', res, n) →
  let content := String.concat "" (rd_chunks r) in
  let p := place t (d_hex (digest_of sha256 content)) in
  (fs' = fs ∨ (bad_tenant t = false ∧ rd_fails r = None ∧ fs !! p = None ∧ fs' = <[p := content]> fs))
  ∧ (∀ d, res = Ok d → d = digest_of sha256 content ∧ n = length (rd_chunks r) ∧ rd_fails r = None
            ∧ bad_tenant t = false ∧ is_Some (fs' !! p))
  ∧ (n ≤ length (rd_chunks r))%nat.

Definition delete_ok (del : Fault → string → Digest → Files → Files * result CasErr unit) : Prop :=
  ∀ f t d fs fs' res, laid_out fs → del f t d fs = (fs', res) →
  (fs' = fs ∨ (named t d ∧ fs' = delete (place t (d_hex d)) fs))
  ∧ (res = Ok tt → named t d ∧ is_Some (fs !! place t (d_hex d)) ∧ fs' = delete (place t (d_hex d)) fs)
  ∧ (∀ e, res = Err (CasNotFound e) → named t d ∧ fs !! place t (d_hex d) = None)
  ∧ (¬ named t d → fs' = fs ∧ is_ok res = false).

(** Two stores that answer alike while the medium works. *)
Definition agrees (a b : CasStore Files) : Prop :=
  ∀ fs t, laid_out fs →
  (∀ r, @cas_Put _ a NoFault t r fs = @cas_Put _ b NoFault t r fs)
  ∧ (∀ d, @cas_Get _ a t d fs = @cas_Get _ b t d fs ∧ @cas_Has _ a t d fs = @cas_Has _ b t d fs
          ∧ @cas_Delete _ a NoFault t d fs = @cas_Delete _ b NoFault t d fs).

Lemma unnamed_iff t d : ¬ named t d ↔ bad_tenant t = true ∨ check_digest d ≠ Ok tt.
Proof. unfold named. destruct (bad_tenant t); destruct (check_digest d) as [[]|]; naive_solver. Qed.

(** A store that agrees with the directory, and keeps the layout, keeps the
    contract. *)
Definition contract_of (st : CasStore Files) (Ha : agrees st (NewFilesystem sha256))
    (Hput : put_ok (@cas_Put _ st)) (Hdel : delete_ok (@cas_Delete _ st))
    (Hscope : ∀ fs t d, ¬ named t d → is_ok (@cas_Get _ st t d fs) = false ∧ is_ok (@cas_Has _ st t d fs) = false
                ∧ ∀ f, (@cas_Delete _ st f t d fs).1 = fs ∧ is_ok (@cas_Delete _ st f t d fs).2 = false)
    : CasContract st sha256.
Proof.
  refine {| cc_ok := laid_out; cc_bytes := stored |}.
  - intros fs t d Hl Ht Hd. pose proof (valid_named t d Ht Hd) as Hn.
    destruct (proj2 (Ha fs t Hl) d) as [-> _]. unfold cas_Get, NewFilesystem, fs_Get.
    by rewrite blobPath_place, stored_named.
  - intros fs t d Hl Ht Hd. pose proof (valid_named t d Ht Hd) as Hn.
    destruct (proj2 (Ha fs t Hl) d) as [_ [-> _]]. unfold cas_Has, NewFilesystem, fs_Has.
    by rewrite blobPath_place, stored_named.
  - intros fs t d Hb%unnamed_iff. by apply Hscope.
  - intros f t r fs fs' res n Hl Hp content hex. apply Hput in Hp as (Hfs & Hok & Hn); [|done].
    apply laid_out_grows in Hfs as [Hl' Hst]; [|done]. split; [done|]. split; [exact Hst|]. split; [|done].
    intros d Hd. destruct (Hok d Hd) as (-> & Hlen & Hr & Ht & Hs). do 4 (split; [done|]).
    change (is_Some (stored fs' t (d_hex (digest_of sha256 content)))).
    by rewrite stored_named by (by apply named_digest).
  - intros t r fs Hl Ht Hr. rewrite (proj1 (Ha fs t Hl) r).
    unfold cas_Put, NewFilesystem, fs_Put, tenantDir, io_Copy. rewrite Ht, Hr. by destruct (fs !! _).
  - intros f t d fs fs' res Hl Hd. apply Hdel in Hd as (Hfs & Hok & Hnf & _); [|done].
    assert (Hsh : laid_out fs' ∧ (∀ t' h, stored fs' t' h = stored fs t' h ∨ (t' = t ∧ h = d_hex d ∧ stored fs' t' h = None))).
    { destruct Hfs as [->|[Hn ->]]; [split; [done|by left]|]. apply (laid_out_shrinks t d fs); auto. }
    destruct Hsh as [Hl' Hst]. do 2 (split; [done|]). split.
    + intros (Hn & Hs & ->)%Hok. rewrite stored_named, stored_delete by done. by rewrite decide_True.
    + intros e (Hn & Hs)%Hnf. by rewrite stored_named.
  - intros t d fs Hl Ht Hd [b Hs]. pose proof (valid_named t d Ht Hd) as Hn. rewrite stored_named in Hs by done.
    destruct (proj2 (Ha fs t Hl) d) as [_ [_ ->]].
    unfold cas_Delete, NewFilesystem, fs_Delete. by rewrite blobPath_place, Hs.
Defined.

Lemma fs_scope fs t d : ¬ named t d →
  is_ok (fs_Get t d fs) = false ∧ is_ok (fs_Has t d fs) = false
  ∧ ∀ f, (fs_Delete f t d fs).1 = fs ∧ is_ok (fs_Delete f t d fs).2 = false.
Proof. intros (e & He & _)%blobPath_unnamed. unfold fs_Get, fs_Has, fs_Delete. by rewrite He. Qed.

Lemma fs_delete_laid : delete_ok fs_Delete.
Proof.
  intros f t d fs fs' res _ Hd. pose proof (fs_delete_ok _ _ _ _ _ _ Hd) as (H1 & H2 & H3).
  do 3 (split; [done|]). intros (_ & _ & Hs)%(fs_scope fs). specialize (Hs f). by rewrite Hd in Hs.
Qed.

#[export] Instance NewFilesystem_contract : CasContract (NewFilesystem sha256) sha256 :=
  contract_of (NewFilesystem sha256) (λ fs t Hl, conj (λ r, eq_refl) (λ d, conj eq_refl (conj eq_refl eq_refl)))
    fs_put_ok fs_delete_laid fs_scope.

(** ** Over an object store the calls answer as the directory's do *)

Section Over.
Context (B : Blobs) `{!BlobsLaws B}.

Lemma validTenant_spec t : bad_tenant t = false → validTenant t = Ok tt.
Proof. unfold validTenant. by intros ->. Qed.

Lemma blobKey_named d : check_digest d = Ok tt → blobKey d = Ok (shard d).
Proof. unfold blobKey. by intros ->. Qed.

Lemma over_Get_eq t d fs : laid_out fs → over_Get B t d fs = fs_Get t d fs.
Proof.
  intros Hl. unfold over_Get, fs_Get, validTenant, blobKey, blobPath, tenantDir.
  destruct (bad_tenant t) eqn:Ht; [done|]. cbn [mbind result_bind].
  destruct (check_digest d) as [[]|] eqn:Hd; [|done]. cbn [mbind result_bind].
  pose proof (valid_named t d Ht Hd) as Hn. rewrite bl_read by done.
  apply check_digest_spec in Hd as (Ha & _). unfold place. rewrite <-shard_hex by done.
  by destruct (fs !! _).
Qed.

Lemma over_Has_eq t d fs : laid_out fs → over_Has B t d fs = fs_Has t d fs.
Proof.
  intros Hl. unfold over_Has. rewrite over_Get_eq by done. unfold fs_Get, fs_Has.
  destruct (decide (named t d)) as [Hn|Hn].
  - rewrite blobPath_place by done. cbn [mbind result_bind]. by destruct (fs !! _).
  - apply blobPath_unnamed in Hn as (e & -> & He). cbn [mbind result_bind]. destruct e; try done.
    by destruct (He d0).
Qed.

Lemma over_store_ok f t c fs fs' res : laid_out fs → bad_tenant t = false → over_store sha256 B f t c fs = (fs', res) →
  let p := place t (d_hex (digest_of sha256 c)) in
  (fs' = fs ∨ (fs !! p = None ∧ fs' = <[p := c]> fs))
  ∧ (∀ d, res = Ok d → d = digest_of sha256 c ∧ is_Some (fs' !! p))
  ∧ (f = NoFault → res = Ok (digest_of sha256 c) ∧ fs' = match fs !! p with Some _ => fs | None => <[p := c]> fs end).
Proof.
  intros Hl Ht Hs p. revert Hs. pose proof (named_digest t c Ht) as Hn. unfold over_store.
  rewrite blobKey_named by apply digest_checked.
  rewrite over_Has_eq by done. unfold fs_Has. rewrite blobPath_place by done. cbn [mbind result_bind]. fold p.
  destruct (fs !! p) eqn:Hp.
  { rewrite bool_decide_eq_true_2 by done. intros [= <- <-]. split; [by left|]. split; [|done]. by intros d [= <-]. }
  rewrite bool_decide_eq_false_2 by apply is_Some_None.
  destruct (Write f t (shard (digest_of sha256 c)) (mkReader [c] None) fs) as [fs2 res2] eqn:Hw.
  apply bl_write in Hw as (Hfs & Hok & Hnf); [|done..]. fold p in Hfs, Hok.
  destruct res2 as [[]|e]; intros [= <- <-]; (split; [naive_solver|]); split.
  - intros d [= <-]. rewrite Hok by done. by rewrite lookup_insert_eq.
  - intros _. by rewrite Hok.
  - done.
  - intros Hf. discriminate (Hnf Hf).
Qed.

Lemma over_Put_eq t r fs : laid_out fs → over_Put sha256 B NoFault t r fs = fs_Put sha256 NoFault t r fs.
Proof.
  intros Hl. unfold over_Put, fs_Put, validTenant, tenantDir. destruct (bad_tenant t) eqn:Ht; [done|].
  unfold io_Copy. destruct (rd_fails r); [done|]. set (c := String.concat "" (rd_chunks r)).
  change (t +:+ "/" +:+ shard (digest_of sha256 c)) with (place t (d_hex (digest_of sha256 c))).
  destruct (over_store sha256 B NoFault t c fs) as [fs' res] eqn:Hs.
  apply over_store_ok in Hs as (_ & _ & Hnf); [|done..]. destruct (Hnf eq_refl) as [-> ->].
  by destruct (fs !! _).
Qed.

Lemma over_Delete_eq t d fs : laid_out fs → over_Delete B NoFault t d fs = fs_Delete NoFault t d fs.
Proof.
  intros Hl. unfold over_Delete, fs_Delete. destruct (decide (named t d)) as [Hn|Hn].
  - rewrite blobPath_place, validTenant_spec, blobKey_named by (done || apply Hn). cbn [mbind result_bind].
    destruct (BlobDelete NoFault t (shard d) fs) as [fs' res] eqn:Hd.
    apply bl_delete in Hd as (_ & _ & _ & Hnf); [|done..]. specialize (Hnf eq_refl). revert Hnf.
    by destruct (fs !! _); intros [= -> ->].
  - unfold validTenant, blobKey, blobPath, tenantDir, named in *. destruct (bad_tenant t); [done|].
    cbn [mbind result_bind]. destruct (check_digest d) as [[]|]; [|done]. by destruct Hn.
Qed.

Lemma over_scope fs t d : ¬ named t d →
  is_ok (over_Get B t d fs) = false ∧ is_ok (over_Has B t d fs) = false
  ∧ ∀ f, (over_Delete B f t d fs).1 = fs ∧ is_ok (over_Delete B f t d fs).2 = false.
Proof.
  unfold over_Has, over_Get, over_Delete, validTenant, blobKey, named. intros Hn.
  destruct (bad_tenant t); [done|]. cbn [mbind result_bind].
  unfold check_digest in *. repeat case_decide; try done. destruct (isLowerHex (d_hex d)); [naive_solver|done].
Qed.

Lemma over_put_ok : put_ok (over_Put sha256 B).
Proof.
  intros f t r fs fs' res n Hl. unfold over_Put, validTenant. destruct (bad_tenant t) eqn:Ht.
  { intros [= <- <- <-]. split; [by left|]. split; [done|lia]. }
  unfold io_Copy. set (c := String.concat "" (rd_chunks r)).
  assert (Hkept : ∀ e m, (fs, @Err CasErr Digest e, m) = (fs', res, n) → (m ≤ length (rd_chunks r))%nat →
    fs' = fs ∧ (∀ d, res ≠ Ok d) ∧ (n ≤ length (rd_chunks r))%nat) by (intros e m [= <- <- <-] ?; done).
  destruct (rd_fails r) eqn:Hr.
  { intros Hp. assert (fs' = fs ∧ (∀ d, res ≠ Ok d) ∧ (n ≤ length (rd_chunks r))%nat) as (-> & Hno & Hn).
    { destruct f; apply Hkept in Hp; (done || lia). }
    split; [by left|]. split; [|done]. by intros d ?%Hno. }
  destruct f as [|why|why].
  2:{ intros [= <- <- <-]. split; [by left|]. split; [done|lia]. }
  all: destruct (over_store sha256 B _ t c fs) as [fs2 res2] eqn:Hs; intros [= <- <- <-];
    apply over_store_ok in Hs as (Hfs & Hok & _); [|done..]; split; [naive_solver|]; split; [|lia];
    intros d [-> Hin]%Hok; done.
Qed.

Lemma over_delete_laid : delete_ok (over_Delete B).
Proof.
  intros f t d fs fs' res Hl Hd. destruct (decide (named t d)) as [Hn|Hn].
  - unfold over_Delete in Hd. rewrite validTenant_spec, blobKey_named in Hd by (done || apply Hn).
    cbn [mbind result_bind] in Hd. destruct (BlobDelete f t (shard d) fs) as [fs2 res2] eqn:E.
    apply bl_delete in E as (Hfs & Hok & Hnf & _); [|done..].
    assert (fs2 = fs') as -> by (destruct res2 as [|[]]; by simplify_eq).
    split; [naive_solver|]. split; [|split; [|done]]; intros; destruct res2 as [[]|[]]; simplify_eq; try done.
    + naive_solver.
    + split; [done|]. by eapply Hnf.
  - destruct (over_scope fs t d Hn) as (_ & _ & Hs). specialize (Hs f). rewrite Hd in Hs. simpl in Hs. destruct Hs as [-> Hr].
    split; [by left|]. split; [intros ->; done|]. split; [|done]. intros e ->.
    exfalso. revert Hd. unfold over_Delete, validTenant, blobKey, named in *.
    destruct (bad_tenant t); [done|]. cbn [mbind result_bind].
    unfold check_digest in *. repeat case_decide; try done. destruct (isLowerHex (d_hex d)); [naive_solver|done].
Qed.

Lemma over_agrees : agrees (NewOverBlobs sha256 B) (NewFilesystem sha256).
Proof.
  intros fs t Hl. split; [intros r; by apply over_Put_eq|]. intros d.
  split; [by apply over_Get_eq|]. split; [by apply over_Has_eq|by apply over_Delete_eq].
Qed.

#[export] Instance NewOverBlobs_contract : CasContract (NewOverBlobs sha256 B) sha256 :=
  contract_of (NewOverBlobs sha256 B) over_agrees over_put_ok over_delete_laid over_scope.
End Over.
End Contracts.

(** ** The object store's paths keep tenants apart *)

Lemma clean_kept segs stack : Forall (λ s, s ≠ "..") segs →
  foldl clean_segment stack segs = rev (filter (λ s, s ≠ "" ∧ s ≠ ".") segs) ++ stack.
Proof.
  intros Hs. revert stack. induction Hs as [|s segs Hne Hs IH]; intros stack; [done|].
  cbn [foldl]. rewrite filter_cons. unfold clean_segment at 2.
  destruct (decide (s = "" ∨ s = ".")); [rewrite decide_False by tauto; apply IH|].
  rewrite decide_False by done. rewrite decide_True by tauto. rewrite IH. simpl. by rewrite <-app_assoc.
Qed.

Lemma checked_parts key : fold_result (check_part key) tt (split_on slash key) = Ok tt →
  Forall (λ s, s ≠ "..") (split_on slash key).
Proof.
  generalize (split_on slash key) as l. induction l as [|s l IH]; intros Hf; [by constructor|].
  cbn [fold_result] in Hf. destruct (check_part key tt s) as [[]|] eqn:E; [|done]. constructor; [|by apply IH].
  unfold check_part in E. by case_decide.
Qed.

Lemma join_segments l : Forall (λ s, has_char slash s = false) l → l ≠ [] → split_on slash (join "/" l) = l.
Proof.
  induction l as [|s l IH]; [done|]. intros [Hs Hl]%Forall_cons _. destruct l as [|s' l]; [by apply split_on_single|].
  change (join "/" (s :: s' :: l)) with (s +:+ "/" +:+ join "/" (s' :: l)).
  rewrite slash_app, split_on_cons, IH; done.
Qed.

Lemma split_on_free c s : Forall (λ x, has_char c x = false) (split_on c s).
Proof.
  induction s as [|x s IH]; simpl; [by repeat constructor|].
  destruct (Ascii.eqb x c) eqn:E; [by constructor|].
  destruct (split_on c s); inversion IH; repeat constructor; simpl; try done; by rewrite E.
Qed.

(** The first segment of a path is the tenant. *)
Lemma filesystem_path_head t key p : filesystem_path t key = Ok p → ∃ rest, split_on slash p = t :: rest.
Proof.
  unfold filesystem_path, objectPath. intros H.
  destruct (validSegment "tenant" t) as [[]|] eqn:Ev; [|done]. cbn [mbind result_bind] in H.
  destruct (validSegment "key" key) as [[]|]; [|done]. cbn [mbind result_bind] in H.
  destruct (has_prefix "/" key); [done|].
  destruct (fold_result (check_part key) tt (split_on slash key)) as [[]|] eqn:Hparts; [|done]. cbn [mbind result_bind] in H.
  destruct (blob_validTenant t) as [[]|] eqn:Ht; [|done]. injection H as <-.
  unfold blob_validTenant in Ht. rewrite Ev in Ht. cbn [mbind result_bind] in Ht.
  unfold single_segment in Ht. destruct (has_char slash t) eqn:Hslash; [by rewrite !orb_true_r in Ht|].
  destruct (bool_decide_reflect (t = "..")) as [|Hd2]; [done|].
  destruct (bool_decide_reflect (t = ".")) as [|Hd1]; [done|].
  assert (Hd0 : t ≠ "") by (by intros ->).
  apply checked_parts in Hparts. unfold path_Join, path_Clean.
  rewrite slash_app, split_on_cons by done. cbn [foldl]. rewrite clean_plain, clean_kept by done.
  rewrite rev_app_distr, rev_involutive. cbn [rev app].
  exists (filter (λ s, s ≠ "" ∧ s ≠ ".") (split_on slash key)). apply join_segments; [|done].
  constructor; [done|]. apply Forall_forall. intros x [_ Hx]%list_elem_of_filter.
  revert x Hx. apply Forall_forall, split_on_free.
Qed.

Lemma filesystem_paths_apart t t' key key' p p' :
  filesystem_path t key = Ok p → filesystem_path t' key' = Ok p' → t ≠ t' →
  p ≠ p' ∧ has_prefix (p +:+ "/") p' = false ∧ has_prefix (p' +:+ "/") p = false.
Proof.
  intros (r & Hr)%filesystem_path_head (r' & Hr')%filesystem_path_head Hne.
  assert (Hcut : ∀ a b x xs y ys, split_on slash a = x :: xs → split_on slash b = y :: ys → x ≠ y →
    has_prefix (a +:+ "/") b = false).
  { intros a b x xs y ys Ha Hb Hxy. apply not_true_is_false. intros [z ->]%has_prefix_spec.
    rewrite string_app_assoc, slash_app in Hb. clear -Ha Hb Hxy. revert x xs y Ha Hb Hxy.
    induction a as [|c a IH]; intros x xs y Ha Hb Hxy.
    - simpl in *. simplify_eq.
    - cbn [split_on String.append] in Ha, Hb. destruct (Ascii.eqb c slash); [by simplify_eq|].
      destruct (split_on slash a) as [|s1 l1] eqn:E1; [pose proof (split_on_nonempty slash a) as Hn; rewrite E1 in Hn; simpl in Hn; lia|].
      destruct (split_on slash (a +:+ String slash z)) as [|s2 l2] eqn:E2; [pose proof (split_on_nonempty slash (a +:+ String slash z)) as Hn; rewrite E2 in Hn; simpl in Hn; lia|].
      simplify_eq. destruct (decide (s1 = s2)) as [->|Hd]; [done|]. by eapply (IH s1 _ s2). }
  split; [intros ->; congruence|]. split; eauto.
Qed.

(** ** The properties *)

(** A hash of the right size to evaluate with: the first 32 bytes. *)
Definition first_bytes (s : string) : string :=
  String.substring 0 32 (s +:+ String.concat "" (repeat (String nul "") 32)).

Lemma first_bytes_size s : String.length (first_bytes s) = 32%nat.
Proof. apply substring_length. rewrite string_app_length. simpl. lia. Qed.

(** a content-addressed store over an object store, a directory or a
    bucket, answers every call as the store over its own directory does, and
    leaves the same files: which of the three a deployment runs on cannot be
    told from its answers while the medium works. *)
Theorem stores_agree (sha256 : string → string) (B : Blobs) (fs : Files) (tenant : string) :
  (∀ s, String.length (sha256 s) = 32%nat) → B = Filesystem ∨ B = S3 → laid_out sha256 fs →
  (∀ r, over_Put sha256 B NoFault tenant r fs = fs_Put sha256 NoFault tenant r fs
        ∧ laid_out sha256 (fs_Put sha256 NoFault tenant r fs).1.1)
  ∧ (∀ d, over_Get B tenant d fs = fs_Get tenant d fs ∧ over_Has B tenant d fs = fs_Has tenant d fs
          ∧ over_Delete B NoFault tenant d fs = fs_Delete NoFault tenant d fs
          ∧ laid_out sha256 (fs_Delete NoFault tenant d fs).1).
Proof.
  intros Hsha HB Hl. assert (HL : BlobsLaws sha256 B).
  { destruct HB as [-> | ->]; [by apply Filesystem_laws|by apply S3_laws]. }
  split.
  - intros r. split; [by apply over_Put_eq|]. destruct (fs_Put sha256 NoFault tenant r fs) as [[fs' res] n] eqn:E.
    apply fs_put_ok in E as (Hfs & _); [|done..]. by apply laid_out_grows in Hfs as [? _].
  - intros d. split; [by eapply over_Get_eq|]. split; [by eapply over_Has_eq|]. split; [by eapply over_Delete_eq|].
    destruct (fs_Delete NoFault tenant d fs) as [fs' res] eqn:E. apply fs_delete_ok in E as (Hfs & _).
    destruct Hfs as [->|[_ ->]]; [done|by apply laid_out_delete].
Qed.

Definition one_blob : Files := (fs_Put first_bytes NoFault "acme" (mkReader ["hello"] None) ∅).1.1.

Lemma one_blob_laid_out : laid_out first_bytes one_blob.
Proof.
  destruct (fs_Put first_bytes NoFault "acme" (mkReader ["hello"] None) ∅) as [[fs res] n] eqn:E.
  pose proof (fs_put_ok first_bytes _ _ _ _ _ _ _ (laid_out_empty first_bytes) E) as (Hfs & _).
  apply (laid_out_grows first_bytes first_bytes_size) in Hfs as [Hl _]; [|apply laid_out_empty].
  unfold one_blob. by rewrite E.
Qed.

Lemma stores_agree_witness :
  over_Get S3 "acme" (digest_of first_bytes "hello") one_blob = Ok "hello"
  ∧ over_Get S3 "acme" (digest_of first_bytes "hello") one_blob = fs_Get "acme" (digest_of first_bytes "hello") one_blob.
Proof.
  split; [by vm_compute|].
  exact (proj1 (proj2 (stores_agree first_bytes S3 one_blob "acme" first_bytes_size (or_intror eq_refl) one_blob_laid_out)
           (digest_of first_bytes "hello"))).
Defined.

(** A file at one tenant's path moves nothing another tenant sees. *)
Lemma other_tenant_unmoved t t' key key' fs fs' full :
  t ≠ t' → filesystem_path t key = Ok full →
  fs' = fs ∨ fs' = delete full fs ∨ (∃ b, fs' = <[full := b]> fs) →
  Filesystem_Read t' key' fs' = Filesystem_Read t' key' fs
  ∧ ∀ g r', (Filesystem_Write g t' key' r' fs').2 = (Filesystem_Write g t' key' r' fs).2.
Proof.
  intros Hne Hp Hfs. unfold Filesystem_Read, Filesystem_Write.
  destruct (filesystem_path t' key') as [p'|] eqn:Hp'; cbn [mbind result_bind]; [|done].
  destruct (filesystem_paths_apart t t' key key' full p' Hp Hp' Hne) as (Hpp & H1 & H2).
  assert (fs' !! p' = fs !! p') as ->.
  { destruct Hfs as [->|[->|[b ->]]]; [done|by apply lookup_delete_ne|by apply lookup_insert_ne]. }
  assert (blocked fs' p' = blocked fs p') as ->; [|split; [done|]; intros g r'; by destruct (blocked fs p'), g, (io_Copy r') as [? []]].
  apply eq_true_iff_eq. unfold blocked. rewrite !existsb_exists.
  assert (Hin : ∀ (m : Files) q, In q (map fst (map_to_list m)) ↔ is_Some (m !! q)).
  { intros m q. rewrite in_map_iff. split.
    - intros ([q' b] & <- & Hin%list_elem_of_In). apply elem_of_map_to_list in Hin. by exists b.
    - intros [b Hb%elem_of_map_to_list]. exists (q, b). split; [done|by apply list_elem_of_In]. }
  setoid_rewrite Hin.
  assert (Hfree : ∀ q, has_prefix (q +:+ "/") p' || has_prefix (p' +:+ "/") q = true → fs' !! q = fs !! q).
  { intros q Hq. destruct Hfs as [->|[->|[b ->]]]; [done|apply lookup_delete_ne|apply lookup_insert_ne];
      intros ->; by rewrite H1, H2 in Hq. }
  split; intros (q & Hq & Hb); exists q; (split; [|done]); [rewrite <-Hfree|rewrite Hfree]; done.
Qed.

(** Whatever one tenant writes or deletes in the directory store, under
    whatever key, no other tenant reads anything else than before, and no
    other tenant's write is refused or let through because of it. *)
Theorem tenants_are_apart f t t' key key' r fs :
  t ≠ t' →
  Filesystem_Read t' key' (Filesystem_Write f t key r fs).1 = Filesystem_Read t' key' fs
  ∧ Filesystem_Read t' key' (Filesystem_Delete f t key fs).1 = Filesystem_Read t' key' fs
  ∧ ∀ g r', (Filesystem_Write g t' key' r' (Filesystem_Write f t key r fs).1).2 = (Filesystem_Write g t' key' r' fs).2.
Proof.
  intros Hne.
  assert (HW : (Filesystem_Write f t key r fs).1 = fs ∨ ∃ full b, filesystem_path t key = Ok full ∧ (Filesystem_Write f t key r fs).1 = <[full := b]> fs).
  { unfold Filesystem_Write. destruct (filesystem_path t key) as [full|]; [|by left].
    destruct (blocked fs full); [by left|]. destruct f, (io_Copy r) as [b []]; (by left) || (right; by exists full, b). }
  assert (HD : (Filesystem_Delete f t key fs).1 = fs ∨ ∃ full, filesystem_path t key = Ok full ∧ (Filesystem_Delete f t key fs).1 = delete full fs).
  { unfold Filesystem_Delete. destruct (filesystem_path t key) as [full|]; [|by left].
    destruct f; destruct (fs !! full); (by left) || (right; by exists full). }
  destruct HD as [-> | (p2 & Hp2 & ->)].
  - destruct HW as [-> | (p1 & b & Hp1 & ->)]; [done|].
    by destruct (other_tenant_unmoved t t' key key' fs (<[p1 := b]> fs) p1 Hne Hp1 ltac:(eauto)).
  - destruct (other_tenant_unmoved t t' key key' fs (delete p2 fs) p2 Hne Hp2 ltac:(eauto)) as [H1 _].
    destruct HW as [-> | (p1 & b & Hp1 & ->)]; [done|].
    by destruct (other_tenant_unmoved t t' key key' fs (<[p1 := b]> fs) p1 Hne Hp1 ltac:(eauto)).
Qed.

Lemma tenants_are_apart_witness :
  "globex" ≠ "acme" ∧
  Filesystem_Read "acme" "runs/1" (Filesystem_Write NoFault "globex" "runs/1" (mkReader ["theirs"] None)
    (Filesystem_Write NoFault "acme" "runs/1" (mkReader ["ours"] None) ∅).1).1 = Ok "ours".
Proof.
  split; [done|].
  exact (eq_trans (proj1 (tenants_are_apart NoFault "globex" "acme" "runs/1" "runs/1" (mkReader ["theirs"] None)
    (Filesystem_Write NoFault "acme" "runs/1" (mkReader ["ours"] None) ∅).1 ltac:(done))) ltac:(by vm_compute)).
Defined.

(** A bucket does not: [S3] joins the tenant and the key without asking that
    the tenant be one segment, so a tenant whose id holds a slash, or dots,
    reads and replaces another's objects. The comment on [objectPath] says a
    key cannot name another tenant's blob in either backend. *)
Lemma s3_tenants_collide :
  let bucket := (S3_Write NoFault "acme" "runs/1" (mkReader ["ours"] None) ∅).1 in
  S3_Read "acme/runs" "1" bucket = Ok "ours"
  ∧ S3_Read "globex/.." "acme/runs/1" bucket = Ok "ours"
  ∧ S3_Read "acme" "runs/1" (S3_Write NoFault "acme/runs" "1" (mkReader ["theirs"] None) bucket).1 = Ok "theirs".
Proof. by vm_compute. Qed.
