(* ===== verification/Tenancy.v ===== *)
(** * Tenants, quotas and the usage ledger: [internal/tenant], [internal/tenancy]

    The tables are [tenants], [quotas] and [usage_records]; the last is a list
    in insertion order whose primary key an insert checks. Instants are
    nanoseconds from 1970 and are compared as such: [occurred_at_unix_nano]
    holds them for the years 1678 to 2262. An enforcer's world is the tables
    and the refusals its observer was told of. The NATS account a provisioned
    tenant gets is left out, with its credential. *)

From Stdlib Require Import Ascii.
From S2P Require Import Prelude Bytes Proto RunStore.
From S2P Require Import Blobs.

(** ** [internal/tenant/tenant.go] *)

Definition maxIDLen : nat := 63.
Definition accountPrefix : string := "tenant-".

Inductive TenantErr : Type :=
| NoTenant
| IDTooLong
| IDCharacter (at_ : nat).

Definition lower_or_digit (c : ascii) : bool :=
  let z := byte_val c in bool_decide (97 ≤ z ≤ 122) || bool_decide (48 ≤ z ≤ 57).
Definition dash_or_underscore (c : ascii) : bool :=
  bool_decide (byte_val c = 45) || bool_decide (byte_val c = 95).

Fixpoint check_id (i : nat) (id : string) : result TenantErr unit :=
  match id with
  | EmptyString => Ok tt
  | String c rest =>
      if lower_or_digit c then check_id (S i) rest
      else if dash_or_underscore c && bool_decide (0 < i)%nat then check_id (S i) rest
      else Err (IDCharacter i)
  end.

Definition Validate (id : string) : result TenantErr unit :=
  if decide (id = "") then Err NoTenant
  else if decide (maxIDLen < String.length id)%nat then Err IDTooLong
  else check_id 0 id.

(** A context's tenant; [None] is a context [WithTenant] never touched. *)
Definition FromContext (ctx : option string) : result TenantErr string :=
  match ctx with
  | None => Err NoTenant
  | Some id => _ ← Validate id; Ok id
  end.

Definition AccountName (tenantID : string) : string :=
  match Validate tenantID with Err _ => "" | Ok _ => accountPrefix +:+ tenantID end.

(** ** The tables *)

Record Quota : Type := mkQuota { q_MaxConcurrentSteps : Z; q_MaxRunsPerDay : Z; q_MaxCASBytes : Z }.

Record Tenant : Type := mkTenant { tn_ID : string; tn_DisplayName : string; tn_NATSAccount : string; tn_CreatedAt : Z }.

(** A row of [usage_records], its tenant beside it. *)
Record Usage : Type := mkUsage
  { us_Kind : string; us_RunID : string; us_StepID : string; us_Attempt : Z; us_Quantity : Z;
    us_Billable : bool; us_At : Z }.

#[export] Instance Usage_eq_dec : EqDecision Usage.
Proof. solve_decision. Defined.

Abbreviation UsageRow := (string * Usage)%type.

Record TenDB : Type := mkTenDB
  { td_tenants : gmap string Tenant; td_quotas : gmap string (Quota * Z); td_usage : list UsageRow }.

Definition empty_tenancy : TenDB := mkTenDB ∅ ∅ [].

Definition with_quotas (db : TenDB) (m : gmap string (Quota * Z)) : TenDB := mkTenDB (td_tenants db) m (td_usage db).
Definition with_usage (db : TenDB) (l : list UsageRow) : TenDB := mkTenDB (td_tenants db) (td_quotas db) l.

(** ** [quota.go] *)

Definition QuotaMaxConcurrentSteps : string := "max_concurrent_steps".
Definition QuotaMaxRunsPerDay : string := "max_runs_per_day".
Definition QuotaMaxCASBytes : string := "max_cas_bytes".

Inductive TenErr : Type :=
| TenTenantRequired
| TenInvalid (e : TenantErr)
| TenUnknown (id : string)
| TenAccountTaken (account : string)
| TenQuota (name : string) (got : Z)
| TenExceeded (reason : string)
| TenRunRequired
| TenKindRequired
| TenNegative (what : string) (got : Z)
| TenTimeRequired
| TenTooLarge
| TenNoHex
| TenDecode (run : string)
| TenStore (e : CasErr).

Definition DefaultQuota : Quota := mkQuota 64 1000 (Z.shiftl 64 30).

Definition quota_Validate (q : Quota) : result TenErr unit :=
  if decide (q_MaxConcurrentSteps q ≤ 0) then Err (TenQuota QuotaMaxConcurrentSteps (q_MaxConcurrentSteps q))
  else if decide (q_MaxRunsPerDay q ≤ 0) then Err (TenQuota QuotaMaxRunsPerDay (q_MaxRunsPerDay q))
  else if decide (q_MaxCASBytes q ≤ 0) then Err (TenQuota QuotaMaxCASBytes (q_MaxCASBytes q))
  else Ok tt.

(** [ON CONFLICT DO NOTHING] over the tenant. *)
Definition ensureQuota (tenantID : string) (q : Quota) (at_ : Z) : prog TenDB TenErr unit := λ db,
  if decide (tenantID = "") then (db, Err TenTenantRequired)
  else match td_quotas db !! tenantID with
       | Some _ => (db, Ok tt)
       | None => (with_quotas db (<[tenantID := (q, at_)]> (td_quotas db)), Ok tt)
       end.

(** The update, and the insert when it touched no row. *)
Definition SetQuota (tenantID : string) (q : Quota) (now : Z) : prog TenDB TenErr unit := λ db,
  if decide (tenantID = "") then (db, Err TenTenantRequired)
  else match quota_Validate q with
       | Err e => (db, Err e)
       | Ok _ =>
           match td_quotas db !! tenantID with
           | Some _ => (with_quotas db (<[tenantID := (q, now)]> (td_quotas db)), Ok tt)
           | None => ensureQuota tenantID q now db
           end
       end.

Definition store_Quota (tenantID : string) (db : TenDB) : result TenErr Quota :=
  if decide (tenantID = "") then Err TenTenantRequired
  else match td_quotas db !! tenantID with
       | None => Ok DefaultQuota
       | Some (q, _) => Ok q
       end.

Record Decision : Type := mkDecision
  { de_TenantID : string; de_Quota : string; de_Limit : Z; de_Observed : Z; de_Requested : Z;
    de_Allowed : bool; de_Reason : string }.

Definition decision_Err (d : Decision) : result TenErr unit :=
  if de_Allowed d then Ok tt else Err (TenExceeded (de_Reason d)).

Definition allow (tenantID name : string) (limit observed requested : Z) : Decision :=
  mkDecision tenantID name limit observed requested true "".

Definition refusal (tenantID name : string) (limit observed requested : Z) : Decision :=
  mkDecision tenantID name limit observed requested false
    ("tenant " +:+ quote tenantID +:+ " is at its " +:+ name +:+ " quota: limit " +:+ dec_Z limit
     +:+ ", already used " +:+ dec_Z observed +:+ ", requested " +:+ dec_Z requested).

(** ** [meter.go]: the ledger *)

Definition KindRunStarted : string := "run_started".
Definition KindStepSeconds : string := "step_seconds".
Definition KindStepSecondsUnbilled : string := "step_seconds_unbilled".
Definition KindCacheHit : string := "cache_hit".
Definition KindCASBytes : string := "cas_bytes".
Definition KindCASBytesReleased : string := "cas_bytes_released".

Definition Unit_ (kind : string) : string :=
  if decide (kind = KindStepSeconds ∨ kind = KindStepSecondsUnbilled) then "ms"
  else if decide (kind = KindCASBytes ∨ kind = KindCASBytesReleased) then "bytes"
  else if decide (kind = KindRunStarted ∨ kind = KindCacheHit) then "count"
  else "".

(** The primary key. *)
Definition work (r : UsageRow) : string * string * string * string * Z :=
  (r.1, us_Kind r.2, us_RunID r.2, us_StepID r.2, us_Attempt r.2).

(** [insertUsage], and whether a row was written. *)
Definition insert_usage (r : UsageRow) (rows : list UsageRow) : list UsageRow * bool :=
  if decide (work r ∈ map work rows) then (rows, false) else (rows ++ [r], true).

(** [time.Time{}] *)
Definition zeroTime : Z := -62135596800 * NanosPerSecond.

Definition RecordUsage (tenantID : string) (u : Usage) : prog TenDB TenErr bool := λ db,
  if decide (tenantID = "") then (db, Err TenTenantRequired)
  else if decide (us_Kind u = "") then (db, Err TenKindRequired)
  else if decide (us_Quantity u < 0) then (db, Err (TenNegative "quantity" (us_Quantity u)))
  else if decide (us_At u = zeroTime) then (db, Err TenTimeRequired)
  else let '(rows, written) := insert_usage (tenantID, u) (td_usage db) in (with_usage db rows, Ok written).

(** A [SUM] or a [COUNT] read into an [int64]. *)
Definition scan64 (z : Z) : result TenErr Z :=
  if decide (- two63 ≤ z < two63) then Ok z else Err TenTooLarge.

Definition rows_of (tenantID kind : string) (rows : list UsageRow) : list UsageRow :=
  filter (λ r, r.1 = tenantID ∧ us_Kind r.2 = kind) rows.

Definition sum_quantity (rows : list UsageRow) : Z := foldr (λ r z, us_Quantity r.2 + z) 0 rows.

(** [runStartedToday]; the time it is given it does not read. *)
Definition runStartedToday (tenantID runID : string) (db : TenDB) : bool :=
  bool_decide (filter (λ r, us_RunID r.2 = runID) (rows_of tenantID KindRunStarted (td_usage db)) ≠ []).

Definition dayNanos : Z := 86400 * NanosPerSecond.

(** [now.UTC().Truncate(24 * time.Hour)] *)
Definition day_of (now : Z) : Z := now - now mod dayNanos.

Definition RunsStartedToday (tenantID : string) (now : Z) (db : TenDB) : result TenErr Z :=
  if decide (tenantID = "") then Err TenTenantRequired
  else Ok (Z.of_nat (length (filter (λ r, day_of now ≤ us_At r.2) (rows_of tenantID KindRunStarted (td_usage db))))).

Definition CASBytes (tenantID : string) (db : TenDB) : result TenErr Z :=
  if decide (tenantID = "") then Err TenTenantRequired
  else stored ← scan64 (sum_quantity (rows_of tenantID KindCASBytes (td_usage db)));
       released ← scan64 (sum_quantity (rows_of tenantID KindCASBytesReleased (td_usage db)));
       let total := i64 (stored - released) in
       Ok (if decide (0 < total) then total else 0).

Definition ChargedCASBytes (tenantID hex : string) (db : TenDB) : result TenErr Z :=
  if decide (tenantID = "") then Err TenTenantRequired
  else scan64 (sum_quantity (filter (λ r, us_StepID r.2 = hex) (rows_of tenantID KindCASBytes (td_usage db)))).

(** [BilledStepSeconds], in milliseconds: its caller divides by a thousand. *)
Definition BilledStepMillis (tenantID : string) (db : TenDB) : result TenErr Z :=
  if decide (tenantID = "") then Err TenTenantRequired
  else scan64 (sum_quantity (filter (λ r, us_Billable r.2 = true) (rows_of tenantID KindStepSeconds (td_usage db)))).

(** [ORDER BY occurred_at_unix_nano, step_id, attempt] *)
Definition usage_le (a b : Usage) : Prop :=
  if decide (us_At a = us_At b)
  then if decide (us_StepID a = us_StepID b) then us_Attempt a ≤ us_Attempt b
       else String.le (us_StepID a) (us_StepID b)
  else us_At a ≤ us_At b.
#[export] Instance usage_le_dec : RelDecision usage_le.
Proof. intros a b. unfold usage_le. repeat case_decide; apply _. Defined.

Definition UsageForRun (tenantID runID : string) (db : TenDB) : result TenErr (list Usage) :=
  if decide (tenantID = "") then Err TenTenantRequired
  else Ok (merge_sort usage_le (map snd (filter (λ r, r.1 = tenantID ∧ us_RunID r.2 = runID) (td_usage db)))).

(** ** [quota.go]: the enforcer *)

Record Enforcing : Type := mkEnforcing { en_db : TenDB; en_observed : list Decision }.

Definition on_db {A} (p : prog TenDB TenErr A) : prog Enforcing TenErr A := λ w,
  let '(db, r) := p (en_db w) in (mkEnforcing db (en_observed w), r).

Section Enforcer.
(** Whether an observer is configured. *)
Context (observes : bool).

Definition refuse (tenantID name : string) (limit observed requested : Z) : prog Enforcing TenErr Decision := λ w,
  let d := refusal tenantID name limit observed requested in
  (if observes then mkEnforcing (en_db w) (en_observed w ++ [d]) else w, Ok d).

(** [AdmitRun] up to its last read: the answer, or the count it saw. *)
Definition admit_run_reads (tenantID runID : string) (now : Z) (db : TenDB)
    : result TenErr (Z * bool * Z) :=
  if decide (tenantID = "") then Err TenTenantRequired
  else if decide (runID = "") then Err TenRunRequired
  else
    q ← store_Quota tenantID db;
    used ← RunsStartedToday tenantID now db;
    Ok (q_MaxRunsPerDay q, runStartedToday tenantID runID db, used).

Definition admit_run_record (tenantID runID : string) (now used limit : Z) : prog Enforcing TenErr Decision :=
  _ ← on_db (RecordUsage tenantID (mkUsage KindRunStarted runID "" 0 1 true now));
  mret (allow tenantID QuotaMaxRunsPerDay limit (used + 1) 1).

Definition AdmitRun (tenantID runID : string) (now : Z) : prog Enforcing TenErr Decision := λ w,
  match admit_run_reads tenantID runID now (en_db w) with
  | Err e => (w, Err e)
  | Ok (limit, counted, used) =>
      if counted : bool then (w, Ok (allow tenantID QuotaMaxRunsPerDay limit used 0))
      else if decide (limit ≤ used) then refuse tenantID QuotaMaxRunsPerDay limit used 1 w
      else admit_run_record tenantID runID now used limit w
  end.

Definition AdmitStep (tenantID : string) (inFlight : Z) : prog Enforcing TenErr Decision := λ w,
  if decide (tenantID = "") then (w, Err TenTenantRequired)
  else if decide (inFlight < 0) then (w, Err (TenNegative "in-flight steps" inFlight))
  else match store_Quota tenantID (en_db w) with
       | Err e => (w, Err e)
       | Ok q =>
           let limit := q_MaxConcurrentSteps q in
           if decide (limit ≤ inFlight) then refuse tenantID QuotaMaxConcurrentSteps limit inFlight 1 w
           else (w, Ok (allow tenantID QuotaMaxConcurrentSteps limit inFlight 1))
       end.

(** [used+size] is an [int64]. *)
Definition AdmitCASBytes (tenantID : string) (size : Z) : prog Enforcing TenErr Decision := λ w,
  if decide (tenantID = "") then (w, Err TenTenantRequired)
  else if decide (size < 0) then (w, Err (TenNegative "blob size" size))
  else match (q ← store_Quota tenantID (en_db w); used ← CASBytes tenantID (en_db w); Ok (q, used)) with
       | Err e => (w, Err e)
       | Ok (q, used) =>
           let limit := q_MaxCASBytes q in
           if decide (limit < i64 (used + size)) then refuse tenantID QuotaMaxCASBytes limit used size w
           else (w, Ok (allow tenantID QuotaMaxCASBytes limit used size))
       end.

(** ** [quotaReader] *)

Definition errQuotaTripped : string := "tenancy: blob exceeds the storage quota".

Definition len (s : string) : Z := Z.of_nat (String.length s).

(** The chunks it passes on, and whether it tripped. *)
Fixpoint quota_chunks (remaining read : Z) (chunks : list string) : list string * bool :=
  match chunks with
  | [] => ([], false)
  | c :: cs =>
      if decide (remaining < read + len c) then ([c], true)
      else let '(l, tripped) := quota_chunks remaining (read + len c) cs in (c :: l, tripped)
  end.

Definition quotaReader (remaining : Z) (r : Reader) : Reader :=
  let '(l, tripped) := quota_chunks remaining 0 (rd_chunks r) in
  mkReader l (if tripped then Some errQuotaTripped else rd_fails r).

(** What [n] reads counted. *)
Definition bytes_read (n : nat) (r : Reader) : Z := foldr (λ c z, len c + z) 0 (take n (rd_chunks r)).

(** ** [casGate], [deletingCASGate] *)

Section Gate.
Context {S : Type} (inner : CasStore S).

Abbreviation Guarded := (S * Enforcing)%type.

Definition on_enforcer {A} (p : prog Enforcing TenErr A) : prog Guarded TenErr A := λ w,
  let '(e, r) := p w.2 in ((w.1, e), r).

Definition gate_put_inner (f : Fault) (tenantID : string) (r : Reader) (headroom : Decision) (now : Z)
    : prog Guarded TenErr Digest := λ w,
  let remaining := de_Limit headroom - de_Observed headroom in
  let counted := quotaReader remaining r in
  let '(s, res, n) := cas_Put f tenantID counted w.1 in
  let read := bytes_read n counted in
  let w := (s, w.2) in
  if decide (remaining < read)
  then (d ← on_enforcer (refuse tenantID QuotaMaxCASBytes (de_Limit headroom) (de_Observed headroom) read);
        _ ← plift (decision_Err d);
        pfail (TenExceeded (de_Reason d))) w
  else match res with
       | Err e => (w, Err (TenStore e))
       | Ok digest =>
           (_ ← on_enforcer (on_db (RecordUsage tenantID (mkUsage KindCASBytes "" (d_hex digest) 0 read true now)));
            mret digest) w
       end.

Definition gate_Put (f : Fault) (tenantID : string) (r : Reader) (now : Z) : prog Guarded TenErr Digest :=
  if decide (tenantID = "") then pfail TenTenantRequired
  else
    headroom ← on_enforcer (AdmitCASBytes tenantID 0);
    if de_Allowed headroom : bool then gate_put_inner f tenantID r headroom now
    else pfail (TenExceeded (de_Reason headroom)).

Definition gate_Get (tenantID : string) (d : Digest) (w : Guarded) : result TenErr string :=
  if decide (tenantID = "") then Err TenTenantRequired
  else match cas_Get tenantID d w.1 with Ok b => Ok b | Err e => Err (TenStore e) end.

Definition gate_Has (tenantID : string) (d : Digest) (w : Guarded) : result TenErr bool :=
  if decide (tenantID = "") then Err TenTenantRequired
  else match cas_Has tenantID d w.1 with Ok b => Ok b | Err e => Err (TenStore e) end.

Definition gate_Delete (f : Fault) (tenantID : string) (d : Digest) : prog Guarded TenErr unit := λ w,
  if decide (tenantID = "") then (w, Err TenTenantRequired)
  else let '(s, r) := cas_Delete f tenantID d w.1 in
       ((s, w.2), match r with Ok u => Ok u | Err e => Err (TenStore e) end).
End Gate.
End Enforcer.

(** ** [reclaim.go] *)

Definition Collected (tenantID : string) (d : Digest) (now : Z) : prog TenDB TenErr unit := λ db,
  if decide (d_hex d = "") then (db, Err TenNoHex)
  else match ChargedCASBytes tenantID (d_hex d) db with
       | Err e => (db, Err e)
       | Ok charged =>
           if decide (charged = 0) then (db, Ok tt)
           else (_ ← RecordUsage tenantID (mkUsage KindCASBytesReleased "" (d_hex d) 0 charged false now); mret tt) db
       end.

(** ** [meter.go]: [MeterRun] *)

Definition StepAttemptLost : string := "STEP_ATTEMPT_LOST".

Abbreviation AttemptKey := (string * Z)%type.

(** An instant never set is the zero time; the empty terminal is none. *)
Record MAttempt : Type := mkMAttempt
  { ma_dispatchedAt : Z; ma_endedAt : Z; ma_cacheHit : bool; ma_terminal : string }.

Definition milliseconds (from to : Z) : Z :=
  if decide (to - from < 0) then 0 else Z.min (to - from) (two63 - 1) / 1000000.

(** [StepSeconds] is a thousandth of [sm_StepMillis]. *)
Record Summary : Type := mkSummary
  { sm_StepMillis : Z; sm_BilledAttempts : Z; sm_UnbilledAttempts : Z; sm_CacheHits : Z }.

Definition no_summary : Summary := mkSummary 0 0 0 0.

Section Meter.
(** [json.Unmarshal] of a dispatch payload into its [cache_hit]. *)
Context (unmarshal : string → option bool).

Definition decodeDispatched (payload : string) : option bool :=
  if decide (payload = "") then Some false else unmarshal payload.

(** The attempts by key, and the order they were first dispatched in. *)
Abbreviation Attempts := (gmap AttemptKey MAttempt * list AttemptKey)%type.

Definition ends_attempt (t : string) : bool :=
  bool_decide (t = StepSucceeded) || bool_decide (t = StepFailed) || bool_decide (t = StepAttemptLost).

Definition note_event (run : string) (st : Attempts) (e : Event) : result TenErr Attempts :=
  let '(attempts, order) := st in
  let key := (ev_StepID e, ev_Attempt e) in
  if decide (ev_Type e = StepDispatched) then
    match decodeDispatched (ev_Payload e) with
    | None => Err (TenDecode run)
    | Some hit =>
        let order := match attempts !! key with Some _ => order | None => order ++ [key] end in
        Ok (<[key := mkMAttempt (ev_At e) zeroTime hit ""]> attempts, order)
    end
  else if ends_attempt (ev_Type e) then
    match attempts !! key with
    | None => Ok (attempts, order)
    | Some a => Ok (<[key := mkMAttempt (ma_dispatchedAt a) (ev_At e) (ma_cacheHit a) (ev_Type e)]> attempts, order)
    end
  else Ok (attempts, order).

Definition attempt_usage (run : string) (key : AttemptKey) (a : MAttempt) : option Usage :=
  if decide (ma_terminal a = "") then None
  else
    let row kind quantity billable := mkUsage kind run key.1 key.2 quantity billable (ma_endedAt a) in
    Some (if ma_cacheHit a then row KindCacheHit 0 false
          else if decide (ma_terminal a = StepAttemptLost)
          then row KindStepSecondsUnbilled (milliseconds (ma_dispatchedAt a) (ma_endedAt a)) false
          else row KindStepSeconds (milliseconds (ma_dispatchedAt a) (ma_endedAt a)) true).

Definition run_usages (run : string) (events : list Event) : result TenErr (list Usage) :=
  match fold_result (note_event run) (∅, []) events with
  | Err e => Err e
  | Ok (attempts, order) =>
      Ok (omap (λ key, match attempts !! key with None => None | Some a => attempt_usage run key a end) order)
  end.

Definition summarise (u : Usage) (s : Summary) : Summary :=
  if decide (us_Kind u = KindCacheHit)
  then mkSummary (sm_StepMillis s) (sm_BilledAttempts s) (sm_UnbilledAttempts s) (sm_CacheHits s + 1)
  else if decide (us_Kind u = KindStepSecondsUnbilled)
  then mkSummary (sm_StepMillis s) (sm_BilledAttempts s) (sm_UnbilledAttempts s + 1) (sm_CacheHits s)
  else if decide (us_Kind u = KindStepSeconds)
  then mkSummary (sm_StepMillis s + us_Quantity u) (sm_BilledAttempts s + 1) (sm_UnbilledAttempts s) (sm_CacheHits s)
  else s.

Fixpoint record_all (tenantID : string) (us : list Usage) (sum : Summary) : prog TenDB TenErr Summary :=
  match us with
  | [] => mret sum
  | u :: us =>
      written ← RecordUsage tenantID u;
      record_all tenantID us (if written : bool then summarise u sum else sum)
  end.

(** A meter may have no log. *)
Definition MeterRun (log : option DB) (tenantID runID : string) : prog TenDB TenErr Summary :=
  if decide (tenantID = "") then pfail TenTenantRequired
  else if decide (runID = "") then pfail TenRunRequired
  else match log with
       | None => pfail (TenDecode runID)
       | Some log =>
           match Replay tenantID runID log with
           | Err _ => pfail (TenDecode runID)
           | Ok events =>
               us ← plift (run_usages runID events);
               record_all tenantID us no_summary
           end
       end.
End Meter.

(** ** [provision.go] *)

Definition store_Tenant (tenantID : string) (db : TenDB) : result TenErr Tenant :=
  if decide (tenantID = "") then Err TenTenantRequired
  else match td_tenants db !! tenantID with
       | None => Err (TenUnknown tenantID)
       | Some t => Ok t
       end.

(** [insertTenant]: nothing where the id, or the account's unique index, is
    taken. *)
Definition insert_tenant (t : Tenant) (db : TenDB) : TenDB :=
  if decide (is_Some (td_tenants db !! tn_ID t)
             ∨ Exists (λ x : string * Tenant, tn_NATSAccount x.2 = tn_NATSAccount t) (map_to_list (td_tenants db)))
  then db else mkTenDB (<[tn_ID t := t]> (td_tenants db)) (td_quotas db) (td_usage db).

(** The zero quota stands for the defaults. *)
Definition NewProvisioner (defaults : Quota) : result TenErr Quota :=
  let defaults := match defaults with mkQuota 0 0 0 => DefaultQuota | _ => defaults end in
  _ ← quota_Validate defaults; Ok defaults.

Definition Provision (defaults : Quota) (id : string) (now : Z) : prog TenDB TenErr Tenant := λ db,
  match Validate id with
  | Err e => (db, Err (TenInvalid e))
  | Ok _ =>
      let db := insert_tenant (mkTenant id id (AccountName id) now) db in
      match store_Tenant id db with
      | Err e => (db, Err e)
      | Ok t => (_ ← ensureQuota id defaults now; mret t) db
      end
  end.

(** ** Admissions at once

    [AdmitRun] reads and then writes; what other handlers and planes do in
    between is a step of theirs. A pending admission has read and not yet
    written: its tenant, run, time, the count it read and the limit. *)

Record Pending : Type := mkPending { pn_tenant : string; pn_run : string; pn_now : Z; pn_used : Z; pn_limit : Z }.

Record Admitting : Type := mkAdmitting { am_world : Enforcing; am_pending : list Pending }.

Definition limit_of (tenantID : string) (db : TenDB) : Z :=
  match td_quotas db !! tenantID with None => q_MaxRunsPerDay DefaultQuota | Some (q, _) => q_MaxRunsPerDay q end.

Inductive adm_step : Admitting → Admitting → Prop :=
| as_reads w ps tenant run now limit used :
    admit_run_reads tenant run now (en_db w) = Ok (limit, false, used) → used < limit →
    adm_step (mkAdmitting w ps) (mkAdmitting w (mkPending tenant run now used limit :: ps))
| as_records w w' r pre p post :
    admit_run_record (pn_tenant p) (pn_run p) (pn_now p) (pn_used p) (pn_limit p) w = (w', r) →
    adm_step (mkAdmitting w (pre ++ p :: post)) (mkAdmitting w' (pre ++ post))
| as_dies w pre p post : adm_step (mkAdmitting w (pre ++ p :: post)) (mkAdmitting w (pre ++ post))
| as_quota w ps tenant q now db :
    SetQuota tenant q now (en_db w) = (db, Ok tt) →
    adm_step (mkAdmitting w ps) (mkAdmitting (mkEnforcing db (en_observed w)) ps)
| as_usage w ps tenant u db r :
    us_Kind u ≠ KindRunStarted → RecordUsage tenant u (en_db w) = (db, r) →
    adm_step (mkAdmitting w ps) (mkAdmitting (mkEnforcing db (en_observed w)) ps).
