(* ===== verification/TenancyFacts.v ===== *)
(** * The ledger charges each piece of work once, and the quotas hold as far as they do *)

From S2P Require Import Prelude Bytes Proto RunStore.
From S2P Require Import Blobs BlobFacts Tenancy.

(** Keys that do not repeat tell elements apart. *)
Lemma NoDup_fmap_eq {A B} (f : A → B) l x y : NoDup (f <$> l) → x ∈ l → y ∈ l → f x = f y → x = y.
Proof.
  induction l as [|z l IH]; [by intros _ ?%elem_of_nil|]. cbn [fmap list_fmap]. intros [Hz Hnd]%NoDup_cons Hx Hy He.
  apply elem_of_cons in Hx as [->|Hx], Hy as [->|Hy]; [done|..|by apply IH]; destruct Hz.
  - rewrite He. by apply list_elem_of_fmap_2.
  - rewrite <-He. by apply list_elem_of_fmap_2.
Qed.

(** ** The ledger *)

Lemma insert_usage_spec r rows rows' b : insert_usage r rows = (rows', b) →
  if b : bool then work r ∉ map work rows ∧ rows' = rows ++ [r] else work r ∈ map work rows ∧ rows' = rows.
Proof. unfold insert_usage. case_decide; by intros [= <- <-]. Qed.

(** A row that can be written at all. *)
Definition recordable (u : Usage) : Prop := us_Kind u ≠ "" ∧ 0 ≤ us_Quantity u ∧ us_At u ≠ zeroTime.

Lemma RecordUsage_ok t u db : t ≠ "" → recordable u →
  RecordUsage t u db = (with_usage db (insert_usage (t, u) (td_usage db)).1, Ok (insert_usage (t, u) (td_usage db)).2).
Proof.
  intros Ht (Hk & Hq & Ha). unfold RecordUsage. rewrite decide_False by done. rewrite decide_False by done.
  rewrite decide_False by lia. rewrite decide_False by done. by destruct (insert_usage _ _).
Qed.

(** Whatever it answers, it leaves the table or adds the one row. *)
Lemma RecordUsage_usage t u db db' r : RecordUsage t u db = (db', r) →
  td_quotas db' = td_quotas db ∧ td_tenants db' = td_tenants db ∧
  (td_usage db' = td_usage db ∨ (td_usage db' = td_usage db ++ [(t, u)] ∧ work (t, u) ∉ map work (td_usage db))).
Proof.
  unfold RecordUsage. repeat (case_decide; [intros [= <- <-]; by auto|]).
  destruct (insert_usage (t, u) (td_usage db)) as [rows b] eqn:E. apply insert_usage_spec in E. intros [= <- <-].
  split; [done|]. split; [done|]. destruct b; destruct E as [E ->]; simpl; auto.
Qed.

Lemma with_usage_eta db : with_usage db (td_usage db) = db.
Proof. by destruct db. Qed.

(** ** Runs admitted in a day *)

Definition started_on (t : string) (day : Z) (r : UsageRow) : bool :=
  bool_decide (r.1 = t ∧ us_Kind r.2 = KindRunStarted ∧ day_of (us_At r.2) = day).

Definition runs_on (t : string) (day : Z) (db : TenDB) : Z := Z.of_nat (length (filter (started_on t day) (td_usage db))).

Definition pending_on (t : string) (day : Z) (p : Pending) : bool :=
  bool_decide (pn_tenant p = t ∧ day_of (pn_now p) = day).

Lemma day_of_le x : day_of x ≤ x.
Proof. unfold day_of. pose proof (Z.mod_pos_bound x dayNanos ltac:(done)). lia. Qed.

(** The count [AdmitRun] compares is no less than the day's runs. *)
Lemma runs_on_used t now db used : RunsStartedToday t now db = Ok used → runs_on t (day_of now) db ≤ used.
Proof.
  unfold RunsStartedToday, runs_on. case_decide; [done|]. intros [= <-]. apply inj_le.
  unfold rows_of. rewrite list_filter_filter. apply filter_length_le.
  intros r _ (Ht & Hk & Hd)%Is_true_true%bool_decide_eq_true. split; [|done].
  rewrite <-Hd. apply day_of_le.
Qed.

Lemma runs_on_app t day db rows r : td_usage db = rows ++ [r] →
  runs_on t day db = Z.of_nat (length (filter (started_on t day) rows)) + (if started_on t day r then 1 else 0).
Proof.
  unfold runs_on. intros ->. rewrite filter_app, length_app, filter_cons, Nat2Z.inj_add.
  f_equal. destruct (started_on t day r) eqn:E; [by rewrite decide_True by done|by rewrite decide_False by (by intros [])].
Qed.

Lemma RecordUsage_runs t u db db' r t' day : RecordUsage t u db = (db', r) →
  runs_on t' day db ≤ runs_on t' day db' ≤ runs_on t' day db + (if started_on t' day (t, u) then 1 else 0).
Proof.
  intros (_ & _ & [Hu|[Hu _]])%RecordUsage_usage.
  - unfold runs_on. rewrite Hu. case_match; lia.
  - rewrite (runs_on_app t' day db' _ _ Hu). unfold runs_on. case_match; lia.
Qed.

Definition pendings_on (t : string) (day : Z) (ps : list Pending) : Z := Z.of_nat (length (filter (pending_on t day) ps)).

Lemma pendings_on_app t day ps qs : pendings_on t day (ps ++ qs) = pendings_on t day ps + pendings_on t day qs.
Proof. unfold pendings_on. rewrite filter_app, length_app. lia. Qed.

Lemma pendings_on_cons t day p ps :
  pendings_on t day (p :: ps) = (if pending_on t day p then 1 else 0) + pendings_on t day ps.
Proof.
  unfold pendings_on. rewrite filter_cons. destruct (pending_on t day p) eqn:E.
  - rewrite decide_True by done. simpl length. lia.
  - by rewrite decide_False by (by intros []).
Qed.

Lemma pendings_on_le t day ps : pendings_on t day ps ≤ Z.of_nat (length ps).
Proof. unfold pendings_on. pose proof (length_filter (pending_on t day) ps). lia. Qed.

(** ** The bound *)

(** The tenant's limit and the admissions in flight, kept at most [L] and [N]. *)
Definition within (t : string) (L : Z) (N : nat) (s : Admitting) : Prop :=
  limit_of t (en_db (am_world s)) ≤ L ∧ (length (am_pending s) ≤ N)%nat.

Definition adm_within (t : string) (L : Z) (N : nat) (a b : Admitting) : Prop := adm_step a b ∧ within t L N a ∧ within t L N b.

(** Runs counted and runs about to be. *)
Definition committed_on (t : string) (day : Z) (s : Admitting) : Z :=
  runs_on t day (en_db (am_world s)) + pendings_on t day (am_pending s).

Lemma admit_run_reads_ok t run now db limit used :
  admit_run_reads t run now db = Ok (limit, false, used) → limit = limit_of t db ∧ runs_on t (day_of now) db ≤ used.
Proof.
  unfold admit_run_reads. case_decide; [done|]. case_decide; [done|]. unfold store_Quota, limit_of.
  rewrite decide_False by done. intros Hr. cbn [mbind result_bind] in Hr.
  destruct (td_quotas db !! t) as [[q at_]|]; cbn [mbind result_bind] in Hr;
    (destruct (RunsStartedToday t now db) as [u|] eqn:Hu; [|done]); injection Hr as <- _ <-;
    (split; [done|by apply runs_on_used]).
Qed.

Lemma admit_run_record_db t run now used limit w w' r : admit_run_record t run now used limit w = (w', r) →
  ∃ res, RecordUsage t (mkUsage KindRunStarted run "" 0 1 true now) (en_db w) = (en_db w', res).
Proof.
  unfold admit_run_record, mbind, prog_bind, on_db.
  destruct (RecordUsage _ _ (en_db w)) as [db' [b|e]]; intros [= <- <-]; by eexists.
Qed.

Lemma adm_within_step t L N day a b : adm_within t L N a b →
  committed_on t day a ≤ L - 1 + Z.of_nat N → committed_on t day b ≤ L - 1 + Z.of_nat N.
Proof.
  intros (Hs & (HL & HN) & _ & HN'). unfold committed_on. intros Hc.
  destruct Hs as [w ps tenant run now limit used Hr Hlt|w w' r pre p post Hr|w pre p post|w ps tenant q now db Hq|w ps tenant u db r Hk Hr];
    cbn [am_world am_pending en_db] in *.
  - apply admit_run_reads_ok in Hr as [-> Hu]. rewrite pendings_on_cons. unfold pending_on at 1. cbn [pn_tenant pn_now].
    case_bool_decide as Hd; [|lia]. destruct Hd as [-> <-].
    pose proof (pendings_on_le t (day_of now) ps). cbn [length] in HN'. lia.
  - rewrite pendings_on_app, pendings_on_cons in Hc. rewrite pendings_on_app.
    apply admit_run_record_db in Hr as [res E]. pose proof (RecordUsage_runs _ _ _ _ _ t day E) as Hrun.
    unfold started_on, pending_on in *. cbn [fst snd us_Kind us_At] in Hrun.
    repeat case_bool_decide; try lia. naive_solver.
  - rewrite pendings_on_app, pendings_on_cons in Hc. rewrite pendings_on_app. case_match; lia.
  - assert (td_usage db = td_usage (en_db w)) as Hu; [|unfold runs_on in *; by rewrite Hu].
    revert Hq. unfold SetQuota, ensureQuota. repeat case_decide; try done; try (by intros [= <-]).
    destruct (quota_Validate q) as [|]; [|done]. destruct (td_quotas (en_db w) !! tenant) eqn:E; [by intros [= <-]|].
    by intros [= <-].
  - pose proof (RecordUsage_runs _ _ _ _ _ t day Hr) as Hrun. unfold started_on in Hrun. cbn [fst snd] in Hrun.
    rewrite bool_decide_eq_false_2 in Hrun by naive_solver. lia.
Qed.

(** however many handlers and planes admit a tenant's runs at once, and
    whatever else is written meanwhile, limits included, the runs counted in
    any UTC day are at most the limit and the admissions in flight beside one:
    the limit itself where admissions do not overlap. *)
Theorem daily_runs_bounded (t : string) (L : Z) (N : nat) (a b : Admitting) (day : Z) :
  0 ≤ L → (0 < N)%nat → td_usage (en_db (am_world a)) = [] → am_pending a = [] →
  rtc (adm_within t L N) a b → runs_on t day (en_db (am_world b)) ≤ L - 1 + Z.of_nat N.
Proof.
  intros HL HN Hu Hp Hr.
  assert (committed_on t day b ≤ L - 1 + Z.of_nat N) as Hb.
  { eapply (rtc_invariant _ (λ s, committed_on t day s ≤ L - 1 + Z.of_nat N)); [|exact Hr|].
    - intros s s' Hs Hst. by eapply adm_within_step.
    - unfold committed_on, runs_on, pendings_on. rewrite Hu, Hp. simpl. lia. }
  unfold committed_on, pendings_on in Hb. lia.
Qed.

(** Two handlers read before either writes: a tenant allowed one run a day
    starts two. *)
Definition one_a_day : Enforcing :=
  mkEnforcing (with_quotas empty_tenancy {["acme" := (mkQuota 4 1 100, 0)]}) [].
Definition pend (run : string) : Pending := mkPending "acme" run 5 0 1.
Definition after_one : Enforcing := (admit_run_record "acme" "r2" 5 0 1 one_a_day).1.
Definition after_two : Enforcing := (admit_run_record "acme" "r1" 5 0 1 after_one).1.

Lemma racing_admissions : rtc (adm_within "acme" 1 2) (mkAdmitting one_a_day []) (mkAdmitting after_two []).
Proof.
  assert (Hin : ∀ w ps, w = one_a_day ∨ w = after_one ∨ w = after_two → (length ps ≤ 2)%nat → within "acme" 1 2 (mkAdmitting w ps)).
  { intros w ps Hw Hps. split; [|exact Hps]. by destruct Hw as [->|[->| ->]]; vm_compute. }
  assert (Hread : ∀ run ps, run ∈ ["r1"; "r2"] → adm_step (mkAdmitting one_a_day ps) (mkAdmitting one_a_day (pend run :: ps))).
  { intros run ps Hrun. apply as_reads; [|done].
    rewrite !elem_of_cons, elem_of_nil in Hrun. by destruct Hrun as [->|[->|[]]]; vm_compute. }
  eapply rtc_l; [split; [apply (Hread "r1" []); set_solver|split; apply Hin; auto; simpl; lia]|].
  eapply rtc_l; [split; [apply (Hread "r2" [pend "r1"]); set_solver|split; apply Hin; auto; simpl; lia]|].
  eapply rtc_l; [split; [apply (as_records one_a_day after_one _ [] (pend "r2") [pend "r1"] (surjective_pairing _))|split; apply Hin; auto; simpl; lia]|].
  eapply rtc_l; [split; [apply (as_records after_one after_two _ [] (pend "r1") [] (surjective_pairing _))|split; apply Hin; auto; simpl; lia]|].
  apply rtc_refl.
Qed.

Lemma daily_runs_bounded_witness :
  runs_on "acme" 0 (en_db after_two) = 2 ∧ runs_on "acme" 0 (en_db after_two) ≤ 1 - 1 + Z.of_nat 2.
Proof.
  split; [by vm_compute|].
  exact (daily_runs_bounded "acme" 1 2 (mkAdmitting one_a_day []) (mkAdmitting after_two []) 0
           ltac:(lia) ltac:(lia) eq_refl eq_refl racing_admissions).
Defined.

(** ** Admission one at a time *)

(** A run already counted is allowed again whatever the tenant has used. *)
Lemma AdmitRun_again observes t run now w q : 
  t ≠ "" → run ≠ "" → store_Quota t (en_db w) = Ok q →
  runStartedToday t run (en_db w) = true →
  ∃ d, AdmitRun observes t run now w = (w, Ok d) ∧ de_Allowed d = true.
Proof.
  intros Ht Hrun Hq Hc. unfold AdmitRun, admit_run_reads. rewrite !decide_False by done. rewrite Hq, Hc.
  cbn [mbind result_bind]. unfold RunsStartedToday. rewrite decide_False by done. by eexists.
Qed.

(** ** Metering *)

Section Metering.
Context (unmarshal : string → option bool) (run : string).

Definition event_key (e : Event) : AttemptKey := (ev_StepID e, ev_Attempt e).

(** Nothing is recorded of an attempt once it has ended: what [ControlFacts]
    proves of the scheduler's own appends. *)
Definition ends_once (events : list Event) : Prop :=
  ∀ pre e post e', events = pre ++ e :: post → ends_attempt (ev_Type e) = true →
    e' ∈ post → event_key e' = event_key e → ev_Type e' ≠ StepDispatched ∧ ends_attempt (ev_Type e') = false.

Abbreviation folded evs st := (fold_result (note_event unmarshal run) (∅, []) evs = Ok st).

(** What folding a log leaves. *)
Record noted (evs : list Event) (attempts : gmap AttemptKey MAttempt) (order : list AttemptKey) : Prop := mkNoted
  { nt_nodup : NoDup order;
    nt_order : ∀ k, k ∈ order ↔ is_Some (attempts !! k);
    nt_ended : ∀ k a, attempts !! k = Some a → ma_terminal a ≠ "" →
      ∃ e, e ∈ evs ∧ event_key e = k ∧ ends_attempt (ev_Type e) = true ∧ ma_endedAt a = ev_At e }.

Lemma note_event_noted evs e A o A' o' : noted evs A o → note_event unmarshal run (A, o) e = Ok (A', o') →
  noted (evs ++ [e]) A' o'.
Proof.
  intros [Hnd Ho He] Hn. unfold note_event in Hn. fold (event_key e) in Hn.
  assert (Hkeep : ∀ k a, A !! k = Some a → ma_terminal a ≠ "" → ∃ x, x ∈ evs ++ [e] ∧ event_key x = k
     ∧ ends_attempt (ev_Type x) = true ∧ ma_endedAt a = ev_At x).
  { intros k a Ha Ht. destruct (He k a Ha Ht) as (x & ? & ?). exists x. split; [set_solver|done]. }
  case_decide.
  - destruct (decodeDispatched unmarshal (ev_Payload e)) as [hit|]; [|done]. injection Hn as <- <-.
    destruct (A !! event_key e) as [a0|] eqn:Ea; split.
    + done.
    + intros k. rewrite Ho, lookup_insert_is_Some'. naive_solver.
    + intros k a [[<- <-]|[Hk Ha]]%lookup_insert_Some; [done|by apply Hkeep].
    + apply NoDup_app. split; [done|]. split; [|apply NoDup_singleton].
      intros k Hk%Ho ->%list_elem_of_singleton. rewrite Ea in Hk. by destruct Hk.
    + intros k. rewrite elem_of_app, Ho, list_elem_of_singleton, lookup_insert_is_Some'. naive_solver.
    + intros k a [[<- <-]|[Hk Ha]]%lookup_insert_Some; [done|by apply Hkeep].
  - destruct (ends_attempt (ev_Type e)) eqn:Et; [|by injection Hn as <- <-].
    destruct (A !! event_key e) as [a0|] eqn:Ea; [|by injection Hn as <- <-]. injection Hn as <- <-. split.
    + done.
    + intros k. rewrite Ho, lookup_insert_is_Some'. naive_solver.
    + intros k a [[<- <-]|[Hk Ha]]%lookup_insert_Some; [|by apply Hkeep].
      intros _. exists e. split; [set_solver|done].
Qed.

Lemma folded_noted evs A o : folded evs (A, o) → noted evs A o.
Proof.
  intros Hf. apply (fold_result_inv (λ l st, noted l st.1 st.2) (note_event unmarshal run) (∅, []) evs (A, o)); [| |done].
  - cbn [fst snd]. split; [by apply NoDup_nil|intros k; rewrite lookup_empty; split; [by intros ?%elem_of_nil|by intros []]|].
    intros k a. by rewrite lookup_empty.
  - intros pre e [A1 o1] [A2 o2] H1 H2. by eapply note_event_noted.
Qed.

(** An ended attempt is never noted again. *)
Lemma note_event_kept events pre e post A o A' o' k a :
  ends_once events → events = pre ++ e :: post → noted pre A o → note_event unmarshal run (A, o) e = Ok (A', o') →
  A !! k = Some a → ma_terminal a ≠ "" → A' !! k = Some a ∧ (k ∈ o → k ∈ o').
Proof.
  intros Ho -> Hn He Ha Ht. destruct (nt_ended _ _ _ Hn k a Ha Ht) as (x & Hx & Hk & Hend & _).
  apply list_elem_of_split in Hx as (l1 & l2 & ->).
  assert (Hno : event_key e = k → ev_Type e ≠ StepDispatched ∧ ends_attempt (ev_Type e) = false).
  { intros Hke. apply (Ho l1 x (l2 ++ e :: post)); [by rewrite <-app_assoc|done|set_solver|congruence]. }
  unfold note_event in He. fold (event_key e) in He. case_decide as Hd.
  - destruct (decodeDispatched unmarshal (ev_Payload e)) as [hit|]; [|done]. injection He as <- <-.
    rewrite lookup_insert_ne by (intros Hke; by destruct (Hno Hke)). split; [done|].
    destruct (A !! event_key e); set_solver.
  - destruct (ends_attempt (ev_Type e)) eqn:Et; [|by injection He as <- <-].
    destruct (A !! event_key e) as [a0|] eqn:Ea; injection He as <- <-; [|done].
    by rewrite lookup_insert_ne by (intros Hke; destruct (Hno Hke) as [_ Hf]; discriminate Hf).
Qed.

Lemma folded_kept events post pre A o A' o' k a : ends_once events → events = pre ++ post →
  folded pre (A, o) → fold_result (note_event unmarshal run) (A, o) post = Ok (A', o') →
  A !! k = Some a → ma_terminal a ≠ "" → A' !! k = Some a ∧ (k ∈ o → k ∈ o').
Proof.
  intros Ho. revert pre A o. induction post as [|e post IH]; intros pre A o -> Hf Hp Ha Ht.
  - by injection Hp as <- <-.
  - cbn [fold_result] in Hp. destruct (note_event unmarshal run (A, o) e) as [[A1 o1]|] eqn:E; [|done].
    cbn [mbind result_bind] in Hp.
    destruct (note_event_kept _ pre e post A o A1 o1 k a Ho eq_refl (folded_noted _ _ _ Hf) E Ha Ht) as [Ha1 Hk1].
    assert (Hf1 : folded (pre ++ [e]) (A1, o1)).
    { rewrite fold_result_app, Hf. cbn [mbind result_bind fold_result]. by rewrite E. }
    destruct (IH (pre ++ [e]) A1 o1 ltac:(by rewrite <-app_assoc) Hf1 Hp Ha1 Ht) as [? ?]. auto.
Qed.

(** ** The rows of a log *)

Definition usages_of (A : gmap AttemptKey MAttempt) (o : list AttemptKey) : list Usage :=
  omap (λ key, match A !! key with None => None | Some a => attempt_usage run key a end) o.

Lemma run_usages_ok evs us : run_usages unmarshal run evs = Ok us → ∃ A o, folded evs (A, o) ∧ us = usages_of A o.
Proof.
  unfold run_usages. destruct (fold_result (note_event unmarshal run) (∅, []) evs) as [[A o]|]; [|done].
  intros [= <-]. by exists A, o.
Qed.

Lemma elem_of_usages A o u : u ∈ usages_of A o ↔ ∃ k a, k ∈ o ∧ A !! k = Some a ∧ attempt_usage run k a = Some u.
Proof.
  unfold usages_of. rewrite list_elem_of_omap. split.
  - intros (k & Hk & Hu). destruct (A !! k) as [a|] eqn:Ha; [|done]. by exists k, a.
  - intros (k & a & Hk & Ha & Hu). exists k. by rewrite Ha.
Qed.

Lemma attempt_usage_spec k a u : attempt_usage run k a = Some u →
  ma_terminal a ≠ "" ∧ us_RunID u = run ∧ (us_StepID u, us_Attempt u) = k ∧ us_At u = ma_endedAt a
  ∧ 0 ≤ us_Quantity u ∧ us_Kind u ∈ [KindStepSeconds; KindStepSecondsUnbilled; KindCacheHit].
Proof.
  unfold attempt_usage. case_decide; [done|]. destruct k as [s n].
  assert (Hms : ∀ x y, 0 ≤ milliseconds x y).
  { intros x y. unfold milliseconds. case_decide; [done|]. apply Z.div_pos; [unfold two63; lia|done]. }
  destruct (ma_cacheHit a); [|case_decide]; intros [= <-]; repeat split; try done; try apply Hms; set_solver.
Qed.

Lemma usages_grow events pre us_n us : ends_once events → pre `prefix_of` events →
  run_usages unmarshal run pre = Ok us_n → run_usages unmarshal run events = Ok us → ∀ u, u ∈ us_n → u ∈ us.
Proof.
  intros Ho [post ->] (A & o & Hf & ->)%run_usages_ok (A' & o' & Hf' & ->)%run_usages_ok u.
  rewrite !elem_of_usages. intros (k & a & Hk & Ha & Hu).
  pose proof (attempt_usage_spec k a u Hu) as (Ht & _).
  rewrite fold_result_app, Hf in Hf'. cbn [mbind result_bind] in Hf'.
  destruct (folded_kept (pre ++ post) post pre A o A' o' k a Ho eq_refl Hf Hf' Ha Ht) as [Ha' Hk'].
  exists k, a. auto.
Qed.

(** One row per attempt. *)
Lemma usages_distinct t events us : run_usages unmarshal run events = Ok us → NoDup (work <$> map (pair t) us).
Proof.
  intros (A & o & Hf & ->)%run_usages_ok. pose proof (nt_nodup _ _ _ (folded_noted _ _ _ Hf)) as Hnd. clear Hf.
  induction Hnd as [|k o Hk Hnd IH]; [by apply NoDup_nil|]. unfold usages_of in *. cbn [omap list_omap].
  destruct (A !! k) as [a|] eqn:Ha; [|done]. destruct (attempt_usage run k a) as [u|] eqn:Hu; [|done].
  cbn [map fmap list_fmap]. apply NoDup_cons. split; [|exact IH].
  intros (r & Hr & (u' & <- & Hu')%list_elem_of_In%in_map_iff)%list_elem_of_fmap. apply list_elem_of_In in Hu'.
  apply elem_of_usages in Hu' as (k' & a' & Hk' & _ & Hu').
  apply attempt_usage_spec in Hu as (_ & _ & H1 & _), Hu' as (_ & _ & H2 & _).
  unfold work in Hr. simpl in Hr. injection Hr as _ _ H3 H4. apply Hk.
  assert (k = k') as -> by congruence. done.
Qed.

(** Rows that the meter writes of this run. *)
Definition bill_row (t : string) (r : UsageRow) : Prop :=
  r.1 = t ∧ us_RunID r.2 = run ∧ us_Kind r.2 ∈ [KindStepSeconds; KindStepSecondsUnbilled; KindCacheHit].
#[export] Instance bill_row_dec t r : base.Decision (bill_row t r).
Proof. unfold bill_row. apply _. Defined.

Lemma usages_bill t events us u : run_usages unmarshal run events = Ok us → u ∈ us → bill_row t (t, u).
Proof.
  intros (A & o & Hf & ->)%run_usages_ok (k & a & _ & _ & Hu)%elem_of_usages.
  by apply attempt_usage_spec in Hu as (_ & ? & _ & _ & _ & ?).
Qed.

Lemma usages_recordable events us u : Forall (λ e, ev_At e ≠ zeroTime) events →
  run_usages unmarshal run events = Ok us → u ∈ us → recordable u.
Proof.
  intros Hat (A & o & Hf & ->)%run_usages_ok (k & a & _ & Ha & Hu)%elem_of_usages.
  apply attempt_usage_spec in Hu as (Ht & _ & _ & Hend & Hq & Hk).
  destruct (nt_ended _ _ _ (folded_noted _ _ _ Hf) k a Ha Ht) as (e & He & _ & _ & Hae).
  split; [|split; [done|]].
  - intros Hz. rewrite Hz, !elem_of_cons, elem_of_nil in Hk. by destruct Hk as [|[|[|]]].
  - rewrite Hend, Hae. rewrite Forall_forall in Hat. by apply Hat.
Qed.

(** ** The ledger under any passes *)

(** Every row of the run is one of [us], and no work is in twice. *)
Definition ledger_ok (t : string) (us : list Usage) (db : TenDB) : Prop :=
  NoDup (work <$> td_usage db) ∧ ∀ r, r ∈ td_usage db → bill_row t r → r ∈ map (pair t) us.

Lemma RecordUsage_ledger t us t' u db : ledger_ok t us db → (bill_row t (t', u) → t' = t ∧ u ∈ us) →
  ledger_ok t us (RecordUsage t' u db).1.
Proof.
  intros [Hnd Hin] Hu. destruct (RecordUsage t' u db) as [db' res] eqn:E.
  apply RecordUsage_usage in E as (_ & _ & [E|[E Hw]]); simpl; unfold ledger_ok; rewrite E; [done|].
  rewrite fmap_app. split.
  - apply NoDup_app. split; [done|]. split; [|apply NoDup_singleton].
    intros w Hwin Heq. apply list_elem_of_singleton in Heq as ->. by apply Hw.
  - intros r [Hr|Hr]%elem_of_app Hb; [by apply Hin|]. apply list_elem_of_singleton in Hr as ->.
    destruct (Hu Hb) as [-> Hus]. apply list_elem_of_In, in_map_iff. exists u. by rewrite <-list_elem_of_In.
Qed.

(** A pass writes what is missing. *)
Lemma record_all_pass t us todo db sum : t ≠ "" → ledger_ok t us db → Forall recordable todo →
  (∀ u, u ∈ todo → u ∈ us ∧ bill_row t (t, u)) → NoDup (work <$> map (pair t) us) →
  ∃ db' sum', record_all t todo sum db = (db', Ok sum') ∧ ledger_ok t us db'
    ∧ td_usage db `prefix_of` td_usage db' ∧ ∀ u, u ∈ todo → (t, u) ∈ td_usage db'.
Proof.
  intros Ht Hl Hrec Htodo Hnd. revert db sum Hl. induction todo as [|u todo IH]; intros db sum Hl.
  { exists db, sum. split; [done|]. split; [done|]. split; [done|]. by intros u ?%elem_of_nil. }
  apply Forall_cons in Hrec as [Hu Hrec]. destruct (Htodo u ltac:(by left)) as [Hus Hbill].
  cbn [record_all]. unfold mbind, prog_bind. rewrite RecordUsage_ok by done.
  destruct (insert_usage (t, u) (td_usage db)) as [rows b] eqn:E. cbn [fst snd].
  assert (Hl1 : ledger_ok t us (with_usage db rows)).
  { pose proof (RecordUsage_ledger t us t u db Hl ltac:(done)) as H. by rewrite RecordUsage_ok, E in H. }
  assert (Hnow : (t, u) ∈ rows ∧ td_usage db `prefix_of` rows).
  { apply insert_usage_spec in E. destruct b; destruct E as [Hw ->]; [split; [set_solver|by eexists]|].
    split; [|done]. apply list_elem_of_In, in_map_iff in Hw as (r & Hr & Hin%list_elem_of_In).
    destruct Hl as [_ Hl]. assert (bill_row t r) as Hb.
    { unfold work in Hr. simpl in Hr. injection Hr as H1 H2 H3 H4 H5. destruct Hbill as (_ & ? & ?). repeat split; simpl in *; congruence. }
    pose proof (Hl r Hin Hb) as Hr'. apply list_elem_of_In, in_map_iff in Hr' as (u' & <- & Hu'%list_elem_of_In).
    assert ((t, u') = (t, u)) as <-; [|done].
    apply (NoDup_fmap_eq work (map (pair t) us)); [done|..|done]; apply list_elem_of_In, in_map_iff; eexists;
      (split; [done|by apply list_elem_of_In]). }
  destruct (IH ltac:(done) ltac:(intros; apply Htodo; by right) (with_usage db rows) (if b then summarise u sum else sum) Hl1)
    as (db' & sum' & Hr & Hl' & Hpre & Hin).
  exists db', sum'. split; [exact Hr|]. split; [done|]. destruct Hnow as [Hu1 Hp1].
  split; [by trans rows|]. intros v [->|Hv]%elem_of_cons; [|by apply Hin].
  eapply elem_of_prefix; [exact Hu1|done].
Qed.

(** A pass over rows already there writes nothing and bills nothing. *)
Lemma record_all_idle t todo db sum : t ≠ "" → Forall recordable todo →
  (∀ u, u ∈ todo → (t, u) ∈ td_usage db) → record_all t todo sum db = (db, Ok sum).
Proof.
  intros Ht Hrec. induction Hrec as [|u todo Hu Hrec IH]; intros Hin; [done|].
  cbn [record_all]. unfold mbind, prog_bind. rewrite RecordUsage_ok by done. unfold insert_usage.
  rewrite decide_True; [|by apply list_elem_of_In, in_map, list_elem_of_In, Hin; left].
  cbn [fst snd]. rewrite with_usage_eta. apply IH. intros v Hv. apply Hin. by right.
Qed.
End Metering.

(** What other passes, of any plane, over any part of the log and cut short
    anywhere, and every other writer, record. *)
Definition recorded_meanwhile (unmarshal : string → option bool) (t run : string) (events : list Event)
    (x : UsageRow) : Prop :=
  (x.1 = t ∧ ∃ n us, run_usages unmarshal run (take n events) = Ok us ∧ x.2 ∈ us) ∨ ¬ bill_row run t x.

Definition record_row (db : TenDB) (x : UsageRow) : TenDB := (RecordUsage x.1 x.2 db).1.

(** an attempt is billed once. Whatever passes of whatever planes have
    recorded before, over whatever part of the run's log and cut short
    anywhere, and whatever else is in the ledger, a pass leaves exactly the
    rows of the whole log, each attempt that ended once and as it ended; and a
    pass after that writes nothing and sums to nothing. *)
Theorem attempts_are_billed_once (unmarshal : string → option bool) (t run : string) (log : DB)
    (events : list Event) (us : list Usage) (db : TenDB) (meanwhile : list UsageRow) :
  t ≠ "" → run ≠ "" → Replay t run log = Ok events → ends_once events → Forall (λ e, ev_At e ≠ zeroTime) events →
  run_usages unmarshal run events = Ok us →
  NoDup (work <$> td_usage db) → (∀ r, r ∈ td_usage db → ¬ bill_row run t r) →
  Forall (recorded_meanwhile unmarshal t run events) meanwhile →
  ∃ db' sum, MeterRun unmarshal (Some log) t run (foldl record_row db meanwhile) = (db', Ok sum)
    ∧ filter (bill_row run t) (td_usage db') ≡ₚ map (pair t) us
    ∧ MeterRun unmarshal (Some log) t run db' = (db', Ok no_summary).
Proof.
  intros Ht Hrun Hlog Hends Hat Hus Hnd Hno Hmean.
  assert (Hl : ledger_ok run t us (foldl record_row db meanwhile)).
  { assert (Hl0 : ledger_ok run t us db) by (split; [done|]; intros r Hr Hb; by destruct (Hno r Hr)).
    clear Hnd Hno. revert db Hl0. induction Hmean as [|[t' u] l Hx _ IH]; intros db Hl0; [done|].
    cbn [foldl]. apply IH. apply RecordUsage_ledger; [done|]. intros Hb. unfold recorded_meanwhile in Hx. cbn [fst snd] in *.
    destruct Hx as [(-> & n & us_n & Hn & Hu)|Hx]; [|done]. split; [done|].
    by eapply (usages_grow unmarshal run events (take n events)); [|apply prefix_take|..]. }
  pose proof (usages_distinct unmarshal run t events us Hus) as Hdist.
  assert (Hrec : Forall recordable us).
  { apply Forall_forall. intros u Hu. by eapply usages_recordable. }
  destruct (record_all_pass unmarshal run t us us (foldl record_row db meanwhile) no_summary Ht Hl Hrec) as
    (db' & sum & Hr & [Hnd' Hl'] & _ & Hin); [|done|].
  { intros u Hu. split; [done|by eapply usages_bill]. }
  exists db', sum. unfold MeterRun. rewrite !decide_False, Hlog by done.
  unfold mbind, prog_bind, plift. rewrite Hus. split; [exact Hr|]. split; [|by apply record_all_idle].
  apply NoDup_Permutation.
  - apply NoDup_filter. by eapply NoDup_fmap_1.
  - by eapply NoDup_fmap_1.
  - intros r. rewrite list_elem_of_filter. split; [intros [Hb Hr']; by apply Hl'|].
    intros (u & <- & Hu%list_elem_of_In)%list_elem_of_In%in_map_iff. split; [by eapply usages_bill|by apply Hin].
Qed.

Fixpoint ends_once_b (events : list Event) : bool :=
  match events with
  | [] => true
  | e :: post =>
      (negb (ends_attempt (ev_Type e))
       || forallb (λ e', bool_decide (event_key e' ≠ event_key e)
                         || (bool_decide (ev_Type e' ≠ StepDispatched) && negb (ends_attempt (ev_Type e')))) post)
      && ends_once_b post
  end.

Lemma ends_once_sound events : ends_once_b events = true → ends_once events.
Proof.
  induction events as [|x events IH]; intros Hb pre e post e' He.
  - by destruct pre.
  - cbn [ends_once_b] in Hb. apply andb_true_iff in Hb as [Hx Hb].
    destruct pre as [|y pre]; cbn [app] in He; injection He as -> ->; [|by eapply IH].
    intros Hend Hin Hk. rewrite Hend in Hx. cbn [negb orb] in Hx. rewrite forallb_forall in Hx.
    apply list_elem_of_In in Hin. specialize (Hx e' Hin).
    rewrite orb_true_iff, andb_true_iff, !bool_decide_eq_true, negb_true_iff in Hx.
    by destruct Hx as [Hne|Hno].
Qed.

(** A run whose first attempt was lost, whose second succeeded, and whose
    second step the cache served. *)
Definition second : Z := NanosPerSecond.
Definition metered_events : list Event :=
  [ mkEvent "r1" "" 0 1 RunCreated "" second;
    mkEvent "r1" "build" 1 2 StepDispatched "" (2 * second);
    mkEvent "r1" "build" 1 3 StepAttemptLost "" (9 * second);
    mkEvent "r1" "build" 2 4 StepDispatched "" (10 * second);
    mkEvent "r1" "build" 2 5 StepSucceeded "" (12 * second);
    mkEvent "r1" "lint" 1 6 StepDispatched "hit" (13 * second);
    mkEvent "r1" "lint" 1 7 StepSucceeded "" (13 * second) ].
Definition metered_log : DB := mkDB (map (pair "acme") metered_events) ∅ ∅.
Definition cache_flag (payload : string) : option bool := Some (bool_decide (payload = "hit")).
Definition metered_rows : list Usage :=
  [ mkUsage KindStepSecondsUnbilled "r1" "build" 1 7000 false (9 * second);
    mkUsage KindStepSeconds "r1" "build" 2 2000 true (12 * second);
    mkUsage KindCacheHit "r1" "lint" 1 0 false (13 * second) ].

(** A plane metered the first attempt and died, and the run was admitted. *)
Definition before_pass : list UsageRow :=
  [ ("acme", mkUsage KindRunStarted "r1" "" 0 1 true second);
    ("acme", mkUsage KindStepSecondsUnbilled "r1" "build" 1 7000 false (9 * second)) ].

Lemma attempts_are_billed_once_witness :
  ∃ db' sum, MeterRun cache_flag (Some metered_log) "acme" "r1" (foldl record_row empty_tenancy before_pass) = (db', Ok sum)
    ∧ filter (bill_row "r1" "acme") (td_usage db') ≡ₚ map (pair "acme") metered_rows
    ∧ MeterRun cache_flag (Some metered_log) "acme" "r1" db' = (db', Ok no_summary).
Proof.
  refine (attempts_are_billed_once cache_flag "acme" "r1" metered_log metered_events metered_rows empty_tenancy before_pass
            ltac:(done) ltac:(done) _ (ends_once_sound metered_events _) _ _ _ _ _).
  - by vm_compute.
  - by vm_compute.
  - by repeat constructor.
  - by vm_compute.
  - apply NoDup_nil_2.
  - intros r Hr. by apply elem_of_nil in Hr.
  - constructor; [right; intros (_ & _ & Hk); rewrite !elem_of_cons, elem_of_nil in Hk; by destruct Hk as [|[|[|]]]|].
    constructor; [|constructor]. left. split; [done|]. exists 3%nat.
    exists [mkUsage KindStepSecondsUnbilled "r1" "build" 1 7000 false (9 * second)].
    split; [by vm_compute|by left].
Defined.

(** ** The storage gate *)

(** What the ledger always is: one row a work, and no negative quantity. *)
Definition ledger_wf (db : TenDB) : Prop :=
  NoDup (work <$> td_usage db) ∧ Forall (λ r, 0 ≤ us_Quantity r.2) (td_usage db).

Definition total_of (t kind : string) (db : TenDB) : Z := sum_quantity (rows_of t kind (td_usage db)).

Lemma sum_quantity_app l1 l2 : sum_quantity (l1 ++ l2) = sum_quantity l1 + sum_quantity l2.
Proof. unfold sum_quantity. induction l1 as [|r l1 IH]; simpl; [done|]. rewrite IH. lia. Qed.

Lemma sum_quantity_nonneg l : Forall (λ r : UsageRow, 0 ≤ us_Quantity r.2) l → 0 ≤ sum_quantity l.
Proof. unfold sum_quantity. induction 1; simpl; lia. Qed.

Lemma total_of_nonneg t kind db : ledger_wf db → 0 ≤ total_of t kind db.
Proof.
  intros [_ Hq]. apply sum_quantity_nonneg, Forall_forall. intros r [_ Hr]%list_elem_of_filter.
  rewrite Forall_forall in Hq. by apply Hq.
Qed.

Lemma CASBytes_ok t db used : ledger_wf db → CASBytes t db = Ok used →
  used = Z.max 0 (total_of t KindCASBytes db - total_of t KindCASBytesReleased db).
Proof.
  intros Hwf. pose proof (total_of_nonneg t KindCASBytes db Hwf). pose proof (total_of_nonneg t KindCASBytesReleased db Hwf).
  unfold CASBytes, scan64. fold (total_of t KindCASBytes db) (total_of t KindCASBytesReleased db).
  set (a := total_of t KindCASBytes db) in *. set (b := total_of t KindCASBytesReleased db) in *.
  destruct (decide (t = "")); [done|].
  destruct (decide (- two63 ≤ a < two63)); cbn [mbind result_bind]; [|done].
  destruct (decide (- two63 ≤ b < two63)); cbn [mbind result_bind]; [|done].
  rewrite i64_id by (unfold two63 in *; lia). intros [= <-]. destruct (decide (0 < a - b)); lia.
Qed.

Lemma CASBytes_range t db used : CASBytes t db = Ok used → 0 ≤ used < two63.
Proof.
  unfold CASBytes. destruct (decide (t = "")); [done|].
  destruct (scan64 (sum_quantity (rows_of t KindCASBytes _))) as [a|]; cbn [mbind result_bind]; [|done].
  destruct (scan64 _) as [b|]; cbn [mbind result_bind]; [|done].
  pose proof (i64_range (a - b)). intros [= <-]. destruct (decide (0 < i64 (a - b))); unfold two63 in *; lia.
Qed.

Lemma ledger_wf_record t u db db' r : ledger_wf db → RecordUsage t u db = (db', r) → ledger_wf db'.
Proof.
  intros [Hnd Hq] HR. assert (0 ≤ us_Quantity u ∨ td_usage db' = td_usage db) as Hu.
  { revert HR. unfold RecordUsage. repeat (case_decide; [intros [= <- <-]; by right|]). left. lia. }
  apply RecordUsage_usage in HR as (_ & _ & [E|[E Hw]]); unfold ledger_wf; rewrite E; [done|].
  rewrite fmap_app, Forall_app. split.
  - apply NoDup_app. split; [done|]. split; [|apply NoDup_singleton]. by intros w Hin ->%list_elem_of_singleton.
  - split; [done|]. apply Forall_singleton. destruct Hu as [|Hu]; [done|].
    rewrite Hu in E. apply (f_equal length) in E. rewrite length_app in E. simpl in E. lia.
Qed.

(** ** The limiter *)

Definition size_of (chunks : list string) : Z := foldr (λ c z, len c + z) 0 chunks.

Lemma size_of_nonneg l : 0 ≤ size_of l.
Proof. induction l; simpl; [done|]. unfold len. lia. Qed.

Lemma size_of_take n l : size_of (take n l) ≤ size_of l.
Proof.
  revert n. induction l as [|c l IH]; intros [|n]; simpl; try done.
  - pose proof (size_of_nonneg l). unfold len. lia.
  - specialize (IH n). lia.
Qed.

Lemma size_of_concat l : size_of l = len (String.concat "" l).
Proof.
  induction l as [|c l IH]; [done|]. cbn [size_of foldr]. fold (size_of l). rewrite IH. unfold len.
  destruct l as [|d l]; [simpl; lia|]. change (String.concat "" (c :: d :: l)) with (c +:+ String.concat "" (d :: l)).
  rewrite string_app_length. lia.
Qed.

(** It passes the whole blob on when that fits, and trips before the end when
    it does not. *)
Lemma quota_chunks_fits remaining read l : read ≤ remaining →
  quota_chunks remaining read l = (l, false) ∧ read + size_of l ≤ remaining
  ∨ (quota_chunks remaining read l).2 = true ∧ remaining < read + size_of l.
Proof.
  revert read. induction l as [|c l IH]; intros read Hr; simpl; [left; split; [done|lia]|].
  case_decide as Hc; [right; split; [done|]; pose proof (size_of_nonneg l); lia|].
  destruct (IH (read + len c) ltac:(lia)) as [[-> Hs]|[Ht Hs]]; [left; split; [done|lia]|].
  right. destruct (quota_chunks _ _ l) as [l' b]. simpl in *. split; [done|lia].
Qed.

Lemma quotaReader_fits remaining r : 0 ≤ remaining →
  quotaReader remaining r = r ∧ size_of (rd_chunks r) ≤ remaining
  ∨ rd_fails (quotaReader remaining r) = Some errQuotaTripped ∧ remaining < size_of (rd_chunks r).
Proof.
  intros Hr. unfold quotaReader. destruct (quota_chunks_fits remaining 0 (rd_chunks r) Hr) as [[-> Hs]|[Ht Hs]].
  - left. split; [by destruct r|lia].
  - right. destruct (quota_chunks remaining 0 (rd_chunks r)) as [l b]. simpl in *. subst b. split; [done|lia].
Qed.

Section Gate.
Context {S : Type} (st : CasStore S) (sha256 : string → string) `{!CasContract st sha256}.

(** What a put that was let through leads to: the inner store's answer, and
    the charge. *)
Lemma gate_put_cases observes f t r now s w s' w' res : t ≠ "" →
  gate_Put observes st f t r now (s, w) = ((s', w'), res) →
  (s' = s ∧ en_db w' = en_db w ∧ is_ok res = false) ∨
  ∃ q used n r', store_Quota t (en_db w) = Ok q ∧ CASBytes t (en_db w) = Ok used ∧ i64 (used + 0) ≤ q_MaxCASBytes q
    ∧ let counted := quotaReader (q_MaxCASBytes q - used) r in
      cas_Put f t counted s = (s', r', n)
      ∧ (q_MaxCASBytes q - used < bytes_read n counted ∧ en_db w' = en_db w ∧ (∃ why, res = Err (TenExceeded why))
         ∨ (bytes_read n counted ≤ q_MaxCASBytes q - used ∧
            ((∃ e, r' = Err e ∧ res = Err (TenStore e) ∧ en_db w' = en_db w) ∨
             (∃ d rr, r' = Ok d
                ∧ RecordUsage t (mkUsage KindCASBytes "" (d_hex d) 0 (bytes_read n counted) true now) (en_db w) = (en_db w', rr)
                ∧ res = match rr with Ok _ => Ok d | Err e => Err e end)))).
Proof.
  intros Ht. unfold gate_Put. rewrite decide_False by done. unfold mbind, prog_bind, on_enforcer, AdmitCASBytes.
  cbn [fst snd]. rewrite decide_False by done. rewrite decide_False by lia.
  unfold mbind, result_bind. destruct (store_Quota t (en_db w)) as [q|e] eqn:Hq; [|intros [= <- <- <-]; by left].
  destruct (CASBytes t (en_db w)) as [used|e] eqn:Hu; [|intros [= <- <- <-]; by left].
  case_decide as Hfull.
  { unfold refuse. intros Hg. left. destruct observes; cbn in Hg; by injection Hg as <- <- <-. }
  cbn [de_Allowed allow]. unfold gate_put_inner. cbn [de_Limit de_Observed allow fst snd].
  destruct (cas_Put f t (quotaReader (q_MaxCASBytes q - used) r) s) as [[s2 r2] n] eqn:Hp.
  intros Hg. right. exists q, used, n, r2. do 2 (split; [done|]). split; [lia|].
  case_decide as Hex.
  - unfold mbind, prog_bind, on_enforcer, refuse, plift, decision_Err, pfail in Hg.
    cut (s2 = s' ∧ en_db w' = en_db w ∧ ∃ why, res = Err (TenExceeded why)).
    { intros (-> & ? & ?). split; [done|]. by left. }
    destruct observes; cbn in Hg; injection Hg as <- <- <-; eauto.
  - cut (s2 = s' ∧ ((∃ e, r2 = Err e ∧ res = Err (TenStore e) ∧ en_db w' = en_db w) ∨
             (∃ d rr, r2 = Ok d
                ∧ RecordUsage t (mkUsage KindCASBytes "" (d_hex d) 0 (bytes_read n (quotaReader (q_MaxCASBytes q - used) r)) true now) (en_db w) = (en_db w', rr)
                ∧ res = match rr with Ok _ => Ok d | Err e => Err e end))).
    { intros (-> & ?). split; [done|]. right. split; [lia|done]. }
    destruct r2 as [d|e]; [|injection Hg as <- <- <-; eauto 6].
    unfold mbind, prog_bind, on_enforcer, on_db in Hg. cbn [fst snd] in Hg.
    destruct (RecordUsage t _ (en_db w)) as [db2 rr] eqn:HR. split; [by destruct rr; injection Hg as <- <- <-|].
    right. exists d, rr. destruct rr; injection Hg as <- <- <-; done.
Qed.

(** Of a blob let through to its end, the count is its size. *)
Lemma gate_read f t r remaining s s' r' n : cc_ok s → 0 ≤ remaining →
  cas_Put f t (quotaReader remaining r) s = (s', r', n) →
  let read := bytes_read n (quotaReader remaining r) in
  let content := String.concat "" (rd_chunks r) in
  cc_ok s'
  ∧ (remaining < read → ∀ t' h, cc_bytes s' t' h = cc_bytes s t' h)
  ∧ (∀ d, r' = Ok d → d = digest_of sha256 content ∧ read = len content ∧ len content ≤ remaining
            ∧ bad_tenant t = false ∧ rd_fails r = None ∧ is_Some (cc_bytes s' t (d_hex d)))
  ∧ (∀ t' h, cc_bytes s' t' h = cc_bytes s t' h ∨
             (t' = t ∧ h = d_hex (digest_of sha256 content) ∧ cc_bytes s t' h = None ∧ cc_bytes s' t' h = Some content)).
Proof.
  intros Hok Hrem Hput read content.
  destruct (cc_put f t _ s s' r' n Hok Hput) as (Hok' & Hfr & Hres & Hn). split; [done|].
  destruct (quotaReader_fits remaining r Hrem) as [[He Hs]|[He Hs]].
  - rewrite He in Hfr, Hres, Hn. pose proof Hs as Hs'. rewrite size_of_concat in Hs. split.
    { intros Hlt. exfalso. revert Hlt. unfold read, bytes_read. rewrite He.
      fold (size_of (take n (rd_chunks r))). pose proof (size_of_take n (rd_chunks r)) as Hle.
      lia. }
    split.
    + intros d Hd. destruct (Hres d Hd) as (-> & -> & Hf & Ht & Hst).
      split; [done|]. split; [|done]. unfold read, bytes_read. rewrite He, firstn_all.
      fold (size_of (rd_chunks r)). by rewrite size_of_concat.
    + intros t' h. destruct (Hfr t' h) as [?|(? & ? & ? & ? & ?)]; [by left|by right].
  - assert (Hsame : ∀ t' h, cc_bytes s' t' h = cc_bytes s t' h).
    { intros t' h. destruct (Hfr t' h) as [?|(_ & _ & _ & _ & Hf)]; [done|]. congruence. }
    split; [done|]. split; [|by left]. intros d Hd. destruct (Hres d Hd) as (_ & _ & Hf & _). congruence.
Qed.

(** The ledger's total, and a row more. *)
Lemma total_after t u db db' rr kind : RecordUsage t u db = (db', rr) → us_Kind u = kind → 0 ≤ us_Quantity u →
  total_of t kind db ≤ total_of t kind db' ≤ total_of t kind db + us_Quantity u.
Proof.
  intros (_ & _ & [E|[E _]])%RecordUsage_usage Hk Hq; unfold total_of, rows_of; rewrite E; [lia|].
  rewrite filter_app, sum_quantity_app, filter_cons, decide_True by done. simpl. lia.
Qed.

Lemma total_other t u db db' rr kind : RecordUsage t u db = (db', rr) → us_Kind u ≠ kind →
  total_of t kind db' = total_of t kind db.
Proof.
  intros (_ & _ & [E|[E _]])%RecordUsage_usage Hk; unfold total_of, rows_of; rewrite E; [done|].
  rewrite filter_app, filter_cons, decide_False by (intros [_ ?]; done). by rewrite app_nil_r.
Qed.

(** storage is charged as it is stored. A put that succeeds has stored the
    bytes under their hash and written their charge; no put takes the ledger's
    total over the tenant's quota; a put the quota refuses has stored nothing
    and charged nothing. *)
Theorem storage_stays_within_quota observes f t r now s w s' w' res q used :
  cc_ok s → ledger_wf (en_db w) → t ≠ "" → now ≠ zeroTime →
  store_Quota t (en_db w) = Ok q → CASBytes t (en_db w) = Ok used → used ≤ q_MaxCASBytes q →
  gate_Put observes st f t r now (s, w) = ((s', w'), res) →
  let content := String.concat "" (rd_chunks r) in
  cc_ok s' ∧ ledger_wf (en_db w')
  ∧ (∀ used', CASBytes t (en_db w') = Ok used' → used' ≤ q_MaxCASBytes q ∧ used' ≤ used + len content)
  ∧ (∀ d, res = Ok d → d = digest_of sha256 content ∧ is_Some (cc_bytes s' t (d_hex d))
       ∧ len content ≤ q_MaxCASBytes q - used
       ∧ (t, KindCASBytes, "", d_hex d, 0) ∈ map work (td_usage (en_db w')))
  ∧ (∀ why, res = Err (TenExceeded why) → en_db w' = en_db w ∧ ∀ t' h, cc_bytes s' t' h = cc_bytes s t' h).
Proof.
  intros Hok Hwf Ht Hnow Hq Hu Hle Hg content. pose proof (CASBytes_range t _ _ Hu) as Hr.
  assert (Hlen : 0 ≤ len content) by (unfold len; lia).
  destruct (gate_put_cases _ _ _ _ _ _ _ _ _ _ Ht Hg) as [(-> & -> & Hres)|(q' & used' & n & r' & Hq' & Hu' & Hfit & Hput & Hcase)].
  { split; [done|]. split; [done|]. split; [intros u' Hx; assert (u' = used) as -> by congruence; lia|]. destruct res; [done|]. split; [done|]. by intros why [= ->]. }
  assert (q' = q) as -> by congruence. assert (used' = used) as -> by congruence.
  destruct (gate_read f t r (q_MaxCASBytes q - used) s s' r' n Hok ltac:(lia) Hput) as (Hok' & Hex & Hfull & _).
  split; [done|]. destruct Hcase as [(Hover & -> & why & ->)|(Hin & [(e & -> & -> & ->)|(d & rr & -> & HR & ->)])].
  - split; [done|]. split; [intros u' Hx; assert (u' = used) as -> by congruence; lia|]. split; [done|]. intros why' _. split; [done|]. by apply Hex.
  - split; [done|]. split; [intros u' Hx; assert (u' = used) as -> by congruence; lia|]. split; [done|]. by intros why'.
  - pose proof (ledger_wf_record _ _ _ _ _ Hwf HR) as Hwf'. split; [done|].
    destruct (Hfull d eq_refl) as (-> & Hread & Hsize & _ & _ & Hst). rewrite Hread in *. fold content in HR, Hsize |- *.
    split.
    { intros u' Hx. apply CASBytes_ok in Hx as ->; [|done]. apply CASBytes_ok in Hu; [|done].
      pose proof (total_after _ _ _ _ _ KindCASBytes HR eq_refl Hlen).
      rewrite (total_other _ _ _ _ _ KindCASBytesReleased HR ltac:(done)). cbn [us_Quantity] in *. lia. }
    rewrite RecordUsage_ok in HR by (done || (split; [done|split; [exact Hlen|done]])).
    destruct (insert_usage _ _) as [rows b] eqn:E. cbn [fst snd] in HR. injection HR as HR <-. rewrite <-HR.
    split; [|done]. intros d [= <-]. do 3 (split; [done|]). cbn [with_usage td_usage].
    apply insert_usage_spec in E. destruct b; destruct E as [Hw ->]; [|exact Hw].
    rewrite map_app. apply elem_of_app. right. by left.
Qed.

(** storage the collector gave back is never charged again. Once a blob's
    charge has been credited, storing the same bytes again succeeds, the bytes
    are in the store, and the ledger is as it was: the charge is refused as a
    duplicate of the old one, which the old credit still cancels. [GuardCAS]
    says every put is charged against the quota. *)
Theorem stored_again_for_free observes t content now s w q used :
  let d := digest_of sha256 content in
  cc_ok s → t ≠ "" → bad_tenant t = false → now ≠ zeroTime →
  store_Quota t (en_db w) = Ok q → CASBytes t (en_db w) = Ok used → used + len content ≤ q_MaxCASBytes q →
  (t, KindCASBytes, "", d_hex d, 0) ∈ map work (td_usage (en_db w)) →
  (t, KindCASBytesReleased, "", d_hex d, 0) ∈ map work (td_usage (en_db w)) →
  ∃ s', gate_Put observes st NoFault t (mkReader [content] None) now (s, w) = ((s', w), Ok d)
        ∧ is_Some (cc_bytes s' t (d_hex d)).
Proof.
  intros d Hok Ht Hbad Hnow Hq Hu Hfit Hc _. pose proof (CASBytes_range t _ _ Hu) as Hr.
  assert (Hlen : 0 ≤ len content) by (unfold len; lia).
  set (r := mkReader [content] None). set (rem := q_MaxCASBytes q - used).
  assert (Hreader : quotaReader rem r = r).
  { destruct (quotaReader_fits rem r ltac:(unfold rem; lia)) as [[He _]|[_ Hs]]; [done|].
    cbn [size_of foldr rd_chunks r] in Hs. unfold rem in Hs. lia. }
  pose proof (cc_put_ok t r s Hok Hbad eq_refl) as Hput.
  destruct (cas_Put NoFault t r s) as [[s' [d'|e]] n] eqn:E; [|done].
  destruct (cc_put NoFault t r s s' (Ok d') n Hok E) as (_ & _ & Hres & _).
  destruct (Hres d' eq_refl) as (-> & -> & _ & _ & Hst). exists s'. split; [|exact Hst].
  unfold gate_Put. rewrite decide_False by done. unfold mbind, prog_bind, on_enforcer, AdmitCASBytes.
  cbn [fst snd]. rewrite decide_False by done. rewrite decide_False by lia.
  unfold mbind, result_bind. rewrite Hq, Hu, Z.add_0_r, i64_id by (unfold two63 in *; lia).
  rewrite decide_False by lia. cbn [de_Allowed allow]. unfold gate_put_inner. cbn [de_Limit de_Observed allow fst snd].
  fold rem. rewrite Hreader, E. cbn [fst snd].
  assert (bytes_read (length (rd_chunks r)) r = len content) as -> by (cbn; lia).
  rewrite decide_False by (unfold rem; lia).
  unfold mbind, prog_bind, on_enforcer, on_db. cbn [fst snd].
  rewrite RecordUsage_ok by (done || (split; [done|split; [exact Hlen|done]])).
  unfold insert_usage. rewrite decide_True by exact Hc. cbn [fst snd]. rewrite with_usage_eta. by destruct w.
Qed.
End Gate.

(** ** Evaluated *)

Abbreviation fs_store := (NewFilesystem first_bytes).

#[local] Instance fs_store_contract : CasContract fs_store first_bytes := NewFilesystem_contract first_bytes first_bytes_size.

Definition ten_bytes : Enforcing := mkEnforcing (with_quotas empty_tenancy {["acme" := (mkQuota 4 5 10, 0)]}) [].

Definition one_put : (Files * Enforcing) * result TenErr Digest :=
  gate_Put false fs_store NoFault "acme" (mkReader ["hel"; "lo"] None) second (∅, ten_bytes).

Lemma one_put_ok : one_put = ((one_put.1.1, one_put.1.2), Ok (digest_of first_bytes "hello")).
Proof.
  assert (one_put.2 = Ok (digest_of first_bytes "hello")) as <- by (by vm_compute). by destruct one_put as [[]].
Qed.

Lemma storage_stays_within_quota_witness :
  is_Some (stored one_put.1.1 "acme" (d_hex (digest_of first_bytes "hello")))
  ∧ CASBytes "acme" (en_db one_put.1.2) = Ok 5.
Proof.
  split; [|by vm_compute].
  refine (proj1 (proj2 (proj1 (proj2 (proj2 (proj2
    (storage_stays_within_quota fs_store first_bytes false NoFault "acme" (mkReader ["hel"; "lo"] None) second ∅ ten_bytes
       one_put.1.1 one_put.1.2 (Ok (digest_of first_bytes "hello")) (mkQuota 4 5 10) 0
       (laid_out_empty first_bytes) (conj (NoDup_nil_2 (A:=_)) (Forall_nil_2 _)) ltac:(done) ltac:(done) eq_refl eq_refl ltac:(by simpl) one_put_ok))))
       (digest_of first_bytes "hello") eq_refl))).
Defined.

(** Ten bytes are stored, collected and stored again, beside ten more: twenty
    bytes under a quota of ten, of which the ledger knows ten. *)
Definition put_ten (content : string) (w : Files * Enforcing) : Files * Enforcing :=
  (gate_Put false fs_store NoFault "acme" (mkReader [content] None) second w).1.
Definition collect_ten (content : string) (w : Files * Enforcing) : Files * Enforcing :=
  let d := digest_of first_bytes content in
  ((fs_Delete NoFault "acme" d w.1).1, mkEnforcing (Collected "acme" d second (en_db w.2)).1 (en_observed w.2)).

Definition once_round : Files * Enforcing := collect_ten "0123456789" (put_ten "0123456789" (∅, ten_bytes)).
Definition twenty : Files * Enforcing := put_ten "abcdefghij" (put_ten "0123456789" once_round).

Lemma once_round_empty : once_round.1 = ∅.
Proof. by vm_compute. Qed.

Lemma once_round_facts :
  store_Quota "acme" (en_db once_round.2) = Ok (mkQuota 4 5 10) ∧ CASBytes "acme" (en_db once_round.2) = Ok 0
  ∧ ("acme", KindCASBytes, "", d_hex (digest_of first_bytes "0123456789"), 0) ∈ map work (td_usage (en_db once_round.2))
  ∧ ("acme", KindCASBytesReleased, "", d_hex (digest_of first_bytes "0123456789"), 0) ∈ map work (td_usage (en_db once_round.2)).
Proof.
  split; [by vm_compute|]. split; [by vm_compute|]. split; refine (bool_decide_eq_true_1 _ _); by vm_compute.
Qed.

Lemma once_round_laid_out : laid_out first_bytes once_round.1.
Proof. rewrite once_round_empty. apply laid_out_empty. Qed.

Lemma ten_fit : 0 + len "0123456789" ≤ q_MaxCASBytes (mkQuota 4 5 10).
Proof. by vm_compute. Qed.

Lemma second_set : second ≠ zeroTime.
Proof. by vm_compute. Qed.

Lemma stored_again_for_free_witness :
  (∃ s', gate_Put false fs_store NoFault "acme" (mkReader ["0123456789"] None) second (once_round.1, once_round.2)
         = ((s', once_round.2), Ok (digest_of first_bytes "0123456789"))
         ∧ is_Some (cc_bytes (st:=fs_store) s' "acme" (d_hex (digest_of first_bytes "0123456789"))))
  ∧ CASBytes "acme" (en_db twenty.2) = Ok 10
  ∧ fs_Get "acme" (digest_of first_bytes "0123456789") twenty.1 = Ok "0123456789"
  ∧ fs_Get "acme" (digest_of first_bytes "abcdefghij") twenty.1 = Ok "abcdefghij".
Proof.
  split; [|by vm_compute]. destruct once_round_facts as (Hq & Hu & Hc & Hr).
  exact (stored_again_for_free fs_store first_bytes false "acme" "0123456789" second once_round.1 once_round.2 (mkQuota 4 5 10) 0
           once_round_laid_out ltac:(done) eq_refl second_set Hq Hu ten_fit Hc Hr).
Defined.

(** ** Provisioning *)

(** No two tenants share an account, so the account's index never refuses. *)
Lemma AccountName_inj a b : is_ok (Validate a) = true → is_ok (Validate b) = true → AccountName a = AccountName b → a = b.
Proof.
  unfold AccountName. destruct (Validate a); [|done]. destruct (Validate b); [|done]. intros _ _. apply string_app_inj_l.
Qed.

(** Tables [Provision] alone has written. *)
Definition accounts_wf (db : TenDB) : Prop :=
  ∀ id t, td_tenants db !! id = Some t → tn_ID t = id ∧ is_ok (Validate id) = true ∧ tn_NATSAccount t = AccountName id.

(** Provisioning again returns what the first call did and changes nothing,
    whatever was decided of the tenant's quota meanwhile. *)
Lemma Provision_again defaults defaults' id now now' db db1 t q at_ :
  accounts_wf db → Provision defaults id now db = (db1, Ok t) →
  let db2 := with_quotas db1 (<[id := (q, at_)]> (td_quotas db1)) in
  accounts_wf db1 ∧ Provision defaults' id now' db2 = (db2, Ok t) ∧ store_Quota id db2 = Ok q.
Proof.
  intros Hwf. unfold Provision. destruct (Validate id) as [[]|] eqn:Hv; [|done].
  set (new := mkTenant id id (AccountName id) now). intros HP.
  set (db2 := with_quotas db1 (<[id := (q, at_)]> (td_quotas db1))).
  assert (Hid : id ≠ "") by (by intros ->).
  assert (Hdb : ∃ db0, insert_tenant new db = db0 ∧ accounts_wf db0 ∧ td_tenants db0 !! id = Some t
                       ∧ td_tenants db1 = td_tenants db0).
  { eexists. split; [reflexivity|]. split.
    - unfold insert_tenant. case_decide; [done|]. intros id' t'. cbn [td_tenants]. intros [[<- <-]|[_ ?]]%lookup_insert_Some; [|by apply Hwf].
      simpl. by rewrite Hv.
    - unfold store_Tenant in HP. rewrite decide_False in HP by done.
      destruct (td_tenants (insert_tenant new db) !! id) as [t0|]; [|done].
      unfold mbind, prog_bind, ensureQuota in HP. rewrite decide_False in HP by done.
      destruct (td_quotas _ !! id) in HP; by injection HP as <- <-. }
  destruct Hdb as (db0 & _ & Hwf0 & Ht & Hten). assert (Ht1 : td_tenants db1 !! id = Some t) by congruence.
  split; [intros id' t' Hl; apply Hwf0; by rewrite <-Hten|]. unfold store_Quota. rewrite decide_False by done.
  assert (is_Some (td_tenants db2 !! id)) as Hs by (by exists t).
  unfold insert_tenant. rewrite decide_True by (by left). unfold store_Tenant. rewrite decide_False by done.
  cbn [with_quotas td_tenants td_quotas db2]. rewrite Ht1, lookup_insert_eq. split; [|done].
  unfold mbind, prog_bind, ensureQuota. rewrite decide_False by done. cbn [td_quotas with_quotas].
  assert (td_quotas db2 !! id = Some (q, at_)) as -> by apply lookup_insert_eq. done.
Qed.
