(* ===== verification/Collect.v ===== *)
(** * References and the collector: [gc.go] and [definitionfiles.go] of [internal/cas]

    Four tables of the run store's database and the store of bytes beside it.
    A transaction is the function on the tables its statements compose to; the
    bytes it deletes are outside it, so [Collect] keeps them apart: what it did
    to the store stays done whether or not its transaction commits. Rows come
    in the order they were written, where the statements ask for none. *)

From Stdlib Require Import Ascii.
From S2P Require Import Prelude Bytes Proto RunStore.
From S2P Require Import Cache Operations Definitions Blobs Tenancy.

(** ** The tables *)

(** A row of [blob_refs]: tenant, digest, run. *)
Definition Ref : Type := string * string * string.

Record GCDB : Type := mkGCDB
  { gc_refs : list Ref;
    gc_files : list (string * string * Z);
    gc_cache : Table;
    gc_revisions : gmap (string * string) RevRow;
    gc_runs : RunStore.DB }.

Definition with_refs (db : GCDB) (l : list Ref) : GCDB :=
  mkGCDB l (gc_files db) (gc_cache db) (gc_revisions db) (gc_runs db).
Definition with_files (db : GCDB) (l : list (string * string * Z)) : GCDB :=
  mkGCDB (gc_refs db) l (gc_cache db) (gc_revisions db) (gc_runs db).
Definition with_cache (db : GCDB) (t : Table) : GCDB :=
  mkGCDB (gc_refs db) (gc_files db) t (gc_revisions db) (gc_runs db).

Inductive GCErr : Type :=
| GCTenantRequired
| GCRunRequired
| GCMalformed (text : string)
| GCStore (e : CasErr)
| GCNotFound (text : string)
| GCDecode
| GCCommit
| GCCredit (e : TenErr).

(** ** Digests as text *)

Definition digestText (d : Digest) : result GCErr string :=
  if decide (d_algo d = "" ∨ d_hex d = "") then Err (GCMalformed (d_algo d +:+ ":" +:+ d_hex d))
  else Ok (d_algo d +:+ ":" +:+ d_hex d).

Definition colon : ascii := ascii_of_N 58.

(** [strings.Cut] at the first colon. *)
Definition cut_colon (text : string) : string * string * bool :=
  match split_on colon text with
  | [] => (text, "", false)
  | [algo] => (algo, "", false)
  | algo :: rest => (algo, join ":" rest, true)
  end.

Definition parseDigestText (text : string) : result GCErr Digest :=
  let '(algo, hex, ok) := cut_colon text in
  if (ok : bool) && bool_decide (algo ≠ "") && bool_decide (hex ≠ "") then Ok (mkDigest algo hex)
  else Err (GCMalformed text).

(** ** Stored definitions and cache entries *)

Definition definitionHashDomain : string := "dhole.v1.Pipeline" +:+ String (ascii_of_N 0) "".

Definition definitionBody (definition : string) : string := trim_prefix definitionHashDomain definition.

Section Collector.
Context (unmarshal : string → option Pipeline) (unmarshal_output : string → option OutputRef).

(** The digests of a row, as text; the malformed are passed over. *)
Definition texts (ds : list Digest) : list string :=
  omap (λ d, match digestText d with Ok t => Some t | Err _ => None end) ds.

(** [for range count]: each turn reads eight bytes at least. *)
Fixpoint entry_loop (fuel : nat) (count : Z) (rest : string) : list string :=
  if decide (count ≤ 0) then [] else
  match fuel with
  | O => []
  | S fuel =>
      match take_string 8 rest with
      | None => []
      | Some (head, rest) =>
          match take_string (Z.to_nat (uint64_of head)) rest with
          | None => []
          | Some (message, rest) =>
              match unmarshal_output message with
              | None => []
              | Some out => texts [out_digest out] ++ entry_loop fuel (count - 1) rest
              end
          end
      end
  end.

Definition entryDigests (encoded : string) : list string :=
  match take_string 8 encoded with
  | None => []
  | Some (head, rest) => entry_loop (S (String.length rest)) (uint64_of head) rest
  end.

(** What a revision carries: [None] where this build cannot read it. *)
Definition row_files (row : RevRow) : option (list string) :=
  match unmarshal (definitionBody (rr_definition row)) with
  | None => None
  | Some p => Some (texts (map file_digest (pl_files p)))
  end.

Definition tenant_rows {A} (tenantID : string) (m : gmap (string * string) A) : list A :=
  omap (λ kv : string * string * A, if decide (kv.1.1 = tenantID) then Some kv.2 else None) (map_to_list m).

Definition carriedDigests (tenantID : string) (db : GCDB) : result GCErr (list string) :=
  fold_result (λ acc row, match row_files row with None => Err GCDecode | Some l => Ok (acc ++ l) end) []
    (tenant_rows tenantID (gc_revisions db)).

(** ** Candidates *)

(** [expiredRuns]: the runs holding references whose last event is older than
    the window; a run without events is never among them. *)
Definition last_at (events : list Event) : option Z :=
  match events with
  | [] => None
  | e :: es => Some (foldl (λ last e, Z.max last (ev_At e)) (ev_At e) es)
  end.

Definition run_expired (tenantID : string) (cutoff : Z) (db : GCDB) (run : string) : bool :=
  match Replay tenantID run (gc_runs db) with
  | Err _ => false
  | Ok events => match last_at events with None => false | Some last => bool_decide (last < cutoff) end
  end.

Definition tenant_refs (tenantID : string) (db : GCDB) : list Ref := filter (λ r, r.1.1 = tenantID) (gc_refs db).

Definition expiredRuns (tenantID : string) (retain now : Z) (db : GCDB) : list string :=
  filter (run_expired tenantID (now - retain) db) (remove_dups (map snd (tenant_refs tenantID db))).

(** The candidates in the order they are met, and which of them something
    retains. *)
Abbreviation Candidates := (list string * gset string)%type.

Definition note_candidate (text : string) (retained : bool) (c : Candidates) : Candidates :=
  (if decide (text ∈ c.1) then c.1 else c.1 ++ [text], if retained then {[text]} ∪ c.2 else c.2).

Definition ref_candidates (tenantID : string) (expired : list string) (db : GCDB) : Candidates :=
  foldl (λ c (r : Ref), note_candidate r.1.2 (bool_decide (r.2 ∉ expired)) c) ([], ∅) (tenant_refs tenantID db).

(** An upload younger than the window is retained. *)
Definition definitionCandidates (tenantID : string) (cutoff : Z) (db : GCDB) (c : Candidates) : Candidates :=
  foldl (λ c (f : string * string * Z), note_candidate f.1.2 (negb (bool_decide (f.2 < cutoff))) c) c
    (filter (λ f : string * string * Z, f.1.1 = tenantID) (gc_files db)).

Definition unpinnedDigests (tenantID : string) (expired : list string) (cutoff : Z) (db : GCDB)
    : result GCErr (list string) :=
  let '(order, retained) := definitionCandidates tenantID cutoff db (ref_candidates tenantID expired db) in
  let collectable := filter (λ text, text ∉ retained) order in
  if decide (collectable = []) then Ok []
  else carried ← carriedDigests tenantID db; Ok (filter (λ text, text ∉ carried) collectable).

(** [dropCacheEntries] *)
Definition names_doomed (collectable : list string) (e : Entry) : bool :=
  existsb (λ text, bool_decide (text ∈ collectable)) (entryDigests (en_outputs e)).

Definition dropCacheEntries (tenantID : string) (collectable : list string) (db : GCDB) : GCDB :=
  if decide (collectable = []) then db
  else with_cache db (filter (λ kv, ¬ (kv.1.1 = tenantID ∧ names_doomed collectable kv.2 = true)) (gc_cache db)).

(** ** [Reference], the upload and [Collect] *)

Section WithStore.
Context {S : Type} (st : CasStore S).

Record GCWorld : Type := mkGCWorld { gw_db : GCDB; gw_store : S; gw_ledger : TenDB }.

(** One transaction: the check of the bytes and the insert. *)
Definition Reference (tenantID : string) (d : Digest) (runID : string) : prog GCWorld GCErr unit := λ w,
  if decide (tenantID = "") then (w, Err GCTenantRequired)
  else if decide (runID = "") then (w, Err GCRunRequired)
  else match digestText d with
       | Err e => (w, Err e)
       | Ok text =>
           match cas_Has tenantID d (gw_store w) with
           | Err e => (w, Err (GCStore e))
           | Ok false => (w, Err (GCNotFound text))
           | Ok true =>
               let row := (tenantID, text, runID) in
               if decide (row ∈ gc_refs (gw_db w)) then (w, Ok tt)
               else (mkGCWorld (with_refs (gw_db w) (gc_refs (gw_db w) ++ [row])) (gw_store w) (gw_ledger w), Ok tt)
           end
       end.

(** [DefinitionFiles.record]: the time is the last upload's. *)
Definition record_file (tenantID : string) (d : Digest) (now : Z) : prog GCWorld GCErr unit := λ w,
  if decide (tenantID = "") then (w, Err GCTenantRequired)
  else match digestText d with
       | Err e => (w, Err e)
       | Ok text =>
           let rows := gc_files (gw_db w) in
           let rows := if decide ((tenantID, text) ∈ map fst rows)
                       then map (λ f : string * string * Z, if decide (f.1 = (tenantID, text)) then (f.1, now) else f) rows
                       else rows ++ [(tenantID, text, now)] in
           (mkGCWorld (with_files (gw_db w) rows) (gw_store w) (gw_ledger w), Ok tt)
       end.

Definition put_bytes (f : Fault) (tenantID : string) (r : Reader) : prog GCWorld GCErr Digest := λ w,
  let '(s, res, _) := cas_Put f tenantID r (gw_store w) in
  (mkGCWorld (gw_db w) s (gw_ledger w), match res with Ok d => Ok d | Err e => Err (GCStore e) end).

Definition DefinitionFiles_Put (f : Fault) (tenantID : string) (r : Reader) (now : Z) : prog GCWorld GCErr Digest :=
  d ← put_bytes f tenantID r;
  _ ← record_file tenantID d now;
  mret d.

(** Step 3: the store after, what is reclaimed, what was removed here, and the
    error that stopped it. *)
Record Sweep : Type := mkSweep
  { sw_store : S; sw_reclaimed : list string; sw_collected : list Digest; sw_err : option GCErr }.

Fixpoint delete_blobs (fault : string → Fault) (tenantID : string) (collectable : list string) (s : S) : Sweep :=
  match collectable with
  | [] => mkSweep s [] [] None
  | text :: more =>
      match parseDigestText text with
      | Err e => mkSweep s [] [] (Some e)
      | Ok d =>
          match cas_Delete (fault text) tenantID d s with
          | (s, Err (CasNotFound _)) =>
              let w := delete_blobs fault tenantID more s in
              mkSweep (sw_store w) (text :: sw_reclaimed w) (sw_collected w) (sw_err w)
          | (s, Err e) => mkSweep s [] [] (Some (GCStore e))
          | (s, Ok _) =>
              let w := delete_blobs fault tenantID more s in
              mkSweep (sw_store w) (text :: sw_reclaimed w) (d :: sw_collected w) (sw_err w)
          end
      end
  end.

Definition drop_refs (tenantID : string) (expired : list string) (db : GCDB) : GCDB :=
  with_refs db (filter (λ r : Ref, ¬ (r.1.1 = tenantID ∧ r.2 ∈ expired)) (gc_refs db)).

Definition drop_files (tenantID : string) (reclaimed : list string) (db : GCDB) : GCDB :=
  with_files db (filter (λ f : string * string * Z, ¬ (f.1.1 = tenantID ∧ f.1.2 ∈ reclaimed)) (gc_files db)).

(** The credits, stopping at the first that fails. *)
Definition credit (tenantID : string) (now : Z) (ledger : TenDB) (ds : list Digest) : TenDB * result TenErr unit :=
  foldl (λ acc d, match acc with (l, Ok _) => Collected tenantID d now l | _ => acc end) (ledger, Ok tt) ds.

(** From the transaction on: [expired] was computed before it. *)
Definition collect_tx (fault : string → Fault) (commit : bool) (tenantID : string) (retain now credited : Z)
    (expired : list string) : GCWorld → GCWorld * (Z * option GCErr) := λ w,
  match unpinnedDigests tenantID expired (now - retain) (gw_db w) with
  | Err e => (w, (0, Some e))
  | Ok collectable =>
      let db := dropCacheEntries tenantID collectable (drop_refs tenantID expired (gw_db w)) in
      let sweep := delete_blobs fault tenantID collectable (gw_store w) in
      let freed := Z.of_nat (length (sw_collected sweep)) in
      if commit then
        let db := drop_files tenantID (sw_reclaimed sweep) db in
        match sw_err sweep with
        | Some e => (mkGCWorld db (sw_store sweep) (gw_ledger w), (freed, Some e))
        | None =>
            let '(ledger, r) := credit tenantID credited (gw_ledger w) (sw_collected sweep) in
            (mkGCWorld db (sw_store sweep) ledger, (freed, match r with Ok _ => None | Err e => Some (GCCredit e) end))
        end
      else (mkGCWorld (gw_db w) (sw_store sweep) (gw_ledger w), (freed, Some GCCommit))
  end.

Definition Collect (fault : string → Fault) (commit : bool) (tenantID : string) (retain now : Z) :
    GCWorld → GCWorld * (Z * option GCErr) := λ w,
  if decide (tenantID = "") then (w, (0, Some GCTenantRequired))
  else collect_tx fault commit tenantID retain now now (expiredRuns tenantID retain now (gw_db w)) w.

(** ** Planes storing, referencing and collecting at once, on SQLite

    Transactions hold the write lock, so they are steps. An upload stored and
    not yet recorded, and a collection between its first step and its
    transaction, are where other planes act in between. *)
Record GCPlanes : Type := mkGCPlanes
  { gp_world : GCWorld; gp_uploads : list (string * Digest); gp_planned : list (string * list string) }.

Definition at_db (w : GCWorld) (db : GCDB) : GCWorld := mkGCWorld db (gw_store w) (gw_ledger w).

(** [crashes]: whether a collection may stop between its deletions and its
    commit. *)
Inductive gc_step (crashes : bool) : GCPlanes → GCPlanes → Prop :=
| gx_put w us ps f tenant r w' res :
    put_bytes f tenant r w = (w', res) →
    gc_step crashes (mkGCPlanes w us ps) (mkGCPlanes w' us ps)
| gx_reference w us ps tenant d run w' res :
    Reference tenant d run w = (w', res) →
    gc_step crashes (mkGCPlanes w us ps) (mkGCPlanes w' us ps)
| gx_upload w us ps f tenant r w' d :
    put_bytes f tenant r w = (w', Ok d) →
    gc_step crashes (mkGCPlanes w us ps) (mkGCPlanes w' ((tenant, d) :: us) ps)
| gx_record w pre x post ps now w' res :
    record_file x.1 x.2 now w = (w', res) →
    gc_step crashes (mkGCPlanes w (pre ++ x :: post) ps) (mkGCPlanes w' (pre ++ post) ps)
| gx_plan w us ps tenant retain now :
    gc_step crashes (mkGCPlanes w us ps)
      (mkGCPlanes w us ((tenant, expiredRuns tenant retain now (gw_db w)) :: ps))
| gx_collect w us pre x post fault retain now credited w' res :
    collect_tx fault true x.1 retain now credited x.2 w = (w', res) →
    gc_step crashes (mkGCPlanes w us (pre ++ x :: post)) (mkGCPlanes w' us (pre ++ post))
| gx_crash w us pre x post fault retain now credited w' res :
    crashes = true → collect_tx fault false x.1 retain now credited x.2 w = (w', res) →
    gc_step crashes (mkGCPlanes w us (pre ++ x :: post)) (mkGCPlanes w' us (pre ++ post))
(** what the run store, the cache and the definition store write *)
| gx_others w us ps runs cache revisions :
    gc_step crashes (mkGCPlanes w us ps)
      (mkGCPlanes (at_db w (mkGCDB (gc_refs (gw_db w)) (gc_files (gw_db w)) cache revisions runs)) us ps).
End WithStore.
End Collector.
