(* ===== verification/CollectFacts.v ===== *)
(** * The collector deletes nothing pinned, and a reference always has its bytes *)

From Stdlib Require Import Ascii.
From S2P Require Import Prelude Bytes Proto RunStore.
From S2P Require Import Cache Operations Definitions Blobs BlobFacts Tenancy Collect.

(** ** Digests as text *)

Lemma digestText_ok d text : digestText d = Ok text → text = d_algo d +:+ ":" +:+ d_hex d.
Proof. unfold digestText. case_decide; [done|]. by intros [= <-]. Qed.

Lemma check_digest_text d : check_digest d = Ok tt → digestText d = Ok ("sha256:" +:+ d_hex d).
Proof.
  intros (Ha & Hl & _)%check_digest_spec. unfold digestText. rewrite Ha.
  rewrite decide_False; [done|]. intros [|He]; [done|]. by rewrite He in Hl.
Qed.

Lemma join_split text : join ":" (split_on colon text) = text.
Proof.
  induction text as [|c text IH]; [done|]. cbn [split_on]. pose proof (split_on_nonempty colon text) as Hn.
  destruct (Ascii.eqb_spec c colon) as [->|].
  - destruct (split_on colon text) as [|x l] eqn:E; [simpl in Hn; lia|].
    change (join ":" ("" :: x :: l)) with (String colon (join ":" (x :: l))). by rewrite IH.
  - destruct (split_on colon text) as [|x l] eqn:E; [simpl in Hn; lia|]. rewrite <-IH. by destruct l.
Qed.

(** What a stored text parses as is written as that text. *)
Lemma parse_then_text text d : parseDigestText text = Ok d → digestText d = Ok text.
Proof.
  unfold parseDigestText, cut_colon. pose proof (join_split text) as Hj.
  destruct (split_on colon text) as [|algo [|hex rest]]; try done.
  destruct (_ && _) eqn:Hb; [|done]. intros [= <-].
  rewrite !andb_true_iff, !bool_decide_eq_true in Hb. destruct Hb as [[_ Ha] Hh].
  unfold digestText. cbn [d_algo d_hex]. rewrite decide_False by tauto.
  f_equal. exact Hj.
Qed.

(** ** What a sweep of the store deletes *)

Section WithStore.
Context {S : Type} (st : CasStore S) (sha256 : string → string) `{!CasContract st sha256}.

Lemma delete_moves f t d s s' res t' h : cc_ok s → cas_Delete f t d s = (s', res) →
  cc_ok s' ∧ (cc_bytes s' t' h = cc_bytes s t' h ∨ (t' = t ∧ h = d_hex d ∧ check_digest d = Ok tt ∧ cc_bytes s' t' h = None)).
Proof.
  intros Hok Hd. destruct (cc_delete f t d s s' res Hok Hd) as (Hok' & Hfr & _ & _). split; [done|].
  destruct (Hfr t' h) as [?|(-> & -> & Hnone)]; [by left|].
  destruct (check_digest d) as [[]|e] eqn:Hc; [by right|]. left.
  destruct (cc_scope s t d ltac:(right; by rewrite Hc)) as (_ & _ & Hs). destruct (Hs f) as [Hs' _].
  rewrite Hd in Hs'. by simpl in Hs'; subst.
Qed.

Lemma delete_blobs_spec fault t l s : cc_ok s →
  let w := delete_blobs st fault t l s in
  cc_ok (sw_store w) ∧
  (∀ t' h, cc_bytes (sw_store w) t' h = cc_bytes s t' h ∨
           (t' = t ∧ ("sha256:" +:+ h) ∈ l ∧ check_digest (mkDigest algoSHA256 h) = Ok tt ∧ cc_bytes (sw_store w) t' h = None)).
Proof.
  revert s. induction l as [|text l IH]; intros s Hok; cbn [delete_blobs]; [split; [done|by left]|].
  destruct (parseDigestText text) as [d|e] eqn:Hp; [|split; [done|by left]].
  destruct (cas_Delete (fault text) t d s) as [s1 res] eqn:Hd.
  assert (Hstep : cc_ok s1 ∧ ∀ t' h, cc_bytes s1 t' h = cc_bytes s t' h ∨
     (t' = t ∧ ("sha256:" +:+ h) ∈ text :: l ∧ check_digest (mkDigest algoSHA256 h) = Ok tt ∧ cc_bytes s1 t' h = None)).
  { split; [by destruct (delete_moves _ _ _ _ _ _ t "" Hok Hd)|]. intros t' h.
    destruct (delete_moves _ _ _ _ _ _ t' h Hok Hd) as [_ [?|(-> & -> & Hc & Hn)]]; [by left|]. right.
    split; [done|]. split; [|split; [|done]].
    - apply parse_then_text in Hp. rewrite (check_digest_text d Hc) in Hp. injection Hp as <-. by left.
    - apply check_digest_spec in Hc as (Ha & Hrest). by apply check_digest_spec. }
  destruct Hstep as [Hok1 Hs1]. specialize (IH s1 Hok1). cbv zeta in IH. destruct IH as [Hok2 Hs2].
  assert (Hboth : ∀ t' h, cc_bytes (sw_store (delete_blobs st fault t l s1)) t' h = cc_bytes s t' h ∨
     (t' = t ∧ ("sha256:" +:+ h) ∈ text :: l ∧ check_digest (mkDigest algoSHA256 h) = Ok tt
      ∧ cc_bytes (sw_store (delete_blobs st fault t l s1)) t' h = None)).
  { intros t' h. destruct (Hs2 t' h) as [->|(-> & Hin & Hc & Hn)]; [apply Hs1|]. right. split; [done|]. split; [by right|done]. }
  destruct res as [[]|[]]; done.
Qed.

(** ** Candidates *)

Lemma note_candidate_spec text b c : 
  (∀ x, x ∈ (note_candidate text b c).1 ↔ x = text ∨ x ∈ c.1) ∧
  (∀ x, x ∈ (note_candidate text b c).2 ↔ (x = text ∧ b = true) ∨ x ∈ c.2).
Proof.
  unfold note_candidate. split; intros x.
  - cbn [fst]. case_decide; [|rewrite elem_of_app, list_elem_of_singleton]; naive_solver.
  - cbn [snd]. destruct b; [rewrite elem_of_union, elem_of_singleton|]; naive_solver.
Qed.

Lemma fold_candidates {A} (text : A → string) (b : A → bool) l c :
  let c' := foldl (λ c a, note_candidate (text a) (b a) c) c l in
  (∀ x, x ∈ c'.1 ↔ (∃ a, a ∈ l ∧ text a = x) ∨ x ∈ c.1) ∧
  (∀ x, x ∈ c'.2 ↔ (∃ a, a ∈ l ∧ text a = x ∧ b a = true) ∨ x ∈ c.2).
Proof.
  revert c. induction l as [|a l IH]; intros c; cbn [foldl].
  { split; intros x; split; [by right|intros [(? & ?%elem_of_nil & _)|]; done|by right|intros [(? & ?%elem_of_nil & _)|]; done]. }
  destruct (IH (note_candidate (text a) (b a) c)) as [H1 H2]. destruct (note_candidate_spec (text a) (b a) c) as [N1 N2].
  split; intros x; [rewrite H1, N1|rewrite H2, N2]; split.
  - intros [(a' & ? & ?)|[->|?]]; [left; exists a'; split; [by right|done]|left; exists a; split; [by left|done]|by right].
  - intros [(a' & [->|?]%elem_of_cons & ?)|?]; [right; by left|left; by exists a'|by right; right].
  - intros [(a' & ? & ?)|[[-> ?]|?]]; [left; exists a'; split; [by right|done]|left; exists a; split; [by left|done]|by right].
  - intros [(a' & [->|?]%elem_of_cons & ? & ?)|?]; [right; left; done|left; by exists a'|by right; right].
Qed.

Section Decoded.
Context (unmarshal : string → option Pipeline) (unmarshal_output : string → option OutputRef).

Lemma elem_of_tenant_rows {A} (t : string) (m : gmap (string * string) A) id x : m !! (t, id) = Some x → x ∈ tenant_rows t m.
Proof.
  intros Hm. unfold tenant_rows. apply list_elem_of_omap. exists ((t, id), x).
  split; [by apply elem_of_map_to_list|]. cbn [fst]. by rewrite decide_True.
Qed.

Lemma carriedDigests_spec t db carried id row : carriedDigests unmarshal t db = Ok carried →
  gc_revisions db !! (t, id) = Some row → ∃ l, row_files unmarshal row = Some l ∧ ∀ x, x ∈ l → x ∈ carried.
Proof.
  intros Hc Hrow%elem_of_tenant_rows. unfold carriedDigests in Hc.
  refine (fold_result_inv (λ pre acc, row ∈ pre → ∃ l, row_files unmarshal row = Some l ∧ ∀ x, x ∈ l → x ∈ acc)
            _ _ _ _ _ _ Hc Hrow); [by intros ?%elem_of_nil|].
  intros pre y acc acc' IH Hy Hin. destruct (row_files unmarshal y) as [l|] eqn:E; [|done]. injection Hy as <-.
  apply elem_of_app in Hin as [Hin| ->%list_elem_of_singleton].
  - destruct (IH Hin) as (l' & ? & Hl'). exists l'. split; [done|]. intros x Hx. apply elem_of_app. left. auto.
  - exists l. split; [done|]. intros x Hx. apply elem_of_app. by right.
Qed.

(** What nothing pins. *)
Record unpinned (t : string) (expired : list string) (cutoff : Z) (db : GCDB) (text : string) : Prop := mkUnpinned
  { up_known : (∃ run, (t, text, run) ∈ gc_refs db) ∨ (∃ at_, (t, text, at_) ∈ gc_files db);
    up_runs : ∀ run, (t, text, run) ∈ gc_refs db → run ∈ expired;
    up_upload : ∀ at_, (t, text, at_) ∈ gc_files db → at_ < cutoff;
    up_revisions : ∀ id row, gc_revisions db !! (t, id) = Some row →
      ∃ l, row_files unmarshal row = Some l ∧ text ∉ l }.

Lemma unpinnedDigests_spec t expired cutoff db l text : unpinnedDigests unmarshal t expired cutoff db = Ok l →
  text ∈ l → unpinned t expired cutoff db text.
Proof.
  unfold unpinnedDigests, definitionCandidates, ref_candidates.
  pose proof (fold_candidates (λ r : Ref, r.1.2) (λ r : Ref, bool_decide (r.2 ∉ expired)) (tenant_refs t db) ([], ∅)) as [R1 R2].
  set (c1 := foldl _ ([], ∅) _) in *.
  pose proof (fold_candidates (λ f : string * string * Z, f.1.2) (λ f : string * string * Z, negb (bool_decide (f.2 < cutoff)))
                (filter (λ f : string * string * Z, f.1.1 = t) (gc_files db)) c1) as [F1 F2].
  set (c2 := foldl _ c1 _) in *. destruct c2 as [order retained]. cbn [fst snd] in F1, F2.
  case_decide; [intros [= <-] Hin; by apply elem_of_nil in Hin|].
  destruct (carriedDigests unmarshal t db) as [carried|] eqn:Hc; cbn [mbind result_bind]; [|done].
  intros [= <-] [Hnc [Hnr Hord]%list_elem_of_filter]%list_elem_of_filter. split.
  - apply F1 in Hord as [([[t' x] at_] & [Ht Hin]%list_elem_of_filter & Hx)|Hord]; [cbn in *; subst; right; by exists at_|].
    apply R1 in Hord as [([[t' x] run] & [Ht Hin]%list_elem_of_filter & Hx)|Hn]; [cbn in *; subst; left; by exists run|].
    by apply elem_of_nil in Hn.
  - intros run Hr. destruct (decide (run ∈ expired)) as [|Hne]; [done|]. destruct Hnr. apply F2. right. apply R2. left.
    exists (t, text, run). split; [by apply list_elem_of_filter|]. split; [done|]. by apply bool_decide_eq_true.
  - intros at_ Hf. destruct (decide (at_ < cutoff)) as [|Hge]; [done|]. destruct Hnr. apply F2. left.
    exists (t, text, at_). split; [by apply list_elem_of_filter|]. split; [done|]. by rewrite bool_decide_eq_false_2.
  - intros id row Hrow. destruct (carriedDigests_spec t db carried id row Hc Hrow) as (fs & ? & Hfs).
    exists fs. split; [done|]. auto.
Qed.

(** A run [expiredRuns] names has events, and the last is older than the window. *)
Lemma last_at_spec events last : last_at events = Some last → ∀ e, e ∈ events → ev_At e ≤ last.
Proof.
  destruct events as [|e0 es]; [done|]. cbn [last_at]. intros [= <-].
  assert (Hmono : ∀ l a, a ≤ foldl (λ last e, Z.max last (ev_At e)) a l ∧
     ∀ e, e ∈ l → ev_At e ≤ foldl (λ last e, Z.max last (ev_At e)) a l).
  { induction l as [|x l IH]; intros a; cbn [foldl]; [split; [done|by intros e ?%elem_of_nil]|].
    destruct (IH (Z.max a (ev_At x))) as [H1 H2]. split; [lia|]. intros e [->|He]%elem_of_cons; [lia|auto]. }
  destruct (Hmono es (ev_At e0)) as [H1 H2]. intros e [->|He]%elem_of_cons; auto.
Qed.

Lemma expiredRuns_spec t retain now db run : run ∈ expiredRuns t retain now db →
  ∃ events, Replay t run (gc_runs db) = Ok events ∧ events ≠ [] ∧ ∀ e, e ∈ events → ev_At e < now - retain.
Proof.
  intros [Hr _]%list_elem_of_filter. unfold run_expired in Hr.
  destruct (Replay t run (gc_runs db)) as [events|]; [|done]. exists events. split; [done|].
  destruct (last_at events) as [last|] eqn:Hl; [|done]. apply Is_true_true, bool_decide_eq_true in Hr.
  split; [by intros ->|]. intros e He. pose proof (last_at_spec events last Hl e He). lia.
Qed.
End Decoded.

(** ** One collection *)

Section Collections.
Context (unmarshal : string → option Pipeline) (unmarshal_output : string → option OutputRef).

Abbreviation collect := (collect_tx unmarshal unmarshal_output st).

(** Every way a collection ends. *)
Lemma collect_cases fault commit t retain now credited expired w w' res :
  collect fault commit t retain now credited expired w = (w', res) →
  w' = w ∨ ∃ l, unpinnedDigests unmarshal t expired (now - retain) (gw_db w) = Ok l ∧
    let sweep := delete_blobs st fault t l (gw_store w) in
    gw_store w' = sw_store sweep ∧
    gw_db w' = if commit then drop_files t (sw_reclaimed sweep)
                               (dropCacheEntries unmarshal_output t l (drop_refs t expired (gw_db w)))
               else gw_db w.
Proof.
  unfold collect_tx. destruct (unpinnedDigests _ t expired (now - retain) (gw_db w)) as [l|]; [|intros [= <- _]; by left].
  intros Hc. right. exists l. split; [done|]. cbv zeta. destruct commit; [|by injection Hc as <- _].
  destruct (sw_err _); [by injection Hc as <- _|]. destruct (credit _ _ _ _). by injection Hc as <- _.
Qed.

Lemma dropCacheEntries_spec t l db key e : gc_cache (dropCacheEntries unmarshal_output t l db) !! (t, key) = Some e →
  ∀ text, text ∈ entryDigests unmarshal_output (en_outputs e) → text ∉ l.
Proof.
  unfold dropCacheEntries. case_decide as Hl; [subst; intros _ text _ ?%elem_of_nil; done|].
  cbn [with_cache gc_cache]. intros [_ Hk]%map_lookup_filter_Some text Ht Hin. apply Hk. split; [done|].
  unfold names_doomed. apply existsb_exists. exists text. split; [by apply list_elem_of_In|by apply bool_decide_eq_true].
Qed.

Lemma dropCacheEntries_refs t l db : gc_refs (dropCacheEntries unmarshal_output t l db) = gc_refs db.
Proof. unfold dropCacheEntries. by case_decide. Qed.

(** the collector deletes only what nothing pins. A blob that a collection
    removes belongs to its tenant and was recorded as stored on purpose; every
    run that referenced it had recorded something, all of it older than the
    window, when the runs were classified; no revision of the tenant carries
    it; and if it was uploaded with a definition, that was longer ago than the
    window. Once the collection has committed no entry of the cache names it. *)
Theorem collected_was_unpinned fault commit t retain db1 now1 now credited w w' res t' h :
  cc_ok (gw_store w) →
  collect fault commit t retain now credited (expiredRuns t retain now1 db1) w = (w', res) →
  is_Some (cc_bytes (gw_store w) t' h) → cc_bytes (gw_store w') t' h = None →
  let text := "sha256:" +:+ h in
  t' = t
  ∧ ((∃ run, (t, text, run) ∈ gc_refs (gw_db w)) ∨ (∃ at_, (t, text, at_) ∈ gc_files (gw_db w)))
  ∧ (∀ run, (t, text, run) ∈ gc_refs (gw_db w) →
       ∃ events, Replay t run (gc_runs db1) = Ok events ∧ events ≠ [] ∧ ∀ e, e ∈ events → ev_At e < now1 - retain)
  ∧ (∀ id row, gc_revisions (gw_db w) !! (t, id) = Some row → ∃ l, row_files unmarshal row = Some l ∧ text ∉ l)
  ∧ (∀ at_, (t, text, at_) ∈ gc_files (gw_db w) → at_ < now - retain)
  ∧ (commit = true → ∀ key e, gc_cache (gw_db w') !! (t, key) = Some e →
       text ∉ entryDigests unmarshal_output (en_outputs e)).
Proof.
  intros Hok Hc [b Hb] Hn text. destruct (collect_cases _ _ _ _ _ _ _ _ _ _ Hc) as [->|(l & Hl & Hs & Hdb)]; [congruence|].
  destruct (delete_blobs_spec fault t l (gw_store w) Hok) as [_ Hdel]. cbv zeta in Hs, Hdb. rewrite Hs in Hn.
  destruct (Hdel t' h) as [He|(-> & Hin & _ & _)]; [congruence|]. fold text in Hin.
  destruct (unpinnedDigests_spec unmarshal t _ _ _ l text Hl Hin) as [Hk Hr Hu Hrev].
  split; [done|]. split; [done|]. split; [intros run Hrun; by apply (expiredRuns_spec t retain now1 db1), Hr|].
  split; [exact Hrev|]. split; [exact Hu|]. intros -> key e He Hte.
  rewrite Hdb in He. unfold drop_files, with_files in He. cbn [gc_cache] in He.
  by eapply dropCacheEntries_spec.
Qed.

(** ** References under planes at work *)

(** Every reference's bytes are in the store. *)
Definition backed (p : GCPlanes) : Prop :=
  cc_ok (gw_store (gp_world p)) ∧
  ∀ t text run, (t, text, run) ∈ gc_refs (gw_db (gp_world p)) →
    ∃ d, named t d ∧ digestText d = Ok text ∧ is_Some (cc_bytes (gw_store (gp_world p)) t (d_hex d)).

Lemma put_backed w us ps us' f t r w' res : backed (mkGCPlanes w us ps) → put_bytes st f t r w = (w', res) →
  backed (mkGCPlanes w' us' ps).
Proof.
  intros [Hok Hb] Hp. unfold put_bytes in Hp. cbn [gp_world] in *.
  destruct (cas_Put f t r (gw_store w)) as [[s' r'] n] eqn:E. injection Hp as <- _.
  destruct (cc_put _ _ _ _ _ _ _ Hok E) as (Hok' & Hfr & _). split; [exact Hok'|]. cbn [gw_db gw_store gp_world].
  intros t' text run Hin. destruct (Hb t' text run Hin) as (d & Hn & Hd & Hs). exists d. do 2 (split; [done|]).
  destruct (Hfr t' (d_hex d)) as [->|(_ & _ & _ & -> & _)]; done.
Qed.

Lemma reference_backed w us ps t d run w' res : backed (mkGCPlanes w us ps) → Reference st t d run w = (w', res) →
  backed (mkGCPlanes w' us ps).
Proof.
  intros [Hok Hb] Hr. unfold Reference in Hr. cbn [gp_world] in *.
  destruct (decide (t = "")); [by injection Hr as <- _|]. destruct (decide (run = "")); [by injection Hr as <- _|].
  destruct (digestText d) as [text|] eqn:Hd; [|by injection Hr as <- _].
  destruct (cas_Has t d (gw_store w)) as [[]|] eqn:Hh; [|by injection Hr as <- _..].
  destruct (decide (_ ∈ _)); [by injection Hr as <- _|]. injection Hr as <- _. split; [exact Hok|].
  cbn [gp_world gw_db gw_store with_refs gc_refs]. intros t' text' run' [Hin|Hin]%elem_of_app; [by apply (Hb t' text' run')|].
  apply list_elem_of_singleton in Hin. injection Hin as -> -> ->. exists d.
  assert (Hn : named t d).
  { destruct (decide (named t d)) as [|Hn]; [done|].
    assert (Hbad : bad_tenant t = true ∨ check_digest d ≠ Ok tt).
    { unfold named in Hn. destruct (bad_tenant t); [by left|right]. intros ?. by apply Hn. }
    destruct (cc_scope (gw_store w) t d Hbad) as (_ & Hs & _). by rewrite Hh in Hs. }
  do 2 (split; [done|]). destruct Hn as [Hn1 Hn2]. rewrite (cc_has _ _ _ Hok Hn1 Hn2) in Hh.
  injection Hh as Hh. by apply bool_decide_eq_true in Hh.
Qed.

Lemma collect_backed w us ps ps' fault t retain now credited expired w' res :
  backed (mkGCPlanes w us ps) → collect fault true t retain now credited expired w = (w', res) →
  backed (mkGCPlanes w' us ps').
Proof.
  intros [Hok Hb] Hc. destruct (collect_cases _ _ _ _ _ _ _ _ _ _ Hc) as [->|(l & Hl & Hs & Hdb)]; [done|].
  destruct (delete_blobs_spec fault t l (gw_store w) Hok) as [Hok' Hdel]. cbv zeta in Hs, Hdb.
  unfold backed. cbn [gp_world] in *. rewrite Hs. split; [exact Hok'|]. rewrite Hdb.
  unfold drop_files. cbn [with_files gc_refs]. rewrite dropCacheEntries_refs. unfold drop_refs. cbn [with_refs gc_refs].
  intros t' text run [Hkeep Hin]%list_elem_of_filter. destruct (Hb t' text run Hin) as (d & Hn & Hd & Hsome).
  exists d. do 2 (split; [done|]). destruct (Hdel t' (d_hex d)) as [->|(-> & Htext & _ & _)]; [done|]. exfalso.
  rewrite (check_digest_text d) in Hd by apply Hn.
  assert ("sha256:" +:+ d_hex d = text) as Ht by (by injection Hd). rewrite Ht in Htext.
  apply Hkeep. split; [done|]. by apply (up_runs _ _ _ _ _ _ (unpinnedDigests_spec unmarshal t _ _ _ l text Hl Htext)).
Qed.

Lemma backed_step p p' : backed p → gc_step unmarshal unmarshal_output st false p p' → backed p'.
Proof.
  intros Hb Hs. destruct Hs as [w us ps f t r w' res Hp|w us ps t d run w' res Hr|w us ps f t r w' d Hp
    |w pre x post ps now w' res Hr|w us ps t retain now|w us pre x post fault retain now credited w' res Hc
    |w us pre x post fault retain now credited w' res Hno|w us ps runs cache revisions].
  - by eapply put_backed.
  - by eapply reference_backed.
  - by eapply put_backed.
  - unfold record_file in Hr. destruct (decide (x.1 = "")); [by injection Hr as <- _|].
    destruct (digestText x.2); [|by injection Hr as <- _]. by injection Hr as <- _.
  - exact Hb.
  - by eapply collect_backed.
  - done.
  - exact Hb.
Qed.

(** a reference always has its bytes. However many planes store, upload,
    reference and collect at once, with runs, definitions and cache entries
    appearing meanwhile and deletions failing anywhere, the bytes of every
    reference are in the store, as long as no collection stops between its
    deletions and its commit. *)
Theorem references_are_backed p p' t text run :
  backed p → rtc (gc_step unmarshal unmarshal_output st false) p p' → (t, text, run) ∈ gc_refs (gw_db (gp_world p')) →
  ∃ d bytes, digestText d = Ok text ∧ cas_Get t d (gw_store (gp_world p')) = Ok bytes.
Proof.
  intros Hb Hr Hin. apply (rtc_invariant _ backed) in Hr; [|intros; by eapply backed_step|done].
  destruct Hr as [Hok Hr]. destruct (Hr t text run Hin) as (d & [Hn1 Hn2] & Hd & [b Hs]).
  exists d, b. split; [done|]. by rewrite (cc_get _ _ _ Hok Hn1 Hn2), Hs.
Qed.
End Collections.
End WithStore.

(** ** Evaluated *)

Definition no_files (_ : string) : option Pipeline := Some (mkPipeline "build" [] [] []).
Definition output_of_hex (s : string) : option OutputRef := Some (mkOutputRef "out" (mkDigest algoSHA256 s) "" 0 "").

Abbreviation dir_store := (NewFilesystem first_bytes).
#[local] Instance dir_contract : CasContract dir_store first_bytes := NewFilesystem_contract first_bytes first_bytes_size.

Definition ten : string := "0123456789".
Definition ten_digest : Digest := digest_of first_bytes ten.
Definition ten_text : string := "sha256:" +:+ d_hex ten_digest.

(** One nanosecond a unit: the run's last event is at 1, the window 10. *)
Definition old_run : RunStore.DB := mkDB [("acme", mkEvent "old" "build" 1 1 StepSucceeded "" 1)] ∅ ∅.

(** The cache's entry of the run's output, its bytes charged. *)
Definition old_cache : Table := {[("acme", "sha256:key") := mkEntry (be64 1 +:+ frame (d_hex ten_digest)) ""]}.
Definition old_ledger : TenDB :=
  mkTenDB ∅ ∅ [("acme", mkUsage KindCASBytes "" (d_hex ten_digest) 0 10 true 1)].

Definition old_world : GCWorld (S:=Files) :=
  mkGCWorld (mkGCDB [("acme", ten_text, "old")] [] old_cache ∅ old_run)
    (fs_Put first_bytes NoFault "acme" (mkReader [ten] None) ∅).1.1 old_ledger.

Lemma old_store_ok : cc_ok (st:=dir_store) (gw_store old_world).
Proof.
  destruct (fs_Put first_bytes NoFault "acme" (mkReader [ten] None) ∅) as [[fs res] n] eqn:E.
  pose proof (fs_put_ok first_bytes _ _ _ _ _ _ _ (laid_out_empty first_bytes) E) as (Hfs & _).
  apply (laid_out_grows first_bytes first_bytes_size) in Hfs as [Hl _]; [|apply laid_out_empty].
  change (laid_out first_bytes (fs_Put first_bytes NoFault "acme" (mkReader [ten] None) ∅).1.1). by rewrite E.
Qed.

Abbreviation sweep_at fault commit expired now :=
  (collect_tx no_files output_of_hex dir_store fault commit "acme" 10 now now expired).
Abbreviation works := (λ _ : string, NoFault).

Definition swept : GCWorld (S:=Files) := (sweep_at works true (expiredRuns "acme" 10 100 (gw_db old_world)) 100 old_world).1.

Lemma swept_frees : (sweep_at works true (expiredRuns "acme" 10 100 (gw_db old_world)) 100 old_world).2 = (1, None).
Proof. by vm_compute. Qed.

Lemma swept_bytes : is_Some (stored (gw_store old_world) "acme" (d_hex ten_digest)) ∧ stored (gw_store swept) "acme" (d_hex ten_digest) = None.
Proof. split; [exists ten|]; by vm_compute. Qed.

Lemma collected_was_unpinned_witness :
  (∀ run, ("acme", ten_text, run) ∈ gc_refs (gw_db old_world) →
     ∃ events, Replay "acme" run (gc_runs (gw_db old_world)) = Ok events ∧ events ≠ [] ∧ ∀ e, e ∈ events → ev_At e < 100 - 10)
  ∧ CASBytes "acme" (gw_ledger swept) = Ok 0.
Proof.
  split; [|by vm_compute].
  exact (proj1 (proj2 (proj2
    (collected_was_unpinned dir_store first_bytes no_files output_of_hex works true "acme" 10 (gw_db old_world) 100 100 100
       old_world swept (sweep_at works true (expiredRuns "acme" 10 100 (gw_db old_world)) 100 old_world).2 "acme" (d_hex ten_digest)
       old_store_ok (surjective_pairing _) (proj1 swept_bytes) (proj2 swept_bytes))))).
Defined.

(** Two collections and an upload meet. *)
Definition old_planes : GCPlanes (S:=Files) := mkGCPlanes old_world [] [].
Definition swept_planes : GCPlanes (S:=Files) := mkGCPlanes swept [] [].
Definition referenced : GCWorld (S:=Files) :=
  (Reference dir_store "acme" (digest_of first_bytes "new") "live" (put_bytes dir_store NoFault "acme" (mkReader ["new"] None) swept).1).1.

Lemma old_backed : backed dir_store first_bytes old_planes.
Proof.
  split; [exact old_store_ok|]. intros t text run Hin. cbn [old_planes gp_world gw_db old_world gc_refs] in Hin.
  apply list_elem_of_singleton in Hin. injection Hin as -> -> ->.
  exists ten_digest. split; [split; [done|apply digest_checked, first_bytes_size]|].
  split; [apply check_digest_text, digest_checked, first_bytes_size|]. apply swept_bytes.
Qed.

Lemma swept_reached : rtc (gc_step no_files output_of_hex dir_store false) old_planes (mkGCPlanes referenced [] []).
Proof.
  eapply rtc_l; [apply (gx_plan no_files output_of_hex dir_store false old_world [] [] "acme" 10 100)|].
  eapply rtc_l; [apply (gx_collect no_files output_of_hex dir_store false old_world [] [] ("acme", _) [] works 10 100 100 swept _ (surjective_pairing _))|].
  eapply rtc_l; [apply (gx_put no_files output_of_hex dir_store false swept [] [] NoFault "acme" (mkReader ["new"] None) _ _ (surjective_pairing _))|].
  eapply rtc_l; [apply (gx_reference no_files output_of_hex dir_store false _ [] [] "acme" (digest_of first_bytes "new") "live" referenced _ (surjective_pairing _))|].
  apply rtc_refl.
Qed.

Lemma new_referenced : ("acme", "sha256:" +:+ d_hex (digest_of first_bytes "new"), "live") ∈ gc_refs (gw_db referenced).
Proof. refine (bool_decide_eq_true_1 _ _). by vm_compute. Qed.

Lemma references_are_backed_witness :
  ∃ d bytes, digestText d = Ok ("sha256:" +:+ d_hex (digest_of first_bytes "new"))
    ∧ @cas_Get _ dir_store "acme" d (gw_store referenced) = Ok bytes.
Proof.
  exact (references_are_backed dir_store first_bytes no_files output_of_hex old_planes (mkGCPlanes referenced [] [])
           "acme" ("sha256:" +:+ d_hex (digest_of first_bytes "new")) "live" old_backed swept_reached new_referenced).
Defined.

(** ** What the code does not keep *)

(** The deletions of step 3 come before the commit, so a plane that stops, or
    a database that fails, between the two. *)
Definition crashed : GCWorld (S:=Files) := (sweep_at works false ["old"] 100 old_world).1.
Definition after_crash : GCWorld (S:=Files) := (sweep_at works true ["old"] 200 crashed).1.

(** a collection that stops between its deletions and its commit leaves
    what its comment rules out: the run's reference and the cache's entry
    survive the bytes, and a lookup hits with an output nobody can read. The
    next collection clears the rows and counts nothing freed, and the tenant
    stays charged for the bytes: only deletions of its own are credited. *)
Theorem interrupted_collection_strands :
  ("acme", ten_text, "old") ∈ gc_refs (gw_db crashed)
  ∧ Lookup output_of_hex "acme" (mkDigest "sha256" "key") (gc_cache (gw_db crashed))
    = Ok (Some [mkOutputRef "out" ten_digest "" 0 ""])
  ∧ @cas_Get _ dir_store "acme" ten_digest (gw_store crashed) = Err (CasNotFound ten_digest)
  ∧ (sweep_at works true ["old"] 200 crashed).2 = (0, None)
  ∧ gc_refs (gw_db after_crash) = []
  ∧ CASBytes "acme" (gw_ledger after_crash) = Ok 10.
Proof. split; [refine (bool_decide_eq_true_1 _ _); by vm_compute|]. by vm_compute. Qed.

(** A deletion that fails commits the rest: the reference is gone, the bytes
    are not, and no later collection looks at them. The comment beside
    [definition_blobs] calls that the defect the table was added to close. *)
Definition half_swept : GCWorld (S:=Files) := (sweep_at (λ _, FaultBefore "read-only file system") true ["old"] 100 old_world).1.

Lemma failed_deletion_leaks :
  gc_refs (gw_db half_swept) = []
  ∧ @cas_Get _ dir_store "acme" ten_digest (gw_store half_swept) = Ok ten
  ∧ (∀ expired, unpinnedDigests no_files "acme" expired 190 (gw_db half_swept) = Ok [])
  ∧ CASBytes "acme" (gw_ledger half_swept) = Ok 10.
Proof. split; [by vm_compute|]. split; [by vm_compute|]. split; [|by vm_compute]. intros expired. by vm_compute. Qed.

(** A run classified as expired that does more before the transaction loses
    what it has just stored: the transaction drops every reference of the run,
    not those it had. *)
Definition revived : GCWorld (S:=Files) :=
  let w := at_db old_world (mkGCDB (gc_refs (gw_db old_world)) [] old_cache ∅
             (mkDB (run_events old_run ++ [("acme", mkEvent "old" "test" 1 2 StepSucceeded "" 100)]) ∅ ∅)) in
  (Reference dir_store "acme" (digest_of first_bytes "new") "old" (put_bytes dir_store NoFault "acme" (mkReader ["new"] None) w).1).1.

Lemma revived_run_loses_its_output :
  expiredRuns "acme" 10 100 (gw_db old_world) = ["old"]
  ∧ expiredRuns "acme" 10 100 (gw_db revived) = []
  ∧ @cas_Get _ dir_store "acme" (digest_of first_bytes "new") (gw_store revived) = Ok "new"
  ∧ is_ok (@cas_Get _ dir_store "acme" (digest_of first_bytes "new") (gw_store (sweep_at works true ["old"] 100 revived).1)) = false.
Proof. by vm_compute. Qed.

(** An upload of bytes that are already there races the collection that
    removes them: the upload is answered, its row is written, and the bytes
    are gone. *)
Definition stale_upload : GCWorld (S:=Files) :=
  mkGCWorld (mkGCDB [] [("acme", ten_text, 1)] ∅ ∅ old_run) (gw_store old_world) old_ledger.

Lemma upload_races_collection :
  let '(w1, answer) := put_bytes dir_store NoFault "acme" (mkReader [ten] None) stale_upload in
  let w2 := (sweep_at works true [] 100 w1).1 in
  let '(w3, recorded) := record_file "acme" ten_digest 101 w2 in
  answer = Ok ten_digest ∧ recorded = Ok tt
  ∧ gc_files (gw_db w3) = [("acme", ten_text, 101)]
  ∧ is_ok (@cas_Get _ dir_store "acme" ten_digest (gw_store w3)) = false.
Proof. by vm_compute. Qed.
