(* ===== verification/Engine.v ===== *)
(** * The engine: [internal/engine]

    The agent that runs steps. What it advertises and which queues that binds
    ([advertisedCapabilities], [satisfiableCapsHashes], [workQueues]); the
    jobs it declares on its heartbeats and may be told to stop ([registry],
    [running]); how many dispatches it holds ([room]) while its pumps fetch
    them ([pump_step]); what it does with one ([handle], [run_job],
    [execute]); and the two copies of a step's output ([logSink]). The
    sandbox, the stores and the bus are calls ([eop]); protobuf is a
    parameter. Telemetry and log lines are left out. *)

From S2P Require Import Prelude Bytes Effects Program Proto Fleet Registry RunStore Lease Sched Blobs Plane Control.

(** ** Configuration *)

(** [Config]: what of it decides anything. [cfg_Secrets]: the agent holds a
    redeemer. [cfg_Identity] is [Executor.EnvironmentIdentity()]. *)
Inductive identity_err : Type := ErrNoStableIdentity | IdentityOther (e : GoErr).

Record Config : Type := mkConfig
  { cfg_EngineID : string; cfg_Tier : string; cfg_Bus : bool; cfg_Executor : bool; cfg_Blobs : bool;
    cfg_CAS : bool; cfg_Slots : Z; cfg_Secrets : bool; cfg_Kind : string;
    cfg_Capabilities : list Capability; cfg_Identity : result identity_err string }.

Definition with_slots (n : Z) (c : Config) : Config :=
  mkConfig (cfg_EngineID c) (cfg_Tier c) (cfg_Bus c) (cfg_Executor c) (cfg_Blobs c) (cfg_CAS c) n
    (cfg_Secrets c) (cfg_Kind c) (cfg_Capabilities c) (cfg_Identity c).

(** Bytes suffice: every byte of a multi-byte rune is above the ASCII ones
    refused here. *)
Definition bad_kind_char (c : Ascii.ascii) : bool :=
  let z := byte_val c in
  bool_decide (z = 46 ∨ z = 42 ∨ z = 62 ∨ z ≤ 32 ∨ z = 127).

Definition validKindToken (kind : string) : bool := string_all (λ c, negb (bad_kind_char c)) kind.

(** [executor.LeaseScope]. *)
Inductive LeaseScope : Type := LeaseStep | LeaseJob | LeasePipeline | LeasePool | LeaseService.

Definition leaseScopeFrom (s : LeaseScopeP) : LeaseScope :=
  match s with
  | LEASE_SCOPE_JOB => LeaseJob
  | LEASE_SCOPE_PIPELINE => LeasePipeline
  | LEASE_SCOPE_POOL => LeasePool
  | LEASE_SCOPE_SERVICE => LeaseService
  | _ => LeaseStep
  end.

(** ** [registry_client.go]: what it advertises *)

Definition advertisedCapabilities (c : Config) : list Capability :=
  normaliseCaps (cfg_Capabilities c ++ if cfg_Secrets c then [CAPABILITY_SECRETS] else []).

Definition maxAdvertisedCaps : nat := 8.

(** The members of [granted] whose bit is set in [mask]. *)
Fixpoint masked (mask : Z) (i : Z) (granted : list Capability) : list Capability :=
  match granted with
  | [] => []
  | c :: granted => (if Z.testbit mask i then [c] else []) ++ masked mask (i + 1) granted
  end.

Definition protocolVersions : list Z :=
  let oldest := if decide (SupportedWindow < ProtocolVersion) then ProtocolVersion - SupportedWindow else 1 in
  map (λ k, oldest + Z.of_nat k) (seq 0 (Z.to_nat (ProtocolVersion - oldest + 1))).

Section Advertise.
Context (sha256 : string → string).

Definition satisfiableCapsHashes (caps : list Capability) : result nat (list string) :=
  let granted := normaliseCaps caps in
  if decide (maxAdvertisedCaps < length granted)%nat then Err (length granted)
  else Ok (map (λ mask, CapsHash sha256 (masked (Z.of_nat mask) 0 granted)) (seq 0 (2 ^ length granted))).

(** [workQueue]: the consumer and its subject. *)
Record workQueue : Type := mkWorkQueue { wq_consumer : string; wq_subject : string }.

Definition queues_of (c : Config) (hash : string) : list workQueue :=
  mkWorkQueue ("engines-" +:+ cfg_Tier c +:+ "-" +:+ hash) (SubjectDispatch (cfg_Tier c) hash)
  :: (if decide (cfg_Kind c = "") then []
      else [mkWorkQueue ("engines-" +:+ cfg_Tier c +:+ "-" +:+ hash +:+ "-" +:+ cfg_Kind c)
              (SubjectDispatchKind (cfg_Tier c) hash (cfg_Kind c))]).

Definition workQueues (c : Config) (hashes : list string) : list workQueue := mjoin (queues_of c <$> hashes).

End Advertise.

(** [bus.ValidTierToken] and [bus.DispatchStreamName]. *)
Definition DispatchStreamPrefix : string := "DISPATCH_".
Definition maxStreamNameLen : nat := 255.
Definition bad_tier_char (c : Ascii.ascii) : bool :=
  let z := byte_val c in
  bool_decide (z = 46 ∨ z = 42 ∨ z = 62 ∨ z = 32 ∨ z = 9 ∨ z = 13 ∨ z = 10 ∨ z = 12 ∨ z = 47 ∨ z = 92).

Definition ValidTierToken (tier : string) : bool :=
  negb (bool_decide (tier = "")) && string_all (λ c, negb (bad_tier_char c)) tier
  && bool_decide (String.length DispatchStreamPrefix + String.length tier ≤ maxStreamNameLen)%nat.

Definition DispatchStreamName (tier : string) : option string :=
  if ValidTierToken tier then Some (DispatchStreamPrefix +:+ tier) else None.

Definition SubjectStatus (runID stepID : string) : string := "job.status." +:+ runID +:+ "." +:+ stepID.
Definition SubjectAccept (runID stepID : string) : string := "job.accept." +:+ runID +:+ "." +:+ stepID.

Section Registration.
Context (goos goarch : string).

(** [register]'s message. *)
Definition registration (c : Config) (env : string) : EngineRegistration :=
  mkRegistration (cfg_EngineID c) protocolVersions (advertisedCapabilities c) goos goarch (u32 (cfg_Slots c))
    [cfg_Kind c] (cfg_Tier c) env.

Inductive NewErr : Type := Missing (field : string) | BadKind (kind : string) | Identity (e : GoErr).

(** [New]: the configuration it keeps, and the registration it will announce. *)
Definition New (c : Config) : result NewErr (Config * EngineRegistration) :=
  if decide (cfg_EngineID c = "") then Err (Missing "EngineID")
  else if decide (cfg_Tier c = "") then Err (Missing "Tier")
  else if negb (cfg_Bus c) then Err (Missing "Bus")
  else if negb (cfg_Executor c) then Err (Missing "Executor")
  else if negb (cfg_Blobs c) then Err (Missing "Blobs")
  else if negb (cfg_CAS c) then Err (Missing "CAS")
  else
    let c := if decide (cfg_Slots c ≤ 0) then with_slots 1 c else c in
    if negb (validKindToken (cfg_Kind c)) then Err (BadKind (cfg_Kind c))
    else match cfg_Identity c with
         | Ok env => Ok (c, registration c env)
         | Err ErrNoStableIdentity => Ok (c, registration c "")
         | Err (IdentityOther e) => Err (Identity e)
         end.
End Registration.

(** ** [registry_client.go]: the jobs a heartbeat declares *)

Definition jobKey (runID stepID : string) (attempt : Z) : string :=
  runID +:+ "/" +:+ stepID +:+ "/" +:+ dec_Z attempt.

Definition key_of (d : JobDispatch) : string := jobKey (jd_RunId d) (jd_StepId d) (jd_Attempt d).

(** The entry for a dispatch: [InFlight], as [registry.Job] carries it. *)
Definition in_flight (d : JobDispatch) : Job :=
  mkJob (jd_RunId d) (jd_StepId d) (jd_Attempt d) (jd_FenceToken d).

(** [control.go]: [cancellable]. The context is named by the number of the
    dispatch it was made for. *)
Record cancellable : Type := mkCancellable { cn_job : nat; cn_fence : string }.

(** The maps of one engine, each under its own mutex: the registry client's
    [inFlight], [running.jobs], and the contexts cancelled so far. *)
Record tables : Type := mkTables
  { t_inFlight : gmap string Job; t_jobs : gmap string cancellable; t_cancelled : list nat }.

Definition no_jobs : tables := mkTables ∅ ∅ [].

Definition hold (d : JobDispatch) (t : tables) : tables :=
  mkTables (<[key_of d := in_flight d]> (t_inFlight t)) (t_jobs t) (t_cancelled t).
Definition release (key : string) (t : tables) : tables :=
  mkTables (delete key (t_inFlight t)) (t_jobs t) (t_cancelled t).
Definition add (key fence : string) (job : nat) (t : tables) : tables :=
  mkTables (t_inFlight t) (<[key := mkCancellable job fence]> (t_jobs t)) (t_cancelled t).
Definition remove (key : string) (t : tables) : tables :=
  mkTables (t_inFlight t) (delete key (t_jobs t)) (t_cancelled t).

(** [running.stop]: whether the job was there to cancel. *)
Definition stop (key fence : string) (t : tables) : tables * bool :=
  match t_jobs t !! key with
  | None => (t, false)
  | Some job =>
      if decide (fence ≠ "" ∧ cn_fence job ≠ fence) then (t, false)
      else (mkTables (t_inFlight t) (t_jobs t) (cn_job job :: t_cancelled t), true)
  end.

(** [dholev1.Cancel], and the handler of [watchControl]: the oneof's other
    arms, and bytes that do not decode, are [None]. *)
Record Cancel : Type := mkCancel { ca_RunId : string; ca_StepId : string; ca_Attempt : Z; ca_FenceToken : string }.

Definition on_control (decode_control : string → option (option Cancel)) (raw : string) (t : tables) : tables :=
  match decode_control raw with
  | Some (Some c) => fst (stop (jobKey (ca_RunId c) (ca_StepId c) (ca_Attempt c)) (ca_FenceToken c) t)
  | _ => t
  end.

(** [snapshot]: sorted by key. *)
Definition by_key (a b : Job) : Prop :=
  String.le (jobKey (job_RunID a) (job_StepID a) (job_Attempt a)) (jobKey (job_RunID b) (job_StepID b) (job_Attempt b)).
#[export] Instance by_key_dec : RelDecision by_key.
Proof. intros a b. unfold by_key. apply _. Defined.

Definition snapshot (t : tables) : list Job := merge_sort by_key (snd <$> map_to_list (t_inFlight t)).

Definition heartbeat (engineID : string) (t : tables) : EngineHeartbeat := mkHeartbeat engineID (snapshot t).

(** ** [agent.go]: [room] *)

(** [rm_open]: the context fetches run under, by number, and whether it is
    live; [rm_reopened]: the channel a full engine's pumps wait on, by number;
    the channels of smaller numbers are closed. *)
Record room : Type := mkRoom
  { rm_limit : Z; rm_held : Z; rm_open : nat; rm_live : bool; rm_reopened : nat }.

Definition newRoom (limit : Z) : room := mkRoom limit 0 0 true 0.

(** One turn of [wait]: the context to fetch under, or the channel to wait on. *)
Definition room_wait (r : room) : nat + nat :=
  if decide (rm_held r < rm_limit r) then inl (rm_open r) else inr (rm_reopened r).

Definition room_hold (r : room) : room :=
  let held := rm_held r + 1 in
  mkRoom (rm_limit r) held (rm_open r) (if decide (held = rm_limit r) then false else rm_live r) (rm_reopened r).

Definition room_release (r : room) : room :=
  let held := rm_held r - 1 in
  if decide (held = rm_limit r - 1)
  then mkRoom (rm_limit r) held (rm_open r + 1) true (rm_reopened r + 1)
  else mkRoom (rm_limit r) held (rm_open r) (rm_live r) (rm_reopened r).

(** ** [pump]

    An engine is its room, its free slots, its pumps, one per queue, and the
    dispatches running. *)

Inductive pump : Type :=
| Top                (** about to ask for room *)
| Parked (ch : nat)  (** in [wait], on a channel *)
| Fetching (cx : nat)  (** in [Next], under a context *)
| Waiting            (** holding a dispatch, waiting for a slot *)
| Stopped.

Record engine : Type := mkEngine
  { en_room : room; en_slots : Z; en_taken : Z; en_pumps : list pump;
    (** steps running; steps finished whose room is not yet given back *)
    en_running : nat; en_leaving : nat }.

Definition with_pump (i : nat) (p : pump) (e : engine) : engine :=
  mkEngine (en_room e) (en_slots e) (en_taken e) (<[i := p]> (en_pumps e)) (en_running e) (en_leaving e).

(** Whether a fetch's context is done: its own number's, and live only while
    the room that made it is open. *)
Definition fetch_live (r : room) (cx : nat) : bool := bool_decide (cx = rm_open r) && rm_live r.

Inductive pump_step : engine → engine → Prop :=
| ps_room i e : en_pumps e !! i = Some Top →
    pump_step e (with_pump i (match room_wait (en_room e) with inl cx => Fetching cx | inr ch => Parked ch end) e)
| ps_reopened i ch e : en_pumps e !! i = Some (Parked ch) → (ch < rm_reopened (en_room e))%nat →
    pump_step e (with_pump i Top e)
| ps_abandoned i cx e : en_pumps e !! i = Some (Fetching cx) → fetch_live (en_room e) cx = false →
    pump_step e (with_pump i Top e)
(** A message may land on a fetch whose context just ended. *)
| ps_fetched i cx e : en_pumps e !! i = Some (Fetching cx) →
    pump_step e (mkEngine (room_hold (en_room e)) (en_slots e) (en_taken e) (<[i := Waiting]> (en_pumps e))
                   (en_running e) (en_leaving e))
| ps_start i e : en_pumps e !! i = Some Waiting → en_taken e < en_slots e →
    pump_step e (mkEngine (en_room e) (en_slots e) (en_taken e + 1) (<[i := Top]> (en_pumps e))
                   (S (en_running e)) (en_leaving e))
(** The engine is stopping: a dispatch never started is given back. *)
| ps_give_back i e : en_pumps e !! i = Some Waiting →
    pump_step e (mkEngine (room_release (en_room e)) (en_slots e) (en_taken e) (<[i := Stopped]> (en_pumps e))
                   (en_running e) (en_leaving e))
| ps_stop i p e : en_pumps e !! i = Some p → p ≠ Waiting → pump_step e (with_pump i Stopped e)
(** [handle] returned: the slot first, then the room. *)
| ps_finish n e : en_running e = S n →
    pump_step e (mkEngine (en_room e) (en_slots e) (en_taken e - 1) (en_pumps e) n (S (en_leaving e)))
| ps_leave n e : en_leaving e = S n →
    pump_step e (mkEngine (room_release (en_room e)) (en_slots e) (en_taken e) (en_pumps e) (en_running e) n).

(** [New], with [queues] pumps. *)
Definition new_engine (slots : Z) (queues : nat) : engine :=
  mkEngine (newRoom slots) slots 0 (replicate queues Top) 0 0.

(** ** [logSink] *)

Record LogChunk : Type := mkLogChunk { lc_seq : Z; lc_data : string; lc_stream : Z; lc_attempt : Z }.

Record logSink : Type := mkSink { sk_attempt : Z; sk_seq : Z; sk_file : string; sk_live : list LogChunk }.

Definition newLogSink (attempt : Z) : logSink := mkSink attempt 0 "" [].

(** [write], for what the file took of [p]: all of it, or part and an error.
    The chunk is published; whether it arrives is not the sink's concern. *)
Definition sink_write (stream : Z) (p : string) (taken : option nat) (s : logSink) : logSink * option nat :=
  match taken with
  | Some n => (mkSink (sk_attempt s) (sk_seq s) (sk_file s +:+ String.substring 0 n p) (sk_live s), None)
  | None =>
      let seq := u64 (sk_seq s + 1) in
      (mkSink (sk_attempt s) seq (sk_file s +:+ p) (sk_live s ++ [mkLogChunk seq p stream (sk_attempt s)]),
       Some (String.length p))
  end.

(** ** Calls *)

(** [dholev1.Acceptance], as an open enumeration. *)
Inductive Verdict : Type := VUnspecified | VAnswer (a : Acceptance) | VOther (n : Z).

(** [executor.Spec] and [executor.Cmd], as far as the engine fills them. *)
Record Spec : Type := mkSpec
  { sp_Image : string; sp_Env : gmap string string; sp_Lease : LeaseScope; sp_Capabilities : list Capability }.
Record ExecCmd : Type := mkExecCmd { ec_Args : list string; ec_Env : gmap string string }.

Inductive eop : Type → Type :=
(** the delivery *)
| EAck : eop unit
| ENak : eop unit
| ENakWithDelay (d : Z) : eop unit
| EStopRenew : eop unit
(** the bus *)
| ERequest (subject : string) (s : JobStatus) : eop (result GoErr Verdict)
| EPublish (subject : string) (s : JobStatus) : eop (result GoErr unit)
(** the contexts: the engine's own, the job's, and the deadline of [Exec] *)
| EStopping : eop bool
| EJobDone : eop bool
| EDeadline : eop bool
(** this engine's maps *)
| EHold (d : JobDispatch) : eop unit
| EReleaseHold (key : string) : eop unit
| EAddJob (key fence : string) : eop unit
| ERemoveJob (key : string) : eop unit
(** the sandbox *)
| EAcquire (spec : Spec) : eop (result GoErr Z)
| EMkdir (sb : Z) (dir : string) : eop (option GoErr)
| EPut (sb : Z) (name : string) (r : Z) : eop (option GoErr)
| EExec (sb : Z) (c : ExecCmd) (timeout : Z) : eop (Z * option GoErr)
| EGet (sb : Z) (name : string) : eop (result GoErr Z)
| ERelease (sb : Z) : eop unit
(** readers, the stores, secrets, the log *)
| EClose (r : Z) : eop (option GoErr)
| ECasGet (tenant : string) (d : Digest) : eop (result GoErr Z)
| EBlobRead (tenant key : string) : eop (result GoErr Z)
| ECasPut (tenant : string) (r : Z) : eop (result GoErr Digest * Z)
| ERedeem (tenant : string) (ref : SecretRef) : eop (result GoErr string)
| ELogOpen : eop (result GoErr unit)
| ELogFlush (tenant key : string) : eop (result GoErr unit)
| ELogDiscard : eop unit.

Abbreviation ecmd := (Program.cmd eop).
Abbreviation ego := (Program.go eop).

(** ** Statuses *)

Definition phase (d : JobDispatch) (p : Phase) : JobStatus :=
  mkJobStatus (jd_RunId d) (jd_StepId d) (jd_Attempt d) (jd_FenceToken d) p 0 [] "" "".

Definition failure (d : JobDispatch) (message : string) : JobStatus :=
  mkJobStatus (jd_RunId d) (jd_StepId d) (jd_Attempt d) (jd_FenceToken d) PHASE_FAILED 0 [] message "".

Definition with_log (key : string) (s : JobStatus) : JobStatus :=
  mkJobStatus (js_RunId s) (js_StepId s) (js_Attempt s) (js_FenceToken s) (js_Phase s) (js_ExitCode s)
    (js_Outputs s) (js_Error s) key.
Definition with_exit (code : Z) (s : JobStatus) : JobStatus :=
  mkJobStatus (js_RunId s) (js_StepId s) (js_Attempt s) (js_FenceToken s) (js_Phase s) code
    (js_Outputs s) (js_Error s) (js_LogKey s).
Definition with_outputs (outs : list OutputRef) (s : JobStatus) : JobStatus :=
  mkJobStatus (js_RunId s) (js_StepId s) (js_Attempt s) (js_FenceToken s) (js_Phase s) (js_ExitCode s)
    outs (js_Error s) (js_LogKey s).
Definition with_failed (message : string) (s : JobStatus) : JobStatus :=
  mkJobStatus (js_RunId s) (js_StepId s) (js_Attempt s) (js_FenceToken s) PHASE_FAILED (js_ExitCode s)
    (js_Outputs s) message (js_LogKey s).

Definition publish (d : JobDispatch) (s : JobStatus) : ego unit :=
  act (EPublish (SubjectStatus (jd_RunId d) (jd_StepId d)) s).

(** ** [accept.go] *)

Definition acceptRetry : Z := 1 * Second.

Inductive verdict : Type := Start | Superseded | Stopping | Unconfirmed.

Definition ask (d : JobDispatch) : ego Verdict :=
  act (ERequest (SubjectAccept (jd_RunId d) (jd_StepId d)) (phase d PHASE_ACCEPTED)).

Definition confirm (d : JobDispatch) : ecmd verdict :=
  if negb (jd_ConfirmAcceptance d) then Done Start
  else
    answer <- ask d;;
    match answer with
    | Ok (VAnswer ACCEPTANCE_FENCED) => Done Superseded
    | Ok (VAnswer ACCEPTANCE_CURRENT) => Done Start
    | _ =>
        stopped <- act EStopping;;
        if stopped : bool then Done Stopping
        else if decide (step_effect_class (jd_Step d) ≠ EFFECT_CLASS_AT_MOST_ONCE) then Done Start
        else Done Unconfirmed
    end.

(** ** [execute] and what it calls *)

Definition inputDir : string := "inputs".
Definition outputDir : string := "outputs".
Definition killedExitCode : Z := 137.

(** [path.Join] of two elements, of which an empty one is left out; the paths
    here are relative. *)
Definition path_join (a b : string) : string :=
  if decide (a = "") then (if decide (b = "") then "" else path_Clean b)
  else if decide (b = "") then path_Clean a
  else path_Clean (a +:+ "/" +:+ b).

Definition logKeyFor (d : JobDispatch) : string :=
  path_join (jd_OutputPrefix d) ("attempt-" +:+ dec_Z (jd_Attempt d) +:+ ".log").

Definition sandboxCapabilities (want : list Capability) : list Capability :=
  List.filter (λ c, negb (bool_decide (c = CAPABILITY_SECRETS))) want.

(** [if err := ...; err != nil { return fmt.Errorf("...: %w", err) }]. *)
Definition checked (msg : string) (o : eop (option GoErr)) : ego unit :=
  e <- act o;;
  match e with None => gret tt | Some e => gfail (ErrWrap msg e) end.

Definition openInput (tenantID : string) (inp : InputRef) : ego Z :=
  if decide (d_hex (in_digest inp) ≠ "") then act (ECasGet tenantID (in_digest inp))
  else if decide (in_key inp ≠ "") then act (EBlobRead tenantID (in_key inp))
  else gfail (ErrMsg "input reference names neither a digest nor a key").

Definition materialise_one (tenantID : string) (sb : Z) (inp : InputRef) : ego unit :=
  r <~ wrap ("fetching input " +:+ quote (in_port inp)) (openInput tenantID inp);;
  err <- act (EPut sb (path_join inputDir (in_port inp)) r);;
  closeErr <- act (EClose r);;
  match err, closeErr with
  | Some e, _ => gfail (ErrWrap ("placing input " +:+ quote (in_port inp)) e)
  | None, Some e => gfail (ErrWrap ("reading input " +:+ quote (in_port inp)) e)
  | None, None => gret tt
  end.

Definition materialise (tenantID : string) (sb : Z) (d : JobDispatch) : ego unit :=
  geach (materialise_one tenantID sb) (jd_Inputs d).

Definition collect_one (tenantID : string) (sb : Z) (outs : list OutputRef) (p : Port) : ego (list OutputRef) :=
  r <~ wrap ("reading output " +:+ quote (port_name p)) (act (EGet sb (path_join outputDir (port_name p))));;
  put <- act (ECasPut tenantID r);;
  closeErr <- act (EClose r);;
  match put, closeErr with
  | (Err e, _), _ => gfail (ErrWrap ("storing output " +:+ quote (port_name p)) e)
  | (Ok _, _), Some e => gfail (ErrWrap ("reading output " +:+ quote (port_name p)) e)
  | (Ok digest, n), None => gret (outs ++ [mkOutputRef (port_name p) digest "" n ""])
  end.

Definition collect (tenantID : string) (sb : Z) (d : JobDispatch) : ego (list OutputRef) :=
  gfold (collect_one tenantID sb) [] (step_outputs (jd_Step d)).

Definition redeem_one (tenantID : string) (env : gmap string string) (ref : SecretRef) : ego (gmap string string) :=
  value <~ wrap "redeeming a secret reference" (act (ERedeem tenantID ref));;
  gret (<[sr_name ref := value]> env).

Definition redeem (d : JobDispatch) : ego (gmap string string) :=
  gfold (redeem_one (jd_Tenant d)) (jd_Env d) (jd_Secrets d).

(** [Duration.String()] of whole seconds. *)
Definition seconds_text (n : Z) : string :=
  let s := dec_Z (n mod 60) +:+ "s" in
  if decide (n < 60) then s
  else let m := dec_Z (n / 60 mod 60) +:+ "m" +:+ s in
       if decide (n < 3600) then m else dec_Z (n / 3600) +:+ "h" +:+ m.

(** [uint32] seconds as a [time.Duration], which is wide enough for any. *)
Definition timeout_of (d : JobDispatch) : Z := step_timeout_seconds (jd_Step d) * Second.

(** From the acquired sandbox to the terminal status. *)
Definition after_exec (d : JobDispatch) (sb exitCode : Z) (execErr : option GoErr) : ecmd JobStatus :=
  let logKey := logKeyFor d in
  flushed <- act (ELogFlush (jd_Tenant d) logKey);;
  match flushed with
  | Err e => Done (failure d ("writing the authoritative log: " +:+ err_text e))
  | Ok _ =>
      late <- act EDeadline;;
      cancelled <- act EJobDone;;
      if bool_decide (0 < timeout_of d) && late && negb cancelled
      then Done (with_log logKey (with_exit killedExitCode
                  (failure d ("step timed out after " +:+ seconds_text (step_timeout_seconds (jd_Step d))))))
      else match execErr with
      | Some e => Done (with_log logKey (failure d ("running the step: " +:+ err_text e)))
      | None =>
          let status := with_log logKey (with_exit exitCode (phase d PHASE_SUCCEEDED)) in
          if decide (exitCode ≠ 0) then Done (with_failed ("step exited " +:+ dec_Z exitCode) status)
          else
            outs <- collect (jd_Tenant d) sb d;;
            match outs with
            | Err e => Done (with_failed (err_text e) status)
            | Ok outs => Done (with_outputs outs status)
            end
      end
  end.

Definition in_sandbox (d : JobDispatch) (sb : Z) : ecmd JobStatus :=
  let fail_of (r : ego JobStatus) : ecmd JobStatus :=
    cbind r (λ r, Done (match r with Ok s => s | Err e => failure d (err_text e) end)) in
  let mkdir (dir : string) : ego unit :=
    e <- act (EMkdir sb dir);;
    match e with None => gret tt | Some e => gfail (ErrMsg ("creating the " +:+ dir +:+ " directory: " +:+ err_text e)) end in
  fail_of (
    _ <~ geach mkdir [inputDir; outputDir];;
    _ <~ materialise (jd_Tenant d) sb d;;
    stepEnv <~ (if decide (jd_Secrets d = []) then gret (jd_Env d) else redeem d);;
    _ <~ wrap "opening the log" (act ELogOpen);;
    ran <- act (EExec sb (mkExecCmd (jd_Command d) stepEnv) (timeout_of d));;
    s <- after_exec d sb (fst ran) (snd ran);;
    _ <- act ELogDiscard;;
    gret s).

Definition execute (d : JobDispatch) : ecmd JobStatus :=
  let step := jd_Step d in
  sandbox <- act (EAcquire (mkSpec (step_image step) (jd_Env d) (leaseScopeFrom (step_lease_scope step))
                              (sandboxCapabilities (step_capabilities step))));;
  match sandbox with
  | Err e => Done (failure d ("acquiring a sandbox: " +:+ err_text e))
  | Ok sb =>
      s <- in_sandbox d sb;;
      _ <- act (ERelease sb);;
      Done s
  end.

(** ** [run] and [handle] *)

Section Agent.
Context (cfg : Config) (decode : string → option JobDispatch).

(** [%v] of a slice. *)
Definition bracketed (l : list string) : string := "[" +:+ join " " l +:+ "]".

Definition unsupported_text (e : NegotiateErr) : string :=
  match e with
  | Unsupported spoken oldest ours =>
      "unsupported protocol: engine speaks " +:+ bracketed (map dec_Z spoken)
      +:+ ", this control plane accepts " +:+ dec_Z oldest +:+ ".." +:+ dec_Z ours
  end.

Definition checkSecrets (d : JobDispatch) : option string :=
  if decide (jd_Secrets d = []) then None
  else if cfg_Secrets cfg then None
  else Some ("dispatch carries secrets " +:+ bracketed (map sr_name (jd_Secrets d))
             +:+ " but this engine has no redemption endpoint and does not advertise CAPABILITY_SECRETS").

(** What [run] refuses before it asks anyone anything. *)
Definition refused (d : JobDispatch) : option string :=
  match Negotiate [jd_ProtocolVersion d] with
  | Err e => Some (unsupported_text e)
  | Ok _ =>
      if decide (jd_Tenant d = "") then Some "dispatch carries no tenant; every stored object is tenant-scoped"
      else match checkSecrets d with
           | Some msg => Some msg
           | None => if decide (jd_Command d = []) then Some "dispatch carries no command" else None
           end
  end.

(** The attempt, held: its deferred calls run in the reverse order of theirs. *)
Definition run_held (d : JobDispatch) : ecmd JobStatus :=
  let key := key_of d in
  _ <- act (EHold d);;
  _ <- act (EAddJob key (jd_FenceToken d));;
  accepted <- publish d (phase d PHASE_ACCEPTED);;
  s <- match accepted with
       | Err e => Done (failure d ("publishing the accepted status: " +:+ err_text e))
       | Ok _ =>
           s <- execute d;;
           cancelled <- act EJobDone;;
           stopped <- act EStopping;;
           Done (if cancelled && negb stopped then phase d PHASE_CANCELLED else s)
       end;;
  _ <- act (ERemoveJob key);;
  _ <- act (EReleaseHold key);;
  Done s.

Definition run_job (d : JobDispatch) : ecmd (option JobStatus * verdict) :=
  match refused d with
  | Some msg => Done (Some (failure d msg), Start)
  | None =>
      v <- confirm d;;
      match v with
      | Start => s <- run_held d;; Done (Some s, Start)
      | v => Done (None, v)
      end
  end.

Definition handle_dispatch (d : JobDispatch) : ecmd unit :=
  r <- run_job d;;
  match r with
  | (_, Superseded) => act EAck
  | (_, Stopping) => act ENak
  | (_, Unconfirmed) => _ <- act EStopRenew;; act (ENakWithDelay acceptRetry)
  | (None, Start) => Done tt
  | (Some s, Start) =>
      published <- publish d s;;
      match published with
      | Err _ => Done tt
      | Ok _ => act EAck
      end
  end.

Definition handle (data : string) : ecmd unit :=
  _ <- match decode data with
       | None => act EAck
       | Some d => handle_dispatch d
       end;;
  act EStopRenew.

End Agent.
