(* ===== verification/EngineFacts.v ===== *)
(** * What an engine does with a dispatch

    Of every trace of [handle], whatever the stores, the sandbox, the bus and
    the plane answer: what it may do before it is confirmed, what it must have
    done before it reports, and what it must have reported before it
    acknowledges. *)

From S2P Require Import Prelude Bytes Effects Program Proto Fleet Registry RegistryFacts RunStore Lease Sched Blobs Plane Control Engine.

(** ** What a history says *)

Section Facts.
Context (cfg : Config) (decode : string → option JobDispatch) (d : JobDispatch).

Abbreviation hist := (list (Program.did eop)).

Definition echoes (s : JobStatus) : Prop :=
  js_RunId s = jd_RunId d ∧ js_StepId s = jd_StepId d ∧ js_Attempt s = jd_Attempt d
  ∧ js_FenceToken s = jd_FenceToken d.

Definition final (s : JobStatus) : Prop :=
  js_Phase s = PHASE_SUCCEEDED ∨ js_Phase s = PHASE_FAILED ∨ js_Phase s = PHASE_CANCELLED.

Definition status_subject : string := SubjectStatus (jd_RunId d) (jd_StepId d).
Definition accepted_status : JobStatus := phase d PHASE_ACCEPTED.

(** Statuses published, whether or not the bus took them. *)
Definition published : hist → list JobStatus :=
  pick (λ X (o : eop X), match o in eop X return X → option JobStatus with
                         | EPublish _ s => λ _, Some s | _ => λ _, None end).

(** Whether the attempt was held: what opens the work on it. *)
Definition holds : hist → list JobDispatch :=
  pick (λ X (o : eop X), match o in eop X return X → option JobDispatch with
                         | EHold d => λ _, Some d | _ => λ _, None end).

(** How the delivery was settled with the bus. *)
Definition settled : hist → list unit :=
  pick (λ X (o : eop X), match o in eop X return X → option unit with
                         | EAck | ENak | ENakWithDelay _ => λ _, Some tt | _ => λ _, None end).

(** What the plane was asked, and what it answered. *)
Definition requests : hist → list (string * JobStatus * result GoErr Verdict) :=
  pick (λ X (o : eop X), match o in eop X return X → option (string * JobStatus * result GoErr Verdict) with
                         | ERequest subject s => λ x, Some (subject, s, x) | _ => λ _, None end).

Definition asked (a : Acceptance) (h : hist) : Prop :=
  (SubjectAccept (jd_RunId d) (jd_StepId d), accepted_status, Ok (VAnswer a)) ∈ requests h.

(** The attempt may be worked on: nobody has to be asked, or the plane said it
    is current, or it did not say otherwise and the step may be repeated. *)
Definition confirmed (h : hist) : Prop :=
  jd_ConfirmAcceptance d = false
  ∨ asked ACCEPTANCE_CURRENT h
  ∨ step_effect_class (jd_Step d) ≠ EFFECT_CLASS_AT_MOST_ONCE ∧ ¬ asked ACCEPTANCE_FENCED h.

(** Nothing was done but ask. *)
Definition untouched (h : hist) : Prop :=
  Forall (λ '(Did o _), match o with ERequest _ _ | EStopping => True | _ => False end) h.

Definition reported (h : hist) : Prop :=
  ∃ s, final s ∧ echoes s ∧ Did (EPublish status_subject s) (Ok tt) ∈ h.

Definition flushed (h : hist) : Prop := Did (ELogFlush (jd_Tenant d) (logKeyFor d)) (Ok tt) ∈ h.

(** Every declared input was opened where it says and placed on its port. *)
Definition opened (inp : InputRef) (r : Z) (h : hist) : Prop :=
  if decide (d_hex (in_digest inp) ≠ "") then Did (ECasGet (jd_Tenant d) (in_digest inp)) (Ok r) ∈ h
  else Did (EBlobRead (jd_Tenant d) (in_key inp)) (Ok r) ∈ h.
Definition placed (sb : Z) (h : hist) : Prop :=
  ∀ inp, inp ∈ jd_Inputs d →
    ∃ r, opened inp r h ∧ Did (EPut sb (path_join inputDir (in_port inp)) r) None ∈ h.

(** Every declared output was read back from its port and stored. *)
Definition stored (sb : Z) (p : Port) (o : OutputRef) (h : hist) : Prop :=
  out_port o = port_name p ∧ out_key o = "" ∧
  ∃ r, Did (EGet sb (path_join outputDir (port_name p))) (Ok r) ∈ h
       ∧ Did (ECasPut (jd_Tenant d) r) (Ok (out_digest o), out_size o) ∈ h.

Definition succeeded (s : JobStatus) (h : hist) : Prop :=
  js_LogKey s = logKeyFor d ∧ js_ExitCode s = 0 ∧
  ∃ sb c, Did (EExec sb c (timeout_of d)) (0, None) ∈ h ∧ placed sb h
    ∧ Forall2 (λ p o, stored sb p o h) (step_outputs (jd_Step d)) (js_Outputs s).

(** What a terminal status claims is so. *)
Definition truthful (s : JobStatus) (h : hist) : Prop :=
  (js_LogKey s ≠ "" → js_LogKey s = logKeyFor d ∧ flushed h)
  ∧ (js_Phase s = PHASE_SUCCEEDED → flushed h ∧ succeeded s h)
  ∧ (js_Phase s ≠ PHASE_SUCCEEDED → js_Outputs s = []).

(** ** The rule each call is made under *)

Definition publishable (subject : string) (s : JobStatus) (h : hist) : Prop :=
  subject = status_subject ∧ echoes s ∧
  ((s = accepted_status ∧ published h = [] ∧ confirmed h)
   ∨ (final s ∧ truthful s h
      ∧ ((published h = [] ∧ holds h = []) ∨ (published h = [accepted_status] ∧ confirmed h))
      ∧ (js_Phase s = PHASE_CANCELLED → js_ExitCode s = 0 ∧ js_LogKey s = "")
      ∧ (∀ d', d' ∈ holds h → Did (EReleaseHold (key_of d)) tt ∈ h))).

Definition engine_guard : Program.guard eop := λ X o h,
  match o with
  | EAck => asked ACCEPTANCE_FENCED h ∧ untouched h ∨ reported h
  | ENak => untouched h
  | ENakWithDelay _ => Did EStopRenew tt ∈ h ∧ holds h = [] ∧ published h = []
  | EPublish subject s => publishable subject s h
  | EHold d' => d' = d ∧ confirmed h ∧ published h = []
  | EAcquire spec => confirmed h ∧ published h = [accepted_status] ∧ sp_Env spec = jd_Env d
                     ∧ CAPABILITY_SECRETS ∉ sp_Capabilities spec
  | ERedeem tenant ref => confirmed h ∧ published h = [accepted_status] ∧ tenant = jd_Tenant d ∧ ref ∈ jd_Secrets d
  | EExec sb c timeout => confirmed h ∧ published h = [accepted_status] ∧ ec_Args c = jd_Command d
                          ∧ timeout = timeout_of d ∧ placed sb h
  | _ => True
  end.

(** ** What working on an attempt leaves alone *)

Definition working (X : Type) (o : eop X) : Prop :=
  match o with
  | EPublish _ _ | EHold _ | ERequest _ _ | EAck | ENak | ENakWithDelay _ => False
  | _ => True
  end.

Definition steady (h h' : hist) : Prop :=
  extends h h' ∧ published h' = published h ∧ holds h' = holds h ∧ settled h' = settled h
  ∧ requests h' = requests h.

#[local] Instance steady_preorder : PreOrder steady.
Proof.
  split; [by intros h|]. intros h1 h2 h3 (E1 & P1 & H1 & S1 & F1) (E2 & P2 & H2 & S2 & F2).
  split_and!; [by etrans|congruence..].
Qed.

Lemma working_steady X (o : eop X) x h : working X o → steady h (h ++ [Did o x]).
Proof.
  intros Ho. split_and!; [apply extends_snoc|unfold published|unfold holds|unfold settled|unfold requests].
  all: rewrite pick_snoc; destruct o; by rewrite ?app_nil_r.
Qed.

Lemma steady_confirmed h h' : steady h h' → confirmed h → confirmed h'.
Proof.
  intros (He & _ & _ & _ & Hr). unfold confirmed, asked. by rewrite Hr.
Qed.

Lemma steady_published h h' : steady h h' → published h' = published h.
Proof. by intros (_ & ? & _). Qed.
Lemma steady_holds h h' : steady h h' → holds h' = holds h.
Proof. by intros (_ & _ & ? & _). Qed.
Lemma steady_settled h h' : steady h h' → settled h' = settled h.
Proof. by intros (_ & _ & _ & ? & _). Qed.
Lemma steady_extends h h' : steady h h' → extends h h'.
Proof. by intros (? & _). Qed.

(** The attempt is being worked on. *)
Definition at_work (h : hist) : Prop := confirmed h ∧ published h = [accepted_status].

Lemma at_work_steady h h' : steady h h' → at_work h → at_work h'.
Proof. intros Hs [Hc Hp]. split; [by eapply steady_confirmed|by rewrite (steady_published _ _ Hs)]. Qed.

Lemma steady_snoc h X (o : eop X) x : working X o → steady h (h ++ [Did o x]).
Proof. apply working_steady. Qed.

(** A program of such calls keeps all that. *)
Lemma safe_working {A} (c : ecmd A) (Q : A → hist → Prop) h :
  within working c → safe engine_guard c Q h → safe engine_guard c (λ a h', Q a h' ∧ steady h h') h.
Proof. apply safe_within_and; [apply _|]. intros X o x h'. apply working_steady. Qed.

Ltac steady_tac :=
  repeat match goal with
  | |- steady ?h ?h => reflexivity
  | |- steady _ (_ ++ [Did _ _]) => etrans; [|apply working_steady; exact I]
  end.

Ltac in_history :=
  match goal with
  | |- _ ∈ _ ++ [_] => apply elem_of_app; first [by right; left | left; in_history]
  | |- _ => eassumption
  end.

(** ** [materialise], [redeem], [collect] *)

Lemma opened_keeps inp r h h' : extends h h' → opened inp r h → opened inp r h'.
Proof. intros He. unfold opened. case_decide; intros; by eapply extends_elem. Qed.

Definition placed_one (sb : Z) (inp : InputRef) (h : hist) : Prop :=
  ∃ r, opened inp r h ∧ Did (EPut sb (path_join inputDir (in_port inp)) r) None ∈ h.

Lemma placed_one_keeps sb inp h h' : extends h h' → placed_one sb inp h → placed_one sb inp h'.
Proof. intros He (r & Ho & Hp). exists r. split; [by eapply opened_keeps|by eapply extends_elem]. Qed.

Lemma placed_keeps sb h h' : extends h h' → placed sb h → placed sb h'.
Proof. intros He Hp inp Hin. eapply placed_one_keeps; [exact He|by apply Hp]. Qed.

Lemma safe_open inp h :
  safe engine_guard (openInput (jd_Tenant d) inp)
    (λ r h', steady h h' ∧ ∀ rd, r = Ok rd → opened inp rd h') h.
Proof.
  unfold openInput, opened. case_decide; [|case_decide].
  1-2: apply safe_act; [done|]; intros x; split; [steady_tac; reflexivity|]; intros rd ->; apply snoc_elem.
  split; [reflexivity|done].
Qed.

Lemma safe_materialise_one sb inp h :
  safe engine_guard (materialise_one (jd_Tenant d) sb inp)
    (λ r h', steady h h' ∧ (r = Ok tt → placed_one sb inp h')) h.
Proof.
  unfold materialise_one. apply safe_gbind, safe_wrap. eapply safe_mono; [|apply safe_open].
  intros [rd|e] h1 [Hs Ho]; [|done]. apply safe_act_bind; [done|]. intros err.
  apply safe_act_bind; [done|]. intros closeErr.
  assert (Hs' : steady h ((h1 ++ [Did (EPut sb (path_join inputDir (in_port inp)) rd) err]) ++ [Did (EClose rd) closeErr]))
    by (etrans; [exact Hs|steady_tac; reflexivity]).
  destruct err as [e|]; [by split|]. destruct closeErr as [e|]; [by split|]. split; [done|]. intros _.
  exists rd. split; [|in_history]. eapply opened_keeps; [|by apply Ho]. etrans; apply extends_snoc.
Qed.

Lemma safe_materialise sb h :
  safe engine_guard (materialise (jd_Tenant d) sb d) (λ r h', steady h h' ∧ (r = Ok tt → placed sb h')) h.
Proof.
  unfold materialise, geach.
  eapply safe_mono; [|apply (safe_gfold_seen _ _
    (λ seen _ h', steady h h' ∧ ∀ inp, inp ∈ seen → placed_one sb inp h') (λ _ h', steady h h'))].
  - intros [[]|e] h' Hh; cbv beta iota in Hh; [|by split]. destruct Hh as [Hs Hp]. split; [done|]. intros _. exact Hp.
  - split; [reflexivity|]. by intros inp ?%elem_of_nil.
  - intros seen [] inp h1 _ [Hs Hp]. eapply safe_mono; [|apply safe_materialise_one].
    intros [[]|e] h2 [Hs2 Hp2]; [|by etrans]. split; [by etrans|].
    intros inp' [Hin| ->%list_elem_of_singleton]%elem_of_app; [|by apply Hp2].
    eapply placed_one_keeps; [by apply steady_extends|by apply Hp].
Qed.

Lemma safe_redeem h :
  at_work h → safe engine_guard (redeem d) (λ r h', steady h h') h.
Proof.
  intros Hw. unfold redeem. eapply safe_mono; [|apply (safe_gfold _ _ (λ _ h', steady h h') (λ _ h', steady h h'))].
  - by intros [] h'.
  - reflexivity.
  - intros env ref h1 Hin Hs. unfold redeem_one. apply safe_gbind, safe_wrap, safe_act.
    + destruct (at_work_steady _ _ Hs Hw). done.
    + intros [v|e]; cbn [safe gret]; (etrans; [exact Hs|steady_tac; reflexivity]).
Qed.

Lemma stored_keeps sb p o h h' : extends h h' → stored sb p o h → stored sb p o h'.
Proof.
  intros He (Hp & Hk & r & Hg & Hc). split_and!; [done..|]. exists r. split; by eapply extends_elem.
Qed.

Lemma safe_collect_one sb outs p h :
  safe engine_guard (collect_one (jd_Tenant d) sb outs p)
    (λ r h', steady h h' ∧ ∀ outs', r = Ok outs' → ∃ o, outs' = outs ++ [o] ∧ stored sb p o h') h.
Proof.
  unfold collect_one. apply safe_gbind, safe_wrap, safe_act; [done|]. intros [r|e]; [|split; [steady_tac; reflexivity|done]].
  apply safe_act_bind; [done|]. intros [put n]. apply safe_act_bind; [done|]. intros closeErr.
  destruct put as [digest|e]; [|split; [steady_tac; reflexivity|done]].
  destruct closeErr as [e|]; [split; [steady_tac; reflexivity|done]|]. split; [steady_tac; reflexivity|].
  intros outs' [= <-]. eexists. split; [reflexivity|]. split_and!; [done..|]. exists r. split; in_history.
Qed.

Lemma safe_collect sb h :
  safe engine_guard (collect (jd_Tenant d) sb d)
    (λ r h', steady h h' ∧ ∀ outs, r = Ok outs → Forall2 (λ p o, stored sb p o h') (step_outputs (jd_Step d)) outs) h.
Proof.
  unfold collect. eapply safe_mono; [|apply (safe_gfold_seen _ _
    (λ seen outs h', steady h h' ∧ Forall2 (λ p o, stored sb p o h') seen outs) (λ _ h', steady h h'))].
  - intros [outs|e] h' Hh; cbv beta iota in Hh; [|by split]. destruct Hh. split; [done|]. by intros ? [= <-].
  - split; [reflexivity|constructor].
  - intros seen outs p h1 _ [Hs Hf]. eapply safe_mono; [|apply safe_collect_one].
    intros [outs'|e] h2 [Hs2 Hf2]; [|by etrans]. split; [by etrans|].
    destruct (Hf2 _ eq_refl) as (o & -> & Ho). apply Forall2_app; [|by constructor].
    eapply Forall2_impl; [exact Hf|]. intros p' o' Ho'. eapply stored_keeps; [by apply steady_extends|done].
Qed.

(** ** [execute] *)

Definition outcome (s : JobStatus) (h : hist) : Prop :=
  echoes s ∧ final s ∧ truthful s h ∧ js_Phase s ≠ PHASE_CANCELLED.

Lemma truthful_keeps s h h' : extends h h' → truthful s h → truthful s h'.
Proof.
  intros He (Hl & Hs & Ho). split; [|split; [|done]].
  - intros Hk. destruct (Hl Hk) as [? Hf]. split; [done|]. by eapply extends_elem.
  - intros Hp. destruct (Hs Hp) as (Hf & Hk & Hx & sb & c & He' & Hpl & Hst).
    split; [by eapply extends_elem|]. do 2 (split; [done|]). exists sb, c.
    split_and!; [by eapply extends_elem|by eapply placed_keeps|].
    eapply Forall2_impl; [exact Hst|]. intros p o Hso. by eapply stored_keeps.
Qed.

Lemma outcome_keeps s h h' : extends h h' → outcome s h → outcome s h'.
Proof. intros He (He' & Hf & Ht & Hp). split_and!; [done..|by eapply truthful_keeps|done]. Qed.

Lemma failure_outcome msg h : outcome (failure d msg) h.
Proof. split; [by repeat split|]. split; [by right; left|]. by repeat split. Qed.

Lemma safe_after_exec sb c code err h :
  Did (EExec sb c (timeout_of d)) (code, err) ∈ h → placed sb h →
  safe engine_guard (after_exec d sb code err) (λ s h', steady h h' ∧ outcome s h') h.
Proof.
  intros Hx Hp. unfold after_exec. apply safe_act_bind; [done|]. intros [[]|e];
    [|split; [steady_tac; reflexivity|apply failure_outcome]].
  apply safe_act_bind; [done|]. intros late. apply safe_act_bind; [done|]. intros cancelled.
  match goal with |- safe _ _ _ ?hh => set (h1 := hh) end.
  assert (Hs1 : steady h h1) by (unfold h1; steady_tac; reflexivity).
  assert (Hf1 : flushed h1) by (unfold h1, flushed; in_history).
  assert (Hlog : ∀ s h', steady h1 h' → echoes s → js_Phase s = PHASE_FAILED → js_Outputs s = [] →
    js_LogKey s = logKeyFor d → steady h h' ∧ outcome s h').
  { intros s h' Hs He Hph Ho Hk. split; [by etrans|]. split; [done|]. split; [by right; left|]. split; [|congruence].
    split; [|split; [congruence|done]]. intros _. split; [done|]. by eapply extends_elem; [apply steady_extends|]. }
  destruct (_ && _); [by apply Hlog|]. destruct err as [e|]; [by apply Hlog|].
  destruct (decide (code ≠ 0)) as [|Hc%dec_stable]; [by apply Hlog|]. subst code.
  apply safe_bind. eapply safe_mono; [|apply (safe_collect sb)].
  intros [outs|e] h2 [Hs2 Ho]; [|by apply Hlog].
  assert (Hx2 : extends h h2) by (apply steady_extends; by etrans).
  assert (Hf2 : flushed h2) by (by eapply extends_elem; [apply steady_extends|]).
  split; [by etrans|]. split; [by repeat split|]. split; [by left|]. split; [|done].
  split; [done|]. split; [|done]. intros _. split; [done|]. split; [done|]. split; [done|]. exists sb, c.
  split_and!; [by eapply extends_elem|by eapply placed_keeps|by apply Ho].
Qed.

Lemma safe_mkdirs sb dirs h :
  safe engine_guard (geach (λ dir,
     e <- act (EMkdir sb dir);;
     match e with None => gret tt
     | Some e => gfail (ErrMsg ("creating the " +:+ dir +:+ " directory: " +:+ err_text e)) end) dirs)
    (λ _ h', steady h h') h.
Proof.
  unfold geach. eapply safe_mono; [|apply (safe_gfold _ _ (λ _ h', steady h h') (λ _ h', steady h h'))].
  - by intros [] h'.
  - reflexivity.
  - intros [] dir h1 _ Hs. apply safe_act_bind; [done|]. intros [e|]; cbn [safe gret gfail]; (etrans; [exact Hs|steady_tac; reflexivity]).
Qed.

(** The environment the step runs with is the dispatch's, secrets bound. *)
Lemma safe_env h :
  at_work h →
  safe engine_guard (if decide (jd_Secrets d = []) then gret (jd_Env d) else redeem d) (λ _ h', steady h h') h.
Proof. intros Hw. case_decide; [simpl; reflexivity|by apply safe_redeem]. Qed.

Lemma safe_in_sandbox sb h :
  at_work h → safe engine_guard (in_sandbox d sb) (λ s h', steady h h' ∧ outcome s h') h.
Proof.
  intros Hw. unfold in_sandbox. apply safe_bind.
  assert (Hfail : ∀ e h', steady h h' → steady h h' ∧ outcome (failure d (err_text e)) h').
  { intros e h' Hs. split; [done|apply failure_outcome]. }
  apply safe_gbind. eapply safe_mono; [|apply safe_mkdirs]. intros [[]|e] h1 Hs1; [|by apply Hfail].
  apply safe_gbind. eapply safe_mono; [|apply safe_materialise]. intros [[]|e] h2 [Hs2 Hp2]; [|apply Hfail; by etrans].
  apply safe_gbind. eapply safe_mono; [|apply safe_env; eapply at_work_steady; [|exact Hw]; by etrans].
  intros [env|e] h3 Hs3; [|apply Hfail; by do 2 (etrans; [done|])].
  apply safe_gbind, safe_wrap, safe_act; [done|]. intros [[]|e]; [|apply Hfail; by do 3 (etrans; [done|]); steady_tac].
  set (h4 := h3 ++ _). assert (Hs4 : steady h h4) by (do 3 (etrans; [done|]); unfold h4; steady_tac; reflexivity).
  assert (Hp4 : placed sb h4).
  { eapply placed_keeps; [|by apply Hp2]. etrans; [by apply steady_extends|apply extends_snoc]. }
  apply safe_act_bind.
  { destruct (at_work_steady _ _ Hs4 Hw). by split_and!. }
  intros [code err]. apply safe_bind. eapply safe_mono; [|eapply safe_after_exec; [apply snoc_elem|]].
  - intros s h5 [Hs5 Ho]. apply safe_act_bind; [done|]. intros []. split.
    + etrans; [exact Hs4|]. etrans; [|by apply working_steady]. etrans; [|exact Hs5]. by apply working_steady.
    + eapply outcome_keeps; [apply extends_snoc|done].
  - eapply placed_keeps; [apply extends_snoc|done].
Qed.

Lemma sandbox_without_secrets want : CAPABILITY_SECRETS ∉ sandboxCapabilities want.
Proof. unfold sandboxCapabilities. rewrite list_elem_of_In, filter_In. by intros [_ ?]. Qed.

Lemma safe_execute h :
  at_work h → safe engine_guard (execute d) (λ s h', steady h h' ∧ outcome s h') h.
Proof.
  intros Hw. unfold execute. apply safe_act_bind.
  { destruct Hw. split_and!; [done..|apply sandbox_without_secrets]. }
  intros [sb|e]; [|split; [steady_tac; reflexivity|apply failure_outcome]].
  apply safe_bind. eapply safe_mono; [|apply safe_in_sandbox; eapply at_work_steady; [|exact Hw]; by apply working_steady].
  intros s h1 [Hs Ho]. apply safe_act_bind; [done|]. intros []. split.
  - etrans; [|by apply working_steady]. etrans; [|exact Hs]. by apply working_steady.
  - eapply outcome_keeps; [apply extends_snoc|done].
Qed.

(** ** [run] *)

(** A status ready to be published: what it says is so, and everything held
    was let go. *)
Definition ready (s : JobStatus) (h : hist) : Prop :=
  echoes s ∧ final s ∧ truthful s h ∧ settled h = []
  ∧ ((published h = [] ∧ holds h = []) ∨ at_work h)
  ∧ (js_Phase s = PHASE_CANCELLED → js_ExitCode s = 0 ∧ js_LogKey s = "")
  ∧ (∀ d', d' ∈ holds h → Did (EReleaseHold (key_of d)) tt ∈ h).

Lemma cancelled_truthful h : truthful (phase d PHASE_CANCELLED) h.
Proof. by repeat split. Qed.

Lemma safe_run_held h :
  confirmed h → published h = [] → settled h = [] → safe engine_guard (run_held d) (λ s h', ready s h') h.
Proof.
  intros Hc Hp Hst. unfold run_held. apply safe_act_bind; [by split_and!|]. intros [].
  apply safe_act_bind; [done|]. intros [].
  set (h2 := (h ++ [Did (EHold d) tt]) ++ _).
  assert (Hp2 : published h2 = []).
  { unfold h2, published. rewrite !pick_snoc, !app_nil_r. exact Hp. }
  assert (Hc2 : confirmed h2).
  { revert Hc. unfold h2, confirmed, asked, requests. by rewrite !pick_snoc, !app_nil_r. }
  apply safe_act_bind.
  { split; [done|]. split; [by repeat split|]. by left. }
  intros accepted. set (h3 := h2 ++ _).
  assert (Hst3 : settled h3 = []).
  { unfold h3, h2, settled. rewrite !pick_snoc, !app_nil_r. exact Hst. }
  assert (Hw3 : at_work h3).
  { split.
    - revert Hc2. unfold h3, confirmed, asked, requests. by rewrite pick_snoc, app_nil_r.
    - unfold h3, published. rewrite pick_snoc. fold published. by rewrite Hp2. }
  apply safe_bind.
  apply (safe_mono _ _ (λ s h', steady h3 h' ∧ echoes s ∧ final s ∧ truthful s h'
    ∧ (js_Phase s = PHASE_CANCELLED → js_ExitCode s = 0 ∧ js_LogKey s = ""))).
  - intros s h4 (Hs & He & Hf & Ht & Hx). apply safe_act_bind; [done|]. intros []. apply safe_act_bind; [done|]. intros [].
    set (h5 := (h4 ++ _) ++ _). assert (Hs5 : steady h4 h5) by (unfold h5; steady_tac; reflexivity).
    split; [done|]. split; [done|]. split; [by eapply truthful_keeps; [apply steady_extends|]|].
    split; [by rewrite (steady_settled _ _ Hs5), (steady_settled _ _ Hs)|].
    split; [right; eapply at_work_steady; [|exact Hw3]; by etrans|]. split; [done|]. intros _ _. unfold h5. in_history.
  - destruct accepted as [[]|e].
    + apply safe_bind. eapply safe_mono; [|apply safe_execute; exact Hw3].
      intros s h4 [Hs (He & Hf & Ht & Hn)]. apply safe_act_bind; [done|]. intros cancelled.
      apply safe_act_bind; [done|]. intros stopped. set (h5 := (h4 ++ _) ++ _).
      assert (Hs5 : steady h3 h5) by (etrans; [exact Hs|]; unfold h5; steady_tac; reflexivity).
      split; [done|]. destruct (_ && _).
      * split; [by repeat split|]. split; [by right; right|]. split; [apply cancelled_truthful|done].
      * split; [done|]. split; [done|]. split; [|done].
        eapply truthful_keeps; [|exact Ht]. etrans; apply extends_snoc.
    + split; [reflexivity|]. destruct (failure_outcome ("publishing the accepted status: " +:+ err_text e) h3)
        as (He & Hf & Ht & _). by split_and!.
Qed.

(** ** [confirm], [run_job] and [handle] *)

Definition verdict_fact (v : verdict) (h : hist) : Prop :=
  match v with Start => confirmed h | Superseded => asked ACCEPTANCE_FENCED h | _ => True end.

Definition nothing_yet (h : hist) : Prop := untouched h ∧ published h = [] ∧ holds h = [] ∧ settled h = [].

Lemma untouched_nothing h : untouched h → nothing_yet h.
Proof.
  intros Hu. split; [done|]. unfold published, holds, settled.
  split_and!; apply pick_nil, (Forall_impl _ _ _ Hu); intros [X o x]; by destruct o.
Qed.

Lemma safe_confirm : safe engine_guard (confirm d) (λ v h', untouched h' ∧ verdict_fact v h') [].
Proof.
  unfold confirm. destruct (jd_ConfirmAcceptance d) eqn:Ec; cbn [negb]; [|split; [constructor|by left]].
  apply safe_act_bind; [done|]. intros answer. cbn [app].
  match goal with |- safe _ _ _ ?hh => set (h1 := hh) end.
  assert (Hu1 : untouched h1) by (by repeat constructor).
  assert (Hrest : answer ≠ Ok (VAnswer ACCEPTANCE_FENCED) →
    safe engine_guard (stopped <- act EStopping;;
      if stopped : bool then Done Stopping
      else if decide (step_effect_class (jd_Step d) ≠ EFFECT_CLASS_AT_MOST_ONCE) then Done Start
      else Done Unconfirmed) (λ v h', untouched h' ∧ verdict_fact v h') h1).
  { intros Hf. apply safe_act_bind; [done|]. intros stopped.
    assert (Hu : untouched (h1 ++ [Did EStopping stopped])) by (by repeat constructor).
    destruct stopped; [by split|]. case_decide as Hcl; [|by split]. split; [done|]. right; right. split; [done|].
    unfold asked, h1, requests. cbn. rewrite list_elem_of_singleton. congruence. }
  destruct answer as [[|[]|n]|e]; try (by apply Hrest); (split; [done|]).
  - right; left. unfold asked, h1, requests. cbn. by apply list_elem_of_singleton.
  - unfold verdict_fact, asked, h1, requests. cbn. by apply list_elem_of_singleton.
Qed.

Lemma safe_run_job :
  safe engine_guard (run_job cfg d) (λ r h',
    match r with
    | (Some s, Start) => ready s h'
    | (None, v) => v ≠ Start ∧ untouched h' ∧ verdict_fact v h'
    | _ => False
    end) [].
Proof.
  unfold run_job. destruct (refused cfg d) as [msg|].
  { destruct (failure_outcome msg []) as (He & Hf & Ht & _). split; [done|]. split; [done|]. split; [done|].
    split; [done|]. split; [by left|]. split; [done|]. by intros d' ?%elem_of_nil. }
  apply safe_bind. eapply safe_mono; [|apply safe_confirm]. intros v h1 [Hu Hv].
  destruct (untouched_nothing _ Hu) as (_ & Hp & Hh & Hst).
  destruct v; [|by split..]. apply safe_bind. eapply safe_mono; [|by apply safe_run_held]. done.
Qed.

(** How it ends: the delivery settled once, or left to be redelivered because
    the report could not be published. *)
Definition ended (h : hist) : Prop :=
  settled h = [tt]
  ∨ settled h = [] ∧ ∃ s e, final s ∧ echoes s ∧ Did (EPublish status_subject s) (Err e) ∈ h.

Lemma safe_handle_dispatch : safe engine_guard (handle_dispatch cfg d) (λ _ h', ended h') [].
Proof.
  unfold handle_dispatch. apply safe_bind. eapply safe_mono; [|apply safe_run_job].
  intros [[s|] v] h1 Hr; [destruct v; [|done..]|].
  - destruct Hr as (He & Hf & Ht & Hst & Hw & Hc & Hrel). apply safe_act_bind.
    { split; [done|]. split; [done|]. right. split; [done|]. split; [done|]. split; [|done].
      destruct Hw as [Hw|[? ?]]; [by left|by right]. }
    assert (Hset : ∀ x, settled (h1 ++ [Did (EPublish (SubjectStatus (jd_RunId d) (jd_StepId d)) s) x]) = []).
    { intros x. unfold settled. rewrite pick_snoc. fold settled. by rewrite Hst. }
    intros [[]|e].
    + apply safe_act; [right; exists s; split; [done|]; split; [done|]; apply snoc_elem|].
      intros []. left. unfold settled. rewrite pick_snoc. fold settled. by rewrite Hset.
    + right. split; [apply Hset|]. exists s, e. split; [done|]. split; [done|]. apply snoc_elem.
  - destruct Hr as (Hn & Hu & Hv). destruct (untouched_nothing _ Hu) as (_ & Hp & Hh & Hst).
    assert (Hone : ∀ X (o : eop X) x, settled (h1 ++ [Did o x]) = settled h1 ++ match o with
        EAck | ENak | ENakWithDelay _ => [tt] | _ => [] end).
    { intros X o x. unfold settled. rewrite pick_snoc. by destruct o. }
    destruct v; [done|..].
    + apply safe_act; [by left|]. intros []. left. by rewrite Hone, Hst.
    + apply safe_act; [done|]. intros []. left. by rewrite Hone, Hst.
    + apply safe_act_bind; [done|]. intros []. apply safe_act.
      * split; [apply snoc_elem|]. unfold holds, published. rewrite !pick_snoc, !app_nil_r. done.
      * intros []. left. unfold settled. rewrite !pick_snoc, app_nil_r. fold settled. by rewrite Hst.
Qed.

(** Every trace of a delivery that decodes. *)
Lemma handle_safe data :
  decode data = Some d →
  safe engine_guard (handle cfg decode data) (λ _ h', ended h' ∧ ∃ h0, h' = h0 ++ [Did EStopRenew tt]) [].
Proof.
  intros Hd. unfold handle. rewrite Hd. apply safe_bind. eapply safe_mono; [|apply safe_handle_dispatch].
  intros [] h1 He. apply safe_act; [done|]. intros []. split; [|by exists h1].
  assert (Hs : settled (h1 ++ [Did EStopRenew tt]) = settled h1) by (unfold settled; rewrite pick_snoc; apply app_nil_r).
  unfold ended. rewrite Hs. destruct He as [?|(? & s & e & Hf & Hec & Hin)]; [by left|right].
  split; [done|]. exists s, e. split_and!; [done..|]. apply elem_of_app. by left.
Qed.

(** A rule of the guard, read off a trace. *)
Lemma handle_call data tr r X (o : eop X) x pre post :
  decode data = Some d → runs (handle cfg decode data) tr r → tr = pre ++ Did o x :: post → engine_guard X o pre.
Proof.
  intros Hd Hr Heq. destruct (safe_runs _ _ _ _ _ _ (handle_safe data Hd) Hr) as [Hg _]. by eapply Hg.
Qed.

End Facts.

(** ** Why a step failed or was cancelled *)

Section Reasons.
Context (cfg : Config) (decode : string → option JobDispatch) (d : JobDispatch).

Abbreviation hist := (list (Program.did eop)).

(** The commands that were run, and how each ended. *)
Definition execs : hist → list (Z * Z * option GoErr) :=
  pick (λ X (o : eop X), match o in eop X return X → option (Z * Z * option GoErr) with
                         | EExec sb _ _ => λ x, Some (sb, fst x, snd x) | _ => λ _, None end).






Definition same_execs (h h' : hist) : Prop := extends h h' ∧ execs h' = execs h.

#[local] Instance same_execs_pre : PreOrder same_execs.
Proof. split; [by intros h|]. intros h1 h2 h3 [E1 S1] [E2 S2]. split; [by etrans|congruence]. Qed.
























End Reasons.

(** ** The properties *)

(** C5: a dispatch is acknowledged off the queue only when its bytes cannot be
    read, when the plane said a newer attempt holds the step and nothing at all
    was done for this one, or after the bus took a terminal status naming this
    very attempt and its fence. And when handling ends the delivery has been
    settled exactly once, or is left to be redelivered because the report
    could not be published. *)
Theorem status_before_ack cfg decode data tr r :
  runs (handle cfg decode data) tr r →
  (∀ pre x post, tr = pre ++ Did EAck x :: post →
     match decode data with
     | None => pre = []
     | Some d => asked d ACCEPTANCE_FENCED pre ∧ untouched pre ∨ reported d pre
     end)
  ∧ (r = Some tt → match decode data with None => settled tr = [tt] | Some d => ended d tr end).
Proof.
  intros Hr. destruct (decode data) as [d|] eqn:Hd.
  - split; [intros pre x post Heq; exact (handle_call cfg decode d data tr r _ _ _ _ _ Hd Hr Heq)|].
    intros ->. by destruct (proj2 (safe_runs _ _ _ _ _ _ (handle_safe cfg decode d data Hd) Hr) tt eq_refl).
  - assert (Hs : safe (λ X (o : eop X) h, match o with EAck => h = [] | _ => True end) (handle cfg decode data)
                   (λ _ h, settled h = [tt]) []) by (unfold handle; rewrite Hd; by repeat split).
    destruct (safe_runs _ _ _ _ _ _ Hs Hr) as [Hg Hq]. split; [|intros ->; by apply (Hq tt)].
    intros pre x post Heq. exact (Hg _ _ _ _ _ Heq).
Qed.

(** C6: an at-most-once step whose dispatch asks to be confirmed is not
    started, held, given a sandbox, a secret or a status, before the plane
    answered that its fence is current; and no dispatch is started after the
    plane answered that it was superseded. *)
Theorem at_most_once_waits_for_current cfg decode data d tr r pre X (o : eop X) x post :
  decode data = Some d → jd_ConfirmAcceptance d = true →
  runs (handle cfg decode data) tr r → tr = pre ++ Did o x :: post →
  match o with EHold _ | EAcquire _ | ERedeem _ _ | EExec _ _ _ => True | _ => False end →
  asked d ACCEPTANCE_CURRENT pre
  ∨ step_effect_class (jd_Step d) ≠ EFFECT_CLASS_AT_MOST_ONCE ∧ ¬ asked d ACCEPTANCE_FENCED pre.
Proof.
  intros Hd Hc Hr Heq Ho. pose proof (handle_call cfg decode d data tr r _ _ _ _ _ Hd Hr Heq) as Hg.
  assert (confirmed d pre) as [?|?] by (destruct o; destruct Ho; simpl in Hg; tauto); [congruence|done].
Qed.


(** A finding: the job leaves the heartbeats before its terminal status is on
    the wire, not once it is. *)
Lemma released_before_reported cfg decode data d tr r pre subject s x post :
  decode data = Some d → runs (handle cfg decode data) tr r → tr = pre ++ Did (EPublish subject s) x :: post →
  final s → holds pre ≠ [] → Did (EReleaseHold (key_of d)) tt ∈ pre.
Proof.
  intros Hd Hr Heq Hf Hh. destruct (handle_call cfg decode d data tr r _ _ _ _ _ Hd Hr Heq) as (_ & _ & Hcase).
  destruct Hcase as [(-> & _)|(_ & _ & _ & _ & Hrel)]; [by destruct Hf as [?|[?|?]]|].
  destruct (holds pre) as [|d' l]; [done|]. apply (Hrel d'). by left.
Qed.

(** A finding: a job somebody cancelled is reported with exit code zero and no
    log, not the code a killed step reports. *)
Lemma cancelled_reports_no_exit_code cfg decode data d tr r pre subject s x post :
  decode data = Some d → runs (handle cfg decode data) tr r → tr = pre ++ Did (EPublish subject s) x :: post →
  js_Phase s = PHASE_CANCELLED → js_ExitCode s = 0 ∧ js_LogKey s = "".
Proof.
  intros Hd Hr Heq Hp. destruct (handle_call cfg decode d data tr r _ _ _ _ _ Hd Hr Heq) as (_ & _ & Hcase).
  destruct Hcase as [(-> & _)|(_ & _ & _ & Hc & _)]; [done|by apply Hc].
Qed.

(** ** What it takes, it gives back *)

Definition acquired : list (Program.did eop) → list Z :=
  pick (λ X (o : eop X), match o in eop X return X → option Z with
                         | EAcquire _ => λ x, match x with Ok sb => Some sb | Err _ => None end | _ => λ _, None end).
Definition given_back : list (Program.did eop) → list Z :=
  pick (λ X (o : eop X), match o in eop X return X → option Z with ERelease sb => λ _, Some sb | _ => λ _, None end).
Definition entries : list (Program.did eop) → list string :=
  pick (λ X (o : eop X), match o in eop X return X → option string with
                         | EHold d => λ _, Some (key_of d) | _ => λ _, None end).
Definition removals : list (Program.did eop) → list string :=
  pick (λ X (o : eop X), match o in eop X return X → option string with
                         | EReleaseHold key => λ _, Some key | _ => λ _, None end).

(** Calls that take nothing and give nothing back. *)
Definition neutral (X : Type) (o : eop X) : Prop :=
  match o with EAcquire _ | ERelease _ | EHold _ | EReleaseHold _ => False | _ => True end.

Definition same_owed (h h' : list (Program.did eop)) : Prop :=
  acquired h' = acquired h ∧ given_back h' = given_back h ∧ entries h' = entries h ∧ removals h' = removals h.

#[local] Instance same_owed_pre : PreOrder same_owed.
Proof.
  split; [done|]. intros h1 h2 h3 (A1 & B1 & C1 & D1) (A2 & B2 & C2 & D2). split_and!; congruence.
Qed.

Lemma neutral_owed X (o : eop X) x h : neutral X o → same_owed h (h ++ [Did o x]).
Proof.
  intros Ho. split_and!; unfold acquired, given_back, entries, removals; rewrite pick_snoc; destruct o;
    by rewrite ?app_nil_r.
Qed.

Ltac neutral_tac :=
  repeat (first
    [ exact I
    | apply within_gfold; intros
    | apply within_bind; [|intros]
    | progress cbn [within act neutral gret gfail]
    | progress unfold wrap, gbind, geach, gret, gfail
    | match goal with
      | |- _ ∧ _ => split
      | |- ∀ _, _ => intros
      | |- within _ (match ?x with _ => _ end) => destruct x
      | |- within _ (if ?x then _ else _) => destruct x
      end ]).

Lemma in_sandbox_neutral d sb : within neutral (in_sandbox d sb).
Proof.
  unfold in_sandbox, materialise, materialise_one, openInput, redeem, redeem_one, after_exec, collect, collect_one.
  neutral_tac.
Qed.

(** Every sandbox taken in between was given back in between. *)
Definition even (h h' : list (Program.did eop)) : Prop :=
  ∃ sbs, acquired h' = acquired h ++ sbs ∧ given_back h' = given_back h ++ sbs
    ∧ entries h' = entries h ∧ removals h' = removals h.

#[local] Instance even_preorder : PreOrder even.
Proof.
  split; [by intros h; exists []; rewrite !app_nil_r|].
  intros h1 h2 h3 (s1 & A1 & B1 & C1 & D1) (s2 & A2 & B2 & C2 & D2). exists (s1 ++ s2).
  rewrite A2, B2, C2, D2, A1, B1, C1, D1, !app_assoc. done.
Qed.

Lemma owed_even h h' : same_owed h h' → even h h'.
Proof. intros (A & B & C & D). exists []. by rewrite !app_nil_r. Qed.

Lemma neutral_even X (o : eop X) x h : neutral X o → even h (h ++ [Did o x]).
Proof. intros Ho. by apply owed_even, neutral_owed. Qed.

Lemma sandbox_even h h' sb spec :
  same_owed (h ++ [Did (EAcquire spec) (Ok sb)]) h' → even h (h' ++ [Did (ERelease sb) tt]).
Proof.
  intros (A & B & C & D). exists [sb]. unfold acquired, given_back, entries, removals in *.
  rewrite !pick_snoc in *. rewrite ?app_nil_r in *. by rewrite A, B, C, D.
Qed.

Lemma refused_acquire_even h spec e : even h (h ++ [Did (EAcquire spec) (Err e)]).
Proof. exists []. unfold acquired, given_back, entries, removals. rewrite !pick_snoc, ?app_nil_r. done. Qed.

Lemma safe_neutral {A} (c : ecmd A) h : within neutral c → safe no_guard c (λ _ h', same_owed h h') h.
Proof. apply safe_within; [apply _|]. intros X o x h'. apply neutral_owed. Qed.

Lemma execute_even d h : safe no_guard (execute d) (λ _ h', even h h') h.
Proof.
  unfold execute. apply safe_act_bind; [done|]. intros [sb|e]; [|apply refused_acquire_even].
  apply safe_bind. eapply safe_mono; [|apply safe_neutral, in_sandbox_neutral].
  intros s h1 Hs. apply safe_act_bind; [done|]. intros []. eapply sandbox_even. exact Hs.
Qed.

(** All taken, sandboxes and entries of the heartbeat, is given back. *)
Definition settled_up (h : list (Program.did eop)) : Prop :=
  acquired h = given_back h ∧ entries h = removals h.

Lemma even_settled_up h h' : even h h' → settled_up h → settled_up h'.
Proof. intros (sbs & A & B & C & D) [H1 H2]. split; [by rewrite A, B, H1|by rewrite C, D]. Qed.

Lemma run_held_settled d h : settled_up h → safe no_guard (run_held d) (λ _ h', settled_up h') h.
Proof.
  intros [H1 H2]. unfold run_held. apply safe_act_bind; [done|]. intros []. apply safe_act_bind; [done|]. intros [].
  apply safe_act_bind; [done|]. intros accepted.
  set (h3 := ((h ++ [Did (EHold d) tt]) ++ _) ++ _).
  assert (Hheld : ∀ h4, even h3 h4 → settled_up ((h4 ++ [Did (ERemoveJob (key_of d)) tt])
                                              ++ [Did (EReleaseHold (key_of d)) tt])).
  { intros h4 (sbs & A & B & C & D). unfold h3, settled_up, acquired, given_back, entries, removals in *.
    rewrite !pick_snoc in *. rewrite ?app_nil_r in *. by rewrite A, B, C, D, H1, H2. }
  apply safe_bind. apply (safe_mono _ _ (λ _ h4, even h3 h4)).
  - intros s h4 He. apply safe_act_bind; [done|]. intros []. apply safe_act_bind; [done|]. intros [].
    by apply Hheld.
  - destruct accepted as [[]|e]; [|cbn [safe]; reflexivity]. apply safe_bind. eapply safe_mono; [|apply execute_even].
    intros s h4 He. apply safe_act_bind; [done|]. intros c. apply safe_act_bind; [done|]. intros st.
    cbn [safe]. etrans; [exact He|]. etrans; [|by apply neutral_even]. by apply neutral_even.
Qed.

Lemma confirm_neutral d : within neutral (confirm d).
Proof. unfold confirm, ask. neutral_tac. Qed.

Lemma run_job_settled cfg d h : settled_up h → safe no_guard (run_job cfg d) (λ _ h', settled_up h') h.
Proof.
  intros Hh. unfold run_job. destruct (refused cfg d); [done|]. apply safe_bind.
  eapply safe_mono; [|apply safe_neutral, confirm_neutral]. intros v h1 Ho.
  assert (H1 : settled_up h1) by (eapply even_settled_up; [apply owed_even; exact Ho|exact Hh]).
  destruct v; [|done..]. apply safe_bind. eapply safe_mono; [|by apply run_held_settled]. intros s h2 Hs. exact Hs.
Qed.

(** whatever happens to a dispatch, by the time it has been handled every
    sandbox acquired for it has been released, and every entry it made in the
    engine's heartbeats has been removed: nothing is left running on the host,
    and no job is declared that nobody works on. *)
Theorem engine_leaves_nothing cfg decode data tr :
  runs (handle cfg decode data) tr (Some tt) → acquired tr = given_back tr ∧ entries tr = removals tr.
Proof.
  intros Hr.
  assert (Hs : safe no_guard (handle cfg decode data) (λ _ h', settled_up h') []).
  { unfold handle. apply safe_bind.
    assert (Hlast : ∀ (c : ecmd unit) h, within neutral c → settled_up h → safe no_guard c (λ _ h', settled_up h') h).
    { intros c h Hw Hh. eapply safe_mono; [|by apply safe_neutral]. intros [] h' Ho.
      eapply even_settled_up; [apply owed_even; exact Ho|exact Hh]. }
    apply (safe_mono _ _ (λ _ h', settled_up h')); [intros [] h' Hh; by apply Hlast|].
    destruct (decode data) as [d|]; [|by apply Hlast]. unfold handle_dispatch. apply safe_bind.
    eapply safe_mono; [|by apply run_job_settled]. intros [[s|] []] h' Hh; apply Hlast;
      solve [done | unfold publish; neutral_tac]. }
  exact (proj2 (safe_runs _ _ _ _ _ _ Hs Hr) tt eq_refl).
Qed.

(** ** One dispatch, handled *)

Definition ex_engine_cfg : Config := mkConfig "e1" "trusted" true true true true 2 true "linux" [CAPABILITY_NETWORK] (Ok "host").
Definition ex_dispatch : JobDispatch :=
  mkJobDispatch "r1" "build" 2 "f2"
    (mkStep "build" "" "" EFFECT_CLASS_AT_MOST_ONCE [] [mkPort "bin" None] [CAPABILITY_SECRETS] LEASE_SCOPE_STEP ∅ "" "" 60 [] [])
    [mkInputRef "src" (mkDigest "sha256" "ab") ""] [mkSecretRef "TOKEN" "h1" 0] "acme/r1/build" ProtocolVersion "acme" ["make"] ∅ true.
Definition ex_decode (data : string) : option JobDispatch := if decide (data = "d") then Some ex_dispatch else None.
(** Everything goes well. *)
Definition ex_answer (X : Type) (o : eop X) (w : unit) : unit * X :=
  (w, match o in eop X return X with
      | EAck | ENak | ENakWithDelay _ | EStopRenew | EHold _ | EReleaseHold _ | EAddJob _ _ | ERemoveJob _
      | ERelease _ | ELogDiscard => tt
      | ERequest _ _ => Ok (VAnswer ACCEPTANCE_CURRENT)
      | EPublish _ _ => Ok tt
      | EStopping | EJobDone | EDeadline => false
      | EAcquire _ => Ok 7
      | EMkdir _ _ | EPut _ _ _ | EClose _ => None
      | EExec _ _ _ => (0, None)
      | EGet _ _ => Ok 4
      | ECasGet _ _ | EBlobRead _ _ => Ok 3
      | ECasPut _ _ => (Ok (mkDigest "sha256" "cd"), 5)
      | ERedeem _ _ => Ok "s3cret"
      | ELogOpen => Ok tt
      | ELogFlush _ _ => Ok tt
      end).

Definition ex_trace : list (Program.did eop) := trace_of ex_answer (handle ex_engine_cfg ex_decode "d") tt.

Lemma ex_trace_runs : runs (handle ex_engine_cfg ex_decode "d") ex_trace (Some tt).
Proof. exact (trace_of_runs ex_answer _ tt). Qed.

(** The call at a place of the trace. *)
Ltac at_place := vm_compute; reflexivity.


Lemma ex_held : ex_trace = firstn 1 ex_trace ++ Did (EHold ex_dispatch) tt :: skipn 2 ex_trace.
Proof. at_place. Qed.
Lemma ex_acked : ex_trace = firstn 26 ex_trace ++ Did EAck tt :: skipn 27 ex_trace.
Proof. at_place. Qed.

Lemma status_before_ack_witness :
  (asked ex_dispatch ACCEPTANCE_FENCED (firstn 26 ex_trace) ∧ untouched (firstn 26 ex_trace)
   ∨ reported ex_dispatch (firstn 26 ex_trace))
  ∧ ended ex_dispatch ex_trace.
Proof.
  destruct (status_before_ack ex_engine_cfg ex_decode "d" ex_trace (Some tt) ex_trace_runs) as [Hack Hend].
  exact (conj (Hack _ _ _ ex_acked) (Hend eq_refl)).
Defined.

Lemma at_most_once_waits_for_current_witness :
  asked ex_dispatch ACCEPTANCE_CURRENT (firstn 1 ex_trace)
  ∨ step_effect_class (jd_Step ex_dispatch) ≠ EFFECT_CLASS_AT_MOST_ONCE
    ∧ ¬ asked ex_dispatch ACCEPTANCE_FENCED (firstn 1 ex_trace).
Proof.
  exact (at_most_once_waits_for_current ex_engine_cfg ex_decode "d" ex_dispatch ex_trace (Some tt) _ _
           (EHold ex_dispatch) tt _ eq_refl eq_refl ex_trace_runs ex_held I).
Defined.


Lemma engine_leaves_nothing_witness :
  acquired ex_trace = given_back ex_trace ∧ entries ex_trace = removals ex_trace.
Proof. exact (engine_leaves_nothing ex_engine_cfg ex_decode "d" ex_trace ex_trace_runs). Defined.
