(* ===== verification/SecrecyFacts.v ===== *)
(** * A redeemed value reaches the step's process and nothing else

    A statement about two traces: hand the engine other values for the same
    references, and nothing it does differs but the environment of the command
    it executes. Programs are compared with the values of secrets varied and
    the environment of [Exec] hidden; the comparison is an equality of
    programs, so it is proved by rewriting. *)

From Stdlib Require Import FunctionalExtensionality.
From S2P Require Import Prelude Bytes Program Proto Sched Plane Control Engine EngineFacts.

(** ** Other values, and what is hidden *)

Section Vary.
Context (f : string → SecretRef → string → string).

(** The answer, with [f]'s value for a redeemed one. *)
Definition retell {X} (o : eop X) : X → X :=
  match o in eop X return X → X with
  | ERedeem tenant ref => λ x, match x with Ok v => Ok (f tenant ref v) | Err e => Err e end
  | _ => λ x, x
  end.

(** The call, with the environment of a command left out. *)
Definition veil {X} (o : eop X) : eop X :=
  match o in eop X return eop X with
  | EExec sb c timeout => EExec sb (mkExecCmd (ec_Args c) ∅) timeout
  | o => o
  end.

Definition veiled (x : Program.did eop) : Program.did eop := let 'Did o x := x in Did (veil o) x.
Definition retold (x : Program.did eop) : Program.did eop := let 'Did o x := x in Did o (retell o x).

(** A program told [f]'s values, its commands' environments hidden. *)
Fixpoint vary {A} (c : ecmd A) : ecmd A :=
  match c with
  | Done a => Done a
  | Call o k => Call (veil o) (λ x, vary (k (retell o x)))
  end.

Lemma vary_bind {A B} (c : ecmd A) (g : A → ecmd B) : vary (cbind c g) = cbind (vary c) (λ a, vary (g a)).
Proof.
  induction c as [a|X o k IH]; cbn [vary cbind]; [done|]. f_equal.
  apply functional_extensionality. intros x. apply IH.
Qed.

(** A trace of the varied program is one of the program, retold. *)
Lemma runs_vary {A} (c : ecmd A) tr r :
  runs (vary c) tr r → ∃ tr', runs c tr' r ∧ map veiled tr' = map retold tr.
Proof.
  revert tr. induction c as [a|X o k IH]; intros tr; cbn [vary].
  - intros [-> [-> | ->]]%runs_Done; exists []; (split; [constructor|done]).
  - intros [[-> ->]|(x & tr1 & -> & Hr)]%runs_Call; [exists []; split; [constructor|done]|].
    destruct (IH _ _ Hr) as (tr2 & Hr2 & Heq). exists (Did o (retell o x) :: tr2). split; [by constructor|].
    cbn [map]. rewrite Heq. f_equal. by destruct o.
Qed.
End Vary.

Definition as_told (tenant : string) (ref : SecretRef) (v : string) : string := v.

Lemma retell_as_told {X} (o : eop X) x : retell as_told o x = x.
Proof. destruct o; try done. by destruct x. Qed.

Lemma vary_veiled {A} (c : ecmd A) tr r : runs c tr r → runs (vary as_told c) (map veiled tr) r.
Proof.
  induction 1 as [c|a|X o k x tr r Hr IH]; cbn [map vary]; [constructor|constructor|].
  apply (runs_call _ (λ x, vary as_told (k (retell as_told o x)))). by rewrite retell_as_told.
Qed.

Lemma veiled_retold f tr : map (retold f) (map veiled tr) = map veiled (map (retold f) tr).
Proof. rewrite !map_map. apply map_ext. intros [X o x]. by destruct o. Qed.

(** ** Programs that do not depend on what was redeemed *)

Definition told_alike {A} (c : ecmd A) : Prop := ∀ f, vary f c = vary as_told c.

(** A program of calls that are neither hidden nor varied. *)
Definition plain (X : Type) (o : eop X) : Prop :=
  match o with ERedeem _ _ | EExec _ _ _ => False | _ => True end.

Lemma plain_alike {A} (c : ecmd A) : within plain c → told_alike c.
Proof.
  intros Hw f. induction c as [a|X o k IH]; [done|]. destruct Hw as [Ho Hk]. cbn [vary].
  f_equal. apply functional_extensionality. intros x.
  assert (retell f o x = x ∧ retell as_told o x = x) as [-> ->] by (by destruct o). by apply IH.
Qed.

Lemma alike_bind {A B} (c : ecmd A) (g : A → ecmd B) :
  told_alike c → (∀ a, told_alike (g a)) → told_alike (cbind c g).
Proof.
  intros Hc Hg f. rewrite !vary_bind, Hc. f_equal. apply functional_extensionality. intros a. apply Hg.
Qed.

Lemma alike_gbind {A B} (c : ego A) (g : A → ego B) :
  told_alike c → (∀ a, told_alike (g a)) → told_alike (gbind c g).
Proof. intros Hc Hg. apply alike_bind; [done|]. intros [a|e]; [apply Hg|done]. Qed.

(** What is bound to the secrets' names does not show, if what follows runs the
    same whatever it is. *)
Lemma alike_redeem {B} t refs env (g : result GoErr (gmap string string) → ecmd B) :
  (∀ r1 r2 f, match r1, r2 with Ok _, Ok _ => True | Err e1, Err e2 => e1 = e2 | _, _ => False end →
     vary f (g r1) = vary as_told (g r2)) →
  told_alike (cbind (gfold (redeem_one t) env refs) g).
Proof.
  intros Hg f. assert (Hgen : ∀ env1 env2,
    vary f (cbind (gfold (redeem_one t) env1 refs) g) = vary as_told (cbind (gfold (redeem_one t) env2 refs) g)).
  { induction refs as [|ref refs IH]; intros env1 env2; cbn [gfold]; [by apply Hg|].
    unfold redeem_one at 1 3, gbind, wrap, act. cbn [cbind vary]. f_equal. apply functional_extensionality.
    intros [v|e]; cbn [retell cbind]; [apply IH|by apply Hg]. }
  apply Hgen.
Qed.

Ltac plain_tac :=
  repeat (first
    [ exact I
    | apply within_gfold; intros
    | apply within_bind; [|intros]
    | progress cbn [within act plain gret gfail]
    | progress unfold wrap, gbind, geach, gret, gfail
    | match goal with
      | |- _ ∧ _ => split
      | |- ∀ _, _ => intros
      | |- within _ (match ?x with _ => _ end) => destruct x
      | |- within _ (if ?x then _ else _) => destruct x
      end ]).

Lemma after_exec_plain d sb code err : within plain (after_exec d sb code err).
Proof. unfold after_exec, collect, collect_one. plain_tac. Qed.

(** From the environment on. *)
Definition with_env_ready (d : JobDispatch) (sb : Z) (env : gmap string string) : ego JobStatus :=
  _ <~ wrap "opening the log" (act ELogOpen);;
  ran <- act (EExec sb (mkExecCmd (jd_Command d) env) (timeout_of d));;
  s <- after_exec d sb (fst ran) (snd ran);;
  _ <- act ELogDiscard;;
  gret s.

Lemma env_does_not_show d sb env1 env2 f :
  vary f (with_env_ready d sb env1) = vary as_told (with_env_ready d sb env2).
Proof.
  assert (Hafter : ∀ ran : Z * option GoErr, told_alike (s <- after_exec d sb (fst ran) (snd ran);;
                                              _ <- act ELogDiscard;; gret s)).
  { intros ran. apply plain_alike, within_bind; [apply after_exec_plain|]. intros s. plain_tac. }
  unfold with_env_ready, gbind, wrap, act. cbn [cbind vary veil retell]. f_equal.
  apply functional_extensionality. intros [u|e]; [|done]. cbn [vary veil ec_Args cbind]. f_equal.
  apply functional_extensionality. intros ran. cbn [retell]. apply Hafter.
Qed.

Lemma in_sandbox_alike d sb : told_alike (in_sandbox d sb).
Proof.
  unfold in_sandbox. apply alike_bind; [|intros a; by apply plain_alike].
  apply alike_gbind; [apply plain_alike; plain_tac|]. intros _.
  apply alike_gbind; [apply plain_alike; unfold materialise, materialise_one, openInput; plain_tac|]. intros _.
  change (told_alike (stepEnv <~ (if decide (jd_Secrets d = []) then gret (jd_Env d) else redeem d);;
                      with_env_ready d sb stepEnv)).
  assert (Henv : ∀ env, told_alike (with_env_ready d sb env)) by (intros env f; apply env_does_not_show).
  case_decide as Hs; [by apply alike_gbind; [apply plain_alike|]|].
  unfold redeem. apply alike_redeem. intros [e1|e1] [e2|e2] f; try done; [|by intros ->].
  intros _. apply env_does_not_show.
Qed.

Lemma execute_alike d : told_alike (execute d).
Proof.
  unfold execute. apply alike_bind; [by apply plain_alike|]. intros [sb|e]; [|by apply plain_alike].
  apply alike_bind; [apply in_sandbox_alike|]. intros s. apply plain_alike. plain_tac.
Qed.

Lemma handle_alike cfg decode data : told_alike (handle cfg decode data).
Proof.
  unfold handle. apply alike_bind; [|intros a; apply plain_alike; plain_tac].
  destruct (decode data) as [d|]; [|apply plain_alike; plain_tac]. unfold handle_dispatch.
  apply alike_bind; [|intros [s v]; apply plain_alike; unfold publish; destruct s, v; plain_tac].
  unfold run_job. destruct (refused cfg d); [by apply plain_alike|].
  apply alike_bind; [apply plain_alike; unfold confirm, ask; plain_tac|].
  intros []; [|by apply plain_alike..]. apply alike_bind; [|by intros; apply plain_alike].
  unfold run_held. apply alike_bind; [apply plain_alike; plain_tac|]. intros _.
  apply alike_bind; [apply plain_alike; plain_tac|]. intros _.
  apply alike_bind; [apply plain_alike; unfold publish; plain_tac|]. intros accepted.
  apply alike_bind; [|intros s; apply plain_alike; plain_tac].
  destruct accepted as [[]|e]; [|by apply plain_alike].
  apply alike_bind; [apply execute_alike|]. intros s. apply plain_alike; plain_tac.
Qed.

(** C7: a redeemed value reaches the environment of the command the step runs
    and nothing else. Take any trace of an engine handling a dispatch, and any
    other values its redemptions might have returned: there is a trace with
    those values, and the same answers to every other call, in which every
    call is the same, sandbox specifications, statuses, log keys, stored
    outputs and acknowledgements, but the environments handed to [Exec]; and
    it ends the same way. *)
Theorem redeemed_values_reach_exec_only cfg decode data tr r (f : string → SecretRef → string → string) :
  runs (handle cfg decode data) tr r →
  ∃ tr', runs (handle cfg decode data) tr' r ∧ map veiled tr' = map veiled (map (retold f) tr).
Proof.
  intros Hr. apply vary_veiled in Hr. rewrite <-(handle_alike _ _ _ f) in Hr.
  destruct (runs_vary f _ _ _ Hr) as (tr' & Hr' & Heq). exists tr'. split; [done|].
  by rewrite Heq, veiled_retold.
Qed.

Lemma redeemed_values_reach_exec_only_witness :
  ∃ tr', runs (handle ex_engine_cfg ex_decode "d") tr' (Some tt)
    ∧ map veiled tr' = map veiled (map (retold (λ _ _ _, "another")) ex_trace).
Proof.
  exact (redeemed_values_reach_exec_only ex_engine_cfg ex_decode "d" ex_trace (Some tt) (λ _ _ _, "another")
           ex_trace_runs).
Defined.
