(* ===== verification/PumpFacts.v ===== *)
(** * What an engine takes on, and what reaches it

    How many dispatches it holds and runs whatever its pumps do
    ([engine_holds_what_it_can_run]); that the queues it binds are those the
    scheduler publishes the steps it was matched with to
    ([placed_work_is_pulled]); that the two copies of a step's output are the
    same ([live_copy_is_the_log]); and how its tables answer a cancel. *)

From S2P Require Import Prelude Bytes Effects Program Proto Fleet FleetFacts Registry RegistryFacts RunStore Sched Plane Control Engine.

(** ** Counting pumps *)

Definition count {A} (P : A → bool) (l : list A) : Z := Z.of_nat (length (List.filter P l)).

Lemma count_insert {A} (P : A → bool) l i x y :
  l !! i = Some x → count P (<[i := y]> l) = count P l - Z.b2z (P x) + Z.b2z (P y).
Proof.
  unfold count. revert i. induction l as [|z l IH]; intros [|i]; simpl; intros Hi; [done|done|simplify_eq|].
  - destruct (P x), (P y); simpl; lia.
  - specialize (IH i Hi). destruct (P z); simpl; lia.
Qed.

Lemma count_bounds {A} (P : A → bool) l : 0 ≤ count P l ≤ Z.of_nat (length l).
Proof. unfold count. induction l as [|z l IH]; simpl; [lia|]. destruct (P z); simpl; lia. Qed.

Lemma count_elem {A} (P : A → bool) l i x : l !! i = Some x → P x = true → 1 ≤ count P l.
Proof.
  unfold count. revert i. induction l as [|z l IH]; intros [|i] Hi HP; simplify_eq/=; [by rewrite HP; simpl; lia|].
  specialize (IH i Hi HP). destruct (P z); simpl; lia.
Qed.

Definition is_waiting (p : pump) : bool := match p with Waiting => true | _ => false end.
Definition is_fetching (p : pump) : bool := match p with Fetching _ => true | _ => false end.

(** ** The invariant *)

Record engine_inv (slots : Z) (queues : nat) (e : engine) : Prop :=
  { inv_limit : rm_limit (en_room e) = slots ∧ en_slots e = slots;
    inv_queues : length (en_pumps e) = queues;
    inv_taken : en_taken e = Z.of_nat (en_running e) ∧ en_taken e ≤ slots;
    inv_held : rm_held (en_room e)
               = count is_waiting (en_pumps e) + Z.of_nat (en_running e) + Z.of_nat (en_leaving e);
    inv_live : rm_live (en_room e) = true ↔ rm_held (en_room e) < slots;
    inv_fetching : ∀ i cx, en_pumps e !! i = Some (Fetching cx) → (cx ≤ rm_open (en_room e))%nat;
    inv_parked : ∀ i ch, en_pumps e !! i = Some (Parked ch) →
      (ch < rm_reopened (en_room e))%nat ∨ ch = rm_reopened (en_room e) ∧ slots ≤ rm_held (en_room e);
    inv_races : rm_held (en_room e) + count is_fetching (en_pumps e) ≤ slots - 1 + Z.of_nat queues
                ∨ rm_held (en_room e) ≤ slots - 1 }.

Lemma new_engine_inv slots queues : 0 < slots → engine_inv slots queues (new_engine slots queues).
Proof.
  intros Hs. assert (Hc : ∀ P, P Top = false → count P (replicate queues Top) = 0).
  { intros P HP. unfold count. induction queues as [|n IH]; [done|]. simpl. by rewrite HP. }
  assert (Ht : ∀ i p, replicate queues Top !! i = Some p → p = Top) by (by intros i p [? _]%lookup_replicate).
  split; simpl.
  - done.
  - by rewrite length_replicate.
  - lia.
  - by rewrite Hc.
  - by split.
  - by intros i cx Hp%Ht.
  - by intros i ch Hp%Ht.
  - right. lia.
Qed.

(** A pump moves; the room does not. *)
Lemma move_inv slots queues e i p p' :
  engine_inv slots queues e → en_pumps e !! i = Some p →
  is_waiting p = false → is_waiting p' = false →
  (∀ cx, p' = Fetching cx → cx = rm_open (en_room e) ∧ rm_held (en_room e) < slots) →
  (∀ ch, p' = Parked ch → ch = rm_reopened (en_room e) ∧ slots ≤ rm_held (en_room e)) →
  engine_inv slots queues (with_pump i p' e).
Proof.
  intros [Hl Hq Ht Hh Hlv Hf Hp Hr] Hi Hw Hw' Hf' Hp'. split; simpl; try done.
  - by rewrite length_insert.
  - rewrite (count_insert _ _ _ _ _ Hi), Hw, Hw'. simpl. lia.
  - intros j cx. destruct (decide (i = j)) as [->|Hne]; [|rewrite list_lookup_insert_ne by done; apply Hf].
    rewrite list_lookup_insert_eq by (by eapply lookup_lt_Some). intros [= ->].
    destruct (Hf' _ eq_refl) as [-> _]. lia.
  - intros j ch. destruct (decide (i = j)) as [->|Hne]; [|rewrite list_lookup_insert_ne by done; apply Hp].
    rewrite list_lookup_insert_eq by (by eapply lookup_lt_Some). intros [= ->]. right. by apply Hp'.
  - rewrite (count_insert _ _ _ _ _ Hi). destruct (is_fetching p') eqn:Ep; [|destruct (is_fetching p); simpl; lia].
    destruct p' as [|ch|cx| |]; try done. destruct (Hf' cx eq_refl) as [_ Hlt]. right. lia.
Qed.

(** The pumps after one leaves the state [p]. *)
Lemma lookup_moved {A} (l : list A) i j p' q : <[i := p']> l !! j = Some q → j = i ∧ q = p' ∨ l !! j = Some q.
Proof.
  destruct (decide (i = j)) as [->|Hne]; [|rewrite list_lookup_insert_ne by done; by right].
  intros Hl. left. split; [done|]. destruct (decide (j < length l)%nat) as [Hlt|Hge].
  - rewrite list_lookup_insert_eq in Hl by done. by simplify_eq.
  - rewrite list_insert_ge in Hl by lia. apply lookup_lt_Some in Hl. lia.
Qed.

(** The room gives one place back, whatever the pumps and steps become. *)
Lemma release_inv slots queues e pumps running leaving :
  engine_inv slots queues e →
  length pumps = queues →
  (∀ i cx, pumps !! i = Some (Fetching cx) → en_pumps e !! i = Some (Fetching cx)) →
  (∀ i ch, pumps !! i = Some (Parked ch) → en_pumps e !! i = Some (Parked ch)) →
  count is_fetching pumps = count is_fetching (en_pumps e) →
  en_taken e = Z.of_nat running →
  rm_held (en_room e) - 1 = count is_waiting pumps + Z.of_nat running + Z.of_nat leaving →
  engine_inv slots queues (mkEngine (room_release (en_room e)) (en_slots e) (en_taken e) pumps running leaving).
Proof.
  intros [[Hl Hs] Hq [Ht Htl] Hh Hlv Hf Hp Hr] Hlen HF HP Hc Hrun Hheld.
  unfold room_release. split; cbn [en_room en_slots en_taken en_pumps en_running en_leaving]; try done.
  - split; [|done]. by case_decide.
  - rewrite <-Hheld. by case_decide.
  - rewrite Hl in *. case_decide as Hd; cbn [rm_live rm_held]; [split; [lia|done]|]. rewrite Hlv. lia.
  - intros i cx Hi%HF%Hf. case_decide; cbn [rm_open]; lia.
  - intros i ch Hi%HP%Hp. rewrite Hl in *. case_decide as Hd; cbn [rm_reopened rm_held].
    + left. destruct Hi as [?|[-> ?]]; lia.
    + destruct Hi as [?|[-> ?]]; [by left|right]. split; [done|lia].
  - rewrite Hc. case_decide; cbn [rm_held]; destruct Hr; [left|right|left|right]; lia.
Qed.

Lemma fetched_inv slots queues e i cx :
  engine_inv slots queues e → en_pumps e !! i = Some (Fetching cx) →
  engine_inv slots queues (mkEngine (room_hold (en_room e)) (en_slots e) (en_taken e) (<[i := Waiting]> (en_pumps e))
                             (en_running e) (en_leaving e)).
Proof.
  intros [[Hl Hs] Hq [Ht Htl] Hh Hlv Hf Hp Hr] Hi.
  unfold room_hold. split; cbn [en_room en_slots en_taken en_pumps en_running en_leaving rm_limit rm_held rm_live rm_open rm_reopened];
    rewrite ?Hl in *; try done.
  - by rewrite length_insert.
  - rewrite (count_insert _ _ _ _ _ Hi). simpl. lia.
  - case_decide; [split; [done|lia]|]. rewrite Hlv. lia.
  - intros j cx' [[-> ?]|Hj]%lookup_moved; [done|by eapply Hf].
  - intros j ch [[-> ?]|Hj]%lookup_moved; [done|]. destruct (Hp _ _ Hj) as [?|[-> ?]]; [by left|right]. split; [done|lia].
  - rewrite (count_insert _ _ _ _ _ Hi). pose proof (count_elem is_fetching _ _ _ Hi eq_refl).
    pose proof (count_bounds is_fetching (en_pumps e)). simpl. left. destruct Hr; lia.
Qed.

Lemma pump_step_inv slots queues e e' : engine_inv slots queues e → pump_step e e' → engine_inv slots queues e'.
Proof.
  intros Hinv Hs. destruct Hs as [i e Hi|i ch e Hi Hch|i cx e Hi Hcx|i cx e Hi|i e Hi Hsl|i e Hi|i p e Hi Hp|n e Hn|n e Hn].
  - pose proof (inv_limit _ _ _ Hinv) as [Hl _]. unfold room_wait. rewrite Hl.
    case_decide as Hlt; (eapply move_inv; [exact Hinv|exact Hi|done|done|..]); try done.
    + by intros cx [= <-].
    + intros ch [= <-]. split; [done|lia].
  - by eapply move_inv.
  - by eapply move_inv.
  - by eapply fetched_inv.
  - destruct Hinv as [[Hl Hs] Hq [Ht Htl] Hh Hlv Hf Hp Hr]. split; simpl; try done.
    + by rewrite length_insert.
    + lia.
    + rewrite (count_insert _ _ _ _ _ Hi). simpl. lia.
    + intros j cx [[-> ?]|Hj]%lookup_moved; [done|by eapply Hf].
    + intros j ch [[-> ?]|Hj]%lookup_moved; [done|by eapply Hp].
    + rewrite (count_insert _ _ _ _ _ Hi). simpl. destruct Hr; [left|right]; lia.
  - pose proof Hinv as [_ Hq [Ht _] Hh _ _ _ _]. eapply release_inv; try done.
    + by rewrite length_insert.
    + intros j cx [[-> ?]|Hj]%lookup_moved; done.
    + intros j ch [[-> ?]|Hj]%lookup_moved; done.
    + rewrite (count_insert _ _ _ _ _ Hi). simpl. lia.
    + rewrite (count_insert _ _ _ _ _ Hi). simpl. lia.
  - eapply move_inv; try done. by destruct p.
  - destruct Hinv as [[Hl Hs] Hq [Ht Htl] Hh Hlv Hf Hp Hr]. split; simpl; try done; lia.
  - pose proof Hinv as [_ Hq [Ht _] Hh _ _ _ _]. eapply release_inv; try done. lia.
Qed.

(** however its pumps fetch, wait, start, finish and stop, an engine never
    runs more steps than it has slots, and holds at most its slots and one
    dispatch per further queue. While it is full every fetch is abandoned, so
    new work stays on the queue for an engine with room; and as soon as it is
    not, no pump is still waiting to be told. *)
Theorem engine_holds_what_it_can_run slots queues e :
  0 < slots → (0 < queues)%nat → rtc pump_step (new_engine slots queues) e →
  Z.of_nat (en_running e) ≤ slots
  ∧ count is_waiting (en_pumps e) + Z.of_nat (en_running e) + Z.of_nat (en_leaving e) ≤ slots - 1 + Z.of_nat queues
  ∧ (slots ≤ rm_held (en_room e) → ∀ i cx, en_pumps e !! i = Some (Fetching cx) → fetch_live (en_room e) cx = false)
  ∧ (rm_held (en_room e) < slots → ∀ i ch, en_pumps e !! i = Some (Parked ch) → (ch < rm_reopened (en_room e))%nat).
Proof.
  intros Hs Hq Hr. assert (Hinv : engine_inv slots queues e).
  { apply (rtc_invariant pump_step (engine_inv slots queues) _ _ (λ e e', pump_step_inv slots queues e e')) in Hr; [done|].
    by apply new_engine_inv. }
  destruct Hinv as [_ _ [Ht Htl] Hh Hlv _ Hp Hr']. split; [lia|]. split.
  { pose proof (count_bounds is_fetching (en_pumps e)). destruct Hr'; lia. }
  split.
  - intros Hfull i cx _. unfold fetch_live. destruct (rm_live (en_room e)); [|by rewrite andb_false_r].
    destruct Hlv as [Hlv _]. specialize (Hlv eq_refl). lia.
  - intros Hroom i ch Hi. destruct (Hp _ _ Hi) as [?|[_ ?]]; [done|lia].
Qed.

(** ** The queues it binds *)

Definition cap_lt (a b : Capability) : Prop := Capability_number a < Capability_number b.

#[local] Instance cap_lt_antisym : AntiSymm (=) cap_lt.
Proof. intros a b. unfold cap_lt. lia. Qed.
#[local] Instance cap_le_total : Total cap_le.
Proof. intros a b. unfold cap_le. lia. Qed.
#[local] Instance cap_le_trans : Transitive cap_le.
Proof. intros a b c. unfold cap_le. lia. Qed.

Lemma canonical_inj a b : canonical a → canonical b → Capability_number a = Capability_number b → a = b.
Proof. intros Ha Hb E. rewrite <-(Capability_of_number a), <-(Capability_of_number b), E; done. Qed.

Lemma Compact_cons2 x y l : Compact (x :: y :: l) = if decide (x = y) then Compact (y :: l) else x :: Compact (y :: l).
Proof. done. Qed.

Lemma Compact_elem c l : c ∈ Compact l ↔ c ∈ l.
Proof.
  induction l as [|x [|y l] IH]; [done|done|]. rewrite Compact_cons2. case_decide as Hd.
  - subst. rewrite IH, !elem_of_cons. tauto.
  - rewrite !elem_of_cons in *. tauto.
Qed.

Lemma Compact_strict l : Forall canonical l → StronglySorted cap_le l → StronglySorted cap_lt (Compact l).
Proof.
  induction l as [|x [|y l] IH]; intros Hc Hs; [constructor|repeat constructor|]. rewrite Compact_cons2.
  apply Forall_cons in Hc as [Hx Hc]. apply StronglySorted_inv in Hs as [Hs Hall]. specialize (IH Hc Hs).
  case_decide as Hd; [done|]. constructor; [done|]. apply Forall_forall. intros z Hz. rewrite Compact_elem in Hz.
  rewrite Forall_forall in Hall. unfold cap_lt, cap_le in *.
  assert (Hyz : Capability_number y ≤ Capability_number z).
  { apply StronglySorted_inv in Hs as [_ Hy]. rewrite Forall_forall in Hy.
    apply elem_of_cons in Hz as [->|Hz]; [lia|by apply Hy]. }
  assert (Hxy : Capability_number x ≤ Capability_number y) by (apply Hall; by left).
  destruct (decide (Capability_number x = Capability_number y)) as [E|]; [|lia].
  apply Forall_cons in Hc as [Hcy _]. by apply canonical_inj in E.
Qed.

Lemma normaliseCaps_elem c l : c ∈ normaliseCaps l ↔ c ∈ l ∧ c ≠ CAPABILITY_UNSPECIFIED.
Proof.
  unfold normaliseCaps. rewrite Compact_elem, merge_sort_Permutation, !list_elem_of_In, filter_In.
  unfold named. by rewrite bool_decide_eq_true.
Qed.

Lemma Forall_canonical_normalise l : Forall canonical l → Forall canonical (normaliseCaps l).
Proof. rewrite !Forall_forall. intros Hl c [Hc _]%normaliseCaps_elem. by apply Hl. Qed.

Lemma normaliseCaps_strict l : Forall canonical l → StronglySorted cap_lt (normaliseCaps l).
Proof.
  intros Hc. unfold normaliseCaps. apply Compact_strict; [|apply StronglySorted_merge_sort; apply _].
  rewrite Forall_forall in *. intros c. rewrite merge_sort_Permutation, list_elem_of_In, filter_In, <-list_elem_of_In.
  intros [Hin _]. by apply Hc.
Qed.

Lemma cap_lt_NoDup l : StronglySorted cap_lt l → NoDup l.
Proof.
  induction 1 as [|c l Hs IH Hall]; [constructor|]. constructor; [|done].
  intros Hin. rewrite Forall_forall in Hall. specialize (Hall c Hin). unfold cap_lt in Hall. lia.
Qed.

(** The hash is a function of the set. *)
Lemma normaliseCaps_ext l1 l2 :
  Forall canonical l1 → Forall canonical l2 →
  (∀ c, c ≠ CAPABILITY_UNSPECIFIED → c ∈ l1 ↔ c ∈ l2) → normaliseCaps l1 = normaliseCaps l2.
Proof.
  intros H1 H2 He. apply (StronglySorted_unique cap_lt); [by apply normaliseCaps_strict..|].
  apply NoDup_Permutation; [by apply cap_lt_NoDup, normaliseCaps_strict..|].
  intros c. rewrite !normaliseCaps_elem. specialize (He c). tauto.
Qed.

(** Every subset is some mask's. *)
Lemma masked_above m m' i l : (∀ j, i ≤ j → Z.testbit m j = Z.testbit m' j) → masked m i l = masked m' i l.
Proof.
  revert i. induction l as [|c l IH]; intros i Hm; cbn [masked]; [done|]. rewrite Hm by lia. f_equal.
  apply IH. intros j Hj. apply Hm. lia.
Qed.

Lemma put_bit_nonneg (b : bool) m i : 0 ≤ m → 0 ≤ (if b then Z.setbit m i else Z.clearbit m i).
Proof.
  intros Hm. destruct b; unfold Z.setbit, Z.clearbit.
  - apply Z.lor_nonneg. split; [done|]. apply Z.shiftl_nonneg. lia.
  - apply Z.ldiff_nonneg. by left.
Qed.

Lemma mask_exists (P : Capability → bool) l i :
  0 ≤ i → ∃ m, 0 ≤ m < 2 ^ (i + Z.of_nat (length l)) ∧ masked m i l = List.filter P l.
Proof.
  revert i. induction l as [|c l IH]; intros i Hi; cbn [masked List.filter length].
  { exists 0. split; [|done]. split; [lia|]. apply Z.pow_pos_nonneg; lia. }
  destruct (IH (i + 1) ltac:(lia)) as (m & Hm & Heq).
  replace (i + 1 + Z.of_nat (length l)) with (i + Z.of_nat (S (length l))) in Hm by lia.
  set (n := i + Z.of_nat (S (length l))) in *.
  assert (Hbits : ∀ z, 0 ≤ z → (∀ j, n ≤ j → Z.testbit z j = false) → z < 2 ^ n).
  { intros z Hz Hb. destruct (decide (z = 0)) as [->|]; [apply Z.pow_pos_nonneg; lia|].
    apply Z.log2_lt_pow2; [lia|]. destruct (decide (Z.log2 z < n)); [done|].
    assert (Hl : Z.testbit z (Z.log2 z) = false) by (apply Hb; lia). rewrite Z.bit_log2 in Hl by lia. done. }
  assert (Hmb : ∀ j, n ≤ j → Z.testbit m j = false).
  { intros j Hj. apply Z.bits_above_log2; [lia|]. destruct (decide (m = 0)) as [->|]; [simpl; lia|].
    apply Z.log2_lt_pow2; [lia|]. eapply Z.lt_le_trans; [apply Hm|]. apply Z.pow_le_mono_r; lia. }
  exists (if P c then Z.setbit m i else Z.clearbit m i). split; [split|].
  - apply put_bit_nonneg; lia.
  - apply Hbits; [apply put_bit_nonneg; lia|].
    intros j Hj. destruct (P c); [rewrite Z.setbit_neq by lia|rewrite Z.clearbit_neq by lia]; by apply Hmb.
  - rewrite <-Heq. rewrite (masked_above _ m (i + 1)).
    + destruct (P c); [by rewrite Z.setbit_eq by lia|by rewrite Z.clearbit_eq].
    + intros j Hj. destruct (P c); [by rewrite Z.setbit_neq by lia|by rewrite Z.clearbit_neq by lia].
Qed.

Lemma satisfiable_caps sha256 caps want hashes :
  Forall canonical caps →
  satisfiableCapsHashes sha256 caps = Ok hashes →
  (∀ c, c ∈ want → c ≠ CAPABILITY_UNSPECIFIED → c ∈ caps) → CapsHash sha256 want ∈ hashes.
Proof.
  intros Hc Hh Hw. unfold satisfiableCapsHashes in Hh. case_decide; [done|]. injection Hh as <-.
  set (granted := normaliseCaps caps) in *.
  destruct (mask_exists (λ c, bool_decide (c ∈ want)) granted 0) as (m & Hm & Heq); [lia|].
  assert (Hhash : CapsHash sha256 want = CapsHash sha256 (masked m 0 granted)).
  { assert (Hn : normaliseCaps want = normaliseCaps (masked m 0 granted)); [rewrite Heq|unfold CapsHash; by rewrite Hn].
    assert (Hsub : Forall canonical (List.filter (λ c, bool_decide (c ∈ want)) granted)).
    { apply Forall_forall. intros c [Hin _]%elem_of_filter_b.
      pose proof (Forall_canonical_normalise _ Hc) as Hg. rewrite Forall_forall in Hg. by apply Hg. }
    assert (Hwant : normaliseCaps want = normaliseCaps (List.filter named want)).
    { unfold normaliseCaps. do 2 f_equal. clear. induction want as [|c l IH]; [done|]. simpl.
      destruct (named c) eqn:En; simpl; [rewrite En; by f_equal|done]. }
    rewrite Hwant. apply normaliseCaps_ext; [|done|].
    - apply Forall_forall. intros c [Hin Hn]%elem_of_filter_b. unfold named in Hn. apply bool_decide_eq_true in Hn.
      rewrite Forall_forall in Hc. by apply Hc, Hw.
    - intros c Hne. rewrite !elem_of_filter_b, bool_decide_eq_true. unfold named. rewrite bool_decide_eq_true.
      unfold granted. rewrite normaliseCaps_elem. specialize (Hw c). tauto. }
  apply list_elem_of_fmap. exists (Z.to_nat m). split; [by rewrite Z2Nat.id by lia|].
  apply elem_of_seq. split; [lia|]. rewrite Z.add_0_l in Hm. cbn [Nat.add].
  apply Nat2Z.inj_lt. rewrite Z2Nat.id by lia. rewrite Nat2Z.inj_pow. apply Hm.
Qed.

Lemma queue_of_hash c hashes hash q : hash ∈ hashes → q ∈ queues_of c hash → q ∈ workQueues c hashes.
Proof. intros Hh Hq. unfold workQueues. apply list_elem_of_join. exists (queues_of c hash). split; [done|]. by apply list_elem_of_fmap_2. Qed.

Lemma valid_tier_no_dot tier :
  ValidTierToken tier = true → string_all (λ d, negb (Ascii.eqb d (Ascii.ascii_of_N 46))) tier = true.
Proof.
  unfold ValidTierToken. rewrite !andb_true_iff. intros [[_ Ht] _]. induction tier as [|c tier IH]; [done|]. cbn [string_all] in *.
  apply andb_true_iff in Ht as [Hc Ht]. apply andb_true_iff. split; [|by apply IH].
  destruct (Ascii.eqb_spec c (Ascii.ascii_of_N 46)) as [->|]; [|done]. by vm_compute in Hc.
Qed.

(** The tier can be read off a subject. *)
Lemma subject_tier tier tier' hash hash' :
  ValidTierToken tier = true → ValidTierToken tier' = true →
  SubjectDispatch tier hash = SubjectDispatch tier' hash' → tier = tier'.
Proof.
  intros H1%valid_tier_no_dot H2%valid_tier_no_dot. unfold SubjectDispatch. intros E%string_app_inj_l.
  by apply (string_sep_inj (Ascii.ascii_of_N 46)) in E as [-> _].
Qed.

Lemma subject_kind_is_subject tier hash kind : SubjectDispatchKind tier hash kind = SubjectDispatch tier (hash +:+ "." +:+ kind).
Proof. unfold SubjectDispatchKind, SubjectDispatch. by rewrite !string_app_assoc. Qed.

Lemma dispatch_subject_tier sha256 tier step :
  ∃ rest, dispatchSubject sha256 tier step = SubjectDispatch tier rest.
Proof. unfold dispatchSubject. case_decide; [rewrite subject_kind_is_subject|]; by eexists. Qed.

Lemma bound_subject_tier c hashes s :
  s ∈ map wq_subject (workQueues c hashes) → ∃ rest, s = SubjectDispatch (cfg_Tier c) rest.
Proof.
  intros (q & -> & Hq)%list_elem_of_fmap. unfold workQueues in Hq. apply list_elem_of_join in Hq as (l & Hq & Hl).
  apply list_elem_of_fmap in Hl as (h & -> & _). unfold queues_of in Hq. apply elem_of_cons in Hq as [->|Hq]; [by eexists|].
  case_decide; [by apply elem_of_nil in Hq|]. apply list_elem_of_singleton in Hq as ->. cbn [wq_subject].
  rewrite subject_kind_is_subject. by eexists.
Qed.

(** What an engine makes of its configuration. *)
Lemma New_registration goos goarch c0 c reg :
  New goos goarch c0 = Ok (c, reg) → ∃ env, reg = registration goos goarch c env ∧ cfg_Capabilities c = cfg_Capabilities c0.
Proof.
  unfold New. intros HN. repeat (case_decide; [done|]).
  repeat match type of HN with (if ?b then _ else _) = _ => destruct b; [done|] end.
  set (c1 := if decide _ then _ else _) in HN.
  assert (Hcaps : cfg_Capabilities c1 = cfg_Capabilities c0) by (unfold c1; by case_decide).
  repeat match type of HN with (if ?b then _ else _) = _ => destruct b; [done|] end.
  destruct (cfg_Identity c1) as [env|[|e]]; simplify_eq; eauto.
Qed.

(** A step the registered engine fits is dispatched, on the engine's tier, on a
    subject the engine binds. *)
Lemma fitting_step_is_bound sha256 goos goarch os arch c env t n prev rec k jobs st hashes step :
  Forall canonical (advertisedCapabilities c) →
  register_fn t (registration goos goarch c env) n prev = Ok rec →
  satisfiableCapsHashes sha256 (advertisedCapabilities c) = Ok hashes →
  eligible (requirements os arch step) (instance (set_jobs k jobs (set_state st rec))) = true →
  dispatchSubject sha256 (cfg_Tier c) step ∈ map wq_subject (workQueues c hashes).
Proof.
  intros Hadv Hr Hh He.
  pose proof (registered_as_announced t (registration goos goarch c env) n prev rec Hadv Hr) as (Ecaps & _ & _ & Etypes & _ & _ & _).
  apply eligible_fits in He as (_ & _ & _ & _ & Htype & Hneed). cbn [requirements req_EngineType req_Capabilities] in *.
  assert (Hhash : CapsHash sha256 (step_capabilities step) ∈ hashes).
  { eapply satisfiable_caps; [exact Hadv|exact Hh|]. intros cp Hin Hne. specialize (Hneed cp Hin Hne).
    change (cp ∈ e_Capabilities (instance rec)) in Hneed. by rewrite Ecaps in Hneed. }
  unfold dispatchSubject. case_decide as Hkind.
  - destruct Htype as [|Htype]; [done|]. change (step_engine_type step ∈ e_EngineTypes (instance rec)) in Htype.
    rewrite Etypes in Htype. apply list_elem_of_singleton in Htype.
    apply list_elem_of_fmap. eexists. split; [|eapply queue_of_hash; [exact Hhash|]].
    2: { unfold queues_of. rewrite decide_False by (by rewrite <-Htype). by right; left. }
    cbn [wq_subject]. by rewrite Htype.
  - apply list_elem_of_fmap. eexists. split; [|eapply queue_of_hash; [exact Hhash|by left]]. done.
Qed.

(** C25: What the scheduler places on an engine the engine pulls exactly when
    they are of one tier. Let a step's requirements match an instance the
    registry holds from an engine's own registration. The subject a plane of
    tier [tier] dispatches that step on - the tier, the hash of its
    capabilities and the kind it names - is one of the queues the engine binds
    if, and only if, the instance's tier is the plane's; the match itself
    never looks. And the version a dispatch is written in, chosen over any
    fleet, is one the engine accepts. *)
Theorem placed_work_is_pulled sha256 goos goarch os arch c0 c reg t n prev rec k jobs st hashes step tier :
  New goos goarch c0 = Ok (c, reg) →
  Forall canonical (cfg_Capabilities c0) →
  register_fn t reg n prev = Ok rec →
  satisfiableCapsHashes sha256 (advertisedCapabilities c) = Ok hashes →
  eligible (requirements os arch step) (instance (set_jobs k jobs (set_state st rec))) = true →
  ValidTierToken tier = true → ValidTierToken (cfg_Tier c) = true →
  (dispatchSubject sha256 tier step ∈ map wq_subject (workQueues c hashes)
     ↔ e_Tier (instance (set_jobs k jobs (set_state st rec))) = tier)
  ∧ ∀ fleet, is_ok (Negotiate [dispatchVersion fleet]) = true.
Proof.
  intros HN Hc Hr Hh He Hv1 Hv2. split.
  2: { intros fleet. pose proof (dispatch_version_bound fleet) as ([Hlo Hhi] & _). cbv zeta in *.
       pose proof (NegotiateAgainst_spec ProtocolVersion [dispatchVersion fleet]) as Hs. unfold Negotiate.
       destruct (NegotiateAgainst _ _); [done|]. exfalso. apply (Hs (dispatchVersion fleet)); [by left|]. lia. }
  destruct (New_registration _ _ _ _ _ HN) as (env & -> & Hcaps).
  assert (Hadv : Forall canonical (advertisedCapabilities c)).
  { unfold advertisedCapabilities. apply Forall_canonical_normalise. rewrite Hcaps. apply Forall_app. split; [done|].
    by destruct (cfg_Secrets c); repeat constructor. }
  assert (Htier : e_Tier (instance (set_jobs k jobs (set_state st rec))) = cfg_Tier c)
    by (change (e_Tier (instance rec) = cfg_Tier c); apply (registered_as_announced t (registration goos goarch c env) n prev rec Hadv Hr)).
  rewrite Htier. split; [|intros <-; by eapply fitting_step_is_bound].
  intros (rest & E)%bound_subject_tier. destruct (dispatch_subject_tier sha256 tier step) as [rest' E']. rewrite E' in E.
  symmetry. by eapply subject_tier.
Qed.

(** ** The two copies of the output *)

(** One [Write]: its stream, its bytes, and what the file took of them when it
    failed. *)
Definition write_one (s : logSink) (w : Z * string * option nat) : logSink :=
  let '(stream, p, taken) := w in fst (sink_write stream p taken s).

Definition writes (l : list (Z * string * option nat)) (s : logSink) : logSink := foldl write_one s l.

Fixpoint concat_data (l : list LogChunk) : string :=
  match l with [] => "" | c :: l => lc_data c +:+ concat_data l end.

Lemma concat_data_app l1 l2 : concat_data (l1 ++ l2) = concat_data l1 +:+ concat_data l2.
Proof. induction l1 as [|c l IH]; simpl; [done|]. by rewrite IH, string_app_assoc. Qed.

Record copies_agree (attempt : Z) (s : logSink) : Prop :=
  { ca_attempt : sk_attempt s = attempt;
    ca_seq : sk_seq s = Z.of_nat (length (sk_live s));
    ca_file : sk_file s = concat_data (sk_live s);
    ca_chunks : ∀ i c, sk_live s !! i = Some c → lc_seq c = Z.of_nat i + 1 ∧ lc_attempt c = attempt }.

(** While the file takes what it is given, the chunks in their order are the
    file, numbered from one without a gap: a viewer can tell that it missed one. *)
Lemma live_copy_is_the_log attempt l :
  Z.of_nat (length l) < 2 ^ 64 → Forall (λ w, snd w = None) l →
  copies_agree attempt (writes l (newLogSink attempt))
  ∧ map lc_data (sk_live (writes l (newLogSink attempt))) = map (λ w, snd (fst w)) l.
Proof.
  induction l as [|[[stream p] taken] l IH] using rev_ind; intros Hlen Hall.
  { split; [|done]. by split. }
  rewrite length_app in Hlen. cbn [length] in Hlen. apply Forall_app in Hall as [Hall Hw].
  apply Forall_cons in Hw as [Hw _]. simpl in Hw. subst taken.
  destruct IH as [[Ha Hs Hf Hc] Hd]; [lia|done|]. unfold writes in *. rewrite foldl_app. cbn [foldl write_one sink_write fst].
  set (s := foldl _ _ _) in *. assert (Hn : length (sk_live s) = length l).
  { rewrite <-(length_map lc_data), Hd, length_map. done. }
  assert (Hu : u64 (sk_seq s + 1) = sk_seq s + 1) by (apply u64_id; unfold two64; rewrite Hs, Hn; lia).
  split; [split|]; cbn [sk_attempt sk_seq sk_file sk_live].
  - done.
  - rewrite Hu, Hs, length_app. cbn [length]. lia.
  - rewrite concat_data_app, Hf. cbn. by rewrite string_app_nil_r.
  - intros i c. rewrite lookup_app_Some, list_lookup_singleton_Some. intros [Hi|[Hge [Hi <-]]]; [by apply Hc|].
    cbn [lc_seq lc_attempt]. rewrite Hu, Hs. split; [lia|done].
  - by rewrite !map_app, Hd.
Qed.

(** ** Cancelling *)

(** What a job's entry says, and what a cancel of it does. *)
Definition cancel_of (d : JobDispatch) : Cancel :=
  mkCancel (jd_RunId d) (jd_StepId d) (jd_Attempt d) (jd_FenceToken d).

Definition obey (c : Cancel) (t : tables) : tables :=
  fst (stop (jobKey (ca_RunId c) (ca_StepId c) (ca_Attempt c)) (ca_FenceToken c) t).

(** A cancel naming the fence the job was dispatched with ends that job, and
    one naming another fence ends nothing. *)
Lemma cancel_obeyed d job t :
  t_jobs t !! key_of d = Some (mkCancellable job (jd_FenceToken d)) →
  obey (cancel_of d) t = mkTables (t_inFlight t) (t_jobs t) (job :: t_cancelled t)
  ∧ ∀ fence, fence ≠ "" → fence ≠ jd_FenceToken d →
      obey (mkCancel (jd_RunId d) (jd_StepId d) (jd_Attempt d) fence) t = t.
Proof.
  intros Ht. unfold obey, stop, cancel_of. cbn [ca_RunId ca_StepId ca_Attempt ca_FenceToken].
  change (jobKey (jd_RunId d) (jd_StepId d) (jd_Attempt d)) with (key_of d). rewrite Ht. cbn [cn_fence cn_job]. split.
  - rewrite decide_False; [done|]. by intros [_ ?].
  - intros fence Hne Hd. by rewrite decide_True by (split; congruence).
Qed.

(** A finding: a cancel with no fence ends the job whatever its fence is. *)
Lemma empty_fence_cancels d job t :
  t_jobs t !! key_of d = Some (mkCancellable job (jd_FenceToken d)) →
  t_cancelled (obey (mkCancel (jd_RunId d) (jd_StepId d) (jd_Attempt d) "") t) = job :: t_cancelled t.
Proof.
  intros Ht. unfold obey, stop. cbn [ca_RunId ca_StepId ca_Attempt ca_FenceToken].
  change (jobKey (jd_RunId d) (jd_StepId d) (jd_Attempt d)) with (key_of d). rewrite Ht.
  rewrite decide_False; [done|]. by intros [? _].
Qed.

(** A finding: an attempt delivered to this engine twice is one entry. When
    the first delivery finishes it takes the entry with it, and the one still
    running is on no heartbeat and obeys no cancel. *)
Lemma redelivered_job_is_hidden d t :
  let run1 := add (key_of d) (jd_FenceToken d) 1 (hold d t) in
  let run2 := add (key_of d) (jd_FenceToken d) 2 (hold d run1) in
  let left := release (key_of d) (remove (key_of d) run2) in
  t_inFlight left !! key_of d = None ∧ obey (cancel_of d) left = left.
Proof.
  cbv zeta. split; [by apply lookup_delete_eq|]. unfold obey, stop, cancel_of. cbn [ca_RunId ca_StepId ca_Attempt ca_FenceToken].
  change (jobKey (jd_RunId d) (jd_StepId d) (jd_Attempt d)) with (key_of d).
  cbn [release remove t_jobs]. by rewrite lookup_delete_eq.
Qed.

(** ** Examples *)

(** Two queues, one slot: both pumps fetch before either fills the room. *)
Definition ex_full : engine := mkEngine (mkRoom 1 2 0 false 0) 1 1 [Top; Waiting] 1 0.

Lemma ex_filled : rtc pump_step (new_engine 1 2) ex_full.
Proof.
  eapply rtc_l; [by apply (ps_room 0)|].
  eapply rtc_l; [by apply (ps_room 1)|].
  eapply rtc_l; [by apply (ps_fetched 0 0)|].
  eapply rtc_l; [by apply (ps_fetched 1 0)|].
  eapply rtc_l; [by apply (ps_start 0)|]. apply rtc_refl.
Qed.

Lemma engine_holds_what_it_can_run_witness :
  Z.of_nat (en_running ex_full) ≤ 1
  ∧ count is_waiting (en_pumps ex_full) + Z.of_nat (en_running ex_full) + Z.of_nat (en_leaving ex_full) ≤ 1 - 1 + Z.of_nat 2.
Proof.
  destruct (engine_holds_what_it_can_run 1 2 ex_full eq_refl (le_S 1 1 (le_n 1)) ex_filled) as (H1 & H2 & _).
  exact (conj H1 H2).
Defined.

Definition ex_engine : Config :=
  mkConfig "e1" "trusted" true true true true 2 true "linux" [CAPABILITY_NETWORK] (Ok "host").
Definition ex_registration : EngineRegistration := registration "linux" "amd64" ex_engine "host".
Definition ex_record : record :=
  mkRecord "acme" "e1" StateRegistering [1; 2] "linux" "amd64" 2 protocolVersions ProtocolVersion ["linux"] "trusted" "host" 0 [].
Definition ex_needs : Step :=
  mkStep "build" "" "" EFFECT_CLASS_PURE [] [] [CAPABILITY_SECRETS; CAPABILITY_NETWORK] LEASE_SCOPE_STEP ∅ "" "linux" 0 [] [].
Definition ex_sha (s : string) : string := s.
Definition ex_hashes : list string :=
  match satisfiableCapsHashes ex_sha (advertisedCapabilities ex_engine) with Ok l => l | Err _ => [] end.

Lemma ex_new : New "linux" "amd64" ex_engine = Ok (ex_engine, ex_registration).
Proof. reflexivity. Qed.
Lemma ex_caps : Forall canonical (cfg_Capabilities ex_engine).
Proof. repeat constructor. Qed.
Lemma ex_registers : register_fn "acme" ex_registration ProtocolVersion None = Ok ex_record.
Proof. vm_compute. reflexivity. Qed.
Lemma ex_hashed : satisfiableCapsHashes ex_sha (advertisedCapabilities ex_engine) = Ok ex_hashes.
Proof. vm_compute. reflexivity. Qed.
Lemma ex_eligible :
  eligible (requirements "" "" ex_needs) (instance (set_jobs 0 [] (set_state StateReady ex_record))) = true.
Proof. vm_compute. reflexivity. Qed.

Lemma placed_work_is_pulled_witness :
  dispatchSubject ex_sha "trusted" ex_needs ∈ map wq_subject (workQueues ex_engine ex_hashes)
  ∧ dispatchSubject ex_sha "untrusted" ex_needs ∉ map wq_subject (workQueues ex_engine ex_hashes).
Proof.
  split.
  - exact (proj2 (proj1 (placed_work_is_pulled ex_sha "linux" "amd64" "" "" ex_engine ex_engine ex_registration "acme" ProtocolVersion
      None ex_record 0 [] StateReady ex_hashes ex_needs "trusted" ex_new ex_caps ex_registers ex_hashed ex_eligible eq_refl eq_refl)) eq_refl).
  - intros Hin.
    apply (placed_work_is_pulled ex_sha "linux" "amd64" "" "" ex_engine ex_engine ex_registration "acme" ProtocolVersion
      None ex_record 0 [] StateReady ex_hashes ex_needs "untrusted" ex_new ex_caps ex_registers ex_hashed ex_eligible eq_refl eq_refl) in Hin.
    discriminate Hin.
Defined.

(** [Match] never looks at an engine's tier: the plane of another tier finds
    this engine for the step, so the step is not unschedulable, and dispatches
    it on a subject the engine does not listen on. *)
Theorem matched_on_another_tier :
  instance (set_jobs 0 [] (set_state StateReady ex_record)) ∈
    Match (requirements "" "" ex_needs) [instance (set_jobs 0 [] (set_state StateReady ex_record))]
  ∧ dispatchSubject ex_sha "untrusted" ex_needs ∉ map wq_subject (workQueues ex_engine ex_hashes).
Proof.
  split; [apply Match_spec; split; [by left|]; apply eligible_fits, ex_eligible|].
  intros (rest & E)%bound_subject_tier. destruct (dispatch_subject_tier ex_sha "untrusted" ex_needs) as [rest' E'].
  rewrite E' in E. by apply subject_tier in E.
Qed.
