(* ===== verification/Secrets.v ===== *)
(** * Secret references: [internal/secrets]

    A dispatch never carries a secret, only handles. The broker records what a
    handle stands for ([Record_]) in a store every plane shares and reads the
    value when the handle is presented, once ([Issue], [redeem]). The store is
    an interface ([Handles], the calls [hop]) with two implementations, a map
    in memory ([mem_call]) and a key-value bucket ([kv_call]). [StepIssuer] is
    what the scheduler issues a step's secrets through, [BusRedeemer] the
    engine's half, [Resolve] the plane's own way to a value. JSON and SHA-256
    are parameters. *)

From Stdlib Require Import Ascii.
From S2P Require Import Prelude Bytes Program Bucket Effects Proto Plane.

(** ** [handles.go]: what is recorded *)

Definition HandleRetention : Z := 30 * Minute.

(** [Kind] is a string: the guard of [Issue] is what restricts it. *)
Definition SourceStep : string := "step".
Definition SourcePlane : string := "plane".

Record Reference : Type := mkReference { rf_Source : string; rf_Secret : string; rf_Binding : string }.

Record Record_ : Type := mkRecord_
  { hr_TenantID : string; hr_RunID : string; hr_StepID : string; hr_Attempt : Z;
    hr_Source : string; hr_Name : string; hr_ExpiresAt : Z }.

#[export] Instance Record__eq_dec : EqDecision Record_.
Proof. solve_decision. Defined.

Record Filter_ : Type := mkFilter
  { fl_TenantID : string; fl_RunID : string; fl_StepID : string; fl_Attempt : Z; fl_Digest : string }.

Definition matches (f : Filter_) (digest : string) (r : Record_) : bool :=
  if decide (fl_Digest f ≠ "" ∧ fl_Digest f ≠ digest) then false
  else if decide (fl_TenantID f ≠ "" ∧ fl_TenantID f ≠ hr_TenantID r) then false
  else if decide (fl_RunID f ≠ "" ∧ fl_RunID f ≠ hr_RunID r) then false
  else if decide (fl_StepID f ≠ "" ∧ fl_StepID f ≠ hr_StepID r) then false
  else if decide (fl_Attempt f ≠ 0 ∧ fl_Attempt f ≠ hr_Attempt r) then false
  else bool_decide (fl_Digest f ≠ "" ∨ fl_TenantID f ≠ "").

(** The calls of [Handles]. [Spend] returns the record it took, if there was
    one; [Drop] how many it dropped, and the error that stopped it. *)
Inductive hop : Type → Type :=
| HPut (digest : string) (r : Record_) : hop (result GoErr unit)
| HSpend (digest : string) : hop (result GoErr (option Record_))
| HDrop (f : Filter_) : hop (Z * option GoErr)
| HList : hop (result GoErr (gmap string Record_)).

(** The broker's other calls: the clock, [crypto/rand], a lent source, a
    tenant's open runs, the error handler, and a request over the bus. *)
Inductive ReqErr : Type := ErrNoResponders | ReqOther (e : GoErr).

Inductive wop : Type → Type :=
| WNow : wop Z
| WRand : wop (result GoErr string)
| WValue (kind tenant name : string) : wop (result GoErr string)
| WOpenRuns (tenant : string) : wop (result GoErr (list string))
| WReport (e : GoErr) : wop unit
| WRequest (subject body : string) : wop (result ReqErr string).

Abbreviation sop := (plus hop wop).
Abbreviation scmd := (Program.cmd sop).
Abbreviation sgo := (Program.go sop).
Definition handles {X} (o : hop X) : scmd X := act (inl_ o).
Definition world {X} (o : wop X) : scmd X := act (inr_ o).

(** ** [step.go]: what a step may declare *)

Definition ErrNoSecret : GoErr := ErrMsg "secrets: no secret of that name is configured for this tenant".
Definition ErrNoSource : GoErr :=
  ErrMsg "secrets: this control plane was given no secret source, so it can resolve no secret of its own".
Definition ErrNoRedeemer : GoErr := ErrMsg "secrets: this engine has no redemption endpoint".
Definition ErrUndeclaredCapability : GoErr :=
  ErrMsg "secrets: a step declaring secrets must declare CAPABILITY_SECRETS".
Definition errRefused : GoErr := ErrMsg "secrets: the handle was refused".

Fixpoint check_declarations (step : Step) (n : nat) (seen : list string) (decls : list StepSecret) : option GoErr :=
  match decls with
  | [] => None
  | decl :: decls =>
      if decide (sec_name decl = "")
      then Some (ErrMsg ("secrets: step " +:+ quote (step_id step) +:+ " secret #" +:+ dec_Z (Z.of_nat n + 1)
                         +:+ " names no secret"))
      else if negb (IsEnvName (sec_env decl))
      then Some (ErrMsg ("secrets: step " +:+ quote (step_id step) +:+ " binds the secret named "
                         +:+ quote (sec_name decl) +:+ " to " +:+ quote (sec_env decl)
                         +:+ ", which is not an environment variable name"))
      else if decide (sec_env decl ∈ seen)
      then Some (ErrMsg ("secrets: step " +:+ quote (step_id step) +:+ " binds two secrets to " +:+ sec_env decl))
      else check_declarations step (S n) (sec_env decl :: seen) decls
  end.

Definition ValidateDeclarations (step : Step) : option GoErr :=
  if decide (step_secrets step = []) then None
  else if decide (CAPABILITY_SECRETS ∉ step_capabilities step)
  then Some (ErrNote ErrUndeclaredCapability
               (": step " +:+ quote (step_id step) +:+ " declares " +:+ dec_Z (Z.of_nat (length (step_secrets step)))
                +:+ " secret(s)"))
  else check_declarations step 0 [] (step_secrets step).

(** ** [secrets.go]: the broker *)

Record Scope : Type := mkScope { sc_TenantID : string; sc_RunID : string; sc_StepID : string; sc_Attempt : Z }.

Definition RefusalPrefix : string := "ERR ".

(** [Duration.String()] of the retention, which is the only one a message
    spells. *)
Definition retention_text : string := "30m0s".

Section Broker.
Context (sha256 : string → string) (lent : string → bool).

Definition Digest_ (handle : string) : string := hex_encode (sha256 handle).

Definition record_for (scope : Scope) (ref : Reference) (expires : Z) : Record_ :=
  mkRecord_ (sc_TenantID scope) (sc_RunID scope) (sc_StepID scope) (sc_Attempt scope)
    (rf_Source ref) (rf_Secret ref) expires.

Definition Issue (scope : Scope) (ref : Reference) (ttl : Z) : sgo SecretRef :=
  if decide (sc_TenantID scope = "") then gfail (ErrMsg "secrets: a tenant is required to issue a handle")
  else if decide (rf_Binding ref = "") then gfail (ErrMsg "secrets: a binding name is required to issue a handle")
  else if decide (rf_Secret ref = "") then gfail (ErrMsg "secrets: a secret name is required to issue a handle")
  else if decide (rf_Source ref ≠ SourceStep ∧ rf_Source ref ≠ SourcePlane)
  then gfail (ErrMsg ("secrets: a handle cannot resolve from source " +:+ quote (rf_Source ref)))
  else if decide (ttl ≤ 0) then gfail (ErrMsg "secrets: a handle needs a positive expiry")
  else if decide (HandleRetention < ttl)
  then gfail (ErrMsg ("secrets: a handle cannot outlive the " +:+ retention_text +:+ " its record is kept for"))
  else
    raw <~ wrap "secrets: generating a handle" (world WRand);;
    let handle := hex_encode raw in
    now <- world WNow;;
    let expires := now + ttl in
    _ <~ handles (HPut (Digest_ handle) (record_for scope ref expires));;
    gret (mkSecretRef (rf_Binding ref) handle (expires / Second)).

Definition redeem (tenantID handle : string) : sgo string :=
  if decide (handle = "") then gfail errRefused
  else
    spent <- handles (HSpend (Digest_ handle));;
    match spent with
    | Err _ | Ok None => gfail errRefused
    | Ok (Some r) =>
        if decide (tenantID ≠ "" ∧ hr_TenantID r ≠ tenantID) then gfail errRefused
        else
          now <- world WNow;;
          if decide (hr_ExpiresAt r < now) then gfail errRefused
          else if negb (lent (hr_Source r)) then gfail errRefused
          else
            value <- world (WValue (hr_Source r) (hr_TenantID r) (hr_Name r));;
            match value with
            | Err _ => gfail errRefused
            | Ok value => if has_prefix RefusalPrefix value then gfail errRefused else gret value
            end
    end.

(** The path by handle alone. *)
Definition Redeem (handle : string) : sgo string := redeem "" handle.

Definition RedeemFor (tenantID handle : string) : sgo string :=
  if decide (tenantID = "") then gfail errRefused else redeem tenantID handle.

(** A count, and the error that stopped it. *)
Definition counted : Type := Z * option GoErr.

Definition attempt_filter (scope : Scope) : Filter_ :=
  mkFilter (sc_TenantID scope) (sc_RunID scope) (sc_StepID scope) (sc_Attempt scope) "".

Definition RevokeAttempt (scope : Scope) : scmd counted :=
  if decide (sc_TenantID scope = "" ∨ sc_RunID scope = "" ∨ sc_StepID scope = "" ∨ sc_Attempt scope = 0)
  then Done (0, None)
  else handles (HDrop (attempt_filter scope)).

Definition RevokeRun (tenantID runID : string) : scmd counted :=
  if decide (tenantID = "" ∨ runID = "") then Done (0, None)
  else handles (HDrop (mkFilter tenantID runID "" 0 "")).

Fixpoint revoke_handles (n : Z) (hs : list string) : scmd counted :=
  match hs with
  | [] => Done (n, None)
  | h :: hs =>
      if decide (h = "") then revoke_handles n hs
      else
        dropped <- handles (HDrop (mkFilter "" "" "" 0 (Digest_ h)));;
        match dropped with
        | (d, Some e) => Done (n + d, Some e)
        | (d, None) => revoke_handles (n + d) hs
        end
  end.
Definition RevokeHandles (hs : list string) : scmd counted := revoke_handles 0 hs.

(** The runs handles are held for, by tenant: each a set, of which a range
    visits the members in an order of its own. *)
Definition candidate_runs (records : gmap string Record_) : gmap string (gset string) :=
  foldl (λ runs '(_, r), if decide (hr_RunID r = "") then runs
                         else <[hr_TenantID r := {[hr_RunID r]} ∪ default ∅ (runs !! hr_TenantID r)]> runs)
    ∅ (map_to_list records).

Section Sweep.
Context (range : list string → list string).

Fixpoint revoke_runs (tenantID : string) (n : Z) (runs : list string) : scmd counted :=
  match runs with
  | [] => Done (n, None)
  | runID :: runs =>
      dropped <- RevokeRun tenantID runID;;
      match dropped with
      | (d, Some e) => Done (n + d, Some e)
      | (d, None) => revoke_runs tenantID (n + d) runs
      end
  end.

Fixpoint sweep_tenants (runs : gmap string (gset string)) (n : Z) (tenants : list string) : scmd counted :=
  match tenants with
  | [] => Done (n, None)
  | tenantID :: tenants =>
      open <- world (WOpenRuns tenantID);;
      match open with
      | Err e => Done (n, Some (ErrWrap ("secrets: reading tenant " +:+ quote tenantID +:+ "'s open runs") e))
      | Ok ids =>
          let closed := default ∅ (runs !! tenantID) ∖ list_to_set ids in
          swept <- revoke_runs tenantID n (range (elements closed));;
          match swept with
          | (n, Some e) => Done (n, Some e)
          | (n, None) => sweep_tenants runs n tenants
          end
      end
  end.

Definition RevokeClosedRuns : scmd counted :=
  records <- handles HList;;
  match records with
  | Err e => Done (0, Some e)
  | Ok records =>
      let runs := candidate_runs records in
      sweep_tenants runs 0 (range (map fst (map_to_list runs)))
  end.
End Sweep.

(** *** What answers requests

    A reply is the value alone, or the prefix and why there is none. *)

Definition refusal : string := RefusalPrefix +:+ err_text errRefused.

Definition reply (r : result GoErr string) : string :=
  match r with Ok value => value | Err e => RefusalPrefix +:+ err_text e end.

(** The handlers of [ServeTenants], [Serve] and [ServeAccount]. *)
Definition serve_tenants (base subject body : string) : scmd string :=
  match cut_prefix subject (base +:+ ".") with
  | None => Done refusal
  | Some tenantID =>
      if decide (tenantID = "" ∨ string_all (λ c, negb (Ascii.eqb c "."%char)) tenantID = false) then Done refusal
      else r <- RedeemFor tenantID body;; Done (reply r)
  end.
Definition serve (body : string) : scmd string := r <- Redeem body;; Done (reply r).
Definition serve_account (tenantID body : string) : scmd string := r <- RedeemFor tenantID body;; Done (reply r).

(** *** [BusRedeemer], configured with its base subject *)

Definition BusRedeemer_Redeem (base tenantID : string) (ref : SecretRef) : sgo string :=
  let bound := "the reference bound to " +:+ quote (sr_name ref) in
  if decide (base = "") then gfail ErrNoRedeemer
  else if decide (tenantID = "") then gfail (ErrMsg ("secrets: redeeming " +:+ bound +:+ ": the dispatch names no tenant"))
  else
    scoped <- world (WRequest (base +:+ "." +:+ tenantID) (sr_handle ref));;
    answer <- (match scoped with
               | Err ErrNoResponders => world (WRequest base (sr_handle ref))
               | r => Done r
               end);;
    match answer with
    | Err ErrNoResponders => gfail (ErrWrap ("secrets: redeeming " +:+ bound) (ErrMsg "nats: no responders available for request"))
    | Err (ReqOther e) => gfail (ErrWrap ("secrets: redeeming " +:+ bound) e)
    | Ok body =>
        if has_prefix RefusalPrefix body
        then gfail (ErrMsg ("secrets: " +:+ bound +:+ " was refused: " +:+ trim_prefix RefusalPrefix body))
        else gret body
    end.

(** *** [StepIssuer]

    [broker] and [source]: it was given one; a nil issuer has neither. *)

Section Issuer.
Context (broker source : bool).

Definition secret_named (name : string) : string := "secrets: the secret named " +:+ quote name.

Definition secret_value (tenantID name : string) : sgo string :=
  if negb source
  then gfail (ErrNote ErrNoSecret (": " +:+ quote name +:+ " — this control plane holds no step secrets (dhole serve --secret)"))
  else wrap (secret_named name) (world (WValue SourceStep tenantID name)).

Definition Check_ (tenantID : string) (step : Step) : sgo unit :=
  if decide (step_secrets step = []) then gret tt
  else if decide (tenantID = "") then gfail (ErrMsg "secrets: a tenant is required to resolve a step's secrets")
  else match ValidateDeclarations step with
       | Some e => gfail e
       | None => geach (λ decl, _ <~ secret_value tenantID (sec_name decl);; gret tt) (step_secrets step)
       end.

Definition Discard (refs : list SecretRef) : scmd unit :=
  if negb broker || bool_decide (refs = []) then Done tt
  else
    r <- RevokeHandles (map sr_handle refs);;
    match snd r with None => Done tt | Some e => world (WReport e) end.

(** [if err != nil { i.Discard(ctx, refs); return nil, ... }]. *)
Definition or_discard {A} (refs : list SecretRef) (c : sgo A) : sgo A :=
  r <- c;;
  match r with
  | Ok a => gret a
  | Err e => _ <- Discard refs;; gfail e
  end.

Definition refusable_text (name : string) : string :=
  secret_named name +:+ " begins " +:+ quote RefusalPrefix +:+ " and cannot be issued: "
  +:+ "a redemption reply with that prefix is a refusal, so the value would be read as an error".

Definition issue_one (scope : Scope) (ttl : Z) (refs : list SecretRef) (decl : StepSecret) : sgo (list SecretRef) :=
  value <~ or_discard refs (secret_value (sc_TenantID scope) (sec_name decl));;
  _ <~ or_discard refs (if has_prefix RefusalPrefix value then gfail (ErrMsg (refusable_text (sec_name decl))) else gret tt);;
  ref <~ or_discard refs (wrap ("secrets: issuing a handle for the secret named " +:+ quote (sec_name decl))
                            (Issue scope (mkReference SourceStep (sec_name decl) (sec_env decl)) ttl));;
  gret (refs ++ [ref]).

(** [%+v] of a scope. *)
Definition scope_text (s : Scope) : string :=
  "{TenantID:" +:+ sc_TenantID s +:+ " RunID:" +:+ sc_RunID s +:+ " StepID:" +:+ sc_StepID s
  +:+ " Attempt:" +:+ dec_Z (sc_Attempt s) +:+ "}".

Definition StepIssuer_Issue (scope : Scope) (step : Step) (ttl : Z) : sgo (list SecretRef) :=
  if decide (step_secrets step = []) then gret []
  else if decide (sc_TenantID scope = "" ∨ sc_RunID scope = "" ∨ sc_StepID scope = "" ∨ sc_Attempt scope = 0)
  then gfail (ErrMsg ("secrets: issuing for step " +:+ quote (step_id step)
                      +:+ " needs a tenant, a run, a step and an attempt; got " +:+ scope_text scope))
  else if decide (ttl ≤ 0) then gfail (ErrMsg "secrets: a step secret needs a positive expiry")
  else if negb broker then gfail (ErrMsg "secrets: this control plane has no broker to issue step secrets through")
  else match ValidateDeclarations step with
       | Some e => gfail e
       | None => gfold (issue_one scope ttl) [] (step_secrets step)
       end.

Definition reported (c : scmd counted) : scmd unit :=
  if negb broker then Done tt
  else r <- c;; match snd r with None => Done tt | Some e => world (WReport e) end.

Definition Revoke (scope : Scope) : scmd unit := reported (RevokeAttempt scope).
Definition StepIssuer_RevokeRun (tenantID runID : string) : scmd unit := reported (RevokeRun tenantID runID).

End Issuer.

(** *** [plane.go]: [PlaneResolver], configured *)

Definition planeHandleTTL : Z := 30 * Second.

Definition Resolve (base tenantID name : string) : sgo string :=
  if decide (base = "") then gfail (ErrNote ErrNoSource (": " +:+ quote name))
  else if decide (tenantID = "") then gfail (ErrMsg "secrets: a tenant is required to resolve a secret")
  else if decide (name = "") then gfail (ErrMsg "secrets: a name is required to resolve a secret")
  else
    ref <~ wrap ("secrets: issuing a handle for the secret named " +:+ quote name)
             (Issue (mkScope tenantID "" "" 0) (mkReference SourcePlane name name) planeHandleTTL);;
    value <- BusRedeemer_Redeem base tenantID ref;;
    match value with
    | Ok value => gret value
    | Err e =>
        src <- world (WValue SourcePlane tenantID name);;
        match src with
        | Err srcErr => gfail (ErrWrap (secret_named name) srcErr)
        | Ok _ => gfail e
        end
    end.

End Broker.

(** [MapSource.Value]: a map in memory. *)
Definition MapSource_Value (values : gmap string string) (tenantID name : string) : result GoErr string :=
  match values !! (tenantID +:+ String (Ascii.ascii_of_N 0) name) with
  | Some value => Ok value
  | None => Err (ErrNote ErrNoSecret (": " +:+ quote name))
  end.
Definition MapSource_Set (tenantID name value : string) (values : gmap string string) : gmap string string :=
  <[tenantID +:+ String (Ascii.ascii_of_N 0) name := value]> values.

(** ** [MemoryHandles]: each call under the mutex, at a time *)

Definition mem : Type := gmap string Record_.

Definition mem_put (now : Z) (digest : string) (r : Record_) (m : mem) : mem :=
  <[digest := r]> (filter (λ '(_, rec), ¬ hr_ExpiresAt rec < now) m).

Definition mem_call (X : Type) (o : hop X) (now : Z) (m : mem) : mem * X :=
  match o in hop X return mem * X with
  | HPut digest r => (mem_put now digest r m, Ok tt)
  | HSpend digest => (delete digest m, Ok (m !! digest))
  | HDrop f =>
      (filter (λ '(d, r), matches f d r = false) m,
       (Z.of_nat (size (filter (λ '(d, r), matches f d r = true) m)), None))
  | HList => (m, Ok m)
  end.

(** ** [KVHandles]: over the shared bucket *)

Inductive kop : Type → Type :=
| KListKeys (filter : string) : kop (result GoErr (list string))
| KGet (key : string) : kop (result KVErr (option (string * Z)))
| KCreate (key data : string) : kop (result KVErr unit)
| KDelete (key : string) (rev : Z) : kop (result KVErr unit).

Abbreviation kgo := (Program.go kop).

Class HandleJSON : Type := { enc_handle : Record_ → string; dec_handle : string → option Record_ }.
Class HandleJSONLaws `{HandleJSON} : Prop := dec_enc_handle r : dec_handle (enc_handle r) = Some r.

Section KV.
Context `{HandleJSON} (sha256 : string → string).

Definition planeRunToken : string := "plane".

Definition runToken (runID : string) : string :=
  if decide (runID = "") then planeRunToken else hex_encode (String.substring 0 16 (sha256 runID)).

Definition token_char (c : Ascii.ascii) : bool := Ascii.eqb c "-"%char || env_start c || is_digit c.

Definition validTenantToken (tenantID : string) : bool :=
  negb (bool_decide (tenantID = "")) && string_all token_char tenantID.

Definition tenantToken (tenantID : string) : option GoErr :=
  if validTenantToken tenantID then None
  else if decide (tenantID = "") then Some (ErrMsg "secrets: a tenant is required")
  else Some (ErrMsg ("secrets: tenant " +:+ quote tenantID
                     +:+ " cannot name a handle record: only letters, digits, '-' and '_'")).

Definition handleKey (digest : string) (r : Record_) : string :=
  hr_TenantID r +:+ "." +:+ runToken (hr_RunID r) +:+ "." +:+ digest.

Definition kv_text (e : KVErr) : GoErr :=
  match e with
  | ErrKeyRevisionMismatch => ErrMsg "nats: wrong last sequence"
  | ErrKeyExists => ErrMsg "nats: key exists"
  | KVOther e => ErrMsg e
  end.

(** The error of a delete that lost a race. *)
Definition lostRace (e : KVErr) : bool :=
  match e with ErrKeyRevisionMismatch | ErrKeyExists => true | KVOther _ => false end.

Definition kv_Put (digest : string) (r : Record_) : kgo unit :=
  match tenantToken (hr_TenantID r) with
  | Some e => gfail e
  | None =>
      created <- act (KCreate (handleKey digest r) (enc_handle r));;
      match created with
      | Ok _ => gret tt
      | Err e => gfail (ErrWrap "secrets: recording a handle" (kv_text e))
      end
  end.

(** A listing that was cut short is an error. *)
Definition keys (filter : string) : kgo (list string) :=
  wrap "secrets: listing handle records" (act (KListKeys filter)).

(** Reading one record; [None] when its key is gone. *)
Definition read_record (key : string) : kgo (option (Record_ * Z)) :=
  entry <- act (KGet key);;
  match entry with
  | Err e => gfail (ErrWrap "secrets: reading a handle record" (kv_text e))
  | Ok None => gret None
  | Ok (Some (v, rev)) =>
      match dec_handle v with
      | None => gfail (ErrMsg "secrets: decoding a handle record")
      | Some r => gret (Some (r, rev))
      end
  end.

Definition kv_Spend (digest : string) : kgo (option Record_) :=
  ks <~ keys ("*.*." +:+ digest);;
  match ks with
  | [] => gret None
  | key :: _ =>
      read <~ read_record key;;
      match read with
      | None => gret None
      | Some (r, rev) =>
          deleted <- act (KDelete key rev);;
          match deleted with
          | Ok _ => gret (Some r)
          | Err e => if lostRace e then gret None else gfail (ErrWrap "secrets: spending a handle" (kv_text e))
          end
      end
  end.

(** What follows the last dot. *)
Definition last_token (key : string) : string := List.last (split_on "."%char key) "".

Definition drop_pattern (f : Filter_) : option string :=
  if decide (fl_TenantID f ≠ "" ∧ fl_RunID f ≠ "") then Some (fl_TenantID f +:+ "." +:+ runToken (fl_RunID f) +:+ ".*")
  else if decide (fl_TenantID f ≠ "") then Some (fl_TenantID f +:+ ".*.*")
  else if decide (fl_Digest f ≠ "") then Some ("*.*." +:+ fl_Digest f)
  else None.

Fixpoint drop_keys (f : Filter_) (n : Z) (ks : list string) : Program.cmd kop counted :=
  match ks with
  | [] => Done (n, None)
  | key :: ks =>
      read <- read_record key;;
      match read with
      | Err e => Done (n, Some e)
      | Ok None => drop_keys f n ks
      | Ok (Some (r, rev)) =>
          if negb (matches f (last_token key) r) then drop_keys f n ks
          else
            deleted <- act (KDelete key rev);;
            match deleted with
            | Ok _ => drop_keys f (n + 1) ks
            | Err e => if lostRace e then drop_keys f n ks
                       else Done (n, Some (ErrWrap "secrets: revoking a handle" (kv_text e)))
            end
      end
  end.

Definition kv_Drop (f : Filter_) : Program.cmd kop counted :=
  match drop_pattern f with
  | None => Done (0, None)
  | Some pattern =>
      if decide (fl_TenantID f ≠ "" ∧ validTenantToken (fl_TenantID f) = false) then Done (0, None)
      else
        ks <- keys pattern;;
        match ks with
        | Err e => Done (0, Some e)
        | Ok ks => drop_keys f 0 ks
        end
  end.

Definition list_record (out : gmap string Record_) (key : string) : kgo (gmap string Record_) :=
  read <~ read_record key;;
  gret (match read with
        | None => out
        | Some (r, _) => <[last_token key := r]> out
        end).

Definition kv_List : kgo (gmap string Record_) :=
  ks <~ keys "*.*.*";;
  gfold list_record ∅ ks.

Definition kv_call (X : Type) (o : hop X) : Program.cmd kop X :=
  match o in hop X return Program.cmd kop X with
  | HPut digest r => kv_Put digest r
  | HSpend digest => kv_Spend digest
  | HDrop f => kv_Drop f
  | HList => kv_List
  end.

End KV.
