(* ===== verification/SecretsFacts.v ===== *)
(** * What a handle is worth

    A handle is redeemed at most once however many planes share the bucket
    ([handles_are_redeemed_once]), and yields only the value its own record
    names, to its own tenant, in time ([redeem_yields_iff]); what the engine
    reads is what the broker gave ([engine_reads_what_was_given]); revoking
    takes exactly what it names and leaves none of it
    ([revocation_is_exact], [revoked_handles_are_gone]); an issue that fails
    takes back what it minted, and the sweep spares the runs still open. *)

From Stdlib Require Import Ascii.
From S2P Require Import Prelude Bytes Program Bucket Effects Proto Plane Secrets.

(** ** Tokens *)

Abbreviation dotless := (string_all (λ c, negb (Ascii.eqb c "."%char))).

Lemma string_all_weaken (P Q : ascii → bool) s :
  (∀ c, P c = true → Q c = true) → string_all P s = true → string_all Q s = true.
Proof.
  intros HPQ. induction s as [|c s IH]; simpl; [done|]. intros [H1 H2]%andb_true_iff. by rewrite HPQ, IH.
Qed.

Lemma hex_char_not_dot z : 0 ≤ z < 16 → Ascii.eqb (hex_char z) "."%char = false.
Proof.
  intros Hz. apply Ascii.eqb_neq. intros E. apply (f_equal byte_val) in E.
  unfold hex_char, byte_val in E. case_bool_decide; rewrite N_ascii_embedding in E by lia; simpl in E; lia.
Qed.

Lemma hex_dotless s : dotless (hex_encode s) = true.
Proof.
  induction s as [|c s IH]; [done|]. simpl. pose proof (byte_val_range c) as Hc.
  rewrite !hex_char_not_dot by (split; [apply Z.div_pos || apply Z.mod_pos_bound|apply Z.div_lt_upper_bound || apply Z.mod_pos_bound]; lia).
  done.
Qed.

Lemma token_dotless t : validTenantToken t = true → dotless t = true.
Proof.
  unfold validTenantToken. intros [_ Ht]%andb_true_iff. eapply string_all_weaken; [|exact Ht].
  intros c Hc. apply negb_true_iff, Ascii.eqb_neq. intros ->. done.
Qed.

Lemma runToken_dotless sha256 run : dotless (runToken sha256 run) = true.
Proof. unfold runToken. case_decide; [done|]. apply hex_dotless. Qed.

Lemma split_on_ne c s : split_on c s ≠ [].
Proof. destruct s as [|d s]; simpl; [done|]. case_match; [done|]. by case_match. Qed.

Lemma split_on_snoc c a s : dotless s = true → c = "."%char →
  split_on c (a +:+ String c s) = split_on c a ++ [s].
Proof.
  intros Hs ->. induction a as [|d a IH].
  - cbn [String.append]. simpl. by rewrite split_on_none.
  - simpl. rewrite IH. destruct (Ascii.eqb d "."); [done|]. pose proof (split_on_ne "."%char a).
    by destruct (split_on "." a).
Qed.

Lemma last_token_snoc a s : dotless s = true → last_token (a +:+ "." +:+ s) = s.
Proof.
  intros Hs. unfold last_token. change ("." +:+ s) with (String "."%char s).
  rewrite split_on_snoc by done. by rewrite last_last.
Qed.

(** ** Planes over one bucket *)

(** What the bucket does with a call. *)
Definition kv_step (X : Type) (o : kop X) (b b' : bucket) : X → Prop :=
  match o with
  | KListKeys pattern => λ x,
      b' = b ∧ ((∃ l, x = Ok l ∧ ∀ k, k ∈ l ↔ k ∈ dom (b_keys b) ∧ tokens_match (split_on "."%char pattern) (split_on "."%char k) = true)
                ∨ ∃ e, x = Err e)
  | KGet key => λ x, b' = b ∧ (x = Ok (b_keys b !! key) ∨ ∃ e, x = Err (KVOther e))
  | KCreate key data => λ x,
      (b' = b ∧ b_keys b !! key ≠ None ∧ x = Err ErrKeyExists)
      ∨ (b' = b ∧ ∃ e, x = Err (KVOther e))
      ∨ (b_keys b !! key = None ∧ b' = put key data b ∧ (x = Ok tt ∨ ∃ e, x = Err (KVOther e)))
  | KDelete key rev => λ x,
      (b' = b ∧ snd <$> b_keys b !! key ≠ Some rev ∧ x = Err ErrKeyRevisionMismatch)
      ∨ (b' = b ∧ ∃ e, x = Err (KVOther e))
      ∨ (snd <$> b_keys b !! key = Some rev ∧ b' = remove_key key b ∧ (x = Ok tt ∨ ∃ e, x = Err (KVOther e)))
  end.

(** The calls of a plane: on the bucket, or elsewhere with any answer. *)
Abbreviation pop := (plus kop wop).
Abbreviation pcmd := (Program.cmd pop).
Abbreviation phist := (list (Program.did pop)).

Definition plane_step (X : Type) (o : pop X) (b b' : bucket) (x : X) : Prop :=
  match o with inl_ o => kv_step X o b b' x | inr_ _ => b' = b end.

Definition ages (b b' : bucket) : Prop := ∃ key, b' = age_out key b.

Definition embed {X} (c : Program.cmd kop X) : pcmd X := interp (λ Y o, act (inl_ o)) c.

Section Planes.
Context {HJ : HandleJSON} {HL : HandleJSONLaws} (sha256 : string → string).

(** The broker's code over the bucket. *)
Definition over_bucket (X : Type) (o : sop X) : pcmd X :=
  match o with inl_ o => embed (kv_call sha256 X o) | inr_ o => act (inr_ o) end.

(** ** Counting *)

Definition deletes (d : string) (c : Program.did pop) : bool :=
  match c with
  | Did (inl_ o) x =>
      match o in kop X return X → bool with
      | KDelete key _ => λ x, match x with Ok _ => bool_decide (last_token key = d) | Err _ => false end
      | _ => λ _, false
      end x
  | _ => false
  end.
Definition creates (d : string) (c : Program.did pop) : bool :=
  match c with
  | Did (inl_ o) x => match o with KCreate key _ => bool_decide (last_token key = d) | _ => false end
  | _ => false
  end.
Definition mints (d : string) (c : Program.did pop) : bool :=
  match c with
  | Did (inr_ o) x =>
      match o in wop X return X → bool with
      | WRand => λ x, match x with Ok raw => bool_decide (Digest_ sha256 (hex_encode raw) = d) | Err _ => false end
      | _ => λ _, false
      end x
  | _ => false
  end.

(** The records of a digest the bucket holds. *)
Definition live (d : string) (b : bucket) : nat :=
  size (filter (λ k, last_token k = d) (dom (b_keys b))).

Lemma live_delete d key b last : (live d (mkBucket (delete key (b_keys b)) last) ≤ live d b)%nat.
Proof. unfold live. apply subseteq_size. cbn [b_keys]. rewrite dom_delete_L. set_solver. Qed.

Lemma live_deleted d key b last :
  b_keys b !! key ≠ None → last_token key = d → (S (live d (mkBucket (delete key (b_keys b)) last)) ≤ live d b)%nat.
Proof.
  intros Hk Hd. unfold live. cbn [b_keys]. rewrite dom_delete_L.
  apply (Nat.lt_le_trans _ (size (filter (λ k, last_token k = d) (dom (b_keys b))))); [|done].
  apply subset_size. split; [set_solver|]. intros Hsub. specialize (Hsub key).
  assert (Hin : key ∈ dom (b_keys b)) by (apply elem_of_dom; by destruct (b_keys b !! key); [eexists|]).
  set_solver.
Qed.

Lemma live_put d key data b :
  (live d (put key data b) ≤ (if bool_decide (last_token key = d) then 1 else 0) + live d b)%nat.
Proof.
  unfold live, put. cbn [b_keys]. rewrite dom_insert_L. case_bool_decide as Hd.
  - transitivity (size ({[key]} ∪ filter (λ k, last_token k = d) (dom (b_keys b)))); [|by rewrite size_union_alt, size_singleton; apply Nat.add_le_mono_l, subseteq_size; set_solver].
    apply subseteq_size. set_solver.
  - apply subseteq_size. set_solver.
Qed.

Lemma one_step_counts d X (o : pop X) x b b' :
  plane_step X o b b' x →
  ((if deletes d (Did o x) then 1 else 0) + live d b' ≤ (if creates d (Did o x) then 1 else 0) + live d b)%nat.
Proof.
  destruct o as [o|o]; cbn [plane_step deletes creates]; [|intros ->; by destruct o; simpl; lia].
  destruct o as [p|k|k data|k rev]; cbn [kv_step].
  - by intros [-> _].
  - by intros [-> _].
  - intros [(-> & _ & ->)|[(-> & e & ->)|(_ & -> & _)]]; [lia..|]. apply live_put.
  - intros [(-> & _ & ->)|[(-> & e & ->)|(Hk & -> & [->|[e ->]])]]; [lia..| |apply live_delete].
    case_bool_decide as Hd; [|apply live_delete]. apply live_deleted; [|done].
    by destruct (b_keys b !! k).
Qed.

Lemma deletes_bounded {A} d (ps ps' : list (pcmd A)) b tr b' :
  interleaved plane_step ages ps b tr ps' b' →
  (tally (deletes d) (map snd tr) + live d b' ≤ tally (creates d) (map snd tr) + live d b)%nat.
Proof.
  induction 1 as [ps b|ps b b1 tr ps' b' [key ->] _ IH|i X o k x ps b b1 tr ps' b' _ Hs _ IH].
  - done.
  - pose proof (live_delete d key b (b_last b)). unfold age_out in IH. lia.
  - apply (one_step_counts d) in Hs. unfold tally in *. cbn [map snd List.filter].
    destruct (deletes d (Did o x)), (creates d (Did o x)); simpl in *; lia.
Qed.

(** ** What each plane runs *)

Inductive actor : Type :=
| Redeems (tenant handle : string)
| Issues (broker source : bool) (scope : Scope) (step : Step) (ttl : Z)
| Resolves (base tenant name : string)
| Revokes (scope : Scope)
| RevokesRun (tenant run : string)
| Sweeps (range : list string → list string).

Context (lent : string → bool).

(** What each does, and the value it ends with if it redeems one. *)
Definition told {A} (c : scmd A) : scmd (option string) := _ <- c;; Done None.

Definition act_of (a : actor) : scmd (option string) :=
  match a with
  | Redeems tenant handle =>
      r <- redeem sha256 lent tenant handle;;
      Done (match r with Ok v => Some v | Err _ => None end)
  | Issues broker source scope step ttl => told (StepIssuer_Issue sha256 broker source scope step ttl)
  | Resolves base tenant name => told (Resolve sha256 base tenant name)
  | Revokes scope => told (RevokeAttempt scope)
  | RevokesRun tenant run => told (RevokeRun tenant run)
  | Sweeps range => told (RevokeClosedRuns range)
  end.

Definition plane (a : actor) : pcmd (option string) := interp over_bucket (act_of a).

(** *** Nothing is recorded but under a digest just minted *)

Definition mint_guard : Program.guard pop := λ X o h,
  match o with
  | inl_ o => match o with
              | KCreate key _ => (tally (creates (last_token key)) h < tally (mints (last_token key)) h)%nat
              | _ => True
              end
  | inr_ _ => True
  end.

Definition covered (h : phist) : Prop := ∀ d, (tally (creates d) h ≤ tally (mints d) h)%nat.

Lemma tally_snoc {op} (P : Program.did op → bool) h c : tally P (h ++ [c]) = (tally P h + if P c then 1 else 0)%nat.
Proof. unfold tally. rewrite List.filter_app, length_app. simpl. by destruct (P c). Qed.

(** Calls that record nothing and mint nothing. *)
Definition recordless (X : Type) (o : pop X) : Prop :=
  match o with
  | inl_ o => match o with KCreate _ _ => False | _ => True end
  | inr_ o => match o with WRand => False | _ => True end
  end.

Lemma recordless_keeps X (o : pop X) x h :
  recordless X o → covered h → covered (h ++ [Did o x]).
Proof.
  intros Ho Hh d. rewrite !tally_snoc. specialize (Hh d).
  destruct o as [o|o]; destruct o; try done; simpl; lia.
Qed.

Lemma safe_recordless {A} (c : pcmd A) h : within recordless c → covered h → safe mint_guard c (λ _ h', covered h') h.
Proof.
  revert h. induction c as [a|X o k IH]; intros h; cbn [within safe]; [done|]. intros [Ho Hk] Hh. split.
  - destruct o as [o|o]; [|done]. by destruct o.
  - intros x. apply IH; [done|]. by apply recordless_keeps.
Qed.

Ltac within_tac :=
  repeat (first
    [ exact I
    | apply within_gfold; intros
    | apply within_bind; [|intros]
    | progress cbn [within act gret gfail handles world]
    | progress unfold wrap, gbind, geach, gret, gfail
    | match goal with
      | |- _ ∧ _ => split
      | |- ∀ _, _ => intros
      | |- within _ (match ?x with _ => _ end) => destruct x
      | |- within _ (if ?x then _ else _) => destruct x
      end ]).

Lemma within_drop_keys f n ks : within (λ X (o : kop X), match o with KCreate _ _ => False | _ => True end) (drop_keys f n ks).
Proof.
  revert n. induction ks as [|key ks IH]; intros n; cbn [drop_keys]; [done|]. unfold read_record.
  apply within_bind; [within_tac|]. intros [[[r rev]|]|e]; [|apply IH|done]. destruct (negb _); [apply IH|].
  apply within_bind; [within_tac|]. intros [[]|e]; [apply IH|]. destruct (lostRace e); [apply IH|done].
Qed.

(** All but [HPut] and [WRand]. *)
Definition quiet_call (X : Type) (o : sop X) : Prop :=
  match o with
  | inl_ o => match o with HPut _ _ => False | _ => True end
  | inr_ o => match o with WRand => False | _ => True end
  end.

Lemma quiet_recordless X (o : sop X) : quiet_call X o → within recordless (over_bucket X o).
Proof.
  destruct o as [o|o]; [|by split]. intros Ho. unfold over_bucket, embed.
  apply (within_interp_of _ (λ X (o : kop X), match o with KCreate _ _ => False | _ => True end));
    [intros Y [] ?; by split|].
  destruct o; [done|..]; cbn [kv_call].
  - unfold kv_Spend, keys, read_record. within_tac.
  - unfold kv_Drop, keys. repeat case_match; try done. apply within_bind; [within_tac|]. intros [ks|e]; [|done].
    apply within_drop_keys.
  - unfold kv_List, keys, list_record, read_record. within_tac.
Qed.

Lemma safe_silent {A} (c : scmd A) h :
  within quiet_call c → covered h → safe mint_guard (interp over_bucket c) (λ _ h', covered h') h.
Proof. intros Hw. apply safe_recordless. eapply within_interp_of; [|exact Hw]. apply quiet_recordless. Qed.

Lemma safe_Issue scope ref ttl h :
  covered h → safe mint_guard (interp over_bucket (Issue sha256 scope ref ttl)) (λ _ h', covered h') h.
Proof.
  intros Hh. unfold Issue. repeat (case_decide; [exact Hh|]).
  unfold gbind, wrap, world, handles. cbn [interp cbind act over_bucket safe]. split; [done|].
  intros [raw|e]; cbn [interp cbind safe]; [|intros d; rewrite !tally_snoc; specialize (Hh d); simpl; lia].
  set (h1 := h ++ _). split; [done|]. intros now. cbn [interp cbind]. set (h2 := h1 ++ _).
  set (d := Digest_ sha256 (hex_encode raw)).
  assert (Hcnt : ∀ d', (tally (creates d') h2 + (if decide (d' = d) then 1 else 0) ≤ tally (mints d') h2)%nat).
  { intros d'. unfold h2, h1. rewrite !tally_snoc. specialize (Hh d'). simpl.
    fold d. case_decide as Hd; case_bool_decide as Hb; try congruence; lia. }
  assert (Hcov : covered h2) by (intros d'; specialize (Hcnt d'); lia).
  set (r := record_for _ _ _). apply safe_bind. unfold over_bucket at 1, embed. cbn [kv_call]. unfold kv_Put.
  destruct (tenantToken (hr_TenantID r)) as [e|]; [exact Hcov|].
  assert (Hl : last_token (handleKey sha256 d r) = d).
  { unfold handleKey. rewrite <-string_app_assoc with (b := "."), <-string_app_assoc. apply last_token_snoc, hex_dotless. }
  cbn [interp cbind act safe]. split.
  { unfold mint_guard. rewrite Hl. specialize (Hcnt d). rewrite decide_True in Hcnt by done. lia. }
  assert (Hput : ∀ x, covered (h2 ++ [Did (inl_ (KCreate (handleKey sha256 d r) (enc_handle r))) x])).
  { intros x d'. rewrite !tally_snoc. specialize (Hcnt d'). simpl. rewrite Hl.
    case_decide as Hd; case_bool_decide; simpl; try congruence; lia. }
  intros [[]|e]; cbn [interp cbind gret gfail safe]; apply Hput.
Qed.

(** Programs that keep every record covered by a mint. *)
Definition covers {A} (c : scmd A) : Prop :=
  ∀ h, covered h → safe mint_guard (interp over_bucket c) (λ _ h', covered h') h.

Lemma covers_quiet {A} (c : scmd A) : within quiet_call c → covers c.
Proof. intros Hw h. by apply safe_silent. Qed.

Lemma covers_bind {A B} (c : scmd A) (f : A → scmd B) : covers c → (∀ a, covers (f a)) → covers (cbind c f).
Proof.
  intros Hc Hf h Hh. apply safe_interp_bind. eapply safe_mono; [|by apply Hc]. intros a h' Hh'. by apply Hf.
Qed.

Lemma covers_gfold {A S} (f : S → A → sgo S) s l : (∀ s x, covers (f s x)) → covers (gfold f s l).
Proof.
  intros Hf. revert s. induction l as [|x l IH]; intros s; cbn [gfold]; [by apply covers_quiet|].
  apply covers_bind; [apply Hf|]. intros [s'|e]; [apply IH|by apply covers_quiet].
Qed.

Lemma within_revoke_handles n hs : within quiet_call (revoke_handles sha256 n hs).
Proof.
  revert n. induction hs as [|h hs IH]; intros n; cbn [revoke_handles]; [done|]. case_decide; [apply IH|].
  apply within_bind; [by split|]. intros [d [e|]]; [done|apply IH].
Qed.

Lemma Discard_quiet broker refs : within quiet_call (Discard sha256 broker refs).
Proof.
  unfold Discard, RevokeHandles. case_match; [done|]. apply within_bind; [apply within_revoke_handles|].
  intros r. destruct (snd r); [by split|done].
Qed.

Lemma BusRedeemer_quiet base t ref : within quiet_call (BusRedeemer_Redeem base t ref).
Proof. unfold BusRedeemer_Redeem. within_tac. Qed.

Lemma sweep_quiet range : within quiet_call (RevokeClosedRuns range).
Proof.
  assert (Hruns : ∀ t runs n, within quiet_call (revoke_runs t n runs)).
  { intros t runs. induction runs as [|run runs IH]; intros n; cbn [revoke_runs]; [done|]. unfold RevokeRun.
    apply within_bind; [case_decide; by repeat split|]. intros [d [e|]]; [done|apply IH]. }
  unfold RevokeClosedRuns. apply within_bind; [by split|]. intros [records|e]; [|done].
  generalize (range (map fst (map_to_list (candidate_runs records)))). generalize 0. intros n tenants. revert n.
  induction tenants as [|t tenants IH]; intros n; cbn [sweep_tenants]; [done|]. apply within_bind; [by split|].
  intros [ids|e]; [|done]. apply within_bind; [apply Hruns|]. intros [m [e|]]; [done|apply IH].
Qed.

Lemma covers_or_discard {A} broker refs (c : sgo A) : covers c → covers (or_discard sha256 broker refs c).
Proof.
  intros Hc. apply covers_bind; [done|]. intros [a|e]; [by apply covers_quiet|].
  apply covers_bind; [apply covers_quiet, Discard_quiet|]. intros []. by apply covers_quiet.
Qed.

Lemma covers_gbind {A B} (c : sgo A) (f : A → sgo B) : covers c → (∀ a, covers (f a)) → covers (gbind c f).
Proof. intros Hc Hf. apply covers_bind; [done|]. intros [a|e]; [apply Hf|by apply covers_quiet]. Qed.

Lemma covers_wrap {A} msg (c : sgo A) : covers c → covers (wrap msg c).
Proof. intros Hc. apply covers_bind; [done|]. intros a. by apply covers_quiet. Qed.

Lemma covers_Issue scope ref ttl : covers (Issue sha256 scope ref ttl).
Proof. intros h. apply safe_Issue. Qed.

Lemma covers_actor a : covers (act_of a).
Proof.
  destruct a as [t h|broker source scope step ttl|base t name|scope|t run|range]; unfold act_of, told;
    (apply covers_bind; [|by intros; apply covers_quiet]).
  - apply covers_quiet. unfold redeem. within_tac.
  - unfold StepIssuer_Issue. repeat (case_decide; [by apply covers_quiet|]). destruct (negb broker); [by apply covers_quiet|].
    destruct (ValidateDeclarations step); [by apply covers_quiet|]. apply covers_gfold. intros refs decl. unfold issue_one.
    apply covers_gbind; [apply covers_or_discard, covers_quiet; unfold secret_value; within_tac|]. intros value.
    apply covers_gbind; [apply covers_or_discard, covers_quiet; within_tac|]. intros [].
    apply covers_gbind; [apply covers_or_discard, covers_wrap, covers_Issue|]. intros ref. by apply covers_quiet.
  - unfold Resolve. repeat (case_decide; [by apply covers_quiet|]).
    apply covers_gbind; [apply covers_wrap, covers_Issue|]. intros ref. apply covers_bind; [apply covers_quiet, BusRedeemer_quiet|].
    intros [v|e]; [by apply covers_quiet|]. apply covers_quiet. within_tac.
  - apply covers_quiet. unfold RevokeAttempt. within_tac.
  - apply covers_quiet. unfold RevokeRun. within_tac.
  - apply covers_quiet, sweep_quiet.
Qed.

Lemma actor_creates a tr r d : runs (plane a) tr r → (tally (creates d) tr ≤ tally (mints d) tr)%nat.
Proof.
  intros Hr. assert (Hc : covered []) by (intros d'; done).
  destruct (safe_runs _ _ _ _ _ _ (covers_actor a [] Hc) Hr) as [Hg _].
  apply (tally_guarded _ _ mint_guard); [|intros X o x pre post Htr; exact (Hg pre X o x post Htr)].
  intros X o x h HG Hp. destruct o as [o|o]; [|done]. destruct o; try done. simpl in Hp.
  apply bool_decide_eq_true in Hp as <-. exact HG.
Qed.

(** *** A value is told only after a record was deleted *)

Definition spent_in (d : string) (h : phist) : Prop :=
  ∃ ks key rev, Did (inl_ (KListKeys ("*.*." +:+ d))) (Ok ks) ∈ h ∧ key ∈ ks
    ∧ Did (inl_ (KDelete key rev)) (Ok tt) ∈ h.

Ltac in_trace :=
  match goal with
  | |- _ ∈ _ ++ [_] => apply elem_of_app; first [by right; left | left; in_trace]
  | |- _ => eassumption
  end.

Lemma safe_spend d h :
  safe no_guard (over_bucket _ (inl_ (HSpend d))) (λ x h', ∀ r, x = Ok (Some r) → spent_in d h') h.
Proof.
  unfold over_bucket, embed. cbn [kv_call]. unfold kv_Spend, keys, gbind, wrap. cbn [interp cbind act safe].
  split; [done|]. intros [[|key ks]|e]; [done| |done]. unfold read_record. cbn [interp cbind act safe].
  split; [done|]. intros [[[v rev]|]|e]; cbn [interp cbind safe]; [|done..].
  destruct (dec_handle v) as [rec|]; [|done]. cbn [interp cbind gret safe act]. split; [done|].
  intros [[]|e]; cbn [interp cbind safe gret gfail]; [|by destruct (lostRace e)].
  intros r _. exists (key :: ks), key, rev. split_and!; [in_trace|by left|in_trace].
Qed.

Lemma safe_redeems t handle :
  safe no_guard (plane (Redeems t handle)) (λ r h', ∀ v, r = Some v → spent_in (Digest_ sha256 handle) h') [].
Proof.
  unfold plane, act_of, redeem. case_decide; [done|]. cbn [gfail cbind]. unfold handles.
  cbn [cbind act interp]. apply safe_bind. eapply safe_mono; [|apply safe_spend].
  intros [[r|]|e] h1 Hs; [|done..]. specialize (Hs r eq_refl).
  match goal with |- safe _ _ ?Q _ => apply (safe_mono no_guard _ (λ _ h', extends h1 h')) end.
  - intros [v|] h' He; [|done]. intros v' _. destruct Hs as (ks & key & rev & H1 & H2 & H3).
    exists ks, key, rev. split_and!; [by eapply extends_elem|done|by eapply extends_elem].
  - apply (safe_within (λ _ _, True)); [apply _|by intros; apply extends_snoc|].
    apply (within_interp_of _ (λ _ _, True)); [|within_tac]. intros X o _.
    assert (Hall : ∀ Y (c : pcmd Y), within (λ _ _, True) c).
    { intros Y c. induction c as [y|Z o' k IH]; [done|]. by split. }
    apply Hall.
Qed.

(** What a listing by digest lists. *)
Lemma hex_no_star s : hex_encode s ≠ "*" ∧ hex_encode s ≠ ">".
Proof. destruct s as [|c s]; simpl; [done|]. split; by intros [=]. Qed.

Lemma digest_pattern d key :
  dotless d = true → d ≠ "*" → d ≠ ">" →
  tokens_match (split_on "."%char ("*.*." +:+ d)) (split_on "."%char key) = true → last_token key = d.
Proof.
  intros Hd Hs Hg. assert (Hp : split_on "."%char ("*.*." +:+ d) = ["*"; "*"; d]).
  { change ("*.*." +:+ d) with ("*" +:+ String "."%char ("*" +:+ String "."%char d)).
    rewrite !split_on_app by done. by rewrite split_on_none. }
  rewrite Hp. unfold last_token. destruct (split_on "."%char key) as [|a [|b [|c l]]]; cbn [tokens_match];
    repeat (rewrite decide_False by (by intros [? ?])); [done|by rewrite ?andb_false_r|by rewrite ?andb_false_r|].
  intros [_ [_ [Hc Hl]%andb_true_iff]%andb_true_iff]%andb_true_iff. destruct l as [|x l]; [|done]. simpl.
  apply orb_true_iff in Hc as [Hc|Hc]; by apply bool_decide_eq_true in Hc.
Qed.

(** ** At most once *)

(** How many actors were told a value for a handle of this digest. *)
Definition told_a_value (d : string) (actors : list actor) (ps : list (pcmd (option string))) (i : nat) : nat :=
  match actors !! i, ps !! i with
  | Some (Redeems _ handle), Some (Done (Some _)) => if decide (Digest_ sha256 handle = d) then 1 else 0
  | _, _ => 0
  end.

Definition redeemed (d : string) (actors : list actor) (ps : list (pcmd (option string))) : nat :=
  sum_to (length actors) (told_a_value d actors ps).

Definition no_handles : bucket := mkBucket ∅ 0.

Lemma told_deleted actors tr ps' b' d i :
  interleaved plane_step ages (map plane actors) no_handles tr ps' b' →
  (told_a_value d actors ps' i ≤ tally (deletes d) (own i tr))%nat.
Proof.
  intros Hr. unfold told_a_value. destruct (actors !! i) as [a|] eqn:Ha; [|lia].
  destruct a as [t handle| | | | |]; try lia. destruct (ps' !! i) as [c'|] eqn:Hc'; [|lia].
  destruct c' as [[v|]|]; try lia. case_decide as Hd; [|lia].
  assert (Hi : map plane actors !! i = Some (plane (Redeems t handle))) by (by rewrite list_lookup_fmap, Ha).
  destruct (interleaved_own _ _ _ _ _ _ _ _ _ Hr Hi) as (c' & Hc & Haft). rewrite Hc' in Hc. injection Hc as <-.
  apply after_runs in Haft.
  destruct (proj2 (safe_runs _ _ _ _ _ _ (safe_redeems t handle) Haft) (Some v) eq_refl v eq_refl)
    as (ks & key & rev & H1 & H2 & H3).
  destruct (interleaved_answers _ _ _ _ _ _ _ _ _ _ _ Hr H1) as (w1 & w2 & _ & Hl).
  destruct Hl as [(l & [= ->] & Hl)|[e ?]]; [|done]. apply Hl in H2 as [_ Hm].
  destruct (hex_no_star (sha256 handle)). apply digest_pattern in Hm; [|apply hex_dotless|done..].
  cbn [app] in H3. apply list_elem_of_split in H3 as (l1 & l2 & ->). unfold tally. rewrite List.filter_app, length_app.
  simpl. rewrite bool_decide_true by (by rewrite Hm). simpl. lia.
Qed.

(** C10: however many planes share the handle bucket, and whatever any of them
    is doing, issuing, resolving, redeeming, revoking or sweeping, at any
    moment, a handle's value is told at most as often as that handle was
    minted: a single-use handle is redeemed at most once, on all planes
    together, even by redemptions at the same time, and even when calls on the
    bucket fail without saying whether they took effect. *)
Theorem handles_are_redeemed_once actors tr ps' b' d :
  interleaved plane_step ages (map plane actors) no_handles tr ps' b' →
  (redeemed d actors ps' ≤ tally (mints d) (map snd tr))%nat.
Proof.
  intros Hr. pose proof (deletes_bounded d _ _ _ _ _ Hr) as Hb.
  assert (H0 : live d no_handles = O) by reflexivity.
  rewrite H0 in Hb. pose proof (tally_own _ _ (deletes d) _ _ _ _ _ Hr) as Hdel.
  pose proof (tally_own _ _ (creates d) _ _ _ _ _ Hr) as Hcr. pose proof (tally_own _ _ (mints d) _ _ _ _ _ Hr) as Hmi.
  rewrite length_map in *. unfold redeemed.
  assert (H1 : (sum_to (length actors) (told_a_value d actors ps') ≤ tally (deletes d) (map snd tr))%nat).
  { rewrite Hdel. apply sum_to_le. intros i _. by eapply told_deleted. }
  assert (H2 : (tally (creates d) (map snd tr) ≤ tally (mints d) (map snd tr))%nat); [|lia].
  rewrite Hcr, Hmi. apply sum_to_le. intros i Hi. destruct (lookup_lt_is_Some_2 actors i Hi) as [a Ha].
  assert (Hp : map plane actors !! i = Some (plane a)) by (by rewrite list_lookup_fmap, Ha).
  destruct (interleaved_own _ _ _ _ _ _ _ _ _ Hr Hp) as (c' & _ & Haft). apply after_runs in Haft.
  by eapply actor_creates.
Qed.

End Planes.

(** ** What a redemption yields *)

Abbreviation shist := (list (Program.did sop)).

(** The calls of a redemption that yields a value. *)
Definition redemption (sha256 : string → string) (handle : string) (r : Record_) (now : Z) (value : string) : shist :=
  [Did (inl_ (HSpend (Digest_ sha256 handle))) (Ok (Some r)); Did (inr_ WNow) now;
   Did (inr_ (WValue (hr_Source r) (hr_TenantID r) (hr_Name r))) (Ok value)].

(** A trace, call by call. *)
Ltac next_call H :=
  let x := fresh "x" in let tr := fresh "tr" in
  apply runs_Call in H as [[_ ?]|(x & tr & -> & H)]; [done|].

Ltac no_more H := apply runs_Done in H as [-> [?|?]]; [done|simplify_eq].

(** a redemption yields a value exactly when the handle's record was taken
    from the store by this call, belongs to the tenant asking, if one is named,
    has not expired by the clock read after it was taken, and resolves from a
    source this plane was lent; and the value is what that source holds for the
    record's own tenant and name, and does not read as a refusal. Every other
    redemption ends in the one refusal, which says nothing of why. *)
Theorem redeem_yields_iff sha256 lent t handle tr v :
  (runs (redeem sha256 lent t handle) tr (Some (Ok v)) ↔
   handle ≠ "" ∧ ∃ r now, tr = redemption sha256 handle r now v ∧ (t = "" ∨ hr_TenantID r = t)
     ∧ now ≤ hr_ExpiresAt r ∧ lent (hr_Source r) = true ∧ has_prefix RefusalPrefix v = false)
  ∧ ∀ e, runs (redeem sha256 lent t handle) tr (Some (Err e)) → e = errRefused.
Proof.
  unfold redeem, handles, world, act, gret, gfail. split; [split|].
  - case_decide as Hh; cbn [cbind]; intros Hr; [no_more Hr|]. split; [done|].
    next_call Hr. destruct x as [[r|]|e]; cbn [cbind] in Hr; [|no_more Hr..]. case_decide as Ht; [no_more Hr|].
    cbn [cbind] in Hr. next_call Hr. cbn [cbind] in Hr. case_decide as Hx; [no_more Hr|].
    destruct (lent (hr_Source r)) eqn:El; cbn [negb] in Hr; [|no_more Hr]. cbn [cbind] in Hr. next_call Hr.
    destruct x0 as [v'|e]; cbn [cbind] in Hr; [|no_more Hr]. destruct (has_prefix RefusalPrefix v') eqn:Ep; [no_more Hr|].
    no_more Hr. exists r, x. split_and!; [done|destruct (decide (t = "")); [by left|right; by apply dec_stable; tauto]|lia|done..].
  - intros (Hh & r & now & -> & Ht & Hx & Hl & Hp). rewrite decide_False by done. cbn [cbind]. unfold redemption.
    constructor. cbn [cbind]. rewrite decide_False by (by intros [? ?]; destruct Ht). cbn [cbind]. constructor. cbn [cbind].
    rewrite decide_False by lia. rewrite Hl. cbn [negb cbind]. constructor. cbn [cbind]. rewrite Hp. constructor.
  - intros e. case_decide as Hh; cbn [cbind]; intros Hr; [by no_more Hr|].
    next_call Hr. destruct x as [[r|]|e']; cbn [cbind] in Hr; [|by no_more Hr..]. case_decide; [by no_more Hr|].
    cbn [cbind] in Hr. next_call Hr. cbn [cbind] in Hr. case_decide; [by no_more Hr|].
    destruct (lent (hr_Source r)); cbn [negb] in Hr; [|by no_more Hr]. cbn [cbind] in Hr. next_call Hr.
    destruct x0 as [v'|e'']; cbn [cbind] in Hr; [|by no_more Hr]. destruct (has_prefix RefusalPrefix v'); by no_more Hr.
Qed.

(** ** Over the bus *)

Lemma runs_bind_done {op A B} (c : Program.cmd op A) (f : A → B) tr b :
  runs (cbind c (λ a, Done (f a))) tr (Some b) → ∃ a, runs c tr (Some a) ∧ b = f a.
Proof.
  intros (t1 & t2 & a & -> & H1 & H2)%runs_bind. apply runs_Done in H2 as [-> [?|?]]; [done|]. simplify_eq.
  exists a. by rewrite app_nil_r.
Qed.

Lemma substring_app (p s : string) :
  String.substring (String.length p) (String.length (p +:+ s) - String.length p) (p +:+ s) = s.
Proof.
  induction p as [|c p IH]; simpl.
  - rewrite Nat.sub_0_r. induction s as [|c s IHs]; simpl; [done|]. by rewrite IHs.
  - exact IH.
Qed.

Lemma cut_prefix_app p s : cut_prefix (p +:+ s) p = Some s.
Proof. unfold cut_prefix. by rewrite has_prefix_app, substring_app. Qed.

(** What the engine makes of a refusal. *)
Definition refused_for (ref : SecretRef) : GoErr :=
  ErrMsg ("secrets: the reference bound to " +:+ quote (sr_name ref) +:+ " was refused: " +:+ err_text errRefused).

(** C24: the engine reads exactly what the broker gave. Whatever a plane
    answers on a tenant's redemption subject is a redemption on behalf of that
    tenant and no other; a value arrives as it was, and a refusal arrives as an
    error that names the binding and nothing else, never as a value. *)
Theorem engine_reads_what_was_given sha256 lent base tenant ref tr body :
  base ≠ "" → tenant ≠ "" → dotless tenant = true →
  runs (serve_tenants sha256 lent base (base +:+ "." +:+ tenant) (sr_handle ref)) tr (Some body) →
  ∃ r, runs (redeem sha256 lent tenant (sr_handle ref)) tr (Some r)
    ∧ runs (BusRedeemer_Redeem base tenant ref)
        [Did (inr_ (WRequest (base +:+ "." +:+ tenant) (sr_handle ref))) (Ok body)]
        (Some (match r with Ok v => Ok v | Err _ => Err (refused_for ref) end)).
Proof.
  intros Hb Ht Hd. unfold serve_tenants. rewrite <-string_app_assoc, cut_prefix_app.
  rewrite decide_False by (rewrite Hd; by intros [?|?]). unfold RedeemFor. rewrite decide_False by done.
  intros (r & Hr & ->)%runs_bind_done. exists r. split; [done|].
  unfold BusRedeemer_Redeem, world, act, gret, gfail. rewrite !decide_False by done. rewrite string_app_assoc.
  cbn [cbind]. constructor. cbn [cbind]. destruct r as [v|e]; cbn [reply].
  - apply (proj1 (redeem_yields_iff _ _ _ _ _ _)) in Hr as (_ & r & now & _ & _ & _ & _ & Hp).
    rewrite Hp. constructor.
  - apply (proj2 (redeem_yields_iff sha256 lent tenant (sr_handle ref) tr "")) in Hr as ->.
    rewrite has_prefix_app, trim_prefix_app. unfold refused_for. constructor.
Qed.

(** ** Revoking *)

Section Revoking.
Context {HJ : HandleJSON} {HL : HandleJSONLaws} (sha256 : string → string).

Abbreviation khist := (list (Program.did kop)).

Definition drop_guard (f : Filter_) : Program.guard kop := λ X o h,
  match o with
  | KDelete key rev => ∃ v rec, Did (KGet key) (Ok (Some (v, rev))) ∈ h ∧ dec_handle v = Some rec
                                ∧ matches f (last_token key) rec = true
  | KCreate _ _ => False
  | _ => True
  end.

Lemma safe_drop_keys f n ks h : safe (drop_guard f) (drop_keys f n ks) (λ _ _, True) h.
Proof.
  revert n h. induction ks as [|key ks IH]; intros n h; cbn [drop_keys]; [done|]. unfold read_record.
  cbn [cbind act]. split; [done|]. intros [[[v rev]|]|e]; cbn [cbind gret gfail]; [|apply IH|done].
  destruct (dec_handle v) as [rec|] eqn:Ed; cbn [cbind gret gfail]; [|done].
  destruct (matches f (last_token key) rec) eqn:Em; cbn [negb]; [|apply IH]. cbn [cbind act]. split.
  - exists v, rec. split_and!; [apply snoc_elem|done..].
  - intros [[]|e]; [apply IH|]. destruct (lostRace e); [apply IH|done].
Qed.

Lemma safe_kv_Drop f h : safe (drop_guard f) (kv_Drop sha256 f) (λ _ _, True) h.
Proof.
  unfold kv_Drop, keys, wrap. repeat case_match; try done. cbn [cbind act]. split; [done|].
  intros [ks|e]; [apply safe_drop_keys|done].
Qed.

Lemma matches_attempt scope d r :
  sc_TenantID scope ≠ "" → sc_RunID scope ≠ "" → sc_StepID scope ≠ "" → sc_Attempt scope ≠ 0 →
  matches (attempt_filter scope) d r = true ↔
  hr_TenantID r = sc_TenantID scope ∧ hr_RunID r = sc_RunID scope ∧ hr_StepID r = sc_StepID scope
  ∧ hr_Attempt r = sc_Attempt scope.
Proof.
  intros H1 H2 H3 H4. unfold matches, attempt_filter. cbn [fl_TenantID fl_RunID fl_StepID fl_Attempt fl_Digest].
  repeat case_decide; try (split; [done|]; intros (? & ? & ? & ?); naive_solver).
  rewrite bool_decide_true by auto. split; [|done]. intros _. split_and!; symmetry; apply dec_stable; tauto.
Qed.

(** Revoking an attempt is exact: every record it deletes was read just
    before, at the revision it is deleted at, and was issued for precisely that
    tenant, run, step and attempt. The retry of the same step, which may
    already hold handles of its own, keeps them. *)
Theorem revocation_is_exact scope tr r pre key rev x post :
  sc_TenantID scope ≠ "" → sc_RunID scope ≠ "" → sc_StepID scope ≠ "" → sc_Attempt scope ≠ 0 →
  runs (kv_Drop sha256 (attempt_filter scope)) tr r → tr = pre ++ Did (KDelete key rev) x :: post →
  ∃ v rec, Did (KGet key) (Ok (Some (v, rev))) ∈ pre ∧ dec_handle v = Some rec
    ∧ hr_TenantID rec = sc_TenantID scope ∧ hr_RunID rec = sc_RunID scope ∧ hr_StepID rec = sc_StepID scope
    ∧ hr_Attempt rec = sc_Attempt scope.
Proof.
  intros H1 H2 H3 H4 Hr ->. destruct (safe_runs _ _ _ _ _ _ (safe_kv_Drop (attempt_filter scope) []) Hr) as [Hg _].
  destruct (Hg _ _ _ _ _ eq_refl) as (v & rec & Hk & Hd & Hm). exists v, rec. split; [done|]. split; [done|].
  by apply matches_attempt in Hm.
Qed.

(** *** Complete, among others *)

(** What others do: record a handle under a key of its own, spend or revoke
    one, or leave one to age out. *)
Inductive others : bucket → bucket → Prop :=
| others_put d r b :
    dotless d = true → validTenantToken (hr_TenantID r) = true → b_keys b !! handleKey sha256 d r = None →
    others b (put (handleKey sha256 d r) (enc_handle r) b)
| others_remove key b : others b (remove_key key b)
| others_age key b : others b (age_out key b).

Definition handles_wf (b : bucket) : Prop :=
  ∀ key v rev, b_keys b !! key = Some (v, rev) →
    rev ≤ b_last b ∧ ∃ d r, dec_handle v = Some r ∧ key = handleKey sha256 d r ∧ dotless d = true
      ∧ validTenantToken (hr_TenantID r) = true.

Lemma put_handles_wf d r b :
  handles_wf b → dotless d = true → validTenantToken (hr_TenantID r) = true →
  handles_wf (put (handleKey sha256 d r) (enc_handle r) b).
Proof.
  intros Hb Hd Ht key v rev. unfold put. cbn [b_keys b_last]. rewrite lookup_insert_Some.
  intros [[<- [= <- <-]]|[_ [? ?]%Hb]]; (split; [lia|]); [|done]. exists d, r. by rewrite dec_enc_handle.
Qed.

Lemma delete_handles_wf key b last : handles_wf b → b_last b ≤ last → handles_wf (mkBucket (delete key (b_keys b)) last).
Proof. intros Hb Hl key' v rev. cbn [b_keys b_last]. intros [_ [? ?]%Hb]%lookup_delete_Some. split; [lia|done]. Qed.

Lemma others_wf b b' : handles_wf b → others b b' → handles_wf b'.
Proof.
  intros Hb Ho. destruct Ho as [d r b Hd Ht _|key b|key b];
    [by apply put_handles_wf|apply delete_handles_wf; [done|lia]..].
Qed.

(** A value at a revision, gone: it will not be seen again. *)
Definition gone (key v : string) (rev : Z) (b : bucket) : Prop :=
  rev ≤ b_last b ∧ b_keys b !! key ≠ Some (v, rev).

Lemma gone_mono key v rev b b' :
  (∀ k v' rev', b_keys b' !! k = Some (v', rev') → b_keys b !! k = Some (v', rev') ∨ b_last b < rev') →
  b_last b ≤ b_last b' → gone key v rev b → gone key v rev b'.
Proof.
  intros Hk Hl [Hle Hne]. split; [lia|]. intros Hs. destruct (Hk _ _ _ Hs) as [?|?]; [done|lia].
Qed.

Lemma others_gone key v rev b b' : gone key v rev b → others b b' → gone key v rev b'.
Proof.
  intros Hg Ho. eapply gone_mono; [| |exact Hg]; destruct Ho as [d r b _ _ _|k b|k b]; cbn [put remove_key age_out b_keys b_last]; try lia.
  - intros k' v' rev' [[_ [= _ <-]]|[_ ?]]%lookup_insert_Some; [right; lia|by left].
  - intros k' v' rev' [_ ?]%lookup_delete_Some. by left.
  - intros k' v' rev' [_ ?]%lookup_delete_Some. by left.
Qed.

Lemma others_gone_rtc key v rev b b' : gone key v rev b → rtc others b b' → gone key v rev b'.
Proof. intros Hg. induction 1; eauto using others_gone. Qed.

(** What it held, it holds still or will not again. *)
Lemma held_or_gone key v rev b b' :
  rev ≤ b_last b → rtc others b b' → (rev ≤ b_last b' ∧ b_keys b' !! key = Some (v, rev)) ∨ gone key v rev b'.
Proof.
  intros Hle Hr. assert (Hl : b_last b ≤ b_last b').
  { clear Hle. induction Hr as [b|b b1 b' Hst _ IH]; [done|]. destruct Hst; cbn [put remove_key age_out b_last] in *; lia. }
  destruct (decide (b_keys b' !! key = Some (v, rev))); [left|right]; split; try done; lia.
Qed.

Abbreviation amongst := (among kv_step others).

(** One call of the plane's own. *)
Lemma step_gone key v rev X (o : kop X) b b' x :
  match o with KCreate _ _ => False | _ => True end → kv_step X o b b' x → gone key v rev b → gone key v rev b'.
Proof.
  intros Ho Hs Hg. destruct o as [p|k|k data|k r]; [by destruct Hs as [-> _]..|done|].
  destruct Hs as [(-> & _)|[(-> & _)|(_ & -> & _)]]; [done..|]. exact (others_gone _ _ _ _ _ Hg (others_remove k b)).
Qed.

Lemma drop_keys_gone f n ks b b' m key v rev rec :
  dec_handle v = Some rec → matches f (last_token key) rec = true → rev ≤ b_last b →
  key ∈ ks ∨ gone key v rev b → amongst (drop_keys f n ks) b b' (m, None) → gone key v rev b'.
Proof.
  intros Hd Hm. revert n b. induction ks as [|k ks IH]; intros n b Hle Hin; cbn [drop_keys].
  { intros [_ Hr]. destruct Hin as [?%elem_of_nil|Hg]; [done|]. by eapply others_gone_rtc. }
  assert (Hnext : ∀ n b1, rev ≤ b_last b1 → (k = key → gone key v rev b1) → (gone key v rev b → gone key v rev b1) →
    amongst (drop_keys f n ks) b1 b' (m, None) → gone key v rev b').
  { intros n1 b1 Hle1 Hk Hg Hrun. eapply IH; [done| |exact Hrun].
    destruct Hin as [[->|?]%elem_of_cons|?]; [right; by apply Hk|by left|right; by apply Hg]. }
  unfold read_record. cbn [cbind act among]. intros (b1 & b2 & x & Hr1 & [-> Hx] & Hk). cbn [kv_step] in Hx.
  pose proof (held_or_gone key v rev b b1 Hle Hr1) as Hhg.
  assert (Hle1 : rev ≤ b_last b1) by (destruct Hhg as [[? _]|[? _]]; done).
  assert (Hkeep : gone key v rev b → gone key v rev b1) by (intros Hg; by eapply others_gone_rtc).
  destruct Hx as [->|[e ->]]; [|by destruct Hk as [? _]].
  destruct (b_keys b1 !! k) as [[v1 rev1]|] eqn:Ek; cbn [cbind gret gfail] in Hk.
  2: { eapply Hnext; [exact Hle1|intros ->|exact Hkeep|exact Hk]. split; [done|]. by rewrite Ek. }
  destruct (dec_handle v1) as [rec1|] eqn:Ed; cbn [cbind gret gfail] in Hk; [|by destruct Hk as [? _]].
  destruct (matches f (last_token k) rec1) eqn:Em; cbn [negb] in Hk.
  2: { eapply Hnext; [exact Hle1|intros ->|exact Hkeep|exact Hk]. split; [done|]. intros Heq. congruence. }
  cbn [cbind act among] in Hk. destruct Hk as (b2 & b3 & y & Hr2 & Hs & Hk). cbn [kv_step] in Hs.
  pose proof (held_or_gone key v rev b1 b2 Hle1 Hr2) as Hhg2.
  assert (Hle2 : rev ≤ b_last b2) by (destruct Hhg2 as [[? _]|[? _]]; done).
  assert (Hle3 : rev ≤ b_last b3).
  { destruct Hs as [(-> & _)|[(-> & _)|(_ & -> & _)]]; [done..|]. cbn [remove_key b_last]. lia. }
  assert (Hkeep3 : gone key v rev b → gone key v rev b3).
  { intros Hg%Hkeep. exact (step_gone key v rev _ (KDelete k rev1) b2 b3 y I Hs (others_gone_rtc _ _ _ _ _ Hg Hr2)). }
  assert (Hmiss : k = key → y ≠ Ok tt → snd <$> b_keys b2 !! k ≠ Some rev1 → gone key v rev b2).
  { intros -> _ Hne. destruct Hhg2 as [[_ Hheld]|Hg]; [|done]. rewrite Hheld in Hne. cbn in Hne. split; [done|].
    intros _. destruct Hhg as [[_ Hb1]|[_ Hb1]].
    - rewrite Ek in Hb1. congruence.
    - apply (others_gone_rtc key v rev b1 b2) in Hr2; [|by split]. destruct Hr2 as [_ Hr2]. congruence. }
  destruct Hs as [(-> & Hne & ->)|[(-> & e & ->)|(Hrev & -> & Hy)]].
  - cbn [lostRace] in Hk. eapply Hnext; [exact Hle3|intros E; by apply Hmiss|exact Hkeep3|exact Hk].
  - cbn [lostRace] in Hk. by destruct Hk as [? _].
  - assert (Hgone : k = key → gone key v rev (remove_key k b2)).
    { intros ->. split; [done|]. cbn [remove_key b_keys]. by rewrite lookup_delete_eq. }
    destruct Hy as [->|[e ->]]; cbn [lostRace] in Hk; [|by destruct Hk as [? _]].
    eapply Hnext; [exact Hle3|exact Hgone|exact Hkeep3|exact Hk].
Qed.

(** What a filter matching a record says. *)
Lemma matches_says f d r :
  matches f d r = true →
  (fl_Digest f = "" ∨ fl_Digest f = d) ∧ (fl_TenantID f = "" ∨ fl_TenantID f = hr_TenantID r)
  ∧ (fl_RunID f = "" ∨ fl_RunID f = hr_RunID r) ∧ (fl_Digest f ≠ "" ∨ fl_TenantID f ≠ "").
Proof.
  unfold matches. do 5 (case_decide; [done|]). rewrite bool_decide_eq_true. intros Hm.
  assert (Hor : ∀ x y : string, ¬ (x ≠ "" ∧ x ≠ y) → x = "" ∨ x = y).
  { intros x y Hn. destruct (decide (x = "")); [by left|]. right. apply dec_stable. tauto. }
  split_and!; [by apply Hor..|done].
Qed.

Lemma key_tokens d r :
  validTenantToken (hr_TenantID r) = true → dotless d = true →
  split_on "."%char (handleKey sha256 d r) = [hr_TenantID r; runToken sha256 (hr_RunID r); d]
  ∧ last_token (handleKey sha256 d r) = d.
Proof.
  intros Ht%token_dotless Hd. unfold handleKey. split.
  - change ("." +:+ d) with (String "."%char d).
    change ("." +:+ runToken sha256 (hr_RunID r) +:+ String "."%char d)
      with (String "."%char (runToken sha256 (hr_RunID r) +:+ String "."%char d)).
    rewrite !split_on_app; [by rewrite split_on_none|apply runToken_dotless|done].
  - rewrite <-string_app_assoc with (b := "."), <-string_app_assoc. by apply last_token_snoc.
Qed.

Lemma tokens_cons p k pattern key : p = "*" ∨ p = k → tokens_match pattern key = true → tokens_match (p :: pattern) (k :: key) = true.
Proof.
  intros Hp Ht. cbn [tokens_match]. case_decide; [done|]. rewrite Ht, andb_true_r. apply orb_true_iff.
  destruct Hp; [left|right]; by apply bool_decide_eq_true.
Qed.

(** Every record a filter matches is listed for it. *)
Lemma matched_is_listed f d r :
  validTenantToken (hr_TenantID r) = true → dotless d = true → matches f d r = true →
  ∃ pattern, drop_pattern sha256 f = Some pattern ∧ ¬ (fl_TenantID f ≠ "" ∧ validTenantToken (fl_TenantID f) = false)
    ∧ tokens_match (split_on "."%char pattern) (split_on "."%char (handleKey sha256 d r)) = true.
Proof.
  intros Ht Hd Hm. destruct (key_tokens d r Ht Hd) as [Hk _]. rewrite Hk.
  apply matches_says in Hm as (Hdg & Hten & Hrun & Hsome). unfold drop_pattern.
  assert (Hvalid : ¬ (fl_TenantID f ≠ "" ∧ validTenantToken (fl_TenantID f) = false)).
  { intros [Hne Hf]. destruct Hten as [?|Heq]; [done|]. rewrite Heq in Hf. congruence. }
  pose proof (token_dotless _ Ht) as Htd.
  destruct (decide (fl_TenantID f ≠ "" ∧ fl_RunID f ≠ "")) as [[H1 H2]|H1].
  - eexists. split; [done|]. split; [done|]. destruct Hten as [?| ->]; [done|]. destruct Hrun as [?| ->]; [done|].
    change ("." +:+ runToken sha256 (hr_RunID r) +:+ ".*")
      with (String "."%char (runToken sha256 (hr_RunID r) +:+ String "."%char "*")).
    rewrite !split_on_app by (done || apply runToken_dotless). rewrite split_on_none by done.
    apply tokens_cons; [by right|]. apply tokens_cons; [by right|]. apply tokens_cons; [by left|done].
  - destruct (decide (fl_TenantID f ≠ "")) as [H2|H2].
    + eexists. split; [done|]. split; [done|]. destruct Hten as [?| ->]; [done|].
      change (".*.*") with (String "."%char ("*" +:+ String "."%char "*")).
      rewrite !split_on_app by done. rewrite split_on_none by done.
      apply tokens_cons; [by right|]. apply tokens_cons; [by left|]. apply tokens_cons; [by left|done].
    + destruct (decide (fl_Digest f ≠ "")) as [H3|H3]; [|tauto]. eexists. split; [done|]. split; [done|].
      destruct Hdg as [?| ->]; [done|].
      change ("*.*." +:+ d) with ("*" +:+ String "."%char ("*" +:+ String "."%char d)).
      rewrite !split_on_app by done. rewrite split_on_none by done.
      apply tokens_cons; [by left|]. apply tokens_cons; [by left|]. apply tokens_cons; [by right|done].
Qed.

(** revoking is complete. When [Drop] reports success, whatever other
    planes issued, spent or revoked meanwhile, no record its filter matches that
    was there when it began is there any more: an attempt that ended, or a run
    that was closed, leaves no live credential behind. *)
Theorem revoked_handles_are_gone f n b b' key v rev rec :
  handles_wf b → amongst (kv_Drop sha256 f) b b' (n, None) →
  b_keys b !! key = Some (v, rev) → dec_handle v = Some rec → matches f (last_token key) rec = true →
  b_keys b' !! key ≠ Some (v, rev).
Proof.
  intros Hwf Hrun Hk Hd Hm. destruct (Hwf _ _ _ Hk) as (Hle & d & r & Hd' & -> & Hdot & Ht).
  rewrite Hd in Hd'. injection Hd' as <-. destruct (key_tokens d rec Ht Hdot) as [_ Hl]. rewrite Hl in Hm.
  destruct (matched_is_listed f d rec Ht Hdot Hm) as (pattern & Hp & Hv & Htok).
  unfold kv_Drop in Hrun. rewrite Hp, decide_False in Hrun by done. unfold keys, wrap in Hrun.
  cbn [cbind act among] in Hrun. destruct Hrun as (b1 & b2 & x & Hr1 & [-> Hx] & Hrun).
  destruct Hx as [(ks & -> & Hks)|[e ->]]; [|by destruct Hrun as [? _]]. cbn [cbind] in Hrun.
  destruct (held_or_gone (handleKey sha256 d rec) v rev b b1 Hle Hr1) as [[Hle1 Hheld]|Hgone].
  - assert (Hin : handleKey sha256 d rec ∈ ks) by (apply Hks; split; [by eapply elem_of_dom_2|done]).
    eapply (drop_keys_gone f 0 ks b1 b' n); [exact Hd|by rewrite Hl|exact Hle1|by left|exact Hrun].
  - eapply (drop_keys_gone f 0 ks b1 b' n); [exact Hd|by rewrite Hl|by destruct Hgone|by right|exact Hrun].
Qed.

End Revoking.

(** ** What a step may declare *)

Lemma check_declarations_iff step n seen decls :
  check_declarations step n seen decls = None ↔
  Forall (λ decl, sec_name decl ≠ "" ∧ IsEnvName (sec_env decl) = true ∧ sec_env decl ∉ seen) decls
  ∧ NoDup (map sec_env decls).
Proof.
  revert n seen. induction decls as [|decl decls IH]; intros n seen; cbn [check_declarations map].
  { split; [|done]. intros _. split; constructor. }
  rewrite Forall_cons, NoDup_cons. case_decide as Hn; [split; [done|]; intros [[[? _] _] _]; done|].
  destruct (IsEnvName (sec_env decl)) eqn:He; cbn [negb]; [|split; [done|]; intros [[[_ [? _]] _] _]; done].
  case_decide as Hs; [split; [done|]; intros [[[_ [_ ?]] _] _]; done|]. rewrite IH. split.
  - intros [Hall Hnd]. split; [split; [done|]|split; [|done]].
    + eapply Forall_impl; [exact Hall|]. intros x (? & ? & Hx). rewrite not_elem_of_cons in Hx. tauto.
    + intros (x & Hx & Hin)%list_elem_of_fmap. rewrite Forall_forall in Hall.
      destruct (Hall x Hin) as (_ & _ & Hx'). apply Hx'. rewrite <-Hx. by left.
  - intros [[_ Hall] [Hni Hnd]]. split; [|done]. rewrite Forall_forall in *. intros x Hin.
    destruct (Hall x Hin) as (? & ? & ?). split_and!; [done..|]. rewrite not_elem_of_cons. split; [|done].
    intros E. apply Hni. rewrite <-E. by apply list_elem_of_fmap_2.
Qed.

(** A step's declarations are accepted exactly when it declares the capability,
    every declaration names a secret, and the variables are portable names, no
    two alike. *)
Lemma declarations_accepted_iff step :
  ValidateDeclarations step = None ↔
  step_secrets step = [] ∨
  (CAPABILITY_SECRETS ∈ step_capabilities step
   ∧ Forall (λ decl, sec_name decl ≠ "" ∧ IsEnvName (sec_env decl) = true) (step_secrets step)
   ∧ NoDup (map sec_env (step_secrets step))).
Proof.
  unfold ValidateDeclarations. case_decide as Hs; [split; [by left|done]|].
  case_decide as Hc; [split; [done|]; intros [?|[? _]]; done|]. rewrite check_declarations_iff. split.
  - intros [Hall Hnd]. right. split; [done|]. split; [|done]. eapply Forall_impl; [exact Hall|]. by intros x (? & ? & _).
  - intros [?|(_ & Hall & Hnd)]; [done|]. split; [|done]. eapply Forall_impl; [exact Hall|]. intros x [? ?].
    split_and!; [done..|]. apply not_elem_of_nil.
Qed.

(** ** Issuing for a step *)

Section Issuing.
Context (sha256 : string → string).

(** The records this history put in the store. *)
Definition puts : shist → list (string * Record_) :=
  pick (λ X (o : sop X), match o in plus _ _ _ return X → option (string * Record_) with
                         | inl_ o => match o in hop X return X → option (string * Record_) with
                                     | HPut d r => λ x, match x with Ok _ => Some (d, r) | Err _ => None end
                                     | _ => λ _, None
                                     end
                         | inr_ _ => λ _, None
                         end).

Definition dropped (d : string) (h : shist) : Prop :=
  ∃ n, Did (inl_ (HDrop (mkFilter "" "" "" 0 d))) (n, None) ∈ h.
Definition drop_failed (h : shist) : Prop := ∃ f n e, Did (inl_ (HDrop f)) (n, Some e) ∈ h.
(** [crypto/rand] gave no bytes. *)
Definition no_bytes (h : shist) : Prop := Did (inr_ WRand) (Ok "") ∈ h.

Definition minted (ref : SecretRef) (h : shist) : Prop :=
  ∃ raw, Did (inr_ WRand) (Ok raw) ∈ h ∧ sr_handle ref = hex_encode raw.

(** A reference, and the record behind it. *)
Definition issued (scope : Scope) (decl : StepSecret) (ref : SecretRef) (h : shist) : Prop :=
  sr_name ref = sec_env decl ∧ minted ref h ∧
  ∃ expires, sr_expires_at ref = expires / Second
    ∧ (Digest_ sha256 (sr_handle ref),
       record_for scope (mkReference SourceStep (sec_name decl) (sec_env decl)) expires) ∈ puts h.

Lemma puts_extends h h' p : extends h h' → p ∈ puts h → p ∈ puts h'.
Proof. intros [tr ->] Hp. unfold puts, pick in *. rewrite omap_app. apply elem_of_app. by left. Qed.

Lemma issued_extends scope decl ref h h' : extends h h' → issued scope decl ref h → issued scope decl ref h'.
Proof.
  intros He (Hn & (raw & Hr & Hh) & ex & Hx & Hp). split; [done|]. split.
  - exists raw. split; [by eapply extends_elem|done].
  - exists ex. split; [done|]. by eapply puts_extends.
Qed.

(** What was put, these references are the handles of. *)
Definition accounted (refs : list SecretRef) (h : shist) : Prop :=
  (∀ d r, (d, r) ∈ puts h → ∃ ref, ref ∈ refs ∧ d = Digest_ sha256 (sr_handle ref))
  ∧ ∀ ref, ref ∈ refs → minted ref h.

Definition taken_back (h : shist) : Prop :=
  ∀ d r, (d, r) ∈ puts h → dropped d h ∨ drop_failed h ∨ no_bytes h.

Definition same_puts (h h' : shist) : Prop := extends h h' ∧ puts h' = puts h.

#[local] Instance same_puts_preorder : PreOrder same_puts.
Proof.
  split; [by intros h|]. intros h1 h2 h3 [E1 P1] [E2 P2]. split; [by etrans|congruence].
Qed.

Definition putless (X : Type) (o : sop X) : Prop :=
  match o with inl_ o => match o with HPut _ _ => False | _ => True end | inr_ _ => True end.

Lemma putless_same X (o : sop X) x h : putless X o → same_puts h (h ++ [Did o x]).
Proof.
  intros Ho. split; [apply extends_snoc|]. unfold puts. rewrite pick_snoc. destruct o as [o|o]; [|apply app_nil_r].
  destruct o; [done|apply app_nil_r..].
Qed.

Lemma accounted_same refs h h' : same_puts h h' → accounted refs h → accounted refs h'.
Proof.
  intros [He Hp] [H1 H2]. split; [rewrite Hp; exact H1|]. intros ref Hin. destruct (H2 ref Hin) as (raw & Hr & Hh).
  exists raw. split; [by eapply extends_elem|done].
Qed.

Lemma safe_Issue_puts scope ref ttl h :
  safe no_guard (Issue sha256 scope ref ttl)
    (λ res h', extends h h' ∧
       match res with
       | Ok sr => sr_name sr = rf_Binding ref ∧ minted sr h' ∧ ∃ expires, sr_expires_at sr = expires / Second
                    ∧ puts h' = puts h ++ [(Digest_ sha256 (sr_handle sr), record_for scope ref expires)]
       | Err _ => puts h' = puts h
       end) h.
Proof.
  unfold Issue. repeat (case_decide; [by split|]). unfold gbind, wrap, world, handles. cbn [cbind act safe].
  split; [done|]. intros [raw|e]; cbn [cbind gret safe]; [|exact (putless_same _ (inr_ WRand) (Err e) h I)].
  pose proof (putless_same _ (inr_ WRand) (Ok raw) h I) as Hr1. set (h1 := h ++ _) in *.
  split; [done|]. intros now. cbn [cbind safe]. pose proof (putless_same _ (inr_ WNow) now h1 I) as Hr2.
  set (h2 := h1 ++ _) in *. assert (H12 : same_puts h h2) by (etrans; [exact Hr1|exact Hr2]). destruct H12 as [He Hp].
  split; [done|]. intros [[]|e]; cbn [cbind gret safe].
  - split; [etrans; [exact He|apply extends_snoc]|]. split; [done|]. split.
    + exists raw. split; [|done]. apply elem_of_app. left. apply elem_of_app. left. apply snoc_elem.
    + exists (now + ttl). split; [done|]. unfold puts. rewrite pick_snoc. fold puts. by rewrite Hp.
  - split; [etrans; [exact He|apply extends_snoc]|]. unfold puts. rewrite pick_snoc, app_nil_r. exact Hp.
Qed.

Lemma dropped_extends d h h' : extends h h' → dropped d h → dropped d h'.
Proof. intros He [n Hn]. exists n. by eapply extends_elem. Qed.
Lemma drop_failed_extends h h' : extends h h' → drop_failed h → drop_failed h'.
Proof. intros He (f & n & e & Hn). exists f, n, e. by eapply extends_elem. Qed.

Lemma safe_revoke_handles n hs h :
  safe no_guard (revoke_handles sha256 n hs)
    (λ _ h', same_puts h h' ∧ ∀ hdl, hdl ∈ hs → hdl ≠ "" → dropped (Digest_ sha256 hdl) h' ∨ drop_failed h') h.
Proof.
  revert n h. induction hs as [|hdl hs IH]; intros n h; cbn [revoke_handles].
  { split; [reflexivity|]. by intros hdl ?%elem_of_nil. }
  case_decide as Hd.
  - eapply safe_mono; [|apply IH]. intros [m e] h' [Hs Hall]. split; [done|]. intros k [->|Hk]%elem_of_cons Hne; [done|by apply Hall].
  - apply safe_act_bind; [done|]. intros [m [e|]].
    + cbn [safe]. split; [by apply putless_same|]. intros k _ _. right. eexists _, _, _. apply snoc_elem.
    + eapply safe_mono; [|apply IH]. intros r h' [Hs Hall].
      assert (Hh : same_puts h h') by (etrans; [|exact Hs]; by apply putless_same). split; [done|].
      intros k [->|Hk]%elem_of_cons Hne; [|by apply Hall]. left. exists m. eapply extends_elem; [apply Hs|apply snoc_elem].
Qed.

Lemma minted_blank ref h : minted ref h → sr_handle ref = "" → no_bytes h.
Proof. intros (raw & Hr & ->) He. destruct raw; [exact Hr|done]. Qed.

Lemma safe_Discard refs h :
  accounted refs h → safe no_guard (Discard sha256 true refs) (λ _ h', taken_back h') h.
Proof.
  intros [Ha Hm]. unfold Discard, RevokeHandles. cbn [negb orb]. case_bool_decide as Hr.
  { intros d r Hin. destruct (Ha d r Hin) as (ref & Href & _). subst. by apply elem_of_nil in Href. }
  apply safe_bind. eapply safe_mono; [|apply safe_revoke_handles]. intros [n e] h1 [[He Hp] Hall].
  assert (Htaken : taken_back h1).
  { intros d r Hin. rewrite Hp in Hin. destruct (Ha d r Hin) as (ref & Href & ->).
    destruct (decide (sr_handle ref = "")) as [Hb|Hb].
    - right; right. eapply extends_elem; [exact He|]. by eapply minted_blank; [apply Hm|].
    - destruct (Hall (sr_handle ref)) as [?|?]; [by apply list_elem_of_fmap_2|done|by left|by right; left]. }
  destruct e as [e|]; cbn [snd]; [|exact Htaken]. apply safe_act; [done|]. intros [].
  intros d r Hin. destruct (putless_same _ (inr_ (WReport e)) tt h1 I) as [He1 Hp1]. rewrite Hp1 in Hin.
  destruct (Htaken d r Hin) as [?|[?|?]]; [left; by eapply dropped_extends|right; left; by eapply drop_failed_extends|].
  right; right. by eapply extends_elem.
Qed.

Lemma safe_or_discard {A} refs (c : sgo A) (Q : A → shist → Prop) h :
  safe no_guard c (λ r h', match r with Ok a => Q a h' | Err _ => accounted refs h' end) h →
  safe no_guard (or_discard sha256 true refs c) (λ r h', match r with Ok a => Q a h' | Err _ => taken_back h' end) h.
Proof.
  intros Hs. unfold or_discard. apply safe_bind. eapply safe_mono; [|exact Hs]. intros [a|e] h1 H1; [exact H1|].
  apply safe_bind. eapply safe_mono; [|by apply safe_Discard]. intros [] h2 H2. exact H2.
Qed.

Definition issuing (scope : Scope) (seen : list StepSecret) (refs : list SecretRef) (h : shist) : Prop :=
  Forall2 (λ decl ref, issued scope decl ref h) seen refs ∧ accounted refs h.

Lemma issuing_same scope seen refs h h' : same_puts h h' → issuing scope seen refs h → issuing scope seen refs h'.
Proof.
  intros Hs [H1 H2]. split; [|by eapply accounted_same]. eapply Forall2_impl; [exact H1|]. intros decl ref.
  apply issued_extends, Hs.
Qed.

Lemma safe_issue_one source scope ttl seen refs decl h :
  issuing scope seen refs h →
  safe no_guard (issue_one sha256 true source scope ttl refs decl)
    (λ r h', match r with Ok refs' => issuing scope (seen ++ [decl]) refs' h' | Err _ => taken_back h' end) h.
Proof.
  intros Hi. unfold issue_one. apply safe_gbind, safe_or_discard.
  apply (safe_mono _ _ (λ r h', same_puts h h')).
  2: { unfold secret_value. destruct source; cbn [negb]; [|cbn [safe gfail]; reflexivity].
       unfold wrap, world. cbn [cbind act safe]. split; [done|]. intros [v|e]; by apply putless_same. }
  intros [value|e] h1 Hs1; [|by eapply accounted_same; [|apply Hi]].
  pose proof (issuing_same _ _ _ _ _ Hs1 Hi) as Hi1. apply safe_gbind, safe_or_discard.
  destruct (has_prefix RefusalPrefix value); cbn [safe gret gfail]; [apply Hi1|].
  apply safe_gbind, safe_or_discard, safe_wrap. eapply safe_mono; [|apply safe_Issue_puts].
  intros [ref|e] h2 [He Hres]; [|eapply accounted_same; [|apply Hi1]; by split].
  destruct Hres as (Hn & Hm & ex & Hx & Hp). destruct Hi1 as [Hf [Ha Hmi]]. cbn [safe gret]. split.
  - apply Forall2_app.
    + eapply Forall2_impl; [exact Hf|]. intros decl' ref'. by apply issued_extends.
    + constructor; [|constructor]. split; [done|]. split; [done|]. exists ex. split; [done|]. rewrite Hp. apply snoc_elem.
  - split.
    + intros d r Hin. rewrite Hp in Hin. apply elem_of_app in Hin as [Hin|Hin].
      * destruct (Ha d r Hin) as (ref' & Hr & ->). exists ref'. split; [|done]. apply elem_of_app. by left.
      * apply list_elem_of_singleton in Hin as [= -> ->]. exists ref. split; [apply snoc_elem|done].
    + intros ref' [Hr|Hr]%elem_of_app.
      * destruct (Hmi ref' Hr) as (raw & H1 & H2). exists raw. split; [by eapply extends_elem|done].
      * apply list_elem_of_singleton in Hr as ->. done.
Qed.

(** C30: issuing a step's secrets is all or nothing. On success there is one
    reference per declaration, in order, bound to the variable the step named,
    no two alike, and behind each a record of this very attempt naming the
    declared secret in the step source, under the digest of a handle minted by
    this call. On failure every record this call put in the store has been
    dropped again, or a drop was refused and reported. *)
Theorem issue_is_all_or_nothing source scope step ttl tr res :
  runs (StepIssuer_Issue sha256 true source scope step ttl) tr (Some res) →
  match res with
  | Ok refs => Forall2 (λ decl ref, issued scope decl ref tr) (step_secrets step) refs ∧ NoDup (map sr_name refs)
  | Err _ => taken_back tr
  end.
Proof.
  intros Hr. assert (Hs : safe no_guard (StepIssuer_Issue sha256 true source scope step ttl) (λ res h,
    match res with
    | Ok refs => Forall2 (λ decl ref, issued scope decl ref h) (step_secrets step) refs ∧ NoDup (map sr_name refs)
    | Err _ => taken_back h
    end) []).
  { assert (Hnil : taken_back []) by (intros d r ?%elem_of_nil; done).
    unfold StepIssuer_Issue. case_decide as He; [cbn [safe gret]; rewrite He; split; constructor|].
    do 2 (case_decide; [exact Hnil|]). cbn [negb]. destruct (ValidateDeclarations step) as [e|] eqn:Ev; [exact Hnil|].
    eapply safe_mono; [|apply (safe_gfold_seen _ _ (issuing scope) (λ _ h, taken_back h))].
    - intros [refs|e] h Hh; [|exact Hh]. destruct Hh as [Hf _]. split; [exact Hf|].
      apply declarations_accepted_iff in Ev as [?|(_ & _ & Hnd)]; [done|].
      assert (Hmap : map sr_name refs = map sec_env (step_secrets step)); [|by rewrite Hmap].
      clear -Hf. induction Hf as [|decl ref l1 l2 [Hn _] _ IH]; [done|]. simpl. by rewrite Hn, IH.
    - split; [constructor|]. split; [intros d r ?%elem_of_nil; done|intros ref ?%elem_of_nil; done].
    - intros seen refs decl h _ Hi. eapply safe_mono; [|by apply safe_issue_one]. by intros [refs'|e]. }
  exact (proj2 (safe_runs _ _ _ _ _ _ Hs Hr) res eq_refl).
Qed.

End Issuing.

(** ** The sweep *)

Section Sweep.
Context (range : list string → list string) (range_in : ∀ l x, x ∈ range l → x ∈ l).

Lemma candidate_runs_of records t run :
  run ∈ default ∅ (candidate_runs records !! t) →
  run ≠ "" ∧ ∃ d r, records !! d = Some r ∧ hr_TenantID r = t ∧ hr_RunID r = run.
Proof.
  unfold candidate_runs. intros Hin.
  assert (Hl : ∀ d r, (d, r) ∈ map_to_list records → records !! d = Some r) by (intros d r; by rewrite elem_of_map_to_list).
  revert Hl Hin. generalize (map_to_list records) as l. intros l Hl.
  assert (Hgen : ∀ acc : gmap string (gset string),
    (∀ run', run' ∈ default ∅ (acc !! t) → run' ≠ "" ∧ ∃ d r, records !! d = Some r ∧ hr_TenantID r = t ∧ hr_RunID r = run') →
    run ∈ default ∅ (foldl (λ runs '(_, r), if decide (hr_RunID r = "") then runs
       else <[hr_TenantID r := {[hr_RunID r]} ∪ default ∅ (runs !! hr_TenantID r)]> runs) acc l !! t) →
    run ≠ "" ∧ ∃ d r, records !! d = Some r ∧ hr_TenantID r = t ∧ hr_RunID r = run).
  { revert Hl. induction l as [|[d r] l IH]; intros Hl acc Hacc; cbn [foldl]; [apply Hacc|].
    apply IH; [intros d' r' ?; apply Hl; by right|]. case_decide as Hr; [exact Hacc|]. intros run'.
    destruct (decide (hr_TenantID r = t)) as [Ht|Ht]; [|rewrite lookup_insert_ne by done; apply Hacc].
    rewrite Ht, lookup_insert_eq. cbn [default from_option id]. intros [->%elem_of_singleton|?]%elem_of_union; [|by apply Hacc].
    split; [done|]. exists d, r. split; [apply Hl; by left|done]. }
  apply Hgen. intros run'. rewrite lookup_empty. cbn. by intros ?%elem_of_empty.
Qed.

(** A run is revoked only if a handle listed names it and the index, read
    after the listing, did not. *)
Definition sweep_guard : Program.guard sop := λ X o h,
  match o with
  | inl_ (HDrop f) => ∃ h1 records h2 ids, h = h1 ++ Did (inl_ HList) (Ok records) :: h2
      ∧ Did (inr_ (WOpenRuns (fl_TenantID f))) (Ok ids) ∈ h2 ∧ fl_RunID f ∉ ids
      ∧ (∃ d r, records !! d = Some r ∧ hr_TenantID r = fl_TenantID f ∧ hr_RunID r = fl_RunID f)
      ∧ fl_StepID f = "" ∧ fl_Attempt f = 0 ∧ fl_Digest f = ""
  | _ => True
  end.

Lemma safe_revoke_runs t n runs h1 records h2 ids :
  Did (inr_ (WOpenRuns t)) (Ok ids) ∈ h2 → Forall (λ run, run ∉ ids ∧ run ∈ default ∅ (candidate_runs records !! t)) runs →
  safe sweep_guard (revoke_runs t n runs) (λ _ h', ∃ h3, h' = h1 ++ Did (inl_ HList) (Ok records) :: h3)
    (h1 ++ Did (inl_ HList) (Ok records) :: h2).
Proof.
  intros Hin Hall. revert n h2 Hin. induction Hall as [|run runs [Hni Hc] _ IH]; intros n h2 Hin; cbn [revoke_runs].
  { by exists h2. }
  unfold RevokeRun. case_decide; [cbn [cbind]; by apply IH|]. apply safe_act_bind.
  { exists h1, records, h2, ids. cbn. split_and!; try done. by apply candidate_runs_of. }
  intros [d [e|]].
  - exists (h2 ++ [Did (inl_ (HDrop (mkFilter t run "" 0 ""))) (d, Some e)]). by rewrite <-app_assoc.
  - rewrite <-app_assoc. cbn [app]. apply IH. apply elem_of_app. by left.
Qed.

Lemma safe_sweep : safe sweep_guard (RevokeClosedRuns range) (λ _ _, True) [].
Proof.
  unfold RevokeClosedRuns. apply safe_act_bind; [done|]. intros [records|e]; [|done]. cbn [app].
  generalize (range (map fst (map_to_list (candidate_runs records)))). generalize 0. intros n tenants.
  change [Did (inl_ HList) (Ok records)] with ([] ++ Did (inl_ HList : sop _) (Ok records) :: []).
  generalize (@nil (Program.did sop)) at 2. intros h2. revert n h2. induction tenants as [|t tenants IH]; intros n h2; cbn [sweep_tenants]; [done|].
  apply safe_act_bind; [done|]. intros [ids|e]; [|done]. rewrite <-app_assoc. cbn [app]. apply safe_bind.
  eapply safe_mono; [|apply (safe_revoke_runs _ _ _ [] records _ ids)].
  - intros [m [e|]] h' [h3 ->]; [done|]. apply (IH m h3).
  - apply snoc_elem.
  - apply Forall_forall. intros run Hr%range_in. apply elem_of_elements, elem_of_difference in Hr as [Hc Hni].
    split; [|done]. intros Hi. apply Hni. by apply elem_of_list_to_set.
Qed.

(** The sweep never revokes a run that was open when the index was read after
    its handle was listed. *)
Lemma sweep_spares_open_runs tr r pre f x post :
  runs (RevokeClosedRuns range) tr r → tr = pre ++ Did (inl_ (HDrop f)) x :: post → sweep_guard _ (inl_ (HDrop f)) pre.
Proof. intros Hr Heq. exact (proj1 (safe_runs _ _ _ _ _ _ safe_sweep Hr) _ _ _ _ _ Heq). Qed.

End Sweep.

(** ** Examples *)

Definition handle_tuple (r : Record_) :=
  (hr_TenantID r, hr_RunID r, hr_StepID r, hr_Attempt r, hr_Source r, hr_Name r, hr_ExpiresAt r).

#[local] Instance bits_handles : HandleJSON :=
  {| enc_handle := λ r, to_bits (handle_tuple r);
     dec_handle := λ s, '(t, r, st, a, src, n, x) ← of_bits s; Some (mkRecord_ t r st a src n x) |}.
#[local] Instance bits_handles_laws : HandleJSONLaws.
Proof. intros []. unfold dec_handle, enc_handle, bits_handles. rewrite of_to_bits. done. Qed.

(** A bucket that always answers. *)
Definition ex_bucket (X : Type) (o : pop X) (b : bucket) : bucket * X :=
  match o in plus _ _ _ return bucket * X with
  | inl_ o =>
      match o in kop X return bucket * X with
      | KListKeys pattern =>
          (b, Ok (List.filter (λ k, tokens_match (split_on "."%char pattern) (split_on "."%char k))
                    (elements (dom (b_keys b)))))
      | KGet key => (b, Ok (b_keys b !! key))
      | KCreate key data =>
          match b_keys b !! key with Some _ => (b, Err ErrKeyExists) | None => (put key data b, Ok tt) end
      | KDelete key rev =>
          if decide (snd <$> b_keys b !! key = Some rev) then (remove_key key b, Ok tt) else (b, Err ErrKeyRevisionMismatch)
      end
  | inr_ o =>
      (b, match o in wop X return X with
          | WNow => 1000
          | WRand => Ok "entropy"
          | WValue _ _ name => Ok ("value of " +:+ name)
          | WOpenRuns _ => Ok []
          | WReport _ => tt
          | WRequest _ _ => Err ErrNoResponders
          end)
  end.

Lemma ex_bucket_steps X (o : pop X) b : plane_step X o b (fst (ex_bucket X o b)) (snd (ex_bucket X o b)).
Proof.
  destruct o as [o|o]; [|done]. destruct o as [p|k|k data|k rev]; cbn [ex_bucket plane_step kv_step fst snd].
  - split; [done|]. left. eexists. split; [done|]. intros k.
    rewrite list_elem_of_In, filter_In, <-list_elem_of_In, elem_of_elements. done.
  - split; [done|by left].
  - destruct (b_keys b !! k) eqn:E; cbn [fst snd]; [by left|right; right]. split_and!; [done..|by left].
  - case_decide as Hr; cbn [fst snd]; [right; right; split_and!; [done..|by left]|left; by split_and!].
Qed.

Definition ex_secret_step : Step :=
  mkStep "deploy" "" "" EFFECT_CLASS_PURE [] [] [CAPABILITY_SECRETS] LEASE_SCOPE_STEP ∅ "" "" 0 []
    [mkStepSecret "npm" "NPM_TOKEN"].
Definition ex_scope : Scope := mkScope "acme" "run" "deploy" 1.
Definition ex_hash (s : string) : string := s.
Definition ex_handle : string := hex_encode "entropy".

(** Two planes are asked for the same handle at once. *)
Definition ex_actors : list actor :=
  [Issues true true ex_scope ex_secret_step Minute; Redeems "acme" ex_handle; Redeems "acme" ex_handle].
Definition ex_schedule : list nat := [0; 0; 0; 0; 1; 2; 1; 2; 1; 2; 1; 1; 2; 2]%nat.

Definition ex_planes : list (pcmd (option string)) := map (plane ex_hash (λ _, true)) ex_actors.
Definition ex_played := play ex_bucket ex_schedule ex_planes no_handles.

(** The first told the value, the second refused. *)
Example ex_one_is_told :
  redeemed ex_hash (Digest_ ex_hash ex_handle) ex_actors (snd (fst ex_played)) = 1%nat
  ∧ tally (mints ex_hash (Digest_ ex_hash ex_handle)) (map snd (fst (fst ex_played))) = 1%nat.
Proof. split; vm_compute; reflexivity. Qed.

Lemma ex_played_interleaved :
  interleaved plane_step ages ex_planes no_handles (fst (fst ex_played)) (snd (fst ex_played)) (snd ex_played).
Proof. exact (play_interleaved plane_step ages ex_bucket ex_schedule ex_planes no_handles ex_bucket_steps). Qed.

Lemma handles_are_redeemed_once_witness :
  (redeemed ex_hash (Digest_ ex_hash ex_handle) ex_actors (snd (fst ex_played))
   ≤ tally (mints ex_hash (Digest_ ex_hash ex_handle)) (map snd (fst (fst ex_played))))%nat.
Proof.
  exact (handles_are_redeemed_once ex_hash (λ _, true) ex_actors (fst (fst ex_played)) (snd (fst ex_played))
           (snd ex_played) (Digest_ ex_hash ex_handle) ex_played_interleaved).
Defined.

(** One redemption, alone. *)
Definition ex_record_ : Record_ := record_for ex_scope (mkReference SourceStep "npm" "NPM_TOKEN") 5000.

Lemma redeem_yields_iff_witness :
  runs (redeem ex_hash (λ _, true) "acme" ex_handle) (redemption ex_hash ex_handle ex_record_ 1000 "hunter2")
    (Some (Ok "hunter2")).
Proof.
  apply (proj1 (redeem_yields_iff ex_hash (λ _, true) "acme" ex_handle
                  (redemption ex_hash ex_handle ex_record_ 1000 "hunter2") "hunter2")).
  split; [done|]. exists ex_record_, 1000. split_and!; [done|by right|done..].
Defined.

Definition ex_ref : SecretRef := mkSecretRef "NPM_TOKEN" ex_handle 5.

Lemma ex_served :
  runs (serve_tenants ex_hash (λ _, true) "secret.redeem" ("secret.redeem" +:+ "." +:+ "acme") (sr_handle ex_ref))
    (redemption ex_hash ex_handle ex_record_ 1000 "hunter2") (Some "hunter2").
Proof. vm_compute. repeat econstructor. Qed.

Lemma engine_reads_what_was_given_witness :
  ∃ r : result GoErr string, runs (BusRedeemer_Redeem "secret.redeem" "acme" ex_ref)
        [Did (inr_ (WRequest ("secret.redeem" +:+ "." +:+ "acme") (sr_handle ex_ref))) (Ok "hunter2")]
        (Some (match r with Ok v => Ok v | Err _ => Err (refused_for ex_ref) end)).
Proof.
  destruct (engine_reads_what_was_given ex_hash (λ _, true) "secret.redeem" "acme" ex_ref
              (redemption ex_hash ex_handle ex_record_ 1000 "hunter2") "hunter2" ltac:(done) ltac:(done) eq_refl ex_served)
    as (r & _ & Hr).
  exists r. exact Hr.
Defined.

(** An attempt is revoked. *)
Definition ex_kv (X : Type) (o : kop X) (b : bucket) : bucket * X := ex_bucket X (inl_ o) b.
Lemma ex_kv_steps X (o : kop X) b : kv_step X o b (fst (ex_kv X o b)) (snd (ex_kv X o b)).
Proof. exact (ex_bucket_steps X (inl_ o) b). Qed.

Definition ex_key : string := handleKey ex_hash (Digest_ ex_hash ex_handle) ex_record_.
Definition ex_held : bucket := put ex_key (enc_handle ex_record_) no_handles.

Lemma ex_held_wf : handles_wf ex_hash ex_held.
Proof.
  apply (put_handles_wf ex_hash (Digest_ ex_hash ex_handle) ex_record_ no_handles); [|done..].
  intros key v rev. unfold no_handles. cbn [b_keys]. by rewrite lookup_empty.
Qed.

Definition ex_revoke := drive ex_kv (kv_Drop ex_hash (attempt_filter ex_scope)) ex_held.

Lemma ex_revoked : among kv_step (others ex_hash) (kv_Drop ex_hash (attempt_filter ex_scope)) ex_held
  (fst (fst ex_revoke)) (1, None).
Proof.
  pose proof (drive_among kv_step (others ex_hash) ex_kv (kv_Drop ex_hash (attempt_filter ex_scope)) ex_held ex_kv_steps) as Ha.
  assert (E : snd ex_revoke = (1, None)) by (vm_compute; reflexivity). unfold ex_revoke in E. rewrite E in Ha. exact Ha.
Qed.

Lemma ex_held_key : b_keys ex_held !! ex_key = Some (enc_handle ex_record_, 1).
Proof. vm_compute. reflexivity. Qed.

Lemma revoked_handles_are_gone_witness :
  b_keys (fst (fst ex_revoke)) !! ex_key ≠ Some (enc_handle ex_record_, 1).
Proof.
  exact (revoked_handles_are_gone ex_hash (attempt_filter ex_scope) 1 ex_held (fst (fst ex_revoke)) ex_key
           (enc_handle ex_record_) 1 ex_record_ ex_held_wf ex_revoked ex_held_key
           (dec_enc_handle ex_record_) eq_refl).
Defined.

Definition ex_drop_trace : list (Program.did kop) := snd (fst ex_revoke).
Lemma ex_drop_runs : runs (kv_Drop ex_hash (attempt_filter ex_scope)) ex_drop_trace (Some (snd ex_revoke)).
Proof. exact (trace_of_runs ex_kv (kv_Drop ex_hash (attempt_filter ex_scope)) ex_held). Qed.
Lemma ex_drop_deletes : ex_drop_trace = firstn 2 ex_drop_trace ++ Did (KDelete ex_key 1) (Ok tt) :: [].
Proof. vm_compute. reflexivity. Qed.

Lemma revocation_is_exact_witness :
  ∃ v rec, Did (KGet ex_key) (Ok (Some (v, 1))) ∈ firstn 2 ex_drop_trace ∧ dec_handle v = Some rec
    ∧ hr_TenantID rec = "acme" ∧ hr_RunID rec = "run" ∧ hr_StepID rec = "deploy" ∧ hr_Attempt rec = 1.
Proof.
  exact (revocation_is_exact ex_hash ex_scope ex_drop_trace (Some (snd ex_revoke)) (firstn 2 ex_drop_trace) ex_key 1
           (Ok tt) [] ltac:(done) ltac:(done) ltac:(done) ltac:(done) ex_drop_runs ex_drop_deletes).
Defined.

(** A step's secrets are issued. *)
Definition ex_answers (X : Type) (o : sop X) (w : unit) : unit * X :=
  (w, match o in plus _ _ _ return X with
      | inl_ o => match o in hop X return X with
                  | HPut _ _ => Ok tt | HSpend _ => Ok None | HDrop _ => (0, None) | HList => Ok ∅
                  end
      | inr_ o => match o in wop X return X with
                  | WNow => 1000 | WRand => Ok "entropy" | WValue _ _ _ => Ok "hunter2" | WOpenRuns _ => Ok []
                  | WReport _ => tt | WRequest _ _ => Err ErrNoResponders
                  end
      end).

Definition ex_issue_trace : shist :=
  trace_of ex_answers (StepIssuer_Issue ex_hash true true ex_scope ex_secret_step Minute) tt.

Lemma ex_issue_runs :
  runs (StepIssuer_Issue ex_hash true true ex_scope ex_secret_step Minute) ex_issue_trace
    (Some (Ok [mkSecretRef "NPM_TOKEN" ex_handle 60])).
Proof. exact (trace_of_runs ex_answers (StepIssuer_Issue ex_hash true true ex_scope ex_secret_step Minute) tt). Qed.

Lemma issue_is_all_or_nothing_witness :
  Forall2 (λ decl ref, issued ex_hash ex_scope decl ref ex_issue_trace) (step_secrets ex_secret_step)
    [mkSecretRef "NPM_TOKEN" ex_handle 60]
  ∧ NoDup (map sr_name [mkSecretRef "NPM_TOKEN" ex_handle 60]).
Proof.
  exact (issue_is_all_or_nothing ex_hash true ex_scope ex_secret_step Minute ex_issue_trace _ ex_issue_runs).
Defined.
