(* ===== verification/Approval.v ===== *)
(** * The human gate: [internal/steps/approval], [internal/api/approval.go]

    A run waiting for a person is an event of its log. [Request] opens the
    question, [Decide] records who answered and what, with the events that
    lift the gate, each in one transaction that reads the gate's events first
    ([read]) and appends what it concluded. On SQLite a transaction is one
    step; on Postgres, at READ COMMITTED, what was read may be old by the time
    it is appended ([pg_gate_step]). JSON and protobuf are parameters; the
    principals are whatever the identity store answers. *)

From S2P Require Import Prelude Bytes Proto RunStore Sched.

(** ** [approval.go] *)

Definition StepApprovalDecided : string := "STEP_APPROVAL_DECIDED".

Record GateRequest : Type := mkGateRequest { gr_Prompt : string; gr_Parks : bool }.
Record GateDecision : Type := mkGateDecision
  { gd_Approver : string; gd_Approved : bool; gd_Reason : string; gd_At : Z }.
Record Denial : Type := mkDenial
  { dl_Steps : list string; dl_Approver : string; dl_StepID : string; dl_Reason : string }.

#[export] Instance GateDecision_eq_dec : EqDecision GateDecision.
Proof. solve_decision. Defined.

(** [json.Marshal] and [json.Unmarshal] of the three payloads. *)
Class ApprovalJSON : Type :=
  { enc_request : GateRequest → string;
    UnmarshalRequest : string → option GateRequest;
    enc_decision : GateDecision → string;
    UnmarshalDecision : string → option GateDecision;
    enc_denial : Denial → string }.

(** A text comes back as valid UTF-8, which the strings sent need not be; the
    booleans come back as they were. *)
Class ApprovalJSONLaws `{ApprovalJSON} : Prop :=
  { request_parks r : gr_Parks <$> UnmarshalRequest (enc_request r) = Some (gr_Parks r);
    decision_approved d : gd_Approved <$> UnmarshalDecision (enc_decision d) = Some (gd_Approved d) }.

(** What [PrincipalCredential] may answer when there is no such principal. *)
Inductive LookupErr : Type := NoPrincipal | LookupOther (e : string).

Inductive ApprovalErr : Type :=
| RunAndStepRequired
| ErrApproverRequired
| ErrReasonRequired
| ErrUnknownApprover (approver tenant : string)
| Verifying (approver : string) (e : string)
| ErrAlreadyDecided (run step : string) (approved : bool) (approver reason : string)
| ErrNotAwaiting (run step : string)
| DecodingPayload (kind : string)
| EncodingStatus (run step : string)
| ApprovalStore (e : StoreErr)
| Resuming (run approver step : string) (e : string).

Record gateState : Type := mkGate
  { gt_awaiting : bool; gt_decided : bool; gt_approved : bool; gt_approver : string; gt_reason : string;
    gt_parks : bool }.

Definition no_gate : gateState := mkGate false false false "" "" false.

Section Approval.
Context `{ApprovalJSON, Payloads} (dialect : Dialect) (tenantID : string).

Definition gate_types : list string := [StepAwaitingApproval; StepApprovalDecided].

Definition read_row (g : gateState) (e : Event) : result ApprovalErr gateState :=
  if decide (ev_Type e = StepAwaitingApproval) then
    match UnmarshalRequest (ev_Payload e) with
    | None => Err (DecodingPayload StepAwaitingApproval)
    | Some r => Ok (mkGate true (gt_decided g) (gt_approved g) (gt_approver g) (gt_reason g) (gr_Parks r))
    end
  else if decide (ev_Type e = StepApprovalDecided) then
    match UnmarshalDecision (ev_Payload e) with
    | None => Err (DecodingPayload StepApprovalDecided)
    | Some d => Ok (mkGate (gt_awaiting g) true (gd_Approved d) (gd_Approver d) (gd_Reason d) (gt_parks g))
    end
  else Ok g.

(** The query of [read]: [ORDER BY sequence]. *)
Definition gate_rows (run step : string) (db : DB) : list Event :=
  merge_sort seq_le
    (filter (λ e, ev_RunID e = run ∧ ev_StepID e = step ∧ ev_Type e ∈ gate_types)
       (tenant_events (run_events db) tenantID)).

Definition read (run step : string) (db : DB) : result ApprovalErr gateState :=
  fold_result read_row no_gate (gate_rows run step db).

Definition refuseDecided (run step : string) (g : gateState) : ApprovalErr :=
  ErrAlreadyDecided run step (gt_approved g) (gt_approver g) (gt_reason g).

(** What a transaction concludes from what it read: the events it appends. *)
Definition request_events (run step prompt : string) (parks : bool) (now : Z) (db : DB)
    : result ApprovalErr (list Event) :=
  g ← read run step db;
  if gt_decided g then Err (refuseDecided run step g)
  else if gt_awaiting g then Ok []
  else Ok [mkEvent run step 0 0 StepAwaitingApproval (enc_request (mkGateRequest prompt parks)) now].

Definition denial_reason (step approver reason : string) : string :=
  "approval of " +:+ quote step +:+ " denied by " +:+ approver +:+ ": " +:+ reason.

Definition decision (run step approver reason : string) (approved parks : bool) (at_ : Z)
    : result ApprovalErr (list Event) :=
  let payload := enc_decision (mkGateDecision approver approved reason at_) in
  let decided := mkEvent run step 0 0 StepApprovalDecided payload at_ in
  if approved && parks then Ok [decided; mkEvent run step 0 0 StepResumed payload at_]
  else if approved then
    match MarshalStatus (mkJobStatus run step 0 "" PHASE_SUCCEEDED 0 [] "" "") with
    | None => Err (EncodingStatus run step)
    | Some status => Ok [decided; mkEvent run step 0 0 StepSucceeded status at_]
    end
  else
    Ok [decided; mkEvent run step 0 0 StepFailed payload at_;
        mkEvent run "" 0 0 RunFailed
          (enc_denial (mkDenial [step] approver step (denial_reason step approver reason))) at_].

Definition decide_events (run step approver reason : string) (approved : bool) (now : Z) (db : DB)
    : result ApprovalErr (list Event) :=
  g ← read run step db;
  if gt_decided g then Err (refuseDecided run step g)
  else if negb (gt_awaiting g) then Err (ErrNotAwaiting run step)
  else decision run step approver reason approved (gt_parks g) now.

Fixpoint append_events (events : list Event) : prog DB ApprovalErr unit :=
  match events with
  | [] => mret tt
  | e :: events => λ db,
      match Append dialect tenantID e db with
      | (db, Err err) => (db, Err (ApprovalStore err))
      | (db, Ok _) => append_events events db
      end
  end.

(** One transaction: what it read decides what it writes. *)
Definition concluding (f : DB → result ApprovalErr (list Event)) : prog DB ApprovalErr unit :=
  WithTx (λ db, match f db with Err e => (db, Err e) | Ok events => append_events events db end).

Definition request (run step prompt : string) (parks : bool) (now : Z) : prog DB ApprovalErr unit :=
  if decide (run = "" ∨ step = "") then pfail RunAndStepRequired
  else concluding (request_events run step prompt parks now).

Definition Request (run step prompt : string) (now : Z) := request run step prompt false now.
Definition RequestPark (run step prompt : string) (now : Z) := request run step prompt true now.

(** What [Decide] refuses before its transaction. [found] is the identity
    store's answer for the trimmed approver. *)
Definition check_decision (run step approver reason : string) (found : result LookupErr unit)
    : result ApprovalErr (string * string) :=
  if decide (run = "" ∨ step = "") then Err RunAndStepRequired
  else
    let approver := TrimSpace approver in
    if decide (approver = "") then Err ErrApproverRequired
    else
      let reason := TrimSpace reason in
      if decide (reason = "") then Err ErrReasonRequired
      else match found with
           | Err NoPrincipal => Err (ErrUnknownApprover approver tenantID)
           | Err (LookupOther e) => Err (Verifying approver e)
           | Ok _ => Ok (approver, reason)
           end.

(** [Decide], and the advance an approval ends with. *)
Definition Decide (advance : string → string → prog DB string unit)
    (run step approver : string) (approved : bool) (reason : string) (found : result LookupErr unit) (now : Z)
    : prog DB ApprovalErr unit := λ db,
  match check_decision run step approver reason found with
  | Err e => (db, Err e)
  | Ok (approver, reason) =>
      match concluding (decide_events run step approver reason approved now) db with
      | (db, Err e) => (db, Err e)
      | (db, Ok _) =>
          if negb approved then (db, Ok tt)
          else match advance tenantID run db with
               | (db, Ok _) => (db, Ok tt)
               | (db, Err e) => (db, Err (Resuming run approver step e))
               end
      end
  end.

End Approval.

(** ** [internal/api/approval.go] *)

Inductive Code : Type :=
| CodePermissionDenied | CodeFailedPrecondition | CodeInvalidArgument | CodeUnauthenticated | CodeInternal
| CodeUnimplemented.

Inductive GateApiErr : Type :=
| Unauthorised
| NoRunStore | NoPrincipalStore | RunIDRequired | StepIDRequired
| GateTenantRequired
| DecisionRefused (c : Code) (e : ApprovalErr).

(** [decisionError]. *)
Definition decision_code (e : ApprovalErr) : Code :=
  match e with
  | ErrUnknownApprover _ _ => CodePermissionDenied
  | ErrAlreadyDecided _ _ _ _ _ | ErrNotAwaiting _ _ => CodeFailedPrecondition
  | ErrReasonRequired => CodeInvalidArgument
  | ErrApproverRequired => CodeUnauthenticated
  | _ => CodeInternal
  end.
Definition decisionError (e : ApprovalErr) : GateApiErr := DecisionRefused (decision_code e) e.

Record Principal : Type := mkPrincipal { pr_Tenant : string; pr_Subject : string }.
Record DecideRequest : Type := mkDecideRequest
  { dr_RunId : string; dr_StepId : string; dr_Approved : bool; dr_Reason : string }.
Record DecideReply : Type := mkDecideReply
  { dy_RunId : string; dy_StepId : string; dy_Approver : string; dy_Approved : bool; dy_Reason : string }.

(** What the plane was built with: a run store, the principals, and what
    advances a run. *)
Record ApprovalAPI : Type := mkApprovalAPI
  { aa_runs : bool; aa_approvers : option (string → string → result LookupErr unit);
    aa_adv : option (string → string → prog DB string unit) }.

Definition resumeNothing (tenant run : string) : prog DB string unit := mret tt.

Definition DecideApproval `{ApprovalJSON, Payloads} (dialect : Dialect) (s : ApprovalAPI)
    (principal : option Principal) (req : DecideRequest) (now : Z) : prog DB GateApiErr DecideReply := λ db,
  match principal with
  | None => (db, Err Unauthorised)
  | Some p =>
      if negb (aa_runs s) then (db, Err NoRunStore)
      else match aa_approvers s with
      | None => (db, Err NoPrincipalStore)
      | Some approvers =>
          if decide (dr_RunId req = "") then (db, Err RunIDRequired)
          else if decide (dr_StepId req = "") then (db, Err StepIDRequired)
          else if decide (pr_Tenant p = "") then (db, Err GateTenantRequired)
          else
            let resume := default resumeNothing (aa_adv s) in
            match Decide dialect (pr_Tenant p) resume (dr_RunId req) (dr_StepId req) (pr_Subject p)
                    (dr_Approved req) (dr_Reason req) (approvers (pr_Tenant p) (TrimSpace (pr_Subject p))) now db with
            | (db, Err e) => (db, Err (decisionError e))
            | (db, Ok _) =>
                (db, Ok (mkDecideReply (dr_RunId req) (dr_StepId req) (pr_Subject p) (dr_Approved req)
                           (TrimSpace (dr_Reason req))))
            end
      end
  end.

(** ** Gates and everybody else

    What any number of planes do to a database: open gates, decide them, and
    append what is not a gate's. [w_vouched] keeps the principals the identity
    store answered for. *)

Record GateWorld : Type := mkGateWorld { w_log : DB; w_vouched : gset (string * string) }.

Section Steps.
Context `{ApprovalJSON, Payloads}.

Definition vouch (tenant approver : string) (found : result LookupErr unit) (v : gset (string * string)) :=
  match found with Ok _ => {[(tenant, TrimSpace approver)]} ∪ v | Err _ => v end.

(** Anything else the system appends, at a position the store allocates. *)
Definition not_a_gate (e : Event) : Prop := ev_Sequence e = 0 ∧ ev_Type e ∉ gate_types.

Inductive gate_step : GateWorld → GateWorld → Prop :=
| gs_other w d tenant e db r :
    not_a_gate e → StoreAppend d tenant e (w_log w) = (db, r) →
    gate_step w (mkGateWorld db (w_vouched w))
| gs_request w d tenant run step prompt parks now db r :
    request d tenant run step prompt parks now (w_log w) = (db, r) →
    gate_step w (mkGateWorld db (w_vouched w))
| gs_decide w d tenant run step approver approved reason found now db r :
    Decide d tenant resumeNothing run step approver approved reason found now (w_log w) = (db, r) →
    gate_step w (mkGateWorld db (vouch tenant approver found (w_vouched w))).

Definition gate_reachable (w : GateWorld) : Prop := rtc gate_step (mkGateWorld empty_db ∅) w.

(** *** Postgres, at READ COMMITTED *)

(** What open transactions concluded, and will append for whom. *)
Record PgGates : Type := mkPgGates { pg_log : DB; pg_open : gmap nat (string * list Event) }.

(** A transaction that has concluded and not yet appended. Its appends take
    the tenant's row lock on [run_sequences] and hold it to the commit, so they
    are one step; nothing orders two reads that come before. *)
Inductive pg_gate_step : PgGates → PgGates → Prop :=
| pgs_other w tenant e db r :
    not_a_gate e → StoreAppend DialectPostgres tenant e (pg_log w) = (db, r) →
    pg_gate_step w (mkPgGates db (pg_open w))
| pgs_request w n tenant run step prompt parks now events :
    pg_open w !! n = None → run ≠ "" → step ≠ "" →
    request_events tenant run step prompt parks now (pg_log w) = Ok events →
    pg_gate_step w (mkPgGates (pg_log w) (<[n := (tenant, events)]> (pg_open w)))
| pgs_decide w n tenant run step approver approved reason found now approver' reason' events :
    pg_open w !! n = None →
    check_decision tenant run step approver reason found = Ok (approver', reason') →
    decide_events tenant run step approver' reason' approved now (pg_log w) = Ok events →
    pg_gate_step w (mkPgGates (pg_log w) (<[n := (tenant, events)]> (pg_open w)))
| pgs_commit w n tenant events db :
    pg_open w !! n = Some (tenant, events) →
    append_events DialectPostgres tenant events (pg_log w) = (db, Ok tt) →
    pg_gate_step w (mkPgGates db (delete n (pg_open w)))
| pgs_rollback w n :
    pg_gate_step w (mkPgGates (pg_log w) (delete n (pg_open w))).

End Steps.
