(* ===== verification/ApprovalFacts.v ===== *)
(** * What a gate promises

    On SQLite a gate is asked once and answered at most once, by a principal
    the identity store vouched for and with a reason, whatever any number of
    planes do ([gate_decided_once]); on Postgres two people may both be told
    their answer stands ([racing_decisions_both_stand]). An answer moves the
    run the scheduler folds from its log ([decision_moves_the_run]). *)

From S2P Require Import Prelude Bytes Proto Taint RunStore RunStoreFacts Dynamic Sched Approval.

(** ** Appending *)

(** An event at some position. *)
Definition at_position (e e' : Event) : Prop := ∃ n, e' = with_sequence e n.

Lemma positioned_at db t e : at_position e (positioned db t e).
Proof.
  unfold at_position, positioned. case_decide; [by eexists|]. exists (ev_Sequence e). by destruct e.
Qed.

Section facts.
Context `{ApprovalJSON, Payloads}.

(** Whether an event belongs to a gate's own log. *)
Definition of_gate (run step : string) (e : Event) : Prop :=
  ev_RunID e = run ∧ ev_StepID e = step ∧ ev_Type e ∈ gate_types.
#[export] Instance of_gate_dec run step e : Decision (of_gate run step e).
Proof. unfold of_gate. apply _. Defined.

(** The gate's events in the order they were written. *)
Definition gate_log (tenant run step : string) (db : DB) : list Event :=
  filter (of_gate run step) (tenant_events (run_events db) tenant).

Lemma gate_rows_log tenant run step db :
  reachable allocated db → gate_rows tenant run step db = gate_log tenant run step db.
Proof. intros Hr. by apply seq_sort_ordered, filter_ordered, allocated_ordered. Qed.

Lemma gate_not_special e : ev_Type e ∈ gate_types → closesRun (ev_Type e) = false ∧ ev_Type e ∉ once_types.
Proof.
  unfold gate_types. rewrite !elem_of_cons, elem_of_nil. intros [->|[->|[]]];
    (split; [by vm_compute|]; by apply (bool_decide_unpack _); vm_compute).
Qed.

Lemma of_gate_at run step e e' : at_position e e' → of_gate run step e' ↔ of_gate run step e.
Proof. by intros [n ->]. Qed.

(** What one append does to a gate's log. *)
Lemma gate_log_append d t e db db' tenant run step :
  StoreAppend d t e db = (db', Ok tt) → ev_Sequence e = 0 →
  ∃ new, gate_log tenant run step db' = gate_log tenant run step db ++ new
    ∧ (if decide (t = tenant ∧ of_gate run step e) then ∃ e', new = [e'] ∧ at_position e e' else new = []).
Proof.
  intros Ha Hz. apply Append_Ok in Ha as (_ & Er & _). unfold gate_log. rewrite Er.
  pose proof (positioned_at db t e) as Hp.
  destruct (written db t e) eqn:Ew.
  - rewrite tenant_events_app, filter_app. eexists; split; [done|]. simpl.
    destruct (decide (t = tenant)) as [->|Ht]; [|by rewrite decide_False by naive_solver].
    destruct (decide (of_gate run step e)) as [Hg|Hg].
    + rewrite decide_True by done. exists (positioned db tenant e). split; [|done].
      by rewrite filter_cons_True by (by apply (of_gate_at _ _ _ _ Hp)).
    + rewrite decide_False by naive_solver. rewrite filter_cons_False; [done|]. by rewrite (of_gate_at _ _ _ _ Hp).
  - rewrite app_nil_r. exists []. rewrite app_nil_r. split; [done|]. rewrite decide_False; [done|].
    intros [_ Hg]. destruct (gate_not_special e (proj2 (proj2 Hg))) as [Hc Ho]. by rewrite append_fresh in Ew.
Qed.

Lemma Append_StoreAppend d t e db db' :
  Append d t e db = (db', Ok tt) → StoreAppend d t e db = (db', Ok tt).
Proof. unfold StoreAppend, WithTx. by intros ->. Qed.

Lemma append_events_cons d t e events db db' :
  append_events d t (e :: events) db = (db', Ok tt) →
  ∃ db1, StoreAppend d t e db = (db1, Ok tt) ∧ append_events d t events db1 = (db', Ok tt).
Proof.
  cbn [append_events]. destruct (Append d t e db) as [db1 [[]|]] eqn:Ea; [|done].
  apply Append_StoreAppend in Ea. eauto.
Qed.

Definition unsequenced (events : list Event) : Prop := Forall (λ e, ev_Sequence e = 0) events.

Lemma append_events_reachable d t events db db' :
  append_events d t events db = (db', Ok tt) → unsequenced events → reachable allocated db → reachable allocated db'.
Proof.
  intros Ha Hz. revert db Ha. induction Hz as [|e events Hz _ IH]; intros db Ha Hr; [by injection Ha as <-|].
  apply append_events_cons in Ha as (db1 & Ha & Hb). eapply IH; [done|]. by eapply reach_append.
Qed.

Lemma append_events_log d t events db db' tenant run step :
  append_events d t events db = (db', Ok tt) → unsequenced events →
  ∃ new, gate_log tenant run step db' = gate_log tenant run step db ++ new
    ∧ Forall2 at_position (if decide (t = tenant) then filter (of_gate run step) events else []) new.
Proof.
  intros Ha Hz. revert db Ha. induction Hz as [|e events Hz _ IH]; intros db Ha.
  { injection Ha as <-. exists []. rewrite app_nil_r. split; [done|]. by destruct (decide (t = tenant)). }
  apply append_events_cons in Ha as (db1 & Ha & Hb). apply IH in Hb as (new2 & -> & Hn2).
  apply (gate_log_append _ _ _ _ _ tenant run step) in Ha as (new1 & -> & Hn1); [|done].
  exists (new1 ++ new2). split; [by rewrite app_assoc|].
  destruct (decide (t = tenant)) as [Ht|Ht].
  - rewrite filter_cons. destruct (decide (of_gate run step e)) as [Hg|Hg].
    + rewrite decide_True in Hn1 by done. destruct Hn1 as (e' & -> & He). by constructor.
    + rewrite decide_False in Hn1 by naive_solver. by subst new1.
  - rewrite decide_False in Hn1 by naive_solver. subst new1. done.
Qed.

Lemma append_events_total d t events db :
  t ≠ "" → unsequenced events → ∃ db', append_events d t events db = (db', Ok tt).
Proof.
  intros Ht Hz. revert db. induction Hz as [|e events Hz _ IH]; intros db; [by eexists|].
  destruct (Append_total d t e db Ht Hz) as [db1 Ha]. destruct (IH db1) as [db2 Hb]. exists db2.
  cbn [append_events]. revert Ha. unfold StoreAppend, WithTx. destruct (Append d t e db) as [db0 [[]|]]; [|done].
  by intros [= ->].
Qed.

(** ** What a transaction concludes *)

Lemma request_events_spec tenant run step prompt parks now db events :
  request_events tenant run step prompt parks now db = Ok events →
  ∃ g, read tenant run step db = Ok g ∧ gt_decided g = false
    ∧ (gt_awaiting g = true ∧ events = []
       ∨ gt_awaiting g = false ∧ ∃ e, events = [e] ∧ of_gate run step e ∧ ev_Sequence e = 0
           ∧ ev_Type e = StepAwaitingApproval ∧ ev_Payload e = enc_request (mkGateRequest prompt parks)).
Proof.
  unfold request_events, mbind, result_bind. destruct (read tenant run step db) as [g|] eqn:Er; [|done].
  destruct (gt_decided g) eqn:Ed; [done|]. intros He. exists g. split_and!; [done..|].
  destruct (gt_awaiting g); [left; by injection He as <-|right]. split; [done|]. injection He as <-.
  eexists. split; [done|]. unfold of_gate, gate_types. split_and!; try done. by left.
Qed.

(** The verdict that goes with a decision. *)
Definition verdict_events (run step : string) (approved parks : bool) (events : list Event) : Prop :=
  if approved && parks then ∃ e, events = [e] ∧ ev_Type e = StepResumed ∧ ev_RunID e = run ∧ ev_StepID e = step
      ∧ ev_Sequence e = 0
  else if approved then ∃ e b, events = [e] ∧ ev_Type e = StepSucceeded ∧ ev_RunID e = run ∧ ev_StepID e = step
      ∧ ev_Payload e = b ∧ ev_Sequence e = 0 ∧ MarshalStatus (mkJobStatus run step 0 "" PHASE_SUCCEEDED 0 [] "" "") = Some b
  else ∃ e1 e2, events = [e1; e2] ∧ ev_Type e1 = StepFailed ∧ ev_RunID e1 = run ∧ ev_StepID e1 = step
      ∧ ev_Type e2 = RunFailed ∧ ev_RunID e2 = run ∧ ev_Sequence e1 = 0 ∧ ev_Sequence e2 = 0.

Lemma decision_spec run step approver reason approved parks now events :
  decision run step approver reason approved parks now = Ok events →
  ∃ rest, events = mkEvent run step 0 0 StepApprovalDecided (enc_decision (mkGateDecision approver approved reason now)) now :: rest
    ∧ verdict_events run step approved parks rest.
Proof.
  unfold decision, verdict_events. destruct approved, parks; cbn [andb].
  - intros [= <-]. eexists. split; [done|]. by eexists.
  - destruct (MarshalStatus _) as [b|] eqn:Em; [|done]. intros [= <-]. eexists. split; [done|].
    eexists _, b. by split_and!.
  - intros [= <-]. eexists. split; [done|]. by eexists _, _.
  - intros [= <-]. eexists. split; [done|]. by eexists _, _.
Qed.

Lemma decide_events_spec tenant run step approver reason approved now db events :
  decide_events tenant run step approver reason approved now db = Ok events →
  ∃ g, read tenant run step db = Ok g ∧ gt_decided g = false ∧ gt_awaiting g = true
    ∧ decision run step approver reason approved (gt_parks g) now = Ok events.
Proof.
  unfold decide_events, mbind, result_bind. destruct (read tenant run step db) as [g|] eqn:Er; [|done].
  destruct (gt_decided g) eqn:Ed; [done|]. destruct (gt_awaiting g) eqn:Ea; cbn [negb]; [|done].
  intros Hd. by exists g.
Qed.

Lemma verdict_unsequenced run step approved parks rest :
  verdict_events run step approved parks rest → unsequenced rest.
Proof.
  unfold verdict_events, unsequenced. destruct approved, parks; cbn [andb]; intros Hv; destruct_and?; naive_solver.
Qed.

Lemma decision_unsequenced run step approver reason approved parks now events :
  decision run step approver reason approved parks now = Ok events → unsequenced events.
Proof. intros (rest & -> & Hv)%decision_spec. constructor; [done|]. by eapply verdict_unsequenced. Qed.

Lemma verdict_not_gate run step approved parks rest r s :
  verdict_events run step approved parks rest → filter (of_gate r s) rest = [].
Proof.
  intros Hv. apply filter_none_in. intros e He (_ & _ & Ht). revert Ht. apply (bool_decide_unpack (ev_Type e ∉ gate_types)).
  revert Hv. unfold verdict_events. destruct approved, parks; cbn [andb]; intros Hv;
    repeat match goal with Hx : ∃ _, _ |- _ => destruct Hx as [? Hx] end;
    destruct Hv as [-> Hv]; rewrite ?elem_of_cons, elem_of_nil in He;
    destruct_or!; try done; subst; destruct_and!;
    match goal with Ht : ev_Type _ = _ |- _ => rewrite Ht end; by vm_compute.
Qed.

Lemma check_decision_spec tenant run step approver reason found a r :
  check_decision tenant run step approver reason found = Ok (a, r) →
  run ≠ "" ∧ step ≠ "" ∧ a = TrimSpace approver ∧ a ≠ "" ∧ r = TrimSpace reason ∧ r ≠ "" ∧ found = Ok tt.
Proof.
  unfold check_decision. destruct (decide (run = "" ∨ step = "")); [done|].
  destruct (decide (TrimSpace approver = "")); [done|]. destruct (decide (TrimSpace reason = "")); [done|].
  destruct found as [[]|[]]; [|done..]. intros [= <- <-]. naive_solver.
Qed.

Lemma concluding_cases d t f db db' r :
  concluding d t f db = (db', r) →
  (∃ events, f db = Ok events ∧ r = Ok tt ∧ append_events d t events db = (db', Ok tt))
  ∨ db' = db ∧ ∃ e, r = Err e.
Proof.
  unfold concluding, WithTx. destruct (f db) as [events|e] eqn:Ef.
  - destruct (append_events d t events db) as [db1 [[]|e]] eqn:Ea; intros [= <- <-]; [left|right]; eauto.
  - intros [= <- <-]. eauto.
Qed.

(** ** Gates on SQLite *)

Definition asks (q : Event) : Prop := ev_Type q = StepAwaitingApproval ∧ ∃ r, ev_Payload q = enc_request r.

(** A decision and the answer it records, by somebody vouched for. *)
Definition answers (vouched : gset (string * string)) (tenant : string) (d : Event) (v : GateDecision) : Prop :=
  ev_Type d = StepApprovalDecided ∧ ev_Payload d = enc_decision v
  ∧ gd_Approver v ≠ "" ∧ gd_Reason v ≠ "" ∧ (tenant, gd_Approver v) ∈ vouched.

Inductive gate_ok (vouched : gset (string * string)) (tenant : string) : list Event → Prop :=
| gate_unasked : gate_ok vouched tenant []
| gate_asked q : asks q → gate_ok vouched tenant [q]
| gate_answered q d v : asks q → answers vouched tenant d v → gate_ok vouched tenant [q; d].

Definition gates_ok (w : GateWorld) : Prop :=
  reachable allocated (w_log w) ∧ ∀ t r s, gate_ok (w_vouched w) t (gate_log t r s (w_log w)).

Lemma gate_ok_mono v1 v2 t l : v1 ⊆ v2 → gate_ok v1 t l → gate_ok v2 t l.
Proof.
  intros Hs [|q Hq|q d v Hq Ha]; [constructor|by constructor|]. apply (gate_answered _ _ _ _ v); [done|].
  unfold answers in *. set_solver.
Qed.

Lemma asks_at q q' : at_position q q' → asks q → asks q'.
Proof. by intros [n ->]. Qed.

Lemma read_row_ask g q : ev_Type q = StepAwaitingApproval →
  read_row g q = match UnmarshalRequest (ev_Payload q) with
    | None => Err (Approval.DecodingPayload StepAwaitingApproval)
    | Some r => Ok (mkGate true (gt_decided g) (gt_approved g) (gt_approver g) (gt_reason g) (gr_Parks r))
    end.
Proof. intros Hq. unfold read_row. by rewrite decide_True. Qed.

Lemma read_row_answer g d : ev_Type d = StepApprovalDecided →
  read_row g d = match UnmarshalDecision (ev_Payload d) with
    | None => Err (Approval.DecodingPayload StepApprovalDecided)
    | Some x => Ok (mkGate (gt_awaiting g) true (gd_Approved x) (gd_Approver x) (gd_Reason x) (gt_parks g))
    end.
Proof.
  intros Hd. unfold read_row. rewrite decide_False by (rewrite Hd; by vm_compute). by rewrite decide_True.
Qed.

(** A request that is not decided is the only event of its gate. *)
Lemma read_ok v tenant run step db g :
  reachable allocated db → gate_ok v tenant (gate_log tenant run step db) →
  read tenant run step db = Ok g → gt_decided g = false →
  (gt_awaiting g = false ∧ gate_log tenant run step db = [])
  ∨ (gt_awaiting g = true ∧ ∃ q, asks q ∧ gate_log tenant run step db = [q]
       ∧ gr_Parks <$> UnmarshalRequest (ev_Payload q) = Some (gt_parks g)).
Proof.
  intros Hr Hok. unfold read. rewrite gate_rows_log by done. destruct Hok as [|q [Hq Hp]|q d x [Hq Hp] (Hd & Hpd & _)].
  - intros [= <-] _. by left.
  - cbn [fold_result]. rewrite read_row_ask by done. unfold mbind, result_bind.
    destruct (UnmarshalRequest _) as [r|] eqn:Eu; [|done]. intros [= <-] _. right. split; [done|].
    exists q. rewrite Eu. by split_and!.
  - cbn [fold_result]. rewrite read_row_ask by done. unfold mbind, result_bind.
    destruct (UnmarshalRequest _) as [r|]; [|done]. rewrite read_row_answer by done.
    destruct (UnmarshalDecision _); [|done]. by intros [= <-].
Qed.

Lemma gates_ok_other w d t e db r :
  gates_ok w → not_a_gate e → StoreAppend d t e (w_log w) = (db, r) → gates_ok (mkGateWorld db (w_vouched w)).
Proof.
  intros [Hr Hok] [Hz Hn] Ha. destruct r as [[]|err]; [|apply Append_Err in Ha as [-> _]; done].
  split; [by eapply reach_append|]. intros t' run step. cbn [w_vouched w_log].
  destruct (gate_log_append _ _ _ _ _ t' run step Ha Hz) as (new & -> & Hnew).
  rewrite decide_False in Hnew by (unfold of_gate; naive_solver). subst new. by rewrite app_nil_r.
Qed.

Lemma gates_ok_request w d t run step prompt parks now db r :
  gates_ok w → request d t run step prompt parks now (w_log w) = (db, r) → gates_ok (mkGateWorld db (w_vouched w)).
Proof.
  intros [Hr Hok]. unfold request. destruct (decide _); [intros [= <- <-]; done|].
  intros Hc. apply concluding_cases in Hc as [(events & Hf & -> & Ha)|[-> _]]; [|done].
  apply request_events_spec in Hf as (g & Hg & Hd & Hcase).
  destruct (read_ok _ _ _ _ _ _ Hr (Hok t run step) Hg Hd) as [[Haw Hlog]|(Haw & q & Hq & Hlog & _)];
    destruct Hcase as [[Haw' ->]|(Haw' & e & -> & He & Hz & Ht & Hp)]; rewrite Haw in Haw'; try done.
  2: { injection Ha as <-. done. }
  assert (Hu : unsequenced [e]) by by constructor.
  split; [by eapply append_events_reachable|]. intros t' run' step'. cbn [w_vouched w_log].
  destruct (append_events_log _ _ _ _ _ t' run' step' Ha Hu) as (new & -> & Hnew).
  destruct (decide (t = t')) as [<-|]; [|apply Forall2_nil_inv_l in Hnew as ->; by rewrite app_nil_r].
  rewrite filter_cons, filter_nil in Hnew. destruct (decide (of_gate run' step' e)) as [He'|];
    [|apply Forall2_nil_inv_l in Hnew as ->; by rewrite app_nil_r].
  assert (run' = run ∧ step' = step) as [-> ->] by (unfold of_gate in *; naive_solver).
  rewrite Hlog. inversion Hnew as [|? e' ? ? Hat Hnil]; subst. inversion Hnil; subst.
  apply gate_asked, (asks_at _ _ Hat). split; [done|by eexists].
Qed.

Lemma gates_ok_decide w d t run step approver approved reason found now db r :
  gates_ok w → Decide d t resumeNothing run step approver approved reason found now (w_log w) = (db, r) →
  gates_ok (mkGateWorld db (vouch t approver found (w_vouched w))).
Proof.
  intros [Hr Hok]. unfold Decide.
  assert (Hsub : w_vouched w ⊆ vouch t approver found (w_vouched w)) by (unfold vouch; destruct found; set_solver).
  assert (Hsame : gates_ok (mkGateWorld (w_log w) (vouch t approver found (w_vouched w)))).
  { split; [done|]. intros t' r' s'. by eapply gate_ok_mono, Hok. }
  destruct (check_decision _ _ _ _ _ _) as [[a rs]|e] eqn:Ec; [|by intros [= <- <-]].
  apply check_decision_spec in Ec as (Hrun & Hstep & Ea & Hna & Ers & Hnr & ->).
  destruct (concluding _ _ _ _) as [db1 r1] eqn:Ec. apply concluding_cases in Ec as [(events & Hf & -> & Ha)|[-> [e ->]]]; [|by intros [= <- <-]].
  intros Hres. assert (db = db1) as ->. { destruct approved; cbn in Hres; by injection Hres as <- <-. }
  apply decide_events_spec in Hf as (g & Hg & Hd & Haw & Hdec). pose proof (decision_unsequenced _ _ _ _ _ _ _ _ Hdec) as Hu.
  apply decision_spec in Hdec as (rest & -> & Hv).
  destruct (read_ok _ _ _ _ _ _ Hr (Hok t run step) Hg Hd) as [[Haw' _]|(_ & q & Hq & Hlog & _)]; [congruence|].
  split; [by eapply append_events_reachable|]. intros t' run' step'. cbn [w_vouched w_log].
  destruct (append_events_log _ _ _ _ _ t' run' step' Ha Hu) as (new & -> & Hnew).
  pose proof (gate_ok_mono _ _ _ _ Hsub (Hok t' run' step')) as Hold.
  destruct (decide (t = t')) as [<-|]; [|apply Forall2_nil_inv_l in Hnew as ->; by rewrite app_nil_r].
  rewrite filter_cons, (verdict_not_gate _ _ _ _ _ _ _ Hv) in Hnew.
  destruct (decide (of_gate run' step' _)) as [(<- & <- & _)|]; [|apply Forall2_nil_inv_l in Hnew as ->; by rewrite app_nil_r].
  cbn [ev_RunID ev_StepID] in *. rewrite Hlog. inversion Hnew as [|? e' ? ? [n ->] Hnil]; subst. inversion Hnil; subst.
  eapply gate_answered; [done|]. unfold answers. cbn. split_and!; [done|reflexivity|done..|]. cbn. set_solver.
Qed.

Lemma gate_reachable_ok w : gate_reachable w → gates_ok w.
Proof.
  unfold gate_reachable. intros Hr. revert Hr. apply (rtc_ind_r gates_ok).
  - split; [by constructor|]. intros t r s. constructor.
  - intros w1 w2 _ Hs IH. destruct Hs; [by eapply gates_ok_other|by eapply gates_ok_request|by eapply gates_ok_decide].
Qed.

(** C31: on SQLite, whatever planes do, a gate is asked at most once and
    answered at most once, after it was asked: its log is nothing, a request,
    or a request and one decision, made with a reason by an approver the
    identity store answered for as a principal of that tenant. *)
Theorem gate_decided_once w tenant run step :
  gate_reachable w → gate_ok (w_vouched w) tenant (gate_log tenant run step (w_log w)).
Proof. intros Hr. exact (proj2 (gate_reachable_ok w Hr) tenant run step). Qed.

(** ** Gates on Postgres *)

Lemma append_event_elem d t e db db' :
  StoreAppend d t e db = (db', Ok tt) → ev_Sequence e = 0 → closesRun (ev_Type e) = false → ev_Type e ∉ once_types →
  ∃ n, (t, with_sequence e n) ∈ run_events db'.
Proof.
  intros Ha Hz Hc Ho. apply Append_Ok in Ha as (_ & -> & _). rewrite append_fresh by done.
  destruct (positioned_at db t e) as [n Hn]. exists n. rewrite Hn. set_solver.
Qed.

Lemma append_events_keep d t events db db' x :
  append_events d t events db = (db', Ok tt) → x ∈ run_events db → x ∈ run_events db'.
Proof.
  revert db. induction events as [|e events IH]; intros db; [by intros [= <-]|].
  intros (db1 & Ha & Hb)%append_events_cons Hx. apply (IH _ Hb).
  apply Append_Ok in Ha as (_ & -> & _). apply elem_of_app. by left.
Qed.

Lemma append_events_elem d t events db db' e :
  append_events d t events db = (db', Ok tt) → unsequenced events → e ∈ events →
  closesRun (ev_Type e) = false → ev_Type e ∉ once_types → ∃ n, (t, with_sequence e n) ∈ run_events db'.
Proof.
  intros Ha Hz He Hc Ho. revert db Ha. induction Hz as [|e' events Hz _ IH]; intros db Ha; [by apply elem_of_nil in He|].
  apply append_events_cons in Ha as (db1 & Ha & Hb). apply elem_of_cons in He as [->|He]; [|by eapply IH].
  destruct (append_event_elem _ _ _ _ _ Ha Hz Hc Ho) as [n Hn]. exists n. by eapply append_events_keep.
Qed.

(** One transaction that read the gate standing open, committed whatever was
    committed since. *)
Lemma pg_decides n w tenant run step g approver approved reason found now :
  tenant ≠ "" → pg_open w !! n = None → read tenant run step (pg_log w) = Ok g →
  gt_awaiting g = true → gt_decided g = false →
  is_Some (MarshalStatus (mkJobStatus run step 0 "" PHASE_SUCCEEDED 0 [] "" "")) →
  check_decision tenant run step approver reason found = Ok (TrimSpace approver, TrimSpace reason) →
  ∃ rest, verdict_events run step approved (gt_parks g) rest ∧
    let events := mkEvent run step 0 0 StepApprovalDecided
                    (enc_decision (mkGateDecision (TrimSpace approver) approved (TrimSpace reason) now)) now :: rest in
    unsequenced events ∧ pg_gate_step w (mkPgGates (pg_log w) (<[n := (tenant, events)]> (pg_open w))).
Proof.
  intros Ht Hn Hr Ha Hd [b Hb] Hc.
  assert (∃ events, decide_events tenant run step (TrimSpace approver) (TrimSpace reason) approved now (pg_log w) = Ok events) as [events He].
  { unfold decide_events. rewrite Hr. cbn [mbind result_bind]. rewrite Hd, Ha. cbn [negb]. unfold decision.
    destruct (approved && gt_parks g); [by eexists|]. destruct approved; [rewrite Hb|]; by eexists. }
  pose proof He as He'. apply decide_events_spec in He' as (g' & Hr' & _ & _ & Hdec).
  rewrite Hr in Hr'. injection Hr' as <-. pose proof (decision_unsequenced _ _ _ _ _ _ _ _ Hdec) as Hu.
  apply decision_spec in Hdec as (rest & -> & Hv). exists rest. cbn zeta. split; [done|]. split; [done|]. by eapply pgs_decide.
Qed.

(** C0: on Postgres, two decisions of one open gate can both stand. Both
    transactions read the gate undecided before either appends, nothing in the
    schema refuses the second, and both callers are told their answer took
    effect: the log holds an approval and a denial of one gate, and the step
    both succeeded and failed. *)
Theorem racing_decisions_both_stand db tenant run step g a1 r1 a2 r2 now1 now2 :
  tenant ≠ "" → run ≠ "" → step ≠ "" →
  read tenant run step db = Ok g → gt_awaiting g = true → gt_decided g = false → gt_parks g = false →
  TrimSpace a1 ≠ "" → TrimSpace r1 ≠ "" → TrimSpace a2 ≠ "" → TrimSpace r2 ≠ "" →
  is_Some (MarshalStatus (mkJobStatus run step 0 "" PHASE_SUCCEEDED 0 [] "" "")) →
  ∃ w d1 d2 e1 e2, rtc pg_gate_step (mkPgGates db ∅) w ∧ pg_open w = ∅
    ∧ gate_log tenant run step (pg_log w) = gate_log tenant run step db ++ [d1; d2]
    ∧ ev_Payload d1 = enc_decision (mkGateDecision (TrimSpace a1) true (TrimSpace r1) now1)
    ∧ ev_Payload d2 = enc_decision (mkGateDecision (TrimSpace a2) false (TrimSpace r2) now2)
    ∧ (tenant, e1) ∈ run_events (pg_log w) ∧ ev_RunID e1 = run ∧ ev_StepID e1 = step ∧ ev_Type e1 = StepSucceeded
    ∧ (tenant, e2) ∈ run_events (pg_log w) ∧ ev_RunID e2 = run ∧ ev_StepID e2 = step ∧ ev_Type e2 = StepFailed.
Proof.
  intros Ht Hrun Hstep Hr Ha Hd Hp Ha1 Hr1 Ha2 Hr2 Hs.
  assert (Hck : ∀ a r, TrimSpace a ≠ "" → TrimSpace r ≠ "" →
    check_decision tenant run step a r (Ok tt) = Ok (TrimSpace a, TrimSpace r)).
  { intros a r Hna Hnr. unfold check_decision. destruct (decide (run = "" ∨ step = "")) as [[]|]; [done..|].
    by destruct (decide (TrimSpace a = "")), (decide (TrimSpace r = "")). }
  destruct (pg_decides 0 (mkPgGates db ∅) tenant run step g a1 true r1 (Ok tt) now1) as (rest1 & Hv1 & Hu1 & Hs1);
    [done..|by apply Hck|].
  match type of Hs1 with pg_gate_step _ ?w => set (w1 := w) in Hs1 end.
  destruct (pg_decides 1 w1 tenant run step g a2 false r2 (Ok tt) now2) as (rest2 & Hv2 & Hu2 & Hs2); [done..|by apply Hck|].
  cbn [pg_log pg_open w1] in *.
  destruct (append_events_total DialectPostgres tenant _ db Ht Hu1) as [db1 Hw1].
  destruct (append_events_total DialectPostgres tenant _ db1 Ht Hu2) as [db2 Hw2].
  destruct (append_events_log _ _ _ _ _ tenant run step Hw1 Hu1) as (n1 & Hl1 & Hf1).
  destruct (append_events_log _ _ _ _ _ tenant run step Hw2 Hu2) as (n2 & Hl2 & Hf2).
  assert (Hg : ∀ x p at_, of_gate run step (mkEvent run step x x StepApprovalDecided p at_)).
  { intros. unfold of_gate, gate_types. cbn. split_and!; [done..|]. right. by left. }
  rewrite decide_True, filter_cons_True, (verdict_not_gate _ _ _ _ _ _ _ Hv1) in Hf1 by done.
  rewrite decide_True, filter_cons_True, (verdict_not_gate _ _ _ _ _ _ _ Hv2) in Hf2 by done.
  inversion Hf1 as [|? d1 ? ? [m1 Ed1] Hn1]; subst. inversion Hn1; subst.
  inversion Hf2 as [|? d2 ? ? [m2 Ed2] Hn2]; subst. inversion Hn2; subst.
  rewrite Hp in Hv1, Hv2. cbn in Hv1, Hv2. destruct Hv1 as (e1 & b & -> & Ht1 & Hr1' & Hs1' & _).
  destruct Hv2 as (e2 & e3 & -> & Ht2 & Hr2' & Hs2' & _).
  destruct (append_events_elem _ _ _ _ _ e1 Hw1 Hu1) as [k1 Hk1];
    [set_solver|by rewrite Ht1; vm_compute|rewrite Ht1; by apply (bool_decide_unpack _); vm_compute|].
  destruct (append_events_elem _ _ _ _ _ e2 Hw2 Hu2) as [k2 Hk2];
    [set_solver|by rewrite Ht2; vm_compute|rewrite Ht2; by apply (bool_decide_unpack _); vm_compute|].
  pose proof (append_events_keep _ _ _ _ _ _ Hw2 Hk1) as Hk1'.
  exists (mkPgGates db2 ∅), (with_sequence (mkEvent run step 0 0 StepApprovalDecided
      (enc_decision (mkGateDecision (TrimSpace a1) true (TrimSpace r1) now1)) now1) m1),
    (with_sequence (mkEvent run step 0 0 StepApprovalDecided
      (enc_decision (mkGateDecision (TrimSpace a2) false (TrimSpace r2) now2)) now2) m2),
    (with_sequence e1 k1), (with_sequence e2 k2).
  split; [|cbn [pg_log]; split_and!; try done; by rewrite Hl2, Hl1, <-app_assoc].
  subst w1. cbn [pg_log pg_open] in *. eapply rtc_l; [exact Hs1|]. eapply rtc_l; [exact Hs2|].
  eapply rtc_l; [eapply (pgs_commit _ 0); [cbn [pg_open]; by rewrite lookup_insert_ne, lookup_insert_eq by done|exact Hw1]|].
  eapply rtc_l; [eapply (pgs_commit _ 1); [cbn [pg_open pg_log]; by rewrite lookup_delete_ne, lookup_insert_eq by done|exact Hw2]|].
  cbn [pg_open pg_log].
  match goal with |- rtc _ (mkPgGates _ ?m) _ => replace m with (∅ : gmap nat (string * list Event)) by reflexivity end.
  done.
Qed.

(** ** What the scheduler reads afterwards *)

Definition run_log (tenant run : string) (db : DB) : list Event :=
  filter (λ e, ev_RunID e = run) (tenant_events (run_events db) tenant).

Lemma Replay_run_log tenant run db :
  reachable allocated db → tenant ≠ "" → Replay tenant run db = Ok (run_log tenant run db).
Proof.
  intros Hr Ht. unfold Replay. rewrite decide_False by done. f_equal.
  by apply seq_sort_ordered, filter_ordered, allocated_ordered.
Qed.

Lemma run_log_append d t e db db' :
  StoreAppend d t e db = (db', Ok tt) →
  ∃ n, run_log t (ev_RunID e) db' = run_log t (ev_RunID e) db ++ (if written db t e then [with_sequence e n] else []).
Proof.
  intros Ha. apply Append_Ok in Ha as (_ & Er & _). destruct (positioned_at db t e) as [n Hn]. exists n.
  unfold run_log. rewrite Er. destruct (written db t e); [|by rewrite !app_nil_r].
  rewrite tenant_events_app, filter_app. simpl. rewrite decide_True by done. f_equal.
  rewrite Hn. by rewrite filter_cons_True by done.
Qed.

Lemma run_log_append_fresh d t e db db' run :
  StoreAppend d t e db = (db', Ok tt) → ev_RunID e = run → ev_Sequence e = 0 → closesRun (ev_Type e) = false →
  ev_Type e ∉ once_types → ∃ n, run_log t run db' = run_log t run db ++ [with_sequence e n].
Proof.
  intros Ha <- Hz Hc Ho. destruct (run_log_append _ _ _ _ _ Ha) as [n Hn]. rewrite append_fresh in Hn by done. by exists n.
Qed.

(** A closing event not written found the run closed. *)
Lemma closing_unwritten db t e :
  written db t e = false → ev_Sequence e = 0 → ev_Type e ∉ once_types →
  ∃ x, x ∈ run_log t (ev_RunID e) db ∧ closesRun (ev_Type x) = true.
Proof.
  unfold written. intros Hw%negb_false_iff Hz Ho. apply existsb_exists in Hw as ([t' x] & Hin%list_elem_of_In & Hk).
  destruct (positioned_fields db t e) as (Hrun & Htype & _).
  unfold conflicts, same_key, both_terminal, both_once, same_step, same_run in Hk. cbn [fst snd] in Hk.
  rewrite Hrun, Htype, !orb_true_iff, !andb_true_iff, !bool_decide_eq_true in Hk. destruct Hk as [[Hk|Hk]|Hk].
  - exfalso. destruct Hk as [[[[-> _] _] _] Hs]. unfold positioned in Hs. rewrite decide_True in Hs by done.
    apply tenant_events_elem, max_sequence_ge in Hin. pose proof (next_sequence_gt db t'). cbn in Hs. lia.
  - destruct Hk as [[[-> Hr] _] Hc]. exists x. split; [|done]. apply list_elem_of_filter. split; [done|].
    by apply tenant_events_elem.
  - exfalso. by destruct Hk as [_ ?].
Qed.

Context `{GenCodec}.

Lemma fold_event_completed s e s' :
  fold_event s e = Ok s' → st_completed s = true ∨ closesRun (ev_Type e) = true → st_completed s' = true.
Proof.
  unfold fold_event. intros Hf Hc.
  destruct (decide (ev_Type e = RunCreated)) as [Ht|_]; [res_inv; subst; rewrite Ht in Hc; by destruct Hc|].
  destruct (decide (ev_Type e = StepDispatched)) as [Ht|_].
  { rewrite Ht in Hc. destruct Hc as [Hc|Hc]; [|done]. revert Hf. unfold fold_dispatched. intros Hf. res_inv. subst s'. cbn.
    repeat case_decide; exact Hc. }
  destruct (decide (ev_Type e = StepSucceeded)) as [Ht|_]; [res_inv; subst; rewrite Ht in Hc; by destruct Hc|].
  destruct (decide (ev_Type e = StepFailed)) as [Ht|_]; [injection Hf as <-; rewrite Ht in Hc; by destruct Hc|].
  destruct (decide (ev_Type e = StepAttemptLost)) as [Ht|_];
    [injection Hf as <-; rewrite Ht in Hc; destruct Hc as [Hc|]; [|done]; by case_decide|].
  destruct (decide (ev_Type e = StepAwaitingReplay)) as [Ht|_]; [injection Hf as <-; rewrite Ht in Hc; by destruct Hc|].
  destruct (decide (ev_Type e = StepAwaitingTimer ∨ ev_Type e = StepAwaitingApproval)) as [Ht|_];
    [injection Hf as <-; destruct Ht as [Ht|Ht]; rewrite Ht in Hc; by destruct Hc|].
  destruct (decide (ev_Type e = StepResumed)) as [Ht|_]; [injection Hf as <-; rewrite Ht in Hc; by destruct Hc|].
  destruct (decide (ev_Type e = RunFailed ∨ ev_Type e = RunCompleted ∨ ev_Type e = RunCancelled)) as [Ht|Hn];
    [by injection Hf as <-|].
  assert (Hc' : st_completed s = true).
  { destruct Hc as [|Hc]; [done|]. unfold closesRun in Hc. rewrite !orb_true_iff, !bool_decide_eq_true in Hc. tauto. }
  destruct (decide (ev_Type e = EventFragmentRealised)); [by res_inv; subst|].
  destruct (decide (ev_Type e = StepUnschedulable)); [by res_inv; subst|].
  destruct (decide (ev_Type e = EventSanitised)); [by res_inv; subst|].
  destruct (decide (ev_Type e = StepWaiting)); [by res_inv; subst|]. by injection Hf as <-.
Qed.

Lemma fold_completed l s s' :
  fold_result fold_event s l = Ok s' → st_completed s = true ∨ (∃ x, x ∈ l ∧ closesRun (ev_Type x) = true) →
  st_completed s' = true.
Proof.
  revert s. induction l as [|e l IH]; intros s; cbn [fold_result].
  { intros [= <-] [?|(x & Hx%elem_of_nil & _)]; done. }
  unfold mbind, result_bind. destruct (fold_event s e) as [s1|] eqn:Ef; [|done]. intros Hf Hc. apply (IH s1 Hf).
  destruct Hc as [Hc|(x & [->|Hx]%elem_of_cons & Hc)]; [left; eapply fold_event_completed; eauto..|right; eauto].
Qed.

Lemma load_events_app l k s s' :
  load_events l = Ok s → fold_result fold_event s k = Ok s' → st_created s' = st_created s → load_events (l ++ k) = Ok s'.
Proof.
  unfold load_events, mbind, result_bind. rewrite fold_result_app. destruct (fold_result fold_event empty_state l) as [s1|]; [|done].
  destruct (st_created s1) eqn:Ec; [|done]. intros [= <-] Hk Hc. unfold mbind, result_bind. rewrite Hk, Hc, Ec. done.
Qed.

(** a decision that is recorded moves the run the scheduler folds from its
    log: a parked step that is approved is released and no longer gated, an
    approval step that is approved has succeeded, and after a denial the run is
    over. *)
Theorem decision_moves_the_run d tenant run step approver approved reason found now db db' g st :
  reachable allocated db → (∀ s b, MarshalStatus s = Some b → is_Some (UnmarshalStatus b)) →
  read tenant run step db = Ok g → load_events (run_log tenant run db) = Ok st →
  Decide d tenant resumeNothing run step approver approved reason found now db = (db', Ok tt) →
  ∃ st', Replay tenant run db' = Ok (run_log tenant run db') ∧ load_events (run_log tenant run db') = Ok st'
    ∧ (if negb approved then st_completed st' = true
       else if gt_parks g then step ∈ st_resumed st' ∧ step ∉ st_gated st'
       else terminal_of st' step = StepSucceeded).
Proof.
  intros Hr Hlaw Hg Hl. unfold Decide.
  destruct (check_decision _ _ _ _ _ _) as [[a rs]|]; [|done].
  destruct (concluding _ _ _ _) as [db1 r1] eqn:Ec.
  apply concluding_cases in Ec as [(events & Hf & -> & Ha)|[_ [e ->]]]; [|done].
  intros Hres. assert (db' = db1) as ->. { destruct approved; cbn in Hres; by injection Hres as <-. }
  apply decide_events_spec in Hf as (g' & Hg' & _ & _ & Hdec). rewrite Hg in Hg'. injection Hg' as <-.
  pose proof (decision_unsequenced _ _ _ _ _ _ _ _ Hdec) as Hu.
  assert (Hr1 : reachable allocated db1) by by eapply append_events_reachable.
  apply decision_spec in Hdec as (rest & -> & Hv).
  apply append_events_cons in Ha as (db2 & Ha & Hb).
  assert (Ht : tenant ≠ "") by by apply Append_Ok in Ha as [? _].
  apply (run_log_append_fresh _ _ _ _ _ run) in Ha as [n Hn]; [|done|done|by vm_compute|by apply (bool_decide_unpack _); vm_compute].
  assert (Hl2 : load_events (run_log tenant run db2) = Ok st).
  { rewrite Hn. eapply load_events_app; [done| |done]. reflexivity. }
  clear Hn Hl. rewrite (Replay_run_log _ _ _ Hr1 Ht). unfold verdict_events in Hv.
  assert (Hone : ∀ e db3, StoreAppend d tenant e db2 = (db3, Ok tt) → ev_RunID e = run → ev_Sequence e = 0 →
    closesRun (ev_Type e) = false → ev_Type e ∉ once_types →
    ∀ s', (∀ n, fold_event st (with_sequence e n) = Ok s') → st_created s' = st_created st →
    load_events (run_log tenant run db3) = Ok s').
  { intros e db3 Ha Hrun Hz Hc Ho s' Hs Hcr. destruct (run_log_append_fresh _ _ _ _ _ run Ha Hrun Hz Hc Ho) as [k ->].
    eapply load_events_app; [done| |done]. cbn [fold_result]. by rewrite Hs. }
  destruct approved; cbn [negb andb] in *; [destruct (gt_parks g)|].
  - destruct Hv as (e & -> & Hte & Hre & Hse & Hze). apply append_events_cons in Hb as (db3 & Hb & [= <-]).
    eexists. split; [done|]. split.
    { eapply Hone; [done..|by rewrite Hte|rewrite Hte; by apply (bool_decide_unpack _); vm_compute| |].
      - intros k. unfold fold_event. cbn [ev_Type ev_StepID ev_At ev_Payload with_sequence]. rewrite Hte. reflexivity.
      - done. }
    cbn. rewrite Hse. set_solver.
  - destruct Hv as (e & b & -> & Hte & Hre & Hse & Hpe & Hze & Hm). apply append_events_cons in Hb as (db3 & Hb & [= <-]).
    destruct (Hlaw _ _ Hm) as [status Hst].
    eexists. split; [done|]. split.
    { eapply Hone; [done..|by rewrite Hte|rewrite Hte; by apply (bool_decide_unpack _); vm_compute| |].
      - intros k. unfold fold_event. cbn [ev_Type ev_StepID ev_At ev_Payload with_sequence]. rewrite Hte. cbn. rewrite Hpe, Hst. reflexivity.
      - done. }
    unfold terminal_of. cbn. rewrite Hse, lookup_insert_eq. done.
  - destruct Hv as (e1 & e2 & -> & Ht1 & Hr1' & Hs1 & Ht2 & Hr2 & Hz1 & Hz2).
    apply append_events_cons in Hb as (db3 & Hb & Hc). apply append_events_cons in Hc as (db4 & Hc & [= <-]).
    assert (Hl3 : ∃ st3, load_events (run_log tenant run db3) = Ok st3).
    { eexists. eapply Hone; [done..|by rewrite Ht1|rewrite Ht1; by apply (bool_decide_unpack _); vm_compute| |].
      - intros k. unfold fold_event. cbn [ev_Type ev_StepID ev_At ev_Payload with_sequence]. rewrite Ht1. reflexivity.
      - done. }
    destruct Hl3 as [st3 Hl3]. destruct (run_log_append _ _ _ _ _ Hc) as [k Hk]. rewrite Hr2 in Hk.
    destruct (written db3 tenant e2) eqn:Ew.
    + rewrite Hk. eexists. split; [done|]. split.
      { eapply load_events_app; [done| |].
        - cbn [fold_result]. unfold fold_event. cbn [ev_Type ev_StepID ev_At ev_Payload with_sequence]. rewrite Ht2. reflexivity.
        - done. }
      done.
    + rewrite Hk, app_nil_r. exists st3. split_and!; [done..|].
      destruct (closing_unwritten _ _ _ Ew Hz2) as (x & Hx & Hcx); [rewrite Ht2; by apply (bool_decide_unpack _); vm_compute|].
      rewrite Hr2 in Hx. revert Hl3. unfold load_events, mbind, result_bind.
      destruct (fold_result _ _ _) as [s0|] eqn:Ef; [|done]. destruct (st_created s0); [|done]. intros [= <-].
      eapply fold_completed; [exact Ef|]. right. eauto.
Qed.

End facts.

(** ** Examples *)

Definition decision_tuple (d : GateDecision) := (gd_Approver d, gd_Approved d, gd_Reason d, gd_At d).

#[local] Instance bits_approvals : ApprovalJSON :=
  {| enc_request := λ r, to_bits (gr_Prompt r, gr_Parks r);
     UnmarshalRequest := λ s, '(p, b) ← of_bits s; Some (mkGateRequest p b);
     enc_decision := λ d, to_bits (decision_tuple d);
     UnmarshalDecision := λ s, '(a, b, r, t) ← of_bits s; Some (mkGateDecision a b r t);
     enc_denial := λ d, dl_Reason d |}.

#[local] Instance bits_approvals_laws : ApprovalJSONLaws.
Proof.
  split; intros []; unfold UnmarshalRequest, enc_request, UnmarshalDecision, enc_decision, bits_approvals;
    by rewrite of_to_bits.
Qed.

#[local] Instance bare_payloads : Payloads :=
  {| MarshalDispatched _ := ""; MarshalUnschedulable _ := ""; MarshalWaitingReason _ := "";
     MarshalPolicyDenied _ := ""; MarshalAwaitingReplay _ := ""; MarshalAttemptLost _ := "";
     MarshalRunFailure _ := ""; MarshalSecretUnavailable _ := ""; MarshalStatus _ := Some "status";
     UnmarshalRunCreated _ := Some (mkRunCreated "ci" "rev1" ∅ "");
     UnmarshalDispatched _ := None; UnmarshalUnschedulable _ := None; UnmarshalWaitingReason _ := None;
     UnmarshalStatus _ := Some (mkJobStatus "r" "sign" 0 "" PHASE_SUCCEEDED 0 [] "" "");
     UnmarshalSanitised _ := None |}.
#[local] Instance bare_codec : GenCodec :=
  {| enc_record _ := ""; dec_record _ := None; enc_pipeline _ := None; dec_pipeline _ := None |}.

Definition ex_created : DB := (StoreAppend DialectSQLite "t" (mkEvent "r" "" 0 0 RunCreated "" 0) empty_db).1.
Definition ex_asked (parks : bool) : DB := (request DialectSQLite "t" "r" "sign" "ship it?" parks 1 ex_created).1.
Definition ex_decided (parks approved : bool) : DB :=
  (Decide DialectSQLite "t" resumeNothing "r" "sign" "ann " approved "scanned" (Ok tt) 2 (ex_asked parks)).1.

Definition ex_gate_world : GateWorld := mkGateWorld (ex_decided false true) {[("t", "ann")]}.

Lemma ex_gate_reachable : gate_reachable ex_gate_world.
Proof.
  eapply rtc_l; [apply (gs_other _ DialectSQLite "t" (mkEvent "r" "" 0 0 RunCreated "" 0) ex_created (Ok tt));
    [split; [done|by apply (bool_decide_unpack _); vm_compute]|by vm_compute]|].
  eapply rtc_l; [apply (gs_request _ DialectSQLite "t" "r" "sign" "ship it?" false 1 (ex_asked false) (Ok tt)); by vm_compute|].
  eapply rtc_l; [apply (gs_decide _ DialectSQLite "t" "r" "sign" "ann " true "scanned" (Ok tt) 2 (ex_decided false true) (Ok tt)); by vm_compute|].
  replace ex_gate_world with (mkGateWorld (ex_decided false true) (vouch "t" "ann " (Ok tt) ∅)); done.
Qed.

Lemma gate_decided_once_witness :
  length (gate_log "t" "r" "sign" (w_log ex_gate_world)) = 2%nat
  ∧ gate_ok (w_vouched ex_gate_world) "t" (gate_log "t" "r" "sign" (w_log ex_gate_world)).
Proof. split; [by vm_compute|]. exact (gate_decided_once ex_gate_world "t" "r" "sign" ex_gate_reachable). Defined.

Definition ex_gate (parks : bool) : gateState := mkGate true false false "" "" parks.
Lemma ex_read parks : read "t" "r" "sign" (ex_asked parks) = Ok (ex_gate parks).
Proof. destruct parks; by vm_compute. Qed.

Lemma racing_decisions_both_stand_witness :
  ∃ w d1 d2 e1 e2, rtc pg_gate_step (mkPgGates (ex_asked false) ∅) w ∧ pg_open w = ∅
    ∧ gate_log "t" "r" "sign" (pg_log w) = gate_log "t" "r" "sign" (ex_asked false) ++ [d1; d2]
    ∧ ev_Payload d1 = enc_decision (mkGateDecision (TrimSpace "ann") true (TrimSpace "scanned") 2)
    ∧ ev_Payload d2 = enc_decision (mkGateDecision (TrimSpace "bob") false (TrimSpace "not yet") 3)
    ∧ ("t", e1) ∈ run_events (pg_log w) ∧ ev_RunID e1 = "r" ∧ ev_StepID e1 = "sign" ∧ ev_Type e1 = StepSucceeded
    ∧ ("t", e2) ∈ run_events (pg_log w) ∧ ev_RunID e2 = "r" ∧ ev_StepID e2 = "sign" ∧ ev_Type e2 = StepFailed.
Proof.
  apply (racing_decisions_both_stand (ex_asked false) "t" "r" "sign" (ex_gate false) "ann" "scanned" "bob" "not yet" 2 3);
    [done|done|done|exact (ex_read false)|reflexivity|reflexivity|reflexivity|by vm_compute|by vm_compute|by vm_compute
     |by vm_compute|by exists "status"].
Defined.

Lemma ex_asked_reachable parks : reachable allocated (ex_asked parks).
Proof.
  eapply (reach_append _ DialectSQLite "t"
    (mkEvent "r" "sign" 0 0 StepAwaitingApproval (enc_request (mkGateRequest "ship it?" parks)) 1) ex_created);
    [|done|by destruct parks; vm_compute].
  by eapply (reach_append _ DialectSQLite "t" (mkEvent "r" "" 0 0 RunCreated "" 0) empty_db); [constructor|done|vm_compute].
Qed.

Definition ex_loaded (parks : bool) : runState :=
  default empty_state (match load_events (run_log "t" "r" (ex_asked parks)) with Ok s => Some s | Err _ => None end).
Lemma ex_loads parks : load_events (run_log "t" "r" (ex_asked parks)) = Ok (ex_loaded parks).
Proof. destruct parks; by vm_compute. Qed.
Lemma ex_status_law (s : JobStatus) (b : string) : MarshalStatus s = Some b → is_Some (UnmarshalStatus b).
Proof. by eexists. Qed.
Lemma ex_decides parks approved :
  Decide DialectSQLite "t" resumeNothing "r" "sign" "ann " approved "scanned" (Ok tt) 2 (ex_asked parks)
  = (ex_decided parks approved, Ok tt).
Proof. destruct parks, approved; by vm_compute. Qed.

Lemma decision_moves_the_run_witness :
  ∃ st', Replay "t" "r" (ex_decided true true) = Ok (run_log "t" "r" (ex_decided true true))
    ∧ load_events (run_log "t" "r" (ex_decided true true)) = Ok st'
    ∧ "sign" ∈ st_resumed st' ∧ "sign" ∉ st_gated st'.
Proof.
  exact (decision_moves_the_run DialectSQLite "t" "r" "sign" "ann " true "scanned" (Ok tt) 2 (ex_asked true)
    (ex_decided true true) (ex_gate true) (ex_loaded true) (ex_asked_reachable true) ex_status_law (ex_read true)
    (ex_loads true) (ex_decides true true)).
Defined.
