(* ===== verification/Server.v ===== *)
(** * The control plane's loops: [internal/server]

    What one plane does with what arrives: engines announcing themselves and
    their heartbeats ([handleEngineMessage]), acceptance requests
    ([serveAcceptanceOn]), reports ([consumeStatuses]), its own ticks
    ([advanceOpenRuns], [sweep_pass]) and a run being submitted
    ([SubmitWithInputs]). They are programs over the scheduler's calls
    ([Plane.op]) and the plane's own ([bop]); a loop is unrolled [n] times, and
    every trace of it is a trace of some [n]. Decoding is a parameter; starting
    and stopping the process, and log lines, are left out. *)

From S2P Require Import Prelude Bytes Taint Lease Program Proto Dag RunStore Sched Fleet Registry Plane Control Engine.

(** ** Calls *)

Inductive NextErr : Type := ErrSubscriptionClosed | NextOther (e : GoErr).

Inductive bop : Type → Type :=
(** the status subscription, and whether this plane is stopping *)
| BNext : bop (result NextErr string)
| BAck : bop unit
| BNak : bop unit
| BStopping : bop bool
(** the fleet, and a cancel on an engine's control subject *)
| BRegister (r : EngineRegistration) : bop (result RegErr unit)
| BHeartbeat (h : EngineHeartbeat) : bop (result RegErr unit)
| BControl (subject : string) (c : Cancel) : bop (result GoErr unit)
(** runs *)
| BOpenRuns (tenant : string) : bop (result GoErr (list string))
| BOwns (run : string) : bop bool
| BRevokeClosedRuns : bop (Z * option GoErr)
| BRandomID : bop string
| BAdmitRun (tenant run : string) : bop (result GoErr (option string))
| BSave (tenant : string) (p : Pipeline) (author : string) : bop (result GoErr string).

Abbreviation svop := (plus Plane.op bop).
Abbreviation vcmd := (Program.cmd svop).
Abbreviation vgo := (Program.go svop).
Definition plane {X} (o : Plane.op X) : vcmd X := act (inl_ o).
Definition own_ {X} (o : bop X) : vcmd X := act (inr_ o).

(** A program of the scheduler's calls, run by the server. *)
Definition sched {A} (c : Program.cmd Plane.op A) : vcmd A := lift_l c.

(** ** What engines send *)

Definition SubjectEngineRegistration : string := "engine.registration".
Definition SubjectEngineHeartbeat (engineID : string) : string := "engine.heartbeat." +:+ engineID.
Definition SubjectEngineControl (engineID : string) : string := "engine.control." +:+ engineID.

(** The body of an [EngineMessage] frame. *)
Inductive EngineBody : Type :=
| BodyRegistration (r : EngineRegistration)
| BodyHeartbeat (h : EngineHeartbeat)
| NoBody.

(** [proto.Unmarshal] into the messages a plane reads. *)
Class ServerWire : Type :=
  { DecodeEngineMessage : string → option EngineBody;
    decode_registration : string → option EngineRegistration;
    decode_heartbeat : string → option EngineHeartbeat;
    decode_status : string → option JobStatus }.

Definition register (r : EngineRegistration) : vcmd unit := _ <- own_ (BRegister r);; Done tt.

Definition cancel_held (held : Job) : Cancel :=
  mkCancel (job_RunID held) (job_StepID held) (job_Attempt held) (job_FenceToken held).

Definition fenceOut (engineID : string) (held : Job) : vcmd unit :=
  if decide (engineID = "") then Done tt
  else _ <- own_ (BControl (SubjectEngineControl engineID) (cancel_held held));; Done tt.

Fixpoint renew_jobs (engineID : string) (jobs : list Job) : vcmd unit :=
  match jobs with
  | [] => Done tt
  | held :: jobs =>
      match DecodeFence (job_FenceToken held) with
      | Err _ => renew_jobs engineID jobs
      | Ok (_, (value, fence)) =>
          r <- plane (ORenew (mkToken value fence));;
          match r with
          | Ok _ => renew_jobs engineID jobs
          | Err e => _ <- (if Is e ErrFenced then fenceOut engineID held else Done tt);; renew_jobs engineID jobs
          end
      end
  end.

Definition renewHeld (h : EngineHeartbeat) : vcmd unit := renew_jobs (hb_EngineId h) (hb_InFlight h).

(** The leases first, whatever the registry makes of the engine. *)
Definition beat (h : EngineHeartbeat) : vcmd unit :=
  _ <- renewHeld h;; _ <- own_ (BHeartbeat h);; Done tt.

Definition handleEngineMessage `{ServerWire} (subject data : string) : vcmd unit :=
  match DecodeEngineMessage data with
  | None => Done tt
  | Some (BodyRegistration r) => register r
  | Some (BodyHeartbeat h) => beat h
  | Some NoBody =>
      if decide (subject = SubjectEngineRegistration)
      then match decode_registration data with None => Done tt | Some r => register r end
      else if has_prefix "engine.heartbeat." subject
      then match decode_heartbeat data with None => Done tt | Some h => beat h end
      else Done tt
  end.

(** ** Acceptance requests: [acceptance.go] *)

Inductive AcceptReply : Type :=
| Undecodable
| AcceptRefused (text : string)
| Accepted (a : Acceptance).

Definition serveAcceptanceOn `{ServerWire} (raw : string) : vcmd AcceptReply :=
  match decode_status raw with
  | None => Done Undecodable
  | Some st =>
      r <- sched (Accept (Some st));;
      Done (match r with Ok a => Accepted a | Err e => AcceptRefused (err_text e) end)
  end.

Section Server.
Context `{Payloads, Dynamic.GenCodec, ServerWire} (sha256 : string → string)
  (decode_command : string → option commandSpec) (cfg : Control.Config) (fuel : nat).

(** ** Reports *)

Definition OnStatus_ (st : JobStatus) : vgo unit := sched (OnStatus sha256 decode_command cfg fuel (Some st)).
Definition Advance_ (tenant run : string) : vgo unit := sched (Advance sha256 decode_command cfg fuel tenant run).

(** One turn: whether the loop goes on. *)
Definition consume_one : vcmd bool :=
  r <- own_ BNext;;
  match r with
  | Err e =>
      stopping <- own_ BStopping;;
      Done (negb (stopping || match e with ErrSubscriptionClosed => true | NextOther _ => false end))
  | Ok data =>
      match decode_status data with
      | None => _ <- own_ BAck;; Done true
      | Some st =>
          r <- OnStatus_ st;;
          match r with
          | Ok _ => _ <- own_ BAck;; Done true
          | Err _ =>
              stopping <- own_ BStopping;;
              if stopping : bool then Done false else _ <- own_ BNak;; Done true
          end
      end
  end.

Fixpoint consumeStatuses (n : nat) : vcmd unit :=
  match n with
  | O => Done tt
  | S n => more <- consume_one;; if more : bool then consumeStatuses n else Done tt
  end.

(** ** Ticks *)

Definition DefaultTenant : string := "default".
Definition tenants : list string := [DefaultTenant].

(** [partitioned] is whether this plane has a partitioner at all. *)
Definition ownsRun (partitioned : bool) (run : string) : vcmd bool :=
  if negb partitioned then Done true else own_ (BOwns run).

Fixpoint advance_runs (partitioned : bool) (tenant : string) (runs : list string) : vcmd bool :=
  match runs with
  | [] => Done false
  | run :: runs =>
      owned <- ownsRun partitioned run;;
      if negb owned then advance_runs partitioned tenant runs
      else
        r <- Advance_ tenant run;;
        match r with
        | Ok _ => advance_runs partitioned tenant runs
        | Err _ =>
            stopping <- own_ BStopping;;
            if stopping : bool then Done true else advance_runs partitioned tenant runs
        end
  end.

Fixpoint advance_tenants (partitioned : bool) (ts : list string) : vcmd bool :=
  match ts with
  | [] => Done false
  | tenant :: ts =>
      r <- own_ (BOpenRuns tenant);;
      match r with
      | Err _ =>
          stopping <- own_ BStopping;;
          if stopping : bool then Done true else advance_tenants partitioned ts
      | Ok open =>
          stop <- advance_runs partitioned tenant open;;
          if stop : bool then Done true else advance_tenants partitioned ts
      end
  end.

(** Whether the server is shutting down. *)
Definition advanceOpenRuns (partitioned : bool) : vcmd bool := advance_tenants partitioned tenants.

(** One tick of [sweepLoop]; [false] ends the loop. *)
Definition sweep_pass : vcmd bool :=
  revoked <- own_ BRevokeClosedRuns;;
  stopping <- (match revoked.2 with Some _ => own_ BStopping | None => Done false end);;
  if stopping : bool then Done false
  else
    lost <- sched (SweepOrphans sha256 decode_command cfg fuel);;
    match lost with
    | Ok _ => Done true
    | Err _ => stopping <- own_ BStopping;; Done (negb stopping)
    end.

(** ** A run submitted *)

Inductive SubmitErr : Type :=
| NotStarted
| SubmitTenantRequired
| NilPipeline
| DoesNotTypeCheck (pipeline : string) (diags : list Diagnostic)
| QuotaRefused (reason : string)
| SubmitFailed (e : GoErr)
| EncodingRunCreated.

Record submitter : Type := mkSubmitter { sm_running : bool; sm_quotas : bool; sm_partitioned : bool }.

(** [MarshalRunCreated]; [None] is its error. *)
Context (MarshalRunCreated : RunCreatedP → option string).

(** A call whose error is the answer. *)
Definition or_fail {A B} (c : vgo A) (k : A → vcmd (string * option B)) (fail : GoErr → B) : vcmd (string * option B) :=
  r <- c;; match r with Ok a => k a | Err e => Done ("", Some (fail e)) end.

(** The run starts: its creation is recorded, then it is advanced if it is
    this plane's. *)
Definition create_run (s : submitter) (tenantID runID : string) (p : Pipeline) (inputs : gmap string Value)
    (startedBy revision : string) : vcmd (string * option SubmitErr) :=
  match MarshalRunCreated (mkRunCreated (pl_id p) revision inputs startedBy) with
  | None => Done ("", Some EncodingRunCreated)
  | Some payload =>
      at_ <- plane ONow;;
      or_fail (plane (OAppend tenantID (mkEvent runID "" 0 0 RunCreated payload at_))) (λ _,
        owned <- ownsRun (sm_partitioned s) runID;;
        if negb owned then Done (runID, None)
        else
          r <- Advance_ tenantID runID;;
          Done (runID, match r with Ok _ => None | Err e => Some (SubmitFailed e) end)) SubmitFailed
  end.

Definition SubmitWithInputs (s : submitter) (tenantID : string) (p : option Pipeline) (inputs : gmap string Value)
    (startedBy : string) : vcmd (string * option SubmitErr) :=
  if negb (sm_running s) then Done ("", Some NotStarted)
  else if decide (tenantID = "") then Done ("", Some SubmitTenantRequired)
  else match p with
  | None => Done ("", Some NilPipeline)
  | Some p =>
      if decide (TypeCheck (Some p) ≠ []) then Done ("", Some (DoesNotTypeCheck (pl_id p) (TypeCheck (Some p))))
      else
        id <- own_ BRandomID;;
        let runID := "run_" +:+ id in
        let go_on := or_fail (own_ (BSave tenantID p "system")) (create_run s tenantID runID p inputs startedBy) SubmitFailed in
        if negb (sm_quotas s) then go_on
        else
          or_fail (own_ (BAdmitRun tenantID runID)) (λ refused : option string,
            match refused with Some reason => Done ("", Some (QuotaRefused reason)) | None => go_on end) SubmitFailed
  end.

Definition Submit (s : submitter) (tenantID : string) (p : option Pipeline) : vcmd (string * option SubmitErr) :=
  SubmitWithInputs s tenantID p ∅ "".

End Server.
