(* ===== verification/ServerFacts.v ===== *)
(** * What a plane's loops promise

    A report is acknowledged only once it is accounted for
    ([report_acked_only_when_settled]); an engine that heartbeats is told to
    stop exactly the attempts whose leases were superseded, and stops them
    ([superseded_attempts_are_stopped]); a run starts only once admitted and
    pinned to the revision saved for it ([submitted_runs_are_pinned]). *)

From S2P Require Import Prelude Bytes Taint Lease Program Proto Dag RunStore Sched Fleet Registry Plane Control.
From S2P Require Import ControlFacts Engine PumpFacts Server.

Abbreviation vdid := (Program.did svop).

Section reports.
Context `{Payloads, Dynamic.GenCodec, ServerWire}.
Context (sha256 : string → string) (decode_command : string → option commandSpec) (cfg : Control.Config) (fuel : nat).

(** ** Reports *)

(** What became of a report whose application returned no error: its lease was
    superseded, it was no verdict, its verdict was appended, or the step had
    one already. *)
Definition accounted (st : JobStatus) (h : list Plane.did) : Prop :=
  ∃ tenant value fence, DecodeFence (js_FenceToken st) = Ok (tenant, (value, fence)) ∧
    ((∃ e, Did (OValidate (mkToken value fence)) (Err e) ∈ h ∧ Is e ErrFenced = true)
     ∨ terminalEvent (js_Phase st) = None
     ∨ ∃ kind, terminalEvent (js_Phase st) = Some kind ∧
        ((∃ ev, Did (OAppend tenant ev) (Ok tt) ∈ h ∧ ev_RunID ev = js_RunId st ∧ ev_StepID ev = js_StepId st
            ∧ ev_Attempt ev = js_Attempt st ∧ ev_Type ev = kind ∧ MarshalStatus st = Some (ev_Payload ev))
         ∨ ∃ state, loaded tenant (js_RunId st) state h ∧ is_Some (st_terminal state !! js_StepId st))).

Lemma accounted_OnStatus st h :
  safe no_guard (OnStatus sha256 decode_command cfg fuel (Some st)) (λ r h', r = Ok tt → accounted st h') h.
Proof.
  unfold OnStatus, fence_token. apply safe_gbind. destruct (DecodeFence _) as [[tenant [value fence]]|] eqn:Ed; [|done].
  case_decide; [done|]. apply safe_act_bind; [done|]. intros [[]|e].
  2: { destruct (Is e ErrFenced) eqn:Ef; [|done]. intros _. exists tenant, value, fence. split; [done|]. left. exists e.
       split; [apply snoc_elem|done]. }
  set (h1 := h ++ _). destruct (terminalEvent (js_Phase st)) as [kind|] eqn:Ek.
  2: { apply safe_any. intros r h' _ _. exists tenant, value, fence. split; [done|]. by right; left. }
  unfold apply_terminal, load. apply safe_gbind, safe_gbind, safe_wrap_act; [done| |done]. intros evs.
  unfold lift. destruct (load_events evs) as [state|] eqn:El; [|done]. cbn [cbind gret safe fst snd].
  assert (Hl : loaded tenant (js_RunId st) state (h1 ++ [Did (OReplay tenant (js_RunId st)) (Ok evs)])).
  { exists evs. split; [apply snoc_elem|done]. }
  case_decide as Ht.
  { apply safe_any. intros r h' He _. exists tenant, value, fence. split; [done|]. right; right. exists kind.
    split; [done|]. right. exists state. split; [|done]. destruct Hl as (evs' & Hin & Hle). exists evs'. split; [|done].
    by eapply extends_elem. }
  destruct (MarshalStatus st) as [payload|] eqn:Em; [|done].
  apply safe_gbind. unfold append_event. apply safe_act_bind; [done|]. intros t. apply safe_wrap_act; [done| |done]. intros [].
  apply safe_any. intros r h' He _. exists tenant, value, fence. split; [done|]. right; right. exists kind. split; [done|].
  left. eexists. split; [eapply extends_elem; [exact He|apply snoc_elem]|]. cbn. by rewrite Em.
Qed.

Lemma accounted_mono st h h' : extends h h' → accounted st h → accounted st h'.
Proof.
  intros [tr ->] (tenant & value & fence & Hd & Hor). exists tenant, value, fence. split; [done|].
  destruct Hor as [(e & Hin & Hf)|[Hn|(kind & Hk & Hor)]]; [left|by right; left|right; right].
  - exists e. split; [|done]. apply elem_of_app. by left.
  - exists kind. split; [done|]. destruct Hor as [(ev & Hin & Hev)|(state & (evs & Hin & Hl) & Hs)]; [left|right].
    + exists ev. split; [|done]. apply elem_of_app. by left.
    + exists state. split; [|done]. exists evs. split; [|done]. apply elem_of_app. by left.
Qed.

(** The messages handed to the loop, in order. *)
Definition handed (h : list vdid) : list string :=
  pick (λ X (o : svop X), match o with
    | inr_ o => match o in bop X return X → option string with
                | BNext => λ x, match x with Ok data => Some data | Err _ => None end
                | _ => λ _, None
                end
    | inl_ _ => λ _, None
    end) h.

(** The message in hand may be acknowledged. *)
Definition settled (h : list vdid) : Prop :=
  ∃ data, last (handed h) = Some data ∧
    match decode_status data with None => True | Some st => accounted st (lefts h) end.

Definition ack_guard : Program.guard svop := λ X o h, match o with inr_ BAck => settled h | _ => True end.

Lemma handed_plane h tr :
  Forall (λ '(Did o _), ∃ o', o = inl_ o') tr → handed (h ++ tr) = handed h.
Proof.
  intros Ht. unfold handed, pick. rewrite omap_app. enough (omap _ tr = []) as -> by apply app_nil_r.
  induction Ht as [|[X o x] tr [o' ->] _ IH]; [done|]. exact IH.
Qed.

Lemma safe_consume_one h : safe ack_guard (consume_one sha256 decode_command cfg fuel) (λ _ _, True) h.
Proof.
  unfold consume_one. apply safe_act_bind; [done|]. intros [data|e]; [|by apply safe_act_bind].
  destruct (decode_status data) as [st|] eqn:Ed.
  2: { apply safe_act_bind; [|done]. exists data. rewrite Ed. split; [|done]. unfold handed. rewrite pick_snoc. apply last_snoc. }
  apply safe_bind. unfold OnStatus_, sched. set (h1 := h ++ _).
  eapply safe_mono; [|apply (safe_lift no_guard); [done|apply accounted_OnStatus]].
  intros r h' [Hacc (tr & -> & Htr)]. cbv beta in Hacc. destruct r as [[]|e].
  - apply safe_act_bind; [|done]. exists data. rewrite Ed, handed_plane by done. split.
    + unfold h1, handed. rewrite pick_snoc. apply last_snoc.
    + by apply Hacc.
  - apply safe_act_bind; [done|]. intros []; [done|]. by apply safe_act_bind.
Qed.

Lemma safe_consume n h : safe ack_guard (consumeStatuses sha256 decode_command cfg fuel n) (λ _ _, True) h.
Proof.
  revert h. induction n as [|n IH]; intros h; cbn [consumeStatuses]; [done|]. apply safe_bind.
  eapply safe_mono; [|apply safe_consume_one]. intros [] h' _; [apply IH|done].
Qed.

(** C8: no engine report is lost: whatever the stores, the leases and the bus
    answer, the loop acknowledges a message only when its bytes are no report,
    or when the report is accounted for: its lease was superseded, it is not a
    verdict, its verdict is in the log with this very report as its payload, or
    the run's log had a verdict for the step. Any other message it gives back,
    or leaves unsettled for the bus to deliver again. *)
Theorem report_acked_only_when_settled n tr r pre x post :
  runs (consumeStatuses sha256 decode_command cfg fuel n) tr r → tr = pre ++ Did (inr_ BAck) x :: post → settled pre.
Proof.
  intros Hr Heq. exact (proj1 (safe_runs _ _ _ _ _ _ (safe_consume n []) Hr) _ _ _ _ _ Heq).
Qed.

(** A finding: a report whose fence token does not decode is given back for
    redelivery, each time it comes, whatever the plane's state. *)
Lemma poison_report_is_returned data st e (tr : list vdid) more :
  decode_status data = Some st → DecodeFence (js_FenceToken st) = Err e →
  runs (consume_one sha256 decode_command cfg fuel) (Did (inr_ BNext) (Ok data) :: tr) (Some more) →
  more = true → tr = [Did (inr_ BStopping) false; Did (inr_ BNak) tt].
Proof.
  intros Hd He Hr Hm.
  assert (Hs : safe no_guard (consume_one sha256 decode_command cfg fuel)
    (λ more h, ∀ tr, h = Did (inr_ BNext) (Ok data) :: tr → more = true →
       tr = [Did (inr_ BStopping) false; Did (inr_ BNak) tt]) []).
  { unfold consume_one. apply safe_act_bind; [done|]. intros [data'|e']; cbn [app].
    2: { apply safe_act_bind; [done|]. intros b tr' Heq _. exfalso.
         apply (f_equal handed) in Heq. unfold handed, pick in Heq. by cbn in Heq. }
    destruct (decide (data' = data)) as [->|Hne].
    - rewrite Hd. unfold OnStatus_, sched, OnStatus, fence_token. rewrite He. cbn [gfail gbind cbind lift_l].
      apply safe_act_bind; [done|]. intros []; cbn [app]; [done|]. apply safe_act_bind; [done|]. intros [].
      cbn [app]. intros tr' Heq _. apply (f_equal tail) in Heq. by cbn in Heq.
    - apply safe_any. intros b h' [tr0 ->] tr' Heq. exfalso. cbn [app] in Heq.
      apply (f_equal handed) in Heq. unfold handed, pick in Heq. cbn in Heq. by injection Heq. }
  destruct (safe_runs _ _ _ _ _ _ Hs Hr) as [_ Hq]. by apply (Hq more eq_refl tr).
Qed.

End reports.

(** ** Heartbeats *)

(** The renewal of a job's lease was refused as superseded. *)
Definition refused_renewal (j : Job) (h : list vdid) : Prop :=
  ∃ tenant value fence e, DecodeFence (job_FenceToken j) = Ok (tenant, (value, fence))
    ∧ Did (inl_ (ORenew (mkToken value fence))) (Err e) ∈ h ∧ Is e ErrFenced = true.

(** ... every time it was asked for. *)
Definition superseded (j : Job) (h : list vdid) : Prop :=
  ∃ tenant value fence, DecodeFence (job_FenceToken j) = Ok (tenant, (value, fence))
    ∧ ∀ x, Did (inl_ (ORenew (mkToken value fence))) x ∈ h → ∃ e, x = Err e ∧ Is e ErrFenced = true.

Definition cancel_guard (id : string) (jobs : list Job) : Program.guard svop := λ X o h,
  match o with
  | inr_ (BControl s c) => s = SubjectEngineControl id ∧ ∃ j, j ∈ jobs ∧ c = cancel_held j ∧ refused_renewal j h
  | _ => True
  end.

Definition renewed (id : string) (j : Job) (h : list vdid) : Prop :=
  ∀ tenant value fence, DecodeFence (job_FenceToken j) = Ok (tenant, (value, fence)) →
    ∃ x, Did (inl_ (ORenew (mkToken value fence))) x ∈ h ∧
      ∀ e, x = Err e → Is e ErrFenced = true →
        ∃ y, Did (inr_ (BControl (SubjectEngineControl id) (cancel_held j))) y ∈ h.

Lemma renewed_mono id j h h' : extends h h' → renewed id j h → renewed id j h'.
Proof.
  intros [tr ->] Hr tenant value fence Hd. destruct (Hr _ _ _ Hd) as (x & Hx & He). exists x.
  split; [apply elem_of_app; by left|]. intros e Hxe Hf. destruct (He e Hxe Hf) as [y Hy]. exists y. apply elem_of_app. by left.
Qed.

Lemma safe_renew_jobs id all jobs h :
  id ≠ "" → (∀ j, j ∈ jobs → j ∈ all) →
  safe (cancel_guard id all) (renew_jobs id jobs) (λ _ h', extends h h' ∧ ∀ j, j ∈ jobs → renewed id j h') h.
Proof.
  intros Hid. revert h. induction jobs as [|held jobs IH]; intros h Hall; cbn [renew_jobs].
  { split; [done|]. by intros j Hj%elem_of_nil. }
  assert (Hsub : ∀ j, j ∈ jobs → j ∈ all) by (intros j Hj; apply Hall; by right).
  assert (Hrest : ∀ h1, extends h h1 → renewed id held h1 →
    safe (cancel_guard id all) (renew_jobs id jobs) (λ _ h', extends h h' ∧ ∀ j, j ∈ held :: jobs → renewed id j h') h1).
  { intros h1 He Hheld. eapply safe_mono; [|by apply IH]. intros _ h' [He' Hj]. split; [by etrans|].
    intros j [->|Hj']%elem_of_cons; [by eapply renewed_mono|by apply Hj]. }
  destruct (DecodeFence (job_FenceToken held)) as [[tenant [value fence]]|err] eqn:Ed.
  2: { apply Hrest; [done|]. intros t v f Hd. congruence. }
  apply safe_act_bind; [done|]. intros [[]|e].
  - apply Hrest; [apply extends_snoc|]. intros t v f Hd. assert (v = value ∧ f = fence) as [-> ->] by (split; congruence).
    eexists. split; [apply snoc_elem|done].
  - destruct (Is e ErrFenced) eqn:Ef; cbn [cbind].
    + unfold fenceOut. rewrite decide_False by done. apply safe_act_bind.
      { split; [done|]. exists held. split; [apply Hall; by left|]. split; [done|]. exists tenant, value, fence, e.
        split; [done|]. split; [apply snoc_elem|done]. }
      intros y. cbn [cbind]. apply Hrest; [etrans; apply extends_snoc|].
      intros t v f Hd. assert (v = value ∧ f = fence) as [-> ->] by (split; congruence).
      exists (Err e). split; [apply elem_of_app; left; apply snoc_elem|]. intros e' _ _. exists y. apply snoc_elem.
    + apply Hrest; [apply extends_snoc|]. intros t v f Hd. assert (v = value ∧ f = fence) as [-> ->] by (split; congruence).
      eexists. split; [apply snoc_elem|]. intros e' [= <-]. congruence.
Qed.

Lemma safe_beat beat_ :
  hb_EngineId beat_ ≠ "" →
  safe (cancel_guard (hb_EngineId beat_) (hb_InFlight beat_)) (beat beat_)
    (λ _ h', ∀ j, j ∈ hb_InFlight beat_ → renewed (hb_EngineId beat_) j h') [].
Proof.
  intros Hid. unfold beat, renewHeld. apply safe_bind. eapply safe_mono; [|by apply safe_renew_jobs].
  intros _ h' [_ Hr]. apply safe_act_bind; [done|]. intros x. cbn [safe]. intros j Hj.
  eapply renewed_mono; [apply extends_snoc|by apply Hr].
Qed.

(** The cancels that reached one engine, in order: those published on the one
    subject it is subscribed to. *)
Definition reached (id : string) (h : list vdid) : list Cancel :=
  pick (λ X (o : svop X), match o with
    | inr_ o => match o in bop X return X → option Cancel with
                | BControl s c => λ x, if is_ok x && bool_decide (s = SubjectEngineControl id) then Some c else None
                | _ => λ _, None
                end
    | inl_ _ => λ _, None
    end) h.

Definition delivered (t : tables) (cs : list Cancel) : tables := foldl (λ t c, obey c t) t cs.

Definition cancel_key (c : Cancel) : string := jobKey (ca_RunId c) (ca_StepId c) (ca_Attempt c).

Lemma obey_keeps c t : t_jobs (obey c t) = t_jobs t ∧ t_inFlight (obey c t) = t_inFlight t.
Proof. unfold obey, stop. destruct (t_jobs t !! _); [case_decide|]; done. Qed.

Lemma delivered_keeps t cs :
  t_jobs (delivered t cs) = t_jobs t ∧ t_inFlight (delivered t cs) = t_inFlight t.
Proof.
  revert t. induction cs as [|c cs IH]; intros t; [done|]. cbn [delivered foldl].
  destruct (IH (obey c t)) as [E1 E2], (obey_keeps c t) as [E3 E4]. split; [by etrans; [exact E1|]|by etrans; [exact E2|]].
Qed.

Lemma reached_elem id h c :
  c ∈ reached id h ↔ Did (inr_ (BControl (SubjectEngineControl id) c)) (Ok tt) ∈ h.
Proof.
  unfold reached. split.
  - intros Hc. apply pick_elem in Hc as (X & o & x & Hin & Ho). destruct o as [o|o]; [done|].
    destruct o as [| | | | | |s c'| | | | | |]; try done. cbn in Ho. destruct x as [[]|e]; [|done]. cbn in Ho.
    case_bool_decide as Hs; [|done]. by simplify_eq.
  - intros Hin. apply pick_elem. do 3 eexists. split; [exact Hin|]. cbn. by rewrite bool_decide_true.
Qed.

Lemma delivered_cancelled t cs job :
  job ∈ t_cancelled (delivered t cs) ↔
  job ∈ t_cancelled t ∨ ∃ c cn, c ∈ cs ∧ t_jobs t !! cancel_key c = Some cn ∧ cn_job cn = job
    ∧ (ca_FenceToken c = "" ∨ cn_fence cn = ca_FenceToken c).
Proof.
  revert t. induction cs as [|c cs IH]; intros t; cbn [delivered foldl].
  { split; [by left|]. intros [?|(c & cn & Hc%elem_of_nil & _)]; done. }
  change (foldl (λ t c, obey c t) (obey c t) cs) with (delivered (obey c t) cs). rewrite IH, (proj1 (obey_keeps c t)).
  assert (Hc : job ∈ t_cancelled (obey c t) ↔ job ∈ t_cancelled t ∨ ∃ cn, t_jobs t !! cancel_key c = Some cn
    ∧ cn_job cn = job ∧ (ca_FenceToken c = "" ∨ cn_fence cn = ca_FenceToken c)).
  { unfold obey, stop. fold (cancel_key c). destruct (t_jobs t !! cancel_key c) as [cn|] eqn:Ec; cbn [fst].
    - case_decide as Hd; cbn [fst t_cancelled].
      + split; [by left|]. intros [?|(cn' & [= <-] & _ & Hor)]; [done|]. destruct Hd, Hor; done.
      + rewrite elem_of_cons. split.
        * intros [->|?]; [right|by left]. exists cn. split_and!; [done..|].
          destruct (decide (ca_FenceToken c = "")) as [?|Hne]; [by left|right]. apply dec_stable. tauto.
        * intros [?|(cn' & [= <-] & <- & _)]; [by right|by left].
    - split; [by left|]. intros [?|(cn' & Hcn & _)]; done. }
  rewrite Hc. setoid_rewrite elem_of_cons. split.
  - intros [[?|(cn & Hcn)]|(c' & cn & Hin & Hcn)]; [by left|right; exists c, cn; split; [by left|done]|].
    right. exists c', cn. split; [by right|done].
  - intros [?|(c' & cn & [->|Hin] & Hcn)]; [by left; left|left; right; by exists cn|right; by exists c', cn].
Qed.

Lemma snapshot_elem t key j : t_inFlight t !! key = Some j → j ∈ snapshot t.
Proof.
  intros Hj. unfold snapshot. rewrite merge_sort_Permutation. apply list_elem_of_fmap. exists (key, j). split; [done|].
  by apply elem_of_map_to_list.
Qed.

(** C9: an engine is told to stop exactly the attempts it has been overtaken
    in, and stops them. In handling an engine's heartbeat a plane sends no
    control message but on that engine's own subject, and each is the cancel
    of a job the heartbeat named, under the fence it named, whose renewal was
    refused as superseded. Every job the engine holds whose lease the lease
    manager calls superseded has such a cancel sent for it; once that has
    reached the engine, the job's context is cancelled. No other job's is, and
    no job leaves the engine's tables. *)
Theorem superseded_attempts_are_stopped id t tr :
  id ≠ "" → runs (beat (heartbeat id t)) tr (Some tt) →
  (∀ s c x, Did (inr_ (BControl s c)) x ∈ tr →
     s = SubjectEngineControl id ∧ ∃ j, j ∈ snapshot t ∧ c = cancel_held j ∧ refused_renewal j tr)
  ∧ (∀ d job, t_inFlight t !! key_of d = Some (in_flight d) →
       t_jobs t !! key_of d = Some (mkCancellable job (jd_FenceToken d)) → superseded (in_flight d) tr →
       ∃ x, Did (inr_ (BControl (SubjectEngineControl id) (cancel_held (in_flight d)))) x ∈ tr
         ∧ (x = Ok tt → job ∈ t_cancelled (delivered t (reached id tr))))
  ∧ (∀ job, job ∈ t_cancelled (delivered t (reached id tr)) → job ∈ t_cancelled t ∨
       ∃ j cn, j ∈ snapshot t ∧ refused_renewal j tr ∧ cn_job cn = job
         ∧ t_jobs t !! jobKey (job_RunID j) (job_StepID j) (job_Attempt j) = Some cn)
  ∧ t_jobs (delivered t (reached id tr)) = t_jobs t ∧ t_inFlight (delivered t (reached id tr)) = t_inFlight t.
Proof.
  intros Hid Hr. destruct (safe_runs _ _ _ _ _ _ (safe_beat (heartbeat id t) Hid) Hr) as [Hg Hq].
  specialize (Hq tt eq_refl). cbn [hb_EngineId hb_InFlight heartbeat app] in *.
  assert (Hsent : ∀ s c x, Did (inr_ (BControl s c)) x ∈ tr →
     s = SubjectEngineControl id ∧ ∃ j, j ∈ snapshot t ∧ c = cancel_held j ∧ refused_renewal j tr).
  { intros s c x Hin. apply list_elem_of_split in Hin as (pre & post & Heq).
    specialize (Hg _ _ _ _ _ Heq) as (-> & j & Hj & -> & tn & v & f & e & Hd & Hin & He). split; [done|]. exists j.
    split_and!; [done..|]. exists tn, v, f, e. split_and!; [done| |done]. rewrite Heq. apply elem_of_app. by left. }
  split; [exact Hsent|]. split; [|split; [|apply delivered_keeps]].
  - intros d job Hf Hj (tenant & value & fence & Hd & Hall).
    destruct (Hq (in_flight d)) with tenant value fence as (x & Hx & He); [by eapply snapshot_elem|done|].
    destruct (Hall x Hx) as (e & -> & Hfe). destruct (He e eq_refl Hfe) as [y Hy]. exists y. split; [exact Hy|]. intros ->.
    apply delivered_cancelled. right. exists (cancel_held (in_flight d)), (mkCancellable job (jd_FenceToken d)).
    split_and!; [by apply reached_elem|exact Hj|done|by right].
  - intros job [Hc|(c & cn & Hc & Hj & Hcn & _)]%delivered_cancelled; [by left|right].
    apply reached_elem, Hsent in Hc as (_ & j & Hj' & -> & Href). by exists j, cn.
Qed.

(** ** Submissions *)

Section submissions.
Context `{Payloads, Dynamic.GenCodec, ServerWire}.
Context (sha256 : string → string) (decode_command : string → option commandSpec) (cfg : Control.Config) (fuel : nat)
  (MarshalRunCreated : RunCreatedP → option string).
Context (s : submitter) (tenant : string) (p : option Pipeline) (inputs : gmap string Value) (startedBy : string).

(** A run's admission was asked for under the id it would have. *)
Definition admitted (id : string) (h : list vdid) : Prop :=
  Did (inr_ BRandomID) id ∈ h ∧ (sm_quotas s = true → Did (inr_ (BAdmitRun tenant ("run_" +:+ id))) (Ok None) ∈ h).

(** The event that creates the run, pinned to the revision saved for it. *)
Definition pinned_creation (e : Event) (h : list vdid) : Prop :=
  ∃ id p' revision, admitted id h ∧ p = Some p' ∧ TypeCheck p = []
    ∧ Did (inr_ (BSave tenant p' "system")) (Ok revision) ∈ h
    ∧ ev_RunID e = "run_" +:+ id ∧ ev_Type e = RunCreated ∧ ev_Sequence e = 0
    ∧ MarshalRunCreated (mkRunCreated (pl_id p') revision inputs startedBy) = Some (ev_Payload e).

Definition created (e : Event) (h : list vdid) : Prop :=
  Did (inl_ (OAppend tenant e)) (Ok tt) ∈ h ∧ pinned_creation e h.

Definition submit_guard : Program.guard svop := λ X o h,
  match o with
  | inr_ (BSave t p' author) => t = tenant ∧ p = Some p' ∧ TypeCheck p = [] ∧ ∃ id, admitted id h
  | inl_ ONow => True
  | inl_ (OAppend t e) => (t = tenant ∧ pinned_creation e h)
      ∨ ∃ e, created e h ∧ (sm_partitioned s = true → Did (inr_ (BOwns (ev_RunID e))) true ∈ h)
  | inl_ _ => ∃ e, created e h ∧ (sm_partitioned s = true → Did (inr_ (BOwns (ev_RunID e))) true ∈ h)
  | inr_ _ => True
  end.

(** What the log took. *)
Definition taken (h : list vdid) : list Event :=
  pick (λ X (o : svop X), match o with
    | inl_ o => match o in Plane.op X return X → option Event with
                | OAppend _ e => λ x, if is_ok x then Some e else None
                | _ => λ _, None
                end
    | inr_ _ => λ _, None
    end) h.

(** What the caller is told. *)
Definition submitted (r : string * option SubmitErr) (h : list vdid) : Prop :=
  if decide (r.1 = "") then r.2 ≠ None ∧ taken h = [] else ∃ e, created e h ∧ ev_RunID e = r.1.

Lemma admitted_mono id h h' : extends h h' → admitted id h → admitted id h'.
Proof.
  intros He [Hr Ha]. split; [by eapply extends_elem|]. intros Hq. eapply extends_elem; [exact He|by apply Ha].
Qed.

Lemma pinned_mono e h h' : extends h h' → pinned_creation e h → pinned_creation e h'.
Proof.
  intros He (id & p' & rev & Ha & Hp & Ht & Hs & Hev). exists id, p', rev.
  split; [by eapply admitted_mono|]. do 2 (split; [done|]). split; [by eapply extends_elem|done].
Qed.

Lemma created_mono e h h' : extends h h' → created e h → created e h'.
Proof. intros He [Hin Hp]. split; [by eapply extends_elem|by eapply pinned_mono]. Qed.

Lemma guard_created X (o : Plane.op X) e h :
  created e h → (sm_partitioned s = true → Did (inr_ (BOwns (ev_RunID e))) true ∈ h) → submit_guard X (inl_ o) h.
Proof. intros Hc Ho. destruct o; cbn; eauto. Qed.

Lemma run_id_nonempty id : "run_" +:+ id ≠ "".
Proof. done. Qed.

Lemma safe_create_run id p' revision h :
  p = Some p' → TypeCheck p = [] → admitted id h → Did (inr_ (BSave tenant p' "system")) (Ok revision) ∈ h → taken h = [] →
  safe submit_guard (create_run sha256 decode_command cfg fuel MarshalRunCreated s tenant ("run_" +:+ id) p' inputs startedBy revision)
    submitted h.
Proof.
  intros Hp Ht Ha Hs Htk. unfold create_run. destruct (MarshalRunCreated _) as [payload|] eqn:Em; [|split; done].
  apply safe_act_bind; [done|]. intros at_. unfold or_fail, plane, own_.
  set (e := mkEvent _ _ _ _ _ _ _). set (h1 := h ++ _).
  assert (He : pinned_creation e h1).
  { exists id, p', revision. split; [eapply admitted_mono; [apply extends_snoc|done]|]. do 2 (split; [done|]).
    split; [eapply extends_elem; [apply extends_snoc|done]|done]. }
  assert (Htk1 : taken h1 = []).
  { unfold h1, taken. rewrite pick_snoc. fold (taken h). by rewrite Htk. }
  apply safe_act_bind; [by left|]. intros [[]|err]; cbn [cbind].
  2: { split; [done|]. unfold taken. rewrite pick_snoc. fold (taken h1). by rewrite Htk1. }
  set (h2 := h1 ++ _).
  assert (Hc : created e h2) by (split; [apply snoc_elem|eapply pinned_mono; [apply extends_snoc|done]]).
  assert (Hdone : ∀ err h', extends h2 h' → submitted ("run_" +:+ id, err) h').
  { intros err h' Hx. unfold submitted. cbn [fst]. rewrite decide_False by apply run_id_nonempty. exists e.
    split; [by eapply created_mono|done]. }
  assert (Hadv : ∀ h', extends h2 h' → (sm_partitioned s = true → Did (inr_ (BOwns (ev_RunID e))) true ∈ h') →
    safe submit_guard (r <- Advance_ sha256 decode_command cfg fuel tenant ("run_" +:+ id);;
      Done ("run_" +:+ id, match r with Ok _ => None | Err e => Some (SubmitFailed e) end)) submitted h').
  { intros h' Hx Ho. apply safe_bind. apply safe_lift_any.
    - intros X o h'' Hx'. apply (guard_created _ _ e); [apply (created_mono _ h2); [by etrans|done]|].
      intros Hpart. eapply extends_elem; [exact Hx'|by apply Ho].
    - intros r h'' Hx'. apply Hdone. by etrans. }
  unfold ownsRun. destruct (sm_partitioned s) eqn:Epart; cbn [negb cbind].
  - apply safe_act_bind; [done|]. intros []; cbn [negb]; [|apply Hdone, extends_snoc].
    apply Hadv; [apply extends_snoc|]. intros _. apply snoc_elem.
  - by apply Hadv.
Qed.

Lemma safe_submit :
  safe submit_guard (SubmitWithInputs sha256 decode_command cfg fuel MarshalRunCreated s tenant p inputs startedBy) submitted [].
Proof.
  unfold SubmitWithInputs. destruct (sm_running s); cbn [negb]; [|split; done]. case_decide; [split; done|].
  destruct p as [p'|] eqn:Ep; [|split; done]. case_decide as Ht; [split; done|].
  apply safe_act_bind; [done|]. intros id. cbn [app].
  assert (Hgo : ∀ h, admitted id h → taken h = [] →
    safe submit_guard (or_fail (own_ (BSave tenant p' "system"))
      (create_run sha256 decode_command cfg fuel MarshalRunCreated s tenant ("run_" +:+ id) p' inputs startedBy) SubmitFailed) submitted h).
  { intros h Ha Htk. unfold or_fail. apply safe_act_bind.
    { split_and!; [done|done| |by exists id]. by rewrite Ep. }
    intros [rev|err].
    - apply safe_create_run; [done|by rewrite Ep| |apply snoc_elem|].
      + eapply admitted_mono; [apply extends_snoc|done].
      + unfold taken. rewrite pick_snoc. fold (taken h). by rewrite Htk.
    - split; [done|]. unfold taken. rewrite pick_snoc. fold (taken h). by rewrite Htk. }
  destruct (sm_quotas s) eqn:Eq; cbn [negb].
  - unfold or_fail at 1. apply safe_act_bind; [done|]. intros [[reason|]|err]; cbn [app cbind]; [split; done| |split; done].
    apply Hgo; [|done]. split; [by left|]. intros _. by right; left.
  - apply Hgo; [|done]. split; [by left|]. congruence.
Qed.

(** a run starts only once it was admitted and its definition is a saved
    revision. Whatever the calls answer: the definition is saved only after it
    type-checks and the quotas admitted the run under the id it gets; the event
    that creates the run pins exactly the revision that save returned; nothing
    of the run is advanced before that event is in the log, nor by a plane
    that did not own it; and the caller is given an id if and only if the log
    took that event - an error without an id left no run behind. *)
Theorem submitted_runs_are_pinned tr r :
  runs (SubmitWithInputs sha256 decode_command cfg fuel MarshalRunCreated s tenant p inputs startedBy) tr r →
  (∀ pre X (o : svop X) x post, tr = pre ++ Did o x :: post → submit_guard X o pre)
  ∧ (∀ a, r = Some a → submitted a tr).
Proof. intros Hr. exact (safe_runs _ _ _ _ _ _ safe_submit Hr). Qed.

End submissions.

(** ** Examples *)

Definition ex_report : JobStatus :=
  mkJobStatus "r1" "build" 1 (EncodeFence "t" "lease" 1) PHASE_SUCCEEDED 0 [] "" "".

#[local] Instance ex_wire : ServerWire :=
  {| DecodeEngineMessage _ := None; decode_registration _ := None; decode_heartbeat _ := None;
     decode_status _ := Some ex_report |}.

(** A plane whose leases under the value "old" were superseded. *)
Definition ex_plane (X : Type) (o : svop X) (w : world) : world * X :=
  match o with
  | inl_ o =>
      match o in Plane.op X return (world * X → world * X) with
      | ORenew t => λ d, if decide (tk_Value t = "old") then (w, Err ErrFenced) else d
      | _ => λ d, d
      end (ex_answer X o w)
  | inr_ o =>
      match o in bop X return world * X with
      | BNext => (w, Ok "report")
      | BAck | BNak => (w, tt)
      | BStopping => (w, false)
      | BRegister _ | BHeartbeat _ => (w, Ok tt)
      | BControl _ _ => (w, Ok tt)
      | BOpenRuns _ => (w, Ok ["r1"])
      | BOwns _ => (w, true)
      | BRevokeClosedRuns => (w, (0, None))
      | BRandomID => (w, "1f")
      | BAdmitRun _ _ => (w, Ok None)
      | BSave _ _ _ => (w, Ok "rev1")
      end
  end.

Definition ex_consuming : list vdid :=
  trace_of ex_plane (consumeStatuses (λ s, s) (λ _, None) ex_config 1 1) (ex_world [("build", StepDispatched)]).
Definition ex_pre_ack : list vdid := firstn 30 ex_consuming.
Lemma ex_consuming_runs : runs (consumeStatuses (λ s, s) (λ _, None) ex_config 1 1) ex_consuming
  (Some (snd (drive ex_plane (consumeStatuses (λ s, s) (λ _, None) ex_config 1 1) (ex_world [("build", StepDispatched)])))).
Proof. apply trace_of_runs. Qed.
Lemma ex_consuming_acks : ex_consuming = ex_pre_ack ++ Did (inr_ BAck) tt :: [].
Proof. vm_compute. reflexivity. Qed.

Lemma report_acked_only_when_settled_witness : settled ex_pre_ack ∧ length ex_pre_ack = 30%nat.
Proof.
  split; [|by vm_compute].
  exact (report_acked_only_when_settled (λ s, s) (λ _, None) ex_config 1 1 ex_consuming _ ex_pre_ack tt []
    ex_consuming_runs ex_consuming_acks).
Defined.

Definition ex_held (run value : string) : JobDispatch :=
  {| jd_RunId := run; jd_StepId := "build"; jd_Attempt := 1; jd_FenceToken := EncodeFence "t" value 1;
     jd_Step := bare_step "build" EFFECT_CLASS_PURE; jd_Inputs := []; jd_Secrets := []; jd_OutputPrefix := "";
     jd_ProtocolVersion := 3; jd_Tenant := "t"; jd_Command := []; jd_Env := ∅; jd_ConfirmAcceptance := false |}.
Definition ex_overtaken : JobDispatch := ex_held "r1" "old".
Definition ex_current : JobDispatch := ex_held "r2" "new".

(** An engine running both: job 1 was overtaken, job 2 was not. *)
Definition ex_tables : tables :=
  add (key_of ex_current) (jd_FenceToken ex_current) 2 (add (key_of ex_overtaken) (jd_FenceToken ex_overtaken) 1
    (hold ex_current (hold ex_overtaken no_jobs))).
Definition ex_beating : list vdid := trace_of ex_plane (beat (heartbeat "e1" ex_tables)) (ex_world []).
Lemma ex_beating_runs : runs (beat (heartbeat "e1" ex_tables)) ex_beating (Some tt).
Proof. exact (trace_of_runs ex_plane (beat (heartbeat "e1" ex_tables)) (ex_world [])). Qed.

(** A check of every call of a concrete trace. *)
Definition every (P : vdid → bool) (h : list vdid) : bool := forallb P h.
Lemma every_elem P h d : every P h = true → d ∈ h → P d = true.
Proof. unfold every. intros Hall Hd. rewrite forallb_forall in Hall. by apply Hall, list_elem_of_In. Qed.

Definition fenced_ok (d : vdid) : bool :=
  match d with
  | Did o x =>
      match o with
      | inl_ o => match o in Plane.op X return X → bool with
                  | ORenew t => λ x, negb (bool_decide (tk_Value t = "old")) || match x with Ok _ => false | Err e => Is e ErrFenced end
                  | _ => λ _, true
                  end
      | inr_ _ => λ _, true
      end x
  end.
Lemma ex_superseded : superseded (in_flight ex_overtaken) ex_beating.
Proof.
  exists "t", "old", 1. split; [by vm_compute|]. intros x Hin. apply (every_elem fenced_ok) in Hin; [|by vm_compute].
  cbn [fenced_ok] in Hin. rewrite bool_decide_true in Hin by done. cbn in Hin. destruct x as [[]|e]; [done|by exists e].
Qed.

Lemma superseded_attempts_are_stopped_witness :
  (∃ x, Did (inr_ (BControl (SubjectEngineControl "e1") (cancel_held (in_flight ex_overtaken)))) x ∈ ex_beating
     ∧ (x = Ok tt → 1%nat ∈ t_cancelled (delivered ex_tables (reached "e1" ex_beating))))
  ∧ t_cancelled (delivered ex_tables (reached "e1" ex_beating)) = [1%nat].
Proof.
  split; [|by vm_compute].
  exact (proj1 (proj2 (superseded_attempts_are_stopped "e1" ex_tables ex_beating ltac:(done) ex_beating_runs))
    ex_overtaken 1%nat ltac:(by vm_compute) ltac:(by vm_compute) ex_superseded).
Defined.

Definition ex_submitter : submitter := mkSubmitter true true true.
Definition ex_submission : vcmd (string * option SubmitErr) :=
  SubmitWithInputs (λ s, s) (λ _, None) ex_config 1 (λ _, Some "created") ex_submitter "t" (Some ex_authored) ∅ "".
Definition ex_submitting : list vdid := trace_of ex_plane ex_submission (mkWorld empty_db empty_db 0 []).
Definition ex_submit_answer : string * option SubmitErr := snd (drive ex_plane ex_submission (mkWorld empty_db empty_db 0 [])).
Lemma ex_submitting_runs : runs ex_submission ex_submitting (Some ex_submit_answer).
Proof. exact (trace_of_runs ex_plane ex_submission (mkWorld empty_db empty_db 0 [])). Qed.

Lemma submitted_runs_are_pinned_witness :
  ex_submit_answer.1 = "run_1f"
  ∧ submitted (λ _, Some "created") ex_submitter "t" (Some ex_authored) ∅ "" ex_submit_answer ex_submitting.
Proof.
  split; [by vm_compute|].
  exact (proj2 (submitted_runs_are_pinned (λ s, s) (λ _, None) ex_config 1 (λ _, Some "created") ex_submitter "t"
    (Some ex_authored) ∅ "" ex_submitting (Some ex_submit_answer) ex_submitting_runs) _ eq_refl).
Defined.
