(* ===== verification/Partition.v ===== *)
(** * Which plane advances a run: [internal/server/partition.go]

    A run hashes to one of a fixed number of partitions ([PartitionFor]); the
    planes of a deployment claim partitions in a bucket they share, each claim
    a record with its own deadline, every write to one at the revision it was
    read at. [ClaimPartitions] is the whole protocol: announce, read, give back
    the surplus, renew, take what nobody live holds. The plane's own view of
    what it holds is replaced and narrowed by calls ([PPublish], [PForget]),
    since [Owns] reads it from other goroutines at any time. JSON is a
    parameter; the clock is each plane's own. *)

From S2P Require Import Prelude Bytes Program Bucket.

(** ** The run's partition *)

(** [hash/fnv]: FNV-1a over 64 bits. *)
Definition fnv_offset : Z := 14695981039346656037.
Definition fnv_prime : Z := 1099511628211.
Fixpoint fnv64a (h : Z) (s : string) : Z :=
  match s with
  | EmptyString => h
  | String c s => fnv64a (u64 (Z.lxor h (byte_val c) * fnv_prime)) s
  end.

Definition PartitionFor (runID : string) (n : Z) : Z := if decide (n ≤ 0) then 0 else fnv64a fnv_offset runID mod n.

Definition PartitionCount : Z := 64.
Definition defaultPartitionTTL : Z := 6 * 1000000000.

(** ** Records *)

Record partitionRecord : Type := mkPartition
  { pt_DeploymentID : string; pt_InstanceID : string; pt_Partition : Z; pt_ExpiresAt : Z }.

Class PartitionJSON : Type := { enc_partition : partitionRecord → string; dec_partition : string → option partitionRecord }.
Class PartitionJSONLaws `{PartitionJSON} : Prop := dec_enc_partition r : dec_partition (enc_partition r) = Some r.

Record ownership : Type := mkOwnership { ow_instance : string; ow_expiresAt : Z; ow_revision : Z }.

Inductive PartErr : Type :=
| DeploymentRequired | TTLNotPositive | CountNotPositive
| InstanceRequired
| Announcing (e : KVErr)
| PartListing (e : KVErr)
| PartReading (key : string) (e : KVErr)
| PartDecoding (key : string)
| WrongDeployment (key deployment : string).

(** ** Calls *)

Inductive parop : Type → Type :=
| PNow : parop Z
| PForget (part : Z) : parop unit
| PPublish (parts : list Z) : parop unit.

Abbreviation ptop := (plus bkop parop).
Abbreviation ptcmd := (Program.cmd ptop).
Definition kv {X} (o : bkop X) : ptcmd X := act (inl_ o).
Definition own_view {X} (o : parop X) : ptcmd X := act (inr_ o).

Section Partition.
Context `{PartitionJSON} (deploymentID : string) (count ttl : Z).

(** [NewPartitioner]'s checks. *)
Definition NewPartitioner : result PartErr unit :=
  if decide (deploymentID = "") then Err DeploymentRequired
  else if decide (ttl ≤ 0) then Err TTLNotPositive
  else if decide (count ≤ 0) then Err CountNotPositive
  else Ok tt.

(** ** Keys *)

Definition claimKeyPrefix : string := "part.".
Definition memberKeyPrefix : string := "member.".
Definition encodePartitionSegment (segment : string) : string := b64_encode segment.

Definition claimsOf : string := claimKeyPrefix +:+ encodePartitionSegment deploymentID +:+ ".".
Definition membersOf : string := memberKeyPrefix +:+ encodePartitionSegment deploymentID +:+ ".".
Definition claimKey (part : Z) : string := claimsOf +:+ dec_Z part.
Definition memberKey (instanceID : string) : string := membersOf +:+ encodePartitionSegment instanceID.

(** ** Reading the bucket *)

Definition expired (deadline : Z) : ptcmd bool := now <- own_view PNow;; Done (bool_decide (deadline < now)).
Definition deadline : ptcmd Z := now <- own_view PNow;; Done (now + ttl).

Fixpoint read_keys (prefix : string) (keys : list string) (out : list (partitionRecord * Z))
    : ptcmd (result PartErr (list (partitionRecord * Z))) :=
  match keys with
  | [] => Done (Ok out)
  | key :: keys =>
      if negb (has_prefix prefix key) then read_keys prefix keys out
      else
        entry <- kv (BkGet key);;
        match entry with
        | Err e => Done (Err (PartReading key e))
        | Ok None => read_keys prefix keys out
        | Ok (Some (v, rev)) =>
            match dec_partition v with
            | None => Done (Err (PartDecoding key))
            | Some rec =>
                if decide (pt_DeploymentID rec ≠ deploymentID)
                then Done (Err (WrongDeployment key (pt_DeploymentID rec)))
                else read_keys prefix keys (out ++ [(rec, rev)])
            end
        end
  end.

Definition records (prefix : string) : ptcmd (result PartErr (list (partitionRecord * Z))) :=
  keys <- kv (BkListKeys ">");;
  match keys with
  | Err e => Done (Err (PartListing e))
  | Ok keys => read_keys prefix keys []
  end.

Definition announce (instanceID : string) : ptcmd (result PartErr unit) :=
  at_ <- deadline;;
  r <- kv (BkPut (memberKey instanceID) (enc_partition (mkPartition deploymentID instanceID 0 at_)));;
  Done (match r with Ok _ => Ok tt | Err e => Err (Announcing e) end).

Fixpoint live_members (instanceID : string) (recs : list (partitionRecord * Z)) (members : list string)
    : ptcmd (list string) :=
  match recs with
  | [] => Done members
  | (rec, _) :: recs =>
      if decide (pt_InstanceID rec = instanceID) then live_members instanceID recs members
      else
        dead <- expired (pt_ExpiresAt rec);;
        live_members instanceID recs (if dead : bool then members else members ++ [pt_InstanceID rec])
  end.

Definition liveMembers (instanceID : string) : ptcmd (result PartErr (list string)) :=
  r <- records membersOf;;
  match r with
  | Err e => Done (Err e)
  | Ok recs =>
      members <- live_members instanceID recs [instanceID];;
      Done (Ok (compact (merge_sort String.le members)))
  end.

Definition owner_of (m : gmap Z ownership) (r : partitionRecord * Z) : gmap Z ownership :=
  let part := pt_Partition r.1 in
  if decide (part < 0 ∨ count ≤ part) then m
  else <[part := mkOwnership (pt_InstanceID r.1) (pt_ExpiresAt r.1) r.2]> m.

Definition owners : ptcmd (result PartErr (gmap Z ownership)) :=
  r <- records claimsOf;;
  Done (match r with Err e => Err e | Ok recs => Ok (foldl owner_of ∅ recs) end).

(** ** Writing it *)

(** [write]: whether the write landed, as far as this plane was told. *)
Definition write_claim (instanceID : string) (part : Z) (revision : Z) (exists_ : bool) : ptcmd bool :=
  at_ <- deadline;;
  let data := enc_partition (mkPartition deploymentID instanceID part at_) in
  r <- kv (if exists_ then BkUpdate (claimKey part) data revision else BkCreate (claimKey part) data);;
  Done (is_ok r).

Definition release_claim (part revision : Z) : ptcmd unit :=
  _ <- kv (BkDelete (claimKey part) revision);; Done tt.

(** ** [ClaimPartitions] *)

Definition parts_of (count : Z) : list Z := map Z.of_nat (seq 0 (Z.to_nat count)).

(** What is recorded as this instance's and has not expired. *)
Fixpoint mine_of (instanceID : string) (own : gmap Z ownership) (parts : list Z) (mine : list Z) : ptcmd (list Z) :=
  match parts with
  | [] => Done mine
  | part :: parts =>
      match own !! part with
      | None => mine_of instanceID own parts mine
      | Some o =>
          if decide (ow_instance o ≠ instanceID) then mine_of instanceID own parts mine
          else
            dead <- expired (ow_expiresAt o);;
            mine_of instanceID own parts (if dead : bool then mine else mine ++ [part])
      end
  end.

Definition revision_of (own : gmap Z ownership) (part : Z) : Z := default 0 (ow_revision <$> own !! part).

(** The surplus goes back, last first; [surplus] is how many are over. *)
Fixpoint give_back (own : gmap Z ownership) (surplus : nat) (mine : list Z) : ptcmd (list Z) :=
  match surplus with
  | O => Done mine
  | S surplus =>
      match last mine with
      | None => Done mine
      | Some part =>
          _ <- own_view (PForget part);;
          _ <- release_claim part (revision_of own part);;
          give_back own surplus (removelast mine)
      end
  end.

Fixpoint renew_mine (instanceID : string) (own : gmap Z ownership) (parts : list Z) (kept : list Z) : ptcmd (list Z) :=
  match parts with
  | [] => Done kept
  | part :: parts =>
      ok <- write_claim instanceID part (revision_of own part) true;;
      if ok : bool then renew_mine instanceID own parts (kept ++ [part])
      else _ <- own_view (PForget part);; renew_mine instanceID own parts kept
  end.

(** The free ones, in the order given, until the share is full. *)
Fixpoint take_free (instanceID : string) (own : gmap Z ownership) (share : Z) (parts : list Z) (mine : list Z)
    : ptcmd (list Z) :=
  match parts with
  | [] => Done mine
  | part :: parts =>
      if decide (share ≤ Z.of_nat (length mine)) then Done mine
      else if decide (part ∈ mine) then take_free instanceID own share parts mine
      else
        free <- (match own !! part with Some o => expired (ow_expiresAt o) | None => Done true end);;
        if negb free then take_free instanceID own share parts mine
        else
          ok <- write_claim instanceID part (revision_of own part) (bool_decide (is_Some (own !! part)));;
          take_free instanceID own share parts (if ok : bool then mine ++ [part] else mine)
  end.

Definition index_of (x : string) (l : list string) : Z := match list_find (x =.) l with Some (i, _) => Z.of_nat i | None => -1 end.

(** The order this plane looks for free partitions in: from where its share
    begins, round the ring. *)
Definition probe_order (members : list string) (instanceID : string) : list Z :=
  let start := index_of instanceID members * count / Z.of_nat (length members) in
  map (λ offset, (start + offset) mod count) (parts_of count).

(** The ceiling, so that the shares cover the ring. *)
Definition share_of (members : Z) : Z := (count + members - 1) / members.

Definition ClaimPartitions (instanceID : string) : ptcmd (result PartErr (list Z)) :=
  if decide (instanceID = "") then Done (Err InstanceRequired)
  else
    announced <- announce instanceID;;
    match announced with
    | Err e => Done (Err e)
    | Ok _ =>
        members <- liveMembers instanceID;;
        match members with
        | Err e => Done (Err e)
        | Ok members =>
            own <- owners;;
            match own with
            | Err e => Done (Err e)
            | Ok own =>
                let share := share_of (Z.of_nat (length members)) in
                mine <- mine_of instanceID own (parts_of count) [];;
                mine <- give_back own (length mine - Z.to_nat share) (merge_sort Z.le mine);;
                mine <- renew_mine instanceID own mine [];;
                mine <- take_free instanceID own share (probe_order members instanceID) mine;;
                let mine := merge_sort Z.le mine in
                _ <- own_view (PPublish mine);;
                Done (Ok mine)
            end
        end
    end.

(** [renewLoop]: one claim after another, whatever came of each. *)
Fixpoint claim_rounds (n : nat) (instanceID : string) : ptcmd unit :=
  match n with
  | O => Done tt
  | S n => _ <- ClaimPartitions instanceID;; claim_rounds n instanceID
  end.

(** ** The plane's own view *)

(** [publish], [forget]. *)
Definition view_step (view : gset Z) (d : Program.did ptop) : gset Z :=
  match d with
  | Did (inr_ o) _ => match o with PPublish parts => list_to_set parts | PForget part => view ∖ {[part]} | PNow => view end
  | Did (inl_ _) _ => view
  end.
Definition view_after (h : list (Program.did ptop)) : gset Z := foldl view_step ∅ h.

Definition Owns (view : gset Z) (runID : string) : bool := bool_decide (PartitionFor runID count ∈ view).
Definition Held (view : gset Z) : list Z := merge_sort Z.le (elements view).

End Partition.
