(* ===== verification/PartitionFacts.v ===== *)
(** * What a claim on a partition is worth

    A claim is taken from another plane only once its deadline has passed on
    the taker's clock, and given up only by its owner, whatever any number of
    planes do ([live_claims_are_respected]); what a plane publishes as its own
    it has claimed in that very pass, no more than its share, and what it gives
    up it stops advancing first ([published_parts_were_claimed]). *)

From S2P Require Import Prelude Bytes Program Bucket Partition.

Abbreviation ptdid := (Program.did ptop).

(** ** The hash *)

Lemma fnv64a_range h s : 0 ≤ h < two64 → 0 ≤ fnv64a h s < two64.
Proof. revert h. induction s as [|c s IH]; intros h Hh; cbn [fnv64a]; [done|]. apply IH, u64_range. Qed.

(** A run's partition is one of the ring's, and the same to every plane. *)
Lemma PartitionFor_range run n : 0 < n → 0 ≤ PartitionFor run n < n.
Proof. intros Hn. unfold PartitionFor. rewrite decide_False by lia. by apply Z.mod_pos_bound. Qed.

Lemma parts_of_elem count part : part ∈ parts_of count ↔ 0 ≤ part < count.
Proof.
  unfold parts_of. rewrite list_elem_of_fmap. split.
  - intros (n & -> & Hn%elem_of_seq). lia.
  - intros Hp. exists (Z.to_nat part). rewrite elem_of_seq. lia.
Qed.

(** The shares of all the members cover the ring, and no smaller share would. *)
Lemma shares_cover count members :
  0 < members → count ≤ share_of count members * members ∧ (share_of count members - 1) * members < count.
Proof.
  intros Hm. unfold share_of. pose proof (Z.div_mod (count + members - 1) members ltac:(lia)).
  pose proof (Z.mod_pos_bound (count + members - 1) members Hm). nia.
Qed.

Section Planes.
Context `{PartitionJSONLaws} (deploymentID : string) (count ttl : Z).

(** ** What each call needs *)

(** A record was read, at a revision. *)
Definition read_rec (h : list ptdid) (r : partitionRecord * Z) : Prop :=
  ∃ key val, Did (inl_ (BkGet key)) (Ok (Some (val, r.2))) ∈ h ∧ dec_partition val = Some r.1.

(** This plane's clock passed an instant. *)
Definition passed (h : list ptdid) (deadline : Z) : Prop := ∃ t, Did (inr_ PNow) t ∈ h ∧ deadline < t.

(** A write of a claim landed, as this plane was told. *)
Definition claimed (part : Z) (h : list ptdid) : Prop :=
  ∃ data n, (∃ rev, Did (inl_ (BkUpdate (claimKey deploymentID part) data rev)) (Ok n) ∈ h)
            ∨ Did (inl_ (BkCreate (claimKey deploymentID part) data)) (Ok n) ∈ h.

(** The members a plane counted: itself, and others it read of. *)
Definition counted (me : string) (h : list ptdid) (members : list string) : Prop :=
  me ∈ members ∧ ∀ x, x ∈ members → x = me ∨ ∃ r, read_rec h r ∧ pt_InstanceID r.1 = x.

Definition claim_guard (me : string) : Program.guard ptop := λ X o h,
  match o with
  | inl_ (BkUpdate key data rev) => ∃ part at_ r, key = claimKey deploymentID part
      ∧ data = enc_partition (mkPartition deploymentID me part at_) ∧ read_rec h r ∧ r.2 = rev
      ∧ (pt_InstanceID r.1 = me ∨ passed h (pt_ExpiresAt r.1))
  | inl_ (BkDelete key rev) => ∃ part r, key = claimKey deploymentID part ∧ read_rec h r ∧ r.2 = rev
      ∧ pt_InstanceID r.1 = me ∧ Did (inr_ (PForget part)) tt ∈ h
  | inl_ (BkPut key data) => key = memberKey deploymentID me
  | inr_ (PPublish parts) => NoDup parts ∧ (∀ part, part ∈ parts → 0 ≤ part < count ∧ claimed part h)
      ∧ ∃ members, counted me h members ∧ Z.of_nat (length parts) ≤ share_of count (Z.of_nat (length members))
  | _ => True
  end.

Lemma read_rec_mono h h' r : extends h h' → read_rec h r → read_rec h' r.
Proof. intros He (k & v & Hin & Hd). exists k, v. split; [by eapply extends_elem|done]. Qed.
Lemma passed_mono h h' d : extends h h' → passed h d → passed h' d.
Proof. intros He (t & Hin & Hd). exists t. split; [by eapply extends_elem|done]. Qed.
Lemma claimed_mono p h h' : extends h h' → claimed p h → claimed p h'.
Proof.
  intros He (d & n & [[rev Hin]|Hin]); exists d, n; [left; exists rev|right]; by eapply extends_elem.
Qed.
Lemma counted_mono me h h' m : extends h h' → counted me h m → counted me h' m.
Proof. intros He [Hm Hx]. split; [done|]. intros x [->|(r & Hr & Hi)]%Hx; [by left|right]. exists r. split; [by eapply read_rec_mono|done]. Qed.

(** ** The pieces of a pass *)

Section pass.
Context (me : string).

Lemma safe_expired d h (Q : bool → list ptdid → Prop) :
  (∀ b h', extends h h' → (b = true → passed h' d) → Q b h') → safe (claim_guard me) (expired d) Q h.
Proof.
  intros HQ. split; [done|]. intros t. apply HQ; [apply extends_snoc|]. intros Hb%bool_decide_eq_true. exists t.
  split; [apply snoc_elem|done].
Qed.

Lemma safe_read_keys prefix keys out h :
  (∀ r, r ∈ out → read_rec h r) →
  safe (claim_guard me) (read_keys deploymentID prefix keys out)
    (λ x h', extends h h' ∧ ∀ recs, x = Ok recs → ∀ r, r ∈ recs → read_rec h' r) h.
Proof.
  revert out h. induction keys as [|key keys IH]; intros out h Hout; cbn [read_keys].
  { split; [done|]. by intros recs [= <-]. }
  case_match; [by apply IH|]. apply safe_act_bind; [done|]. intros [[[v rev]|]|e]; [| |by split; [apply extends_snoc|]].
  - destruct (dec_partition v) as [rec|] eqn:Ed; [|by split; [apply extends_snoc|]].
    case_decide; [by split; [apply extends_snoc|]|].
    eapply safe_mono; [|apply IH].
    + intros x h' [He Hr]. split; [|done]. etrans; [apply extends_snoc|done].
    + intros r [Hr| ->%list_elem_of_singleton]%elem_of_app; [eapply read_rec_mono; [apply extends_snoc|by apply Hout]|].
      exists key, v. split; [apply snoc_elem|done].
  - eapply safe_mono; [|apply IH].
    + intros x h' [He Hr]. split; [|done]. etrans; [apply extends_snoc|done].
    + intros r Hr. eapply read_rec_mono; [apply extends_snoc|by apply Hout].
Qed.

Lemma safe_records prefix h :
  safe (claim_guard me) (records deploymentID prefix)
    (λ x h', extends h h' ∧ ∀ recs, x = Ok recs → ∀ r, r ∈ recs → read_rec h' r) h.
Proof.
  apply safe_act_bind; [done|]. intros [keys|e]; [|by split; [apply extends_snoc|]].
  eapply safe_mono; [|apply safe_read_keys; by intros r Hr%elem_of_nil].
  intros x h' [He Hr]. split; [|done]. etrans; [apply extends_snoc|done].
Qed.

Lemma safe_live_members recs members h :
  (∀ r, r ∈ recs → read_rec h r) → counted me h members →
  safe (claim_guard me) (live_members me recs members) (λ m h', extends h h' ∧ counted me h' m) h.
Proof.
  revert members h. induction recs as [|[rec rev] recs IH]; intros members h Hr Hm; cbn [live_members]; [done|].
  assert (Hrest : ∀ r, r ∈ recs → read_rec h r) by (intros r Hin; apply Hr; by right).
  case_decide; [by apply IH|]. apply safe_bind, safe_expired. intros dead h1 He _. eapply safe_mono; [|apply IH].
  - intros m h' [He' Hc]. split; [by etrans|done].
  - intros r Hin. eapply read_rec_mono; [done|by apply Hrest].
  - destruct dead; [by eapply counted_mono|]. destruct (counted_mono _ _ _ _ He Hm) as [Hme Hx].
    split; [apply elem_of_app; by left|]. intros x [Hin| ->%list_elem_of_singleton]%elem_of_app; [by apply Hx|right].
    exists (rec, rev). split; [|done]. eapply read_rec_mono; [done|]. apply Hr. by left.
Qed.

Lemma safe_liveMembers h :
  safe (claim_guard me) (liveMembers deploymentID me)
    (λ x h', extends h h' ∧ ∀ members, x = Ok members → counted me h' members) h.
Proof.
  apply safe_bind. eapply safe_mono; [|apply safe_records]. intros [recs|e] h1 [He Hr]; [|by split].
  apply safe_bind. eapply safe_mono; [|apply safe_live_members; [by apply Hr|]].
  - intros m h2 [He2 [Hme Hx]]. split; [by etrans|]. intros members [= <-]. split.
    + rewrite elem_of_compact, merge_sort_Permutation. done.
    + intros x. rewrite elem_of_compact, merge_sort_Permutation. apply Hx.
  - split; [by left|]. intros x ->%list_elem_of_singleton. by left.
Qed.

(** Every owner recorded is one that was read, in the ring. *)
Definition owners_read (h : list ptdid) (own : gmap Z ownership) : Prop :=
  ∀ part o, own !! part = Some o → 0 ≤ part < count ∧
    ∃ rec, read_rec h (rec, ow_revision o) ∧ pt_InstanceID rec = ow_instance o ∧ pt_ExpiresAt rec = ow_expiresAt o.

Lemma owners_read_mono h h' own : extends h h' → owners_read h own → owners_read h' own.
Proof.
  intros He Ho part o (Hp & rec & Hr & Hi)%Ho. split; [done|]. exists rec. split; [by eapply read_rec_mono|done].
Qed.

Lemma safe_owners h :
  safe (claim_guard me) (owners deploymentID count) (λ x h', extends h h' ∧ ∀ own, x = Ok own → owners_read h' own) h.
Proof.
  apply safe_bind. eapply safe_mono; [|apply safe_records]. intros [recs|e] h1 [He Hr]; [|by split]. split; [done|].
  intros own [= <-]. specialize (Hr recs eq_refl).
  assert (Hgen : ∀ m, owners_read h1 m → owners_read h1 (foldl (owner_of count) m recs)).
  { induction recs as [|[rec rev] recs IH]; intros m Hm; [done|]. cbn [foldl]. apply IH; [intros r Hin; apply Hr; by right|].
    unfold owner_of. cbn [fst snd]. case_decide as Hd; [done|]. intros part o. rewrite lookup_insert. case_decide as Hp; [|apply Hm].
    subst part. intros [= <-]. split; [lia|]. exists rec. cbn. split_and!; [apply Hr; by left|done..]. }
  apply Hgen. intros part o. by rewrite lookup_empty.
Qed.

Definition mine_ok (own : gmap Z ownership) (mine : list Z) : Prop :=
  NoDup mine ∧ ∀ part, part ∈ mine → ∃ o, own !! part = Some o ∧ ow_instance o = me.

Lemma safe_mine_of own parts mine h :
  NoDup (mine ++ parts) → (∀ part, part ∈ mine → ∃ o, own !! part = Some o ∧ ow_instance o = me) →
  safe (claim_guard me) (mine_of me own parts mine) (λ m h', extends h h' ∧ mine_ok own m) h.
Proof.
  revert mine h. induction parts as [|part parts IH]; intros mine h Hnd Hm; cbn [mine_of].
  { rewrite app_nil_r in Hnd. done. }
  assert (Hnd' : NoDup (mine ++ parts)).
  { apply NoDup_app in Hnd as (H1 & H2 & H3%NoDup_cons). apply NoDup_app. split_and!; [done| |by destruct H3].
    intros x Hx Hin. apply (H2 x Hx). by right. }
  destruct (own !! part) as [o|] eqn:Eo; [|by apply IH]. case_decide as Hi; [by apply IH|].
  apply safe_bind, safe_expired. intros dead h1 He _.
  eapply safe_mono; [|apply IH; destruct dead; [done| |done|]].
  - intros m h2 [He2 Hok]. split; [by etrans|done].
  - by rewrite <-app_assoc.
  - intros p [Hp| ->%list_elem_of_singleton]%elem_of_app; [by apply Hm|]. exists o. split; [done|]. by destruct (decide (ow_instance o = me)).
Qed.

Lemma safe_give_back_parts own surplus mine h :
  owners_read h own → mine_ok own mine →
  safe (claim_guard me) (give_back deploymentID own surplus mine)
    (λ m h', extends h h' ∧ mine_ok own m ∧ length m = (length mine - surplus)%nat) h.
Proof.
  revert mine h. induction surplus as [|surplus IH]; intros mine h Ho Hm; cbn [give_back].
  { split_and!; [done..|lia]. }
  destruct mine as [|part mine _] using rev_ind; [done|]. rewrite last_snoc, removelast_last.
  destruct Hm as [Hnd Hm]. apply NoDup_app in Hnd as (Hnd & Hdis & _).
  apply safe_act_bind; [done|]. intros [].
  destruct (Hm part) as (o & Eo & Hi); [apply snoc_elem|]. destruct (Ho part o Eo) as (_ & rec & Hr & Hri & _).
  unfold release_claim, revision_of. rewrite Eo. cbn [fmap option_fmap option_map default from_option].
  apply safe_bind, safe_act_bind.
  { exists part, (rec, ow_revision o). split_and!; [done|by eapply read_rec_mono; [apply extends_snoc|]|done|exact (eq_trans Hri Hi)|apply snoc_elem]. }
  intros x. cbn [safe]. eapply safe_mono; [|apply IH].
  - intros m h' (He & Hok & Hl). split_and!; [|done|rewrite Hl, length_app; simpl; lia].
    etrans; [|exact He]. etrans; apply extends_snoc.
  - eapply owners_read_mono; [|done]. etrans; apply extends_snoc.
  - split; [done|]. intros p Hp. apply Hm. apply elem_of_app. by left.
Qed.

(** One write of a claim, where a guard lets it be made. *)
Lemma safe_write_claim part rev (exists_ : bool) h (Q : bool → list ptdid → Prop) :
  (exists_ = true → ∃ r, read_rec h r ∧ r.2 = rev ∧ (pt_InstanceID r.1 = me ∨ passed h (pt_ExpiresAt r.1))) →
  (∀ ok h', extends h h' → (ok = true → claimed part h') → Q ok h') →
  safe (claim_guard me) (write_claim deploymentID ttl me part rev exists_) Q h.
Proof.
  intros Hx HQ. unfold write_claim, Partition.deadline. split; [done|]. intros t. cbn [cbind].
  set (h1 := h ++ _). assert (He1 : extends h h1) by apply extends_snoc.
  apply safe_act_bind.
  - destruct exists_; [|done]. destruct Hx as (r & Hr & Hrev & Hor); [done|]. eexists part, _, r.
    split_and!; [done|reflexivity|by eapply read_rec_mono|done|]. destruct Hor as [?|Hp]; [by left|right; by eapply passed_mono].
  - intros x. cbn [safe]. apply HQ; [etrans; [exact He1|apply extends_snoc]|]. destruct x as [n|]; [|done]. intros _.
    unfold claimed. eexists _, n. destruct exists_; [left; exists rev|right]; apply snoc_elem.
Qed.

Definition kept_ok (h : list ptdid) (kept : list Z) : Prop :=
  NoDup kept ∧ ∀ part, part ∈ kept → 0 ≤ part < count ∧ claimed part h.

Lemma kept_ok_mono h h' kept : extends h h' → kept_ok h kept → kept_ok h' kept.
Proof. intros He [Hnd Hk]. split; [done|]. intros p [Hp Hc]%Hk. split; [done|by eapply claimed_mono]. Qed.

Lemma kept_ok_snoc h kept part : kept_ok h kept → part ∉ kept → 0 ≤ part < count → claimed part h → kept_ok h (kept ++ [part]).
Proof.
  intros [Hnd Hk] Hn Hp Hc. split.
  - apply NoDup_app. split_and!; [done| |apply NoDup_singleton]. by intros x Hx ->%list_elem_of_singleton.
  - by intros p [Hin| ->%list_elem_of_singleton]%elem_of_app; [apply Hk|].
Qed.

Lemma safe_renew own parts kept h :
  owners_read h own → NoDup (kept ++ parts) → (∀ part, part ∈ parts → ∃ o, own !! part = Some o ∧ ow_instance o = me) →
  kept_ok h kept →
  safe (claim_guard me) (renew_mine deploymentID ttl me own parts kept)
    (λ m h', extends h h' ∧ kept_ok h' m ∧ (length m ≤ length kept + length parts)%nat) h.
Proof.
  revert kept h. induction parts as [|part parts IH]; intros kept h Ho Hnd Hm Hk; cbn [renew_mine].
  { split_and!; [done..|simpl; lia]. }
  destruct (Hm part) as (o & Eo & Hi); [by left|]. destruct (Ho part o Eo) as (Hp & rec & Hr & Hri & _).
  apply NoDup_app in Hnd as (H1 & H2 & [H3 H4]%NoDup_cons).
  assert (Hnd' : NoDup (kept ++ parts)).
  { apply NoDup_app. split_and!; [done| |done]. intros x Hx Hin. apply (H2 x Hx). by right. }
  apply safe_bind, safe_write_claim.
  { intros _. exists (rec, ow_revision o). unfold revision_of. rewrite Eo. split_and!; [done..|left; exact (eq_trans Hri Hi)]. }
  intros ok h1 He1 Hc. destruct ok.
  - eapply safe_mono; [|apply IH].
    + intros m h' (He & Hok & Hl). split_and!; [by etrans|done|]. rewrite length_app in Hl. simpl in *. lia.
    + by eapply owners_read_mono.
    + rewrite <-app_assoc. simpl. apply NoDup_app. split_and!; [done| |by apply NoDup_cons].
      intros x Hx Hin. apply (H2 x Hx). exact Hin.
    + intros q Hq. apply Hm. by right.
    + apply kept_ok_snoc; [by eapply kept_ok_mono| |done|by apply Hc]. intros Hin. apply (H2 part Hin). by left.
  - apply safe_act_bind; [done|]. intros []. eapply safe_mono; [|apply IH].
    + intros m h' (He & Hok & Hl). split_and!; [|done|simpl; lia]. etrans; [exact He1|]. etrans; [apply extends_snoc|done].
    + eapply owners_read_mono; [|done]. etrans; [exact He1|apply extends_snoc].
    + done.
    + intros q Hq. apply Hm. by right.
    + eapply kept_ok_mono; [|done]. etrans; [exact He1|apply extends_snoc].
Qed.

Lemma safe_take own share parts mine h :
  owners_read h own → (∀ part, part ∈ parts → 0 ≤ part < count) → kept_ok h mine → Z.of_nat (length mine) ≤ share →
  safe (claim_guard me) (take_free deploymentID ttl me own share parts mine)
    (λ m h', extends h h' ∧ kept_ok h' m ∧ Z.of_nat (length m) ≤ share) h.
Proof.
  revert mine h. induction parts as [|part parts IH]; intros mine h Ho Hp Hk Hl; cbn [take_free]; [done|].
  assert (Hp' : ∀ q, q ∈ parts → 0 ≤ q < count) by (intros q Hq; apply Hp; by right).
  case_decide as Hs; [done|]. case_decide as Hin; [by apply IH|].
  assert (Hgo : ∀ (free : bool) h1, extends h h1 →
    (free = true → ∀ o, own !! part = Some o → passed h1 (ow_expiresAt o)) →
    safe (claim_guard me) (if negb free then take_free deploymentID ttl me own share parts mine
      else ok <- write_claim deploymentID ttl me part (revision_of own part) (bool_decide (is_Some (own !! part)));;
           take_free deploymentID ttl me own share parts (if ok : bool then mine ++ [part] else mine))
      (λ m h', extends h h' ∧ kept_ok h' m ∧ Z.of_nat (length m) ≤ share) h1).
  { intros free h1 He1 Hf. assert (Ho1 := owners_read_mono _ _ _ He1 Ho). assert (Hk1 := kept_ok_mono _ _ _ He1 Hk).
    destruct free; cbn [negb].
    - apply safe_bind, safe_write_claim.
      { intros [o Eo]%bool_decide_eq_true. destruct (Ho1 part o Eo) as (_ & rec & Hr & Hri & Hre).
        exists (rec, ow_revision o). unfold revision_of. rewrite Eo. split_and!; [done..|right]. cbn [fst]. rewrite Hre.
        by apply Hf. }
      intros ok h2 He2 Hc. eapply safe_mono; [|apply IH; [by eapply owners_read_mono|done| |]].
      + intros m h' (He & Hrest). split; [|done]. etrans; [exact He1|]. by etrans.
      + destruct ok; [|by eapply kept_ok_mono]. apply kept_ok_snoc; [by eapply kept_ok_mono|done|apply Hp; by left|by apply Hc].
      + destruct ok; [|done]. rewrite length_app. simpl. lia.
    - eapply safe_mono; [|by apply IH]. intros m h' (He & Hrest). split; [by etrans|done]. }
  apply safe_bind. destruct (own !! part) as [o|] eqn:Eo.
  - apply safe_expired. intros b h1 He1 Hb. rewrite <-Eo in *. apply Hgo; [done|]. intros Hb' o' Eo'. rewrite Eo in Eo'.
    injection Eo' as <-. by apply Hb.
  - cbn [safe]. rewrite <-Eo in *. apply Hgo; [done|]. intros _ o'. congruence.
Qed.

Lemma probe_in_ring members : 0 < count → ∀ part, part ∈ probe_order count members me → 0 ≤ part < count.
Proof. intros Hc part (o & -> & _)%list_elem_of_fmap. by apply Z.mod_pos_bound. Qed.

(** ** A whole pass *)

(** A call that leaves the plane's view alone. *)
Definition view_free (X : Type) (o : ptop X) : Prop :=
  match o with inr_ (PForget _) | inr_ (PPublish _) => False | _ => True end.
Definition same_view (h h' : list ptdid) : Prop := view_after h' = view_after h.

#[local] Instance same_view_preorder : PreOrder same_view.
Proof. split; [done|]. intros h1 h2 h3 H12 H23. unfold same_view in *. congruence. Qed.

Lemma view_after_snoc h d : view_after (h ++ [d]) = view_step (view_after h) d.
Proof. unfold view_after. by rewrite foldl_app. Qed.

Lemma view_free_step X (o : ptop X) x h : view_free X o → same_view h (h ++ [Did o x]).
Proof.
  unfold same_view. rewrite view_after_snoc. destruct o as [o|o]; [done|]. revert x. by destruct o.
Qed.

Lemma view_free_read_keys prefix keys out : within view_free (read_keys deploymentID prefix keys out).
Proof.
  revert out. induction keys as [|key keys IH]; intros out; cbn [read_keys]; [done|]. case_match; [apply IH|].
  split; [done|]. intros [[[v rev]|]|e]; cbn; [|apply IH|done]. case_match; [|done]. case_decide; [done|apply IH].
Qed.

Lemma view_free_records prefix : within view_free (records deploymentID prefix).
Proof. split; [done|]. intros [keys|e]; [apply view_free_read_keys|done]. Qed.

Lemma view_free_live_members recs members : within view_free (live_members me recs members).
Proof.
  revert members. induction recs as [|[rec rev] recs IH]; intros members; cbn [live_members]; [done|].
  case_decide; [apply IH|]. split; [done|]. intros t. apply IH.
Qed.

Lemma view_free_liveMembers : within view_free (liveMembers deploymentID me).
Proof.
  apply within_bind; [apply view_free_records|]. intros [recs|e]; [|done].
  by apply within_bind; [apply view_free_live_members|].
Qed.

Lemma view_free_owners : within view_free (owners deploymentID count).
Proof. apply within_bind; [apply view_free_records|done]. Qed.

Lemma view_free_announce : within view_free (announce deploymentID ttl me).
Proof. split; [done|]. intros t. by split. Qed.

Lemma safe_announce h : safe (claim_guard me) (announce deploymentID ttl me) (λ _ h', extends h h') h.
Proof.
  split; [done|]. intros t. split; [done|]. intros x. cbn. etrans; apply extends_snoc.
Qed.

Lemma parts_of_NoDup : NoDup (parts_of count).
Proof. unfold parts_of. apply NoDup_fmap; [intros x y; lia|apply NoDup_seq]. Qed.

(** What a pass leaves: on an error the plane's view is what it was; otherwise
    it is what the pass returns. *)
Definition pass_post (h : list ptdid) (x : result PartErr (list Z)) (h' : list ptdid) : Prop :=
  extends h h' ∧ match x with
  | Ok parts => view_after h' = list_to_set parts ∧ Sorted Z.le parts
  | Err _ => same_view h h'
  end.

Lemma counted_pos h members : counted me h members → 0 < Z.of_nat (length members).
Proof. intros [Hin _]. destruct members; [by apply elem_of_nil in Hin|simpl; lia]. Qed.

Lemma safe_rest own members h :
  0 < count → owners_read h own → counted me h members →
  let share := share_of count (Z.of_nat (length members)) in
  safe (claim_guard me)
    (mine <- mine_of me own (parts_of count) [];;
     mine <- give_back deploymentID own (length mine - Z.to_nat share) (merge_sort Z.le mine);;
     mine <- renew_mine deploymentID ttl me own mine [];;
     mine <- take_free deploymentID ttl me own share (probe_order count members me) mine;;
     let mine := merge_sort Z.le mine in
     _ <- own_view (PPublish mine);;
     Done (Ok mine)) (pass_post h) h.
Proof.
  intros Hc Ho Hm share.
  assert (Hshare : 0 ≤ share).
  { destruct (shares_cover count _ (counted_pos _ _ Hm)) as [H1 _]. pose proof (counted_pos _ _ Hm). unfold share. nia. }
  apply safe_bind. eapply safe_mono; [|apply safe_mine_of; [apply parts_of_NoDup|by intros p Hp%elem_of_nil]].
  intros mine h1 [He1 [Hnd Hmine]].
  apply safe_bind. eapply safe_mono; [|apply safe_give_back_parts; [by eapply owners_read_mono|]].
  2: { split; [by rewrite merge_sort_Permutation|]. intros p. rewrite merge_sort_Permutation. apply Hmine. }
  intros mine2 h2 (He2 & [Hnd2 Hmine2] & Hl2).
  rewrite (Permutation_length (merge_sort_Permutation Z.le mine)) in Hl2.
  assert (He02 : extends h h2) by by etrans.
  apply safe_bind. eapply safe_mono;
    [|apply (safe_renew own mine2 [] h2); [by eapply owners_read_mono|done|done|]].
  2: { split; [constructor|]. by intros p Hp%elem_of_nil. }
  intros mine3 h3 (He3 & Hk3 & Hl3). assert (He03 : extends h h3) by by etrans.
  apply safe_bind. eapply safe_mono;
    [|apply safe_take; [by eapply owners_read_mono|by apply probe_in_ring|done|simpl in Hl3; lia]].
  intros mine4 h4 (He4 & [Hnd4 Hk4] & Hl4). assert (He04 : extends h h4) by by etrans.
  apply safe_act_bind.
  - split_and!; [by rewrite merge_sort_Permutation| |].
    + intros p. rewrite merge_sort_Permutation. apply Hk4.
    + exists members. split; [by eapply counted_mono|]. by rewrite (Permutation_length (merge_sort_Permutation Z.le mine4)).
  - intros []. split; [etrans; [exact He04|apply extends_snoc]|]. rewrite view_after_snoc. split; [done|].
    apply Sorted_merge_sort, _.
Qed.

Lemma safe_ClaimPartitions h :
  0 < count → safe (claim_guard me) (ClaimPartitions deploymentID count ttl me) (pass_post h) h.
Proof.
  intros Hc. unfold ClaimPartitions. case_decide; [by split; [reflexivity|]|].
  pose proof (λ A (c : ptcmd A) Q h, safe_within_and view_free same_view (claim_guard me) c Q h view_free_step) as Hand.
  apply safe_bind. eapply safe_mono; [|apply Hand; [apply view_free_announce|apply safe_announce]].
  intros [[]|e] h1 [He1 Hv1]; [|by split].
  apply safe_bind. eapply safe_mono; [|apply Hand; [apply view_free_liveMembers|apply safe_liveMembers]].
  intros [members|e] h2 [[He2 Hm] Hv2]; [|split; [by etrans|by etrans]].
  apply safe_bind. eapply safe_mono; [|apply Hand; [apply view_free_owners|apply safe_owners]].
  intros [own|e] h3 [[He3 Ho] Hv3]; [|split; [etrans; [exact He1|by etrans]|etrans; [exact Hv1|by etrans]]].
  eapply safe_mono; [|apply (safe_rest own members h3 Hc); [by apply Ho|eapply counted_mono; [done|by apply Hm]]].
  intros x h4 [He4 Hx]. split; [etrans; [exact He1|]; etrans; [exact He2|]; by etrans|].
  destruct x; [done|]. etrans; [exact Hv1|]. etrans; [exact Hv2|]. by etrans.
Qed.

Lemma safe_claim_rounds n h :
  0 < count → safe (claim_guard me) (claim_rounds deploymentID count ttl n me) (λ _ _, True) h.
Proof.
  intros Hc. revert h. induction n as [|n IH]; intros h; cbn [claim_rounds]; [done|].
  apply safe_bind. eapply safe_mono; [|by apply safe_ClaimPartitions]. intros x h' _. apply IH.
Qed.

End pass.

(** In one pass a plane publishes as its own, sorted and without
    duplicates, only partitions of the ring whose claim a write of this very
    pass landed, and no more than its share of the members it read as live;
    before it deletes a claim it has dropped the partition from its own view,
    whatever comes of the deletion; a pass that returns partitions leaves that
    as the plane's view, and a pass that returns an error leaves the view as
    it was. *)
Theorem published_parts_were_claimed me tr r :
  0 < count → runs (ClaimPartitions deploymentID count ttl me) tr r →
  (∀ pre parts u post, tr = pre ++ Did (inr_ (PPublish parts)) u :: post →
     NoDup parts ∧ (∀ part, part ∈ parts → 0 ≤ part < count ∧ claimed part pre)
     ∧ ∃ members, counted me pre members ∧ Z.of_nat (length parts) ≤ share_of count (Z.of_nat (length members)))
  ∧ (∀ pre key rev x post, tr = pre ++ Did (inl_ (BkDelete key rev)) x :: post →
     ∃ part, key = claimKey deploymentID part ∧ Did (inr_ (PForget part)) tt ∈ pre)
  ∧ ∀ x view, r = Some x → match x with
    | Ok parts => foldl view_step view tr = list_to_set parts ∧ Sorted Z.le parts
    | Err _ => foldl view_step view tr = view
    end.
Proof.
  intros Hc Hr. destruct (safe_runs _ _ _ [] _ _ (safe_ClaimPartitions me [] Hc) Hr) as [Hg HQ]. split_and!.
  - intros pre parts u post Htr. exact (Hg _ _ _ _ _ Htr).
  - intros pre key rev x post Htr. destruct (Hg _ _ _ _ _ Htr) as (part & rec & Hk & _ & _ & _ & Hf). by exists part.
  - intros x view Hx.
    set (h := [@Did ptop _ (inr_ (PPublish (elements view))) tt]).
    assert (Hview : ∀ tr, view_after (h ++ tr) = foldl view_step view tr).
    { intros tr'. unfold view_after. rewrite foldl_app. cbn. by rewrite list_to_set_elements_L. }
    destruct (safe_runs _ _ _ h _ _ (safe_ClaimPartitions me h Hc) Hr) as [_ HQ'].
    destruct (HQ' x Hx) as [_ Hp]. destruct x; [by rewrite <-Hview|].
    unfold same_view in Hp. rewrite Hview in Hp. rewrite Hp. etrans; [|exact (Hview [])]. by rewrite app_nil_r.
Qed.

(** ** Many planes over one bucket *)

(** A plane's clock is its own: it answers what it likes. *)
Definition ptstep (X : Type) (o : ptop X) (j j' : journal) : X → Prop :=
  match o with inl_ o => bk_step _ o j j' | inr_ _ => λ _, j' = j end.

(** What else writes to the bucket: keys that are no claim of this deployment,
    other deployments' among them. *)
Definition other_keys (j j' : journal) : Prop :=
  ∃ key, (∀ part, key ≠ claimKey deploymentID part) ∧ ((∃ data, j' = j_put key data j) ∨ j' = j_remove key j).

(** What justifies a change to a recorded claim: a replacement names the plane
    that made it, and either that plane held the claim or its clock had passed
    the claim's deadline; a removal is by the claim's owner, which had dropped
    the partition from its view. *)
Definition respects (names : list string) (hs : nat → list ptdid) (c : change) : Prop :=
  ∀ part old rev rec, ch_key c = claimKey deploymentID part → ch_old c = Some (old, rev) → dec_partition old = Some rec →
  match ch_new c with
  | Some data => ∃ i me part' at_, names !! i = Some me ∧ data = enc_partition (mkPartition deploymentID me part' at_)
      ∧ ch_key c = claimKey deploymentID part' ∧ (pt_InstanceID rec = me ∨ passed (hs i) (pt_ExpiresAt rec))
  | None => ∃ i part', names !! i = Some (pt_InstanceID rec) ∧ ch_key c = claimKey deploymentID part'
      ∧ Did (inr_ (PForget part')) tt ∈ hs i
  end.

Lemma member_not_claim me part : memberKey deploymentID me ≠ claimKey deploymentID part.
Proof. intros Hk%(f_equal (String.get 0)). discriminate. Qed.

Lemma respects_mono names hs hs' c : (∀ i, extends (hs i) (hs' i)) → respects names hs c → respects names hs' c.
Proof.
  intros He Hc part old rev rec Hk Ho Hd. specialize (Hc part old rev rec Hk Ho Hd). destruct (ch_new c).
  - destruct Hc as (i & me & p & a & Hn & Hdata & Hk' & Hor). exists i, me, p, a. split_and!; [done..|].
    destruct Hor as [?|Hp]; [by left|right]. by eapply passed_mono; [apply He|].
  - destruct Hc as (i & p & Hn & Hk' & Hf). exists i, p. split_and!; [done..|]. by eapply extends_elem; [apply He|].
Qed.

Definition reads_stand (j : journal) (hs : nat → list ptdid) : Prop :=
  ∀ i key val rev, Did (inl_ (BkGet key)) (Ok (Some (val, rev))) ∈ hs i →
    rev ≤ last_rev j ∧ ∀ k v, entry_of j k = Some (v, rev) → k = key ∧ v = val.

Definition ring_ok (names : list string) (j : journal) (hs : nat → list ptdid) : Prop :=
  bucket_ok j ∧ reads_stand j hs ∧ ∀ c, c ∈ j_log j → respects names hs c.

Lemma reads_stand_keeps j j' hs : keeps_entries j j' → reads_stand j hs → reads_stand j' hs.
Proof.
  intros [Hl Hk] Hr i key val rev Hin. destruct (Hr _ _ _ _ Hin) as [Hle Hu]. split; [lia|].
  intros k v He. by apply Hu, Hk.
Qed.

(** The history of one plane, one call longer. *)
Definition grown (hs : nat → list ptdid) (i : nat) (d : ptdid) : nat → list ptdid :=
  λ j, if decide (j = i) then hs i ++ [d] else hs j.

Lemma grown_extends hs i d k : extends (hs k) (grown hs i d k).
Proof. unfold grown. case_decide as Hk; [subst k; apply extends_snoc|reflexivity]. Qed.

Lemma reads_stand_grown X (o : ptop X) (x : X) j j' hs i :
  ptstep X o j j' x → bucket_ok j → reads_stand j hs → reads_stand j' (grown hs i (Did o x)).
Proof.
  intros Hs Hok Hr.
  assert (Hkeep : keeps_entries j j').
  { destruct o as [o|o]; cbn in Hs; [by eapply bk_step_ok|by subst]. }
  intros k key val rev Hin. unfold grown in Hin. case_decide as Hk; [|by eapply reads_stand_keeps]. subst k.
  apply elem_of_app in Hin as [Hin|Hin%list_elem_of_singleton]; [by eapply reads_stand_keeps|].
  assert (Hget : entry_of j' key = Some (val, rev) ∧ j' = j).
  { refine (match Hin in _ = d return match d with
            | @Did _ X o x => ptstep X o j j' x → _ end with eq_refl => _ end Hs).
    cbn. intros [-> [[= ->]|[e [=]]]]. done. }
  destruct Hget as [He ->]. destruct Hok as [Hle Hu]. split; [by eapply Hle|]. intros k v Hv.
  assert (k = key) as -> by by eapply Hu. rewrite He in Hv. by injection Hv as ->.
Qed.

Lemma read_is_current names j hs i key old rev r :
  ring_ok names j hs → read_rec (hs i) r → entry_of j key = Some (old, rev) → r.2 = rev → dec_partition old = Some r.1.
Proof.
  intros (_ & Hr & _) (k & v & Hin & Hd) He <-. destruct (Hr _ _ _ _ Hin) as [_ Hu]. by destruct (Hu _ _ He) as [_ ->].
Qed.

Lemma ring_log names (hs : nat → list ptdid) i X (o : ptop X) (x : X) me j j' :
  names !! i = Some me → ring_ok names j hs → claim_guard me X o (hs i) → ptstep X o j j' x →
  ∀ c, c ∈ j_log j' → respects names (grown hs i (Did o x)) c.
Proof.
  intros Hn Hok HG Hs.
  assert (Hold : ∀ c, c ∈ j_log j → respects names (grown hs i (Did o x)) c).
  { intros c Hc. eapply respects_mono; [intros k; apply grown_extends|]. by apply Hok. }
  assert (Hnew : ∀ c, respects names hs c → ∀ c', c' ∈ j_log j ++ [c] → respects names (grown hs i (Did o x)) c').
  { intros c Hc c' [Hin| ->%list_elem_of_singleton]%elem_of_app; [by apply Hold|].
    eapply respects_mono; [intros k; apply grown_extends|done]. }
  destruct o as [o|o]; cbn [ptstep] in Hs; [|by subst].
  destruct o as [p|k|k d|k d|k d rv|k rv]; cbn [bk_step claim_guard] in Hs, HG; destruct_or?; destruct_and?; subst;
    try done; apply Hnew; intros part old rev rec Hk Ho Hd; cbn in Hk, Ho; cbn [ch_new ch_key] in *.
  - by destruct (member_not_claim me part).
  - congruence.
  - destruct HG as (p' & at_ & r & -> & -> & Hr & <- & Hor). exists i, me, p', at_. split_and!; [done..|].
    rewrite Ho in *. simplify_eq/=.
    assert (Hd' : dec_partition old = Some r.1) by (eapply read_is_current; [done|exact Hr|exact Ho|done]).
    rewrite Hd in Hd'. by injection Hd' as ->.
  - destruct HG as (p' & r & -> & Hr & <- & Hi & Hf). exists i, p'. rewrite Ho in *. simplify_eq/=.
    assert (Hd' : dec_partition old = Some r.1) by (eapply read_is_current; [done|exact Hr|exact Ho|done]).
    rewrite Hd in Hd'. injection Hd' as ->. done.
Qed.

(** C16: Any number of planes pass after pass over the ring, interleaved in any
    order, with any answer failing or lost and any clock, and whatever is
    written beside them: a recorded claim is replaced only by a plane it
    already names or by one whose own clock has passed the claim's deadline,
    and the new record names that plane; it is removed only by the plane it
    names, once that plane has dropped the partition from its view. *)
Theorem live_claims_are_respected names n j0 tr ps' j' :
  0 < count → bucket_ok j0 → j_log j0 = [] →
  interleaved ptstep other_keys (map (claim_rounds deploymentID count ttl n) names) j0 tr ps' j' →
  ∀ c, c ∈ j_log j' → respects names (λ i, own i tr) c.
Proof.
  intros Hc Hok Hlog Hr.
  destruct (interleaved_keeps (A := unit) ptstep other_keys (λ i X o h, ∃ me, names !! i = Some me ∧ claim_guard me X o h)
              (ring_ok names) (map (claim_rounds deploymentID count ttl n) names) j0 tr ps' j' (λ _, []))
    as (hs & Hown & Hj); [| |exact Hr| | |].
  - intros j1 j2 hs (Hb & Hrd & Hl) (key & Hkey & He).
    assert (Hk : bucket_ok j2 ∧ keeps_entries j1 j2).
    { destruct He as [[d ->]| ->]; [by apply j_put_ok|by apply (j_gone_ok j_remove); [left|]]. }
    destruct Hk as [Hb2 Hk2]. split_and!; [done|by eapply reads_stand_keeps|].
    assert (Hskip : ∀ c, ch_key c = key → respects names hs c) by (intros c Hck part ? ? ? Hcl; by destruct (Hkey part); congruence).
    destruct He as [[d ->]| ->]; cbn [j_log j_put j_remove]; intros c [Hin| ->%list_elem_of_singleton]%elem_of_app;
      auto; by apply Hskip.
  - intros i X o x j1 j2 hs HJ (me & Hn & HG) Hs. fold (grown hs i (Did o x)).
    assert (Hb2 : bucket_ok j2).
    { destruct HJ as (Hb & _). destruct o as [o|o]; cbn in Hs; [by eapply bk_step_ok|by subst]. }
    split_and!; [done|by destruct HJ as (Hb & Hrd & _); eapply reads_stand_grown|by eapply ring_log].
  - intros i c Hi. rewrite list_lookup_fmap in Hi. destruct (names !! i) as [me|] eqn:En; [|done]. injection Hi as <-.
    eapply safe_guard_mono; [|by apply (safe_claim_rounds me)]. intros X o h HG. by exists me.
  - split_and!; [done|by intros ? ? ? ? ?%elem_of_nil|]. rewrite Hlog. by intros c ?%elem_of_nil.
  - intros c Hin. destruct Hj as (_ & _ & Hl). eapply respects_mono; [|by apply Hl]. intros i. by rewrite Hown.
Qed.

End Planes.

(** ** Two planes *)

Definition partition_tuple (r : partitionRecord) : string * string * Z * Z :=
  (pt_DeploymentID r, pt_InstanceID r, pt_Partition r, pt_ExpiresAt r).

#[local] Instance bits_partitions : PartitionJSON :=
  {| enc_partition := λ r, to_bits (partition_tuple r);
     dec_partition := λ s, '(d, i, p, e) ← of_bits s; Some (mkPartition d i p e) |}.
#[local] Instance bits_partitions_laws : PartitionJSONLaws.
Proof. intros []. unfold dec_partition, enc_partition, bits_partitions. rewrite of_to_bits. done. Qed.

(** A bucket that answers truthfully, and a clock that stands at [now]. *)
Definition ring_answer (now : Z) (X : Type) (o : ptop X) (j : journal) : journal * X :=
  match o in plus _ _ _ return journal * X with
  | inl_ o => bk_answer _ o j
  | inr_ o => (j, match o in parop X return X with PNow => now | PForget _ => tt | PPublish _ => tt end)
  end.

Lemma ring_answer_step now X (o : ptop X) j : ptstep X o j (fst (ring_answer now X o j)) (snd (ring_answer now X o j)).
Proof. destruct o as [o|o]; [apply bk_answer_step|done]. Qed.

(** Plane [a] of the deployment claims the ring of four at 0, for ten. *)
Definition ex_empty : journal := mkJournal (mkBucket ∅ 0) [].
Definition ex_alone : journal := (drive (ring_answer 0) (ClaimPartitions "d" 4 10 "a") ex_empty).1.1.
Definition ex_ring : journal := mkJournal (j_bucket ex_alone) [].
Definition ex_play :=
  play (ring_answer 100) (replicate 60 1%nat ++ replicate 60 0%nat) (map (claim_rounds "d" 4 10 1) ["a"; "b"]) ex_ring.

Lemma ex_empty_ok : bucket_ok ex_empty.
Proof. split; [intros k v r|intros k1 k2 v1 v2 r]; unfold entry_of; cbn; by rewrite lookup_empty. Qed.

Lemma drive_keeps_bucket {A} now (c : ptcmd A) j : bucket_ok j → bucket_ok (drive (ring_answer now) c j).1.1.
Proof.
  revert j. induction c as [a|X o k IH]; intros j Hj; cbn [drive]; [done|].
  pose proof (ring_answer_step now X o j) as Hs. destruct (ring_answer now X o j) as [j1 x].
  specialize (IH x j1). destruct (drive (ring_answer now) (k x) j1) as [[j2 tr] a]. apply IH.
  destruct o as [o|o]; cbn in Hs; [by eapply bk_step_ok|by subst].
Qed.

Lemma bucket_ok_fresh j : bucket_ok j → bucket_ok (mkJournal (j_bucket j) []).
Proof. done. Qed.

Lemma ex_ring_ok : bucket_ok ex_ring.
Proof. apply bucket_ok_fresh. unfold ex_alone. apply drive_keeps_bucket, ex_empty_ok. Qed.

Lemma ex_play_runs :
  interleaved ptstep (other_keys "d") (map (claim_rounds "d" 4 10 1) ["a"; "b"]) ex_ring
    ex_play.1.1 ex_play.1.2 ex_play.2.
Proof. unfold ex_play. apply play_interleaved. intros X o w. apply ring_answer_step. Qed.

(** By 100 nothing of [a] stands any more: [b] takes the ring from it. *)
Lemma ex_play_replaced :
  map (λ c, (ch_key c, pt_InstanceID <$> (ch_new c ≫= dec_partition)))
    (List.filter (λ c, bool_decide (is_Some (ch_old c)) && has_prefix "part." (ch_key c)) (j_log ex_play.2))
  = [("part.ZA.0", Some "b"); ("part.ZA.1", Some "b"); ("part.ZA.2", Some "b"); ("part.ZA.3", Some "b")].
Proof. vm_compute. reflexivity. Qed.

Lemma live_claims_are_respected_witness :
  map (λ c, (ch_key c, pt_InstanceID <$> (ch_new c ≫= dec_partition)))
    (List.filter (λ c, bool_decide (is_Some (ch_old c)) && has_prefix "part." (ch_key c)) (j_log ex_play.2))
  = [("part.ZA.0", Some "b"); ("part.ZA.1", Some "b"); ("part.ZA.2", Some "b"); ("part.ZA.3", Some "b")]
  ∧ ∀ c, c ∈ j_log ex_play.2 → respects "d" ["a"; "b"] (λ i, own i ex_play.1.1) c.
Proof.
  split; [exact ex_play_replaced|].
  exact (live_claims_are_respected "d" 4 10 ["a"; "b"] 1 ex_ring ex_play.1.1 ex_play.1.2 ex_play.2
           eq_refl ex_ring_ok eq_refl ex_play_runs).
Defined.

Definition ex_pass : list ptdid := trace_of (ring_answer 100) (ClaimPartitions "d" 4 10 "b") ex_ring.

Lemma ex_pass_publishes : ∃ pre u, ex_pass = pre ++ [Did (inr_ (PPublish [0; 1; 2; 3])) u].
Proof. exists (removelast ex_pass), tt. vm_compute. reflexivity. Qed.

Lemma published_parts_were_claimed_witness :
  (∃ pre u, ex_pass = pre ++ [Did (inr_ (PPublish [0; 1; 2; 3])) u])
  ∧ foldl view_step {[7]} ex_pass = list_to_set [0; 1; 2; 3].
Proof.
  split; [exact ex_pass_publishes|].
  refine (proj1 (proj2 (proj2 (published_parts_were_claimed "d" 4 10 "b" ex_pass (Some (Ok [0; 1; 2; 3])) eq_refl _))
            (Ok [0; 1; 2; 3]) {[7]} eq_refl)).
  assert (Hr := trace_of_runs (ring_answer 100) (ClaimPartitions "d" 4 10 "b") ex_ring).
  assert (Hx : (drive (ring_answer 100) (ClaimPartitions "d" 4 10 "b") ex_ring).2 = Ok [0; 1; 2; 3]) by (vm_compute; reflexivity).
  rewrite Hx in Hr. exact Hr.
Defined.

(** ** A plane cut off from the bucket *)

(** The same bucket, to a plane that cannot reach it. *)
Definition cut_off (now : Z) (X : Type) (o : ptop X) (j : journal) : journal * X :=
  match o in plus _ _ _ return journal * X with
  | inl_ o =>
      (j, match o in bkop X return X with
          | BkListKeys _ => Err (KVOther "timeout") | BkGet _ => Err (KVOther "timeout")
          | BkPut _ _ => Err (KVOther "timeout") | BkCreate _ _ => Err (KVOther "timeout")
          | BkUpdate _ _ _ => Err (KVOther "timeout") | BkDelete _ _ => Err (KVOther "timeout")
          end)
  | inr_ o => (j, match o in parop X return X with PNow => now | PForget _ => tt | PPublish _ => tt end)
  end.

Definition view_of_a : gset Z := view_after (trace_of (ring_answer 0) (ClaimPartitions "d" 4 10 "a") ex_empty).

(** A pass that cannot reach the bucket returns its error and leaves the view:
    at 100, long past every deadline it wrote, plane [a] still owns the whole
    ring, and so does [b], which has taken all of it over. *)
Lemma cut_off_plane_is_a_second_owner :
  let a := trace_of (cut_off 100) (ClaimPartitions "d" 4 10 "a") ex_ring in
  Owns 4 (foldl view_step view_of_a a) "run" = true ∧ Owns 4 (view_after ex_pass) "run" = true.
Proof. split; vm_compute; reflexivity. Qed.
