(* ===== verification/Budget.v ===== *)
(** * How much of the fleet a pipeline may hold: [internal/scheduler/budget.go]

    A counting semaphore kept in a bucket the planes share: one slot is one
    key, taken with a create the server refuses if the key is there, rewritten
    by its holder while it is held ([renewOnce]), deleted at the revision the
    holder last wrote ([release]), and dropped by the server when it is no
    longer rewritten. [slot_life] is what becomes of one slot: the ticks of its
    renewing goroutine and calls of its release, in any order, each under the
    slot's mutex. The map of holders is written and never read; it is left
    out. *)

From S2P Require Import Prelude Bytes Program Bucket.

Definition budgetPrefix : string := "budget.".
Definition DefaultBudgetTTL : Z := 30 * 1000000000.
Definition DefaultBudget : Z := 16.

(** [encodeSegment], [budgetKey]. *)
Definition encodeSegment (segment : string) : string := b64_encode segment.
Definition budgetKey (tenantID pipelineID : string) (index : Z) : string :=
  budgetPrefix +:+ encodeSegment tenantID +:+ "." +:+ encodeSegment pipelineID +:+ "." +:+ dec_Z index.

Record slotRecord : Type := mkSlotRecord
  { sr_TenantID : string; sr_PipelineID : string; sr_Slot : Z; sr_PlaneID : string; sr_AcquiredAt : Z }.

(** [json.Marshal] of one. *)
Class SlotJSON : Type := enc_slot : slotRecord → string.

Record budgetSlot : Type := mkSlot { sl_key : string; sl_revision : Z; sl_released : bool }.

(** ** [NewBudgets] *)

Record BudgetConfig : Type := mkBudgetConfig
  { bc_Limits : list ((string * string) * Z); bc_Default : Z; bc_TTL : Z; bc_PlaneID : string }.

Record Budgets : Type := mkBudgets
  { bu_limits : gmap (string * string) Z; bu_fallbk : Z; bu_ttl : Z; bu_plane : string }.

Inductive BudgetErr : Type :=
| BudgetTTLNegative (ttl : Z)
| DefaultNegative (fallback : Z)
| LimitTenantRequired
| LimitNotPositive (tenant pipeline : string) (limit : Z)
| CountTenantRequired
| Counting (tenant : string) (e : KVErr).

Fixpoint check_limits (limits : list ((string * string) * Z)) (m : gmap (string * string) Z)
    : result BudgetErr (gmap (string * string) Z) :=
  match limits with
  | [] => Ok m
  | ((t, p), limit) :: limits =>
      if decide (t = "") then Err LimitTenantRequired
      else if decide (limit ≤ 0) then Err (LimitNotPositive t p limit)
      else check_limits limits (<[(t, p) := limit]> m)
  end.

(** The limits are in the order the map's range visits them; [now_text] names a
    plane that was given no id. *)
Definition NewBudgets (now_text : string) (cfg : BudgetConfig) : result BudgetErr Budgets :=
  let ttl := if decide (bc_TTL cfg = 0) then DefaultBudgetTTL else bc_TTL cfg in
  if decide (ttl < 0) then Err (BudgetTTLNegative ttl)
  else
    let fallback := if decide (bc_Default cfg = 0) then DefaultBudget else bc_Default cfg in
    if decide (fallback < 0) then Err (DefaultNegative fallback)
    else
      limits ← check_limits (bc_Limits cfg) ∅;
      Ok (mkBudgets limits fallback ttl (if decide (bc_PlaneID cfg = "") then now_text else bc_PlaneID cfg)).

(** ** Calls *)

Inductive buop : Type → Type :=
| UCtxErr : buop bool
| UClosed : buop bool
| UNow : buop Z.

Abbreviation btop := (plus bkop buop).
Abbreviation btcmd := (Program.cmd btop).
Definition slot_kv {X} (o : bkop X) : btcmd X := act (inl_ o).
Definition plane_state {X} (o : buop X) : btcmd X := act (inr_ o).

Section Budget.
Context `{SlotJSON} (b : Budgets).

Definition limitFor (tenantID pipelineID : string) : Z :=
  default (bu_fallbk b) (bu_limits b !! (tenantID, pipelineID)).

(** ** [Acquire]

    What it returns is its release function and whether a slot was taken: no
    slot is a release that does nothing. *)

Definition hold_slot (key : string) (revision : Z) : btcmd (option budgetSlot) :=
  closed <- plane_state UClosed;;
  Done (if closed : bool then None else Some (mkSlot key revision false)).

Definition slots_of (limit : Z) : list Z := map Z.of_nat (seq 0 (Z.to_nat limit)).

Fixpoint try_slots (tenantID pipelineID : string) (at_ : Z) (indices : list Z) : btcmd (option budgetSlot * bool) :=
  match indices with
  | [] => Done (None, false)
  | index :: indices =>
      let key := budgetKey tenantID pipelineID index in
      created <- slot_kv (BkCreate key (enc_slot (mkSlotRecord tenantID pipelineID index (bu_plane b) at_)));;
      match created with
      | Err _ => try_slots tenantID pipelineID at_ indices
      | Ok revision => slot <- hold_slot key revision;; Done (slot, true)
      end
  end.

Definition Acquire (tenantID pipelineID : string) : btcmd (option budgetSlot * bool) :=
  if decide (tenantID = "" ∨ pipelineID = "") then Done (None, false)
  else
    dead <- plane_state UCtxErr;;
    if dead : bool then Done (None, false)
    else
      closed <- plane_state UClosed;;
      if closed : bool then Done (None, false)
      else
        at_ <- plane_state UNow;;
        try_slots tenantID pipelineID at_ (slots_of (limitFor tenantID pipelineID)).

(** ** While it is held *)

(** Whether the renewing goroutine goes on. *)
Definition renewOnce (slot : budgetSlot) : btcmd (budgetSlot * bool) :=
  if sl_released slot then Done (slot, false)
  else
    entry <- slot_kv (BkGet (sl_key slot));;
    match entry with
    | Ok (Some (value, rev)) =>
        if decide (rev ≠ sl_revision slot) then Done (slot, false)
        else
          r <- slot_kv (BkUpdate (sl_key slot) value (sl_revision slot));;
          Done (match r with
                | Ok revision => (mkSlot (sl_key slot) revision (sl_released slot), true)
                | Err _ => (slot, false)
                end)
    | _ => Done (slot, false)
    end.

Definition release_slot (slot : budgetSlot) : btcmd budgetSlot :=
  if sl_released slot then Done slot
  else
    _ <- slot_kv (BkDelete (sl_key slot) (sl_revision slot));;
    Done (mkSlot (sl_key slot) (sl_revision slot) true).

Inductive event : Type := Tick | Release.

Fixpoint slot_life (events : list event) (renewing : bool) (slot : budgetSlot) : btcmd unit :=
  match events with
  | [] => Done tt
  | Tick :: events =>
      if renewing then r <- renewOnce slot;; slot_life events (snd r) (fst r) else slot_life events renewing slot
  | Release :: events => slot <- release_slot slot;; slot_life events renewing slot
  end.

(** One dispatch's slot, from the asking on. *)
Definition slot_process (tenantID pipelineID : string) (events : list event) : btcmd unit :=
  acquired <- Acquire tenantID pipelineID;;
  match acquired with
  | (Some slot, true) => slot_life events true slot
  | _ => Done tt
  end.

(** ** [InFlight] *)

Definition InFlight (tenantID : string) : btcmd (result BudgetErr Z) :=
  if decide (tenantID = "") then Done (Err CountTenantRequired)
  else
    keys <- slot_kv (BkListKeys (budgetPrefix +:+ encodeSegment tenantID +:+ ".>"));;
    Done (match keys with Ok keys => Ok (Z.of_nat (length keys)) | Err e => Err (Counting tenantID e) end).

End Budget.
