(* ===== verification/BudgetFacts.v ===== *)
(** * A pipeline's slots are counted once

    However many planes acquire, renew and give back, and whatever answers are
    lost, no more dispatches of a pipeline have been granted a slot, and neither
    given it back nor had it dropped by the server, than its limit
    ([slots_within_limit]); a plane alone takes a slot
    exactly when one is free ([acquire_takes_the_first_free]); and what
    [InFlight] counts is the tenant's slots ([in_flight_counts_the_tenant]). *)

From Stdlib Require Import Ascii DecimalString.
From S2P Require Import Prelude Bytes Program Bucket Budget.

Abbreviation btdid := (Program.did btop).

(** ** Keys *)

Definition slot_dot : Ascii.ascii := Ascii.ascii_of_N 46.

Lemma b64_encode_inj s t : b64_encode s = b64_encode t → s = t.
Proof. intros He%(f_equal b64_decode). rewrite !b64_decode_encode in He. by injection He. Qed.

Lemma dec_N_free n : string_all (λ d, negb (Ascii.eqb d slot_dot)) (dec_N n) = true.
Proof.
  unfold dec_N, NilZero.string_of_uint.
  assert (Hu : ∀ u, string_all (λ d, negb (Ascii.eqb d slot_dot)) (NilEmpty.string_of_uint u) = true) by (by induction u).
  by destruct (N.to_uint n).
Qed.

Lemma split_on_dot s t :
  string_all (λ d, negb (Ascii.eqb d slot_dot)) s = true → split_on slot_dot (s +:+ "." +:+ t) = s :: split_on slot_dot t.
Proof. exact (split_on_app slot_dot s t). Qed.

Lemma budgetKey_tokens t p index :
  0 ≤ index → split_on slot_dot (budgetKey t p index) = ["budget"; b64_encode t; b64_encode p; dec_Z index].
Proof.
  intros Hi. change (budgetKey t p index) with ("budget" +:+ "." +:+ b64_encode t +:+ "." +:+ b64_encode p +:+ "." +:+ dec_Z index).
  rewrite !split_on_dot by (done || by apply b64_encode_no_sep).
  rewrite split_on_none; [done|]. rewrite dec_Z_nonneg by done. apply dec_N_free.
Qed.

Lemma budgetKey_inj t p i t' p' i' :
  0 ≤ i → 0 ≤ i' → budgetKey t p i = budgetKey t' p' i' → t = t' ∧ p = p' ∧ i = i'.
Proof.
  intros Hi Hi' He%(f_equal (split_on slot_dot)). rewrite !budgetKey_tokens in He by done.
  injection He as Ht%b64_encode_inj Hp%b64_encode_inj Hn. rewrite !dec_Z_nonneg in Hn by done.
  apply (inj dec_N) in Hn. split_and!; [done..|lia].
Qed.

Lemma slots_of_elem limit index : index ∈ slots_of limit ↔ 0 ≤ index < limit.
Proof.
  unfold slots_of. rewrite list_elem_of_fmap. split.
  - intros (n & -> & Hn%elem_of_seq). lia.
  - intros Hp. exists (Z.to_nat index). rewrite elem_of_seq. lia.
Qed.

(** ** What a process holds *)

(** By its own lights: the key and the revision of the last write that it was
    told had landed, whatever the bucket has there now, unless it has since
    asked for a delete. *)
Definition held_step (s : option (string * Z)) (d : btdid) : option (string * Z) :=
  match d with
  | Did (inl_ o) x =>
      match o in bkop X return X → option (string * Z) with
      | BkCreate key _ | BkUpdate key _ _ | BkPut key _ => λ x, match x with Ok rev => Some (key, rev) | Err _ => s end
      | BkDelete _ _ => λ _, None
      | _ => λ _, s
      end x
  | Did (inr_ _) _ => s
  end.
Definition held (h : list btdid) : option (string * Z) := foldl held_step None h.

Lemma held_snoc h d : held (h ++ [d]) = held_step (held h) d.
Proof. unfold held. by rewrite foldl_app. Qed.

(** The bucket, and each entry the server has dropped from it: its key and the
    revision it was at. *)
Abbreviation slot_world := (journal * list (string * Z))%type.

Section Slots.
Context `{SlotJSON} (b : Budgets).

Definition slot_of (t p key : string) : Prop := ∃ index, 0 ≤ index < limitFor b t p ∧ key = budgetKey t p index.

(** A process takes one slot of its pipeline, and afterwards writes and deletes
    only that one, at the revision it last wrote. *)
Definition slot_guard (t p : string) : Program.guard btop := λ X o h,
  match o with
  | inl_ (BkCreate key _) => slot_of t p key ∧ held h = None
  | inl_ (BkUpdate key data rev) => held h = Some (key, rev) ∧ Did (inl_ (BkGet key)) (Ok (Some (data, rev))) ∈ h
  | inl_ (BkDelete key rev) => held h = Some (key, rev)
  | inl_ (BkPut _ _) => False
  | _ => True
  end.

Section process.
Context (t p : string).

Definition owned (s : budgetSlot) (h : list btdid) : Prop :=
  sl_released s = false → held h = Some (sl_key s, sl_revision s).

Lemma safe_renewOnce s h :
  owned s h → safe (slot_guard t p) (renewOnce s) (λ r h', owned (fst r) h') h.
Proof.
  intros Ho. unfold renewOnce. destruct (sl_released s) eqn:Er; [done|]. specialize (Ho Er).
  apply safe_act_bind; [done|]. intros x.
  assert (H1 : held (h ++ [Did (inl_ (BkGet (sl_key s))) x]) = Some (sl_key s, sl_revision s)) by by rewrite held_snoc.
  destruct x as [[[v rev]|]|e]; [|exact (λ _, H1)..]. case_decide as Hrev; [exact (λ _, H1)|].
  assert (rev = sl_revision s) as -> by (by destruct (decide (rev = sl_revision s))).
  apply safe_act_bind; [split; [done|apply snoc_elem]|]. intros y. cbn [safe]. destruct y as [n|e]; intros _; by rewrite held_snoc.
Qed.

Lemma safe_release_slot s h :
  owned s h → safe (slot_guard t p) (release_slot s) (λ s' h', owned s' h') h.
Proof.
  intros Ho. unfold release_slot. destruct (sl_released s) eqn:Er; [done|]. specialize (Ho Er).
  apply safe_act_bind; [done|]. by intros x.
Qed.

Lemma safe_slot_life events renewing s h :
  owned s h → safe (slot_guard t p) (slot_life events renewing s) (λ _ _, True) h.
Proof.
  revert renewing s h. induction events as [|[] events IH]; intros renewing s h Ho; cbn [slot_life]; [done| |].
  - destruct renewing; [|by apply IH]. apply safe_bind. eapply safe_mono; [|by apply safe_renewOnce].
    intros r h' Hr. by apply IH.
  - apply safe_bind. eapply safe_mono; [|by apply safe_release_slot]. intros s' h' Hs. by apply IH.
Qed.

Lemma safe_try_slots at_ indices h :
  (∀ i, i ∈ indices → 0 ≤ i < limitFor b t p) → held h = None →
  safe (slot_guard t p) (try_slots b t p at_ indices)
    (λ r h', match r with (Some s, _) => owned s h' | (None, _) => True end) h.
Proof.
  revert h. induction indices as [|index indices IH]; intros h Hi Hh; cbn [try_slots]; [done|].
  apply safe_act_bind; [split; [|done]; exists index; split; [apply Hi; by left|done]|].
  intros [rev|e].
  - split; [done|]. intros closed. destruct closed; cbn; [done|]. intros _. by rewrite !held_snoc.
  - apply IH; [intros i Hin; apply Hi; by right|]. by rewrite held_snoc.
Qed.

Lemma safe_slot_process events : safe (slot_guard t p) (slot_process b t p events) (λ _ _, True) [].
Proof.
  unfold slot_process. apply safe_bind.
  apply (safe_mono _ _ (λ r h', match r with (Some s, _) => owned s h' | (None, _) => True end)).
  { intros [[s|] [|]] h' Hs; try done. by apply safe_slot_life. }
  unfold Acquire. case_decide; [done|]. split; [done|]. intros [|]; [done|]. split; [done|]. intros [|]; [done|].
  split; [done|]. intros at_. apply safe_try_slots; [|done]. intros i. by rewrite slots_of_elem.
Qed.

End process.
(** ** Many dispatches, one bucket *)

Definition btstep (X : Type) (o : btop X) (j j' : journal) : X → Prop :=
  match o with inl_ o => bk_step _ o j j' | inr_ _ => λ _, j' = j end.

Definition slot_step (X : Type) (o : btop X) (w w' : slot_world) (x : X) : Prop :=
  btstep X o (fst w) (fst w') x ∧ snd w' = snd w.

(** The server drops what was not rewritten in time: any entry, at any moment. *)
Definition drops (w w' : slot_world) : Prop :=
  ∃ key v r, entry_of (fst w) key = Some (v, r) ∧ w' = (j_age key (fst w), (key, r) :: snd w).

(** A process holds a slot: it was told that it has it, it has not asked for its
    release, and the server has not dropped the key since. What the bucket has
    under the key, and what other processes were told, is not asked. *)
Definition holds (w : slot_world) (h : list btdid) (key : string) : Prop :=
  ∃ rev, held h = Some (key, rev) ∧ ∀ r, (key, r) ∈ snd w → r < rev.

Definition drops_past (w : slot_world) : Prop :=
  ∀ key r, (key, r) ∈ snd w → r ≤ last_rev (fst w) ∧ ∀ v e, entry_of (fst w) key = Some (v, e) → r < e.
Definition held_below (w : slot_world) (hs : nat → list btdid) : Prop :=
  ∀ i key rev, held (hs i) = Some (key, rev) → rev ≤ last_rev (fst w).
Definition held_slots (work : list (string * string * list event)) (hs : nat → list btdid) : Prop :=
  ∀ i key rev t p ev, work !! i = Some (t, p, ev) → held (hs i) = Some (key, rev) → slot_of t p key.
(** What one holds is in the bucket, and nobody else holds it. *)
Definition held_there (w : slot_world) (hs : nat → list btdid) : Prop :=
  ∀ i key rev, held (hs i) = Some (key, rev) → (∀ r, (key, r) ∈ snd w → r < rev) →
  ∃ v e, entry_of (fst w) key = Some (v, e) ∧ rev ≤ e.
Definition held_alone (w : slot_world) (hs : nat → list btdid) : Prop :=
  ∀ i i' key, holds w (hs i) key → holds w (hs i') key → i = i'.

Definition slots_ok (work : list (string * string * list event)) (w : slot_world) (hs : nat → list btdid) : Prop :=
  drops_past w ∧ held_below w hs ∧ held_slots work hs ∧ held_there w hs ∧ held_alone w hs.

(** The histories after a call of process [i], given what it holds then. *)
Definition longer (hs : nat → list btdid) (i : nat) (d : btdid) : nat → list btdid :=
  λ k, if decide (k = i) then hs i ++ [d] else hs k.

Lemma longer_held hs i d k : held (longer hs i d k) = if decide (k = i) then held_step (held (hs i)) d else held (hs k).
Proof. unfold longer. case_decide; [by rewrite held_snoc|done]. Qed.

(** An entry at the revision one holds: one still holds it. *)
Lemma holds_current w h key rev :
  drops_past w → held h = Some (key, rev) → snd <$> entry_of (fst w) key = Some rev → holds w h key.
Proof.
  intros Hd Hh He. exists rev. split; [done|]. intros r Hr. destruct (entry_of (fst w) key) as [[v e]|] eqn:Ee; [|done].
  injection He as ->. by eapply Hd.
Qed.

(** A call that changes nothing, of which its process makes nothing new. *)
Lemma slots_quiet work w w' hs i d :
  slots_ok work w hs → w' = w → held_step (held (hs i)) d = held (hs i) ∨ held_step (held (hs i)) d = None →
  slots_ok work w' (longer hs i d).
Proof.
  intros (Hd & Hb & Hsl & Ht & Ha) -> Hi.
  assert (Hold : ∀ k key rev, held (longer hs i d k) = Some (key, rev) → held (hs k) = Some (key, rev)).
  { intros k key rev. rewrite longer_held. case_decide as Hk; [subst k; by destruct Hi as [-> | ->]|done]. }
  assert (Hholds : ∀ k key, holds w (longer hs i d k) key → holds w (hs k) key).
  { intros k key (rev & Hh & Hr). exists rev. split; [by apply Hold|done]. }
  split_and!; [done|..].
  - intros k key rev Hh. by eapply Hb, Hold.
  - intros k key rev t p ev Hw Hh. by eapply Hsl, Hold.
  - intros k key rev Hh. by eapply Ht, Hold.
  - intros k k' key H1 H2. eapply Ha; by apply Hholds.
Qed.

(** A write of a key that nobody but [i] holds, answered or not. *)
Lemma slots_put work w hs i d key data :
  slots_ok work w hs → (∀ k, holds w (hs k) key → k = i) →
  (∀ t p ev, work !! i = Some (t, p, ev) → slot_of t p key) →
  held_step (held (hs i)) d = held (hs i) ∨ held_step (held (hs i)) d = Some (key, last_rev (fst w) + 1) →
  slots_ok work (j_put key data (fst w), snd w) (longer hs i d).
Proof.
  intros (Hd & Hb & Hsl & Ht & Ha) Honly Hkey Hi.
  assert (Hl : last_rev (j_put key data (fst w)) = last_rev (fst w) + 1) by done.
  assert (Hcase : ∀ k key' rev, held (longer hs i d k) = Some (key', rev) →
    held (hs k) = Some (key', rev) ∨ k = i ∧ key' = key ∧ rev = last_rev (fst w) + 1).
  { intros k key' rev. rewrite longer_held. case_decide as Hk; [subst k|by left].
    destruct Hi as [-> | ->]; [by left|]. intros [= <- <-]. by right. }
  assert (Hholds : ∀ k key', holds (j_put key data (fst w), snd w) (longer hs i d k) key' →
    holds w (hs k) key' ∨ k = i ∧ key' = key).
  { intros k key' (rev & [Hh|(-> & -> & _)]%Hcase & Hr); [left; by exists rev|by right]. }
  split_and!.
  - intros key' r Hr. destruct (Hd key' r Hr) as [Hle He]. cbn [fst snd]. split; [lia|].
    intros v e. rewrite entry_of_put. case_decide; [intros [= _ <-]; lia|apply He].
  - intros k key' rev [Hh%Hb|(_ & _ & ->)]%Hcase; cbn [fst]; lia.
  - intros k key' rev t p ev Hw [Hh|(-> & -> & _)]%Hcase; [by eapply Hsl|by eapply Hkey].
  - intros k key' rev Hh Hr. cbn [fst]. rewrite entry_of_put. case_decide as Hk.
    + eexists _, _. split; [done|]. destruct (Hcase _ _ _ Hh) as [Hh'%Hb|(_ & _ & ->)]; lia.
    + destruct (Hcase _ _ _ Hh) as [Hh'|(_ & -> & _)]; [by eapply Ht|done].
  - intros k k' key' [H1|[-> ->]]%Hholds [H2|[-> Hk]]%Hholds; [by eapply Ha| | |done].
    + subst key'. by apply Honly.
    + symmetry. by apply Honly.
Qed.

(** The release of a slot that is held. *)
Lemma slots_remove work w hs i d key :
  slots_ok work w hs → holds w (hs i) key → held_step (held (hs i)) d = None →
  slots_ok work (j_remove key (fst w), snd w) (longer hs i d).
Proof.
  intros (Hd & Hb & Hsl & Ht & Ha) Hk Hi.
  assert (Hl : last_rev (j_remove key (fst w)) = last_rev (fst w) + 1) by done.
  assert (Hold : ∀ k key' rev, held (longer hs i d k) = Some (key', rev) → k ≠ i ∧ held (hs k) = Some (key', rev)).
  { intros k key' rev. rewrite longer_held. case_decide; [by rewrite Hi|done]. }
  assert (Hholds : ∀ k key', holds (j_remove key (fst w), snd w) (longer hs i d k) key' → k ≠ i ∧ holds w (hs k) key').
  { intros k key' (rev & [Hne Hh]%Hold & Hr). split; [done|]. by exists rev. }
  split_and!.
  - intros key' r Hr. destruct (Hd key' r Hr) as [Hle He]. cbn [fst snd]. split; [lia|].
    intros v e. rewrite entry_of_remove. case_decide; [done|apply He].
  - intros k key' rev [_ Hh%Hb]%Hold. cbn [fst]. lia.
  - intros k key' rev t p ev Hw [_ Hh]%Hold. by eapply Hsl.
  - intros k key' rev [Hne Hh]%Hold Hr. cbn [fst]. rewrite entry_of_remove. case_decide; [|by eapply Ht].
    subst key'. destruct Hne. apply (Ha k i key); [by exists rev|done].
  - intros k k' key' [_ H1]%Hholds [_ H2]%Hholds. by eapply Ha.
Qed.

Lemma slots_ok_call work t p ev i X (o : btop X) (x : X) w w' hs :
  work !! i = Some (t, p, ev) → slots_ok work w hs → slot_guard t p X o (hs i) → slot_step X o w w' x →
  slots_ok work w' (longer hs i (Did o x)).
Proof.
  intros Hw Hok HG [Hs Hdr]. destruct w' as [j' dr]. cbn [fst snd] in Hs, Hdr. subst dr.
  assert (Hsame : ∀ d, j' = fst w → held_step (held (hs i)) d = held (hs i) ∨ held_step (held (hs i)) d = None →
    slots_ok work (j', snd w) (longer hs i d)).
  { intros d -> Hi. eapply slots_quiet; [exact Hok|by destruct w|exact Hi]. }
  pose proof Hok as (Hd & _ & Hsl & Ht & Ha).
  destruct o as [o|o]; [|cbn [btstep] in Hs; subst j'; apply Hsame; [done|by left]].
  revert x HG Hs. destruct o as [pat|k|k da|k da|k da rv|k rv]; intros x HG Hs; cbn [btstep bk_step slot_guard] in HG, Hs.
  - destruct Hs as [-> _]. apply Hsame; [done|by left].
  - destruct Hs as [-> _]. apply Hsame; [done|by left].
  - done.
  - destruct HG as [Hslot Hnone]. destruct Hs as [(-> & _ & ->)|[(-> & e & ->)|(He & -> & Hx)]]; [by apply Hsame; [|left]..|].
    apply slots_put; [done|intros k' (rev' & Hh' & Hr'); destruct (Ht k' k rev' Hh' Hr') as (? & ? & ? & _); congruence|intros t' p' ev' Hw'; rewrite Hw in Hw'; by injection Hw' as <- <- <-|].
    destruct Hx as [-> |[e ->]]; [by right|by left].
  - destruct HG as [Hheld _]. destruct Hs as [(-> & _ & ->)|[(-> & e & ->)|(He & -> & Hx)]]; [by apply Hsame; [|left]..|].
    apply slots_put; [done| |intros t' p' ev' Hw'; by eapply Hsl|destruct Hx as [-> |[e ->]]; [by right|by left]].
    intros k' Hk'. eapply Ha; [exact Hk'|]. by eapply holds_current.
  - destruct Hs as [(-> & _ & ->)|[(-> & e & ->)|(He & -> & Hx)]]; [by apply Hsame; [|right]..|].
    apply slots_remove; [done|by eapply holds_current|done].
Qed.

Lemma slots_ok_drops work w w' hs : slots_ok work w hs → bucket_ok (fst w) → drops w w' → slots_ok work w' hs.
Proof.
  intros (Hd & Hb & Hsl & Ht & Ha) [Hle _] (key & v & r & He & ->).
  assert (Hholds : ∀ k key', holds (j_age key (fst w), (key, r) :: snd w) (hs k) key' → holds w (hs k) key').
  { intros k key' (rev & Hh & Hr). exists rev. split; [done|]. intros r' Hr'. apply Hr. by right. }
  split_and!.
  - intros key' r' [[= -> ->]|Hr]%elem_of_cons; cbn [fst].
    + split; [by eapply Hle|]. intros v' e. by rewrite entry_of_age, decide_True.
    + destruct (Hd key' r' Hr) as [Hl Hn]. split; [done|]. intros v' e. rewrite entry_of_age. case_decide; [done|apply Hn].
  - intros k key' rev Hh%Hb. done.
  - done.
  - intros k key' rev Hh Hr. cbn [fst]. destruct (Ht k key' rev Hh) as (v' & e & He' & Hle'); [intros r' Hr'; apply Hr; by right|].
    rewrite entry_of_age. case_decide as Hk; [|eauto]. subst key'. rewrite He in He'. injection He' as <- <-.
    specialize (Hr r ltac:(by left)). lia.
  - intros k k' key' H1%Hholds H2%Hholds. by eapply Ha.
Qed.

Definition slots_inv (work : list (string * string * list event)) (w : slot_world) (hs : nat → list btdid) : Prop :=
  bucket_ok (fst w) ∧ slots_ok work w hs.

Lemma slots_kept work j0 tr ps' w' :
  bucket_ok j0 → interleaved slot_step drops (map (λ '(t, p, ev), slot_process b t p ev) work) (j0, []) tr ps' w' →
  slots_ok work w' (λ i, own i tr).
Proof.
  intros Hok Hr.
  destruct (interleaved_keeps (A := unit) slot_step drops
              (λ i X o h, ∃ t p ev, work !! i = Some (t, p, ev) ∧ slot_guard t p X o h)
              (slots_inv work) (map (λ '(t, p, ev), slot_process b t p ev) work) (j0, []) tr ps' w' (λ _, []))
    as (hs & Hown & _ & Hj); [| |exact Hr| | |].
  - intros w1 w2 hs [Hb Hs] Hd. split; [|by eapply slots_ok_drops]. destruct Hd as (key & v & r & _ & ->).
    by apply (j_gone_ok j_age (fst w1) key); [right|].
  - intros i X o x w1 w2 hs [Hb Hs] (t & p & ev & Hw & HG) Hst. split; [|by eapply slots_ok_call].
    destruct Hst as [Hst _]. destruct o as [o|o]; cbn in Hst; [by eapply bk_step_ok|by rewrite Hst].
  - intros i c Hi. rewrite list_lookup_fmap in Hi. destruct (work !! i) as [[[t p] ev]|] eqn:Ew; [|done]. injection Hi as <-.
    eapply safe_guard_mono; [|apply (safe_slot_process t p ev)]. intros X o h HG. by exists t, p, ev.
  - split; [done|]. split_and!; try done; [by intros key r Hn%elem_of_nil|by intros i i' key (rev & Hx & _)].
  - destruct Hj as (Hd & Hbelow & Hsl & Ht & Ha). split_and!; [done|..].
    + intros i key rev Hh. apply (Hbelow i key). by rewrite Hown.
    + intros i key rev t p ev Hw Hh. apply (Hsl i key rev t p ev Hw). by rewrite Hown.
    + intros i key rev Hh. apply (Ht i key rev). by rewrite Hown.
    + intros i i' key H1 H2. apply (Ha i i' key); by rewrite Hown.
Qed.

(** C17: Any number of dispatches of any pipelines acquire, renew and give back
    slots, interleaved in any order over one bucket, with any answer failing or
    lost and the server dropping any key at any time: of one pipeline, never
    more of them hold a slot than the pipeline's limit. A dispatch holds one
    from the answer that gave it to it until it asks for its release or the
    server drops the key; what the bucket holds, or who else was told the same,
    does not enter. A dispatch that goes on past the drop is not counted. *)
Theorem slots_within_limit work j0 tr ps' w' t p ids :
  bucket_ok j0 → interleaved slot_step drops (map (λ '(t, p, ev), slot_process b t p ev) work) (j0, []) tr ps' w' →
  NoDup ids → (∀ i, i ∈ ids → (∃ ev, work !! i = Some (t, p, ev)) ∧ ∃ key, holds w' (own i tr) key) →
  Z.of_nat (length ids) ≤ Z.max 0 (limitFor b t p).
Proof.
  intros Hok Hr Hnd Hids. destruct (slots_kept _ _ _ _ _ Hok Hr) as (_ & _ & Hsl & _ & Ha).
  assert (Hkey : ∀ i, i ∈ ids → ∃ index, index ∈ slots_of (limitFor b t p) ∧ holds w' (own i tr) (budgetKey t p index)).
  { intros i [[ev Hw] [key Hh]]%Hids. pose proof Hh as (rev & Hheld & _).
    destruct (Hsl i key rev t p ev Hw Hheld) as (index & Hi & ->). exists index. by rewrite slots_of_elem. }
  transitivity (Z.of_nat (length (slots_of (limitFor b t p)))); [|unfold slots_of; rewrite length_map, length_seq; lia].
  apply Nat2Z.inj_le. clear Hids. revert Hkey. generalize (slots_of (limitFor b t p)) as room. revert Hnd.
  induction ids as [|i ids IH]; intros Hnd room Hkey; [simpl; lia|]. apply NoDup_cons in Hnd as [Hni Hnd].
  destruct (Hkey i) as (index & Hin & Hh); [by left|]. apply list_elem_of_split in Hin as (r1 & r2 & ->).
  rewrite length_app. simpl. specialize (IH Hnd (r1 ++ r2)). rewrite length_app in IH.
  enough (length ids ≤ length r1 + length r2)%nat by lia. apply IH. intros i' Hi'.
  destruct (Hkey i') as (index' & Hin' & Hh'); [by right|]. exists index'. split; [|done].
  apply elem_of_app in Hin' as [?|[-> |?]%elem_of_cons]; [apply elem_of_app; by left| |apply elem_of_app; by right].
  destruct Hni. by rewrite (Ha i i' _ Hh Hh').
Qed.

(** ** A plane on its own *)

(** A bucket that answers truthfully, to a plane that is not stopping. *)
Definition open_plane (now : Z) (X : Type) (o : btop X) (j : journal) : journal * X :=
  match o in plus _ _ _ return journal * X with
  | inl_ o => bk_answer _ o j
  | inr_ o => (j, match o in buop X return X with UCtxErr => false | UClosed => false | UNow => now end)
  end.

(** What [Acquire] comes to. *)
Definition acquired (t p : string) (j j' : journal) (r : option budgetSlot * bool) (room : list Z) : Prop :=
  match r with
  | (Some s, ok) =>
      ok = true ∧ ∃ before index after, room = before ++ index :: after ∧ s = mkSlot (budgetKey t p index) (last_rev j + 1) false
      ∧ entry_of j (sl_key s) = None ∧ (∀ i, i ∈ before → entry_of j (budgetKey t p i) ≠ None)
      ∧ snd <$> entry_of j' (sl_key s) = Some (sl_revision s) ∧ ∀ k, k ≠ sl_key s → entry_of j' k = entry_of j k
  | (None, ok) => ok = false ∧ j' = j ∧ ∀ i, i ∈ room → entry_of j (budgetKey t p i) ≠ None
  end.

Lemma try_slots_takes now t p at_ room j :
  let out := drive (open_plane now) (try_slots b t p at_ room) j in acquired t p j out.1.1 out.2 room.
Proof.
  induction room as [|index room IH]; [by split_and!; [..|intros i Hi%elem_of_nil]|].
  cbn zeta. cbn [try_slots drive cbind slot_kv act open_plane bk_answer].
  destruct (entry_of j (budgetKey t p index)) as [[v r]|] eqn:Ee.
  - destruct (drive (open_plane now) (try_slots b t p at_ room) j) as [[j' tr] [[s|] ok]] eqn:Ed; cbn [fst snd acquired] in IH |- *.
    + destruct IH as (-> & before & i & after & -> & -> & Hn & Hbefore & Hrest). split; [done|].
      exists (index :: before), i, after. split_and!; [done|done|done| |apply Hrest..].
      intros k [-> |Hk]%elem_of_cons; [congruence|by apply Hbefore].
    + destruct IH as (-> & -> & Hn). split_and!; [done..|]. intros k [-> |Hk]%elem_of_cons; [congruence|by apply Hn].
  - cbn [fst snd acquired drive cbind hold_slot plane_state act open_plane sl_key sl_revision]. split; [done|]. exists [], index, room. rewrite entry_of_put, decide_True by done.
    split_and!; [done|done|done|by intros k Hk%elem_of_nil|done|]. intros k Hk. by rewrite entry_of_put, decide_False.
Qed.

(** With the bucket answering, a plane that is not stopping gets a slot of a
    pipeline exactly when one below its limit is free, at once: it is the first
    free one, its key is then in the bucket at the revision the slot carries,
    and no other key has changed. With none free nothing is written. *)
Theorem acquire_takes_the_first_free now t p j :
  t ≠ "" → p ≠ "" →
  let out := drive (open_plane now) (Acquire b t p) j in
  acquired t p j out.1.1 out.2 (slots_of (limitFor b t p)).
Proof.
  intros Ht Hp. unfold Acquire. rewrite decide_False by tauto. cbn zeta.
  cbn [drive cbind plane_state act open_plane]. pose proof (try_slots_takes now t p now (slots_of (limitFor b t p)) j) as Hs.
  destruct (drive (open_plane now) _ j) as [[j' tr] r]. exact Hs.
Qed.

(** ** [InFlight] *)

Lemma b64_not_star s : b64_encode s ≠ "*".
Proof. intros He. pose proof (b64_encode_no_sep "*"%char s eq_refl) as Hf. rewrite He in Hf. done. Qed.

Lemma slot_matches tenant t p index :
  0 ≤ index →
  tokens_match (split_on slot_dot (budgetPrefix +:+ encodeSegment tenant +:+ ".>")) (split_on slot_dot (budgetKey t p index))
  = bool_decide (tenant = t).
Proof.
  intros Hi. rewrite budgetKey_tokens by done.
  change (budgetPrefix +:+ encodeSegment tenant +:+ ".>") with ("budget" +:+ "." +:+ b64_encode tenant +:+ "." +:+ ">").
  rewrite !split_on_dot by (done || by apply b64_encode_no_sep).
  change (split_on slot_dot ">") with [">"]. cbn [tokens_match].
  rewrite !decide_False by (intros [? ?]; done). rewrite decide_True by done.
  rewrite (bool_decide_false (b64_encode tenant = "*")) by apply b64_not_star.
  rewrite andb_true_r. cbn [orb]. rewrite (bool_decide_true ("budget" = "budget")) by done.
  rewrite orb_true_r. cbn [andb]. apply bool_decide_ext. split; [apply b64_encode_inj|by intros ->].
Qed.

(** Whatever bucket answers it, so long as it holds slots alone: the number of
    the tenant's slots in it. *)
Lemma in_flight_counts_the_tenant (answer : ∀ X, btop X → journal → journal * X) tenant j n :
  (∀ X o j, btstep X o j (fst (answer X o j)) (snd (answer X o j))) →
  tenant ≠ "" → (∀ k, is_Some (entry_of j k) → ∃ t p index, 0 ≤ index ∧ k = budgetKey t p index) →
  (drive answer (InFlight tenant) j).2 = Ok n →
  ∃ slots : gset string, n = Z.of_nat (size slots)
    ∧ ∀ k, k ∈ slots ↔ is_Some (entry_of j k) ∧ ∃ p index, 0 ≤ index ∧ k = budgetKey tenant p index.
Proof.
  intros Ha Ht Hkeys. unfold InFlight. rewrite decide_False by done. cbn [drive cbind slot_kv act].
  specialize (Ha _ (inl_ (BkListKeys (budgetPrefix +:+ encodeSegment tenant +:+ ".>"))) j).
  destruct (answer _ _ j) as [j' x]. cbn [fst snd btstep bk_step] in Ha |- *.
  destruct Ha as [-> [(keys & -> & Hnd & Hl)|[e ->]]]; [|done]. intros [= <-].
  exists (list_to_set keys). split; [by rewrite size_list_to_set|]. intros k. rewrite elem_of_list_to_set, Hl. split.
  - intros [Hk Hm]. split; [done|]. destruct (Hkeys k Hk) as (t & p & index & Hi & ->).
    rewrite slot_matches in Hm by done. apply bool_decide_eq_true in Hm as ->. by exists p, index.
  - intros [Hk (p & index & Hi & ->)]. split; [done|]. rewrite slot_matches by done. by apply bool_decide_eq_true.
Qed.

End Slots.

(** ** One lost answer *)

(** A renewal whose read fails, for whatever reason, is the slot's last: the
    goroutine asks nothing more however many ticks follow, so the server drops
    a slot its holder is still using. *)
Lemma one_failed_renewal_is_the_last {W} (answer : ∀ X, btop X → W → W * X) s n w w' e :
  sl_released s = false → answer _ (inl_ (BkGet (sl_key s))) w = (w', Err e) →
  (drive answer (slot_life (replicate (S n) Tick) true s) w).1.2 = [Did (inl_ (BkGet (sl_key s))) (Err e)].
Proof.
  intros Hr Ha. cbn [replicate slot_life]. unfold renewOnce. rewrite Hr.
  cbn [drive cbind slot_kv act]. rewrite Ha. cbn [drive cbind fst snd].
  assert (Hstop : ∀ s, slot_life (replicate n Tick) false s = Done tt) by (intros s0; by induction n).
  by rewrite Hstop.
Qed.

(** ** Examples *)

#[local] Instance plain_slots : SlotJSON := sr_TenantID.
Definition ex_budgets : Budgets := mkBudgets {[("t", "p") := 2]} 16 30 "a".
Definition ex_work : list (string * string * list event) :=
  [("t", "p", [Tick; Tick]); ("t", "p", [Tick; Release]); ("t", "p", [Tick])].
Definition ex_slots : journal := mkJournal (mkBucket ∅ 0) [].
(** Two take a slot each and renew it, and the third finds none. *)
Definition open_slots (now : Z) (X : Type) (o : btop X) (w : slot_world) : slot_world * X :=
  let '(j, x) := open_plane now X o (fst w) in (j, snd w, x).
Definition ex_slots_play :=
  play (open_slots 7) (replicate 7 0 ++ replicate 8 1 ++ replicate 9 2)%nat
    (map (λ '(t, p, ev), slot_process ex_budgets t p ev) ex_work) (ex_slots, []).

Lemma ex_slots_ok : bucket_ok ex_slots.
Proof. split; [intros k v r|intros k1 k2 v1 v2 r]; unfold entry_of; cbn; by rewrite lookup_empty. Qed.

Lemma open_slots_step now X (o : btop X) w : slot_step X o w (fst (open_slots now X o w)) (snd (open_slots now X o w)).
Proof.
  unfold open_slots. destruct (open_plane now X o (fst w)) as [j x] eqn:Eo. split; [|done]. cbn [fst snd].
  destruct o as [o|o]; [|by injection Eo as <- _]. pose proof (bk_answer_step X o (fst w)) as Hs.
  cbn [open_plane] in Eo. by rewrite Eo in Hs.
Qed.

Lemma ex_slots_runs :
  interleaved slot_step drops (map (λ '(t, p, ev), slot_process ex_budgets t p ev) ex_work) (ex_slots, [])
    ex_slots_play.1.1 ex_slots_play.1.2 ex_slots_play.2.
Proof. unfold ex_slots_play. apply play_interleaved. intros X o w. apply open_slots_step. Qed.

Definition ex_holds (i : nat) : option string :=
  '(key, rev) ← held (own i ex_slots_play.1.1);
  if forallb (λ '(k, r), negb (bool_decide (k = key)) || (r <? rev)) (snd ex_slots_play.2) then Some key else None.

Lemma ex_holding : map ex_holds [0; 1; 2]%nat = [Some "budget.dA.cA.0"; Some "budget.dA.cA.1"; None].
Proof. vm_compute. reflexivity. Qed.

Lemma ex_holds_spec i key : ex_holds i = Some key → holds ex_slots_play.2 (own i ex_slots_play.1.1) key.
Proof.
  unfold ex_holds, holds. destruct (held _) as [[k rev]|]; cbn [mbind option_bind]; [|done].
  destruct (forallb _ _) eqn:Ef; [|done]. intros [= <-]. exists rev. split; [done|]. intros r Hr.
  rewrite forallb_forall in Ef. apply list_elem_of_In in Hr. specialize (Ef _ Hr). cbn in Ef.
  rewrite bool_decide_true in Ef by done. cbn in Ef. lia.
Qed.

Lemma ex_two_hold i :
  i ∈ [0; 1]%nat → (∃ ev, ex_work !! i = Some ("t", "p", ev)) ∧ ∃ key, holds ex_slots_play.2 (own i ex_slots_play.1.1) key.
Proof.
  assert (H0 : ex_holds 0 = Some "budget.dA.cA.0") by (vm_compute; reflexivity).
  assert (H1 : ex_holds 1 = Some "budget.dA.cA.1") by (vm_compute; reflexivity).
  apply ex_holds_spec in H0, H1.
  intros [-> |[-> |[]%elem_of_nil]%elem_of_cons]%elem_of_cons; (split; [by eexists|]).
  - exact (ex_intro _ _ H0).
  - exact (ex_intro _ _ H1).
Qed.

Lemma slots_within_limit_witness :
  map ex_holds [0; 1; 2]%nat = [Some "budget.dA.cA.0"; Some "budget.dA.cA.1"; None] ∧ 2 ≤ Z.max 0 (limitFor ex_budgets "t" "p").
Proof.
  split; [exact ex_holding|].
  exact (slots_within_limit ex_budgets ex_work ex_slots ex_slots_play.1.1 ex_slots_play.1.2 ex_slots_play.2 "t" "p"
           [0; 1]%nat ex_slots_ok ex_slots_runs ltac:(by apply (bool_decide_unpack _)) ex_two_hold).
Defined.

Lemma acquire_takes_the_first_free_witness :
  let out := drive (open_plane 7) (Acquire ex_budgets "t" "p") (fst ex_slots_play.2) in
  out.2 = (None, false) ∧ acquired "t" "p" (fst ex_slots_play.2) out.1.1 out.2 (slots_of (limitFor ex_budgets "t" "p")).
Proof.
  split; [vm_compute; reflexivity|].
  exact (acquire_takes_the_first_free ex_budgets 7 "t" "p" (fst ex_slots_play.2) ltac:(done) ltac:(done)).
Defined.
