(* ===== verification/Pool.v ===== *)
(** * Warm sandboxes: [internal/executor/pool/pool.go]

    A manager keeps sandboxes between steps, under a key of everything that
    decides what a sandbox is ([KeyFor]). Its state is changed under one mutex;
    what each critical section does is a function here. [Acquire] is three of
    them with the slow making of a sandbox in between. A [lease] is a handle
    with a mutex of its own, whose calls look at it first and reach the sandbox
    afterwards. [pool_step] is what any number of callers do to all of it at
    once. *)

From S2P Require Import Prelude Bytes Proto Cache Fleet.

Definition DefaultMaxSize : Z := 16.

(** ** [KeyFor] *)

(** [executor.Spec]. *)
Record SandboxSpec : Type := mkSandboxSpec
  { ss_Image : string; ss_Env : gmap string string; ss_WorkDir : string; ss_Lease : string;
    ss_Requirements : Requirements }.

(** One part as it is written to the hash: its length, a colon, itself. *)
Definition key_part (part : string) : string :=
  dec_N (N.of_nat (String.length part)) +:+ ":" +:+ part +:+ String (Ascii.ascii_of_N 10) "".

Definition write_parts (parts : list string) : string := foldr (λ p acc, key_part p +:+ acc) "" parts.

Definition env_parts (env : gmap string string) : list string :=
  flat_map (λ k, ["env"; k; default "" (env !! k)]) (sort_strings (elements (dom env))).

(** What is written to the hash, in order. *)
Definition pool_material (tenantID engineKind : string) (spec : SandboxSpec) : string :=
  let req := ss_Requirements spec in
  write_parts
    (["tenant"; tenantID; "kind"; engineKind;
      "image"; ss_Image spec; "workdir"; ss_WorkDir spec; "lease"; ss_Lease spec;
      "os"; req_OS req; "arch"; req_Arch req;
      "caps"; join "," (sort_strings (map Capability_String (req_Capabilities req)))]
     ++ env_parts (ss_Env spec)).

Definition KeyFor (sha256 : string → string) (tenantID engineKind : string) (spec : SandboxSpec) : string :=
  hex_encode (sha256 (pool_material tenantID engineKind spec)).

(** ** The manager *)

(** [pe_id] is the number in the sandbox's name, and stands for the entry
    itself: the code compares pointers. [pe_sb] is the sandbox. *)
Record pool_entry : Type := mkEntry
  { pe_id : Z; pe_sb : Z; pe_key : string; pe_inUse : bool; pe_idleSince : Z }.

Record Manager : Type := mkManager
  { pm_maxSize : Z; pm_entries : gmap string (list pool_entry); pm_live : Z; pm_closed : bool; pm_ids : Z }.

(** [New]. *)
Definition NewManager (maxSize : Z) : Manager :=
  mkManager (if decide (maxSize ≤ 0) then DefaultMaxSize else maxSize) ∅ 0 false 0.

Definition pool_at (m : Manager) (key : string) : list pool_entry := default [] (pm_entries m !! key).

(** A key with nothing under it is dropped. *)
Definition set_pool (key : string) (l : list pool_entry) (entries : gmap string (list pool_entry))
    : gmap string (list pool_entry) :=
  match l with [] => delete key entries | _ => <[key := l]> entries end.

Definition with_entries (entries : gmap string (list pool_entry)) (live : Z) (m : Manager) : Manager :=
  mkManager (pm_maxSize m) entries live (pm_closed m) (pm_ids m).

Definition use (e : pool_entry) : pool_entry := mkEntry (pe_id e) (pe_sb e) (pe_key e) true (pe_idleSince e).
Definition idle_since (now : Z) (e : pool_entry) : pool_entry := mkEntry (pe_id e) (pe_sb e) (pe_key e) false now.

(** [claimIdleLocked]: the last one that is idle. *)
Fixpoint claim_last (l : list pool_entry) : option (pool_entry * list pool_entry) :=
  match l with
  | [] => None
  | e :: l =>
      match claim_last l with
      | Some (c, l') => Some (c, e :: l')
      | None => if pe_inUse e then None else Some (use e, use e :: l)
      end
  end.

Definition claimIdle (key : string) (m : Manager) : option (pool_entry * Manager) :=
  match claim_last (pool_at m key) with
  | None => None
  | Some (e, l) => Some (e, with_entries (<[key := l]> (pm_entries m)) (pm_live m) m)
  end.

(** [evictOneIdleLocked]: the least recently used idle one, wherever it is; the
    first of equals in the [order] the map is visited in. *)
Definition older (victim : option (string * nat * pool_entry)) (c : string * nat * pool_entry)
    : option (string * nat * pool_entry) :=
  if pe_inUse c.2 then victim
  else match victim with
       | None => Some c
       | Some v => if decide (pe_idleSince c.2 < pe_idleSince v.2) then Some c else victim
       end.

Definition candidates (order : list string) (m : Manager) : list (string * nat * pool_entry) :=
  flat_map (λ key, imap (λ i e, (key, i, e)) (pool_at m key)) order.

Definition evictOneIdle (order : list string) (m : Manager) : option (pool_entry * Manager) :=
  match foldl older None (candidates order m) with
  | None => None
  | Some (key, i, e) =>
      Some (e, with_entries (set_pool key (delete i (pool_at m key)) (pm_entries m)) (pm_live m - 1) m)
  end.

(** [forgetLocked]. *)
Fixpoint forget_entry (id : Z) (l : list pool_entry) : list pool_entry :=
  match l with
  | [] => []
  | e :: l => if decide (pe_id e = id) then l else e :: forget_entry id l
  end.

Definition forget (e : pool_entry) (entries : gmap string (list pool_entry)) : gmap string (list pool_entry) :=
  match entries !! pe_key e with
  | None => entries
  | Some l => set_pool (pe_key e) (forget_entry (pe_id e) l) entries
  end.

(** ** [Acquire] *)

Inductive acquire_begun : Type :=
| BeginClosed
| BeginClaimed (e : pool_entry)
| BeginFull (limit : Z)
| BeginReserved (evicted : option pool_entry).

(** Up to the making of a sandbox; what was evicted is torn down before the
    mutex is given up. *)
Definition acquire_begin (order : list string) (key : string) (m : Manager) : Manager * acquire_begun :=
  if pm_closed m then (m, BeginClosed)
  else
    match claimIdle key m with
    | Some (e, m) => (m, BeginClaimed e)
    | None =>
        if decide (pm_maxSize m ≤ pm_live m) then
          match evictOneIdle order m with
          | None => (m, BeginFull (pm_maxSize m))
          | Some (e, m) => (with_entries (pm_entries m) (pm_live m + 1) m, BeginReserved (Some e))
          end
        else (with_entries (pm_entries m) (pm_live m + 1) m, BeginReserved None)
    end.

Definition acquire_failed (m : Manager) : Manager := with_entries (pm_entries m) (pm_live m - 1) m.

(** The sandbox is made: its entry, or none if the pool was closed meanwhile
    and the sandbox is to be torn down. *)
Definition acquire_end (key : string) (sb : Z) (m : Manager) : Manager * option pool_entry :=
  let e := mkEntry (pm_ids m + 1) sb key true 0 in
  let m := mkManager (pm_maxSize m) (pm_entries m) (pm_live m) (pm_closed m) (pm_ids m + 1) in
  if pm_closed m then (acquire_failed m, None)
  else (with_entries (<[key := pool_at m key ++ [e]]> (pm_entries m)) (pm_live m) m, Some e).

(** ** [Reap], [Close], [put] *)

Definition keep_pools (keep : pool_entry → bool) (entries : gmap string (list pool_entry)) : gmap string (list pool_entry) :=
  omap (λ l, match List.filter keep l with [] => None | l => Some l end) entries.

Definition doomed_of (keep : pool_entry → bool) (order : list string) (m : Manager) : list pool_entry :=
  flat_map (λ key, List.filter (λ e, negb (keep e)) (pool_at m key)) order.

Definition sweep (keep : pool_entry → bool) (order : list string) (m : Manager) : Manager * list pool_entry :=
  let doomed := doomed_of keep order m in
  (with_entries (keep_pools keep (pm_entries m)) (pm_live m - Z.of_nat (length doomed)) m, doomed).

Definition reaped (cutoff : Z) (e : pool_entry) : bool := pe_inUse e || bool_decide (cutoff < pe_idleSince e).
Definition Reap (order : list string) (now idle : Z) (m : Manager) : Manager * list pool_entry :=
  sweep (reaped (now - idle)) order m.

Definition Close (order : list string) (m : Manager) : Manager * list pool_entry :=
  sweep pe_inUse order (mkManager (pm_maxSize m) (pm_entries m) (pm_live m) true (pm_ids m)).

(** Whether the sandbox that came back is to be torn down. *)
Definition put_back (now : Z) (e : pool_entry) (broken : bool) (m : Manager) : Manager * bool :=
  if broken || pm_closed m then (with_entries (forget e (pm_entries m)) (pm_live m - 1) m, true)
  else
    let entries := forget e (pm_entries m) in
    (with_entries (<[pe_key e := default [] (entries !! pe_key e) ++ [idle_since now e]]> entries) (pm_live m) m, false).

(** ** Leases *)

Record lease : Type := mkLease { l_e : pool_entry; l_released : bool; l_broken : bool }.

Definition new_lease (e : pool_entry) : lease := mkLease e false false.

(** [SandboxID], [Scope], [Cacheable]. *)
Definition SandboxID (l : lease) : string := "pool-" +:+ dec_Z (pe_id (l_e l)).
Definition lease_Scope (l : lease) : string := LeasePool.
Definition Cacheable (l : lease) (step : option Step) (envIdentity : string) : bool * string :=
  Eligible step (lease_Scope l) envIdentity.

Inductive lease_call : Type := LExec | LPut | LGet | LMkdir | LSignal | LIdentity.

(** A failure of these says the sandbox itself is broken. *)
Definition breaks (c : lease_call) : bool := match c with LExec | LPut | LMkdir => true | _ => false end.

Definition mark_broken (l : lease) : lease := mkLease (l_e l) (l_released l) true.
Definition mark_released (l : lease) : lease := mkLease (l_e l) true (l_broken l).

(** ** Many callers *)

(** [w_making] are the keys of sandboxes being made, [w_returning] the leases
    whose release has been marked and not yet given back, and whether each was
    broken, [w_calling] the calls
    that have looked at their lease and not yet reached the sandbox. [w_made]
    and [w_torn] are the sandboxes made and torn down so far, [w_landed] the
    sandboxes calls have reached, and by which lease. *)
Record pool_world : Type := mkPool
  { w_m : Manager; w_leases : list lease; w_making : list string; w_returning : list (nat * bool);
    w_calling : list (nat * lease_call); w_made : list Z; w_torn : list Z; w_landed : list (nat * Z) }.

Definition pool_start (maxSize : Z) : pool_world := mkPool (NewManager maxSize) [] [] [] [] [] [] [].

Definition sandboxes (l : list pool_entry) : list Z := map pe_sb l.

(** A map is visited in any order, each key once. *)
Definition visits (order : list string) (m : Manager) : Prop := NoDup order ∧ ∀ k, k ∈ order ↔ is_Some (pm_entries m !! k).

(** An [Acquire] that finds the pool closed or full changes nothing. *)
Inductive pool_step : pool_world → pool_world → Prop :=
| po_claimed w order key m e :
    visits order (w_m w) → acquire_begin order key (w_m w) = (m, BeginClaimed e) →
    pool_step w (mkPool m (w_leases w ++ [new_lease e]) (w_making w) (w_returning w) (w_calling w) (w_made w) (w_torn w) (w_landed w))
| po_reserved w order key m evicted :
    visits order (w_m w) → acquire_begin order key (w_m w) = (m, BeginReserved evicted) →
    pool_step w (mkPool m (w_leases w) (key :: w_making w) (w_returning w) (w_calling w) (w_made w)
                   (w_torn w ++ sandboxes (option_list evicted)) (w_landed w))
| po_failed w a key b :
    w_making w = a ++ key :: b →
    pool_step w (mkPool (acquire_failed (w_m w)) (w_leases w) (a ++ b) (w_returning w) (w_calling w) (w_made w) (w_torn w) (w_landed w))
| po_made w a key b sb m e :
    w_making w = a ++ key :: b → sb ∉ w_made w → acquire_end key sb (w_m w) = (m, Some e) →
    pool_step w (mkPool m (w_leases w ++ [new_lease e]) (a ++ b) (w_returning w) (w_calling w) (w_made w ++ [sb]) (w_torn w) (w_landed w))
| po_made_late w a key b sb m :
    w_making w = a ++ key :: b → sb ∉ w_made w → acquire_end key sb (w_m w) = (m, None) →
    pool_step w (mkPool m (w_leases w) (a ++ b) (w_returning w) (w_calling w) (w_made w ++ [sb]) (w_torn w ++ [sb]) (w_landed w))
| po_reap w order now span m doomed :
    visits order (w_m w) → Reap order now span (w_m w) = (m, doomed) →
    pool_step w (mkPool m (w_leases w) (w_making w) (w_returning w) (w_calling w) (w_made w) (w_torn w ++ sandboxes doomed) (w_landed w))
| po_close w order m doomed :
    visits order (w_m w) → Close order (w_m w) = (m, doomed) →
    pool_step w (mkPool m (w_leases w) (w_making w) (w_returning w) (w_calling w) (w_made w) (w_torn w ++ sandboxes doomed) (w_landed w))
| po_check w i l call :
    w_leases w !! i = Some l → l_released l = false →
    pool_step w (mkPool (w_m w) (w_leases w) (w_making w) (w_returning w) ((i, call) :: w_calling w) (w_made w) (w_torn w) (w_landed w))
| po_land w i call a b l (failed : bool) :
    w_calling w = a ++ (i, call) :: b → w_leases w !! i = Some l →
    pool_step w (mkPool (w_m w) (if failed && breaks call then <[i := mark_broken l]> (w_leases w) else w_leases w)
                   (w_making w) (w_returning w) (a ++ b) (w_made w) (w_torn w) (w_landed w ++ [(i, pe_sb (l_e l))]))
| po_release w i l :
    w_leases w !! i = Some l → l_released l = false →
    pool_step w (mkPool (w_m w) (<[i := mark_released l]> (w_leases w)) (w_making w) ((i, l_broken l) :: w_returning w) (w_calling w)
                   (w_made w) (w_torn w) (w_landed w))
| po_put w i l now m (torn : bool) a b (broken : bool) :
    w_returning w = a ++ (i, broken) :: b → w_leases w !! i = Some l →
    put_back now (l_e l) broken (w_m w) = (m, torn) →
    pool_step w (mkPool m (w_leases w) (w_making w) (a ++ b) (w_calling w) (w_made w)
                   (w_torn w ++ (if torn then [pe_sb (l_e l)] else [])) (w_landed w)).
