(* ===== verification/PoolFacts.v ===== *)
(** * What a warm sandbox may be given to

    Whatever callers do at once, no two leases are on one sandbox, none is torn
    down under its lease, and every sandbox made is torn down once or still
    kept ([leases_are_exclusive], [pool_is_bounded_and_loses_nothing]); and a
    sandbox is only ever leased to one tenant, for one kind and one environment
    ([sandboxes_stay_in_their_tenant]). *)

From S2P Require Import Prelude Bytes Proto Cache Fleet Effects Pool.

(** ** All the entries *)

Definition entries_of (M : gmap string (list pool_entry)) : list pool_entry := map_to_list M ≫= snd.
Definition pool_of (M : gmap string (list pool_entry)) (key : string) : list pool_entry := default [] (M !! key).

Lemma entries_insert_fresh k l M : M !! k = None → entries_of (<[k := l]> M) ≡ₚ l ++ entries_of M.
Proof. intros Hk. unfold entries_of. by rewrite map_to_list_insert. Qed.

Lemma entries_at k M : entries_of M ≡ₚ pool_of M k ++ entries_of (delete k M).
Proof.
  unfold pool_of. destruct (M !! k) as [l|] eqn:E; cbn [default from_option id].
  - rewrite <-(insert_delete_id M k l) at 1 by done. by rewrite entries_insert_fresh by apply lookup_delete_eq.
  - by rewrite delete_id.
Qed.

Lemma entries_insert k l M : entries_of (<[k := l]> M) ≡ₚ l ++ entries_of (delete k M).
Proof. rewrite <-insert_delete_eq. by rewrite entries_insert_fresh by apply lookup_delete_eq. Qed.

Lemma entries_set k l M : entries_of (set_pool k l M) ≡ₚ l ++ entries_of (delete k M).
Proof. destruct l; [done|]. apply entries_insert. Qed.

Lemma entries_elem M e : e ∈ entries_of M ↔ ∃ k, e ∈ pool_of M k.
Proof.
  unfold entries_of, pool_of. rewrite list_elem_of_bind. split.
  - intros ([k l] & He & Hkl%elem_of_map_to_list). exists k. by rewrite Hkl.
  - intros [k He]. destruct (M !! k) as [l|] eqn:E; [|by apply elem_of_nil in He]. exists (k, l).
    split; [done|]. by apply elem_of_map_to_list.
Qed.

(** Over the keys in any order. *)
Lemma entries_visited order M :
  NoDup order → (∀ k, k ∈ order ↔ is_Some (M !! k)) → flat_map (pool_of M) order ≡ₚ entries_of M.
Proof.
  revert M. induction order as [|k order IH]; intros M Hnd Hk; cbn [flat_map].
  - replace M with (∅ : gmap string (list pool_entry)); [done|]. apply map_eq. intros k. rewrite lookup_empty.
    destruct (M !! k) eqn:E; [|done]. exfalso. apply (elem_of_nil k), Hk. by eexists.
  - apply NoDup_cons in Hnd as [Hn Hnd]. rewrite (entries_at k M). f_equiv.
    rewrite <-(IH (delete k M)); [|done|].
    + assert (Hsame : ∀ j, j ∈ order → pool_of (delete k M) j = pool_of M j).
      { intros j Hj. unfold pool_of. rewrite lookup_delete_ne; [done|]. by intros ->. }
      clear -Hsame. induction order as [|j order IH]; [done|]. cbn [flat_map]. rewrite Hsame by by left.
      f_equiv. apply IH. intros i Hi. apply Hsame. by right.
    + intros j. destruct (decide (j = k)) as [->|Hne].
      * rewrite lookup_delete_eq. split; [by intros|by intros [? ?]].
      * rewrite lookup_delete_ne by done. rewrite <-Hk, elem_of_cons. naive_solver.
Qed.

Lemma filter_flat_map {A B} (P : B → bool) (f : A → list B) l :
  List.filter P (flat_map f l) = flat_map (λ x, List.filter P (f x)) l.
Proof. induction l as [|x l IH]; [done|]. cbn [flat_map]. by rewrite List.filter_app, IH. Qed.

#[export] Instance filter_Permutation {A} (P : A → bool) : Proper ((≡ₚ) ==> (≡ₚ)) (List.filter P).
Proof.
  intros l1 l2. induction 1 as [|x l1 l2 _ IH|x y l|l1 l2 l3 _ IH1 _ IH2]; simpl; [done| | |by etrans].
  - destruct (P x); [by f_equiv|done].
  - destruct (P x), (P y); (done || apply Permutation_swap).
Qed.

Lemma doomed_entries keep order m :
  visits order m → doomed_of keep order m ≡ₚ List.filter (λ e, negb (keep e)) (entries_of (pm_entries m)).
Proof.
  intros [Hnd Hk]. rewrite <-(entries_visited order (pm_entries m)) by done. by rewrite filter_flat_map.
Qed.

Lemma kept_entries keep M : entries_of (keep_pools keep M) ≡ₚ List.filter keep (entries_of M).
Proof.
  induction M as [|k l M Hk IH] using map_ind; [done|].
  rewrite entries_insert_fresh, List.filter_app by done. unfold keep_pools.
  destruct (List.filter keep l) as [|e l'] eqn:El.
  - rewrite omap_insert_None; [|by rewrite El]. rewrite delete_id; [exact IH|]. by rewrite lookup_omap, Hk.
  - erewrite omap_insert_Some; [|by rewrite El]. rewrite entries_insert_fresh; [by f_equiv|]. by rewrite lookup_omap, Hk.
Qed.

Lemma filter_split {A} (P : A → bool) l : l ≡ₚ List.filter (λ x, negb (P x)) l ++ List.filter P l.
Proof.
  induction l as [|x l IH]; [done|]. cbn [List.filter]. destruct (P x); cbn [negb app].
  - rewrite <-Permutation_middle. by f_equiv.
  - by f_equiv.
Qed.

(** ** What each critical section does to them *)

Definition core (e : pool_entry) : Z * Z * string := (pe_id e, pe_sb e, pe_key e).
Definition cores (l : list pool_entry) : list (Z * Z * string) := map core l.
Definition busy (l : list pool_entry) : list (Z * Z * string) := cores (List.filter pe_inUse l).

Lemma cores_use e : core (use e) = core e.
Proof. done. Qed.

(** The last idle entry becomes busy, and nothing else changes. *)
Lemma claim_last_spec l e l' :
  claim_last l = Some (e, l') →
  cores l' = cores l ∧ e ∈ l' ∧ pe_inUse e = true ∧ busy l' ≡ₚ core e :: busy l.
Proof.
  revert e l'. induction l as [|x l IH]; intros e l'; cbn [claim_last]; [done|].
  destruct (claim_last l) as [[c l1]|].
  - intros [= <- <-]. destruct (IH c l1 eq_refl) as (Hc & Hin & Hu & Hb). split_and!; [|by right|done|].
    + unfold cores in *. cbn [map]. by rewrite Hc.
    + unfold busy in *. cbn [List.filter]. destruct (pe_inUse x); cbn [cores map]; [|done].
      fold (cores (List.filter pe_inUse l1)) (cores (List.filter pe_inUse l)). rewrite Hb. apply Permutation_swap.
  - destruct (pe_inUse x) eqn:Eu; [done|]. intros [= <- <-]. split_and!; [done|by left|done|].
    unfold busy. cbn [List.filter]. by rewrite Eu.
Qed.

Lemma older_spec l key i e : foldl older None l = Some (key, i, e) → pe_inUse e = false ∧ (key, i, e) ∈ l.
Proof.
  assert (Hgen : ∀ l' v, (∀ c, c ∈ l' → c ∈ l) → (∀ c, v = Some c → pe_inUse c.2 = false ∧ c ∈ l) →
    foldl older v l' = Some (key, i, e) → pe_inUse e = false ∧ (key, i, e) ∈ l); [|by apply (Hgen l None)].
  induction l' as [|c l' IH]; intros v Hl Hv; cbn [foldl]; [intros ->; by apply (Hv _ eq_refl)|].
  apply IH; [intros c' Hc'; apply Hl; by right|]. intros c'. unfold older.
  destruct (pe_inUse c.2) eqn:Eu; [apply Hv|]. destruct v as [v|]; [case_decide; [|apply Hv]|]; intros [= <-];
    (split; [done|apply Hl; by left]).
Qed.

Lemma candidates_elem order m key i e : (key, i, e) ∈ candidates order m → key ∈ order ∧ pool_at m key !! i = Some e.
Proof.
  unfold candidates. rewrite list_elem_of_In, in_flat_map. setoid_rewrite <-list_elem_of_In.
  intros (k & Hk & Hin). apply elem_of_lookup_imap in Hin as (j & x & [= -> -> ->] & Hx). done.
Qed.

Lemma evict_spec order m e m' :
  evictOneIdle order m = Some (e, m') →
  pe_inUse e = false ∧ entries_of (pm_entries m) ≡ₚ e :: entries_of (pm_entries m')
  ∧ pm_live m' = pm_live m - 1 ∧ pm_maxSize m' = pm_maxSize m ∧ pm_closed m' = pm_closed m ∧ pm_ids m' = pm_ids m.
Proof.
  unfold evictOneIdle. destruct (foldl older None (candidates order m)) as [[[key i] v]|] eqn:Ev; [|done]. intros [= <- <-].
  apply older_spec in Ev as [Hu Hin]. apply candidates_elem in Hin as [_ Hi]. split; [done|].
  split; [|done]. cbn [pm_entries with_entries]. rewrite entries_set, (entries_at key (pm_entries m)), app_comm_cons. f_equiv.
  change (pool_of (pm_entries m) key) with (pool_at m key). rewrite delete_take_drop.
  rewrite <-(take_drop_middle _ _ _ Hi) at 1. symmetry. apply Permutation_middle.
Qed.

Lemma forget_entry_spec id l e :
  NoDup (map pe_id l) → e ∈ l → pe_id e = id → l ≡ₚ e :: forget_entry id l.
Proof.
  induction l as [|x l IH]; intros Hnd Hin Hid; [by apply elem_of_nil in Hin|]. cbn [map] in Hnd. apply NoDup_cons in Hnd as [Hn Hnd].
  cbn [forget_entry]. case_decide as Hx.
  - apply elem_of_cons in Hin as [->|Hin]; [done|]. destruct Hn. rewrite Hx, <-Hid. by apply list_elem_of_fmap_2.
  - apply elem_of_cons in Hin as [->|Hin]; [done|]. rewrite Permutation_swap. f_equiv. by apply IH.
Qed.

(** Dropping what is there drops just that. *)
Lemma forget_spec M e x :
  NoDup (map pe_id (entries_of M)) → (∀ k y, y ∈ pool_of M k → pe_key y = k) →
  e ∈ entries_of M → core x = core e → entries_of M ≡ₚ e :: entries_of (forget x M).
Proof.
  intros Hnd Hkey Hin [= Hid _ Hk]. apply entries_elem in Hin as [k He]. assert (k = pe_key x) as ->.
  { by rewrite Hk, (Hkey k e). }
  unfold forget. rewrite (entries_at (pe_key x)). rewrite (entries_at (pe_key x)), map_app in Hnd.
  apply NoDup_app in Hnd as (Hnd & _ & _). unfold pool_of in He, Hnd |- *. destruct (M !! pe_key x) as [l|] eqn:El; [|by apply elem_of_nil in He].
  cbn [default from_option id] in *. rewrite entries_set, app_comm_cons. f_equiv. by apply forget_entry_spec.
Qed.

Lemma put_back_spec now x e broken m m' torn :
  NoDup (map pe_id (entries_of (pm_entries m))) → (∀ k y, y ∈ pool_at m k → pe_key y = k) →
  e ∈ entries_of (pm_entries m) → core x = core e → put_back now x broken m = (m', torn) →
  pm_maxSize m' = pm_maxSize m ∧ pm_closed m' = pm_closed m ∧ pm_ids m' = pm_ids m
  ∧ ∃ rest, entries_of (pm_entries m) ≡ₚ e :: rest ∧
    if torn then entries_of (pm_entries m') ≡ₚ rest ∧ pm_live m' = pm_live m - 1
    else entries_of (pm_entries m') ≡ₚ idle_since now x :: rest ∧ pm_live m' = pm_live m ∧ pm_closed m = false.
Proof.
  intros Hnd Hkey Hin Hc. pose proof (forget_spec _ _ _ Hnd Hkey Hin Hc) as Hf. unfold put_back.
  destruct (broken || pm_closed m) eqn:Eb; intros [= <- <-]; (split_and!; [done..|]); exists (entries_of (forget x (pm_entries m)));
    (split; [done|]); [done|]. apply orb_false_iff in Eb as [_ Eb]. split_and!; [|done..]. cbn.
  rewrite entries_insert. fold (pool_of (forget x (pm_entries m)) (pe_key x)).
  rewrite <-app_assoc. cbn. rewrite <-Permutation_middle. f_equiv. by rewrite <-entries_at.
Qed.

(** ** Who holds what *)

(** A lease holds its entry until its release has given it back. *)
Definition holder (returning : list nat) (i : nat) (l : lease) : bool :=
  negb (l_released l) || bool_decide (i ∈ returning).
Definition held_by (returning : list nat) (i : nat) (l : lease) : list (Z * Z * string) :=
  if holder returning i l then [core (l_e l)] else [].
Definition holding (returning : list nat) (leases : list lease) : list (Z * Z * string) :=
  concat (imap (held_by returning) leases).

Lemma holding_snoc returning leases l :
  holding returning (leases ++ [l]) = holding returning leases ++ held_by returning (length leases) l.
Proof. unfold holding. rewrite imap_app, concat_app. simpl. by rewrite app_nil_r, Nat.add_0_r. Qed.

(** One lease among the others. *)
Lemma holding_at returning leases i l :
  leases !! i = Some l → ∃ others,
    (∀ returning' l', (∀ j, j ≠ i → j ∈ returning' ↔ j ∈ returning) →
       holding returning' (<[i := l']> leases) ≡ₚ held_by returning' i l' ++ others)
    ∧ ∀ j lj, j ≠ i → leases !! j = Some lj → holder returning j lj = true → core (l_e lj) ∈ others.
Proof.
  intros Hi. rewrite <-(take_drop_middle _ _ _ Hi).
  pose proof (lookup_lt_Some _ _ _ Hi) as Hlt.
  assert (Hlen : length (take i leases) = i) by (rewrite length_take; lia).
  exists (concat (imap (held_by returning) (take i leases))
          ++ concat (imap (λ n, held_by returning (i + S n)) (drop (S i) leases))). split.
  - intros ret' l' Hsame. rewrite insert_app_r_alt by lia. rewrite Hlen, Nat.sub_diag. cbn [insert list_insert].
    unfold holding. rewrite imap_app, concat_app, Hlen. cbn [imap concat]. rewrite Nat.add_0_r.
    rewrite Permutation_app_swap_app. f_equiv. apply Permutation_refl'. f_equal.
    + f_equal. apply imap_ext. intros j x Hx%lookup_lt_Some. unfold held_by, holder. rewrite length_take in Hx.
      erewrite bool_decide_ext; [done|]. apply Hsame. lia.
    + f_equal. apply imap_ext. intros j x _. unfold held_by, holder, compose.
      erewrite bool_decide_ext; [done|]. apply Hsame. lia.
  - intros j lj Hne Hj Hh. apply elem_of_app. rewrite lookup_app in Hj. 
    assert (Hone : core (l_e lj) ∈ held_by returning j lj) by (unfold held_by; rewrite Hh; by left).
    destruct (take i leases !! j) as [x|] eqn:Ej.
    + injection Hj as ->. left. apply list_elem_of_In, in_concat. exists (held_by returning j lj).
      split; [|by apply list_elem_of_In]. apply list_elem_of_In. apply elem_of_lookup_imap_2. done.
    + right. apply lookup_ge_None in Ej. rewrite Hlen in *. destruct (j - i)%nat as [|n] eqn:En; [lia|]. cbn in Hj.
      apply list_elem_of_In, in_concat. exists (held_by returning j lj). split; [|by apply list_elem_of_In].
      apply list_elem_of_In. replace j with (i + S n)%nat by lia.
      apply (elem_of_lookup_imap_2 (λ n, held_by returning (i + S n))). done.
Qed.

(** ** What every step keeps *)

Definition all_cores (m : Manager) : list (Z * Z * string) := cores (entries_of (pm_entries m)).
Definition all_busy (m : Manager) : list (Z * Z * string) := busy (entries_of (pm_entries m)).
Definition c_id (c : Z * Z * string) : Z := c.1.1.
Definition c_sb (c : Z * Z * string) : Z := c.1.2.
Definition well_keyed (m : Manager) : Prop := ∀ k e, e ∈ pool_at m k → pe_key e = k.

#[export] Instance busy_perm : Proper ((≡ₚ) ==> (≡ₚ)) busy.
Proof. intros l1 l2 Hl. unfold busy, cores. by rewrite Hl. Qed.
#[export] Instance cores_perm : Proper ((≡ₚ) ==> (≡ₚ)) cores.
Proof. intros l1 l2 Hl. unfold cores. by rewrite Hl. Qed.

Lemma cores_app l1 l2 : cores (l1 ++ l2) = cores l1 ++ cores l2.
Proof. apply map_app. Qed.
Lemma busy_app l1 l2 : busy (l1 ++ l2) = busy l1 ++ busy l2.
Proof. unfold busy. by rewrite List.filter_app, cores_app. Qed.
Lemma busy_cons e l : busy (e :: l) = (if pe_inUse e then [core e] else []) ++ busy l.
Proof. unfold busy. cbn [List.filter]. by destruct (pe_inUse e). Qed.
Lemma busy_sub l c : c ∈ busy l → c ∈ cores l.
Proof.
  unfold busy, cores. rewrite !list_elem_of_In, !in_map_iff. intros (e & He & Hin%filter_In). exists e. tauto.
Qed.
Lemma sandboxes_cores l : sandboxes l = map c_sb (cores l).
Proof. unfold sandboxes, cores. by rewrite map_map. Qed.

(** Everything but who is using what depends on the cores alone. *)
Record kept_ok (m : Manager) (making : list string) (made torn : list Z) : Prop := mkKeptOk
  { ko_bound : 0 < pm_maxSize m ∧ pm_live m ≤ pm_maxSize m;
    ko_live : pm_live m = Z.of_nat (length (all_cores m) + length making);
    ko_ids : NoDup (map c_id (all_cores m)) ∧ ∀ c, c ∈ all_cores m → c_id c ≤ pm_ids m;
    ko_sandboxes : NoDup made ∧ made ≡ₚ torn ++ map c_sb (all_cores m) }.

Definition same_frame (m m' : Manager) : Prop :=
  pm_maxSize m' = pm_maxSize m ∧ pm_closed m' = pm_closed m ∧ pm_ids m' = pm_ids m.

(** The same entries, whatever is now in use. *)
Lemma kept_same m m' making made torn :
  same_frame m m' → pm_live m' = pm_live m → all_cores m' ≡ₚ all_cores m → kept_ok m making made torn → kept_ok m' making made torn.
Proof.
  intros (Hmax & _ & Hids) Hl Hc [[H1 H2] H3 [H4 H5] [H6 H7]]. split.
  - by rewrite Hmax, Hl.
  - by rewrite Hl, (Permutation_length Hc).
  - rewrite Hids. split; [by rewrite Hc|]. intros c. rewrite Hc. apply H5.
  - split; [done|]. by rewrite Hc.
Qed.

(** Some are gone, and torn down. *)
Lemma kept_gone m m' gone making made torn :
  same_frame m m' → pm_live m' = pm_live m - Z.of_nat (length gone) → all_cores m ≡ₚ gone ++ all_cores m' →
  kept_ok m making made torn → kept_ok m' making made (torn ++ map c_sb gone).
Proof.
  intros (Hmax & _ & Hids) Hl Hc [[H1 H2] H3 [H4 H5] [H6 H7]].
  pose proof (Permutation_length Hc) as Hlen. rewrite length_app in Hlen. rewrite Hc, map_app in H4, H7. split.
  - rewrite Hmax, Hl. lia.
  - lia.
  - rewrite Hids. split; [by apply NoDup_app in H4 as (_ & _ & H4)|]. intros c Hin. apply H5. rewrite Hc, elem_of_app. by right.
  - split; [done|]. by rewrite H7, app_assoc.
Qed.

Lemma pool_at_insert k l M max live closed ids k' :
  pool_at (mkManager max (<[k := l]> M) live closed ids) k' = if decide (k' = k) then l else pool_of M k'.
Proof. unfold pool_at, pool_of. cbn. rewrite lookup_insert. destruct (decide (k = k')), (decide (k' = k)); (done || congruence). Qed.

Lemma claim_step key m e m' :
  claimIdle key m = Some (e, m') → well_keyed m →
  same_frame m m' ∧ pm_live m' = pm_live m ∧ all_cores m' ≡ₚ all_cores m ∧ well_keyed m'
  ∧ all_busy m' ≡ₚ core e :: all_busy m ∧ core e ∈ all_cores m.
Proof.
  unfold claimIdle. destruct (claim_last (pool_at m key)) as [[c l']|] eqn:Ec; [|done]. intros [= <- <-] Hk.
  apply claim_last_spec in Ec as (Hc & Hin & Hu & Hb). split; [done|]. split; [done|].
  assert (Hcores : all_cores (with_entries (<[key:=l']> (pm_entries m)) (pm_live m) m) ≡ₚ all_cores m).
  { unfold all_cores. cbn [pm_entries with_entries]. rewrite entries_insert, (entries_at key (pm_entries m)), !cores_app, Hc. done. }
  split; [done|]. split_and!.
  - intros k e. unfold with_entries. rewrite pool_at_insert. case_decide as Hkk; [subst k|apply Hk]. intros He.
    assert (Hce : core e ∈ cores (pool_at m key)) by (rewrite <-Hc; apply list_elem_of_fmap; by eexists).
    apply list_elem_of_fmap in Hce as (e' & [= _ _ ->] & He'). by apply Hk.
  - unfold all_busy. cbn [pm_entries with_entries]. rewrite entries_insert, (entries_at key (pm_entries m)), !busy_app, Hb. done.
  - rewrite <-Hcores. unfold all_cores. cbn [pm_entries with_entries]. rewrite entries_insert, cores_app, elem_of_app. left.
    apply list_elem_of_fmap. by eexists.
Qed.

Lemma pool_of_set k l M k' : pool_of (set_pool k l M) k' = if decide (k' = k) then l else pool_of M k'.
Proof.
  unfold pool_of, set_pool. destruct l as [|e l]; rewrite ?lookup_delete, ?lookup_insert;
    destruct (decide (k = k')), (decide (k' = k)); (done || congruence).
Qed.

Lemma evict_step order m e m' :
  evictOneIdle order m = Some (e, m') → well_keyed m →
  same_frame m m' ∧ pm_live m' = pm_live m - 1 ∧ all_cores m ≡ₚ [core e] ++ all_cores m' ∧ well_keyed m'
  ∧ all_busy m' ≡ₚ all_busy m.
Proof.
  intros He Hk. destruct (evict_spec _ _ _ _ He) as (Hu & Hm & Hl & Hmax & Hcl & Hids). split_and!; [done..| | |].
  - unfold all_cores. by rewrite Hm.
  - unfold evictOneIdle in He. destruct (foldl older None (candidates order m)) as [[[key i] v]|]; [|done].
    injection He as -> <-. intros k y. change (y ∈ pool_of (set_pool key (delete i (pool_at m key)) (pm_entries m)) k → pe_key y = k).
    rewrite pool_of_set. case_decide as Hkk; [subst k|apply Hk]. intros Hy. apply Hk. revert Hy.
    rewrite delete_take_drop. intros [Hy|Hy]%elem_of_app; [by eapply elem_of_take in Hy as (? & ? & _); eapply list_elem_of_lookup_2|].
    by eapply subseteq_drop.
  - unfold all_busy. rewrite Hm, busy_cons, Hu. done.
Qed.

Lemma forget_entry_sub id l y : y ∈ forget_entry id l → y ∈ l.
Proof.
  induction l as [|e l IH]; cbn [forget_entry]; [done|]. case_decide; [by right|].
  intros [->|Hy]%elem_of_cons; [by left|right; auto].
Qed.

Lemma forget_sub x M k y : y ∈ pool_of (forget x M) k → y ∈ pool_of M k.
Proof.
  unfold forget. destruct (M !! pe_key x) as [l|] eqn:El; [|done]. rewrite pool_of_set. case_decide as Hk; [subst k|done].
  intros Hy%forget_entry_sub. unfold pool_of. by rewrite El.
Qed.

Lemma put_step now x broken m m' (torn : bool) :
  well_keyed m → NoDup (map c_id (all_cores m)) → core x ∈ all_busy m → put_back now x broken m = (m', torn) →
  same_frame m m' ∧ well_keyed m' ∧ all_busy m ≡ₚ core x :: all_busy m'
  ∧ if torn then pm_live m' = pm_live m - 1 ∧ all_cores m ≡ₚ [core x] ++ all_cores m' ∧ ∀ e, e ∈ entries_of (pm_entries m') → e ∈ entries_of (pm_entries m)
    else pm_live m' = pm_live m ∧ all_cores m' ≡ₚ all_cores m ∧ pm_closed m = false.
Proof.
  intros Hk Hnd Hb Hp. apply list_elem_of_fmap in Hb as (e & Hc & Hin). apply list_elem_of_In, filter_In in Hin as [Hin Hu].
  apply list_elem_of_In in Hin. unfold all_cores, cores in Hnd. rewrite map_map in Hnd.
  destruct (put_back_spec _ _ _ _ _ _ _ Hnd Hk Hin Hc Hp) as (Hmax & Hcl & Hids & rest & Hm & Hm'). split; [done|]. split_and!.
  - unfold put_back in Hp. destruct (broken || pm_closed m); injection Hp as <- <-; intros k y.
    + change (y ∈ pool_of (forget x (pm_entries m)) k → pe_key y = k). intros Hy. by apply Hk, (forget_sub x).
    + unfold with_entries. rewrite pool_at_insert. case_decide as Hkk; [subst k|intros Hy; by apply Hk, (forget_sub x)].
      intros [Hy|Hy%list_elem_of_singleton]%elem_of_app; [by apply Hk, (forget_sub x)|by subst y].
  - unfold all_busy. rewrite Hm, busy_cons, Hu, Hc. destruct torn; [destruct Hm' as [-> _]; done|].
    destruct Hm' as (-> & _ & _). rewrite busy_cons. done.
  - destruct torn.
    + destruct Hm' as [Hm' Hl]. split; [done|]. split; [unfold all_cores; rewrite Hm, Hm', Hc; done|].
      intros y. rewrite Hm, Hm'. by right.
    + destruct Hm' as (Hm' & Hl & Hcl'). split; [done|]. split; [|done]. unfold all_cores. rewrite Hm, Hm'.
      unfold cores. cbn [map]. by rewrite <-Hc.
Qed.

Lemma busy_keep keep l : (∀ e, pe_inUse e = true → keep e = true) → busy (List.filter keep l) = busy l.
Proof.
  intros Hk. induction l as [|e l IH]; [done|]. cbn [List.filter]. destruct (keep e) eqn:Ek; rewrite ?busy_cons, IH; [done|].
  destruct (pe_inUse e) eqn:Eu; [|done]. apply Hk in Eu. congruence.
Qed.

Lemma sweep_step keep order m m' doomed :
  visits order m → (∀ e, pe_inUse e = true → keep e = true) → sweep keep order m = (m', doomed) → well_keyed m →
  same_frame m m' ∧ pm_live m' = pm_live m - Z.of_nat (length doomed) ∧ all_cores m ≡ₚ cores doomed ++ all_cores m'
  ∧ well_keyed m' ∧ all_busy m' ≡ₚ all_busy m
  ∧ ∀ e, e ∈ entries_of (pm_entries m') → keep e = true ∧ e ∈ entries_of (pm_entries m).
Proof.
  intros Hv Hkeep Hs Hk. unfold sweep in Hs. pose proof (doomed_entries keep order m Hv) as Hd.
  pose proof (kept_entries keep (pm_entries m)) as He. injection Hs as <- <-. split_and!; [done..| | | |].
  - unfold all_cores. cbn [pm_entries with_entries]. rewrite Hd, He, <-cores_app. by rewrite <-filter_split.
  - intros k y. change (y ∈ pool_of (keep_pools keep (pm_entries m)) k → pe_key y = k). unfold pool_of, keep_pools.
    rewrite lookup_omap. intros Hy. apply Hk. unfold pool_at. destruct (pm_entries m !! k) as [l|]; [|done]. cbn in Hy |- *.
    destruct (List.filter keep l) as [|z l'] eqn:El; [by apply elem_of_nil in Hy|]. cbn in Hy. rewrite <-El in Hy.
    apply list_elem_of_In, filter_In in Hy as [Hy _]. by apply list_elem_of_In.
  - unfold all_busy. cbn [pm_entries with_entries]. by rewrite He, busy_keep.
  - intros e. cbn [pm_entries with_entries]. rewrite He, list_elem_of_In, filter_In, <-list_elem_of_In. tauto.
Qed.

Lemma end_step key sb m m' e :
  acquire_end key sb m = (m', Some e) → well_keyed m →
  e = mkEntry (pm_ids m + 1) sb key true 0 ∧ pm_maxSize m' = pm_maxSize m ∧ pm_ids m' = pm_ids m + 1
  ∧ pm_closed m' = false ∧ pm_closed m = false ∧ pm_live m' = pm_live m ∧ all_cores m' ≡ₚ core e :: all_cores m
  ∧ all_busy m' ≡ₚ core e :: all_busy m ∧ well_keyed m'.
Proof.
  unfold acquire_end. cbn [pm_closed]. destruct (pm_closed m) eqn:Ec; [done|]. intros [= <- <-] Hk.
  assert (He : entries_of (pm_entries (with_entries (<[key:=pool_at m key ++ [mkEntry (pm_ids m + 1) sb key true 0]]> (pm_entries m)) (pm_live m)
             (mkManager (pm_maxSize m) (pm_entries m) (pm_live m) (pm_closed m) (pm_ids m + 1))))
          ≡ₚ mkEntry (pm_ids m + 1) sb key true 0 :: entries_of (pm_entries m)).
  { cbn [pm_entries with_entries]. rewrite entries_insert, (entries_at key (pm_entries m)), <-app_assoc.
    change (pool_of (pm_entries m) key) with (pool_at m key). cbn. symmetry. apply Permutation_middle. }
  split_and!; [done..| | |].
  - unfold all_cores. etrans; [apply cores_perm; exact He|done].
  - unfold all_busy. etrans; [apply busy_perm; exact He|]. by rewrite busy_cons.
  - intros k y. unfold with_entries. cbn [pm_maxSize pm_closed pm_ids]. rewrite pool_at_insert. case_decide as Hkk; [subst k|apply Hk].
    intros [Hy|Hy%list_elem_of_singleton]%elem_of_app; [by apply Hk|by subst y].
Qed.

Definition returned (w : pool_world) : list nat := map fst (w_returning w).

(** A sandbox has the key it was made for, in the pool and in every lease there
    ever was on it. *)
Definition key_once (w : pool_world) : Prop :=
  ∃ key_of : Z → string,
    (∀ l, l ∈ w_leases w → pe_sb (l_e l) ∈ w_made w ∧ pe_key (l_e l) = key_of (pe_sb (l_e l)))
    ∧ ∀ c, c ∈ all_cores (w_m w) → c.2 = key_of (c_sb c).

Record pool_ok (w : pool_world) : Prop := mkPoolOk
  { po_kept : kept_ok (w_m w) (w_making w) (w_made w) (w_torn w);
    po_keyed : well_keyed (w_m w);
    po_held : holding (returned w) (w_leases w) ≡ₚ all_busy (w_m w);
    po_back : NoDup (returned w) ∧ ∀ i, i ∈ returned w → ∃ l, w_leases w !! i = Some l ∧ l_released l = true;
    po_closed : pm_closed (w_m w) = true → ∀ e, e ∈ entries_of (pm_entries (w_m w)) → pe_inUse e = true;
    po_once : key_once w }.

Lemma holding_new ret leases e c m' :
  holding ret leases ≡ₚ c → m' ≡ₚ core e :: c → holding ret (leases ++ [new_lease e]) ≡ₚ m'.
Proof. intros Hc ->. rewrite holding_snoc. unfold held_by, holder. cbn. rewrite Hc. by rewrite Permutation_app_comm. Qed.

Lemma back_grows leases l (ret : list nat) :
  (∀ i, i ∈ ret → ∃ l, leases !! i = Some l ∧ l_released l = true) →
  ∀ i, i ∈ ret → ∃ l', (leases ++ [l]) !! i = Some l' ∧ l_released l' = true.
Proof. intros Hr i (l' & Hl & Hrel)%Hr. exists l'. split; [|done]. rewrite lookup_app_l; [done|by eapply lookup_lt_Some]. Qed.

Lemma ok_claimed w order key m e :
  pool_ok w → acquire_begin order key (w_m w) = (m, BeginClaimed e) →
  pool_ok (mkPool m (w_leases w ++ [new_lease e]) (w_making w) (w_returning w) (w_calling w) (w_made w) (w_torn w) (w_landed w)).
Proof.
  intros [Hkept Hkeyed Hheld [Hnd Hback] Hcl Honce] Ha. unfold acquire_begin in Ha.
  destruct (pm_closed (w_m w)) eqn:Ec; [done|]. destruct (claimIdle key (w_m w)) as [[e' m1]|] eqn:Ecl.
  2: { case_decide; [|done]. by destruct (evictOneIdle order (w_m w)) as [[??]|]. }
  injection Ha as -> ->. destruct (claim_step _ _ _ _ Ecl Hkeyed) as (Hf & Hl & Hc & Hk & Hb & Hin). split; cbn.
  - by eapply kept_same.
  - done.
  - by eapply holding_new.
  - split; [done|]. by apply back_grows.
  - destruct Hf as (_ & -> & _). congruence.
  - destruct Honce as (key_of & Hle & Hco). exists key_of. split; [|intros c; cbn; rewrite Hc; apply Hco].
    cbn. intros l [Hin'|Hin'%list_elem_of_singleton]%elem_of_app; [by apply Hle|]. subst l. cbn. split.
    + destruct Hkept as [_ _ _ [_ Hs]]. rewrite Hs, elem_of_app. right. apply list_elem_of_fmap. by exists (core e).
    + exact (Hco _ Hin).
Qed.

Lemma ok_reserved w order key m evicted :
  pool_ok w → acquire_begin order key (w_m w) = (m, BeginReserved evicted) →
  pool_ok (mkPool m (w_leases w) (key :: w_making w) (w_returning w) (w_calling w) (w_made w)
             (w_torn w ++ sandboxes (option_list evicted)) (w_landed w)).
Proof.
  intros [Hkept Hkeyed Hheld Hback Hcl Honce] Ha. unfold acquire_begin in Ha.
  destruct (pm_closed (w_m w)) eqn:Ec; [done|]. destruct (claimIdle key (w_m w)) as [[e' m1]|] eqn:Ecl; [done|].
  (* what is there before the slot is reserved *)
  assert (Hmid : ∃ m1, kept_ok m1 (w_making w) (w_made w) (w_torn w ++ sandboxes (option_list evicted)) ∧ well_keyed m1
    ∧ all_busy m1 ≡ₚ all_busy (w_m w) ∧ (∀ c, c ∈ all_cores m1 → c ∈ all_cores (w_m w)) ∧ pm_closed m1 = false
    ∧ pm_live m1 < pm_maxSize m1 ∧ m = with_entries (pm_entries m1) (pm_live m1 + 1) m1).
  { case_decide as Hfull.
    - destruct (evictOneIdle order (w_m w)) as [[v m1]|] eqn:Ev; [|done]. injection Ha as <- <-.
      destruct (evict_step _ _ _ _ Ev Hkeyed) as (Hf & Hl & Hc & Hk & Hb). exists m1. split_and!; [|done|done| | | |done].
      + rewrite sandboxes_cores. eapply kept_gone; [done| |exact Hc|done]. rewrite Hl. done.
      + intros c Hin. rewrite Hc, elem_of_app. by right.
      + destruct Hf as (_ & -> & _). done.
      + destruct Hkept as [[_ Hle] _ _ _]. destruct Hf as (-> & _ & _). lia.
    - injection Ha as <- <-. exists (w_m w). cbn. rewrite app_nil_r. split_and!; [done..|lia|done]. }
  destruct Hmid as (m1 & [[H1 H2] H3 H4 H5] & Hk1 & Hb1 & Hc1 & Ecl1 & Hroom & ->). split; cbn.
  - split; [cbn; lia| |done|done]. change (all_cores (with_entries _ _ _)) with (all_cores m1). cbn. lia.
  - exact Hk1.
  - change (all_busy (with_entries _ _ _)) with (all_busy m1). by rewrite Hb1.
  - done.
  - congruence.
  - destruct Honce as (key_of & Hle & Hco). exists key_of. split; [exact Hle|]. intros c Hin. by apply Hco, Hc1.
Qed.

Lemma ok_failed w a key b :
  pool_ok w → w_making w = a ++ key :: b →
  pool_ok (mkPool (acquire_failed (w_m w)) (w_leases w) (a ++ b) (w_returning w) (w_calling w) (w_made w) (w_torn w) (w_landed w)).
Proof.
  intros [[[H1 H2] H3 H4 H5] Hkeyed Hheld Hback Hcl Honce] Hm. split; try done. split; cbn; [lia| |done|done].
  rewrite H3, Hm, !length_app. change (all_cores (acquire_failed (w_m w))) with (all_cores (w_m w)). simpl. lia.
Qed.

Lemma ok_made w a key b sb m e :
  pool_ok w → w_making w = a ++ key :: b → sb ∉ w_made w → acquire_end key sb (w_m w) = (m, Some e) →
  pool_ok (mkPool m (w_leases w ++ [new_lease e]) (a ++ b) (w_returning w) (w_calling w) (w_made w ++ [sb]) (w_torn w) (w_landed w)).
Proof.
  intros [[[H1 H2] H3 [H4 H5] [H6 H7]] Hkeyed Hheld [Hnd Hback] Hcl Honce] Hm Hsb He.
  destruct (end_step _ _ _ _ _ He Hkeyed) as (-> & Hmax & Hids & Hcl' & _ & Hl & Hc & Hb & Hk). split; cbn.
  - split.
    + by rewrite Hmax, Hl.
    + rewrite Hl, H3, Hm, (Permutation_length Hc), !length_app. simpl. lia.
    + rewrite Hids, Hc. cbn [map]. split.
      * apply NoDup_cons. split; [|done]. intros (c & Hi & Hin)%list_elem_of_fmap. apply H5 in Hin. cbn in Hi. lia.
      * intros c. rewrite Hc. intros [-> |Hin]%elem_of_cons; [cbn; lia|]. apply H5 in Hin. lia.
    + split; [apply NoDup_app; split_and!; [done|by intros x Hx ->%list_elem_of_singleton|apply NoDup_singleton]|].
      rewrite H7, Hc, <-app_assoc. f_equiv. by rewrite Permutation_app_comm.
  - done.
  - by eapply holding_new.
  - split; [done|]. by apply back_grows.
  - congruence.
  - destruct Honce as (key_of & Hle & Hco). exists (λ s, if decide (s = sb) then key else key_of s).
    assert (Hne : ∀ c, c ∈ all_cores (w_m w) → c_sb c ≠ sb).
    { intros c Hin Hs. apply Hsb. rewrite H7, elem_of_app. right. rewrite <-Hs. by apply list_elem_of_fmap_2. }
    split; cbn.
    + intros l [Hin|Hin%list_elem_of_singleton]%elem_of_app.
      * destruct (Hle l Hin) as [Hmd Hky]. split; [apply elem_of_app; by left|]. rewrite decide_False; [done|]. by intros <-.
      * subst l. cbn. split; [apply elem_of_app; right; by left|]. by rewrite decide_True.
    + intros c. rewrite Hc. intros [-> |Hin]%elem_of_cons; [cbn; by rewrite decide_True|].
      rewrite decide_False by by apply Hne. by apply Hco.
Qed.

Lemma ok_made_late w a key b sb m :
  pool_ok w → w_making w = a ++ key :: b → sb ∉ w_made w → acquire_end key sb (w_m w) = (m, None) →
  pool_ok (mkPool m (w_leases w) (a ++ b) (w_returning w) (w_calling w) (w_made w ++ [sb]) (w_torn w ++ [sb]) (w_landed w)).
Proof.
  intros [[[H1 H2] H3 [H4 H5] [H6 H7]] Hkeyed Hheld Hback Hcl Honce] Hm Hsb He.
  unfold acquire_end in He. cbn [pm_closed] in He. destruct (pm_closed (w_m w)) eqn:Ec; [|done]. injection He as <-.
  split; cbn.
  - split; cbn; [lia| | |].
    + rewrite H3, Hm, !length_app. change (all_cores (acquire_failed _)) with (all_cores (w_m w)). simpl. lia.
    + split; [exact H4|]. intros c Hin. specialize (H5 c Hin). lia.
    + split; [apply NoDup_app; split_and!; [done|by intros x Hx ->%list_elem_of_singleton|apply NoDup_singleton]|].
      change (all_cores (acquire_failed _)) with (all_cores (w_m w)). rewrite H7, <-!app_assoc. f_equiv. apply Permutation_app_comm.
  - done.
  - done.
  - done.
  - done.
  - destruct Honce as (key_of & Hle & Hco). exists key_of. split; [|exact Hco]. cbn. intros l Hin.
    destruct (Hle l Hin). split; [apply elem_of_app; by left|done].
Qed.

(** [Reap] and [Close] alike: what is in use stays. *)
Lemma ok_swept w keep order closed m doomed :
  pool_ok w → visits order (w_m w) → (∀ e, pe_inUse e = true → keep e = true) →
  (pm_closed (w_m w) = true → closed = true) →
  (closed = true → pm_closed (w_m w) = true ∨ ∀ e, keep e = true → pe_inUse e = true) →
  sweep keep order (mkManager (pm_maxSize (w_m w)) (pm_entries (w_m w)) (pm_live (w_m w)) closed (pm_ids (w_m w))) = (m, doomed) →
  pool_ok (mkPool m (w_leases w) (w_making w) (w_returning w) (w_calling w) (w_made w) (w_torn w ++ sandboxes doomed) (w_landed w)).
Proof.
  intros [Hkept Hkeyed Hheld Hback Hcl Honce] Hv Hkeep Hstay Hclosing Hs.
  destruct (sweep_step keep order (mkManager (pm_maxSize (w_m w)) (pm_entries (w_m w)) (pm_live (w_m w)) closed (pm_ids (w_m w)))
              m doomed Hv Hkeep Hs Hkeyed) as (Hf & Hl & Hc & Hk & Hb & Hall). split; cbn.
  - rewrite sandboxes_cores. eapply kept_gone; [exact Hf| |exact Hc|].
    + rewrite Hl. unfold cores. by rewrite length_map.
    + destruct Hkept. by split.
  - done.
  - by rewrite Hb.
  - done.
  - destruct Hf as (_ & -> & _). cbn. intros Ht e He. destruct (Hall e He) as [Hke Hin].
    destruct (Hclosing Ht) as [Hwas|Hidle]; [by apply Hcl|by apply Hidle].
  - destruct Honce as (key_of & Hle & Hco). exists key_of. split; [exact Hle|]. intros c Hin. apply Hco.
    change (c ∈ all_cores (mkManager (pm_maxSize (w_m w)) (pm_entries (w_m w)) (pm_live (w_m w)) closed (pm_ids (w_m w)))).
    rewrite Hc, elem_of_app. by right.
Qed.

(** A lease changed in place, its entry the same. *)
Lemma once_insert w i l l' :
  w_leases w !! i = Some l → l_e l' = l_e l → key_once w →
  ∃ key_of : Z → string,
    (∀ l, l ∈ <[i := l']> (w_leases w) → pe_sb (l_e l) ∈ w_made w ∧ pe_key (l_e l) = key_of (pe_sb (l_e l)))
    ∧ ∀ c, c ∈ all_cores (w_m w) → c.2 = key_of (c_sb c).
Proof.
  intros Hi He (key_of & Hle & Hco). exists key_of. split; [|done]. intros x [k Hk]%list_elem_of_lookup.
  destruct (decide (k = i)) as [->|Hne].
  - rewrite list_lookup_insert_eq in Hk by by eapply lookup_lt_Some. injection Hk as <-. rewrite He. apply Hle.
    by eapply list_elem_of_lookup_2.
  - rewrite list_lookup_insert_ne in Hk by done. apply Hle. by eapply list_elem_of_lookup_2.
Qed.

Lemma ok_land w i l call a b (failed : bool) :
  pool_ok w → w_leases w !! i = Some l →
  pool_ok (mkPool (w_m w) (if failed && breaks call then <[i := mark_broken l]> (w_leases w) else w_leases w)
             (w_making w) (w_returning w) (a ++ b) (w_made w) (w_torn w) (w_landed w ++ [(i, pe_sb (l_e l))])).
Proof.
  intros [Hkept Hkeyed Hheld [Hnd Hback] Hcl Honce] Hi. destruct (failed && breaks call); [|by split].
  split; cbn; try done.
  - destruct (holding_at (returned w) _ _ _ Hi) as (others & Heq & _).
    assert (Hwas : holding (returned w) (w_leases w) ≡ₚ held_by (returned w) i l ++ others).
    { rewrite <-(Heq _ l) by done. by rewrite list_insert_id. }
    etrans; [by apply Heq|]. by rewrite <-Hheld, Hwas.
  - split; [done|]. intros k Hk. destruct (Hback k Hk) as (lk & Hlk & Hr). destruct (decide (k = i)) as [->|Hne].
    + rewrite list_lookup_insert_eq by by eapply lookup_lt_Some. eexists. split; [done|]. cbn. congruence.
    + rewrite list_lookup_insert_ne by done. by exists lk.
  - exact (once_insert w i l (mark_broken l) Hi eq_refl Honce).
Qed.

Lemma ok_release w i l :
  pool_ok w → w_leases w !! i = Some l → l_released l = false →
  pool_ok (mkPool (w_m w) (<[i := mark_released l]> (w_leases w)) (w_making w) ((i, l_broken l) :: w_returning w) (w_calling w)
             (w_made w) (w_torn w) (w_landed w)).
Proof.
  intros [Hkept Hkeyed Hheld [Hnd Hback] Hcl Honce] Hi Hr.
  assert (Hni : i ∉ returned w) by (intros (lk & Hlk & Hrel)%Hback; congruence).
  split; cbn; try done.
  - destruct (holding_at (returned w) _ _ _ Hi) as (others & Heq & _).
    assert (Hwas : holding (returned w) (w_leases w) ≡ₚ held_by (returned w) i l ++ others).
    { rewrite <-(Heq _ l) by done. by rewrite list_insert_id. }
    etrans; [apply (Heq (i :: returned w)); intros j Hj; rewrite elem_of_cons; naive_solver|].
    rewrite <-Hheld, Hwas. unfold held_by, holder. rewrite Hr. cbn. rewrite bool_decide_true by by left. done.
  - split; [by apply NoDup_cons|]. intros k [-> |Hk]%elem_of_cons.
    + rewrite list_lookup_insert_eq by by eapply lookup_lt_Some. by eexists.
    + destruct (Hback k Hk) as (lk & Hlk & Hrk). rewrite list_lookup_insert_ne by congruence. by exists lk.
  - exact (once_insert w i l (mark_released l) Hi eq_refl Honce).
Qed.

Lemma ok_put w i l now m (torn : bool) a b broken :
  pool_ok w → w_returning w = a ++ (i, broken) :: b → w_leases w !! i = Some l → put_back now (l_e l) broken (w_m w) = (m, torn) →
  pool_ok (mkPool m (w_leases w) (w_making w) (a ++ b) (w_calling w) (w_made w)
             (w_torn w ++ (if torn then [pe_sb (l_e l)] else [])) (w_landed w)).
Proof.
  intros [Hkept Hkeyed Hheld [Hnd Hback] Hcl Honce] Hret Hi Hp. unfold returned in *. rewrite Hret, map_app in *. cbn [map fst] in *.
  assert (Hin : i ∈ map fst a ++ i :: map fst b) by (apply elem_of_app; right; by left).
  destruct (Hback i Hin) as (l0 & Hl0 & Hrel). rewrite Hi in Hl0. injection Hl0 as <-.
  assert (Hnot : i ∉ map fst a ++ map fst b).
  { rewrite Permutation_app_comm in Hnd. cbn in Hnd. apply NoDup_cons in Hnd as [Hn _]. rewrite Permutation_app_comm in Hn. done. }
  destruct (holding_at (map fst a ++ i :: map fst b) _ _ _ Hi) as (others & Heq & _).
  assert (Hbefore : holding (map fst a ++ i :: map fst b) (w_leases w) ≡ₚ core (l_e l) :: others).
  { rewrite <-(list_insert_id _ _ _ Hi), Heq by done. unfold held_by, holder. rewrite Hrel, bool_decide_true by done. done. }
  assert (Hafter : holding (map fst a ++ map fst b) (w_leases w) ≡ₚ others).
  { rewrite <-(list_insert_id _ _ _ Hi) at 1. rewrite Heq.
    - unfold held_by, holder. rewrite Hrel, bool_decide_false by done. done.
    - intros j Hj. rewrite !elem_of_app, elem_of_cons. naive_solver. }
  destruct (put_step _ _ _ _ _ _ Hkeyed (proj1 (ko_ids _ _ _ _ Hkept)) ltac:(rewrite <-Hheld, Hbefore; by left) Hp)
    as (Hf & Hk & Hb & Ht).
  assert (Hsame : ∀ c, c ∈ all_cores m → c ∈ all_cores (w_m w)).
  { intros c Hc. destruct torn; [destruct Ht as (_ & -> & _); by right|by destruct Ht as (_ & <- & _)]. }
  split; cbn.
  - destruct torn.
    + destruct Ht as (Hl & Hc & _). apply (kept_gone (w_m w) m [core (l_e l)]); [done|exact Hl|done..].
    + destruct Ht as (Hl & Hc & _). rewrite app_nil_r. by eapply kept_same.
  - done.
  - unfold returned. cbn. rewrite map_app, Hafter. apply (Permutation_cons_inv (a := core (l_e l))).
    rewrite <-Hbefore, Hheld. done.
  - unfold returned. cbn. rewrite map_app. split.
    + rewrite Permutation_app_comm in Hnd |- *. cbn in Hnd. by apply NoDup_cons in Hnd as [_ Hnd].
    + intros k Hkk. apply Hback. rewrite elem_of_app, elem_of_cons. apply elem_of_app in Hkk. tauto.
  - destruct Hf as (_ & Hcl' & _). rewrite Hcl'. intros Hc e He. destruct torn; [|destruct Ht as (_ & _ & Hopen); congruence].
    destruct Ht as (_ & _ & Hsub). apply Hcl; [done|by apply Hsub].
  - destruct Honce as (key_of & Hle & Hco). exists key_of. split; [exact Hle|]. intros c Hc. by apply Hco, Hsame.
Qed.

Lemma pool_step_ok w w' : pool_step w w' → pool_ok w → pool_ok w'.
Proof.
  intros Hs Hok. inversion Hs as [? ? ? ? ? ? Ha|? ? ? ? ? ? Ha|? ? ? ? Hm|? ? ? ? ? ? ? Hm Hsb He|? ? ? ? ? ? Hm Hsb He
    |? ? ? ? ? ? Hv Hr|? ? ? ? Hv Hr|? ? ? ? Hi|? ? ? ? ? ? ? Hc Hi|? ? ? Hi Hr|? ? ? ? ? ? ? ? ? Hret Hi Hp]; subst.
  - by eapply ok_claimed.
  - by eapply ok_reserved.
  - by eapply ok_failed.
  - by eapply ok_made.
  - by eapply ok_made_late.
  - unfold Reap in Hr. eapply (ok_swept w (reaped (now - span)) order (pm_closed (w_m w))); [done|done| |done|by left|].
    + intros e He. unfold reaped. by rewrite He.
    + rewrite <-Hr. by destruct (w_m w).
  - eapply (ok_swept w pe_inUse order true); [done|done|done|done|by right|exact Hr].
  - destruct Hok. by split.
  - by eapply ok_land.
  - by eapply ok_release.
  - by eapply ok_put.
Qed.

Lemma pool_start_ok n : pool_ok (pool_start n).
Proof.
  split; cbn; try done.
  - split; cbn; [|done| |].
    + unfold DefaultMaxSize. case_decide; lia.
    + split; [constructor|]. intros c Hc. by apply elem_of_nil in Hc.
    + split; [constructor|done].
  - intros k e He. by apply elem_of_nil in He.
  - split; [constructor|]. intros i Hi. by apply elem_of_nil in Hi.
  - exists (λ _, ""). split; intros ? Hin; by apply elem_of_nil in Hin.
Qed.

Definition pool_reaches (maxSize : Z) (w : pool_world) : Prop := rtc pool_step (pool_start maxSize) w.

Lemma pool_always n w : pool_reaches n w → pool_ok w.
Proof. intros Hr. eapply rtc_invariant; [|exact Hr|apply pool_start_ok]. intros ? ? ? ?. by eapply pool_step_ok. Qed.

(** ** Properties *)

Lemma size_steps w w' : pool_step w w' → pm_maxSize (w_m w') = pm_maxSize (w_m w).
Proof.
  assert (Hev : ∀ order m e m', evictOneIdle order m = Some (e, m') → pm_maxSize m' = pm_maxSize m).
  { intros order m e m'. unfold evictOneIdle. destruct (foldl _ _ _) as [[[k i] v]|]; [|done]. by intros [= _ <-]. }
  assert (Hb : ∀ order key m m' r, acquire_begin order key m = (m', r) → pm_maxSize m' = pm_maxSize m).
  { intros order key m m' r. unfold acquire_begin, claimIdle. destruct (pm_closed m); [by intros [= <- _]|].
    destruct (claim_last _) as [[e l]|]; [by intros [= <- _]|]. case_decide; [|by intros [= <- _]].
    destruct (evictOneIdle order m) as [[e m1]|] eqn:Ev; [|by intros [= <- _]]. intros [= <- _]. by apply (Hev _ _ _ _ Ev). }
  assert (He : ∀ key sb m m' r, acquire_end key sb m = (m', r) → pm_maxSize m' = pm_maxSize m).
  { intros key sb m m' r. unfold acquire_end. cbn [pm_closed]. destruct (pm_closed m); by intros [= <- _]. }
  destruct 1; cbn; try done; try (by eapply Hb); try (by eapply He).
  - match goal with Hr : Reap _ _ _ _ = _ |- _ => unfold Reap, sweep in Hr; by injection Hr as <- _ end.
  - match goal with Hr : Close _ _ = _ |- _ => unfold Close, sweep in Hr; by injection Hr as <- _ end.
  - match goal with Hp : put_back _ _ _ _ = _ |- _ => unfold put_back in Hp; destruct (_ || _); by injection Hp as <- _ end.
Qed.

Lemma size_always n w : pool_reaches n w → pm_maxSize (w_m w) = pm_maxSize (NewManager n).
Proof.
  intros Hr. eapply (rtc_invariant pool_step (λ w, pm_maxSize (w_m w) = pm_maxSize (NewManager n))); [|exact Hr|done].
  intros a b Ha Hs. by rewrite (size_steps _ _ Hs).
Qed.

Lemma held_in_pool w i l :
  pool_ok w → w_leases w !! i = Some l → holder (returned w) i l = true →
  ∃ e, e ∈ entries_of (pm_entries (w_m w)) ∧ pe_inUse e = true ∧ core e = core (l_e l).
Proof.
  intros Hok Hi Hh. destruct (holding_at (returned w) _ _ _ Hi) as (others & Heq & _).
  assert (Hin : core (l_e l) ∈ all_busy (w_m w)).
  { rewrite <-(po_held _ Hok). rewrite <-(list_insert_id _ _ _ Hi), (Heq (returned w) l) by done. unfold held_by. rewrite Hh. by left. }
  apply list_elem_of_fmap in Hin as (e & Hc & He). apply list_elem_of_In, filter_In in He as [He Hu]. exists e.
  split_and!; [by apply list_elem_of_In|done..].
Qed.

(** C18: Whatever callers acquire, use and give back, in whatever order, while
    others reap and close: a lease that was not released has its sandbox in the
    pool, marked in use and under the key it was acquired with, no other such
    lease is on the same sandbox, and the sandbox has not been torn down. *)
Theorem leases_are_exclusive n w i l :
  pool_reaches n w → w_leases w !! i = Some l → l_released l = false →
  (∃ e, e ∈ pool_at (w_m w) (pe_key (l_e l)) ∧ pe_inUse e = true ∧ pe_sb e = pe_sb (l_e l))
  ∧ pe_sb (l_e l) ∉ w_torn w
  ∧ ∀ j l', j ≠ i → w_leases w !! j = Some l' → l_released l' = false → pe_sb (l_e l') ≠ pe_sb (l_e l).
Proof.
  intros Hreach Hi Hr. pose proof (pool_always _ _ Hreach) as Hok.
  assert (Hh : ∀ k lk, l_released lk = false → holder (returned w) k lk = true) by (intros k lk Hk; unfold holder; by rewrite Hk).
  destruct (held_in_pool w i l Hok Hi (Hh _ _ Hr)) as (e & He & Hu & [= Hid Hsb Hk]).
  destruct (po_kept _ Hok) as [_ _ [Hnd _] [Hmade Hall]]. rewrite Hall in Hmade. split_and!.
  - exists e. split_and!; [|done..]. apply entries_elem in He as [k He]. pose proof (po_keyed _ Hok k e He) as Hkk.
    rewrite <-Hk, Hkk. exact He.
  - intros Ht. apply NoDup_app in Hmade as (_ & Hdis & _). apply (Hdis _ Ht). rewrite <-Hsb. apply list_elem_of_fmap.
    exists (core e). split; [done|]. by apply list_elem_of_fmap_2.
  - intros j l' Hj Hlj Hrj Heq. apply NoDup_app in Hmade as (_ & _ & Hsbs).
    destruct (holding_at (returned w) _ _ _ Hi) as (others & Hat & Hother).
    specialize (Hother j l' Hj Hlj (Hh _ _ Hrj)).
    assert (Hbusy : all_busy (w_m w) ≡ₚ core (l_e l) :: others).
    { rewrite <-(po_held _ Hok), <-(list_insert_id _ _ _ Hi), (Hat (returned w) l) by done. unfold held_by. by rewrite (Hh _ _ Hr). }
    assert (Hndb : NoDup (map c_sb (all_busy (w_m w)))).
    { clear -Hsbs. unfold all_busy, all_cores, busy, cores in *. revert Hsbs. induction (entries_of (pm_entries (w_m w))) as [|x xs IH]; [done|].
      cbn [map List.filter]. intros [Hn Hnd]%NoDup_cons. destruct (pe_inUse x); [|by apply IH]. cbn [map]. apply NoDup_cons.
      split; [|by apply IH]. intros (c & Hc & Hin)%list_elem_of_fmap. apply Hn. apply list_elem_of_fmap. exists c. split; [done|].
      by apply busy_sub. }
    rewrite Hbusy in Hndb. cbn [map] in Hndb. apply NoDup_cons in Hndb as [Hn _]. apply Hn. apply list_elem_of_fmap.
    exists (core (l_e l')). done.
Qed.

(** C0: The sandboxes kept and being made never exceed the manager's size; every
    sandbox made is either still kept or has been torn down, once, never both;
    and once the pool is closed, every lease given back and nothing being made,
    all of them have been torn down. *)
Theorem pool_is_bounded_and_loses_nothing n w :
  pool_reaches n w →
  Z.of_nat (length (entries_of (pm_entries (w_m w))) + length (w_making w)) ≤ pm_maxSize (NewManager n)
  ∧ NoDup (w_made w) ∧ w_made w ≡ₚ w_torn w ++ sandboxes (entries_of (pm_entries (w_m w)))
  ∧ (pm_closed (w_m w) = true → (∀ l, l ∈ w_leases w → l_released l = true) → w_returning w = [] → w_making w = [] →
     w_made w ≡ₚ w_torn w).
Proof.
  intros Hreach. pose proof (pool_always _ _ Hreach) as Hok. destruct (po_kept _ Hok) as [[_ Hle] Hl _ [Hnd Hall]].
  rewrite <-(size_always _ _ Hreach), sandboxes_cores. unfold all_cores, cores in Hl. rewrite length_map in Hl.
  split_and!; [lia|done|done|]. intros Hc Hrel Hret Hmk. rewrite Hall. rewrite <-(app_nil_r (w_torn w)) at 2. f_equiv.
  assert (Hnone : holding (returned w) (w_leases w) = []).
  { unfold holding, returned. rewrite Hret. cbn [map]. clear -Hrel. revert Hrel.
    assert (Hgen : ∀ (f : nat → nat) ls, (∀ l, l ∈ ls → l_released l = true) → concat (imap (λ k, held_by [] (f k)) ls) = []).
    { intros f ls. revert f. induction ls as [|x ls IH]; intros f Hx; [done|]. cbn [imap concat]. unfold held_by at 1, holder.
      rewrite (Hx x) by by left. cbn [negb orb]. rewrite bool_decide_false by by intros ?%elem_of_nil. cbn [app].
      apply (IH (λ k, f (S k))). intros l Hl. apply Hx. by right. }
    intros Hrel. by apply (Hgen (λ k, k)). }
  pose proof (po_held _ Hok) as Hheld. rewrite Hnone in Hheld. symmetry in Hheld. apply Permutation_nil_r in Hheld.
  unfold all_busy, busy in Hheld. unfold all_cores. pose proof (po_closed _ Hok Hc) as Huse.
  destruct (entries_of (pm_entries (w_m w))) as [|e es]; [done|]. cbn [List.filter] in Hheld.
  rewrite (Huse e) in Hheld by by left. done.
Qed.

(** ** Whose sandbox it is *)

Lemma key_part_inj a b x y : key_part a +:+ x = key_part b +:+ y → a = b ∧ x = y.
Proof.
  unfold key_part. rewrite !string_app_assoc. intros [-> Hx]%dec_material_inj. split; [done|]. by injection Hx.
Qed.

Lemma write_parts_inj l1 l2 : write_parts l1 = write_parts l2 → l1 = l2.
Proof.
  assert (Hne : ∀ p l, write_parts (p :: l) ≠ "").
  { intros p l. cbn. unfold key_part. pose proof (dec_N_digits (N.of_nat (String.length p))) as Hd. intros He.
    apply (f_equal String.length) in He. rewrite !string_app_length in He. cbn in He. lia. }
  revert l2. induction l1 as [|p l1 IH]; intros [|q l2] He; [done|by destruct (Hne q l2)|by destruct (Hne p l1)|].
  change (key_part p +:+ write_parts l1 = key_part q +:+ write_parts l2) in He.
  apply key_part_inj in He as [-> He]. by rewrite (IH _ He).
Qed.

Lemma env_parts_inj (e1 e2 : gmap string string) : env_parts e1 = env_parts e2 → e1 = e2.
Proof.
  unfold env_parts. intros He.
  assert (Hgen : ∀ (l1 l2 : list string), flat_map (λ k, ["env"; k; default "" (e1 !! k)]) l1 = flat_map (λ k, ["env"; k; default "" (e2 !! k)]) l2 →
    l1 = l2 ∧ ∀ k, k ∈ l1 → default "" (e1 !! k) = default "" (e2 !! k)).
  { induction l1 as [|a l1 IH]; intros [|b l2]; [by split; [|intros k Hk%elem_of_nil]|done|done|]. cbn [flat_map app].
    intros [= -> Hv Hrest]. destruct (IH _ Hrest) as [-> Hd]. split; [done|]. by intros k [->|Hk%Hd]%elem_of_cons. }
  apply Hgen in He as [Hkeys Hvals].
  assert (Hdom : ∀ k, k ∈ dom e1 ↔ k ∈ dom e2) by (intros k; rewrite <-!elem_of_elements, <-!(elem_of_sort_strings k (elements _)), Hkeys; done).
  apply map_eq. intros k. specialize (Hdom k). rewrite !elem_of_dom in Hdom.
  destruct (e1 !! k) as [v1|] eqn:E1, (e2 !! k) as [v2|] eqn:E2; [|by destruct (proj1 Hdom)|by destruct (proj2 Hdom)|done].
  assert (Hk : k ∈ sort_strings (elements (dom e1))).
  { apply elem_of_sort_strings, elem_of_elements, elem_of_dom. by exists v1. }
  specialize (Hvals k Hk). rewrite E1, E2 in Hvals. cbn in Hvals. by subst.
Qed.

(** C19: Two leases that were ever on one sandbox were asked for by the same
    tenant, for the same kind of engine and the same image, environment, working
    directory, lease scope and platform, unless SHA-256 collided on what was
    hashed for them. *)
Theorem sandboxes_stay_in_their_tenant (sha256 : string → string) n w l1 l2 t1 k1 s1 t2 k2 s2 :
  pool_reaches n w → l1 ∈ w_leases w → l2 ∈ w_leases w → pe_sb (l_e l1) = pe_sb (l_e l2) →
  pe_key (l_e l1) = KeyFor sha256 t1 k1 s1 → pe_key (l_e l2) = KeyFor sha256 t2 k2 s2 →
  collision sha256 (pool_material t1 k1 s1) (pool_material t2 k2 s2)
  ∨ t1 = t2 ∧ k1 = k2 ∧ ss_Image s1 = ss_Image s2 ∧ ss_Env s1 = ss_Env s2 ∧ ss_WorkDir s1 = ss_WorkDir s2
    ∧ ss_Lease s1 = ss_Lease s2 ∧ req_OS (ss_Requirements s1) = req_OS (ss_Requirements s2)
    ∧ req_Arch (ss_Requirements s1) = req_Arch (ss_Requirements s2).
Proof.
  intros Hreach H1 H2 Hsb Hk1 Hk2. destruct (po_once _ (pool_always _ _ Hreach)) as (key_of & Hle & _).
  destruct (Hle _ H1) as [_ Ho1], (Hle _ H2) as [_ Ho2]. rewrite Hsb, <-Ho2, Hk1, Hk2 in Ho1.
  unfold KeyFor in Ho1. apply (inj hex_encode) in Ho1. apply hash_eq in Ho1 as [He|Hc]; [right|by left].
  unfold pool_material in He. apply write_parts_inj in He. injection He as -> -> Hi Hw Hl Hos Ha _ He.
  apply env_parts_inj in He. done.
Qed.

(** ** A call that outlives its lease *)

Definition ex_spec : SandboxSpec := mkSandboxSpec "go:1.22" {["CI" := "1"]} "" "pool" (mkRequirements "" "" [] "").
Definition ex_key : string := KeyFor (λ _, "k") "acme" "process" ex_spec.

(** One caller makes sandbox 7 and looks at its lease to signal it; the lease is
    given back, and another caller claims the sandbox; then the signal lands. *)
Definition ex_w0 : pool_world := pool_start 1.
Definition ex_w1 : pool_world := mkPool (fst (acquire_begin [] ex_key (w_m ex_w0))) [] [ex_key] [] [] [] [] [].
Definition ex_e0 : pool_entry := mkEntry 1 7 ex_key true 0.
Definition ex_w2 : pool_world := mkPool (fst (acquire_end ex_key 7 (w_m ex_w1))) [new_lease ex_e0] [] [] [] [7] [] [].
Definition ex_w3 : pool_world := mkPool (w_m ex_w2) [new_lease ex_e0] [] [] [(0%nat, LSignal)] [7] [] [].
Definition ex_l0 : lease := mark_released (new_lease ex_e0).
Definition ex_w4 : pool_world := mkPool (w_m ex_w3) [ex_l0] [] [(0%nat, false)] [(0%nat, LSignal)] [7] [] [].
Definition ex_w5 : pool_world := mkPool (fst (put_back 5 ex_e0 false (w_m ex_w4))) [ex_l0] [] [] [(0%nat, LSignal)] [7] [] [].
Definition ex_e1 : pool_entry := mkEntry 1 7 ex_key true 5.
Definition ex_w6 : pool_world :=
  mkPool (fst (acquire_begin [ex_key] ex_key (w_m ex_w5))) [ex_l0; new_lease ex_e1] [] [] [(0%nat, LSignal)] [7] [] [].
Definition ex_w7 : pool_world := mkPool (w_m ex_w6) [ex_l0; new_lease ex_e1] [] [] [] [7] [] [(0%nat, 7)].

Lemma visits_none : visits [] (w_m ex_w0).
Proof.
  split; [constructor|]. intros k. change (k ∈ [] ↔ is_Some ((∅ : gmap string (list pool_entry)) !! k)). rewrite lookup_empty.
  split; [by intros ?%elem_of_nil|by intros [? ?]].
Qed.

Lemma ex_w5_entries : pm_entries (w_m ex_w5) = {[ex_key := [mkEntry 1 7 ex_key false 5]]}.
Proof. vm_compute. reflexivity. Qed.

Lemma visits_one : visits [ex_key] (w_m ex_w5).
Proof.
  split; [apply NoDup_singleton|]. intros k. rewrite ex_w5_entries, list_elem_of_singleton, lookup_singleton_is_Some. naive_solver.
Qed.

Lemma ex_reached : pool_reaches 1 ex_w7.
Proof.
  eapply (rtc_l _ _ ex_w1); [apply (po_reserved ex_w0 [] ex_key _ None visits_none); vm_compute; reflexivity|].
  eapply (rtc_l _ _ ex_w2); [apply (po_made ex_w1 [] ex_key [] 7 _ ex_e0); [done|by intros ?%elem_of_nil|vm_compute; reflexivity]|].
  eapply (rtc_l _ _ ex_w3); [by apply (po_check ex_w2 0 (new_lease ex_e0) LSignal)|].
  eapply (rtc_l _ _ ex_w4); [by apply (po_release ex_w3 0 (new_lease ex_e0))|].
  eapply (rtc_l _ _ ex_w5); [apply (po_put ex_w4 0 ex_l0 5 _ false [] [] false); [done|done|vm_compute; reflexivity]|].
  eapply (rtc_l _ _ ex_w6); [apply (po_claimed ex_w5 [ex_key] ex_key _ ex_e1 visits_one); vm_compute; reflexivity|].
  eapply (rtc_l _ _ ex_w7); [by apply (po_land ex_w6 0 LSignal [] [] ex_l0 false)|apply rtc_refl].
Qed.

(** The call reached sandbox 7 for lease 0, which was released, while lease 1
    held it. *)
Lemma released_lease_reaches_the_next :
  pool_reaches 1 ex_w7 ∧ w_landed ex_w7 = [(0%nat, 7)] ∧ l_released <$> w_leases ex_w6 !! 0%nat = Some true
  ∧ (l_released <$> w_leases ex_w6 !! 1%nat) = Some false ∧ ((λ l, pe_sb (l_e l)) <$> w_leases ex_w6 !! 1%nat) = Some 7.
Proof. split; [exact ex_reached|done]. Qed.

Lemma leases_are_exclusive_witness : w_leases ex_w7 !! 1%nat = Some (new_lease ex_e1) ∧ 7 ∉ w_torn ex_w7.
Proof.
  split; [reflexivity|].
  exact (proj1 (proj2 (leases_are_exclusive 1 ex_w7 1 (new_lease ex_e1) ex_reached eq_refl eq_refl))).
Defined.

Lemma pool_is_bounded_and_loses_nothing_witness :
  w_made ex_w7 = [7] ∧ [7] ≡ₚ w_torn ex_w7 ++ sandboxes (entries_of (pm_entries (w_m ex_w7))).
Proof.
  split; [reflexivity|]. exact (proj1 (proj2 (proj2 (pool_is_bounded_and_loses_nothing 1 ex_w7 ex_reached)))).
Defined.

Lemma ex_leases_in : ex_l0 ∈ w_leases ex_w7 ∧ new_lease ex_e1 ∈ w_leases ex_w7.
Proof. split; [by left|right; by left]. Qed.

Lemma sandboxes_stay_in_their_tenant_witness :
  collision (λ _, "k") (pool_material "acme" "process" ex_spec) (pool_material "acme" "process" ex_spec)
  ∨ "acme" = "acme" ∧ "process" = "process" ∧ "go:1.22" = "go:1.22" ∧ ss_Env ex_spec = ss_Env ex_spec ∧ "" = ""
    ∧ "pool" = "pool" ∧ "" = "" ∧ "" = "".
Proof.
  exact (sandboxes_stay_in_their_tenant (λ _, "k") 1 ex_w7 ex_l0 (new_lease ex_e1) "acme" "process" ex_spec "acme" "process" ex_spec
           ex_reached (proj1 ex_leases_in) (proj2 ex_leases_in) eq_refl eq_refl eq_refl).
Defined.
