(* ===== verification/Agent.v ===== *)
(** * Agent steps: [internal/steps/agent] and [internal/server/agent.go]

    A model is given a bounded loop and a closed set of steps it may ask for
    ([ActionSpace]). The loop is the SDK's: what it does is a sequence of
    callbacks into this package ([callback]), of which nothing is assumed. Each
    asks for an action ([invoke]), says that the model is called, asks for an
    approval, or comes back with a result ([generate]). A loop that wants an
    at-most-once action comes back suspended; where it stopped goes in the run
    log and a gate is opened ([park]); a person's approval re-enters it
    ([Resume]). The taint check is [Taint.Check_], a call here. *)

From S2P Require Import Prelude Bytes Proto Policy Taint Program RunStore Sched Approval.

(** ** The action space *)

Record ActionSpace : Type := mkActionSpace { as_granted : gmap string Step; as_names : list string }.

Inductive AgentErr : Type :=
| CatalogueNoID
| EmptyGrant
| UndefinedGrant (name : string)
| AgentTenantRequired
| ModelRequired
| InvokerRequired
| ErrUnbounded (maxSteps : Z)
| CheckerFailed (e : string)
| ErrNoGate (what : string)
| AgentRunAndStep
| Stopped (run step action e : string)
| ErrOutsideActionSpace (asked held : string)
| ErrTainted (step e : string)
| ErrApprovalRequired (action : string)
| InvokerErr (e : string)
| SdkErr (run step e : string)
| ErrUnrecorded (run step : string)
| ErrTranscript (e : string)
| RecordingPark (run step e : string)
| RequestingApproval (what e : string)
| ErrDenied (e : string)
| ErrCeilingSpent (used maxSteps : Z).

(** [err.Error()]. *)
Definition agent_err_text (e : AgentErr) : string :=
  match e with
  | CatalogueNoID => "agent: the catalogue contains a step with no id"
  | EmptyGrant => "agent: a granted step with an empty name grants nothing"
  | UndefinedGrant name =>
      "agent: step " +:+ quote name +:+ " was granted but is not defined; an agent cannot be given an action "
      +:+ "whose effect class nothing knows"
  | AgentTenantRequired => "agent: tenant scope required"
  | ModelRequired => "agent: a language model is required"
  | InvokerRequired => "agent: an invoker is required; an agent that cannot act is a prompt"
  | ErrUnbounded n => "agent: an agent loop needs a positive step ceiling: " +:+ dec_Z n +:+ " is not a ceiling"
  | CheckerFailed e | InvokerErr e => e
  | ErrNoGate what => "agent: an at-most-once grant needs an approval gate: " +:+ what
  | AgentRunAndStep => "agent: a run and a step are required"
  | Stopped run step action e =>
      "agent: " +:+ run +:+ "/" +:+ step +:+ ": the step was stopped before " +:+ quote action +:+ ": " +:+ e
  | ErrOutsideActionSpace asked held =>
      "agent: step outside the granted action space: this agent asked to invoke " +:+ quote asked
      +:+ "; it was granted only [" +:+ held +:+ "]"
  | ErrTainted step e => "agent: an effectful step may not act on untrusted data: agent " +:+ quote step +:+ ": " +:+ e
  | ErrApprovalRequired action =>
      "agent: an at-most-once step needs an approval: " +:+ quote action
      +:+ " is at-most-once; the run is waiting for a decision"
  | SdkErr run step e => "agent: " +:+ run +:+ "/" +:+ step +:+ ": " +:+ e
  | ErrUnrecorded run step =>
      "agent: a parked agent needs a run store to record its position: " +:+ run +:+ "/" +:+ step
  | ErrTranscript e => "agent: the parked conversation " +:+ e
  | RecordingPark run step e => "agent: recording where " +:+ run +:+ "/" +:+ step +:+ " parked: " +:+ e
  | RequestingApproval what e => "agent: requesting approval for " +:+ what +:+ ": " +:+ e
  | ErrDenied e => "agent: the gate was denied: " +:+ e
  | ErrCeilingSpent used maxSteps =>
      "agent: the step ceiling was spent before the gate was decided: " +:+ dec_Z used +:+ " of " +:+ dec_Z maxSteps
      +:+ " steps were spent before the gate opened"
  end.

Definition needsApproval (step : Step) : bool :=
  match step_effect_class step with
  | EFFECT_CLASS_AT_MOST_ONCE | EFFECT_CLASS_UNSPECIFIED => true
  | _ => false
  end.

Fixpoint define_steps (catalogue : list Step) (defined : gmap string Step) : result AgentErr (gmap string Step) :=
  match catalogue with
  | [] => Ok defined
  | s :: catalogue =>
      if decide (step_id s = "") then Err CatalogueNoID else define_steps catalogue (<[step_id s := s]> defined)
  end.

Fixpoint grant_steps (defined : gmap string Step) (granted : list string) (a : ActionSpace) : result AgentErr ActionSpace :=
  match granted with
  | [] => Ok (mkActionSpace (as_granted a) (sort_strings (as_names a)))
  | name :: granted =>
      let name := TrimSpace name in
      if decide (name = "") then Err EmptyGrant
      else
        match defined !! name with
        | None => Err (UndefinedGrant name)
        | Some step =>
            if decide (is_Some (as_granted a !! name)) then grant_steps defined granted a
            else grant_steps defined granted (mkActionSpace (<[name := step]> (as_granted a)) (as_names a ++ [name]))
        end
  end.

Definition NewActionSpace (granted : list string) (catalogue : list Step) : result AgentErr ActionSpace :=
  defined ← define_steps catalogue ∅;
  grant_steps defined granted (mkActionSpace ∅ []).

(** [ActionSpace.Check]. *)
Definition held_names (a : ActionSpace) : string :=
  match as_names a with [] => "nothing" | names => join ", " names end.
Definition check_action (a : ActionSpace) (name : string) : result AgentErr unit :=
  match as_granted a !! name with
  | Some _ => Ok tt
  | None => Err (ErrOutsideActionSpace name (held_names a))
  end.

(** ** Invocations, records *)

Record Invocation : Type := mkInvocation
  { inv_RunID : string; inv_StepID : string; inv_Action : string; inv_Args : string; inv_Inputs : gmap string Value }.

Record ActionRecord : Type := mkActionRecord
  { ac_Subject : string; ac_Action : string; ac_Allowed : bool; ac_Reason : string; ac_Approver : string;
    ac_ApprovalReason : string }.

Record ParkRecord : Type := mkPark
  { pk_Subject : string; pk_Actions : list string; pk_ToolCallIDs : list string; pk_Transcript : string;
    pk_StepsUsed : Z; pk_InputTokens : Z; pk_OutputTokens : Z }.

Definition no_park : ParkRecord := mkPark "" [] [] "" 0 0 0.

Definition EventAction : string := "AGENT_ACTION".
Definition EventParked : string := "AGENT_PARKED".

(** ** The conversation

    [Any] is what a tool result may hold. *)

Section transcript.
Context {Any : Type}.

Inductive part : Type :=
| TextPart (text : string)
| ReasoningPart (text : string) (redacted : bool) (signature : string)
| ToolCallPart (id name args : string)
| ToolResultPart (toolCallID name : string) (value : Any) (isError : bool)
| ImagePart (data url mediaType : string)
| FilePart (data mediaType filename fileID url : string)
| SourcePart (id url title : string)
| OtherPart (type : string).

Record Message : Type := mkMessage { ms_Role : string; ms_Content : list part }.

Record wirePart : Type := mkWire
  { wp_Kind : string; wp_Text : string; wp_Redacted : bool; wp_Signature : string; wp_ID : string; wp_Name : string;
    wp_Args : string; wp_ToolCallID : string; wp_Result : string; wp_IsError : bool; wp_Data : string; wp_URL : string;
    wp_MediaType : string; wp_Filename : string; wp_FileID : string; wp_Title : string }.

Definition wire0 (kind : string) : wirePart := mkWire kind "" false "" "" "" "" "" "" false "" "" "" "" "" "".

(** [encoding/json] of what this package writes and reads back. *)
Class AgentJSON : Type :=
  { marshal_any : Any → option string;
    unmarshal_any : string → option Any;
    nil_any : Any;
    enc_wire : list (string * list wirePart) → option string;
    dec_wire : string → option (list (string * list wirePart));
    enc_park : ParkRecord → string;
    dec_park : string → option ParkRecord;
    enc_action : ActionRecord → string;
    wrap_approval : string → string → string → option string }.

Context `{AgentJSON}.

Definition encodePart (c : part) : result AgentErr wirePart :=
  match c with
  | TextPart text => Ok (mkWire "text" text false "" "" "" "" "" "" false "" "" "" "" "" "")
  | ReasoningPart text redacted signature =>
      Ok (mkWire "reasoning" text redacted signature "" "" "" "" "" false "" "" "" "" "" "")
  | ToolCallPart id name args => Ok (mkWire "tool_call" "" false "" id name args "" "" false "" "" "" "" "" "")
  | ToolResultPart call name value isError =>
      match marshal_any value with
      | None => Err (ErrTranscript ("holds a tool result for " +:+ quote name +:+ " that is not JSON"))
      | Some r => Ok (mkWire "tool_result" "" false "" "" name "" call r isError "" "" "" "" "" "")
      end
  | ImagePart data url mediaType => Ok (mkWire "image" "" false "" "" "" "" "" "" false data url mediaType "" "" "")
  | FilePart data mediaType filename fileID url =>
      Ok (mkWire "file" "" false "" "" "" "" "" "" false data url mediaType filename fileID "")
  | SourcePart id url title => Ok (mkWire "source" "" false "" id "" "" "" "" false "" url "" "" "" title)
  | OtherPart type => Err (ErrTranscript ("holds a " +:+ type +:+ ", which this build cannot record"))
  end.

Definition decodePart (p : wirePart) : result AgentErr part :=
  if decide (wp_Kind p = "text") then Ok (TextPart (wp_Text p))
  else if decide (wp_Kind p = "reasoning") then Ok (ReasoningPart (wp_Text p) (wp_Redacted p) (wp_Signature p))
  else if decide (wp_Kind p = "tool_call") then Ok (ToolCallPart (wp_ID p) (wp_Name p) (wp_Args p))
  else if decide (wp_Kind p = "tool_result") then
    match (if decide (wp_Result p = "") then Some nil_any else unmarshal_any (wp_Result p)) with
    | None => Err (ErrTranscript ("holds an unreadable result for " +:+ quote (wp_Name p)))
    | Some value => Ok (ToolResultPart (wp_ToolCallID p) (wp_Name p) value (wp_IsError p))
    end
  else if decide (wp_Kind p = "image") then Ok (ImagePart (wp_Data p) (wp_URL p) (wp_MediaType p))
  else if decide (wp_Kind p = "file") then
    Ok (FilePart (wp_Data p) (wp_MediaType p) (wp_Filename p) (wp_FileID p) (wp_URL p))
  else if decide (wp_Kind p = "source") then Ok (SourcePart (wp_ID p) (wp_URL p) (wp_Title p))
  else Err (ErrTranscript ("holds a part of unknown kind " +:+ quote (wp_Kind p))).

Fixpoint map_result {A B} (f : A → result AgentErr B) (l : list A) : result AgentErr (list B) :=
  match l with
  | [] => Ok []
  | x :: l => y ← f x; ys ← map_result f l; Ok (y :: ys)
  end.

Definition encodeTranscript (messages : list Message) : result AgentErr string :=
  wire ← map_result (λ m, parts ← map_result encodePart (ms_Content m); Ok (ms_Role m, parts)) messages;
  match enc_wire wire with Some s => Ok s | None => Err (ErrTranscript "could not be recorded") end.

Definition decodeTranscript (raw : string) : result AgentErr (list Message) :=
  match dec_wire raw with
  | None => Err (ErrTranscript "could not be read back")
  | Some wire => map_result (λ '(role, parts), content ← map_result decodePart parts; Ok (mkMessage role content)) wire
  end.

End transcript.
#[global] Arguments part : clear implicits.
#[global] Arguments Message : clear implicits.
#[global] Arguments AgentJSON : clear implicits.

(** ** The window of a resumed loop *)

Record resumeWindow : Type := mkWindow
  { rw_open : bool; rw_approver : string; rw_reason : string; rw_remaining : gmap string Z }.

(** [agent.Decision]. *)
Record AgentDecision : Type := mkAgentDecision { gd_By : string; gd_Yes : bool; gd_Why : string }.

Definition count_actions (actions : list string) : gmap string Z :=
  foldl (λ m a, <[a := default 0 (m !! a) + 1]> m) ∅ actions.
Definition newResumeWindow (d : AgentDecision) (actions : list string) : resumeWindow :=
  mkWindow true (gd_By d) (gd_Why d) (count_actions actions).

Definition window_why (w : option resumeWindow) : string := match w with None => "" | Some w => rw_reason w end.

Definition window_consume (action : string) (w : option resumeWindow) : option resumeWindow * (string * bool) :=
  match w with
  | None => (None, ("", false))
  | Some w =>
      let left := default 0 (rw_remaining w !! action) in
      if negb (rw_open w) || bool_decide (left ≤ 0) then (Some w, ("", false))
      else (Some (mkWindow (rw_open w) (rw_approver w) (rw_reason w) (<[action := left - 1]> (rw_remaining w))),
            (rw_approver w, true))
  end.

Definition window_close (w : option resumeWindow) : option resumeWindow :=
  (λ w, mkWindow false (rw_approver w) (rw_reason w) (rw_remaining w)) <$> w.

(** ** Calls *)

Record ToolSpec : Type := mkTool { tl_action : string; tl_desc : string; tl_requireApproval : bool }.

Inductive SdkError : Type := NoSuchTool (name : string) | SdkOther (e : string).

Section agent.
Context {Any : Type}.

(** [ai.GenerateTextResult]: its steps by their number, the calls it suspended
    on by name and id. *)
Record GenResult : Type := mkGenResult
  { ge_Text : string; ge_Steps : Z; ge_Messages : list (Message Any); ge_Pending : list (string * string);
    ge_InputTokens : Z; ge_OutputTokens : Z }.

(** What the SDK's loop asks of this package next. *)
Inductive callback : Type :=
| CbExecute (tool : nat) (args : string)
| CbStopWhen
| CbApprove (name : string)
| CbModelCall
| CbDone (r : result SdkError GenResult).

(** What it is told: how it is started, or the answer to the last callback. *)
Inductive reply : Type :=
| ReStart (prompt : string) (messages : list (Message Any)) (approved : list (string * string)) (tools : list ToolSpec)
    (instructions : string) (maxSteps : Z)
| ReTool (r : result AgentErr string)
| ReStop (stop : bool)
| ReUndecided
| ReNone.

Inductive agop : Type → Type :=
| GCtxErr : agop (option string)
| GTaint (d : Dispatch) : agop (result string Decision)
| GInvoke (inv : Invocation) : agop (result string string)
| GNow : agop Z
| GAppend (tenant : string) (e : Event) : agop (result string unit)
| GRequestPark (run step prompt : string) : agop (result string unit)
| GNext (r : reply) : agop callback.

Abbreviation agcmd := (Program.cmd agop).

Context `{AgentJSON Any}.

(** [agent.Step]; whether there is a gate and a store. *)
Record AgentStep : Type := mkAgentStep
  { ag_MaxSteps : Z; ag_actions : ActionSpace; ag_instructions : string; ag_gate : bool; ag_tenantID : string;
    ag_subject : string; ag_store : bool; ag_tier : string; ag_inputs : gmap string Value;
    ag_capabilities : list Capability }.

Record AgentConfig : Type := mkAgentConfig
  { cg_GrantedSteps : list string; cg_MaxSteps : Z; cg_Catalogue : list Step; cg_Instructions : string }.
Record AgentOptions : Type := mkAgentOptions
  { oo_Model : bool; oo_Invoker : bool; oo_Gate : bool; oo_Store : bool; oo_TenantID : string; oo_Subject : string;
    oo_Inputs : gmap string Value; oo_EngineCapabilities : list Capability; oo_Tier : string;
    oo_TaintChecker : bool }.

Definition ungated (a : ActionSpace) (gate : bool) : option string :=
  if gate then None
  else List.find (λ name, match as_granted a !! name with Some s => needsApproval s | None => false end) (as_names a).

(** [New]; [builtin] is what making the built-in checker came to, when no other
    was given. *)
Definition NewAgent (builtin : result string unit) (cfg : AgentConfig) (opts : AgentOptions) : result AgentErr AgentStep :=
  if decide (oo_TenantID opts = "") then Err AgentTenantRequired
  else if negb (oo_Model opts) then Err ModelRequired
  else if negb (oo_Invoker opts) then Err InvokerRequired
  else if decide (cg_MaxSteps cfg ≤ 0) then Err (ErrUnbounded (cg_MaxSteps cfg))
  else
    actions ← NewActionSpace (cg_GrantedSteps cfg) (cg_Catalogue cfg);
    match (if oo_TaintChecker opts then Ok tt else builtin) with
    | Err e => Err (CheckerFailed e)
    | Ok _ =>
        match ungated actions (oo_Gate opts) with
        | Some name => Err (ErrNoGate (quote name +:+ " is at-most-once"))
        | None =>
            Ok (mkAgentStep (cg_MaxSteps cfg) actions (cg_Instructions cfg) (oo_Gate opts) (oo_TenantID opts)
                  (oo_Subject opts) (oo_Store opts) (oo_Tier opts) (oo_Inputs opts) (oo_EngineCapabilities opts))
        end
    end.

Context (s : AgentStep).

(** ** Recording *)

Definition appendAction (inv : Invocation) (record : ActionRecord) (cause : option AgentErr) : agcmd unit :=
  if negb (ag_store s) then Done tt
  else
    let record := match cause with
                  | None => record
                  | Some e => mkActionRecord (ac_Subject record) (ac_Action record) (ac_Allowed record) (agent_err_text e)
                                (ac_Approver record) (ac_ApprovalReason record)
                  end in
    now <- act GNow;;
    _ <- act (GAppend (ag_tenantID s) (mkEvent (inv_RunID inv) (inv_StepID inv) 0 0 EventAction (enc_action record) now));;
    Done tt.

Definition record_action (inv : Invocation) (allowed : bool) (cause : option AgentErr) : agcmd unit :=
  appendAction inv (mkActionRecord (ag_subject s) (inv_Action inv) allowed "" "" "") cause.

Definition recordApproved (inv : Invocation) (approver reason : string) : agcmd unit :=
  appendAction inv (mkActionRecord (ag_subject s) (inv_Action inv) true "" approver reason) None.

Definition withApproval (res approver reason : string) : string :=
  let res := if decide (res = "") then "null" else res in
  default res (wrap_approval res approver reason).

(** ** [invoke] *)

Definition principalSubject (action : string) : string :=
  if decide (ag_subject s = "") then action else ag_subject s +:+ ":" +:+ action.

Definition PrincipalAgent : string := "agent".

(** The call's inputs win over the agent's own. *)
Definition taint_dispatch (inv : Invocation) (action : Step) : Dispatch :=
  mkDispatch (ag_tenantID s) (ag_tier s) (principalSubject (inv_Action inv)) (step_effect_class action) (ag_capabilities s)
    (inv_Inputs inv ∪ ag_inputs s) [] PrincipalAgent true.

Definition checkTaint (inv : Invocation) (action : Step) : agcmd (option AgentErr) :=
  r <- act (GTaint (taint_dispatch inv action));;
  Done (match r with
        | Err e => Some (ErrTainted (inv_StepID inv) e)
        | Ok d => if dec_Allow d then None
                  else Some (ErrTainted (inv_StepID inv) (dec_Reason d +:+ " [" +:+ dec_Rule d +:+ "]"))
        end).

Definition awaitApproval (inv : Invocation) : AgentErr :=
  if ag_gate s then ErrApprovalRequired (inv_Action inv) else ErrNoGate (quote (inv_Action inv)).

Definition run_invoker (inv : Invocation) : agcmd (result AgentErr string) :=
  r <- act (GInvoke inv);; Done (match r with Ok out => Ok out | Err e => Err (InvokerErr e) end).

Definition invoke (inv : Invocation) (w : option resumeWindow) : agcmd (option resumeWindow * result AgentErr string) :=
  if decide (inv_RunID inv = "" ∨ inv_StepID inv = "") then Done (w, Err AgentRunAndStep)
  else
    stopped <- act GCtxErr;;
    match stopped with
    | Some e => Done (w, Err (Stopped (inv_RunID inv) (inv_StepID inv) (inv_Action inv) e))
    | None =>
        if decide (TrimSpace (inv_Action inv) = "") then
          Done (w, match check_action (ag_actions s) "" with Ok _ => Ok "" | Err e => Err e end)
        else
          match as_granted (ag_actions s) !! inv_Action inv with
          | None => Done (w, Err (ErrOutsideActionSpace (inv_Action inv) (held_names (ag_actions s))))
          | Some action =>
              tainted <- checkTaint inv action;;
              match tainted with
              | Some e => _ <- record_action inv false (Some e);; Done (w, Err e)
              | None =>
                  if needsApproval action then
                    let '(w, (approver, decided)) := window_consume (inv_Action inv) w in
                    if negb decided then
                      _ <- record_action inv false (Some (awaitApproval inv));; Done (w, Err (awaitApproval inv))
                    else
                      _ <- recordApproved inv approver (window_why w);;
                      r <- run_invoker inv;;
                      Done (w, match r with Ok out => Ok (withApproval out approver (window_why w)) | Err e => Err e end)
                  else
                    _ <- record_action inv true None;;
                    r <- run_invoker inv;; Done (w, r)
              end
          end
    end.

(** [Invoke], for any caller: nobody has approved anything. *)
Definition Invoke (inv : Invocation) : agcmd (result AgentErr string) :=
  r <- invoke inv None;; Done (snd r).

(** ** The loop *)

Definition tool_of (name : string) : result AgentErr ToolSpec :=
  match as_granted (ag_actions s) !! name with
  | None => Err (ErrOutsideActionSpace name (held_names (ag_actions s)))
  | Some def =>
      let shown := if decide (step_name def = "") then step_id def else step_name def in
      Ok (mkTool name ("invoke the " +:+ quote shown +:+ " step ("
                       +:+ trim_prefix "EFFECT_CLASS_" (EffectClass_String (step_effect_class def)) +:+ ")")
            (needsApproval def))
  end.

Definition toolsFor : result AgentErr (list ToolSpec) := map_result tool_of (as_names (ag_actions s)).

Definition recordAsked (run step action : string) : agcmd unit :=
  let inv := mkInvocation run step action "" ∅ in
  match check_action (ag_actions s) action with
  | Err e => record_action inv false (Some e)
  | Ok _ => record_action inv false (Some (ErrApprovalRequired action))
  end.

(** [guard.record]. *)
Definition first_err (g : option AgentErr) (e : AgentErr) : option AgentErr :=
  match g with Some e => Some e | None => Some e end.

(** The SDK's loop, seen from here: callback after callback until it is done,
    or as many as [n] of them. *)
Fixpoint sdk_loop (n : nat) (run step : string) (tools : list ToolSpec) (g : option AgentErr) (w : option resumeWindow)
    (answer : reply) : agcmd (option (option AgentErr * result SdkError GenResult)) :=
  match n with
  | O => Done None
  | S n =>
      next <- act (GNext answer);;
      match next with
      | CbDone r => Done (Some (g, r))
      | CbStopWhen => sdk_loop n run step tools g w (ReStop (bool_decide (is_Some g)))
      | CbApprove name => _ <- recordAsked run step name;; sdk_loop n run step tools g w ReUndecided
      | CbModelCall => sdk_loop n run step tools g (window_close w) ReNone
      | CbExecute i args =>
          match tools !! i with
          | None => sdk_loop n run step tools g w ReNone
          | Some tool =>
              r <- invoke (mkInvocation run step (tl_action tool) args ∅) w;;
              sdk_loop n run step tools (match snd r with Err e => first_err g e | Ok _ => g end) (fst r) (ReTool (snd r))
          end
      end
  end.

Record Outcome : Type := mkOutcome { oc_Text : string; oc_Parked : option ParkRecord }.

Definition quoteAll (names : list string) : string := join ", " (map quote names).

Definition park (run step : string) (res : GenResult) (prior : ParkRecord) : agcmd (result AgentErr ParkRecord) :=
  if negb (ag_store s) then Done (Err (ErrUnrecorded run step))
  else if negb (ag_gate s) then Done (Err (ErrNoGate (quote (join ", " (map fst (ge_Pending res))))))
  else
    match encodeTranscript (ge_Messages res) with
    | Err e => Done (Err e)
    | Ok transcript =>
        let record := mkPark (ag_subject s) (map fst (ge_Pending res)) (map snd (ge_Pending res)) transcript
                        (pk_StepsUsed prior + ge_Steps res) (pk_InputTokens prior + ge_InputTokens res)
                        (pk_OutputTokens prior + ge_OutputTokens res) in
        now <- act GNow;;
        appended <- act (GAppend (ag_tenantID s) (mkEvent run step 0 0 EventParked (enc_park record) now));;
        match appended with
        | Err e => Done (Err (RecordingPark run step e))
        | Ok _ =>
            asked <- act (GRequestPark run step ("agent step " +:+ quote step +:+ " wants to invoke the at-most-once step "
                                                 +:+ quoteAll (pk_Actions record) +:+ "; approve?"));;
            Done (match asked with Ok _ => Ok record | Err e => Err (RequestingApproval (quoteAll (pk_Actions record)) e) end)
        end
    end.

(** [start] is how the SDK's loop is started, on these tools. *)
Definition generate (n : nat) (run step : string) (start : list ToolSpec → reply) (w : option resumeWindow) (prior : ParkRecord)
    : agcmd (option (result AgentErr Outcome)) :=
  match toolsFor with
  | Err e => Done (Some (Err e))
  | Ok tools =>
      out <- sdk_loop n run step tools None w (start tools);;
      match out with
      | None => Done None
      | Some (Some refusal, _) => Done (Some (Err refusal))
      | Some (None, Err (NoSuchTool name)) =>
          Done (Some (Err (match check_action (ag_actions s) name with
                           | Err e => e
                           | Ok _ => SdkErr run step ("no such tool: " +:+ name)
                           end)))
      | Some (None, Err (SdkOther e)) => Done (Some (Err (SdkErr run step e)))
      | Some (None, Ok res) =>
          match ge_Pending res with
          | [] => Done (Some (Ok (mkOutcome (ge_Text res) None)))
          | _ => r <- park run step res prior;;
                 Done (Some (match r with Ok record => Ok (mkOutcome "" (Some record)) | Err e => Err e end))
          end
      end
  end.

Definition Run (n : nat) (run step prompt : string) : agcmd (option (result AgentErr Outcome)) :=
  if decide (run = "" ∨ step = "") then Done (Some (Err AgentRunAndStep))
  else generate n run step (λ tools, ReStart prompt [] [] tools (ag_instructions s) (ag_MaxSteps s)) None no_park.

Definition Resume (n : nat) (run step : string) (parked : ParkRecord) (d : AgentDecision)
    : agcmd (option (result AgentErr Outcome)) :=
  if decide (run = "" ∨ step = "") then Done (Some (Err AgentRunAndStep))
  else if negb (gd_Yes d) then
    Done (Some (Err (ErrDenied (gd_By d +:+ " refused " +:+ quote (join ", " (pk_Actions parked)) +:+ " for " +:+ run +:+ "/" +:+ step))))
  else if decide (TrimSpace (gd_By d) = "") then
    Done (Some (Err (ErrDenied (run +:+ "/" +:+ step +:+ " was resumed with no approver"))))
  else
    match decodeTranscript (pk_Transcript parked) with
    | Err e => Done (Some (Err e))
    | Ok messages =>
        let ceiling := ag_MaxSteps s - pk_StepsUsed parked in
        if decide (ceiling ≤ 0) then Done (Some (Err (ErrCeilingSpent (pk_StepsUsed parked) (ag_MaxSteps s))))
        else
          generate n run step
            (λ tools, ReStart "" messages (map (λ id, (id, "approved by " +:+ gd_By d)) (pk_ToolCallIDs parked)) tools
                        (ag_instructions s) ceiling)
            (Some (newResumeWindow d (pk_Actions parked))) parked
    end.

End agent.
#[global] Arguments agop : clear implicits.
#[global] Arguments callback : clear implicits.
#[global] Arguments reply : clear implicits.
#[global] Arguments GenResult : clear implicits.

(** ** [contract.go]: what there is to grant *)

Definition ActionStartRun : string := "start_run".
Definition ActionReadRun : string := "read_run".
Definition ActionDecideApproval : string := "decide_approval".
Definition ActionApplyOperation : string := "apply_operation".
Definition AgentPluginRef : string := "builtin:agent".

Definition pseudo_step (id name : string) (c : EffectClass) : Step :=
  {| step_id := id; step_name := name; step_plugin_ref := AgentPluginRef; step_effect_class := c;
     step_inputs := []; step_outputs := []; step_capabilities := [];
     step_lease_scope := LEASE_SCOPE_UNSPECIFIED; step_config := ∅; step_image := "";
     step_engine_type := ""; step_timeout_seconds := 0;
     step_file_inputs := []; step_secrets := [] |}.

Definition ContractCatalogue : list Step :=
  [pseudo_step ActionReadRun "read a run" EFFECT_CLASS_PURE;
   pseudo_step ActionApplyOperation "apply an operation to a pipeline" EFFECT_CLASS_IDEMPOTENT;
   pseudo_step ActionStartRun "start a run" EFFECT_CLASS_AT_MOST_ONCE;
   pseudo_step ActionDecideApproval "decide an approval gate" EFFECT_CLASS_AT_MOST_ONCE].

Definition ContractActions : list string := sort_strings (map step_id ContractCatalogue).
