(* ===== verification/AgentFacts.v ===== *)
(** * What an agent may do, whatever its model asks

    Nothing is assumed of the SDK's loop or of the model behind it: its
    callbacks are any callbacks at all. Every action taken was granted, was
    looked at for taint in that very turn, and, where it may happen at most
    once, is one of the calls a named person approved and no more of them
    ([agents_act_only_as_allowed]); a refusal ends the step
    ([refused_agents_do_not_succeed]); a gate is opened only once the position
    is in the log, and the ceiling is the whole loop's
    ([parked_before_the_gate_opens]); and a conversation comes back as it was
    ([transcripts_come_back]). *)

From Stdlib Require Import Ascii.
From S2P Require Import Prelude Bytes Proto Policy Taint Program RunStore Sched Approval Agent.

Section Agents.
Context {Any : Type} `{AgentJSON Any}.

Abbreviation agdid := (Program.did (agop Any)).
Abbreviation agguard := (Program.guard (agop Any)).
Abbreviation agcmd := (Program.cmd (agop Any)).

(** ** Histories *)

(** The calls since the SDK last had the turn. *)
Definition turn_more (t : list agdid) (d : agdid) : list agdid :=
  match d with Did (GNext _) _ => [] | _ => t ++ [d] end.
Definition this_turn (h : list agdid) : list agdid := foldl turn_more [] h.

Lemma turn_snoc h d : this_turn (h ++ [d]) = turn_more (this_turn h) d.
Proof. unfold this_turn. by rewrite foldl_app. Qed.

Definition is_model_call (d : agdid) : bool :=
  match d with
  | Did o x => match o in agop _ X return X → bool with
               | GNext _ => λ x, match x with CbModelCall => true | _ => false end
               | _ => λ _, false
               end x
  end.
Definition model_called (h : list agdid) : bool := existsb is_model_call h.

(** How often an action was invoked. *)
Definition is_invoke (a : string) (d : agdid) : bool :=
  match d with Did (GInvoke inv) _ => bool_decide (inv_Action inv = a) | _ => false end.
Definition invoked (a : string) (h : list agdid) : Z := Z.of_nat (tally (is_invoke a) h).

Lemma tally_turns (P : agdid → bool) h d : tally P (h ++ [d]) = (tally P h + if P d then 1 else 0)%nat.
Proof. unfold tally. rewrite List.filter_app, length_app. simpl. by destruct (P d). Qed.

Section step.
Context (s : AgentStep).

(** The step was running, and the taint policy let this through, in this turn. *)
Definition cleared (inv : Invocation) (action : Step) (t : list agdid) : Prop :=
  Did GCtxErr None ∈ t ∧ ∃ d, Did (GTaint (taint_dispatch s inv action)) (Ok d) ∈ t ∧ dec_Allow d = true.

(** That it was attempted is in the log before it is, or was at least put
    there. *)
Definition noted (inv : Invocation) (record : ActionRecord) (t : list agdid) : Prop :=
  ag_store s = true → ∃ now x,
    Did (GAppend (ag_tenantID s) (mkEvent (inv_RunID inv) (inv_StepID inv) 0 0 EventAction (enc_action record) now)) x ∈ t.

(** A decision covers a call: made by somebody, on this action, before the model
    was called again, and for more such calls than were already made. *)
Definition covered (w : option (AgentDecision * list string)) (inv : Invocation) (h : list agdid) : Prop :=
  ∃ d actions, w = Some (d, actions) ∧ gd_Yes d = true ∧ TrimSpace (gd_By d) ≠ "" ∧ model_called h = false
  ∧ invoked (inv_Action inv) h < default 0 (count_actions actions !! inv_Action inv)
  ∧ noted inv (mkActionRecord (ag_subject s) (inv_Action inv) true "" (gd_By d) (gd_Why d)) (this_turn h).

Definition allowed (w : option (AgentDecision * list string)) (inv : Invocation) (h : list agdid) : Prop :=
  ∃ action, as_granted (ag_actions s) !! inv_Action inv = Some action ∧ cleared inv action (this_turn h)
  ∧ if needsApproval action then covered w inv h
    else noted inv (mkActionRecord (ag_subject s) (inv_Action inv) true "" "" "") (this_turn h).

(** The position, and the gate's question about it. *)
Definition park_event (run step : string) (record : ParkRecord) (now : Z) : Event :=
  mkEvent run step 0 0 EventParked (enc_park record) now.
Definition park_prompt (step : string) (record : ParkRecord) : string :=
  "agent step " +:+ quote step +:+ " wants to invoke the at-most-once step " +:+ quoteAll (pk_Actions record) +:+ "; approve?".

(** The position is in the log when the gate is opened, and no call was made
    between. *)
Definition position_kept (run step prompt : string) (h : list agdid) : Prop :=
  ∃ record now pre, h = pre ++ [Did (GAppend (ag_tenantID s) (park_event run step record now)) (Ok tt)]
  ∧ prompt = park_prompt step record.

(** The first refusal a tool came back with, as the loop was told. *)
Definition told (d : agdid) : option AgentErr :=
  match d with Did (GNext (ReTool (Err e))) _ => Some e | _ => None end.
Definition first_refusal (h : list agdid) : option AgentErr := head (omap told h).

(** How a segment is started: with what is left of the ceiling. *)
Definition begins (prior : ParkRecord) (answer : reply Any) : Prop :=
  match answer with
  | ReStart _ _ _ tools _ maxSteps =>
      toolsFor s = Ok tools ∧ maxSteps = ag_MaxSteps s - pk_StepsUsed prior ∧ (0 < ag_MaxSteps s → 0 < maxSteps)
  | _ => False
  end.

Definition agent_guard (run step : string) (prior : ParkRecord) (w : option (AgentDecision * list string)) : agguard := λ X o h,
  match o with
  | GInvoke inv => inv_RunID inv = run ∧ inv_StepID inv = step ∧ allowed w inv h
  | GRequestPark run' step' prompt => run' = run ∧ step' = step ∧ position_kept run step prompt h
  | GNext (ReStart p m a tools i maxSteps) => begins prior (ReStart p m a tools i maxSteps) ∧ h = []
  | GNext (ReStop stop) => stop = bool_decide (is_Some (first_refusal h))
  | _ => True
  end.

(** ** What the window stands for *)

Definition window_ok (w : option (AgentDecision * list string)) (rw : option resumeWindow) (h : list agdid) : Prop :=
  match w, rw with
  | None, None => True
  | Some (d, actions), Some rw =>
      gd_Yes d = true ∧ TrimSpace (gd_By d) ≠ "" ∧ rw_approver rw = gd_By d ∧ rw_reason rw = gd_Why d ∧ (rw_open rw = true → model_called h = false)
      ∧ ∀ a action, as_granted (ag_actions s) !! a = Some action → needsApproval action = true →
          default 0 (rw_remaining rw !! a) + invoked a h ≤ default 0 (count_actions actions !! a)
  | _, _ => False
  end.

(** A call that is none of the SDK's turns and no invocation. *)
Definition aside {X : Type} (o : agop Any X) : Prop := match o with GNext _ | GInvoke _ => False | _ => True end.

Lemma invoked_aside a h X (o : agop Any X) (x : X) : aside o → invoked a (h ++ [Did o x]) = invoked a h.
Proof. intros Ho. unfold invoked. rewrite tally_turns. by destruct o; simpl; rewrite ?Nat.add_0_r. Qed.

Lemma model_called_snoc h d : model_called (h ++ [d]) = model_called h || is_model_call d.
Proof. unfold model_called. rewrite existsb_app. simpl. by rewrite orb_false_r. Qed.

Lemma window_aside w rw h X (o : agop Any X) (x : X) : aside o → window_ok w rw h → window_ok w rw (h ++ [Did o x]).
Proof.
  intros Ho. unfold window_ok. destruct w as [[d actions]|], rw as [rw|]; [|done..].
  intros (Hy & Hb & H1 & H2 & H3 & H4). split_and!; [done|done|done|done| |].
  - intros Hopen. rewrite model_called_snoc, (H3 Hopen). by destruct o.
  - intros a action. rewrite invoked_aside by done. apply H4.
Qed.

Lemma turn_aside h X (o : agop Any X) (x : X) : aside o → this_turn (h ++ [Did o x]) = this_turn h ++ [Did o x].
Proof. intros Ho. rewrite turn_snoc. by destruct o. Qed.

Lemma noted_aside inv record h X (o : agop Any X) (x : X) :
  aside o → noted inv record (this_turn h) → noted inv record (this_turn (h ++ [Did o x])).
Proof.
  intros Ho Hn Hs. destruct (Hn Hs) as (now & y & Hin). exists now, y. rewrite turn_aside by done. apply elem_of_app. by left.
Qed.

Lemma cleared_aside inv action h X (o : agop Any X) (x : X) :
  aside o → cleared inv action (this_turn h) → cleared inv action (this_turn (h ++ [Did o x])).
Proof.
  intros Ho (H1 & d & H2 & H3). rewrite turn_aside by done. split; [apply elem_of_app; by left|]. exists d.
  split; [apply elem_of_app; by left|done].
Qed.

(** ** Recording an action *)

Context (run step : string) (prior : ParkRecord).

Lemma safe_appendAction w rw inv record cause h (Q : unit → list agdid → Prop) :
  window_ok w rw h →
  (∀ h', window_ok w rw h' → (∀ a action, cleared a action (this_turn h) → cleared a action (this_turn h')) →
     (∀ a, invoked a h' = invoked a h) → model_called h' = model_called h →
     (cause = None → noted inv record (this_turn h')) → Q tt h') →
  safe (agent_guard run step prior w) (appendAction s inv record cause) Q h.
Proof.
  intros Hw HQ. unfold appendAction. destruct (ag_store s) eqn:Es; cbn [negb].
  - apply safe_act_bind; [done|]. intros now. apply safe_act_bind; [done|]. intros x. cbn [safe]. apply HQ.
    + by apply window_aside, window_aside.
    + intros a action Hc. by apply cleared_aside, cleared_aside.
    + intros a. by rewrite !invoked_aside.
    + rewrite !model_called_snoc. by rewrite !orb_false_r.
    + intros -> _. exists now, x. rewrite turn_aside by done. apply snoc_elem.
  - apply HQ; try done. intros _ Hs. congruence.
Qed.

(** ** One invocation *)

Lemma safe_checkTaint w inv action h (Q : option AgentErr → list agdid → Prop) :
  (∀ e x, Q (Some e) (h ++ [Did (GTaint (taint_dispatch s inv action)) x])) →
  (∀ d, dec_Allow d = true → Q None (h ++ [Did (GTaint (taint_dispatch s inv action)) (Ok d)])) →
  safe (agent_guard run step prior w) (checkTaint s inv action) Q h.
Proof.
  intros He Ho. apply safe_act_bind; [done|]. intros [d|e]; cbn [safe]; [|apply He].
  destruct (dec_Allow d) eqn:Ea; [by apply Ho|apply He].
Qed.

Lemma invoked_self inv h x : invoked (inv_Action inv) (h ++ [Did (GInvoke inv) x]) = invoked (inv_Action inv) h + 1.
Proof. unfold invoked. rewrite tally_turns. simpl. rewrite bool_decide_true by done. lia. Qed.

Lemma invoked_other a inv h x : inv_Action inv ≠ a → invoked a (h ++ [Did (GInvoke inv) x]) = invoked a h.
Proof. intros Ha. unfold invoked. rewrite tally_turns. simpl. rewrite bool_decide_false by done. by rewrite Nat.add_0_r. Qed.

(** A call that costs nothing of the window. *)
Lemma window_free w rw inv action h x :
  as_granted (ag_actions s) !! inv_Action inv = Some action → needsApproval action = false →
  window_ok w rw h → window_ok w rw (h ++ [Did (GInvoke inv) x]).
Proof.
  intros Hg Hn. unfold window_ok. destruct w as [[d actions]|], rw as [rw|]; [|done..]. intros (Hy & Hb & H1 & H2 & H3 & H4).
  split_and!; [done|done|done|done| |].
  - intros Hopen. by rewrite model_called_snoc, (H3 Hopen).
  - intros a act Ha Hna. rewrite invoked_other; [by eapply H4|]. intros <-. congruence.
Qed.

(** One that a decision covers. *)
Lemma window_spent w rw inv action h x rw' approver :
  as_granted (ag_actions s) !! inv_Action inv = Some action → needsApproval action = true →
  window_ok w rw h → window_consume (inv_Action inv) rw = (rw', (approver, true)) →
  ∃ d actions, w = Some (d, actions) ∧ gd_Yes d = true ∧ TrimSpace (gd_By d) ≠ "" ∧ approver = gd_By d
  ∧ window_why rw' = gd_Why d ∧ model_called h = false
  ∧ invoked (inv_Action inv) h < default 0 (count_actions actions !! inv_Action inv)
  ∧ ∀ h', (∀ a, invoked a h' = invoked a h) → model_called h' = model_called h →
      window_ok w rw' (h' ++ [Did (GInvoke inv) x]).
Proof.
  intros Hg Hn Hw Hc. unfold window_ok in Hw. destruct w as [[d actions]|], rw as [rw|]; try done. destruct Hw as (Hy & Hb & H1 & H2 & H3 & H4).
  unfold window_consume in Hc. destruct (rw_open rw) eqn:Eo; [|done]. cbn [negb orb] in Hc.
  destruct (bool_decide _) eqn:El in Hc; [done|]. apply bool_decide_eq_false in El. injection Hc as <- <-.
  exists d, actions. specialize (H4 _ _ Hg Hn) as H5. split_and!; [done|done|done|done|done|by apply H3|lia|].
  intros h' Hinv Hmod. split_and!; [done|done|done|done| |].
  - intros _. rewrite model_called_snoc, Hmod, (H3 eq_refl). done.
  - intros a act Ha Hna. cbn [rw_remaining]. rewrite lookup_insert. case_decide as Hd.
    + subst a. rewrite invoked_self, Hinv. cbn. lia.
    + rewrite invoked_other by done. rewrite Hinv. by eapply H4.
Qed.

Lemma window_refused w rw a rw' approver h :
  window_ok w rw h → window_consume a rw = (rw', (approver, false)) → window_ok w rw' h.
Proof.
  intros Hw. unfold window_consume. destruct rw as [rw|]; [|by intros [= <- _]].
  destruct (_ || _); [by intros [= <- _]|done].
Qed.

Lemma safe_run_invoker w inv h (Q : result AgentErr string → list agdid → Prop) :
  inv_RunID inv = run → inv_StepID inv = step → allowed w inv h → (∀ r x, Q r (h ++ [Did (GInvoke inv) x])) → safe (agent_guard run step prior w) (run_invoker inv) Q h.
Proof. intros ??? HQ. apply safe_act_bind; [done|]. intros x. cbn [safe]. apply HQ. Qed.

Lemma safe_invoke w rw inv h :
  inv_RunID inv = run → inv_StepID inv = step → window_ok w rw h → safe (agent_guard run step prior w) (invoke s inv rw) (λ r h', window_ok w (fst r) h') h.
Proof.
  intros Hr Hst Hw. unfold invoke. case_decide; [done|]. apply safe_act_bind; [done|]. intros [e|]; [by apply window_aside|].
  case_decide; [by apply window_aside|]. set (h1 := h ++ _). assert (Hw1 : window_ok w rw h1) by by apply window_aside.
  assert (Hrun : Did GCtxErr None ∈ this_turn h1) by (unfold h1; rewrite turn_aside by done; apply snoc_elem).
  destruct (as_granted (ag_actions s) !! inv_Action inv) as [action|] eqn:Eg; [|done].
  apply safe_bind, safe_checkTaint.
  { intros e x. apply safe_bind. unfold record_action. eapply safe_appendAction; [by apply window_aside|].
    intros h2 Hw2 _ _ _ _. exact Hw2. }
  intros d Hd. set (h2 := h1 ++ _). assert (Hw2 : window_ok w rw h2) by by apply window_aside.
  assert (Hclear : cleared inv action (this_turn h2)).
  { unfold h2. rewrite turn_aside by done. split; [apply elem_of_app; by left|]. exists d. split; [apply snoc_elem|done]. }
  destruct (needsApproval action) eqn:En.
  - destruct (window_consume (inv_Action inv) rw) as [rw' [approver [|]]] eqn:Ec; cbn [negb].
    + destruct (window_spent w rw inv action h2 (Err "") rw' approver Eg En Hw2 Ec) as (dd & actions & Hwd & Hy & Hb & Hap & Hwhy & Hmc & Hlt & _).
      apply safe_bind. unfold recordApproved. eapply (safe_appendAction w rw); [done|].
      intros h3 _ Hcl Hinv Hmod Hnoted. apply safe_bind, safe_run_invoker; [done|done| |].
      * exists action. split_and!; [done|by apply Hcl|]. rewrite En. exists dd, actions. split_and!; [done|done|done|by rewrite Hmod|by rewrite Hinv|].
        rewrite <-Hap, <-Hwhy. by apply Hnoted.
      * intros r x. cbn [safe fst].
        destruct (window_spent w rw inv action h2 x rw' approver Eg En Hw2 Ec) as (? & ? & _ & _ & _ & _ & _ & _ & _ & Hgo). by apply Hgo.
    + apply safe_bind. unfold record_action. eapply safe_appendAction; [by eapply window_refused|].
      intros h3 Hw3 _ _ _ _. exact Hw3.
  - apply safe_bind. unfold record_action. eapply safe_appendAction; [done|]. intros h3 Hw3 Hcl _ _ Hnoted.
    apply safe_bind, safe_run_invoker; [done|done| |].
    + exists action. split_and!; [done|by apply Hcl|]. rewrite En. by apply Hnoted.
    + intros r x. cbn [safe fst]. by eapply window_free.
Qed.
(** ** The loop *)

Definition quiet_op (X : Type) (o : agop Any X) : Prop := match o with GNext _ => False | _ => True end.

Lemma first_refusal_snoc h d : first_refusal (h ++ [d]) = match first_refusal h with Some e => Some e | None => told d end.
Proof.
  unfold first_refusal. rewrite omap_app. destruct (omap told h) as [|e l]; [|done]. simpl. by destruct (told d).
Qed.

(** What the loop came back with. *)
Definition came_back (X : Type) (o : agop Any X) : X → option (result SdkError (GenResult Any)) :=
  match o in agop _ X return X → option _ with
  | GNext _ => λ x, match x with CbDone r => Some r | _ => None end
  | _ => λ _, None
  end.
Definition dones (h : list agdid) : list (result SdkError (GenResult Any)) := pick came_back h.

(** The loop was given no turn. *)
Definition same_refusal (h h' : list agdid) : Prop := first_refusal h' = first_refusal h ∧ dones h' = dones h.
#[local] Instance same_refusal_preorder : PreOrder same_refusal.
Proof. split; [done|]. intros h1 h2 h3 [??] [??]. split; congruence. Qed.

Lemma quiet_refusal X (o : agop Any X) x h : quiet_op X o → same_refusal h (h ++ [Did o x]).
Proof.
  intros Ho. unfold same_refusal, dones. rewrite first_refusal_snoc, pick_snoc.
  destruct o; try done; by rewrite app_nil_r; destruct (first_refusal h).
Qed.

Lemma within_appendAction inv record cause : within quiet_op (appendAction s inv record cause).
Proof. unfold appendAction. destruct (ag_store s); [|done]. split; [done|]. intros now. by split. Qed.

Lemma within_run_invoker inv : within quiet_op (run_invoker inv).
Proof. by split. Qed.

Lemma within_invoke inv w : within quiet_op (invoke s inv w).
Proof.
  unfold invoke. case_decide; [done|]. split; [done|]. intros [e|]; [done|]. cbn [cbind]. case_decide; [done|].
  destruct (as_granted (ag_actions s) !! inv_Action inv) as [action|]; [|done].
  apply within_bind; [by split|]. intros [e|]; [by apply within_bind; [apply within_appendAction|]|].
  destruct (needsApproval action).
  - destruct (window_consume (inv_Action inv) w) as [w' [approver [|]]]; cbn [negb];
      (apply within_bind; [apply within_appendAction|]; intros _); [|done].
    by apply within_bind; [apply within_run_invoker|].
  - apply within_bind; [apply within_appendAction|]. intros _. by apply within_bind; [apply within_run_invoker|].
Qed.

(** A program that gives the loop no turn leaves the refusal as it was. *)
Lemma quietly {A} (G : agguard) (c : agcmd A) (Q Q' : A → list agdid → Prop) h :
  safe G c Q h → within quiet_op c → (∀ a h', Q a h' → same_refusal h h' → Q' a h') → safe G c Q' h.
Proof.
  intros Hs Hw HQ. eapply safe_mono; [|apply (safe_within_and quiet_op same_refusal _ _ _ _ quiet_refusal Hw Hs)].
  intros a h' [Ha Hr]. by apply HQ.
Qed.

(** An answer, and the refusal it brings. *)
Definition refusal_of (answer : reply Any) : option AgentErr := match answer with ReTool (Err e) => Some e | _ => None end.
Definition carried (h : list agdid) (answer : reply Any) : option AgentErr :=
  match first_refusal h with Some e => Some e | None => refusal_of answer end.

Lemma carried_told h answer x : first_refusal (h ++ [Did (GNext answer) x]) = carried h answer.
Proof. rewrite first_refusal_snoc. unfold carried. by destruct (first_refusal h). Qed.

Lemma window_turn w rw h answer x :
  x ≠ CbModelCall → window_ok w rw h → window_ok w rw (h ++ [Did (GNext answer) x]).
Proof.
  intros Hx. unfold window_ok. destruct w as [[d actions]|], rw as [rw|]; [|done..]. intros (Hy & Hb & H1 & H2 & H3 & H4).
  split_and!; [done|done|done|done| |].
  - intros Ho. rewrite model_called_snoc, (H3 Ho). by destruct x.
  - intros a action. unfold invoked. rewrite tally_turns. simpl. rewrite Nat.add_0_r. apply H4.
Qed.

Lemma window_closed w rw h answer x :
  window_ok w rw h → window_ok w (window_close rw) (h ++ [Did (GNext answer) x]).
Proof.
  unfold window_ok. destruct w as [[d actions]|], rw as [rw|]; [|done..]. intros (Hy & Hb & H1 & H2 & H3 & H4).
  split_and!; [done|done|done|done|done|].
  intros a action. unfold invoked. rewrite tally_turns. simpl. rewrite Nat.add_0_r. apply H4.
Qed.

(** The loop ended on this. *)
Definition ended (r : result SdkError (GenResult Any)) (h : list agdid) : Prop := dones h = [r].

Lemma dones_turn h answer x : (∀ r, x ≠ CbDone r) → dones h = [] → dones (h ++ [Did (GNext answer) x]) = [].
Proof. intros Hx Hd. unfold dones in *. rewrite pick_snoc, Hd. by destruct x as [| | | |r]; try done; destruct (Hx r). Qed.

Lemma safe_sdk_loop w n tools g rw answer h :
  window_ok w rw h → dones h = [] → carried h answer = g → agent_guard run step prior w _ (GNext answer) h →
  safe (agent_guard run step prior w) (sdk_loop s n run step tools g rw answer)
    (λ out h', ∀ g r, out = Some (g, r) → first_refusal h' = g ∧ ended r h') h.
Proof.
  revert g rw answer h. induction n as [|n IH]; intros g rw answer h Hw Hd Hg Ha; cbn [sdk_loop]; [done|].
  apply safe_act_bind; [done|]. intros x. assert (Hd1 := λ Hx, dones_turn h answer x Hx Hd).
  assert (Hc : carried (h ++ [Did (GNext answer) x]) ReNone = g).
  { unfold carried. rewrite carried_told, Hg. by destruct g. }
  destruct x as [i args| |name| |r].
  - assert (Hw1 := window_turn w rw h answer (CbExecute i args) ltac:(done) Hw).
    destruct (tools !! i) as [tool|]; [|by apply IH; auto].
    apply safe_bind. eapply quietly; [apply safe_invoke; [done|done|exact Hw1]|apply within_invoke|].
    intros [rw' res] h' Hw' [Hs Hs']. cbn [fst snd] in *. apply IH; [done|by rewrite Hs', Hd1| |by destruct res].
    unfold carried. rewrite Hs, carried_told, Hg. destruct g as [e|], res; done.
  - apply IH; [by apply window_turn|by apply Hd1|by destruct g|]. cbn [agent_guard]. by rewrite carried_told, Hg.
  - assert (Hw1 := window_turn w rw h answer (CbApprove name) ltac:(done) Hw).
    apply safe_bind. unfold recordAsked. eapply (quietly _ _ (λ _ h', window_ok w rw h')).
    { destruct (check_action (ag_actions s) name); (eapply safe_appendAction; [exact Hw1|]); by intros. }
    { destruct (check_action (ag_actions s) name); apply within_appendAction. }
    intros [] h' Hw' [Hs Hs']. apply IH; [done|by rewrite Hs', Hd1| |done]. unfold carried. rewrite Hs, carried_told, Hg. by destruct g.
  - by apply IH; [apply window_closed|apply Hd1| |].
  - cbn [safe]. intros ? ? [= <- <-]. split; [by rewrite carried_told|]. unfold ended, dones in *. by rewrite pick_snoc, Hd.
Qed.

(** What the loop was started with is its first turn. *)
Lemma begun_loop (G : agguard) n tools g w answer h Q :
  safe G (sdk_loop s n run step tools g w answer) Q h →
  safe G (sdk_loop s n run step tools g w answer) (λ out h', Q out h' ∧ (is_Some out → ∃ x, Did (GNext answer) x ∈ h')) h.
Proof.
  destruct n as [|n]; cbn [sdk_loop safe].
  - intros HQ. split; [done|]. by intros [].
  - cbn [act cbind safe]. intros [HG Hk]. split; [done|]. intros x. eapply safe_mono; [|apply safe_extends, Hk].
    intros out h' [HQ [tr ->]]. split; [done|]. intros _. exists x. apply elem_of_app. left. apply snoc_elem.
Qed.

(** ** The gate *)

(** The gate was asked for, and is open. *)
Definition is_opened (d : agdid) : bool :=
  match d with
  | Did o x => match o in agop _ X return X → bool with
               | GRequestPark _ _ _ => λ x, match x with Ok _ => true | Err _ => false end
               | _ => λ _, false
               end x
  end.
Definition gate_opened (h : list agdid) : bool := existsb is_opened h.

Lemma gate_opened_snoc h d : gate_opened (h ++ [d]) = gate_opened h || is_opened d.
Proof. unfold gate_opened. rewrite existsb_app. simpl. by rewrite orb_false_r. Qed.

Definition no_request (X : Type) (o : agop Any X) : Prop := match o with GRequestPark _ _ _ => False | _ => True end.
Definition same_gate (h h' : list agdid) : Prop := gate_opened h' = gate_opened h.
#[local] Instance same_gate_preorder : PreOrder same_gate.
Proof. split; [done|]. intros h1 h2 h3 H12 H23. unfold same_gate in *. congruence. Qed.

Lemma no_request_gate X (o : agop Any X) x h : no_request X o → same_gate h (h ++ [Did o x]).
Proof. intros Ho. unfold same_gate. rewrite gate_opened_snoc. destruct o; try done; apply orb_false_r. Qed.

Lemma requestless_appendAction inv record cause : within no_request (appendAction s inv record cause).
Proof. unfold appendAction. destruct (ag_store s); [|done]. split; [done|]. intros now. by split. Qed.

Lemma requestless_invoke inv w : within no_request (invoke s inv w).
Proof.
  unfold invoke. case_decide; [done|]. split; [done|]. intros [e|]; [done|]. cbn [cbind]. case_decide; [done|].
  destruct (as_granted (ag_actions s) !! inv_Action inv) as [action|]; [|done].
  apply within_bind; [by split|]. intros [e|]; [by apply within_bind; [apply requestless_appendAction|]|].
  destruct (needsApproval action).
  - destruct (window_consume (inv_Action inv) w) as [w' [approver [|]]]; cbn [negb];
      (apply within_bind; [apply requestless_appendAction|]; intros _); [|done]. by apply within_bind.
  - apply within_bind; [apply requestless_appendAction|]. intros _. by apply within_bind.
Qed.

Lemma requestless_loop n tools g w answer : within no_request (sdk_loop s n run step tools g w answer).
Proof.
  revert g w answer. induction n as [|n IH]; intros g w answer; cbn [sdk_loop]; [done|]. split; [done|].
  intros [i args| |name| |r]; cbn [cbind]; [|apply IH| |apply IH|done].
  - destruct (tools !! i); [|apply IH]. apply within_bind; [apply requestless_invoke|]. intros r. apply IH.
  - apply within_bind; [|intros _; apply IH]. unfold recordAsked.
    destruct (check_action (ag_actions s) name); apply requestless_appendAction.
Qed.

Lemma ungated_loop (G : agguard) n tools g w answer h Q :
  safe G (sdk_loop s n run step tools g w answer) Q h →
  safe G (sdk_loop s n run step tools g w answer) (λ out h', Q out h' ∧ same_gate h h') h.
Proof. apply (safe_within_and no_request same_gate); [apply no_request_gate|apply requestless_loop]. Qed.

(** ** Parking *)

Definition parked_record (res : GenResult Any) (record : ParkRecord) (h : list agdid) : Prop :=
  pk_Subject record = ag_subject s ∧ pk_Actions record = map fst (ge_Pending res)
  ∧ pk_ToolCallIDs record = map snd (ge_Pending res) ∧ encodeTranscript (ge_Messages res) = Ok (pk_Transcript record)
  ∧ pk_StepsUsed record = pk_StepsUsed prior + ge_Steps res
  ∧ ∃ now pre, h = pre ++ [Did (GAppend (ag_tenantID s) (park_event run step record now)) (Ok tt);
                           Did (GRequestPark run step (park_prompt step record)) (Ok tt)].

Lemma safe_park w res h :
  safe (agent_guard run step prior w) (park s run step res prior)
    (λ r h', same_refusal h h' ∧ extends h h' ∧ (∀ e, r = Err e → gate_opened h' = gate_opened h)
             ∧ ∀ record, r = Ok record → parked_record res record h') h.
Proof.
  unfold park. destruct (ag_store s); cbn [negb]; [|done].
  destruct (ag_gate s); cbn [negb]; [|done].
  destruct (encodeTranscript (ge_Messages res)) as [transcript|e] eqn:Et; [|done].
  apply safe_act_bind; [done|]. intros now. apply safe_act_bind; [done|]. intros [[]|e].
  - set (record := mkPark _ _ _ _ _ _ _). apply safe_act_bind.
    { split; [done|]. split; [done|]. by exists record, now, (h ++ [Did GNow now]). }
    intros [[]|e]; cbn [safe]; (split; [by do 3 (etrans; [|by apply quiet_refusal])|]); (split; [do 3 (etrans; [|apply extends_snoc]); done|]);
      (split; [|try done]); [done| |by intros e' _; rewrite !gate_opened_snoc, !orb_false_r].
    intros ? [= <-]. split_and!; [done..|]. exists now, (h ++ [Did GNow now]). by rewrite <-!app_assoc.
  - cbn [safe]. split; [by do 2 (etrans; [|by apply quiet_refusal])|]. split; [do 2 (etrans; [|apply extends_snoc]); done|].
    split; [|done]. intros e' _. by rewrite !gate_opened_snoc, !orb_false_r.
Qed.

(** ** A whole segment *)

Definition came_to (r : option (result AgentErr Outcome)) (h : list agdid) : Prop :=
  ∀ r', r = Some r' →
    (∀ e, first_refusal h = Some e → r' = Err e)
    ∧ (gate_opened h = true → ∃ oc, r' = Ok oc ∧ is_Some (oc_Parked oc))
    ∧ ∀ oc, r' = Ok oc → (∃ answer x, begins prior answer ∧ Did (GNext answer) x ∈ h) ∧ ∃ res, ended (Ok res) h
      ∧ match oc_Parked oc with
        | None => ge_Pending res = [] ∧ oc_Text oc = ge_Text res
        | Some record => ge_Pending res ≠ [] ∧ parked_record res record h
        end.

Lemma came_to_err e h :
  first_refusal h = None ∨ first_refusal h = Some e → gate_opened h = false → came_to (Some (Err e)) h.
Proof. intros [He|He] Hg r' [= <-]; rewrite He, Hg; (split; [|done]); intros e'; [done|]. by intros [= ->]. Qed.

Lemma safe_generate w rw n start :
  window_ok w rw [] →
  (∀ tools, toolsFor s = Ok tools → begins prior (start tools)) →
  safe (agent_guard run step prior w) (generate s n run step start rw prior) came_to [].
Proof.
  intros Hw Hstart. unfold generate. destruct (toolsFor s) as [tools|e] eqn:Et; [|by apply came_to_err; [left|]].
  specialize (Hstart tools eq_refl) as Hg. apply safe_bind.
  assert (Hfirst : agent_guard run step prior w _ (GNext (start tools)) [] ∧ refusal_of (start tools) = None)
    by (destruct (start tools); [split; [by split|done]|destruct Hg..]). destruct Hfirst as [Hfirst Hn].
  eapply safe_mono; [|apply begun_loop, ungated_loop, (safe_sdk_loop w n tools None rw (start tools) []); [done|done|exact Hn|exact Hfirst]].
  intros [[g r]|] h [[Hout Hgate] Hbegun]; [|by intros r']. unfold same_gate in Hgate. cbn in Hgate. destruct (Hout g r eq_refl) as [Hr He].
  destruct (Hbegun ltac:(done)) as [x0 Hx0].
  destruct g as [refusal|]; [by apply came_to_err; [right|]|]. destruct r as [res|[name|e]].
  - destruct (ge_Pending res) as [|p ps] eqn:Ep.
    + intros r' [= <-]. rewrite Hr, Hgate. do 2 (split; [done|]). intros oc [= <-].
      split; [by exists (start tools), x0|]. by exists res.
    + apply safe_bind. eapply safe_mono; [|apply safe_park]. intros r h' (Hs & Hx & Hno & Hrec). cbn [safe].
      destruct Hs as [Hs Hs']. assert (Hn' : first_refusal h' = None) by (by rewrite Hs). destruct r as [record|e]; [|by apply came_to_err; [left|rewrite (Hno e)]].
      intros r' [= <-]. rewrite Hn'. split; [done|]. split; [by eexists|]. intros oc [= <-].
      split; [exists (start tools), x0; split; [done|]; by eapply extends_elem|]. exists res. cbn [oc_Parked].
      split; [unfold ended; by rewrite Hs'|]. split; [by rewrite Ep|]. by apply Hrec.
  - by apply came_to_err; [left|].
  - by apply came_to_err; [left|].
Qed.
End step.

Lemma safe_Run s n run step prompt :
  safe (agent_guard s run step no_park None) (Run s n run step prompt) (came_to s run step no_park) [].
Proof.
  unfold Run. case_decide; [by apply came_to_err; [left|]|]. apply safe_generate; [done|]. intros tools Ht.
  split_and!; [done|cbn; lia|done].
Qed.

Lemma safe_Resume s n run step parked d :
  safe (agent_guard s run step parked (Some (d, pk_Actions parked))) (Resume s n run step parked d)
    (came_to s run step parked) [].
Proof.
  unfold Resume. case_decide; [by apply came_to_err; [left|]|]. destruct (gd_Yes d) eqn:Ey; cbn [negb]; [|by apply came_to_err; [left|]].
  case_decide as Hb; [by apply came_to_err; [left|]|].
  destruct (decodeTranscript (pk_Transcript parked)) as [messages|e]; [|by apply came_to_err; [left|]].
  case_decide; [by apply came_to_err; [left|]|]. apply safe_generate.
  - split_and!; [done|done|done|done|done|]. intros a action _ _. cbn [newResumeWindow rw_remaining invoked]. unfold invoked.
    cbn. lia.
  - intros tools Ht. split_and!; [done|done|lia].
Qed.

(** ** What an agent was granted *)

Lemma define_steps_in catalogue defined defined' name st :
  define_steps catalogue defined = Ok defined' → defined' !! name = Some st →
  defined !! name = Some st ∨ st ∈ catalogue ∧ step_id st = name.
Proof.
  revert defined. induction catalogue as [|s catalogue IH]; intros defined; cbn [define_steps]; [intros [= <-]; by left|].
  case_decide; [done|]. intros Hd Hn. destruct (IH _ Hd Hn) as [Hi|[Hin Hid]]; [|right; split; [by right|done]].
  apply lookup_insert_Some in Hi as [[<- <-]|[_ Hi]]; [right; split; [by left|done]|by left].
Qed.

Lemma grant_steps_in defined granted a a' name st :
  grant_steps defined granted a = Ok a' → as_granted a' !! name = Some st →
  as_granted a !! name = Some st ∨ defined !! name = Some st ∧ ∃ n, n ∈ granted ∧ TrimSpace n = name.
Proof.
  revert a. induction granted as [|g granted IH]; intros a; cbn [grant_steps]; [intros [= <-]; by left|].
  case_decide; [done|]. destruct (defined !! TrimSpace g) as [step|] eqn:Ed; [|done].
  assert (Hskip : grant_steps defined granted a = Ok a' → as_granted a' !! name = Some st →
    as_granted a !! name = Some st ∨ defined !! name = Some st ∧ ∃ n, n ∈ g :: granted ∧ TrimSpace n = name).
  { intros Hg Hn. destruct (IH _ Hg Hn) as [?|(? & m & ? & ?)]; [by left|]. right. split; [done|]. exists m. by split; [right|]. }
  case_decide; [done|]. intros Hg Hn. destruct (IH _ Hg Hn) as [Hi|(? & m & ? & ?)].
  - cbn in Hi. apply lookup_insert_Some in Hi as [[<- <-]|[_ Hi]]; [|by left]. right. split; [done|]. exists g. by split; [left|].
  - right. split; [done|]. exists m. by split; [right|].
Qed.

(** What it may do was granted by name, and is a step of the catalogue. *)
Lemma new_agent_grants rules cfg opts s :
  NewAgent rules cfg opts = Ok s →
  (∀ name action, as_granted (ag_actions s) !! name = Some action →
     ∃ n, n ∈ cg_GrantedSteps cfg ∧ TrimSpace n = name ∧ action ∈ cg_Catalogue cfg ∧ step_id action = name)
  ∧ ag_subject s = oo_Subject opts.
Proof.
  unfold NewAgent. destruct (decide (oo_TenantID opts = "")); [done|]. destruct (oo_Model opts); [|done].
  destruct (oo_Invoker opts); [|done]. cbn [negb]. destruct (decide (cg_MaxSteps cfg ≤ 0)); [done|].
  destruct (NewActionSpace _ _) as [a|] eqn:Ea; [|done]. cbn. destruct (if oo_TaintChecker opts then _ else _); [|done].
  destruct (ungated _ _); [done|]. intros [= <-]. split; [|done]. cbn. intros name action Hn. unfold NewActionSpace in Ea.
  destruct (define_steps _ _) as [defined|] eqn:Ed; [|done]. cbn in Ea.
  destruct (grant_steps_in _ _ _ _ _ _ Ea Hn) as [Hempty|(Hdef & m & Hin & Htrim)]; [by cbn in Hempty; apply lookup_empty_Some in Hempty|].
  destruct (define_steps_in _ _ _ _ _ Ed Hdef) as [Hempty|[Hcat Hid]]; [by apply lookup_empty_Some in Hempty|]. by exists m.
Qed.

(** ** Through any number of approvals *)

Section life.
Context (s : AgentStep) (run step : string).

(** The SDK takes no more steps than it was started with. *)
Definition keeps_ceiling (tr : list agdid) : Prop :=
  ∀ p messages approved tools i maxSteps x res,
    Did (GNext (ReStart p messages approved tools i maxSteps)) x ∈ tr → ended (Ok res) tr → 0 ≤ ge_Steps res ≤ maxSteps.

(** The steps an agent has taken, and where it stands: not begun, parked, or
    [None] when it is over. A parked record is read back from the log. *)
Inductive agent_life : Z → option (option ParkRecord) → Prop :=
| life_new : agent_life 0 (Some None)
| life_run n prompt tr oc res :
    runs (Run s n run step prompt) tr (Some (Some (Ok oc))) → ended (Ok res) tr → keeps_ceiling tr →
    agent_life (ge_Steps res) (Some <$> oc_Parked oc)
| life_resume n total record parked d tr oc res :
    agent_life total (Some (Some record)) → dec_park (enc_park record) = Some parked →
    runs (Resume s n run step parked d) tr (Some (Some (Ok oc))) → ended (Ok res) tr → keeps_ceiling tr →
    agent_life (total + ge_Steps res) (Some <$> oc_Parked oc).

Lemma segment_steps prior tr oc res :
  came_to s run step prior (Some (Ok oc)) tr → ended (Ok res) tr → keeps_ceiling tr →
  ge_Steps res ≤ ag_MaxSteps s - pk_StepsUsed prior
  ∧ ∀ record, oc_Parked oc = Some record → pk_StepsUsed record = pk_StepsUsed prior + ge_Steps res.
Proof.
  intros Hc He Hk. destruct (Hc _ eq_refl) as (_ & _ & Hok). destruct (Hok _ eq_refl) as ((answer & x & Hb & Hx) & res' & He' & Hp).
  unfold ended in He, He'. rewrite He in He'. injection He' as <-. destruct answer as [p m a tools i max| | | |]; try done.
  destruct Hb as (_ & -> & _). split; [by apply (Hk _ _ _ _ _ _ _ _ Hx He)|]. intros record Hr. rewrite Hr in Hp.
  apply Hp.
Qed.

(** C14: An agent's step ceiling bounds its whole loop: however often it parks
    and is approved, and whoever resumes it from what the log holds, the steps
    of all its segments together never exceed the ceiling it was made with,
    which is positive. *)
Theorem approvals_do_not_extend_the_ceiling rules cfg opts total stands :
  NewAgent rules cfg opts = Ok s →
  (∀ p p', dec_park (enc_park p) = Some p' → pk_StepsUsed p' = pk_StepsUsed p) →
  agent_life total stands → 0 < cg_MaxSteps cfg ∧ total ≤ cg_MaxSteps cfg.
Proof.
  intros Hnew Hjson Hlife.
  assert (Hmax : ag_MaxSteps s = cg_MaxSteps cfg ∧ 0 < cg_MaxSteps cfg).
  { unfold NewAgent in Hnew. destruct (decide (oo_TenantID opts = "")); [done|]. destruct (oo_Model opts); [|done]. destruct (oo_Invoker opts); [|done].
    cbn [negb] in Hnew. destruct (decide (cg_MaxSteps cfg ≤ 0)); [done|]. destruct (NewActionSpace _ _) as [a|]; [|done]. cbn in Hnew.
    destruct (if oo_TaintChecker opts then _ else _); [|done]. destruct (ungated _ _); [done|]. injection Hnew as <-.
    split; [done|]. cbn. lia. }
  destruct Hmax as [Hmax Hpos]. split; [done|]. rewrite <-Hmax.
  enough (Hall : total ≤ ag_MaxSteps s ∧ ∀ record, stands = Some (Some record) → pk_StepsUsed record = total) by apply Hall.
  induction Hlife as [|n prompt tr oc res Hr He Hk|n total record parked d tr oc res _ [IH1 IH2] Hj Hr He Hk].
  - split; [lia|done].
  - destruct (safe_runs _ _ _ _ _ _ (safe_Run s n run step prompt) Hr) as [_ Hc]. specialize (Hc _ eq_refl).
    destruct (segment_steps _ _ _ _ Hc He Hk) as [Hle Hrec]. cbn in Hle. split; [lia|]. intros record Ho.
    destruct (oc_Parked oc) as [r|]; [|done]. injection Ho as ->. rewrite (Hrec _ eq_refl). cbn. lia.
  - destruct (safe_runs _ _ _ _ _ _ (safe_Resume s n run step parked d) Hr) as [_ Hc]. specialize (Hc _ eq_refl).
    destruct (segment_steps _ _ _ _ Hc He Hk) as [Hle Hrec]. rewrite (Hjson _ _ Hj), (IH2 _ eq_refl) in Hle, Hrec.
    split; [lia|]. intros r Ho. destruct (oc_Parked oc) as [r'|]; [|done]. injection Ho as ->. by rewrite (Hrec _ eq_refl).
Qed.
End life.

(** ** The conversation in the log *)

Lemma map_result_ok {A B} (f : A → result AgentErr B) l ys :
  map_result f l = Ok ys → Forall2 (λ x y, f x = Ok y) l ys.
Proof.
  revert ys. induction l as [|x l IH]; intros ys; cbn [map_result]; [intros [= <-]; constructor|].
  destruct (f x) as [y|] eqn:Ef; [|done]. cbn. destruct (map_result f l) as [ys'|] eqn:El; [|done]. intros [= <-]. constructor; auto.
Qed.

Lemma map_result_of {A B} (f : A → result AgentErr B) l ys :
  Forall2 (λ x y, f x = Ok y) l ys → map_result f l = Ok ys.
Proof. induction 1 as [|x y l ys Hf _ IH]; [done|]. cbn [map_result]. rewrite Hf. cbn. by rewrite IH. Qed.

(** A tool's result that JSON gives back as it was. *)
Definition survives (c : part Any) : Prop :=
  match c with
  | ToolResultPart _ _ value _ => ∀ r, marshal_any value = Some r → r ≠ "" ∧ unmarshal_any r = Some value
  | _ => True
  end.

Lemma part_round_trip c p : survives c → encodePart c = Ok p → decodePart p = Ok c.
Proof.
  intros Hs. destruct c; cbn [encodePart]; try (by intros [= <-]); try done. cbn [survives] in Hs.
  destruct (marshal_any value) as [r|]; [|done]. intros [= <-]. destruct (Hs r eq_refl) as [Hr Hu].
  unfold decodePart. cbn [wp_Kind wp_Result wp_ToolCallID wp_Name wp_IsError].
  do 3 (rewrite decide_False by done). rewrite decide_True by done. rewrite decide_False by done. by rewrite Hu.
Qed.

(** What parking writes of a conversation is what resuming reads, every kind of
    part and every field of it, or it is refused when it is written. *)
Theorem transcripts_come_back (messages : list (Message Any)) (raw : string) :
  (∀ wire, enc_wire wire = Some raw → dec_wire raw = Some wire) →
  Forall (λ m, Forall survives (ms_Content m)) messages →
  encodeTranscript messages = Ok raw → decodeTranscript raw = Ok messages.
Proof.
  intros Hjson Hs. unfold encodeTranscript, decodeTranscript.
  destruct (map_result _ messages) as [wire|e] eqn:Ew; [|done]. cbn. destruct (enc_wire wire) as [raw'|] eqn:Ee; [|done].
  intros [= ->]. rewrite (Hjson wire Ee). apply map_result_of. apply map_result_ok in Ew. clear Ee Hjson. revert Hs.
  induction Ew as [|m w ms ws Hm Hms IH]; intros Hs; [constructor|]. apply Forall_cons in Hs as [Hc Hs].
  constructor; [|by apply IH]. destruct (map_result encodePart (ms_Content m)) as [parts|e] eqn:Ep; [|done]. cbn in Hm.
  injection Hm as <-. cbn. apply map_result_ok in Ep. rewrite (map_result_of _ parts (ms_Content m)); [by destruct m|].
  apply Forall2_flip. clear -Ep Hc. induction Ep as [|c p cs ps Hp _ IH]; [constructor|].
  apply Forall_cons in Hc as [Hc1 Hc]. constructor; [by apply part_round_trip|by apply IH].
Qed.
End Agents.

(** ** An agent at work *)

(** A conversation of one text and one tool result; a park record as its step
    count, in as many letters. *)
Definition ex_parts (text : string) : list wirePart :=
  [mkWire "text" text false "" "" "" "" "" "" false "" "" "" "" "" "";
   mkWire "tool_result" "" false "" "" "read_run" "" "c0" "ok" false "" "" "" "" "" ""].
#[local] Instance wirePart_eq_dec : EqDecision wirePart.
Proof. solve_decision. Defined.

Definition letters (n : nat) : string := Nat.iter n (String "x"%char) "".
Definition ex_record (text : string) (steps : Z) : ParkRecord := mkPark "agent:ci:triage" ["start_run"] ["c1"] text steps 0 0.

#[local] Instance ex_json : AgentJSON string :=
  {| marshal_any := Some; unmarshal_any := Some; nil_any := "";
     enc_wire w := match w with
                   | [(_, p :: _)] => if decide (w = [("tool", ex_parts (wp_Text p))]) then Some (wp_Text p) else None
                   | _ => None
                   end;
     dec_wire s := Some [("tool", ex_parts s)];
     enc_park p := if decide (pk_StepsUsed p < 0) then "-" else letters (Z.to_nat (pk_StepsUsed p));
     dec_park s := if decide (s = "-") then None else Some (ex_record "hello" (Z.of_nat (String.length s)));
     enc_action _ := ""; wrap_approval r _ _ := Some r |}.

Lemma letters_length n : String.length (letters n) = n.
Proof. induction n as [|n IH]; [done|]. cbn. by f_equal. Qed.

Lemma ex_park_json p p' : dec_park (enc_park p) = Some p' → pk_StepsUsed p' = pk_StepsUsed p.
Proof.
  cbn. destruct (decide (pk_StepsUsed p < 0)); [done|]. case_decide; [done|]. intros [= <-]. cbn. rewrite letters_length. lia.
Qed.

Definition ex_conversation (text : string) : list (Message string) :=
  [mkMessage "tool" [TextPart text; ToolResultPart "c0" "read_run" "ok" false]].

Lemma ex_wire_json text wire : enc_wire wire = Some text → dec_wire text = Some wire.
Proof.
  cbn. destruct wire as [|[role [|p ps]] [|? ?]]; try done. destruct (decide _) as [He|]; [|done]. intros [= <-]. by rewrite He.
Qed.

Lemma transcripts_come_back_witness :
  encodeTranscript (ex_conversation "hello") = Ok "hello" ∧ decodeTranscript "hello" = Ok (ex_conversation "hello").
Proof.
  assert (He : encodeTranscript (ex_conversation "hello") = Ok "hello") by (vm_compute; reflexivity). split; [exact He|].
  refine (transcripts_come_back (ex_conversation "hello") "hello" (ex_wire_json "hello") _ He).
  constructor; [|constructor]. constructor; [done|]. constructor; [|constructor]. intros r [= <-]. by split.
Defined.

(** A loop that reads a run, asks to start one and parks; approved, it starts
    it, and ends. *)
Definition ex_agent_config : AgentConfig := mkAgentConfig ["read_run"; " start_run "] 5 ContractCatalogue "be brief".
Definition ex_agent_options : AgentOptions := mkAgentOptions true true true true "t" "agent:ci:triage" ∅ [] "" false.
Definition ex_agent : AgentStep :=
  match NewAgent (Ok tt) ex_agent_config ex_agent_options with
  | Ok s => s
  | Err _ => mkAgentStep 0 (mkActionSpace ∅ []) "" false "" "" false "" ∅ []
  end.
Lemma ex_agent_new : NewAgent (Ok tt) ex_agent_config ex_agent_options = Ok ex_agent.
Proof. vm_compute. reflexivity. Qed.

Definition ex_reply (X : Type) (o : agop string X) (w : list (callback string)) : list (callback string) * X :=
  match o in agop _ X return list (callback string) * X with
  | GCtxErr => (w, None)
  | GTaint _ => (w, Ok (mkDecision true "pure" ""))
  | GInvoke _ => (w, Ok "{}")
  | GNow => (w, 7)
  | GAppend _ _ => (w, Ok tt)
  | GRequestPark _ _ _ => (w, Ok tt)
  | GNext _ => match w with [] => ([], CbStopWhen) | c :: w => (w, c) end
  end.

Definition ex_parking : GenResult string := mkGenResult "" 2 (ex_conversation "hello") [("start_run", "c1")] 10 5.
Definition ex_ending : GenResult string := mkGenResult "done" 3 [] [] 20 5.
Definition ex_first_script : list (callback string) :=
  [CbModelCall; CbExecute 0 "{}"; CbModelCall; CbApprove "start_run"; CbDone (Ok ex_parking)].
Definition ex_second_script : list (callback string) := [CbExecute 1 "{}"; CbModelCall; CbDone (Ok ex_ending)].

Definition ex_first := drive ex_reply (Run ex_agent 9 "r1" "triage" "go") ex_first_script.
Definition ex_approval : AgentDecision := mkAgentDecision "ann" true "fine".
Definition ex_second := drive ex_reply (Resume ex_agent 9 "r1" "triage" (ex_record "hello" 2) ex_approval) ex_second_script.

Definition ex_parked_at : ParkRecord := mkPark "agent:ci:triage" ["start_run"] ["c1"] "hello" 2 10 5.
Lemma ex_first_parks : snd ex_first = Some (Ok (mkOutcome "" (Some ex_parked_at))).
Proof. vm_compute. reflexivity. Qed.
Lemma ex_second_ends : snd ex_second = Some (Ok (mkOutcome "done" None)).
Proof. vm_compute. reflexivity. Qed.

Definition ex_first_trace : list (Program.did (agop string)) :=
  trace_of ex_reply (Run ex_agent 9 "r1" "triage" "go") ex_first_script.
Definition ex_second_trace : list (Program.did (agop string)) :=
  trace_of ex_reply (Resume ex_agent 9 "r1" "triage" (ex_record "hello" 2) ex_approval) ex_second_script.
Lemma ex_first_runs : runs (Run ex_agent 9 "r1" "triage" "go") ex_first_trace (Some (Some (Ok (mkOutcome "" (Some ex_parked_at))))).
Proof.
  rewrite <-ex_first_parks. unfold ex_first, ex_first_trace.
  exact (trace_of_runs ex_reply (Run ex_agent 9 "r1" "triage" "go") ex_first_script).
Qed.
Lemma ex_second_runs :
  runs (Resume ex_agent 9 "r1" "triage" (ex_record "hello" 2) ex_approval) ex_second_trace (Some (Some (Ok (mkOutcome "done" None)))).
Proof.
  rewrite <-ex_second_ends. unfold ex_second, ex_second_trace.
  exact (trace_of_runs ex_reply (Resume ex_agent 9 "r1" "triage" (ex_record "hello" 2) ex_approval) ex_second_script).
Qed.

Lemma ex_first_ended : ended (Ok ex_parking) ex_first_trace.
Proof. vm_compute. reflexivity. Qed.
Lemma ex_second_ended : ended (Ok ex_ending) ex_second_trace.
Proof. vm_compute. reflexivity. Qed.

Definition starts_with (d : Program.did (agop string)) : option Z :=
  match d with Did (GNext (ReStart _ _ _ _ _ m)) _ => Some m | _ => None end.
Lemma kept_by steps (tr : list (Program.did (agop string))) res :
  ended (Ok res) tr → 0 ≤ ge_Steps res → omap starts_with tr = [steps] → ge_Steps res ≤ steps → keeps_ceiling tr.
Proof.
  intros He H0 Hs Hle p m a tl i max x res' Hin He'. unfold ended in He, He'. rewrite He in He'. injection He' as <-.
  split; [done|]. assert (Hm : max ∈ omap starts_with tr) by (apply list_elem_of_omap; by eexists). rewrite Hs in Hm.
  by apply list_elem_of_singleton in Hm as ->.
Qed.
Lemma ex_first_keeps : keeps_ceiling ex_first_trace.
Proof.
  assert (Hs : omap starts_with ex_first_trace = [5]) by (vm_compute; reflexivity).
  refine (kept_by 5 ex_first_trace ex_parking ex_first_ended _ Hs _); cbn; lia.
Qed.
Lemma ex_second_keeps : keeps_ceiling ex_second_trace.
Proof.
  assert (Hs : omap starts_with ex_second_trace = [3]) by (vm_compute; reflexivity).
  refine (kept_by 3 ex_second_trace ex_ending ex_second_ended _ Hs _); cbn; lia.
Qed.

Lemma ex_life_parked : agent_life ex_agent "r1" "triage" 2 (Some (Some ex_parked_at)).
Proof. exact (life_run ex_agent "r1" "triage" 9 "go" ex_first_trace (mkOutcome "" (Some ex_parked_at)) ex_parking ex_first_runs ex_first_ended ex_first_keeps). Qed.

Lemma ex_life : agent_life ex_agent "r1" "triage" (2 + 3) None.
Proof.
  assert (Hj : dec_park (enc_park ex_parked_at) = Some (ex_record "hello" 2)) by (vm_compute; reflexivity).
  exact (life_resume ex_agent "r1" "triage" 9 2 ex_parked_at (ex_record "hello" 2) ex_approval ex_second_trace
           (mkOutcome "done" None) ex_ending ex_life_parked Hj ex_second_runs ex_second_ended ex_second_keeps).
Qed.

Lemma approvals_do_not_extend_the_ceiling_witness : 0 < 5 ∧ 2 + 3 ≤ 5.
Proof.
  exact (approvals_do_not_extend_the_ceiling ex_agent "r1" "triage" (Ok tt) ex_agent_config ex_agent_options (2 + 3) None
           ex_agent_new ex_park_json ex_life).
Defined.
