(* ===== verification/Builtins.v ===== *)
(** * Steps the plane runs itself: [internal/server/builtins.go] and [agent.go]

    A plane takes a [builtin:] step off an advancing pass ([Take]), gives it to
    one of its workers, claims the attempt the pass planned ([claim]), reads the
    log again, records the dispatch under the claim's fence, and only then runs
    the body ([attempt]); what came of it is written under the same fence
    ([terminal]). Several planes do this at once, so every answer here is
    whatever the call may return. [runAgent] is the agent's body: it starts the
    loop of [Agent], or takes it up where the log says it stopped
    ([parkedAt]). The human gate is [Approval], a loop's pass [Loop.iterate]: one
    call here, like a model's answer. *)

From Stdlib Require Import Ascii.
From S2P Require Import Prelude Bytes Proto Policy Lease Program RunStore Sched Loop Plane Control Approval Agent.

(** ** What is queued *)

Record builtinJob : Type := mkBJob { bj_tenantID : string; bj_runID : string; bj_step : Step; bj_attempt : Z }.

Definition BuiltinScheme : string := "builtin:".
Definition BuiltinTimer : string := "builtin:timer".
Definition BuiltinApproval : string := "builtin:approval".
Definition BuiltinLLM : string := "builtin:llm".
Definition BuiltinLoop : string := "builtin:loop".
Definition BuiltinAgent : string := "builtin:agent".
(** [gate.IsGate]. *)
Definition BuiltinWait : string := "builtin:wait".
Definition IsGate (ref : string) : bool := bool_decide (ref = BuiltinWait) || bool_decide (ref = BuiltinTimer).
Definition builtinQueue : nat := 64.
Definition builtinWorkers : nat := 4.

Definition job_key (tenantID runID stepID : string) : string := tenantID +:+ "/" +:+ runID +:+ "/" +:+ stepID.
Definition key_of (job : builtinJob) : string := job_key (bj_tenantID job) (bj_runID job) (step_id (bj_step job)).

(** [builtins.running], the channel, what is between the two inside [Take], and
    what the workers have. *)
Record Taken : Type := mkTaken
  { ta_running : gset string; ta_jobs : list builtinJob; ta_taking : list builtinJob; ta_working : list builtinJob }.

Definition nothing_taken : Taken := mkTaken ∅ [] [] [].

(** [Take] up to its select: [Some] is its answer, [None] goes on. *)
Definition take_mark (job : builtinJob) (s : Taken) : Taken * option bool :=
  if negb (has_prefix BuiltinScheme (step_plugin_ref (bj_step job))) then (s, Some false)
  else if IsGate (step_plugin_ref (bj_step job)) then (s, Some false)
  else if decide (key_of job ∈ ta_running s) then (s, Some true)
  else (mkTaken ({[key_of job]} ∪ ta_running s) (ta_jobs s) (job :: ta_taking s) (ta_working s), None).

Definition release (key : string) (s : Taken) : Taken :=
  mkTaken (ta_running s ∖ {[key]}) (ta_jobs s) (ta_taking s) (ta_working s).

(** The select: the job is queued if there is room, and [ctx] may have ended
    even if there is. *)
Definition take_send (i : nat) (ended : bool) (s : Taken) : Taken :=
  match ta_taking s !! i with
  | None => s
  | Some job =>
      let s' := mkTaken (ta_running s) (ta_jobs s) (delete i (ta_taking s)) (ta_working s) in
      if ended || negb (bool_decide (length (ta_jobs s) < builtinQueue)%nat) then release (key_of job) s'
      else mkTaken (ta_running s') (ta_jobs s ++ [job]) (ta_taking s') (ta_working s')
  end.

Definition work_begin (s : Taken) : Taken :=
  match ta_jobs s with
  | [] => s
  | job :: jobs =>
      if decide (length (ta_working s) < builtinWorkers)%nat
      then mkTaken (ta_running s) jobs (ta_taking s) (ta_working s ++ [job]) else s
  end.

Definition work_end (i : nat) (s : Taken) : Taken :=
  match ta_working s !! i with
  | None => s
  | Some job => release (key_of job) (mkTaken (ta_running s) (ta_jobs s) (ta_taking s) (delete i (ta_working s)))
  end.

(** ** Calls *)

Inductive BodyErr : Type := StepParked | BodyFailed (e : GoErr).

Section builtins.
Context {Any : Type}.

Inductive ubop : Type → Type :=
| UPlane {X} (o : Plane.op X) : ubop X
| UAgent {X} (o : agop Any X) : ubop X
| UCtxErr : ubop bool
| UStartRenewing (t : Token) : ubop unit
| UStopRenewing : ubop unit
| ULeaseLost : ubop bool
| UResolve (tenant name : string) : ubop (result GoErr string)
| UModel (tenant provider model apiKey : string) : ubop (result GoErr unit)
| ULlm (tenant run step prompt schema : string) (maxTokens : Z) : ubop (result GoErr string)
| UIssueToken (tenant subject kind : string) (ttl : Z) : ubop (result GoErr string)
| UPut (tenant body : string) : ubop (result GoErr Digest)
| URequestGate (tenant run step prompt : string) : ubop (result GoErr unit)
| UIterate (tenant run : string) (s : Step) : ubop (result GoErr unit).

Abbreviation ucmd := (Program.cmd ubop).
Abbreviation ugo := (Program.go ubop).

(** The scheduler's calls, and the agent's, among these. *)
Fixpoint on_plane {A} (c : Plane.cmd A) : ucmd A :=
  match c with Done a => Done a | Call o k => Call (UPlane o) (λ x, on_plane (k x)) end.
Fixpoint on_agent {A} (c : Program.cmd (agop Any) A) : ucmd A :=
  match c with Done a => Done a | Call o k => Call (UAgent o) (λ x, on_agent (k x)) end.

Context `{AgentJSON Any, ApprovalJSON, Payloads}.

(** What this plane was built with. *)
Record builtinsCfg : Type := mkBuiltins
  { bi_models : bool; bi_secrets : bool; bi_approvers : bool; bi_tokens : bool; bi_api : option string;
    bi_leases : bool; bi_ttl : Z }.

(** [taint.NewChecker] with no configuration, which an agent step gets. *)
Context (b : builtinsCfg) (default_taint_rules : result string unit).

Definition no_token : Token := mkToken "" 0.

Definition config_at (job : builtinJob) (key : string) : string := default "" (step_config (bj_step job) !! key).

(** ** Attempts *)

Definition claim (job : builtinJob) (attempt : Z) : ugo Token :=
  if negb (bi_leases b) then
    gfail (ErrMsg "this control plane has no lease manager, so a builtin step it ran could never be recovered")
  else
    wrap ("claiming the lease on " +:+ bj_runID job +:+ "/" +:+ step_id (bj_step job))
      (act (UPlane (OClaim (bj_tenantID job) (bj_runID job) (step_id (bj_step job)) attempt (bi_ttl b)))).

Definition highest_dispatch (stepID : string) (events : list Event) : Z :=
  foldl (λ highest e,
    if decide (ev_StepID e = stepID ∧ ev_Type e = StepDispatched ∧ highest < ev_Attempt e) then ev_Attempt e else highest)
    0 events.

Definition nextAttempt (job : builtinJob) : ugo Z :=
  events <~ act (UPlane (OReplay (bj_tenantID job) (bj_runID job)));;
  gret (u32 (highest_dispatch (step_id (bj_step job)) events + 1)).

Definition attemptOf (job : builtinJob) : ugo Z := next <~ nextAttempt job;; gret (u32 (next - 1)).

(** Under the fence, if the step was ever leased. *)
Definition fenced_tx (tenant : string) (e : Event) (token : Token) : Plane.go unit :=
  _ <~ act (OTxAppend tenant e);; act (OValidate token).

Definition terminal (job : builtinJob) (attempt : Z) (token : Token) (status : JobStatus) (kind : string) : ugo unit :=
  match MarshalStatus status with
  | None => gfail (ErrMsg "encoding the status of a builtin step")
  | Some payload =>
      now <- act (UPlane ONow);;
      let event := mkEvent (bj_runID job) (step_id (bj_step job)) attempt 0 kind payload now in
      if decide (tk_Value token = "") then act (UPlane (OAppend (bj_tenantID job) event))
      else if negb (bi_leases b) then act (UPlane (OAppend (bj_tenantID job) event))
      else
        r <- on_plane (Plane.WithTx (fenced_tx (bj_tenantID job) event token));;
        Done (match r with Ok _ => Ok tt | Err e => if Is e ErrFenced then Ok tt else Err e end)
  end.

Definition succeed (job : builtinJob) (attempt : Z) (token : Token) (outputs : list OutputRef) : ugo unit :=
  terminal job attempt token
    (mkJobStatus (bj_runID job) (step_id (bj_step job)) attempt "" PHASE_SUCCEEDED 0 outputs "" "") StepSucceeded.

Definition fail (job : builtinJob) (token : Token) (cause : GoErr) : ugo unit :=
  attempt <~ attemptOf job;;
  let attempt := if decide (attempt = 0) then 1 else attempt in
  terminal job attempt token
    (mkJobStatus (bj_runID job) (step_id (bj_step job)) attempt "" PHASE_FAILED 0 [] (err_text cause) "") StepFailed.

Definition builtin_dispatch (attempt : Z) (token : Token) : string :=
  MarshalDispatched (mkDispatched attempt (tk_Fence token) false "the control plane runs this step type itself" false "").

(** A body; [None] while it is still running. *)
Definition body : Type := builtinJob → Z → ucmd (option (result BodyErr (list OutputRef))).

(** [Some (token, err)] is what it returned. *)
Definition attempt_step (job : builtinJob) (do_ : body) : ucmd (option (Token * option BodyErr)) :=
  let attempt := bj_attempt job in
  if decide (attempt = 0) then
    Done (Some (no_token, Some (BodyFailed (ErrMsg "a builtin step was taken with no attempt to run it under"))))
  else
    claimed <- claim job attempt;;
    match claimed with
    | Err e => Done (Some (no_token, if Is e ErrAlreadyOffered then None else Some (BodyFailed e)))
    | Ok token =>
        _ <- act (UStartRenewing token);;
        let returning (r : Token * option BodyErr) := (_ <- act UStopRenewing;; Done (Some r)) in
        dispatched <- attemptOf job;;
        match dispatched with
        | Err e => returning (token, Some (BodyFailed e))
        | Ok dispatched =>
            if decide (attempt ≤ dispatched) then returning (no_token, None)
            else
              now <- act (UPlane ONow);;
              placed <- on_plane (Plane.WithTx (fenced_tx (bj_tenantID job)
                          (mkEvent (bj_runID job) (step_id (bj_step job)) attempt 0 StepDispatched
                             (builtin_dispatch attempt token) now) token));;
              match placed with
              | Err e => returning (if Is e ErrFenced then (no_token, None) else (token, Some (BodyFailed e)))
              | Ok _ =>
                  out <- do_ job attempt;;
                  match out with
                  | None => Done None
                  | Some r =>
                      lost <- act ULeaseLost;;
                      stopped <- act UCtxErr;;
                      if (lost : bool) && negb stopped then returning (no_token, None)
                      else match r with
                           | Err e => returning (token, Some e)
                           | Ok outputs =>
                               w <- succeed job attempt token outputs;;
                               returning (token, match w with Ok _ => None | Err e => Some (BodyFailed e) end)
                           end
                  end
              end
        end
    end.

(** ** What a step writes *)

Definition emit (job : builtinJob) (bytes : string) : ugo (list OutputRef) :=
  match step_outputs (bj_step job) with
  | [] => gret []
  | port :: _ =>
      digest <~ act (UPut (bj_tenantID job) bytes);;
      gret [mkOutputRef (port_name port) digest "" (Z.of_nat (String.length bytes)) ""]
  end.

Definition credential (tenant name : string) : ugo string :=
  let name := TrimSpace name in
  if decide (name = "") then gret ""
  else if negb (bi_secrets b) then
    gfail (ErrMsg ("this control plane can redeem no secrets, so it cannot resolve the credential named " +:+ quote name))
  else act (UResolve tenant name).

Definition gate : result GoErr unit :=
  if bi_approvers b then Ok tt
  else Err (ErrMsg "this control plane has no principal store, so there is nobody an approval could be verified against").

Definition open_gate (job : builtinJob) : ugo unit :=
  match gate with
  | Err e => gfail e
  | Ok _ => act (URequestGate (bj_tenantID job) (bj_runID job) (step_id (bj_step job)) (config_at job "prompt"))
  end.

(** ** A model's answer *)

Definition resolve_model (job : builtinJob) : ugo unit :=
  apiKey <~ credential (bj_tenantID job) (config_at job "api_key_secret");;
  wrap ("resolving model " +:+ quote (config_at job "model") +:+ " of provider " +:+ quote (config_at job "provider"))
    (act (UModel (bj_tenantID job) (config_at job "provider") (config_at job "model") apiKey)).

Definition schema_of (t : option PortKind) : string := match t with Some (PortStructured _ schema) => schema | _ => "" end.
Definition structuredSchema (step : Step) : string :=
  default "" (List.find (λ s, negb (bool_decide (s = ""))) (map (λ p, schema_of (port_type p)) (step_outputs step))).

Definition answer (job : builtinJob) (prompt stepID : string) : ugo string :=
  if negb (bi_models b) then
    gfail (ErrMsg "this control plane was given no model factory, so it can call no language model; see server.Config.Models")
  else if decide (TrimSpace prompt = "") then gfail (ErrMsg "an llm step needs a `prompt` in its config")
  else
    let raw := TrimSpace (config_at job "max_tokens") in
    match (if decide (raw = "") then Some 0 else Atoi raw) with
    | None => gfail (ErrMsg ("an llm step's max_tokens " +:+ quote raw))
    | Some maxTokens =>
        _ <~ resolve_model job;;
        act (ULlm (bj_tenantID job) (bj_runID job) stepID prompt (structuredSchema (bj_step job)) maxTokens)
    end.

(** As a body that has returned. *)
Definition returned (c : ugo (list OutputRef)) : ucmd (option (result BodyErr (list OutputRef))) :=
  r <- c;; Done (Some (match r with Ok outs => Ok outs | Err e => Err (BodyFailed e) end)).

Definition callModel : body := λ job _,
  returned (a <~ answer job (config_at job "prompt") (step_id (bj_step job));; emit job a).

Definition iterate_body : body := λ job _,
  returned (_ <~ act (UIterate (bj_tenantID job) (bj_runID job) (bj_step job));; gret []).

(** ** [builtin:agent] *)

Definition agentTokenTTL : Z := 900000000000.

Definition agentGrants (raw : string) : result GoErr (list string) :=
  match List.filter (λ name, negb (bool_decide (name = ""))) (map TrimSpace (split_on ","%char raw)) with
  | [] => Err (ErrMsg ("an agent step needs a `grants` in its config naming what it may do; the contract's action space is ["
                       +:+ join ", " ContractActions +:+ "]"))
  | granted => Ok granted
  end.

Record position : Type := mkPosition { po_park : option ParkRecord; po_decision : option AgentDecision }.

Definition park_step (stepID : string) (p : position) (e : Event) : result GoErr position :=
  if decide (ev_StepID e ≠ stepID) then Ok p
  else if decide (ev_Type e = EventParked) then
    match dec_park (ev_Payload e) with
    | None => Err (ErrMsg "agent: reading AGENT_PARKED")
    | Some record => Ok (mkPosition (Some record) None)
    end
  else if decide (ev_Type e = StepApprovalDecided) then
    match UnmarshalDecision (ev_Payload e) with
    | None => Err (ErrMsg "approval: decoding STEP_APPROVAL_DECIDED")
    | Some d => Ok (mkPosition (po_park p) (Some (mkAgentDecision (Approval.gd_Approver d) (Approval.gd_Approved d) (Approval.gd_Reason d))))
    end
  else Ok p.

Definition fold_position (stepID : string) (events : list Event) : result GoErr position :=
  foldl (λ r e, match r with Ok p => park_step stepID p e | Err err => Err err end) (Ok (mkPosition None None)) events.

(** [None]: it never parked. *)
Definition position_of (stepID : string) (events : list Event) : result GoErr (option (ParkRecord * AgentDecision)) :=
  match fold_position stepID events with
  | Err e => Err e
  | Ok (mkPosition None _) => Ok None
  | Ok (mkPosition (Some _) None) =>
      Err (ErrMsg ("agent step " +:+ quote stepID +:+ " parked at a gate nobody has decided, and was dispatched anyway"))
  | Ok (mkPosition (Some park) (Some d)) => Ok (Some (park, d))
  end.

Definition from {A} (r : result GoErr A) : ugo A := Done r.

Definition parkedAt (job : builtinJob) : ugo (option (ParkRecord * AgentDecision)) :=
  events <~ act (UPlane (OReplay (bj_tenantID job) (bj_runID job)));;
  from (position_of (step_id (bj_step job)) events).

Fixpoint subject_in (job : builtinJob) (events : list Event) : result GoErr string :=
  match events with
  | [] => Err (ErrMsg ("run " +:+ quote (bj_runID job) +:+ " has no RUN_CREATED event, so its agent has no identity"))
  | e :: events =>
      if decide (ev_Type e = RunCreated) then
        match UnmarshalRunCreated (ev_Payload e) with
        | None => Err (ErrMsg "decoding RUN_CREATED")
        | Some created => Ok ("agent:" +:+ rc_PipelineID created +:+ ":" +:+ step_id (bj_step job))
        end
      else subject_in job events
  end.

Definition agentSubject (job : builtinJob) : ugo string :=
  events <~ act (UPlane (OReplay (bj_tenantID job) (bj_runID job)));; from (subject_in job events).

(** The subject it acts as; the client is what [GInvoke] goes through. *)
Definition agentInvoker (job : builtinJob) : ugo string :=
  if negb (bi_tokens b) then
    gfail (ErrMsg "this control plane has no principal store, so there is nobody an agent could act as")
  else match bi_api b with
  | None => gfail (ErrMsg "this control plane serves no API, so an agent step has no contract to act through")
  | Some addr =>
      if decide (addr = "") then
        gfail (ErrMsg "this control plane's API is not listening, so an agent step has nothing to call")
      else
        subject <~ agentSubject job;;
        _ <~ wrap ("minting a credential for agent " +:+ quote subject)
               (act (UIssueToken (bj_tenantID job) subject PrincipalAgent agentTokenTTL));;
        gret subject
  end.

Definition agent_config (job : builtinJob) (grants : list string) (maxSteps : Z) : AgentConfig :=
  mkAgentConfig grants maxSteps ContractCatalogue (config_at job "instructions").

(** A model, an invoker, a gate and a store; no inputs, tier or taint checker. *)
Definition agent_options (job : builtinJob) (subject : string) : AgentOptions :=
  mkAgentOptions true true true true (bj_tenantID job) subject ∅ [] "" false.

(** The whole agent is made before the log is asked where it stopped. *)
Definition make_agent (job : builtinJob) : ugo (AgentStep * string) :=
  if negb (bi_models b) then
    gfail (ErrMsg "this control plane was given no model factory, so it can run no agent step; see server.Config.Models")
  else
    grants <~ from (agentGrants (config_at job "grants"));;
    match Atoi (TrimSpace (config_at job "max_steps")) with
    | None => gfail (ErrMsg ("an agent step's max_steps " +:+ quote (config_at job "max_steps")))
    | Some ceiling =>
        let prompt := TrimSpace (config_at job "prompt") in
        if decide (prompt = "") then gfail (ErrMsg "an agent step needs a `prompt` in its config")
        else
          _ <~ resolve_model job;;
          subject <~ agentInvoker job;;
          _ <~ from gate;;
          match NewAgent default_taint_rules (agent_config job grants ceiling) (agent_options job subject) with
          | Err e => gfail (ErrMsg (agent_err_text e))
          | Ok step => gret (step, prompt)
          end
    end.

(** [n]: how often the SDK's loop may call back before it is still running. *)
Definition agent_segment (n : nat) (job : builtinJob) (step : AgentStep) (prompt : string)
    (stopped_at : option (ParkRecord * AgentDecision)) : Program.cmd (agop Any) (option (result AgentErr Outcome)) :=
  match stopped_at with
  | Some (parked, decision) => Agent.Resume step n (bj_runID job) (step_id (bj_step job)) parked decision
  | None => Agent.Run step n (bj_runID job) (step_id (bj_step job)) prompt
  end.

Definition runAgent (n : nat) : body := λ job _,
  made <- make_agent job;;
  match made with
  | Err e => Done (Some (Err (BodyFailed e)))
  | Ok (step, prompt) =>
      stopped_at <- parkedAt job;;
      match stopped_at with
      | Err e => Done (Some (Err (BodyFailed e)))
      | Ok stopped_at =>
          out <- on_agent (agent_segment n job step prompt stopped_at);;
          match out with
          | None => Done None
          | Some (Err e) => Done (Some (Err (BodyFailed (ErrMsg (agent_err_text e)))))
          | Some (Ok out) =>
              match oc_Parked out with
              | Some _ => Done (Some (Err StepParked))
              | None => returned (emit job (oc_Text out))
              end
          end
      end
  end.

(** ** One job *)

Definition execute (n : nat) (job : builtinJob) : ucmd (option (Token * option BodyErr)) :=
  let ref := step_plugin_ref (bj_step job) in
  if decide (ref = BuiltinApproval) then
    r <- open_gate job;; Done (Some (no_token, match r with Ok _ => None | Err e => Some (BodyFailed e) end))
  else if decide (ref = BuiltinLLM) then attempt_step job callModel
  else if decide (ref = BuiltinLoop) then attempt_step job iterate_body
  else if decide (ref = BuiltinAgent) then attempt_step job (runAgent n)
  else Done (Some (no_token, Some (BodyFailed (ErrMsg ("no step type is registered for " +:+ quote ref))))).

Definition run (n : nat) (job : builtinJob) : ucmd unit :=
  r <- execute n job;;
  match r with
  | None | Some (_, None) => Done tt
  | Some (token, Some e) =>
      stopped <- act UCtxErr;;
      if stopped : bool then Done tt
      else match e with
           | StepParked => Done tt
           | BodyFailed cause => _ <- fail job token cause;; Done tt
           end
  end.

(** ** Renewing *)

(** What the goroutine [attempt] starts does next: it ended, its lease is lost,
    or it goes on. [renewed] is when a renewal last succeeded. *)
Inductive rnop : Type → Type :=
| RTick : rnop bool
| RRenew (t : Token) : rnop (result GoErr unit)
| RStopped : rnop bool
| RNow : rnop Z
| RLost (cause : GoErr) : rnop unit.

Fixpoint renewing (n : nat) (token : Token) (renewed : Z) : Program.cmd rnop unit :=
  match n with
  | O => Done tt
  | S n =>
      ticked <- act RTick;;
      if negb (ticked : bool) then Done tt
      else
        r <- act (RRenew token);;
        match r with
        | Ok _ => now <- act RNow;; renewing n token now
        | Err e =>
            stopped <- act RStopped;;
            if stopped : bool then Done tt
            else if Is e ErrFenced then act (RLost e)
            else
              now <- act RNow;;
              if decide (bi_ttl b ≤ now - renewed) then act (RLost e) else renewing n token renewed
        end
  end.

Definition minRenewInterval : Z := 100000000.
Definition renew_interval : Z := Z.max minRenewInterval (Z.quot (bi_ttl b) 3).

End builtins.
#[global] Arguments ubop : clear implicits.
