(* ===== verification/BuiltinFacts.v ===== *)
(** * Steps the plane runs itself

    A body runs only under an attempt this plane claimed, found unrecorded in
    the log and recorded under the claim's fence, and a verdict of it commits
    only under the same fence ([builtins_run_under_their_claim]). What an agent
    does is what its step grants and, where it must be approved, what a person
    approved of it in the log ([agents_act_only_as_allowed]); its verdict is
    what its loop came to ([agent_verdicts_are_truthful]). A failed claim's
    verdict is the exception ([failed_claim_fails_another_plane]). *)

From S2P Require Import Prelude Bytes Proto Policy Taint Lease Program RunStore Sched Loop Plane Control ControlFacts Approval Agent AgentFacts Builtins.

Section Builtins.
Context {Any : Type} `{AgentJSON Any, ApprovalJSON, Payloads}.
Context (b : builtinsCfg) (rules : result string unit).

Abbreviation udid := (Program.did (ubop Any)).
Abbreviation uguard := (Program.guard (ubop Any)).
Abbreviation ucmd := (Program.cmd (ubop Any)).

(** ** The agent's calls among the others *)

Definition agent_part (h : list udid) : list (Program.did (agop Any)) :=
  omap (λ '(Did o x), match o in ubop _ X return X → option (Program.did (agop Any)) with
                      | UAgent o => λ x, Some (Did o x)
                      | _ => λ _, None
                      end x) h.

Lemma agent_part_app h1 h2 : agent_part (h1 ++ h2) = agent_part h1 ++ agent_part h2.
Proof. apply omap_app. Qed.

Lemma agent_part_agent h X (o : agop Any X) x : agent_part (h ++ [Did (UAgent o) x]) = agent_part h ++ [Did o x].
Proof. apply agent_part_app. Qed.

Lemma safe_on_agent (P : Program.guard (agop Any)) (R : uguard) {A} (c : Program.cmd (agop Any) A) Q h :
  (∀ X (o : agop Any X) h', extends h h' → P X o (agent_part h') → R X (UAgent o) h') →
  safe P c Q (agent_part h) → safe R (on_agent c) (λ a h', Q a (agent_part h') ∧ extends h h') h.
Proof.
  revert h. induction c as [a|X o k IH]; intros h HR; cbn [on_agent safe]; [by intros HQ|].
  intros [HP Hk]. split; [by apply HR|]. intros x. eapply safe_mono; [|apply IH].
  - intros a h' [HQ He]. split; [done|]. etrans; [apply extends_snoc|exact He].
  - intros Y o' h' He. apply HR. etrans; [apply extends_snoc|exact He].
  - rewrite agent_part_agent. apply Hk.
Qed.

(** ** Claims *)

Section job.
Context (job : builtinJob).
Abbreviation tenant := (bj_tenantID job).
Abbreviation rid := (bj_runID job).
Abbreviation sid := (step_id (bj_step job)).

Definition claiming : Plane.op (result GoErr Token) := OClaim tenant rid sid (bj_attempt job) (bi_ttl b).

Definition claimed_by (X : Type) (o : ubop Any X) : X → option Token :=
  match o in ubop _ X return X → option Token with
  | UPlane o => match o in Plane.op X return X → option Token with
                | OClaim _ _ _ _ _ => λ r, match r with Ok t => Some t | Err _ => None end
                | _ => λ _, None
                end
  | _ => λ _, None
  end.
Definition claims (h : list udid) : list Token := pick claimed_by h.

(** The dispatch, recorded under the claim's fence. *)
Definition dispatch_event (token : Token) (now : Z) : Event :=
  mkEvent rid sid (bj_attempt job) 0 StepDispatched (builtin_dispatch (bj_attempt job) token) now.
Definition fenced (e : Event) (token : Token) : list udid :=
  [Did (UPlane OTxBegin) (Ok tt); Did (UPlane (OTxAppend tenant e)) (Ok tt); Did (UPlane (OValidate token)) (Ok tt)].

(** Claimed; then the log read, and no such attempt in it; then the dispatch
    committed. *)
Definition placed (h : list udid) : Prop :=
  ∃ token events now h1 h2 h3 h4,
    h = h1 ++ Did (UPlane claiming) (Ok token) :: h2 ++ Did (UPlane (OReplay tenant rid)) (Ok events) :: h3
          ++ fenced (dispatch_event token now) token ++ Did (UPlane OTxCommit) (Ok tt) :: h4
    ∧ u32 (highest_dispatch sid events) < bj_attempt job.

Lemma placed_extends h h' : extends h h' → placed h → placed h'.
Proof.
  intros [tr ->] (token & events & now & h1 & h2 & h3 & h4 & -> & Hlt). exists token, events, now, h1, h2, h3, (h4 ++ tr).
  split; [|done]. by rewrite <-!app_assoc, <-!app_comm_cons, <-!app_assoc, <-!app_comm_cons, <-!app_assoc.
Qed.

(** A transaction is committed when its last call found the claim current. *)
Definition commits_fenced (h : list udid) : Prop :=
  ∃ token e pre, h = pre ++ fenced e token ∧ Did (UPlane claiming) (Ok token) ∈ pre.

Definition parks_at (e : Event) : bool := bool_decide (ev_StepID e = sid ∧ ev_Type e = EventParked).
Definition decides_at (e : Event) : bool := bool_decide (ev_StepID e = sid ∧ ev_Type e = StepApprovalDecided).
Definition decision_of (e : Event) : option AgentDecision :=
  (λ d, mkAgentDecision (Approval.gd_Approver d) (Approval.gd_Approved d) (Approval.gd_Reason d))
  <$> UnmarshalDecision (ev_Payload e).

(** The last park of the step, and the last decision after it. *)
Definition last_position (events : list Event) (p : position) : Prop :=
  match po_park p with
  | None => Forall (λ e, parks_at e = false) events
  | Some parked =>
      ∃ before e after, events = before ++ e :: after ∧ parks_at e = true ∧ dec_park (ev_Payload e) = Some parked
      ∧ Forall (λ e, parks_at e = false) after
      ∧ match po_decision p with
        | None => Forall (λ e, decides_at e = false) after
        | Some d => ∃ mid f later, after = mid ++ f :: later ∧ decides_at f = true ∧ decision_of f = Some d
                    ∧ Forall (λ e, decides_at e = false) later
        end
  end.

Lemma last_position_more events p e :
  last_position events p → parks_at e = false → decides_at e = false → last_position (events ++ [e]) p.
Proof.
  unfold last_position. intros Hl Hp Hd. destruct (po_park p) as [parked|]; [|by apply Forall_app; split; [|constructor]].
  destruct Hl as (before & e0 & after & -> & P1 & P2 & P3 & P4). exists before, e0, (after ++ [e]).
  split; [by rewrite <-app_assoc|]. split_and!; [done|done|by apply Forall_app; split; [|constructor]|].
  destruct (po_decision p) as [d|]; [|by apply Forall_app; split; [|constructor]].
  destruct P4 as (mid & f & later & -> & P5 & P6 & P7). exists mid, f, (later ++ [e]). split; [by rewrite <-app_assoc|].
  split_and!; [done|done|by apply Forall_app; split; [|constructor]].
Qed.

Lemma position_is_the_last events p : fold_position sid events = Ok p → last_position events p.
Proof.
  revert p. induction events as [|e events IH] using rev_ind; intros p; [by intros [= <-]; constructor|].
  unfold fold_position in *. rewrite foldl_app. cbn [foldl]. destruct (foldl _ _ events) as [q|]; [|done]. specialize (IH q eq_refl).
  unfold park_step. destruct (decide (ev_StepID e ≠ sid)) as [Hs|Hs].
  { intros [= <-]. apply last_position_more; [done|by apply bool_decide_eq_false; intros []..]. }
  apply dec_stable in Hs. case_decide as Hpk.
  - destruct (dec_park (ev_Payload e)) as [record|] eqn:Ed; [|done]. intros [= <-]. exists events, e, [].
    split_and!; [done|by apply bool_decide_eq_true|done|by constructor|by constructor].
  - assert (Hnp : parks_at e = false) by (apply bool_decide_eq_false; by intros []). case_decide as Hdc.
    + destruct (UnmarshalDecision (ev_Payload e)) as [d|] eqn:Ed; [|done]. intros [= <-]. unfold last_position in *. cbn [po_park po_decision].
      destruct (po_park q) as [parked|]; [|by apply Forall_app; split; [|constructor]].
      destruct IH as (before & e0 & after & -> & P2 & P3 & P4 & _). exists before, e0, (after ++ [e]).
      split; [by rewrite <-app_assoc|]. split_and!; [done|done|by apply Forall_app; split; [|constructor]|].
      exists after, e, []. unfold decision_of. rewrite Ed. split_and!; [done|by apply bool_decide_eq_true|done|constructor].
    + intros [= <-]. apply last_position_more; [done|done|]. apply bool_decide_eq_false. by intros [].
Qed.

(** A step that parked, was released and parked again is at its last park, and
    what is resumed there was decided after it. *)
Lemma resumes_at_its_last_park events parked d :
  position_of sid events = Ok (Some (parked, d)) → last_position events (mkPosition (Some parked) (Some d)).
Proof.
  intros Hp. apply position_is_the_last. unfold position_of in Hp.
  destruct (fold_position sid events) as [[[park|] [dd|]]|]; try done. by injection Hp as -> ->.
Qed.

(** What a person decided, as the log read says. *)
Definition standing (h : list udid) (w : option (AgentDecision * list string)) : Prop :=
  match w with
  | None => True
  | Some (d, actions) => ∃ events parked, Did (UPlane (OReplay tenant rid)) (Ok events) ∈ h
      ∧ last_position events (mkPosition (Some parked) (Some d)) ∧ actions = pk_Actions parked
  end.

Definition acts (inv : Invocation) (h : list udid) : Prop :=
  ∃ names ceiling subject s w, agentGrants (config_at job "grants") = Ok names
  ∧ NewAgent rules (agent_config job names ceiling) (agent_options job subject) = Ok s
  ∧ inv_RunID inv = rid ∧ inv_StepID inv = sid ∧ standing h w ∧ allowed s w inv (agent_part h).

(** The loop of an agent whose verdict this is came to this. *)
Definition verdict_ok (e : Event) (h : list udid) : Prop :=
  ev_Type e ≠ StepDispatched → gate_opened (agent_part h) = false
  ∧ (ev_Type e = StepSucceeded → placed h ∧ ev_Attempt e = bj_attempt job ∧ first_refusal (agent_part h) = None
     ∧ (step_plugin_ref (bj_step job) = BuiltinAgent →
        ∃ res, ended (Ok res) (agent_part h) ∧ ge_Pending res = [])).

Definition builtin_guard : uguard := λ X o h,
  match o with
  | UPlane o =>
      match o with
      | OTxCommit => commits_fenced h
      | OTxAppend t e => t = tenant ∧ ev_RunID e = rid ∧ ev_StepID e = sid ∧ verdict_ok e h
      | OAppend t e =>
          t = tenant ∧ ev_RunID e = rid ∧ ev_StepID e = sid ∧ verdict_ok e h
          ∧ Forall (λ token, tk_Value token = "") (claims h)
      | _ => True
      end
  | UAgent o => placed h ∧ match o with GInvoke inv => acts inv h | _ => True end
  | ULlm _ _ _ _ _ _ | UIterate _ _ _ | UModel _ _ _ _ | UIssueToken _ _ _ _ | UResolve _ _ | UPut _ _ => placed h
  | _ => True
  end.

(** ** Calls that change neither *)

Definition calm (X : Type) (o : ubop Any X) : Prop :=
  match o with
  | UPlane o => match o with ONow | OReplay _ _ => True | _ => False end
  | ULlm _ _ _ _ _ _ | UIterate _ _ _ | UModel _ _ _ _ | UIssueToken _ _ _ _ | UResolve _ _ | UPut _ _
  | UCtxErr | ULeaseLost | UStartRenewing _ | UStopRenewing => True
  | _ => False
  end.

(** More was called; no agent and no claim. *)
Definition beside (h h' : list udid) : Prop := extends h h' ∧ agent_part h' = agent_part h ∧ claims h' = claims h.
#[local] Instance beside_preorder : PreOrder beside.
Proof.
  split; [done|]. intros h1 h2 h3 (E1 & A1 & C1) (E2 & A2 & C2). split_and!; [by etrans|congruence..].
Qed.

(** No claim. *)
Definition unclaimed (h h' : list udid) : Prop := extends h h' ∧ claims h' = claims h.
#[local] Instance unclaimed_preorder : PreOrder unclaimed.
Proof. split; [done|]. intros h1 h2 h3 (E1 & C1) (E2 & C2). split; [by etrans|congruence]. Qed.

Lemma beside_unclaimed h h' : beside h h' → unclaimed h h'.
Proof. by intros (? & _ & ?). Qed.

Definition asides (X : Type) (o : ubop Any X) : Prop :=
  match o with
  | UAgent _ => False
  | UPlane o => match o with OClaim _ _ _ _ _ => False | _ => True end
  | _ => True
  end.

Lemma beside_snoc X (o : ubop Any X) x h : asides X o → beside h (h ++ [Did o x]).
Proof.
  intros Ho. split_and!; [apply extends_snoc| |].
  - rewrite agent_part_app. destruct o; try done; apply app_nil_r.
  - unfold claims. rewrite pick_snoc. destruct o as [? o|? o| | | | | | | | | | |]; try done; try apply app_nil_r.
    destruct o; try done; apply app_nil_r.
Qed.

Lemma calm_asides X (o : ubop Any X) : calm X o → asides X o.
Proof. destruct o as [? o|? o| | | | | | | | | | |]; try done. by destruct o. Qed.

Lemma safe_calm {A} (c : ucmd A) h : placed h → within calm c → safe builtin_guard c (λ _ h', beside h h') h.
Proof.
  intros Hp. enough (Hgen : ∀ h', beside h h' → within calm c → safe builtin_guard c (λ _ h', beside h h') h') by by apply Hgen.
  induction c as [a|X o k IH]; intros h' Hb; cbn [within safe]; [done|]. intros [Ho Hk]. split.
  - pose proof (placed_extends _ _ (proj1 Hb) Hp) as Hp'. destruct o as [? o|? o| | | | | | | | | | |]; try done. by destruct o.
  - intros x. apply IH; [|done]. etrans; [exact Hb|]. by apply beside_snoc, calm_asides.
Qed.

(** What a program returns, whatever is called. *)
Lemma safe_also {A} (G : uguard) (c : ucmd A) Q Q' h :
  safe G c Q h → safe no_guard c Q' h → safe G c (λ a h', Q a h' ∧ Q' a h') h.
Proof.
  revert h. induction c as [a|X o k IH]; intros h; cbn [safe]; [by split|]. intros [Ho Hk] [_ Hk']. split; [done|].
  intros x. by apply IH.
Qed.

(** ** Writing *)

(** The claim a token stands for, if any. *)
Definition holds (token : Token) (h : list udid) : Prop :=
  (token = no_token ∧ claims h = [])
  ∨ (bi_leases b = true ∧ claims h = [token] ∧ Did (UPlane claiming) (Ok token) ∈ h).

Lemma holds_unclaimed token h h' : unclaimed h h' → holds token h → holds token h'.
Proof.
  intros [He Hc] [[-> Hn]|(Hl & Hn & Hin)]; [left|right]; rewrite Hc; [done|]. split_and!; [done..|]. by eapply extends_elem.
Qed.

Lemma safe_tx e token h (Q : result GoErr unit → list udid → Prop) :
  Did (UPlane claiming) (Ok token) ∈ h → ev_RunID e = rid → ev_StepID e = sid →
  (∀ h', beside h h' → verdict_ok e h') →
  (Q (Ok tt) (h ++ fenced e token ++ [Did (UPlane OTxCommit) (Ok tt)])) →
  (∀ err h', beside h h' → Q (Err err) h') →
  safe builtin_guard (on_plane (Plane.WithTx (fenced_tx tenant e token))) Q h.
Proof.
  intros Hin Hr Hs Hv Hok Herr. cbn [Plane.WithTx fenced_tx gbind act cbind on_plane].
  assert (Hsnoc : ∀ h' X (o : ubop Any X) x, beside h h' → asides X o → beside h (h' ++ [Did o x])).
  { intros h' X o x Hb Ho. etrans; [exact Hb|]. by apply beside_snoc. }
  split; [done|]. intros [[]|err]; cbn [on_plane gbind cbind]; [|by apply Herr, Hsnoc].
  split; [split_and!; [done..|]; by apply Hv, Hsnoc|]. intros [[]|err]; cbn [on_plane gbind cbind act].
  2: { split; [done|]. intros []. apply Herr. by repeat (apply Hsnoc; [|done]). }
  split; [done|]. intros [[]|err]; cbn [on_plane gbind cbind act gret].
  2: { split; [done|]. intros []. apply Herr. by repeat (apply Hsnoc; [|done]). }
  split.
  - exists token, e, h. split; [|done]. by rewrite <-!app_assoc.
  - intros [[]|err]; cbn [on_plane safe].
    + unfold fenced in Hok. by rewrite <-!app_assoc.
    + apply Herr. by repeat (apply Hsnoc; [|done]).
Qed.

Lemma beside_tx e token h : beside h (h ++ fenced e token ++ [Did (UPlane OTxCommit) (Ok tt)]).
Proof.
  split_and!; [by eexists|by rewrite agent_part_app, app_nil_r|]. unfold claims, pick. by rewrite omap_app, app_nil_r.
Qed.

Lemma safe_terminal attempt token status kind h :
  holds token h →
  (∀ h' payload now, beside h h' → verdict_ok (mkEvent rid sid attempt 0 kind payload now) h') →
  safe builtin_guard (terminal b job attempt token status kind) (λ _ h', unclaimed h h' ∧ agent_part h' = agent_part h) h.
Proof.
  intros Hh Hv. unfold terminal. destruct (MarshalStatus status) as [payload|]; [|done].
  apply safe_act_bind; [done|]. intros now. assert (Hb : beside h (h ++ [Did (UPlane ONow) now])) by by apply beside_snoc.
  assert (Hun : ∀ h', beside h h' → unclaimed h h' ∧ agent_part h' = agent_part h).
  { intros h' Hb'. split; [by apply beside_unclaimed|apply Hb']. }
  assert (Happend : tk_Value token = "" ∨ bi_leases b = false →
    safe builtin_guard (act (UPlane (OAppend tenant (mkEvent rid sid attempt 0 kind payload now))))
      (λ _ h', unclaimed h h' ∧ agent_part h' = agent_part h) (h ++ [Did (UPlane ONow) now])).
  { intros Hblank. apply safe_act.
    - split_and!; [done..|by apply Hv|]. destruct Hb as (_ & _ & ->).
      destruct Hh as [[-> ->]|(Hl & -> & _)]; [done|]. destruct Hblank as [Hb|Hb]; [by constructor|congruence].
    - intros x. apply Hun. etrans; [exact Hb|]. by apply beside_snoc. }
  case_decide as Hblank; [by apply Happend; left|]. destruct (bi_leases b) eqn:El; cbn [negb]; [|by apply Happend; right].
  destruct Hh as [[-> _]|(_ & Hc & Hin)]; [done|]. apply safe_bind. apply safe_tx; [|done|done|intros h' Hb'; apply Hv; by etrans| |].
  - by eapply extends_elem; [apply Hb|].
  - apply Hun. etrans; [exact Hb|]. apply beside_tx.
  - intros err h' Hb'. cbn [safe]. apply Hun. by etrans.
Qed.

(** ** Attempts *)

(** What a body that has returned left behind. *)
Definition body_post (out : option (result BodyErr (list OutputRef))) (h : list udid) : Prop :=
  match out with
  | None | Some (Err StepParked) => True
  | Some (Err (BodyFailed _)) => gate_opened (agent_part h) = false
  | Some (Ok _) => gate_opened (agent_part h) = false ∧ first_refusal (agent_part h) = None
      ∧ (step_plugin_ref (bj_step job) = BuiltinAgent → ∃ res, ended (Ok res) (agent_part h) ∧ ge_Pending res = [])
  end.

Definition body_ok (do_ : body) : Prop := ∀ h,
  placed h → agent_part h = [] → safe builtin_guard (do_ job (bj_attempt job)) (λ out h', unclaimed h h' ∧ body_post out h') h.

Definition attempt_post (r : option (Token * option BodyErr)) (h : list udid) : Prop :=
  ∀ token e, r = Some (token, Some e) → holds token h ∧ (e ≠ StepParked → gate_opened (agent_part h) = false).

Lemma u32_round z : u32 (u32 (z + 1) - 1) = u32 z.
Proof. unfold u32. rewrite Zminus_mod_idemp_l. f_equal. lia. Qed.

Lemma safe_returning r h :
  attempt_post (Some r) h → safe builtin_guard (_ <- act UStopRenewing;; Done (Some r)) attempt_post h.
Proof.
  intros Hp. apply safe_act_bind; [done|]. intros []. cbn [safe]. intros token e He. destruct (Hp token e He) as [Hh Hg].
  assert (Hb : beside h (h ++ [Did UStopRenewing tt])) by by apply beside_snoc.
  split; [by eapply holds_unclaimed, Hh; apply beside_unclaimed|]. destruct Hb as (_ & -> & _). exact Hg.
Qed.

Lemma attempt_quiet token h : attempt_post (Some (token, None)) h.
Proof. by intros ? ? [=]. Qed.

Lemma attempt_failed token e h : holds token h → gate_opened (agent_part h) = false → attempt_post (Some (token, Some e)) h.
Proof. intros Hh Hg ? ? [= <- <-]. by split. Qed.

(** Once it is placed. *)
Lemma safe_ran (do_ : body) token h :
  body_ok do_ → placed h → agent_part h = [] → holds token h →
  safe builtin_guard (out <- do_ job (bj_attempt job);;
    match out with
    | None => Done None
    | Some r =>
        lost <- act ULeaseLost;;
        stopped <- act UCtxErr;;
        if (lost : bool) && negb stopped then (_ <- act UStopRenewing;; Done (Some (no_token, None)))
        else match r with
             | Err e => (_ <- act UStopRenewing;; Done (Some (token, Some e)))
             | Ok outputs =>
                 w <- succeed b job (bj_attempt job) token outputs;;
                 (_ <- act UStopRenewing;;
                  Done (Some (token, match w with Ok _ => None | Err e => Some (BodyFailed e) end)))
             end
    end) attempt_post h.
Proof.
  intros Hdo Hp Ha Hh. apply safe_bind. eapply safe_mono; [|by apply Hdo]. intros [r|] h1 [Hu Hpost]; [|by intros ? ?].
  apply safe_act_bind; [done|]. intros lost. apply safe_act_bind; [done|]. intros stopped.
  set (h2 := (h1 ++ _) ++ _). assert (Hb : beside h1 h2) by (etrans; by apply beside_snoc).
  assert (Hh2 : holds token h2).
  { eapply holds_unclaimed, Hh. etrans; [exact Hu|]. by apply beside_unclaimed. }
  assert (Hpost2 : body_post (Some r) h2) by (unfold body_post; destruct Hb as (_ & -> & _); exact Hpost).
  destruct (lost && negb stopped); [apply safe_returning, attempt_quiet|]. destruct r as [outputs|e].
  - destruct Hpost2 as (Hg & Hf & Hag). apply safe_bind. eapply safe_mono; [|apply safe_terminal; [exact Hh2|]].
    + intros w h3 [Hu3 Hpart]. cbv beta. apply safe_returning. destruct w; [apply attempt_quiet|]. apply attempt_failed.
      * by eapply holds_unclaimed, Hh2.
      * by rewrite Hpart.
    + intros h3 payload now (He3 & Hp3 & _) _. rewrite Hp3. split; [done|]. intros _. split_and!; [|done..].
      eapply placed_extends, Hp. etrans; [apply Hu|]. etrans; [apply Hb|exact He3].
  - apply safe_returning. intros ? ? [= <- <-]. split; [done|]. by destruct e.
Qed.

Lemma safe_attempt_step do_ : body_ok do_ → safe builtin_guard (attempt_step b job do_) attempt_post [].
Proof.
  intros Hdo. unfold attempt_step. case_decide; [by apply attempt_failed; [left|]|].
  apply safe_bind. unfold claim. destruct (bi_leases b) eqn:El; cbn [negb].
  2: { cbn [safe gfail]. destruct (Is _ _); [apply attempt_quiet|]. by apply attempt_failed; [left|]. }
  apply safe_wrap_act; [done| |].
  2: { intros e. cbn [safe]. destruct (Is _ _); [apply attempt_quiet|]. by apply attempt_failed; [left|]. }
  intros token. apply safe_act_bind; [done|]. intros [].
  set (h1 := [Did (UPlane claiming) (Ok token); Did (UStartRenewing token) tt] : list udid). change (([] ++ _) ++ _) with h1.
  assert (Hh1 : holds token h1) by (right; split_and!; [done|done|by left]).
  apply safe_bind. unfold attemptOf, nextAttempt, gbind. rewrite !safe_bind. apply safe_act; [done|]. intros [events|e].
  2: { cbn [safe]. apply safe_returning, attempt_failed; [|done]. eapply holds_unclaimed, Hh1. by apply beside_unclaimed, beside_snoc. }
  cbn [cbind gret safe]. rewrite u32_round. case_decide as Hlt; [apply safe_returning, attempt_quiet|].
  apply safe_act_bind; [done|]. intros now. set (h2 := (_ ++ _) ++ _).
  assert (Hb2 : beside h1 h2) by (etrans; by apply beside_snoc).
  apply safe_bind. apply safe_tx; [by left|done|done|done| |].
  - apply safe_ran; [done| |done|].
    + exists token, events, now, [], [Did (UStartRenewing token) tt], [Did (UPlane ONow) now], []. split; [done|lia].
    + eapply holds_unclaimed, Hh1. apply beside_unclaimed. etrans; [exact Hb2|]. apply beside_tx.
  - intros e h3 Hb3. destruct (Is e ErrFenced); apply safe_returning; [apply attempt_quiet|]. apply attempt_failed.
    + eapply holds_unclaimed, Hh1. apply beside_unclaimed. by etrans.
    + destruct Hb3 as (_ & -> & _). by destruct Hb2 as (_ & -> & _).
Qed.

(** ** Bodies *)

Lemma within_gbind {A B} (P : ∀ X, ubop Any X → Prop) (c : Program.go (ubop Any) A) (f : A → Program.go (ubop Any) B) :
  within P c → (∀ a, within P (f a)) → within P (gbind c f).
Proof. intros Hc Hf. apply within_bind; [done|]. intros [a|e]; [apply Hf|done]. Qed.

Lemma calm_resolve_model : within calm (resolve_model b job).
Proof.
  unfold resolve_model. apply within_gbind.
  - unfold credential. case_decide; [done|]. by destruct (bi_secrets b).
  - intros apiKey. by apply within_bind.
Qed.

Lemma calm_emit bytes : within calm (emit job bytes : Program.go (ubop Any) _).
Proof. unfold emit. destruct (step_outputs (bj_step job)); [done|]. by apply within_gbind. Qed.

Lemma calm_returned (c : Program.go (ubop Any) (list OutputRef)) : within calm c → within calm (returned c).
Proof. intros Hc. by apply within_bind. Qed.

Lemma calm_callModel attempt : within calm (callModel b job attempt : ucmd _).
Proof.
  apply calm_returned, within_gbind; [|intros; apply calm_emit]. unfold answer. destruct (bi_models b); [|done]. cbn [negb].
  case_decide; [done|]. destruct (if decide _ then _ else _); [|done]. by apply within_gbind; [apply calm_resolve_model|].
Qed.

Lemma body_calm do_ :
  step_plugin_ref (bj_step job) ≠ BuiltinAgent → within calm (do_ job (bj_attempt job)) → body_ok do_.
Proof.
  intros Hr Hc h Hp Ha. eapply safe_mono; [|by apply safe_calm]. intros out h' Hb. split; [by apply beside_unclaimed|].
  destruct Hb as (_ & Hpart & _). unfold body_post. rewrite Hpart, Ha. by destruct out as [[|[]]|].
Qed.

(** ** The agent's body *)

Lemma calm_agentInvoker : within calm (agentInvoker b job).
Proof.
  unfold agentInvoker. destruct (bi_tokens b); [|done]. cbn [negb]. destruct (bi_api b) as [addr|]; [|done]. case_decide; [done|].
  apply within_gbind; [|intros subject; by repeat apply within_gbind]. by apply within_gbind.
Qed.

Lemma calm_make_agent : within calm (make_agent b rules job : Program.go (ubop Any) _).
Proof.
  unfold make_agent. destruct (bi_models b); [|done]. cbn [negb]. apply within_gbind; [done|]. intros names.
  destruct (Atoi _); [|done]. case_decide; [done|]. apply within_gbind; [apply calm_resolve_model|]. intros [].
  apply within_gbind; [apply calm_agentInvoker|]. intros subject. apply within_gbind; [done|]. intros [].
  by destruct (NewAgent _ _ _).
Qed.

Definition made (r : result GoErr (AgentStep * string)) : Prop :=
  ∀ s prompt, r = Ok (s, prompt) → ∃ names ceiling subject, agentGrants (config_at job "grants") = Ok names
    ∧ NewAgent rules (agent_config job names ceiling) (agent_options job subject) = Ok s.

Lemma made_make_agent h : safe no_guard (make_agent b rules job : Program.go (ubop Any) _) (λ r _, made r) h.
Proof.
  unfold make_agent. destruct (bi_models b); [|done]. cbn [negb]. apply safe_gbind. cbn [safe from].
  destruct (agentGrants (config_at job "grants")) as [names|e] eqn:Eg; [|done].
  destruct (Atoi _) as [ceiling|]; [|done]. case_decide; [done|].
  apply safe_gbind, safe_any. intros [[]|e] h1 _; [|done]. apply safe_gbind, safe_any. intros [subject|e] h2 _; [|done].
  apply safe_gbind. cbn [safe from]. destruct (gate b) as [[]|e]; [|done].
  destruct (NewAgent _ _ _) as [s|e] eqn:En; cbn [safe gret gfail]; [|done]. intros ? ? [= <- <-].
  by exists names, ceiling, subject.
Qed.

Lemma calm_parkedAt : within calm (parkedAt job : Program.go (ubop Any) _).
Proof. by apply within_gbind. Qed.

Definition parked_in_log (r : result GoErr (option (ParkRecord * AgentDecision))) (h : list udid) : Prop :=
  ∀ parked d, r = Ok (Some (parked, d)) → standing h (Some (d, pk_Actions parked)).

Lemma log_parkedAt h : safe no_guard (parkedAt job : Program.go (ubop Any) _) parked_in_log h.
Proof.
  apply safe_gbind, safe_act; [done|]. intros [events|e]; cbn [safe from]; [|done]. intros parked d He.
  exists events, parked. split; [apply snoc_elem|]. split; [by apply resumes_at_its_last_park|done].
Qed.

Lemma within_on_agent {A} (c : Program.cmd (agop Any) A) : within (λ X o, ∃ o', o = UAgent o') (on_agent c : ucmd A).
Proof. induction c as [a|X o k IH]; cbn [on_agent within]; [done|]. split; [by eexists|]. intros x. apply IH. Qed.

Lemma agent_unclaimed X (o : ubop Any X) x h : (∃ o', o = UAgent o') → unclaimed h (h ++ [Did o x]).
Proof. intros [o' ->]. split; [apply extends_snoc|]. unfold claims. rewrite pick_snoc. apply app_nil_r. Qed.

Definition standing_of (stopped_at : option (ParkRecord * AgentDecision)) : option (AgentDecision * list string) :=
  (λ '(parked, d), (d, pk_Actions parked)) <$> stopped_at.
Definition prior_of (stopped_at : option (ParkRecord * AgentDecision)) : ParkRecord :=
  match stopped_at with Some (parked, _) => parked | None => no_park end.

Lemma safe_agent_segment n s prompt stopped_at h names ceiling subject :
  placed h → agent_part h = [] → agentGrants (config_at job "grants") = Ok names →
  NewAgent rules (agent_config job names ceiling) (agent_options job subject) = Ok s → standing h (standing_of stopped_at) →
  safe builtin_guard (on_agent (agent_segment n job s prompt stopped_at))
    (λ out h', (came_to s rid sid (prior_of stopped_at) out (agent_part h') ∧ extends h h') ∧ unclaimed h h') h.
Proof.
  intros Hp Ha Hg Hn Hst. apply (safe_within_and (λ X o, ∃ o', o = UAgent o') unclaimed); [apply agent_unclaimed|apply within_on_agent|].
  apply (safe_on_agent (agent_guard s rid sid (prior_of stopped_at) (standing_of stopped_at))).
  - intros X o h' He Hgo. split; [by eapply placed_extends|]. destruct o; try done. destruct Hgo as (Hr & Hs & Hal).
    exists names, ceiling, subject, s, (standing_of stopped_at). split_and!; [done..| |done]. unfold standing in *.
    destruct (standing_of stopped_at) as [[d actions]|]; [|done]. destruct Hst as (events & parked & Hin & Hpos & Hact).
    exists events, parked. split_and!; [by eapply extends_elem|done..].
  - rewrite Ha. destruct stopped_at as [[parked d]|]; [apply safe_Resume|apply safe_Run].
Qed.

Lemma body_runAgent n : body_ok (runAgent b rules n).
Proof.
  intros h Hp Ha. unfold runAgent. apply safe_bind.
  eapply safe_mono; [|apply safe_also; [apply safe_calm; [done|apply calm_make_agent]|apply made_make_agent]].
  intros [[s prompt]|e] h1 [Hb1 Hmade].
  2: { cbn [safe]. split; [by apply beside_unclaimed|]. cbn. destruct Hb1 as (_ & -> & _). by rewrite Ha. }
  destruct (Hmade s prompt eq_refl) as (names & ceiling & subject & Hg & Hn). apply safe_bind.
  assert (Hp1 : placed h1) by by eapply placed_extends; [apply Hb1|].
  eapply safe_mono; [|apply safe_also; [apply safe_calm; [done|apply calm_parkedAt]|apply log_parkedAt]].
  intros [stopped_at|e] h2 [Hb2 Hlog]; (assert (Hb : beside h h2) by by etrans).
  2: { cbn [safe]. split; [by apply beside_unclaimed|]. cbn. destruct Hb as (_ & -> & _). by rewrite Ha. }
  assert (Hp2 : placed h2) by by eapply placed_extends; [apply Hb|].
  assert (Ha2 : agent_part h2 = []) by by destruct Hb as (_ & -> & _).
  apply safe_bind. eapply safe_mono; [|eapply (safe_agent_segment n s prompt stopped_at h2); [done..|]].
  2: { destruct stopped_at as [[parked d]|]; [by apply Hlog|done]. }
  intros out h3 [[Hc _] Hu3]. assert (Hu : unclaimed h h3) by (etrans; [by apply beside_unclaimed|done]).
  destruct out as [r|]; [|done]. destruct (Hc r eq_refl) as (Href & Hgate & Hok). destruct r as [oc|e].
  2: { cbn [safe]. split; [done|]. cbn. apply not_true_iff_false. intros Hg'. by destruct (Hgate Hg') as (? & ? & _). }
  destruct (oc_Parked oc) as [record|] eqn:Ep; [done|]. destruct (Hok oc eq_refl) as (_ & res & He & Hres). rewrite Ep in Hres.
  eapply safe_mono; [|apply safe_calm; [by eapply placed_extends; [apply Hu|]|apply calm_returned, calm_emit]].
  intros out h4 Hb4. split; [etrans; [exact Hu|]; by apply beside_unclaimed|]. destruct Hb4 as (_ & Hpart & _).
  unfold body_post. rewrite Hpart.
  assert (Hg' : gate_opened (agent_part h3) = false).
  { apply not_true_iff_false. intros Hg'. destruct (Hgate Hg') as (? & [= <-] & Hp'). rewrite Ep in Hp'. by destruct Hp'. }
  assert (Hf' : first_refusal (agent_part h3) = None) by (destruct (first_refusal (agent_part h3)); [by specialize (Href _ eq_refl)|done]).
  destruct out as [[outs|[|e]]|]; [|done..]. split_and!; [done|done|]. intros _. exists res. by destruct Hres.
Qed.

(** ** A job *)

Lemma safe_execute_step n : safe builtin_guard (execute b rules n job) attempt_post [].
Proof.
  unfold execute. case_decide as Ha.
  - apply safe_bind. unfold open_gate. destruct (gate b) as [[]|e]; [|by apply attempt_failed; [left|]].
    apply safe_act; [done|]. intros [[]|e]; [apply attempt_quiet|]. by apply attempt_failed; [left|].
  - case_decide as Hl; [|case_decide as Ho; [|case_decide as Hg]].
    + apply safe_attempt_step, body_calm; [by rewrite Hl|apply calm_callModel].
    + apply safe_attempt_step, body_calm; [by rewrite Ho|]. apply calm_returned. by apply within_gbind.
    + apply safe_attempt_step, body_runAgent.
    + by apply attempt_failed; [left|].
Qed.

Lemma safe_fail token cause h :
  holds token h → gate_opened (agent_part h) = false → safe builtin_guard (fail b job token cause) (λ _ _, True) h.
Proof.
  intros Hh Hg. unfold fail, attemptOf, nextAttempt, gbind. rewrite !safe_bind. apply safe_act; [done|]. intros [events|e]; [|done].
  cbn [cbind gret safe]. assert (Hb : ∀ x, beside h (h ++ [Did (UPlane (OReplay tenant rid)) x])) by (intros x; by apply beside_snoc).
  eapply safe_mono; [|apply safe_terminal; [eapply holds_unclaimed, Hh; by apply beside_unclaimed|]]; [done|].
  intros h' payload now (_ & Hpart & _) _. rewrite Hpart. destruct (Hb (Ok events)) as (_ & -> & _). by split.
Qed.

Lemma safe_run n : safe builtin_guard (run b rules n job) (λ _ _, True) [].
Proof.
  unfold run. apply safe_bind. eapply safe_mono; [|apply safe_execute_step]. intros [[token [e|]]|] h Hpost; [|done..].
  destruct (Hpost token e eq_refl) as [Hh Hg]. apply safe_act_bind; [done|]. intros [|]; [done|]. destruct e as [|cause]; [done|].
  assert (Hb : beside h (h ++ [Did UCtxErr false])) by by apply beside_snoc.
  apply safe_bind. eapply safe_mono; [|apply safe_fail]; [done|eapply holds_unclaimed, Hh; by apply beside_unclaimed|].
  destruct Hb as (_ & -> & _). by apply Hg.
Qed.

(** What a body is made of: an agent's call, a model's, a loop's pass, and what
    it takes to make them. *)
Definition works {X} (o : ubop Any X) : Prop :=
  match o with
  | UAgent _ | ULlm _ _ _ _ _ _ | UIterate _ _ _ | UModel _ _ _ _ | UIssueToken _ _ _ _ | UResolve _ _ | UPut _ _ => True
  | _ => False
  end.

(** The event a call writes for this job. *)
Definition writes {X} (o : ubop Any X) : option Event :=
  match o with
  | UPlane o => match o with OTxAppend _ e | OAppend _ e => Some e | _ => None end
  | _ => None
  end.
Definition unfenced {X} (o : ubop Any X) : Prop :=
  match o with UPlane o => match o with OAppend _ _ => True | _ => False end | _ => False end.
Definition committing {X} (o : ubop Any X) : Prop :=
  match o with UPlane o => match o with OTxCommit => True | _ => False end | _ => False end.

(** C12: A plane runs a step's body, whatever it calls for it, only under the
    attempt it was given, after it claimed that attempt, then found no such
    attempt in the log, then committed the dispatch in a transaction that
    found the claim current last. Every transaction it commits found its claim
    current last; what it appends outside one it appends having claimed
    nothing that carries a fence. *)
Theorem builtins_run_under_their_claim n tr r pre X (o : ubop Any X) x post :
  runs (run b rules n job) tr r → tr = pre ++ Did o x :: post →
  (works o → placed pre) ∧ (committing o → commits_fenced pre)
  ∧ (unfenced o → Forall (λ token, tk_Value token = "") (claims pre)).
Proof.
  intros Hr Ht. destruct (safe_runs _ _ _ _ _ _ (safe_run n) Hr) as [Hg _]. specialize (Hg _ _ _ _ _ Ht). cbn [app] in Hg.
  destruct o as [? o|? o| | | | | | | | | | |]; cbn in Hg |- *; split_and!; try done; try by intros [].
  - destruct o; try done; by intros [].
  - destruct o; try done. intros _. by destruct Hg as (_ & _ & _ & _ & Hc).
  - intros _. apply Hg.
Qed.

(** C11: Whatever its model asks for, an agent step takes an action only when its
    own [grants] name it and it is one of the contract's, in the name of its
    own run and step, under a placed attempt, after the step was still running
    and the taint policy let this action through on untrusted credentials in
    the same turn, and with the attempt put in the run log. An action that may
    happen at most once it takes only on an approval that is in the log, by
    somebody, made after the agent last parked and of the actions it parked
    on: before the model was called again, and no more often than it was asked
    about. *)
Theorem agents_act_only_as_allowed n tr r pre inv x post :
  runs (run b rules n job) tr r → tr = pre ++ Did (UAgent (GInvoke inv)) x :: post →
  placed pre ∧ inv_RunID inv = rid ∧ inv_StepID inv = sid
  ∧ ∃ names ceiling subject s w action, agentGrants (config_at job "grants") = Ok names
    ∧ NewAgent rules (agent_config job names ceiling) (agent_options job subject) = Ok s
    ∧ (∃ name, name ∈ names ∧ TrimSpace name = inv_Action inv) ∧ action ∈ ContractCatalogue ∧ step_id action = inv_Action inv
    ∧ cleared s inv action (this_turn (agent_part pre)) ∧ standing pre w
    ∧ if needsApproval action then covered s w inv (agent_part pre)
      else noted s inv (mkActionRecord subject (inv_Action inv) true "" "" "") (this_turn (agent_part pre)).
Proof.
  intros Hr Ht. destruct (safe_runs _ _ _ _ _ _ (safe_run n) Hr) as [Hg _]. specialize (Hg _ _ _ _ _ Ht). cbn [app] in Hg.
  destruct Hg as (Hp & names & ceiling & subject & s & w & Hn & Hs & Hri & Hsi & Hst & action & Hact & Hcl & Hcase).
  split_and!; [done..|]. destruct (new_agent_grants _ _ _ _ Hs) as (Hgr & Hsub).
  destruct (Hgr _ _ Hact) as (name & Hin & Htrim & Hcat & Hid).
  exists names, ceiling, subject, s, w, action. split_and!; [done..| |done|done|done|done|].
  - by exists name.
  - cbn in Hsub. by rewrite <-Hsub.
Qed.

(** C13: The verdict a plane writes of a step it ran is of that step, and never
    while a gate the step opened in this attempt waits for its answer. It is
    STEP_SUCCEEDED only for a placed attempt, of an agent only when its loop
    came to an end with nothing pending and none of its tool calls was refused,
    whatever the model made of the refusal. *)
Theorem agent_verdicts_are_truthful n tr r pre X (o : ubop Any X) x post e :
  runs (run b rules n job) tr r → tr = pre ++ Did o x :: post → writes o = Some e →
  ev_RunID e = rid ∧ ev_StepID e = sid
  ∧ (ev_Type e ≠ StepDispatched → gate_opened (agent_part pre) = false)
  ∧ (ev_Type e = StepSucceeded → placed pre ∧ ev_Attempt e = bj_attempt job ∧ first_refusal (agent_part pre) = None
     ∧ (step_plugin_ref (bj_step job) = BuiltinAgent → ∃ res, ended (Ok res) (agent_part pre) ∧ ge_Pending res = [])).
Proof.
  intros Hr Ht He. destruct (safe_runs _ _ _ _ _ _ (safe_run n) Hr) as [Hg _]. specialize (Hg _ _ _ _ _ Ht). cbn [app] in Hg.
  assert (Hall : ev_RunID e = rid ∧ ev_StepID e = sid ∧ verdict_ok e pre).
  { destruct o as [? o|? o| | | | | | | | | | |]; try done. destruct o; try done; injection He as <-; cbn in Hg; tauto. }
  destruct Hall as (Hri & Hsi & Hv). split_and!; [done|done|by apply Hv|]. intros Hty.
  apply Hv; [|done]. by rewrite Hty.
Qed.

(** ** A claim that failed *)

(** A plane whose claim failed for any reason but that the attempt is taken
    records STEP_FAILED with no fence, for the last attempt in the log: one
    another plane has dispatched, if it did, and may still be running. *)
Lemma failed_claim_fails_another_plane n e events now payload x :
  step_plugin_ref (bj_step job) = BuiltinLLM → bj_attempt job ≠ 0 → bi_leases b = true → Is e ErrAlreadyOffered = false →
  let attempt := u32 (highest_dispatch sid events) in attempt ≠ 0 →
  let cause := ErrWrap ("claiming the lease on " +:+ rid +:+ "/" +:+ sid) e in
  MarshalStatus (mkJobStatus rid sid attempt "" PHASE_FAILED 0 [] (err_text cause) "") = Some payload →
  runs (run b rules n job)
    [Did (UPlane claiming) (Err e); Did UCtxErr false; Did (UPlane (OReplay tenant rid)) (Ok events);
     Did (UPlane ONow) now; Did (UPlane (OAppend tenant (mkEvent rid sid attempt 0 StepFailed payload now))) x] (Some tt).
Proof.
  intros Href Ha Hl He attempt Hat cause Hm. unfold run, execute. rewrite Href.
  rewrite decide_False by done. rewrite decide_True by done. unfold attempt_step. rewrite decide_False by done.
  unfold claim. rewrite Hl. cbn [negb wrap cbind act]. constructor. cbn [cbind].
  assert (Hw : Is (ErrWrap ("claiming the lease on " +:+ rid +:+ "/" +:+ sid) e) ErrAlreadyOffered = false) by (cbn; by rewrite He).
  rewrite Hw. cbn [cbind act]. constructor. unfold fail, attemptOf, nextAttempt. cbn [cbind gbind act]. constructor.
  cbn [cbind gbind gret]. rewrite u32_round. fold attempt. rewrite (decide_False (P := attempt = 0)) by done.
  unfold terminal. fold cause. rewrite Hm. cbn [cbind act]. constructor. cbn [cbind].
  rewrite decide_True by done. cbn [cbind act]. constructor. constructor.
Qed.
End job.

(** ** Renewing *)

Abbreviation rdid := (Program.did rnop).

(** When a renewal last succeeded, and whether one did since the clock was last
    read. *)
Definition renewal_step (s : Z * bool) (d : rdid) : Z * bool :=
  match d with
  | Did o x => match o in rnop X return X → Z * bool with
               | RRenew _ => λ x, match x with Ok _ => (fst s, true) | Err _ => s end
               | RNow => λ now, if snd s then (now, false) else s
               | _ => λ _, s
               end x
  end.
Definition renewals (began : Z) (h : list rdid) : Z * bool := foldl renewal_step (began, false) h.

(** The lease is lost: another has it, or none was renewed for its whole time. *)
Definition lease_lost (token : Token) (began : Z) (h : list rdid) (e : GoErr) : Prop :=
  ∃ h', (Is e ErrFenced = true ∧ h = h' ++ [Did (RRenew token) (Err e); Did RStopped false])
  ∨ ∃ now, Is e ErrFenced = false ∧ h = h' ++ [Did (RRenew token) (Err e); Did RStopped false; Did RNow now]
    ∧ bi_ttl b ≤ now - fst (renewals began h').

Definition renewing_guard (token : Token) (began : Z) : Program.guard rnop := λ X o h,
  match o with
  | RTick => ∀ e, ¬ lease_lost token began h e
  | RRenew t => t = token
  | RLost e => lease_lost token began h e
  | _ => True
  end.

Lemma renewals_snoc began h d : renewals began (h ++ [d]) = renewal_step (renewals began h) d.
Proof. unfold renewals. by rewrite foldl_app. Qed.

Lemma not_lost_renewed token began h now : ∀ e, ¬ lease_lost token began (h ++ [Did (RRenew token) (Ok tt); Did RNow now]) e.
Proof.
  intros e [h' [[_ Heq]|(t & _ & Heq & _)]].
  - apply (f_equal reverse) in Heq. rewrite !reverse_app in Heq. discriminate (f_equal (λ l, match l with Did RNow _ :: _ => 0 | _ => 1 end) Heq).
  - apply (f_equal reverse) in Heq. rewrite !reverse_app in Heq.
    discriminate (f_equal (λ l, match l with _ :: Did RStopped _ :: _ => 0 | _ => 1 end) Heq).
Qed.

Lemma not_lost_yet token began h e now :
  Is e ErrFenced = false → ¬ bi_ttl b ≤ now - fst (renewals began h) →
  ∀ e', ¬ lease_lost token began (h ++ [Did (RRenew token) (Err e); Did RStopped false; Did RNow now]) e'.
Proof.
  intros He Hn e' [h' [[_ Heq]|(t & _ & Heq & Hle)]].
  - apply (f_equal reverse) in Heq. rewrite !reverse_app in Heq.
    discriminate (f_equal (λ l, match l with Did RNow _ :: _ => 0 | _ => 1 end) Heq).
  - apply app_inj_2 in Heq as [-> Heq]; [|done].
    assert (Ht : now = t) by exact (f_equal (λ l : list rdid, match l with [_; _; Did o x] => match o in rnop X return X → Z with RNow => λ x, x | _ => λ _, 0 end x | _ => 0 end) Heq).
    by subst t.
Qed.

(** The body of a step this plane runs is stopped exactly when its lease is
    lost: a renewal was refused as fenced, or none has succeeded for a whole
    time to live; and the renewing goes on only while neither is so. *)
Lemma lost_leases_stop_their_bodies n token began : safe (renewing_guard token began) (renewing b n token began) (λ _ _, True) [].
Proof.
  enough (Hgen : ∀ h, (∀ e, ¬ lease_lost token began h e) → snd (renewals began h) = false →
    safe (renewing_guard token began) (renewing b n token (fst (renewals began h))) (λ _ _, True) h).
  { apply (Hgen []); [|done]. intros e [h' [[_ Heq]|(t & _ & Heq & _)]]; by destruct h'. }
  induction n as [|n IH]; intros h Hh Hs; cbn [renewing]; [done|]. apply safe_act_bind; [done|]. intros [|]; [|done]. cbn [negb].
  set (h1 := h ++ [Did RTick true]). assert (Hh1 : renewals began h1 = renewals began h) by (unfold h1; by rewrite renewals_snoc).
  rewrite <-Hh1 in *. clearbody h1. apply safe_act_bind; [done|]. intros [[]|e].
  - apply safe_act_bind; [done|]. intros now.
    assert (Hr : renewals began ((h1 ++ [Did (RRenew token) (Ok tt)]) ++ [Did RNow now]) = (now, false)) by by rewrite !renewals_snoc.
    change now with (fst (now, false)) at 1. rewrite <-Hr. apply IH; [|by rewrite Hr]. rewrite <-app_assoc. apply not_lost_renewed.
  - apply safe_act_bind; [done|]. intros [|]; [done|]. destruct (Is e ErrFenced) eqn:Ef.
    + apply safe_act; [|done]. exists h1. left. split; [done|]. by rewrite <-app_assoc.
    + apply safe_act_bind; [done|]. intros now. rewrite <-!app_assoc. cbn [app]. case_decide as Hd.
      * apply safe_act; [|done]. exists h1. right. by exists now.
      * assert (Hr : renewals began (h1 ++ [Did (RRenew token) (Err e); Did RStopped false; Did RNow now]) = renewals began h1).
        { unfold renewals in *. rewrite foldl_app. cbn. by destruct (foldl _ _ h1) as [? []]. }
        rewrite <-Hr. apply IH; [|by rewrite Hr]. by apply not_lost_yet.
Qed.
End Builtins.

(** ** What is taken *)

(** A job is offered by an advancing pass, sent or given up, begun by a worker,
    and finished. *)
Inductive taking_step : Taken → Taken → Prop :=
| ts_mark job s : taking_step s (fst (take_mark job s))
| ts_send i ended s : taking_step s (take_send i ended s)
| ts_begin s : taking_step s (work_begin s)
| ts_end i s : taking_step s (work_end i s).

Definition taken_jobs (s : Taken) : list builtinJob := ta_taking s ++ ta_jobs s ++ ta_working s.

Record taken_ok (s : Taken) : Prop := mkTakenOk
  { tk_once : NoDup (map key_of (taken_jobs s));
    tk_running : ∀ key, key ∈ ta_running s ↔ key ∈ map key_of (taken_jobs s);
    tk_queue : (length (ta_jobs s) ≤ builtinQueue)%nat;
    tk_workers : (length (ta_working s) ≤ builtinWorkers)%nat;
    tk_hosted : ∀ job, job ∈ taken_jobs s →
      has_prefix BuiltinScheme (step_plugin_ref (bj_step job)) = true ∧ IsGate (step_plugin_ref (bj_step job)) = false }.

(** The jobs rearranged. *)
Lemma taken_ok_perm s s' :
  taken_jobs s' ≡ₚ taken_jobs s → ta_running s' = ta_running s → (length (ta_jobs s') ≤ builtinQueue)%nat →
  (length (ta_working s') ≤ builtinWorkers)%nat → taken_ok s → taken_ok s'.
Proof.
  intros Hp Hr Hq Hw [H1 H2 _ _ H5]. split; [by rewrite Hp|intros key; by rewrite Hp, Hr|done|done|].
  intros job Hj. apply H5. by rewrite <-Hp.
Qed.

(** One given up or finished. *)
Lemma taken_ok_release s s' job :
  taken_jobs s ≡ₚ job :: taken_jobs s' → ta_running s' = ta_running s ∖ {[key_of job]} → (length (ta_jobs s') ≤ builtinQueue)%nat →
  (length (ta_working s') ≤ builtinWorkers)%nat → taken_ok s → taken_ok s'.
Proof.
  intros Hp Hr Hq Hw [H1 H2 _ _ H5]. rewrite Hp in H1. cbn [map] in H1. apply NoDup_cons in H1 as [Hn H1].
  split; [done| |done|done|intros j Hj; apply H5; rewrite Hp; by right].
  intros key. rewrite Hr, elem_of_difference, elem_of_singleton, H2, Hp. cbn [map]. rewrite elem_of_cons. split; [tauto|].
  intros Hk. split; [by right|]. by intros ->.
Qed.

Lemma delete_perm {A} (l : list A) i x : l !! i = Some x → l ≡ₚ x :: delete i l.
Proof. apply delete_Permutation. Qed.

Lemma taken_ok_step s s' : taking_step s s' → taken_ok s → taken_ok s'.
Proof.
  intros Hs Hok. destruct Hs as [job s|i ended s|s|i s].
  - unfold take_mark. destruct (has_prefix _ _) eqn:Ep; cbn [negb]; [|done]. destruct (IsGate _) eqn:Eg; [done|].
    case_decide as Hd; [done|]. destruct Hok as [H1 H2 H3 H4 H5]. cbn [fst]. split; [|intros key|done|done|].
    + cbn. apply NoDup_cons. split; [|done]. by rewrite <-H2.
    + cbn. rewrite elem_of_union, elem_of_singleton, elem_of_cons. by rewrite H2.
    + cbn. intros j [->|Hj]%elem_of_cons; [done|by apply H5].
  - unfold take_send. destruct (ta_taking s !! i) as [job|] eqn:Ei; [|done]. pose proof (delete_perm _ _ _ Ei) as Hp.
    destruct ended; cbn [orb]; [|case_bool_decide as Hl; cbn [negb]].
    1, 3: apply (taken_ok_release s _ job); [by unfold taken_jobs; cbn; rewrite Hp at 1|done|apply Hok|apply Hok|done].
    apply (taken_ok_perm s); [|done| |apply Hok|done].
    + unfold taken_jobs. cbn. rewrite Hp at 2. cbn. solve_Permutation.
    + cbn. rewrite length_app. cbn. lia.
  - unfold work_begin. destruct (ta_jobs s) as [|job jobs] eqn:Ej; [done|]. case_decide as Hl; [|done].
    pose proof (tk_queue _ Hok) as Hq. rewrite Ej in Hq. cbn in Hq.
    apply (taken_ok_perm s); [|done|cbn; lia| |done].
    + unfold taken_jobs. cbn. rewrite Ej. solve_Permutation.
    + cbn. rewrite length_app. cbn. lia.
  - unfold work_end. destruct (ta_working s !! i) as [job|] eqn:Ei; [|done]. pose proof (delete_perm _ _ _ Ei) as Hp.
    apply (taken_ok_release s _ job); [|done|apply Hok| |done].
    + unfold taken_jobs. cbn. rewrite Hp at 1. solve_Permutation.
    + cbn. pose proof (tk_workers _ Hok) as Hw. rewrite Hp in Hw. cbn in Hw. lia.
Qed.

(** One plane never has a step of a run twice, queued or running, and is busy
    with a step exactly while it has it; its queue and its workers are bounded;
    and it takes only the steps a plane runs, never one that waits. *)
Lemma one_job_per_step s : rtc taking_step nothing_taken s → taken_ok s.
Proof.
  intros Hr. assert (H0 : taken_ok nothing_taken).
  { split; cbn; [constructor|intros key; split; [by intros ?%elem_of_empty|by intros ?%elem_of_nil]|unfold builtinQueue; lia|lia|by intros job ?%elem_of_nil]. }
  revert H0. induction Hr as [|s1 s2 s3 Hs _ IH]; [done|]. intros Hok. apply IH. by eapply taken_ok_step.
Qed.

(** ** A plane resuming an agent *)

#[local] Existing Instance AgentFacts.ex_json.
#[local] Instance ex_approval_json : ApprovalJSON :=
  {| enc_request _ := ""; UnmarshalRequest _ := None; enc_decision _ := "";
     UnmarshalDecision _ := Some (mkGateDecision "ann" true "fine" 0); enc_denial _ := "" |}.

Definition ex_plane : builtinsCfg := mkBuiltins true true true true (Some "127.0.0.1:80") true 30.
Definition ex_agent_step : Step :=
  {| step_id := "triage"; step_name := ""; step_plugin_ref := BuiltinAgent; step_effect_class := EFFECT_CLASS_IDEMPOTENT;
     step_inputs := []; step_outputs := []; step_capabilities := []; step_lease_scope := LEASE_SCOPE_UNSPECIFIED;
     step_config := <["grants" := "read_run,start_run"]> (<["max_steps" := "5"]> (<["prompt" := "go"]> ∅));
     step_image := ""; step_engine_type := ""; step_timeout_seconds := 0; step_file_inputs := []; step_secrets := [] |}.
Definition ex_job : builtinJob := mkBJob "t" "r1" ex_agent_step 2.

Definition ex_built (X : Type) (o : ubop string X) (w : world * list (callback string)) : (world * list (callback string)) * X :=
  match o in ubop _ X return (world * list (callback string)) * X with
  | UPlane o => let '(w', x) := ex_answer _ o (fst w) in ((w', snd w), x)
  | UAgent o => let '(script, x) := ex_reply _ o (snd w) in ((fst w, script), x)
  | UCtxErr => (w, false)
  | UStartRenewing _ => (w, tt)
  | UStopRenewing => (w, tt)
  | ULeaseLost => (w, false)
  | UResolve _ _ => (w, Ok "key")
  | UModel _ _ _ _ => (w, Ok tt)
  | ULlm _ _ _ _ _ _ => (w, Ok "answer")
  | UIssueToken _ _ _ _ => (w, Ok "token")
  | UPut _ _ => (w, Ok (mkDigest "sha256" "00"))
  | URequestGate _ _ _ _ => (w, Ok tt)
  | UIterate _ _ _ => (w, Ok tt)
  end.

Definition ex_resuming_world : world * list (callback string) :=
  (ex_world [("triage", StepDispatched); ("triage", EventParked); ("triage", StepApprovalDecided)], ex_second_script).

Definition ex_resuming : list (Program.did (ubop string)) :=
  trace_of ex_built (run ex_plane (Ok tt) 9 ex_job) ex_resuming_world.
Lemma ex_resuming_runs : runs (run ex_plane (Ok tt) 9 ex_job) ex_resuming (Some (snd (drive ex_built (run ex_plane (Ok tt) 9 ex_job) ex_resuming_world))).
Proof. exact (trace_of_runs ex_built (run ex_plane (Ok tt) 9 ex_job) ex_resuming_world). Qed.

Definition ex_before : list (Program.did (ubop string)) := firstn 17 ex_resuming.
Definition ex_after : list (Program.did (ubop string)) := skipn 18 ex_resuming.
Definition ex_invocation : Invocation := mkInvocation "r1" "triage" "start_run" "{}" ∅.
Lemma ex_resuming_invokes : ex_resuming = ex_before ++ Did (UAgent (GInvoke ex_invocation)) (Ok "{}") :: ex_after.
Proof. vm_compute. reflexivity. Qed.

Definition ex_unwritten : list (Program.did (ubop string)) := firstn 24 ex_resuming.
Definition ex_written : list (Program.did (ubop string)) := skipn 25 ex_resuming.
Definition ex_verdict : Event := mkEvent "r1" "triage" 2 0 StepSucceeded "status" 0.
Lemma ex_resuming_writes : ex_resuming = ex_unwritten ++ Did (UPlane (OTxAppend "t" ex_verdict)) (Ok tt) :: ex_written.
Proof. vm_compute. reflexivity. Qed.

Lemma builtins_run_under_their_claim_witness : placed ex_plane ex_job ex_before.
Proof.
  exact (proj1 (builtins_run_under_their_claim ex_plane (Ok tt) ex_job 9 ex_resuming _ ex_before _
    (UAgent (GInvoke ex_invocation)) (Ok "{}") ex_after ex_resuming_runs ex_resuming_invokes) I).
Defined.

Lemma agents_act_only_as_allowed_witness : placed ex_plane ex_job ex_before ∧ inv_Action ex_invocation = ActionStartRun.
Proof.
  split; [|reflexivity].
  exact (proj1 (agents_act_only_as_allowed ex_plane (Ok tt) ex_job 9 ex_resuming _ ex_before ex_invocation (Ok "{}") ex_after
    ex_resuming_runs ex_resuming_invokes)).
Defined.

Lemma agent_verdicts_are_truthful_witness : first_refusal (agent_part ex_unwritten) = None ∧ gate_opened (agent_part ex_unwritten) = false.
Proof.
  destruct (agent_verdicts_are_truthful ex_plane (Ok tt) ex_job 9 ex_resuming _ ex_unwritten _ (UPlane (OTxAppend "t" ex_verdict))
    (Ok tt) ex_written ex_verdict ex_resuming_runs ex_resuming_writes eq_refl) as (_ & _ & Hgate & Hok).
  split; [exact (proj1 (proj2 (proj2 (Hok eq_refl))))|]. apply Hgate. discriminate.
Defined.
